(* ===== verification/_CoqProject ===== *)
-Q . S2P
Prelude.v
Decimal.v
Json.v
Log.v
Catalog.v
Snapshot.v
Projection.v
Scheduler.v
Request.v
Session.v
Idempotency.v
Cache.v
Pattern.v
Router.v
Pboc.v
PbocSafety.v
PbocReleases.v
PbocAdmission.v
PbocBundle.v
PbocBundleSafety.v
PbocRouting.v
Sdk.v
SdkHost.v
SdkSafety.v
SdkTooling.v
SdkCompat.v
Reactive.v
ReactiveRun.v
ReactiveGraph.v
ReactiveSafety.v
ReactivePure.v
ReactiveSettle.v
DomName.v
Dom.v
DomTokens.v
DomHtml.v
DomNesting.v
KeyedLis.v
MountTree.v
MountState.v
MountSample.v
MountLayout.v
MountScope.v
MountUpdate.v
MountView.v
MountReconcile.v
MountSafety.v
MountOutcome.v
MountDynamic.v
Limits.v
Scope.v
ScopeSafety.v
Hyphae.v
HyphaeReplay.v
HyphaeChain.v
HyphaeSync.v
HyphaeWire.v
HyphaeLive.v
Csrf.v
Outbound.v
DataContext.v
Loader.v
Action.v
ActionSafety.v
