(* ===== verification/Prelude.v ===== *)
(** * A verification of PliegoRS

    PliegoRS ([src/]) is a Rust web framework of 21 crates: a content-addressed event
    log with typed schemas ([pliego-log]), projections and a causal scheduler over it
    ([pliego-fold]), request data with sessions, idempotency and caching
    ([pliego-data]), a sealed router ([pliego-router]), fine-grained reactivity
    ([pliego-reactive]), and around them rendering, hosting, publishing and tooling
    crates. The development models the first five, the server rendering and the mounting
    of [pliego-dom], the request scopes of [pliego-runtime], the synchronisation
    contract [pliego-hyphae], the build output contract [pliego-pboc] and the extension
    contract [pliego-sdk], each as executable definitions translated from the Rust and
    theorems about them.

    ** How the parts interact

    An application appends typed events to a [Log]; [Catalog] decodes them through
    upcasters to the current schema. A [Projection] folds the decoded tail of the log
    into a state, checkpoints it with a [Snapshot], and [Scheduler] turns user
    commands into transactions on the log and its projections. A request is resolved
    by [Router] over the patterns of [Pattern]; its handlers load and act through a
    [DataContext], with [Session], [Csrf], [Idempotency], [Cache] and [Outbound], which
    share [Request], within one [Scope] and the [Limits] of the runtime. On the client, [Reactive] and
    [ReactiveRun] keep views up to date; on the server, [Dom] builds the same views and
    writes them as HTML, and [MountView] mounts them over the DOM of a browser, where
    [MountUpdate] reconciles what changes. [Hyphae] and [HyphaeReplay] carry the events of a [Log] to a
    durable journal and back, under the policy of a [Catalog]. A build is described by
    the manifest of [Pboc], from which a host admits it, [PbocBundle] verifies its files
    and [PbocRouting] makes the [Router] that serves it. Extensions of a host are admitted by
    [Sdk] and run by [SdkHost]; [SdkTooling] serves the tools of a workspace.

    ** Files and code

    - [Decimal], [Json]: canonical JSON of [crates/pliego-log/src/lib.rs]
      ([canonical_number], [CanonicalJson]). Canonical text decides numeric and
      structural equality; admission is exact; [parse] is total.
    - [Log]: [Event], [Log], [LogCursor]. A hash chain is tamper evidence: cursors
      and heads bind histories or exhibit a SHA-256 collision; import is exact and
      inverts export.
    - [Catalog]: [EventCatalogBuilder], [SealedEventCatalog]. Decoding terminates,
      and with pure closures it is the composition of the upcasters; the digest binds
      the schemas.
    - [Snapshot]: [crates/pliego-fold/src/snapshot.rs], [state_root.rs]. The wire
      envelope and its decoder are inverse; roots bind snapshots.
    - [Projection]: [projection.rs]. In every state that a created or restored projection
      reaches, a read is the replay of the log from where it started; restore and
      synchronize are checked and transactional.
    - [Scheduler]: [scheduler.rs]. A drain terminates within its limits; a
      transaction is atomic, panics of effects included.
    - [Request], [Session], [Idempotency], [Cache]: [crates/pliego-data/src/lib.rs],
      [session.rs], [idempotency.rs], [cache.rs]. Stores are state machines whose
      calls any number of managers interleave: revoked sessions stay revoked, each
      idempotency scope follows its automaton until a permit is used that outlived its
      retention, cached values are those last inserted, keys bind their inputs.
    - [Csrf]: [secret.rs], [csrf.rs]. Tokens bind session, action and revision over key
      rotation. [Outbound]: [outbound.rs]. Permits, after any chain of redirects, stay
      within a builder-made policy and outside the special-purpose address blocks but for
      those listed as overlooked.
    - [DataContext]: [context.rs], [resource.rs], [values.rs], [receipt.rs], [error.rs],
      [authority.rs]. Leases are what grants and resources allow; a close runs every
      cleanup once. [Loader]: [loader.rs]. The concurrent loads of a request answer from one run
      per invocation, each at its own type.
    - [Action]: [action.rs]. User futures as programs that suspend and panic; [act] under
      every interruption and [act_idempotent] over the store of [Idempotency].
      [ActionSafety]: failures tell the truth about the commit, and honest actions commit
      at most once per retention, with the exceptions that the code leaves named.
    - [Pattern], [Router]: [crates/pliego-router/src/lib.rs]. Matching inverts
      instantiation, sealing does not depend on the order of declarations, resolution
      gives the unique most specific route or the exact refusal.
    - [Pboc]: [crates/pliego-pboc/src/model.rs], [validate.rs], [util.rs],
      [compatibility.rs]. [PbocSafety]: what a valid manifest refers to is declared in it.
      [PbocAdmission]: admission by a host is exact and never panics. [PbocReleases]:
      rollback walks back what was rolled out; the runtime digest binds its entries.
      [PbocBundle]: [artifact.rs], the verification of a directory others may change;
      [PbocBundleSafety]: it is exact over names as [to_string_lossy] reads them, and its
      digest binds what was read.
      [PbocRouting]: [router.rs], exact over the declared routes.
    - [Sdk]: [crates/pliego-sdk/src/manifest.rs], [component.rs], [capability.rs], the
      admission of an extension and the effect broker; [SdkHost]: [runtime.rs], the run
      of an admitted component. [SdkSafety]: admission is exact, and whatever a guest
      asks for, the executor is called only within its grants and budget, with one
      receipt for every call. [SdkTooling]: [tooling.rs]; MCP tools are reachable
      exactly after a completed initialization. [SdkCompat]: [compatibility.rs], the
      validation of the compatibility matrix.
    - [Reactive], [ReactiveRun]: [crates/pliego-reactive/src/lib.rs], the runtime and
      its public API, with user closures as programs over the API that may panic
      anywhere. [ReactiveGraph] and [ReactiveSafety] show that no program breaks the
      graph or revives a handle; [ReactivePure] and [ReactiveSettle] that on pure
      graphs reads equal the reference semantics and writes run exactly the affected
      effects, once, on final values.

    - [DomName], [Dom]: [crates/pliego-dom/src/name.rs], [keyed.rs], [lib.rs]: validated
      names, keyed rows, the builders of views and the walker that writes HTML.
      [DomTokens] is the part of the HTML tokenizer well-formed markup visits. [DomHtml]
      shows that builders make well-formed views, that rendered HTML is read back as
      the view, holds no active content and stays within its limits; [DomNesting] that
      the tree builder repairs nothing in it but for three shapes the walker overlooks.
    - [KeyedLis], [MountTree], [MountState], [MountScope], [MountUpdate], [MountView]:
      [crates/pliego-dom/src/mount.rs], [plan.rs]: the layout checks, the error queue,
      who owns which nodes and how they leave the document, the updates of dynamic and
      keyed slots, and the mounting of views. The browser is the class [Browser] with
      the DOM standard as [BrowserLaws]; code of views, observers and custom elements
      runs at the [Site]s and may do anything but reach a slot under update.
      [KeyedLis]: the fewest rows are moved. [MountLayout]: the checks decide the layout.
      [MountReconcile]: the mutation of an undisturbed update is exact. [MountSafety]:
      every operation keeps the slots under update. [MountOutcome], [MountDynamic]: an
      update that answers installs what it should, gives the slot back, or poisons it.
      [MountSample] is a small browser for running the model.
    - [Limits], [Scope]: [crates/pliego-runtime/src/limits.rs], [scope.rs]: admission of
      request heads, and the life of a request as concurrent programs of atomic actions.
      [ScopeSafety] verifies each operation against an invariant and ghost ownership:
      cleanups run exactly once, at most one receipt, limits, facts that never go back.
    - [Hyphae], [HyphaeReplay]: [crates/pliego-hyphae/src/lib.rs], the wire contract, and
      verification, retry and replay. [HyphaeChain]: what passes the checks is a segment
      of one hash chain. [HyphaeSync]: replay delivers the stream exactly once, and is
      idempotent. [HyphaeWire]: signed bytes determine their claims. [HyphaeLive]: the
      pages of an honest authority are always accepted.

    ** Bounds and fuel

    A loop without a structural measure takes fuel, computed from its input where the
    code terminates on its own ([explore_fuel], [collect_fuel], the upcast and drain
    loops), with a theorem that it is never exhausted. The machine of [ReactiveRun]
    runs arbitrary user code, so its fuel is a parameter: the safety theorems hold
    for every fuel, and the theorems on pure graphs give a bound above which the
    result does not depend on it. The budget of a flush (at most 1,000,000 effects) is
    a hypothesis of half a million live nodes there. The walks of [MountTree] over
    siblings and parents are bounded by the children of the node and the size of the
    document; the fuel of [dispose] is the depth to which scopes nest. A run of [MountState]'s
    monad answers ([Ran]) or is [Stuck], by a panic or by the end of that fuel, which the
    outcome tells apart. Machine integers are [N] with
    the checks, saturations and wraps of the code.

    ** Not modelled

    Third-party crates are parameters: [sha2] and [hmac], [serde_json], [base64],
    [semver], [wasmparser], [wasmtime], random sources, Unicode tables and normalization. What a file system answers to
    [PbocBundle] is its argument. The [Drop] of user values is taken
    to have no effect, and a memo's comparison is a function. The model of mounting
    leaves out the adoption of server markup ([mount/adopt.rs]), which starts the same
    effects over markup that is already there, and the lookup of hosts by id. The state
    codec of [pliego-fold] is a serde format; uploads, host and transport of
    [pliego-runtime], and the crates for hosting, publishing, content, assets,
    inspection and command line are mostly I/O over libraries this development does
    not have; the report on a WIT package ([pliego-sdk/src/wit.rs]) is that of [wit_parser].

    ** Prelude

    The vocabulary every component shares:

    - [result] is Rust's [Result<T, E>], with stdpp's monad notations for the
      [?] operator and two notations for the early-return idiom
      [if cond { return Err(e); }];
    - byte buffers are [list byte]; a Rust [String]/[&str] is a Rocq [string]
      whose characters are its UTF-8 bytes, so that [str::len] is
      [String.length];
    - [usize], [u64] and [u32] values are [N] below their width, and lengths are
      compared as [N] so that the byte limits of the code stay binary numerals;
    - [be_bytes]/[be_value] are [to_be_bytes]/[from_be_bytes];
    - [lp] is the eight-byte length prefix every digest preimage uses;
    - [btree_iter] is the ascending iteration order of [BTreeMap];
    - [Sha256] is the interface to the [sha2] crate. *)

From Stdlib Require Export NArith ZArith Lia.
From Stdlib Require Export Strings.Byte Strings.Ascii.
From Stdlib Require Strings.String.
From stdpp Require Export base gmap sets list strings sorting numbers.
Export list_basics.list list_relations.list list_monad.list list_misc.list list_tactics.list list_numbers.list.

#[global] Open Scope N_scope.
#[global] Open Scope stdpp_scope.
#[global] Set Default Goal Selector "!".
#[export] Set Warnings "-clear-no-such-hyp,-register-all".

Declare Scope pliego_scope.
Delimit Scope pliego_scope with pliego.
#[global] Open Scope pliego_scope.

(** ** Results *)

Inductive result (E A : Type) : Type :=
| Ok (value : A)
| Err (error : E).

Arguments Ok {E A} value.
Arguments Err {E A} error.

#[export] Instance result_eq_dec {E A} `{EqDecision E, EqDecision A} : EqDecision (result E A).
Proof. solve_decision. Defined.

#[export] Instance result_ret {E} : MRet (result E) := fun A (a : A) => Ok a.

#[export] Instance result_bind {E} : MBind (result E) :=
  fun A B (f : A -> result E B) (r : result E A) =>
    match r with
    | Ok a => f a
    | Err e => Err e
    end.

#[export] Instance result_fmap {E} : FMap (result E) :=
  fun A B (f : A -> B) (r : result E A) =>
    match r with
    | Ok a => Ok (f a)
    | Err e => Err e
    end.

(** [Result::map_err]. *)
Definition map_err {E F A} (f : E -> F) (r : result E A) : result F A :=
  match r with
  | Ok a => Ok a
  | Err e => Err (f e)
  end.

(** [Option::ok_or]. *)
Definition ok_or {E A} (e : E) (o : option A) : result E A :=
  match o with
  | Some a => Ok a
  | None => Err e
  end.

Definition is_ok {E A} (r : result E A) : bool :=
  match r with Ok _ => true | Err _ => false end.

(** [if c { return Err(e); } k] *)
Notation "'fail_if' c 'with' e ';;' k" := (if (c : bool) then Err e else k)
  (at level 100, c at level 99, e at level 99, k at level 200, right associativity,
   format "'[v' 'fail_if'  c  'with'  e  ';;' '/' k ']'") : pliego_scope.

(** ** Bytes and machine integers *)

Abbreviation bytes := (list byte).

#[export] Instance byte_eq_dec : EqDecision byte := Byte.byte_eq_dec.

#[export] Program Instance byte_countable : Countable byte :=
  inj_countable Byte.to_N Byte.of_N _.
Next Obligation. intros b. apply Byte.of_to_N. Qed.

Definition u32_max : N := 4294967295.
Definition u64_max : N := 18446744073709551615.

(** The length of a slice as an [N]. *)
Definition blen {A} (l : list A) : N := N.of_nat (length l).

(** [str::len]: the number of UTF-8 bytes. *)
Definition slen (s : string) : N := N.of_nat (String.length s).

(** [str::as_bytes]. *)
Definition as_bytes (s : string) : bytes := String.list_byte_of_string s.

Definition byte_of (n : N) : byte := default x00 (Byte.of_N n).

(** [to_be_bytes] of an integer of [width] bytes. *)
Fixpoint be_bytes (width : nat) (x : N) : bytes :=
  match width with
  | O => []
  | S w => be_bytes w (x / 256) ++ [byte_of (x mod 256)]
  end.

(** [from_be_bytes]. *)
Definition be_value (bs : bytes) : N :=
  fold_left (fun acc b => acc * 256 + Byte.to_N b) bs 0.

(** [u64::saturating_add]. *)
Definition saturating_add (x y : N) : N := N.min u64_max (x + y).

(** [u64::checked_add]. *)
Definition checked_add_u64 (x y : N) : option N :=
  if x + y <=? u64_max then Some (x + y) else None.

(** [u32::checked_add]. *)
Definition checked_add_u32 (x y : N) : option N :=
  if x + y <=? u32_max then Some (x + y) else None.

(** [u64::checked_sub]. *)
Definition checked_sub (x y : N) : option N :=
  if y <=? x then Some (x - y) else None.

(** A length-prefixed field: [(len as u64).to_be_bytes()] and the bytes. *)
Definition lp (bs : bytes) : bytes := be_bytes 8 (blen bs) ++ bs.

(** ** ASCII classes, on the characters of a byte string *)

Definition in_range (lo hi : ascii) (c : ascii) : bool :=
  (Ascii.N_of_ascii lo <=? Ascii.N_of_ascii c) && (Ascii.N_of_ascii c <=? Ascii.N_of_ascii hi).

Definition is_ascii_digit : ascii -> bool := in_range "0" "9".
Definition is_ascii_lowercase : ascii -> bool := in_range "a" "z".
Definition is_ascii_uppercase : ascii -> bool := in_range "A" "Z".
Definition is_ascii_alphanumeric (c : ascii) : bool :=
  is_ascii_digit c || is_ascii_lowercase c || is_ascii_uppercase c.
Definition is_ascii_hexdigit (c : ascii) : bool :=
  is_ascii_digit c || in_range "a" "f" c || in_range "A" "F" c.

Definition char_in (cs : list ascii) (c : ascii) : bool := existsb (Ascii.eqb c) cs.

(** [str::bytes().all(p)]. *)
Definition string_all (p : ascii -> bool) (s : string) : bool :=
  forallb p (String.list_ascii_of_string s).

(** [str::strip_prefix]. *)
Fixpoint strip_prefix (p s : string) : option string :=
  match p, s with
  | EmptyString, _ => Some s
  | String a p', String b s' => if Ascii.eqb a b then strip_prefix p' s' else None
  | String _ _, EmptyString => None
  end.

Definition starts_with (p s : string) : bool := bool_decide (is_Some (strip_prefix p s)).

(** [u8::to_ascii_lowercase] on each byte. *)
Definition to_ascii_lowercase (s : string) : string :=
  String.string_of_list_ascii
    ((fun c => if is_ascii_uppercase c then Ascii.ascii_of_N (Ascii.N_of_ascii c + 32) else c)
       <$> String.list_ascii_of_string s).

(** [std::str::from_utf8]: the well-formed UTF-8 byte sequences, table 3-7 of the
    Unicode standard, which the documentation of the function refers to. *)
Definition byte_in (lo hi : N) (b : byte) : bool := (lo <=? Byte.to_N b) && (Byte.to_N b <=? hi).

Fixpoint utf8_valid (bs : bytes) : bool :=
  match bs with
  | [] => true
  | a :: bs1 =>
      if byte_in 0 127 a then utf8_valid bs1
      else
        match bs1 with
        | b :: bs2 =>
            if byte_in 194 223 a then byte_in 128 191 b && utf8_valid bs2
            else
              match bs2 with
              | c :: bs3 =>
                  if byte_in 224 239 a then
                    (if byte_in 224 224 a then byte_in 160 191 b
                     else if byte_in 237 237 a then byte_in 128 159 b
                     else byte_in 128 191 b) && byte_in 128 191 c && utf8_valid bs3
                  else
                    match bs3 with
                    | d :: bs4 =>
                        byte_in 240 244 a
                        && (if byte_in 240 240 a then byte_in 144 191 b
                            else if byte_in 244 244 a then byte_in 128 143 b
                            else byte_in 128 191 b)
                        && byte_in 128 191 c && byte_in 128 191 d && utf8_valid bs4
                    | [] => false
                    end
              | [] => false
              end
        | [] => false
        end
  end.

Definition from_utf8 (bs : bytes) : option string :=
  if utf8_valid bs then Some (String.string_of_list_byte bs) else None.

(** ** Ordered maps *)

(** [BTreeMap] iteration: the entries in ascending key order. *)
Section btree.
Context {K : Type} `{Countable K} (R : relation K) `{!RelDecision R}.

Definition key_le {A} (p q : K * A) : Prop := R p.1 q.1.

#[export] Instance key_le_dec {A} : forall p q : K * A, Decision (key_le p q).
Proof. intros p q. unfold key_le. apply _. Defined.

Definition btree_iter {A} (m : gmap K A) : list (K * A) :=
  merge_sort key_le (map_to_list m).

Definition btree_keys {A} (m : gmap K A) : list K := (btree_iter m).*1.
End btree.

(** [BTreeMap<String, _>] and [BTreeMap<u32, _>]. *)
Abbreviation string_iter := (btree_iter String.le).
Abbreviation N_iter := (btree_iter N.le).

(** ** Hashing *)

(** A SHA-256 digest, [[u8; 32]]. *)
Abbreviation Hash := (list byte).

(** [Sha256::digest] of the [sha2] crate: a total function of the bytes it has
    been fed. *)
Class Sha256 : Type := sha256 : bytes -> Hash.

(** Its one documented property the development uses: 32 bytes of output. *)
Class Sha256Laws `{Sha256} : Prop := sha256_length : forall bs, length (sha256 bs) = 32%nat.

(** An explicit collision of the hash function. Tamper evidence is stated as
    "equal, or here is a collision": no injectivity of SHA-256 is assumed. *)
Definition collides `{Sha256} (x y : bytes) : Prop := x <> y /\ sha256 x = sha256 y.

(** A 32-byte function of the input, to instantiate [Sha256] in examples. *)
Definition toy_sha256 : Sha256 := fun bs => be_bytes 32 (fold_left (fun acc b => acc * 31 + Byte.to_N b + 7) bs 1).

(** Lowercase hexadecimal, [hex] of [pliego-log] and [encode_hex] elsewhere. *)
Definition hex_digit (n : N) : ascii :=
  default "0"%char (list_lookup (N.to_nat n) (String.list_ascii_of_string "0123456789abcdef")).

Fixpoint hex (bs : bytes) : string :=
  match bs with
  | [] => ""
  | b :: bs' =>
      String (hex_digit (Byte.to_N b / 16)) (String (hex_digit (Byte.to_N b mod 16)) (hex bs'))
  end.

(** ** Tactics *)

(** Split every early return of a hypothesis [_ = Ok _]. *)
Ltac split_ok :=
  repeat match goal with
  | H : Err _ = Ok _ |- _ => discriminate H
  | H : Ok _ = Err _ |- _ => discriminate H
  | H : Ok _ = Ok _ |- _ => injection H as H
  | H : (if ?b then Err _ else _) = Ok _ |- _ => let E := fresh "Hg" in destruct b eqn:E; [discriminate H|]
  | H : (if ?b then Err _ else _) = Err _ |- _ => fail 1
  | H : mbind ?f ?r = Ok _ |- _ =>
      let E := fresh "Hr" in destruct r eqn:E; cbn [mbind result_bind] in H; [|discriminate H]
  | H : map_err ?f ?r = Ok ?a |- _ =>
      let E := fresh "Hr" in
      destruct r eqn:E; cbn [map_err] in H; [injection H as H; try subst a|discriminate H]
  | u : unit |- _ => destruct u
  end.

(** [lia] with quotients and remainders by constants. *)
Ltac div_lia := zify; Z.to_euclidean_division_equations; lia.

(** Boolean guards as propositions. *)
Ltac reflect_guards :=
  repeat match goal with
  | H : _ && _ = true |- _ => apply andb_true_iff in H; destruct H
  | H : _ || _ = false |- _ => apply orb_false_iff in H; destruct H
  | H : negb _ = true |- _ => apply negb_true_iff in H
  | H : negb _ = false |- _ => apply negb_false_iff in H
  | H : (_ <=? _) = true |- _ => apply N.leb_le in H
  | H : (_ <=? _) = false |- _ => apply N.leb_gt in H
  | H : (_ <? _) = true |- _ => apply N.ltb_lt in H
  | H : (_ <? _) = false |- _ => apply N.ltb_ge in H
  | H : (_ =? _) = true |- _ => apply N.eqb_eq in H
  | H : (_ =? _) = false |- _ => apply N.eqb_neq in H
  | H : String.eqb _ _ = true |- _ => apply String.eqb_eq in H
  | H : String.eqb _ _ = false |- _ => apply String.eqb_neq in H
  | H : bool_decide _ = true |- _ => apply bool_decide_eq_true in H
  | H : bool_decide _ = false |- _ => apply bool_decide_eq_false in H
  end.

(** ** Generic lemmas *)

Lemma ok_inj {E A} (a b : A) : @Ok E A a = Ok b -> a = b.
Proof. congruence. Qed.

Lemma err_inj {E A} (a b : E) : @Err E A a = Err b -> a = b.
Proof. congruence. Qed.

Lemma bind_ok {E A B} (f : A -> result E B) r b :
  mbind f r = Ok b <-> exists a, r = Ok a /\ f a = Ok b.
Proof.
  destruct r as [a|e]; cbn; split; [|intros (a' & [= ->] & ?)| |intros (a' & ? & ?)]; eauto; discriminate.
Qed.

Lemma map_err_ok {E F A} (f : E -> F) (r : result E A) a : map_err f r = Ok a <-> r = Ok a.
Proof. destruct r; cbn; split; congruence. Qed.

Lemma ok_or_ok {E A} (e : E) (o : option A) a : ok_or e o = Ok a <-> o = Some a.
Proof. destruct o; cbn; split; congruence. Qed.

Lemma to_N_byte_of x : x < 256 -> Byte.to_N (byte_of x) = x.
Proof.
  intros Hx. unfold byte_of. destruct (Byte.of_N x) eqn:E; cbn.
  - by apply Byte.to_of_N.
  - apply Byte.of_N_None_iff in E. lia.
Qed.

Lemma byte_of_to_N b : byte_of (Byte.to_N b) = b.
Proof. unfold byte_of. by rewrite Byte.of_to_N. Qed.

Lemma to_N_lt b : Byte.to_N b < 256.
Proof. pose proof (Byte.to_N_bounded b). lia. Qed.

Lemma be_value_app xs b : be_value (xs ++ [b]) = be_value xs * 256 + Byte.to_N b.
Proof. unfold be_value. by rewrite fold_left_app. Qed.

Lemma length_be_bytes w x : length (be_bytes w x) = w.
Proof. revert x. induction w as [|w IH]; intros x; cbn; [done|]. rewrite length_app, IH. cbn. lia. Qed.

(** [from_be_bytes] inverts [to_be_bytes] on values of the width. *)
Lemma be_value_be_bytes w x : x < 256 ^ N.of_nat w -> be_value (be_bytes w x) = x.
Proof.
  revert x. induction w as [|w IH]; intros x Hx; cbn [be_bytes].
  - cbn in *. lia.
  - rewrite be_value_app, IH, to_N_byte_of.
    + pose proof (N.div_mod x 256). lia.
    + apply N.mod_lt. lia.
    + apply N.Div0.div_lt_upper_bound. rewrite Nat2N.inj_succ, N.pow_succ_r' in Hx. lia.
Qed.

Lemma be_value_lt bs : be_value bs < 256 ^ blen bs.
Proof.
  unfold blen. induction bs as [|b bs IH] using rev_ind; [cbn; lia|].
  rewrite be_value_app, length_app. cbn [length].
  replace (N.of_nat (length bs + 1)) with (N.succ (N.of_nat (length bs))) by lia.
  rewrite N.pow_succ_r'. pose proof (to_N_lt b). lia.
Qed.

(** [to_be_bytes] inverts [from_be_bytes]. *)
Lemma be_bytes_be_value bs : be_bytes (length bs) (be_value bs) = bs.
Proof.
  induction bs as [|b bs IH] using rev_ind; [done|].
  rewrite length_app, be_value_app. cbn [length]. rewrite Nat.add_1_r. cbn [be_bytes].
  pose proof (to_N_lt b). f_equal.
  - rewrite N.div_add_l, N.div_small, N.add_0_r by lia. apply IH.
  - rewrite N.add_comm, N.Div0.mod_add, N.mod_small by lia. by rewrite byte_of_to_N.
Qed.

Lemma be_bytes_inj w x y :
  x < 256 ^ N.of_nat w -> y < 256 ^ N.of_nat w -> be_bytes w x = be_bytes w y -> x = y.
Proof. intros Hx Hy E. rewrite <-(be_value_be_bytes w x), <-(be_value_be_bytes w y) by done. by rewrite E. Qed.

Lemma be_bytes_app_inj w x y r s :
  be_bytes w x ++ r = be_bytes w y ++ s -> be_bytes w x = be_bytes w y /\ r = s.
Proof. intros E. apply app_inj_1 in E; [done|]. by rewrite !length_be_bytes. Qed.

Lemma toy_sha256_laws : @Sha256Laws toy_sha256.
Proof. intros bs. apply length_be_bytes. Qed.

(** Length-prefixed fields are self-delimiting. *)
Lemma lp_app_inj xs ys r s :
  blen xs <= u64_max -> blen ys <= u64_max -> lp xs ++ r = lp ys ++ s -> xs = ys /\ r = s.
Proof.
  intros Hx Hy. unfold lp. rewrite <-!app_assoc. intros E.
  apply be_bytes_app_inj in E as [E1 E2].
  apply be_bytes_inj in E1; [|by change (256 ^ N.of_nat 8) with (u64_max + 1); lia..].
  apply app_inj_1 in E2; [done|]. unfold blen in E1. lia.
Qed.

(** ** Lists *)

Lemma Forall_rev_iff {A} (P : A -> Prop) l : Forall P (rev l) <-> Forall P l.
Proof. split; [|apply List.Forall_rev]. intros H%List.Forall_rev. by rewrite rev_involutive in H. Qed.

Lemma concat_perm {B} (l l' : list (list B)) : l ≡ₚ l' -> concat l ≡ₚ concat l'.
Proof.
  induction 1 as [|x l l' _ IH|x y l|l1 l2 l3 _ IH1 _ IH2]; cbn; [done|by rewrite IH| |by rewrite IH1].
  by rewrite !app_assoc, (Permutation_app_comm x y).
Qed.

Lemma filter_all {A} (P : A -> Prop) `{!forall a : A, Decision (P a)} (l : list A) :
  (forall a : A, a ∈ l -> P a) -> base.filter P l = l.
Proof.
  induction l as [|a l IH]; intros HP; [done|]. rewrite filter_cons_True by (apply HP; by left). f_equal.
  apply IH. intros b Hb. apply HP. by right.
Qed.

(** ** Self-delimiting encodings *)

(** [enc x ++ r] determines [x] and [r], for the [x] within [fits]. *)
Definition self_delimiting {A} (fits : A -> Prop) (enc : A -> bytes) : Prop :=
  forall x y r s, fits x -> fits y -> enc x ++ r = enc y ++ s -> x = y /\ r = s.

Lemma be_bytes_delimiting w : self_delimiting (fun x => x < 256 ^ N.of_nat w) (be_bytes w).
Proof. intros x y r s Hx Hy [E ->]%be_bytes_app_inj. split; [by apply (be_bytes_inj w)|done]. Qed.

Lemma be_bytes_4_delimiting : self_delimiting (fun x => x <= u32_max) (be_bytes 4).
Proof.
  intros x y r s Hx Hy. apply be_bytes_delimiting; change (256 ^ N.of_nat 4) with (u32_max + 1); lia.
Qed.

Lemma be_bytes_8_delimiting : self_delimiting (fun x => x <= u64_max) (be_bytes 8).
Proof.
  intros x y r s Hx Hy. apply be_bytes_delimiting; change (256 ^ N.of_nat 8) with (u64_max + 1); lia.
Qed.

Lemma lp_delimiting : self_delimiting (fun bs => blen bs <= u64_max) lp.
Proof. intros x y r s Hx Hy. by apply lp_app_inj. Qed.

(** A fixed-width field, [hasher.update(digest)]. *)
Lemma fixed_delimiting n : self_delimiting (fun bs : bytes => length bs = n) id.
Proof. intros x y r s Hx Hy E. apply app_inj_1 in E; [done|]. unfold id. congruence. Qed.

(** A counted sequence: an eight-byte count and the elements. *)
Definition counted {A} (enc : A -> bytes) (xs : list A) : bytes :=
  be_bytes 8 (blen xs) ++ concat (map enc xs).

Lemma counted_delimiting {A} (fits : A -> Prop) enc :
  self_delimiting fits enc ->
  self_delimiting (fun xs => blen xs <= u64_max /\ Forall fits xs) (counted enc).
Proof.
  intros Henc xs ys r s [Lx Fx] [Ly Fy] E. unfold counted in E. rewrite <-!app_assoc in E.
  apply be_bytes_8_delimiting in E as [El E]; [|done..]. unfold blen in El. apply Nat2N.inj in El.
  clear Lx Ly. revert ys Fy El E. induction Fx as [|x xs Hx _ IH]; intros [|y ys] Fy El E; try done.
  cbn in E. rewrite <-!app_assoc in E. apply List.Forall_cons_iff in Fy as [Hy Fy].
  apply Henc in E as [-> E]; [|done..]. injection El as El. by destruct (IH ys Fy El E) as [-> ->].
Qed.

(** Encodings compose. *)
Lemma pair_delimiting {A B} (fA : A -> Prop) (fB : B -> Prop) encA encB :
  self_delimiting fA encA -> self_delimiting fB encB ->
  self_delimiting (fun p => fA p.1 /\ fB p.2) (fun p => encA p.1 ++ encB p.2).
Proof.
  intros HA HB [x1 x2] [y1 y2] r s [Hx1 Hx2] [Hy1 Hy2]. cbn. rewrite <-!app_assoc.
  intros [-> [-> ->]%HB]%HA; done.
Qed.

Lemma self_delimiting_inj {A} (fits : A -> Prop) enc x y :
  self_delimiting fits enc -> fits x -> fits y -> enc x = enc y -> x = y.
Proof. intros H Hx Hy E. apply (H x y [] []); [done..|by rewrite E]. Qed.

Lemma as_bytes_inj s t : as_bytes s = as_bytes t -> s = t.
Proof.
  intros E. rewrite <-(String.string_of_list_byte_of_string s), <-(String.string_of_list_byte_of_string t).
  unfold as_bytes in E. by rewrite E.
Qed.

Lemma blen_as_bytes s : blen (as_bytes s) = slen s.
Proof.
  unfold blen, slen, as_bytes. f_equal. induction s as [|c s IH]; [done|].
  cbn. unfold String.list_byte_of_string in *. cbn. by rewrite IH.
Qed.

Lemma blen_app {A} (xs ys : list A) : blen (xs ++ ys) = blen xs + blen ys.
Proof. unfold blen. rewrite length_app. lia. Qed.

Lemma blen_0 {A} (xs : list A) : blen xs = 0 <-> xs = [].
Proof. unfold blen. destruct xs; cbn; split; (done || lia). Qed.

Lemma strip_prefix_spec p s r : strip_prefix p s = Some r <-> s = (p ++ r)%string.
Proof.
  revert s. induction p as [|a p IH]; intros s; cbn; [split; [by intros [= ->]|by intros ->]|].
  destruct s as [|b s]; [split; discriminate|].
  destruct (Ascii.eqb_spec a b) as [->|Hne].
  - rewrite IH. split; [by intros ->|intros E; by injection E].
  - split; [discriminate|intros E]. cbn in E. injection E as -> ->. done.
Qed.

Lemma btree_iter_Permutation {K A} `{Countable K} (R : relation K) `{!RelDecision R} (m : gmap K A) :
  btree_iter R m ≡ₚ map_to_list m.
Proof. apply merge_sort_Permutation. Qed.

Lemma elem_of_btree_iter {K A} `{Countable K} (R : relation K) `{!RelDecision R} (m : gmap K A) k a :
  (k, a) ∈ btree_iter R m <-> m !! k = Some a.
Proof. rewrite btree_iter_Permutation. apply elem_of_map_to_list. Qed.

(** The iteration determines the map. *)
Lemma btree_iter_inj {K A} `{Countable K} (R : relation K) `{!RelDecision R} (m1 m2 : gmap K A) :
  btree_iter R m1 = btree_iter R m2 -> m1 = m2.
Proof.
  intros E. apply map_to_list_inj. rewrite <-(btree_iter_Permutation R m1), <-(btree_iter_Permutation R m2).
  by rewrite E.
Qed.

Lemma length_btree_iter {K A} `{Countable K} (R : relation K) `{!RelDecision R} (m : gmap K A) :
  length (btree_iter R m) = size m.
Proof. rewrite btree_iter_Permutation. apply length_map_to_list. Qed.

(** The iteration is in ascending key order. *)
Lemma btree_iter_sorted {K A} `{Countable K} (R : relation K) `{!RelDecision R}
    `{!Transitive R, !Total R} (m : gmap K A) :
  StronglySorted R (btree_keys R m).
Proof.
  unfold btree_keys, btree_iter.
  assert (StronglySorted (key_le R) (merge_sort (key_le R) (map_to_list m))) as Hs.
  { apply StronglySorted_merge_sort; [intros x y z; unfold key_le; by intros; etrans|].
    intros x y. unfold key_le. apply total; apply _. }
  induction Hs as [|p l Hs IH Hp]; cbn; [constructor|].
  constructor; [done|]. by apply Forall_fmap.
Qed.

(** An association list without repeated keys is a function. *)
Lemma NoDup_fst_inj {K A} `{Countable K} (es : list (K * A)) k a b :
  NoDup es.*1 -> (k, a) ∈ es -> (k, b) ∈ es -> a = b.
Proof.
  intros Hnd Ha%(elem_of_list_to_map (M:=gmap K)) Hb%(elem_of_list_to_map (M:=gmap K)); [congruence|done..].
Qed.

Lemma StronglySorted_filter {A} (R : relation A) (P : A -> Prop) `{!forall x, Decision (P x)} l :
  StronglySorted R l -> StronglySorted R (base.filter P l).
Proof.
  induction 1 as [|x l Hs IH Hx]; [constructor|]. rewrite filter_cons. destruct (decide (P x)); [|done].
  constructor; [done|]. apply Forall_forall. intros y [_ Hy]%list_elem_of_filter. by apply (proj1 (Forall_forall _ _) Hx).
Qed.

Lemma take_elem {A} n (l : list A) x : x ∈ take n l -> x ∈ l.
Proof. intros Hx. rewrite <-(take_drop n l), elem_of_app. by left. Qed.

#[export] Instance N_le_total : Total N.le.
Proof. intros x y. lia. Qed.

(** A length-prefixed string. *)
Lemma lp_string_delimiting : self_delimiting (fun s => slen s <= u64_max) (fun s => lp (as_bytes s)).
Proof.
  intros x y r s Hx Hy E. apply lp_delimiting in E as [E ->]; [|by rewrite blen_as_bytes..].
  split; [by apply as_bytes_inj|done].
Qed.

(** Portable identifiers are ASCII, hence UTF-8. *)
Lemma utf8_valid_ascii bs : Forall (fun b => Byte.to_N b <= 127) bs -> utf8_valid bs = true.
Proof.
  induction 1 as [|b bs Hb _ IH]; [done|]. cbn [utf8_valid]. unfold byte_in at 1.
  rewrite (proj2 (N.leb_le _ _) Hb). by rewrite (proj2 (N.leb_le 0 _)) by lia.
Qed.

Lemma to_N_byte_of_ascii c : Byte.to_N (Ascii.byte_of_ascii c) = Ascii.N_of_ascii c.
Proof. apply Byte.to_of_N. by rewrite <-Ascii.byte_of_ascii_via_N. Qed.

Lemma ascii_byte_le_127 p s :
  (forall c, p c = true -> Ascii.N_of_ascii c <= 127) -> string_all p s = true ->
  Forall (fun b => Byte.to_N b <= 127) (as_bytes s).
Proof.
  intros Hp Hs. unfold string_all in Hs. rewrite forallb_forall in Hs.
  unfold as_bytes, String.list_byte_of_string. apply List.Forall_map, List.Forall_forall. intros c Hc.
  rewrite to_N_byte_of_ascii. by apply Hp, Hs.
Qed.

Create HintDb pliego discriminated.
Create Rewrite HintDb pliego.
#[export] Hint Rewrite @length_be_bytes @length_app blen_as_bytes : pliego.
#[export] Hint Resolve to_N_lt as_bytes_inj : pliego.
#[export] Hint Resolve be_bytes_4_delimiting be_bytes_8_delimiting lp_delimiting lp_string_delimiting
  fixed_delimiting counted_delimiting pair_delimiting : pliego.

Lemma hex_digit_inj m n : m < 16 -> n < 16 -> hex_digit m = hex_digit n -> m = n.
Proof.
  set (ds := String.list_ascii_of_string "0123456789abcdef"). intros Hm Hn He.
  destruct (lookup_lt_is_Some_2 ds (N.to_nat m)) as [x Hx]; [cbn; lia|].
  destruct (lookup_lt_is_Some_2 ds (N.to_nat n)) as [y Hy]; [cbn; lia|].
  assert (x = y) as ->.
  { unfold hex_digit in He. fold ds in He. unfold lookup in Hx, Hy. by rewrite Hx, Hy in He. }
  assert (Hnd : NoDup ds) by (apply (bool_decide_unpack _); vm_compute; exact I).
  pose proof (NoDup_lookup _ _ _ _ Hnd Hx Hy). lia.
Qed.

Lemma hex_inj xs ys : hex xs = hex ys -> xs = ys.
Proof.
  revert ys. induction xs as [|x xs IH]; intros [|y ys] He; [done..|]. cbn [hex] in He.
  injection He as He1 He2 He3. apply hex_digit_inj in He1, He2;
    try (pose proof (to_N_lt x); pose proof (to_N_lt y); div_lia).
  f_equal; [|by apply IH]. rewrite <-(byte_of_to_N x), <-(byte_of_to_N y). f_equal.
  pose proof (N.div_mod (Byte.to_N x) 16). pose proof (N.div_mod (Byte.to_N y) 16). lia.
Qed.
