(* ===== verification/Decimal.v ===== *)
(** * Decimal: exact decimal arithmetic on digit strings.

    Models the number half of [crates/pliego-log/src/lib.rs]: [canonical_number]
    and the helpers it calls. The code normalises a JSON number from its lexeme
    without going through binary floating point, on digit strings of any length,
    with an exponent of any length; only the adjustment of the exponent is a
    machine integer.

    A text is a [list ascii]; a digit string is most significant digit first. The
    theorems compare the code's digit arithmetic with [N]/[Z] arithmetic, and the
    whole routine with the rational [coefficient * 10^exponent] the lexeme
    denotes: equal rationals have equal canonical texts and conversely. *)

From S2P Require Import Prelude.

Abbreviation text := (list ascii).

(** ** Digits *)

Definition digit_value (c : ascii) : N := Ascii.N_of_ascii c - 48.
Definition digit_char (n : N) : ascii := Ascii.ascii_of_N (48 + n).

(** The number a digit string denotes. *)
Definition dec_value (ds : text) : N :=
  fold_left (fun acc d => acc * 10 + digit_value d) ds 0.

(** Least significant digit first: the loop [while n != 0 { push(n % 10); n /= 10 }].
    [N.size_nat n] iterations are enough, since each divides [n] by ten. *)
Fixpoint push_digits (fuel : nat) (n : N) : text :=
  match fuel with
  | O => []
  | S f => if n =? 0 then [] else digit_char (n mod 10) :: push_digits f (n / 10)
  end.

(** [u64::to_string]. *)
Definition u64_to_string (n : N) : text :=
  if n =? 0 then ["0"%char] else rev (push_digits (N.size_nat n) n).

(** [str::parse::<u64>] and [str::parse::<i32>] on a text of digits. *)
Definition parse_u64 (ds : text) : option N :=
  if forallb is_ascii_digit ds && negb (bool_decide (ds = [])) && (dec_value ds <=? u64_max)
  then Some (dec_value ds) else None.

Definition parse_i32 (ds : text) : option Z :=
  if forallb is_ascii_digit ds && negb (bool_decide (ds = [])) && (dec_value ds <=? 2147483647)
  then Some (Z.of_N (dec_value ds)) else None.

(** ** The helpers of [canonical_number] *)

(** [add_decimal_magnitude], the digit loop: over the reversed digits, leaving as
    soon as the carry is zero. *)
Fixpoint add_loop (rds : text) (carry : N) : text * N :=
  match rds with
  | [] => ([], carry)
  | d :: rest =>
      if carry =? 0 then (d :: rest, 0)
      else
        let sum := digit_value d + carry mod 10 in
        let '(rest', carry') := add_loop rest (carry / 10 + sum / 10) in
        (digit_char (sum mod 10) :: rest', carry')
  end.

Definition add_decimal_magnitude (magnitude : text) (small : N) : text :=
  let '(rds, carry) := add_loop (rev magnitude) small in
  rev (push_digits (N.size_nat carry) carry) ++ rev rds.

(** [subtract_small_from_decimal_magnitude], the digit loop. *)
Fixpoint sub_loop (rds : text) (borrow : N) : text * N :=
  match rds with
  | [] => ([], borrow)
  | d :: rest =>
      if borrow =? 0 then (d :: rest, 0)
      else
        let subtrahend := borrow mod 10 in
        let digit := digit_value d in
        let '(digit', borrow') :=
          if digit <? subtrahend
          then (digit_char (10 + digit - subtrahend), borrow / 10 + 1)
          else (digit_char (digit - subtrahend), borrow / 10) in
        let '(rest', borrow'') := sub_loop rest borrow' in
        (digit' :: rest', borrow'')
  end.

Definition nonzero_digit (c : ascii) : bool := negb (Ascii.eqb c "0").

(** [iter().position(p)]. *)
Fixpoint position (p : ascii -> bool) (ds : text) : option nat :=
  match ds with
  | [] => None
  | d :: rest => if p d then Some 0%nat else S <$> position p rest
  end.

(** [iter().rposition(p)]. *)
Definition rposition (p : ascii -> bool) (ds : text) : option nat :=
  (fun i => length ds - 1 - i)%nat <$> position p (rev ds).

Definition subtract_small_from_decimal_magnitude (magnitude : text) (small : N) : text :=
  let ds := rev (sub_loop (rev magnitude) small).1 in
  drop (default (length ds - 1)%nat (position nonzero_digit ds)) ds.

(** Lexicographic order of two digit texts of the same length. *)
Fixpoint text_compare (xs ys : text) : comparison :=
  match xs, ys with
  | [], [] => Eq
  | [], _ => Lt
  | _, [] => Gt
  | x :: xs', y :: ys' =>
      match N.compare (Ascii.N_of_ascii x) (Ascii.N_of_ascii y) with
      | Eq => text_compare xs' ys'
      | c => c
      end
  end.

Definition compare_decimal_magnitude_to_small (magnitude : text) (small : N) : comparison :=
  let small := u64_to_string small in
  match Nat.compare (length magnitude) (length small) with
  | Eq => text_compare magnitude small
  | c => c
  end.

(** [add_signed_decimal]; [adjustment] is the [i64]. The [expect] of the [Less]
    branch is [default 0]: lemma [less_fits_u64] shows that it never fires. *)
Definition add_signed_decimal (negative : bool) (magnitude : text) (adjustment : Z) : bool * text :=
  if Z.eqb adjustment 0 then (negative, magnitude)
  else
    let adjustment_negative := Z.ltb adjustment 0 in
    let adjustment_magnitude := Z.abs_N adjustment in
    if Bool.eqb negative adjustment_negative
    then (negative, add_decimal_magnitude magnitude adjustment_magnitude)
    else
      match compare_decimal_magnitude_to_small magnitude adjustment_magnitude with
      | Gt => (negative, subtract_small_from_decimal_magnitude magnitude adjustment_magnitude)
      | Eq => (false, ["0"%char])
      | Lt =>
          let parsed := default 0 (parse_u64 magnitude) in
          (adjustment_negative, u64_to_string (adjustment_magnitude - parsed))
      end.

Definition small_signed_decimal (negative : bool) (magnitude : text) : option Z :=
  (fun parsed => if negative then (- parsed)%Z else parsed) <$> parse_i32 magnitude.

(** ** Splitting a lexeme *)

(** [strip_prefix('-')] with the sign kept. *)
Definition split_sign (raw : text) : bool * text :=
  match raw with
  | "-"%char :: rest => (true, rest)
  | _ => (false, raw)
  end.

(** [find(p)] and the two slices around the found character. *)
Fixpoint split_at (p : ascii -> bool) (ds : text) : text * option text :=
  match ds with
  | [] => ([], None)
  | d :: rest =>
      if p d then ([], Some rest)
      else let '(before, after) := split_at p rest in (d :: before, after)
  end.

Definition is_exponent_mark (c : ascii) : bool := Ascii.eqb c "e" || Ascii.eqb c "E".
Definition is_point (c : ascii) : bool := Ascii.eqb c ".".

Inductive number_error : Type := InvalidSignificand | InvalidExponent.

Definition trim_start_zeros (ds : text) : text :=
  match position nonzero_digit ds with
  | Some i => drop i ds
  | None => []
  end.

Definition parse_decimal_exponent (raw : option text) : result number_error (bool * text) :=
  match raw with
  | None => Ok (false, ["0"%char])
  | Some raw =>
      let '(negative, digits) :=
        match raw with
        | "-"%char :: digits => (true, digits)
        | "+"%char :: digits => (false, digits)
        | _ => (false, raw)
        end in
      fail_if bool_decide (digits = []) || negb (forallb is_ascii_digit digits)
        with InvalidExponent ;;
      match trim_start_zeros digits with
      | [] => Ok (false, ["0"%char])
      | magnitude => Ok (negative, magnitude)
      end
  end.

(** The output stage of [canonical_number]: sign, significant digits and the
    scientific exponent, as text and as [i32] when it fits. *)
Definition render_number (negative : bool) (significant : text)
    (scientific_negative : bool) (scientific_magnitude : text) : text :=
  let sign := if negative then ["-"%char] else [] in
  let scientific :=
    match significant with
    | [] => []
    | first :: rest =>
        first :: (if (1 <? blen significant) then "."%char :: rest else [])
          ++ "e"%char :: (if scientific_negative then "-"%char else "+"%char) :: scientific_magnitude
    end in
  sign ++
  match small_signed_decimal scientific_negative scientific_magnitude with
  | Some exponent =>
      if Z.leb 0 exponent && Z.leb exponent 20 then
        let point := Z.to_nat (exponent + 1) in
        if (length significant <=? point)%nat
        then significant ++ replicate (point - length significant) "0"%char
        else take point significant ++ "."%char :: drop point significant
      else if Z.leb (-6) exponent && Z.leb exponent (-1) then
        ["0"%char; "."%char] ++ replicate (Z.to_nat (- exponent - 1)) "0"%char ++ significant
      else scientific
  | None => scientific
  end.

Definition canonical_number (raw : text) : result number_error text :=
  let '(negative, unsigned) := split_sign raw in
  let '(mantissa, explicit_exponent) := split_at is_exponent_mark unsigned in
  let '(integer, fraction_opt) := split_at is_point mantissa in
  let fraction := default [] fraction_opt in
  fail_if bool_decide (integer = []) || negb (forallb is_ascii_digit integer)
          || negb (forallb is_ascii_digit fraction) with InvalidSignificand ;;
  let digits := integer ++ fraction in
  match position nonzero_digit digits with
  | None => Ok ["0"%char]
  | Some first_nonzero =>
      let last_nonzero := default 0%nat (rposition nonzero_digit digits) in
      let trailing_zeros := (length digits - last_nonzero - 1)%nat in
      let significant := take (last_nonzero + 1 - first_nonzero) (drop first_nonzero digits) in
      '(exponent_negative, exponent_magnitude) ← parse_decimal_exponent explicit_exponent;
      let adjustment :=
        (- Z.of_nat (length fraction) + Z.of_nat trailing_zeros
         + (Z.of_nat (length significant) - 1))%Z in
      let '(scientific_negative, scientific_magnitude) :=
        add_signed_decimal exponent_negative exponent_magnitude adjustment in
      Ok (render_number negative significant scientific_negative scientific_magnitude)
  end.

(** ** The rational a lexeme denotes *)

Definition signed (negative : bool) (n : N) : Z :=
  if negative then (- Z.of_N n)%Z else Z.of_N n.

(** [coefficient * 10^exponent], [None] for a text that is not a decimal number. *)
Definition number_value (raw : text) : option (Z * Z) :=
  let '(negative, unsigned) := split_sign raw in
  let '(mantissa, explicit_exponent) := split_at is_exponent_mark unsigned in
  let '(integer, fraction_opt) := split_at is_point mantissa in
  let fraction := default [] fraction_opt in
  if bool_decide (integer = []) || negb (forallb is_ascii_digit integer)
     || negb (forallb is_ascii_digit fraction)
  then None
  else
    match parse_decimal_exponent explicit_exponent with
    | Ok (exponent_negative, magnitude) =>
        Some (signed negative (dec_value (integer ++ fraction)),
              signed exponent_negative (dec_value magnitude) - Z.of_nat (length fraction))%Z
    | Err _ => None
    end.

(** The coefficient at a common exponent [k]. *)
Definition scaled (k : Z) (v : Z * Z) : Z := (v.1 * 10 ^ (v.2 - k))%Z.

Definition same_rational (v w : Z * Z) : Prop :=
  scaled (Z.min v.2 w.2) v = scaled (Z.min v.2 w.2) w.

(** ** Digit strings *)

Definition is_digits (ds : text) : Prop := Forall (fun c => is_ascii_digit c = true) ds.

(** No superfluous leading zero, stated arithmetically. *)
Definition normal (ds : text) : Prop :=
  is_digits ds /\ ds <> [] /\ ((1 < length ds)%nat -> 10 ^ (blen ds - 1) <= dec_value ds).

Lemma forallb_is_digits ds : forallb is_ascii_digit ds = true <-> is_digits ds.
Proof. unfold is_digits. rewrite forallb_forall, List.Forall_forall. done. Qed.

Lemma is_digits_app xs ys : is_digits (xs ++ ys) <-> is_digits xs /\ is_digits ys.
Proof. apply Forall_app. Qed.

Lemma is_digits_cons d ds : is_digits (d :: ds) <-> is_ascii_digit d = true /\ is_digits ds.
Proof. apply List.Forall_cons_iff. Qed.

Lemma is_digits_snoc ds d : is_digits (ds ++ [d]) <-> is_digits ds /\ is_ascii_digit d = true.
Proof. rewrite is_digits_app, is_digits_cons. split; [tauto|intros [??]; split_and!; (done || constructor)]. Qed.

Lemma digit_value_lt c : is_ascii_digit c = true -> digit_value c < 10.
Proof. unfold is_ascii_digit, in_range, digit_value. intros H. reflect_guards. change (Ascii.N_of_ascii "9") with 57 in *. lia. Qed.

Lemma digit_value_char n : n < 10 -> digit_value (digit_char n) = n.
Proof. unfold digit_value, digit_char. intros Hn. rewrite Ascii.N_ascii_embedding; lia. Qed.

Lemma digit_char_digit n : n < 10 -> is_ascii_digit (digit_char n) = true.
Proof.
  intros Hn. unfold is_ascii_digit, in_range, digit_char. rewrite Ascii.N_ascii_embedding by lia.
  apply andb_true_iff. split; apply N.leb_le; [change (Ascii.N_of_ascii "0") with 48|change (Ascii.N_of_ascii "9") with 57]; lia.
Qed.

Lemma digit_char_value c : is_ascii_digit c = true -> digit_char (digit_value c) = c.
Proof.
  unfold is_ascii_digit, in_range, digit_value, digit_char. intros H. reflect_guards.
  change (Ascii.N_of_ascii "0") with 48 in *.
  replace (48 + (Ascii.N_of_ascii c - 48)) with (Ascii.N_of_ascii c) by lia.
  apply Ascii.ascii_N_embedding.
Qed.

Lemma fold_dec_value ds acc :
  fold_left (fun acc d => acc * 10 + digit_value d) ds acc = acc * 10 ^ blen ds + dec_value ds.
Proof.
  unfold dec_value, blen. revert acc. induction ds as [|d ds IH]; intros acc; [cbn; lia|].
  cbn [fold_left length]. rewrite IH, (IH (0 * 10 + _)), Nat2N.inj_succ, N.pow_succ_r'. lia.
Qed.

Lemma dec_value_app xs ys : dec_value (xs ++ ys) = dec_value xs * 10 ^ blen ys + dec_value ys.
Proof. unfold dec_value at 1. by rewrite fold_left_app, fold_dec_value. Qed.

Lemma dec_value_cons d ds : dec_value (d :: ds) = digit_value d * 10 ^ blen ds + dec_value ds.
Proof. change (d :: ds) with ([d] ++ ds). rewrite dec_value_app. unfold dec_value at 1. cbn. lia. Qed.

Lemma dec_value_snoc ds d : dec_value (ds ++ [d]) = dec_value ds * 10 + digit_value d.
Proof. rewrite dec_value_app. unfold blen, dec_value at 2. cbn. lia. Qed.

Lemma dec_value_lt ds : is_digits ds -> dec_value ds < 10 ^ blen ds.
Proof.
  unfold blen. induction ds as [|d ds IH] using rev_ind; intros H; [cbn; lia|].
  apply is_digits_snoc in H as [H1 H2].
  rewrite dec_value_snoc, length_app. cbn [length].
  replace (N.of_nat (length ds + 1)) with (N.succ (N.of_nat (length ds))) by lia.
  rewrite N.pow_succ_r'. apply digit_value_lt in H2. specialize (IH H1). lia.
Qed.

(** Digit strings of one length are determined by their value. *)
Lemma dec_value_inj xs ys :
  is_digits xs -> is_digits ys -> length xs = length ys -> dec_value xs = dec_value ys -> xs = ys.
Proof.
  revert ys. induction xs as [|x xs IH] using rev_ind; intros ys Hx Hy Hl Hv.
  - by destruct ys.
  - destruct ys as [|y ys _] using rev_ind; [rewrite length_app in Hl; cbn in Hl; lia|].
    rewrite !length_app in Hl. cbn in Hl. rewrite !dec_value_snoc in Hv.
    apply is_digits_snoc in Hx as [Hx1 Hx2]. apply is_digits_snoc in Hy as [Hy1 Hy2].
    pose proof (digit_value_lt x Hx2). pose proof (digit_value_lt y Hy2).
    f_equal; [apply IH; (done || lia)|].
    f_equal. rewrite <-(digit_char_value x), <-(digit_char_value y) by done. f_equal. lia.
Qed.

Lemma pow10_pos n : 0 < 10 ^ n.
Proof. apply N.neq_0_lt_0, N.pow_nonzero. lia. Qed.

Lemma pow10_mono m n : m <= n -> 10 ^ m <= 10 ^ n.
Proof. apply N.pow_le_mono_r. lia. Qed.

Lemma normal_length_lt xs ys :
  is_digits xs -> normal ys -> (length xs < length ys)%nat -> xs <> [] -> dec_value xs < dec_value ys.
Proof.
  intros Hx (Hy & _ & Hlo) Hl Hne. pose proof (dec_value_lt xs Hx).
  assert (1 < length ys)%nat as H1 by (destruct xs; cbn in *; [done|lia]).
  specialize (Hlo H1). assert (10 ^ blen xs <= 10 ^ (blen ys - 1)); [|lia].
  apply pow10_mono. unfold blen. lia.
Qed.

(** Canonical digit strings are determined by their value. *)
Lemma normal_inj xs ys : normal xs -> normal ys -> dec_value xs = dec_value ys -> xs = ys.
Proof.
  intros Hx Hy Hv. apply dec_value_inj; [apply Hx|apply Hy| |done].
  destruct (Nat.lt_trichotomy (length xs) (length ys)) as [Hl|[Hl|Hl]]; [|done|].
  - pose proof (normal_length_lt xs ys). destruct Hx as (? & ? & ?). specialize (H ltac:(done) Hy Hl ltac:(done)). lia.
  - pose proof (normal_length_lt ys xs). destruct Hy as (? & ? & ?). specialize (H ltac:(done) Hx Hl ltac:(done)). lia.
Qed.

(** ** [push_digits] and [to_string] *)

Lemma lt_pow2_size_nat n : n < 2 ^ N.of_nat (N.size_nat n).
Proof.
  assert (N.of_nat (N.size_nat n) = N.size n) as ->; [|apply N.size_gt].
  destruct n as [|p]; [done|]. cbn. induction p as [p IH|p IH|]; cbn [Pos.size_nat Pos.size]; [..|done];
    rewrite Nat2N.inj_succ, IH; lia.
Qed.

Lemma push_digits_spec fuel n :
  n < 2 ^ N.of_nat fuel ->
  let ds := rev (push_digits fuel n) in
  is_digits ds /\ dec_value ds = n /\ (n <> 0 -> 10 ^ (blen ds - 1) <= n /\ ds <> []) /\ (n = 0 -> ds = []).
Proof.
  revert n. induction fuel as [|f IH]; intros n Hn.
  - assert (n = 0) as -> by (cbn in Hn; lia). cbn. split_and!; [constructor|done..].
  - cbn [push_digits]. destruct (N.eqb_spec n 0) as [->|Hnz]; [cbn; split_and!; [constructor|done..]|].
    cbn [rev]. pose proof (N.div_mod n 10 ltac:(lia)) as Hdm. pose proof (N.mod_lt n 10 ltac:(lia)) as Hm.
    destruct (IH (n / 10)) as (Hd & Hv & Hlo & Hz).
    { apply N.Div0.div_lt_upper_bound. rewrite Nat2N.inj_succ, N.pow_succ_r' in Hn. lia. }
    set (ds := rev (push_digits f (n / 10))) in *.
    split_and!.
    + apply is_digits_snoc. split; [done|]. by apply digit_char_digit.
    + rewrite dec_value_snoc, digit_value_char by done. lia.
    + intros _. split; [|by destruct ds]. rewrite blen_app. change (blen [_]) with 1. rewrite N.add_sub.
      destruct (N.eq_dec (n / 10) 0) as [E|E].
      * rewrite Hz by done. change (10 ^ blen []) with 1. lia.
      * destruct (Hlo E) as [Hle _].
        assert (blen ds <> 0) by (rewrite blen_0; by apply Hlo).
        replace (blen ds) with (N.succ (blen ds - 1)) by lia. rewrite N.pow_succ_r'.
        etrans; [apply N.mul_le_mono_l, Hle|div_lia].
    + intros ->. lia.
Qed.

Lemma u64_to_string_spec n : normal (u64_to_string n) /\ dec_value (u64_to_string n) = n.
Proof.
  unfold u64_to_string. destruct (N.eqb_spec n 0) as [->|Hn].
  - split; [|done]. split_and!; [by repeat constructor|done|cbn; lia].
  - destruct (push_digits_spec (N.size_nat n) n (lt_pow2_size_nat n)) as (Hd & Hv & Hlo & _).
    destruct (Hlo Hn). split; [|done]. split_and!; [done|done|lia].
Qed.

(** ** Addition, subtraction and comparison *)

(** The value of a reversed digit string. *)
Definition rev_value (rds : text) : N := dec_value (rev rds).

Lemma rev_value_cons d rds : rev_value (d :: rds) = rev_value rds * 10 + digit_value d.
Proof. unfold rev_value. cbn [rev]. apply dec_value_snoc. Qed.

Lemma is_digits_rev ds : is_digits (rev ds) <-> is_digits ds.
Proof.
  unfold is_digits. split; [|apply List.Forall_rev].
  intros H%List.Forall_rev. by rewrite rev_involutive in H.
Qed.

Lemma blen_rev {A} (l : list A) : blen (rev l) = blen l.
Proof. unfold blen. by rewrite length_rev. Qed.

Lemma add_loop_spec rds carry :
  is_digits rds ->
  let r := add_loop rds carry in
  is_digits r.1 /\ length r.1 = length rds /\
  rev_value r.1 + r.2 * 10 ^ blen rds = rev_value rds + carry.
Proof.
  revert carry. induction rds as [|d rest IH]; intros carry Hd; [cbn; split_and!; [done..|change (10 ^ blen []) with 1; lia]|].
  apply is_digits_cons in Hd as [Hd Hr]. cbn [add_loop].
  destruct (N.eqb_spec carry 0) as [->|Hc].
  { cbn [fst snd]. rewrite N.mul_0_l. split_and!; [by apply is_digits_cons|done..]. }
  set (sum := digit_value d + carry mod 10).
  destruct (IH (carry / 10 + sum / 10) Hr) as (IH1 & IH2 & IH3).
  destruct (add_loop rest (carry / 10 + sum / 10)) as [rest' carry'] eqn:E. cbn [fst snd] in *.
  pose proof (N.mod_lt sum 10 ltac:(lia)).
  split_and!.
  - apply is_digits_cons. split; [by apply digit_char_digit|done].
  - cbn. lia.
  - rewrite !rev_value_cons, digit_value_char by done.
    replace (blen (d :: rest)) with (N.succ (blen rest)) by (unfold blen; cbn [length]; lia).
    rewrite N.pow_succ_r'.
    pose proof (N.div_mod sum 10 ltac:(lia)). pose proof (N.div_mod carry 10 ltac:(lia)).
    unfold sum in *. lia.
Qed.

Lemma normal_of_ge ds : is_digits ds -> ds <> [] -> 10 ^ (blen ds - 1) <= dec_value ds -> normal ds.
Proof. intros. split_and!; (done || auto). Qed.

(** [add_decimal_magnitude] is addition. *)
Lemma add_decimal_magnitude_spec m n :
  normal m -> normal (add_decimal_magnitude m n) /\ dec_value (add_decimal_magnitude m n) = dec_value m + n.
Proof.
  intros (Hd & Hne & Hlo). unfold add_decimal_magnitude.
  destruct (add_loop_spec (rev m) n) as (H1 & H2 & H3); [by apply is_digits_rev|].
  destruct (add_loop (rev m) n) as [rds carry]. cbn [fst snd] in *.
  destruct (push_digits_spec (N.size_nat carry) carry (lt_pow2_size_nat carry)) as (Pd & Pv & Plo & Pz).
  set (prefix := rev (push_digits (N.size_nat carry) carry)) in *. clearbody prefix.
  assert (dec_value (prefix ++ rev rds) = dec_value m + n) as Hv.
  { rewrite dec_value_app, Pv, blen_rev. unfold rev_value in H3. rewrite rev_involutive, blen_rev in H3.
    replace (blen rds) with (blen m) by (rewrite length_rev in H2; unfold blen; lia). lia. }
  split; [|done].
  assert (is_digits (prefix ++ rev rds)) by (apply is_digits_app; split; [done|by apply is_digits_rev]).
  assert (length (rev rds) = length m) as Hl by (by rewrite length_rev, H2, length_rev).
  destruct (N.eq_dec carry 0) as [->|Hc].
  - rewrite Pz in * by done. cbn [app] in *. split_and!; [done|by destruct (rev rds), m|].
    rewrite Hl, Hv. intros Hl1. unfold blen in *. rewrite Hl. specialize (Hlo Hl1). lia.
  - destruct (Plo Hc) as [Hc1 Hc2]. apply normal_of_ge; [done|by destruct prefix|].
    rewrite dec_value_app, blen_app, Pv.
    assert (blen prefix <> 0) by by rewrite blen_0.
    replace (blen prefix + blen (rev rds) - 1) with ((blen prefix - 1) + blen (rev rds)) by lia.
    rewrite N.pow_add_r. assert (10 ^ (blen prefix - 1) * 10 ^ blen (rev rds) <= carry * 10 ^ blen (rev rds));
      [by apply N.mul_le_mono_r|lia].
Qed.

Lemma sub_loop_spec rds borrow :
  is_digits rds -> borrow <= rev_value rds ->
  let r := sub_loop rds borrow in
  is_digits r.1 /\ length r.1 = length rds /\ r.2 = 0 /\ rev_value r.1 + borrow = rev_value rds.
Proof.
  revert borrow. induction rds as [|d rest IH]; intros borrow Hd Hb.
  { cbn in *. split_and!; (done || lia). }
  apply is_digits_cons in Hd as [Hd Hr]. cbn [sub_loop]. rewrite rev_value_cons in Hb.
  destruct (N.eqb_spec borrow 0) as [->|Hc].
  { cbn [fst snd]. split_and!; [by apply is_digits_cons|done|done|lia]. }
  pose proof (N.div_mod borrow 10 ltac:(lia)). pose proof (N.mod_lt borrow 10 ltac:(lia)).
  pose proof (digit_value_lt d Hd).
  destruct (N.ltb_spec (digit_value d) (borrow mod 10)) as [Hlt|Hge].
  - destruct (IH (borrow / 10 + 1) Hr) as (IH1 & IH2 & IH3 & IH4); [div_lia|].
    destruct (sub_loop rest (borrow / 10 + 1)) as [rest' b']. cbn [fst snd] in *.
    split_and!; [|cbn; lia|done|].
    + apply is_digits_cons. split; [apply digit_char_digit; div_lia|done].
    + rewrite !rev_value_cons, digit_value_char by div_lia. div_lia.
  - destruct (IH (borrow / 10) Hr) as (IH1 & IH2 & IH3 & IH4); [div_lia|].
    destruct (sub_loop rest (borrow / 10)) as [rest' b']. cbn [fst snd] in *.
    split_and!; [|cbn; lia|done|].
    + apply is_digits_cons. split; [apply digit_char_digit; div_lia|done].
    + rewrite !rev_value_cons, digit_value_char by div_lia. div_lia.
Qed.

Lemma nonzero_digit_false c : nonzero_digit c = false -> c = "0"%char.
Proof. unfold nonzero_digit. intros H. reflect_guards. by apply Ascii.eqb_eq. Qed.

Lemma nonzero_digit_pos c : is_ascii_digit c = true -> nonzero_digit c = true -> 0 < digit_value c.
Proof.
  intros Hd Hn. destruct (N.eq_dec (digit_value c) 0) as [E|]; [|lia].
  rewrite <-(digit_char_value c Hd), E in Hn. discriminate Hn.
Qed.

Lemma position_spec p ds :
  match position p ds with
  | Some i => exists before d after, ds = before ++ d :: after /\ length before = i /\ p d = true /\
                Forall (fun c => p c = false) before
  | None => Forall (fun c => p c = false) ds
  end.
Proof.
  induction ds as [|d ds IH]; cbn; [constructor|].
  destruct (p d) eqn:E; [by exists [], d, ds|].
  destruct (position p ds) as [i|]; cbn.
  - destruct IH as (b & x & a & -> & <- & ? & ?). exists (d :: b), x, a. split_and!; [done..|by constructor].
  - by constructor.
Qed.

Lemma zeros_eq ds : Forall (fun c => nonzero_digit c = false) ds -> ds = replicate (length ds) "0"%char.
Proof. induction 1 as [|c ds Hc _ IH]; [done|]. cbn. f_equal; [by apply nonzero_digit_false|done]. Qed.

Lemma dec_value_zeros n : dec_value (replicate n "0"%char) = 0.
Proof. induction n as [|n IH]; [done|]. cbn [replicate]. rewrite dec_value_cons, IH. done. Qed.

Lemma dec_value_zeros_app n ds : dec_value (replicate n "0"%char ++ ds) = dec_value ds.
Proof. rewrite dec_value_app, dec_value_zeros. lia. Qed.

Lemma blen_cons {A} (x : A) l : blen (x :: l) = N.succ (blen l).
Proof. unfold blen. cbn [length]. lia. Qed.

Lemma dec_value_lower d ds :
  is_ascii_digit d = true -> nonzero_digit d = true -> 10 ^ (blen (d :: ds) - 1) <= dec_value (d :: ds).
Proof.
  intros Hd Hn. rewrite dec_value_cons, blen_cons. replace (N.succ (blen ds) - 1) with (blen ds) by lia.
  pose proof (nonzero_digit_pos d Hd Hn). pose proof (pow10_pos (blen ds)). nia.
Qed.

(** [subtract_small_from_decimal_magnitude] is subtraction when it does not go below zero. *)
Lemma subtract_small_spec m n :
  normal m -> n <= dec_value m ->
  normal (subtract_small_from_decimal_magnitude m n) /\
  dec_value (subtract_small_from_decimal_magnitude m n) = dec_value m - n.
Proof.
  intros (Hd & Hne & Hlo) Hn. unfold subtract_small_from_decimal_magnitude.
  destruct (sub_loop_spec (rev m) n) as (H1 & H2 & _ & H4).
  { by apply is_digits_rev. } { unfold rev_value. by rewrite rev_involutive. }
  unfold rev_value in H4. rewrite rev_involutive in H4. rewrite length_rev in H2.
  apply is_digits_rev in H1. rewrite <-(length_rev (sub_loop (rev m) n).1) in H2.
  set (ds := rev (sub_loop (rev m) n).1) in *. clearbody ds.
  assert (dec_value ds = dec_value m - n) as Hv by lia.
  pose proof (position_spec nonzero_digit ds) as Hp. destruct (position nonzero_digit ds) as [i|]; cbn [default from_option id].
  - destruct Hp as (b & d & a & -> & <- & Hnz & Hz). rewrite drop_app_length.
    apply is_digits_app in H1 as [_ H1]. apply zeros_eq in Hz. rewrite Hz, dec_value_zeros_app in Hv.
    split; [|done]. apply normal_of_ge; [done..|]. apply is_digits_cons in H1 as [? ?]. by apply dec_value_lower.
  - apply zeros_eq in Hp. rewrite Hp in *. rewrite length_replicate in *. rewrite dec_value_zeros in Hv.
    assert (length ds <> 0)%nat by (destruct m; cbn in *; [done|lia]).
    replace (drop (length ds - 1) (replicate (length ds) "0"%char)) with ["0"%char].
    + split; [|by rewrite <-Hv]. split_and!; [by repeat constructor|done|cbn; lia].
    + rewrite drop_replicate. by replace (length ds - (length ds - 1))%nat with 1%nat by lia.
Qed.

Lemma char_compare_digits x y :
  is_ascii_digit x = true -> is_ascii_digit y = true ->
  N.compare (Ascii.N_of_ascii x) (Ascii.N_of_ascii y) = N.compare (digit_value x) (digit_value y).
Proof.
  unfold is_ascii_digit, in_range, digit_value. intros Hx Hy. reflect_guards.
  change (Ascii.N_of_ascii "0") with 48 in *.
  destruct (N.compare_spec (Ascii.N_of_ascii x) (Ascii.N_of_ascii y));
    destruct (N.compare_spec (Ascii.N_of_ascii x - 48) (Ascii.N_of_ascii y - 48)); (done || lia).
Qed.

Lemma text_compare_spec xs ys :
  is_digits xs -> is_digits ys -> length xs = length ys ->
  text_compare xs ys = N.compare (dec_value xs) (dec_value ys).
Proof.
  revert ys. induction xs as [|x xs IH]; intros [|y ys] Hx Hy Hl; try done.
  apply is_digits_cons in Hx as [Hx1 Hx2]. apply is_digits_cons in Hy as [Hy1 Hy2].
  injection Hl as Hl. cbn [text_compare]. rewrite char_compare_digits by done.
  pose proof (dec_value_lt xs Hx2). pose proof (dec_value_lt ys Hy2). rewrite !dec_value_cons.
  assert (blen xs = blen ys) as Hb by (unfold blen; lia). rewrite Hb in *.
  symmetry. destruct (N.compare_spec (digit_value x) (digit_value y)) as [E|E|E].
  - rewrite IH by done. rewrite E. destruct (N.compare_spec (dec_value xs) (dec_value ys)) as [E'|E'|E'];
      [apply N.compare_eq_iff|apply N.compare_lt_iff|apply N.compare_gt_iff]; lia.
  - apply N.compare_lt_iff. nia.
  - apply N.compare_gt_iff. nia.
Qed.

Lemma compare_small_spec m n :
  normal m -> compare_decimal_magnitude_to_small m n = N.compare (dec_value m) n.
Proof.
  intros Hm. unfold compare_decimal_magnitude_to_small.
  destruct (u64_to_string_spec n) as [Hn Hv]. rewrite <-Hv at 3. set (s := u64_to_string n) in *. clearbody s.
  destruct (Nat.compare_spec (length m) (length s)) as [E|E|E].
  - apply text_compare_spec; [apply Hm|apply Hn|done].
  - symmetry. apply N.compare_lt_iff. apply normal_length_lt; [apply Hm|done..|apply Hm].
  - symmetry. apply N.compare_gt_iff. apply normal_length_lt; [apply Hn|done..|apply Hn].
Qed.

(** ** Signed decimal exponents *)

(** The representation [parse_decimal_exponent] and [add_signed_decimal] keep: no
    leading zero, and no negative zero. *)
Definition normal_signed (negative : bool) (magnitude : text) : Prop :=
  normal magnitude /\ (dec_value magnitude = 0 -> negative = false).

Lemma normal_zero : normal ["0"%char].
Proof. split_and!; [by repeat constructor|done|cbn; lia]. Qed.

Lemma less_fits_u64 m n : normal m -> n <= u64_max -> dec_value m < n -> parse_u64 m = Some (dec_value m).
Proof.
  intros (Hd & Hne & _) Hn Hlt. unfold parse_u64. apply forallb_is_digits in Hd.
  rewrite Hd, bool_decide_eq_false_2 by done. cbn [andb negb].
  by replace (dec_value m <=? u64_max) with true by (symmetry; apply N.leb_le; lia).
Qed.

Lemma signed_inj n1 n2 x y :
  (x = 0 -> n1 = false) -> (y = 0 -> n2 = false) -> signed n1 x = signed n2 y -> n1 = n2 /\ x = y.
Proof. unfold signed. intros Hx Hy. destruct n1, n2; intros E; split; try done; lia. Qed.

Lemma normal_signed_inj n1 m1 n2 m2 :
  normal_signed n1 m1 -> normal_signed n2 m2 ->
  signed n1 (dec_value m1) = signed n2 (dec_value m2) -> n1 = n2 /\ m1 = m2.
Proof.
  intros [N1 Z1] [N2 Z2] E. apply signed_inj in E as [-> E]; [|done..]. split; [done|]. by apply normal_inj.
Qed.

(** [add_signed_decimal] is integer addition, at any exponent length. *)
Lemma add_signed_decimal_spec n m a :
  normal_signed n m -> Z.abs_N a <= u64_max ->
  let r := add_signed_decimal n m a in
  normal_signed r.1 r.2 /\ signed r.1 (dec_value r.2) = (signed n (dec_value m) + a)%Z.
Proof.
  intros [Hm Hz] Ha. unfold add_signed_decimal.
  destruct (Z.eqb_spec a 0) as [->|Hnz]; [cbn [fst snd]; split; [done|by rewrite Z.add_0_r]|].
  destruct (Bool.eqb n (Z.ltb a 0)) eqn:Es.
  - apply Bool.eqb_prop in Es. destruct (add_decimal_magnitude_spec m (Z.abs_N a) Hm) as [N1 V1].
    cbn [fst snd]. split; [split; [done|rewrite V1; lia]|].
    rewrite V1. unfold signed. rewrite Es. destruct (Z.ltb_spec a 0); lia.
  - assert (n = negb (Z.ltb a 0)) as En by (destruct n, (Z.ltb a 0); done).
    rewrite compare_small_spec by done.
    destruct (N.compare_spec (dec_value m) (Z.abs_N a)) as [E|E|E]; cbn [fst snd].
    + split; [split; [apply normal_zero|done]|]. change (dec_value ["0"%char]) with 0. unfold signed at 1.
      unfold signed. rewrite En. destruct (Z.ltb_spec a 0); cbn [negb]; lia.
    + rewrite (less_fits_u64 m (Z.abs_N a)) by done. cbn [default from_option id].
      destruct (u64_to_string_spec (Z.abs_N a - dec_value m)) as [N1 V1].
      split; [split; [done|rewrite V1; lia]|].
      rewrite V1. unfold signed. rewrite En. destruct (Z.ltb_spec a 0); cbn [negb]; lia.
    + destruct (subtract_small_spec m (Z.abs_N a) Hm) as [N1 V1]; [lia|].
      split; [split; [done|rewrite V1; intros; lia]|].
      rewrite V1. unfold signed. rewrite En. destruct (Z.ltb_spec a 0); cbn [negb]; lia.
Qed.

(** ** Same rational *)

Lemma pow10_split k e : (k <= e -> 10 ^ (e - k) > 0)%Z.
Proof. intros. apply Z.lt_gt, Z.pow_pos_nonneg; lia. Qed.

(** Two values agree at one common exponent iff they agree at any other. *)
Lemma same_rational_at k v w :
  (k <= v.2)%Z -> (k <= w.2)%Z -> same_rational v w <-> scaled k v = scaled k w.
Proof.
  intros Hv Hw. unfold same_rational, scaled. set (m := Z.min v.2 w.2).
  assert (forall e, m <= e -> 10 ^ (e - k) = 10 ^ (e - m) * 10 ^ (m - k))%Z as Hs.
  { intros e He. rewrite <-Z.pow_add_r by lia. f_equal. lia. }
  rewrite (Hs v.2), (Hs w.2) by lia. rewrite !Z.mul_assoc.
  pose proof (pow10_split k m ltac:(lia)). rewrite Z.mul_cancel_r by lia. done.
Qed.

#[export] Instance same_rational_equivalence : Equivalence same_rational.
Proof.
  split.
  - intros v. done.
  - intros v w H. apply (same_rational_at (Z.min v.2 w.2)) in H; [|lia..].
    apply (same_rational_at (Z.min v.2 w.2)); [lia..|done].
  - intros u v w H1 H2. set (k := Z.min u.2 (Z.min v.2 w.2)).
    apply (same_rational_at k) in H1; [|lia..]. apply (same_rational_at k) in H2; [|lia..].
    apply (same_rational_at k); [lia..|congruence].
Qed.

Lemma same_rational_shift c e (z : nat) : same_rational ((c * 10 ^ Z.of_nat z)%Z, e) (c, (e + Z.of_nat z)%Z).
Proof.
  apply (same_rational_at e); cbn; [lia..|]. unfold scaled. cbn.
  rewrite Z.sub_diag, Z.add_simpl_l. lia.
Qed.

Lemma same_rational_zero c e e' : same_rational (c, e) (0%Z, e') <-> c = 0%Z.
Proof.
  rewrite (same_rational_at (Z.min e e')) by (cbn; lia). unfold scaled. cbn.
  pose proof (pow10_split (Z.min e e') e ltac:(lia)). split; [nia|intros ->; lia].
Qed.

(** A significand with no leading and no trailing zero. *)
Definition significand (ds : text) : Prop :=
  is_digits ds /\ (exists d rest, ds = d :: rest /\ nonzero_digit d = true)
  /\ (exists init l, ds = init ++ [l] /\ nonzero_digit l = true).

Lemma significand_normal ds : significand ds -> normal ds /\ 0 < dec_value ds.
Proof.
  intros (Hd & (d & rest & -> & Hnz) & _). pose proof Hd as [H1 H2]%is_digits_cons.
  pose proof (dec_value_lower d rest H1 Hnz). split; [by apply normal_of_ge|].
  pose proof (pow10_pos (blen (d :: rest) - 1)). lia.
Qed.

Lemma significand_mod ds : significand ds -> dec_value ds mod 10 <> 0.
Proof.
  intros (Hd & _ & (init & l & -> & Hnz)). apply is_digits_snoc in Hd as [_ Hl].
  rewrite dec_value_snoc, N.add_comm, N.Div0.mod_add, N.mod_small by (by apply digit_value_lt).
  pose proof (nonzero_digit_pos l Hl Hnz). lia.
Qed.

Lemma odd_power_unique (x y : N) (a b : Z) :
  (0 <= a)%Z -> (0 <= b)%Z -> x mod 10 <> 0 -> y mod 10 <> 0 ->
  (Z.of_N x * 10 ^ a = Z.of_N y * 10 ^ b)%Z -> x = y /\ a = b.
Proof.
  assert (forall (x y : N) (a b : Z), 0 <= a <= b -> (x mod 10 <> 0)%N ->
            Z.of_N x * 10 ^ a = Z.of_N y * 10 ^ b -> x = y /\ a = b)%Z as Hle.
  { intros x' y' a' b' [H0 Hab] Hx E.
    replace b' with (b' - a' + a')%Z in E by lia. rewrite Z.pow_add_r, Z.mul_assoc in E by lia.
    apply Z.mul_cancel_r in E; [|apply Z.pow_nonzero; lia].
    destruct (Z.eq_dec a' b') as [->|Hne]; [rewrite Z.sub_diag in E; split; [lia|done]|].
    exfalso. apply Hx. apply N2Z.inj. rewrite N2Z.inj_mod, E.
    replace (b' - a')%Z with (Z.succ (b' - a' - 1)) by lia. rewrite Z.pow_succ_r by lia.
    rewrite Z.mul_assoc, (Z.mul_comm (Z.of_N y')), <-Z.mul_assoc, Z.mul_comm.
    apply Z.mod_mul. lia. }
  intros Ha Hb Hx Hy E. destruct (Z.le_ge_cases a b) as [H|H].
  - apply Hle; [lia|done..].
  - destruct (Hle y x b a) as [-> ->]; [lia|done..].
Qed.

(** The normal form of a nonzero rational is unique. *)
Lemma significand_unique n1 s1 e1 n2 s2 e2 :
  significand s1 -> significand s2 ->
  same_rational (signed n1 (dec_value s1), e1) (signed n2 (dec_value s2), e2) ->
  n1 = n2 /\ s1 = s2 /\ e1 = e2.
Proof.
  intros S1 S2 E. rewrite (same_rational_at (Z.min e1 e2)) in E by (cbn; lia). unfold scaled in E. cbn in E.
  destruct (significand_normal s1 S1) as [N1 P1]. destruct (significand_normal s2 S2) as [N2 P2].
  pose proof (pow10_split (Z.min e1 e2) e1 ltac:(lia)). pose proof (pow10_split (Z.min e1 e2) e2 ltac:(lia)).
  set (X := (10 ^ (e1 - Z.min e1 e2))%Z) in *. set (Y := (10 ^ (e2 - Z.min e1 e2))%Z) in *.
  assert (0 < Z.of_N (dec_value s1) * X)%Z by (apply Z.mul_pos_pos; lia).
  assert (0 < Z.of_N (dec_value s2) * Y)%Z by (apply Z.mul_pos_pos; lia).
  assert (n1 = n2 /\ (Z.of_N (dec_value s1) * X = Z.of_N (dec_value s2) * Y)%Z) as [-> E'].
  { unfold signed in E. destruct n1, n2; rewrite ?Z.mul_opp_l in E;
      [split; [done|lia]|exfalso; lia|exfalso; lia|by split]. }
  apply odd_power_unique in E' as [E1 E2]; [|lia|lia|by apply significand_mod..].
  split_and!; [done|by apply normal_inj|lia].
Qed.

(** ** Splitting and printing *)

Lemma split_at_none p (ds : text) : Forall (fun c => p c = false) ds -> split_at p ds = (ds, None).
Proof. induction 1 as [|c ds Hc _ IH]; [done|]. cbn. by rewrite Hc, IH. Qed.

Lemma split_at_some p (ds : text) c r :
  Forall (fun c => p c = false) ds -> p c = true -> split_at p (ds ++ c :: r) = (ds, Some r).
Proof. intros H Hc. induction H as [|x ds Hx _ IH]; cbn; [by rewrite Hc|]. by rewrite Hx, IH. Qed.

Lemma digit_not p c :
  is_ascii_digit c = true -> (forall n, n < 10 -> p (digit_char n) = false) -> p c = false.
Proof. intros Hc Hp. rewrite <-(digit_char_value c Hc). apply Hp. by apply digit_value_lt. Qed.

Lemma digit_cases (P : N -> Prop) :
  P 0 -> P 1 -> P 2 -> P 3 -> P 4 -> P 5 -> P 6 -> P 7 -> P 8 -> P 9 -> forall n, n < 10 -> P n.
Proof.
  intros. assert (In n [9; 8; 7; 6; 5; 4; 3; 2; 1; 0]) as Hn by (cbn; lia).
  repeat (destruct Hn as [<-|Hn]; [done|]). done.
Qed.

Lemma digit_no_mark c : is_ascii_digit c = true -> is_exponent_mark c = false.
Proof. intros Hc. apply (digit_not _ c Hc). by apply digit_cases. Qed.

Lemma digits_no_mark ds : is_digits ds -> Forall (fun c => is_exponent_mark c = false) ds.
Proof. intros H. eapply List.Forall_impl; [|exact H]. cbn. apply digit_no_mark. Qed.

Lemma digits_no_point ds : is_digits ds -> Forall (fun c => is_point c = false) ds.
Proof.
  intros H. eapply List.Forall_impl; [|exact H]. intros c Hc. apply (digit_not _ c Hc). by apply digit_cases.
Qed.

Lemma split_sign_digits d (rest : text) : is_ascii_digit d = true -> split_sign (d :: rest) = (false, d :: rest).
Proof.
  intros Hd. rewrite <-(digit_char_value d Hd). pose proof (digit_value_lt d Hd) as Hlt. revert Hlt.
  generalize (digit_value d). by apply digit_cases.
Qed.

Lemma split_sign_render (negative : bool) (body : text) :
  (exists d (rest : text), body = d :: rest /\ is_ascii_digit d = true) ->
  split_sign ((if negative then ["-"%char] else []) ++ body) = (negative, body).
Proof. intros (d & rest & -> & Hd). destruct negative; [done|]. by apply split_sign_digits. Qed.

(** The value of a text made of a sign, an integer part and an optional fraction. *)
Lemma number_value_plain (negative : bool) (integer : text) (fraction : option text) :
  is_digits integer -> integer <> [] -> is_digits (default [] fraction) ->
  number_value ((if negative then ["-"%char] else [])
                  ++ integer ++ match fraction with Some f => "."%char :: f | None => [] end)
  = Some (signed negative (dec_value (integer ++ default [] fraction)),
          (- Z.of_nat (length (default [] fraction)))%Z).
Proof.
  intros Hi Hne Hf. unfold number_value. rewrite split_sign_render.
  2:{ destruct integer as [|d r]; [done|]. apply is_digits_cons in Hi as [Hd _].
      exists d. eexists. by split. }
  rewrite split_at_none.
  2:{ apply Forall_app. split; [by apply digits_no_mark|].
      destruct fraction; [|constructor]. constructor; [done|]. by apply digits_no_mark. }
  destruct fraction as [f|]; cbn [default from_option id] in *.
  - rewrite split_at_some by (done || by apply digits_no_point). cbn [default from_option id].
    rewrite bool_decide_eq_false_2 by done. apply forallb_is_digits in Hi, Hf. by rewrite Hi, Hf.
  - rewrite app_nil_r, split_at_none by by apply digits_no_point. cbn [default from_option id forallb].
    rewrite bool_decide_eq_false_2 by done. apply forallb_is_digits in Hi. by rewrite Hi, !app_nil_r.
Qed.

(** Parsing a printed scientific exponent gives it back. *)
Lemma parse_scientific_exponent (sn : bool) (sm : text) :
  normal_signed sn sm ->
  exists n m, parse_decimal_exponent (Some ((if sn then "-"%char else "+"%char) :: sm)) = Ok (n, m)
              /\ signed n (dec_value m) = signed sn (dec_value sm).
Proof.
  intros [(Hd & Hne & Hlo) Hz]. unfold parse_decimal_exponent.
  assert ((match (if sn then "-"%char else "+"%char) :: sm with
           | "-"%char :: digits => (true, digits) | "+"%char :: digits => (false, digits)
           | _ => (false, (if sn then "-"%char else "+"%char) :: sm) end) = (sn, sm)) as -> by by destruct sn.
  rewrite bool_decide_eq_false_2 by done. pose proof Hd as Hd'. apply forallb_is_digits in Hd'. rewrite Hd'.
  cbn [orb negb]. unfold trim_start_zeros. pose proof (position_spec nonzero_digit sm) as Hp.
  destruct (position nonzero_digit sm) as [i|].
  - destruct Hp as (b & d & a & -> & <- & Hnz & Hb). rewrite drop_app_length.
    exists sn, (d :: a). split; [done|]. apply zeros_eq in Hb. by rewrite Hb, dec_value_zeros_app.
  - exists false, ["0"%char]. split; [done|]. apply zeros_eq in Hp.
    assert (dec_value sm = 0) as E by (rewrite Hp; apply dec_value_zeros).
    rewrite E, Hz by done. done.
Qed.

Lemma number_value_scientific (negative : bool) d (rest sm : text) (sn : bool) :
  is_digits (d :: rest) -> normal_signed sn sm ->
  number_value ((if negative then ["-"%char] else [])
    ++ d :: (if (1 <? blen (d :: rest)) then "."%char :: rest else [])
         ++ "e"%char :: (if sn then "-"%char else "+"%char) :: sm)
  = Some (signed negative (dec_value (d :: rest)), (signed sn (dec_value sm) - Z.of_nat (length rest))%Z).
Proof.
  intros Hd Hs. destruct (parse_scientific_exponent sn sm Hs) as (n & m & Hp & Hv).
  unfold number_value. pose proof Hd as [Hd1 Hd2]%is_digits_cons.
  rewrite split_sign_render by eauto.
  set (frac := if 1 <? blen (d :: rest) then "."%char :: rest else []).
  assert (d :: frac ++ "e"%char :: (if sn then "-"%char else "+"%char) :: sm
          = (d :: frac) ++ "e"%char :: (if sn then "-"%char else "+"%char) :: sm) as -> by done.
  rewrite split_at_some; [|constructor|done].
  2:{ by apply digit_no_mark. }
  2:{ unfold frac. destruct (1 <? _); [constructor; [done|by apply digits_no_mark]|constructor]. }
  assert (split_at is_point (d :: frac) = ([d], if 1 <? blen (d :: rest) then Some rest else None)) as ->.
  { assert (Forall (fun c => is_point c = false) [d]) by (apply digits_no_point; by repeat constructor).
    unfold frac. destruct (1 <? blen (d :: rest)); [by apply (split_at_some is_point [d])|by apply split_at_none]. }
  assert (default [] (if 1 <? blen (d :: rest) then Some rest else None) = rest) as ->.
  { destruct (N.ltb_spec 1 (blen (d :: rest))) as [|H]; [done|]. unfold blen in H. destruct rest; cbn in *; [done|lia]. }
  rewrite bool_decide_eq_false_2 by done. apply forallb_is_digits in Hd2. cbn [forallb]. rewrite Hd1, Hd2.
  cbn [andb orb negb]. rewrite Hp. by rewrite Hv.
Qed.

Lemma is_digits_zeros n : is_digits (replicate n "0"%char).
Proof. apply Forall_replicate. done. Qed.

(** Each output format denotes the significand at its scientific exponent. *)
Lemma render_number_value negative ds sn sm :
  significand ds -> normal_signed sn sm ->
  exists v, number_value (render_number negative ds sn sm) = Some v /\
    same_rational v (signed negative (dec_value ds),
                     (signed sn (dec_value sm) - (Z.of_nat (length ds) - 1))%Z).
Proof.
  intros (Hd & (d & rest & -> & Hnz) & _) Hs. pose proof Hd as [Hd1 Hd2]%is_digits_cons.
  set (x := signed sn (dec_value sm)).
  assert (exists v,
    number_value ((if negative then ["-"%char] else [])
      ++ d :: (if (1 <? blen (d :: rest)) then "."%char :: rest else [])
           ++ "e"%char :: (if sn then "-"%char else "+"%char) :: sm) = Some v /\
    same_rational v (signed negative (dec_value (d :: rest)), (x - (Z.of_nat (length (d :: rest)) - 1))%Z))
    as Hscientific.
  { rewrite number_value_scientific by done. eexists. split; [done|]. cbn [length].
    replace (Z.of_nat (S (length rest)) - 1)%Z with (Z.of_nat (length rest)) by lia. reflexivity. }
  unfold render_number, small_signed_decimal. destruct (parse_i32 sm) as [p|] eqn:Ep; [|done]. cbn [fmap option_fmap option_map].
  assert ((if sn then - p else p)%Z = x) as ->.
  { unfold parse_i32 in Ep. destruct (_ && _ && _); [|done]. injection Ep as <-. unfold x, signed. done. }
  destruct (Z.leb 0 x && Z.leb x 20) eqn:E1; [|destruct (Z.leb (-6) x && Z.leb x (-1)) eqn:E2; [|done]].
  - apply andb_true_iff in E1 as [E1 _]. apply Z.leb_le in E1.
    destruct (Nat.leb_spec (length (d :: rest)) (Z.to_nat (x + 1))) as [Hle|Hgt].
    + set (z := (Z.to_nat (x + 1) - length (d :: rest))%nat).
      pose proof (number_value_plain negative ((d :: rest) ++ replicate z "0"%char) None) as Hn.
      cbn [default from_option id] in Hn. rewrite !app_nil_r in Hn. rewrite Hn;
        [|apply is_digits_app; split; [done|apply is_digits_zeros]|done|constructor].
      eexists. split; [done|].
      rewrite dec_value_app, dec_value_zeros, N.add_0_r. unfold blen. rewrite length_replicate.
      pose proof (same_rational_shift (signed negative (dec_value (d :: rest))) 0 z) as Hsh.
      cbn [length] in *. replace (x - (Z.of_nat (S (length rest)) - 1))%Z with (0 + Z.of_nat z)%Z by lia.
      rewrite <-Hsh. replace (- Z.of_nat 0)%Z with 0%Z by lia.
      assert (signed negative (dec_value (d :: rest) * 10 ^ N.of_nat z)
              = signed negative (dec_value (d :: rest)) * 10 ^ Z.of_nat z)%Z as ->; [|reflexivity].
      unfold signed. destruct negative; rewrite N2Z.inj_mul, N2Z.inj_pow, nat_N_Z; lia.
    + set (k := Z.to_nat (x + 1)) in *.
      pose proof (number_value_plain negative (take k (d :: rest)) (Some (drop k (d :: rest)))) as Hn.
      cbn [default from_option id] in Hn. rewrite take_drop in Hn.
      assert (is_digits (take k (d :: rest)) /\ is_digits (drop k (d :: rest))) as [Ht Hr].
      { by rewrite <-is_digits_app, take_drop. }
      assert (exists k', k = S k') as [k' Hk] by (exists (k - 1)%nat; lia).
      rewrite Hn; [|done|by rewrite Hk|done].
      eexists. split; [done|]. rewrite length_drop.
      replace (- Z.of_nat (length (d :: rest) - k))%Z with (x - (Z.of_nat (length (d :: rest)) - 1))%Z by lia.
      reflexivity.
  - apply andb_true_iff in E2 as [E2 E3]. apply Z.leb_le in E2, E3.
    set (z := Z.to_nat (- x - 1)).
    pose proof (number_value_plain negative ["0"%char] (Some (replicate z "0"%char ++ d :: rest))) as Hn.
    cbn [default from_option id] in Hn.
    change (["0"%char; "."%char] ++ replicate z "0"%char ++ d :: rest)
      with (["0"%char] ++ "."%char :: replicate z "0"%char ++ d :: rest).
    rewrite Hn; [|by repeat constructor|done|apply is_digits_app; split; [apply is_digits_zeros|done]].
    eexists. split; [done|].
    change (["0"%char] ++ replicate z "0"%char ++ d :: rest) with (replicate (S z) "0"%char ++ d :: rest).
    rewrite dec_value_zeros_app, length_app, length_replicate.
    replace (- Z.of_nat (z + length (d :: rest)))%Z with (x - (Z.of_nat (length (d :: rest)) - 1))%Z by lia.
    reflexivity.
Qed.

(** ** [canonical_number] *)

Lemma parse_decimal_exponent_normal raw n m :
  parse_decimal_exponent raw = Ok (n, m) -> normal_signed n m.
Proof.
  unfold parse_decimal_exponent. destruct raw as [raw|]; [|intros [= <- <-]; split; [apply normal_zero|done]].
  destruct (match raw with "-"%char :: _ => _ | _ => _ end) as [neg ds].
  destruct (bool_decide (ds = []) || negb (forallb is_ascii_digit ds)) eqn:Eg; [done|].
  reflect_guards. apply forallb_is_digits in H0. unfold trim_start_zeros.
  pose proof (position_spec nonzero_digit ds) as Hp. destruct (position nonzero_digit ds) as [i|].
  - destruct Hp as (b & d & a & -> & <- & Hnz & _). rewrite drop_app_length. intros [= <- <-].
    apply is_digits_app in H0 as [_ H0]. pose proof H0 as [Hd _]%is_digits_cons.
    pose proof (dec_value_lower d a Hd Hnz). split; [by apply normal_of_ge|].
    pose proof (pow10_pos (blen (d :: a) - 1)). lia.
  - intros [= <- <-]. split; [apply normal_zero|done].
Qed.

Lemma rev_zeros n : rev (replicate n "0"%char) = replicate n "0"%char.
Proof.
  induction n as [|n IH]; [done|]. cbn [replicate rev]. rewrite IH. by rewrite <-replicate_cons_app.
Qed.

Lemma position_app_some p xs ys i : position p xs = Some i -> position p (xs ++ ys) = Some i.
Proof.
  revert i. induction xs as [|x xs IH]; intros i; [done|]. cbn. destruct (p x); [done|].
  destruct (position p xs) as [j|]; [|done]. cbn. intros [= <-]. by rewrite (IH j).
Qed.

(** A digit string that is not all zeros is a significand between zeros. *)
Lemma split_zeros ds first :
  is_digits ds -> position nonzero_digit ds = Some first ->
  exists sig i, ds = replicate first "0"%char ++ sig ++ replicate i "0"%char /\
    significand sig /\ rposition nonzero_digit ds = Some (first + length sig - 1)%nat.
Proof.
  intros Hd Hf. pose proof (position_spec nonzero_digit ds) as Hp. rewrite Hf in Hp.
  destruct Hp as (b & d & a & -> & Hb & Hnz & Hz).
  pose proof (position_spec nonzero_digit (rev (d :: a))) as Hq.
  destruct (position nonzero_digit (rev (d :: a))) as [i|] eqn:Ei.
  2:{ exfalso. cbn [rev] in Hq. apply Forall_app in Hq as [_ Hq]. apply List.Forall_inv in Hq. congruence. }
  destruct Hq as (z & y & w & Er & Hzl & Hy & Hzz).
  assert (d :: a = (rev w ++ [y]) ++ rev z) as Es.
  { rewrite <-(rev_involutive (d :: a)), Er, rev_app_distr. done. }
  apply zeros_eq in Hz, Hzz. rewrite Hb in Hz. rewrite Hzl in Hzz.
  exists (rev w ++ [y]), i. apply is_digits_app in Hd as [_ Hd]. split_and!.
  - rewrite Es, Hz at 1. f_equal. by rewrite Hzz, rev_zeros.
  - split_and!.
    + rewrite Es in Hd. by apply is_digits_app in Hd as [Hd _].
    + destruct (rev w ++ [y]) as [|x s] eqn:Ex; [by destruct (rev w)|]. exists x, s. split; [done|].
      injection Es as -> _. done.
    + by exists (rev w), y.
  - unfold rposition. rewrite rev_app_distr, (position_app_some _ _ _ i) by done.
    cbn [fmap option_fmap option_map]. f_equal. rewrite Es, !length_app, length_rev, length_rev. cbn [length]. lia.
Qed.

(** The significant digits the code cuts out, and what they are worth. *)
Lemma significant_digits ds first :
  is_digits ds -> position nonzero_digit ds = Some first ->
  let last := default 0%nat (rposition nonzero_digit ds) in
  let sig := take (last + 1 - first) (drop first ds) in
  significand sig /\ dec_value ds = dec_value sig * 10 ^ N.of_nat (length ds - last - 1) /\
  (length sig + (length ds - last - 1) <= length ds)%nat.
Proof.
  intros Hd Hf. destruct (split_zeros ds first Hd Hf) as (sig & i & Eds & Hs & Hr). rewrite Hr.
  cbn [default from_option id].
  assert (length sig <> 0)%nat as Hne by (destruct Hs as (_ & (? & ? & -> & _) & _); cbn; lia).
  replace (first + length sig - 1 + 1 - first)%nat with (length sig) by lia.
  assert (take (length sig) (drop first ds) = sig) as ->.
  { rewrite Eds, drop_app_length' by (by rewrite length_replicate). apply take_app_length. }
  assert (length ds = first + length sig + i)%nat as Hl.
  { rewrite Eds, !length_app, !length_replicate. lia. }
  replace (length ds - (first + length sig - 1) - 1)%nat with i by lia.
  split_and!; [done| |lia].
  rewrite Eds at 1. rewrite dec_value_zeros_app, dec_value_app, dec_value_zeros.
  unfold blen. rewrite length_replicate. lia.
Qed.

Lemma signed_mul n x y : signed n (x * y) = (signed n x * Z.of_N y)%Z.
Proof. unfold signed. destruct n; lia. Qed.

Lemma signed_zero n : signed n 0 = 0%Z.
Proof. by destruct n. Qed.

(** The lengths of a lexeme fit the [i64] of the exponent adjustment. *)
Definition lexeme_fits (raw : text) : Prop := blen raw <= 9223372036854775807.

Lemma split_at_length p (ds : text) :
  (length (split_at p ds).1 + length (default [] (split_at p ds).2) <= length ds)%nat.
Proof.
  induction ds as [|d ds IH]; cbn; [done|]. destruct (p d); cbn; [lia|].
  destruct (split_at p ds) as [b a]. cbn in *. lia.
Qed.

Lemma split_sign_length (raw : text) : (length (split_sign raw).2 <= length raw)%nat.
Proof.
  destruct raw as [|c raw]; [done|]. unfold split_sign. destruct c as [[] [] [] [] [] [] [] []]; cbn; lia.
Qed.

(** The outcome of [canonical_number] on a decimal number: zero, or the rendering
    of a significand at a scientific exponent, of the same value. *)
Lemma canonical_number_outcome raw v :
  lexeme_fits raw -> number_value raw = Some v ->
  (canonical_number raw = Ok ["0"%char] /\ v.1 = 0%Z) \/
  exists neg sig sn sm, canonical_number raw = Ok (render_number neg sig sn sm) /\
    significand sig /\ normal_signed sn sm /\
    same_rational v (signed neg (dec_value sig), (signed sn (dec_value sm) - (Z.of_nat (length sig) - 1))%Z).
Proof.
  intros Hfit. unfold number_value, canonical_number.
  pose proof (split_sign_length raw) as L1. destruct (split_sign raw) as [neg unsigned].
  pose proof (split_at_length is_exponent_mark unsigned) as L2.
  destruct (split_at is_exponent_mark unsigned) as [mantissa exponent].
  pose proof (split_at_length is_point mantissa) as L3.
  destruct (split_at is_point mantissa) as [integer fo]. cbn [fst snd] in *.
  set (fraction := default [] fo) in *. clearbody fraction.
  destruct (bool_decide (integer = []) || negb (forallb is_ascii_digit integer) || negb (forallb is_ascii_digit fraction))
    eqn:Eg; [done|].
  destruct (parse_decimal_exponent exponent) as [[en em]|] eqn:Ee; [|done]. intros [= <-]. cbn [fst snd].
  reflect_guards. apply forallb_is_digits in H0, H1.
  assert (is_digits (integer ++ fraction)) as Hd by by apply is_digits_app.
  destruct (position nonzero_digit (integer ++ fraction)) as [first|] eqn:Ef.
  2:{ left. split; [done|]. pose proof (position_spec nonzero_digit (integer ++ fraction)) as Hp. rewrite Ef in Hp.
      apply zeros_eq in Hp. rewrite Hp, dec_value_zeros. apply signed_zero. }
  right. cbn [mbind result_bind].
  destruct (significant_digits _ _ Hd Ef) as (Hs & Hv & Hl). cbn zeta in *.
  set (last := default 0%nat (rposition nonzero_digit (integer ++ fraction))) in *.
  set (sig := take (last + 1 - first) (drop first (integer ++ fraction))) in *.
  set (zeros := (length (integer ++ fraction) - last - 1)%nat) in *.
  set (adjustment := (- Z.of_nat (length fraction) + Z.of_nat zeros + (Z.of_nat (length sig) - 1))%Z).
  pose proof (parse_decimal_exponent_normal _ _ _ Ee) as Hn.
  pose proof (add_signed_decimal_spec en em adjustment Hn) as Ha.
  assert (Z.abs_N adjustment <= u64_max) as Hb.
  { unfold lexeme_fits, blen, u64_max in *. rewrite length_app in *. unfold adjustment. lia. }
  specialize (Ha Hb). destruct (add_signed_decimal en em adjustment) as [sn sm]. cbn [fst snd] in Ha.
  destruct Ha as [Hsn Hsv]. exists neg, sig, sn, sm. split_and!; [done..|].
  rewrite Hv, signed_mul, N2Z.inj_pow, nat_N_Z, same_rational_shift, Hsv.
  assert (forall x y, x = y -> same_rational x y) as Heq by by intros ? ? ->.
  apply Heq. f_equal. unfold adjustment. lia.
Qed.

Lemma number_value_zero : number_value ["0"%char] = Some (0%Z, 0%Z).
Proof. reflexivity. Qed.

Lemma significand_not_zero neg sig e e' :
  significand sig -> ~ same_rational (0%Z, e) (signed neg (dec_value sig), e').
Proof.
  intros Hs Hq. destruct (significand_normal sig Hs) as [_ Hp]. symmetry in Hq.
  rewrite same_rational_zero in Hq. unfold signed in Hq. destruct neg; lia.
Qed.

(** Lexemes of one rational have one canonical text. *)
Lemma canonical_number_same r1 r2 v1 v2 :
  lexeme_fits r1 -> lexeme_fits r2 -> number_value r1 = Some v1 -> number_value r2 = Some v2 ->
  same_rational v1 v2 -> canonical_number r1 = canonical_number r2.
Proof.
  intros F1 F2 V1 V2 E.
  destruct (canonical_number_outcome r1 v1 F1 V1) as [[C1 Z1]|(n1 & s1 & en1 & em1 & C1 & S1 & N1 & Q1)];
    destruct (canonical_number_outcome r2 v2 F2 V2) as [[C2 Z2]|(n2 & s2 & en2 & em2 & C2 & S2 & N2 & Q2)];
    rewrite C1, C2.
  - done.
  - exfalso. destruct v1 as [c e]. cbn in Z1. subst c. rewrite Q2 in E. by apply significand_not_zero in E.
  - exfalso. destruct v2 as [c e]. cbn in Z2. subst c. rewrite Q1 in E. symmetry in E. by apply significand_not_zero in E.
  - rewrite Q1, Q2 in E. apply significand_unique in E as (-> & -> & E); [|done..].
    assert (signed en1 (dec_value em1) = signed en2 (dec_value em2)) as E' by lia.
    by apply normal_signed_inj in E' as [-> ->].
Qed.

Lemma canonical_number_denotes raw v :
  lexeme_fits raw -> number_value raw = Some v ->
  exists t w, canonical_number raw = Ok t /\ number_value t = Some w /\ same_rational w v.
Proof.
  intros F V. destruct (canonical_number_outcome raw v F V) as [[C Z]|(n & s & en & em & C & S & N & Q)].
  - exists ["0"%char], (0%Z, 0%Z). split_and!; [done..|]. destruct v as [c e]. cbn in Z. subst c.
    by apply same_rational_zero.
  - destruct (render_number_value n s en em S N) as (w & W & Qw). exists (render_number n s en em), w.
    split_and!; [done..|]. by rewrite Qw, Q.
Qed.

(** [canonical_number] is total on decimal numbers and exact: whatever the
    length of the significand and of the exponent, it returns a text that denotes
    the same rational as the lexeme, and that is its own canonical form. *)
Theorem canonical_number_exact raw v :
  lexeme_fits raw -> number_value raw = Some v ->
  exists t w, canonical_number raw = Ok t /\ number_value t = Some w /\ same_rational w v
              /\ (lexeme_fits t -> canonical_number t = Ok t).
Proof.
  intros F V. destruct (canonical_number_denotes raw v F V) as (t & w & C & W & Q).
  exists t, w. split_and!; [done..|]. intros Ft. rewrite <-C. by apply (canonical_number_same t raw w v).
Qed.

(** Canonical texts are equal exactly when the lexemes denote the same
    rational: equivalent spellings converge, distinct values stay distinct. *)
Theorem canonical_number_complete r1 r2 v1 v2 :
  lexeme_fits r1 -> lexeme_fits r2 -> number_value r1 = Some v1 -> number_value r2 = Some v2 ->
  canonical_number r1 = canonical_number r2 <-> same_rational v1 v2.
Proof.
  intros F1 F2 V1 V2. split; [|by apply canonical_number_same].
  intros E. destruct (canonical_number_denotes r1 v1 F1 V1) as (t & w & C & W & Q).
  destruct (canonical_number_denotes r2 v2 F2 V2) as (t' & w' & C' & W' & Q').
  assert (t = t') as <- by congruence. rewrite W in W'. injection W' as ->. by rewrite <-Q, <-Q'.
Qed.

(** ** Witnesses *)

Lemma canonical_number_exact_witness :
  exists t w, canonical_number (String.list_ascii_of_string "-12300.50e-400000000000000000000") = Ok t
    /\ number_value t = Some w /\ same_rational w ((-1230050)%Z, (-400000000000000000002)%Z)
    /\ (lexeme_fits t -> canonical_number t = Ok t).
Proof.
  apply (canonical_number_exact (String.list_ascii_of_string "-12300.50e-400000000000000000000")
           ((-1230050)%Z, (-400000000000000000002)%Z)).
  - vm_compute. discriminate.
  - vm_compute. reflexivity.
Defined.

Lemma canonical_number_complete_witness :
  canonical_number (String.list_ascii_of_string "1500.0") = canonical_number (String.list_ascii_of_string "1.5E+3")
  <-> same_rational (15000%Z, (-1)%Z) (15%Z, 2%Z).
Proof.
  apply (canonical_number_complete (String.list_ascii_of_string "1500.0") (String.list_ascii_of_string "1.5E+3")
           (15000%Z, (-1)%Z) (15%Z, 2%Z)); vm_compute; (reflexivity || discriminate).
Defined.
