(* ===== verification/Json.v ===== *)
(** * Json: admission of canonical JSON payloads.

    Models [CanonicalJson] of [crates/pliego-log/src/lib.rs]: [parse] and
    [from_serialize] with the reserved-key scan, the duplicate-key visitor, the
    structural bounds and the canonical writer.

    [serde_json] is not part of the repository: the class [SerdeJson] lists the
    functions of it the code calls. [deserialize_any] describes what the
    deserializer feeds to a visitor as a tree of [de_value]s; object entries keep
    their order and their repetitions, and a node can be the point where the
    deserializer itself fails. With the [arbitrary_precision] feature, which the
    workspace enables, a number of a [Value] is its lexeme. *)

From S2P Require Import Prelude Decimal.


(** ** Values *)

Inductive value : Type :=
| Null
| Bool (b : bool)
| Number (lexeme : string)
| Str (s : string)
| Array (values : list value)
| Object (entries : list (string * value)).

(** [serde_json::Error]: its [Display] text and whether it is an I/O error. *)
Record serde_error : Type := SerdeError { message : string; is_io : bool }.

(** What [Deserializer::deserialize_any] drives a visitor with. [SeqEnd e] and
    [MapEnd e] are a sequence or an object whose next element fails with [e]. *)
Inductive de_value : Type :=
| DeFail (e : serde_error)
| DeScalar
| DeSeq (items : list de_value) (stop : option serde_error)
| DeMap (entries : list (string * de_value)) (stop : option serde_error).

Class SerdeJson : Type := {
  deserialize_any : bytes -> de_value;
  deserializer_end : bytes -> result serde_error unit;
  value_from_slice : bytes -> result serde_error value;
  string_from_slice : bytes -> result serde_error string;
  write_string : string -> result serde_error bytes;
  custom_error : bytes -> string -> serde_error;
}.

(** ** Errors and limits *)

Definition MAX_JSON_BYTES : N := 256 * 1024.
Definition MAX_JSON_DEPTH : N := 64.
Definition MAX_JSON_NODES : N := 65536.

Definition SERDE_ARBITRARY_PRECISION_NUMBER_KEY : string := "$serde_json::private::Number".

Inductive CanonicalJsonError : Type :=
| TooLarge (actual limit : N)
| DuplicateKey (key : string)
| TooDeep (actual limit : N)
| TooManyNodes (actual limit : N)
| Invalid (reason : string).

(** A bounded, deterministic JSON encoding. *)
Record CanonicalJson : Type := Canonical { canonical_bytes : bytes }.

#[export] Instance CanonicalJson_eq_dec : EqDecision CanonicalJson.
Proof. solve_decision. Defined.

(** ** Structural bounds *)

Definition children (v : value) : list value :=
  match v with
  | Array values => values
  | Object entries => entries.*2
  | _ => []
  end.

(** The number of values in a tree, and its nesting depth. *)
Fixpoint node_count (v : value) : nat :=
  match v with
  | Array values => S (list_sum (map node_count values))
  | Object entries => S (list_sum (map (fun p => node_count p.2) entries))
  | _ => 1
  end.

Fixpoint depth (v : value) : N :=
  match v with
  | Array values => 1 + foldr N.max 0 (map depth values)
  | Object entries => 1 + foldr N.max 0 (map (fun p => depth p.2) entries)
  | _ => 1
  end.

(** The work list of [validate_json_shape], top of the stack first. *)
Fixpoint shape_loop (fuel : nat) (stack : list (value * N)) (nodes : N) : result CanonicalJsonError unit :=
  match stack with
  | [] => Ok tt
  | (v, d) :: rest =>
      match fuel with
      | O => Err (Invalid "")
      | S f =>
          let nodes := saturating_add nodes 1 in
          fail_if MAX_JSON_NODES <? nodes with TooManyNodes nodes MAX_JSON_NODES ;;
          fail_if MAX_JSON_DEPTH <? d with TooDeep d MAX_JSON_DEPTH ;;
          shape_loop f (rev (map (fun c => (c, saturating_add d 1)) (children v)) ++ rest) nodes
      end
  end.

(** Each iteration pops one value of the tree, so that its node count is fuel enough. *)
Definition validate_json_shape (root : value) : result CanonicalJsonError unit :=
  shape_loop (node_count root) [(root, 1)] 0.

(** ** Duplicate keys *)

Definition duplicate_message (key : string) : string :=
  ("duplicate JSON object key `" ++ key ++ "`")%string.

Section admission.
Context `{SerdeJson}.

(** [DuplicateAwareVisitor]: values are visited in input order, the first failure
    stops, and a repeated key fails before its value is read. *)
Fixpoint visit (raw : bytes) (d : de_value) : result serde_error unit :=
  match d with
  | DeFail e => Err e
  | DeScalar => Ok tt
  | DeSeq items stop =>
      (fix visit_seq (items : list de_value) : result serde_error unit :=
         match items with
         | [] => match stop with Some e => Err e | None => Ok tt end
         | item :: items => match visit raw item with Err e => Err e | Ok _ => visit_seq items end
         end) items
  | DeMap entries stop =>
      (fix visit_map (seen : list string) (entries : list (string * de_value)) : result serde_error unit :=
         match entries with
         | [] => match stop with Some e => Err e | None => Ok tt end
         | (key, item) :: entries =>
             fail_if bool_decide (key ∈ seen) with custom_error raw (duplicate_message key) ;;
             match visit raw item with
             | Err e => Err e
             | Ok _ => visit_map (key :: seen) entries
             end
         end) [] entries
  end.

(** [split_once('`')] keeping the first part. *)
Fixpoint before_backquote (s : string) : option string :=
  match s with
  | EmptyString => None
  | String c s => if Ascii.eqb c "`" then Some EmptyString else String c <$> before_backquote s
  end.

Definition classify_json_error (error : serde_error) (raw_len : N) : CanonicalJsonError :=
  match strip_prefix "duplicate JSON object key `" (message error) ≫= before_backquote with
  | Some key => DuplicateKey key
  | None =>
      if is_io error && (MAX_JSON_BYTES <=? raw_len)
      then TooLarge raw_len MAX_JSON_BYTES
      else Invalid (message error)
  end.

(** ** The reserved-key scan *)

Definition QUOTE : byte := x22.
Definition BACKSLASH : byte := x5c.
Definition COLON : byte := x3a.

Definition is_ascii_whitespace (b : byte) : bool :=
  existsb (fun n => Byte.to_N b =? n) [9; 10; 12; 13; 32].

(** The inner loop: from just after the opening quote to the closing one. Returns
    the bytes up to and including the quote (when there is one) and the rest. *)
Fixpoint scan_string (raw : bytes) : bytes * bytes :=
  match raw with
  | [] => ([], [])
  | b :: rest =>
      if Byte.eqb b QUOTE then ([b], rest)
      else if Byte.eqb b BACKSLASH then
        match rest with
        | [] => ([b], [])
        | c :: rest => let '(s, r) := scan_string rest in (b :: c :: s, r)
        end
      else let '(s, r) := scan_string rest in (b :: s, r)
  end.

Fixpoint skip_whitespace (raw : bytes) : bytes :=
  match raw with
  | b :: rest => if is_ascii_whitespace b then skip_whitespace rest else raw
  | [] => []
  end.

(** The outer loop; each iteration consumes at least one byte. *)
Fixpoint reserved_loop (fuel : nat) (raw : bytes) : result CanonicalJsonError unit :=
  match fuel, raw with
  | S fuel, b :: rest =>
      if negb (Byte.eqb b QUOTE) then reserved_loop fuel rest
      else
        let '(quoted, rest) := scan_string rest in
        match skip_whitespace rest with
        | c :: _ =>
            if Byte.eqb c COLON then
              key ← map_err (fun e => Invalid (message e)) (string_from_slice (b :: quoted));
              fail_if String.eqb key SERDE_ARBITRARY_PRECISION_NUMBER_KEY
                with Invalid ("object key `" ++ SERDE_ARBITRARY_PRECISION_NUMBER_KEY ++ "` is reserved")%string ;;
              reserved_loop fuel rest
            else reserved_loop fuel rest
        | [] => reserved_loop fuel rest
        end
  | _, _ => Ok tt
  end.

Definition reject_reserved_number_keys (raw : bytes) : result CanonicalJsonError unit :=
  reserved_loop (length raw) raw.

(** ** The canonical writer *)

Definition number_error_text (e : number_error) : string :=
  match e with
  | InvalidSignificand => "number has an invalid decimal significand"
  | InvalidExponent => "number has an invalid decimal exponent"
  end.

Definition write_number (lexeme : string) : result CanonicalJsonError bytes :=
  text ← map_err (fun e => Invalid (number_error_text e))
           (canonical_number (String.list_ascii_of_string lexeme));
  Ok (as_bytes (String.string_of_list_ascii text)).

Definition write_text (s : string) : result CanonicalJsonError bytes :=
  map_err (fun e => Invalid (message e)) (write_string s).

(** The elements of an array or object, written in order and joined with commas. *)
Fixpoint join_written (written : list (result CanonicalJsonError bytes)) : result CanonicalJsonError bytes :=
  match written with
  | [] => Ok []
  | [last] => last
  | item :: rest =>
      item ← item; rest ← join_written rest; Ok (item ++ as_bytes "," ++ rest)
  end.

Definition write_entry (entry : string * result CanonicalJsonError bytes) : result CanonicalJsonError bytes :=
  key ← write_text entry.1; item ← entry.2; Ok (key ++ as_bytes ":" ++ item).

(** [entries.sort_unstable_by(|l, r| l.cmp(r))] on the keys. *)
Definition sort_entries {A} (entries : list (string * A)) : list (string * A) :=
  merge_sort (key_le String.le) entries.

Fixpoint write_canonical (v : value) : result CanonicalJsonError bytes :=
  match v with
  | Null => Ok (as_bytes "null")
  | Bool true => Ok (as_bytes "true")
  | Bool false => Ok (as_bytes "false")
  | Number lexeme => write_number lexeme
  | Str s => write_text s
  | Array values =>
      body ← join_written (map write_canonical values); Ok (as_bytes "[" ++ body ++ as_bytes "]")
  | Object entries =>
      body ← join_written (map write_entry (sort_entries (map (fun p => (p.1, write_canonical p.2)) entries)));
      Ok (as_bytes "{" ++ body ++ as_bytes "}")
  end.

(** ** Admission *)

Definition parse (raw : bytes) : result CanonicalJsonError CanonicalJson :=
  fail_if MAX_JSON_BYTES <? blen raw with TooLarge (blen raw) MAX_JSON_BYTES ;;
  _ ← reject_reserved_number_keys raw;
  _ ← map_err (fun e => classify_json_error e (blen raw)) (visit raw (deserialize_any raw));
  _ ← map_err (fun e => Invalid (message e)) (deserializer_end raw);
  value ← map_err (fun e => Invalid (message e)) (value_from_slice raw);
  _ ← validate_json_shape value;
  bytes ← write_canonical value;
  fail_if MAX_JSON_BYTES <? blen bytes with TooLarge (blen bytes) MAX_JSON_BYTES ;;
  Ok (Canonical bytes).

(** [BoundedWriter]: the [write] calls of a serializer, in order. *)
Record BoundedWriter : Type := Writer { written : bytes; limit : N; attempted_size : option N }.

Definition bounded_write (w : BoundedWriter) (buffer : bytes) : result BoundedWriter BoundedWriter :=
  let attempted := N.min u64_max (blen (written w) + blen buffer) in
  if limit w <? attempted
  then Err (Writer (written w) (limit w) (Some attempted))
  else Ok (Writer (written w ++ buffer) (limit w) (attempted_size w)).

Fixpoint write_chunks (w : BoundedWriter) (chunks : list bytes) : result BoundedWriter BoundedWriter :=
  match chunks with
  | [] => Ok w
  | chunk :: rest => w ← bounded_write w chunk; write_chunks w rest
  end.

(** A serializer run: the chunks [serde_json::to_writer] writes and, when the
    serialization itself fails after them, the error. *)
Definition serialization : Type := list bytes * option serde_error.

Definition from_serialize (run : serialization) : result CanonicalJsonError CanonicalJson :=
  match write_chunks (Writer [] MAX_JSON_BYTES None) run.1, run.2 with
  | Err w, _ => Err (TooLarge (default 0 (attempted_size w)) MAX_JSON_BYTES)
  | Ok _, Some e => Err (Invalid (message e))
  | Ok w, None => parse (written w)
  end.
End admission.

(** ** Induction on values *)

Section value_ind.
Variable P : value -> Prop.
Hypothesis HNull : P Null.
Hypothesis HBool : forall b, P (Bool b).
Hypothesis HNumber : forall l, P (Number l).
Hypothesis HStr : forall s, P (Str s).
Hypothesis HArray : forall vs, Forall P vs -> P (Array vs).
Hypothesis HObject : forall es, Forall (fun p => P p.2) es -> P (Object es).

Definition value_rect' : forall v, P v :=
  fix go v :=
    match v with
    | Null => HNull
    | Bool b => HBool b
    | Number l => HNumber l
    | Str s => HStr s
    | Array vs =>
        HArray vs ((fix all (vs : list value) : Forall P vs :=
                      match vs with
                      | [] => @List.Forall_nil _ _
                      | v :: vs => @List.Forall_cons _ _ v vs (go v) (all vs)
                      end) vs)
    | Object es =>
        HObject es ((fix all (es : list (string * value)) : Forall (fun p => P p.2) es :=
                       match es with
                       | [] => @List.Forall_nil _ _
                       | p :: es => @List.Forall_cons _ _ p es (go p.2) (all es)
                       end) es)
    end.
End value_ind.

(** ** The structural bounds are exact *)

Lemma node_count_children v : node_count v = S (list_sum (map node_count (children v))).
Proof. destruct v; cbn; [done..|]. by rewrite map_map. Qed.

Lemma depth_children v : depth v = 1 + foldr N.max 0 (map depth (children v)).
Proof. destruct v; cbn; [done..|]. by rewrite map_map. Qed.

Lemma depth_pos v : 1 <= depth v.
Proof. rewrite depth_children. lia. Qed.

Definition stack_nodes (stack : list (value * N)) : nat := list_sum (map (fun p => node_count p.1) stack).

Definition stack_fits (stack : list (value * N)) : Prop :=
  Forall (fun p => p.2 + depth p.1 - 1 <= MAX_JSON_DEPTH) stack.

Lemma list_sum_rev ns : list_sum (rev ns) = list_sum ns.
Proof. induction ns as [|n ns IH]; [done|]. cbn [rev]. rewrite list_sum_app, IH. cbn [list_sum foldr]. unfold list_sum. cbn. lia. Qed.

Lemma stack_nodes_push v d rest :
  stack_nodes (rev (map (fun c => (c, d)) (children v)) ++ rest) = (node_count v - 1 + stack_nodes rest)%nat.
Proof.
  unfold stack_nodes. rewrite map_app, list_sum_app, map_rev, list_sum_rev, map_map, node_count_children.
  cbn [fst]. change (fun x : value => node_count x) with node_count. lia.
Qed.

Lemma foldr_max_le (ns : list N) b : foldr N.max 0 ns <= b <-> Forall (fun n => n <= b) ns.
Proof.
  induction ns as [|n ns IH]; cbn; [split; [constructor|lia]|].
  rewrite List.Forall_cons_iff, <-IH. lia.
Qed.

Lemma stack_fits_push v d rest :
  d <= MAX_JSON_DEPTH ->
  stack_fits (rev (map (fun c => (c, saturating_add d 1)) (children v)) ++ rest)
  <-> d + depth v - 1 <= MAX_JSON_DEPTH /\ stack_fits rest.
Proof.
  intros Hd. unfold stack_fits. rewrite Forall_app, Forall_rev_iff.
  apply and_iff_compat_r. rewrite depth_children.
  replace (saturating_add d 1) with (d + 1) by (unfold saturating_add, u64_max, MAX_JSON_DEPTH in *; lia).
  transitivity (foldr N.max 0 (map depth (children v)) <= MAX_JSON_DEPTH - d).
  - rewrite foldr_max_le, !List.Forall_map. cbn. split; apply List.Forall_impl; intros c; pose proof (depth_pos c); lia.
  - lia.
Qed.

(** The work list of the code computes the two recursive measures. *)
Lemma shape_loop_spec fuel stack nodes :
  (stack_nodes stack <= fuel)%nat -> nodes <= MAX_JSON_NODES ->
  (shape_loop fuel stack nodes = Ok tt <->
    nodes + N.of_nat (stack_nodes stack) <= MAX_JSON_NODES /\ stack_fits stack) /\
  (forall e, shape_loop fuel stack nodes = Err e ->
    e = TooManyNodes (MAX_JSON_NODES + 1) MAX_JSON_NODES \/ exists d, e = TooDeep d MAX_JSON_DEPTH).
Proof.
  revert stack nodes. induction fuel as [|f IH]; intros [|[v d] rest] nodes Hf Hn.
  1, 3: cbn; split; [split; [intros _; split; [lia|constructor]|done]|done].
  { exfalso. unfold stack_nodes in Hf. cbn [map] in Hf. rewrite node_count_children in Hf. cbn in Hf. lia. }
  cbn [shape_loop]. assert (saturating_add nodes 1 = nodes + 1) as ->
    by (unfold saturating_add, u64_max, MAX_JSON_NODES in *; lia).
  assert (stack_nodes ((v, d) :: rest) = node_count v + stack_nodes rest)%nat as Hs by done.
  pose proof (node_count_children v) as Hv. rewrite Hs in *.
  destruct (N.ltb_spec MAX_JSON_NODES (nodes + 1)) as [Hlt|Hge].
  { split; [split; [done|lia]|]. intros e [= <-]. left. f_equal. lia. }
  destruct (N.ltb_spec MAX_JSON_DEPTH d) as [Hd|Hd].
  { split; [split; [done|]|]. 2:{ intros e [= <-]. eauto. }
    intros [_ Hfit]. apply List.Forall_inv in Hfit. cbn in Hfit. pose proof (depth_pos v). lia. }
  set (stack' := rev (map (fun c => (c, saturating_add d 1)) (children v)) ++ rest).
  assert (stack_nodes stack' = node_count v - 1 + stack_nodes rest)%nat as Hs' by apply stack_nodes_push.
  assert (stack_fits stack' <-> d + depth v - 1 <= MAX_JSON_DEPTH /\ stack_fits rest) as Hfits
    by by apply stack_fits_push.
  destruct (IH stack' (nodes + 1)) as [IH1 IH2]; [lia..|]. split; [|done].
  rewrite IH1, Hfits. unfold stack_fits. rewrite List.Forall_cons_iff. cbn. split; intros; split_and!; (tauto || lia).
Qed.

Lemma validate_json_shape_ok v :
  validate_json_shape v = Ok tt <-> N.of_nat (node_count v) <= MAX_JSON_NODES /\ depth v <= MAX_JSON_DEPTH.
Proof.
  unfold validate_json_shape. destruct (shape_loop_spec (node_count v) [(v, 1)] 0) as [-> _].
  - unfold stack_nodes. cbn. lia.
  - done.
  - unfold stack_nodes, stack_fits. cbn [map list_sum foldr fst]. rewrite Nat.add_0_r, N.add_0_l.
    rewrite List.Forall_cons_iff. cbn. pose proof (depth_pos v). split; intros [? Hd]; (split; [done|]).
    + destruct Hd. lia.
    + split; [lia|constructor].
Qed.

(** ** The duplicate-key visitor is exact *)

(** What the visitor must have seen: no failure anywhere, and pairwise distinct
    keys in every object, at every depth. *)
Inductive admissible : de_value -> Prop :=
| admissible_scalar : admissible DeScalar
| admissible_seq items : Forall admissible items -> admissible (DeSeq items None)
| admissible_map entries :
    NoDup entries.*1 -> Forall (fun p => admissible p.2) entries -> admissible (DeMap entries None).

Section de_value_ind.
Variable P : de_value -> Prop.
Hypothesis HFail : forall e, P (DeFail e).
Hypothesis HScalar : P DeScalar.
Hypothesis HSeq : forall items stop, Forall P items -> P (DeSeq items stop).
Hypothesis HMap : forall entries stop, Forall (fun p => P p.2) entries -> P (DeMap entries stop).

Definition de_value_rect' : forall d, P d :=
  fix go d :=
    match d with
    | DeFail e => HFail e
    | DeScalar => HScalar
    | DeSeq items stop =>
        HSeq items stop
          ((fix all (l : list de_value) : Forall P l :=
              match l with
              | [] => @List.Forall_nil _ _
              | d :: l => @List.Forall_cons _ _ d l (go d) (all l)
              end) items)
    | DeMap entries stop =>
        HMap entries stop
          ((fix all (l : list (string * de_value)) : Forall (fun p => P p.2) l :=
              match l with
              | [] => @List.Forall_nil _ _
              | p :: l => @List.Forall_cons _ _ p l (go p.2) (all l)
              end) entries)
    end.
End de_value_ind.

Lemma admissible_seq_inv items stop :
  admissible (DeSeq items stop) <-> stop = None /\ Forall admissible items.
Proof. split; [inversion 1; done|]. intros [-> ?]. by constructor. Qed.

Lemma admissible_map_inv entries stop :
  admissible (DeMap entries stop)
  <-> stop = None /\ NoDup entries.*1 /\ Forall (fun p => admissible p.2) entries.
Proof. split; [inversion 1; done|]. intros (-> & ? & ?). by constructor. Qed.

Section visit_spec.
Context `{SerdeJson}.

Fixpoint visit_seq (raw : bytes) (stop : option serde_error) (items : list de_value) : result serde_error unit :=
  match items with
  | [] => match stop with Some e => Err e | None => Ok tt end
  | item :: items => match visit raw item with Err e => Err e | Ok _ => visit_seq raw stop items end
  end.

Fixpoint visit_map (raw : bytes) (stop : option serde_error) (seen : list string)
    (entries : list (string * de_value)) : result serde_error unit :=
  match entries with
  | [] => match stop with Some e => Err e | None => Ok tt end
  | (key, item) :: entries =>
      if bool_decide (key ∈ seen) then Err (custom_error raw (duplicate_message key))
      else match visit raw item with Err e => Err e | Ok _ => visit_map raw stop (key :: seen) entries end
  end.

Lemma visit_DeSeq raw items stop : visit raw (DeSeq items stop) = visit_seq raw stop items.
Proof. cbn [visit]. induction items as [|i items IH]; cbn; [done|]. by rewrite IH. Qed.

Lemma visit_DeMap raw entries stop : visit raw (DeMap entries stop) = visit_map raw stop [] entries.
Proof.
  cbn [visit]. generalize (@nil string). induction entries as [|[k d] entries IH]; intros seen; cbn; [done|].
  by rewrite IH.
Qed.

Lemma visit_seq_ok raw stop items :
  Forall (fun d => visit raw d = Ok tt <-> admissible d) items ->
  visit_seq raw stop items = Ok tt <-> stop = None /\ Forall admissible items.
Proof.
  induction 1 as [|d items Hd _ IH]; cbn; [destruct stop; split; [done|by intros []|by split; [|constructor]|done]|].
  rewrite List.Forall_cons_iff, <-Hd. destruct (visit raw d) as [[]|e]; [rewrite IH; tauto|]. split; [done|]. by intros (_ & ? & _).
Qed.

Lemma visit_map_ok raw stop entries seen :
  Forall (fun p => visit raw p.2 = Ok tt <-> admissible p.2) entries ->
  visit_map raw stop seen entries = Ok tt
  <-> stop = None /\ (forall k, k ∈ entries.*1 -> k ∉ seen) /\ NoDup entries.*1
      /\ Forall (fun p => admissible p.2) entries.
Proof.
  intros Hall. revert seen. induction Hall as [|[k d] entries Hd _ IH]; intros seen; cbn.
  - destruct stop; split; try done; [by intros []|]. intros _. split_and!; [done|set_solver|constructor|constructor].
  - rewrite List.Forall_cons_iff, list.NoDup_cons, <-Hd. cbn.
    destruct (bool_decide_reflect (k ∈ seen)) as [Hin|Hout].
    { split; [done|]. intros (_ & Hk & _). exfalso. apply (Hk k); [set_solver|done]. }
    destruct (visit raw d) as [[]|e]; [|split; [done|]; by intros (_ & _ & _ & ? & _)].
    rewrite IH. split.
    + intros (-> & Hk & ? & ?). split_and!; try done.
      * intros k' Hk'. apply elem_of_cons in Hk' as [->|Hk']; [done|]. specialize (Hk _ Hk'). set_solver.
      * intros Hin. apply (Hk k); set_solver.
    + intros (-> & Hk & [? ?] & _ & ?). split_and!; try done. intros k' Hk'. rewrite not_elem_of_cons.
      split; [by intros ->|]. apply Hk. set_solver.
Qed.

Lemma visit_ok raw d : visit raw d = Ok tt <-> admissible d.
Proof.
  induction d as [e| |items stop IH|entries stop IH] using de_value_rect'.
  - cbn. split; [done|inversion 1].
  - split; [constructor|done].
  - by rewrite visit_DeSeq, visit_seq_ok, admissible_seq_inv.
  - rewrite visit_DeMap, visit_map_ok, admissible_map_inv; [|done]. set_solver.
Qed.

(** The first repeated key of an object, in input order, is the one reported. *)
Lemma visit_duplicate raw stop seen before key d after :
  Forall (fun p => visit raw p.2 = Ok tt) before -> NoDup before.*1 ->
  (forall k, k ∈ before.*1 -> k ∉ seen) -> key ∈ seen ++ before.*1 ->
  visit_map raw stop seen (before ++ (key, d) :: after) = Err (custom_error raw (duplicate_message key)).
Proof.
  intros Hall. revert seen. induction Hall as [|[k x] before Hx _ IH]; intros seen Hnd Hdis Hin; cbn.
  - rewrite bool_decide_eq_true_2; [done|]. cbn in Hin. by rewrite app_nil_r in Hin.
  - cbn in *. rewrite bool_decide_eq_false_2 by (apply Hdis; set_solver).
    rewrite Hx. apply list.NoDup_cons in Hnd as [Hk Hnd]. apply IH; [done| |set_solver].
    intros k' Hk'. rewrite not_elem_of_cons. split; [by intros ->|]. apply Hdis. set_solver.
Qed.
End visit_spec.

(** ** JSON equality *)

(** Equality of JSON values: objects up to the order of their entries, numbers by
    the rational they denote. *)
Inductive json_eq : value -> value -> Prop :=
| json_eq_null : json_eq Null Null
| json_eq_bool b : json_eq (Bool b) (Bool b)
| json_eq_number l1 l2 v1 v2 :
    number_value (String.list_ascii_of_string l1) = Some v1 ->
    number_value (String.list_ascii_of_string l2) = Some v2 ->
    same_rational v1 v2 -> json_eq (Number l1) (Number l2)
| json_eq_str s : json_eq (Str s) (Str s)
| json_eq_array vs1 vs2 : Forall2 json_eq vs1 vs2 -> json_eq (Array vs1) (Array vs2)
| json_eq_object es1 es2 fs1 fs2 :
    es1 ≡ₚ fs1 -> es2 ≡ₚ fs2 ->
    Forall2 (fun p q => p.1 = q.1 /\ json_eq p.2 q.2) fs1 fs2 ->
    json_eq (Object es1) (Object es2).

(** What [serde_json] guarantees of a [Value] it parsed: numbers are decimal
    lexemes, objects have one entry per key. *)
Inductive well_formed : value -> Prop :=
| wf_null : well_formed Null
| wf_bool b : well_formed (Bool b)
| wf_number l :
    lexeme_fits (String.list_ascii_of_string l) ->
    is_Some (number_value (String.list_ascii_of_string l)) -> well_formed (Number l)
| wf_str s : well_formed (Str s)
| wf_array vs : Forall well_formed vs -> well_formed (Array vs)
| wf_object es : NoDup es.*1 -> Forall (fun p => well_formed p.2) es -> well_formed (Object es).

Lemma wf_object_inv es : well_formed (Object es) -> NoDup es.*1 /\ Forall (fun p => well_formed p.2) es.
Proof. by inversion 1. Qed.

Lemma wf_array_inv vs : well_formed (Array vs) -> Forall well_formed vs.
Proof. by inversion 1. Qed.

Lemma Forall2_json_eq (P : value -> value -> Prop) vs1 vs2 :
  Forall (fun v => forall w, json_eq v w -> P v w) vs1 -> Forall2 json_eq vs1 vs2 -> Forall2 P vs1 vs2.
Proof.
  intros Hall H2. revert Hall. induction H2 as [|v w vs ws Hv _ IH]; intros Hall; constructor.
  - apply List.Forall_inv in Hall. by apply Hall.
  - apply IH. by apply List.Forall_inv_tail in Hall.
Qed.

(** *** Sorting entries by key *)

Lemma sort_entries_perm {A} (es : list (string * A)) : sort_entries es ≡ₚ es.
Proof. apply merge_sort_Permutation. Qed.

#[export] Instance key_le_trans {A} : Transitive (@key_le string String.le A).
Proof. intros x y z. unfold key_le. intros. by etrans. Qed.

#[export] Instance key_le_total {A} : Total (@key_le string String.le A).
Proof. intros x y. unfold key_le. apply total. apply _. Qed.

(** With pairwise distinct keys the sorted list does not depend on the order. *)
Lemma sort_entries_unique {A} (es1 es2 : list (string * A)) :
  NoDup es1.*1 -> es1 ≡ₚ es2 -> sort_entries es1 = sort_entries es2.
Proof.
  intros Hnd Hp. apply (StronglySorted_unique_strong (key_le String.le)).
  - intros [k1 a1] [k2 a2] H1 H2 L1 L2. unfold key_le in *. cbn in *.
    assert (k1 = k2) as -> by by apply (anti_symm String.le).
    rewrite sort_entries_perm in H1, H2. rewrite <-Hp in H2. f_equal.
    exact (NoDup_fst_inj es1 k2 a1 a2 Hnd H1 H2).
  - apply StronglySorted_merge_sort; apply _.
  - apply StronglySorted_merge_sort; apply _.
  - by rewrite !sort_entries_perm.
Qed.

(** *** Equal values have one canonical text *)

Section canonical.
Context `{SerdeJson}.

Definition written_entries (es : list (string * value)) : list (string * result CanonicalJsonError bytes) :=
  map (fun p => (p.1, write_canonical p.2)) es.

Lemma written_entries_keys es : (written_entries es).*1 = es.*1.
Proof. unfold written_entries. induction es as [|p es IH]; cbn; [done|]. by rewrite IH. Qed.

Lemma write_number_same l1 l2 v1 v2 :
  well_formed (Number l1) -> well_formed (Number l2) ->
  number_value (String.list_ascii_of_string l1) = Some v1 ->
  number_value (String.list_ascii_of_string l2) = Some v2 ->
  same_rational v1 v2 -> write_number l1 = write_number l2.
Proof.
  intros W1 W2 E1 E2 Q. inversion_clear W1. inversion_clear W2.
  unfold write_number. by rewrite (canonical_number_same (String.list_ascii_of_string l1) (String.list_ascii_of_string l2) v1 v2).
Qed.

Lemma map_write_eq vs1 vs2 :
  Forall2 (fun v w => well_formed v -> well_formed w -> write_canonical v = write_canonical w) vs1 vs2 ->
  Forall well_formed vs1 -> Forall well_formed vs2 ->
  map write_canonical vs1 = map write_canonical vs2.
Proof.
  induction 1 as [|v w vs1 vs2 E _ IH]; [done|]. rewrite !List.Forall_cons_iff. intros [W1 Ws1] [W2 Ws2].
  cbn [map]. f_equal; [by apply E|by apply IH].
Qed.

Lemma written_entries_eq fs1 fs2 :
  Forall2 (fun p q => p.1 = q.1 /\ json_eq p.2 q.2) fs1 fs2 ->
  Forall (fun p => forall w, json_eq p.2 w -> well_formed p.2 -> well_formed w ->
                             write_canonical p.2 = write_canonical w) fs1 ->
  Forall (fun p => well_formed p.2) fs1 -> Forall (fun p => well_formed p.2) fs2 ->
  written_entries fs1 = written_entries fs2.
Proof.
  induction 1 as [|[k1 v1] [k2 v2] fs1 fs2 [Ek E] _ IH]; [done|].
  rewrite !List.Forall_cons_iff. cbn. intros [P1 Ps] [W1 Ws1] [W2 Ws2]. cbn in Ek. subst k2.
  f_equal; [f_equal; by apply P1|by apply IH].
Qed.

Lemma write_canonical_Object es :
  write_canonical (Object es)
  = (body ← join_written (map write_entry (sort_entries (written_entries es)));
     Ok (as_bytes "{" ++ body ++ as_bytes "}")).
Proof. done. Qed.

Lemma write_canonical_eq v1 v2 :
  json_eq v1 v2 -> well_formed v1 -> well_formed v2 -> write_canonical v1 = write_canonical v2.
Proof.
  revert v2. induction v1 as [|b|l|s|vs IH|es IH] using value_rect'; intros v2 E; inversion E; subst; clear E.
  1, 2, 4: done.
  - intros. cbn. by eapply write_number_same.
  - intros W1%wf_array_inv W2%wf_array_inv. cbn [write_canonical].
    rewrite (map_write_eq vs vs2); [done| |done|done]. by apply Forall2_json_eq.
  - intros [N1 W1]%wf_object_inv [N2 W2]%wf_object_inv. rewrite !write_canonical_Object.
    match goal with H1 : es ≡ₚ ?f1, H2 : es2 ≡ₚ ?f2, H3 : Forall2 _ ?f1 ?f2 |- _ =>
      rename H1 into P1, H2 into P2, H3 into F12 end.
    assert (written_entries es ≡ₚ written_entries es2) as Hp.
    { unfold written_entries. rewrite P1, P2.
      fold (written_entries fs1). fold (written_entries fs2).
      rewrite P1 in IH, W1. rewrite P2 in W2. by rewrite (written_entries_eq fs1 fs2). }
    rewrite (sort_entries_unique (written_entries es) (written_entries es2)); [done| |done].
    by rewrite written_entries_keys.
Qed.
End canonical.

(** *** Canonical texts are self-delimiting *)

Definition number_char (c : ascii) : bool :=
  is_ascii_digit c || char_in ["-"; "+"; "."; "e"; "E"]%char c.

Lemma digits_number_chars ds : is_digits ds -> Forall (fun c => number_char c = true) ds.
Proof. intros H. eapply List.Forall_impl; [|exact H]. intros c Hc. unfold number_char. cbn in *. by rewrite Hc. Qed.

Lemma exponent_number_chars raw r :
  parse_decimal_exponent (Some raw) = Ok r -> Forall (fun c => number_char c = true) raw.
Proof.
  intros E. cbn [parse_decimal_exponent] in E.
  assert (exists sign digits, raw = sign ++ digits /\ Forall (fun c => number_char c = true) sign
            /\ forallb is_ascii_digit digits = true) as (sign & digits & -> & Hs & Hd%forallb_is_digits).
  { destruct raw as [|[[] [] [] [] [] [] [] []] raw]; cbn zeta in E;
      lazymatch type of E with
      | (if bool_decide (raw = []) || _ then _ else _) = _ => eexists [_], raw
      | (if bool_decide (?l = []) || _ then _ else _) = _ => exists [], l
      end;
      split_ok; reflect_guards; (split; [reflexivity|split; [by repeat constructor|assumption]]). }
  apply Forall_app. split; [done|]. by apply digits_number_chars.
Qed.

Lemma split_at_inv p (ds a : text) o :
  split_at p ds = (a, o) ->
  match o with None => ds = a | Some b => exists c, p c = true /\ ds = a ++ c :: b end.
Proof.
  revert a. induction ds as [|d ds IH]; intros a; cbn; [by intros [= <- <-]|].
  destruct (p d) eqn:Ep; [intros [= <- <-]; by exists d|].
  destruct (split_at p ds) as [a' o']. intros [= <- <-]. specialize (IH a' eq_refl).
  destruct o'; [|by subst]. destruct IH as (c & ? & ->). by exists c.
Qed.

Lemma split_sign_inv raw neg rest :
  split_sign raw = (neg, rest) -> raw = (if neg then ["-"%char] else []) ++ rest.
Proof. destruct raw as [|[[] [] [] [] [] [] [] []] raw]; cbn; intros [= <- <-]; reflexivity. Qed.

(** A decimal lexeme starts with a digit or a minus sign and consists of the
    characters of the JSON number grammar. *)
Lemma number_value_chars t v :
  number_value t = Some v ->
  Forall (fun c => number_char c = true) t
  /\ exists c rest, t = c :: rest /\ (is_ascii_digit c = true \/ c = "-"%char).
Proof.
  unfold number_value. destruct (split_sign t) as [neg unsigned] eqn:E1.
  destruct (split_at is_exponent_mark unsigned) as [mantissa exponent] eqn:E2.
  destruct (split_at is_point mantissa) as [integer fo] eqn:E3.
  destruct (bool_decide (integer = []) || negb (forallb is_ascii_digit integer)
            || negb (forallb is_ascii_digit (default [] fo))) eqn:Eg; [done|].
  destruct (parse_decimal_exponent exponent) as [r|] eqn:E4; [intros _|done]. reflect_guards.
  apply split_sign_inv in E1. apply split_at_inv in E2, E3. apply forallb_is_digits in H0, H1.
  assert (Forall (fun c => number_char c = true) mantissa) as Hm.
  { destruct fo as [f|]; [|subst; by apply digits_number_chars]. destruct E3 as (c & Hc & ->).
    apply Ascii.eqb_eq in Hc as ->. apply Forall_app. split; [by apply digits_number_chars|].
    constructor; [done|]. by apply digits_number_chars. }
  assert (Forall (fun c => number_char c = true) unsigned) as Hu.
  { destruct exponent as [x|]; [|by subst]. destruct E2 as (c & Hc & ->). apply Forall_app. split; [done|].
    constructor; [|by eapply exponent_number_chars].
    unfold is_exponent_mark in Hc. apply orb_true_iff in Hc as [->%Ascii.eqb_eq| ->%Ascii.eqb_eq]; done. }
  destruct integer as [|c integer]; [done|]. apply is_digits_cons in H1 as [Hc _].
  assert (exists rest, unsigned = c :: rest) as [rest ->].
  { destruct fo, exponent; naive_solver. }
  subst t. split.
  - apply Forall_app. split; [by destruct neg; repeat constructor|done].
  - destruct neg; cbn; eauto.
Qed.

(** What the development relies on for [serde_json::to_writer] of a string: the
    text is a quoted JSON string, hence self-delimiting. *)
Class SerdeJsonLaws `{SerdeJson} : Prop := {
  write_string_quoted s b : write_string s = Ok b -> exists rest, b = QUOTE :: rest;
  write_string_delimited s1 s2 b1 b2 r1 r2 :
    write_string s1 = Ok b1 -> write_string s2 = Ok b2 -> b1 ++ r1 = b2 ++ r2 -> s1 = s2;
}.

Definition number_byte (b : byte) : bool := number_char (Ascii.ascii_of_byte b).

(** What can follow a value: nothing, or a byte that does not continue a number. *)
Definition delimited (r : bytes) : Prop :=
  match r with [] => True | b :: _ => number_byte b = false end.

Definition text_bytes (t : text) : bytes := map Ascii.byte_of_ascii t.

Lemma text_bytes_eq t : as_bytes (String.string_of_list_ascii t) = text_bytes t.
Proof.
  unfold as_bytes, String.list_byte_of_string. by rewrite String.list_ascii_of_string_of_list_ascii.
Qed.

Lemma text_bytes_inj t1 t2 : text_bytes t1 = text_bytes t2 -> t1 = t2.
Proof.
  intros E. apply (f_equal (map Ascii.ascii_of_byte)) in E. unfold text_bytes in E. rewrite !map_map in E.
  by rewrite !(map_ext _ id (fun c => Ascii.ascii_of_byte_of_ascii c)), !map_id in E.
Qed.

Lemma number_bytes t :
  Forall (fun c => number_char c = true) t -> Forall (fun b => number_byte b = true) (text_bytes t).
Proof.
  intros H. apply List.Forall_map. eapply List.Forall_impl; [|exact H]. intros c Hc.
  unfold number_byte. by rewrite Ascii.ascii_of_byte_of_ascii.
Qed.

(** The longest prefix of number bytes is determined. *)
Lemma number_span b1 b2 r1 r2 :
  Forall (fun b => number_byte b = true) b1 -> Forall (fun b => number_byte b = true) b2 ->
  delimited r1 -> delimited r2 -> b1 ++ r1 = b2 ++ r2 -> b1 = b2 /\ r1 = r2.
Proof.
  intros H1. revert b2. induction H1 as [|c b1 Hc _ IH]; intros b2 H2 D1 D2 E; destruct H2 as [|d b2 Hd H2].
  - done.
  - cbn in E. subst r1. cbn in D1. congruence.
  - cbn in E. subst r2. cbn in D2. congruence.
  - cbn in E. injection E as <- E. by destruct (IH b2 H2 D1 D2 E) as [-> ->].
Qed.

(** The first byte of a canonical text tells the kind of the value. *)
Inductive kind : Set := KNull | KTrue | KFalse | KNumber | KString | KArray | KObject | KOther.

Definition byte_kind (b : byte) : kind :=
  match b with
  | x6e => KNull | x74 => KTrue | x66 => KFalse | x22 => KString | x5b => KArray | x7b => KObject
  | _ => if number_byte b then KNumber else KOther
  end.

Definition value_kind (v : value) : kind :=
  match v with
  | Null => KNull | Bool true => KTrue | Bool false => KFalse | Number _ => KNumber
  | Str _ => KString | Array _ => KArray | Object _ => KObject
  end.

Definition starts_with_kind (k : kind) (b : bytes) : Prop := exists c rest, b = c :: rest /\ byte_kind c = k.

Lemma starts_with_kind_app k1 k2 b1 b2 r1 r2 :
  starts_with_kind k1 b1 -> starts_with_kind k2 b2 -> b1 ++ r1 = b2 ++ r2 -> k1 = k2.
Proof. intros (c1 & t1 & -> & <-) (c2 & t2 & -> & <-) E. injection E as -> _. done. Qed.

Lemma number_first_byte (c : ascii) :
  is_ascii_digit c = true \/ c = "-"%char -> byte_kind (Ascii.byte_of_ascii c) = KNumber.
Proof.
  intros [H| ->]; [|done]. rewrite <-(digit_char_value c H). pose proof (digit_value_lt c H) as Hlt. revert Hlt.
  generalize (digit_value c). by apply digit_cases.
Qed.

Section canonical_unique.
Context `{SerdeJson, !SerdeJsonLaws}.

Lemma write_number_inv l b :
  well_formed (Number l) -> write_number l = Ok b ->
  exists t w v, b = text_bytes t /\ canonical_number (String.list_ascii_of_string l) = Ok t
    /\ number_value t = Some w /\ number_value (String.list_ascii_of_string l) = Some v /\ same_rational w v.
Proof.
  inversion_clear 1 as [| |? F [v V]| | |]. unfold write_number.
  destruct (canonical_number_denotes _ v F V) as (t & w & -> & W & Q). cbn. intros [= <-].
  rewrite text_bytes_eq. by exists t, w, v.
Qed.

Lemma write_kind v b : well_formed v -> write_canonical v = Ok b -> starts_with_kind (value_kind v) b.
Proof.
  destruct v as [|[]|l|s|vs|es]; cbn [write_canonical value_kind]; intros W.
  1-3: intros [= <-]; by eexists _, _.
  - intros (t & w & v & -> & _ & Ht & _)%write_number_inv; [|done].
    destruct (number_value_chars t w Ht) as (_ & c & rest & -> & Hc).
    exists (Ascii.byte_of_ascii c), (text_bytes rest). split; [done|]. by apply number_first_byte.
  - intros Hw. unfold write_text in Hw. rewrite map_err_ok in Hw. apply write_string_quoted in Hw as [rest ->].
    by exists QUOTE, rest.
  - intros (body & _ & [= <-])%bind_ok. by eexists _, _.
  - intros (body & _ & [= <-])%bind_ok. by eexists _, _.
Qed.
End canonical_unique.

Section join_unique.
Context {A : Type} (w : A -> result CanonicalJsonError bytes) (R : A -> A -> Prop).

(** Texts of [x] and [y] that start equal buffers are texts of related values. *)
Definition splits (x y : A) : Prop :=
  forall b1 b2 r1 r2, w x = Ok b1 -> w y = Ok b2 -> delimited r1 -> delimited r2 ->
    b1 ++ r1 = b2 ++ r2 -> R x y /\ r1 = r2.

Definition not_starting (stop : byte) (x : A) : Prop :=
  forall b, w x = Ok b -> exists c rest, b = c :: rest /\ c <> stop.

Lemma join_written_cons x xs b :
  join_written (map w (x :: xs)) = Ok b ->
  exists b1 rest, w x = Ok b1 /\ b = b1 ++ rest /\
    (xs = [] /\ rest = [] \/
     exists y ys b', xs = y :: ys /\ rest = as_bytes "," ++ b' /\ join_written (map w xs) = Ok b').
Proof.
  destruct xs as [|y ys].
  - cbn. intros E. exists b, []. rewrite app_nil_r. auto.
  - change (join_written (map w (x :: y :: ys)))
      with (item ← w x; rest ← join_written (map w (y :: ys)); Ok (item ++ as_bytes "," ++ rest) : result CanonicalJsonError bytes).
    intros (b1 & E1 & (b' & E2 & [= <-])%bind_ok)%bind_ok.
    exists b1, (as_bytes "," ++ b'). split_and!; [done..|]. right. by exists y, ys, b'.
Qed.

Lemma join_unique stop xs ys b1 b2 r1 r2 :
  number_byte stop = false -> stop <> x2c ->
  Forall (fun x => Forall (splits x) ys) xs ->
  Forall (not_starting stop) xs -> Forall (not_starting stop) ys ->
  join_written (map w xs) = Ok b1 -> join_written (map w ys) = Ok b2 ->
  b1 ++ stop :: r1 = b2 ++ stop :: r2 -> Forall2 R xs ys /\ r1 = r2.
Proof.
  intros Hstop Hcomma. revert ys b1 b2. induction xs as [|x xs IH]; intros [|y ys] b1 b2 Hs Hx Hy J1 J2 E.
  - cbn in J1, J2. injection J1 as <-. injection J2 as <-. by injection E as ->.
  - exfalso. cbn in J1. injection J1 as <-. apply join_written_cons in J2 as (c2 & s2 & W2 & -> & _).
    apply List.Forall_inv in Hy. destruct (Hy _ W2) as (c & rest & -> & Hc). cbn in E. by injection E as <- _.
  - exfalso. cbn in J2. injection J2 as <-. apply join_written_cons in J1 as (c1 & s1 & W1 & -> & _).
    apply List.Forall_inv in Hx. destruct (Hx _ W1) as (c & rest & -> & Hc). cbn in E. by injection E as -> _.
  - apply join_written_cons in J1 as (c1 & s1 & W1 & -> & T1), J2 as (c2 & s2 & W2 & -> & T2).
    rewrite List.Forall_cons_iff in Hs, Hx, Hy. destruct Hs as [Hxy Hs], Hx as [_ Hx], Hy as [_ Hy].
    apply List.Forall_inv in Hxy. rewrite <-!app_assoc in E.
    destruct (Hxy c1 c2 (s1 ++ stop :: r1) (s2 ++ stop :: r2) W1 W2) as [HR Er]; [..|exact E|].
    1,2: by destruct T1 as [[-> ->]|(? & ? & ? & -> & -> & _)], T2 as [[-> ->]|(? & ? & ? & -> & -> & _)].
    destruct T1 as [[-> ->]|(x' & xs' & b1' & -> & -> & J1)], T2 as [[-> ->]|(y' & ys' & b2' & -> & -> & J2)].
    + cbn in Er. injection Er as ->. split; [by constructor; [|constructor]|done].
    + cbn in Er. injection Er as E1 _. by destruct Hcomma.
    + cbn in Er. injection Er as E1 _. by destruct Hcomma.
    + rewrite <-!app_assoc in Er. cbn in Er. injection Er as Er.
      destruct (IH (y' :: ys') b1' b2') as [HR' ->]; [|done..|].
      * eapply List.Forall_impl; [|exact Hs]. intros z Hz. by apply List.Forall_inv_tail in Hz.
      * split; [by constructor|done].
Qed.
End join_unique.

Section canonical_unique_2.
Context `{SerdeJson, !SerdeJsonLaws}.

Definition value_splits (v1 v2 : value) : Prop := splits write_canonical json_eq v1 v2.

Lemma not_starting_value stop v :
  byte_kind stop = KOther -> well_formed v -> not_starting write_canonical stop v.
Proof.
  intros Hk W b E. destruct (write_kind v b W E) as (c & rest & -> & Hc). exists c, rest. split; [done|].
  intros ->. rewrite Hk in Hc. by destruct v as [|[]| | | |].
Qed.

Definition write_pair (p : string * value) : result CanonicalJsonError bytes :=
  write_entry (p.1, write_canonical p.2).

Lemma write_text_inv s1 s2 b1 b2 r1 r2 :
  write_text s1 = Ok b1 -> write_text s2 = Ok b2 -> b1 ++ r1 = b2 ++ r2 -> s1 = s2 /\ r1 = r2.
Proof.
  unfold write_text. rewrite !map_err_ok. intros W1 W2 E.
  assert (s1 = s2) as -> by by eapply write_string_delimited. split; [done|].
  assert (b1 = b2) as -> by congruence. by apply app_inv_head in E.
Qed.

Lemma pair_splits p q :
  value_splits p.2 q.2 -> splits write_pair (fun p q => p.1 = q.1 /\ json_eq p.2 q.2) p q.
Proof.
  intros Hv b1 b2 r1 r2. unfold write_pair, write_entry. cbn [fst snd].
  intros (k1 & K1 & (i1 & I1 & [= <-])%bind_ok)%bind_ok (k2 & K2 & (i2 & I2 & [= <-])%bind_ok)%bind_ok D1 D2 E.
  rewrite <-!app_assoc in E. destruct (write_text_inv _ _ _ _ _ _ K1 K2 E) as [-> E'].
  cbn in E'. injection E' as E'. by destruct (Hv i1 i2 r1 r2 I1 I2 D1 D2 E') as [? ->].
Qed.

Lemma not_starting_pair p : not_starting write_pair x7d p.
Proof.
  intros b (k & K & (i & _ & [= <-])%bind_ok)%bind_ok. unfold write_text in K. cbn [fst] in K.
  rewrite map_err_ok in K. apply write_string_quoted in K as [rest ->]. by eexists QUOTE, _.
Qed.

(** The sorted entries are a permutation of the entries themselves. *)
Lemma sorted_entries_pairs es :
  exists fs, fs ≡ₚ es /\ map write_entry (sort_entries (written_entries es)) = map write_pair fs.
Proof.
  destruct (Permutation_map_inv (fun p => (p.1, write_canonical p.2)) es (l1 := sort_entries (written_entries es)))
    as (fs & E & P).
  { apply sort_entries_perm. }
  exists fs. split; [by symmetry|]. rewrite E, map_map. done.
Qed.
End canonical_unique_2.

Section canonical_unique_3.
Context `{SerdeJson, !SerdeJsonLaws}.

Lemma array_splits vs1 v2 :
  Forall (fun v1 => well_formed v1 -> forall v2, well_formed v2 -> value_splits v1 v2) vs1 ->
  well_formed (Array vs1) -> well_formed v2 -> value_splits (Array vs1) v2.
Proof.
  intros IH W1 W2 b1 b2 r1 r2 E1 E2 D1 D2 E.
  pose proof (starts_with_kind_app _ _ _ _ _ _ (write_kind _ _ W1 E1) (write_kind _ _ W2 E2) E) as Hk.
  destruct v2 as [|[]|l|s|vs2|es]; try discriminate Hk. apply wf_array_inv in W1, W2.
  cbn [write_canonical] in E1, E2. apply bind_ok in E1 as (c1 & J1 & [= <-]), E2 as (c2 & J2 & [= <-]).
  cbn in E. injection E as E. rewrite <-!app_assoc in E. cbn in E.
  destruct (join_unique write_canonical json_eq x5d vs1 vs2 c1 c2 r1 r2) as [HR ->]; try done.
  - rewrite List.Forall_forall in IH, W1, W2 |- *. intros v1 H1. apply List.Forall_forall.
    intros v2 H2. apply IH; auto.
  - eapply List.Forall_impl; [|exact W1]. intros v. by apply not_starting_value.
  - eapply List.Forall_impl; [|exact W2]. intros v. by apply not_starting_value.
  - split; [by constructor|done].
Qed.

Lemma object_splits es1 v2 :
  Forall (fun p => well_formed p.2 -> forall v2, well_formed v2 -> value_splits p.2 v2) es1 ->
  well_formed (Object es1) -> well_formed v2 -> value_splits (Object es1) v2.
Proof.
  intros IH W1 W2 b1 b2 r1 r2 E1 E2 D1 D2 E.
  pose proof (starts_with_kind_app _ _ _ _ _ _ (write_kind _ _ W1 E1) (write_kind _ _ W2 E2) E) as Hk.
  destruct v2 as [|[]|l|s|vs2|es2]; try discriminate Hk.
  apply wf_object_inv in W1 as [_ W1], W2 as [_ W2]. rewrite write_canonical_Object in E1, E2.
  apply bind_ok in E1 as (c1 & J1 & [= <-]), E2 as (c2 & J2 & [= <-]).
  destruct (sorted_entries_pairs es1) as (fs1 & P1 & F1), (sorted_entries_pairs es2) as (fs2 & P2 & F2).
  rewrite F1 in J1. rewrite F2 in J2. cbn in E. injection E as E. rewrite <-!app_assoc in E. cbn in E.
  rewrite <-P1 in IH, W1. rewrite <-P2 in W2.
  destruct (join_unique write_pair (fun p q => p.1 = q.1 /\ json_eq p.2 q.2) x7d fs1 fs2 c1 c2 r1 r2)
    as [HR ->]; try done.
  - rewrite List.Forall_forall in IH, W1, W2 |- *. intros p Hp. apply List.Forall_forall.
    intros q Hq. apply pair_splits, IH; auto.
  - apply List.Forall_forall. intros. apply not_starting_pair.
  - apply List.Forall_forall. intros. apply not_starting_pair.
  - split; [|done]. by eapply json_eq_object.
Qed.

Lemma write_canonical_splits v1 :
  well_formed v1 -> forall v2, well_formed v2 -> value_splits v1 v2.
Proof.
  induction v1 as [|b|l|s|vs IH|es IH] using value_rect'.
  5: intros; by apply array_splits.
  5: intros; by apply object_splits.
  all: intros W1 v2 W2 b1 b2 r1 r2 E1 E2 D1 D2 E;
    pose proof (starts_with_kind_app _ _ _ _ _ _ (write_kind _ _ W1 E1) (write_kind _ _ W2 E2) E) as Hk;
    try destruct b; destruct v2 as [|[]|l2|s2|vs2|es2]; try discriminate Hk;
    cbn [write_canonical] in E1, E2.
  - injection E1 as <-. injection E2 as <-. apply app_inv_head in E as ->. split; [constructor|done].
  - injection E1 as <-. injection E2 as <-. apply app_inv_head in E as ->. split; [constructor|done].
  - injection E1 as <-. injection E2 as <-. apply app_inv_head in E as ->. split; [constructor|done].
  - apply write_number_inv in E1 as (t1 & w1 & x1 & -> & C1 & N1 & X1 & Q1), E2 as (t2 & w2 & x2 & -> & C2 & N2 & X2 & Q2); [|done..].
    destruct (number_value_chars _ _ N1) as [H1 _], (number_value_chars _ _ N2) as [H2 _].
    apply number_bytes in H1, H2. destruct (number_span _ _ _ _ H1 H2 D1 D2 E) as [Et ->].
    apply text_bytes_inj in Et as ->. split; [|done]. assert (w1 = w2) as -> by congruence.
    eapply json_eq_number; [done..|]. by rewrite <-Q1, <-Q2.
  - destruct (write_text_inv _ _ _ _ _ _ E1 E2 E) as [-> ->]. split; [constructor|done].
Qed.
End canonical_unique_3.

(** C11. Canonical texts are a normal form of JSON values: two values that can be
    written have the same canonical bytes exactly when they are equal as JSON, that
    is up to the order of object entries and the spelling of numbers. *)
Theorem write_canonical_complete `{SerdeJson, !SerdeJsonLaws} v1 v2 b1 b2 :
  well_formed v1 -> well_formed v2 ->
  write_canonical v1 = Ok b1 -> write_canonical v2 = Ok b2 ->
  b1 = b2 <-> json_eq v1 v2.
Proof.
  intros W1 W2 E1 E2. split.
  - intros ->. by destruct (write_canonical_splits v1 W1 v2 W2 b2 b2 [] [] E1 E2).
  - intros Q. pose proof (write_canonical_eq v1 v2 Q W1 W2). congruence.
Qed.

(** [validate_json_shape] accepts exactly the trees within both structural
    bounds, and its work list never fails for another reason. *)
Theorem validate_json_shape_exact v :
  (validate_json_shape v = Ok tt <-> N.of_nat (node_count v) <= MAX_JSON_NODES /\ depth v <= MAX_JSON_DEPTH)
  /\ (forall e, validate_json_shape v = Err e ->
        e = TooManyNodes (MAX_JSON_NODES + 1) MAX_JSON_NODES \/ exists d, e = TooDeep d MAX_JSON_DEPTH).
Proof.
  split; [apply validate_json_shape_ok|]. apply shape_loop_spec; [|done]. unfold stack_nodes. cbn. lia.
Qed.

(** [CanonicalJson::parse] admits exactly the inputs within the size bound,
    without reserved keys, whose objects have distinct keys at every depth, whose
    value is within the structural bounds and whose canonical text is within the
    size bound, and it returns that text. *)
Theorem parse_exact `{SerdeJson} raw c :
  parse raw = Ok c <->
  blen raw <= MAX_JSON_BYTES /\ reject_reserved_number_keys raw = Ok tt /\
  admissible (deserialize_any raw) /\ deserializer_end raw = Ok tt /\
  exists v, value_from_slice raw = Ok v /\
    N.of_nat (node_count v) <= MAX_JSON_NODES /\ depth v <= MAX_JSON_DEPTH /\
    write_canonical v = Ok (canonical_bytes c) /\ blen (canonical_bytes c) <= MAX_JSON_BYTES.
Proof.
  unfold parse. split.
  - intros E. split_ok. reflect_guards. repeat match goal with u : unit |- _ => destruct u end.
    subst c. cbn [canonical_bytes]. split_and!; [done|done|by eapply visit_ok|done|].
    match goal with H : validate_json_shape ?v = _ |- _ => exists v; apply validate_json_shape_ok in H as [? ?] end.
    subst. done.
  - intros (L1%N.ltb_ge & -> & A & -> & v & -> & Hn & Hd & W & L2%N.ltb_ge).
    apply (visit_ok raw) in A. assert (validate_json_shape v = Ok tt) as S by by apply validate_json_shape_ok.
    rewrite L1, A. cbn. rewrite S. cbn. rewrite W. cbn. rewrite L2. by destruct c.
Qed.

(** ** Witnesses *)

(** A concrete [SerdeJson] on a few documents, with strings of plain characters. *)
Module Sample.

Definition quoted (s : string) : bytes := QUOTE :: as_bytes s ++ [QUOTE].

Definition plain (c : ascii) : bool := is_ascii_alphanumeric c || char_in ["_"; "-"; "."; "/"; " "]%char c.

Definition entry (k : string) (b : bytes) : bytes := quoted k ++ as_bytes ":" ++ b.

Definition obj (es : list bytes) : bytes :=
  as_bytes "{" ++ foldr (fun e acc => match acc with [] => e | _ => e ++ as_bytes "," ++ acc end) [] es ++ as_bytes "}".

Definition documents : list (bytes * (de_value * value)) :=
  [ (as_bytes "null", (DeScalar, Null));
    (obj [], (DeMap [] None, Object []));
    (obj [entry "b" (as_bytes "1.50"); entry "a" (as_bytes "true")],
     (DeMap [("b", DeScalar); ("a", DeScalar)] None, Object [("a", Bool true); ("b", Number "1.50")]));
    (obj [entry "a" (as_bytes "true"); entry "b" (as_bytes "1.5")],
     (DeMap [("a", DeScalar); ("b", DeScalar)] None, Object [("a", Bool true); ("b", Number "1.5")]));
    (obj [entry "a" (as_bytes "1"); entry "a" (as_bytes "2")],
     (DeMap [("a", DeScalar); ("a", DeScalar)] None, Object [("a", Number "2")])) ].

Definition lookup (raw : bytes) : option (de_value * value) :=
  snd <$> list_find (fun p => p.1 = raw) documents ≫= fun p => Some p.2.

Definition syntax_error : serde_error := SerdeError "expected value at line 1 column 1" false.

#[export] Instance sample_json : SerdeJson := {|
  deserialize_any raw := match lookup raw with Some p => p.1 | None => DeFail syntax_error end;
  deserializer_end raw := Ok tt;
  value_from_slice raw := match lookup raw with Some p => Ok p.2 | None => Err syntax_error end;
  string_from_slice raw :=
    Ok (String.string_of_list_byte (take (length raw - 2) (drop 1 raw)));
  write_string s := if string_all plain s then Ok (quoted s) else Err syntax_error;
  custom_error raw m := SerdeError m false;
|}.

Lemma quoted_split (t1 t2 : text) r1 r2 :
  forallb plain t1 = true -> forallb plain t2 = true ->
  map Ascii.byte_of_ascii t1 ++ QUOTE :: r1 = map Ascii.byte_of_ascii t2 ++ QUOTE :: r2 -> t1 = t2.
Proof.
  revert t2. induction t1 as [|c t1 IH]; intros [|d t2]; cbn [forallb map app].
  - done.
  - intros _ [Hd _]%andb_true_iff E. injection E as E _. apply (f_equal Ascii.ascii_of_byte) in E.
    rewrite Ascii.ascii_of_byte_of_ascii in E. by subst d.
  - intros [Hd _]%andb_true_iff _ E. injection E as E _. apply (f_equal Ascii.ascii_of_byte) in E.
    rewrite Ascii.ascii_of_byte_of_ascii in E. by subst c.
  - intros [_ H1]%andb_true_iff [_ H2]%andb_true_iff E. injection E as Ec E.
    apply (f_equal Ascii.ascii_of_byte) in Ec. rewrite !Ascii.ascii_of_byte_of_ascii in Ec. subst d.
    f_equal. by apply IH.
Qed.

#[export] Instance sample_laws : SerdeJsonLaws.
Proof.
  split.
  - intros s b. cbn. destruct (string_all plain s); [intros [= <-]|done]. by eexists.
  - intros s1 s2 b1 b2 r1 r2. cbn. unfold string_all.
    destruct (forallb plain (String.list_ascii_of_string s1)) eqn:P1; [intros [= <-]|done].
    destruct (forallb plain (String.list_ascii_of_string s2)) eqn:P2; [intros [= <-]|done].
    unfold quoted. rewrite <-!app_comm_cons, <-!app_assoc. intros E. injection E as E.
    apply quoted_split in E; [|done..].
    by rewrite <-(String.string_of_list_ascii_of_string s1), <-(String.string_of_list_ascii_of_string s2), E.
Qed.

Definition parsed (raw : bytes) : CanonicalJson :=
  match parse raw with Ok c => c | Err _ => Canonical [] end.
End Sample.

(** A document whose keys are repeated is refused with the key. *)
Example sample_duplicate :
  parse (H := Sample.sample_json) (Sample.obj [Sample.entry "a" (as_bytes "1"); Sample.entry "a" (as_bytes "2")])
  = Err (DuplicateKey "a").
Proof. vm_compute. reflexivity. Qed.

Example sample_canonical :
  parse (H := Sample.sample_json) (Sample.obj [Sample.entry "b" (as_bytes "1.50"); Sample.entry "a" (as_bytes "true")])
  = Ok (Canonical (Sample.obj [Sample.entry "a" (as_bytes "true"); Sample.entry "b" (as_bytes "1.5")])).
Proof. vm_compute. reflexivity. Qed.

Definition sample_value (n : string) : value := Object [("x", Array [Number n; Null]); ("a", Str "s")].

Lemma sample_value_wf n :
  lexeme_fits (String.list_ascii_of_string n) -> is_Some (number_value (String.list_ascii_of_string n)) ->
  well_formed (sample_value n).
Proof.
  intros F V. constructor.
  - repeat constructor; set_solver.
  - repeat constructor; done.
Qed.

Lemma write_canonical_complete_witness :
  exists b, write_canonical (H := Sample.sample_json) (sample_value "10") = Ok b
    /\ write_canonical (H := Sample.sample_json) (sample_value "1e1") = Ok b
    /\ (b = b <-> json_eq (sample_value "10") (sample_value "1e1")).
Proof.
  eexists. split; [vm_compute; reflexivity|]. split; [vm_compute; reflexivity|].
  apply (@write_canonical_complete Sample.sample_json Sample.sample_laws).
  - apply sample_value_wf; vm_compute; [discriminate|by eexists].
  - apply sample_value_wf; vm_compute; [discriminate|by eexists].
  - vm_compute. reflexivity.
  - vm_compute. reflexivity.
Defined.

(** The key of [DuplicateKey] is cut at its first backquote. *)
Example duplicate_key_truncated position :
  classify_json_error (SerdeError (duplicate_message "a`b" ++ position)%string false) 0 = DuplicateKey "a".
Proof. reflexivity. Qed.
