(* ===== verification/Log.v ===== *)
(** * Log: the hash-chained application event log.

    Models [Event], [RawEvent], [LogCursor], [Log] and [event_hash] of
    [crates/pliego-log/src/lib.rs]: appending, importing, reading at a cursor and
    verifying. A [Log] is the list of its events; [u64::try_from(usize)] is the
    explicit overflow branch [SequenceOverflow].

    The chain theorems are tamper evidence without an assumption on SHA-256:
    either two valid histories agree, or an explicit collision is exhibited. *)

From S2P Require Import Prelude Decimal Json.

(** ** Constants *)

Definition EVENT_HASH_DOMAIN : bytes := as_bytes "pliego-log/2".
Definition MAX_KIND_BYTES : N := 128.
Definition MAX_CONTRACT_ID_BYTES : N := 256.
Definition MAX_SCHEMA_VERSION : N := 4096.
Definition GENESIS_HASH : Hash := replicate 32 x00.

(** ** Data *)

Record Event : Type := mkEvent {
  seq : N; kind : string; schema_version : N; payload : CanonicalJson; prev_hash : Hash; hash : Hash }.

Record RawEvent : Type := mkRawEvent {
  raw_seq : N; raw_kind : string; raw_schema_version : N; payload_json : bytes;
  raw_prev_hash : Hash; raw_hash : Hash }.

Record LogCursor : Type := mkCursor { position : N; head_hash : Hash }.

Inductive LogError : Type :=
| InvalidKind (reason : string)
| InvalidSchemaVersion
| InvalidSchemaId (reason : string)
| InvalidPayload (error : CanonicalJsonError)
| TypedPayloadDecode (error : CanonicalJsonError)
| TypedPayloadMismatch
| SequenceOverflow
| TamperedAt (at_seq : N).

Inductive CursorError : Type :=
| OutOfBounds (position len : N)
| HeadMismatch (position : N).

(** [Log]. *)
Abbreviation Log := (list Event).

#[export] Instance Event_eq_dec : EqDecision Event.
Proof. solve_decision. Defined.

#[export] Instance LogCursor_eq_dec : EqDecision LogCursor.
Proof. solve_decision. Defined.

(** The associated constants of [EventSchema]. *)
Record EventSchema : Type := mkSchema { KIND : string; VERSION : N; SCHEMA_ID : string }.

(** ** Validation *)

Definition is_kind_char (c : ascii) : bool :=
  is_ascii_lowercase c || is_ascii_digit c || Ascii.eqb c "_".

Definition validate_kind (kind : string) : result string unit :=
  fail_if negb ((5 <=? slen kind) && (slen kind <=? MAX_KIND_BYTES))
    with "length must be between 5 and 128 bytes" ;;
  suffix ← ok_or "must begin with `app_`" (strip_prefix "app_" kind);
  fail_if String.eqb suffix "" || negb (string_all is_kind_char suffix)
    with "suffix must contain only lowercase ASCII, digits, or `_`" ;;
  Ok tt.

Definition is_contract_char (c : ascii) : bool :=
  is_ascii_alphanumeric c || char_in ["-"; "_"; "."; "/"; ":"; "+"]%char c.

Definition validate_contract_id (value : string) : result string unit :=
  fail_if (slen value =? 0) || (MAX_CONTRACT_ID_BYTES <? slen value)
    with "length must be between 1 and 256 bytes" ;;
  fail_if negb (string_all is_contract_char value) with "contains a non-portable character" ;;
  Ok tt.

Definition version_in_range (version : N) : bool :=
  (1 <=? version) && (version <=? MAX_SCHEMA_VERSION).

Definition validate_schema (schema : EventSchema) : result LogError unit :=
  _ ← map_err InvalidKind (validate_kind (KIND schema));
  fail_if negb (version_in_range (VERSION schema)) with InvalidSchemaVersion ;;
  map_err InvalidSchemaId (validate_contract_id (SCHEMA_ID schema)).

(** ** The log *)

Definition len (log : Log) : N := blen log.
Definition is_empty (log : Log) : bool := match log with [] => true | _ => false end.
Definition head (log : Log) : Hash := match list.last log with Some e => hash e | None => GENESIS_HASH end.
Definition cursor (log : Log) : LogCursor := mkCursor (len log) (head log).
Definition get (log : Log) (seq : N) : option Event := log !! N.to_nat seq.

(** The bytes [event_hash] feeds to the hasher. *)
Definition event_preimage (e : Event) : bytes :=
  EVENT_HASH_DOMAIN ++ be_bytes 8 (seq e) ++ prev_hash e ++ lp (as_bytes (kind e))
    ++ be_bytes 4 (schema_version e) ++ lp (canonical_bytes (payload e)).

Section log.
Context `{SerdeJson, Sha256}.

Definition event_hash (e : Event) : Hash := sha256 (event_preimage e).

Definition append_canonical (log : Log) (k : string) (version : N) (p : CanonicalJson) : result LogError Log :=
  _ ← map_err InvalidKind (validate_kind k);
  fail_if negb (version_in_range version) with InvalidSchemaVersion ;;
  fail_if u64_max <? len log with SequenceOverflow ;;
  let event := mkEvent (len log) k version p (head log) GENESIS_HASH in
  Ok (log ++ [mkEvent (len log) k version p (head log) (event_hash event)]).

(** [append_typed::<T>]: the schema constants, [T]'s serializer, its deserializer
    and its equality are the arguments. *)
Definition append_typed {T} (schema : EventSchema) (serialize : T -> serialization)
    (from_slice : bytes -> result serde_error T) (eq : T -> T -> bool) (log : Log) (value : T)
    : result LogError Log :=
  _ ← validate_schema schema;
  canonical ← map_err InvalidPayload (from_serialize (serialize value));
  decoded ← map_err (fun e => TypedPayloadDecode (Invalid (message e))) (from_slice (canonical_bytes canonical));
  fail_if negb (eq decoded value) with TypedPayloadMismatch ;;
  append_canonical log (KIND schema) (VERSION schema) canonical.

(** One iteration of the loop of [import_raw]. *)
Definition admit_raw (admitted : Log) (previous : Hash) (raw : RawEvent) : result LogError Event :=
  _ ← map_err InvalidKind (validate_kind (raw_kind raw));
  fail_if negb (version_in_range (raw_schema_version raw)) with InvalidSchemaVersion ;;
  fail_if u64_max <? len admitted with SequenceOverflow ;;
  fail_if negb (raw_seq raw =? len admitted) || negb (bool_decide (raw_prev_hash raw = previous))
    with TamperedAt (len admitted) ;;
  payload ← map_err InvalidPayload (parse (payload_json raw));
  let event := mkEvent (raw_seq raw) (raw_kind raw) (raw_schema_version raw) payload
                 (raw_prev_hash raw) (raw_hash raw) in
  fail_if negb (bool_decide (hash event = event_hash event)) with TamperedAt (len admitted) ;;
  Ok event.

Fixpoint import_loop (admitted : Log) (previous : Hash) (events : list RawEvent) : result LogError Log :=
  match events with
  | [] => Ok admitted
  | raw :: events =>
      event ← admit_raw admitted previous raw;
      import_loop (admitted ++ [event]) (hash event) events
  end.

Definition import_raw (events : list RawEvent) : result LogError Log := import_loop [] GENESIS_HASH events.

Definition cursor_at (log : Log) (position : N) : result CursorError LogCursor :=
  fail_if len log <? position with OutOfBounds position (len log) ;;
  let head_hash :=
    if position =? 0 then GENESIS_HASH
    else match get log (position - 1) with Some e => hash e | None => GENESIS_HASH end in
  Ok (mkCursor position head_hash).

Definition tail (log : Log) (c : LogCursor) : result CursorError (list Event) :=
  expected ← cursor_at log (position c);
  fail_if negb (bool_decide (head_hash expected = head_hash c)) with HeadMismatch (position c) ;;
  Ok (drop (N.to_nat (position c)) log).

Definition link_ok (index : N) (previous : Hash) (e : Event) : bool :=
  (seq e =? index) && is_ok (validate_kind (kind e)) && version_in_range (schema_version e)
  && bool_decide (prev_hash e = previous) && bool_decide (hash e = event_hash e).

Fixpoint verify_loop (index : N) (previous : Hash) (events : list Event) : result LogError unit :=
  match events with
  | [] => Ok tt
  | e :: events =>
      fail_if u64_max <? index with SequenceOverflow ;;
      fail_if negb (link_ok index previous e) with TamperedAt index ;;
      verify_loop (index + 1) (hash e) events
  end.

Definition verify (log : Log) : result LogError unit := verify_loop 0 GENESIS_HASH log.

(** What a transport serializes of an event. *)
Definition export (e : Event) : RawEvent :=
  mkRawEvent (seq e) (kind e) (schema_version e) (canonical_bytes (payload e)) (prev_hash e) (hash e).
End log.

(** ** Event preimages *)

(** The widths of the fields of an event of a log on a 64-bit target. *)
Definition event_fits (e : Event) : Prop :=
  seq e <= u64_max /\ length (prev_hash e) = 32%nat /\ slen (kind e) <= u64_max
  /\ schema_version e <= u32_max /\ blen (canonical_bytes (payload e)) <= u64_max.

(** The preimage determines every bound field. *)
Lemma event_preimage_inj e1 e2 :
  event_fits e1 -> event_fits e2 -> event_preimage e1 = event_preimage e2 ->
  seq e1 = seq e2 /\ kind e1 = kind e2 /\ schema_version e1 = schema_version e2
  /\ payload e1 = payload e2 /\ prev_hash e1 = prev_hash e2.
Proof.
  intros (S1 & P1 & K1 & V1 & L1) (S2 & P2 & K2 & V2 & L2) E. unfold event_preimage in E.
  apply app_inv_head in E. apply be_bytes_app_inj in E as [Es E].
  apply be_bytes_inj in Es; [|change (256 ^ N.of_nat 8) with (u64_max + 1); lia..].
  apply app_inj_1 in E as [Ep E]; [|congruence].
  apply lp_app_inj in E as [Ek E]; [|by rewrite blen_as_bytes..]. apply as_bytes_inj in Ek.
  apply be_bytes_app_inj in E as [Ev E].
  apply be_bytes_inj in Ev; [|change (256 ^ N.of_nat 4) with (u32_max + 1); lia..].
  rewrite <-(app_nil_r (lp _)) in E. rewrite <-(app_nil_r (lp (canonical_bytes (payload e2)))) in E.
  apply lp_app_inj in E as [El _]; [|done..].
  split_and!; try done. destruct (payload e1), (payload e2). cbn in El. by subst.
Qed.

Lemma event_ext e1 e2 :
  seq e1 = seq e2 -> kind e1 = kind e2 -> schema_version e1 = schema_version e2 ->
  payload e1 = payload e2 -> prev_hash e1 = prev_hash e2 -> hash e1 = hash e2 -> e1 = e2.
Proof. destruct e1, e2. cbn. intros. by subst. Qed.

Lemma validate_kind_ok k :
  validate_kind k = Ok tt <->
  5 <= slen k <= MAX_KIND_BYTES /\ exists suffix, k = ("app_" ++ suffix)%string /\ suffix <> EmptyString
    /\ string_all is_kind_char suffix = true.
Proof.
  unfold validate_kind. destruct ((5 <=? slen k) && (slen k <=? MAX_KIND_BYTES)) eqn:El; cbn [negb].
  2:{ split; [done|]. intros [[H1%N.leb_le H2%N.leb_le] _]. by rewrite H1, H2 in El. }
  reflect_guards. rewrite bind_ok. split.
  - intros (suffix & E1 & E2). rewrite ok_or_ok, strip_prefix_spec in E1.
    destruct (_ || _) eqn:Eb in E2; [done|]. reflect_guards. split; [done|]. by exists suffix.
  - intros [_ (suffix & -> & Hne & Hall)]. exists suffix. rewrite ok_or_ok, strip_prefix_spec, Hall.
    split; [done|]. by apply String.eqb_neq in Hne as ->.
Qed.

Section log_laws.
Context `{SerdeJson, Sha256}.

Definition last_hash (previous : Hash) (events : list Event) : Hash :=
  match list.last events with Some e => hash e | None => previous end.

Lemma last_hash_snoc previous l e : last_hash previous (l ++ [e]) = hash e.
Proof. unfold last_hash. by rewrite list.last_snoc. Qed.

Lemma last_hash_cons previous e l : last_hash previous (e :: l) = last_hash (hash e) l.
Proof. unfold last_hash. rewrite list.last_cons. by destruct (list.last l). Qed.

Lemma verify_loop_app index previous l1 l2 :
  verify_loop index previous (l1 ++ l2) = Ok tt
  <-> verify_loop index previous l1 = Ok tt
      /\ verify_loop (index + len l1) (last_hash previous l1) l2 = Ok tt.
Proof.
  revert index previous. induction l1 as [|e l1 IH]; intros index previous; cbn [verify_loop app].
  - unfold len, blen, last_hash. cbn. rewrite N.add_0_r. tauto.
  - destruct (u64_max <? index); [naive_solver|]. destruct (negb (link_ok index previous e)); [naive_solver|].
    rewrite IH, last_hash_cons. unfold len. rewrite blen_cons.
    by replace (index + 1 + blen l1) with (index + N.succ (blen l1)) by lia.
Qed.

Lemma verify_snoc log e :
  verify (log ++ [e]) = Ok tt
  <-> verify log = Ok tt /\ len log <= u64_max /\ link_ok (len log) (head log) e = true.
Proof.
  unfold verify. rewrite verify_loop_app, N.add_0_l. cbn [verify_loop].
  change (last_hash GENESIS_HASH log) with (head log).
  destruct (N.ltb_spec u64_max (len log)); [split; [naive_solver|lia]|].
  destruct (link_ok (len log) (head log) e); cbn; naive_solver.
Qed.

Lemma verify_take log n : verify log = Ok tt -> verify (take n log) = Ok tt.
Proof. rewrite <-(take_drop n log) at 1. unfold verify. by rewrite verify_loop_app; intros [? _]. Qed.

Lemma link_ok_spec index previous e :
  link_ok index previous e = true <->
  seq e = index /\ validate_kind (kind e) = Ok tt /\ 1 <= schema_version e <= MAX_SCHEMA_VERSION
  /\ prev_hash e = previous /\ hash e = event_hash e.
Proof.
  unfold link_ok, version_in_range. rewrite !andb_true_iff, N.eqb_eq, !N.leb_le, !bool_decide_eq_true.
  destruct (validate_kind (kind e)) as [[]|]; cbn; naive_solver.
Qed.

(** The hash of an event does not depend on its [hash] field. *)
Lemma event_hash_fields s k v p ph h1 h2 :
  event_hash (mkEvent s k v p ph h1) = event_hash (mkEvent s k v p ph h2).
Proof. done. Qed.

Lemma append_canonical_spec log k version p log' :
  append_canonical log k version p = Ok log' ->
  exists e, log' = log ++ [e] /\ kind e = k /\ schema_version e = version /\ payload e = p
    /\ seq e = len log /\ len log <= u64_max /\ link_ok (len log) (head log) e = true.
Proof.
  unfold append_canonical. intros E. split_ok. reflect_guards. subst log'. eexists. split; [done|].
  cbn. split_and!; try done. apply link_ok_spec. cbn. unfold version_in_range in *. reflect_guards.
  split_and!; try done.
Qed.

Lemma append_canonical_verify log k version p log' :
  append_canonical log k version p = Ok log' -> verify log = Ok tt -> verify log' = Ok tt.
Proof. intros (e & -> & _ & _ & _ & _ & Hl & Hk)%append_canonical_spec Hv. by apply verify_snoc. Qed.
End log_laws.

(** [append_typed] appends one linked event. *)
Lemma append_typed_snoc `{SerdeJson, Sha256} {T} schema serialize (from_slice : bytes -> result serde_error T)
    eq log value log' :
  append_typed schema serialize from_slice eq log value = Ok log' ->
  exists e, log' = log ++ [e] /\ (verify log = Ok tt -> verify log' = Ok tt).
Proof.
  unfold append_typed. intros E. split_ok. pose proof E as E'.
  apply append_canonical_spec in E as (e & -> & _). exists e. split; [done|]. by eapply append_canonical_verify.
Qed.

(** ** Import *)

Section import.
Context `{SerdeJson, Sha256}.

(** [e] is the event [raw] stands for: its fields, with the payload canonicalised. *)
Definition admits (raw : RawEvent) (e : Event) : Prop :=
  raw_seq raw = seq e /\ raw_kind raw = kind e /\ raw_schema_version raw = schema_version e
  /\ raw_prev_hash raw = prev_hash e /\ raw_hash raw = hash e /\ parse (payload_json raw) = Ok (payload e).

Lemma admit_raw_spec adm previous raw e :
  admit_raw adm previous raw = Ok e
  <-> admits raw e /\ len adm <= u64_max /\ link_ok (len adm) previous e = true.
Proof.
  rewrite link_ok_spec. unfold admit_raw, admits. split.
  - intros E. split_ok. reflect_guards. subst e. cbn in *. unfold version_in_range in *. reflect_guards.
    subst. split_and!; try done; by rewrite ?Hr.
  - destruct raw as [rs rk rv rp rph rh], e as [s k v p ph h]. cbn.
    intros ((-> & -> & -> & -> & -> & Hp) & Hl%N.ltb_ge & -> & Hk & [V1%N.leb_le V2%N.leb_le] & -> & Hh).
    rewrite Hk, Hl, Hp. unfold version_in_range. rewrite V1, V2, N.eqb_refl. cbn.
    rewrite bool_decide_eq_true_2 by done. cbn. by rewrite bool_decide_eq_true_2.
Qed.

Lemma import_loop_spec adm previous raws log :
  import_loop adm previous raws = Ok log <->
  exists es, log = adm ++ es /\ Forall2 admits raws es /\ verify_loop (len adm) previous es = Ok tt.
Proof.
  revert adm previous. induction raws as [|raw raws IH]; intros adm previous; cbn [import_loop].
  - split.
    + intros [= ->]. exists []. rewrite app_nil_r. split_and!; [done|constructor|done].
    + intros (es & -> & F & _). inversion_clear F. by rewrite app_nil_r.
  - rewrite bind_ok. split.
    + intros (e & (Ha & Hl & Hk)%admit_raw_spec & (es & -> & F & V)%IH). exists (e :: es).
      rewrite <-app_assoc. split_and!; [done|by constructor|]. cbn [verify_loop].
      apply N.ltb_ge in Hl. rewrite Hl, Hk. unfold len in V. by rewrite blen_app in V.
    + intros (es & -> & F & V). inversion F as [|? e ? es' Ha F']; subst. cbn [verify_loop] in V.
      split_ok. reflect_guards. exists e. split; [by apply admit_raw_spec|]. apply IH. exists es'.
      rewrite <-app_assoc. split_and!; [done..|]. unfold len. by rewrite blen_app.
Qed.

Lemma export_admits e : parse (canonical_bytes (payload e)) = Ok (payload e) -> admits (export e) e.
Proof. intros Hp. by unfold admits. Qed.
End import.

(** ** Prefixes of valid histories *)

Section chain.
Context `{Sha256, !Sha256Laws}.

(** The payload bound [CanonicalJson] guarantees. *)
Definition payloads_bounded (log : Log) : Prop :=
  Forall (fun e => blen (canonical_bytes (payload e)) <= MAX_JSON_BYTES) log.

Lemma head_length log : verify log = Ok tt -> length (head log) = 32%nat.
Proof.
  destruct log as [|e log _] using rev_ind; [done|]. intros (_ & _ & Hk)%verify_snoc.
  apply link_ok_spec in Hk as (_ & _ & _ & _ & Hh). unfold head. rewrite list.last_snoc, Hh. apply sha256_length.
Qed.

Lemma link_fits log e :
  verify (log ++ [e]) = Ok tt -> payloads_bounded (log ++ [e]) -> event_fits e.
Proof.
  intros (Hv & Hl & Hk)%verify_snoc Hb. apply link_ok_spec in Hk as (Hs & Hkind & Hver & Hp & _).
  apply Forall_app in Hb as [_ Hb%List.Forall_inv]. apply validate_kind_ok in Hkind as [Hkl _].
  unfold event_fits, MAX_KIND_BYTES, MAX_SCHEMA_VERSION, MAX_JSON_BYTES, u64_max, u32_max in *.
  split_and!; [lia| |lia..]. rewrite Hp. by apply head_length.
Qed.

(** Two valid histories of one length and one head are equal, or two of their
    events collide. *)
Lemma head_binds_history log1 log2 :
  verify log1 = Ok tt -> verify log2 = Ok tt -> payloads_bounded log1 -> payloads_bounded log2 ->
  length log1 = length log2 -> head log1 = head log2 ->
  log1 = log2 \/ exists e1 e2, e1 ∈ log1 /\ e2 ∈ log2 /\ collides (event_preimage e1) (event_preimage e2).
Proof.
  revert log2. induction log1 as [|e1 log1 IH] using rev_ind; intros log2.
  { intros _ _ _ _ Hlen _. left. symmetry in Hlen. apply nil_length_inv in Hlen. by subst. }
  destruct log2 as [|e2 log2 _] using rev_ind.
  { intros _ _ _ _ Hlen _. rewrite length_app in Hlen. cbn in Hlen. lia. }
  intros V1 V2 B1 B2 Hlen Hh. pose proof (link_fits _ _ V1 B1) as F1. pose proof (link_fits _ _ V2 B2) as F2.
  apply verify_snoc in V1 as (V1 & _ & K1), V2 as (V2 & _ & K2).
  apply link_ok_spec in K1 as (_ & _ & _ & P1 & Q1), K2 as (_ & _ & _ & P2 & Q2).
  unfold head in Hh. rewrite !list.last_snoc in Hh. pose proof Hh as Hd. rewrite Q1, Q2 in Hd.
  destruct (decide (event_preimage e1 = event_preimage e2)) as [E|NE].
  2:{ right. exists e1, e2. split_and!; [set_solver..|]. by split. }
  destruct (event_preimage_inj e1 e2 F1 F2 E) as (Es & Ek & Ev & Epl & Eph).
  apply Forall_app in B1 as [B1 _], B2 as [B2 _]. rewrite !length_app in Hlen. cbn in Hlen.
  destruct (IH log2 V1 V2 B1 B2) as [->|(x1 & x2 & I1 & I2 & C)]; [lia|congruence| |].
  - left. by rewrite (event_ext e1 e2).
  - right. exists x1, x2. split_and!; [set_solver..|done].
Qed.
End chain.

(** ** Cursors *)

Section cursors.
Context `{SerdeJson, Sha256}.

Lemma cursor_at_spec log p c :
  cursor_at log p = Ok c <-> p <= len log /\ c = mkCursor p (head (take (N.to_nat p) log)).
Proof.
  unfold cursor_at. destruct (N.ltb_spec (len log) p) as [Hlt|Hge]; [split; [done|lia]|].
  assert (head (take (N.to_nat p) log)
          = if p =? 0 then GENESIS_HASH
            else match get log (p - 1) with Some e => hash e | None => GENESIS_HASH end) as ->.
  { destruct (N.eqb_spec p 0) as [->|Hp]; [done|]. unfold get, head, len, blen in *.
    destruct (lookup_lt_is_Some_2 log (N.to_nat (p - 1))) as [e He]; [lia|]. rewrite He.
    replace (N.to_nat p) with (S (N.to_nat (p - 1))) by lia. by rewrite (take_S_r _ _ e), list.last_snoc. }
  split; [intros [= <-]; done|intros [_ ->]; done].
Qed.
End cursors.

(** [tail] is exact: it returns the events after the cursor when the cursor is
    the head of that prefix of this history, and otherwise reports an out-of-range
    position or a foreign head, never a clamped slice. *)
Theorem tail_exact log c :
  tail log c =
    if len log <? position c then Err (OutOfBounds (position c) (len log))
    else if bool_decide (head (take (N.to_nat (position c)) log) = head_hash c)
         then Ok (drop (N.to_nat (position c)) log)
         else Err (HeadMismatch (position c)).
Proof.
  unfold tail. destruct (N.ltb_spec (len log) (position c)) as [Hlt|Hge].
  - unfold cursor_at. apply N.ltb_lt in Hlt. by rewrite Hlt.
  - assert (cursor_at log (position c) = Ok (mkCursor (position c) (head (take (N.to_nat (position c)) log)))) as ->
      by by apply cursor_at_spec.
    cbn. by destruct (bool_decide _).
Qed.

(** C8. [import_raw] accepts exactly the raw histories whose events, with their
    payloads canonicalised, form a log that verifies from genesis; it returns that
    log. *)
Theorem import_raw_exact `{SerdeJson, Sha256} raws log :
  import_raw raws = Ok log <-> Forall2 admits raws log /\ verify log = Ok tt.
Proof.
  unfold import_raw. rewrite import_loop_spec. cbn. split.
  - by intros (es & -> & F & V).
  - intros [F V]. by exists log.
Qed.

(** C1. Tamper evidence: a cursor (a position and a head hash) that two valid
    histories both answer to identifies their common prefix, unless an explicit
    SHA-256 collision between two of their events is exhibited. *)
Theorem cursor_binds_history `{Sha256, !Sha256Laws} log1 log2 p c :
  verify log1 = Ok tt -> verify log2 = Ok tt -> payloads_bounded log1 -> payloads_bounded log2 ->
  cursor_at log1 p = Ok c -> cursor_at log2 p = Ok c ->
  take (N.to_nat p) log1 = take (N.to_nat p) log2 \/
  exists e1 e2, e1 ∈ log1 /\ e2 ∈ log2 /\ collides (event_preimage e1) (event_preimage e2).
Proof.
  intros V1 V2 B1 B2 [L1 E1]%cursor_at_spec [L2 E2]%cursor_at_spec. rewrite E1 in E2. injection E2 as Hh.
  destruct (head_binds_history (take (N.to_nat p) log1) (take (N.to_nat p) log2))
    as [E|(e1 & e2 & I1 & I2 & C)]; [by apply verify_take|by apply verify_take|by apply list.Forall_take
                                    |by apply list.Forall_take| |done|by left|].
  - unfold len, blen in *. rewrite !length_take. lia.
  - right. exists e1, e2. apply take_elem in I1, I2. done.
Qed.

(** [append_typed] appends one event that carries the schema's kind and
    version and a payload that decodes to a value equal to the argument; the new
    head is the cursor after it, and a log that verifies still verifies. *)
Theorem append_typed_sound `{SerdeJson, Sha256} {T} schema serialize (from_slice : bytes -> result serde_error T)
    eq log value log' :
  append_typed schema serialize from_slice eq log value = Ok log' ->
  exists e d, log' = log ++ [e] /\ kind e = KIND schema /\ schema_version e = VERSION schema
    /\ from_serialize (serialize value) = Ok (payload e)
    /\ from_slice (canonical_bytes (payload e)) = Ok d /\ eq d value = true
    /\ cursor log' = mkCursor (len log + 1) (hash e)
    /\ (verify log = Ok tt -> verify log' = Ok tt).
Proof.
  unfold append_typed. intros E. split_ok. reflect_guards. pose proof E as E'.
  apply append_canonical_spec in E as (e & -> & Hk & Hv & Hp & Hs & Hl & Hlink). rewrite <-Hp in *.
  exists e. eexists. split_and!; try done.
  - unfold cursor, head, len, blen. rewrite length_app, list.last_snoc, Nat2N.inj_add. done.
  - by eapply append_canonical_verify.
Qed.

(** Round trip: a log that verifies and whose payloads are fixed points of
    [CanonicalJson::parse] is imported back, event for event, from its export. *)
Theorem import_export_roundtrip `{SerdeJson, Sha256} log :
  verify log = Ok tt -> Forall (fun e => parse (canonical_bytes (payload e)) = Ok (payload e)) log ->
  import_raw (map export log) = Ok log.
Proof.
  intros V F. unfold import_raw. apply import_loop_spec. exists log. split_and!; [done| |done].
  clear V. induction F as [|e log He _ IH]; cbn; constructor; [by apply export_admits|done].
Qed.

(** ** Witnesses *)

Module LogSample.
#[local] Existing Instance toy_sha256.
#[local] Existing Instance Sample.sample_json.

Definition schema : EventSchema := mkSchema "app_note" 2 "note/v2".

(** A schema type with two values and its serializer and deserializer. *)
Definition serialize (b : bool) : serialization :=
  ([if b then Sample.obj [] else as_bytes "null"], None).

Definition from_slice (bs : bytes) : result serde_error bool :=
  if bool_decide (bs = Sample.obj []) then Ok true else
  if bool_decide (bs = as_bytes "null") then Ok false else Err (SerdeError "type" false).

Definition run (log : Log) (b : bool) : Log :=
  match append_typed schema serialize from_slice Bool.eqb log b with Ok log => log | Err _ => [] end.

Definition log1 : Log := run [] true.
Definition log2 : Log := run log1 false.
End LogSample.

Lemma append_typed_sound_witness :
  append_typed (H := Sample.sample_json) (H0 := toy_sha256) LogSample.schema LogSample.serialize
    LogSample.from_slice Bool.eqb LogSample.log1 false = Ok LogSample.log2 /\
  exists e d, LogSample.log2 = LogSample.log1 ++ [e] /\ kind e = "app_note" /\ schema_version e = 2
    /\ from_serialize (H := Sample.sample_json) (LogSample.serialize false) = Ok (payload e)
    /\ LogSample.from_slice (canonical_bytes (payload e)) = Ok d /\ Bool.eqb d false = true
    /\ cursor LogSample.log2 = mkCursor (len LogSample.log1 + 1) (hash e)
    /\ (verify (H0 := toy_sha256) LogSample.log1 = Ok tt -> verify (H0 := toy_sha256) LogSample.log2 = Ok tt).
Proof.
  assert (append_typed (H := Sample.sample_json) (H0 := toy_sha256) LogSample.schema LogSample.serialize
    LogSample.from_slice Bool.eqb LogSample.log1 false = Ok LogSample.log2) as E by (vm_compute; reflexivity).
  split; [exact E|]. exact (append_typed_sound _ _ _ _ _ _ _ E).
Defined.

Lemma import_export_roundtrip_witness :
  import_raw (H := Sample.sample_json) (H0 := toy_sha256) (map export LogSample.log2) = Ok LogSample.log2.
Proof.
  apply import_export_roundtrip.
  - vm_compute. reflexivity.
  - repeat constructor; vm_compute; reflexivity.
Defined.

Lemma cursor_binds_history_witness :
  let c := cursor LogSample.log1 in
  take 1 LogSample.log2 = take 1 LogSample.log1 \/
  exists e1 e2, e1 ∈ LogSample.log2 /\ e2 ∈ LogSample.log1
    /\ collides (H := toy_sha256) (event_preimage e1) (event_preimage e2).
Proof.
  apply (@cursor_binds_history toy_sha256 toy_sha256_laws LogSample.log2 LogSample.log1 1 (cursor LogSample.log1));
    [vm_compute; reflexivity|vm_compute; reflexivity| | |vm_compute; reflexivity|vm_compute; reflexivity].
  - repeat constructor; vm_compute; discriminate.
  - repeat constructor; vm_compute; discriminate.
Defined.
