(* ===== verification/Catalog.v ===== *)
(** * Catalog: sealed event schemas, upcasters and their run-time tripwire.

    Models [TransformObservations], [EventCatalogBuilder], [SealedEventCatalog]
    and [schema_set_digest] of [crates/pliego-log/src/lib.rs].

    Application closures are arguments of the model. A Rust [Fn] closure can keep
    state, so a transform is a function of the number of times it has been called
    and of its input; [Store] holds, per registered closure, that number and the
    observations behind its mutex. A run is an [option]: [None] stands for a panic
    ([expect] on an empty queue) or for a loop that exhausted its fuel, and
    [decode_total] proves that neither happens. *)

From S2P Require Import Prelude Decimal Json Log.

Definition MAX_CATALOG_KINDS : N := 1024.
Definition MAX_SCHEMAS_PER_KIND : N := 1024.
Definition MAX_TRANSFORM_OBSERVATIONS : N := 256.
Definition SCHEMA_SET_HASH_DOMAIN : bytes := as_bytes "pliego-log/2/schema-set".

Inductive CatalogError : Type :=
| EmptyCatalog
| TooManyKinds
| TooManySchemas (kind : string)
| TooManyUpcasters (kind : string)
| InvalidSchema (error : LogError)
| InvalidMappingId (reason : string)
| InvalidStepId (reason : string)
| DuplicateSchema (kind : string) (version : N)
| DuplicateCurrent (kind : string)
| DuplicateUpcaster (kind : string) (from : N)
| CrossKindUpcast (from to : string)
| NonAdjacentUpcast (kind : string) (from to : N)
| MissingCurrent (kind : string)
| MissingSchema (kind : string) (version : N)
| SchemaGap (kind : string) (version : N)
| SchemaPastCurrent (kind : string) (version current : N)
| MissingUpcaster (kind : string) (from : N)
| UpcastPastCurrent (kind : string) (from current : N)
| UnknownKind (kind : string)
| UnknownVersion (kind : string) (version : N)
| Payload (error : CanonicalJsonError)
| UpcastFailed (kind : string) (from : N) (reason : string)
| NondeterministicUpcast (kind : string) (from : N)
| NondeterministicMapping (kind : string) (version : N).

(** ** The observation cache *)

Record TransformObservations : Type := Observations {
  outputs : gmap Hash Hash; insertion_order : list Hash }.

Definition no_observations : TransformObservations := Observations ∅ [].

(** What a closure has accumulated: its call count and its observations. *)
Record TransformState : Type := mkState { calls : nat; observations : TransformObservations }.

(** The closures of a catalog: the upcaster from a version of a kind, and the
    current mapper of a kind. *)
Inductive slot : Type := UpcastSlot (kind : string) (from : N) | CurrentSlot (kind : string).

#[export] Instance slot_eq_dec : EqDecision slot.
Proof. solve_decision. Defined.

#[export] Program Instance slot_countable : Countable slot :=
  inj_countable' (fun s => match s with UpcastSlot k f => inl (k, f) | CurrentSlot k => inr k end)
    (fun s => match s with inl (k, f) => UpcastSlot k f | inr k => CurrentSlot k end) _.
Next Obligation. by intros []. Qed.

Abbreviation Store := (gmap slot TransformState).

Definition state_of (store : Store) (s : slot) : TransformState :=
  default (mkState 0 no_observations) (store !! s).

Section catalog.
Context `{SerdeJson, Sha256}.

Definition accepts (obs : TransformObservations) (input output : CanonicalJson)
    : option (TransformObservations * bool) :=
  let input_digest := sha256 (canonical_bytes input) in
  let output_digest := sha256 (canonical_bytes output) in
  match outputs obs !! input_digest with
  | Some expected => Some (obs, bool_decide (expected = output_digest))
  | None =>
      obs ←
        (if N.of_nat (size (outputs obs)) =? MAX_TRANSFORM_OBSERVATIONS then
           match insertion_order obs with
           | oldest :: rest => Some (Observations (delete oldest (outputs obs)) rest)
           | [] => None
           end
         else Some obs);
      Some (Observations (<[input_digest := output_digest]> (outputs obs))
              (insertion_order obs ++ [input_digest]), true)
  end.

(** ** Construction *)

(** An application closure: the result of its [n]-th call. *)
Abbreviation host := (fun A => nat -> CanonicalJson -> result CatalogError A).

Context {E : Type} (event_eq : E -> E -> bool) (serialize_event : E -> serialization).

Record CurrentSchema : Type := mkCurrent { version : N; mapping_id : string; run_current : host E }.
Record Upcaster : Type := mkUpcaster { to : N; step_id : string; run_upcast : host CanonicalJson }.
Record KindBuilder : Type := mkKind {
  schemas : gmap N string; current : option CurrentSchema; upcasters : gmap N Upcaster }.

Abbreviation EventCatalogBuilder := (gmap string KindBuilder).

Definition empty_kind : KindBuilder := mkKind ∅ None ∅.

(** The closures [run_once] of the two registrations: decode, call the
    application, and, for an upcaster, serialize its output. *)
Definition current_run_once {T} (from_slice : bytes -> result serde_error T) (into_event : nat -> T -> E) : host E :=
  fun n json =>
    value ← map_err (fun e => Payload (Invalid (message e))) (from_slice (canonical_bytes json));
    Ok (into_event n value).

Definition upcast_run_once {From To} (from : EventSchema) (from_slice : bytes -> result serde_error From)
    (upcast : nat -> From -> result string To) (serialize : To -> serialization) : host CanonicalJson :=
  fun n json =>
    value ← map_err (fun e => Payload (Invalid (message e))) (from_slice (canonical_bytes json));
    output ← map_err (UpcastFailed (KIND from) (VERSION from)) (upcast n value);
    map_err Payload (from_serialize (serialize output)).

Definition register_schema (kind : KindBuilder) (schema : EventSchema) : KindBuilder * result CatalogError unit :=
  match schemas kind !! VERSION schema with
  | Some existing =>
      if String.eqb existing (SCHEMA_ID schema) then (kind, Ok tt)
      else (kind, Err (DuplicateSchema (KIND schema) (VERSION schema)))
  | None =>
      if MAX_SCHEMAS_PER_KIND <=? N.of_nat (size (schemas kind)) then (kind, Err (TooManySchemas (KIND schema)))
      else (mkKind (<[VERSION schema := SCHEMA_ID schema]> (schemas kind)) (current kind) (upcasters kind), Ok tt)
  end.

Definition no_room (kinds : EventCatalogBuilder) (k : string) : bool :=
  negb (bool_decide (is_Some (kinds !! k))) && (MAX_CATALOG_KINDS <=? N.of_nat (size kinds)).

Definition entry (kinds : EventCatalogBuilder) (k : string) : KindBuilder := default empty_kind (kinds !! k).

(** The builder is borrowed mutably: what a failing registration already changed
    stays changed. *)
Definition register_current (kinds : EventCatalogBuilder) (schema : EventSchema) (mapping : string) (run : host E)
    : EventCatalogBuilder * result CatalogError unit :=
  match map_err InvalidSchema (validate_schema schema) with Err e => (kinds, Err e) | Ok _ =>
  match map_err InvalidMappingId (validate_contract_id mapping) with Err e => (kinds, Err e) | Ok _ =>
  if no_room kinds (KIND schema) then (kinds, Err TooManyKinds) else
  let '(kind, r) := register_schema (entry kinds (KIND schema)) schema in
  let put kind := <[KIND schema := kind]> kinds in
  match r with Err e => (put kind, Err e) | Ok _ =>
  match current kind with
  | Some _ => (put kind, Err (DuplicateCurrent (KIND schema)))
  | None => (put (mkKind (schemas kind) (Some (mkCurrent (VERSION schema) mapping run)) (upcasters kind)), Ok tt)
  end end end end.

Definition register_upcaster (kinds : EventCatalogBuilder) (from to : EventSchema) (step : string)
    (run : host CanonicalJson) : EventCatalogBuilder * result CatalogError unit :=
  match map_err InvalidSchema (validate_schema from) with Err e => (kinds, Err e) | Ok _ =>
  match map_err InvalidSchema (validate_schema to) with Err e => (kinds, Err e) | Ok _ =>
  if negb (String.eqb (KIND from) (KIND to)) then (kinds, Err (CrossKindUpcast (KIND from) (KIND to))) else
  if negb (bool_decide (checked_add_u32 (VERSION from) 1 = Some (VERSION to)))
  then (kinds, Err (NonAdjacentUpcast (KIND from) (VERSION from) (VERSION to))) else
  match map_err InvalidStepId (validate_contract_id step) with Err e => (kinds, Err e) | Ok _ =>
  if no_room kinds (KIND from) then (kinds, Err TooManyKinds) else
  let put kind := <[KIND from := kind]> kinds in
  let '(kind, r) := register_schema (entry kinds (KIND from)) from in
  match r with Err e => (put kind, Err e) | Ok _ =>
  let '(kind, r) := register_schema kind to in
  match r with Err e => (put kind, Err e) | Ok _ =>
  if bool_decide (is_Some (upcasters kind !! VERSION from))
  then (put kind, Err (DuplicateUpcaster (KIND from) (VERSION from))) else
  if MAX_SCHEMAS_PER_KIND - 1 <=? N.of_nat (size (upcasters kind))
  then (put kind, Err (TooManyUpcasters (KIND from))) else
  (put (mkKind (schemas kind) (current kind)
          (<[VERSION from := mkUpcaster (VERSION to) step run]> (upcasters kind))), Ok tt)
  end end end end end.

(** ** Sealing *)

Record SealedKind : Type := mkSealed {
  sealed_schemas : gmap N string; sealed_current : CurrentSchema; sealed_upcasters : gmap N Upcaster }.

(** The loop over [kind.schemas.keys()]. *)
Fixpoint check_versions (name : string) (current : N) (previous : option N) (versions : list N)
    : result CatalogError unit :=
  match versions with
  | [] => Ok tt
  | version :: versions =>
      fail_if current <? version with SchemaPastCurrent name version current ;;
      _ ← match previous with
          | Some previous =>
              expected ← ok_or (SchemaPastCurrent name version current) (checked_add_u32 previous 1);
              fail_if negb (version =? expected) with SchemaGap name expected ;; Ok tt
          | None => Ok tt
          end;
      check_versions name current (Some version) versions
  end.

(** The loop over the keys below the current version. *)
Fixpoint check_edges (name : string) (current : N) (edges : gmap N Upcaster) (versions : list N)
    : result CatalogError unit :=
  match versions with
  | [] => Ok tt
  | version :: versions =>
      if version <? current then
        edge ← ok_or (MissingUpcaster name version) (edges !! version);
        fail_if negb (to edge =? version + 1) with NonAdjacentUpcast name version (to edge) ;;
        check_edges name current edges versions
      else Ok tt
  end.

Definition past_current (current : N) (p : N * Upcaster) : bool := (current <=? p.1) || (current <? to p.2).

Definition seal_kind (name : string) (kind : KindBuilder) : result CatalogError SealedKind :=
  current ← ok_or (MissingCurrent name) (current kind);
  let c := version current in
  fail_if negb (bool_decide (is_Some (schemas kind !! c))) with MissingSchema name c ;;
  _ ← check_versions name c None (btree_keys N.le (schemas kind));
  _ ← check_edges name c (upcasters kind) (btree_keys N.le (schemas kind));
  match List.find (past_current c) (N_iter (upcasters kind)) with
  | Some (from, _) => Err (UpcastPastCurrent name from c)
  | None => Ok (mkSealed (schemas kind) current (upcasters kind))
  end.

Fixpoint seal_loop (sealed : gmap string SealedKind) (kinds : list (string * KindBuilder))
    : result CatalogError (gmap string SealedKind) :=
  match kinds with
  | [] => Ok sealed
  | (name, kind) :: kinds => k ← seal_kind name kind; seal_loop (<[name := k]> sealed) kinds
  end.

(** The identities [schema_set_digest] binds, in iteration order. *)
Definition schema_entry (p : N * string) : bytes := be_bytes 4 p.1 ++ lp (as_bytes p.2).
Definition edge_identity (p : N * Upcaster) : (N * N) * string := ((p.1, to p.2), step_id p.2).
Definition edge_entry (i : (N * N) * string) : bytes := (be_bytes 4 i.1.1 ++ be_bytes 4 i.1.2) ++ lp (as_bytes i.2).

Definition kind_identity (p : string * SealedKind) : (string * (N * string)) * (list (N * string) * list ((N * N) * string)) :=
  ((p.1, (version (sealed_current p.2), mapping_id (sealed_current p.2))),
   (N_iter (sealed_schemas p.2), map edge_identity (N_iter (sealed_upcasters p.2)))).

Definition kind_entry (i : (string * (N * string)) * (list (N * string) * list ((N * N) * string))) : bytes :=
  (lp (as_bytes i.1.1) ++ be_bytes 4 i.1.2.1 ++ lp (as_bytes i.1.2.2))
    ++ counted schema_entry i.2.1 ++ counted edge_entry i.2.2.

Definition identities (kinds : gmap string SealedKind) := map kind_identity (string_iter kinds).

Definition schema_set_preimage (kinds : gmap string SealedKind) : bytes :=
  SCHEMA_SET_HASH_DOMAIN ++ counted kind_entry (identities kinds).

Definition schema_set_digest (kinds : gmap string SealedKind) : Hash := sha256 (schema_set_preimage kinds).

Record SealedEventCatalog : Type := mkCatalog { kinds : gmap string SealedKind; digest : Hash }.

Definition seal (builder : EventCatalogBuilder) : result CatalogError SealedEventCatalog :=
  fail_if bool_decide (builder = ∅) with EmptyCatalog ;;
  sealed ← seal_loop ∅ (string_iter builder);
  Ok (mkCatalog sealed (schema_set_digest sealed)).

(** ** Decoding *)

Definition supports (c : SealedEventCatalog) (k : string) (v : N) : bool :=
  match kinds c !! k with
  | Some kind => bool_decide (is_Some (sealed_schemas kind !! v))
  | None => false
  end.

(** A run against the closures' state. *)
Abbreviation run A := (option (TransformState * result CatalogError A)).

(** [deterministic] of [register_upcaster]. *)
Definition apply_upcast (k : string) (from : N) (edge : Upcaster) (st : TransformState) (json : CanonicalJson)
    : run CanonicalJson :=
  let once n := run_upcast edge n json in
  match once (calls st) with
  | Err e => Some (mkState (calls st + 1) (observations st), Err e)
  | Ok first =>
      match once (calls st + 1)%nat with
      | Err e => Some (mkState (calls st + 2) (observations st), Err e)
      | Ok second =>
          if negb (bool_decide (first = second))
          then Some (mkState (calls st + 2) (observations st), Err (NondeterministicUpcast k from))
          else
            '(obs, stable) ← accepts (observations st) json first;
            Some (mkState (calls st + 2) obs, if (stable : bool) then Ok first else Err (NondeterministicUpcast k from))
      end
  end.

(** [decoder] of [register_current]. *)
Definition decode_current (k : string) (cur : CurrentSchema) (st : TransformState) (json : CanonicalJson) : run E :=
  let unstable := NondeterministicMapping k (version cur) in
  match run_current cur (calls st) json with
  | Err e => Some (mkState (calls st + 1) (observations st), Err e)
  | Ok first =>
      let fail e := Some (mkState (calls st + 2) (observations st), Err e) in
      match run_current cur (calls st + 1)%nat json with
      | Err e => fail e
      | Ok second =>
          if negb (event_eq first second) then fail unstable else
          match map_err Payload (from_serialize (serialize_event first)) with
          | Err e => fail e
          | Ok first_json =>
              match map_err Payload (from_serialize (serialize_event second)) with
              | Err e => fail e
              | Ok second_json =>
                  if negb (bool_decide (first_json = second_json)) then fail unstable else
                  '(obs, stable) ← accepts (observations st) json first_json;
                  Some (mkState (calls st + 2) obs, if (stable : bool) then Ok first else Err unstable)
              end
          end
      end
  end.

(** The [while] loop of [decode]; the fuel is the number of versions to cross. *)
Fixpoint decode_loop (fuel : nat) (k : string) (kind : SealedKind) (store : Store) (v : N) (json : CanonicalJson)
    : option (Store * result CatalogError CanonicalJson) :=
  if v <? version (sealed_current kind) then
    match fuel with
    | O => None
    | S fuel =>
        match sealed_upcasters kind !! v with
        | None => Some (store, Err (MissingUpcaster k v))
        | Some edge =>
            '(st, r) ← apply_upcast k v edge (state_of store (UpcastSlot k v)) json;
            let store := <[UpcastSlot k v := st]> store in
            match r with
            | Err e => Some (store, Err e)
            | Ok json => decode_loop fuel k kind store (to edge) json
            end
        end
    end
  else Some (store, Ok json).

Definition decode (c : SealedEventCatalog) (store : Store) (event : Event) : option (Store * result CatalogError E) :=
  match kinds c !! kind event with
  | None => Some (store, Err (UnknownKind (kind event)))
  | Some k =>
      let unknown := Some (store, Err (UnknownVersion (kind event) (schema_version event))) in
      if negb (bool_decide (is_Some (sealed_schemas k !! schema_version event))) then unknown else
      if version (sealed_current k) <? schema_version event then unknown else
      let fuel := N.to_nat (version (sealed_current k) - schema_version event) in
      '(store, r) ← decode_loop fuel (kind event) k store (schema_version event) (payload event);
      match r with
      | Err e => Some (store, Err e)
      | Ok json =>
          let s := CurrentSlot (kind event) in
          '(st, r) ← decode_current (kind event) (sealed_current k) (state_of store s) json;
          Some (<[s := st]> store, r)
      end
  end.
End catalog.

(** ** The observation cache *)

Section observations.
Context `{SerdeJson, Sha256}.

(** The queue lists the keys of the map once each, and the map is bounded. *)
Definition obs_ok (obs : TransformObservations) : Prop :=
  NoDup (insertion_order obs) /\ list_to_set (insertion_order obs) = dom (outputs obs)
  /\ N.of_nat (size (outputs obs)) <= MAX_TRANSFORM_OBSERVATIONS.

Lemma obs_size obs : obs_ok obs -> size (outputs obs) = length (insertion_order obs).
Proof. intros (Hnd & Hd & _). by rewrite <-size_dom, <-Hd, size_list_to_set. Qed.

Lemma no_observations_ok : obs_ok no_observations.
Proof. split_and!; [constructor|done|done]. Qed.

Lemma obs_insert obs i o :
  obs_ok obs -> N.of_nat (size (outputs obs)) < MAX_TRANSFORM_OBSERVATIONS -> outputs obs !! i = None ->
  obs_ok (Observations (<[i := o]> (outputs obs)) (insertion_order obs ++ [i])).
Proof.
  intros (Hnd & Hd & _) Hs Hi. assert (i ∉ insertion_order obs) as Hni.
  { rewrite <-(elem_of_list_to_set (C:=gset Hash)), Hd. by apply not_elem_of_dom. }
  split_and!; cbn.
  - apply NoDup_app. split_and!; [done|set_solver|apply NoDup_singleton].
  - rewrite list_to_set_app_L, Hd, dom_insert_L. set_solver.
  - rewrite map_size_insert_None by done. lia.
Qed.

Lemma obs_evict obs oldest rest :
  obs_ok obs -> insertion_order obs = oldest :: rest ->
  obs_ok (Observations (delete oldest (outputs obs)) rest)
  /\ N.of_nat (size (delete oldest (outputs obs))) < MAX_TRANSFORM_OBSERVATIONS.
Proof.
  intros (Hnd & Hd & Hs) Ho. rewrite Ho in *. apply list.NoDup_cons in Hnd as [Hni Hnd].
  assert (is_Some (outputs obs !! oldest)) as [x Hx] by (apply elem_of_dom; rewrite <-Hd; set_solver).
  assert (size (delete oldest (outputs obs)) = pred (size (outputs obs))) as Hsz.
  { rewrite map_size_delete. by rewrite Hx. }
  assert (size (outputs obs) <> 0%nat) as Hnz.
  { intros Hz%map_size_empty_iff. by rewrite Hz, lookup_empty in Hx. }
  split; [|lia]. split_and!; cbn; [done| |lia].
  rewrite dom_delete_L, <-Hd. cbn. set_solver.
Qed.
End observations.

(** ** Sealed graphs *)

Section sealed.
Context `{SerdeJson, Sha256} {E : Type} (event_eq : E -> E -> bool) (serialize_event : E -> serialization).

(** Every admitted version is at most the current one, and each version below it
    has its adjacent edge, into an admitted version. *)
Definition sealed_kind_ok (k : @SealedKind E) : Prop :=
  is_Some (sealed_schemas k !! version (sealed_current k)) /\
  forall v, is_Some (sealed_schemas k !! v) ->
    v <= version (sealed_current k) /\
    (v < version (sealed_current k) ->
       is_Some (sealed_schemas k !! (v + 1)) /\ exists edge, sealed_upcasters k !! v = Some edge /\ to edge = v + 1).

Lemma check_versions_spec name c p vs :
  check_versions name c (Some p) vs = Ok tt ->
  (forall i v, vs !! i = Some v -> v = p + 1 + N.of_nat i) /\ Forall (fun v => v <= c) vs.
Proof.
  revert p. induction vs as [|v vs IH]; intros p Hc; [split; [done|constructor]|].
  cbn [check_versions] in Hc. unfold checked_add_u32 in Hc.
  destruct (N.ltb_spec c v) as [|Hv]; [done|]. destruct (p + 1 <=? u32_max); cbn in Hc; [|done].
  destruct (N.eqb_spec v (p + 1)) as [->|]; cbn in Hc; [|done].
  destruct (IH _ Hc) as [IH1 IH2]. split; [|by constructor].
  intros [|i] v Hi; cbn in Hi; [injection Hi as <-; lia|]. specialize (IH1 i v Hi). lia.
Qed.

(** The versions of a kind that passes are consecutive. *)
Lemma check_versions_consecutive name c vs :
  check_versions name c None vs = Ok tt ->
  Forall (fun v => v <= c) vs /\ exists v0, forall i v, vs !! i = Some v -> v = v0 + N.of_nat i.
Proof.
  destruct vs as [|v vs]; [split; [constructor|by exists 0]|]. cbn [check_versions].
  destruct (N.ltb_spec c v) as [|Hv]; [done|]. cbn. intros [H1 H2]%check_versions_spec.
  split; [by constructor|]. exists v. intros [|i] w Hi; cbn in Hi; [injection Hi as <-; lia|].
  specialize (H1 i w Hi). lia.
Qed.

Lemma check_edges_spec name c (edges : gmap N (@Upcaster)) vs :
  StronglySorted N.le vs -> check_edges name c edges vs = Ok tt ->
  forall v, v ∈ vs -> v < c -> exists edge, edges !! v = Some edge /\ to edge = v + 1.
Proof.
  induction 1 as [|v vs _ IH Hle]; [set_solver|]. cbn [check_edges].
  destruct (N.ltb_spec v c) as [Hv|Hv].
  - rewrite bind_ok. intros (edge & He & Hc). rewrite ok_or_ok in He.
    destruct (N.eqb_spec (to edge) (v + 1)) as [Ht|]; [|done]. cbn in Hc.
    intros w [->|Hw]%elem_of_cons Hwc; [by exists edge|]. by apply IH.
  - intros _ w [->|Hw]%elem_of_cons Hwc; [lia|]. rewrite Forall_forall in Hle. specialize (Hle w Hw). lia.
Qed.

Lemma elem_of_btree_keys {A} (m : gmap N A) k : k ∈ btree_keys N.le m <-> is_Some (m !! k).
Proof.
  unfold btree_keys. rewrite list_elem_of_fmap. split.
  - intros ([k' a] & -> & Hp%elem_of_btree_iter). by exists a.
  - intros [a Ha]. exists (k, a). by rewrite elem_of_btree_iter.
Qed.

Lemma seal_kind_ok name kind k : seal_kind name kind = Ok k -> sealed_kind_ok k.
Proof.
  unfold seal_kind. intros Hs. split_ok. rewrite ok_or_ok in Hr. reflect_guards.
  destruct (List.find _ _) as [[from x]|]; [done|]. injection Hs as <-. unfold sealed_kind_ok. cbn.
  split; [done|]. intros v Hv. pose proof Hv as Hin. rewrite <-elem_of_btree_keys in Hin.
  match goal with H : check_versions _ _ _ _ = _ |- _ => apply check_versions_consecutive in H as [Hle (v0 & Hc)] end.
  match goal with H : check_edges _ _ _ _ = _ |- _ =>
    pose proof (check_edges_spec _ _ _ _ (btree_iter_sorted N.le _) H v Hin) as He end.
  rewrite Forall_forall in Hle. split; [by apply Hle|].
  intros Hlt. split; [|by apply He].
  match goal with H : is_Some (schemas kind !! version _) |- _ => rewrite <-elem_of_btree_keys in H; rename H into Hcur end.
  apply list_elem_of_lookup in Hin as [i Hi], Hcur as [j Hj].
  pose proof (Hc _ _ Hi). pose proof (Hc _ _ Hj).
  rewrite <-elem_of_btree_keys. apply list_elem_of_lookup. exists (S i).
  destruct (lookup_lt_is_Some_2 (btree_keys N.le (schemas kind)) (S i)) as [w Hw].
  { apply lookup_lt_Some in Hj. lia. }
  rewrite Hw. apply Hc in Hw. f_equal. lia.
Qed.

Lemma seal_loop_spec sealed0 l sealed name (k : @SealedKind E) :
  seal_loop sealed0 l = Ok sealed -> sealed !! name = Some k ->
  sealed0 !! name = Some k \/ exists kind, (name, kind) ∈ l /\ seal_kind name kind = Ok k.
Proof.
  revert sealed0. induction l as [|[n kind] l IH]; intros sealed0; cbn [seal_loop].
  - intros [= ->]. by left.
  - intros (k' & Hk & Hl)%bind_ok Hn. destruct (IH _ Hl Hn) as [Hi|(kind' & Hin & Hs)].
    + apply lookup_insert_Some in Hi as [[-> ->]|[_ Hi]]; [|by left].
      right. exists kind. split; [by constructor|done].
    + right. exists kind'. split; [by constructor|done].
Qed.

(** A sealed catalog comes from its builder, and each of its kinds passed. *)
Lemma seal_spec builder (c : @SealedEventCatalog E) :
  seal builder = Ok c ->
  digest c = schema_set_digest (kinds c) /\
  forall name k, kinds c !! name = Some k -> exists kind, builder !! name = Some kind /\ seal_kind name kind = Ok k.
Proof.
  unfold seal. intros Hs. split_ok. subst c. split; [done|]. cbn. intros name k Hk.
  match goal with H : seal_loop _ _ = _ |- _ =>
    destruct (seal_loop_spec _ _ _ _ _ H Hk) as [Hn|(kind & Hin & Hsk)] end; [done|].
  exists kind. by rewrite elem_of_btree_iter in Hin.
Qed.

Definition catalog_ok (c : @SealedEventCatalog E) : Prop :=
  forall name k, kinds c !! name = Some k -> sealed_kind_ok k.

Lemma seal_ok builder (c : @SealedEventCatalog E) : seal builder = Ok c -> catalog_ok c.
Proof. intros [_ Hs]%seal_spec name k Hk. apply Hs in Hk as (kind & _ & Hsk). by eapply seal_kind_ok. Qed.

(** *** Runs do not get stuck *)

Definition store_ok (store : Store) : Prop := forall s, obs_ok (observations (state_of store s)).

Lemma store_ok_empty : store_ok ∅.
Proof. intros s. apply no_observations_ok. Qed.

Lemma state_of_insert store s st s' :
  state_of (<[s := st]> store) s' = if decide (s = s') then st else state_of store s'.
Proof. unfold state_of. destruct (decide (s = s')) as [->|]; [by rewrite lookup_insert_eq|by rewrite lookup_insert_ne]. Qed.

Lemma store_ok_insert store s st : store_ok store -> obs_ok (observations st) -> store_ok (<[s := st]> store).
Proof. intros Hs Hst s'. rewrite state_of_insert. by destruct (decide (s = s')). Qed.

(** The queue of a full cache is not empty: [accepts] never panics. *)
Lemma accepts_total obs i o : obs_ok obs -> exists obs' b, accepts obs i o = Some (obs', b) /\ obs_ok obs'.
Proof.
  intros Hok. unfold accepts. destruct (outputs obs !! _) as [x|] eqn:Hi; [by eexists _, _|].
  destruct (N.eqb_spec (N.of_nat (size (outputs obs))) MAX_TRANSFORM_OBSERVATIONS) as [Hf|Hf].
  - pose proof (obs_size obs Hok) as Hsz. destruct (insertion_order obs) as [|oldest rest] eqn:Ho.
    { exfalso. unfold MAX_TRANSFORM_OBSERVATIONS in Hf. cbn in Hsz. lia. }
    destruct (obs_evict obs oldest rest Hok Ho) as [Hok' Hlt]. eexists _, _. split; [done|].
    apply (obs_insert (Observations _ rest)); [done|done|]. cbn. rewrite lookup_delete_None. by right.
  - eexists _, _. split; [done|]. apply obs_insert; [done| |done]. destruct Hok as (_ & _ & Hs). lia.
Qed.

Lemma apply_upcast_total k from edge st json :
  obs_ok (observations st) ->
  exists st' r, apply_upcast k from edge st json = Some (st', r) /\ obs_ok (observations st')
    /\ ((exists n e, r = Err e /\ run_upcast edge n json = Err e) \/ r = Err (NondeterministicUpcast k from)
        \/ exists j, r = Ok j).
Proof.
  intros Hok. unfold apply_upcast.
  destruct (run_upcast edge (calls st) json) as [first|e] eqn:E1; [|naive_solver].
  destruct (run_upcast edge (calls st + 1)%nat json) as [second|e] eqn:E2; [|naive_solver].
  destruct (bool_decide (first = second)); cbn; [|naive_solver].
  destruct (accepts_total _ json first Hok) as (obs' & b & -> & Hok'). cbn. destruct b; naive_solver.
Qed.

Lemma decode_current_total k cur st json :
  obs_ok (observations st) ->
  exists st' r, decode_current event_eq serialize_event k cur st json = Some (st', r) /\ obs_ok (observations st').
Proof.
  intros Hok. unfold decode_current.
  destruct (run_current cur (calls st) json) as [first|e]; [|naive_solver].
  destruct (run_current cur (calls st + 1)%nat json) as [second|e]; [|naive_solver].
  destruct (event_eq first second); cbn; [|naive_solver].
  destruct (from_serialize (serialize_event first)) as [j1|e]; cbn; [|naive_solver].
  destruct (from_serialize (serialize_event second)) as [j2|e]; cbn; [|naive_solver].
  destruct (bool_decide (j1 = j2)); cbn; [|naive_solver].
  destruct (accepts_total _ json j1 Hok) as (obs' & b & -> & Hok'). cbn. destruct b; naive_solver.
Qed.
End sealed.

(** ** The reference semantics of decoding *)

Section reference.
Context `{SerdeJson, Sha256} {E : Type} (event_eq : E -> E -> bool) (serialize_event : E -> serialization).

(** Apply the adjacent upcasters of [n] versions, then the current mapper. *)
Fixpoint upcast_chain (k : string) (kind : @SealedKind E) (n : nat) (v : N) (json : CanonicalJson)
    : result CatalogError CanonicalJson :=
  match n with
  | O => Ok json
  | S n =>
      edge ← ok_or (MissingUpcaster k v) (sealed_upcasters kind !! v);
      json ← run_upcast edge 0 json;
      upcast_chain k kind n (v + 1) json
  end.

Definition map_current (kind : @SealedKind E) (json : CanonicalJson) : result CatalogError E :=
  event ← run_current (sealed_current kind) 0 json;
  _ ← map_err Payload (from_serialize (serialize_event event));
  Ok event.

Definition reference_decode (c : @SealedEventCatalog E) (event : Event) : result CatalogError E :=
  kind ← ok_or (UnknownKind (Log.kind event)) (kinds c !! Log.kind event);
  _ ← ok_or (UnknownVersion (Log.kind event) (schema_version event)) (sealed_schemas kind !! schema_version event);
  let steps := N.to_nat (version (sealed_current kind) - schema_version event) in
  json ← upcast_chain (Log.kind event) kind steps (schema_version event) (payload event);
  map_current kind json.

(** A closure without hidden state. *)
Definition pure {A} (run : nat -> CanonicalJson -> result CatalogError A) : Prop := forall n json, run n json = run 0%nat json.

Definition pure_kind (kind : @SealedKind E) : Prop :=
  pure (run_current (sealed_current kind))
  /\ forall v edge, sealed_upcasters kind !! v = Some edge -> pure (run_upcast edge).

(** The documents in play: a set closed under the upcasters in which no two
    documents collide. *)
Variable S : CanonicalJson -> Prop.

Definition closed_kind (kind : @SealedKind E) : Prop :=
  forall v edge json out, sealed_upcasters kind !! v = Some edge -> S json -> run_upcast edge 0 json = Ok out -> S out.

Definition no_collision : Prop :=
  forall i j, S i -> S j -> ~ collides (canonical_bytes i) (canonical_bytes j).

(** The observations come from the transform itself. *)
Definition observed (f : CanonicalJson -> result CatalogError CanonicalJson) (obs : TransformObservations) : Prop :=
  obs_ok obs /\ forall h h', outputs obs !! h = Some h' ->
    exists i o, S i /\ f i = Ok o /\ h = sha256 (canonical_bytes i) /\ h' = sha256 (canonical_bytes o).

Definition current_json (kind : @SealedKind E) (json : CanonicalJson) : result CatalogError CanonicalJson :=
  event ← run_current (sealed_current kind) 0 json; map_err Payload (from_serialize (serialize_event event)).

Definition store_observed (c : @SealedEventCatalog E) (store : Store) : Prop :=
  forall k kind, kinds c !! k = Some kind ->
    observed (current_json kind) (observations (state_of store (CurrentSlot k))) /\
    forall v edge, sealed_upcasters kind !! v = Some edge ->
      observed (run_upcast edge 0) (observations (state_of store (UpcastSlot k v))).

Lemma observed_empty f : observed f no_observations.
Proof. split; [apply no_observations_ok|]. intros h h'. cbn. by rewrite lookup_empty. Qed.

Lemma canonical_bytes_inj i j : canonical_bytes i = canonical_bytes j -> i = j.
Proof. destruct i, j. cbn. by intros ->. Qed.

(** An output the transform gave before is accepted again. *)
Lemma accepts_observed f obs i o :
  no_collision -> observed f obs -> S i -> f i = Ok o ->
  exists obs', accepts obs i o = Some (obs', true) /\ observed f obs'.
Proof.
  intros Hnc [Hok Hobs] Hi Hf. destruct (accepts_total obs i o Hok) as (obs' & b & Ha & Hok'). revert Ha.
  unfold accepts. destruct (outputs obs !! sha256 (canonical_bytes i)) as [x|] eqn:Hx.
  - destruct (Hobs _ _ Hx) as (j & o' & Hj & Hfj & Hs & ->).
    assert (i = j) as <-.
    { apply canonical_bytes_inj. destruct (decide (canonical_bytes i = canonical_bytes j)) as [|Hne]; [done|].
      by destruct (Hnc i j Hi Hj). }
    assert (o = o') as <- by congruence. rewrite bool_decide_eq_true_2 by done. by exists obs.
  - intros Ha. rewrite Ha. apply bind_Some in Ha as (obs1 & H1 & [= <- <-]). eexists. split; [done|].
    split; [done|]. cbn. intros h h' [[<- <-]|[_ Hh]]%lookup_insert_Some; [by exists i, o|].
    apply Hobs. destruct (_ =? _); [|by injection H1 as <-].
    destruct (insertion_order obs) as [|oldest rest]; [done|]. injection H1 as <-. cbn in Hh.
    by apply lookup_delete_Some in Hh as [_ Hh].
Qed.

Lemma apply_upcast_pure k from (edge : Upcaster) st json :
  no_collision -> pure (run_upcast edge) -> observed (run_upcast edge 0) (observations st) -> S json ->
  exists st', apply_upcast k from edge st json = Some (st', run_upcast edge 0 json)
    /\ observed (run_upcast edge 0) (observations st').
Proof.
  intros Hnc Hp Hobs Hj. unfold apply_upcast. rewrite (Hp (calls st)), (Hp (calls st + 1)%nat).
  destruct (run_upcast edge 0 json) as [out|e] eqn:E1; [|by eexists].
  rewrite bool_decide_eq_true_2 by done. cbn.
  destruct (accepts_observed _ _ _ _ Hnc Hobs Hj E1) as (obs' & -> & Hobs'). by eexists.
Qed.

Lemma decode_current_pure k kind st json :
  no_collision -> (forall e, event_eq e e = true) -> pure (run_current (sealed_current kind)) ->
  observed (current_json kind) (observations st) -> S json ->
  exists st', decode_current event_eq serialize_event k (sealed_current kind) st json = Some (st', map_current kind json)
    /\ observed (current_json kind) (observations st').
Proof.
  intros Hnc Heq Hp Hobs Hj. unfold decode_current, map_current.
  rewrite (Hp (calls st)), (Hp (calls st + 1)%nat).
  destruct (run_current (sealed_current kind) 0 json) as [event|e] eqn:E1; [|by eexists].
  rewrite Heq. cbn. destruct (from_serialize (serialize_event event)) as [j|e] eqn:E2; cbn; [|by eexists].
  rewrite bool_decide_eq_true_2 by done. cbn.
  assert (current_json kind json = Ok j) as E3 by (unfold current_json; rewrite E1; cbn; by rewrite E2).
  destruct (accepts_observed _ _ _ _ Hnc Hobs Hj E3) as (obs' & -> & Hobs'). by eexists.
Qed.
End reference.

Section decoding.
Context `{SerdeJson, Sha256} {E : Type} (event_eq : E -> E -> bool) (serialize_event : E -> serialization).

Lemma store_observed_insert S (c : @SealedEventCatalog E) store s st :
  store_observed serialize_event S c store ->
  (forall k kind, kinds c !! k = Some kind -> s = CurrentSlot k ->
     observed S (current_json serialize_event kind) (observations st)) ->
  (forall k kind v edge, kinds c !! k = Some kind -> sealed_upcasters kind !! v = Some edge -> s = UpcastSlot k v ->
     observed S (run_upcast edge 0) (observations st)) ->
  store_observed serialize_event S c (<[s := st]> store).
Proof.
  intros Hs Hcur Hup k kind Hk. destruct (Hs k kind Hk) as [H1 H2]. split.
  - rewrite state_of_insert. destruct (decide (s = CurrentSlot k)); [by eapply Hcur|done].
  - intros v edge He. rewrite state_of_insert. destruct (decide (s = UpcastSlot k v)); [by eapply Hup|by apply H2].
Qed.

Lemma decode_loop_pure S (c : @SealedEventCatalog E) k kind :
  no_collision S -> kinds c !! k = Some kind -> sealed_kind_ok kind -> pure_kind kind -> closed_kind S kind ->
  forall n v store json,
    is_Some (sealed_schemas kind !! v) -> version (sealed_current kind) = v + N.of_nat n -> S json ->
    store_observed serialize_event S c store ->
    exists store', decode_loop n k kind store v json = Some (store', upcast_chain k kind n v json)
      /\ store_observed serialize_event S c store' /\ (forall j, upcast_chain k kind n v json = Ok j -> S j).
Proof.
  intros Hnc Hk Hok [_ Hpure] Hcl. induction n as [|n IH]; intros v store json Hv Hn Hj Hs; cbn [decode_loop upcast_chain].
  - rewrite (proj2 (N.ltb_ge _ _)) by lia. exists store. split_and!; [done..|]. by intros j [= <-].
  - rewrite (proj2 (N.ltb_lt _ _)) by lia.
    destruct (proj2 Hok v Hv) as [_ Hedge]. destruct Hedge as [Hv' (edge & He & Ht)]; [lia|]. rewrite He. cbn.
    destruct (apply_upcast_pure S k v edge (state_of store (UpcastSlot k v)) json) as (st' & Ha & Hst'); try done.
    { by eapply Hpure. }
    { by apply (Hs k kind Hk). }
    rewrite Ha. cbn.
    assert (store_observed serialize_event S c (<[UpcastSlot k v := st']> store)) as Hs'.
    { apply store_observed_insert; [done|done|]. intros k' kind' v' edge' Hk' He' [= -> ->]. congruence. }
    destruct (run_upcast edge 0 json) as [out|e] eqn:Eo; cbn; [|by eexists].
    rewrite Ht. apply IH; [done|lia| |done]. by eapply Hcl.
Qed.

Lemma decode_loop_total k (kind : @SealedKind E) :
  sealed_kind_ok kind ->
  forall n v store json,
    is_Some (sealed_schemas kind !! v) -> version (sealed_current kind) = v + N.of_nat n -> store_ok store ->
    exists store' r, decode_loop n k kind store v json = Some (store', r) /\ store_ok store'
      /\ (forall e, r = Err e ->
            (exists v' edge i j, sealed_upcasters kind !! v' = Some edge /\ run_upcast edge i j = Err e)
            \/ exists v', e = NondeterministicUpcast k v').
Proof.
  intros Hok. induction n as [|n IH]; intros v store json Hv Hn Hs; cbn [decode_loop].
  - rewrite (proj2 (N.ltb_ge _ _)) by lia. by eexists _, _.
  - rewrite (proj2 (N.ltb_lt _ _)) by lia.
    destruct (proj2 Hok v Hv) as [_ Hedge]. destruct Hedge as [Hv' (edge & He & Ht)]; [lia|]. rewrite He.
    destruct (apply_upcast_total k v edge (state_of store (UpcastSlot k v)) json (Hs _))
      as (st' & r & -> & Hst' & Hr). cbn.
    assert (store_ok (<[UpcastSlot k v := st']> store)) as Hs' by by apply store_ok_insert.
    destruct r as [out|e].
    + rewrite Ht. apply IH; [done|lia|done].
    + eexists _, _. split_and!; [done|done|]. intros e' [= <-].
      destruct Hr as [(i & e' & [= ->] & Hr)|[[= ->]|(? & ?)]]; [|by right; eexists|done].
      left. by exists v, edge, i, json.
Qed.
End decoding.

(** ** The builder *)

Section builder.
Context `{SerdeJson, Sha256} {E : Type}.

(** What registrations maintain, even failing ones. *)
Definition kind_ok (k : @KindBuilder E) : Prop :=
  (forall v id, schemas k !! v = Some id -> 1 <= v <= MAX_SCHEMA_VERSION /\ validate_contract_id id = Ok tt) /\
  N.of_nat (size (schemas k)) <= MAX_SCHEMAS_PER_KIND /\
  (forall c, current k = Some c -> is_Some (schemas k !! version c) /\ validate_contract_id (mapping_id c) = Ok tt) /\
  (forall v u, upcasters k !! v = Some u ->
     to u = v + 1 /\ is_Some (schemas k !! v) /\ is_Some (schemas k !! to u) /\ validate_contract_id (step_id u) = Ok tt) /\
  N.of_nat (size (upcasters k)) <= MAX_SCHEMAS_PER_KIND.

Definition builder_ok (b : gmap string (@KindBuilder E)) : Prop :=
  N.of_nat (size b) <= MAX_CATALOG_KINDS /\
  forall name k, b !! name = Some k -> validate_kind name = Ok tt /\ kind_ok k.

Lemma empty_kind_ok : kind_ok empty_kind.
Proof. split_and!; [intros ? ?|done|done|intros ? ?|done]; cbn; by rewrite lookup_empty. Qed.

Lemma builder_ok_empty : builder_ok ∅.
Proof. split; [done|]. intros ? ?. by rewrite lookup_empty. Qed.

Lemma entry_ok b k : builder_ok b -> kind_ok (entry b k).
Proof. intros [_ Hb]. unfold entry. destruct (b !! k) as [kb|] eqn:Ek; [by apply (Hb k kb)|apply empty_kind_ok]. Qed.

Lemma builder_ok_put b k kind :
  builder_ok b -> no_room b k = false -> validate_kind k = Ok tt -> kind_ok kind -> builder_ok (<[k := kind]> b).
Proof.
  intros [Hs Hb] Hr Hk Hok. split.
  - unfold no_room in Hr. destruct (b !! k) as [x|] eqn:Ek.
    + rewrite map_size_insert_Some; [done|by eexists].
    + cbn in Hr. apply N.leb_gt in Hr. rewrite map_size_insert_None by done. lia.
  - intros name k' [[<- <-]|[_ Hn]]%lookup_insert_Some; [done|by apply Hb].
Qed.

Lemma validate_schema_ok s :
  validate_schema s = Ok tt <->
  validate_kind (KIND s) = Ok tt /\ 1 <= VERSION s <= MAX_SCHEMA_VERSION /\ validate_contract_id (SCHEMA_ID s) = Ok tt.
Proof.
  unfold validate_schema, version_in_range. rewrite bind_ok. split.
  - intros ([] & Hk & Hr). rewrite map_err_ok in Hk. destruct (_ && _) eqn:Ev; [|done]. cbn in Hr.
    rewrite map_err_ok in Hr. reflect_guards. done.
  - intros (-> & [H1%N.leb_le H2%N.leb_le] & Hid). exists tt. rewrite H1, H2, Hid. done.
Qed.

Lemma register_schema_ok kind s kind' r :
  kind_ok kind -> validate_schema s = Ok tt -> register_schema kind s = (kind', r) ->
  kind_ok kind' /\ current kind' = current kind /\ upcasters kind' = upcasters kind
  /\ (r = Ok tt -> schemas kind' !! VERSION s = Some (SCHEMA_ID s))
  /\ (forall v, is_Some (schemas kind !! v) -> is_Some (schemas kind' !! v)).
Proof.
  intros (H1 & H2 & H3 & H4 & H5) (_ & Hv & Hid)%validate_schema_ok. unfold register_schema.
  destruct (schemas kind !! VERSION s) as [existing|] eqn:Es.
  { destruct (String.eqb_spec existing (SCHEMA_ID s)) as [->|]; intros [= <- <-]; done. }
  destruct (N.leb_spec MAX_SCHEMAS_PER_KIND (N.of_nat (size (schemas kind)))) as [|Hsz]; intros [= <- <-]; [done|].
  assert (forall v, is_Some (schemas kind !! v) -> is_Some (<[VERSION s:=SCHEMA_ID s]> (schemas kind) !! v)) as Hmono.
  { intros v Hs. apply lookup_insert_is_Some'. by right. }
  cbn. split_and!; try done; [|by intros _; apply lookup_insert_eq]. split_and!; cbn.
  - intros v id [[<- <-]|[_ Hs]]%lookup_insert_Some; [done|by apply H1].
  - rewrite map_size_insert_None by done. lia.
  - intros c Hc. destruct (H3 c Hc). auto.
  - intros v u Hu. destruct (H4 v u Hu) as (? & ? & ? & ?). auto.
  - done.
Qed.
End builder.

Section builder_steps.
Context `{SerdeJson, Sha256} {E : Type}.

Lemma register_current_ok (b : gmap string (@KindBuilder E)) s mapping run :
  builder_ok b -> builder_ok (register_current b s mapping run).1.
Proof.
  intros Hb. unfold register_current.
  destruct (map_err InvalidSchema (validate_schema s)) as [[]|] eqn:Es; [|done]. rewrite map_err_ok in Es.
  destruct (map_err InvalidMappingId _) as [[]|] eqn:Em; [|done]. rewrite map_err_ok in Em.
  destruct (no_room b (KIND s)) eqn:En; [done|].
  pose proof (entry_ok b (KIND s) Hb) as He. pose proof (proj1 (proj1 (validate_schema_ok s) Es)) as Hk.
  destruct (register_schema (entry b (KIND s)) s) as [kind r] eqn:Er.
  destruct (register_schema_ok _ _ _ _ He Es Er) as (Hok & _ & _ & Hs & _).
  destruct r as [[]|]; cbn; [|by apply builder_ok_put]. specialize (Hs eq_refl).
  destruct (current kind) as [c|] eqn:Ec; cbn; [by apply builder_ok_put|].
  apply builder_ok_put; [done..|]. destruct Hok as (H1 & H2 & _ & H4 & H5). split_and!; cbn; try done.
  intros c [= <-]. cbn. rewrite Hs. by split.
Qed.

Lemma insert_upcaster_ok (k : @KindBuilder E) v u :
  kind_ok k -> to u = v + 1 -> is_Some (schemas k !! v) -> is_Some (schemas k !! to u) ->
  validate_contract_id (step_id u) = Ok tt -> upcasters k !! v = None ->
  N.of_nat (size (upcasters k)) < MAX_SCHEMAS_PER_KIND - 1 ->
  kind_ok (mkKind (schemas k) (current k) (<[v := u]> (upcasters k))).
Proof.
  intros (H1 & H2 & H3 & H4 & H5) Ht Hv Hv' Hid Hn Hlt. split_and!; cbn; try done.
  - intros v' u' [[<- <-]|[_ Hu]]%lookup_insert_Some; [done|by apply H4].
  - rewrite map_size_insert_None by done. lia.
Qed.

Lemma register_upcaster_ok (b : gmap string (@KindBuilder E)) from to_ step run :
  builder_ok b -> builder_ok (register_upcaster b from to_ step run).1.
Proof.
  intros Hb. unfold register_upcaster.
  destruct (map_err InvalidSchema (validate_schema from)) as [[]|] eqn:Ef; [|done]. rewrite map_err_ok in Ef.
  destruct (map_err InvalidSchema (validate_schema to_)) as [[]|] eqn:Et; [|done]. rewrite map_err_ok in Et.
  destruct (negb _); [done|]. destruct (bool_decide_reflect (checked_add_u32 (VERSION from) 1 = Some (VERSION to_))) as [Hadj|];
    [|done]. cbn [negb].
  destruct (map_err InvalidStepId _) as [[]|] eqn:Em; [|done]. rewrite map_err_ok in Em.
  destruct (no_room b (KIND from)) eqn:En; [done|].
  pose proof (entry_ok b (KIND from) Hb) as He. pose proof (proj1 (proj1 (validate_schema_ok _) Ef)) as Hk.
  destruct (register_schema (entry b (KIND from)) from) as [k1 r1] eqn:E1.
  destruct (register_schema_ok _ _ _ _ He Ef E1) as (Hok1 & _ & _ & Hs1 & _).
  destruct r1 as [[]|]; cbn; [|by apply builder_ok_put]. specialize (Hs1 eq_refl).
  destruct (register_schema k1 to_) as [k2 r2] eqn:E2.
  destruct (register_schema_ok _ _ _ _ Hok1 Et E2) as (Hok2 & _ & _ & Hs2 & Hmono).
  destruct r2 as [[]|]; cbn; [|by apply builder_ok_put]. specialize (Hs2 eq_refl).
  destruct (bool_decide_reflect (is_Some (upcasters k2 !! VERSION from))) as [|Hnone]; cbn; [by apply builder_ok_put|].
  destruct (N.leb_spec (MAX_SCHEMAS_PER_KIND - 1) (N.of_nat (size (upcasters k2)))) as [|Hlt]; cbn [fst];
    [by apply builder_ok_put|].
  apply builder_ok_put; [done..|]. unfold checked_add_u32 in Hadj. destruct (_ <=? _); [|done]. injection Hadj as Hadj.
  apply insert_upcaster_ok; cbn; [done|done|apply Hmono; by eexists|by eexists|done| |done].
  by apply eq_None_not_Some.
Qed.

(** The builders a program can hold: registrations in any order, failed ones
    included. *)
Inductive built : gmap string (@KindBuilder E) -> Prop :=
| built_new : built ∅
| built_current b s mapping run : built b -> built (register_current b s mapping run).1
| built_upcaster b from to_ step run : built b -> built (register_upcaster b from to_ step run).1.

Lemma built_ok b : built b -> builder_ok b.
Proof. induction 1; [apply builder_ok_empty|by apply register_current_ok|by apply register_upcaster_ok]. Qed.

(** *** The schema-set preimage *)

Definition string_fits (s : string) : Prop := slen s <= u64_max.

Definition identity_fits (i : (string * (N * string)) * (list (N * string) * list ((N * N) * string))) : Prop :=
  (string_fits i.1.1 /\ (i.1.2.1 <= u32_max /\ string_fits i.1.2.2)) /\
  (blen i.2.1 <= u64_max /\ Forall (fun p => p.1 <= u32_max /\ string_fits p.2) i.2.1) /\
  (blen i.2.2 <= u64_max /\ Forall (fun p => (p.1.1 <= u32_max /\ p.1.2 <= u32_max) /\ string_fits p.2) i.2.2).

Definition schema_fits (p : N * string) : Prop := p.1 <= u32_max /\ string_fits p.2.
Definition versions_fit (q : N * N) : Prop := q.1 <= u32_max /\ q.2 <= u32_max.
Definition edge_fits (p : (N * N) * string) : Prop := versions_fit p.1 /\ string_fits p.2.

Lemma schema_entry_delimiting : self_delimiting schema_fits schema_entry.
Proof.
  apply (pair_delimiting (fun x => x <= u32_max) string_fits (be_bytes 4) (fun s => lp (as_bytes s)));
    auto with pliego.
Qed.

Lemma edge_entry_delimiting : self_delimiting edge_fits edge_entry.
Proof.
  apply (pair_delimiting versions_fit string_fits (fun q => be_bytes 4 q.1 ++ be_bytes 4 q.2)
           (fun s => lp (as_bytes s))); [|auto with pliego].
  apply (pair_delimiting (fun x => x <= u32_max) (fun x => x <= u32_max) (be_bytes 4) (be_bytes 4));
    auto with pliego.
Qed.

Lemma kind_entry_delimiting : self_delimiting identity_fits kind_entry.
Proof.
  apply (pair_delimiting
           (fun x : string * (N * string) => string_fits x.1 /\ schema_fits x.2)
           (fun y => (blen y.1 <= u64_max /\ Forall schema_fits y.1) /\ (blen y.2 <= u64_max /\ Forall edge_fits y.2))
           (fun x => lp (as_bytes x.1) ++ schema_entry x.2)
           (fun y => counted schema_entry y.1 ++ counted edge_entry y.2)).
  - apply (pair_delimiting string_fits schema_fits (fun s => lp (as_bytes s)) schema_entry);
      [auto with pliego|apply schema_entry_delimiting].
  - apply (pair_delimiting (fun xs => blen xs <= u64_max /\ Forall schema_fits xs)
             (fun xs => blen xs <= u64_max /\ Forall edge_fits xs) (counted schema_entry) (counted edge_entry)).
    + apply counted_delimiting, schema_entry_delimiting.
    + apply counted_delimiting, edge_entry_delimiting.
Qed.

Lemma contract_id_fits id : validate_contract_id id = Ok tt -> string_fits id.
Proof.
  unfold validate_contract_id, string_fits, MAX_CONTRACT_ID_BYTES, u64_max. intros Hid. split_ok. reflect_guards. lia.
Qed.

Lemma kind_fits name : validate_kind name = Ok tt -> string_fits name.
Proof. unfold string_fits, u64_max. intros [Hl _]%validate_kind_ok. unfold MAX_KIND_BYTES in Hl. lia. Qed.

Lemma seal_kind_fields name (kind : @KindBuilder E) k :
  seal_kind name kind = Ok k ->
  sealed_schemas k = schemas kind /\ sealed_upcasters k = upcasters kind /\ current kind = Some (sealed_current k).
Proof.
  unfold seal_kind. intros Hs. split_ok. rewrite ok_or_ok in Hr.
  destruct (List.find _ _) as [[from x]|]; [done|]. by injection Hs as <-.
Qed.

Lemma identity_fits_ok name (kind : @KindBuilder E) k :
  validate_kind name = Ok tt -> kind_ok kind -> seal_kind name kind = Ok k -> identity_fits (kind_identity (name, k)).
Proof.
  intros Hn (H1 & H2 & H3 & H4 & H5) (Es & Eu & Ec)%seal_kind_fields. destruct (H3 _ Ec) as [[id Hc] Hm].
  apply H1 in Hc as [Hc _]. unfold MAX_SCHEMA_VERSION, MAX_SCHEMAS_PER_KIND in *.
  unfold identity_fits, kind_identity. cbn [fst snd]. rewrite Es, Eu. split_and!.
  - by apply kind_fits.
  - unfold u32_max. lia.
  - by apply contract_id_fits.
  - unfold blen, u64_max. rewrite length_btree_iter. lia.
  - apply Forall_forall. intros [v s] Hin%elem_of_btree_iter. destruct (H1 v s Hin) as [Hv Hs].
    cbn. split; [unfold u32_max; lia|by apply contract_id_fits].
  - unfold blen, u64_max. rewrite length_map, length_btree_iter. lia.
  - apply Forall_forall. intros i Hi. apply list_elem_of_fmap in Hi as ([v u] & -> & Hin%elem_of_btree_iter).
    destruct (H4 v u Hin) as (Ht & [s1 Hs1] & [s2 Hs2] & Hid). apply H1 in Hs1 as [Hv1 _], Hs2 as [Hv2 _].
    cbn. unfold u32_max. split_and!; [lia|lia|by apply contract_id_fits].
Qed.

Lemma identities_bounded b (c : @SealedEventCatalog E) :
  builder_ok b -> seal b = Ok c -> blen (identities (kinds c)) <= u64_max.
Proof.
  intros [Hs _] [_ Hc]%seal_spec. unfold identities, blen. rewrite length_map, length_btree_iter.
  assert (size (kinds c) <= size b)%nat as Hle.
  { rewrite <-!size_dom. apply subseteq_size. intros n [k Hk]%elem_of_dom. apply Hc in Hk as (kb & Hb & _).
    apply elem_of_dom. by eexists. }
  unfold MAX_CATALOG_KINDS, u64_max in *. lia.
Qed.

Lemma identities_fit b (c : @SealedEventCatalog E) :
  builder_ok b -> seal b = Ok c -> Forall identity_fits (identities (kinds c)).
Proof.
  intros [_ Hb] [_ Hc]%seal_spec. apply Forall_forall. intros i Hi. unfold identities in Hi.
  apply list_elem_of_fmap in Hi as ([n k] & -> & Hin%elem_of_btree_iter). destruct (Hc n k Hin) as (kb & Hk & Hs).
  destruct (Hb n kb Hk) as [Hn Hok]. by eapply identity_fits_ok.
Qed.
End builder_steps.

(** ** Properties *)

(** The observation cache is a first-in first-out memory of the last 256
    distinct inputs: [accepts] always returns (the [expect] on the queue cannot
    fail), compares a remembered input with its recorded output digest without
    changing the cache, and otherwise records the pair, forgetting at most the
    oldest input. *)
Theorem accepts_fifo `{Sha256} obs input output :
  obs_ok obs ->
  let i := sha256 (canonical_bytes input) in
  let o := sha256 (canonical_bytes output) in
  exists obs' b, accepts obs input output = Some (obs', b) /\ obs_ok obs' /\
    match outputs obs !! i with
    | Some expected => obs' = obs /\ (b = true <-> expected = o)
    | None =>
        b = true /\ outputs obs' !! i = Some o /\
        insertion_order obs'
        = drop (length (insertion_order obs) + 1 - N.to_nat MAX_TRANSFORM_OBSERVATIONS) (insertion_order obs ++ [i])
        /\ forall h, h <> i -> outputs obs' !! h = if decide (h ∈ insertion_order obs') then outputs obs !! h else None
    end.
Proof.
  intros Hok i o. destruct (accepts_total obs input output Hok) as (obs' & b & Ha & Hok').
  exists obs', b. split_and!; [done..|]. unfold accepts in Ha. fold i o in Ha.
  destruct (outputs obs !! i) as [x|] eqn:Hi; [injection Ha as <- <-; by rewrite bool_decide_eq_true|].
  apply bind_Some in Ha as (obs1 & H1 & [= <- <-]). cbn. rewrite lookup_insert_eq. split_and!; [done..| |].
  - pose proof (obs_size obs Hok) as Hsz. destruct Hok as (_ & _ & Hle).
    destruct (N.eqb_spec (N.of_nat (size (outputs obs))) MAX_TRANSFORM_OBSERVATIONS) as [Hf|Hf].
    + destruct (insertion_order obs) as [|oldest rest] eqn:Ho; [done|]. injection H1 as <-. cbn [insertion_order].
      replace (length (oldest :: rest) + 1 - _)%nat with 1%nat by (cbn in *; lia). done.
    + injection H1 as <-. by replace (length (insertion_order obs) + 1 - _)%nat with 0%nat by lia.
  - intros h Hh. rewrite lookup_insert_ne by done.
    assert (forall h, h ∈ insertion_order obs <-> is_Some (outputs obs !! h)) as Hdom.
    { intros h'. destruct Hok as (_ & Hd & _). by rewrite <-elem_of_dom, <-Hd, elem_of_list_to_set. }
    destruct (_ =? _); [|injection H1 as <-; cbn].
    + destruct (insertion_order obs) as [|oldest rest] eqn:Ho; [done|]. injection H1 as <-. cbn.
      assert (NoDup (oldest :: rest)) as [Hni _]%list.NoDup_cons by (rewrite <-Ho; apply Hok).
      specialize (Hdom h). rewrite elem_of_cons in Hdom.
      destruct (decide (h = oldest)) as [->|Hne].
      * rewrite lookup_delete_eq. case_decide as Hd; [|done].
        apply elem_of_app in Hd as [Hd|Hd%list_elem_of_singleton]; done.
      * rewrite lookup_delete_ne by done. case_decide as Hd; [done|].
        apply eq_None_not_Some. rewrite <-Hdom. rewrite elem_of_app in Hd. tauto.
    + case_decide as Hd; [done|]. apply eq_None_not_Some. rewrite <-Hdom. rewrite elem_of_app in Hd. tauto.
Qed.

(** Decoding through a sealed catalog terminates without panicking, whatever
    the application closures do: the fuel (the versions to cross) is enough, the
    observation caches stay within their bound, and the error [MissingUpcaster]
    can only come out of a closure. *)
Theorem decode_total `{SerdeJson, Sha256} {E} (event_eq : E -> E -> bool) serialize_event
    (builder : gmap string (@KindBuilder E)) c store event :
  seal builder = Ok c -> store_ok store ->
  exists store' r, decode event_eq serialize_event c store event = Some (store', r) /\ store_ok store' /\
    forall kind v, kinds c !! Log.kind event = Some kind -> r = Err (MissingUpcaster (Log.kind event) v) ->
      (exists w edge i j, sealed_upcasters kind !! w = Some edge
                          /\ run_upcast edge i j = Err (MissingUpcaster (Log.kind event) v))
      \/ exists i j, run_current (sealed_current kind) i j = Err (MissingUpcaster (Log.kind event) v).
Proof.
  intros Hseal Hs. unfold decode. destruct (kinds c !! Log.kind event) as [k|] eqn:Ek; [|by eexists _, _].
  pose proof (seal_ok _ _ Hseal _ _ Ek) as Hok.
  destruct (bool_decide_reflect (is_Some (sealed_schemas k !! schema_version event))) as [Hv|]; cbn [negb];
    [|eexists _, _; split_and!; [done..|intros; done]].
  pose proof (proj1 (proj2 Hok _ Hv)) as Hle. rewrite (proj2 (N.ltb_ge _ _)) by done.
  destruct (decode_loop_total (Log.kind event) k Hok (N.to_nat (version (sealed_current k) - schema_version event))
              (schema_version event) store (payload event)) as (store1 & r1 & -> & Hs1 & Hr1); [done|lia|done|].
  cbn. destruct r1 as [json|e].
  2:{ eexists _, _. split_and!; [done..|]. intros k' v [= <-] [= ->]. left.
      destruct (Hr1 _ eq_refl) as [(w & edge & i & j & ? & ?)|(w & ?)]; [|done]. by exists w, edge, i, j. }
  destruct (decode_current_total event_eq serialize_event (Log.kind event) (sealed_current k)
              (state_of store1 (CurrentSlot (Log.kind event))) json (Hs1 _)) as (st & r & Hd & Hst).
  rewrite Hd. cbn. eexists _, _. split_and!; [done|by apply store_ok_insert|].
  intros k' v [= <-] ->. right. revert Hd. unfold decode_current.
  repeat match goal with
  | |- context [match run_current ?c ?n ?j with _ => _ end] => destruct (run_current c n j) eqn:?
  | |- context [match map_err _ ?r with _ => _ end] => destruct r; cbn [map_err]
  | |- context [negb ?b] => destruct b; cbn [negb]
  end; try (intros [=]; subst; eauto; fail).
  destruct (accepts _ _ _) as [[? []]|]; intros [=].
Qed.

(** C17. Pure transforms are never rejected: when the application closures have no
    hidden state, [decode] of a sealed catalog returns the composition of the
    adjacent upcasters and the current mapper, in every store those closures can
    have produced; the tripwire errors do not occur (on documents of which no two
    have the same SHA-256 digest). *)
Theorem pure_decode `{SerdeJson, Sha256} {E} (event_eq : E -> E -> bool) serialize_event
    (builder : gmap string (@KindBuilder E)) c (S : CanonicalJson -> Prop) store event :
  seal builder = Ok c -> no_collision S -> (forall e, event_eq e e = true) ->
  (forall name kind, kinds c !! name = Some kind -> pure_kind kind /\ closed_kind S kind) ->
  S (payload event) -> store_observed serialize_event S c store ->
  exists store', decode event_eq serialize_event c store event
                 = Some (store', reference_decode serialize_event c event)
    /\ store_observed serialize_event S c store'.
Proof.
  intros Hseal Hnc Heq Hpure Hj Hs. unfold decode, reference_decode.
  destruct (kinds c !! Log.kind event) as [k|] eqn:Ek; cbn [ok_or mbind result_bind]; [|by eexists].
  pose proof (seal_ok _ _ Hseal _ _ Ek) as Hok. destruct (Hpure _ _ Ek) as [Hp Hcl].
  destruct (sealed_schemas k !! schema_version event) as [id|] eqn:Ev; cbn [ok_or mbind result_bind]; [|by eexists].
  assert (is_Some (sealed_schemas k !! schema_version event)) as Hv by by eexists.
  rewrite (bool_decide_eq_true_2 (is_Some (Some id))) by by eexists. cbn [negb].
  pose proof (proj1 (proj2 Hok _ Hv)) as Hle. rewrite (proj2 (N.ltb_ge _ _)) by done.
  destruct (decode_loop_pure serialize_event S c _ k Hnc Ek Hok Hp Hcl
              (N.to_nat (version (sealed_current k) - schema_version event)) (schema_version event) store (payload event))
    as (store1 & -> & Hs1 & HS); [done|lia|done|done|].
  cbn [mbind option_bind]. destruct (upcast_chain _ _ _ _ _) as [json|e]; [|by eexists]. cbn [mbind result_bind].
  destruct (decode_current_pure event_eq serialize_event S (Log.kind event) k
              (state_of store1 (CurrentSlot (Log.kind event))) json) as (st & -> & Hst); try done.
  { apply Hp. }
  { by apply (Hs1 _ _ Ek). }
  { by apply HS. }
  cbn. eexists. split; [done|]. apply store_observed_insert; [done| |done].
  intros k' kind' Hk' [= <-]. congruence.
Qed.

(** The schema-set digest identifies the sealed graph: two catalogs a program
    can build and seal that have one digest have the same kinds, schema versions
    and identifiers, current mappers and upcaster edges, unless their preimages
    are an explicit SHA-256 collision. *)
Theorem schema_set_digest_binds `{Sha256} {E} (b1 b2 : gmap string (@KindBuilder E)) c1 c2 :
  built b1 -> built b2 -> seal b1 = Ok c1 -> seal b2 = Ok c2 -> digest c1 = digest c2 ->
  identities (kinds c1) = identities (kinds c2)
  \/ collides (schema_set_preimage (kinds c1)) (schema_set_preimage (kinds c2)).
Proof.
  intros B1 B2 S1 S2. rewrite (proj1 (seal_spec _ _ S1)), (proj1 (seal_spec _ _ S2)). unfold schema_set_digest. intros Hd.
  destruct (decide (schema_set_preimage (kinds c1) = schema_set_preimage (kinds c2))) as [He|]; [left|by right].
  unfold schema_set_preimage in He. apply app_inv_head in He.
  apply (self_delimiting_inj _ (counted kind_entry) _ _ (counted_delimiting _ _ kind_entry_delimiting)); [| |exact He].
  - apply built_ok in B1. split; [by eapply identities_bounded|by eapply identities_fit].
  - apply built_ok in B2. split; [by eapply identities_bounded|by eapply identities_fit].
Qed.

(** Whatever registrations are made, in any order and including failed ones,
    the builder keeps every bound and identity rule: at most 1024 kinds with valid
    names, versions between 1 and 4096, valid identifiers, a registered schema for
    the current mapper, and only adjacent edges between registered schemas. *)
Theorem builder_invariant {E} (b : gmap string (@KindBuilder E)) : built b -> builder_ok b.
Proof. apply built_ok. Qed.

(** ** Witnesses *)

Module CatalogSample.
#[local] Existing Instance toy_sha256.
#[local] Existing Instance Sample.sample_json.

Definition note1 : EventSchema := mkSchema "app_note" 1 "note/v1".
Definition note2 : EventSchema := mkSchema "app_note" 2 "note/v2".
Definition null : CanonicalJson := Canonical (as_bytes "null").
Definition object : CanonicalJson := Canonical (Sample.obj []).

(** The upcaster sends every version 1 payload to the empty object. *)
Definition upcast (n : nat) (json : CanonicalJson) : result CatalogError CanonicalJson := Ok object.
Definition current (n : nat) (json : CanonicalJson) : result CatalogError bool := Ok (bool_decide (json = object)).

Definition builder : gmap string (@KindBuilder bool) :=
  (register_current (register_upcaster ∅ note1 note2 "note-1-2" upcast).1 note2 "note-map" current).1.

Definition sealed_note : @SealedKind bool :=
  mkSealed {[1 := "note/v1"; 2 := "note/v2"]} (mkCurrent 2 "note-map" current)
    {[1 := mkUpcaster 2 "note-1-2" upcast]}.

Definition catalog : @SealedEventCatalog bool :=
  mkCatalog {["app_note" := sealed_note]} (schema_set_digest {["app_note" := sealed_note]}).

Definition event : Event := mkEvent 0 "app_note" 1 null GENESIS_HASH GENESIS_HASH.

Lemma sealed : seal builder = Ok catalog.
Proof. vm_compute. reflexivity. Qed.

(** The documents in play. *)
Definition documents (j : CanonicalJson) : Prop := j = null \/ j = object.
End CatalogSample.

Lemma accepts_fifo_witness :
  let obs := no_observations in
  exists obs' b, accepts (H0 := toy_sha256) obs CatalogSample.null CatalogSample.object = Some (obs', b)
    /\ obs_ok obs' /\ b = true.
Proof.
  destruct (@accepts_fifo toy_sha256 no_observations CatalogSample.null CatalogSample.object no_observations_ok)
    as (obs' & b & Ha & Hok & Hspec).
  exists obs', b. split; [exact Ha|]. split; [exact Hok|]. exact (proj1 Hspec).
Defined.

Lemma decode_total_witness :
  exists store' r, decode (H := Sample.sample_json) (H0 := toy_sha256) Bool.eqb LogSample.serialize
                     CatalogSample.catalog ∅ CatalogSample.event = Some (store', r) /\ store_ok store'.
Proof.
  destruct (decode_total (H := Sample.sample_json) (H0 := toy_sha256) Bool.eqb LogSample.serialize
              CatalogSample.builder CatalogSample.catalog ∅ CatalogSample.event CatalogSample.sealed store_ok_empty)
    as (store' & r & Hd & Hs & _).
  exists store', r. split; [exact Hd|exact Hs].
Defined.

Lemma pure_decode_witness :
  exists store', decode (H := Sample.sample_json) (H0 := toy_sha256) Bool.eqb LogSample.serialize
      CatalogSample.catalog ∅ CatalogSample.event = Some (store', Ok true).
Proof.
  destruct (pure_decode (H := Sample.sample_json) (H0 := toy_sha256) Bool.eqb LogSample.serialize
              CatalogSample.builder CatalogSample.catalog CatalogSample.documents ∅ CatalogSample.event)
    as (store' & Hd & _).
  - exact CatalogSample.sealed.
  - intros i j [-> | ->] [-> | ->] [Hne E]; try (by destruct Hne); vm_compute in E; discriminate.
  - by intros [].
  - intros name kind Hk. unfold CatalogSample.catalog in Hk. cbn [kinds] in Hk.
    apply lookup_singleton_Some in Hk as [<- <-]. split; [split|].
    + by intros n json.
    + intros v edge Hv. cbn [sealed_upcasters CatalogSample.sealed_note] in Hv.
      apply lookup_singleton_Some in Hv as [<- <-]. by intros n json.
    + intros v edge json out Hv _. cbn [sealed_upcasters CatalogSample.sealed_note] in Hv.
      apply lookup_singleton_Some in Hv as [<- <-]. intros [= <-]. by right.
  - by left.
  - intros k kind _. split; [|intros v edge _]; apply observed_empty.
  - exists store'. rewrite Hd. vm_compute. reflexivity.
Defined.

Lemma schema_set_digest_binds_witness :
  identities (kinds CatalogSample.catalog) = identities (kinds CatalogSample.catalog)
  \/ collides (H := toy_sha256) (schema_set_preimage (kinds CatalogSample.catalog))
       (schema_set_preimage (kinds CatalogSample.catalog)).
Proof.
  apply (@schema_set_digest_binds toy_sha256 _ CatalogSample.builder CatalogSample.builder);
    [..|reflexivity].
  - apply built_current, built_upcaster, built_new.
  - apply built_current, built_upcaster, built_new.
  - exact CatalogSample.sealed.
  - exact CatalogSample.sealed.
Defined.

Lemma builder_invariant_witness : builder_ok CatalogSample.builder.
Proof. apply builder_invariant. apply built_current, built_upcaster, built_new. Defined.
