(* ===== verification/Snapshot.v ===== *)
(** * Snapshot: projection checkpoints, their wire envelope and their state root.

    Models [crates/pliego-fold/src/snapshot.rs] and [state_root.rs]: contract
    identities, [ProjectionSnapshot] with its digests, the bounded envelope decoder
    and [StateRoot::from_snapshot]. [ReducerIdentity] and [CodecIdentity] have the
    same fields and the same validation and are one record here.

    A [Decoder] is the list of the bytes it has not consumed yet. *)

From S2P Require Import Prelude Decimal Json Log.

Definition MAX_CANONICAL_STATE_BYTES : N := 8 * 1024 * 1024.
Definition SNAPSHOT_MAGIC : bytes := as_bytes "PLGSNAP" ++ [x00].
Definition SNAPSHOT_DIGEST_DOMAIN : bytes := as_bytes "pliego-fold/snapshot/1" ++ [x00].
Definition SNAPSHOT_FORMAT_V1 : N := 1.
Definition MAX_CONTRACT_ID_BYTES : N := 192.
Definition MAX_PROJECTION_SNAPSHOT_BYTES : N := MAX_CANONICAL_STATE_BYTES + 2 * MAX_CONTRACT_ID_BYTES + 256.
Definition STATE_ROOT_DOMAIN_V1 : bytes := as_bytes "pliego-fold/state-root/1" ++ [x00].
Definition STATE_ROOT_FORMAT_V1 : N := 1.

Inductive SnapshotError : Type :=
| SnapshotTooLarge (actual maximum : N)
| InvalidMagic
| UnsupportedFormat (format : N)
| Truncated (field : string)
| TrailingBytes (count : N)
| InvalidUtf8 (field : string)
| InvalidContractId (field reason : string)
| ReducerConfig (message : string)
| CodecConfig (message : string)
| StateTooLarge (actual maximum : N)
| StateDigestMismatch
| SnapshotDigestMismatch.

(** ** Contract identities *)

Record ContractIdentity : Type := mkIdentity { id : string; revision : N; config_hash : Hash }.

#[export] Instance ContractIdentity_eq_dec : EqDecision ContractIdentity.
Proof. solve_decision. Defined.

Definition is_snapshot_id_char (c : ascii) : bool :=
  is_ascii_alphanumeric c || char_in ["-"; "_"; "."; "/"; ":"]%char c.

Definition validate_contract_id (field value : string) : result SnapshotError unit :=
  fail_if slen value =? 0 with InvalidContractId field "must not be empty" ;;
  fail_if MAX_CONTRACT_ID_BYTES <? slen value with InvalidContractId field "too long" ;;
  fail_if negb (string_all is_snapshot_id_char value)
    with InvalidContractId field "contains a non-portable character" ;;
  Ok tt.

(** [ReducerIdentity::new] and [CodecIdentity::new], which name their field. *)
Definition identity_new (field id : string) (revision : N) (config_hash : Hash) : result SnapshotError ContractIdentity :=
  _ ← validate_contract_id field id; Ok (mkIdentity id revision config_hash).

(** ** Snapshots *)

Record ProjectionSnapshot : Type := mkSnapshot {
  format : N; history : LogCursor; schema_set : Hash; reducer : ContractIdentity; codec : ContractIdentity;
  state_bytes : bytes; state_digest : Hash; snapshot_digest : Hash }.

#[export] Instance ProjectionSnapshot_eq_dec : EqDecision ProjectionSnapshot.
Proof. solve_decision. Defined.

Definition digest_identity (i : ContractIdentity) : bytes :=
  lp (as_bytes (id i)) ++ be_bytes 8 (revision i) ++ config_hash i.

(** The bytes [compute_snapshot_digest] feeds to the hasher. *)
Definition snapshot_preimage (s : ProjectionSnapshot) : bytes :=
  SNAPSHOT_DIGEST_DOMAIN ++ be_bytes 2 (format s) ++ be_bytes 8 (position (history s)) ++ head_hash (history s)
    ++ schema_set s ++ digest_identity (reducer s) ++ digest_identity (codec s) ++ lp (state_bytes s) ++ state_digest s.

Section snapshot.
Context `{Sha256}.

Definition compute_snapshot_digest (s : ProjectionSnapshot) : Hash := sha256 (snapshot_preimage s).

Definition with_digest (s : ProjectionSnapshot) (d : Hash) : ProjectionSnapshot :=
  mkSnapshot (format s) (history s) (schema_set s) (reducer s) (codec s) (state_bytes s) (state_digest s) d.

Definition create (history : LogCursor) (schema_set : Hash) (reducer codec : ContractIdentity) (state_bytes : bytes)
    : result SnapshotError ProjectionSnapshot :=
  fail_if MAX_CANONICAL_STATE_BYTES <? blen state_bytes
    with StateTooLarge (blen state_bytes) MAX_CANONICAL_STATE_BYTES ;;
  let snapshot := mkSnapshot SNAPSHOT_FORMAT_V1 history schema_set reducer codec state_bytes (sha256 state_bytes)
                    (replicate 32 x00) in
  Ok (with_digest snapshot (compute_snapshot_digest snapshot)).

Definition verify_integrity (s : ProjectionSnapshot) : result SnapshotError unit :=
  fail_if negb (bool_decide (sha256 (state_bytes s) = state_digest s)) with StateDigestMismatch ;;
  fail_if negb (bool_decide (compute_snapshot_digest s = snapshot_digest s)) with SnapshotDigestMismatch ;;
  Ok tt.

(** *** The envelope *)

Definition push_string (value : string) : bytes := be_bytes 2 (slen value) ++ as_bytes value.

Definition encode_identity (i : ContractIdentity) : bytes :=
  push_string (id i) ++ be_bytes 8 (revision i) ++ config_hash i.

Definition encode (s : ProjectionSnapshot) : bytes :=
  SNAPSHOT_MAGIC ++ be_bytes 2 (format s) ++ be_bytes 8 (position (history s)) ++ head_hash (history s)
    ++ schema_set s ++ encode_identity (reducer s) ++ encode_identity (codec s)
    ++ be_bytes 4 (blen (state_bytes s)) ++ state_bytes s ++ state_digest s ++ snapshot_digest s.

Definition take_bytes (len : nat) (field : string) (bs : bytes) : result SnapshotError (bytes * bytes) :=
  fail_if (length bs <? len)%nat with Truncated field ;;
  Ok (take len bs, drop len bs).

(** [Decoder::u16], [u32] and [u64]. *)
Definition take_int (width : nat) (field : string) (bs : bytes) : result SnapshotError (N * bytes) :=
  '(value, bs) ← take_bytes width field bs; Ok (be_value value, bs).

Definition take_hash (field : string) (bs : bytes) : result SnapshotError (Hash * bytes) := take_bytes 32 field bs.

Definition take_string (length_field value_field : string) (bs : bytes) : result SnapshotError (string * bytes) :=
  '(len, bs) ← take_int 2 length_field bs;
  fail_if MAX_CONTRACT_ID_BYTES <? len with InvalidContractId value_field "too long" ;;
  '(value, bs) ← take_bytes (N.to_nat len) value_field bs;
  match from_utf8 value with
  | Some text => Ok (text, bs)
  | None => Err (InvalidUtf8 value_field)
  end.

Definition decode (envelope : bytes) : result SnapshotError ProjectionSnapshot :=
  fail_if MAX_PROJECTION_SNAPSHOT_BYTES <? blen envelope
    with SnapshotTooLarge (blen envelope) MAX_PROJECTION_SNAPSHOT_BYTES ;;
  '(magic, bs) ← take_bytes 8 "magic" envelope;
  fail_if negb (bool_decide (magic = SNAPSHOT_MAGIC)) with InvalidMagic ;;
  '(format, bs) ← take_int 2 "format" bs;
  fail_if negb (format =? SNAPSHOT_FORMAT_V1) with UnsupportedFormat format ;;
  '(position, bs) ← take_int 8 "history position" bs;
  '(head, bs) ← take_hash "history head" bs;
  '(schema_set, bs) ← take_hash "schema-set digest" bs;
  '(reducer_id, bs) ← take_string "reducer id" "reducer" bs;
  '(reducer_revision, bs) ← take_int 8 "reducer revision" bs;
  '(reducer_config_hash, bs) ← take_hash "reducer config hash" bs;
  '(codec_id, bs) ← take_string "codec id" "codec" bs;
  '(codec_revision, bs) ← take_int 8 "codec revision" bs;
  '(codec_config_hash, bs) ← take_hash "codec config hash" bs;
  '(state_len, bs) ← take_int 4 "state length" bs;
  fail_if MAX_CANONICAL_STATE_BYTES <? state_len with StateTooLarge state_len MAX_CANONICAL_STATE_BYTES ;;
  '(state_bytes, bs) ← take_bytes (N.to_nat state_len) "state bytes" bs;
  '(state_digest, bs) ← take_hash "state digest" bs;
  '(snapshot_digest, bs) ← take_hash "snapshot digest" bs;
  fail_if negb (blen bs =? 0) with TrailingBytes (blen bs) ;;
  reducer ← identity_new "reducer" reducer_id reducer_revision reducer_config_hash;
  codec ← identity_new "codec" codec_id codec_revision codec_config_hash;
  let snapshot := mkSnapshot format (mkCursor position head) schema_set reducer codec state_bytes state_digest
                    snapshot_digest in
  _ ← verify_integrity snapshot;
  Ok snapshot.

(** ** State roots *)

Record StateRoot : Type := mkRoot { root_format : N; root_digest : Hash }.

Definition root_identity (i : ContractIdentity) : bytes :=
  be_bytes 2 (slen (id i)) ++ as_bytes (id i) ++ be_bytes 8 (revision i) ++ config_hash i.

Definition root_preimage (s : ProjectionSnapshot) : bytes :=
  STATE_ROOT_DOMAIN_V1 ++ be_bytes 2 (format s) ++ be_bytes 8 (position (history s)) ++ head_hash (history s)
    ++ schema_set s ++ root_identity (reducer s) ++ root_identity (codec s) ++ state_digest s ++ snapshot_digest s.

Definition from_snapshot (s : ProjectionSnapshot) : StateRoot :=
  mkRoot STATE_ROOT_FORMAT_V1 (sha256 (root_preimage s)).

Definition tagged (root : StateRoot) : string := ("sha256:" ++ hex (root_digest root))%string.
End snapshot.

#[export] Instance StateRoot_eq_dec : EqDecision StateRoot.
Proof. solve_decision. Defined.

(** ** The decoder inverts the encoder *)

Lemma take_bytes_app n field x r : length x = n -> take_bytes n field (x ++ r) = Ok (x, r).
Proof.
  intros <-. unfold take_bytes. rewrite length_app, (proj2 (Nat.ltb_ge _ _)) by lia.
  by rewrite take_app_length, drop_app_length.
Qed.

Lemma take_bytes_inv n field bs x r : take_bytes n field bs = Ok (x, r) -> bs = x ++ r /\ length x = n.
Proof.
  unfold take_bytes. destruct (Nat.ltb_spec (length bs) n); [done|]. intros [= <- <-].
  split; [by rewrite take_drop|]. rewrite length_take. lia.
Qed.

Lemma take_int_app w field x r : x < 256 ^ N.of_nat w -> take_int w field (be_bytes w x ++ r) = Ok (x, r).
Proof.
  intros Hx. unfold take_int. rewrite take_bytes_app by apply length_be_bytes. cbn. by rewrite be_value_be_bytes.
Qed.

Lemma take_int_inv w field bs x r :
  take_int w field bs = Ok (x, r) -> bs = be_bytes w x ++ r /\ x < 256 ^ N.of_nat w.
Proof.
  unfold take_int. intros ([v s] & [-> Hl]%take_bytes_inv & [= <- <-])%bind_ok. split.
  - rewrite <-Hl at 1. by rewrite be_bytes_be_value.
  - rewrite <-Hl. apply be_value_lt.
Qed.

Definition id_ok (field value : string) : Prop := validate_contract_id field value = Ok tt.

Lemma id_ok_spec field value :
  id_ok field value <-> 1 <= slen value <= MAX_CONTRACT_ID_BYTES /\ string_all is_snapshot_id_char value = true.
Proof.
  unfold id_ok, validate_contract_id. destruct (N.eqb_spec (slen value) 0); [split; [done|lia]|].
  destruct (N.ltb_spec MAX_CONTRACT_ID_BYTES (slen value)); [split; [done|lia]|].
  destruct (string_all is_snapshot_id_char value); cbn; split; try done; [intros; split; [lia|done]|by intros []].
Qed.

Lemma snapshot_id_ascii c : is_snapshot_id_char c = true -> Ascii.N_of_ascii c <= 127.
Proof. destruct c as [[] [] [] [] [] [] [] []]; vm_compute; congruence. Qed.

Lemma from_utf8_id field value : id_ok field value -> from_utf8 (as_bytes value) = Some value.
Proof.
  intros [_ Hc]%id_ok_spec. unfold from_utf8.
  rewrite utf8_valid_ascii by exact (ascii_byte_le_127 _ _ snapshot_id_ascii Hc).
  unfold as_bytes. by rewrite String.string_of_list_byte_of_string.
Qed.

Lemma length_as_bytes s : length (as_bytes s) = String.length s.
Proof. pose proof (blen_as_bytes s) as H. unfold blen, slen in H. lia. Qed.

Lemma take_string_app lf vf value r : id_ok vf value -> take_string lf vf (push_string value ++ r) = Ok (value, r).
Proof.
  intros Hid. pose proof Hid as [Hl _]%id_ok_spec. unfold take_string, push_string, MAX_CONTRACT_ID_BYTES in *.
  rewrite <-app_assoc, take_int_app by (change (256 ^ N.of_nat 2) with 65536; lia). cbn [mbind result_bind].
  rewrite (proj2 (N.ltb_ge _ _)) by lia. rewrite take_bytes_app by (rewrite length_as_bytes; unfold slen; lia).
  cbn [mbind result_bind]. by rewrite (from_utf8_id vf).
Qed.

Lemma take_string_inv lf vf bs value r : take_string lf vf bs = Ok (value, r) -> bs = push_string value ++ r.
Proof.
  unfold take_string. intros ([n s] & [-> Hn]%take_int_inv & E)%bind_ok.
  destruct (MAX_CONTRACT_ID_BYTES <? n); [done|]. apply bind_ok in E as ([v s'] & [-> Hl]%take_bytes_inv & E).
  unfold from_utf8 in E. destruct (utf8_valid v); [|done].
  injection E as <- <-. unfold push_string, as_bytes. rewrite String.list_byte_of_string_of_list_byte.
  rewrite <-app_assoc. f_equal. f_equal. rewrite <-blen_as_bytes. unfold as_bytes, blen.
  rewrite String.list_byte_of_string_of_list_byte. lia.
Qed.

Section envelope.
Context `{Sha256}.

Definition identity_ok (field : string) (i : ContractIdentity) : Prop :=
  id_ok field (id i) /\ revision i <= u64_max /\ length (config_hash i) = 32%nat.

(** The values a program can hold: the fields are of their widths, the identities
    are validated and both digests match. *)
Definition snapshot_ok (s : ProjectionSnapshot) : Prop :=
  format s = SNAPSHOT_FORMAT_V1 /\ position (history s) <= u64_max /\ length (head_hash (history s)) = 32%nat
  /\ length (schema_set s) = 32%nat /\ identity_ok "reducer" (reducer s) /\ identity_ok "codec" (codec s)
  /\ blen (state_bytes s) <= MAX_CANONICAL_STATE_BYTES /\ length (state_digest s) = 32%nat
  /\ length (snapshot_digest s) = 32%nat /\ verify_integrity s = Ok tt.

Lemma identity_new_ok field i :
  identity_ok field i -> identity_new field (id i) (revision i) (config_hash i) = Ok i.
Proof. intros (Hid & _). unfold identity_new. rewrite Hid. by destruct i. Qed.

Lemma length_push_string field value : id_ok field value -> (length (push_string value) <= 194)%nat.
Proof.
  intros [Hl _]%id_ok_spec. unfold push_string, MAX_CONTRACT_ID_BYTES, slen in *.
  rewrite length_app, length_be_bytes, length_as_bytes. lia.
Qed.

Lemma encode_bounded s : snapshot_ok s -> blen (encode s) <= MAX_PROJECTION_SNAPSHOT_BYTES.
Proof.
  intros (_ & _ & Hh & Hs & (Hr & _ & Hrc) & (Hc & _ & Hcc) & Hl & Hd & Hsd & _).
  pose proof (length_push_string _ _ Hr). pose proof (length_push_string _ _ Hc).
  unfold blen, encode, encode_identity, MAX_PROJECTION_SNAPSHOT_BYTES, MAX_CONTRACT_ID_BYTES in *.
  rewrite !length_app, !length_be_bytes. change (length SNAPSHOT_MAGIC) with 8%nat. lia.
Qed.

Lemma pow_2 x : x <= 65535 -> x < 256 ^ N.of_nat 2.
Proof. change (256 ^ N.of_nat 2) with 65536. lia. Qed.
Lemma pow_4 x : x <= u32_max -> x < 256 ^ N.of_nat 4.
Proof. change (256 ^ N.of_nat 4) with (u32_max + 1). lia. Qed.
Lemma pow_8 x : x <= u64_max -> x < 256 ^ N.of_nat 8.
Proof. change (256 ^ N.of_nat 8) with (u64_max + 1). lia. Qed.

Lemma decode_encode s : snapshot_ok s -> decode (encode s) = Ok s.
Proof.
  intros Hok. pose proof (encode_bounded s Hok) as Hb. apply N.ltb_ge in Hb.
  destruct Hok as (Hf & Hp & Hh & Hs & Hr & Hc & Hl & Hd & Hsd & Hv).
  pose proof Hr as (Hri & Hrr & Hrc). pose proof Hc as (Hci & Hcr & Hcc).
  unfold decode. rewrite Hb. unfold encode, encode_identity, take_hash. rewrite <-!app_assoc, Hf.
  rewrite take_bytes_app by done. cbn [mbind result_bind]. rewrite bool_decide_eq_true_2 by done. cbn [negb].
  rewrite take_int_app by (apply pow_2; done). cbn [mbind result_bind]. cbn [N.eqb SNAPSHOT_FORMAT_V1 negb Pos.eqb].
  rewrite take_int_app by by apply pow_8. cbn [mbind result_bind].
  rewrite take_bytes_app by done. cbn [mbind result_bind]. rewrite take_bytes_app by done. cbn [mbind result_bind].
  rewrite take_string_app by done. cbn [mbind result_bind]. rewrite take_int_app by by apply pow_8. cbn [mbind result_bind].
  rewrite take_bytes_app by done. cbn [mbind result_bind]. rewrite take_string_app by done. cbn [mbind result_bind].
  rewrite take_int_app by by apply pow_8. cbn [mbind result_bind]. rewrite take_bytes_app by done. cbn [mbind result_bind].
  rewrite take_int_app by (apply pow_4; unfold u32_max, MAX_CANONICAL_STATE_BYTES in *; lia). cbn [mbind result_bind].
  rewrite (proj2 (N.ltb_ge _ _)) by done.
  rewrite take_bytes_app by (unfold blen; lia). cbn [mbind result_bind].
  rewrite take_bytes_app by done. cbn [mbind result_bind].
  rewrite <-(app_nil_r (snapshot_digest s)), take_bytes_app by done. cbn [mbind result_bind]. cbn [blen length N.of_nat N.eqb negb].
  rewrite !identity_new_ok by done. cbn [mbind result_bind].
  replace (mkSnapshot _ _ _ _ _ _ _ _) with s; [by rewrite Hv|].
  destruct s as [? [] ? ? ? ? ? ?]. cbn in *. by subst.
Qed.
End envelope.

Section decoding.
Context `{Sha256}.

Lemma identity_new_inv field i r h x : identity_new field i r h = Ok x -> x = mkIdentity i r h /\ id_ok field i.
Proof. unfold identity_new. intros ([] & Hv & [= <-])%bind_ok. done. Qed.

(** Undo one primitive read of the decoder. *)
Ltac undo_take :=
  match goal with
  | H : mbind _ (take_int _ _ _) = Ok _ |- _ =>
      let Hx := fresh "Hx" in apply bind_ok in H as ([? ?] & [-> Hx]%take_int_inv & H)
  | H : mbind _ (take_bytes _ _ _) = Ok _ |- _ =>
      let Hx := fresh "Hx" in apply bind_ok in H as ([? ?] & [-> Hx]%take_bytes_inv & H)
  | H : mbind _ (take_string _ _ _) = Ok _ |- _ =>
      apply bind_ok in H as ([? ?] & ->%take_string_inv & H)
  | H : (if ?b then Err _ else _) = Ok _ |- _ => let Hg := fresh "Hg" in destruct b eqn:Hg; [discriminate H|]
  end.

Lemma decode_inv envelope s :
  decode envelope = Ok s -> snapshot_ok s /\ encode s = envelope.
Proof.
  unfold decode, take_hash. intros E. repeat undo_take.
  apply bind_ok in E as (r & [-> Hr]%identity_new_inv & E).
  apply bind_ok in E as (c & [-> Hc]%identity_new_inv & E).
  apply bind_ok in E as ([] & Hv & [= <-]). reflect_guards. subst.
  match goal with H : blen ?bs = 0 |- _ => apply blen_0 in H; subst bs end.
  change (256 ^ N.of_nat 8) with (u64_max + 1) in *.
  split.
  - unfold snapshot_ok, identity_ok. cbn. unfold blen in *.
    split_and!; try done; try lia.
  - match goal with H : length ?x = N.to_nat ?n |- _ => assert (n = blen x) as -> by (unfold blen; lia) end.
    unfold encode, encode_identity.
    cbn [format history schema_set reducer codec state_bytes state_digest snapshot_digest id revision config_hash
         position head_hash].
    by rewrite <-!app_assoc, app_nil_r.
Qed.

(** *** Digest preimages *)

Definition fits_2 (x : N) : Prop := x <= 65535.

Lemma be_bytes_2_delimiting : self_delimiting fits_2 (be_bytes 2).
Proof. intros x y r s Hx Hy. apply be_bytes_delimiting; by apply pow_2. Qed.

Lemma digest_identity_delimiting field : self_delimiting (identity_ok field) digest_identity.
Proof.
  intros i j r s (Hi & Hri & Hci) (Hj & Hrj & Hcj) E. unfold digest_identity in E. rewrite <-!app_assoc in E.
  apply id_ok_spec in Hi as [Hi _], Hj as [Hj _]. unfold MAX_CONTRACT_ID_BYTES in *.
  apply (lp_string_delimiting (id i) (id j)) in E as [E1 E]; [|unfold u64_max; lia..].
  apply be_bytes_8_delimiting in E as [E2 E]; [|done..].
  apply (fixed_delimiting 32) in E as [E3 E]; [|done..]. split; [|done].
  destruct i, j. cbn in *. by subst.
Qed.

Lemma root_identity_delimiting field : self_delimiting (identity_ok field) root_identity.
Proof.
  intros i j r s (Hi & Hri & Hci) (Hj & Hrj & Hcj) E. unfold root_identity in E. rewrite <-!app_assoc in E.
  apply id_ok_spec in Hi as [Hi _], Hj as [Hj _]. unfold MAX_CONTRACT_ID_BYTES in *.
  apply be_bytes_2_delimiting in E as [E0 E]; [|unfold fits_2; lia..].
  apply app_inj_1 in E as [E1 E]; [|rewrite !length_as_bytes; unfold slen in E0; lia]. apply as_bytes_inj in E1.
  apply be_bytes_8_delimiting in E as [E2 E]; [|done..].
  apply (fixed_delimiting 32) in E as [E3 E]; [|done..]. split; [|done].
  destruct i, j. cbn in *. by subst.
Qed.

(** The common prefix of the two preimages. *)
Lemma header_inj s1 s2 r1 r2 :
  snapshot_ok s1 -> snapshot_ok s2 ->
  be_bytes 2 (format s1) ++ be_bytes 8 (position (history s1)) ++ head_hash (history s1) ++ schema_set s1 ++ r1
  = be_bytes 2 (format s2) ++ be_bytes 8 (position (history s2)) ++ head_hash (history s2) ++ schema_set s2 ++ r2 ->
  history s1 = history s2 /\ schema_set s1 = schema_set s2 /\ r1 = r2.
Proof.
  intros (F1 & P1 & H1 & S1 & _) (F2 & P2 & H2 & S2 & _) E.
  apply be_bytes_app_inj in E as [_ E]. apply be_bytes_8_delimiting in E as [Ep E]; [|done..].
  apply (fixed_delimiting 32) in E as [Eh E]; [|done..]. apply (fixed_delimiting 32) in E as [Es E]; [|done..].
  split_and!; [|done|done]. destruct (history s1), (history s2). cbn in *. by subst.
Qed.

Lemma verify_integrity_ok s :
  verify_integrity s = Ok tt <-> state_digest s = sha256 (state_bytes s) /\ snapshot_digest s = sha256 (snapshot_preimage s).
Proof.
  unfold verify_integrity, compute_snapshot_digest.
  destruct (bool_decide_reflect (sha256 (state_bytes s) = state_digest s)); cbn [negb];
    [|split; [done|intros [? _]; congruence]].
  destruct (bool_decide_reflect (sha256 (snapshot_preimage s) = snapshot_digest s)); cbn [negb];
    [split; [intros _; split; by symmetry|done]|split; [done|intros [_ ?]; congruence]].
Qed.

Lemma snapshot_preimage_inj s1 s2 :
  snapshot_ok s1 -> snapshot_ok s2 -> snapshot_preimage s1 = snapshot_preimage s2 -> s1 = s2.
Proof.
  intros O1 O2 E. pose proof E as Ed. unfold snapshot_preimage in E. apply app_inv_head in E.
  apply header_inj in E as (Eh & Es & E); [|done..].
  pose proof O1 as (F1 & _ & _ & _ & R1 & C1 & L1 & D1 & _ & V1). pose proof O2 as (F2 & _ & _ & _ & R2 & C2 & L2 & D2 & _ & V2).
  apply (digest_identity_delimiting "reducer") in E as [Er E]; [|done..].
  apply (digest_identity_delimiting "codec") in E as [Ec E]; [|done..].
  unfold MAX_CANONICAL_STATE_BYTES in *.
  apply lp_delimiting in E as [Eb Ed']; [|unfold u64_max; lia..].
  apply verify_integrity_ok in V1 as [V1 W1], V2 as [V2 W2].
  assert (snapshot_digest s1 = snapshot_digest s2) as Esd by (rewrite W1, W2; congruence).
  destruct s1, s2. cbn in *. congruence.
Qed.
End decoding.

(** ** Properties *)

(** C29. Encoding and decoding are inverse: the decoder returns every valid snapshot
    from its envelope, and it accepts no other bytes. What it returns is valid:
    both digests match and every bound and identity rule holds; an accepted
    envelope is the encoding of the result, byte for byte, and within the size
    limit. *)
Theorem decode_exact `{Sha256} envelope s :
  decode envelope = Ok s <-> snapshot_ok s /\ encode s = envelope.
Proof. split; [apply decode_inv|]. intros [Hok <-]. by apply decode_encode. Qed.

(** [create] makes valid snapshots: within the state bound it returns a snapshot
    that carries its arguments and whose digests verify, so that it survives
    storage. *)
Theorem create_sound `{Sha256, !Sha256Laws} cursor schema red cod state :
  position cursor <= u64_max -> length (head_hash cursor) = 32%nat -> length schema = 32%nat ->
  identity_ok "reducer" red -> identity_ok "codec" cod ->
  if MAX_CANONICAL_STATE_BYTES <? blen state
  then create cursor schema red cod state = Err (StateTooLarge (blen state) MAX_CANONICAL_STATE_BYTES)
  else exists s, create cursor schema red cod state = Ok s /\ snapshot_ok s /\ history s = cursor
       /\ schema_set s = schema /\ reducer s = red /\ codec s = cod /\ state_bytes s = state
       /\ decode (encode s) = Ok s.
Proof.
  intros Hp Hh Hs Hr Hc. unfold create. destruct (N.ltb_spec MAX_CANONICAL_STATE_BYTES (blen state)) as [|Hl]; [done|].
  eexists. split; [done|]. set (s := with_digest _ _). assert (snapshot_ok s) as Hok.
  { unfold snapshot_ok. split_and!; try done; [apply sha256_length|apply sha256_length|by apply verify_integrity_ok]. }
  split_and!; try done. by apply decode_encode.
Qed.

(** The snapshot digest binds the whole checkpoint, and so does the state root:
    two valid snapshots with one state root are the same snapshot, unless their
    root preimages or their snapshot preimages are an explicit SHA-256
    collision. *)
Theorem state_root_binds `{Sha256} s1 s2 :
  snapshot_ok s1 -> snapshot_ok s2 -> from_snapshot s1 = from_snapshot s2 ->
  s1 = s2 \/ collides (root_preimage s1) (root_preimage s2) \/ collides (snapshot_preimage s1) (snapshot_preimage s2).
Proof.
  intros O1 O2 [= E]. destruct (decide (root_preimage s1 = root_preimage s2)) as [Er|]; [|by right; left].
  unfold root_preimage in Er. apply app_inv_head in Er. apply header_inj in Er as (_ & _ & Er); [|done..].
  pose proof O1 as (_ & _ & _ & _ & R1 & C1 & _ & D1 & _ & V1). pose proof O2 as (_ & _ & _ & _ & R2 & C2 & _ & D2 & _ & V2).
  apply (root_identity_delimiting "reducer") in Er as [_ Er]; [|done..].
  apply (root_identity_delimiting "codec") in Er as [_ Er]; [|done..].
  apply (fixed_delimiting 32) in Er as [_ Er]; [|done..].
  apply verify_integrity_ok in V1 as [_ V1], V2 as [_ V2].
  destruct (decide (snapshot_preimage s1 = snapshot_preimage s2)) as [Es|Hne].
  - left. by apply snapshot_preimage_inj.
  - right; right. split; [done|]. congruence.
Qed.

(** ** Witnesses *)

Module SnapshotSample.
#[local] Existing Instance toy_sha256.

Definition zero : Hash := replicate 32 x00.
Definition red : ContractIdentity := mkIdentity "app/reducer" 3 zero.
Definition cod : ContractIdentity := mkIdentity "pliego/canonical-json/1" 1 zero.
Definition cursor : LogCursor := mkCursor 0 zero.

Definition snapshot : ProjectionSnapshot :=
  match create cursor zero red cod (as_bytes "{}") with
  | Ok s => s
  | Err _ => mkSnapshot 0 cursor zero red cod [] zero zero
  end.

Lemma snapshot_valid : snapshot_ok snapshot.
Proof.
  unfold snapshot_ok, identity_ok, id_ok. split_and!; vm_compute; (reflexivity || discriminate).
Qed.
End SnapshotSample.

Lemma create_sound_witness :
  exists s, create (H := toy_sha256) SnapshotSample.cursor SnapshotSample.zero SnapshotSample.red SnapshotSample.cod
              (as_bytes "{}") = Ok s /\ decode (H := toy_sha256) (encode s) = Ok s.
Proof.
  destruct (@create_sound toy_sha256 toy_sha256_laws SnapshotSample.cursor SnapshotSample.zero SnapshotSample.red
              SnapshotSample.cod (as_bytes "{}")) as (s & Hc & _ & _ & _ & _ & _ & _ & Hd).
  - vm_compute. discriminate.
  - reflexivity.
  - reflexivity.
  - split_and!; [vm_compute; reflexivity|vm_compute; discriminate|reflexivity].
  - split_and!; [vm_compute; reflexivity|vm_compute; discriminate|reflexivity].
  - exists s. split; [exact Hc|exact Hd].
Defined.

Lemma state_root_binds_witness :
  SnapshotSample.snapshot = SnapshotSample.snapshot \/
  collides (H := toy_sha256) (root_preimage SnapshotSample.snapshot) (root_preimage SnapshotSample.snapshot) \/
  collides (H := toy_sha256) (snapshot_preimage SnapshotSample.snapshot) (snapshot_preimage SnapshotSample.snapshot).
Proof.
  apply (@state_root_binds toy_sha256 SnapshotSample.snapshot SnapshotSample.snapshot
           SnapshotSample.snapshot_valid SnapshotSample.snapshot_valid eq_refl).
Defined.
