(* ===== verification/Projection.v ===== *)
(** * Projection: transactional, incremental folds over a checked log tail.

    Models [crates/pliego-fold/src/projection.rs]: preparing a candidate state from
    a log tail, committing it, synchronising, snapshotting and restoring.

    The application's code is an argument: the schema resolver, the reducer and
    the state codec are functions whose calls return or panic ([caught], the
    result of [catch_unwind]). [Clone] of the state is the identity and
    [PartialEq] is a boolean function. The reactive node is its cached value:
    [memo] is [None] when the log has changed since the last computation. *)

From S2P Require Import Prelude Decimal Json Log Snapshot.

Definition MAX_FAILURE_MESSAGE_BYTES : N := 2048.

(** [std::panic::catch_unwind]. *)
Inductive caught (A : Type) : Type := Returned (value : A) | Panicked.
Arguments Returned {A} value.
Arguments Panicked {A}.

Inductive CodecError : Type :=
| InvalidLimit (requested maximum : N)
| StateBytesTooLarge (actual maximum : N)
| StateTooDeep (actual maximum : N)
| StateTooManyNodes (actual maximum : N)
| Encode (message : string)
| Decode (message : string).

Inductive ProjectionError : Type :=
| SnapshotRejected (error : SnapshotError)
| CodecRejected (error : CodecError)
| CursorRejected (error : CursorError)
| SchemaSetMismatch (expected actual : Hash)
| ReducerMismatch (expected actual : ContractIdentity)
| CodecMismatch (expected actual : ContractIdentity)
| NonCanonicalState
| CodecPanicked (operation : string)
| SchemaFailed (sequence : N) (message : string)
| SchemaPanicked (sequence : N)
| ReducerFailed (sequence : N) (message : string)
| ReducerPanicked (sequence : N)
| ConcurrentMutation
| CounterOverflow.

(** ** Bounded messages *)

(** A continuation byte of UTF-8, at which [is_char_boundary] is false. *)
Definition is_continuation (c : ascii) : bool :=
  (128 <=? Ascii.N_of_ascii c) && (Ascii.N_of_ascii c <? 192).

Definition is_char_boundary (message : text) (index : nat) : bool :=
  match index with
  | O => true
  | _ => match message !! index with
         | Some c => negb (is_continuation c)
         | None => (index =? length message)%nat
         end
  end.

Fixpoint boundary_before (message : text) (index : nat) : nat :=
  if is_char_boundary message index then index
  else match index with O => O | S index => boundary_before message index end.

Definition bounded_message (message : string) : string :=
  if slen message <=? MAX_FAILURE_MESSAGE_BYTES then message
  else
    let cs := String.list_ascii_of_string message in
    String.string_of_list_ascii (take (boundary_before cs (N.to_nat MAX_FAILURE_MESSAGE_BYTES)) cs).

(** [ReducerError::new]. *)
Record ReducerError : Type := mkReducerError { reducer_message : string }.
Definition reducer_error (message : string) : ReducerError := mkReducerError (bounded_message message).

(** ** State *)

Record Stable (S : Type) : Type := mkStable {
  state : S; stable_bytes : bytes; stable_history : LogCursor; folded : N }.
Arguments mkStable {S}. Arguments state {S}. Arguments stable_bytes {S}.
Arguments stable_history {S}. Arguments folded {S}.

Record PreparedProjection (S : Type) : Type := mkPrepared {
  expected_history : LogCursor; next_history : LogCursor; prepared_state : S; prepared_bytes : bytes;
  prepared_folded : N; prepared_root : StateRoot }.
Arguments mkPrepared {S}. Arguments expected_history {S}. Arguments next_history {S}.
Arguments prepared_state {S}. Arguments prepared_bytes {S}. Arguments prepared_folded {S}. Arguments prepared_root {S}.

(** [StateCodec]: its identity and its two operations. *)
Record StateCodec (S : Type) : Type := mkCodec {
  codec_identity : caught ContractIdentity;
  encode_state : S -> caught (result CodecError bytes);
  decode_state : bytes -> caught (result CodecError S) }.
Arguments codec_identity {S}. Arguments encode_state {S}. Arguments decode_state {S}.

(** [ProjectionContract]: the resolver of the sealed catalog with its digest, the
    reducer with its identity, the codec with its checked identity. *)
Record ProjectionContract (S E : Type) : Type := mkContract {
  resolve : Event -> caught (result string E);
  schema_set_digest : Hash;
  reduce : S -> E -> caught (result ReducerError S);
  reducer_identity : ContractIdentity;
  state_codec : StateCodec S;
  checked_identity : ContractIdentity }.
Arguments resolve {S E}. Arguments schema_set_digest {S E}. Arguments reduce {S E}.
Arguments reducer_identity {S E}. Arguments state_codec {S E}. Arguments checked_identity {S E}.

(** The value of the reactive node. *)
Record ProjectionRead : Type := mkRead { read_history : LogCursor; read_error : option ProjectionError }.

Record Projection (S E : Type) : Type := mkProjection {
  memo : option ProjectionRead; stable : Stable S; contract : ProjectionContract S E }.
Arguments mkProjection {S E}. Arguments memo {S E}. Arguments stable {S E}. Arguments contract {S E}.

Section projection.
Context `{Sha256} {S E : Type} (state_eq : S -> S -> bool).
Implicit Types (c : ProjectionContract S E) (st : Stable S) (log : Log).

(** ** Codec calls *)

Definition codec_encode (codec : StateCodec S) (s : S) : result ProjectionError bytes :=
  match encode_state codec s with
  | Panicked => Err (CodecPanicked "encode")
  | Returned r =>
      bytes ← map_err CodecRejected r;
      fail_if MAX_CANONICAL_STATE_BYTES <? blen bytes
        with CodecRejected (StateBytesTooLarge (blen bytes) MAX_CANONICAL_STATE_BYTES) ;;
      Ok bytes
  end.

Definition codec_decode (codec : StateCodec S) (bs : bytes) : result ProjectionError S :=
  match decode_state codec bs with
  | Panicked => Err (CodecPanicked "decode")
  | Returned r => map_err CodecRejected r
  end.

Definition canonical_state_bytes (codec : StateCodec S) (s : S) : result ProjectionError bytes :=
  bytes ← codec_encode codec s;
  decoded ← codec_decode codec bytes;
  fail_if negb (state_eq decoded s) with NonCanonicalState ;;
  again ← codec_encode codec decoded;
  fail_if negb (bool_decide (again = bytes)) with NonCanonicalState ;;
  Ok bytes.

Definition checked_codec_identity (codec : StateCodec S) : result ProjectionError ContractIdentity :=
  match codec_identity codec with
  | Panicked => Err (CodecPanicked "identity")
  | Returned identity => Ok identity
  end.

(** ** Folding *)

(** One iteration of the loop of [prepare_projection]. *)
Definition fold_event c (candidate : S) (stored : Event) : result ProjectionError S :=
  resolved ←
    match resolve c stored with
    | Panicked => Err (SchemaPanicked (seq stored))
    | Returned r => map_err (fun m => SchemaFailed (seq stored) (bounded_message m)) r
    end;
  match reduce c candidate resolved with
  | Panicked => Err (ReducerPanicked (seq stored))
  | Returned r => map_err (fun e => ReducerFailed (seq stored) (reducer_message e)) r
  end.

(** [for sequence in from .. from + count]. *)
Fixpoint fold_range c log (from : N) (count : nat) (candidate : S) : result ProjectionError S :=
  match count with
  | O => Ok candidate
  | Datatypes.S count =>
      stored ← ok_or ConcurrentMutation (get log from);
      candidate ← fold_event c candidate stored;
      fold_range c log (from + 1) count candidate
  end.

Definition prepare_projection c st log : result ProjectionError (PreparedProjection S) :=
  let expected := stable_history st in
  _ ← map_err CursorRejected (tail log expected);
  let next := cursor log in
  event_count ← ok_or ConcurrentMutation (checked_sub (position next) (position expected));
  candidate ← fold_range c log (position expected) (N.to_nat event_count) (state st);
  candidate_bytes ← canonical_state_bytes (state_codec c) candidate;
  fail_if state_eq candidate (state st) && negb (bool_decide (candidate_bytes = stable_bytes st))
    with NonCanonicalState ;;
  folded ← ok_or CounterOverflow (checked_add_u64 (folded st) event_count);
  snapshot ← map_err SnapshotRejected
               (create next (schema_set_digest c) (reducer_identity c) (checked_identity c) candidate_bytes);
  Ok (mkPrepared expected next candidate candidate_bytes folded (from_snapshot snapshot)).

(** [commit_stable] and [Projection::commit_prepared]: the new checkpoint and the
    previous state. *)
Definition commit_stable st (p : PreparedProjection S) : result ProjectionError (Stable S * S) :=
  fail_if negb (bool_decide (stable_history st = expected_history p)) with ConcurrentMutation ;;
  Ok (mkStable (prepared_state p) (prepared_bytes p) (next_history p) (prepared_folded p), state st).

Definition synchronize c st log : Stable S * result ProjectionError LogCursor :=
  let expected := stable_history st in
  match map_err CursorRejected (tail log expected) with
  | Err e => (st, Err e)
  | Ok _ =>
      if position (cursor log) =? position expected then (st, Ok expected)
      else
        match prepare_projection c st log with
        | Err e => (st, Err e)
        | Ok p =>
            match commit_stable st p with
            | Err e => (st, Err e)
            | Ok (st', _) => (st', Ok (next_history p))
            end
        end
  end.

(** ** The reactive projection *)

(** Evaluate the node: run [synchronize] unless its value is still current. *)
Definition memo_get (p : Projection S E) log : Projection S E * ProjectionRead :=
  match memo p with
  | Some read => (p, read)
  | None =>
      let '(st, r) := synchronize (contract p) (stable p) log in
      let read :=
        match r with
        | Ok history => mkRead history None
        | Err e => mkRead (stable_history st) (Some e)
        end in
      (mkProjection (Some read) st (contract p), read)
  end.

(** The log signal notifies its dependents. *)
Definition invalidate (p : Projection S E) : Projection S E := mkProjection None (stable p) (contract p).

Definition settle (p : Projection S E) log : Projection S E * result ProjectionError unit :=
  let '(p, read) := memo_get p log in
  (p, match read_error read with
      | Some e => Err e
      | None => if bool_decide (stable_history (stable p) = read_history read) then Ok tt else Err ConcurrentMutation
      end).

Definition try_get (p : Projection S E) log : Projection S E * result ProjectionError S :=
  let '(p, r) := settle p log in (p, _ ← r; Ok (state (stable p))).

Definition history_of (p : Projection S E) log : Projection S E * result ProjectionError LogCursor :=
  let '(p, r) := settle p log in (p, _ ← r; Ok (stable_history (stable p))).

Definition snapshot (p : Projection S E) log : Projection S E * result ProjectionError ProjectionSnapshot :=
  let '(p, r) := settle p log in
  (p, _ ← r;
      let c := contract p in
      map_err SnapshotRejected
        (create (stable_history (stable p)) (schema_set_digest c) (reducer_identity c) (checked_identity c)
           (stable_bytes (stable p)))).

Definition state_root (p : Projection S E) log : Projection S E * result ProjectionError StateRoot :=
  let '(p, r) := snapshot p log in (p, from_snapshot <$> r).

Definition prepare (p : Projection S E) log : result ProjectionError (PreparedProjection S) :=
  prepare_projection (contract p) (stable p) log.

Definition commit_prepared (p : Projection S E) (prepared : PreparedProjection S)
    : result ProjectionError (Projection S E * S) :=
  '(st, previous) ← commit_stable (stable p) prepared;
  Ok (mkProjection (memo p) st (contract p), previous).

(** ** Construction and restore *)

Definition from_stable (initial : S) (expected_bytes : option bytes) (history : LogCursor)
    (resolve : Event -> caught (result string E)) (digest : Hash)
    (reduce : S -> E -> caught (result ReducerError S)) (reducer : ContractIdentity)
    (codec : StateCodec S) (identity : ContractIdentity) : result ProjectionError (Projection S E) :=
  bytes ← canonical_state_bytes codec initial;
  fail_if match expected_bytes with Some expected => negb (bool_decide (expected = bytes)) | None => false end
    with NonCanonicalState ;;
  Ok (mkProjection None (mkStable initial bytes history 0) (mkContract _ _ resolve digest reduce reducer codec identity)).

Definition new log (initial : S) (resolve : Event -> caught (result string E)) (digest : Hash)
    (reduce : S -> E -> caught (result ReducerError S)) (reducer : ContractIdentity) (codec : StateCodec S)
    : result ProjectionError (Projection S E) :=
  history ← map_err CursorRejected (cursor_at log 0);
  identity ← checked_codec_identity codec;
  from_stable initial None history resolve digest reduce reducer codec identity.

Definition restore log (snap : ProjectionSnapshot) (resolve : Event -> caught (result string E)) (digest : Hash)
    (reduce : S -> E -> caught (result ReducerError S)) (red : ContractIdentity) (cod : StateCodec S)
    : result ProjectionError (Projection S E) :=
  identity ← checked_codec_identity cod;
  fail_if negb (bool_decide (schema_set snap = digest)) with SchemaSetMismatch (schema_set snap) digest ;;
  fail_if negb (bool_decide (reducer snap = red)) with ReducerMismatch (reducer snap) red ;;
  fail_if negb (bool_decide (codec snap = identity)) with CodecMismatch (codec snap) identity ;;
  _ ← map_err CursorRejected (tail log (history snap));
  initial ← codec_decode cod (Snapshot.state_bytes snap);
  projection ← from_stable initial (Some (Snapshot.state_bytes snap)) (history snap) resolve digest reduce red cod
                 (codec snap);
  let '(projection, r) := try_get projection log in
  _ ← r; Ok projection.

Definition restore_bytes log (envelope : bytes) (resolve : Event -> caught (result string E)) (digest : Hash)
    (reduce : S -> E -> caught (result ReducerError S)) (red : ContractIdentity) (cod : StateCodec S)
    : result ProjectionError (Projection S E) :=
  snap ← map_err SnapshotRejected (decode envelope);
  restore log snap resolve digest reduce red cod.
End projection.

(** ** The specification: full replay *)

Section replay.
Context `{Sha256} {S E : Type} (state_eq : S -> S -> bool).
Implicit Types (c : ProjectionContract S E) (st : Stable S) (log : Log).

(** Fold every event of a history from a state. *)
Fixpoint replay c (s : S) (events : list Event) : result ProjectionError S :=
  match events with
  | [] => Ok s
  | e :: events => s ← fold_event c s e; replay c s events
  end.

Lemma replay_app c s l1 l2 : replay c s (l1 ++ l2) = (s ← replay c s l1; replay c s l2).
Proof. revert s. induction l1 as [|e l1 IH]; intros s; cbn; [done|]. destruct (fold_event c s e); cbn; [apply IH|done]. Qed.

Lemma fold_range_replay c log from count s :
  from + N.of_nat count <= len log ->
  fold_range c log from count s = replay c s (take count (drop (N.to_nat from) log)).
Proof.
  revert from s. induction count as [|count IH]; intros from s Hl; [by rewrite take_0|]. cbn [fold_range].
  unfold get, len, blen in *. destruct (lookup_lt_is_Some_2 log (N.to_nat from)) as [e He]; [lia|].
  rewrite He, (drop_S log e) by done. cbn. destruct (fold_event c s e) as [s'|]; cbn; [|done].
  rewrite IH by lia. by replace (N.to_nat (from + 1)) with (Datatypes.S (N.to_nat from)) by lia.
Qed.

(** The events of a history from position [base] on. *)
Definition events_from (base : N) log : list Event := drop (N.to_nat base) log.

(** The checkpoint is the canonical fold of a prefix of this history, from the state
    [init] at position [base]. *)
Definition checkpoint_ok c (init : S) (base : N) log st : Prop :=
  cursor_at log (position (stable_history st)) = Ok (stable_history st)
  /\ base <= position (stable_history st)
  /\ replay c init (events_from base (take (N.to_nat (position (stable_history st))) log)) = Ok (state st)
  /\ canonical_state_bytes state_eq (state_codec c) (state st) = Ok (stable_bytes st)
  /\ folded st <= position (stable_history st).

Definition lawful_eq : Prop := forall x y, state_eq x y = true <-> x = y.

Lemma checkpoint_tail c init base log st :
  checkpoint_ok c init base log st ->
  tail log (stable_history st) = Ok (drop (N.to_nat (position (stable_history st))) log)
  /\ position (stable_history st) <= len log.
Proof.
  intros [Hc _]. unfold tail. rewrite Hc. cbn. rewrite bool_decide_eq_true_2 by done.
  apply cursor_at_spec in Hc as [Hp _]. done.
Qed.

Lemma canonical_bounded codec s b : canonical_state_bytes state_eq codec s = Ok b -> blen b <= MAX_CANONICAL_STATE_BYTES.
Proof.
  unfold canonical_state_bytes. intros (b' & He & Hx)%bind_ok. unfold codec_encode in He.
  destruct (encode_state codec s) as [r|]; [|done]. destruct r as [b0|]; [|done]. cbn in He.
  destruct (N.ltb_spec MAX_CANONICAL_STATE_BYTES (blen b0)); [done|]. injection He as <-.
  apply bind_ok in Hx as (d & _ & Hx). destruct (negb _); [done|]. apply bind_ok in Hx as (b'' & _ & Hx).
  destruct (negb _); [done|]. by injection Hx as <-.
Qed.

(** Replay from the base is replay of the tail from the checkpoint. *)
Lemma events_from_split base at_ log : (N.to_nat base <= at_)%nat -> (at_ <= length log)%nat ->
  events_from base log = (events_from base (take at_ log) ++ drop at_ log)%list.
Proof.
  intros Hle Hlen. unfold events_from. rewrite <-(take_drop at_ log) at 1. rewrite drop_app_le; [done|].
  rewrite length_take. lia.
Qed.

Lemma replay_from_checkpoint c init base log st :
  checkpoint_ok c init base log st ->
  replay c init (events_from base log) = replay c (state st) (drop (N.to_nat (position (stable_history st))) log).
Proof.
  intros Hok. destruct (checkpoint_tail _ _ _ _ _ Hok) as [_ Hp]. destruct Hok as (_ & Hb & Hr & _). unfold len, blen in Hp.
  rewrite (events_from_split base (N.to_nat (position (stable_history st))) log) by lia. by rewrite replay_app, Hr.
Qed.

Definition synced c st log (s : S) (b : bytes) : Stable S :=
  mkStable s b (cursor log) (folded st + (len log - position (stable_history st))).

Lemma prepare_spec c init base log st :
  lawful_eq -> len log <= u64_max -> checkpoint_ok c init base log st ->
  prepare_projection state_eq c st log =
  match replay c init (events_from base log) with
  | Err e => Err e
  | Ok s =>
      match canonical_state_bytes state_eq (state_codec c) s with
      | Err e => Err e
      | Ok b =>
          snap ← map_err SnapshotRejected (create (cursor log) (schema_set_digest c) (reducer_identity c) (checked_identity c) b);
          Ok (mkPrepared (stable_history st) (cursor log) s b (folded (synced c st log s b)) (from_snapshot snap))
      end
  end.
Proof.
  intros Heq Hl Hok. destruct (checkpoint_tail _ _ _ _ _ Hok) as [Ht Hp]. pose proof (replay_from_checkpoint _ _ _ _ _ Hok) as Hr.
  destruct Hok as (_ & _ & _ & Hb & Hf). unfold prepare_projection. rewrite Ht. cbn [map_err mbind result_bind].
  unfold checked_sub. cbn [position cursor]. rewrite (proj2 (N.leb_le _ _)) by done. cbn [ok_or mbind result_bind].
  rewrite fold_range_replay by lia. rewrite take_ge by (rewrite length_drop; unfold len, blen in *; lia).
  rewrite Hr. destruct (replay c (state st) _) as [s|e]; [|done]. cbn [mbind result_bind].
  destruct (canonical_state_bytes state_eq (state_codec c) s) as [b|e] eqn:Eb; [|done]. cbn [mbind result_bind].
  assert (state_eq s (state st) && negb (bool_decide (b = stable_bytes st)) = false) as ->.
  { destruct (state_eq s (state st)) eqn:Es; [|done]. apply Heq in Es as ->. rewrite Hb in Eb. injection Eb as ->.
    by rewrite bool_decide_eq_true_2. }
  unfold checked_add_u64. rewrite (proj2 (N.leb_le _ _)) by lia. done.
Qed.

Lemma create_bounded history schema red cod b :
  blen b <= MAX_CANONICAL_STATE_BYTES -> exists s, create history schema red cod b = Ok s.
Proof. intros Hb. unfold create. rewrite (proj2 (N.ltb_ge _ _)) by done. by eexists. Qed.

Lemma synchronize_spec c init base log st :
  lawful_eq -> len log <= u64_max -> checkpoint_ok c init base log st ->
  synchronize state_eq c st log =
  match replay c init (events_from base log) with
  | Err e => (st, Err e)
  | Ok s =>
      match canonical_state_bytes state_eq (state_codec c) s with
      | Err e => (st, Err e)
      | Ok b => (synced c st log s b, Ok (cursor log))
      end
  end.
Proof.
  intros Heq Hl Hok. pose proof (prepare_spec c init base log st Heq Hl Hok) as Hprep.
  destruct (checkpoint_tail _ _ _ _ _ Hok) as [Ht Hp]. pose proof (replay_from_checkpoint _ _ _ _ _ Hok) as Hr.
  unfold synchronize. rewrite Ht. cbn [map_err]. cbn [position cursor].
  destruct (N.eqb_spec (len log) (position (stable_history st))) as [Hpos|Hpos].
  - rewrite Hr. rewrite drop_ge by (unfold len, blen in *; lia). cbn [replay].
    destruct Hok as (Hc & _ & _ & Hb & _). rewrite Hb. apply cursor_at_spec in Hc as [_ Hc].
    assert (stable_history st = cursor log) as Ecur.
    { rewrite Hc. unfold cursor. rewrite <-Hpos. rewrite take_ge by (unfold len, blen; lia). done. }
    unfold synced. rewrite Hpos, N.sub_diag, N.add_0_r, <-Ecur. by destruct st.
  - rewrite Hprep. destruct (replay c init (events_from base log)) as [s|e]; [|done].
    destruct (canonical_state_bytes state_eq (state_codec c) s) as [b|e] eqn:Eb; [|done].
    destruct (create_bounded (cursor log) (schema_set_digest c) (reducer_identity c) (checked_identity c) b) as [snap ->];
      [by eapply canonical_bounded|]. cbn [map_err mbind result_bind]. unfold commit_stable. cbn.
    by rewrite bool_decide_eq_true_2.
Qed.

(** The new checkpoint is again the canonical fold of the whole history. *)
Lemma synced_ok c init base log st s b :
  checkpoint_ok c init base log st -> replay c init (events_from base log) = Ok s ->
  canonical_state_bytes state_eq (state_codec c) s = Ok b -> checkpoint_ok c init base log (synced c st log s b).
Proof.
  intros Hok Hr Hb. destruct (checkpoint_tail _ _ _ _ _ Hok) as [_ Hp]. destruct Hok as (_ & Hbase & _ & _ & Hf).
  unfold checkpoint_ok, synced. cbn. split_and!; [|lia|by rewrite take_ge by (unfold len, blen; lia)|done|lia].
  apply cursor_at_spec. split; [lia|]. unfold cursor. by rewrite take_ge by (unfold len, blen; lia).
Qed.

(** Appending events keeps a checkpoint. *)
Lemma checkpoint_extend c init base log more st :
  checkpoint_ok c init base log st -> checkpoint_ok c init base (log ++ more) st.
Proof.
  intros Hok. destruct (checkpoint_tail _ _ _ _ _ Hok) as [_ Hp]. destruct Hok as (Hc & Hbase & Hr & Hb & Hf).
  apply cursor_at_spec in Hc as [Hle Hc]. unfold len, blen in *. split_and!; [|done| |done|done].
  - apply cursor_at_spec. unfold len, blen. rewrite length_app. split; [lia|]. by rewrite take_app_le by lia.
  - by rewrite take_app_le by lia.
Qed.
End replay.

(** ** The life of a projection *)

Section lifecycle.
Context `{Sha256} {S E : Type} (state_eq : S -> S -> bool).
Variable c : ProjectionContract S E.

(** What a read must return: the replay of the events from position [base] on, whose
    state must encode canonically. *)
Definition outcome (init : S) (base : N) (log : Log) : result ProjectionError S :=
  s ← replay c init (events_from base log); _ ← canonical_state_bytes state_eq (state_codec c) s; Ok s.

(** The projections a program can hold over a growing log, with the state and the
    position they started from: created at genesis, or restored from any snapshot that
    passes the checks; then read, notified of appended events, or advanced by a prepared
    commit that is then published. *)
Inductive lives : S -> N -> Log -> Projection S E -> Prop :=
| lives_new init log p :
    len log <= u64_max ->
    new state_eq log init (resolve c) (schema_set_digest c) (reduce c) (reducer_identity c) (state_codec c) = Ok p ->
    codec_identity (state_codec c) = Returned (checked_identity c) -> lives init 0 log p
| lives_restore snap init log p :
    len log <= u64_max ->
    restore state_eq log snap (resolve c) (schema_set_digest c) (reduce c) (reducer_identity c) (state_codec c) = Ok p ->
    codec_decode (state_codec c) (Snapshot.state_bytes snap) = Ok init ->
    codec_identity (state_codec c) = Returned (checked_identity c) -> lives init (position (history snap)) log p
| lives_append init base log more p :
    len (log ++ more) <= u64_max -> lives init base log p -> lives init base (log ++ more) (invalidate p)
| lives_read init base log p : lives init base log p -> lives init base log (try_get state_eq p log).1
| lives_commit init base log more p prepared p' previous :
    len (log ++ more) <= u64_max -> lives init base log p ->
    prepare state_eq p (log ++ more) = Ok prepared -> commit_prepared p prepared = Ok (p', previous) ->
    lives init base (log ++ more) (invalidate p').

Section seeded.
Variables (init : S) (base : N).

Definition memo_ok (log : Log) (p : Projection S E) : Prop :=
  forall read, memo p = Some read ->
    match outcome init base log with
    | Ok s => read = mkRead (cursor log) None /\ stable_history (stable p) = cursor log /\ state (stable p) = s
    | Err e => read_error read = Some e
    end.

Definition live_ok (log : Log) (p : Projection S E) : Prop :=
  contract p = c /\ len log <= u64_max /\ checkpoint_ok state_eq c init base log (stable p) /\ memo_ok log p.

Lemma memo_get_ok log p :
  lawful_eq state_eq -> live_ok log p ->
  let '(p', read) := memo_get state_eq p log in
  live_ok log p' /\ memo p' = Some read /\ (memo p = None -> stable p' = (synchronize state_eq c (stable p) log).1).
Proof.
  intros Heq (Hc & Hl & Hok & Hm). unfold memo_get. destruct (memo p) as [read|] eqn:Em; [done|].
  rewrite Hc, (synchronize_spec _ _ init base) by done.
  destruct (replay c init (events_from base log)) as [s|e] eqn:Er.
  2:{ split_and!; try done. unfold live_ok. split_and!; try done. intros read [= <-]. unfold outcome. by rewrite Er. }
  destruct (canonical_state_bytes state_eq (state_codec c) s) as [b|e] eqn:Eb.
  2:{ split_and!; try done. unfold live_ok. split_and!; try done.
      intros read [= <-]. unfold outcome. rewrite Er. cbn. by rewrite Eb. }
  split_and!; try done. unfold live_ok.
  split_and!; try done; [by apply synced_ok|]. intros read [= <-]. unfold outcome. rewrite Er. cbn. by rewrite Eb.
Qed.

Lemma try_get_ok log p :
  lawful_eq state_eq -> live_ok log p ->
  live_ok log (try_get state_eq p log).1 /\ (try_get state_eq p log).2 = outcome init base log.
Proof.
  intros Heq Hok. pose proof (memo_get_ok log p Heq Hok) as Hg. unfold try_get, settle.
  destruct (memo_get state_eq p log) as [p' read]. destruct Hg as (Hok' & Hm' & _). cbn. split; [done|].
  destruct Hok' as (_ & _ & _ & Hm). specialize (Hm read Hm'). destruct (outcome init base log) as [s|e].
  - destruct Hm as (-> & Hh & Hs). cbn. rewrite bool_decide_eq_true_2 by done. cbn. by rewrite Hs.
  - by rewrite Hm.
Qed.

Lemma commit_ok log p prepared p' previous :
  lawful_eq state_eq -> live_ok log p -> prepare state_eq p log = Ok prepared ->
  commit_prepared p prepared = Ok (p', previous) ->
  contract p' = c /\ previous = state (stable p) /\ checkpoint_ok state_eq c init base log (stable p')
  /\ stable_history (stable p') = cursor log /\ Ok (state (stable p')) = outcome init base log
  /\ prepared_state prepared = state (stable p').
Proof.
  intros Heq (Hc & Hl & Hok & _) Hp Hcm. unfold prepare in Hp. rewrite Hc, (prepare_spec _ _ init base) in Hp by done.
  unfold outcome. destruct (replay c init (events_from base log)) as [s|] eqn:Er; [|done].
  destruct (canonical_state_bytes state_eq (state_codec c) s) as [b|] eqn:Eb; [|done].
  apply bind_ok in Hp as (snap & _ & [= <-]). unfold commit_prepared, commit_stable in Hcm. cbn in Hcm.
  rewrite bool_decide_eq_true_2 in Hcm by done. injection Hcm as <- <-. cbn. rewrite Eb.
  split_and!; try done. exact (synced_ok state_eq c init base log (stable p) s b Hok Er Eb).
Qed.

(** A projection at a checkpoint that has not been read. *)
Lemma fresh_ok log st : len log <= u64_max -> checkpoint_ok state_eq c init base log st -> live_ok log (mkProjection None st c).
Proof. intros Hl Hok. unfold live_ok. by split_and!. Qed.

Lemma append_ok log more p : len (log ++ more) <= u64_max -> live_ok log p -> live_ok (log ++ more) (invalidate p).
Proof. intros Hl (Hc & _ & Hok & _). unfold live_ok. split_and!; [done|done|by apply checkpoint_extend|done]. Qed.

Lemma published_ok log more p prepared p' previous :
  lawful_eq state_eq -> len (log ++ more) <= u64_max -> live_ok log p ->
  prepare state_eq p (log ++ more) = Ok prepared -> commit_prepared p prepared = Ok (p', previous) ->
  live_ok (log ++ more) (invalidate p').
Proof.
  intros Heq Hl Hlive Hp Hcm. pose proof (append_ok _ _ _ Hl Hlive) as Hlive'.
  assert (commit_prepared (invalidate p) prepared = Ok (invalidate p', previous)) as Hcm'.
  { unfold commit_prepared in *. cbn. destruct (commit_stable (stable p) prepared) as [[st x]|]; [|done]. cbn in *.
    by injection Hcm as <- <-. }
  destruct (commit_ok _ _ _ _ _ Heq Hlive' Hp Hcm') as (Hc' & _ & Hck & _). unfold live_ok. by split_and!.
Qed.
End seeded.

Lemma new_ok init log p :
  len log <= u64_max ->
  new state_eq log init (resolve c) (schema_set_digest c) (reduce c) (reducer_identity c) (state_codec c) = Ok p ->
  codec_identity (state_codec c) = Returned (checked_identity c) -> live_ok init 0 log p.
Proof.
  intros Hl Hnew Hid. unfold new, checked_codec_identity, from_stable in Hnew. rewrite Hid in Hnew.
  apply bind_ok in Hnew as (h & Hh & Hnew). rewrite map_err_ok in Hh. cbn [mbind result_bind] in Hnew.
  apply bind_ok in Hnew as (b & Hb & [= <-]). pose proof Hh as [_ ->]%cursor_at_spec.
  unfold live_ok. split_and!; [by destruct c|done| |done]. unfold checkpoint_ok. cbn. by split_and!.
Qed.

(** What [restore] reads from: the decoded state, at the cursor of the snapshot. *)
Lemma restore_cases log snap init :
  codec_identity (state_codec c) = Returned (checked_identity c) ->
  codec_decode (state_codec c) (Snapshot.state_bytes snap) = Ok init -> forall p,
  restore state_eq log snap (resolve c) (schema_set_digest c) (reduce c) (reducer_identity c) (state_codec c) = Ok p ->
  checkpoint_ok state_eq c init (position (history snap)) log (mkStable init (Snapshot.state_bytes snap) (history snap) 0)
  /\ p = (try_get state_eq (mkProjection None (mkStable init (Snapshot.state_bytes snap) (history snap) 0) c) log).1.
Proof.
  intros Hid Hdec p. unfold restore, checked_codec_identity. rewrite Hid. cbn [mbind result_bind]. intros Hx.
  destruct (bool_decide (schema_set snap = _)); [|done]. destruct (bool_decide (reducer snap = _)); [|done]. cbn [negb] in Hx.
  destruct (bool_decide_reflect (codec snap = checked_identity c)) as [Hcodec|]; [|done]. cbn [negb] in Hx.
  apply bind_ok in Hx as (t & Ht & Hx). rewrite map_err_ok in Ht. rewrite Hdec in Hx. cbn [mbind result_bind] in Hx.
  apply bind_ok in Hx as (q & Hq & Hx). unfold from_stable in Hq. apply bind_ok in Hq as (b & Hb & Hq).
  destruct (bool_decide_reflect (Snapshot.state_bytes snap = b)) as [<-|]; [|done]. injection Hq as <-.
  rewrite Hcodec in Hx. split.
  - unfold tail in Ht. apply bind_ok in Ht as (expected & He & Ht).
    destruct (bool_decide_reflect (head_hash expected = head_hash (history snap))) as [Hh|]; [|done].
    assert (expected = history snap) as ->.
    { pose proof He as [_ ->]%cursor_at_spec. destruct (history snap). cbn in *. by rewrite Hh. }
    unfold checkpoint_ok. cbn. split_and!; [done|lia| |done|lia].
    unfold events_from. rewrite drop_ge; [done|]. rewrite length_take. lia.
  - assert (mkContract S E (resolve c) (schema_set_digest c) (reduce c) (reducer_identity c) (state_codec c) (checked_identity c) = c)
      as Hcc by by destruct c.
    rewrite Hcc in Hx. destruct (try_get _ _ log) as [p' r]. destruct r; [|done]. by injection Hx.
Qed.

Lemma lives_ok init base log p : lawful_eq state_eq -> lives init base log p -> live_ok init base log p.
Proof.
  intros Heq. induction 1 as [init log p Hl Hn Hid|snap init log p Hl Hr Hd Hid|init base log more p Hl _ IH|init base log p _ IH
    |init base log more p pr p' prev Hl _ IH Hp Hcm].
  - by apply new_ok.
  - destruct (restore_cases _ _ _ Hid Hd _ Hr) as [Hok ->]. by apply try_get_ok, fresh_ok.
  - by apply append_ok.
  - by apply try_get_ok.
  - by eapply published_ok.
Qed.

(** A snapshot is taken of the state that a read returns. *)
Lemma snapshot_of_read init base log p snap :
  lawful_eq state_eq -> live_ok init base log p -> (snapshot state_eq p log).2 = Ok snap ->
  exists s b, outcome init base log = Ok s /\ canonical_state_bytes state_eq (state_codec c) s = Ok b
    /\ history snap = cursor log /\ Snapshot.state_bytes snap = b /\ base <= len log.
Proof.
  intros Heq Hlive. pose proof (memo_get_ok init base log p Heq Hlive) as Hg. unfold snapshot, settle.
  destruct (memo_get state_eq p log) as [p' read]. destruct Hg as ((Hc & Hl & Hok & Hm) & Hread & _). specialize (Hm read Hread).
  cbn [fst snd]. destruct (outcome init base log) as [s|e]; [|by rewrite Hm].
  destruct Hm as (-> & Hh & Hs). cbn [read_error read_history]. rewrite bool_decide_eq_true_2 by done. cbn [mbind result_bind].
  rewrite map_err_ok. unfold create. destruct (_ <? _); [done|]. intros [= <-]. exists s, (stable_bytes (stable p')).
  destruct Hok as (_ & Hbase & _ & Hb & _). rewrite Hs in Hb. rewrite Hh in Hbase. split_and!; [done|done| |done|exact Hbase].
  unfold with_digest. cbn. done.
Qed.

(** Continuing from what the snapshot decodes to is continuing the replay. *)
Lemma outcome_resumes init base log s more :
  base <= len log -> replay c init (events_from base log) = Ok s ->
  outcome s (len log) (log ++ more) = outcome init base (log ++ more).
Proof.
  intros Hb Hr. unfold outcome. unfold len, blen in *.
  rewrite (events_from_split base (length log) (log ++ more)) by (rewrite ?length_app; lia).
  rewrite take_app_length, replay_app, Hr. cbn [mbind result_bind]. unfold events_from.
  by rewrite Nat2N.id.
Qed.

Lemma canonical_decodes codec s b : lawful_eq state_eq -> canonical_state_bytes state_eq codec s = Ok b -> codec_decode codec b = Ok s.
Proof.
  intros Heq Hb. unfold canonical_state_bytes in Hb. apply bind_ok in Hb as (b' & _ & Hb). apply bind_ok in Hb as (d & Hd & Hb).
  destruct (state_eq d s) eqn:Es; [|done]. apply Heq in Es as ->. cbn in Hb.
  apply bind_ok in Hb as (b'' & _ & Hb). destruct (negb _); [done|]. injection Hb as <-. done.
Qed.
End lifecycle.

(** ** Properties *)

(** C23. A projection is the replay of its log: in every state a program can bring it to
    (creation, restoring, reads, notifications of appended events, prepared commits), a
    read returns the fold of the history from where the projection started, or the error
    of that fold at its first failing event. One that was created starts from the initial
    state at genesis; one that was restored, from the state its snapshot decodes to, after
    the events its snapshot names, forged or not. The snapshot that a projection takes
    decodes to the state of a read, and continuing from it, however the log grows, is
    continuing the replay of that projection, so that restoring honest snapshots, any
    number of times, never shows. *)
Theorem projection_is_replay `{Sha256} {S E} (state_eq : S -> S -> bool) (c : ProjectionContract S E) init base log p :
  lawful_eq state_eq -> lives state_eq c init base log p ->
  (try_get state_eq p log).2 = outcome state_eq c init base log
  /\ forall snap, (snapshot state_eq p log).2 = Ok snap ->
       exists s, codec_decode (state_codec c) (Snapshot.state_bytes snap) = Ok s
         /\ outcome state_eq c init base log = Ok s
         /\ forall more, outcome state_eq c s (position (history snap)) (log ++ more) = outcome state_eq c init base (log ++ more).
Proof.
  intros Heq Hlive. pose proof (lives_ok state_eq c init base log p Heq Hlive) as Hok. split; [by apply try_get_ok|].
  intros snap Hsnap. destruct (snapshot_of_read _ _ _ _ _ _ _ Heq Hok Hsnap) as (s & b & Hout & Hb & Hh & Hbytes & Hbase).
  exists s. rewrite Hbytes, Hh. split_and!; [by eapply canonical_decodes|done|]. intros more. apply outcome_resumes; [done|].
  unfold outcome in Hout. destruct (replay c init (events_from base log)) as [s'|]; [|done]. cbn [mbind result_bind] in Hout.
  destruct (canonical_state_bytes state_eq (state_codec c) s'); [|done]. by injection Hout as ->.
Qed.

(** [synchronize] is transactional: from a checkpoint of a prefix it publishes
    the state, bytes, cursor and event count of the whole history, or it fails with
    the replay's error and leaves the checkpoint as it was. *)
Theorem synchronize_transactional `{Sha256} {S E} (state_eq : S -> S -> bool) (c : ProjectionContract S E) init base log st :
  lawful_eq state_eq -> len log <= u64_max -> checkpoint_ok state_eq c init base log st ->
  match synchronize state_eq c st log with
  | (st', Ok h) =>
      h = cursor log /\ checkpoint_ok state_eq c init base log st' /\ stable_history st' = h
      /\ outcome state_eq c init base log = Ok (state st')
      /\ folded st' = folded st + (len log - position (stable_history st))
  | (st', Err e) => st' = st /\ outcome state_eq c init base log = Err e
  end.
Proof.
  intros Heq Hl Hok. rewrite (synchronize_spec _ _ init base) by done. unfold outcome.
  destruct (replay c init (events_from base log)) as [s|e] eqn:Er; [|done]. cbn [mbind result_bind].
  destruct (canonical_state_bytes state_eq (state_codec c) s) as [b|e] eqn:Eb; cbn; [|done].
  split_and!; try done. by apply synced_ok.
Qed.

(** Restoring is replaying: from a snapshot taken at a checkpoint of a prefix of
    this history, under the same contracts, [restore] returns the projection of the
    full replay, or the error of the full replay. *)
Theorem restore_is_replay `{Sha256} {S E} (state_eq : S -> S -> bool) (c : ProjectionContract S E) init base log st snap :
  lawful_eq state_eq -> len log <= u64_max -> checkpoint_ok state_eq c init base log st ->
  codec_identity (state_codec c) = Returned (checked_identity c) ->
  create (stable_history st) (schema_set_digest c) (reducer_identity c) (checked_identity c) (stable_bytes st) = Ok snap ->
  match restore state_eq log snap (resolve c) (schema_set_digest c) (reduce c) (reducer_identity c) (state_codec c) with
  | Ok p => outcome state_eq c init base log = Ok (state (stable p)) /\ stable_history (stable p) = cursor log
            /\ checkpoint_ok state_eq c init base log (stable p)
  | Err e => outcome state_eq c init base log = Err e
  end.
Proof.
  intros Heq Hl Hok Hid Hsnap. unfold create in Hsnap. destruct (_ <? _); [done|]. injection Hsnap as <-.
  unfold restore, checked_codec_identity, with_digest.
  rewrite Hid. cbn [mbind result_bind schema_set reducer codec history Snapshot.state_bytes].
  rewrite !bool_decide_eq_true_2 by done. cbn [negb].
  destruct (checkpoint_tail _ _ _ _ _ _ Hok) as [-> _]. cbn [map_err mbind result_bind].
  pose proof Hok as (Hc & Hbase & Hr & Hb & Hf).
  assert (codec_decode (state_codec c) (stable_bytes st) = Ok (state st)) as ->.
  { by eapply canonical_decodes. }
  cbn [mbind result_bind]. unfold from_stable. rewrite Hb. cbn [mbind result_bind].
  rewrite bool_decide_eq_true_2 by done. cbn [negb mbind result_bind].
  set (p := mkProjection None _ _).
  assert (live_ok state_eq c init base log p) as Hlive.
  { unfold live_ok. split_and!; [by destruct c|done| |done]. unfold checkpoint_ok, p. cbn. split_and!; try done. lia. }
  destruct (try_get_ok state_eq c init base log p Heq Hlive) as [Hlive' Hout].
  destruct (try_get state_eq p log) as [p' r] eqn:Et. cbn [fst snd] in *. rewrite <-Hout.
  destruct r as [s|e]; cbn [mbind result_bind]; [|done].
  unfold try_get, settle in Et. destruct (memo_get state_eq p log) as [p1 read] eqn:Em. injection Et as -> Et.
  destruct Hlive' as (_ & _ & Hck & Hmemo).
  pose proof (memo_get_ok state_eq c init base log p Heq Hlive) as Hg. rewrite Em in Hg. destruct Hg as (_ & Hread & _).
  specialize (Hmemo read Hread). rewrite <-Hout in Hmemo. destruct Hmemo as (_ & Hh & <-). done.
Qed.

(** [restore] accepts no foreign checkpoint: when it succeeds the schema set, the
    reducer and the codec are the ones of the snapshot, the snapshot's cursor is a
    position of this very history, and the state it starts from is the decoding of
    the snapshot's bytes and encodes back to them. *)
Theorem restore_checks `{Sha256} {S E} (state_eq : S -> S -> bool) log snap resolve digest reduce red cod
    (p : Projection S E) :
  restore state_eq log snap resolve digest reduce red cod = Ok p ->
  schema_set snap = digest /\ reducer snap = red /\ codec_identity cod = Returned (codec snap)
  /\ cursor_at log (position (history snap)) = Ok (history snap)
  /\ exists s, codec_decode cod (Snapshot.state_bytes snap) = Ok s
       /\ canonical_state_bytes state_eq cod s = Ok (Snapshot.state_bytes snap).
Proof.
  unfold restore, checked_codec_identity. destruct (codec_identity cod) as [identity|]; [|done].
  cbn [mbind result_bind]. intros Hx.
  destruct (bool_decide_reflect (schema_set snap = digest)) as [Hs|]; [|done]. cbn [negb] in Hx.
  destruct (bool_decide_reflect (reducer snap = red)) as [Hr|]; [|done]. cbn [negb] in Hx.
  destruct (bool_decide_reflect (codec snap = identity)) as [Hc|]; [|done]. cbn [negb] in Hx.
  apply bind_ok in Hx as (t & Ht & Hx). rewrite map_err_ok in Ht.
  apply bind_ok in Hx as (s & Hd & Hx). apply bind_ok in Hx as (q & Hq & _).
  unfold from_stable in Hq. apply bind_ok in Hq as (b & Hb & Hq).
  destruct (bool_decide_reflect (Snapshot.state_bytes snap = b)) as [Heq|]; [|done].
  split_and!; [done|done|by rewrite Hc| |exists s; split; [done|by rewrite Heq]].
  unfold tail in Ht. apply bind_ok in Ht as (expected & He & Ht).
  destruct (bool_decide_reflect (head_hash expected = head_hash (history snap))) as [Hh|]; [|done].
  rewrite He. pose proof He as [_ ->]%cursor_at_spec. f_equal. destruct (history snap). cbn in *. by rewrite Hh.
Qed.

(** ** Witnesses *)

Module ProjectionSample.
#[local] Existing Instance toy_sha256.

(** A projection that counts the events of a log. *)
Definition zero : Hash := replicate 32 x00.
Definition red : ContractIdentity := mkIdentity "app/count" 1 zero.
Definition cod : ContractIdentity := mkIdentity "app/u64" 1 zero.

Definition counter_codec : StateCodec N :=
  mkCodec N (Returned cod) (fun n => Returned (Ok (be_bytes 8 n))) (fun bs => Returned (Ok (be_value bs))).

Definition count : ProjectionContract N unit :=
  mkContract N unit (fun _ => Returned (Ok tt)) zero (fun n _ => Returned (Ok (n + 1))) red counter_codec cod.

Definition log1 : Log := LogSample.log1.
Definition log2 : Log := LogSample.log2.

Definition start : Stable N := mkStable 0 (be_bytes 8 0) (mkCursor 0 GENESIS_HASH) 0.
Definition at1 : Stable N := mkStable 1 (be_bytes 8 1) (cursor log1) 1.

Definition projection : Projection N unit := mkProjection None start count.

Lemma eq_lawful : lawful_eq N.eqb.
Proof. intros x y. apply N.eqb_eq. Qed.

Lemma start_ok : checkpoint_ok N.eqb count 0 0 log2 start.
Proof. split_and!; vm_compute; (reflexivity || discriminate). Qed.

Lemma at1_ok : checkpoint_ok N.eqb count 0 0 log2 at1.
Proof. split_and!; vm_compute; (reflexivity || discriminate). Qed.

Definition snap : ProjectionSnapshot :=
  match create (cursor log1) zero red cod (be_bytes 8 1) with Ok s => s | Err _ => SnapshotSample.snapshot end.

Definition restored : Projection N unit :=
  match restore N.eqb log2 snap (resolve count) zero (reduce count) red counter_codec with Ok p => p | Err _ => projection end.
End ProjectionSample.

(** Created, read and told of two events; and restored from the snapshot of one event,
    which counts on from there. *)
Lemma projection_is_replay_witness :
  (try_get (H := toy_sha256) N.eqb (invalidate (try_get (H := toy_sha256) N.eqb ProjectionSample.projection []).1) ([] ++ ProjectionSample.log2)).2
  = outcome N.eqb ProjectionSample.count 0 0 ([] ++ ProjectionSample.log2)
  /\ (try_get (H := toy_sha256) N.eqb ProjectionSample.restored ProjectionSample.log2).2
  = outcome N.eqb ProjectionSample.count 1 1 ProjectionSample.log2.
Proof.
  split.
  - apply (projection_is_replay (H := toy_sha256) N.eqb ProjectionSample.count 0 0 _ _ ProjectionSample.eq_lawful).
    apply lives_append; [vm_compute; discriminate|]. apply lives_read. apply lives_new; vm_compute; (reflexivity || discriminate).
  - apply (projection_is_replay (H := toy_sha256) N.eqb ProjectionSample.count 1 1 _ _ ProjectionSample.eq_lawful).
    apply (lives_restore (H := toy_sha256) N.eqb ProjectionSample.count ProjectionSample.snap); vm_compute; (reflexivity || discriminate).
Defined.

Lemma synchronize_transactional_witness :
  exists st' h, synchronize (H := toy_sha256) N.eqb ProjectionSample.count ProjectionSample.start ProjectionSample.log2 = (st', Ok h)
    /\ h = cursor ProjectionSample.log2.
Proof.
  pose proof (synchronize_transactional (H := toy_sha256) N.eqb ProjectionSample.count 0 0 ProjectionSample.log2
                ProjectionSample.start ProjectionSample.eq_lawful) as Ht.
  specialize (Ht ltac:(vm_compute; discriminate) ProjectionSample.start_ok).
  destruct (synchronize (H := toy_sha256) N.eqb ProjectionSample.count ProjectionSample.start ProjectionSample.log2)
    as [st' [h|e]] eqn:Es.
  - exists st', h. split; [reflexivity|exact (proj1 Ht)].
  - exfalso. vm_compute in Es. discriminate.
Defined.

Lemma restore_is_replay_witness :
  exists p, restore (H := toy_sha256) N.eqb ProjectionSample.log2 ProjectionSample.snap (resolve ProjectionSample.count)
      ProjectionSample.zero (reduce ProjectionSample.count) ProjectionSample.red ProjectionSample.counter_codec = Ok p
    /\ outcome N.eqb ProjectionSample.count 0 0 ProjectionSample.log2 = Ok (state (stable p)).
Proof.
  pose proof (restore_is_replay (H := toy_sha256) N.eqb ProjectionSample.count 0 0 ProjectionSample.log2
                ProjectionSample.at1 ProjectionSample.snap ProjectionSample.eq_lawful) as Hr.
  specialize (Hr ltac:(vm_compute; discriminate) ProjectionSample.at1_ok eq_refl ltac:(vm_compute; reflexivity)).
  cbn [schema_set_digest reducer_identity state_codec ProjectionSample.count] in Hr.
  destruct (restore (H := toy_sha256) N.eqb ProjectionSample.log2 ProjectionSample.snap (resolve ProjectionSample.count)
      ProjectionSample.zero (reduce ProjectionSample.count) ProjectionSample.red ProjectionSample.counter_codec)
    as [p|e] eqn:Es.
  - exists p. split; [reflexivity|exact (proj1 Hr)].
  - exfalso. vm_compute in Es. discriminate.
Defined.

Lemma restore_checks_witness :
  exists p, restore (H := toy_sha256) N.eqb ProjectionSample.log2 ProjectionSample.snap (resolve ProjectionSample.count)
      ProjectionSample.zero (reduce ProjectionSample.count) ProjectionSample.red ProjectionSample.counter_codec = Ok p
    /\ schema_set ProjectionSample.snap = ProjectionSample.zero.
Proof.
  destruct (restore (H := toy_sha256) N.eqb ProjectionSample.log2 ProjectionSample.snap (resolve ProjectionSample.count)
      ProjectionSample.zero (reduce ProjectionSample.count) ProjectionSample.red ProjectionSample.counter_codec)
    as [p|e] eqn:Es.
  - exists p. split; [reflexivity|]. exact (proj1 (restore_checks (H := toy_sha256) _ _ _ _ _ _ _ _ _ Es)).
  - exfalso. vm_compute in Es. discriminate.
Defined.
