(* ===== verification/Scheduler.v ===== *)
(** * Scheduler: the causal transaction kernel.

    Models [crates/pliego-fold/src/scheduler.rs]: tickets and queues, the drain loop
    with its limits, the execution of one transaction (append, prepare, commit,
    publish, receipt) and its failure paths.

    The reactive effects that run while a committed log is published are a
    parameter: a finite [script] of calls on the scheduler's handle, which may end
    in a panic. [drain] returns an [option]: [None] stands for a panic of the
    kernel ([expect]) or for exhausted fuel, and [drain_total] excludes both. *)

From S2P Require Import Prelude Decimal Json Log Snapshot Projection.

Definition TRANSACTION_RECEIPT_CONTRACT_V1 : string := "dev.pliegors.fold-transaction-receipt/v1".
Definition MAX_CONFIGURED_EVENTS_PER_TRANSACTION : N := 1024.
Definition MAX_CONFIGURED_TRANSACTIONS_PER_DRAIN : N := 4096.
Definition MAX_CONFIGURED_EVENTS_PER_DRAIN : N := 65536.

Record CausalLimits : Type := mkLimits {
  max_events_per_transaction : N; max_transactions_per_drain : N; max_events_per_drain : N }.

Definition default_limits : CausalLimits := mkLimits 64 256 4096.

Inductive RuntimePhase : Type :=
  Idle | Collecting | Reducing | Planning | Committing | RunningEffects | RecordingReceipt | Recovering.

Record DispatchTicket : Type := mkTicket { transaction : N; ordinal : N }.
Record ProjectionPoint : Type := mkPoint { point_history : LogCursor; point_root : StateRoot }.

Inductive TransactionOutcome : Type := Committed | Rejected.
Inductive TransactionFailure : Type :=
  FailEventRejected | FailEventPanicked | FailProjectionRejected | FailEffectPanicked | FailStateDropPanicked.

Record TransactionReceipt : Type := mkReceipt {
  receipt_contract : string; transaction_id : N; receipt_outcome : TransactionOutcome; attempted_events : N;
  committed_events : N; before : ProjectionPoint; after : ProjectionPoint; failure : option TransactionFailure }.

Inductive CausalErrorKind : Type :=
| SchedulerDropped
| InvalidLimits
| ReentrantDrain
| QueueLimit (maximum : N)
| TransactionLimit (maximum : N)
| EventLimit (maximum : N)
| TransactionIdExhausted
| EventRejected (error : LogError)
| EventPanicked (transaction : N)
| ProjectionRejected (error : ProjectionError)
| EffectPanicked (transaction : N)
| StateDropPanicked (transaction : N).

Record CausalError : Type := mkError { error_kind : CausalErrorKind; error_receipts : list TransactionReceipt }.

Definition validate_limits (l : CausalLimits) : result CausalErrorKind CausalLimits :=
  if (0 <? max_events_per_transaction l) && (0 <? max_transactions_per_drain l) && (0 <? max_events_per_drain l)
     && (max_events_per_transaction l <=? max_events_per_drain l)
     && (max_events_per_transaction l <=? MAX_CONFIGURED_EVENTS_PER_TRANSACTION)
     && (max_transactions_per_drain l <=? MAX_CONFIGURED_TRANSACTIONS_PER_DRAIN)
     && (max_events_per_drain l <=? MAX_CONFIGURED_EVENTS_PER_DRAIN)
  then Ok l else Err InvalidLimits.

(** [PendingEvent]: an erased typed event; its [append] can panic in the payload's
    serializer, and appends one linked event when it succeeds. *)
Record PendingEvent `{Sha256} : Type := mkPending {
  append : Log -> caught (result LogError Log);
  append_linked : forall log log', append log = Returned (Ok log') ->
    exists e, log' = log ++ [e] /\ (verify log = Ok tt -> verify log' = Ok tt) }.

(** [TypedPendingEvent::append]. *)
Definition typed_pending `{SerdeJson, Sha256} {T} (schema : EventSchema) (serialize : T -> serialization)
    (from_slice : bytes -> result serde_error T) (eq : T -> T -> bool) (value : T) : PendingEvent.
Proof.
  refine (mkPending _ (fun log => Returned (append_typed schema serialize from_slice eq log value)) _).
  intros log log' [= E]. by eapply append_typed_snoc.
Defined.

Section scheduler.
Context `{Sha256} {S E : Type} (state_eq : S -> S -> bool).

Record QueuedEvent : Type := mkQueued { ticket : DispatchTicket; event : PendingEvent }.

Record CausalCore : Type := mkCore {
  phase : RuntimePhase; active : option N; next_transaction : N;
  ready : list QueuedEvent; deferred : list QueuedEvent; draining : bool }.

Record CausalInner : Type := mkInner {
  core : CausalCore; log : Log; projection : Projection S E; limits : CausalLimits }.

(** What an effect does through its [CausalHandle] while a log is published. *)
Inductive script : Type :=
| Done
| Panic
| Enqueue (event : PendingEvent) (k : result CausalErrorKind DispatchTicket -> script)
| ReadState (k : result ProjectionError S -> script).

(** The effects of publishing a log, and whether dropping a state panics. *)
Context (effects : Log -> script) (drop_panics : S -> bool).

Definition set_core (inner : CausalInner) (c : CausalCore) : CausalInner :=
  mkInner c (log inner) (projection inner) (limits inner).
Definition set_projection (inner : CausalInner) (p : Projection S E) : CausalInner :=
  mkInner (core inner) (log inner) p (limits inner).

Definition set_phase (p : RuntimePhase) (inner : CausalInner) : CausalInner :=
  let c := core inner in
  set_core inner (mkCore p (active c) (next_transaction c) (ready c) (deferred c) (draining c)).

Definition from_log (history : Log) (initial : S) (resolve : Event -> caught (result string E)) (digest : Hash)
    (reduce : S -> E -> caught (result ReducerError S)) (reducer : ContractIdentity) (codec : StateCodec S)
    (limits : CausalLimits) : result CausalError CausalInner :=
  let fail kind := mkError kind [] in
  limits ← map_err fail (validate_limits limits);
  _ ← map_err (fun e => fail (EventRejected e)) (verify history);
  p ← map_err (fun e => fail (ProjectionRejected e)) (new state_eq history initial resolve digest reduce reducer codec);
  let '(p, r) := try_get state_eq p history in
  _ ← map_err (fun e => fail (ProjectionRejected e)) r;
  Ok (mkInner (mkCore Idle None 1 [] [] false) history p limits).

Definition enqueue (inner : CausalInner) (e : PendingEvent) : CausalInner * result CausalErrorKind DispatchTicket :=
  let c := core inner in
  match match active c with
        | Some a => ok_or TransactionIdExhausted (checked_add_u64 a 1)
        | None => Ok (next_transaction c)
        end with
  | Err kind => (inner, Err kind)
  | Ok tx =>
      let queue := match active c with Some _ => deferred c | None => ready c end in
      let maximum := max_events_per_transaction (limits inner) in
      if maximum <=? blen queue then (inner, Err (QueueLimit maximum))
      else
        let t := mkTicket tx (blen queue + 1) in
        let queue := queue ++ [mkQueued t e] in
        let c := match active c with
                 | Some _ => mkCore (phase c) (active c) (next_transaction c) (ready c) queue (draining c)
                 | None => mkCore (phase c) (active c) (next_transaction c) queue (deferred c) (draining c)
                 end in
        (set_core inner c, Ok t)
  end.

Definition take_transaction (c : CausalCore) : result CausalErrorKind (CausalCore * option (N * list QueuedEvent)) :=
  match ready c with
  | [] => Ok (c, None)
  | _ =>
      fail_if next_transaction c =? u64_max with TransactionIdExhausted ;;
      id ← Ok (next_transaction c);
      next ← ok_or TransactionIdExhausted (checked_add_u64 (next_transaction c) 1);
      Ok (mkCore Collecting (Some id) next [] (deferred c) (draining c), Some (id, ready c))
  end.

Definition current_point (inner : CausalInner) : CausalInner * result ProjectionError ProjectionPoint :=
  let '(p, h) := history_of state_eq (projection inner) (log inner) in
  match h with
  | Err e => (set_projection inner p, Err e)
  | Ok h =>
      let '(p, r) := state_root state_eq p (log inner) in
      (set_projection inner p, root ← r; Ok (mkPoint h root))
  end.

Definition rejected_receipt (tx attempted : N) (point : ProjectionPoint) (f : TransactionFailure) : TransactionReceipt :=
  mkReceipt TRANSACTION_RECEIPT_CONTRACT_V1 tx Rejected attempted 0 point point (Some f).

(** The appending loop. *)
Fixpoint append_batch (tx : N) (batch : list QueuedEvent) (candidate : Log)
    : result (TransactionFailure * CausalErrorKind) Log :=
  match batch with
  | [] => Ok candidate
  | queued :: batch =>
      match append (event queued) candidate with
      | Returned (Ok candidate) => append_batch tx batch candidate
      | Returned (Err e) => Err (FailEventRejected, EventRejected e)
      | Panicked => Err (FailEventPanicked, EventPanicked tx)
      end
  end.

(** Run the effects; the flag tells whether they panicked. *)
Fixpoint run_script (s : script) (inner : CausalInner) : CausalInner * bool :=
  match s with
  | Done => (inner, false)
  | Panic => (inner, true)
  | Enqueue e k => let '(inner, r) := enqueue inner e in run_script (k r) inner
  | ReadState k =>
      let '(p, r) := try_get state_eq (projection inner) (log inner) in
      run_script (k r) (set_projection inner p)
  end.

(** [ReactiveLog::publish]: the signal takes the log, its dependents are notified,
    then the effects run. *)
Definition publish (candidate : Log) (inner : CausalInner) : CausalInner * bool :=
  run_script (effects candidate) (mkInner (core inner) candidate (invalidate (projection inner)) (limits inner)).

(** A receipt with the error to report, fatal ([Err]) or after commit ([Ok]). *)
Abbreviation executed :=
  (CausalInner * result (TransactionReceipt * CausalErrorKind) (TransactionReceipt * option CausalErrorKind))%type.

Definition execute_transaction (inner : CausalInner) (tx : N) (batch : list QueuedEvent) : option executed :=
  let attempted := blen batch in
  match current_point inner with
  | (_, Err _) => None
  | (inner, Ok before) =>
      let reject inner f kind := Some (inner, Err (rejected_receipt tx attempted before f, kind)) in
      match append_batch tx batch (log inner) with
      | Err (f, kind) => reject inner f kind
      | Ok candidate =>
          let inner := set_phase Reducing inner in
          match prepare state_eq (projection inner) candidate with
          | Err e => reject inner FailProjectionRejected (ProjectionRejected e)
          | Ok prepared =>
              let inner := set_phase Planning inner in
              let after := mkPoint (next_history prepared) (prepared_root prepared) in
              let inner := set_phase Committing inner in
              match commit_prepared (projection inner) prepared with
              | Err e => reject inner FailProjectionRejected (ProjectionRejected e)
              | Ok (p, previous) =>
                  let inner := set_phase RunningEffects (set_projection inner p) in
                  let '(inner, effect_panicked) := publish candidate inner in
                  let '(failure, error) :=
                    if (effect_panicked : bool) then (Some FailEffectPanicked, Some (EffectPanicked tx))
                    else if drop_panics previous then (Some FailStateDropPanicked, Some (StateDropPanicked tx))
                    else (None, None) in
                  let inner := set_phase RecordingReceipt inner in
                  Some (inner, Ok (mkReceipt TRANSACTION_RECEIPT_CONTRACT_V1 tx Committed attempted attempted
                                     before after failure, error))
              end
          end
      end
  end.

Definition advance_generation (c : CausalCore) : CausalCore :=
  mkCore Idle None (next_transaction c) (deferred c) [] (draining c).

Definition clear_queues (c : CausalCore) : CausalCore :=
  mkCore (phase c) None (next_transaction c) [] [] (draining c).

(** [DrainGuard::finish]. *)
Definition finish (c : CausalCore) : CausalCore :=
  mkCore Idle None (next_transaction c) (ready c) (deferred c) false.

(** [DrainGuard::drop] of an active guard. *)
Definition guard_drop (c : CausalCore) : CausalCore :=
  mkCore Idle None (next_transaction c) [] [] false.

(** The loop of [drain]: transactions, events, receipts and the first post-commit
    error so far. *)
Fixpoint drain_loop (fuel : nat) (inner : CausalInner) (transactions events : N)
    (post_commit_error : option CausalErrorKind) (receipts : list TransactionReceipt)
    : option (CausalInner * result CausalError (list TransactionReceipt)) :=
  match fuel with
  | O => None
  | Datatypes.S fuel =>
      match take_transaction (core inner) with
      | Err kind => Some (set_core inner (guard_drop (core inner)), Err (mkError kind []))
      | Ok (c, None) =>
          Some (set_core inner (finish c),
                match post_commit_error with Some kind => Err (mkError kind receipts) | None => Ok receipts end)
      | Ok (c, Some (tx, batch)) =>
          let inner := set_core inner c in
          let transactions := transactions + 1 in
          let events := saturating_add events (blen batch) in
          let stop kind receipts inner :=
            Some (set_core inner (finish (clear_queues (core inner))), Err (mkError kind receipts)) in
          if max_transactions_per_drain (limits inner) <? transactions
          then stop (TransactionLimit (max_transactions_per_drain (limits inner))) receipts inner else
          if max_events_per_drain (limits inner) <? events
          then stop (EventLimit (max_events_per_drain (limits inner))) receipts inner else
          match execute_transaction inner tx batch with
          | None => None
          | Some (inner, Ok (receipt, failure)) =>
              let post := match post_commit_error with Some _ => post_commit_error | None => failure end in
              drain_loop fuel (set_core inner (advance_generation (core inner))) transactions events post
                (receipts ++ [receipt])
          | Some (inner, Err (receipt, kind)) => stop kind (receipts ++ [receipt]) inner
          end
      end
  end.

Definition start_draining (c : CausalCore) : CausalCore :=
  mkCore (phase c) (active c) (next_transaction c) (ready c) (deferred c) true.

(** The fuel: each iteration but the last executes a transaction, and their number
    is limited. *)
Definition drain (inner : CausalInner) : option (CausalInner * result CausalError (list TransactionReceipt)) :=
  if draining (core inner) then Some (inner, Err (mkError ReentrantDrain []))
  else
    let fuel := (N.to_nat (max_transactions_per_drain (limits inner)) + 2)%nat in
    drain_loop fuel (set_core inner (start_draining (core inner))) 0 0 None [].

Inductive DispatchOutcome : Type :=
| Queued (ticket : DispatchTicket)
| Drained (ticket : DispatchTicket) (report : list TransactionReceipt).

Definition dispatch (inner : CausalInner) (e : PendingEvent) : option (CausalInner * result CausalError DispatchOutcome) :=
  match enqueue inner e with
  | (inner, Err kind) => Some (inner, Err (mkError kind []))
  | (inner, Ok t) =>
      if draining (core inner) then Some (inner, Ok (Queued t))
      else
        '(inner, r) ← drain inner;
        Some (inner, report ← r; Ok (Drained t report))
  end.
End scheduler.

(** ** Invariants *)

Section invariants.
Context `{Sha256} {S E : Type} (state_eq : S -> S -> bool) (ctr : ProjectionContract S E) (init : S).
Implicit Types (inner : @CausalInner _ S E) (c : @CausalCore _).

(** Queued tickets name one transaction and count from one. *)
Definition tickets_ok (tx : N) (queue : list QueuedEvent) : Prop :=
  forall i q, queue !! i = Some q -> ticket q = mkTicket tx (N.of_nat i + 1).

Definition core_ok (maximum : N) c : Prop :=
  next_transaction c <= u64_max /\ blen (ready c) <= maximum /\ blen (deferred c) <= maximum /\
  match active c with
  | Some a => next_transaction c = a + 1 /\ ready c = [] /\ tickets_ok (next_transaction c) (deferred c)
  | None => deferred c = [] /\ tickets_ok (next_transaction c) (ready c)
  end.

(** The log verifies and the projection has folded all of it. *)
Definition data_ok inner : Prop :=
  verify (log inner) = Ok tt /\ live_ok state_eq ctr init 0 (log inner) (projection inner)
  /\ stable_history (stable (projection inner)) = cursor (log inner)
  /\ outcome state_eq ctr init 0 (log inner) = Ok (state (stable (projection inner))).

Definition inner_ok inner : Prop :=
  validate_limits (limits inner) = Ok (limits inner) /\ data_ok inner
  /\ core_ok (max_events_per_transaction (limits inner)) (core inner).

(** The exact position and root of the projection. *)
Definition root_of (st : Stable S) : option StateRoot :=
  match create (stable_history st) (schema_set_digest ctr) (reducer_identity ctr) (checked_identity ctr) (stable_bytes st) with
  | Ok s => Some (from_snapshot s)
  | Err _ => None
  end.

Definition point_ok inner (pt : ProjectionPoint) : Prop :=
  point_history pt = stable_history (stable (projection inner)) /\ root_of (stable (projection inner)) = Some (point_root pt).

Lemma point_ok_unique inner p q : point_ok inner p -> point_ok inner q -> p = q.
Proof. intros [H1 R1] [H2 R2]. destruct p, q. cbn in *. congruence. Qed.

Lemma tickets_ok_snoc tx queue q :
  tickets_ok tx queue -> ticket q = mkTicket tx (blen queue + 1) -> tickets_ok tx (queue ++ [q]).
Proof.
  intros Ht Hq i x Hi. apply lookup_snoc_Some in Hi as [[_ Hi]|[-> <-]]; [by apply Ht|]. done.
Qed.

Lemma tickets_ok_nil tx : tickets_ok tx [].
Proof. intros i q Hi. by rewrite lookup_nil in Hi. Qed.

Lemma enqueue_ok inner e inner' r :
  core_ok (max_events_per_transaction (limits inner)) (core inner) -> enqueue inner e = (inner', r) ->
  core_ok (max_events_per_transaction (limits inner)) (core inner') /\ log inner' = log inner
  /\ projection inner' = projection inner /\ limits inner' = limits inner
  /\ active (core inner') = active (core inner) /\ next_transaction (core inner') = next_transaction (core inner)
  /\ draining (core inner') = draining (core inner) /\ phase (core inner') = phase (core inner)
  /\ forall t, r = Ok t -> transaction t = next_transaction (core inner).
Proof.
  intros (Hn & Hr & Hd & Ha) He. unfold enqueue in He.
  destruct (active (core inner)) as [a|] eqn:Eact.
  - destruct Ha as (Hna & Hre & Ht). unfold checked_add_u64 in He. rewrite <-Hna, (proj2 (N.leb_le _ _)) in He by done.
    cbn [ok_or] in He. destruct (N.leb_spec (max_events_per_transaction (limits inner)) (blen (deferred (core inner)))).
    { injection He as <- <-. split_and!; try done. unfold core_ok. by rewrite Eact. }
    injection He as <- <-. unfold core_ok. cbn. rewrite ?Eact. split_and!; try done.
    + rewrite blen_app. unfold blen at 2. cbn. lia.
    + by apply tickets_ok_snoc.
    + by intros t [= <-].
  - destruct Ha as (Hde & Ht). cbn [ok_or] in He.
    destruct (N.leb_spec (max_events_per_transaction (limits inner)) (blen (ready (core inner)))).
    { injection He as <- <-. split_and!; try done. unfold core_ok. by rewrite Eact. }
    injection He as <- <-. unfold core_ok. cbn. rewrite ?Eact. split_and!; try done.
    + rewrite blen_app. unfold blen at 2. cbn. lia.
    + by apply tickets_ok_snoc.
    + by intros t [= <-].
Qed.

(** Evaluating the node of a settled projection changes nothing but its cache. *)
Lemma memo_get_settled (p : Projection S E) l :
  lawful_eq state_eq -> live_ok state_eq ctr init 0 l p -> stable_history (stable p) = cursor l ->
  outcome state_eq ctr init 0 l = Ok (state (stable p)) ->
  exists p', memo_get state_eq p l = (p', mkRead (cursor l) None) /\ stable p' = stable p
    /\ live_ok state_eq ctr init 0 l p'.
Proof.
  intros Heq Hlive Hh Hout. pose proof (memo_get_ok state_eq ctr init 0 l p Heq Hlive) as Hg.
  destruct (memo_get state_eq p l) as [p' read] eqn:Em. destruct Hg as (Hlive' & Hm' & Hst).
  pose proof Hlive' as (_ & _ & _ & Hmo). specialize (Hmo read Hm'). rewrite Hout in Hmo. destruct Hmo as (-> & _).
  exists p'. split_and!; [done| |done]. unfold memo_get in Em. destruct (memo p) as [r|] eqn:Emm; [by injection Em as -> _|].
  rewrite Hst by done. unfold synchronize.
  destruct Hlive as (_ & _ & Hck & _). destruct (checkpoint_tail _ _ _ _ _ _ Hck) as [-> _]. cbn [map_err].
  by rewrite Hh, N.eqb_refl.
Qed.

Lemma settle_settled (p : Projection S E) l :
  lawful_eq state_eq -> live_ok state_eq ctr init 0 l p -> stable_history (stable p) = cursor l ->
  outcome state_eq ctr init 0 l = Ok (state (stable p)) ->
  exists p', settle state_eq p l = (p', Ok tt) /\ stable p' = stable p /\ live_ok state_eq ctr init 0 l p'.
Proof.
  intros Heq Hlive Hh Hout. destruct (memo_get_settled p l Heq Hlive Hh Hout) as (p' & Hm & Hs & Hl').
  exists p'. unfold settle. rewrite Hm. cbn. rewrite Hs, bool_decide_eq_true_2 by done. done.
Qed.

Lemma data_ok_projection inner p :
  data_ok inner -> stable p = stable (projection inner) -> live_ok state_eq ctr init 0 (log inner) p ->
  data_ok (set_projection inner p).
Proof. intros (Hv & _ & Hh & Hout) Hs Hl. unfold data_ok. cbn. rewrite Hs. done. Qed.

Lemma root_of_some st : canonical_state_bytes state_eq (state_codec ctr) (state st) = Ok (stable_bytes st) ->
  exists root, root_of st = Some root.
Proof.
  intros Hb%canonical_bounded. unfold root_of.
  destruct (create_bounded (stable_history st) (schema_set_digest ctr) (reducer_identity ctr) (checked_identity ctr)
              (stable_bytes st) Hb) as [s ->]. by eexists.
Qed.

Lemma current_point_ok inner :
  lawful_eq state_eq -> data_ok inner ->
  exists p pt, current_point state_eq inner = (set_projection inner p, Ok pt) /\ point_ok inner pt
    /\ stable p = stable (projection inner) /\ data_ok (set_projection inner p).
Proof.
  intros Heq Hd. pose proof Hd as (_ & Hlive & Hh & Hout).
  destruct (settle_settled _ _ Heq Hlive Hh Hout) as (p1 & Hs1 & Hst1 & Hl1).
  assert (stable_history (stable p1) = cursor (log inner)) as Hh1 by (by rewrite Hst1).
  assert (outcome state_eq ctr init 0 (log inner) = Ok (state (stable p1))) as Hout1 by (by rewrite Hst1).
  destruct (settle_settled _ _ Heq Hl1 Hh1 Hout1) as (p2 & Hs2 & Hst2 & Hl2).
  pose proof Hl2 as (Hc2 & _ & (_ & _ & _ & Hb2 & _) & _).
  destruct (root_of_some (stable p2) Hb2) as [root Hroot].
  exists p2, (mkPoint (cursor (log inner)) root). unfold current_point, history_of. rewrite Hs1. cbn.
  unfold state_root, snapshot. rewrite Hs2. cbn [mbind result_bind].
  unfold root_of in Hroot. rewrite Hc2.
  destruct (create (stable_history (stable p2)) _ _ _ _) as [s|] eqn:Ec; [|done]. injection Hroot as <-.
  assert (stable p2 = stable (projection inner)) as Hst by congruence.
  cbn. rewrite Hh1. split_and!; [done| |done|by apply data_ok_projection].
  split; cbn; [congruence|]. unfold root_of. rewrite <-Hst, Ec. done.
Qed.

(** ** One transaction *)

Lemma append_batch_ok tx batch l l' :
  append_batch tx batch l = Ok l' -> verify l = Ok tt ->
  exists es, l' = l ++ es /\ length es = length batch /\ verify l' = Ok tt.
Proof.
  revert l. induction batch as [|q batch IH]; intros l; cbn [append_batch].
  - intros [= <-] Hv. exists []. by rewrite app_nil_r.
  - destruct (append (event q) l) as [[l1|e]|] eqn:Ea; [|done|done]. intros Hb Hv.
    destruct (append_linked _ _ _ Ea) as (e & -> & Hv1). destruct (IH _ Hb (Hv1 Hv)) as (es & -> & Hlen & Hv').
    exists (e :: es). rewrite <-app_assoc. cbn. split_and!; [done|lia|by rewrite <-app_assoc in Hv'].
Qed.

Lemma run_script_ok s inner inner' b a :
  lawful_eq state_eq -> data_ok inner -> core_ok (max_events_per_transaction (limits inner)) (core inner) ->
  active (core inner) = Some a -> run_script state_eq s inner = (inner', b) ->
  data_ok inner' /\ core_ok (max_events_per_transaction (limits inner)) (core inner')
  /\ active (core inner') = Some a /\ next_transaction (core inner') = next_transaction (core inner)
  /\ draining (core inner') = draining (core inner)
  /\ log inner' = log inner /\ limits inner' = limits inner
  /\ stable (projection inner') = stable (projection inner).
Proof.
  intros Heq. revert inner. induction s as [| |e k IH|k IH]; intros inner Hd Hc Ha; cbn [run_script].
  1-2: by intros [= <- <-].
  - destruct (enqueue inner e) as [i1 r] eqn:Ee.
    destruct (enqueue_ok _ _ _ _ Hc Ee) as (Hc1 & Hl1 & Hp1 & Hli1 & Ha1 & Hn1 & Hd1 & _ & _). intros Hr.
    assert (data_ok i1) as Hd' by (unfold data_ok in *; by rewrite Hl1, Hp1).
    rewrite <-Hli1 in Hc1. destruct (IH r i1 Hd' Hc1) as (? & ? & ? & ? & ? & ? & ? & ?); [congruence|done|].
    rewrite Hli1 in *. split_and!; congruence || done.
  - pose proof Hd as (_ & Hlive & Hh & Hout).
    destruct (settle_settled _ _ Heq Hlive Hh Hout) as (p & Hs & Hst & Hl). unfold try_get. rewrite Hs. cbn.
    intros Hr. destruct (IH (Ok (state (stable p))) (set_projection inner p)) as (? & ? & ? & ? & ? & ? & ? & Hst'); [|done|done|exact Hr|].
    { by apply data_ok_projection. }
    split_and!; try done. by rewrite Hst'.
Qed.
End invariants.

Section execution.
Context `{Sha256} {S E : Type} (state_eq : S -> S -> bool) (ctr : ProjectionContract S E) (init : S).
Context (effects : Log -> @script _ S) (drop_panics : S -> bool).
Implicit Types (inner : @CausalInner _ S E).

(** A prepared commit of the candidate log. *)
Lemma commit_candidate inner es prepared p previous :
  lawful_eq state_eq -> data_ok state_eq ctr init inner -> len (log inner ++ es) <= u64_max ->
  prepare state_eq (projection inner) (log inner ++ es) = Ok prepared ->
  commit_prepared (projection inner) prepared = Ok (p, previous) ->
  contract p = ctr /\ checkpoint_ok state_eq ctr init 0 (log inner ++ es) (stable p)
  /\ stable_history (stable p) = cursor (log inner ++ es)
  /\ outcome state_eq ctr init 0 (log inner ++ es) = Ok (state (stable p))
  /\ next_history prepared = stable_history (stable p) /\ root_of ctr (stable p) = Some (prepared_root prepared).
Proof.
  intros Heq (_ & (Hc & _ & Hck & _) & _) Hl Hp Hcm.
  pose proof (checkpoint_extend _ _ _ _ _ es _ Hck) as Hck'.
  unfold prepare in Hp. rewrite Hc, (prepare_spec _ _ init 0) in Hp by done. unfold outcome.
  destruct (replay ctr init (events_from 0 (log inner ++ es))) as [s|] eqn:Er; [|done].
  destruct (canonical_state_bytes state_eq (state_codec ctr) s) as [b|] eqn:Eb; [|done].
  apply bind_ok in Hp as (snap & Hsnap & [= <-]). rewrite map_err_ok in Hsnap.
  unfold commit_prepared, commit_stable in Hcm. cbn in Hcm.
  rewrite bool_decide_eq_true_2 in Hcm by done. injection Hcm as <- <-. cbn. rewrite Eb.
  split_and!; try done.
  - exact (synced_ok state_eq ctr init 0 _ (stable (projection inner)) s b Hck' Er Eb).
  - unfold root_of. cbn. by rewrite Hsnap.
Qed.

Definition committed_receipt inner inner' (tx n : N) (r : TransactionReceipt) : Prop :=
  transaction_id r = tx /\ receipt_outcome r = Committed /\ attempted_events r = n /\ committed_events r = n
  /\ point_ok ctr inner (before r) /\ point_ok ctr inner' (after r)
  /\ len (log inner') = len (log inner) + n.

Definition rejected_receipt_ok inner (tx n : N) (r : TransactionReceipt) : Prop :=
  transaction_id r = tx /\ receipt_outcome r = Rejected /\ attempted_events r = n /\ committed_events r = 0
  /\ point_ok ctr inner (before r) /\ after r = before r /\ is_Some (failure r).

(** What one executed transaction guarantees. *)
Definition executed_ok inner (tx : N) (batch : list QueuedEvent) 
    (x : @CausalInner _ S E * result (TransactionReceipt * CausalErrorKind) (TransactionReceipt * option CausalErrorKind)) : Prop :=
  let inner' := x.1 in
  data_ok state_eq ctr init inner' /\ limits inner' = limits inner
  /\ core_ok (max_events_per_transaction (limits inner)) (core inner') /\ active (core inner') = Some tx
  /\ next_transaction (core inner') = next_transaction (core inner) /\ draining (core inner') = draining (core inner)
  /\ match x.2 with
     | Ok (r, error) => committed_receipt inner inner' tx (blen batch) r
                        /\ exists es, log inner' = log inner ++ es /\ length es = length batch
     | Err (r, kind) => rejected_receipt_ok inner tx (blen batch) r /\ kind <> TransactionIdExhausted
                        /\ log inner' = log inner /\ stable (projection inner') = stable (projection inner)
     end.

Lemma execute_ok inner tx batch :
  lawful_eq state_eq -> data_ok state_eq ctr init inner ->
  core_ok (max_events_per_transaction (limits inner)) (core inner) -> active (core inner) = Some tx ->
  len (log inner) + blen batch <= u64_max ->
  exists x, execute_transaction state_eq effects drop_panics inner tx batch = Some x /\ executed_ok inner tx batch x.
Proof.
  intros Heq Hd Hc Ha Hl. unfold execute_transaction.
  destruct (current_point_ok state_eq ctr init inner Heq Hd) as (p0 & pt & -> & Hpt & Hst & Hd0).
  set (i0 := set_projection inner p0) in *.
  change (log i0) with (log inner).
  destruct (append_batch tx batch (log inner)) as [cand|[f kind]] eqn:Eb.
  2:{ eexists. split; [reflexivity|]. unfold executed_ok. cbn. split_and!; try done.
      revert Eb. generalize (log inner). induction batch as [|q batch IH]; intros l; cbn [append_batch]; [done|].
      destruct (append (event q) l) as [[l1|e]|]; [|by intros [= <- <-]|by intros [= <- <-]]. 
      intros Eb. apply (IH ltac:(rewrite blen_cons in Hl; lia) l1 Eb). }
  destruct Hd as (Hv & _). destruct (append_batch_ok _ _ _ _ Eb Hv) as (es & -> & Hlen & Hv').
  assert (len (log inner ++ es) = len (log inner) + blen batch) as Hlen'.
  { unfold len. rewrite blen_app. unfold blen at 2. rewrite Hlen. done. }
  cbn [set_phase set_core projection].
  destruct (prepare state_eq (projection i0) (log inner ++ es)) as [prepared|e] eqn:Ep.
  2:{ eexists. split; [reflexivity|]. unfold executed_ok. cbn. by split_and!. }
  destruct (commit_prepared (projection i0) prepared) as [[p previous]|e] eqn:Ecm.
  2:{ eexists. split; [reflexivity|]. unfold executed_ok. cbn. by split_and!. }
  destruct (commit_candidate i0 es prepared p previous Heq Hd0) as (Hcp & Hck & Hh & Hout & Hnext & Hroot);
    [change (len (log inner ++ es) <= u64_max); by rewrite Hlen'|done|done|].
  unfold publish. cbn [set_phase set_core set_projection core limits log projection].
  set (i1 := mkInner _ (log inner ++ es) (invalidate p) _).
  destruct (run_script state_eq (effects (log inner ++ es)) i1) as [i2 panicked] eqn:Er.
  assert (data_ok state_eq ctr init i1) as Hd1.
  { split_and!; cbn; try done. unfold live_ok. split_and!; [done|by rewrite Hlen'|done|done]. }
  destruct (run_script_ok state_eq ctr init (effects (log inner ++ es)) i1 i2 panicked tx Heq Hd1) as (Hd2 & Hc2 & Ha2 & Hn2 & Hdr2 & Hl2 & Hli2 & Hst2);
    [exact Hc|exact Ha|exact Er|].
  assert (forall fl er, executed_ok inner tx batch (set_phase RecordingReceipt i2,
      Ok (mkReceipt TRANSACTION_RECEIPT_CONTRACT_V1 tx Committed (blen batch) (blen batch) pt
            (mkPoint (next_history prepared) (prepared_root prepared)) fl, er))) as Hfin.
  { intros fl er. unfold executed_ok. cbn. split_and!; try done.
    - unfold committed_receipt. cbn. split_and!; try done.
      + unfold point_ok. cbn. rewrite Hst2. by split.
      + by rewrite Hl2.
    - exists es. by rewrite Hl2. }
  destruct panicked; [by eexists|]. destruct (drop_panics previous); by eexists.
Qed.
End execution.

(** ** Draining *)

(** Receipts of consecutive transactions: each starts at the point the previous one
    left, a committed one advances the history by its events, a rejected one leaves
    the point and is the last. *)
Fixpoint receipts_chain (tx : N) (p : ProjectionPoint) (rs : list TransactionReceipt) (q : ProjectionPoint) : Prop :=
  match rs with
  | [] => p = q
  | r :: rs =>
      transaction_id r = tx /\ before r = p
      /\ match receipt_outcome r with
         | Committed => committed_events r = attempted_events r
                        /\ position (point_history (after r)) = position (point_history p) + committed_events r
         | Rejected => committed_events r = 0 /\ after r = p /\ is_Some (failure r) /\ rs = []
         end
      /\ receipts_chain (tx + 1) (after r) rs q
  end.

Definition sum_of (f : TransactionReceipt -> N) (rs : list TransactionReceipt) : N := foldr (fun r n => f r + n) 0 rs.

Definition receipts_of (r : result CausalError (list TransactionReceipt)) : list TransactionReceipt :=
  match r with Ok rs => rs | Err e => error_receipts e end.

Definition ids_exhausted (r : result CausalError (list TransactionReceipt)) : Prop :=
  exists e, r = Err e /\ error_kind e = TransactionIdExhausted.

Section draining.
Context `{Sha256} {S E : Type} (state_eq : S -> S -> bool) (ctr : ProjectionContract S E) (init : S).
Context (effects : Log -> @script _ S) (drop_panics : S -> bool).
Implicit Types (inner : @CausalInner _ S E).

Definition idle (c : @CausalCore _) : Prop :=
  phase c = Idle /\ active c = None /\ deferred c = [] /\ draining c = false.

Lemma take_transaction_ok maximum (c : @CausalCore _) :
  core_ok maximum c -> active c = None ->
  match take_transaction c with
  | Ok (c', None) => c' = c /\ ready c = []
  | Ok (c', Some (tx, batch)) =>
      tx = next_transaction c /\ batch = ready c /\ batch <> [] /\ tickets_ok tx batch
      /\ core_ok maximum c' /\ active c' = Some tx /\ next_transaction c' = tx + 1 /\ draining c' = draining c
  | Err kind => kind = TransactionIdExhausted /\ next_transaction c = u64_max
  end.
Proof.
  intros (Hn & Hr & Hd & Ha) Hact. unfold take_transaction. rewrite Hact in Ha. destruct Ha as [Hde Ht].
  destruct (ready c) as [|q rs] eqn:Er; [done|].
  destruct (N.eqb_spec (next_transaction c) u64_max) as [|Hne]; [done|]. cbn [mbind result_bind].
  unfold checked_add_u64. rewrite (proj2 (N.leb_le _ _)) by lia. cbn. split_and!; try done.
  unfold core_ok. cbn. split_and!; [lia|unfold blen; cbn; lia|done|done|done|rewrite Hde; apply tickets_ok_nil].
Qed.

Lemma advance_ok maximum (c : @CausalCore _) tx :
  core_ok maximum c -> active c = Some tx -> core_ok maximum (advance_generation c).
Proof.
  intros (Hn & Hr & Hd & Ha) Hact. rewrite Hact in Ha. destruct Ha as (Hnx & _ & Ht). unfold core_ok. cbn.
  split_and!; try done. unfold blen. cbn. lia.
Qed.

Lemma empty_core_ok maximum p nx d : nx <= u64_max -> core_ok maximum (mkCore p None nx [] [] d).
Proof. intros Hn. unfold core_ok, blen. cbn. split_and!; try done; lia. Qed.

(** The outcome of a drain, relative to the receipts and budgets it started with. *)
Definition drained_ok inner (transactions events : N) (receipts : list TransactionReceipt) inner'
    (r : result CausalError (list TransactionReceipt)) : Prop :=
  data_ok state_eq ctr init inner' /\ limits inner' = limits inner
  /\ core_ok (max_events_per_transaction (limits inner)) (core inner') /\ idle (core inner') /\ ready (core inner') = []
  /\ (ids_exhausted r \/ exists rs, receipts_of r = receipts ++ rs
      /\ transactions + blen rs <= max_transactions_per_drain (limits inner)
      /\ events + sum_of attempted_events rs <= max_events_per_drain (limits inner)
      /\ Forall (fun x => attempted_events x <= max_events_per_transaction (limits inner)) rs
      /\ len (log inner') = len (log inner) + sum_of committed_events rs
      /\ forall p q, point_ok ctr inner p -> point_ok ctr inner' q -> receipts_chain (next_transaction (core inner)) p rs q).

Definition bounded_memory inner (events : N) : Prop :=
  len (log inner) + (max_events_per_drain (limits inner) - events) <= u64_max.

Lemma limits_bounded l :
  validate_limits l = Ok l -> max_events_per_transaction l <= max_events_per_drain l <= MAX_CONFIGURED_EVENTS_PER_DRAIN.
Proof. unfold validate_limits. destruct (_ && _) eqn:Hl; [|done]. intros _. reflect_guards. done. Qed.

Lemma drain_loop_ok fuel inner transactions events post receipts :
  lawful_eq state_eq -> validate_limits (limits inner) = Ok (limits inner) -> data_ok state_eq ctr init inner ->
  core_ok (max_events_per_transaction (limits inner)) (core inner) -> active (core inner) = None ->
  transactions <= max_transactions_per_drain (limits inner) -> events <= max_events_per_drain (limits inner) ->
  (N.to_nat (max_transactions_per_drain (limits inner) - transactions) + 2 <= fuel)%nat ->
  bounded_memory inner events ->
  exists inner' r, drain_loop state_eq effects drop_panics fuel inner transactions events post receipts = Some (inner', r)
    /\ drained_ok inner transactions events receipts inner' r.
Proof.
  intros Heq. revert inner transactions events post receipts.
  induction fuel as [|fuel IH]; intros inner transactions events post receipts Hlim Hd Hc Ha Htx Hev Hf Hmem; [lia|].
  cbn [drain_loop]. pose proof (take_transaction_ok _ _ Hc Ha) as Ht. pose proof Hc as (Hn & _ & _ & Hc').
  rewrite Ha in Hc'. destruct Hc' as [Hde _].
  destruct (take_transaction (core inner)) as [[c' [[tx batch]|]]|kind].
  3:{ destruct Ht as [-> _]. eexists _, _. split; [reflexivity|]. unfold drained_ok. cbn.
      split_and!; try done; [by apply empty_core_ok|]. left. by eexists. }
  2:{ destruct Ht as [-> Hre]. eexists _, _. split; [reflexivity|]. unfold drained_ok. cbn.
      split_and!; try done.
      - unfold finish. rewrite Hre, Hde. by apply empty_core_ok.
      - right. exists []. rewrite app_nil_r. cbn. split_and!; try done; [by destruct post|unfold blen; cbn; lia|lia|lia|].
        intros p q Hp Hq. by apply (point_ok_unique ctr inner). }
  destruct Ht as (-> & -> & Hne & Htk & Hc1 & Ha1 & Hn1 & Hdr1).
  pose proof (proj1 Hc1) as Hnle. set (i1 := set_core inner c'). cbn [limits set_core] in *.
  assert (blen (ready (core inner)) <= max_events_per_transaction (limits inner)) as Hb by apply Hc.
  assert (forall kind rs i, data_ok state_eq ctr init i -> limits i = limits inner -> next_transaction (core i) <= u64_max ->
    log i = log inner -> stable (projection i) = stable (projection inner) ->
    transactions + blen rs <= max_transactions_per_drain (limits inner) ->
    events + sum_of attempted_events rs <= max_events_per_drain (limits inner) ->
    Forall (fun x => attempted_events x <= max_events_per_transaction (limits inner)) rs -> sum_of committed_events rs = 0 ->
    (forall p, point_ok ctr inner p -> receipts_chain (next_transaction (core inner)) p rs p) ->
    drained_ok inner transactions events receipts (set_core i (finish (clear_queues (core i))))
      (Err (mkError kind (receipts ++ rs)))) as Hstop.
  { intros kind rs i Hdi Hli Hni Hlog Hst H1 H2 H3 H4 H5. unfold drained_ok. cbn.
    split_and!; try done; [by apply empty_core_ok|]. right. exists rs. rewrite Hlog, H4. split_and!; try done; [lia|].
    intros p q Hp Hq. assert (q = p) as ->; [|by apply H5].
    apply (point_ok_unique ctr inner); [|done]. unfold point_ok in *. cbn in Hq. by rewrite Hst in Hq. }
  assert (saturating_add events (blen (ready (core inner))) = events + blen (ready (core inner))) as ->.
  { apply limits_bounded in Hlim. unfold saturating_add, u64_max, MAX_CONFIGURED_EVENTS_PER_DRAIN in *. lia. }
  change (limits i1) with (limits inner).
  destruct (N.ltb_spec (max_transactions_per_drain (limits inner)) (transactions + 1)) as [|Htx1].
  { eexists _, _. split; [reflexivity|]. pose proof (Hstop (TransactionLimit (max_transactions_per_drain (limits inner))) [] i1) as Hs.
    rewrite app_nil_r in Hs. apply Hs; try done; unfold blen; cbn; lia. }
  destruct (N.ltb_spec (max_events_per_drain (limits inner)) (events + blen (ready (core inner)))) as [|Hev1].
  { eexists _, _. split; [reflexivity|]. pose proof (Hstop (EventLimit (max_events_per_drain (limits inner))) [] i1) as Hs.
    rewrite app_nil_r in Hs. apply Hs; try done; unfold blen; cbn; lia. }
  destruct (execute_ok state_eq ctr init effects drop_panics i1 (next_transaction (core inner)) (ready (core inner)))
    as ([i2 res] & -> & Hd2 & Hl2 & Hc2 & Ha2 & Hn2 & Hdr2 & Hres); try done.
  { unfold bounded_memory in Hmem. cbn. lia. }
  cbn [fst snd] in *. destruct res as [[receipt error]|[receipt kind]].
  2:{ destruct Hres as ((Hid & Hout & Hatt & Hcom & Hbef & Haft & Hfail) & _ & Hlog & Hst).
      eexists _, _. split; [reflexivity|]. apply (Hstop kind [receipt] i2); try done; cbn.
      - rewrite Hn2. cbn. lia.
      - rewrite Hatt. lia.
      - constructor; [by rewrite Hatt|constructor].
      - by rewrite Hcom.
      - intros p Hp. assert (p = before receipt) as ->; [by apply (point_ok_unique ctr inner)|].
        rewrite Hid, Hout, Hcom, Haft. by split_and!. }
  destruct Hres as ((Hid & Hout & Hatt & Hcom & Hbef & Haft & Hlen) & _).
  set (i3 := set_core i2 (advance_generation (core i2))).
  destruct (IH i3 (transactions + 1) (events + blen (ready (core inner)))
              (match post with Some _ => post | None => error end) (receipts ++ [receipt])) as (i4 & r & -> & Hdr); try done.
  all: cbn [i3 set_core limits log projection]; rewrite ?Hl2; cbn [i1 set_core limits]; try done.
  { by eapply advance_ok. }
  { lia. }
  { unfold bounded_memory in *. cbn. rewrite Hl2, Hlen. cbn. lia. }
  eexists _, _. split; [reflexivity|].
  destruct Hdr as (Hd4 & Hl4 & Hc4 & Hi4 & Hr4 & Hrs). cbn [i3 set_core limits log projection core] in *. rewrite Hl2 in *.
  change (limits i1) with (limits inner) in *.
  unfold drained_ok. split_and!; try done. destruct Hrs as [He|(rs & Hrs & H1 & H2 & H3 & H4 & H5)]; [by left|right].
  exists (receipt :: rs). cbn [sum_of foldr]. fold (sum_of attempted_events rs) (sum_of committed_events rs).
  rewrite blen_cons, Hatt, Hcom. rewrite <-app_assoc in Hrs. split_and!; try done.
  - lia.
  - lia.
  - constructor; [by rewrite Hatt|done].
  - rewrite H4, Hlen. cbn. lia.
  - intros p q Hp Hq. cbn [receipts_chain]. rewrite Hid, Hout, Hatt, Hcom.
    assert (before receipt = p) as <- by by apply (point_ok_unique ctr i1).
    split_and!; try done.
    + destruct Haft as [-> _], Hbef as [-> _]. destruct Hd2 as (_ & _ & -> & _). destruct Hd as (_ & _ & Hh & _).
      cbn. rewrite Hh. exact Hlen.
    + replace (next_transaction (core inner) + 1) with (next_transaction (core i3)); [by apply H5|].
      cbn. rewrite Hn2. cbn. done.
Qed.
End draining.

(** ** Reachable schedulers *)

Section reachable.
Context `{Sha256} {S E : Type} (state_eq : S -> S -> bool) (ctr : ProjectionContract S E) (init : S).
Context (effects : Log -> @script _ S) (drop_panics : S -> bool).
Implicit Types (inner : @CausalInner _ S E).

(** Built from a log, then used: events queued from outside and drains, whatever
    they returned. *)
Inductive reachable : @CausalInner _ S E -> Prop :=
| reach_new history limits inner :
    len history <= u64_max -> codec_identity (state_codec ctr) = Returned (checked_identity ctr) ->
    from_log state_eq history init (resolve ctr) (schema_set_digest ctr) (reduce ctr) (reducer_identity ctr)
      (state_codec ctr) limits = Ok inner ->
    reachable inner
| reach_enqueue inner e inner' r : reachable inner -> enqueue inner e = (inner', r) -> reachable inner'
| reach_drain inner inner' r :
    reachable inner -> bounded_memory inner 0 ->
    drain state_eq effects drop_panics inner = Some (inner', r) -> reachable inner'.

Definition at_rest inner : Prop :=
  inner_ok state_eq ctr init inner /\ active (core inner) = None /\ draining (core inner) = false.

Lemma drain_ok inner :
  lawful_eq state_eq -> at_rest inner -> bounded_memory inner 0 ->
  exists inner' r, drain state_eq effects drop_panics inner = Some (inner', r)
    /\ drained_ok state_eq ctr init inner 0 0 [] inner' r.
Proof.
  intros Heq ((Hlim & Hd & Hc) & Ha & Hdr) Hmem. unfold drain. rewrite Hdr.
  set (i0 := set_core inner (start_draining (core inner))).
  destruct (drain_loop_ok state_eq ctr init effects drop_panics
              (N.to_nat (max_transactions_per_drain (limits inner)) + 2) i0 0 0 None [])
    as (inner' & r & Hdl & Hok); try done.
  - lia.
  - lia.
  - cbn. rewrite N.sub_0_r. done.
  - exists inner', r. split; [exact Hdl|exact Hok].
Qed.

Lemma drained_at_rest inner inner' r :
  validate_limits (limits inner) = Ok (limits inner) ->
  drained_ok state_eq ctr init inner 0 0 [] inner' r -> at_rest inner'.
Proof.
  intros Hlim (Hd & Hl & Hc & (_ & Ha & _ & Hdr) & _). split_and!; [|done|done]. split_and!; [by rewrite Hl|done|by rewrite Hl].
Qed.

Lemma from_log_ok history limits inner :
  lawful_eq state_eq -> len history <= u64_max -> codec_identity (state_codec ctr) = Returned (checked_identity ctr) ->
  from_log state_eq history init (resolve ctr) (schema_set_digest ctr) (reduce ctr) (reducer_identity ctr)
      (state_codec ctr) limits = Ok inner ->
  at_rest inner.
Proof.
  intros Heq Hl Hid. unfold from_log. destruct (validate_limits limits) as [l|] eqn:Ev; [|done].
  assert (l = limits) as -> by (unfold validate_limits in Ev; destruct (_ && _); congruence).
  cbn [map_err mbind result_bind]. destruct (verify history) as [[]|] eqn:Evf; [|done]. cbn [map_err mbind result_bind].
  destruct (new _ _ _ _ _ _ _ _) as [p|] eqn:En; [|done]. cbn [map_err mbind result_bind].
  pose proof (new_ok _ _ _ _ _ Hl En Hid) as Hlive.
  destruct (try_get_ok state_eq ctr init 0 history p Heq Hlive) as [Hlive' Hout].
  destruct (try_get state_eq p history) as [p' r] eqn:Et. cbn [fst snd] in *. destruct r as [s|]; [|done].
  cbn [map_err mbind result_bind]. intros [= <-].
  unfold try_get, settle in Et. pose proof (memo_get_ok state_eq ctr init 0 history p Heq Hlive) as Hg.
  destruct (memo_get state_eq p history) as [p1 read] eqn:Em. injection Et as -> Et. destruct Hg as (_ & Hread & _).
  pose proof Hlive' as (_ & _ & _ & Hmemo). specialize (Hmemo read Hread). rewrite <-Hout in Hmemo.
  destruct Hmemo as (_ & Hh & Hst).
  split_and!; [|done|done]. split_and!; cbn; [done| |].
  - unfold data_ok. cbn. split_and!; try done. by rewrite Hst.
  - by apply empty_core_ok.
Qed.

Lemma reachable_at_rest inner : lawful_eq state_eq -> reachable inner -> at_rest inner.
Proof.
  intros Heq. induction 1 as [history lim inner Hl Hid Hn|inner e inner' r _ IH He|inner inner' r _ IH Hmem Hd].
  - by eapply from_log_ok.
  - destruct IH as ((Hlim & Hd & Hc) & Ha & Hdr).
    destruct (enqueue_ok _ _ _ _ Hc He) as (Hc' & Hlog & Hp & Hli & Ha' & _ & Hdr' & _).
    split_and!; [|congruence|congruence]. split_and!; [by rewrite Hli| |by rewrite Hli].
    unfold data_ok in *. by rewrite Hlog, Hp.
  - destruct (drain_ok inner Heq IH Hmem) as (i & r' & Hd' & Hok). rewrite Hd in Hd'. injection Hd' as <- <-.
    eapply drained_at_rest; [|exact Hok]. apply IH.
Qed.
End reachable.

(** ** Properties *)

(** C26. A drain terminates without panicking, for every finite behaviour of the
    effects, and is accountable: it ends idle with empty queues, within the limits
    on transactions, on events and on events per transaction; the log has grown by
    the committed events and is verified and folded; the receipts it reports are
    the consecutive transactions, each starting at the point the previous one left,
    up to the exact final point. Only when transaction numbers run out are the
    receipts missing. *)
Theorem drain_total `{Sha256} {S E} (state_eq : S -> S -> bool) (ctr : ProjectionContract S E) init effects drop_panics
    (inner : CausalInner) :
  lawful_eq state_eq -> reachable state_eq ctr init effects drop_panics inner -> bounded_memory inner 0 ->
  exists inner' r, drain state_eq effects drop_panics inner = Some (inner', r)
    /\ drained_ok state_eq ctr init inner 0 0 [] inner' r.
Proof. intros Heq Hr Hmem. apply drain_ok; [done|by eapply reachable_at_rest|done]. Qed.

(** A transaction is atomic: it commits all the events of its batch, folds them
    and reports the new point, even when an effect or a destructor panics
    afterwards; or it reports a rejection and the log and the checkpoint are the
    ones before it. *)
Theorem transaction_atomic `{Sha256} {S E} (state_eq : S -> S -> bool) (ctr : ProjectionContract S E) init effects
    drop_panics (inner : CausalInner) tx batch :
  lawful_eq state_eq -> data_ok state_eq ctr init inner ->
  core_ok (max_events_per_transaction (limits inner)) (core inner) -> active (core inner) = Some tx ->
  len (log inner) + blen batch <= u64_max ->
  exists x, execute_transaction state_eq effects drop_panics inner tx batch = Some x
    /\ executed_ok state_eq ctr init inner tx batch x.
Proof. apply execute_ok. Qed.

(** Tickets tell the truth: in every reachable scheduler the next transaction
    takes exactly the queued events, whose tickets carry its number and count from
    one; an event queued from outside gets the number of the next transaction. *)
Theorem tickets_sound `{Sha256} {S E} (state_eq : S -> S -> bool) (ctr : ProjectionContract S E) init effects drop_panics
    (inner : CausalInner) :
  lawful_eq state_eq -> reachable state_eq ctr init effects drop_panics inner ->
  (forall c tx batch, take_transaction (core inner) = Ok (c, Some (tx, batch)) ->
     tx = next_transaction (core inner) /\ batch = ready (core inner) /\ tickets_ok tx batch)
  /\ forall e inner' t, enqueue inner e = (inner', Ok t) -> transaction t = next_transaction (core inner).
Proof.
  intros Heq Hr. destruct (reachable_at_rest _ _ _ _ _ _ Heq Hr) as ((_ & _ & Hc) & Ha & _). split.
  - intros c tx batch Ht. pose proof (take_transaction_ok _ _ Hc Ha) as Hk. rewrite Ht in Hk.
    by destruct Hk as (? & ? & _ & ? & _).
  - intros e inner' t He. by destruct (enqueue_ok _ _ _ _ Hc He) as (_ & _ & _ & _ & _ & _ & _ & _ & Ht); apply Ht.
Qed.

(** ** Witnesses *)

Module SchedulerSample.
#[local] Existing Instance toy_sha256.
#[local] Existing Instance Sample.sample_json.

Definition note (b : bool) : PendingEvent :=
  typed_pending LogSample.schema LogSample.serialize LogSample.from_slice Bool.eqb b.

(** After the first commit an effect reads the state and queues one more event. *)
Definition effects (log : Log) : @script _ N :=
  if len log =? 1 then ReadState (fun _ => Enqueue (note false) (fun _ => Done)) else Done.

Definition created : @CausalInner _ N unit :=
  mkInner (mkCore Idle None 1 [] [] false) []
    (try_get N.eqb (mkProjection None ProjectionSample.start ProjectionSample.count) []).1 default_limits.

Lemma created_ok :
  from_log N.eqb [] 0 (resolve ProjectionSample.count) ProjectionSample.zero (reduce ProjectionSample.count)
    ProjectionSample.red ProjectionSample.counter_codec default_limits = Ok created.
Proof. vm_compute. reflexivity. Qed.

Definition queued : @CausalInner _ N unit := (enqueue created (note true)).1.

Lemma queued_reachable : reachable N.eqb ProjectionSample.count 0 effects (fun _ => false) queued.
Proof.
  eapply reach_enqueue with (r := (enqueue created (note true)).2); [|apply surjective_pairing].
  eapply reach_new; [| |exact created_ok]; [vm_compute; discriminate|reflexivity].
Qed.

(** A scheduler one transaction away from the last identifier. *)
Definition exhausted : @CausalInner _ N unit :=
  set_core queued (mkCore Idle None (u64_max - 1) (ready (core queued)) [] false).
End SchedulerSample.

Lemma drain_total_witness :
  exists inner' r,
    drain (H := toy_sha256) N.eqb SchedulerSample.effects (fun _ => false) SchedulerSample.queued = Some (inner', r)
    /\ idle (core inner').
Proof.
  destruct (drain_total (H := toy_sha256) N.eqb ProjectionSample.count 0 SchedulerSample.effects (fun _ => false)
              SchedulerSample.queued ProjectionSample.eq_lawful SchedulerSample.queued_reachable)
    as (inner' & r & Hd & (_ & _ & _ & Hi & _)).
  - vm_compute. discriminate.
  - exists inner', r. split; [exact Hd|exact Hi].
Defined.

(** The two transactions of that drain. *)
Example drain_receipts :
  option_map (fun x => map (fun r => (transaction_id r, committed_events r)) (receipts_of x.2))
    (drain (H := toy_sha256) N.eqb SchedulerSample.effects (fun _ => false) SchedulerSample.queued)
  = Some [(1, 1); (2, 1)].
Proof. vm_compute. reflexivity. Qed.

Lemma transaction_atomic_witness :
  let inner := set_core SchedulerSample.queued (mkCore Collecting (Some 1) 2 [] [] true) in
  exists x, execute_transaction (H := toy_sha256) N.eqb SchedulerSample.effects (fun _ => false) inner 1
              (ready (core SchedulerSample.queued)) = Some x
    /\ executed_ok (H := toy_sha256) N.eqb ProjectionSample.count 0 inner 1 (ready (core SchedulerSample.queued)) x.
Proof.
  intros inner.
  apply (transaction_atomic (H := toy_sha256) N.eqb ProjectionSample.count 0 SchedulerSample.effects (fun _ => false)).
  - exact ProjectionSample.eq_lawful.
  - exact (proj1 (proj2 (proj1 (reachable_at_rest (H := toy_sha256) _ _ _ _ _ _ ProjectionSample.eq_lawful
             SchedulerSample.queued_reachable)))).
  - split; [vm_compute; discriminate|]. split; [vm_compute; discriminate|]. split; [vm_compute; discriminate|].
    split; [reflexivity|]. split; [reflexivity|apply tickets_ok_nil].
  - reflexivity.
  - vm_compute. discriminate.
Defined.

Lemma tickets_sound_witness :
  exists t, (enqueue (H := toy_sha256) SchedulerSample.queued (SchedulerSample.note true)).2 = Ok t /\ transaction t = 1.
Proof.
  destruct (enqueue (H := toy_sha256) SchedulerSample.queued (SchedulerSample.note true)) as [inner' [t|e]] eqn:He.
  - exists t. split; [reflexivity|].
    rewrite (proj2 (tickets_sound (H := toy_sha256) N.eqb ProjectionSample.count 0 SchedulerSample.effects
               (fun _ => false) SchedulerSample.queued ProjectionSample.eq_lawful SchedulerSample.queued_reachable)
               _ _ _ He).
    vm_compute. reflexivity.
  - exfalso. apply (f_equal (fun x => is_ok x.2)) in He. vm_compute in He. discriminate.
Defined.

(** When the identifiers run out after a commit, the error carries no receipt. *)
Example exhausted_drain_loses_receipts :
  option_map (fun x => (len (log x.1), x.2))
    (drain (H := toy_sha256) N.eqb SchedulerSample.effects (fun _ => false) SchedulerSample.exhausted)
  = Some (1, Err (mkError TransactionIdExhausted [])).
Proof. vm_compute. reflexivity. Qed.
