(* ===== verification/Request.v ===== *)
(** * Request: what the [pliego-data] components share

    The helpers of [pliego-data] that several of its modules call or repeat:
    [validate_stable_id] of [lib.rs], and the clock, duration and text helpers
    that [session.rs], [idempotency.rs] and [cache.rs] each define for
    themselves with the same body. A [Duration] is its number of nanoseconds;
    the reading of [SystemTime::now()] is an argument, the milliseconds since the
    epoch as a [u128], or [None] before the epoch. *)

From S2P Require Import Prelude.

Local Open Scope string_scope.
Local Open Scope N_scope.

Definition MAX_STABLE_ID_BYTES : N := 96.

(** [str::contains] with a string pattern. *)
Fixpoint str_contains (pattern s : string) : bool :=
  starts_with pattern s ||
  match s with
  | EmptyString => false
  | String _ s' => str_contains pattern s'
  end.

(** [str::ends_with]. *)
Fixpoint ends_with (suffix s : string) : bool :=
  String.eqb suffix s ||
  match s with
  | EmptyString => false
  | String _ s' => ends_with suffix s'
  end.

Definition is_stable_id_char (c : ascii) : bool :=
  is_ascii_lowercase c || is_ascii_digit c || Ascii.eqb c "-"%char.

Definition validate_stable_id (value : string) : bool :=
  if (slen value =? 0) || (MAX_STABLE_ID_BYTES <? slen value) then false
  else
    match value with
    | EmptyString => false
    | String first rest =>
        is_ascii_lowercase first && string_all is_stable_id_char rest
        && negb (ends_with "-" value) && negb (str_contains "--" value)
    end.

(** [chars().any(char::is_control)] on UTF-8 text: the code points [U+0000] to
    [U+001F] and [U+007F] are one byte, [U+0080] to [U+009F] are [0xC2] and the
    byte of the same number. *)
Fixpoint any_control (s : string) : bool :=
  match s with
  | EmptyString => false
  | String c s' =>
      (Ascii.N_of_ascii c <? 32) || (Ascii.N_of_ascii c =? 127)
      || ((Ascii.N_of_ascii c =? 194) &&
          match s' with
          | EmptyString => false
          | String d _ => (128 <=? Ascii.N_of_ascii d) && (Ascii.N_of_ascii d <=? 159)
          end)
      || any_control s'
  end.

(** ** Durations and the clock *)

(** A [Duration], in nanoseconds. *)
Definition Duration : Type := N.

Definition from_secs (s : N) : Duration := s * 1000000000.
Definition from_millis (ms : N) : Duration := ms * 1000000.
Definition as_millis (d : Duration) : N := d / 1000000.

(** A reading of the system clock. *)
Definition clock : Type := option N.

Definition unix_millis {E} (clock_error : E) (now : clock) : result E N :=
  match now with
  | None => Err clock_error
  | Some ms => if ms <=? u64_max then Ok ms else Err clock_error
  end.

Definition duration_millis {E} (too_large : E) (d : Duration) : result E N :=
  if as_millis d <=? u64_max then Ok (as_millis d) else Err too_large.

(** [serde_json::to_vec] and [from_slice] at an application type. *)
Class Serde (V : Type) : Type := { to_vec : V -> option bytes; from_slice : bytes -> option V }.

(** [BTreeSet] iteration: the elements in ascending order. *)
Definition btree_elements (s : gset string) : list string := merge_sort String.le (elements s).

(** A digest preimage made of length-prefixed fields. *)
Definition lp_all (fields : list bytes) : bytes := concat (map lp fields).

(** ** Lemmas *)

Lemma elem_of_btree_elements s x : x ∈ btree_elements s <-> x ∈ s.
Proof. unfold btree_elements. rewrite merge_sort_Permutation. apply elem_of_elements. Qed.

Lemma lp_all_inj xs ys :
  Forall (fun f => blen f <= u64_max) xs -> Forall (fun f => blen f <= u64_max) ys -> lp_all xs = lp_all ys -> xs = ys.
Proof.
  intros Hx. revert ys. induction Hx as [|x xs Hx _ IH]; intros ys Hy He.
  - destruct ys as [|y ys]; [done|]. apply (f_equal length) in He. cbn in He. lia.
  - destruct Hy as [|y ys Hy Hys]; [apply (f_equal length) in He; cbn in He; lia|].
    cbn in He. apply lp_app_inj in He as [-> He]; [|done..]. f_equal. by apply IH.
Qed.

(** The fields of a short preimage are short. *)
Lemma lp_all_fits fields n : blen (lp_all fields) <= n -> Forall (fun f => blen f <= n) fields.
Proof.
  revert n. induction fields as [|f fields IH]; intros n Hn; [constructor|].
  change (blen (lp f ++ lp_all fields)%list <= n) in Hn. unfold lp in Hn. rewrite !blen_app in Hn.
  constructor; [lia|]. apply IH. lia.
Qed.

Lemma unix_millis_ok {E} (e : E) now ms : unix_millis e now = Ok ms <-> now = Some ms /\ ms <= u64_max.
Proof.
  unfold unix_millis. destruct now as [n|]; [|naive_solver]. destruct (N.leb_spec n u64_max); naive_solver lia.
Qed.

Lemma duration_millis_ok {E} (e : E) d : as_millis d <= u64_max -> duration_millis e d = Ok (as_millis d).
Proof. intros H. unfold duration_millis. by rewrite (proj2 (N.leb_le _ _) H). Qed.

Lemma as_millis_le d s : d <= from_secs s -> as_millis d <= s * 1000.
Proof. unfold as_millis, from_secs. intros H. div_lia. Qed.

Lemma as_millis_mono d e : d <= e -> as_millis d <= as_millis e.
Proof. unfold as_millis. intros H. by apply N.Div0.div_le_mono. Qed.

Lemma saturating_add_bounds x y : x <= u64_max -> x <= saturating_add x y <= u64_max.
Proof. unfold saturating_add. lia. Qed.
