(* ===== verification/Session.v ===== *)
(** * Session: opaque server-side sessions ([pliego-data/src/session.rs])

    The cookie and session policies with their builders, the session token, the
    [SessionStore] trait with its in-memory implementation, and the
    [SessionManager] whose four operations are programs over store calls, so
    that they can be run alone or interleaved with others. A store call takes
    the mutex of the store, so it is one step; between two calls of the same
    operation any other operation may run. [serde_json], [base64] and the random
    source are parameters. *)

From S2P Require Import Prelude Request.

Local Open Scope string_scope.
Local Open Scope N_scope.

Definition SESSION_TOKEN_BYTES : N := 32.
Definition SESSION_TOKEN_TEXT_BYTES : N := 43.

Inductive SessionError : Type :=
| InvalidPolicy (message : string)
| InvalidToken
| EntropyUnavailable
| InvalidClaims
| ClaimsTooLarge (actual maximum : N)
| VersionMismatch
| StoreConflict
| StoreFailure (message : string)
| Clock.

Definition code (e : SessionError) : string :=
  match e with
  | InvalidPolicy _ => "PLG-SES-001"
  | InvalidToken => "PLG-SES-101"
  | EntropyUnavailable => "PLG-SES-500"
  | InvalidClaims | ClaimsTooLarge _ _ => "PLG-SES-201"
  | VersionMismatch => "PLG-SES-409"
  | StoreConflict => "PLG-SES-409"
  | StoreFailure _ | Clock => "PLG-SES-500"
  end.

(** ** The cookie policy and its builder *)

Inductive SameSitePolicy : Type := Strict | Lax | SameSiteNone.

#[export] Instance same_site_eq_dec : EqDecision SameSitePolicy.
Proof. solve_decision. Defined.

Record SessionCookiePolicy : Type := mkCookie {
  name : string; path : string; secure : bool; http_only : bool; same_site : SameSitePolicy }.

Definition default_cookie : SessionCookiePolicy := mkCookie "__Host-pliego-session" "/" true true Lax.

Definition is_cookie_name_char (c : ascii) : bool :=
  is_ascii_alphanumeric c
  || char_in ["!"; "#"; "$"; "%"; "&"; "'"; "*"; "+"; "-"; "."; "^"; "_"; "`"; "|"; "~"]%char c.

Definition validate_cookie_name (n : string) : result SessionError unit :=
  fail_if (slen n =? 0) || (128 <? slen n) || negb (string_all is_cookie_name_char n)
    with InvalidPolicy "invalid cookie name";;
  Ok tt.

Definition cookie_new (n : string) : result SessionError SessionCookiePolicy :=
  _ ← validate_cookie_name n;
  Ok (mkCookie n (path default_cookie) (secure default_cookie) (http_only default_cookie) (same_site default_cookie)).

Definition cookie_path (p : SessionCookiePolicy) (value : string) : result SessionError SessionCookiePolicy :=
  fail_if (slen value =? 0) || negb (starts_with "/" value) || str_contains ";" value || any_control value
          || (starts_with "__Host-" (name p) && negb (String.eqb value "/"))
    with InvalidPolicy "invalid cookie path";;
  Ok (mkCookie (name p) value (secure p) (http_only p) (same_site p)).

Definition cookie_secure (p : SessionCookiePolicy) (value : bool) : result SessionError SessionCookiePolicy :=
  fail_if negb value && (starts_with "__Host-" (name p) || starts_with "__Secure-" (name p)
                         || bool_decide (same_site p = SameSiteNone))
    with InvalidPolicy "cookie policy requires Secure";;
  Ok (mkCookie (name p) (path p) value (http_only p) (same_site p)).

Definition cookie_http_only (p : SessionCookiePolicy) (value : bool) : SessionCookiePolicy :=
  mkCookie (name p) (path p) (secure p) value (same_site p).

Definition cookie_same_site (p : SessionCookiePolicy) (value : SameSitePolicy) : result SessionError SessionCookiePolicy :=
  fail_if bool_decide (value = SameSiteNone) && negb (secure p)
    with InvalidPolicy "SameSite=None requires Secure";;
  Ok (mkCookie (name p) (path p) (secure p) (http_only p) value).

(** ** The session policy and its builder *)

Record SessionPolicy : Type := mkPolicy {
  id : string; schema_version : N; cookie_policy : SessionCookiePolicy; idle_timeout : Duration;
  absolute_timeout : Duration; max_claim_bytes : N; assurance : string }.

Definition policy_new (i : string) (version : N) : result SessionError SessionPolicy :=
  fail_if negb (validate_stable_id i) with InvalidPolicy "invalid session policy ID";;
  fail_if version =? 0 with InvalidPolicy "schema version must be greater than zero";;
  Ok (mkPolicy i version default_cookie (from_secs (30 * 60)) (from_secs (24 * 60 * 60)) (4 * 1024) "application").

Definition policy_cookie (p : SessionPolicy) (c : SessionCookiePolicy) : SessionPolicy :=
  mkPolicy (id p) (schema_version p) c (idle_timeout p) (absolute_timeout p) (max_claim_bytes p) (assurance p).

Definition policy_timeouts (p : SessionPolicy) (idle absolute : Duration) : result SessionError SessionPolicy :=
  fail_if (idle =? 0) || (absolute =? 0) || (absolute <? idle) || (from_secs (365 * 24 * 60 * 60) <? absolute)
    with InvalidPolicy "session timeouts are invalid";;
  Ok (mkPolicy (id p) (schema_version p) (cookie_policy p) idle absolute (max_claim_bytes p) (assurance p)).

Definition policy_max_claim_bytes (p : SessionPolicy) (maximum : N) : result SessionError SessionPolicy :=
  fail_if (maximum =? 0) || (64 * 1024 <? maximum)
    with InvalidPolicy "max claim bytes must be between 1 and 65536";;
  Ok (mkPolicy (id p) (schema_version p) (cookie_policy p) (idle_timeout p) (absolute_timeout p) maximum (assurance p)).

Definition policy_assurance (p : SessionPolicy) (a : string) : result SessionError SessionPolicy :=
  fail_if negb (validate_stable_id a) with InvalidPolicy "invalid assurance ID";;
  Ok (mkPolicy (id p) (schema_version p) (cookie_policy p) (idle_timeout p) (absolute_timeout p) (max_claim_bytes p) a).

(** ** Tokens *)

(** The [base64] crate's [URL_SAFE_NO_PAD] engine. *)
Class Base64 : Type := { b64_encode : bytes -> string; b64_decode : string -> option bytes }.

Record SessionToken : Type := mkToken { as_cookie_value : string }.

(** [SessionToken::random]: [entropy] is what [getrandom::fill] put in the buffer. *)
Definition random `{Base64} (entropy : option bytes) : result SessionError SessionToken :=
  match entropy with
  | None => Err EntropyUnavailable
  | Some bs => Ok (mkToken (b64_encode bs))
  end.

Definition parse `{Base64} (value : string) : result SessionError SessionToken :=
  fail_if negb (slen value =? SESSION_TOKEN_TEXT_BYTES)
          || negb (string_all (fun c => is_ascii_alphanumeric c || char_in ["-"; "_"]%char c) value)
    with InvalidToken;;
  bs ← ok_or InvalidToken (b64_decode value);
  fail_if negb (blen bs =? SESSION_TOKEN_BYTES) with InvalidToken;;
  Ok (mkToken value).

Definition digest `{Sha256} (t : SessionToken) : string := hex (sha256 (as_bytes (as_cookie_value t))).

Record SessionCookie : Type := mkSessionCookie {
  token : SessionToken; cookie_policy_of : SessionCookiePolicy; max_age : Duration }.

(** ** Stored sessions and the store *)

Record StoredSession : Type := mkStored {
  policy_id : string; stored_version : N; stored_assurance : string; claims : bytes; created_at_ms : N;
  rotated_at_ms : N; last_seen_at_ms : N; idle_expires_at_ms : N; absolute_expires_at_ms : N }.

(** The trait: what each call does to the store and what it answers. *)
Class SessionStore (St : Type) : Type := {
  store_create : SessionToken -> StoredSession -> St -> St * result SessionError unit;
  store_read : SessionToken -> St -> St * result SessionError (option StoredSession);
  store_replace : SessionToken -> SessionToken -> StoredSession -> St -> St * result SessionError bool;
  store_update : SessionToken -> StoredSession -> St -> St * result SessionError bool;
  store_revoke : SessionToken -> St -> St * result SessionError bool }.

(** [InMemorySessionStore]: the [BTreeMap] behind its mutex. *)
Section in_memory.
Context `{Sha256}.

Abbreviation InMemorySessionStore := (gmap string StoredSession).

Definition mem_create (t : SessionToken) (session : StoredSession) (entries : InMemorySessionStore)
    : InMemorySessionStore * result SessionError unit :=
  (<[digest t := session]> entries,
   match entries !! digest t with Some _ => Err StoreConflict | None => Ok tt end).

Definition mem_read (t : SessionToken) (entries : InMemorySessionStore)
    : InMemorySessionStore * result SessionError (option StoredSession) :=
  (entries, Ok (entries !! digest t)).

Definition mem_replace (old new : SessionToken) (session : StoredSession) (entries : InMemorySessionStore)
    : InMemorySessionStore * result SessionError bool :=
  match entries !! digest old with
  | None => (entries, Ok false)
  | Some _ =>
      match entries !! digest new with
      | Some _ => (entries, Err StoreConflict)
      | None => (<[digest new := session]> (delete (digest old) entries), Ok true)
      end
  end.

Definition mem_update (t : SessionToken) (session : StoredSession) (entries : InMemorySessionStore)
    : InMemorySessionStore * result SessionError bool :=
  match entries !! digest t with
  | None => (entries, Ok false)
  | Some _ => (<[digest t := session]> entries, Ok true)
  end.

Definition mem_revoke (t : SessionToken) (entries : InMemorySessionStore)
    : InMemorySessionStore * result SessionError bool :=
  (delete (digest t) entries, Ok (bool_decide (is_Some (entries !! digest t)))).

#[export] Instance in_memory_store : SessionStore InMemorySessionStore :=
  {| store_create := mem_create; store_read := mem_read; store_replace := mem_replace;
     store_update := mem_update; store_revoke := mem_revoke |}.

End in_memory.

Abbreviation InMemorySessionStore := (gmap string StoredSession).

(** ** Handlers as programs *)

Inductive StoreCall : Type -> Type :=
| Create (t : SessionToken) (s : StoredSession) : StoreCall (result SessionError unit)
| Read (t : SessionToken) : StoreCall (result SessionError (option StoredSession))
| Replace (old new : SessionToken) (s : StoredSession) : StoreCall (result SessionError bool)
| Update (t : SessionToken) (s : StoredSession) : StoreCall (result SessionError bool)
| Revoke (t : SessionToken) : StoreCall (result SessionError bool).

(** An [async] handler: it reads the clock, draws random bytes, awaits a store
    call, or is done. *)
Inductive Prog (A : Type) : Type :=
| Done (a : A)
| Now (k : clock -> Prog A)
| Random (k : option bytes -> Prog A)
| Call {R : Type} (c : StoreCall R) (k : R -> Prog A).

Arguments Done {A} a.
Arguments Now {A} k.
Arguments Random {A} k.
Arguments Call {A R} c k.

(** The [?] operator inside a handler. *)
Notation "x '?←' r ;; k" := (match r with Ok x => k | Err e => Done (Err e) end)
  (at level 100, r at level 99, k at level 200, right associativity) : pliego_scope.

Fixpoint prog_map {A B} (f : A -> B) (p : Prog A) : Prog B :=
  match p with
  | Done a => Done (f a)
  | Now k => Now (fun x => prog_map f (k x))
  | Random k => Random (fun x => prog_map f (k x))
  | Call c k => Call c (fun x => prog_map f (k x))
  end.

Definition perform {St R} `{SessionStore St} (c : StoreCall R) : St -> St * R :=
  match c with
  | Create t s => store_create t s
  | Read t => store_read t
  | Replace old new s => store_replace old new s
  | Update t s => store_update t s
  | Revoke t => store_revoke t
  end.

(** Running a handler alone, the clock and the entropy source answering [now]
    and [entropy]. *)
Fixpoint run {St A} `{SessionStore St} (now : clock) (entropy : option bytes) (p : Prog A) (store : St) : St * A :=
  match p with
  | Done a => (store, a)
  | Now k => run now entropy (k now) store
  | Random k => run now entropy (k entropy) store
  | Call c k => let '(store, r) := perform c store in run now entropy (k r) store
  end.

(** ** The manager *)

Record LoadedSession (C : Type) : Type := mkLoaded {
  token_digest : string; loaded_version : N; loaded_assurance : string; loaded_claims : C; loaded_created_at_ms : N;
  loaded_rotated_at_ms : N; loaded_last_seen_at_ms : N; loaded_idle_expires_at_ms : N;
  loaded_absolute_expires_at_ms : N }.

Arguments mkLoaded {C}.
Arguments token_digest {C}.
Arguments loaded_version {C}.
Arguments loaded_assurance {C}.
Arguments loaded_claims {C}.
Arguments loaded_created_at_ms {C}.
Arguments loaded_rotated_at_ms {C}.
Arguments loaded_last_seen_at_ms {C}.
Arguments loaded_idle_expires_at_ms {C}.
Arguments loaded_absolute_expires_at_ms {C}.

Record CreatedSession (C : Type) : Type := mkCreated { session : LoadedSession C; cookie_of : SessionCookie }.

Arguments mkCreated {C}.
Arguments session {C}.
Arguments cookie_of {C}.

Section manager.
Context `{Sha256, Base64} {C : Type} `{Serde C} (policy : SessionPolicy).

Definition duration_too_large : SessionError := InvalidPolicy "duration is too large".

Definition stored (cs : C) (created rotated last_seen : N) : result SessionError StoredSession :=
  claims ← ok_or InvalidClaims (to_vec cs);
  fail_if max_claim_bytes policy <? blen claims with ClaimsTooLarge (blen claims) (max_claim_bytes policy);;
  idle_ms ← duration_millis duration_too_large (idle_timeout policy);
  absolute_ms ← duration_millis duration_too_large (absolute_timeout policy);
  Ok (mkStored (id policy) (schema_version policy) (assurance policy) claims created rotated last_seen
        (saturating_add last_seen idle_ms) (saturating_add created absolute_ms)).

Definition cookie (t : SessionToken) : SessionCookie := mkSessionCookie t (cookie_policy policy) (absolute_timeout policy).

Definition loaded (t : SessionToken) (s : StoredSession) (cs : C) : LoadedSession C :=
  mkLoaded (digest t) (stored_version s) (stored_assurance s) cs (created_at_ms s) (rotated_at_ms s)
    (last_seen_at_ms s) (idle_expires_at_ms s) (absolute_expires_at_ms s).

Definition create (cs : C) : Prog (result SessionError (CreatedSession C)) :=
  Now (fun now =>
    now ?← unix_millis Clock now;;
    Random (fun entropy =>
      token ?← random entropy;;
      stored ?← stored cs now now now;;
      Call (Create token stored) (fun r =>
        _ ?← r;;
        Done (Ok (mkCreated (loaded token stored cs) (cookie token)))))).

Definition wrong_version (s : StoredSession) : bool :=
  negb (String.eqb (policy_id s) (id policy)) || negb (stored_version s =? schema_version policy).

Definition expired (now : N) (s : StoredSession) : bool :=
  (idle_expires_at_ms s <=? now) || (absolute_expires_at_ms s <=? now).

(** The record [load] writes back. *)
Definition touched (now idle_ms : N) (s : StoredSession) : StoredSession :=
  mkStored (policy_id s) (stored_version s) (stored_assurance s) (claims s) (created_at_ms s) (rotated_at_ms s) now
    (N.min (saturating_add now idle_ms) (absolute_expires_at_ms s)) (absolute_expires_at_ms s).

Definition load (t : SessionToken) : Prog (result SessionError (option (LoadedSession C))) :=
  Call (Read t) (fun r =>
    found ?← r;;
    match found with
    | None => Done (Ok None)
    | Some stored =>
        Now (fun now =>
          now ?← unix_millis Clock now;;
          if wrong_version stored then Done (Err VersionMismatch)
          else if expired now stored then Call (Revoke t) (fun _ => Done (Ok None))
          else
            idle_ms ?← duration_millis duration_too_large (idle_timeout policy);;
            let stored := touched now idle_ms stored in
            Call (Update t stored) (fun r =>
              updated ?← r;;
              if negb updated then Done (Ok None)
              else
                cs ?← ok_or InvalidClaims (from_slice (claims stored));;
                Done (Ok (Some (loaded t stored cs)))))
    end).

(** The record [rotate] stores: the new one with the old absolute expiry. *)
Definition with_absolute (absolute : N) (s : StoredSession) : StoredSession :=
  mkStored (policy_id s) (stored_version s) (stored_assurance s) (claims s) (created_at_ms s) (rotated_at_ms s)
    (last_seen_at_ms s) (idle_expires_at_ms s) absolute.

Definition rotate (old : SessionToken) (cs : C) : Prog (result SessionError (option (CreatedSession C))) :=
  Call (Read old) (fun r =>
    found ?← r;;
    match found with
    | None => Done (Ok None)
    | Some existing =>
        Now (fun now =>
          now ?← unix_millis Clock now;;
          if wrong_version existing || expired now existing then Call (Revoke old) (fun _ => Done (Ok None))
          else
            Random (fun entropy =>
              new ?← random entropy;;
              stored ?← stored cs (created_at_ms existing) now now;;
              let stored := with_absolute (absolute_expires_at_ms existing) stored in
              Call (Replace old new stored) (fun r =>
                replaced ?← r;;
                if negb replaced then Done (Ok None)
                else Done (Ok (Some (mkCreated (loaded new stored cs) (cookie new)))))))
    end).

Definition revoke (t : SessionToken) : Prog (result SessionError bool) := Call (Revoke t) Done.

End manager.

(** ** Requests served concurrently *)

Inductive Request (C : Type) : Type :=
| ToCreate (cs : C)
| ToLoad (t : SessionToken)
| ToRotate (t : SessionToken) (cs : C)
| ToRevoke (t : SessionToken).

Inductive Outcome (C : Type) : Type :=
| Created (r : result SessionError (CreatedSession C))
| Loaded (r : result SessionError (option (LoadedSession C)))
| Rotated (r : result SessionError (option (CreatedSession C)))
| Revoked (r : result SessionError bool).

Arguments ToCreate {C}.
Arguments ToLoad {C}.
Arguments ToRotate {C}.
Arguments ToRevoke {C}.
Arguments Created {C}.
Arguments Loaded {C}.
Arguments Rotated {C}.
Arguments Revoked {C}.

(** A request being served: the tokens it drew and what is left to do. *)
Record Thread (C : Type) : Type := mkThread { drawn : list SessionToken; prog : Prog (Outcome C) }.

Arguments mkThread {C}.
Arguments drawn {C}.
Arguments prog {C}.

Record Config (St C : Type) : Type := mkConfig { store : St; threads : list (Thread C) }.

Arguments mkConfig {St C}.
Arguments store {St C}.
Arguments threads {St C}.

Section concurrency.
Context `{Sha256, Base64} {C : Type} `{Serde C} {St : Type} `{SessionStore St} (policy : SessionPolicy).

Definition handler (r : Request C) : Prog (Outcome C) :=
  match r with
  | ToCreate cs => prog_map Created (create policy cs)
  | ToLoad t => prog_map Loaded (load policy t)
  | ToRotate t cs => prog_map Rotated (rotate policy t cs)
  | ToRevoke t => prog_map Revoked (revoke t)
  end.

Definition draw (entropy : option bytes) : list SessionToken :=
  match random entropy with Ok t => [t] | Err _ => [] end.

(** One step of the server: a request arrives, or one of those being served
    reads the clock, draws a token or has a store call answered. *)
Inductive step : Config St C -> Config St C -> Prop :=
| step_arrive σ ts r : step (mkConfig σ ts) (mkConfig σ (ts ++ [mkThread [] (handler r)]))
| step_now σ ts i ds k now :
    ts !! i = Some (mkThread ds (Now k)) ->
    step (mkConfig σ ts) (mkConfig σ (<[i := mkThread ds (k now)]> ts))
| step_random σ ts i ds k entropy :
    ts !! i = Some (mkThread ds (Random k)) ->
    step (mkConfig σ ts) (mkConfig σ (<[i := mkThread (ds ++ draw entropy) (k entropy)]> ts))
| step_call σ σ' ts i ds R (c : StoreCall R) k r :
    ts !! i = Some (mkThread ds (Call c k)) -> perform c σ = (σ', r) ->
    step (mkConfig σ ts) (mkConfig σ' (<[i := mkThread ds (k r)]> ts)).

(** The same server driven by a schedule. *)
Inductive Action : Type :=
| Arrive (r : Request C)
| Advance (i : nat) (now : clock) (entropy : option bytes).

Definition act (c : Config St C) (a : Action) : Config St C :=
  match a with
  | Arrive r => mkConfig (store c) (threads c ++ [mkThread [] (handler r)])
  | Advance i now entropy =>
      match threads c !! i with
      | Some (mkThread ds (Now k)) => mkConfig (store c) (<[i := mkThread ds (k now)]> (threads c))
      | Some (mkThread ds (Random k)) => mkConfig (store c) (<[i := mkThread (ds ++ draw entropy) (k entropy)]> (threads c))
      | Some (mkThread ds (Call call k)) =>
          let '(σ', r) := perform call (store c) in mkConfig σ' (<[i := mkThread ds (k r)]> (threads c))
      | _ => c
      end
  end.

Definition digests_drawn (c : Config St C) : list string := threads c ≫= fun th => map digest (drawn th).

(** What the client is shown: the digest of the session in the answer. *)
Definition shown (o : Outcome C) : option string :=
  match o with
  | Created (Ok c) | Rotated (Ok (Some c)) => Some (token_digest (session c))
  | Loaded (Ok (Some l)) => Some (token_digest l)
  | _ => None
  end.

End concurrency.

(** ** The contract of a store

    What a store promises to the manager, over the map of sessions it holds. A
    call may fail with an error after or before it took effect. *)
Class SessionStoreLaws (St : Type) `{Sha256, SessionStore St} : Type := {
  contents : St -> gmap string StoredSession;
  create_law t s σ : let '(σ', r) := store_create t s σ in
    (contents σ' = contents σ /\ r <> Ok tt)
    \/ (contents σ' = <[digest t := s]> (contents σ) /\ (r = Ok tt -> contents σ !! digest t = None));
  read_law t σ : let '(σ', r) := store_read t σ in
    contents σ' = contents σ /\ (forall o, r = Ok o -> o = contents σ !! digest t);
  replace_law old new s σ : let '(σ', r) := store_replace old new s σ in
    (contents σ' = contents σ /\ r <> Ok true /\ (r = Ok false -> contents σ !! digest old = None))
    \/ (contents σ' = <[digest new := s]> (delete (digest old) (contents σ)) /\ r <> Ok false
        /\ is_Some (contents σ !! digest old) /\ contents σ !! digest new = None);
  update_law t s σ : let '(σ', r) := store_update t s σ in
    (contents σ' = contents σ /\ r <> Ok true /\ (r = Ok false -> contents σ !! digest t = None))
    \/ (contents σ' = <[digest t := s]> (contents σ) /\ r <> Ok false /\ is_Some (contents σ !! digest t));
  revoke_law t σ : let '(σ', r) := store_revoke t σ in
    (contents σ' = contents σ \/ contents σ' = delete (digest t) (contents σ))
    /\ (forall b, r = Ok b -> contents σ' = delete (digest t) (contents σ)
                              /\ b = bool_decide (is_Some (contents σ !! digest t))) }.

(** The in-memory store keeps the contract. *)
#[export] Program Instance in_memory_laws `{Sha256} : SessionStoreLaws InMemorySessionStore :=
  {| contents := fun σ => σ |}.
Next Obligation. intros ? t s σ. simpl. destruct (σ !! digest t) eqn:E; naive_solver. Qed.
Next Obligation. intros ? t σ. simpl. naive_solver. Qed.
Next Obligation.
  intros ? old new s σ. simpl. unfold mem_replace.
  destruct (σ !! digest old) eqn:E; [destruct (σ !! digest new) eqn:F|]; naive_solver.
Qed.
Next Obligation. intros ? t s σ. simpl. unfold mem_update. destruct (σ !! digest t) eqn:E; naive_solver. Qed.
Next Obligation. intros ? t σ. simpl. naive_solver. Qed.

(** ** A program logic for handlers

    [safe] says that a handler only makes the calls [req] allows, and ends in an
    answer satisfying [Q], provided that the store's answers satisfy [ens] and that
    it draws no [bad] token. *)
Record Spec : Type := mkSpec {
  req : forall R, StoreCall R -> Prop; ens : forall R, StoreCall R -> R -> Prop; bad : SessionToken -> Prop }.

Section logic.
Context `{Sha256, Base64}.

Fixpoint safe {A} (sp : Spec) (Q : A -> Prop) (p : Prog A) : Prop :=
  match p with
  | Done a => Q a
  | Now k => forall now, safe sp Q (k now)
  | Random k => forall entropy, Forall (fun t => ~ bad sp t) (draw entropy) -> safe sp Q (k entropy)
  | Call c k => req sp _ c /\ forall r, ens sp _ c r -> safe sp Q (k r)
  end.

Definition is_done {A} (p : Prog A) : Prop := exists a, p = Done a.

(** Every stage a handler can reach, whatever it is answered, is done or safe. *)
Fixpoint always_safe {A} (sp : Spec) (Q : A -> Prop) (p : Prog A) : Prop :=
  (is_done p \/ safe sp Q p) /\
  match p with
  | Done a => True
  | Now k => forall now, always_safe sp Q (k now)
  | Random k => forall entropy, Forall (fun t => ~ bad sp t) (draw entropy) -> always_safe sp Q (k entropy)
  | Call c k => forall r, always_safe sp Q (k r)
  end.

Lemma safe_map {A B} sp (Q : B -> Prop) (f : A -> B) p : safe sp (fun a => Q (f a)) p -> safe sp Q (prog_map f p).
Proof. induction p as [a|k IH|k IH|R c k IH]; simpl; naive_solver. Qed.

Lemma always_safe_done {A} sp (Q : A -> Prop) (a : A) : always_safe sp Q (Done a).
Proof. split; [left; by eexists|done]. Qed.

Lemma always_safe_now {A} sp (Q : A -> Prop) p : always_safe sp Q p -> is_done p \/ safe sp Q p.
Proof. destruct p; simpl; tauto. Qed.

Lemma always_safe_map {A B} sp (Q : B -> Prop) (f : A -> B) p :
  always_safe sp (fun a => Q (f a)) p -> always_safe sp Q (prog_map f p).
Proof.
  induction p as [a|k IH|k IH|R c k IH]; simpl; intros [Hs Hk].
  - split; [left; by eexists|done].
  - split; [|naive_solver]. destruct Hs as [[? [=]]|Hs]. right. intros now. by apply safe_map.
  - split; [|naive_solver]. destruct Hs as [[? [=]]|Hs]. right. intros e He. by apply safe_map, Hs.
  - split; [|naive_solver]. destruct Hs as [[? [=]]|Hs]. right. split; [tauto|].
    intros r Hr. by apply safe_map, Hs.
Qed.

(** What a store must preserve for a spec to be usable: allowed calls keep
    [Inv] and are answered as [ens] says. *)
Definition respects {St} `{SessionStore St} (sp : Spec) (Inv : St -> Prop) : Prop :=
  forall R (c : StoreCall R) σ σ' r,
    Inv σ -> req sp _ c -> perform c σ = (σ', r) -> Inv σ' /\ ens sp _ c r.

End logic.

Section steps.
Context `{Sha256, Base64} {C : Type} `{Serde C} {St : Type} `{SessionStore St} (policy : SessionPolicy).

(** A thread that stood finished in [base], or one that is safe. *)
Definition settled (sp : Spec) (Q : Outcome C -> Prop) (base : list (Thread C)) (i : nat) (th : Thread C) : Prop :=
  (is_done (prog th) /\ base !! i = Some th) \/ safe sp Q (prog th).

Definition all_settled sp Q base (ts : list (Thread C)) : Prop :=
  forall i th, ts !! i = Some th -> settled sp Q base i th.

(** The threads that move draw nothing bad. *)
Definition draws_well (sp : Spec) (ts ts' : list (Thread C)) : Prop :=
  forall i th', ts' !! i = Some th' -> (forall th, ts !! i = Some th -> ~ is_done (prog th)) ->
    Forall (fun t => ~ bad sp t) (drawn th').

Lemma settled_insert sp Q base ts i th th' :
  all_settled sp Q base ts -> ts !! i = Some th -> ~ is_done (prog th) ->
  (safe sp Q (prog th) -> safe sp Q (prog th')) -> all_settled sp Q base (<[i := th']> ts).
Proof.
  intros Hts Hi Hn Hs j x Hj. destruct (decide (i = j)) as [<-|Hne].
  - rewrite list_lookup_insert_eq in Hj by (eapply lookup_lt_Some; eauto). injection Hj as <-.
    destruct (Hts _ _ Hi) as [[Hd _]|Hp]; [done|]. right. auto.
  - rewrite list_lookup_insert_ne in Hj by done. auto.
Qed.

Lemma step_settled sp Q Inv base (c c' : Config St C) :
  respects sp Inv -> (forall r, safe sp Q (handler policy r)) ->
  step policy c c' -> draws_well sp (threads c) (threads c') ->
  Inv (store c) -> all_settled sp Q base (threads c) ->
  Inv (store c') /\ all_settled sp Q base (threads c').
Proof.
  intros Hr Hh Hst Hd HI Hts. destruct Hst as [σ ts r|σ ts i ds k now Hi|σ ts i ds k e Hi|σ σ' ts i ds R cl k r Hi Hp];
    cbn [store threads] in *.
  - split; [done|]. intros i th Hi. apply lookup_app_Some in Hi as [Hi|[_ Hi]]; [auto|].
    apply list_lookup_singleton_Some in Hi as [_ <-]. right. apply Hh.
  - split; [done|]. eapply settled_insert; [done|done|by intros [? [=]]|]. simpl. auto.
  - split; [done|]. eapply settled_insert; [done|done|by intros [? [=]]|]. simpl. intros Hs. apply Hs.
    assert (Hlt : (i < length ts)%nat) by (eapply lookup_lt_Some; eauto).
    assert (Hb : Forall (fun t => ~ bad sp t) (ds ++ draw e)).
    { refine (Hd i (mkThread (ds ++ draw e) (k e)) _ _).
      - by rewrite list_lookup_insert_eq.
      - intros th Hth. rewrite Hi in Hth. injection Hth as <-. by intros [? [=]]. }
    apply Forall_app in Hb. tauto.
  - destruct (Hts _ _ Hi) as [[[? [=]] _]|[Hreq Hk]].
    destruct (Hr _ _ _ _ _ HI Hreq Hp) as [HI' He]. split; [done|].
    eapply settled_insert; [done|done|by intros [? [=]]|]. simpl. intros _. by apply Hk.
Qed.

End steps.

(** ** The records the manager writes *)

Section records.
Context `{Sha256, Base64} {C : Type} `{Serde C} (policy : SessionPolicy).

(** What a stored session says: it is the policy's, its claims fit, and both
    expiries are those of the policy. *)
Definition session_ok (s : StoredSession) : Prop :=
  policy_id s = id policy /\ stored_version s = schema_version policy /\ stored_assurance s = assurance policy
  /\ blen (claims s) <= max_claim_bytes policy
  /\ absolute_expires_at_ms s = saturating_add (created_at_ms s) (as_millis (absolute_timeout policy))
  /\ idle_expires_at_ms s <= saturating_add (last_seen_at_ms s) (as_millis (idle_timeout policy)).

(** What an answer says: the absolute expiry is counted from the creation, and a
    session loaded or rotated had not reached it. *)
Definition lifetime_ok (l : LoadedSession C) : Prop :=
  loaded_absolute_expires_at_ms l = saturating_add (loaded_created_at_ms l) (as_millis (absolute_timeout policy)).

Definition answer_ok (o : Outcome C) : Prop :=
  match o with
  | Created (Ok c) => lifetime_ok (session c)
  | Loaded (Ok (Some l)) =>
      lifetime_ok l /\ loaded_last_seen_at_ms l < loaded_absolute_expires_at_ms l
      /\ loaded_idle_expires_at_ms l <= loaded_absolute_expires_at_ms l
  | Rotated (Ok (Some c)) =>
      lifetime_ok (session c) /\ loaded_rotated_at_ms (session c) < loaded_absolute_expires_at_ms (session c)
  | _ => True
  end.

Definition record_spec : Spec :=
  mkSpec
    (fun R c => match c with Create _ s | Replace _ _ s | Update _ s => session_ok s | _ => True end)
    (fun R c => match c in StoreCall R return R -> Prop with
                | Read _ => fun r => forall s, r = Ok (Some s) -> session_ok s
                | _ => fun _ => True
                end)
    (fun _ => False).

Lemma stored_ok cs created rotated last s :
  stored policy cs created rotated last = Ok s ->
  session_ok s /\ created_at_ms s = created /\ rotated_at_ms s = rotated /\ last_seen_at_ms s = last
  /\ to_vec cs = Some (claims s)
  /\ idle_expires_at_ms s = saturating_add last (as_millis (idle_timeout policy)).
Proof.
  unfold stored, duration_millis. intros Hs. destruct (to_vec cs) as [cl|] eqn:Hv; [|done]. cbn in Hs.
  destruct (N.ltb_spec (max_claim_bytes policy) (blen cl)); [done|].
  destruct (as_millis (idle_timeout policy) <=? u64_max); [|done]. cbn in Hs.
  destruct (as_millis (absolute_timeout policy) <=? u64_max); [|done]. cbn in Hs.
  injection Hs as <-. unfold session_ok. cbn. split_and!; done || lia.
Qed.

Lemma not_expired now s :
  expired now s = false -> now < idle_expires_at_ms s /\ now < absolute_expires_at_ms s.
Proof. unfold expired. intros. reflect_guards. lia. Qed.

Lemma touched_ok now s :
  session_ok s -> session_ok (touched now (as_millis (idle_timeout policy)) s).
Proof. unfold session_ok, touched. cbn. intros (? & ? & ? & ? & ? & ?). split_and!; try done. lia. Qed.

Lemma create_records cs : safe record_spec (fun r => answer_ok (Created r)) (create policy cs).
Proof.
  unfold create. intros now. destruct (unix_millis Clock now) as [n|]; [|done]. intros e _.
  destruct (random e) as [t|]; [|done].
  destruct (stored policy cs n n n) as [s|] eqn:Hs; [|done]. apply stored_ok in Hs as (Hok & Hc & _).
  split; [done|]. intros [[]|] _; [|done]. cbn. unfold lifetime_ok. cbn. apply Hok.
Qed.

Lemma load_records t : safe record_spec (fun r => answer_ok (Loaded r)) (load policy t).
Proof.
  unfold load. split; [done|]. intros [[s|]|] Hr; [|done|done]. specialize (Hr s eq_refl).
  intros now. destruct (unix_millis Clock now) as [n|]; [|done].
  destruct (wrong_version policy s); [done|]. destruct (expired n s) eqn:He; [by split|].
  apply not_expired in He. unfold duration_millis.
  destruct (as_millis (idle_timeout policy) <=? u64_max); [|done].
  split; [by apply touched_ok|]. intros [[]|] _; [|done|done]. cbn [negb].
  destruct (from_slice _) as [cs|]; [|done]. unfold ok_or. cbn. unfold lifetime_ok. cbn.
  destruct Hr as (_ & _ & _ & _ & Ha & _). split_and!; [done|lia|lia].
Qed.

Lemma rotate_records t cs : safe record_spec (fun r => answer_ok (Rotated r)) (rotate policy t cs).
Proof.
  unfold rotate. split; [done|]. intros [[s|]|] Hr; [|done|done]. specialize (Hr s eq_refl).
  intros now. destruct (unix_millis Clock now) as [n|]; [|done].
  destruct (wrong_version policy s || expired n s) eqn:He; [by split|].
  apply orb_false_iff in He as [_ He]. apply not_expired in He. intros e _.
  destruct (random e) as [new|]; [|done].
  destruct (stored policy cs _ n n) as [s'|] eqn:Hs; [|done]. apply stored_ok in Hs as (Hok & Hc & Hrot & Hl & _).
  destruct Hr as (_ & _ & _ & _ & Ha & _).
  split.
  - destruct Hok as (? & ? & ? & ? & _ & ?). cbn. unfold session_ok. cbn. split_and!; [done..| |done]. by rewrite Hc.
  - intros [[]|] _; [|done|done]. cbn. unfold lifetime_ok. cbn. rewrite Hc, Hrot. split; [done|lia].
Qed.

Lemma handler_records r : safe record_spec answer_ok (handler policy r).
Proof.
  destruct r as [cs|t|t cs|t]; apply safe_map.
  - apply create_records.
  - apply load_records.
  - apply rotate_records.
  - split; [done|]. intros b _. done.
Qed.

Lemma record_respects {St} `{HS : SessionStore St} {L : SessionStoreLaws St} :
  respects record_spec (fun σ => map_Forall (fun _ s => session_ok s) (contents σ)).
Proof.
  intros R c σ σ' r HI Hreq Hp. destruct c as [t s|t|old new s|t s|t]; cbn [perform] in Hp.
  - pose proof (create_law t s σ) as HL. rewrite Hp in HL. destruct HL as [[-> _]|[-> _]]; split; try done.
    by apply map_Forall_insert_2.
  - pose proof (read_law t σ) as HL. rewrite Hp in HL. destruct HL as [-> HL]. split; [done|].
    intros s ->. symmetry in HL. eapply HI. by apply HL.
  - pose proof (replace_law old new s σ) as HL. rewrite Hp in HL. destruct HL as [[-> _]|[-> _]]; split; try done.
    apply map_Forall_insert_2; [done|]. by apply map_Forall_delete.
  - pose proof (update_law t s σ) as HL. rewrite Hp in HL. destruct HL as [[-> _]|[-> _]]; split; try done.
    by apply map_Forall_insert_2.
  - pose proof (revoke_law t σ) as HL. rewrite Hp in HL. destruct HL as [[->| ->] _]; split; try done.
    by apply map_Forall_delete.
Qed.

End records.

(** ** Absent sessions *)

Section absence.
Context `{Sha256, Base64} {C : Type} `{Serde C} (policy : SessionPolicy) (d : string).

(** While no session has digest [d]: nobody who has not drawn a token with that
    digest stores one, updates one or is shown one. *)
Definition absence_spec : Spec :=
  mkSpec
    (fun R c => match c with Create t _ | Replace _ t _ => digest t <> d | _ => True end)
    (fun R c => match c in StoreCall R return R -> Prop with
                | Read t => fun r => forall s, r = Ok (Some s) -> digest t <> d
                | Replace old _ _ => fun r => r = Ok true -> digest old <> d
                | Update t _ => fun r => r = Ok true -> digest t <> d
                | _ => fun _ => True
                end)
    (fun t => digest t = d).

Definition not_shown (o : Outcome C) : Prop := shown o <> Some d.

Lemma draw_ok e t : random e = Ok t -> draw e = [t].
Proof. unfold draw. by intros ->. Qed.

(** Walks through a handler, one case per call, answer and branch. *)
Ltac walk :=
  repeat (cbv beta zeta;
    match goal with
    | |- always_safe _ _ (Done _) => apply always_safe_done
    | |- always_safe _ _ (Now _) => split; [right|intros ?]
    | |- always_safe _ _ (Random _) => split; [right|intros ? ?]
    | |- always_safe _ _ (Call _ _) => split; [right|intros ?]
    | |- safe _ _ (Now _) => intros ?
    | |- safe _ _ (Random _) => intros ? ?
    | |- safe _ _ (Call _ _) => split; [|intros ? ?]
    | |- always_safe _ _ (match ?x with _ => _ end) => destruct x eqn:?
    | |- safe _ _ (match ?x with _ => _ end) => destruct x eqn:?
    end).

(** The leaves: a drawn token is not the absent one, and an answer about the
    absent one is negative. *)
Ltac leaf :=
  repeat match goal with
    | H : random ?e = Ok ?t, Hd : Forall _ (draw ?e) |- _ => rewrite (draw_ok e t H) in Hd
    | H : Forall _ [_] |- _ => rewrite Forall_singleton in H
    | H : negb _ = false |- _ => rewrite negb_false_iff in H; subst
    end;
  repeat match goal with H : unix_millis _ _ = _ |- _ => clear H | H : duration_millis _ _ = _ |- _ => clear H end;
  unfold not_shown; cbn [req ens bad absence_spec shown session token_digest loaded] in *;
  first [done | congruence | naive_solver congruence].

Lemma create_absent cs : always_safe absence_spec (fun r => not_shown (Created r)) (create policy cs).
Proof. unfold create. walk; leaf. Qed.

Lemma load_absent t : always_safe absence_spec (fun r => not_shown (Loaded r)) (load policy t).
Proof. unfold load. walk; leaf. Qed.

Lemma rotate_absent t cs : always_safe absence_spec (fun r => not_shown (Rotated r)) (rotate policy t cs).
Proof. unfold rotate. walk; leaf. Qed.

Lemma handler_absent r : always_safe absence_spec not_shown (handler policy r).
Proof.
  destruct r as [cs|t|t cs|t]; apply always_safe_map.
  - apply create_absent.
  - apply load_absent.
  - apply rotate_absent.
  - unfold revoke. walk; leaf.
Qed.

Lemma handler_safe r : safe absence_spec not_shown (handler policy r).
Proof.
  destruct (always_safe_now _ _ _ (handler_absent r)) as [[o Ho]|Hs]; [|done]. by destruct r.
Qed.

Lemma absence_respects {St} `{HS : SessionStore St} {L : SessionStoreLaws St} :
  respects absence_spec (fun σ => contents σ !! d = None).
Proof.
  intros R c σ σ' r HI Hreq Hp. destruct c as [t s|t|old new s|t s|t]; cbn [perform] in Hp; cbn in Hreq.
  - pose proof (create_law t s σ) as HL. rewrite Hp in HL. destruct HL as [[-> _]|[-> _]]; split; try done.
    by rewrite lookup_insert_ne.
  - pose proof (read_law t σ) as HL. rewrite Hp in HL. destruct HL as [-> HL]. split; [done|].
    intros s -> Hd. specialize (HL _ eq_refl). congruence.
  - pose proof (replace_law old new s σ) as HL. rewrite Hp in HL.
    destruct HL as [(-> & Hr & _)|(-> & _ & [x Hx] & _)]; [by split; [done|intros ?]|split].
    + rewrite lookup_insert_ne by done. destruct (decide (digest old = d)) as [->|];
        [apply lookup_delete_eq|by rewrite lookup_delete_ne].
    + intros _ Hd. congruence.
  - pose proof (update_law t s σ) as HL. rewrite Hp in HL.
    destruct HL as [(-> & Hr & _)|(-> & _ & [x Hx])]; [by split; [done|intros ?]|split].
    + rewrite lookup_insert_ne; [done|]. intros Hd. congruence.
    + intros _ Hd. congruence.
  - pose proof (revoke_law t σ) as HL. rewrite Hp in HL. destruct HL as [[->| ->] _]; split; try done.
    destruct (decide (digest t = d)) as [->|]; [apply lookup_delete_eq|by rewrite lookup_delete_ne].
Qed.

End absence.

(** ** Executions *)

Section executions.
Context `{Sha256, Base64} {C : Type} `{Serde C} {St : Type} `{SessionStore St} (policy : SessionPolicy).

Abbreviation exec := (rtc (step (C := C) (St := St) policy)).

Lemma step_drawn (c c' : Config St C) : step policy c c' -> digests_drawn c ⊆+ digests_drawn c'.
Proof.
  assert (Hins : forall (ts : list (Thread C)) i th th', ts !! i = Some th -> drawn th `prefix_of` drawn th' ->
    (ts ≫= fun th => map digest (drawn th)) ⊆+ (<[i := th']> ts ≫= fun th => map digest (drawn th))).
  { intros ts i th th' Hi [l Hl]. rewrite insert_take_drop by (eapply lookup_lt_Some; eauto).
    rewrite <- (take_drop_middle ts i th Hi) at 1. rewrite !bind_app, !bind_cons, Hl, map_app.
    apply submseteq_app; [done|]. apply submseteq_app; [|done]. apply submseteq_inserts_r. done. }
  intros Hst. destruct Hst as [σ ts r|σ ts i ds k now Hi|σ ts i ds k e Hi|σ σ' ts i ds R cl k r Hi Hp];
    unfold digests_drawn; cbn [threads].
  - rewrite bind_app. cbn. by rewrite app_nil_r.
  - by eapply Hins.
  - eapply Hins; [done|]. cbn. by apply prefix_app_r.
  - by eapply Hins.
Qed.

Lemma exec_drawn (c c' : Config St C) : exec c c' -> digests_drawn c ⊆+ digests_drawn c'.
Proof. induction 1 as [|c1 c2 c3 Hst _ IH]; [done|]. etrans; [by apply step_drawn|done]. Qed.

(** Finished threads stay as they are. *)
Lemma step_done (c c' : Config St C) i th :
  step policy c c' -> threads c !! i = Some th -> is_done (prog th) -> threads c' !! i = Some th.
Proof.
  intros Hst Hi [o Ho].
  destruct Hst as [σ ts r|σ ts j ds k now Hj|σ ts j ds k e Hj|σ σ' ts j ds R cl k r Hj Hp]; cbn [threads] in *;
    [by apply lookup_app_l_Some|..];
    (rewrite list_lookup_insert_ne; [done|]; intros ->; rewrite Hi in Hj; injection Hj as ->; done).
Qed.

Lemma exec_done (c c' : Config St C) i th :
  exec c c' -> threads c !! i = Some th -> is_done (prog th) -> threads c' !! i = Some th.
Proof. induction 1 as [|c1 c2 c3 Hst _ IH]; [done|]. intros. apply IH; [|done]. by eapply step_done. Qed.

(** A token drawn once was drawn by one thread. *)
Lemma drawn_once (ts : list (Thread C)) i j th1 th2 d :
  NoDup (ts ≫= fun th => map digest (drawn th)) ->
  ts !! i = Some th1 -> ts !! j = Some th2 -> d ∈ map digest (drawn th1) -> d ∈ map digest (drawn th2) -> i = j.
Proof.
  revert i j. induction ts as [|th ts IH]; intros i j Hnd Hi Hj H1' H2'; [done|].
  rewrite bind_cons in Hnd. apply NoDup_app in Hnd as (_ & Hx & Hnd).
  destruct i as [|i], j as [|j]; cbn in Hi, Hj; [done|..].
  - injection Hi as ->. destruct (Hx d H1'). apply list_elem_of_bind. exists th2. split; [done|].
    by eapply list_elem_of_lookup_2.
  - injection Hj as ->. destruct (Hx d H2'). apply list_elem_of_bind. exists th1. split; [done|].
    by eapply list_elem_of_lookup_2.
  - f_equal. by eapply IH.
Qed.

(** A thread that did not draw [d] is, at every stage of every execution, done or
    safe with respect to it. *)
Definition stage_safe (d : string) (th : Thread C) : Prop :=
  d ∉ map digest (drawn th) -> always_safe (absence_spec d) (not_shown d) (prog th).

Lemma step_stage_safe d (c c' : Config St C) :
  step policy c c' -> Forall (stage_safe d) (threads c) -> Forall (stage_safe d) (threads c').
Proof.
  intros Hst Hts.
  destruct Hst as [σ ts r|σ ts i ds k now Hi|σ ts i ds k e Hi|σ σ' ts i ds R cl k r Hi Hp]; cbn [threads] in *;
    try (pose proof (Forall_lookup_1 _ _ _ _ Hts Hi) as Hth; apply Forall_insert; [done|]; intros Hd; cbn in *).
  - apply Forall_app_2; [done|]. apply Forall_singleton. intros _. apply handler_absent.
  - by apply Hth.
  - rewrite map_app, not_elem_of_app in Hd. apply Hth; [tauto|]. apply Forall_forall. intros t Ht Hdt.
    apply Hd. apply list_elem_of_fmap. by exists t.
  - by apply Hth.
Qed.

Lemma exec_stage_safe d (c c' : Config St C) :
  exec c c' -> Forall (stage_safe d) (threads c) -> Forall (stage_safe d) (threads c').
Proof. induction 1 as [|c1 c2 c3 Hst _ IH]; [done|]. intros. by eapply IH, step_stage_safe. Qed.

Lemma submseteq_NoDup {A} (l k : list A) : l ⊆+ k -> NoDup k -> NoDup l.
Proof. intros [m ->]%submseteq_Permutation. rewrite NoDup_app. tauto. Qed.

(** When the thread that drew [d] has finished, all threads are settled. *)
Lemma settled_at_rest d (c : Config St C) j th :
  Forall (stage_safe d) (threads c) -> threads c !! j = Some th -> is_done (prog th) ->
  d ∈ map digest (drawn th) -> NoDup (digests_drawn c) ->
  all_settled (absence_spec d) (not_shown d) (threads c) (threads c).
Proof.
  intros Hs Hj Hd Hin Hnd i th' Hi. destruct (decide (d ∈ map digest (drawn th'))) as [Hin'|Hni].
  - assert (i = j) as -> by (by eapply drawn_once). left. split; [|done]. by rewrite Hj in Hi; injection Hi as <-.
  - rewrite Forall_lookup in Hs. destruct (always_safe_now _ _ _ (Hs i th' Hi Hni)); [by left|by right].
Qed.

(** From there on they stay so, and [d] stays absent. *)
Lemma exec_settled `{!SessionStoreLaws St} d (base : list (Thread C)) (c c' : Config St C) j th :
  exec c c' -> NoDup (digests_drawn c') ->
  threads c !! j = Some th -> is_done (prog th) -> d ∈ map digest (drawn th) ->
  contents (store c) !! d = None -> all_settled (absence_spec d) (not_shown d) base (threads c) ->
  contents (store c') !! d = None /\ all_settled (absence_spec d) (not_shown d) base (threads c').
Proof.
  intros Hex Hnd. induction Hex as [|c1 c2 c3 Hst Hex IH]; [done|]. intros Hj Hd Hin Hc Hs.
  assert (Hj2 : threads c2 !! j = Some th) by (by eapply step_done).
  assert (Hnd2 : NoDup (digests_drawn c2)) by (eapply submseteq_NoDup; [by eapply exec_drawn|done]).
  destruct (step_settled policy (absence_spec d) (not_shown d) (fun σ => contents σ !! d = None) base c1 c2) as [Hc2 Hs2];
    [apply absence_respects|apply handler_safe|done| |done|done|by apply IH].
  intros i th' Hi Hmoves. apply Forall_forall. intros t Ht Hbad. cbn in Hbad. subst d.
  assert (i = j) as -> by (eapply drawn_once; [exact Hnd2|done|done|by apply list_elem_of_fmap_2|done]).
  by apply (Hmoves th Hj).
Qed.

Lemma schedule_exec (schedule : list (Action (C := C))) (c : Config St C) : exec c (fold_left (act policy) schedule c).
Proof.
  revert c. induction schedule as [|a schedule IH]; intros c; [done|]. cbn [fold_left]. etrans; [|apply IH].
  destruct c as [σ ts]. destruct a as [r|i now e]; [apply rtc_once; constructor|]. cbn.
  destruct (ts !! i) as [[ds p]|] eqn:Hi; [|done]. destruct p as [o|k|k|R call k]; [done|..].
  - by apply rtc_once, step_now.
  - by apply rtc_once, step_random.
  - destruct (perform call σ) as [σ' r] eqn:Hp. apply rtc_once. by eapply step_call.
Qed.

End executions.

(** ** A session visited over time *)

Section visits.
Context `{Sha256, Base64} {C : Type} `{Serde C} (policy : SessionPolicy).

(** The answers to loads of one token at the given times, served one by one by
    the in-memory store. *)
Fixpoint visits (t : SessionToken) (times : list N) (σ : InMemorySessionStore)
    : list (result SessionError (option (LoadedSession C))) :=
  match times with
  | [] => []
  | now :: times =>
      let '(σ, answer) := run (Some now) None (load policy t) σ in
      answer :: visits t times σ
  end.

(** The times are within the idle timeout of each other and before the limit. *)
Fixpoint alive (idle_ms limit last : N) (times : list N) : bool :=
  match times with
  | [] => true
  | now :: times => (now <? saturating_add last idle_ms) && (now <? limit) && alive idle_ms limit now times
  end.

Definition visit_answer (t : SessionToken) (s : StoredSession) (cs : C) (now : N) : LoadedSession C :=
  loaded t (touched now (as_millis (idle_timeout policy)) s) cs.

Lemma length_visits t times σ : length (visits t times σ) = length times.
Proof.
  revert σ. induction times as [|now times IH]; intros σ; [done|]. cbn [visits].
  destruct (run (Some now) None (load policy t) σ). cbn. by rewrite IH.
Qed.

Lemma visits_absent t times σ n a :
  Forall (fun now => now <= u64_max) times -> σ !! digest t = None -> visits t times σ !! n = Some a -> a = Ok None.
Proof.
  revert n. induction times as [|now times IH]; intros n Hw Hs Hn; [done|].
  apply Forall_cons in Hw as [_ Hw]. cbn in Hn. rewrite Hs in Hn. cbn in Hn.
  destruct n as [|n]; [by injection Hn|]. by eapply IH.
Qed.

(** One visit: the record is answered and its window moved, or it is removed. *)
Lemma load_once t σ s cs now :
  as_millis (idle_timeout policy) <= u64_max -> now <= u64_max ->
  σ !! digest t = Some s -> wrong_version policy s = false -> from_slice (claims s) = Some cs ->
  run (Some now) None (load policy t) σ =
    if expired now s then (delete (digest t) σ, Ok None)
    else (<[digest t := touched now (as_millis (idle_timeout policy)) s]> σ, Ok (Some (visit_answer t s cs now))).
Proof.
  intros Hi Hw Hs Hv Hc. unfold load. cbn. rewrite Hs. cbn.
  rewrite (proj2 (N.leb_le _ _) Hw), Hv. destruct (expired now s); [done|].
  rewrite (duration_millis_ok _ _ Hi). cbn. unfold mem_update. rewrite Hs. cbn. by rewrite Hc.
Qed.

Lemma visits_answers t times σ s cs n a :
  as_millis (idle_timeout policy) <= u64_max -> Forall (fun now => now <= u64_max) times ->
  σ !! digest t = Some s -> wrong_version policy s = false -> from_slice (claims s) = Some cs ->
  N.min (idle_expires_at_ms s) (absolute_expires_at_ms s)
    = N.min (saturating_add (last_seen_at_ms s) (as_millis (idle_timeout policy))) (absolute_expires_at_ms s) ->
  visits t times σ !! n = Some a ->
  a = Ok (if alive (as_millis (idle_timeout policy)) (absolute_expires_at_ms s) (last_seen_at_ms s) (take (S n) times)
          then option_map (visit_answer t s cs) (times !! n) else None).
Proof.
  intros Hi. revert σ s n. induction times as [|now times IH]; intros σ s n Hw Hs Hv Hc Hm Hn; [done|].
  apply Forall_cons in Hw as [Hnow Hw].
  change (visits t (now :: times) σ) with
    (let '(σ', answer) := run (Some now) None (load policy t) σ in answer :: visits t times σ') in Hn.
  rewrite (load_once t σ s cs now Hi Hnow Hs Hv Hc) in Hn.
  assert (He : expired now s = negb ((now <? saturating_add (last_seen_at_ms s) (as_millis (idle_timeout policy)))
                                     && (now <? absolute_expires_at_ms s))).
  { unfold expired. apply eq_true_iff_eq. rewrite orb_true_iff, negb_true_iff, andb_false_iff,
      !N.leb_le, !N.ltb_ge. lia. }
  cbn [take alive]. rewrite He in Hn.
  destruct ((now <? _) && (now <? _)) eqn:Hopen; cbn [negb andb] in *.
  - destruct n as [|n]; [by injection Hn as <-|].
    cbn [lookup list_lookup] in Hn |- *.
    eapply (IH _ (touched now (as_millis (idle_timeout policy)) s) n Hw) in Hn;
      [exact Hn|apply lookup_insert_eq|done|done|].
    cbn [touched idle_expires_at_ms absolute_expires_at_ms last_seen_at_ms]. lia.
  - destruct n as [|n]; [by injection Hn as <-|]. eapply visits_absent; [exact Hw|apply lookup_delete_eq|exact Hn].
Qed.

End visits.

(** ** What the builders accept *)

Inductive cookie_built : SessionCookiePolicy -> Prop :=
| built_default : cookie_built default_cookie
| built_new n p : cookie_new n = Ok p -> cookie_built p
| built_path p v p' : cookie_built p -> cookie_path p v = Ok p' -> cookie_built p'
| built_secure p b p' : cookie_built p -> cookie_secure p b = Ok p' -> cookie_built p'
| built_http_only p b : cookie_built p -> cookie_built (cookie_http_only p b)
| built_same_site p v p' : cookie_built p -> cookie_same_site p v = Ok p' -> cookie_built p'.

Inductive policy_built : SessionPolicy -> Prop :=
| built_policy i v p : policy_new i v = Ok p -> policy_built p
| built_cookie p c : policy_built p -> cookie_built c -> policy_built (policy_cookie p c)
| built_timeouts p i a p' : policy_built p -> policy_timeouts p i a = Ok p' -> policy_built p'
| built_claims p m p' : policy_built p -> policy_max_claim_bytes p m = Ok p' -> policy_built p'
| built_assurance p a p' : policy_built p -> policy_assurance p a = Ok p' -> policy_built p'.

(** The browser's rules for the cookie prefixes and [SameSite=None], and a path
    that cannot end the attribute. *)
Definition cookie_ok (p : SessionCookiePolicy) : Prop :=
  validate_cookie_name (name p) = Ok tt
  /\ (starts_with "/" (path p) = true /\ str_contains ";" (path p) = false /\ any_control (path p) = false)
  /\ (starts_with "__Host-" (name p) = true -> secure p = true /\ path p = "/")
  /\ (starts_with "__Secure-" (name p) = true -> secure p = true)
  /\ (same_site p = SameSiteNone -> secure p = true).

Definition limits_ok (p : SessionPolicy) : Prop :=
  validate_stable_id (id p) = true /\ validate_stable_id (assurance p) = true /\ schema_version p <> 0
  /\ 0 < idle_timeout p <= absolute_timeout p /\ absolute_timeout p <= from_secs (365 * 24 * 60 * 60)
  /\ 0 < max_claim_bytes p <= 65536.

Lemma cookie_built_ok p : cookie_built p -> cookie_ok p.
Proof.
  induction 1 as [|n p Hn|p v p' _ IH Hp|p b p' _ IH Hp|p b _ IH|p v p' _ IH Hp]; unfold cookie_ok in *.
  - vm_compute. intuition congruence.
  - unfold cookie_new in Hn. destruct (validate_cookie_name n) as [[]|] eqn:Hv; [|done]. injection Hn as <-.
    cbn. by split_and!.
  - unfold cookie_path in Hp. destruct (_ || _) eqn:Hg in Hp; [done|]. injection Hp as <-. reflect_guards.
    cbn. destruct IH as (? & _ & Hh & ? & ?). split_and!; try done.
    intros Hs. split; [by apply Hh|].
    match goal with Hg : starts_with _ _ && _ = false |- _ => rewrite Hs in Hg; cbn in Hg end. by reflect_guards.
  - unfold cookie_secure in Hp. destruct (_ && _) eqn:Hg in Hp; [done|]. injection Hp as <-. cbn.
    destruct IH as (? & ? & Hh & Hs & Hn). destruct b; [naive_solver|]. cbn [negb andb] in Hg. reflect_guards.
    intuition congruence.
  - done.
  - unfold cookie_same_site in Hp. destruct (_ && _) eqn:Hg in Hp; [done|]. injection Hp as <-. cbn.
    destruct IH as (? & ? & Hh & Hs & Hn). intuition (subst; try congruence). by destruct (secure p).
Qed.

Lemma policy_built_ok p : policy_built p -> limits_ok p /\ cookie_ok (cookie_policy p).
Proof.
  induction 1 as [i v p Hp|p c _ [IH _] Hc|p i a p' _ [IH ?] Hp|p m p' _ [IH ?] Hp|p a p' _ [IH ?] Hp]; unfold limits_ok in *.
  - unfold policy_new in Hp. destruct (negb _) eqn:Hi in Hp; [done|]. destruct (v =? 0) eqn:Hv; [done|].
    injection Hp as <-. cbn. reflect_guards. split; [|apply cookie_built_ok, built_default].
    split_and!; try done; by vm_compute.
  - split; [done|by apply cookie_built_ok].
  - unfold policy_timeouts in Hp. destruct (_ || _) eqn:Hg in Hp; [done|]. injection Hp as <-. reflect_guards.
    cbn. split; [|done]. destruct IH as (? & ? & ? & _ & _ & ?). split_and!; try done; lia.
  - unfold policy_max_claim_bytes in Hp. destruct (_ || _) eqn:Hg in Hp; [done|]. injection Hp as <-. reflect_guards.
    cbn. split; [|done]. destruct IH as (? & ? & ? & ? & ? & _). split_and!; try done; lia.
  - unfold policy_assurance in Hp. destruct (negb _) eqn:Hg in Hp; [done|]. injection Hp as <-. reflect_guards.
    cbn. split; [|done]. destruct IH as (? & _ & ? & ? & ? & ?). tauto.
Qed.

Lemma limits_fit p : limits_ok p -> as_millis (idle_timeout p) <= u64_max /\ as_millis (absolute_timeout p) <= u64_max.
Proof.
  intros (_ & _ & _ & Hi & Ha & _). apply as_millis_le in Ha.
  assert (as_millis (idle_timeout p) <= as_millis (absolute_timeout p)) by (apply as_millis_mono; lia).
  unfold u64_max. lia.
Qed.

(** ** Properties *)

(** Every session the manager keeps is the policy's: in any interleaving of
    requests over any store that keeps its contract, from an empty one, each stored
    record has the policy's identity, claims within the limit and an absolute expiry
    counted from its creation, which neither loading nor rotating moves; and no
    request is answered with a session that has reached it. *)
Theorem sessions_keep_policy `{Sha256, Base64} {C St} `{Serde C, SessionStore St, !SessionStoreLaws St} policy
    (σ : St) (c : Config St C) :
  contents σ = ∅ -> rtc (step policy) (mkConfig σ []) c ->
  (forall d s, contents (store c) !! d = Some s -> session_ok policy s)
  /\ (forall i th o, threads c !! i = Some th -> prog th = Done o -> answer_ok policy o).
Proof.
  intros H0' Hex.
  assert (Hinv : map_Forall (fun _ s => session_ok policy s) (contents (store c))
                 /\ all_settled (record_spec policy) (answer_ok policy) [] (threads c)).
  { pattern c. refine (rtc_ind_r _ _ _ _ c Hex).
    - cbn. rewrite H0'. split; [apply map_Forall_empty|]. by intros i th Hi.
    - intros c1 c2 _ Hst [IH1 IH2]. eapply (step_settled policy _ _ (fun σ => map_Forall _ (contents σ)));
        [apply record_respects|apply handler_records|exact Hst| |exact IH1|exact IH2].
      intros i th _ _. apply Forall_forall. by intros t _ []. }
  destruct Hinv as [Hm Ht]. split; [by apply Hm|]. intros i th o Hi Ho.
  destruct (Ht i th Hi) as [[_ [=]]|Hs]. by rewrite Ho in Hs.
Qed.

(** C22. A session that is gone stays gone. Let a finished request have drawn the
    token of digest [d] and let the store hold no session of that digest any more
    (it was revoked, it expired, it was rotated away). Then, whatever requests were
    in flight and whatever arrives later, over any store that keeps its contract
    and as long as no token is drawn twice, no session of digest [d] is stored
    again and no request answered from then on shows it. *)
Theorem revoked_stays_revoked `{Sha256, Base64} {C St} `{Serde C, SessionStore St, !SessionStoreLaws St} policy d
    (c0 c1 c2 : Config St C) j th :
  threads c0 = [] -> rtc (step policy) c0 c1 -> rtc (step policy) c1 c2 -> NoDup (digests_drawn c2) ->
  threads c1 !! j = Some th -> is_done (prog th) -> d ∈ map digest (drawn th) ->
  contents (store c1) !! d = None ->
  contents (store c2) !! d = None
  /\ forall i th' o, threads c2 !! i = Some th' -> prog th' = Done o -> threads c1 !! i <> Some th' -> shown o <> Some d.
Proof.
  intros Hnone H01 H12 Hnd Hj Hd Hin Hc.
  assert (Hset1 : all_settled (absence_spec d) (not_shown d) (threads c1) (threads c1)).
  { apply settled_at_rest with j th; [|done..|].
    - eapply exec_stage_safe; [exact H01|]. by rewrite Hnone.
    - eapply submseteq_NoDup; [by eapply exec_drawn|done]. }
  assert (Hset2 : contents (store c2) !! d = None /\ all_settled (absence_spec d) (not_shown d) (threads c1) (threads c2)).
  { by eapply exec_settled. }
  split; [apply Hset2|]. intros i th' o Hi Ho Hnew. destruct Hset2 as [_ Hset2].
  destruct (Hset2 i th' Hi) as [[_ Hold]|Hs]; [done|]. by rewrite Ho in Hs.
Qed.

(** The sliding window: after a session is created at [t0] by the in-memory
    store, a load among successive loads of its token is answered with its claims
    exactly when it and every earlier load came within the idle timeout of the one
    before and before the absolute expiry, counted from [t0]; from the first load
    that did not, all loads find nothing. *)
Theorem sliding_window `{Sha256, Base64} {C} `{Serde C} policy σ t0 entropy (cs : C) c σ' times n a :
  run (Some t0) entropy (create policy cs) σ = (σ', Ok c) ->
  (forall bs, to_vec cs = Some bs -> from_slice bs = Some cs) ->
  Forall (fun now => now <= u64_max) times ->
  visits policy (token (cookie_of c)) times σ' !! n = Some a ->
  let idle_ms := as_millis (idle_timeout policy) in
  let limit := saturating_add t0 (as_millis (absolute_timeout policy)) in
  a = Ok (if alive idle_ms limit t0 (take (S n) times)
          then option_map (fun now => mkLoaded (digest (token (cookie_of c))) (schema_version policy) (assurance policy)
                             cs t0 t0 now (N.min (saturating_add now idle_ms) limit) limit) (times !! n)
          else None).
Proof.
  intros Hrun Hrt Hw Hn. unfold create in Hrun. cbn [run] in Hrun. destruct (unix_millis Clock (Some t0)) as [t|] eqn:Ht; [|done].
  apply unix_millis_ok in Ht as [[= <-] _]. cbn [run] in Hrun. destruct (random entropy) as [tok|]; [|done].
  destruct (stored policy cs t0 t0 t0) as [s|] eqn:Hs; [|done].
  assert (Hidle : as_millis (idle_timeout policy) <= u64_max).
  { unfold stored, duration_millis in Hs. destruct (to_vec cs); [|done]. cbn in Hs.
    destruct (_ <? _); [done|]. by destruct (N.leb_spec (as_millis (idle_timeout policy)) u64_max). }
  apply stored_ok in Hs as ((Hid & Hv & Has & _ & Habs & _) & Hcr & Hro & Hla & Hcl & Hie).
  cbn in Hrun. destruct (σ !! digest tok); [done|]. injection Hrun as <- <-. cbn [token cookie_of cookie] in *.
  rewrite Hcr in Habs.
  assert (Hwv : wrong_version policy s = false).
  { unfold wrong_version. by rewrite Hid, Hv, String.eqb_refl, N.eqb_refl. }
  unshelve epose proof (visits_answers policy tok times _ s cs n a Hidle Hw (lookup_insert_eq _ _ _) Hwv (Hrt _ Hcl) _ Hn)
    as ->; [by rewrite Hie, Hla|].
  rewrite Habs, Hla. do 2 f_equal. destruct (times !! n) as [now|]; [|done]. cbn. unfold visit_answer, loaded. cbn.
  by rewrite Hv, Has, Hcr, Hro, Habs.
Qed.

(** Whatever a caller chains through the builders, the policy obeys the
    browser's cookie rules ([__Host-] and [__Secure-] names and [SameSite=None] are
    only ever [Secure], [__Host-] only at the root path, the path holds no
    separator or control character), its timeouts and limits are in bounds, and the
    manager never fails to compute an expiry: only the claims can be refused. *)
Theorem built_policies_sound {C} `{Serde C} policy :
  policy_built policy ->
  cookie_ok (cookie_policy policy) /\ limits_ok policy
  /\ forall (cs : C) created rotated last e, stored policy cs created rotated last = Err e ->
       (e = InvalidClaims /\ to_vec cs = None)
       \/ exists bs, to_vec cs = Some bs /\ e = ClaimsTooLarge (blen bs) (max_claim_bytes policy)
                    /\ max_claim_bytes policy < blen bs.
Proof.
  intros Hb. destruct (policy_built_ok _ Hb) as [Hl Hc]. split; [done|]. split; [done|].
  intros cs created rotated last e Hs. destruct (limits_fit _ Hl) as [Hi Ha]. unfold stored in Hs.
  destruct (to_vec cs) as [bs|]; [|left; by injection Hs as <-]. cbn in Hs.
  destruct (N.ltb_spec (max_claim_bytes policy) (blen bs)); [right; exists bs; injection Hs as <-; done|].
  rewrite (duration_millis_ok _ _ Hi), (duration_millis_ok _ _ Ha) in Hs. done.
Qed.

(** ** Witnesses *)

Module SessionSample.

#[local] Existing Instance toy_sha256.

(** Stand-ins for the two libraries. *)
Definition toy_base64 : Base64 := {| b64_encode := hex; b64_decode := fun s => Some (take 32 (as_bytes s)) |}.
Definition toy_serde : Serde N := {| to_vec n := Some (be_bytes 8 n); from_slice bs := Some (be_value bs) |}.

#[local] Existing Instance toy_base64.
#[local] Existing Instance toy_serde.

Definition policy : SessionPolicy :=
  mkPolicy "accounts" 1 default_cookie (from_secs 60) (from_secs 100) 4096 "application".

Lemma policy_is_built : policy_built policy.
Proof.
  eapply (built_timeouts (mkPolicy "accounts" 1 default_cookie (from_secs 1800) (from_secs 86400) 4096 "application")
            (from_secs 60) (from_secs 100)); [eapply (built_policy "accounts" 1)|]; vm_compute; reflexivity.
Qed.

Definition entropy : option bytes := Some (repeat "a"%byte 32).
Definition tok : SessionToken := mkToken (hex (repeat "a"%byte 32)).

Definition start : Config InMemorySessionStore N := mkConfig ∅ [].

(** A session is created while a load of its token, which found it, waits; the
    session is revoked before the load goes on. *)
Definition created : Config InMemorySessionStore N :=
  fold_left (act policy) [Arrive (ToCreate 7); Advance 0 (Some 1000) entropy; Advance 0 None entropy; Advance 0 None None;
    Arrive (ToLoad tok); Advance 1 None None] start.

Definition revoked : Config InMemorySessionStore N :=
  fold_left (act policy) [Arrive (ToRevoke tok); Advance 2 None None] created.

Definition resumed : Config InMemorySessionStore N :=
  fold_left (act policy) [Advance 1 (Some 2000) None; Advance 1 None None] revoked.

End SessionSample.

#[local] Existing Instances toy_sha256 SessionSample.toy_base64 SessionSample.toy_serde.

Lemma sessions_keep_policy_witness :
  is_Some (contents (store SessionSample.created) !! digest SessionSample.tok)
  /\ forall d s, contents (store SessionSample.created) !! d = Some s -> session_ok SessionSample.policy s.
Proof.
  split; [vm_compute; by eexists|].
  exact (proj1 (sessions_keep_policy SessionSample.policy ∅ SessionSample.created eq_refl (schedule_exec _ _ _))).
Defined.

(** The load that had found the session answers that there is none. *)
Lemma revoked_stays_revoked_witness :
  contents (store SessionSample.resumed) !! digest SessionSample.tok = None
  /\ threads SessionSample.resumed !! 1%nat = Some (mkThread [] (Done (Loaded (Ok None)))).
Proof.
  split; [|vm_compute; reflexivity].
  eapply (revoked_stays_revoked SessionSample.policy (digest SessionSample.tok) SessionSample.start
            SessionSample.revoked SessionSample.resumed 0).
  - reflexivity.
  - etrans; apply schedule_exec.
  - apply schedule_exec.
  - vm_compute. apply NoDup_singleton.
  - vm_compute. reflexivity.
  - by eexists.
  - vm_compute. by left.
  - vm_compute. reflexivity.
Defined.

(** Created at 1 s with a minute of idle time and a hundred seconds in all: the
    second load moves the window up to the limit, the third is too late. *)
Lemma sliding_window_witness :
  exists c σ', run (Some 1000) SessionSample.entropy (create SessionSample.policy 7) ∅ = (σ', Ok c)
    /\ visits SessionSample.policy (token (cookie_of c)) [50000; 100000; 101000] σ'
       = [Ok (Some (mkLoaded (digest (token (cookie_of c))) 1 "application" 7 1000 1000 50000 101000 101000));
          Ok (Some (mkLoaded (digest (token (cookie_of c))) 1 "application" 7 1000 1000 100000 101000 101000)); Ok None].
Proof.
  destruct (run (Some 1000) SessionSample.entropy (create SessionSample.policy 7) ∅) as [σ' [c|e]] eqn:Hr;
    [|exfalso; apply (f_equal (fun x => is_ok x.2)) in Hr; by vm_compute in Hr].
  exists c, σ'. split; [done|].
  assert (Hw : Forall (fun now => now <= u64_max) [50000; 100000; 101000])
    by (repeat constructor; vm_compute; discriminate).
  assert (Hrt : forall bs, to_vec 7 = Some bs -> from_slice bs = Some 7) by (intros bs [= <-]; by vm_compute).
  pose proof (fun n a => sliding_window SessionSample.policy ∅ 1000 SessionSample.entropy 7 c σ'
                           [50000; 100000; 101000] n a Hr Hrt Hw) as Hv.
  pose proof (length_visits (C := N) SessionSample.policy (token (cookie_of c)) [50000; 100000; 101000] σ') as Hlen.
  destruct (visits SessionSample.policy (token (cookie_of c)) [50000; 100000; 101000] σ') as [|a0 [|a1 [|a2 [|]]]];
    [done..| |done].
  rewrite (Hv 0%nat a0 eq_refl), (Hv 1%nat a1 eq_refl), (Hv 2%nat a2 eq_refl). reflexivity.
Defined.

Lemma built_policies_sound_witness :
  cookie_ok (cookie_policy SessionSample.policy) /\ limits_ok SessionSample.policy.
Proof.
  destruct (built_policies_sound (C := N) SessionSample.policy SessionSample.policy_is_built) as (Hc & Hl & _). by split.
Defined.

(** [create] on a digest the store already holds reports a conflict, after
    replacing the session it found. *)
Example conflicting_create_overwrites t s s' :
  mem_create t s' {[ digest t := s ]} = ({[ digest t := s' ]}, Err StoreConflict).
Proof. unfold mem_create. by rewrite lookup_singleton_eq, insert_singleton_eq. Qed.

(** [rotate] keeps the absolute expiry and, unlike [load], lets the idle expiry
    it reports exceed it. *)
Example rotated_idle_exceeds_absolute :
  option_map (fun s => (idle_expires_at_ms s, absolute_expires_at_ms s))
    ((run (Some 60000) (Some (repeat "b"%byte 32)) (rotate SessionSample.policy SessionSample.tok 8)
        (store SessionSample.created)).1 !! digest (mkToken (hex (repeat "b"%byte 32)))) = Some (120000, 101000).
Proof. vm_compute. reflexivity. Qed.
