(* ===== verification/Idempotency.v ===== *)
(** * Idempotency: replay protection for actions ([pliego-data/src/idempotency.rs])

    The policy, key and partition, the digest that names a scope, the in-memory
    store with its record state machine, the manager's [begin] and the permit's
    three ends. A server with any number of managers over one store is a step
    relation that keeps the outstanding permits and records what happened; the
    automaton [spec_step] says what may happen to one scope, and the refinement
    theorem that it does. *)

From S2P Require Import Prelude Request.

Local Open Scope string_scope.
Local Open Scope N_scope.

Inductive IdempotencyError : Type :=
| InvalidPolicy (message : string)
| InvalidKey
| InvalidPartition
| InvalidIdentity
| InputConflict
| InProgressError
| OutcomeUnknownError
| ResultTooLarge (actual maximum : N)
| StoreConflict
| StoreFailure
| Clock.

Definition code (e : IdempotencyError) : string :=
  match e with
  | InvalidPolicy _ => "PLG-ACT-001"
  | InvalidKey | InvalidPartition | InvalidIdentity => "PLG-ACT-106"
  | InputConflict => "PLG-ACT-409"
  | InProgressError => "PLG-ACT-425"
  | OutcomeUnknownError => "PLG-ACT-409"
  | ResultTooLarge _ _ => "PLG-ACT-202"
  | StoreConflict | StoreFailure | Clock => "PLG-ACT-500"
  end.

(** ** Policy, key and partition *)

Record IdempotencyPolicy : Type := mkPolicy { id : string; retention : Duration; max_result_bytes : N }.

Definition policy_new (i : string) : result IdempotencyError IdempotencyPolicy :=
  fail_if negb (validate_stable_id i) with InvalidPolicy "invalid idempotency policy ID";;
  Ok (mkPolicy i (from_secs (24 * 60 * 60)) (256 * 1024)).

Definition policy_retention (p : IdempotencyPolicy) (r : Duration) : result IdempotencyError IdempotencyPolicy :=
  fail_if (r =? 0) || (from_secs (7 * 24 * 60 * 60) <? r)
    with InvalidPolicy "retention must be between 1 second and 7 days";;
  Ok (mkPolicy (id p) r (max_result_bytes p)).

Definition policy_max_result_bytes (p : IdempotencyPolicy) (maximum : N) : result IdempotencyError IdempotencyPolicy :=
  fail_if (maximum =? 0) || (16 * 1024 * 1024 <? maximum)
    with InvalidPolicy "max result bytes must be between 1 and 16777216";;
  Ok (mkPolicy (id p) (retention p) maximum).

Record IdempotencyKey : Type := mkKey { key_text : string }.

Definition parse_key (value : string) : result IdempotencyError IdempotencyKey :=
  fail_if (slen value <? 16) || (128 <? slen value)
          || negb (string_all (fun c => is_ascii_alphanumeric c || char_in ["-"; "_"; "."]%char c) value)
    with InvalidKey;;
  Ok (mkKey value).

Record IdempotencyPartition : Type := mkPartition { partition_digest : string }.

Definition from_identity `{Sha256} (identity : string) : result IdempotencyError IdempotencyPartition :=
  fail_if (slen identity =? 0) || (512 <? slen identity) || any_control identity with InvalidPartition;;
  Ok (mkPartition (hex (sha256 (as_bytes identity)))).

(** ** The store *)

Inductive StoredState : Type := InProgress | Completed | OutcomeUnknown.

#[export] Instance stored_state_eq_dec : EqDecision StoredState.
Proof. solve_decision. Defined.

Record IdempotencyStoreRecord : Type := mkRecord {
  input_digest : string; state : StoredState; result_bytes : option bytes; expires_at_ms : N }.

Inductive IdempotencyBegin : Type :=
| Acquired
| ReplayStored (result : bytes)
| BeginInProgress
| BeginOutcomeUnknown
| Conflict.

Abbreviation InMemoryIdempotencyStore := (gmap string IdempotencyStoreRecord).

Definition store_begin (scope input : string) (expires : N) (clock : clock) (entries : InMemoryIdempotencyStore)
    : InMemoryIdempotencyStore * result IdempotencyError IdempotencyBegin :=
  match unix_millis Clock clock with
  | Err e => (entries, Err e)
  | Ok now =>
      let entries :=
        match entries !! scope with
        | Some record => if expires_at_ms record <=? now then delete scope entries else entries
        | None => entries
        end in
      match entries !! scope with
      | None => (<[scope := mkRecord input InProgress None expires]> entries, Ok Acquired)
      | Some record =>
          (entries,
           if negb (String.eqb (input_digest record) input) then Ok Conflict
           else
             match state record with
             | InProgress => Ok BeginInProgress
             | OutcomeUnknown => Ok BeginOutcomeUnknown
             | Completed => r ← ok_or StoreFailure (result_bytes record); Ok (ReplayStored r)
             end)
      end
  end.

Definition store_complete (scope : string) (result : bytes) (entries : InMemoryIdempotencyStore)
    : InMemoryIdempotencyStore * Prelude.result IdempotencyError unit :=
  match entries !! scope with
  | None => (entries, Err StoreFailure)
  | Some record =>
      if bool_decide (state record <> InProgress) then (entries, Err StoreConflict)
      else (<[scope := mkRecord (input_digest record) Completed (Some result) (expires_at_ms record)]> entries, Ok tt)
  end.

Definition store_abandon (scope : string) (entries : InMemoryIdempotencyStore)
    : InMemoryIdempotencyStore * result IdempotencyError unit := (delete scope entries, Ok tt).

Definition store_mark_unknown (scope : string) (entries : InMemoryIdempotencyStore)
    : InMemoryIdempotencyStore * result IdempotencyError unit :=
  match entries !! scope with
  | None => (entries, Err StoreFailure)
  | Some record =>
      (<[scope := mkRecord (input_digest record) OutcomeUnknown None (expires_at_ms record)]> entries, Ok tt)
  end.

(** ** The manager and its permits *)

(** [IdempotencyIdentity], with the limit the permit carries. *)
Record IdempotencyPermit : Type := mkPermit {
  scope_digest_of : string; permit_input : string; permit_expires : N; permit_max_result_bytes : N }.

Inductive IdempotencyDecision : Type :=
| Execute (permit : IdempotencyPermit)
| Replay (result : bytes).

Definition SCOPE_DOMAIN : bytes := as_bytes "pliego-action-idempotency-v1" ++ [x00].

Definition scope_preimage (policy_id action_id : string) (action_revision deployment_epoch : N) (key partition : string)
    : bytes :=
  SCOPE_DOMAIN ++ lp (as_bytes policy_id) ++ lp (as_bytes action_id) ++ lp (be_bytes 4 action_revision)
    ++ lp (be_bytes 4 deployment_epoch) ++ lp (as_bytes key) ++ lp (as_bytes partition).

Definition scope_digest `{Sha256} (policy : IdempotencyPolicy) (action_id : string) (action_revision deployment_epoch : N)
    (key : IdempotencyKey) (partition : IdempotencyPartition) : string :=
  hex (sha256 (scope_preimage (id policy) action_id action_revision deployment_epoch (key_text key)
                 (partition_digest partition))).

Definition invalid_identity (action_id : string) (action_revision deployment_epoch : N) (input : string) : bool :=
  negb (validate_stable_id action_id) || (action_revision =? 0) || (deployment_epoch =? 0)
  || negb (slen input =? 64) || negb (string_all is_ascii_hexdigit input).

(** [begin] up to its call of the store: the scope, the input digest in lower
    case and the expiry it asks for. *)
Definition admit_request `{Sha256} (policy : IdempotencyPolicy) (action_id : string) (action_revision deployment_epoch : N)
    (key : IdempotencyKey) (partition : IdempotencyPartition) (input : string) (clock : clock)
    : result IdempotencyError IdempotencyPermit :=
  fail_if invalid_identity action_id action_revision deployment_epoch input with InvalidIdentity;;
  now ← unix_millis Clock clock;
  keep ← duration_millis (InvalidPolicy "duration is too large") (retention policy);
  Ok (mkPermit (scope_digest policy action_id action_revision deployment_epoch key partition)
        (to_ascii_lowercase input) (saturating_add now keep) (max_result_bytes policy)).

Definition decide_begin (permit : IdempotencyPermit) (answer : IdempotencyBegin)
    : result IdempotencyError IdempotencyDecision :=
  match answer with
  | Acquired => Ok (Execute permit)
  | ReplayStored r => Ok (Replay r)
  | Conflict => Err InputConflict
  | BeginInProgress => Err InProgressError
  | BeginOutcomeUnknown => Err OutcomeUnknownError
  end.

(** [IdempotencyManager::begin]; the store reads the clock again. *)
Definition begin `{Sha256} (policy : IdempotencyPolicy) (action_id : string) (action_revision deployment_epoch : N)
    (key : IdempotencyKey) (partition : IdempotencyPartition) (input : string) (clock store_clock : clock)
    (entries : InMemoryIdempotencyStore) : InMemoryIdempotencyStore * result IdempotencyError IdempotencyDecision :=
  match admit_request policy action_id action_revision deployment_epoch key partition input clock with
  | Err e => (entries, Err e)
  | Ok permit =>
      let '(entries, answer) :=
        store_begin (scope_digest_of permit) (permit_input permit) (permit_expires permit) store_clock entries in
      (entries, answer ≫= decide_begin permit)
  end.

Definition permit_complete (p : IdempotencyPermit) (result : bytes) (entries : InMemoryIdempotencyStore)
    : InMemoryIdempotencyStore * Prelude.result IdempotencyError unit :=
  if permit_max_result_bytes p <? blen result then
    ((store_abandon (scope_digest_of p) entries).1, Err (ResultTooLarge (blen result) (permit_max_result_bytes p)))
  else store_complete (scope_digest_of p) result entries.

Definition permit_abandon (p : IdempotencyPermit) (entries : InMemoryIdempotencyStore)
    : InMemoryIdempotencyStore * result IdempotencyError unit := store_abandon (scope_digest_of p) entries.

Definition permit_mark_unknown (p : IdempotencyPermit) (entries : InMemoryIdempotencyStore)
    : InMemoryIdempotencyStore * result IdempotencyError unit := store_mark_unknown (scope_digest_of p) entries.

(** ** A server *)

Inductive Event : Type :=
| Granted (p : IdempotencyPermit) (now : N)
| Finished (p : IdempotencyPermit) (result : bytes)
| Oversized (p : IdempotencyPermit) (result : bytes)
| Abandoned (p : IdempotencyPermit)
| MarkedUnknown (p : IdempotencyPermit)
| Replayed (scope input : string) (now : N) (result : bytes)
| Refused (scope input : string) (now : N) (why : IdempotencyError).

(** The store, the permits handed out and not yet consumed, and what happened. *)
Record Server : Type := mkServer {
  entries : InMemoryIdempotencyStore; permits : list IdempotencyPermit; history : list Event }.

Section server.
Context `{Sha256}.

(** What a call of [begin] leaves in the history. *)
Definition begin_event (p : IdempotencyPermit) (now : N) (answer : result IdempotencyError IdempotencyDecision)
    : list Event :=
  match answer with
  | Ok (Execute q) => [Granted q now]
  | Ok (Replay r) => [Replayed (scope_digest_of p) (permit_input p) now r]
  | Err e => [Refused (scope_digest_of p) (permit_input p) now e]
  end.

Definition granted (answer : result IdempotencyError IdempotencyDecision) : list IdempotencyPermit :=
  match answer with Ok (Execute q) => [q] | _ => [] end.

(** What consuming a permit leaves: a result over the limit abandons it. *)
Definition finish_event (p : IdempotencyPermit) (result : bytes) : Event :=
  if permit_max_result_bytes p <? blen result then Oversized p result else Finished p result.

(** Requests begin and end in any order and at any time, also past the expiry of permits
    that are still out; a permit that is never consumed is a request that was lost. *)
Inductive step : Server -> Server -> Prop :=
| step_begin s policy action revision epoch key partition input clock now p m answer :
    admit_request policy action revision epoch key partition input clock = Ok p -> now <= u64_max ->
    begin policy action revision epoch key partition input clock (Some now) (entries s) = (m, answer) ->
    step s (mkServer m (permits s ++ granted answer) (history s ++ begin_event p now answer))
| step_complete s i p result m r :
    permits s !! i = Some p -> permit_complete p result (entries s) = (m, r) ->
    step s (mkServer m (delete i (permits s)) (history s ++ [finish_event p result]))
| step_abandon s i p m r :
    permits s !! i = Some p -> permit_abandon p (entries s) = (m, r) ->
    step s (mkServer m (delete i (permits s)) (history s ++ [Abandoned p]))
| step_mark_unknown s i p m r :
    permits s !! i = Some p -> permit_mark_unknown p (entries s) = (m, r) ->
    step s (mkServer m (delete i (permits s)) (history s ++ [MarkedUnknown p])).

End server.

Definition empty_server : Server := mkServer ∅ [] [].

(** ** The contract of one scope *)

Inductive Scope : Type :=
| Free
| Held (p : IdempotencyPermit)
| Done (p : IdempotencyPermit) (result : bytes)
| Lost (p : IdempotencyPermit).

#[export] Instance permit_eq_dec : EqDecision IdempotencyPermit.
Proof. solve_decision. Defined.

#[export] Instance error_eq_dec : EqDecision IdempotencyError.
Proof. solve_decision. Defined.

Definition event_scope (e : Event) : string :=
  match e with
  | Granted p _ | Finished p _ | Oversized p _ | Abandoned p | MarkedUnknown p => scope_digest_of p
  | Replayed scope _ _ _ | Refused scope _ _ _ => scope
  end.

(** The permit a scope remembers. *)
Definition owner (st : Scope) : option IdempotencyPermit :=
  match st with Free => None | Held p | Done p _ | Lost p => Some p end.

(** What may happen to a scope: it is granted when it is free, or past the expiry of the
    permit it remembers; only the permit that holds it ends it; a result is replayed to
    the same input, within its expiry, as it was given; and a refusal tells why. *)
Definition spec_step (st : Scope) (e : Event) : option Scope :=
  match e, st with
  | Granted p _, Free => Some (Held p)
  | Granted p now, (Held q | Done q _ | Lost q) => if permit_expires q <=? now then Some (Held p) else None
  | Finished p r, Held q => if decide (p = q) then Some (Done q r) else None
  | Oversized p r, Held q => if decide (p = q /\ permit_max_result_bytes p < blen r) then Some Free else None
  | Abandoned p, Held q => if decide (p = q) then Some Free else None
  | MarkedUnknown p, Held q => if decide (p = q) then Some (Lost q) else None
  | Replayed _ input now r, Done q r' =>
      if decide (input = permit_input q /\ r = r' /\ now < permit_expires q) then Some st else None
  | Refused _ input now why, (Held q | Done q _ | Lost q) =>
      if (permit_expires q <=? now) then None
      else if decide (input = permit_input q) then
        match st with
        | Held _ => if decide (why = InProgressError) then Some st else None
        | Lost _ => if decide (why = OutcomeUnknownError) then Some st else None
        | _ => None
        end
      else if decide (why = InputConflict) then Some st else None
  | _, _ => None
  end.

Definition spec_run (scope : string) (events : list Event) : option Scope :=
  foldl (fun st e => if decide (event_scope e = scope) then st ≫= fun st => spec_step st e else st) (Some Free) events.

(** The permit an event consumes. *)
Definition consumes (e : Event) : option IdempotencyPermit :=
  match e with Finished p _ | Oversized p _ | Abandoned p | MarkedUnknown p => Some p | _ => None end.

(** The scope of [p] was granted anew, past the expiry of [p]. *)
Definition superseded (p : IdempotencyPermit) (events : list Event) : Prop :=
  exists i j q now later, (i < j)%nat /\ events !! i = Some (Granted p now) /\ events !! j = Some (Granted q later)
    /\ scope_digest_of q = scope_digest_of p /\ permit_expires p <= later.

(** A permit of the scope was consumed after that: its request took longer than the
    retention, and the store does not notice. *)
Definition late_use (d : string) (events : list Event) : Prop :=
  exists k e p, events !! k = Some e /\ consumes e = Some p /\ scope_digest_of p = d /\ superseded p (take k events).

Lemma superseded_app p events more : superseded p events -> superseded p (events ++ more).
Proof.
  intros (i & j & q & now & later & Hij & Hi & Hj & Hq & Hx). exists i, j, q, now, later.
  split_and!; [done|by apply lookup_app_l_Some..|done|done].
Qed.

Lemma late_use_app d events more : late_use d events -> late_use d (events ++ more).
Proof.
  intros (k & e & p & Hk & He & Hd & Hs). exists k, e, p. pose proof (lookup_lt_Some _ _ _ Hk).
  rewrite take_app_le by lia. split_and!; [by apply lookup_app_l_Some|done..].
Qed.

Lemma superseded_by p q now later events :
  Granted p now ∈ events -> scope_digest_of q = scope_digest_of p -> permit_expires p <= later ->
  superseded p (events ++ [Granted q later]).
Proof.
  intros [i Hi]%list_elem_of_lookup Hq Hx. exists i, (length events), q, now, later.
  split_and!; [by eapply lookup_lt_Some|by apply lookup_app_l_Some| |done|done].
  by rewrite lookup_app_r, Nat.sub_diag by lia.
Qed.

Lemma consumed_late e p events : consumes e = Some p -> superseded p events -> late_use (scope_digest_of p) (events ++ [e]).
Proof.
  intros He Hs. exists (length events), e, p. rewrite take_app_length, lookup_app_r, Nat.sub_diag by lia. by split_and!.
Qed.

(** ** The store refines the contract *)

Section refinement.
Context `{Sha256}.

(** The record of a scope in each state. *)
Definition rep (st : Scope) : option IdempotencyStoreRecord :=
  match st with
  | Free => None
  | Held p => Some (mkRecord (permit_input p) InProgress None (permit_expires p))
  | Done p r => Some (mkRecord (permit_input p) Completed (Some r) (permit_expires p))
  | Lost p => Some (mkRecord (permit_input p) OutcomeUnknown None (permit_expires p))
  end.

(** The permits of a scope that are out, from the oldest. *)
Definition out (d : string) (s : Server) : list IdempotencyPermit := filter (fun p => scope_digest_of p = d) (permits s).

(** One scope of the server in state [st]: of its permits that are out, the last may hold
    it, and the others were superseded. *)
Record scope_ok (s : Server) (d : string) (st : Scope) : Prop := {
  sc_run : spec_run d (history s) = Some st;
  sc_entry : entries s !! d = rep st;
  sc_owner : forall p, owner st = Some p -> scope_digest_of p = d;
  sc_granted : forall p, p ∈ out d s -> exists now, Granted p now ∈ history s;
  sc_held : forall p, st = Held p -> p ∈ out d s;
  sc_out : forall p, p ∈ out d s -> st = Held p \/ superseded p (history s);
  sc_order : ForallOrdPairs (fun p _ => superseded p (history s)) (out d s) }.

Definition server_ok (s : Server) : Prop := forall d, late_use d (history s) \/ exists st, scope_ok s d st.

Lemma spec_run_snoc d es e :
  spec_run d (es ++ [e]) =
    if decide (event_scope e = d) then spec_run d es ≫= fun st => spec_step st e else spec_run d es.
Proof. unfold spec_run. by rewrite foldl_app. Qed.

Lemma ord_pairs_mono {A} (P Q : A -> A -> Prop) l : (forall x y, P x y -> Q x y) -> ForallOrdPairs P l -> ForallOrdPairs Q l.
Proof. intros Hpq. induction 1 as [|x l Hx _ IH]; constructor; [|done]. eapply List.Forall_impl; [|exact Hx]. auto. Qed.

Lemma ord_pairs_snoc {A} (P : A -> A -> Prop) l x : (forall y, y ∈ l -> P y x) -> ForallOrdPairs P l -> ForallOrdPairs P (l ++ [x]).
Proof.
  induction l as [|y l IH]; intros Hx Hl; [repeat constructor|]. inversion Hl as [|? ? Hy Hl']; subst. cbn. constructor.
  - apply Forall_app. split; [done|]. constructor; [|done]. apply Hx. by left.
  - apply IH; [|done]. intros z Hz. apply Hx. by right.
Qed.

Lemma ord_pairs_lookup {A} (P : A -> A -> Prop) l i j x y :
  ForallOrdPairs P l -> (i < j)%nat -> l !! i = Some x -> l !! j = Some y -> P x y.
Proof.
  intros Hl. revert i j. induction Hl as [|z l Hz _ IH]; intros i j Hij Hi Hj; [done|].
  destruct j as [|j]; [lia|]. destruct i as [|i]; cbn in Hi, Hj.
  - injection Hi as <-. rewrite Forall_forall in Hz. by apply Hz, (list_elem_of_lookup_2 _ j).
  - by apply (IH i j); [lia|..].
Qed.

Lemma ord_pairs_delete {A} (P : A -> A -> Prop) l k : ForallOrdPairs P l -> ForallOrdPairs P (delete k l).
Proof.
  intros Hl. revert k. induction Hl as [|z l Hz Hl IH]; intros k; [by destruct k; constructor|].
  destruct k as [|k]; cbn; [done|]. constructor; [|apply IH]. rewrite Forall_forall in *. intros x Hx. apply Hz.
  eapply elem_of_sublist; [done|apply sublist_delete].
Qed.

(** Deleting a permit deletes it from those of its scope. *)
Lemma filter_delete (P : IdempotencyPermit -> Prop) `{!forall x, Decision (P x)} (l : list IdempotencyPermit) i p : l !! i = Some p ->
  (P p -> exists k, filter P l !! k = Some p /\ filter P (delete i l) = delete k (filter P l))
  /\ (~ P p -> filter P (delete i l) = filter P l).
Proof.
  revert i. induction l as [|x l IH]; intros i Hi; [done|]. destruct i as [|i]; cbn in Hi.
  - injection Hi as ->. change (delete 0%nat (p :: l)) with l. split; intros Hp.
    + exists 0%nat. by rewrite filter_cons_True.
    + by rewrite filter_cons_False.
  - destruct (IH i Hi) as [IH1 IH2]. change (delete (S i) (x :: l)) with (x :: delete i l).
    rewrite !filter_cons. destruct (decide (P x)); split; intros Hp.
    + destruct (IH1 Hp) as (k & Hk & ->). by exists (S k).
    + by rewrite IH2.
    + by apply IH1.
    + by apply IH2.
Qed.

(** Of two equal permits that are out, the older was superseded. *)
Lemma twice_out (P : IdempotencyPermit -> Prop) l k p :
  ForallOrdPairs (fun p _ => P p) l -> l !! k = Some p -> p ∈ delete k l -> P p.
Proof.
  intros Hl Hk [n Hn]%list_elem_of_lookup. destruct (decide (n < k)%nat) as [Hlt|Hge].
  - rewrite list_lookup_delete_lt in Hn by done. by eapply (ord_pairs_lookup _ _ n k p p Hl).
  - rewrite list_lookup_delete_ge in Hn by lia. eapply (ord_pairs_lookup _ _ k (S n) p p Hl); [lia|done..].
Qed.

(** A step that is not about scope [d]. *)
Lemma scope_frame s d st e m ps :
  scope_ok s d st -> event_scope e <> d -> m !! d = entries s !! d ->
  filter (fun p => scope_digest_of p = d) ps = out d s -> scope_ok (mkServer m ps (history s ++ [e])) d st.
Proof.
  intros [Hrun Hm Ho Hg Hh Hs Hord] He Hmd Hps.
  assert (out d (mkServer m ps (history s ++ [e])) = out d s) as Hout by exact Hps.
  split; rewrite ?Hout; cbn [history entries]; [|by rewrite Hmd|done| |done| |].
  - by rewrite spec_run_snoc, decide_False.
  - intros p Hp. destruct (Hg p Hp) as [now Hn]. exists now. apply elem_of_app. by left.
  - intros p Hp. destruct (Hs p Hp) as [?|?]; [by left|right]. by apply superseded_app.
  - eapply ord_pairs_mono; [|exact Hord]. intros. by apply superseded_app.
Qed.

(** The server follows from the scope of the event. *)
Lemma server_advances s e m ps :
  server_ok s -> (forall d, d <> event_scope e -> m !! d = entries s !! d) ->
  (forall d, d <> event_scope e -> filter (fun p => scope_digest_of p = d) ps = out d s) ->
  (forall st, scope_ok s (event_scope e) st ->
     late_use (event_scope e) (history s ++ [e]) \/ exists st', scope_ok (mkServer m ps (history s ++ [e])) (event_scope e) st') ->
  server_ok (mkServer m ps (history s ++ [e])).
Proof.
  intros Hs Hm Hps Hd d. destruct (Hs d) as [Hlate|[st Hst]]; [left; by apply late_use_app|].
  destruct (decide (event_scope e = d)) as [<-|Hne]; [by apply (Hd st)|]. right. exists st.
  apply scope_frame; [done|done|by apply Hm|by apply Hps].
Qed.

(** An observation. *)
Lemma observe s e :
  server_ok s -> (forall st, scope_ok s (event_scope e) st -> spec_step st e = Some st) ->
  server_ok (mkServer (entries s) (permits s ++ []) (history s ++ [e])).
Proof.
  intros Hs Hst. rewrite app_nil_r. apply server_advances; [done..|]. intros st Hd. right. exists st.
  destruct Hd as [Hrun Hm Ho Hg Hh Hs' Hord] eqn:E. split; cbn [history entries]; try done.
  - rewrite spec_run_snoc, decide_True, Hrun by done. by apply Hst.
  - intros p Hp. destruct (Hg p Hp) as [now Hn]. exists now. apply elem_of_app. by left.
  - intros p Hp. destruct (Hs' p Hp) as [?|?]; [by left|right]. by apply superseded_app.
  - eapply ord_pairs_mono; [|exact Hord]. intros. by apply superseded_app.
Qed.

Lemma grant s p m now :
  server_ok s -> (forall st, scope_ok s (scope_digest_of p) st -> forall q, owner st = Some q -> permit_expires q <= now) ->
  (forall d, d <> scope_digest_of p -> m !! d = entries s !! d) -> m !! scope_digest_of p = rep (Held p) ->
  server_ok (mkServer m (permits s ++ [p]) (history s ++ [Granted p now])).
Proof.
  intros Hs Hst Hm Hmp. apply server_advances; [done|done| |].
  { intros d Hd. cbn in Hd. by rewrite filter_app, filter_cons_False, filter_nil, app_nil_r. }
  cbn [event_scope]. intros st Hok. right. exists (Held p).
  assert (out (scope_digest_of p) (mkServer m (permits s ++ [p]) (history s ++ [Granted p now])) = (out (scope_digest_of p) s ++ [p])%list) as Hout.
  { unfold out. cbn [permits]. by rewrite filter_app, filter_cons_True, filter_nil. }
  assert (Hsup : forall q, q ∈ out (scope_digest_of p) s -> superseded q (history s ++ [Granted p now])).
  { intros q Hq. destruct (sc_out _ _ _ Hok q Hq) as [Hheld|?]; [|by apply superseded_app].
    destruct (sc_granted _ _ _ Hok q Hq) as [now0 Hn]. apply list_elem_of_filter in Hq as [Hq _].
    apply (superseded_by q p now0 now _ Hn); [done|]. apply (Hst st Hok). by rewrite Hheld. }
  split; rewrite ?Hout; cbn [history entries]; [|done|by intros q [= <-]| | | |].
  - rewrite spec_run_snoc, decide_True, (sc_run _ _ _ Hok) by done. cbn. specialize (Hst st Hok).
    destruct st as [|q|q r|q]; [done|..]; cbn; by rewrite (proj2 (N.leb_le _ _) (Hst q eq_refl)).
  - intros q [Hq| ->%list_elem_of_singleton]%elem_of_app.
    + destruct (sc_granted _ _ _ Hok q Hq) as [n Hn]. exists n. apply elem_of_app. by left.
    + exists now. apply elem_of_app. right. by left.
  - intros q [= <-]. apply elem_of_app. right. by left.
  - intros q [Hq| ->%list_elem_of_singleton]%elem_of_app; [right; by apply Hsup|by left].
  - apply ord_pairs_snoc; [done|]. eapply ord_pairs_mono; [|apply Hok]. intros. by apply superseded_app.
Qed.

(** The end of a permit: by the one that holds the scope, or late. *)
Lemma consume s i p st' e m :
  server_ok s -> permits s !! i = Some p -> event_scope e = scope_digest_of p -> consumes e = Some p ->
  spec_step (Held p) e = Some st' -> (forall q, st' <> Held q) -> (forall q, owner st' = Some q -> q = p) ->
  (forall d, d <> scope_digest_of p -> m !! d = entries s !! d) ->
  (entries s !! scope_digest_of p = rep (Held p) -> m !! scope_digest_of p = rep st') ->
  server_ok (mkServer m (delete i (permits s)) (history s ++ [e])).
Proof.
  intros Hs Hi He Hc Hst Hfree Ho Hm Hmp. apply server_advances; rewrite ?He; [done|done| |].
  { intros d Hd. apply filter_delete with (p := p); [done|congruence]. }
  intros st Hok. destruct (proj1 (filter_delete (fun q => scope_digest_of q = scope_digest_of p) _ _ _ Hi) eq_refl) as (k & Hk & Hdel).
  destruct (sc_out _ _ _ Hok p) as [->|Hlate]; [by eapply list_elem_of_lookup_2| |left; by apply consumed_late].
  right. exists st'. pose proof (sc_order _ _ _ Hok) as Hord.
  assert (out (scope_digest_of p) (mkServer m (delete i (permits s)) (history s ++ [e])) = delete k (out (scope_digest_of p) s)) as Hout by exact Hdel.
  assert (Hsub : forall q, q ∈ delete k (out (scope_digest_of p) s) -> q ∈ out (scope_digest_of p) s).
  { intros q Hq. eapply elem_of_sublist; [exact Hq|apply sublist_delete]. }
  split; rewrite ?Hout; cbn [history entries].
  - by rewrite spec_run_snoc, decide_True, (sc_run _ _ _ Hok).
  - apply Hmp, Hok.
  - intros q Hq. by rewrite (Ho q Hq).
  - intros q Hq. destruct (sc_granted _ _ _ Hok q (Hsub q Hq)) as [n Hn]. exists n. apply elem_of_app. by left.
  - intros q Hq. by destruct (Hfree q).
  - intros q Hq. right. apply superseded_app. destruct (sc_out _ _ _ Hok q (Hsub q Hq)) as [[= <-]|?]; [|done].
    by eapply (twice_out (fun p => superseded p (history s)) _ k).
  - apply ord_pairs_delete. eapply ord_pairs_mono; [|exact Hord]. intros. by apply superseded_app.
Qed.

End refinement.

Section steps.
Context `{Sha256}.

Lemma begin_admitted policy action revision epoch key partition input clock p now entries :
  admit_request policy action revision epoch key partition input clock = Ok p -> now <= u64_max ->
  begin policy action revision epoch key partition input clock (Some now) entries
  = let '(m, answer) := store_begin (scope_digest_of p) (permit_input p) (permit_expires p) (Some now) entries in
    (m, answer ≫= decide_begin p).
Proof. intros Ha _. unfold begin. by rewrite Ha. Qed.

(** What the store answers to a scope in state [st]. *)
Definition expected (st : Scope) (p : IdempotencyPermit) (now : N) : option IdempotencyBegin :=
  match owner st with
  | None => Some Acquired
  | Some q =>
      if permit_expires q <=? now then Some Acquired
      else if String.eqb (permit_input q) (permit_input p) then
        match st with
        | Free => None
        | Held _ => Some BeginInProgress
        | Done _ r => Some (ReplayStored r)
        | Lost _ => Some BeginOutcomeUnknown
        end
      else Some Conflict
  end.

Lemma store_begin_spec st p now m :
  m !! scope_digest_of p = rep st -> now <= u64_max ->
  exists answer, expected st p now = Some answer
    /\ (store_begin (scope_digest_of p) (permit_input p) (permit_expires p) (Some now) m).2 = Ok answer
    /\ let m' := (store_begin (scope_digest_of p) (permit_input p) (permit_expires p) (Some now) m).1 in
       (answer = Acquired -> m' !! scope_digest_of p = rep (Held p)
          /\ forall d, d <> scope_digest_of p -> m' !! d = m !! d)
       /\ (answer <> Acquired -> m' = m).
Proof.
  intros Hm Hnow. unfold store_begin, unix_millis. rewrite (proj2 (N.leb_le _ _) Hnow).
  assert (Hnew : forall m0 : InMemoryIdempotencyStore, (forall d, d <> scope_digest_of p -> m0 !! d = m !! d) ->
    <[scope_digest_of p := mkRecord (permit_input p) InProgress None (permit_expires p)]> m0 !! scope_digest_of p
      = rep (Held p)
    /\ forall d, d <> scope_digest_of p ->
         <[scope_digest_of p := mkRecord (permit_input p) InProgress None (permit_expires p)]> m0 !! d = m !! d).
  { intros m0 Hm0. split; [apply lookup_insert_eq|]. intros d Hd. by rewrite lookup_insert_ne, Hm0. }
  rewrite Hm. destruct st as [|q|q r|q]; unfold expected; cbn [rep owner expires_at_ms];
    [rewrite Hm; cbn [rep fst snd]; exists Acquired; split_and!; try done; intros; by apply Hnew|..];
    (destruct (permit_expires q <=? now);
     [rewrite lookup_delete_eq; cbn [fst snd]; exists Acquired; split_and!; try done; intros _; apply Hnew;
      intros d Hd; by rewrite lookup_delete_ne
     |rewrite Hm; cbn [rep input_digest state result_bytes fst snd];
      destruct (String.eqb (permit_input q) (permit_input p)); cbn; eexists; split_and!; done]).
Qed.

(** An answer that grants nothing is a legal observation. *)
Lemma spec_observes st p now a :
  expected st p now = Some a -> a <> Acquired ->
  exists e, begin_event p now (decide_begin p a) = [e] /\ event_scope e = scope_digest_of p
    /\ granted (decide_begin p a) = [] /\ spec_step st e = Some st.
Proof.
  unfold expected. intros He Ha. destruct st as [|q|q r|q]; cbn [owner] in He; [congruence|..];
    (destruct (permit_expires q <=? now) eqn:Hx; [congruence|];
     destruct (String.eqb_spec (permit_input q) (permit_input p)) as [Heq|Hne]; injection He as <-; cbn;
     (eexists; split; [done|]; split; [done|]; split; [done|]); cbn; rewrite ?Hx).
  all: apply N.leb_gt in Hx.
  all: first [rewrite (decide_False (P := permit_input p = permit_input q)) by congruence
             |rewrite (decide_True (P := permit_input p = permit_input q)) by congruence| idtac].
  all: by rewrite decide_True.
Qed.

(** The store grants the scope, or leaves it alone. *)
Lemma store_begin_shape p now m :
  now <= u64_max ->
  let b := store_begin (scope_digest_of p) (permit_input p) (permit_expires p) (Some now) m in
  (b.2 = Ok Acquired /\ b.1 !! scope_digest_of p = rep (Held p) /\ forall d, d <> scope_digest_of p -> b.1 !! d = m !! d)
  \/ (b.2 <> Ok Acquired /\ b.1 = m).
Proof.
  intros Hnow. unfold store_begin, unix_millis. rewrite (proj2 (N.leb_le _ _) Hnow).
  destruct (m !! scope_digest_of p) as [record|] eqn:Hm; [destruct (expires_at_ms record <=? now)|].
  - rewrite lookup_delete_eq. left. cbn. split_and!; [done|apply lookup_insert_eq|]. intros d Hd.
    by rewrite lookup_insert_ne, lookup_delete_ne.
  - rewrite Hm. right. cbn. split; [|done]. destruct (String.eqb _ _); [|done]. destruct (state record); [done| |done].
    cbn. by destruct (result_bytes record).
  - rewrite Hm. left. cbn. split_and!; [done|apply lookup_insert_eq|]. intros d Hd. by rewrite lookup_insert_ne.
Qed.

Lemma begin_event_single p now (r : result IdempotencyError IdempotencyBegin) :
  r <> Ok Acquired -> exists e, begin_event p now (r ≫= decide_begin p) = [e] /\ event_scope e = scope_digest_of p
    /\ granted (r ≫= decide_begin p) = [].
Proof. intros Hr. destruct r as [[]|]; cbn; try done; by eexists. Qed.

Lemma step_begin_ok s p now m r :
  server_ok s -> now <= u64_max ->
  store_begin (scope_digest_of p) (permit_input p) (permit_expires p) (Some now) (entries s) = (m, r) ->
  server_ok (mkServer m (permits s ++ granted (r ≫= decide_begin p)) (history s ++ begin_event p now (r ≫= decide_begin p))).
Proof.
  intros Hs Hnow Hb.
  assert (Hst : forall st, scope_ok s (scope_digest_of p) st -> exists a, expected st p now = Some a /\ r = Ok a).
  { intros st Hd. destruct (store_begin_spec st p now (entries s) (sc_entry _ _ _ Hd) Hnow) as (a & Hexp & Hres & _).
    rewrite Hb in Hres. by exists a. }
  destruct (store_begin_shape p now (entries s) Hnow) as [(Hr & Hm1 & Hm2)|[Hr Hm]]; rewrite Hb in *; cbn [fst snd] in *; subst.
  - apply grant; try done. intros st Hd q Hq. destruct (Hst st Hd) as (a & Hexp & [= <-]). unfold expected in Hexp.
    rewrite Hq in Hexp. destruct (N.leb_spec (permit_expires q) now); [done|]. destruct (String.eqb _ _), st; discriminate.
  - destruct (begin_event_single p now r Hr) as (e & He & Hsc & Hg). rewrite He, Hg. apply observe; [done|]. rewrite Hsc.
    intros st Hd. destruct (Hst st Hd) as (a & Hexp & ->).
    destruct (spec_observes st p now a Hexp ltac:(congruence)) as (e' & He' & _ & _ & Hstep). cbn in He. congruence.
Qed.

Lemma step_ok s s' : server_ok s -> step s s' -> server_ok s'.
Proof.
  intros Hs Hst.
  destruct Hst as [s policy action revision epoch key partition input clock now p m answer Ha Hnow Hb
    |s i p result m r Hi Hc|s i p m r Hi Hc|s i p m r Hi Hc].
  - rewrite (begin_admitted _ _ _ _ _ _ _ _ _ _ _ Ha Hnow) in Hb.
    destruct (store_begin _ _ _ _ _) as [m' r] eqn:Hst. injection Hb as <- <-. by apply step_begin_ok.
  - unfold permit_complete, store_abandon in Hc. unfold finish_event.
    destruct (N.ltb_spec (permit_max_result_bytes p) (blen result)).
    + injection Hc as <- _. eapply consume with (st' := Free); try done; cbn.
      * by rewrite decide_True.
      * intros d Hd. by rewrite lookup_delete_ne.
      * intros _. apply lookup_delete_eq.
    + eapply consume with (st' := Done p result); try done; cbn.
      * by rewrite decide_True.
      * by intros q [= <-].
      * intros d Hd. unfold store_complete in Hc. destruct (entries s !! _); [|by injection Hc as <- _].
        destruct (bool_decide _); [by injection Hc as <- _|]. injection Hc as <- _. by rewrite lookup_insert_ne.
      * intros Hm. unfold store_complete in Hc. rewrite Hm in Hc. cbn in Hc. injection Hc as <- _. apply lookup_insert_eq.
  - injection Hc as <- _. eapply consume with (st' := Free); try done; cbn.
    + by rewrite decide_True.
    + intros d Hd. by rewrite lookup_delete_ne.
    + intros _. apply lookup_delete_eq.
  - eapply consume with (st' := Lost p); try done; cbn.
    + by rewrite decide_True.
    + by intros q [= <-].
    + intros d Hd. unfold permit_mark_unknown, store_mark_unknown in Hc.
      destruct (entries s !! _); injection Hc as <- _; [by rewrite lookup_insert_ne|done].
    + intros Hm. unfold permit_mark_unknown, store_mark_unknown in Hc. rewrite Hm in Hc. cbn in Hc. injection Hc as <- _.
      apply lookup_insert_eq.
Qed.

Lemma empty_server_ok : server_ok empty_server.
Proof.
  intros d. right. exists Free. split; cbn; try done; [by intros p ?%not_elem_of_nil|by intros p ?%not_elem_of_nil|constructor].
Qed.

Lemma reachable_ok s : rtc step empty_server s -> server_ok s.
Proof. intros Hex. refine (rtc_ind_r server_ok _ empty_server_ok _ s Hex). intros s1 s2 _ Hst Hs. by eapply step_ok. Qed.

End steps.

Lemma scope_preimage_inj i1 i2 a1 a2 r1 r2 e1 e2 k1 k2 t1 t2 :
  slen i1 <= u64_max -> slen i2 <= u64_max -> slen a1 <= u64_max -> slen a2 <= u64_max ->
  r1 <= u32_max -> r2 <= u32_max -> e1 <= u32_max -> e2 <= u32_max ->
  slen k1 <= u64_max -> slen k2 <= u64_max -> slen t1 <= u64_max -> slen t2 <= u64_max ->
  scope_preimage i1 a1 r1 e1 k1 t1 = scope_preimage i2 a2 r2 e2 k2 t2 ->
  i1 = i2 /\ a1 = a2 /\ r1 = r2 /\ e1 = e2 /\ k1 = k2 /\ t1 = t2.
Proof.
  intros Hi1 Hi2 Ha1 Ha2 Hr1 Hr2 He1 He2 Hk1 Hk2 Ht1 Ht2 He. unfold scope_preimage in He.
  assert (Hstr : forall s1 s2 r s, slen s1 <= u64_max -> slen s2 <= u64_max ->
            (lp (as_bytes s1) ++ r = lp (as_bytes s2) ++ s)%list -> s1 = s2 /\ r = s).
  { intros s1 s2 r s H1 H2 E. apply (lp_string_delimiting s1 s2 r s H1 H2 E). }
  assert (Hint : forall x y r s, x <= u32_max -> y <= u32_max ->
            (lp (be_bytes 4 x) ++ r = lp (be_bytes 4 y) ++ s)%list -> x = y /\ r = s).
  { intros x y r s H1 H2 E. apply lp_app_inj in E as [E ->]; [|unfold blen; by rewrite length_be_bytes..].
    split; [|done]. apply (be_bytes_4_delimiting x y [] [] H1 H2). by rewrite !app_nil_r. }
  apply app_inv_head in He.
  apply Hstr in He as [-> He]; [|done..]. apply Hstr in He as [-> He]; [|done..].
  apply Hint in He as [-> He]; [|done..]. apply Hint in He as [-> He]; [|done..].
  apply Hstr in He as [-> He]; [|done..].
  rewrite <-(app_nil_r (lp (as_bytes t1))), <-(app_nil_r (lp (as_bytes t2))) in He.
  by apply Hstr in He as [-> _].
Qed.

(** ** Properties *)

(** Of the permits of a scope, those at lower positions are older. *)
Lemma out_lookup (P : IdempotencyPermit -> IdempotencyPermit -> Prop) d l i j p q :
  ForallOrdPairs P (filter (fun p => scope_digest_of p = d) l) -> (i < j)%nat -> l !! i = Some p -> l !! j = Some q ->
  scope_digest_of p = d -> scope_digest_of q = d -> P p q.
Proof.
  revert i j. induction l as [|x l IH]; intros i j Hl Hij Hi Hj Hp Hq; [done|]. destruct j as [|j]; [lia|]. cbn in Hj.
  rewrite filter_cons in Hl. destruct i as [|i]; cbn in Hi.
  - injection Hi as ->. rewrite decide_True in Hl by done. inversion Hl as [|? ? Hx _]; subst. rewrite Forall_forall in Hx.
    apply Hx, list_elem_of_filter. split; [done|]. by eapply list_elem_of_lookup_2.
  - assert (ForallOrdPairs P (filter (fun p => scope_digest_of p = d) l)) as Hl' by (destruct (decide _); [by inversion Hl|done]).
    by apply (IH i j); [done|lia|..].
Qed.

(** C25. At most once: however any number of managers over one store interleave their
    requests and permits, at any times, with any request lost, the history of each scope
    is one its contract allows, until a permit is consumed after the scope was granted
    anew past its expiry ([late_use], which the store does not notice). Under the contract
    an action is granted only when the scope is free or past the expiry of the permit it
    remembers; a replay gives the same input the very result that permit recorded; a
    refusal gives the reason the scope is in; the permit that holds the scope completes it
    with any result within the limit; and of the permits of the scope that are out, all but
    the last were superseded, and the last was too unless it holds the scope. *)
Theorem at_most_once `{Sha256} s d :
  rtc step empty_server s ->
  late_use d (history s)
  \/ exists st, spec_run d (history s) = Some st
     /\ (forall p, st = Held p -> p ∈ permits s /\ forall result, (permit_complete p result (entries s)).2
          = if permit_max_result_bytes p <? blen result then Err (ResultTooLarge (blen result) (permit_max_result_bytes p))
            else Ok tt)
     /\ (forall p, p ∈ permits s -> scope_digest_of p = d -> st = Held p \/ superseded p (history s))
     /\ (forall i j p q, (i < j)%nat -> permits s !! i = Some p -> permits s !! j = Some q ->
          scope_digest_of p = d -> scope_digest_of q = d -> superseded p (history s)).
Proof.
  intros Hex. destruct (reachable_ok s Hex d) as [Hlate|[st Hok]]; [by left|right]. exists st. split; [apply Hok|].
  split_and!.
  - intros p Hp. pose proof (sc_held _ _ _ Hok p Hp) as [Hd Hin]%list_elem_of_filter. split; [done|]. intros result.
    pose proof (sc_entry _ _ _ Hok) as Hm. subst st. unfold permit_complete. destruct (_ <? _); [done|].
    unfold store_complete. by rewrite Hd, Hm.
  - intros p Hp Hd. apply (sc_out _ _ _ Hok). by apply list_elem_of_filter.
  - intros i j p q Hij Hi Hj Hp Hq.
    exact (out_lookup (fun p _ => superseded p (history s)) d _ i j p q (sc_order _ _ _ Hok) Hij Hi Hj Hp Hq).
Qed.

(** A scope is one request: equal scope digests come from the same policy,
    action, revision, deployment epoch, key and partition, or exhibit a SHA-256
    collision. *)
Theorem scope_digest_binds `{Sha256} p1 p2 a1 a2 r1 r2 e1 e2 k1 k2 t1 t2 :
  slen (id p1) <= u64_max -> slen (id p2) <= u64_max -> slen a1 <= u64_max -> slen a2 <= u64_max ->
  r1 <= u32_max -> r2 <= u32_max -> e1 <= u32_max -> e2 <= u32_max ->
  slen (key_text k1) <= u64_max -> slen (key_text k2) <= u64_max ->
  slen (partition_digest t1) <= u64_max -> slen (partition_digest t2) <= u64_max ->
  scope_digest p1 a1 r1 e1 k1 t1 = scope_digest p2 a2 r2 e2 k2 t2 ->
  (id p1 = id p2 /\ a1 = a2 /\ r1 = r2 /\ e1 = e2 /\ k1 = k2 /\ t1 = t2)
  \/ collides (scope_preimage (id p1) a1 r1 e1 (key_text k1) (partition_digest t1))
        (scope_preimage (id p2) a2 r2 e2 (key_text k2) (partition_digest t2)).
Proof.
  intros ? ? ? ? ? ? ? ? ? ? ? ? Hd%hex_inj.
  destruct (decide (scope_preimage (id p1) a1 r1 e1 (key_text k1) (partition_digest t1)
                    = scope_preimage (id p2) a2 r2 e2 (key_text k2) (partition_digest t2))) as [He|]; [left|by right].
  apply scope_preimage_inj in He as (? & ? & ? & ? & ? & ?); try done.
  destruct k1, k2, t1, t2. cbn in *. by subst.
Qed.

(** ** Witnesses *)

Module IdempotencySample.

#[local] Existing Instance toy_sha256.

Definition policy : IdempotencyPolicy := mkPolicy "orders" (from_secs 1) 64.
Definition key : IdempotencyKey := mkKey "key-0123456789abcdef".
Definition partition : IdempotencyPartition := mkPartition (hex (sha256 (as_bytes "user"))).
Definition input (b : byte) : string := hex (repeat b 32).

(** A request of the one action, with both clock readings at [now]. *)
Definition request (now : N) (i : string) (m : InMemoryIdempotencyStore) :=
  begin policy "place-order" 1 1 key partition i (Some now) (Some now) m.

Definition permit (now : N) (i : string) : IdempotencyPermit :=
  mkPermit (scope_digest policy "place-order" 1 1 key partition) i (now + 1000) 64.

Lemma admitted now i :
  now + 1000 <= u64_max -> slen i = 64 -> string_all is_ascii_hexdigit i = true -> to_ascii_lowercase i = i ->
  admit_request policy "place-order" 1 1 key partition i (Some now) = Ok (permit now i).
Proof.
  intros Hn Hl Hh Hc. unfold admit_request, invalid_identity. rewrite Hl, Hh, Hc.
  assert (Hv : validate_stable_id "place-order" = true) by (by vm_compute). rewrite Hv. cbn [negb orb].
  rewrite (proj2 (unix_millis_ok Clock (Some now) now)) by (split; [done|lia]). cbn [mbind result_bind].
  rewrite duration_millis_ok by (vm_compute; discriminate). cbn [mbind result_bind]. unfold permit. do 2 f_equal.
  unfold saturating_add. change (as_millis (retention policy)) with 1000. lia.
Qed.

(** A request granted at 0. *)
Definition first : Server :=
  mkServer (request 0 (input "a"%byte) ∅).1 (granted (request 0 (input "a"%byte) ∅).2)
    (begin_event (permit 0 (input "a"%byte)) 0 (request 0 (input "a"%byte) ∅).2).

Lemma first_reachable : rtc step empty_server first.
Proof.
  apply rtc_once. refine (step_begin empty_server policy "place-order" 1 1 key partition (input "a"%byte) (Some 0) 0
                            (permit 0 (input "a"%byte)) _ _ _ _ (surjective_pairing _));
    [apply admitted; by vm_compute|by vm_compute].
Qed.

(** Another, granted at 2000 with the first still out. *)
Definition request_again := request 2000 (input "b"%byte) (entries first).

Definition second : Server :=
  mkServer request_again.1 (permits first ++ granted request_again.2)
    (history first ++ begin_event (permit 2000 (input "b"%byte)) 2000 request_again.2).

Lemma second_reachable : rtc step empty_server second.
Proof.
  eapply rtc_r; [exact first_reachable|]. refine (step_begin first policy "place-order" 1 1 key partition (input "b"%byte) (Some 2000) 2000
    (permit 2000 (input "b"%byte)) _ _ _ _ (surjective_pairing _)); [apply admitted; by vm_compute|by vm_compute].
Qed.

Lemma second_not_late d : ~ late_use d (history second).
Proof.
  intros (k & e & p & Hk & He & _). assert (Forall (fun e => consumes e = None) (history second)) as Hall by (vm_compute; by repeat constructor).
  rewrite Forall_forall in Hall. specialize (Hall e (list_elem_of_lookup_2 _ _ _ Hk)). congruence.
Qed.

End IdempotencySample.

#[local] Existing Instance toy_sha256.

Lemma at_most_once_witness :
  superseded (IdempotencySample.permit 0 (IdempotencySample.input "a"%byte)) (history IdempotencySample.second).
Proof.
  destruct (at_most_once IdempotencySample.second (scope_digest_of (IdempotencySample.permit 0 (IdempotencySample.input "a"%byte)))
    IdempotencySample.second_reachable) as [Hlate|(st & _ & _ & _ & Hout)].
  - destruct (IdempotencySample.second_not_late _ Hlate).
  - apply (Hout 0%nat 1%nat (IdempotencySample.permit 0 (IdempotencySample.input "a"%byte))
      (IdempotencySample.permit 2000 (IdempotencySample.input "b"%byte))); [lia|vm_compute; reflexivity..].
Defined.

Lemma scope_digest_binds_witness :
  scope_digest IdempotencySample.policy "place-order" 1 1 IdempotencySample.key IdempotencySample.partition
    = scope_digest IdempotencySample.policy "place-order" 1 1 IdempotencySample.key IdempotencySample.partition
  /\ ("place-order" = "place-order"
      \/ collides (scope_preimage "orders" "place-order" 1 1 "key-0123456789abcdef" "")
           (scope_preimage "orders" "place-order" 1 1 "key-0123456789abcdef" "")).
Proof.
  split; [done|].
  destruct (scope_digest_binds IdempotencySample.policy IdempotencySample.policy "place-order" "place-order" 1 1 1 1
    IdempotencySample.key IdempotencySample.key (mkPartition "") (mkPartition "")) as [(_ & H & _)|H];
    [vm_compute; discriminate..|reflexivity|by left|by right].
Defined.

(** A late use: the permit of a request that outlived its
    record completes the record of the next one, whose input then replays a result
    computed from another. *)
Example stale_permit_completes_another :
  let a := IdempotencySample.input "a"%byte in
  let b := IdempotencySample.input "b"%byte in
  let m1 := (IdempotencySample.request 0 a ∅).1 in
  let '(m2, second) := IdempotencySample.request 2000 b m1 in
  let '(m3, completed) := permit_complete (IdempotencySample.permit 0 a) [x01] m2 in
  (second, completed, (IdempotencySample.request 2500 b m3).2)
  = (Ok (Execute (IdempotencySample.permit 2000 b)), Ok tt, Ok (Replay [x01])).
Proof. vm_compute. reflexivity. Qed.

(** The retention the message asks for is not the one the guard does. *)
Example retention_below_a_second : is_ok (policy_retention IdempotencySample.policy (from_millis 1)) = true.
Proof. reflexivity. Qed.
