(* ===== verification/Cache.v ===== *)
(** * Cache: typed response caching ([pliego-data/src/cache.rs])

    The cache policy with its builder and contract digest, partitions and keys,
    the bounded in-memory store, the manager's [lookup] and [insert], the
    invalidation coordinator over several replicas with its replay window, and the
    coalescing of concurrent fills in [get_or_fill]. *)

From S2P Require Import Prelude Request.

Local Open Scope string_scope.
Local Open Scope N_scope.

(** [format!("{value:?}")] on a string: its escapes depend on Unicode tables, and
    only an error message uses it. *)
Class DebugStr : Type := debug_str : string -> string.

Inductive CacheError : Type :=
| InvalidPolicy (message : string)
| InvalidKey (message : string)
| InvalidPartition
| InvalidTag
| InvalidCause
| MissingVary
| PartitionMismatch
| PolicyNotGranted
| KeyTooLarge (actual maximum : N)
| ValueTooLarge (actual maximum : N)
| TooManyTags (actual maximum : N)
| VersionMismatch
| InvalidValue
| StoreCapacity
| StoreFailure
| Cancelled
| Deadline
| FillPanicked
| FillTimeout
| AcknowledgementBarrier
| Clock.

Definition code (e : CacheError) : string :=
  match e with
  | InvalidPolicy _ => "PLG-CAC-001"
  | InvalidKey _ | InvalidPartition | MissingVary | PartitionMismatch => "PLG-CAC-101"
  | PolicyNotGranted => "PLG-CAC-106"
  | InvalidTag | InvalidCause | TooManyTags _ _ => "PLG-CAC-102"
  | KeyTooLarge _ _ | ValueTooLarge _ _ => "PLG-CAC-103"
  | VersionMismatch => "PLG-CAC-409"
  | InvalidValue => "PLG-CAC-201"
  | Cancelled | Deadline => "PLG-CAC-408"
  | AcknowledgementBarrier => "PLG-CAC-409"
  | StoreCapacity | StoreFailure | FillPanicked | FillTimeout | Clock => "PLG-CAC-500"
  end.

(** ** Policies *)

Inductive CacheDomain : Type := PublicRuntime | PrivateRequest | PrivateSession.

#[export] Instance domain_eq_dec : EqDecision CacheDomain.
Proof. solve_decision. Defined.

Definition domain_str (d : CacheDomain) : string :=
  match d with
  | PublicRuntime => "public-runtime"
  | PrivateRequest => "private-request"
  | PrivateSession => "private-session"
  end.

Definition requires_partition (d : CacheDomain) : bool := negb (bool_decide (d = PublicRuntime)).

Record CachePolicy : Type := mkPolicy {
  id : string; semantic_revision : N; namespace : string; compatibility_epoch : N; domain : CacheDomain;
  required_vary : gset string; fresh_for : Duration; stale_for : Duration; max_key_bytes : N; max_value_bytes : N;
  max_tags : N; coalesce_fills : bool; fill_timeout : Duration }.

Section policies.
Context `{Sha256} `{DebugStr}.

Definition policy_new (i : string) (revision : N) (ns : string) (epoch : N) (d : CacheDomain)
    : result CacheError CachePolicy :=
  fail_if negb (validate_stable_id i) with InvalidPolicy ("invalid stable ID " ++ debug_str i);;
  fail_if negb (validate_stable_id ns) with InvalidPolicy ("invalid stable ID " ++ debug_str ns);;
  fail_if (revision =? 0) || (epoch =? 0)
    with InvalidPolicy "semantic revision and compatibility epoch must be non-zero";;
  Ok (mkPolicy i revision ns epoch d ∅ (from_secs 60) 0 (8 * 1024) (1024 * 1024) 32 true (from_secs 10)).

Definition policy_vary (p : CachePolicy) (n : string) : result CacheError CachePolicy :=
  fail_if negb (validate_stable_id n) with InvalidPolicy "invalid Vary ID";;
  fail_if 32 <=? N.of_nat (size (required_vary p))
    with InvalidPolicy "a cache policy may require at most 32 Vary inputs";;
  Ok (mkPolicy (id p) (semantic_revision p) (namespace p) (compatibility_epoch p) (domain p) ({[n]} ∪ required_vary p)
        (fresh_for p) (stale_for p) (max_key_bytes p) (max_value_bytes p) (max_tags p) (coalesce_fills p)
        (fill_timeout p)).

Definition policy_freshness (p : CachePolicy) (fresh stale : Duration) : result CacheError CachePolicy :=
  fail_if (fresh =? 0) || (from_secs (365 * 24 * 60 * 60) <? fresh) || (from_secs (24 * 60 * 60) <? stale)
    with InvalidPolicy "cache freshness or stale window is invalid";;
  Ok (mkPolicy (id p) (semantic_revision p) (namespace p) (compatibility_epoch p) (domain p) (required_vary p)
        fresh stale (max_key_bytes p) (max_value_bytes p) (max_tags p) (coalesce_fills p) (fill_timeout p)).

Definition policy_bounds (p : CachePolicy) (key value tags : N) : result CacheError CachePolicy :=
  fail_if (key =? 0) || (64 * 1024 <? key) || (value =? 0) || (64 * 1024 * 1024 <? value) || (tags =? 0) || (256 <? tags)
    with InvalidPolicy "cache key, value, or tag bounds are invalid";;
  Ok (mkPolicy (id p) (semantic_revision p) (namespace p) (compatibility_epoch p) (domain p) (required_vary p)
        (fresh_for p) (stale_for p) key value tags (coalesce_fills p) (fill_timeout p)).

Definition policy_stampede (p : CachePolicy) (coalesce : bool) (timeout : Duration) : result CacheError CachePolicy :=
  fail_if (timeout =? 0) || (from_secs 60 <? timeout)
    with InvalidPolicy "cache fill timeout must be between 1 ms and 60 seconds";;
  Ok (mkPolicy (id p) (semantic_revision p) (namespace p) (compatibility_epoch p) (domain p) (required_vary p)
        (fresh_for p) (stale_for p) (max_key_bytes p) (max_value_bytes p) (max_tags p) coalesce timeout).

Definition policy_preimage (p : CachePolicy) : bytes :=
  (as_bytes "pliego-cache-policy-v1" ++ [x00] ++
   lp_all [as_bytes (id p); be_bytes 4 (semantic_revision p); as_bytes (namespace p); be_bytes 4 (compatibility_epoch p);
           as_bytes (domain_str (domain p)); be_bytes 16 (as_millis (fresh_for p)); be_bytes 16 (as_millis (stale_for p));
           be_bytes 8 (max_key_bytes p); be_bytes 8 (max_value_bytes p); be_bytes 8 (max_tags p);
           [if coalesce_fills p then x01 else x00]; be_bytes 16 (as_millis (fill_timeout p))] ++
   concat (map (fun n => as_bytes n ++ [x00]) (btree_elements (required_vary p))))%list.

Definition contract_digest (p : CachePolicy) : string := hex (sha256 (policy_preimage p)).

(** ** Partitions *)

Inductive CachePartitionKind : Type := Request | Session.

#[export] Instance partition_kind_eq_dec : EqDecision CachePartitionKind.
Proof. solve_decision. Defined.

Record CachePartition : Type := mkPartition { partition_digest : string; kind : CachePartitionKind }.

Definition invalid_identity (s : string) : bool := (slen s =? 0) || (512 <? slen s) || any_control s.

Definition from_identity (identity : string) : result CacheError CachePartition :=
  fail_if invalid_identity identity with InvalidPartition;;
  Ok (mkPartition (hex (sha256 (as_bytes "pliego-cache-session-partition-v1" ++ [x00] ++ lp_all [as_bytes identity]))%list)
        Session).

Definition from_request (request_id : string) : result CacheError CachePartition :=
  fail_if invalid_identity request_id with InvalidPartition;;
  Ok (mkPartition (hex (sha256 (as_bytes "pliego-cache-request-partition-v1" ++ [x00] ++ lp_all [as_bytes request_id]))%list)
        Request).

Definition from_tenant_and_identity (tenant identity : string) : result CacheError CachePartition :=
  fail_if invalid_identity tenant || invalid_identity identity with InvalidPartition;;
  Ok (mkPartition (hex (sha256 (as_bytes "pliego-cache-tenant-partition-v1" ++ [x00] ++
                                lp_all [as_bytes tenant; as_bytes identity]))%list) Session).

(** ** Keys *)

Record CacheKeyInput : Type := mkInput {
  operation_id : string; operation_revision : N; input_digest : string; vary : gmap string string;
  partition : option CachePartition }.

Definition input_new (operation : string) (revision : N) (digest : string) : result CacheError CacheKeyInput :=
  fail_if negb (validate_stable_id operation) || (revision =? 0) with InvalidKey "invalid operation identity";;
  fail_if negb (slen digest =? 64) || negb (string_all is_ascii_hexdigit digest) with InvalidKey "invalid input digest";;
  Ok (mkInput operation revision (to_ascii_lowercase digest) ∅ None).

Definition input_vary (i : CacheKeyInput) (n value : string) : result CacheError CacheKeyInput :=
  fail_if negb (validate_stable_id n) || (2 * 1024 <? slen value) || any_control value
    with InvalidKey "invalid Vary input";;
  match vary i !! n with
  | Some _ => Err (InvalidKey ("duplicate Vary input " ++ n))
  | None => Ok (mkInput (operation_id i) (operation_revision i) (input_digest i) (<[n := value]> (vary i)) (partition i))
  end.

Definition input_partition (i : CacheKeyInput) (p : CachePartition) : CacheKeyInput :=
  mkInput (operation_id i) (operation_revision i) (input_digest i) (vary i) (Some p).

Record CacheKey : Type := mkKey {
  digest : string; key_policy_id : string; key_policy_revision : N; key_namespace : string;
  key_compatibility_epoch : N; key_domain : CacheDomain }.

Definition partition_matches (d : CacheDomain) (p : option CachePartition) : bool :=
  match d, p with
  | PublicRuntime, None => true
  | PrivateRequest, Some p => bool_decide (kind p = Request)
  | PrivateSession, Some p => bool_decide (kind p = Session)
  | _, _ => false
  end.

Definition vary_fields (v : gmap string string) : list bytes :=
  string_iter v ≫= fun p => [as_bytes p.1; as_bytes p.2].

Definition key_fields (p : CachePolicy) (i : CacheKeyInput) : list bytes :=
  ([as_bytes (id p); be_bytes 4 (semantic_revision p); as_bytes (namespace p); be_bytes 4 (compatibility_epoch p);
    as_bytes (domain_str (domain p)); as_bytes (operation_id i); be_bytes 4 (operation_revision i);
    as_bytes (input_digest i)]
   ++ vary_fields (vary i)
   ++ match partition i with Some q => [as_bytes (partition_digest q)] | None => [] end)%list.

Definition key (p : CachePolicy) (i : CacheKeyInput) : result CacheError CacheKey :=
  fail_if negb (bool_decide (dom (vary i) = required_vary p)) with MissingVary;;
  fail_if negb (partition_matches (domain p) (partition i)) with PartitionMismatch;;
  let key_bytes := lp_all (key_fields p i) in
  fail_if max_key_bytes p <? blen key_bytes with KeyTooLarge (blen key_bytes) (max_key_bytes p);;
  Ok (mkKey (hex (sha256 key_bytes)) (id p) (semantic_revision p) (namespace p) (compatibility_epoch p) (domain p)).

End policies.

(** ** Tags, records and the store *)

Definition tag_new (value : string) : result CacheError string :=
  fail_if negb (validate_stable_id value) with InvalidTag;;
  Ok value.

Record CacheStoreRecord : Type := mkRecord {
  record_policy_id : string; record_policy_revision : N; record_namespace : string; record_compatibility_epoch : N;
  record_domain : CacheDomain; value : bytes; tags : gset string; created_at_ms : N; fresh_until_ms : N;
  stale_until_ms : N }.

(** [InMemoryCacheInner]. *)
Record InMemoryCacheStore : Type := mkStore { entries : gmap string CacheStoreRecord; max_entries : N }.

Definition store_new (maximum : N) : result CacheError InMemoryCacheStore :=
  fail_if (maximum =? 0) || (1000000 <? maximum) with InvalidPolicy "memory cache entry bound is invalid";;
  Ok (mkStore ∅ maximum).

Definition store_len (s : InMemoryCacheStore) : N := N.of_nat (size (entries s)).

Definition store_put (k : string) (r : CacheStoreRecord) (s : InMemoryCacheStore)
    : InMemoryCacheStore * result CacheError unit :=
  if bool_decide (entries s !! k = None) && (max_entries s <=? store_len s) then (s, Err StoreCapacity)
  else (mkStore (<[k := r]> (entries s)) (max_entries s), Ok tt).

Definition store_remove (k : string) (s : InMemoryCacheStore) : InMemoryCacheStore :=
  mkStore (delete k (entries s)) (max_entries s).

#[export] Instance record_eq_none_dec (m : gmap string CacheStoreRecord) k : Decision (m !! k = None).
Proof. destruct (m !! k); [right; discriminate|left; reflexivity]. Defined.

(** The records [invalidate] removes. *)
Definition doomed (ns : string) (epoch : N) (ts : gset string) (exact : option string) (k : string) (r : CacheStoreRecord)
    : bool :=
  bool_decide (exact = Some k)
  || (negb (bool_decide (ts = ∅)) && String.eqb (record_namespace r) ns && (record_compatibility_epoch r =? epoch)
      && negb (bool_decide (tags r ∩ ts = ∅))).

Definition store_invalidate (ns : string) (epoch : N) (ts : gset string) (exact : option string) (s : InMemoryCacheStore)
    : InMemoryCacheStore * N :=
  let kept := filter (fun kr => doomed ns epoch ts exact kr.1 kr.2 = false) (entries s) in
  (mkStore kept (max_entries s), N.of_nat (size (entries s)) - N.of_nat (size kept)).

(** ** The manager *)

Inductive CacheOutcome : Type := Hit | Miss | Stale | Bypass | Private | Invalidated | Rejected.

Inductive CacheSizeBucket : Type :=
| NoBytes | Under1Kibibyte | Under16Kibibytes | Under256Kibibytes | AtLeast256Kibibytes.

Definition from_bytes (n : N) : CacheSizeBucket :=
  if n =? 0 then NoBytes
  else if n <=? 1023 then Under1Kibibyte
  else if n <=? 16383 then Under16Kibibytes
  else if n <=? 262143 then Under256Kibibytes
  else AtLeast256Kibibytes.

Record CacheReceipt : Type := mkReceipt {
  contract : string; receipt_policy_id : string; receipt_revision : N; receipt_namespace : string; receipt_epoch : N;
  receipt_key_digest : string; receipt_domain : CacheDomain; outcome : CacheOutcome;
  value_size_bucket : CacheSizeBucket; invalidation_sequence : option N }.

Record CacheLookup (V : Type) : Type := mkLookup { looked_up : option V; receipt : CacheReceipt }.

Arguments mkLookup {V}.
Arguments looked_up {V}.
Arguments receipt {V}.

Section manager.
Context {V : Type} `{Serde V} (p : CachePolicy).

Definition validate_key (k : CacheKey) : result CacheError unit :=
  fail_if negb (String.eqb (key_policy_id k) (id p)) || negb (key_policy_revision k =? semantic_revision p)
          || negb (String.eqb (key_namespace k) (namespace p))
          || negb (key_compatibility_epoch k =? compatibility_epoch p) || negb (bool_decide (key_domain k = domain p))
    with VersionMismatch;;
  Ok tt.

Definition make_receipt (k : CacheKey) (o : CacheOutcome) (n : N) (sequence : option N) : CacheReceipt :=
  mkReceipt "dev.pliegors.cache-receipt/v1" (id p) (semantic_revision p) (namespace p) (compatibility_epoch p)
    (digest k) (domain p) o (from_bytes n) sequence.

Definition record_matches (r : CacheStoreRecord) : bool :=
  String.eqb (record_policy_id r) (id p) && (record_policy_revision r =? semantic_revision p)
  && String.eqb (record_namespace r) (namespace p) && (record_compatibility_epoch r =? compatibility_epoch p)
  && bool_decide (record_domain r = domain p).

Definition lookup_outcome (now : N) (r : CacheStoreRecord) : CacheOutcome :=
  if requires_partition (domain p) then Private else if now <? fresh_until_ms r then Hit else Stale.

Definition lookup (k : CacheKey) (clock : clock) (s : InMemoryCacheStore)
    : InMemoryCacheStore * result CacheError (CacheLookup V) :=
  match validate_key k with
  | Err e => (s, Err e)
  | Ok _ =>
      match entries s !! digest k with
      | None => (s, Ok (mkLookup None (make_receipt k Miss 0 None)))
      | Some r =>
          if negb (record_matches r) then (store_remove (digest k) s, Err VersionMismatch)
          else
            match unix_millis Clock clock with
            | Err e => (s, Err e)
            | Ok now =>
                if stale_until_ms r <=? now
                then (store_remove (digest k) s, Ok (mkLookup None (make_receipt k Miss 0 None)))
                else
                  match from_slice (value r) with
                  | None => (s, Err InvalidValue)
                  | Some v => (s, Ok (mkLookup (Some v) (make_receipt k (lookup_outcome now r) (blen (value r)) None)))
                  end
            end
      end
  end.

(** The record [insert] stores. *)
Definition new_record (v : V) (ts : list string) (clock : clock) : result CacheError CacheStoreRecord :=
  bs ← ok_or InvalidValue (to_vec v);
  fail_if max_value_bytes p <? blen bs with ValueTooLarge (blen bs) (max_value_bytes p);;
  let set : gset string := list_to_set ts in
  fail_if max_tags p <? N.of_nat (size set) with TooManyTags (N.of_nat (size set)) (max_tags p);;
  now ← unix_millis Clock clock;
  fresh ← duration_millis (InvalidPolicy "duration is too large") (fresh_for p);
  stale ← duration_millis (InvalidPolicy "duration is too large") (stale_for p);
  Ok (mkRecord (id p) (semantic_revision p) (namespace p) (compatibility_epoch p) (domain p) bs set now
        (saturating_add now fresh) (saturating_add (saturating_add now fresh) stale)).

Definition insert (k : CacheKey) (v : V) (ts : list string) (clock : clock) (s : InMemoryCacheStore)
    : InMemoryCacheStore * result CacheError CacheReceipt :=
  match (_ ← validate_key k; new_record v ts clock) with
  | Err e => (s, Err e)
  | Ok r =>
      let '(s, put) := store_put (digest k) r s in
      (s, _ ← put; Ok (make_receipt k Miss (blen (value r)) None))
  end.

End manager.

(** ** The invalidation coordinator *)

Inductive InvalidationTargetKind : Type := Tags | ExactKey.

#[export] Instance target_kind_eq_dec : EqDecision InvalidationTargetKind.
Proof. solve_decision. Defined.

Record InvalidationEvent : Type := mkEvent {
  event_contract : string; sequence_of : N; event_policy_id : string; event_namespace : string; event_epoch : N;
  target_kind : InvalidationTargetKind; target_digest : string; cause_receipt : string;
  expected_acknowledgements : N; acknowledged_replicas : N; removed_entries : N }.

Definition MAX_INVALIDATION_REPLAY_EVENTS : N := 4096.

(** The coordinator; a replica is the address of a store. *)
Record Coordinator : Type := mkCoordinator {
  sequence : N; replicas : list nat; events : gmap string InvalidationEvent; order : list string }.

Definition coordinator_new : Coordinator := mkCoordinator 0 [] ∅ [].

(** The stores that are still alive, by address. *)
Abbreviation heap := (gmap nat InMemoryCacheStore).

Definition is_live (h : heap) (a : nat) : bool := match h !! a with Some _ => true | None => false end.

Section coordinator.
Context `{Sha256}.

Definition target_preimage (ts : gset string) (exact : option string) : bytes :=
  (as_bytes "pliego-cache-invalidation-target-v1" ++ [x00] ++
   match exact with
   | Some k => as_bytes "exact-key" ++ [x00] ++ lp_all [as_bytes k]
   | None => as_bytes "tags" ++ [x00] ++ lp_all (map as_bytes (btree_elements ts))
   end)%list.

Definition invalidation_target_digest (ts : gset string) (exact : option string) : string :=
  hex (sha256 (target_preimage ts exact)).

Definition replay_preimage (p : CachePolicy) (ts : gset string) (exact : option string) (cause : string) : bytes :=
  (as_bytes "pliego-cache-invalidation-delivery-v1" ++ [x00] ++
   lp_all [as_bytes (id p); be_bytes 4 (semantic_revision p); as_bytes (namespace p);
           be_bytes 4 (compatibility_epoch p); as_bytes cause; as_bytes (default "" exact)] ++
   lp_all (map as_bytes (btree_elements ts)))%list.

Definition invalidation_replay_id (p : CachePolicy) (ts : gset string) (exact : option string) (cause : string) : string :=
  hex (sha256 (replay_preimage p ts exact cause)).

Definition register (a : nat) (h : heap) (c : Coordinator) : Coordinator :=
  if existsb (Nat.eqb a) (base.filter (is_live h) (replicas c)) then c
  else mkCoordinator (sequence c) (replicas c ++ [a])%list (events c) (order c).

(** One replica of the loop: its store and the running count. *)
Definition invalidate_replica (p : CachePolicy) (ts : gset string) (exact : option string) (acc : heap * N) (a : nat)
    : heap * N :=
  match acc.1 !! a with
  | None => acc
  | Some s =>
      let '(s, removed) := store_invalidate (namespace p) (compatibility_epoch p) ts exact s in
      (<[a := s]> acc.1, acc.2 + removed)
  end.

(** The loop that forgets the oldest replays. *)
Fixpoint trim (order : list string) (events : gmap string InvalidationEvent)
    : list string * gmap string InvalidationEvent :=
  match order with
  | [] => ([], events)
  | expired :: rest =>
      if MAX_INVALIDATION_REPLAY_EVENTS <? blen order then trim rest (delete expired events) else (order, events)
  end.

Definition coordinator_invalidate (p : CachePolicy) (ts : gset string) (exact : option string) (cause : string)
    (c : Coordinator) (h : heap) : (Coordinator * heap) * result CacheError InvalidationEvent :=
  if negb (validate_stable_id cause) then ((c, h), Err InvalidCause)
  else
    let replay_id := invalidation_replay_id p ts exact cause in
    match events c !! replay_id with
    | Some event => ((c, h), Ok event)
    | None =>
        let number := (sequence c + 1) mod 2 ^ 64 in
        let live := base.filter (is_live h) (replicas c) in
        let '(h, removed) := fold_left (invalidate_replica p ts exact) live (h, 0) in
        let event :=
          mkEvent "dev.pliegors.cache-invalidation/v1" number (id p) (namespace p) (compatibility_epoch p)
            (match exact with Some _ => ExactKey | None => Tags end) (invalidation_target_digest ts exact) cause
            (blen live) (blen live) removed in
        let '(order, events) := trim (order c ++ [replay_id])%list (<[replay_id := event]> (events c)) in
        ((mkCoordinator number live events order, h), Ok event)
    end.

Definition invalidate_tags (p : CachePolicy) (ts : list string) (cause : string) (c : Coordinator) (h : heap)
    : (Coordinator * heap) * result CacheError InvalidationEvent :=
  let set : gset string := list_to_set ts in
  if (N.of_nat (size set) =? 0) || (max_tags p <? N.of_nat (size set))
  then ((c, h), Err (TooManyTags (N.of_nat (size set)) (max_tags p)))
  else coordinator_invalidate p set None cause c h.

Definition invalidate_key (p : CachePolicy) (k : CacheKey) (cause : string) (c : Coordinator) (h : heap)
    : (Coordinator * heap) * result CacheError InvalidationEvent :=
  if negb (String.eqb (key_policy_id k) (id p)) || negb (key_compatibility_epoch k =? compatibility_epoch p)
  then ((c, h), Err VersionMismatch)
  else coordinator_invalidate p ∅ (Some (digest k)) cause c h.

Definition matches_tags (e : InvalidationEvent) (ts : list string) : bool :=
  bool_decide (target_kind e = Tags)
  && String.eqb (target_digest e) (invalidation_target_digest (list_to_set ts) None).

Definition acknowledged (e : InvalidationEvent) : bool := acknowledged_replicas e =? expected_acknowledgements e.

Definition require_acknowledgements (e : InvalidationEvent) : result CacheError unit :=
  if acknowledged e then Ok tt else Err AcknowledgementBarrier.

End coordinator.

(** ** Coalesced fills *)

(** [FillState], with the key it fills and whether its task has cleaned up. *)
Record FillState : Type := mkFill { fill_key : string; fill_result : option (result CacheError unit); cleaned : bool }.

(** The manager's [fills] map, the fill states its callers share, and the callers
    that wait, by the fill they wait on. *)
Record Fills : Type := mkFills { fills : gmap string nat; states : list FillState; waiters : list nat }.

(** The locked section of [get_or_fill]: the caller joins the fill of its key, or
    becomes the leader of a new one. *)
Definition join (d : string) (f : Fills) : Fills * (nat * bool) :=
  match fills f !! d with
  | Some existing => (mkFills (fills f) (states f) (waiters f ++ [existing])%list, (existing, false))
  | None =>
      let state := length (states f) in
      (mkFills (<[d := state]> (fills f)) (states f ++ [mkFill d None false])%list (waiters f ++ [state])%list,
       (state, true))
  end.

(** The spawned task publishes the outcome of the fill ... *)
Definition publish (i : nat) (r : result CacheError unit) (f : Fills) : Fills :=
  match states f !! i with
  | Some st => mkFills (fills f) (<[i := mkFill (fill_key st) (Some r) (cleaned st)]> (states f)) (waiters f)
  | None => f
  end.

(** ... and then removes its own entry, if it is still its own. *)
Definition cleanup (i : nat) (f : Fills) : Fills :=
  match states f !! i with
  | Some st =>
      let fs := if bool_decide (fills f !! fill_key st = Some i) then delete (fill_key st) (fills f) else fills f in
      mkFills fs (<[i := mkFill (fill_key st) (fill_result st) true]> (states f)) (waiters f)
  | None => f
  end.

(** A caller leaves, with the outcome or because it was cancelled or late. *)
Definition leave (w : nat) (f : Fills) : Fills := mkFills (fills f) (states f) (delete w (waiters f)).

Inductive fill_step : Fills -> Fills -> Prop :=
| fill_join f d : fill_step f (join d f).1
| fill_publish f i st r :
    states f !! i = Some st -> fill_result st = None -> fill_step f (publish i r f)
| fill_cleanup f i st r :
    states f !! i = Some st -> fill_result st = Some r -> cleaned st = false -> fill_step f (cleanup i f)
| fill_leave f w : fill_step f (leave w f).

Definition no_fills : Fills := mkFills ∅ [] [].

(** ** A store in use *)

Inductive Op (V : Type) : Type :=
| Insert (p : CachePolicy) (k : CacheKey) (v : V) (ts : list string) (clock : clock)
| Lookup (p : CachePolicy) (k : CacheKey) (clock : clock)
| Invalidate (ns : string) (epoch : N) (ts : gset string) (exact : option string).

Arguments Insert {V}.
Arguments Lookup {V}.
Arguments Invalidate {V}.

Section use.
Context {V : Type} `{Serde V}.

Definition do_op (s : InMemoryCacheStore) (o : Op V) : InMemoryCacheStore :=
  match o with
  | Insert p k v ts clock => (insert p k v ts clock s).1
  | Lookup p k clock => (lookup (V := V) p k clock s).1
  | Invalidate ns epoch ts exact => (store_invalidate ns epoch ts exact s).1
  end.

Definition run (ops : list (Op V)) (s : InMemoryCacheStore) : InMemoryCacheStore := fold_left do_op ops s.

(** An operation that ends the life of the record [r] stored under [d]: a
    successful insert in its place, or an invalidation that names it. *)
Definition ends (s : InMemoryCacheStore) (d : string) (r : CacheStoreRecord) (o : Op V) : Prop :=
  match o with
  | Insert p k v ts clock => digest k = d /\ is_ok (insert p k v ts clock s).2 = true
  | Lookup _ _ _ => False
  | Invalidate ns epoch ts exact => doomed ns epoch ts exact d r = true
  end.

Definition same_identity (p q : CachePolicy) : Prop :=
  id p = id q /\ semantic_revision p = semantic_revision q /\ namespace p = namespace q
  /\ compatibility_epoch p = compatibility_epoch q /\ domain p = domain q.

(** ** Lemmas on the store *)

Lemma put_bounded k r s : store_len s <= max_entries s -> store_len (store_put k r s).1 <= max_entries s.
Proof.
  unfold store_put, store_len. intros Hs. destruct (bool_decide _ && _) eqn:Hg; [done|]. cbn.
  destruct (entries s !! k) eqn:E; [rewrite map_size_insert_Some by (by eexists); done|].
  rewrite map_size_insert_None by done. rewrite bool_decide_true in Hg by done. cbn in Hg. reflect_guards.
  unfold store_len in Hg. lia.
Qed.

Lemma size_delete_le {A} (m : gmap string A) k : (size (delete k m) <= size m)%nat.
Proof. apply map_subseteq_size, delete_subseteq. Qed.

Lemma lookup_shrinks p k c s :
  (lookup (V := V) p k c s).1 = s \/ (lookup (V := V) p k c s).1 = store_remove (digest k) s.
Proof.
  unfold lookup. destruct (validate_key p k); [|by left]. destruct (entries s !! digest k); [|by left].
  destruct (negb _); [by right|]. destruct (unix_millis Clock c); [|by left]. destruct (_ <=? _); [by right|].
  destruct (from_slice _); by left.
Qed.

Lemma do_op_bounded o s :
  store_len s <= max_entries s -> store_len (do_op s o) <= max_entries (do_op s o) /\ max_entries (do_op s o) = max_entries s.
Proof.
  intros Hs. destruct o as [p k v ts c|p k c|ns ep ts ex]; cbn [do_op].
  - unfold insert. destruct (_ ← validate_key p k; new_record p v ts c) as [r|e]; [|done].
    pose proof (put_bounded (digest k) r s Hs) as Hp.
    assert (Hm : max_entries (store_put (digest k) r s).1 = max_entries s)
      by (unfold store_put; by destruct (_ && _)).
    destruct (store_put (digest k) r s) as [s' put]. cbn in *. rewrite Hm. by split.
  - destruct (lookup_shrinks p k c s) as [-> | ->]; [done|]. split; [|done]. cbn. unfold store_len in *. cbn.
    pose proof (size_delete_le (entries s) (digest k)). lia.
  - split; [|done]. cbn. unfold store_len in *. cbn.
    match goal with |- context [base.filter ?P (entries s)] =>
      pose proof (map_subseteq_size _ _ (map_filter_subseteq P (entries s))) end. lia.
Qed.

(** A record is new, or it was there and nothing ended it. *)
Lemma do_op_provenance o s d r :
  entries (do_op s o) !! d = Some r ->
  (exists p k v ts c, o = Insert p k v ts c /\ digest k = d /\ (_ ← validate_key p k; new_record p v ts c) = Ok r)
  \/ (entries s !! d = Some r /\ ~ ends s d r o).
Proof.
  destruct o as [p k v ts c|p k c|ns ep ts ex]; cbn [do_op ends]; intros Hr.
  - unfold insert in *. destruct (_ ← validate_key p k; new_record p v ts c) as [r'|e] eqn:Hn; [|right; naive_solver].
    unfold store_put in *. destruct (bool_decide _ && _); cbn in *; [right; naive_solver|].
    destruct (decide (digest k = d)) as [Hd|Hd].
    + left. rewrite Hd, lookup_insert_eq in Hr. injection Hr as <-. by exists p, k, v, ts, c.
    + right. rewrite lookup_insert_ne in Hr by done. naive_solver.
  - right. destruct (lookup_shrinks p k c s) as [Heq|Heq]; rewrite Heq in Hr; [by split; [|intros []]|].
    cbn in Hr. apply lookup_delete_Some in Hr as [_ Hr]. split; [done|by intros []].
  - right. cbn in Hr. apply map_lookup_filter_Some in Hr as [Hr Hd]. cbn in Hd. split; [done|congruence].
Qed.

Lemma run_snoc ops o s : run (ops ++ [o])%list s = do_op (run ops s) o.
Proof. unfold run. by rewrite fold_left_app. Qed.

(** Where a stored record comes from. *)
Lemma run_provenance ops s0 d r :
  entries s0 = ∅ -> entries (run ops s0) !! d = Some r ->
  exists older newer p k v ts c, ops = (older ++ Insert p k v ts c :: newer)%list /\ digest k = d
    /\ (_ ← validate_key p k; new_record p v ts c) = Ok r
    /\ forall n1 o n2, newer = (n1 ++ o :: n2)%list -> ~ ends (run (older ++ Insert p k v ts c :: n1)%list s0) d r o.
Proof.
  intros H0. induction ops as [|o ops IH] using rev_ind; intros Hr; [cbn in Hr; by rewrite H0 in Hr|].
  rewrite run_snoc in Hr. apply do_op_provenance in Hr as [(p & k & v & ts & c & -> & Hd & Hn)|[Hr Hne]].
  - exists ops, [], p, k, v, ts, c. split_and!; try done. by intros [] ? ?.
  - destruct (IH Hr) as (older & newer & p & k & v & ts & c & -> & Hd & Hn & Hlater).
    exists older, (newer ++ [o])%list, p, k, v, ts, c. split_and!; try done; [by rewrite <-app_assoc|].
    intros n1 o' n2 Heq. destruct n2 as [|x n2 _] using rev_ind.
    + apply app_inj_tail in Heq as [-> ->]. done.
    + rewrite app_comm_cons, app_assoc in Heq. apply app_inj_tail in Heq as [-> ->].
      by apply (Hlater n1 o' n2).
Qed.

Lemma run_bounded ops s0 : entries s0 = ∅ -> store_len (run ops s0) <= max_entries s0.
Proof.
  intros H0. assert (Hall : store_len (run ops s0) <= max_entries (run ops s0) /\ max_entries (run ops s0) = max_entries s0).
  { induction ops as [|o ops [IH1 IH2]] using rev_ind.
    - split; [|done]. cbn. unfold store_len. rewrite H0, map_size_empty. lia.
    - rewrite run_snoc. destruct (do_op_bounded o _ IH1) as [H1 H2]. split; [done|congruence]. }
  destruct Hall as [H1 H2]. lia.
Qed.

(** A record read back by a lookup. *)
Lemma lookup_value p k now s s' l v :
  lookup p k (Some now) s = (s', Ok l) -> looked_up l = Some v ->
  exists r, entries s !! digest k = Some r /\ record_matches p r = true /\ now < stale_until_ms r
    /\ from_slice (value r) = Some v.
Proof.
  unfold lookup. intros Hl Hv. destruct (validate_key p k); [|done].
  destruct (entries s !! digest k) as [r|] eqn:Hr; [|by injection Hl as <- <-].
  destruct (record_matches p r) eqn:Hm; [|done]. cbn [negb] in Hl.
  destruct (unix_millis Clock (Some now)) as [n|] eqn:Hn; [|done]. apply unix_millis_ok in Hn as [[= <-] _].
  destruct (N.leb_spec (stale_until_ms r) now); [by injection Hl as <- <-|].
  destruct (from_slice (value r)) as [x|] eqn:Hx; [|done]. injection Hl as <- <-. cbn in Hv. injection Hv as ->.
  by exists r.
Qed.

(** The record an insert makes. *)
Lemma new_record_spec q k v0 ts c r :
  (_ ← validate_key q k; new_record q v0 ts c) = Ok r ->
  exists t bs, c = Some t
    /\ (forall p, record_matches p r = true -> same_identity q p) /\ to_vec v0 = Some bs /\ value r = bs
    /\ stale_until_ms r = saturating_add (saturating_add t (as_millis (fresh_for q))) (as_millis (stale_for q)).
Proof.
  destruct (validate_key q k); [|done]. cbn. unfold new_record. intros Hn.
  destruct (to_vec v0) as [bs|]; [|done]. cbn [mbind result_bind ok_or] in Hn.
  destruct (max_value_bytes q <? blen bs); [done|]. destruct (max_tags q <? _); [done|].
  destruct (unix_millis Clock c) as [t|] eqn:Hc; [|done]. apply unix_millis_ok in Hc as [-> _].
  unfold duration_millis in Hn. cbn [mbind result_bind] in Hn.
  destruct (as_millis (fresh_for q) <=? u64_max); [|done]. cbn [mbind result_bind] in Hn.
  destruct (as_millis (stale_for q) <=? u64_max); [|done]. injection Hn as <-.
  exists t, bs. split_and!; try done. intros p Hm. unfold record_matches in Hm. cbn in Hm. reflect_guards.
  by split_and!.
Qed.

End use.

(** ** Lemmas on keys *)

Lemma domain_str_inj d e : domain_str d = domain_str e -> d = e.
Proof. by destruct d, e. Qed.

Lemma vary_fields_inj v1 v2 t1 t2 :
  length t1 = length t2 -> (vary_fields v1 ++ t1 = vary_fields v2 ++ t2)%list -> v1 = v2 /\ t1 = t2.
Proof.
  intros Hl He. apply app_inj_2 in He as [He ->]; [|done]. split; [|done]. apply (btree_iter_inj String.le).
  unfold vary_fields in He. revert He. generalize (string_iter v1) (string_iter v2). clear.
  intros l1. induction l1 as [|[n1 x1] l1 IH]; intros [|[n2 x2] l2] He; try done.
  cbn in He. injection He as Hn Hx He. apply as_bytes_inj in Hn as ->. apply as_bytes_inj in Hx as ->.
  f_equal. by apply IH.
Qed.

Lemma be_bytes_4_inj x y : x <= u32_max -> y <= u32_max -> be_bytes 4 x = be_bytes 4 y -> x = y.
Proof. intros Hx Hy. by apply (self_delimiting_inj _ _ x y be_bytes_4_delimiting). Qed.

(** The fields are within their Rust types. *)
Definition policy_typed (p : CachePolicy) : Prop :=
  semantic_revision p <= u32_max /\ compatibility_epoch p <= u32_max /\ max_key_bytes p <= u64_max.

Lemma key_fields_inj p q i j :
  policy_typed p -> policy_typed q -> operation_revision i <= u32_max -> operation_revision j <= u32_max ->
  partition_matches (domain p) (partition i) = true -> partition_matches (domain q) (partition j) = true ->
  key_fields p i = key_fields q j ->
  same_identity p q /\ operation_id i = operation_id j /\ operation_revision i = operation_revision j
  /\ input_digest i = input_digest j /\ vary i = vary j /\ partition i = partition j.
Proof.
  intros (Hp1 & Hp2 & _) (Hq1 & Hq2 & _) Hi Hj Hpi Hpj He. unfold key_fields in He. cbn [app] in He.
  assert (Hcons : forall (x y : bytes) l k, x :: l = y :: k -> x = y /\ l = k) by (by intros ? ? ? ? [= -> ->]).
  apply Hcons in He as [E1 He]. apply Hcons in He as [E2 He]. apply Hcons in He as [E3 He].
  apply Hcons in He as [E4 He]. apply Hcons in He as [E5 He]. apply Hcons in He as [E6 He].
  apply Hcons in He as [E7 He]. apply Hcons in He as [E8 E9].
  apply as_bytes_inj in E1, E3, E5, E6, E8. apply be_bytes_4_inj in E2, E4, E7; [|done..].
  apply domain_str_inj in E5.
  assert (Hlen : length (match partition i with Some q => [as_bytes (partition_digest q)] | None => [] end)
                 = length (match partition j with Some q => [as_bytes (partition_digest q)] | None => [] end)).
  { rewrite E5 in Hpi. unfold partition_matches in *. by destruct (domain q), (partition i), (partition j). }
  apply vary_fields_inj in E9 as [E9 E10]; [|done].
  assert (Hpart : partition i = partition j).
  { destruct (partition i) as [[d1 k1]|], (partition j) as [[d2 k2]|]; try done. cbn in E10.
    injection E10 as E10. apply as_bytes_inj in E10 as ->. rewrite E5 in Hpi. unfold partition_matches in *.
    destruct (domain q); cbn in *; try done; reflect_guards; by subst. }
  by split_and!.
Qed.

Lemma key_spec `{Sha256} p i k :
  key p i = Ok k ->
  dom (vary i) = required_vary p /\ partition_matches (domain p) (partition i) = true
  /\ blen (lp_all (key_fields p i)) <= max_key_bytes p /\ digest k = hex (sha256 (lp_all (key_fields p i)))
  /\ validate_key p k = Ok tt.
Proof.
  unfold key. intros Hk. destruct (negb (bool_decide _)) eqn:H1; [done|].
  destruct (negb (partition_matches _ _)) eqn:H2; [done|].
  destruct (max_key_bytes p <? _) eqn:H3; [done|]. injection Hk as <-. reflect_guards. split_and!; try done.
  unfold validate_key. cbn. by rewrite !String.eqb_refl, !N.eqb_refl, bool_decide_true.
Qed.

(** ** Lemmas on the coordinator *)

Section coordinator_lemmas.
Context `{Sha256}.

(** The replay window: what is remembered is what is in order, within the bound. *)
Definition coordinator_ok (c : Coordinator) : Prop :=
  NoDup (replicas c) /\ NoDup (order c) /\ dom (events c) = list_to_set (order c)
  /\ blen (order c) <= MAX_INVALIDATION_REPLAY_EVENTS.

Lemma trim_spec os es :
  NoDup os -> dom es = list_to_set os ->
  let '(os', es') := trim os es in
  os' `suffix_of` os /\ (os <> [] -> os' <> []) /\ NoDup os' /\ dom es' = list_to_set os'
  /\ blen os' <= MAX_INVALIDATION_REPLAY_EVENTS /\ forall d, d ∈ os' -> es' !! d = es !! d.
Proof.
  revert es. induction os as [|x os IH]; intros es Hnd Hdom; cbn [trim].
  - split_and!; try done.
  - destruct (N.ltb_spec MAX_INVALIDATION_REPLAY_EVENTS (blen (x :: os))) as [Hlt|Hle]; [|by split_and!].
    apply NoDup_cons in Hnd as [Hx Hnd].
    assert (Hd : dom (delete x es) = list_to_set os) by (rewrite dom_delete_L, Hdom; set_solver).
    specialize (IH (delete x es) Hnd Hd). destruct (trim os (delete x es)) as [os' es'].
    destruct IH as (Hsuf & Hne & Hnd' & Hdom' & Hlen & Hval). split_and!; try done.
    + by apply suffix_cons_r.
    + intros _. apply Hne. intros ->. unfold blen, MAX_INVALIDATION_REPLAY_EVENTS in Hlt. cbn in Hlt. lia.
    + intros d Hin. rewrite Hval by done. apply lookup_delete_ne. intros <-. destruct Hsuf as [l ->]. set_solver.
Qed.

Lemma suffix_snoc {A} (l os : list A) x : l `suffix_of` (os ++ [x])%list -> l <> [] -> x ∈ l.
Proof.
  intros [m Hm] Hne. destruct l as [|y l _] using rev_ind; [done|]. rewrite app_assoc in Hm.
  apply app_inj_tail in Hm as [_ ->]. apply elem_of_app. right. by left.
Qed.

(** A replica after an invalidation. *)
Definition invalidated (p : CachePolicy) ts exact (s : InMemoryCacheStore) : InMemoryCacheStore :=
  (store_invalidate (namespace p) (compatibility_epoch p) ts exact s).1.

Lemma invalidate_replicas p ts exact live h n :
  NoDup live ->
  forall a, (fold_left (invalidate_replica p ts exact) live (h, n)).1 !! a
            = if bool_decide (a ∈ live) then invalidated p ts exact <$> h !! a else h !! a.
Proof.
  revert h n. induction live as [|b live IH]; intros h n Hnd a; [done|]. apply NoDup_cons in Hnd as [Hb Hnd].
  cbn [fold_left]. rewrite (surjective_pairing (invalidate_replica p ts exact (h, n) b)), IH by done.
  assert (Hstep : (invalidate_replica p ts exact (h, n) b).1 !! a
                  = if decide (a = b) then invalidated p ts exact <$> h !! a else h !! a).
  { unfold invalidate_replica. cbn [fst]. destruct (h !! b) as [s|] eqn:Hs.
    - unfold invalidated. cbn. destruct (decide (a = b)) as [->|]; [by rewrite lookup_insert_eq, Hs|].
      by rewrite lookup_insert_ne.
    - cbn. destruct (decide (a = b)) as [->|]; [by rewrite Hs|done]. }
  rewrite Hstep. destruct (decide (a = b)) as [->|Hne].
  - rewrite (bool_decide_false (b ∈ live)), (bool_decide_true (b ∈ b :: live)) by (done || by left). done.
  - rewrite (bool_decide_ext (a ∈ b :: live) (a ∈ live)); [done|]. rewrite elem_of_cons. naive_solver.
Qed.

Lemma invalidated_spec p ts exact s k r :
  entries (invalidated p ts exact s) !! k = Some r <->
  entries s !! k = Some r /\ doomed (namespace p) (compatibility_epoch p) ts exact k r = false.
Proof. unfold invalidated, store_invalidate. cbn. apply map_lookup_filter_Some. Qed.

End coordinator_lemmas.

(** ** Lemmas on fills *)

(** The map holds exactly the fills whose tasks have not cleaned up; those that
    have, published first; every caller waits on a fill that exists. *)
Definition fills_ok (f : Fills) : Prop :=
  (forall d i, fills f !! d = Some i <-> exists r, states f !! i = Some (mkFill d r false))
  /\ (forall i st, states f !! i = Some st -> cleaned st = true -> is_Some (fill_result st))
  /\ Forall (fun i => (i < length (states f))%nat) (waiters f).

Lemma join_ok f d : fills_ok f -> fills_ok (join d f).1.
Proof.
  intros (Hf & Hc & Hw). unfold join. destruct (fills f !! d) as [i|] eqn:Hd; cbn.
  - split; [done|]. split; [done|]. apply Forall_app_2; [done|]. apply Forall_singleton.
    apply Hf in Hd as [r Hr]. by eapply lookup_lt_Some.
  - split; [|split].
    + intros e i. cbn. destruct (decide (e = d)) as [->|Hne].
      * rewrite lookup_insert_eq. split.
        -- intros [= <-]. exists None. by rewrite lookup_app_r, Nat.sub_diag by lia.
        -- intros [r Hr]. apply lookup_app_Some in Hr as [Hr|[Hge Hr]].
           ++ assert (Hd' : fills f !! d = Some i) by (apply Hf; by eexists). congruence.
           ++ apply list_lookup_singleton_Some in Hr as [Hi _]. f_equal. lia.
      * rewrite lookup_insert_ne by done. rewrite Hf. split; intros [r Hr]; exists r.
        -- by apply lookup_app_l_Some.
        -- apply lookup_app_Some in Hr as [Hr|[_ Hr]]; [done|].
           apply list_lookup_singleton_Some in Hr as [_ [= <-]]. done.
    + intros i st Hi Hcl. cbn in Hi. apply lookup_app_Some in Hi as [Hi|[_ Hi]]; [by eapply Hc|].
      apply list_lookup_singleton_Some in Hi as [_ <-]. done.
    + cbn. rewrite length_app. apply Forall_app_2; [|apply Forall_singleton; cbn; lia].
      eapply Forall_impl; [exact Hw|]. cbn. lia.
Qed.

Lemma publish_ok f i st r :
  fills_ok f -> states f !! i = Some st -> fill_result st = None -> fills_ok (publish i r f).
Proof.
  intros (Hf & Hc & Hw) Hi Hr. unfold publish. rewrite Hi.
  assert (Hlt : (i < length (states f))%nat) by (by eapply lookup_lt_Some).
  assert (Hcl : cleaned st = false).
  { destruct (cleaned st) eqn:E; [|done]. destruct (Hc i st Hi E). congruence. }
  split; [|split]; cbn.
  - intros d j. rewrite Hf. destruct (decide (i = j)) as [<-|Hne].
    + rewrite list_lookup_insert_eq, Hi by done. destruct st as [d' r' c']. cbn in *. subst.
      split; intros [x [= -> ]]; by eexists.
    + by rewrite list_lookup_insert_ne.
  - intros j st' Hj Hcl'. destruct (decide (i = j)) as [<-|Hne].
    + rewrite list_lookup_insert_eq in Hj by done. injection Hj as <-. by eexists.
    + rewrite list_lookup_insert_ne in Hj by done. by eapply Hc.
  - by rewrite length_insert.
Qed.

Lemma cleanup_ok f i st r :
  fills_ok f -> states f !! i = Some st -> fill_result st = Some r -> cleaned st = false -> fills_ok (cleanup i f).
Proof.
  intros (Hf & Hc & Hw) Hi Hr Hcl. unfold cleanup. rewrite Hi.
  assert (Hlt : (i < length (states f))%nat) by (by eapply lookup_lt_Some).
  assert (Hown : fills f !! fill_key st = Some i).
  { apply Hf. exists (fill_result st). rewrite Hi. destruct st. cbn in *. by subst. }
  rewrite bool_decide_true by done. split; [|split]; cbn.
  - intros d j. destruct (decide (i = j)) as [<-|Hne].
    + rewrite list_lookup_insert_eq by done. split; [|by intros [x [=]]].
      intros [Hd Hdi]%lookup_delete_Some. apply Hf in Hdi as [x Hx]. rewrite Hi in Hx. injection Hx as Hx.
      by destruct Hd; rewrite Hx.
    + rewrite list_lookup_insert_ne by done. rewrite <-Hf. destruct (decide (fill_key st = d)) as [<-|Hd].
      * rewrite lookup_delete_eq. split; [done|]. intros Hj. congruence.
      * by rewrite lookup_delete_ne.
  - intros j st' Hj Hcl'. destruct (decide (i = j)) as [<-|Hne].
    + rewrite list_lookup_insert_eq in Hj by done. injection Hj as <-. by eexists.
    + rewrite list_lookup_insert_ne in Hj by done. by eapply Hc.
  - by rewrite length_insert.
Qed.

Lemma fill_step_ok f g : fills_ok f -> fill_step f g -> fills_ok g.
Proof.
  intros Hf Hs. destruct Hs as [f d|f i st r Hi Hr|f i st r Hi Hr Hc|f w].
  - by apply join_ok.
  - by eapply publish_ok.
  - by eapply cleanup_ok.
  - destruct Hf as (H1 & H2 & H3). split; [done|]. split; [done|]. cbn.
    apply Forall_forall. intros x Hx. rewrite Forall_forall in H3. apply H3.
    eapply elem_of_submseteq; [exact Hx|]. apply sublist_submseteq, sublist_delete.
Qed.

Lemma reachable_fills_ok f : rtc fill_step no_fills f -> fills_ok f.
Proof.
  intros Hex. refine (rtc_ind_r fills_ok _ _ _ f Hex).
  - split; [|split]; [|done|constructor]. intros d i. cbn. rewrite lookup_empty. split; [done|]. by intros [r Hr].
  - intros f1 f2 _ Hs Hf. by eapply fill_step_ok.
Qed.

(** ** Properties *)

(** C30. A cache key is one computation for one principal: two keys made by the
    policies with equal digests have the same policy identity, privacy domain,
    operation, input, Vary values and partition, or exhibit a SHA-256 collision. No
    partition's entry can answer another's lookup. *)
Theorem key_binds `{Sha256} p q i j k l :
  policy_typed p -> policy_typed q -> operation_revision i <= u32_max -> operation_revision j <= u32_max ->
  key p i = Ok k -> key q j = Ok l -> digest k = digest l ->
  (same_identity p q /\ operation_id i = operation_id j /\ operation_revision i = operation_revision j
   /\ input_digest i = input_digest j /\ vary i = vary j /\ partition i = partition j)
  \/ collides (lp_all (key_fields p i)) (lp_all (key_fields q j)).
Proof.
  intros Hp Hq Hi Hj Hk Hl Hd. apply key_spec in Hk as (_ & Hpi & Hlp & Hdk & _).
  apply key_spec in Hl as (_ & Hpj & Hlq & Hdl & _). rewrite Hdk, Hdl in Hd. apply hex_inj in Hd.
  destruct (decide (lp_all (key_fields p i) = lp_all (key_fields q j))) as [He|]; [left|by right].
  apply key_fields_inj; try done. destruct Hp as (_ & _ & Hp), Hq as (_ & _ & Hq).
  apply lp_all_inj; [..|done]; apply lp_all_fits; lia.
Qed.

(** What a lookup returns: in any sequence of inserts, lookups and
    invalidations on a store that started empty, a value comes from the insert of
    that key, by a policy of the same identity, that nothing has replaced or
    invalidated since, and within the stale window counted from that insert; and
    the store never holds more than its bound. *)
Theorem lookup_serves_last_insert {V} `{Serde V} p k now s0 (ops : list (Op V)) s' l v :
  entries s0 = ∅ -> lookup p k (Some now) (run ops s0) = (s', Ok l) -> looked_up l = Some v ->
  (exists older newer q k' v0 ts t fresh stale bs,
     ops = (older ++ Insert q k' v0 ts (Some t) :: newer)%list /\ digest k' = digest k /\ same_identity q p
     /\ to_vec v0 = Some bs /\ from_slice bs = Some v
     /\ fresh = as_millis (fresh_for q) /\ stale = as_millis (stale_for q)
     /\ now < saturating_add (saturating_add t fresh) stale
     /\ forall n1 o n2 r, newer = (n1 ++ o :: n2)%list ->
          entries (run ops s0) !! digest k = Some r ->
          ~ ends (run (older ++ Insert q k' v0 ts (Some t) :: n1)%list s0) (digest k) r o)
  /\ store_len (run ops s0) <= max_entries s0.
Proof.
  intros He Hl Hv. split.
  - destruct (lookup_value _ _ _ _ _ _ _ Hl Hv) as (r & Hr & Hm & Hnow & Hs).
    destruct (run_provenance ops s0 (digest k) r He Hr) as (older & newer & q & k' & v0 & ts & c & -> & Hd & Hn & Hlater).
    apply new_record_spec in Hn as (t & bs & -> & Hid & Hbs & Hval & Hst).
    exists older, newer, q, k', v0, ts, t, (as_millis (fresh_for q)), (as_millis (stale_for q)), bs.
    split_and!; try done.
    + by apply Hid.
    + by rewrite <-Hval.
    + by rewrite <-Hst.
    + intros n1 o n2 r' -> Hr'. replace r' with r by congruence. by apply (Hlater n1 o n2).
  - by apply run_bounded.
Qed.

(** An invalidation reaches every replica: it removes from each registered
    live store exactly the records it names, by key or by a tag in the policy's
    namespace and epoch, touches no other store, is numbered next in sequence and
    acknowledged by every replica; delivered again with the same cause it changes
    nothing and answers with the same event; and the window of deliveries
    remembered stays within its bound. *)
Theorem invalidation_exact `{Sha256} p ts exact cause c h :
  coordinator_ok c -> validate_stable_id cause = true ->
  events c !! invalidation_replay_id p ts exact cause = None ->
  exists c' h' event,
    coordinator_invalidate p ts exact cause c h = ((c', h'), Ok event) /\ coordinator_ok c'
    /\ sequence_of event = (sequence c + 1) mod 2 ^ 64 /\ sequence c' = sequence_of event
    /\ require_acknowledgements event = Ok tt
    /\ (forall a, a ∉ replicas c -> h' !! a = h !! a)
    /\ (forall a s', a ∈ replicas c -> h' !! a = Some s' -> exists s, h !! a = Some s /\ forall k r,
          entries s' !! k = Some r <->
          entries s !! k = Some r /\ doomed (namespace p) (compatibility_epoch p) ts exact k r = false)
    /\ forall h2, coordinator_invalidate p ts exact cause c' h2 = ((c', h2), Ok event).
Proof.
  intros (Hr & Ho & Hdom & Hlen) Hcause Hnew. unfold coordinator_invalidate. rewrite Hcause, Hnew. cbn [negb].
  set (rid := invalidation_replay_id p ts exact cause) in *.
  set (live := base.filter (is_live h) (replicas c)).
  destruct (fold_left (invalidate_replica p ts exact) live (h, 0)) as [h' removed] eqn:Hf.
  pose proof (invalidate_replicas p ts exact live h 0 (NoDup_filter _ _ Hr)) as Hh. rewrite Hf in Hh. cbn [fst] in Hh.
  set (event := mkEvent _ _ _ _ _ _ _ _ _ _ removed).
  assert (Hrid : rid ∉ order c).
  { intros Hin. apply not_elem_of_dom in Hnew. apply Hnew. rewrite Hdom. by apply elem_of_list_to_set. }
  pose proof (trim_spec (order c ++ [rid])%list (<[rid := event]> (events c))) as Ht.
  destruct (trim _ _) as [os es]. destruct Ht as (Hsuf & Hne & Hnd & Hdom' & Hlen' & Hval).
  - apply NoDup_app. split; [done|]. split; [|apply NoDup_singleton]. by intros x Hx ->%list_elem_of_singleton.
  - rewrite dom_insert_L, Hdom, list_to_set_app_L. set_solver.
  - exists (mkCoordinator ((sequence c + 1) mod 2 ^ 64) live es os), h', event.
    split; [done|]. split; [split_and!; cbn; try done; by apply NoDup_filter|]. split; [done|]. split; [done|].
    split; [unfold require_acknowledgements, acknowledged; cbn; by rewrite N.eqb_refl|].
    split; [|split].
    + intros a Ha. rewrite Hh, bool_decide_false; [done|]. unfold live. rewrite list_elem_of_filter. tauto.
    + intros a s' Ha Hs'. rewrite Hh in Hs'. unfold live in Hs'.
      destruct (h !! a) as [s|] eqn:Hs; [|by destruct (bool_decide _) in Hs'].
      rewrite bool_decide_true in Hs'
        by (apply list_elem_of_filter; split; [unfold is_live; rewrite Hs; exact I|done]).
      injection Hs' as <-. exists s. split; [done|]. apply invalidated_spec.
    + intros h2. cbn [events]. rewrite Hval, lookup_insert_eq; [done|]. eapply suffix_snoc; [exact Hsuf|].
      apply Hne. by destruct (order c).
Qed.

(** Single flight: however callers join, fills end and callers leave, at most
    one fill of a key is running, a caller that arrives while it runs joins it
    instead of starting another, a fill starts only when there is none, and nobody
    waits on a fill that has no task left to publish its outcome. *)
Theorem single_flight f :
  rtc fill_step no_fills f ->
  (forall i j x y, states f !! i = Some x -> states f !! j = Some y -> fill_key x = fill_key y ->
     fill_result x = None -> fill_result y = None -> i = j)
  /\ (forall i x, states f !! i = Some x -> fill_result x = None -> (join (fill_key x) f).2 = (i, false))
  /\ (forall d i, (join d f).2 = (i, true) ->
       forall j x, states f !! j = Some x -> fill_key x = d -> is_Some (fill_result x))
  /\ (forall i, i ∈ waiters f -> exists x, states f !! i = Some x
       /\ (fill_result x = None -> fills f !! fill_key x = Some i /\ cleaned x = false)).
Proof.
  intros Hex. destruct (reachable_fills_ok f Hex) as (Hf & Hc & Hw).
  assert (Hrun : forall i x, states f !! i = Some x -> fill_result x = None -> fills f !! fill_key x = Some i /\ cleaned x = false).
  { intros i x Hi Hr. assert (Hcl : cleaned x = false).
    { destruct (cleaned x) eqn:E; [|done]. destruct (Hc i x Hi E). congruence. }
    split; [|done]. apply Hf. exists (fill_result x). rewrite Hi. destruct x. cbn in *. by subst. }
  split; [|split; [|split]].
  - intros i j x y Hi Hj Hk Hx Hy. destruct (Hrun i x Hi Hx) as [H1 _]. destruct (Hrun j y Hj Hy) as [H2 _]. congruence.
  - intros i x Hi Hx. unfold join. by rewrite (proj1 (Hrun i x Hi Hx)).
  - intros d i Hj j x Hjx Hk. unfold join in Hj. destruct (fills f !! d) eqn:E; [done|].
    destruct (fill_result x) eqn:Hr; [by eexists|]. destruct (Hrun j x Hjx Hr) as [H1 _]. congruence.
  - intros i Hi. rewrite Forall_forall in Hw. destruct (lookup_lt_is_Some_2 _ _ (Hw i Hi)) as [x Hx].
    exists x. split; [done|]. by apply Hrun.
Qed.

(** ** Witnesses *)

Module CacheSample.

#[local] Existing Instance toy_sha256.

Definition toy_serde : Serde N := {| to_vec n := Some (be_bytes 8 n); from_slice bs := Some (be_value bs) |}.

#[local] Existing Instance toy_serde.

Definition policy : CachePolicy :=
  mkPolicy "profiles" 1 "site" 3 PrivateSession {["locale"]} (from_secs 60) (from_secs 10) 4096 1024 4 true (from_secs 5).

Definition input : CacheKeyInput :=
  mkInput "load-profile" 2 (hex (repeat "0"%byte 32)) {["locale" := "es"]} (Some (mkPartition (hex (repeat "1"%byte 32)) Session)).

Definition key_of : CacheKey :=
  mkKey (hex (sha256 (lp_all (key_fields policy input)))) "profiles" 1 "site" 3 PrivateSession.

Lemma key_of_input : key policy input = Ok key_of.
Proof. vm_compute. reflexivity. Qed.

Lemma policy_is_typed : policy_typed policy.
Proof. by vm_compute. Qed.

Definition empty : InMemoryCacheStore := mkStore ∅ 2.
Definition ops : list (Op N) := [Insert policy key_of 7 ["news"] (Some 1000)].

Definition coordinator : Coordinator := register 0 {[0%nat := run ops empty]} coordinator_new.

Lemma coordinator_is_ok : coordinator_ok coordinator.
Proof.
  unfold coordinator, register, coordinator_new. cbn. split; [apply NoDup_singleton|]. split; [apply NoDup_nil_2|].
  split; [done|]. by vm_compute.
Qed.

(** Two callers for one key. *)
Definition two_callers : Fills := (join "k" (join "k" no_fills).1).1.

End CacheSample.

#[local] Existing Instances toy_sha256 CacheSample.toy_serde.

Lemma key_binds_witness :
  partition CacheSample.input = partition CacheSample.input
  \/ collides (lp_all (key_fields CacheSample.policy CacheSample.input))
       (lp_all (key_fields CacheSample.policy CacheSample.input)).
Proof.
  destruct (key_binds CacheSample.policy CacheSample.policy CacheSample.input CacheSample.input _ _
    CacheSample.policy_is_typed CacheSample.policy_is_typed ltac:(by vm_compute) ltac:(by vm_compute)
    CacheSample.key_of_input CacheSample.key_of_input eq_refl) as [(_ & _ & _ & _ & _ & H)|H]; [by left|by right].
Defined.

Lemma lookup_serves_last_insert_witness :
  match (lookup CacheSample.policy CacheSample.key_of (Some 2000) (run CacheSample.ops CacheSample.empty)).2 with
  | Ok l => looked_up l = Some 7
  | Err _ => False
  end /\ store_len (run CacheSample.ops CacheSample.empty) <= 2.
Proof.
  destruct (lookup CacheSample.policy CacheSample.key_of (Some 2000) (run CacheSample.ops CacheSample.empty))
    as [s' [l|e]] eqn:Hl.
  - assert (Hv : looked_up l = Some 7).
    { change (match (s', Ok l : result CacheError (CacheLookup N)).2 with Ok l => looked_up l | Err _ => None end = Some 7).
      rewrite <-Hl. vm_compute. reflexivity. }
    split; [exact Hv|].
    exact (proj2 (lookup_serves_last_insert CacheSample.policy CacheSample.key_of 2000 CacheSample.empty
                    CacheSample.ops s' l 7 eq_refl Hl Hv)).
  - exfalso. apply (f_equal (fun x => is_ok x.2)) in Hl. vm_compute in Hl. discriminate.
Defined.

Lemma invalidation_exact_witness :
  exists c' h' event,
    coordinator_invalidate CacheSample.policy {["news"]} None "article-published" CacheSample.coordinator
      {[0%nat := run CacheSample.ops CacheSample.empty]} = ((c', h'), Ok event)
    /\ sequence_of event = 1.
Proof.
  destruct (invalidation_exact CacheSample.policy {["news"]} None "article-published" CacheSample.coordinator
    {[0%nat := run CacheSample.ops CacheSample.empty]} CacheSample.coordinator_is_ok eq_refl eq_refl)
    as (c' & h' & event & Hc & _ & Hseq & _).
  exists c', h', event. split; [exact Hc|]. rewrite Hseq. reflexivity.
Defined.

Lemma single_flight_witness :
  states CacheSample.two_callers = [mkFill "k" None false] /\ waiters CacheSample.two_callers = [0%nat; 0%nat]
  /\ (join "k" CacheSample.two_callers).2 = (0%nat, false).
Proof.
  split; [reflexivity|]. split; [reflexivity|].
  refine (proj1 (proj2 (single_flight CacheSample.two_callers _)) 0%nat (mkFill "k" None false) eq_refl eq_refl).
  eapply rtc_l; [apply (fill_join no_fills "k")|]. apply rtc_once, (fill_join _ "k").
Defined.

(** A policy that keeps a public value fresh for no time at all is refused, but a
    fill timeout below the millisecond its message names is accepted. *)
Example fill_timeout_below_a_millisecond :
  is_ok (policy_stampede CacheSample.policy true 1) = true.
Proof. reflexivity. Qed.
