(* ===== verification/Pattern.v ===== *)
(** * Pattern: the portable route grammar ([pliego-router/src/lib.rs], first half)

    Route methods and errors, the segment grammar with its validation,
    [RoutePattern::parse], the keys by which patterns collide, and the matching of
    a request path. The Unicode normalizations of [unicode-normalization] and
    [unicode-casefold] are parameters; [char::is_control] and
    [char::is_whitespace] are written out on UTF-8. *)

From S2P Require Import Prelude Request.

Local Open Scope string_scope.
Local Open Scope N_scope.

Definition MAX_PATTERN_BYTES : N := 1024.
Definition MAX_ROUTE_SEGMENTS : N := 32.
Definition MAX_ROUTE_ID_BYTES : N := 64.
Definition MAX_PARAMETER_NAME_BYTES : N := 63.

(** ** Methods and errors *)

Record RouteMethod : Type := mkMethod { method_str : string }.

#[export] Instance method_eq_dec : EqDecision RouteMethod.
Proof. solve_decision. Defined.

Inductive RouteError : Type :=
| InvalidMethod (value : string)
| InvalidPattern (pattern : string)
| TrailingSlash (pattern : string)
| TooManySegments (count : N)
| InvalidSegment (segment : string)
| InvalidParameter (name : string)
| InvalidGroup (segment : string)
| OptionalMustBeTerminal (name : string)
| CatchAllMustBeTerminal (name : string)
| DuplicateParameter (name : string)
| InvalidRouteId (id : string)
| InvalidRouteLimit (limit : N)
| TooManyRoutes (actual maximum : N)
| DuplicateRouteId (id : string)
| InvalidMiddlewareId (id : string)
| DuplicateMiddleware (id : string)
| TooManyMiddleware (maximum : N)
| DuplicateMiddlewareDeclaration (id : string)
| MissingMiddlewareDeclaration (id : string)
| UnreferencedMiddlewareDeclaration (id : string)
| MiddlewarePhaseConflict (id : string)
| InvalidScopeId (id : string)
| DuplicateScopeId (id : string)
| UnknownScope (id : string)
| UnreferencedScope (id : string)
| ScopeCycle (id : string)
| TooManyScopes (actual maximum : N)
| DuplicateInheritedMiddleware (id : string)
| DuplicateInheritedErrorBoundary (id : string)
| InvalidLoaderId (id : string)
| DuplicateLoader (id : string)
| DuplicateInheritedLoader (id : string)
| TooManyLoaders (maximum : N)
| InvalidActionId (id : string)
| DuplicateAction (id : string)
| TooManyActions (maximum : N)
| InvalidCachePolicyId (id : string)
| InvalidResourceId (id : string)
| DuplicateResource (id : string)
| TooManyResources (maximum : N)
| InvalidResourceCapability (id : string)
| TooManyResourceCapabilities (maximum : N)
| InvalidErrorBoundaryId (id : string)
| DuplicateErrorBoundary (id : string)
| TooManyErrorBoundaries (maximum : N)
| RouteCollision (method : RouteMethod) (shape first second : string).

Definition code (e : RouteError) : string :=
  match e with
  | InvalidMethod _ => "PLG-RTE-001"
  | InvalidPattern _ | TrailingSlash _ => "PLG-RTE-002"
  | TooManySegments _ => "PLG-RTE-003"
  | InvalidSegment _ | InvalidParameter _ | InvalidGroup _ => "PLG-RTE-004"
  | OptionalMustBeTerminal _ | CatchAllMustBeTerminal _ => "PLG-RTE-005"
  | DuplicateParameter _ => "PLG-RTE-006"
  | InvalidRouteId _ => "PLG-RTE-007"
  | InvalidRouteLimit _ | TooManyRoutes _ _ => "PLG-RTE-008"
  | DuplicateRouteId _ => "PLG-RTE-009"
  | RouteCollision _ _ _ _ => "PLG-RTE-010"
  | InvalidMiddlewareId _ | DuplicateMiddleware _ | TooManyMiddleware _ => "PLG-RTE-011"
  | DuplicateMiddlewareDeclaration _ | MissingMiddlewareDeclaration _ | UnreferencedMiddlewareDeclaration _
  | MiddlewarePhaseConflict _ => "PLG-RTE-013"
  | InvalidScopeId _ | DuplicateScopeId _ | UnknownScope _ | UnreferencedScope _ | ScopeCycle _ | TooManyScopes _ _
  | DuplicateInheritedMiddleware _ | DuplicateInheritedErrorBoundary _ => "PLG-RTE-014"
  | InvalidErrorBoundaryId _ | DuplicateErrorBoundary _ | TooManyErrorBoundaries _ => "PLG-RTE-012"
  | InvalidLoaderId _ | DuplicateLoader _ | DuplicateInheritedLoader _ | TooManyLoaders _ => "PLG-RTE-015"
  | InvalidActionId _ | DuplicateAction _ | TooManyActions _ => "PLG-RTE-016"
  | InvalidCachePolicyId _ => "PLG-RTE-017"
  | InvalidResourceId _ | DuplicateResource _ | TooManyResources _ | InvalidResourceCapability _
  | TooManyResourceCapabilities _ => "PLG-RTE-018"
  end.

Definition is_method_token (c : ascii) : bool :=
  is_ascii_alphanumeric c
  || char_in ["!"; "#"; "$"; "%"; "&"; "'"; "*"; "+"; "-"; "."; "^"; "_"; "`"; "|"; "~"]%char c.

Definition method_new (value : string) : result RouteError RouteMethod :=
  fail_if (slen value =? 0) || (32 <? slen value) with InvalidMethod value;;
  fail_if negb (string_all is_method_token value) || negb (string_all (fun c => negb (is_ascii_lowercase c)) value)
    with InvalidMethod value;;
  Ok (mkMethod value).

(** ** Strings *)

Fixpoint split_on (c : ascii) (s : string) : list string :=
  match s with
  | EmptyString => [""]
  | String d s' =>
      let parts := split_on c s' in
      if Ascii.eqb d c then "" :: parts
      else match parts with p :: ps => String d p :: ps | [] => [String d ""] end
  end.

(** [str::split('/')]. *)
Definition split_slash : string -> list string := split_on "/".

(** [Vec<&str>::join("/")]. *)
Definition join_slash : list string -> string := String.concat "/".

(** [str::strip_suffix] of one character, and [str::ends_with]. *)
Fixpoint strip_last (c : ascii) (s : string) : option string :=
  match s with
  | EmptyString => None
  | String d EmptyString => if Ascii.eqb d c then Some "" else None
  | String d s' => match strip_last c s' with Some r => Some (String d r) | None => None end
  end.

Definition has_last (c : ascii) (s : string) : bool := match strip_last c s with Some _ => true | None => false end.

Definition str_has (c : ascii) (s : string) : bool := negb (string_all (fun d => negb (Ascii.eqb d c)) s).

Definition byte_is (n : N) (s : string) : bool :=
  match s with String c _ => Ascii.N_of_ascii c =? n | EmptyString => false end.

Definition byte_from (lo hi : N) (s : string) : bool :=
  match s with String c _ => (lo <=? Ascii.N_of_ascii c) && (Ascii.N_of_ascii c <=? hi) | EmptyString => false end.

Definition tail (s : string) : string := match s with String _ s' => s' | EmptyString => "" end.

(** [chars().any(char::is_whitespace)] on UTF-8: the [White_Space] code points. *)
Fixpoint any_whitespace (s : string) : bool :=
  match s with
  | EmptyString => false
  | String c s' =>
      let n := Ascii.N_of_ascii c in
      ((9 <=? n) && (n <=? 13)) || (n =? 32)
      || ((n =? 194) && (byte_is 133 s' || byte_is 160 s'))
      || ((n =? 225) && byte_is 154 s' && byte_is 128 (tail s'))
      || ((n =? 226) && byte_is 128 s'
          && (byte_from 128 138 (tail s') || byte_is 168 (tail s') || byte_is 169 (tail s') || byte_is 175 (tail s')))
      || ((n =? 226) && byte_is 129 s' && byte_is 159 (tail s'))
      || ((n =? 227) && byte_is 128 s' && byte_is 128 (tail s'))
      || any_whitespace s'
  end.

(** The normalizations the crate imports. *)
Class Unicode : Type := { nfc : string -> string; nfkc : string -> string; case_fold : string -> string }.

(** ** The grammar *)

Inductive Segment : Type :=
| Literal (value : string)
| Param (name : string)
| OptionalParameter (name : string)
| CatchAll (name : string)
| Group (name : string).

#[export] Instance segment_eq_dec : EqDecision Segment.
Proof. solve_decision. Defined.

Definition consumes_path (s : Segment) : bool := match s with Group _ => false | _ => true end.

Definition segment_specificity (s : Segment) : N :=
  match s with Literal _ => 4 | Param _ => 3 | OptionalParameter _ => 2 | CatchAll _ => 1 | Group _ => 0 end.

Record RoutePattern : Type := mkPattern { authored : string; canonical : string; segments : list Segment }.

Section grammar.
Context `{Unicode}.

Definition portable_case_key (value : string) : string := nfkc (case_fold (nfkc value)).

Definition validate_pattern_envelope (pattern : string) : result RouteError unit :=
  fail_if (slen pattern =? 0) || (MAX_PATTERN_BYTES <? slen pattern) || negb (starts_with "/" pattern)
    with InvalidPattern pattern;;
  fail_if negb (String.eqb pattern "/") && has_last "/" pattern with TrailingSlash pattern;;
  fail_if str_contains "//" pattern || str_has "\" pattern || str_has "%" pattern || str_has "#" pattern
          || str_has "000" pattern
    with InvalidPattern pattern;;
  Ok tt.

Definition is_parameter_char (c : ascii) : bool :=
  is_ascii_lowercase c || is_ascii_digit c || Ascii.eqb c "_"%char.

Definition validate_parameter (name : string) : result RouteError unit :=
  fail_if (slen name =? 0) || (MAX_PARAMETER_NAME_BYTES <? slen name) with InvalidParameter name;;
  match name with
  | EmptyString => Err (InvalidParameter name)
  | String first rest =>
      fail_if negb (is_ascii_lowercase first) || negb (string_all is_parameter_char rest) with InvalidParameter name;;
      Ok tt
  end.

Definition one_to_nine (s : string) : bool :=
  match s with String c EmptyString => in_range "1" "9" c | _ => false end.

Definition device_suffix (prefix reserved : string) : bool :=
  match strip_prefix prefix reserved with Some suffix => one_to_nine suffix | None => false end.

Definition validate_portable_literal (literal : string) : result RouteError unit :=
  fail_if (slen literal =? 0) || (255 <? slen literal) || has_last "." literal || has_last " " literal
          || any_control literal
          || negb (string_all (fun c => negb (char_in ["000"; "<"; ">"; ":"; "034"; "|"; "?"; "*"]%char c)) literal)
    with InvalidSegment literal;;
  let stem := match split_on "." literal with s :: _ => s | [] => literal end in
  let reserved := portable_case_key stem in
  fail_if existsb (String.eqb reserved) ["con"; "prn"; "aux"; "nul"] || device_suffix "com" reserved
          || device_suffix "lpt" reserved
    with InvalidSegment literal;;
  Ok tt.

Definition parse_segment (raw : string) (index count : nat) : result RouteError Segment :=
  fail_if String.eqb raw "" || String.eqb raw "." || String.eqb raw ".." with InvalidSegment raw;;
  match strip_prefix ":" raw with
  | Some name =>
      match strip_last "?" name with
      | Some optional =>
          _ ← validate_parameter optional;
          fail_if negb (S index =? count)%nat with OptionalMustBeTerminal optional;;
          Ok (OptionalParameter optional)
      | None => _ ← validate_parameter name; Ok (Param name)
      end
  | None =>
  match strip_prefix "*" raw with
  | Some name =>
      _ ← validate_parameter name;
      fail_if negb (S index =? count)%nat with CatchAllMustBeTerminal name;;
      Ok (CatchAll name)
  | None =>
      if starts_with "(" raw || has_last ")" raw then
        match strip_prefix "(" raw ≫= strip_last ")" with
        | None => Err (InvalidGroup raw)
        | Some name => _ ← validate_parameter name; Ok (Group name)
        end
      else
        fail_if starts_with ":" raw || starts_with "*" raw || str_has "?" raw || str_has "(" raw || str_has ")" raw
                || any_control raw || any_whitespace raw
          with InvalidSegment raw;;
        let normalized := nfc raw in
        _ ← validate_portable_literal normalized;
        Ok (Literal normalized)
  end
  end.

Definition parameter_name (s : Segment) : option string :=
  match s with
  | Param n | OptionalParameter n | CatchAll n => Some n
  | Literal _ | Group _ => None
  end.

(** A group has no rendering in the code, which never asks for one. *)
Definition render_segment (s : Segment) : string :=
  match s with
  | Literal value => value
  | Param n => ":" ++ n
  | OptionalParameter n => ":" ++ n ++ "?"
  | CatchAll n => "*" ++ n
  | Group _ => ""
  end.

(** The loop of [parse]: the segments and the parameter names so far. *)
Fixpoint parse_loop (raws : list string) (index count : nat) (names : gset string)
    : result RouteError (list Segment) :=
  match raws with
  | [] => Ok []
  | raw :: raws =>
      segment ← parse_segment raw index count;
      match parameter_name segment with
      | Some n =>
          fail_if bool_decide (n ∈ names) with DuplicateParameter n;;
          rest ← parse_loop raws (S index) count ({[n]} ∪ names); Ok (segment :: rest)
      | None => rest ← parse_loop raws (S index) count names; Ok (segment :: rest)
      end
  end.

Definition render_path (parts : list string) : string :=
  match parts with [] => "/" | _ => "/" ++ join_slash parts end.

Definition parse (a : string) : result RouteError RoutePattern :=
  _ ← validate_pattern_envelope a;
  if String.eqb a "/" then Ok (mkPattern a "/" [])
  else
    let raws := split_slash (tail a) in
    fail_if MAX_ROUTE_SEGMENTS <? blen raws with TooManySegments (blen raws);;
    segments ← parse_loop raws 0 (length raws) ∅;
    Ok (mkPattern a (render_path (map render_segment (base.filter consumes_path segments))) segments).

(** ** Shapes and matching *)

Definition path_segments (p : RoutePattern) : list Segment := base.filter consumes_path (segments p).

Definition shape_key (s : Segment) : string :=
  match s with
  | Literal value => "=" ++ portable_case_key value
  | Param _ => ":"
  | OptionalParameter _ => ":"
  | CatchAll _ => "*"
  | Group _ => ""
  end.

Definition shape_keys (p : RoutePattern) : list string :=
  let full := map shape_key (path_segments p) in
  ("/" ++ join_slash full)
  :: match last (path_segments p) with
     | Some (OptionalParameter _) => [render_path (take (length full - 1) full)]
     | _ => []
     end.

Definition specificity (p : RoutePattern) : list N := map segment_specificity (path_segments p).

(** The loop of [match_admitted], on the input that is left. *)
Fixpoint match_segments (segs : list Segment) (input : list string) (parameters : gmap string string)
    : option (gmap string string) :=
  match segs with
  | [] => match input with [] => Some parameters | _ => None end
  | Literal expected :: segs =>
      match input with
      | value :: input => if String.eqb value expected then match_segments segs input parameters else None
      | [] => None
      end
  | Param n :: segs =>
      match input with
      | value :: input => match_segments segs input (<[n := value]> parameters)
      | [] => None
      end
  | OptionalParameter n :: segs =>
      match input with
      | value :: input => match_segments segs input (<[n := value]> parameters)
      | [] => match_segments segs [] parameters
      end
  | CatchAll n :: segs =>
      match segs, input with
      | [], _ :: _ => Some (<[n := join_slash input]> parameters)
      | _, _ => None
      end
  | Group _ :: _ => None
  end.

Definition path_input (path : string) : list string :=
  if String.eqb path "/" then [] else split_slash (tail path).

Definition match_admitted (p : RoutePattern) (path : string) : option (gmap string string) :=
  match_segments (path_segments p) (path_input path) ∅.

End grammar.

(** ** The reference: instantiating a pattern *)

(** The path segments a pattern denotes under an assignment of its parameters: an
    optional parameter may be missing, a catch-all stands for a whole suffix. *)
Fixpoint instantiate (segs : list Segment) (ps : gmap string string) : option (list string) :=
  match segs with
  | [] => Some []
  | Literal value :: segs => rest ← instantiate segs ps; Some (value :: rest)
  | Param n :: segs => value ← ps !! n; rest ← instantiate segs ps; Some (value :: rest)
  | OptionalParameter n :: segs =>
      rest ← instantiate segs ps; Some (match ps !! n with Some value => value :: rest | None => rest end)
  | CatchAll n :: segs => value ← ps !! n; rest ← instantiate segs ps; Some (split_slash value ++ rest)%list
  | Group _ :: segs => instantiate segs ps
  end.

Definition names (segs : list Segment) : list string := omap parameter_name segs.

Definition terminal (s : Segment) : bool := match s with OptionalParameter _ | CatchAll _ => true | _ => false end.

Fixpoint terminal_last (segs : list Segment) : Prop :=
  match segs with
  | [] => True
  | s :: rest => (terminal s = true -> rest = []) /\ terminal_last rest
  end.

(** What [parse] guarantees of the segments that consume the path. *)
Definition pattern_ok (p : RoutePattern) : Prop :=
  NoDup (names (path_segments p)) /\ terminal_last (path_segments p)
  /\ Forall (fun s => consumes_path s = true) (path_segments p).

(** ** Lemmas *)

Definition slash_free (s : string) : Prop := str_has "/" s = false.

Lemma split_slash_cons c s :
  split_slash (String c s) =
    if Ascii.eqb c "/" then "" :: split_slash s
    else match split_slash s with p :: ps => String c p :: ps | [] => [String c ""] end.
Proof. reflexivity. Qed.

Lemma split_slash_not_nil s : split_slash s <> [].
Proof. destruct s as [|c s]; [done|]. rewrite split_slash_cons. destruct (Ascii.eqb c "/"); [done|]. by destruct (split_slash s). Qed.

Lemma str_has_cons c d s : str_has c (String d s) = Ascii.eqb d c || str_has c s.
Proof. unfold str_has, string_all. cbn. by destruct (Ascii.eqb d c). Qed.

Lemma split_slash_free s : Forall slash_free (split_slash s).
Proof.
  induction s as [|c s IH]; [by repeat constructor|]. rewrite split_slash_cons.
  destruct (Ascii.eqb c "/") eqn:Hc; [by constructor|].
  destruct IH as [|p ps Hp Hps]; constructor; try done; unfold slash_free in *; rewrite str_has_cons, Hc; done.
Qed.

Lemma join_slash_cons p q ps : join_slash (p :: q :: ps) = p ++ "/" ++ join_slash (q :: ps).
Proof. reflexivity. Qed.

Lemma join_split s : join_slash (split_slash s) = s.
Proof.
  induction s as [|c s IH]; [done|]. rewrite split_slash_cons. destruct (split_slash s) as [|p ps] eqn:Hs;
    [by destruct (split_slash_not_nil s)|].
  destruct (Ascii.eqb_spec c "/") as [->|_].
  - rewrite join_slash_cons, IH. done.
  - destruct ps as [|q ps]; [cbn in IH |- *; by rewrite IH|].
    change (String c (join_slash (p :: q :: ps)) = String c s). by rewrite IH.
Qed.

Lemma split_append_free p s : slash_free p -> split_slash (p ++ "/" ++ s) = p :: split_slash s.
Proof.
  induction p as [|c p IH]; intros Hp; [done|]. unfold slash_free in *. rewrite str_has_cons in Hp.
  apply orb_false_iff in Hp as [Hc Hp]. change (split_slash (String c (p ++ "/" ++ s)) = String c p :: split_slash s).
  rewrite split_slash_cons, Hc, IH by done. done.
Qed.

Lemma split_free p : slash_free p -> split_slash p = [p].
Proof.
  induction p as [|c p IH]; intros Hp; [done|]. unfold slash_free in *. rewrite str_has_cons in Hp.
  apply orb_false_iff in Hp as [Hc Hp]. by rewrite split_slash_cons, Hc, IH.
Qed.

Lemma split_join ps : ps <> [] -> Forall slash_free ps -> split_slash (join_slash ps) = ps.
Proof.
  intros Hne Hps. induction Hps as [|p ps Hp Hps IH]; [done|]. destruct ps as [|q ps]; [by apply split_free|].
  rewrite join_slash_cons, split_append_free by done. f_equal. by apply IH.
Qed.

Lemma path_input_free path : Forall slash_free (path_input path).
Proof. unfold path_input. destruct (String.eqb path "/"); [constructor|apply split_slash_free]. Qed.

(** The matcher inverts [instantiate] and leaves the other parameters alone. *)
Definition inverts (segs : list Segment) : Prop :=
  forall input acc ps, Forall slash_free input -> (forall n, n ∈ names segs -> acc !! n = None) ->
    match_segments segs input acc = Some ps <->
    instantiate segs ps = Some input /\ forall n, n ∉ names segs -> ps !! n = acc !! n.

Lemma inverts_nil : inverts [].
Proof.
  intros input acc ps _ _. destruct input as [|v input]; cbn; [|naive_solver]. split; [by intros [= ->]|].
  intros [_ Hp]. f_equal. apply map_eq. intros n. symmetry. apply Hp. apply not_elem_of_nil.
Qed.

Lemma inverts_literal e segs : inverts segs -> inverts (Literal e :: segs).
Proof.
  intros IH input acc ps Hi Hacc. change (names (Literal e :: segs)) with (names segs) in *.
  cbn [match_segments instantiate]. destruct input as [|v input].
  - split; [done|]. intros [Hm _]. by destruct (instantiate segs ps).
  - apply Forall_cons in Hi as [_ Hi]. destruct (String.eqb_spec v e) as [->|Hne].
    + rewrite (IH input acc ps Hi Hacc). destruct (instantiate segs ps); cbn; naive_solver.
    + split; [done|]. intros [Hm _]. destruct (instantiate segs ps); cbn in Hm; congruence.
Qed.

(** One value bound on the way. *)
Lemma bound_once n v names (acc ps : gmap string string) :
  n ∉ names ->
  (forall m, m ∉ names -> ps !! m = <[n := v]> acc !! m) <-> ps !! n = Some v /\ forall m, m ∉ n :: names -> ps !! m = acc !! m.
Proof.
  intros Hn. split.
  - intros Hp. split; [by rewrite Hp, lookup_insert_eq|]. intros m [Hne Hm]%not_elem_of_cons.
    by rewrite (Hp m Hm), lookup_insert_ne.
  - intros [Hv Hp] m Hm. destruct (decide (n = m)) as [<-|Hne]; [by rewrite lookup_insert_eq|].
    rewrite lookup_insert_ne by done. apply Hp, not_elem_of_cons. naive_solver.
Qed.

Lemma inverts_param n segs : n ∉ names segs -> inverts segs -> inverts (Param n :: segs).
Proof.
  intros Hn IH input acc ps Hi Hacc. change (names (Param n :: segs)) with (n :: names segs) in *.
  cbn [match_segments instantiate]. destruct input as [|v input].
  - split; [done|]. intros [Hm _]. destruct (ps !! n); [|done]. by destruct (instantiate segs ps).
  - apply Forall_cons in Hi as [_ Hi].
    rewrite (IH input (<[n:=v]> acc) ps Hi), (bound_once n v _ _ _ Hn);
      [|intros m Hm; rewrite lookup_insert_ne by (by intros ->); apply Hacc; by right].
    destruct (ps !! n), (instantiate segs ps); cbn; naive_solver.
Qed.

Lemma inverts_optional n : inverts [OptionalParameter n].
Proof.
  intros input acc ps Hi Hacc. change (names [OptionalParameter n]) with [n] in *. cbn [match_segments instantiate].
  destruct input as [|v [|w input]].
  - specialize (Hacc n ltac:(by left)). split.
    + intros [= <-]. cbn. by rewrite Hacc.
    + cbn. destruct (ps !! n) eqn:Hn; [naive_solver|]. intros [_ Hp]. f_equal. apply map_eq. intros m.
      destruct (decide (m = n)) as [->|Hne]; [congruence|]. symmetry. apply Hp. by intros ->%list_elem_of_singleton.
  - pose proof (bound_once n v [] acc ps (not_elem_of_nil n)) as Hb.
    pose proof (inverts_nil [] (<[n:=v]> acc) ps ltac:(constructor) ltac:(set_solver)) as Hnil.
    rewrite Hnil. cbn. unfold names. cbn. rewrite Hb. destruct (ps !! n); naive_solver.
  - split; [done|]. intros [Hm _]. cbn in Hm. by destruct (ps !! n).
Qed.

Lemma inverts_catch_all n : inverts [CatchAll n].
Proof.
  intros input acc ps Hi Hacc. change (names [CatchAll n]) with [n] in *. cbn [match_segments instantiate].
  destruct input as [|v input].
  - split; [done|]. cbn. destruct (ps !! n) as [w|]; [|naive_solver]. intros [Hm _]. cbn in Hm. rewrite app_nil_r in Hm.
    injection Hm as Hm. by destruct (split_slash_not_nil w).
  - pose proof (bound_once n (join_slash (v :: input)) [] acc ps (not_elem_of_nil n)) as Hb.
    pose proof (split_join (v :: input) ltac:(done) Hi) as Hsplit.
    assert (Heq : Some (<[n := join_slash (v :: input)]> acc) = Some ps <->
                  forall m, m ∉ [] -> ps !! m = <[n := join_slash (v :: input)]> acc !! m).
    { split; [by intros [= ->]|]. intros Hp. f_equal. apply map_eq. intros m. symmetry. apply Hp, not_elem_of_nil. }
    rewrite Heq, Hb. destruct (ps !! n) as [w|]; [|naive_solver]. cbn [mbind option_bind]. rewrite app_nil_r. split.
    + intros [[= ->] Hp]. by rewrite Hsplit.
    + intros [[= Hw] Hp]. split; [|done]. f_equal. by rewrite <-Hw, join_split.
Qed.

Lemma inverts_all segs :
  NoDup (names segs) -> terminal_last segs -> Forall (fun s => consumes_path s = true) segs -> inverts segs.
Proof.
  intros Hnd Ht Hc. induction Hc as [|s segs Hs Hc IH]; [apply inverts_nil|]. destruct Ht as [Ht Htl].
  destruct s as [e|n|n|n|g]; [| | | |done].
  - by apply inverts_literal, IH.
  - apply NoDup_cons in Hnd as [Hn Hnd]. by apply inverts_param, IH.
  - rewrite (Ht eq_refl). apply inverts_optional.
  - rewrite (Ht eq_refl). apply inverts_catch_all.
Qed.

(** ** What [parse] guarantees *)

Section parsing.
Context `{Unicode}.

Lemma parse_segment_terminal raw i count s :
  parse_segment raw i count = Ok s -> terminal s = true -> S i = count.
Proof.
  unfold parse_segment. intros Hp Ht. destruct (String.eqb raw "" || _ || _); [done|].
  destruct (strip_prefix ":" raw) as [n|].
  - destruct (strip_last "?" n).
    + destruct (validate_parameter s0); [|done]. cbn [mbind result_bind] in Hp. by destruct (Nat.eqb_spec (S i) count).
    + destruct (validate_parameter n); [|done]. cbn [mbind result_bind] in Hp. by injection Hp as <-.
  - destruct (strip_prefix "*" raw) as [n|].
    + destruct (validate_parameter n); [|done]. cbn [mbind result_bind] in Hp. by destruct (Nat.eqb_spec (S i) count).
    + destruct (starts_with "(" raw || has_last ")" raw).
      * destruct (strip_prefix "(" raw ≫= strip_last ")"); [|done]. destruct (validate_parameter s0); [|done].
        cbn [mbind result_bind] in Hp. by injection Hp as <-.
      * destruct (_ || _) in Hp; [done|]. destruct (validate_portable_literal (nfc raw)); [|done].
        cbn [mbind result_bind] in Hp. by injection Hp as <-.
Qed.

Lemma parse_loop_spec raws i count seen segs :
  parse_loop raws i count seen = Ok segs -> (i + length raws = count)%nat ->
  NoDup (names segs) /\ (forall n, n ∈ names segs -> n ∉ seen) /\ terminal_last segs /\ length segs = length raws.
Proof.
  revert i seen segs. induction raws as [|raw raws IH]; intros i seen segs Hp Hlen.
  - injection Hp as <-. split_and!; [apply NoDup_nil_2|set_solver|done|done].
  - cbn [parse_loop] in Hp. destruct (parse_segment raw i count) as [s|] eqn:Hs; [|done].
    cbn [mbind result_bind] in Hp. cbn in Hlen.
    assert (Hrest : forall seen' rest, parse_loop raws (S i) count seen' = Ok rest ->
              NoDup (names rest) /\ (forall n, n ∈ names rest -> n ∉ seen') /\ terminal_last (s :: rest)
              /\ length (s :: rest) = length (raw :: raws)).
    { intros seen' rest Hr. destruct (IH (S i) seen' rest Hr ltac:(lia)) as (H1 & H2 & H3 & H4).
      split_and!; try done; [|cbn; lia]. split; [|done]. intros Ht.
      apply (parse_segment_terminal _ _ _ _ Hs) in Ht. apply nil_length_inv. lia. }
    destruct (parameter_name s) as [n|] eqn:Hn.
    + destruct (bool_decide (n ∈ seen)) eqn:Hin; [done|]. apply bool_decide_eq_false in Hin.
      destruct (parse_loop raws (S i) count ({[n]} ∪ seen)) as [rest|] eqn:Hr; [|done]. injection Hp as <-.
      destruct (Hrest _ _ Hr) as (H1 & H2 & H3 & H4).
      assert (Hnames : names (s :: rest) = n :: names rest) by (unfold names; cbn; by rewrite Hn).
      rewrite Hnames. split_and!; try done; [|set_solver]. apply NoDup_cons. split; [|done].
      intros Hbad. apply (H2 n Hbad). set_solver.
    + destruct (parse_loop raws (S i) count seen) as [rest|] eqn:Hr; [|done]. injection Hp as <-.
      destruct (Hrest _ _ Hr) as (H1 & H2 & H3 & H4).
      assert (Hnames : names (s :: rest) = names rest) by (unfold names; cbn; by rewrite Hn).
      rewrite Hnames. by split_and!.
Qed.

Lemma names_filter segs : names (base.filter consumes_path segs) = names segs.
Proof.
  induction segs as [|s segs IH]; [done|]. rewrite filter_cons. destruct (decide (consumes_path s)) as [Hs|Hs].
  - unfold names in *. cbn. by rewrite IH.
  - rewrite IH. destruct s; cbn in Hs; try done; by destruct Hs.
Qed.

Lemma terminal_last_filter segs : terminal_last segs -> terminal_last (base.filter consumes_path segs).
Proof.
  induction segs as [|s segs IH]; [done|]. intros [Ht Htl]. rewrite filter_cons.
  destruct (decide (consumes_path s)); [|by apply IH]. split; [|by apply IH]. intros H'. by rewrite (Ht H').
Qed.

Lemma parse_ok a p : parse a = Ok p -> pattern_ok p /\ authored p = a.
Proof.
  unfold parse. destruct (validate_pattern_envelope a) as [[]|]; [|done]. cbn [mbind result_bind].
  destruct (String.eqb a "/"); [intros [= <-]; split; [|done]; split_and!; [apply NoDup_nil_2|done|constructor]|].
  destruct (_ <? _); [done|]. destruct (parse_loop _ _ _ _) as [segs|] eqn:Hl; [|done]. intros [= <-]. split; [|done].
  apply parse_loop_spec in Hl as (H1 & _ & H3 & _); [|done]. unfold pattern_ok, path_segments. cbn [segments].
  rewrite names_filter. split_and!; [done|by apply terminal_last_filter|].
  apply Forall_forall. intros s Hs. apply list_elem_of_filter in Hs as [Hs _]. by destruct (consumes_path s).
Qed.

End parsing.

(** ** Properties *)

(** C33. Matching inverts instantiation: for a pattern that parses, a path matches
    with the parameters [ps] exactly when putting [ps] into the pattern gives the
    segments of the path and [ps] binds no other name. In particular the match is
    unique, a catch-all takes the whole suffix and an optional parameter one
    segment or none. *)
Theorem match_admitted_exact `{Unicode} a p path ps :
  parse a = Ok p ->
  match_admitted p path = Some ps <->
  instantiate (path_segments p) ps = Some (path_input path) /\ forall n, n ∉ names (path_segments p) -> ps !! n = None.
Proof.
  intros [(Hnd & Ht & Hc) _]%parse_ok. unfold match_admitted.
  rewrite (inverts_all _ Hnd Ht Hc (path_input path) ∅ ps (path_input_free path));
    [|intros; apply lookup_empty]. split; intros [Hi Hn]; (split; [exact Hi|]); intros n Hni.
  - by rewrite (Hn n Hni), lookup_empty.
  - by rewrite (Hn n Hni), lookup_empty.
Qed.

(** ** A concrete pattern *)

Module PatternSample.

Definition ascii_unicode : Unicode := {| nfc := fun s => s; nfkc := fun s => s; case_fold := fun s => s |}.

Definition files : RoutePattern :=
  mkPattern "/(app)/files/:owner/*path" "/files/:owner/*path" [Group "app"; Literal "files"; Param "owner"; CatchAll "path"].

End PatternSample.

#[local] Existing Instances PatternSample.ascii_unicode.

Lemma match_admitted_exact_witness :
  match_admitted PatternSample.files "/files/ana/a/b.txt" = Some (<["path" := "a/b.txt"]> (<["owner" := "ana"]> ∅)) <->
  instantiate (path_segments PatternSample.files) (<["path" := "a/b.txt"]> (<["owner" := "ana"]> ∅))
    = Some ["files"; "ana"; "a"; "b.txt"] /\
  forall n, n ∉ ["owner"; "path"] -> (<["path" := "a/b.txt"]> (<["owner" := "ana"]> ∅) : gmap string string) !! n = None.
Proof.
  apply (match_admitted_exact "/(app)/files/:owner/*path" PatternSample.files "/files/ana/a/b.txt").
  vm_compute. reflexivity.
Defined.
