(* ===== verification/Router.v ===== *)
(** * Router: sealed route graphs ([pliego-router/src/lib.rs], second half)

    Resources, scopes and routes with their builders, the resolution of scope
    chains, [RouteGraphBuilder::seal] with its admission checks, its orders and its
    digest, and [RouteGraph::resolve]. *)

From S2P Require Import Prelude Request Pattern.

Local Open Scope string_scope.
Local Open Scope N_scope.

Definition MAX_ROUTE_MIDDLEWARE : N := 32.
Definition MAX_ERROR_BOUNDARIES : N := 16.
Definition MAX_ROUTE_LOADERS : N := 32.
Definition MAX_ROUTE_ACTIONS : N := 16.
Definition MAX_ROUTE_RESOURCES : N := 32.
Definition MAX_RESOURCE_CAPABILITIES : N := 32.
Definition MAX_SCOPE_DEPTH : N := 16.
Definition DEFAULT_MAX_SCOPES : N := 1024.
Definition DEFAULT_MAX_ROUTES : N := 4096.

(** ** Capabilities and identifiers *)

Inductive MiddlewareCapability : Type := RewritePath | Redirect | Reject | ReadBody | MutateResponseHeaders.

#[export] Instance capability_eq_dec : EqDecision MiddlewareCapability.
Proof. solve_decision. Defined.

Definition capability_str (c : MiddlewareCapability) : string :=
  match c with
  | RewritePath => "rewrite-path"
  | Redirect => "redirect"
  | Reject => "reject"
  | ReadBody => "read-body"
  | MutateResponseHeaders => "mutate-response-headers"
  end.

(** The [BTreeSet] of capabilities, as its characteristic function. *)
Definition MiddlewareCapabilities : Type := MiddlewareCapability -> bool.

Definition none : MiddlewareCapabilities := fun _ => false.

Definition allowing (cs : MiddlewareCapabilities) (c : MiddlewareCapability) : MiddlewareCapabilities :=
  fun d => bool_decide (d = c) || cs d.

(** [iter], in declaration order. *)
Definition capabilities_iter (cs : MiddlewareCapabilities) : list MiddlewareCapability :=
  base.filter (fun c => cs c = true) [RewritePath; Redirect; Reject; ReadBody; MutateResponseHeaders].

Definition is_id_char (c : ascii) : bool := is_ascii_lowercase c || is_ascii_digit c || Ascii.eqb c "-"%char.

(** The grammar [validate_route_id] and [validate_data_id] share, up to a length. *)
Definition kebab (maximum : N) (id : string) : bool :=
  negb (slen id =? 0) && (slen id <=? maximum)
  && match id with
     | EmptyString => false
     | String first rest => is_ascii_lowercase first && string_all is_id_char rest
     end
  && negb (has_last "-" id) && negb (str_contains "--" id).

Definition validate_route_id (id : string) : result RouteError unit :=
  fail_if negb (kebab MAX_ROUTE_ID_BYTES id) with InvalidRouteId id;;
  Ok tt.

Definition validate_data_id (e : RouteError) (id : string) : result RouteError unit :=
  fail_if negb (kebab 96 id) with e;;
  Ok tt.

Inductive BehaviorKind : Type := Middleware | ErrorBoundary.

Definition validate_behavior_id (id : string) (k : BehaviorKind) : result RouteError unit :=
  match validate_route_id id with
  | Ok _ => Ok tt
  | Err _ => Err (match k with Middleware => InvalidMiddlewareId id | ErrorBoundary => InvalidErrorBoundaryId id end)
  end.

(** The shape of every bounded, duplicate-free push: [len() >= maximum], then
    [contains], then [push]. *)
Definition push_unique (maximum : N) (too_many duplicate : RouteError) (xs : list string) (id : string)
    : result RouteError (list string) :=
  fail_if maximum <=? blen xs with too_many;;
  fail_if bool_decide (id ∈ xs) with duplicate;;
  Ok (xs ++ [id])%list.

(** ** Resources, scopes and routes *)

Record RouteResourceSpec : Type := mkResource { resource_id : string; capabilities : gset string }.

Definition resource_new (id : string) : result RouteError RouteResourceSpec :=
  _ ← validate_data_id (InvalidResourceId id) id; Ok (mkResource id ∅).

Definition requiring (r : RouteResourceSpec) (c : string) : result RouteError RouteResourceSpec :=
  _ ← validate_data_id (InvalidResourceCapability c) c;
  fail_if MAX_RESOURCE_CAPABILITIES <=? N.of_nat (size (capabilities r))
    with TooManyResourceCapabilities MAX_RESOURCE_CAPABILITIES;;
  Ok (mkResource (resource_id r) ({[c]} ∪ capabilities r)).

Inductive RouteScopeKind : Type := GroupScope | LayoutScope.

#[export] Instance scope_kind_eq_dec : EqDecision RouteScopeKind.
Proof. solve_decision. Defined.

Definition scope_kind_str (k : RouteScopeKind) : string := match k with GroupScope => "group" | LayoutScope => "layout" end.

Record RouteScopeSpec : Type := mkScope {
  scope_id : string; scope_kind : RouteScopeKind; parent : option string; scope_middleware : list string;
  scope_error_boundaries : list string; scope_loaders : list string; scope_resources : list RouteResourceSpec }.

Definition validate_scope_id (id : string) : result RouteError unit :=
  map_err (fun _ => InvalidScopeId id) (validate_route_id id).

Definition scope_new (id : string) (k : RouteScopeKind) : result RouteError RouteScopeSpec :=
  _ ← validate_scope_id id; Ok (mkScope id k None [] [] [] []).

Definition scope_parent (s : RouteScopeSpec) (id : string) : result RouteError RouteScopeSpec :=
  _ ← validate_scope_id id;
  Ok (mkScope (scope_id s) (scope_kind s) (Some id) (scope_middleware s) (scope_error_boundaries s) (scope_loaders s)
        (scope_resources s)).

Definition push_middleware (xs : list string) (id : string) : result RouteError (list string) :=
  _ ← validate_behavior_id id Middleware;
  push_unique MAX_ROUTE_MIDDLEWARE (TooManyMiddleware MAX_ROUTE_MIDDLEWARE) (DuplicateMiddleware id) xs id.

Definition push_error_boundary (xs : list string) (id : string) : result RouteError (list string) :=
  _ ← validate_behavior_id id ErrorBoundary;
  push_unique MAX_ERROR_BOUNDARIES (TooManyErrorBoundaries MAX_ERROR_BOUNDARIES) (DuplicateErrorBoundary id) xs id.

Definition push_loader (xs : list string) (id : string) : result RouteError (list string) :=
  _ ← validate_data_id (InvalidLoaderId id) id;
  push_unique MAX_ROUTE_LOADERS (TooManyLoaders MAX_ROUTE_LOADERS) (DuplicateLoader id) xs id.

Definition push_action (xs : list string) (id : string) : result RouteError (list string) :=
  _ ← validate_data_id (InvalidActionId id) id;
  push_unique MAX_ROUTE_ACTIONS (TooManyActions MAX_ROUTE_ACTIONS) (DuplicateAction id) xs id.

Definition push_resource (rs : list RouteResourceSpec) (r : RouteResourceSpec) : result RouteError (list RouteResourceSpec) :=
  fail_if MAX_ROUTE_RESOURCES <=? blen rs with TooManyResources MAX_ROUTE_RESOURCES;;
  fail_if existsb (fun current => String.eqb (resource_id current) (resource_id r)) rs
    with DuplicateResource (resource_id r);;
  Ok (rs ++ [r])%list.

Definition scope_with_middleware (s : RouteScopeSpec) (id : string) : result RouteError RouteScopeSpec :=
  xs ← push_middleware (scope_middleware s) id;
  Ok (mkScope (scope_id s) (scope_kind s) (parent s) xs (scope_error_boundaries s) (scope_loaders s) (scope_resources s)).

Definition scope_with_error_boundary (s : RouteScopeSpec) (id : string) : result RouteError RouteScopeSpec :=
  xs ← push_error_boundary (scope_error_boundaries s) id;
  Ok (mkScope (scope_id s) (scope_kind s) (parent s) (scope_middleware s) xs (scope_loaders s) (scope_resources s)).

Definition scope_with_loader (s : RouteScopeSpec) (id : string) : result RouteError RouteScopeSpec :=
  xs ← push_loader (scope_loaders s) id;
  Ok (mkScope (scope_id s) (scope_kind s) (parent s) (scope_middleware s) (scope_error_boundaries s) xs (scope_resources s)).

Definition scope_with_resource (s : RouteScopeSpec) (r : RouteResourceSpec) : result RouteError RouteScopeSpec :=
  rs ← push_resource (scope_resources s) r;
  Ok (mkScope (scope_id s) (scope_kind s) (parent s) (scope_middleware s) (scope_error_boundaries s) (scope_loaders s) rs).

Record RouteSpec : Type := mkRoute {
  id : string; method : RouteMethod; pattern : RoutePattern; scope : option string; middleware : list string;
  error_boundaries : list string; loaders : list string; actions : list string; cache_policy : option string;
  resources : list RouteResourceSpec }.

Definition route_new `{Unicode} (i : string) (m : RouteMethod) (p : string) : result RouteError RouteSpec :=
  _ ← validate_route_id i;
  p ← parse p;
  Ok (mkRoute i m p None [] [] [] [] None []).

Definition route_scope (r : RouteSpec) (i : string) : result RouteError RouteSpec :=
  _ ← validate_scope_id i;
  Ok (mkRoute (id r) (method r) (pattern r) (Some i) (middleware r) (error_boundaries r) (loaders r) (actions r)
        (cache_policy r) (resources r)).

Definition route_with_middleware (r : RouteSpec) (i : string) : result RouteError RouteSpec :=
  xs ← push_middleware (middleware r) i;
  Ok (mkRoute (id r) (method r) (pattern r) (scope r) xs (error_boundaries r) (loaders r) (actions r) (cache_policy r)
        (resources r)).

Definition route_with_error_boundary (r : RouteSpec) (i : string) : result RouteError RouteSpec :=
  xs ← push_error_boundary (error_boundaries r) i;
  Ok (mkRoute (id r) (method r) (pattern r) (scope r) (middleware r) xs (loaders r) (actions r) (cache_policy r)
        (resources r)).

Definition route_with_loader (r : RouteSpec) (i : string) : result RouteError RouteSpec :=
  xs ← push_loader (loaders r) i;
  Ok (mkRoute (id r) (method r) (pattern r) (scope r) (middleware r) (error_boundaries r) xs (actions r) (cache_policy r)
        (resources r)).

Definition route_with_action (r : RouteSpec) (i : string) : result RouteError RouteSpec :=
  xs ← push_action (actions r) i;
  Ok (mkRoute (id r) (method r) (pattern r) (scope r) (middleware r) (error_boundaries r) (loaders r) xs (cache_policy r)
        (resources r)).

Definition route_cache_policy (r : RouteSpec) (i : string) : result RouteError RouteSpec :=
  _ ← validate_data_id (InvalidCachePolicyId i) i;
  Ok (mkRoute (id r) (method r) (pattern r) (scope r) (middleware r) (error_boundaries r) (loaders r) (actions r) (Some i)
        (resources r)).

Definition route_with_resource (r : RouteSpec) (x : RouteResourceSpec) : result RouteError RouteSpec :=
  rs ← push_resource (resources r) x;
  Ok (mkRoute (id r) (method r) (pattern r) (scope r) (middleware r) (error_boundaries r) (loaders r) (actions r)
        (cache_policy r) rs).

(** ** The graph builder *)

Record RouteGraphBuilder : Type := mkBuilder {
  max_routes : N; builder_routes : list RouteSpec; builder_scopes : list RouteScopeSpec;
  builder_pre_route_middleware : list string; builder_capabilities : gmap string MiddlewareCapabilities;
  builder_error_boundaries : list string }.

Definition builder_new : RouteGraphBuilder := mkBuilder DEFAULT_MAX_ROUTES [] [] [] ∅ [].

Definition with_max_routes (n : N) : result RouteError RouteGraphBuilder :=
  fail_if (n =? 0) || (DEFAULT_MAX_ROUTES <? n) with InvalidRouteLimit n;;
  Ok (mkBuilder n [] [] [] ∅ []).

Definition declare_middleware (b : RouteGraphBuilder) (i : string) (cs : MiddlewareCapabilities)
    : result RouteError RouteGraphBuilder :=
  _ ← validate_behavior_id i Middleware;
  match builder_capabilities b !! i with
  | Some _ => Err (DuplicateMiddlewareDeclaration i)
  | None => Ok (mkBuilder (max_routes b) (builder_routes b) (builder_scopes b) (builder_pre_route_middleware b)
                  (<[i := cs]> (builder_capabilities b)) (builder_error_boundaries b))
  end.

Definition pre_route_middleware (b : RouteGraphBuilder) (i : string) : result RouteError RouteGraphBuilder :=
  xs ← push_middleware (builder_pre_route_middleware b) i;
  Ok (mkBuilder (max_routes b) (builder_routes b) (builder_scopes b) xs (builder_capabilities b)
        (builder_error_boundaries b)).

Definition builder_error_boundary (b : RouteGraphBuilder) (i : string) : result RouteError RouteGraphBuilder :=
  xs ← push_error_boundary (builder_error_boundaries b) i;
  Ok (mkBuilder (max_routes b) (builder_routes b) (builder_scopes b) (builder_pre_route_middleware b)
        (builder_capabilities b) xs).

Definition builder_scope (b : RouteGraphBuilder) (s : RouteScopeSpec) : RouteGraphBuilder :=
  mkBuilder (max_routes b) (builder_routes b) (builder_scopes b ++ [s])%list (builder_pre_route_middleware b)
    (builder_capabilities b) (builder_error_boundaries b).

Definition builder_route (b : RouteGraphBuilder) (r : RouteSpec) : RouteGraphBuilder :=
  mkBuilder (max_routes b) (builder_routes b ++ [r])%list (builder_scopes b) (builder_pre_route_middleware b)
    (builder_capabilities b) (builder_error_boundaries b).

(** ** Orders *)

(** [Ordering::then_with]. *)
Definition then_with (c d : comparison) : comparison := match c with Eq => d | _ => c end.

(** [Vec<u8>::cmp]. *)
Fixpoint compare_list (xs ys : list N) : comparison :=
  match xs, ys with
  | [], [] => Eq
  | [], _ :: _ => Lt
  | _ :: _, [] => Gt
  | x :: xs, y :: ys => then_with (N.compare x y) (compare_list xs ys)
  end.

Definition canonical_route_order (l r : RouteSpec) : comparison :=
  then_with (String.compare (method_str (method l)) (method_str (method r)))
    (then_with (String.compare (authored (pattern l)) (authored (pattern r))) (String.compare (id l) (id r))).

Definition match_order (l r : RouteSpec) : comparison :=
  then_with (compare_list (specificity (pattern r)) (specificity (pattern l)))
    (then_with (String.compare (canonical (pattern l)) (canonical (pattern r))) (String.compare (id l) (id r))).

Definition scope_order (l r : RouteScopeSpec) : comparison := String.compare (scope_id l) (scope_id r).

(** [sort_by], which is stable. *)
Definition at_most {A} (cmp : A -> A -> comparison) (x y : A) : Prop := cmp x y <> Gt.

#[export] Instance at_most_dec {A} (cmp : A -> A -> comparison) : RelDecision (at_most cmp).
Proof. intros x y. unfold at_most. apply _. Defined.

Definition sort_by {A} (cmp : A -> A -> comparison) : list A -> list A := merge_sort (at_most cmp).

(** ** Scope chains *)

Record ResolvedScopeChain : Type := mkResolved {
  chain_ids : list string; chain_layouts : list string; chain_middleware : list string;
  chain_error_boundaries : list string; chain_loaders : list string; chain_resources : gmap string (gset string) }.

Definition empty_chain : ResolvedScopeChain := mkResolved [] [] [] [] [] ∅.

(** The loop from the leaf to the root, collecting the chain root first. *)
Fixpoint chain_loop (fuel : nat) (scopes : gmap string RouteScopeSpec) (current : string) (seen : gset string)
    (chain : list RouteScopeSpec) : option (result RouteError (list RouteScopeSpec)) :=
  match fuel with
  | O => None
  | S fuel =>
      if bool_decide (current ∈ seen) then Some (Err (ScopeCycle current))
      else
        match scopes !! current with
        | None => Some (Err (UnknownScope current))
        | Some s =>
            match parent s with
            | Some up => chain_loop fuel scopes up ({[current]} ∪ seen) (s :: chain)
            | None => Some (Ok (s :: chain))
            end
        end
  end.

(** Insert each of [ids] into the set of those inherited, or report it. *)
Fixpoint inherit (duplicate : string -> RouteError) (acc ids : list string) : result RouteError (list string) :=
  match ids with
  | [] => Ok acc
  | i :: ids =>
      fail_if bool_decide (i ∈ acc) with duplicate i;;
      inherit duplicate (acc ++ [i])%list ids
  end.

(** [entry(id).or_default().extend(capabilities)] for each resource. *)
Definition merge_resources (m : gmap string (gset string)) (rs : list RouteResourceSpec) : gmap string (gset string) :=
  fold_left (fun m r => <[resource_id r := default ∅ (m !! resource_id r) ∪ capabilities r]> m) rs m.

Definition inherit_scope (acc : ResolvedScopeChain) (s : RouteScopeSpec) : result RouteError ResolvedScopeChain :=
  let layouts := if bool_decide (scope_kind s = LayoutScope) then (chain_layouts acc ++ [scope_id s])%list
                 else chain_layouts acc in
  middleware ← inherit DuplicateInheritedMiddleware (chain_middleware acc) (scope_middleware s);
  boundaries ← inherit DuplicateInheritedErrorBoundary (chain_error_boundaries acc) (scope_error_boundaries s);
  loaders ← inherit DuplicateInheritedLoader (chain_loaders acc) (scope_loaders s);
  Ok (mkResolved (chain_ids acc ++ [scope_id s])%list layouts middleware boundaries loaders
        (merge_resources (chain_resources acc) (scope_resources s))).

Fixpoint inherit_chain (acc : ResolvedScopeChain) (chain : list RouteScopeSpec) : result RouteError ResolvedScopeChain :=
  match chain with
  | [] => Ok acc
  | s :: chain => acc ← inherit_scope acc s; inherit_chain acc chain
  end.

(** The fuel is one more than the number of scopes: the loop never visits one
    twice. [None] is unreachable. *)
Definition resolve_scope_chain (leaf : option string) (scopes : gmap string RouteScopeSpec)
    : option (result RouteError ResolvedScopeChain) :=
  match leaf with
  | None => Some (Ok empty_chain)
  | Some current =>
      match chain_loop (S (size scopes)) scopes current ∅ [] with
      | None => None
      | Some (Err e) => Some (Err e)
      | Some (Ok chain) =>
          Some (fail_if MAX_SCOPE_DEPTH <? blen chain with TooManyScopes (blen chain) MAX_SCOPE_DEPTH;;
                inherit_chain empty_chain chain)
      end
  end.

(** ** Sealing *)

(** The computations of [seal] that call [resolve_scope_chain] carry its fuel. *)
Definition Fueled (A : Type) : Type := option (result RouteError A).

#[export] Instance fueled_ret : MRet Fueled := fun A a => Some (Ok a).
#[export] Instance fueled_bind : MBind Fueled := fun A B f x =>
  match x with None => None | Some (Err e) => Some (Err e) | Some (Ok a) => f a end.

Definition lift {A} (r : result RouteError A) : Fueled A := Some r.

Fixpoint scope_map_of (scopes : list RouteScopeSpec) (m : gmap string RouteScopeSpec)
    : result RouteError (gmap string RouteScopeSpec) :=
  match scopes with
  | [] => Ok m
  | s :: scopes =>
      match m !! scope_id s with
      | Some _ => Err (DuplicateScopeId (scope_id s))
      | None => scope_map_of scopes (<[scope_id s := s]> m)
      end
  end.

Fixpoint check_scopes (scopes : list RouteScopeSpec) (m : gmap string RouteScopeSpec) : Fueled unit :=
  match scopes with
  | [] => mret ()
  | s :: scopes => _ ← resolve_scope_chain (Some (scope_id s)) m; check_scopes scopes m
  end.

Definition first_in (xs inherited : list string) : option string := List.find (fun i => bool_decide (i ∈ inherited)) xs.

(** The checks of one route against what it inherits. *)
Definition check_inheritance (roots : list string) (r : RouteSpec) (c : ResolvedScopeChain) : result RouteError unit :=
  fail_if MAX_ROUTE_MIDDLEWARE <? blen (chain_middleware c) + blen (middleware r)
    with TooManyMiddleware MAX_ROUTE_MIDDLEWARE;;
  match first_in (middleware r) (chain_middleware c) with Some i => Err (DuplicateInheritedMiddleware i) | None =>
  fail_if MAX_ROUTE_LOADERS <? blen (chain_loaders c) + blen (loaders r) with TooManyLoaders MAX_ROUTE_LOADERS;;
  match first_in (loaders r) (chain_loaders c) with Some i => Err (DuplicateInheritedLoader i) | None =>
  fail_if MAX_ERROR_BOUNDARIES <? blen roots + blen (chain_error_boundaries c) + blen (error_boundaries r)
    with TooManyErrorBoundaries MAX_ERROR_BOUNDARIES;;
  _ ← inherit DuplicateInheritedErrorBoundary [] (roots ++ chain_error_boundaries c ++ error_boundaries r)%list;
  Ok tt
  end end.

Fixpoint resolve_routes (roots : list string) (m : gmap string RouteScopeSpec) (routes : list RouteSpec)
    (resolved : gmap string ResolvedScopeChain) (reached : gset string)
    : Fueled (gmap string ResolvedScopeChain * gset string) :=
  match routes with
  | [] => mret (resolved, reached)
  | r :: routes =>
      c ← resolve_scope_chain (scope r) m;
      _ ← lift (check_inheritance roots r c);
      resolve_routes roots m routes (<[id r := c]> resolved) (list_to_set (chain_ids c) ∪ reached)
  end.

Definition shape_slot (m : RouteMethod) (shape : string) : string := method_str m ++ " " ++ shape.

Fixpoint claim_shapes (r : RouteSpec) (keys : list string) (shapes : gmap string string)
    : result RouteError (gmap string string) :=
  match keys with
  | [] => Ok shapes
  | shape :: keys =>
      match shapes !! shape_slot (method r) shape with
      | Some existing => Err (RouteCollision (method r) shape existing (id r))
      | None => claim_shapes r keys (<[shape_slot (method r) shape := id r]> shapes)
      end
  end.

Section sealing.
Context `{Unicode, Sha256}.

Fixpoint check_shapes (routes : list RouteSpec) (ids : gset string) (shapes : gmap string string) : result RouteError unit :=
  match routes with
  | [] => Ok tt
  | r :: routes =>
      fail_if bool_decide (id r ∈ ids) with DuplicateRouteId (id r);;
      shapes ← claim_shapes r (shape_keys (pattern r)) shapes;
      check_shapes routes ({[id r]} ∪ ids) shapes
  end.

Definition route_middleware_of (routes : list RouteSpec) (scopes : list RouteScopeSpec) : gset string :=
  list_to_set (concat (map middleware routes) ++ concat (map scope_middleware scopes)).

Definition check_middleware (pre : list string) (used : gset string) (declared : gmap string MiddlewareCapabilities)
    : result RouteError unit :=
  match List.find (fun i => bool_decide (i ∈ used)) pre with Some i => Err (MiddlewarePhaseConflict i) | None =>
  let referenced := used ∪ list_to_set pre in
  match List.find (fun i => bool_decide (declared !! i = None)) (btree_elements referenced) with
  | Some i => Err (MissingMiddlewareDeclaration i)
  | None =>
  match List.find (fun i => negb (bool_decide (i ∈ referenced))) (btree_keys String.le declared) with
  | Some i => Err (UnreferencedMiddlewareDeclaration i)
  | None => Ok tt
  end end end.

(** ** The digest *)

Definition digest_sequence (label : string) (values : list string) : bytes :=
  (lp (as_bytes label) ++ be_bytes 8 (blen values) ++ lp_all (map as_bytes values))%list.

Definition resource_order (l r : RouteResourceSpec) : comparison := String.compare (resource_id l) (resource_id r).

Definition digest_resources (label : string) (rs : list RouteResourceSpec) : bytes :=
  (lp (as_bytes label) ++ be_bytes 8 (blen rs) ++
   concat (map (fun r => lp (as_bytes (resource_id r)) ++
                         digest_sequence "resource-capabilities" (btree_elements (capabilities r)))
             (sort_by resource_order rs)))%list.

Definition scope_preimage (s : RouteScopeSpec) : bytes :=
  (lp_all [as_bytes (scope_id s); as_bytes (scope_kind_str (scope_kind s)); as_bytes (default "" (parent s))]
   ++ digest_sequence "scope-middleware" (scope_middleware s)
   ++ digest_sequence "scope-error-boundaries" (scope_error_boundaries s)
   ++ digest_sequence "scope-loaders" (scope_loaders s)
   ++ digest_resources "scope-resources" (scope_resources s))%list.

Definition route_preimage (r : RouteSpec) : bytes :=
  (lp_all [as_bytes (method_str (method r)); as_bytes (id r); as_bytes (authored (pattern r));
           as_bytes (canonical (pattern r)); as_bytes (default "" (scope r))]
   ++ digest_sequence "middleware" (middleware r)
   ++ digest_sequence "route-error-boundaries" (error_boundaries r)
   ++ digest_sequence "route-loaders" (loaders r)
   ++ digest_sequence "route-actions" (actions r)
   ++ digest_sequence "route-cache-policy" (match cache_policy r with Some p => [p] | None => [] end)
   ++ digest_resources "route-resources" (resources r))%list.

Definition graph_preimage (routes : list RouteSpec) (scopes : list RouteScopeSpec) (pre : list string)
    (declared : gmap string MiddlewareCapabilities) (roots : list string) : bytes :=
  (as_bytes "pliego-route-graph-v6" ++ [x00]
   ++ digest_sequence "pre-route-middleware" pre
   ++ digest_sequence "root-error-boundaries" roots
   ++ concat (map (fun p => lp (as_bytes p.1) ++
                            digest_sequence "middleware-capabilities" (map capability_str (capabilities_iter p.2)))
                (string_iter declared))
   ++ concat (map scope_preimage scopes)
   ++ concat (map route_preimage routes))%list.

Definition graph_digest (routes : list RouteSpec) (scopes : list RouteScopeSpec) (pre : list string)
    (declared : gmap string MiddlewareCapabilities) (roots : list string) : string :=
  hex (sha256 (graph_preimage routes scopes pre declared roots)).

Record RouteGraph : Type := mkGraph {
  graph_routes : list RouteSpec; graph_scopes : list RouteScopeSpec; resolved_scopes : gmap string ResolvedScopeChain;
  route_middleware : gset string; all_error_boundaries : gset string; graph_pre_route_middleware : list string;
  middleware_capabilities : gmap string MiddlewareCapabilities; graph_error_boundaries : list string; digest : string }.

(** [seal] once the routes and the scopes are sorted. *)
Definition seal_sorted (routes : list RouteSpec) (scopes : list RouteScopeSpec) (pre : list string)
    (declared : gmap string MiddlewareCapabilities) (roots : list string) : Fueled RouteGraph :=
  _ ← lift (fail_if DEFAULT_MAX_SCOPES <? blen scopes with TooManyScopes (blen scopes) DEFAULT_MAX_SCOPES;; Ok tt);
  m ← lift (scope_map_of scopes ∅);
  _ ← check_scopes scopes m;
  '(resolved, reached) ← resolve_routes roots m routes ∅ ∅;
  _ ← lift (match List.find (fun i => negb (bool_decide (i ∈ reached))) (map scope_id scopes) with
            | Some i => Err (UnreferencedScope i)
            | None => Ok tt
            end);
  _ ← lift (check_shapes routes ∅ ∅);
  let used := route_middleware_of routes scopes in
  _ ← lift (check_middleware pre used declared);
  lift (Ok (mkGraph (sort_by match_order routes) scopes resolved used
              (list_to_set (roots ++ concat (map scope_error_boundaries scopes) ++ concat (map error_boundaries routes)))
              pre declared roots (graph_digest routes scopes pre declared roots))).

Definition seal (b : RouteGraphBuilder) : Fueled RouteGraph :=
  _ ← lift (fail_if max_routes b <? blen (builder_routes b)
              with TooManyRoutes (blen (builder_routes b)) (max_routes b);; Ok tt);
  seal_sorted (sort_by canonical_route_order (builder_routes b)) (sort_by scope_order (builder_scopes b))
    (builder_pre_route_middleware b) (builder_capabilities b) (builder_error_boundaries b).

(** ** Resolution *)

Inductive ResolveError : Type :=
| InvalidPath
| NotFound
| MethodNotAllowed (allowed : list RouteMethod).

Definition resolve_code (e : ResolveError) : string :=
  match e with InvalidPath => "PLG-RTE-101" | NotFound => "PLG-RTE-404" | MethodNotAllowed _ => "PLG-RTE-405" end.

Record RouteMatch : Type := mkMatch {
  route_id : string; match_method : RouteMethod; match_pattern : string; parameters : gmap string string;
  match_scopes : list string; match_layouts : list string; match_middleware : list string;
  match_error_boundaries : list string; match_loaders : list string; match_actions : list string;
  match_cache_policy : option string; match_resources : gmap string (gset string) }.

Definition validate_request_path (path : string) : bool :=
  negb ((slen path =? 0) || (MAX_PATTERN_BYTES <? slen path) || negb (starts_with "/" path)
        || (negb (String.eqb path "/") && has_last "/" path) || str_contains "//" path || str_has "\" path
        || str_has "%" path || str_has "?" path || str_has "#" path || str_has "000" path || any_control path)
  && negb (negb (String.eqb path "/")
           && existsb (fun s => String.eqb s "." || String.eqb s "..") (split_slash (tail path))).

Definition make_match (r : RouteSpec) (ps : gmap string string) (c : ResolvedScopeChain) : RouteMatch :=
  mkMatch (id r) (method r) (canonical (pattern r)) ps (chain_ids c) (chain_layouts c)
    (chain_middleware c ++ middleware r)%list (chain_error_boundaries c ++ error_boundaries r)%list
    (chain_loaders c ++ loaders r)%list (actions r) (cache_policy r) (merge_resources (chain_resources c) (resources r)).

(** The first route that matches, in the order of the graph. *)
Fixpoint first_match (routes : list RouteSpec) (path : string) : option (RouteSpec * gmap string string) :=
  match routes with
  | [] => None
  | r :: routes =>
      match match_admitted (pattern r) path with
      | Some ps => Some (r, ps)
      | None => first_match routes path
      end
  end.

Definition allowed_methods (g : RouteGraph) (path : string) : gset string :=
  list_to_set (map (fun r => method_str (method r))
                 (base.filter (fun r => bool_decide (match_admitted (pattern r) path <> None)) (graph_routes g))).

(** [None] is the panic of [expect("sealed routes have resolved scope chains")]. *)
Definition resolve (g : RouteGraph) (m : RouteMethod) (path : string) : option (result ResolveError RouteMatch) :=
  if negb (validate_request_path path) then Some (Err InvalidPath)
  else
    let normalized := nfc path in
    if negb (validate_request_path normalized) then Some (Err InvalidPath)
    else
      match first_match (base.filter (fun r => method r = m) (graph_routes g)) normalized with
      | Some (r, ps) =>
          match resolved_scopes g !! id r with
          | None => None
          | Some c => Some (Ok (make_match r ps c))
          end
      | None =>
          let allowed := allowed_methods g normalized in
          Some (Err (if bool_decide (allowed = ∅) then NotFound
                     else MethodNotAllowed (map mkMethod (btree_elements allowed))))
      end.

Definition route_resource_requirements (g : RouteGraph) (i : string) : option (gmap string (gset string)) :=
  r ← List.find (fun r => String.eqb (id r) i) (graph_routes g);
  c ← resolved_scopes g !! i;
  Some (merge_resources (chain_resources c) (resources r)).

Definition route_loader_ids (g : RouteGraph) (i : string) : option (list string) :=
  r ← List.find (fun r => String.eqb (id r) i) (graph_routes g);
  c ← resolved_scopes g !! i;
  Some (chain_loaders c ++ loaders r)%list.

End sealing.

(** ** Lawful comparators *)

Record lawful {A} (cmp : A -> A -> comparison) : Prop := {
  lawful_anti x y : cmp y x = CompOpp (cmp x y);
  lawful_trans x y z : at_most cmp x y -> at_most cmp y z -> at_most cmp x z }.

Section comparators.
Context {A : Type}.
Implicit Types cmp : A -> A -> comparison.

Lemma at_most_flip cmp x y : lawful cmp -> cmp x y = Eq -> at_most cmp y x.
Proof. intros L H. unfold at_most. by rewrite (lawful_anti _ L x y), H. Qed.

(** A strict step keeps a chain strict. *)
Lemma lawful_strict cmp x y z :
  lawful cmp -> at_most cmp x y -> at_most cmp y z -> cmp x z = Eq -> cmp x y = Eq /\ cmp y z = Eq.
Proof.
  intros L Hxy Hyz Hxz. pose proof (at_most_flip _ _ _ L Hxz) as Hzx.
  pose proof (lawful_trans _ L _ _ _ Hyz Hzx) as Hyx. pose proof (lawful_trans _ L _ _ _ Hzx Hxy) as Hzy.
  unfold at_most in *. rewrite (lawful_anti _ L x y) in Hyx. rewrite (lawful_anti _ L y z) in Hzy.
  destruct (cmp x y), (cmp y z); cbn in *; done.
Qed.

Lemma lawful_then cmp1 cmp2 : lawful cmp1 -> lawful cmp2 -> lawful (fun x y => then_with (cmp1 x y) (cmp2 x y)).
Proof.
  intros L1 L2. split.
  - intros x y. rewrite (lawful_anti _ L1 x y), (lawful_anti _ L2 x y). by destruct (cmp1 x y).
  - intros x y z Hxy Hyz. unfold at_most in *.
    assert (H1 : at_most cmp1 x y) by (unfold at_most; by destruct (cmp1 x y)).
    assert (H2 : at_most cmp1 y z) by (unfold at_most; by destruct (cmp1 y z)).
    pose proof (lawful_trans _ L1 _ _ _ H1 H2) as H3.
    destruct (cmp1 x z) eqn:Hxz; [|done|done]. destruct (lawful_strict _ _ _ _ L1 H1 H2 Hxz) as [E1 E2].
    rewrite E1 in Hxy. rewrite E2 in Hyz. cbn in *. by apply (lawful_trans _ L2 x y z).
Qed.

Lemma lawful_on {B} (f : B -> A) cmp : lawful cmp -> lawful (fun x y => cmp (f x) (f y)).
Proof. intros L. split; [intros x y; apply L|intros x y z; apply (lawful_trans _ L)]. Qed.

Lemma lawful_flip cmp : lawful cmp -> lawful (fun x y => cmp y x).
Proof.
  intros L. split; [intros x y; apply L|]. intros x y z Hxy Hyz. exact (lawful_trans _ L z y x Hyz Hxy).
Qed.

Lemma sort_by_sorted cmp l : lawful cmp -> StronglySorted (at_most cmp) (sort_by cmp l).
Proof.
  intros L. apply StronglySorted_merge_sort.
  - intros x y z. apply (lawful_trans _ L).
  - intros x y. unfold at_most. rewrite (lawful_anti _ L x y). destruct (cmp x y); (by left) || by right.
Qed.

Lemma sort_by_perm cmp l : sort_by cmp l ≡ₚ l.
Proof. apply merge_sort_Permutation. Qed.

(** Sorting does not depend on the order of the input where ties are equal. *)
Lemma sort_by_unique cmp l1 l2 :
  lawful cmp -> l1 ≡ₚ l2 -> (forall x y, x ∈ l1 -> y ∈ l1 -> cmp x y = Eq -> x = y) -> sort_by cmp l1 = sort_by cmp l2.
Proof.
  intros L Hp Hinj. apply (StronglySorted_unique_strong (at_most cmp)).
  - intros x y Hx Hy Hxy Hyx. rewrite sort_by_perm in Hx, Hy. rewrite <-Hp in Hy. apply Hinj; [done..|].
    unfold at_most in *. rewrite (lawful_anti _ L x y) in Hyx. by destruct (cmp x y).
  - by apply sort_by_sorted.
  - by apply sort_by_sorted.
  - by rewrite !sort_by_perm.
Qed.

End comparators.

Lemma string_le_compare x y : String.le x y <-> String.compare x y <> Gt.
Proof. unfold String.le, String.leb. destruct (String.compare x y); cbn; naive_solver. Qed.

Lemma string_lawful : lawful String.compare.
Proof.
  split; [intros x y; apply String.compare_antisym|]. intros x y z. unfold at_most.
  rewrite <-!string_le_compare. apply (transitivity (R := String.le)).
Qed.

Lemma compare_list_lawful : lawful compare_list.
Proof.
  split.
  - intros xs. induction xs as [|x xs IH]; intros [|y ys]; try done. cbn. rewrite (N.compare_antisym x y), IH.
    by destruct (N.compare x y).
  - intros xs. unfold at_most. induction xs as [|x xs IH]; intros [|y ys] [|z zs] H1 H2; try done. cbn in *.
    destruct (N.compare_spec x y) as [->|Hxy|]; [..|done].
    + destruct (N.compare y z); cbn in *; [by apply (IH ys)|done|done].
    + destruct (N.compare_spec y z) as [->|Hyz|]; [..|done];
        (assert (Hxz : N.compare x z = Lt) by (apply N.compare_lt_iff; lia) ||
         assert (Hxz : N.compare x z = Lt) by (apply N.compare_lt_iff; done)); by rewrite Hxz.
Qed.

Lemma compare_list_eq xs ys : compare_list xs ys = Eq -> xs = ys.
Proof.
  revert ys. induction xs as [|x xs IH]; intros [|y ys] H; try done. cbn in H.
  destruct (N.compare_spec x y) as [->|?|?]; cbn in H; [|done|done]. f_equal. by apply IH.
Qed.

Lemma canonical_lawful : lawful canonical_route_order.
Proof.
  apply lawful_then; [apply (lawful_on (fun r => method_str (method r)) _ string_lawful)|].
  apply lawful_then; [apply (lawful_on (fun r => authored (pattern r)) _ string_lawful)|].
  apply (lawful_on id _ string_lawful).
Qed.

Lemma match_lawful : lawful match_order.
Proof.
  apply lawful_then; [apply (lawful_flip (fun x y => compare_list (specificity (pattern x)) (specificity (pattern y))));
    apply (lawful_on (fun r => specificity (pattern r)) _ compare_list_lawful)|].
  apply lawful_then; [apply (lawful_on (fun r => canonical (pattern r)) _ string_lawful)|].
  apply (lawful_on id _ string_lawful).
Qed.

Lemma scope_lawful : lawful scope_order.
Proof. apply (lawful_on scope_id _ string_lawful). Qed.

(** ** Scope chains end *)

Lemma chain_loop_total fuel scopes current seen chain :
  seen ⊆ dom scopes -> (size scopes < size seen + fuel)%nat -> is_Some (chain_loop fuel scopes current seen chain).
Proof.
  revert current seen chain. induction fuel as [|fuel IH]; intros current seen chain Hsub Hsize.
  - apply subseteq_size in Hsub. rewrite size_dom in Hsub. lia.
  - cbn. destruct (bool_decide (current ∈ seen)) eqn:Hin; [by eexists|]. apply bool_decide_eq_false in Hin.
    destruct (scopes !! current) as [s|] eqn:Hs; [|by eexists]. destruct (parent s) as [up|]; [|by eexists].
    apply IH.
    + apply union_subseteq. split; [|done]. apply singleton_subseteq_l, elem_of_dom. by eexists.
    + rewrite size_union by set_solver. rewrite size_singleton. lia.
Qed.

Lemma resolve_scope_chain_total leaf scopes : is_Some (resolve_scope_chain leaf scopes).
Proof.
  unfold resolve_scope_chain. destruct leaf as [current|]; [|by eexists].
  destruct (chain_loop_total (S (size scopes)) scopes current ∅ []) as [r ->];
    [set_solver|rewrite size_empty; lia|]. destruct r; by eexists.
Qed.

Lemma check_scopes_total scopes m : is_Some (check_scopes scopes m).
Proof.
  induction scopes as [|s scopes IH]; [by eexists|]. cbn [check_scopes].
  destruct (resolve_scope_chain_total (Some (scope_id s)) m) as [[c|e] ->]; [done|by eexists].
Qed.

Lemma resolve_routes_total roots m routes resolved reached : is_Some (resolve_routes roots m routes resolved reached).
Proof.
  revert resolved reached. induction routes as [|r routes IH]; intros resolved reached; [by eexists|].
  cbn [resolve_routes]. destruct (resolve_scope_chain_total (scope r) m) as [[c|e] ->]; [|by eexists].
  cbn. destruct (check_inheritance roots r c); [apply IH|by eexists].
Qed.

(** Every route keeps the chain of its own scope. *)
Lemma resolve_routes_chains roots m routes resolved reached resolved' reached' :
  NoDup (map id routes) -> resolve_routes roots m routes resolved reached = Some (Ok (resolved', reached')) ->
  (forall i, i ∉ map id routes -> resolved' !! i = resolved !! i) /\
  forall r, r ∈ routes -> exists c, resolved' !! id r = Some c /\ resolve_scope_chain (scope r) m = Some (Ok c).
Proof.
  revert resolved reached. induction routes as [|r routes IH]; intros resolved reached Hnd Hr.
  - injection Hr as <- <-. split; [done|]. by intros r ?%not_elem_of_nil.
  - apply NoDup_cons in Hnd as [Hid Hnd]. cbn [resolve_routes] in Hr.
    destruct (resolve_scope_chain (scope r) m) as [[c|e]|] eqn:Hc; [|done|done].
    cbn [mbind fueled_bind] in Hr. destruct (check_inheritance roots r c) as [[]|]; [|done].
    cbn [mbind fueled_bind lift] in Hr. destruct (IH _ _ Hnd Hr) as [Hold Hnew]. split.
    + intros i [Hne Hi]%not_elem_of_cons. by rewrite (Hold i Hi), lookup_insert_ne.
    + intros x [->|Hx]%elem_of_cons; [|by apply Hnew]. exists c. by rewrite (Hold _ Hid), lookup_insert_eq.
Qed.

(** ** Shape collisions *)

Lemma claim_shapes_spec r keys shapes shapes' :
  claim_shapes r keys shapes = Ok shapes' ->
  shapes ⊆ shapes' /\
  forall k, k ∈ keys -> shapes !! shape_slot (method r) k = None /\ is_Some (shapes' !! shape_slot (method r) k).
Proof.
  revert shapes. induction keys as [|k keys IH]; intros shapes Hc.
  - injection Hc as <-. split; [done|]. by intros k ?%not_elem_of_nil.
  - cbn [claim_shapes] in Hc. destruct (shapes !! shape_slot (method r) k) eqn:Hk; [done|].
    destruct (IH _ Hc) as [Hsub Hkeys]. split.
    + by etrans; [apply insert_subseteq|].
    + intros k' [->|Hk']%elem_of_cons.
      * split; [done|]. exists (id r). eapply lookup_weaken; [apply lookup_insert_eq|done].
      * destruct (Hkeys k' Hk') as [Hn Hs]. split; [|done]. by apply lookup_insert_None in Hn as [Hn _].
Qed.

Section sealed.
Context `{Unicode, Sha256}.

Lemma check_shapes_spec routes ids shapes :
  check_shapes routes ids shapes = Ok tt ->
  NoDup (map id routes) /\ (forall r, r ∈ routes -> id r ∉ ids) /\
  (forall r k, r ∈ routes -> k ∈ shape_keys (pattern r) -> shapes !! shape_slot (method r) k = None) /\
  forall r s k, r ∈ routes -> s ∈ routes -> method r = method s ->
    k ∈ shape_keys (pattern r) -> k ∈ shape_keys (pattern s) -> r = s.
Proof.
  revert ids shapes. induction routes as [|r routes IH]; intros ids shapes Hc.
  - split_and!; [apply NoDup_nil_2| | |]; intros ?; intros; by match goal with Hx : _ ∈ [] |- _ => apply not_elem_of_nil in Hx end.
  - cbn [check_shapes] in Hc. destruct (bool_decide (id r ∈ ids)) eqn:Hid; [done|]. apply bool_decide_eq_false in Hid.
    apply bind_ok in Hc as (shapes' & Hclaim & Hc). apply claim_shapes_spec in Hclaim as [Hsub Hkeys].
    destruct (IH _ _ Hc) as (Hnd & Hids & Hfree & Huniq).
    assert (Hclash : forall s k, s ∈ routes -> method r = method s ->
              k ∈ shape_keys (pattern r) -> k ∈ shape_keys (pattern s) -> False).
    { intros s k Hs Hm Hr Hk. specialize (Hfree s k Hs Hk). rewrite <-Hm in Hfree.
      destruct (Hkeys k Hr) as [_ [x Hx]]. congruence. }
    split_and!.
    + apply NoDup_cons. split; [|done]. intros (s & Hs & Hin)%list_elem_of_fmap. apply (Hids s Hin). set_solver.
    + intros s [->|Hs]%elem_of_cons; [done|]. specialize (Hids s Hs). set_solver.
    + intros s k [->|Hs]%elem_of_cons Hk; [by apply Hkeys|]. destruct (shapes !! _) eqn:Hl; [|done].
      eapply lookup_weaken in Hl; [|exact Hsub]. rewrite (Hfree s k Hs Hk) in Hl. done.
    + intros s t k [->|Hs]%elem_of_cons [->|Ht]%elem_of_cons Hm Hks Hkt; try done.
      * by destruct (Hclash t k).
      * by destruct (Hclash s k).
      * by apply (Huniq s t k).
Qed.

(** Two patterns of one specificity that match one path have one shape. *)
Lemma same_shape segs segs' input acc acc' ps ps' :
  match_segments segs input acc = Some ps -> match_segments segs' input acc' = Some ps' ->
  map segment_specificity segs = map segment_specificity segs' -> map shape_key segs = map shape_key segs'.
Proof.
  revert segs' input acc acc'. induction segs as [|s segs IH]; intros [|s' segs'] input acc acc' Hm Hm' Hs; try done.
  injection Hs as Hs Hrest. cbn [map].
  destruct s, s'; try done; cbn [match_segments] in Hm, Hm'; destruct input as [|v input]; try done.
  - destruct (String.eqb_spec v value) as [<-|]; [|done]. destruct (String.eqb_spec v value0) as [<-|]; [|done].
    f_equal. by eapply IH.
  - f_equal. by eapply IH.
  - f_equal. by eapply IH.
  - f_equal. by eapply IH.
  - destruct segs; [|done]. by destruct segs'.
  - destruct segs; [|done]. by destruct segs'.
Qed.

Lemma same_shape_keys p q path ps ps' :
  match_admitted p path = Some ps -> match_admitted q path = Some ps' -> specificity p = specificity q ->
  exists k, k ∈ shape_keys p /\ k ∈ shape_keys q.
Proof.
  intros Hp Hq Hs. pose proof (same_shape _ _ _ _ _ _ _ Hp Hq Hs) as Hk. unfold shape_keys. rewrite Hk.
  eexists. split; apply elem_of_cons; by left.
Qed.

(** ** Sealing *)

(** What a graph that seals is made of. *)
Lemma seal_sorted_ok routes scopes pre declared roots g :
  seal_sorted routes scopes pre declared roots = Some (Ok g) ->
  check_shapes routes ∅ ∅ = Ok tt /\ graph_routes g = sort_by match_order routes /\ graph_scopes g = scopes /\
  exists m reached, scope_map_of scopes ∅ = Ok m /\
    resolve_routes roots m routes ∅ ∅ = Some (Ok (resolved_scopes g, reached)).
Proof.
  unfold seal_sorted. destruct (_ <? _); [done|]. cbn [lift mbind fueled_bind].
  destruct (scope_map_of scopes ∅) as [m|]; [|done]. cbn [lift mbind fueled_bind].
  destruct (check_scopes scopes m) as [[[]|]|]; [|done..]. cbn [lift mbind fueled_bind].
  destruct (resolve_routes roots m routes ∅ ∅) as [[[resolved reached]|]|] eqn:Hr; [|done..]. cbn [lift mbind fueled_bind].
  destruct (List.find _ _); [done|]. cbn [lift mbind fueled_bind].
  destruct (check_shapes routes ∅ ∅) as [[]|]; [|done]. cbn [lift mbind fueled_bind].
  destruct (check_middleware _ _ _) as [[]|]; [|done]. intros [= <-]. split_and!; [done..|]. by exists m, reached.
Qed.

Lemma seal_sorted_total routes scopes pre declared roots : is_Some (seal_sorted routes scopes pre declared roots).
Proof.
  unfold seal_sorted. destruct (_ <? _); [by eexists|]. cbn [lift mbind fueled_bind].
  destruct (scope_map_of scopes ∅) as [m|]; [|by eexists]. cbn [lift mbind fueled_bind].
  destruct (check_scopes_total scopes m) as [[[]|] ->]; [|by eexists]. cbn [lift mbind fueled_bind].
  destruct (resolve_routes_total roots m routes ∅ ∅) as [[[resolved reached]|] ->]; [|by eexists]. cbn [lift mbind fueled_bind].
  destruct (List.find _ _); [by eexists|]. cbn [lift mbind fueled_bind].
  destruct (check_shapes routes ∅ ∅) as [[]|]; [|by eexists]. cbn [lift mbind fueled_bind].
  destruct (check_middleware _ _ _) as [[]|]; by eexists.
Qed.

Lemma seal_from_sorted b g :
  seal b = Some (Ok g) ->
  seal_sorted (sort_by canonical_route_order (builder_routes b)) (sort_by scope_order (builder_scopes b))
    (builder_pre_route_middleware b) (builder_capabilities b) (builder_error_boundaries b) = Some (Ok g).
Proof. unfold seal. by destruct (_ <? _). Qed.

End sealed.

(** ** Resolution *)

Section resolution.
Context `{Unicode, Sha256}.

Lemma first_match_some routes path r ps :
  StronglySorted (at_most match_order) routes -> first_match routes path = Some (r, ps) ->
  r ∈ routes /\ match_admitted (pattern r) path = Some ps /\
  forall s, s ∈ routes -> is_Some (match_admitted (pattern s) path) -> s = r \/ at_most match_order r s.
Proof.
  intros Hs. induction Hs as [|x routes Hs IH Hx]; intros Hf; [done|]. cbn [first_match] in Hf.
  destruct (match_admitted (pattern x) path) as [qs|] eqn:Hm.
  - injection Hf as <- <-. split_and!; [by left|done|]. intros s [->|Hin]%elem_of_cons _; [by left|].
    right. by apply (proj1 (Forall_forall _ _) Hx).
  - destruct (IH Hf) as (Hr & Hp & Hbest). split_and!; [by right|done|].
    intros s [->|Hin]%elem_of_cons Hsome; [rewrite Hm in Hsome; by destruct Hsome|by apply Hbest].
Qed.

Lemma first_match_none routes path :
  first_match routes path = None <-> forall s, s ∈ routes -> match_admitted (pattern s) path = None.
Proof.
  induction routes as [|x routes IH]; cbn [first_match].
  - split; [|done]. by intros _ s ?%not_elem_of_nil.
  - destruct (match_admitted (pattern x) path) eqn:Hm.
    + split; [done|]. intros Hall. rewrite (Hall x) in Hm; [done|by left].
    + rewrite IH. split; [|intros Hall s Hs; apply Hall; by right]. intros Hall s [->|Hs]%elem_of_cons; [done|by apply Hall].
Qed.

(** The greater specificity decides between two routes of one method. *)
Lemma match_order_strict r s :
  at_most match_order r s -> specificity (pattern s) <> specificity (pattern r) ->
  compare_list (specificity (pattern s)) (specificity (pattern r)) = Lt.
Proof.
  unfold at_most, match_order. intros Hle Hne.
  destruct (compare_list (specificity (pattern s)) (specificity (pattern r))) eqn:Hc; [|done|done].
  by apply compare_list_eq in Hc.
Qed.

(** The routes of a method, the most specific first. *)
Lemma graph_routes_sorted routes m :
  StronglySorted (at_most match_order) (base.filter (fun r => method r = m) (sort_by match_order routes)).
Proof. apply StronglySorted_filter, sort_by_sorted, match_lawful. Qed.

Lemma elem_of_allowed g path x :
  x ∈ allowed_methods g path <->
  exists r, r ∈ graph_routes g /\ is_Some (match_admitted (pattern r) path) /\ x = method_str (method r).
Proof.
  unfold allowed_methods. rewrite elem_of_list_to_set, list_elem_of_fmap. setoid_rewrite list_elem_of_filter.
  setoid_rewrite bool_decide_spec. setoid_rewrite not_eq_None_Some. naive_solver.
Qed.

(** A sealed graph: its routes in matching order, each with the chain of its
    scope, and no two of one method with a shape in common. *)
Definition graph_ok (routes : list RouteSpec) (g : RouteGraph) (scopes : gmap string RouteScopeSpec) : Prop :=
  (exists l, graph_routes g = sort_by match_order l) /\ graph_routes g ≡ₚ routes /\ NoDup (map id routes) /\
  (forall r, r ∈ routes -> exists c, resolved_scopes g !! id r = Some c /\ resolve_scope_chain (scope r) scopes = Some (Ok c)) /\
  forall r s k, r ∈ routes -> s ∈ routes -> method r = method s ->
    k ∈ shape_keys (pattern r) -> k ∈ shape_keys (pattern s) -> r = s.

Lemma seal_graph_ok b g :
  seal b = Some (Ok g) -> exists scopes, scope_map_of (graph_scopes g) ∅ = Ok scopes /\ graph_ok (builder_routes b) g scopes.
Proof.
  intros Hs. apply seal_from_sorted, seal_sorted_ok in Hs as (Hshapes & Hroutes & Hscopes & m & reached & Hm & Hr).
  pose proof (sort_by_perm canonical_route_order (builder_routes b)) as Hperm.
  apply check_shapes_spec in Hshapes as (Hnd & _ & _ & Huniq). apply resolve_routes_chains in Hr as [_ Hr]; [|done].
  exists m. rewrite Hscopes. split; [done|]. split_and!.
  - by eexists.
  - by rewrite Hroutes, sort_by_perm.
  - by rewrite <-Hperm.
  - intros r Hin. apply Hr. by rewrite Hperm.
  - intros r s k Hin Hin'. rewrite <-Hperm in Hin, Hin'. by apply Huniq.
Qed.

(** Of the routes of one method that match a path the first is the only one of
    its specificity. *)
Lemma first_match_best routes g scopes m path r ps :
  graph_ok routes g scopes -> first_match (base.filter (fun r => method r = m) (graph_routes g)) path = Some (r, ps) ->
  r ∈ routes /\ method r = m /\ match_admitted (pattern r) path = Some ps /\
  forall s, s ∈ routes -> is_Some (match_admitted (pattern s) path) -> method s = m ->
    s = r \/ compare_list (specificity (pattern s)) (specificity (pattern r)) = Lt.
Proof.
  intros ([l Hl] & Hperm & _ & _ & Huniq) Hf. rewrite Hl in Hf.
  apply first_match_some in Hf as (Hr & Hps & Hbest); [|apply graph_routes_sorted]. rewrite <-Hl in Hr, Hbest.
  apply list_elem_of_filter in Hr as [Hmr Hr]. rewrite Hperm in Hr. split_and!; [done..|].
  intros s Hs Hms Hm. destruct (Hbest s) as [|Hle]; [apply list_elem_of_filter; by rewrite Hperm|done|by left|].
  destruct (decide (specificity (pattern s) = specificity (pattern r))) as [Heq|Hne].
  - left. destruct Hms as [qs Hqs]. destruct (same_shape_keys _ _ _ _ _ Hqs Hps Heq) as (k & Hks & Hkr).
    apply (Huniq s r k Hs Hr); congruence.
  - right. by apply match_order_strict.
Qed.

Lemma allowed_exact routes g scopes path x :
  graph_ok routes g scopes ->
  x ∈ allowed_methods g path <->
  exists r, (r ∈ routes /\ is_Some (match_admitted (pattern r) path)) /\ x = method_str (method r).
Proof.
  intros (_ & Hperm & _). rewrite elem_of_allowed. setoid_rewrite Hperm. naive_solver.
Qed.

(** The methods reported are those of the routes that match, in order. *)
Lemma allowed_list (allowed : gset string) (P : RouteSpec -> Prop) m :
  (forall x, x ∈ allowed <-> exists r, P r /\ x = method_str (method r)) -> allowed <> ∅ -> (forall r, P r -> method r <> m) ->
  let ms := map mkMethod (btree_elements allowed) in
  ms <> [] /\ (m ∉ ms) /\ StronglySorted String.le (map method_str ms) /\ forall m', (m' ∈ ms) <-> exists r, P r /\ method r = m'.
Proof.
  intros Hin Hne Hm ms. assert (Helem : forall m', (m' ∈ ms) <-> exists r, P r /\ method r = m').
  { intros [x]. unfold ms. rewrite list_elem_of_fmap. setoid_rewrite elem_of_btree_elements. setoid_rewrite Hin. split.
    - intros (y & Hy & r & Hr & ->). injection Hy as ->. exists r. split; [done|]. by destruct (method r).
    - intros (r & Hr & Hx). exists x. split; [done|]. exists r. split; [done|]. by rewrite Hx. }
  split_and!; [| | |done].
  - intros He. apply Hne, set_eq. intros x. split; [|set_solver]. intros (r & Hr & ->)%Hin.
    assert (Hbad : method r ∈ ms) by (apply Helem; by exists r). rewrite He in Hbad. by apply not_elem_of_nil in Hbad.
  - intros (r & Hr & Hmr)%Helem. by apply (Hm r).
  - unfold ms. rewrite map_map. cbn. rewrite map_id. apply StronglySorted_merge_sort; apply _.
Qed.

(** ** The order of declaration *)

Lemma scope_map_of_spec scopes m m' :
  scope_map_of scopes m = Ok m' -> NoDup (map scope_id scopes) /\ forall s, s ∈ scopes -> m !! scope_id s = None.
Proof.
  revert m. induction scopes as [|s scopes IH]; intros m Hm.
  - split; [apply NoDup_nil_2|]. by intros s ?%not_elem_of_nil.
  - cbn [scope_map_of] in Hm. destruct (m !! scope_id s) eqn:Hs; [done|]. destruct (IH _ Hm) as [Hnd Hfree]. split.
    + apply NoDup_cons. split; [|done]. intros (t & Ht & Hin)%list_elem_of_fmap. specialize (Hfree t Hin).
      rewrite <-Ht, lookup_insert_eq in Hfree. done.
    + intros t [->|Hin]%elem_of_cons; [done|]. specialize (Hfree t Hin). by apply lookup_insert_None in Hfree as [Hn _].
Qed.

Lemma NoDup_map_inj {A B} (f : A -> B) l x y : NoDup (map f l) -> x ∈ l -> y ∈ l -> f x = f y -> x = y.
Proof.
  induction l as [|z l IH]; [by intros _ ?%not_elem_of_nil|]. intros [Hz Hnd]%NoDup_cons Hx Hy Hf.
  apply elem_of_cons in Hx as [->|Hx]; apply elem_of_cons in Hy as [->|Hy]; try done.
  - destruct Hz. rewrite Hf. by apply list_elem_of_fmap_2.
  - destruct Hz. rewrite <-Hf. by apply list_elem_of_fmap_2.
  - by apply IH.
Qed.

Lemma canonical_order_id x y : canonical_route_order x y = Eq -> id x = id y.
Proof.
  unfold canonical_route_order, then_with. destruct (String.compare _ _); [|done..]. destruct (String.compare _ _); [|done..].
  apply String.compare_eq_iff.
Qed.

Lemma seal_sorted_inputs n routes scopes pre declared roots g :
  seal (mkBuilder n routes scopes pre declared roots) = Some (Ok g) -> NoDup (map id routes) /\ NoDup (map scope_id scopes).
Proof.
  intros Hs. apply seal_from_sorted, seal_sorted_ok in Hs as (Hshapes & _ & _ & m & reached & Hm & _).
  cbn [builder_routes builder_scopes] in Hshapes, Hm.
  apply check_shapes_spec in Hshapes as (Hr & _). apply scope_map_of_spec in Hm as [Hm _].
  rewrite sort_by_perm in Hr. rewrite (sort_by_perm scope_order) in Hm. done.
Qed.

End resolution.

(** Resolution on a graph in order is exact. *)
Lemma resolve_graph_ok `{Unicode, Sha256} routes g scopes m path :
  graph_ok routes g scopes ->
  let valid := validate_request_path path && validate_request_path (nfc path) in
  let matches r := r ∈ routes /\ is_Some (match_admitted (pattern r) (nfc path)) in
  match resolve g m path with
  | None => False
  | Some (Err InvalidPath) => valid = false
  | Some (Err NotFound) => valid = true /\ forall r, ~ matches r
  | Some (Err (MethodNotAllowed ms)) =>
      valid = true /\ ms <> [] /\ (m ∉ ms) /\ StronglySorted String.le (map method_str ms) /\
      forall m', (m' ∈ ms) <-> exists r, matches r /\ method r = m'
  | Some (Ok x) =>
      valid = true /\
      exists r ps c, r ∈ routes /\ method r = m /\ match_admitted (pattern r) (nfc path) = Some ps /\
        resolve_scope_chain (scope r) scopes = Some (Ok c) /\ x = make_match r ps c /\
        forall s, matches s -> method s = m ->
          s = r \/ compare_list (specificity (pattern s)) (specificity (pattern r)) = Lt
  end.
Proof.
  intros Hg. cbn zeta. unfold resolve.
  destruct (validate_request_path path); [|done]. cbn [negb andb]. destruct (validate_request_path (nfc path)); [|done].
  cbn [negb]. pose proof (fun x => allowed_exact _ _ _ (nfc path) x Hg) as Hallowed.
  destruct (first_match _ _) as [[r ps]|] eqn:Hf.
  - apply (first_match_best _ _ _ _ _ _ _ Hg) in Hf as (Hr & Hm & Hps & Hbest).
    destruct Hg as (_ & _ & _ & Hchain & _). destruct (Hchain r Hr) as (c & Hc & Hcs). rewrite Hc. split; [done|].
    exists r, ps, c. split_and!; try done. intros s [Hs Hms] Hsm. by apply Hbest.
  - assert (Hnone : forall r, r ∈ routes -> is_Some (match_admitted (pattern r) (nfc path)) -> method r <> m).
    { intros r Hr [ps Hps] Hm. rewrite first_match_none in Hf.
      rewrite (Hf r) in Hps; [done|]. destruct Hg as (_ & Hperm & _). apply list_elem_of_filter. by rewrite Hperm. }
    destruct (bool_decide (allowed_methods g (nfc path) = ∅)) eqn:He; [apply bool_decide_eq_true in He|apply bool_decide_eq_false in He].
    + split; [done|]. intros r [Hr Hps]. apply (not_elem_of_empty (C := gset string) (method_str (method r))).
      rewrite <-He. apply Hallowed. by exists r.
    + split; [done|].
      apply (allowed_list _ (fun r => r ∈ routes /\ is_Some (match_admitted (pattern r) (nfc path)))); [done..|].
      intros r [Hr Hps]. by apply Hnone.
Qed.

(** ** Properties *)

(** C21. Resolution is exact: on a graph that [seal] accepted, resolving a path never
    panics; it answers with the one route of the method that matches the normalized
    path and whose specificity is strictly the greatest, with the parameters of that
    match and what the scope of the route contributes; otherwise it reports exactly
    the methods that do match the path, in order, or that there are none. *)
Theorem resolve_exact `{Unicode, Sha256} b g m path :
  seal b = Some (Ok g) ->
  exists scopes, scope_map_of (graph_scopes g) ∅ = Ok scopes /\
  let valid := validate_request_path path && validate_request_path (nfc path) in
  let matches r := r ∈ builder_routes b /\ is_Some (match_admitted (pattern r) (nfc path)) in
  match resolve g m path with
  | None => False
  | Some (Err InvalidPath) => valid = false
  | Some (Err NotFound) => valid = true /\ forall r, ~ matches r
  | Some (Err (MethodNotAllowed ms)) =>
      valid = true /\ ms <> [] /\ (m ∉ ms) /\ StronglySorted String.le (map method_str ms) /\
      forall m', (m' ∈ ms) <-> exists r, matches r /\ method r = m'
  | Some (Ok x) =>
      valid = true /\
      exists r ps c, r ∈ builder_routes b /\ method r = m /\ match_admitted (pattern r) (nfc path) = Some ps /\
        resolve_scope_chain (scope r) scopes = Some (Ok c) /\ x = make_match r ps c /\
        forall s, matches s -> method s = m ->
          s = r \/ compare_list (specificity (pattern s)) (specificity (pattern r)) = Lt
  end.
Proof.
  intros (scopes & Hscopes & Hg)%seal_graph_ok. exists scopes. split; [done|]. by apply resolve_graph_ok.
Qed.

(** Sealing does not depend on the order of declaration: two builders that
    declare the same routes and the same scopes in different orders, and agree on
    the rest, seal to the same graph with the same digest. *)
Theorem seal_order_independent `{Unicode, Sha256} n routes routes' scopes scopes' pre declared roots g :
  seal (mkBuilder n routes scopes pre declared roots) = Some (Ok g) -> routes ≡ₚ routes' -> scopes ≡ₚ scopes' ->
  seal (mkBuilder n routes' scopes' pre declared roots) = Some (Ok g).
Proof.
  intros Hs Hr Hsc. pose proof (seal_sorted_inputs _ _ _ _ _ _ _ Hs) as [Hnr Hns]. rewrite <-Hs. unfold seal.
  cbn [builder_routes builder_scopes max_routes builder_pre_route_middleware builder_capabilities builder_error_boundaries].
  rewrite (sort_by_unique canonical_route_order routes routes' canonical_lawful Hr),
    (sort_by_unique scope_order scopes scopes' scope_lawful Hsc).
  - unfold blen. by rewrite (Permutation_length Hr).
  - intros x y Hx Hy Heq. apply (NoDup_map_inj scope_id scopes); [done..|]. by apply String.compare_eq_iff.
  - intros x y Hx Hy Heq. apply (NoDup_map_inj id routes); [done..|]. by apply canonical_order_id.
Qed.

(** ** A concrete graph *)

Module RouterSample.

(** ASCII text is its own normal form; the sample has no upper case. *)
Definition ascii_unicode : Unicode := {| nfc := fun s => s; nfkc := fun s => s; case_fold := fun s => s |}.

#[local] Existing Instances toy_sha256 ascii_unicode.

Definition route_or (r : result RouteError RouteSpec) : RouteSpec :=
  match r with Ok r => r | Err _ => mkRoute "" (mkMethod "GET") (mkPattern "" "" []) None [] [] [] [] None [] end.

Definition posts : RouteScopeSpec := mkScope "posts" LayoutScope None ["audit"] [] ["latest"] [].

Definition all_posts : RouteSpec :=
  route_or (r ← route_new "all-posts" (mkMethod "GET") "/posts/:page?"; route_scope r "posts").
Definition show_post : RouteSpec :=
  route_or (r ← route_new "show-post" (mkMethod "GET") "/posts/new/:slug"; route_with_loader r "post").
Definition any_post : RouteSpec := route_or (route_new "any-post" (mkMethod "GET") "/posts/*rest").
Definition make_post : RouteSpec := route_or (route_new "make-post" (mkMethod "POST") "/posts").

Definition declared : gmap string MiddlewareCapabilities := {[ "audit" := allowing none Reject ]}.

Definition builder : RouteGraphBuilder :=
  mkBuilder 8 [all_posts; any_post; make_post; show_post] [posts] [] declared ["root"].

Definition graph : RouteGraph :=
  match seal builder with Some (Ok g) => g | _ => mkGraph [] [] ∅ ∅ ∅ [] ∅ [] "" end.

Example builder_seals : seal builder = Some (Ok graph).
Proof. vm_compute. reflexivity. Qed.

Example literal_before_catch_all :
  option_map (fun r => match r with Ok x => (route_id x, map_to_list (parameters x)) | Err _ => ("", []) end)
    (resolve graph (mkMethod "GET") "/posts/new/first") = Some ("show-post", [("slug", "first")]).
Proof. vm_compute. reflexivity. Qed.

Example other_method : resolve graph (mkMethod "POST") "/posts/2" = Some (Err (MethodNotAllowed [mkMethod "GET"])).
Proof. vm_compute. reflexivity. Qed.

End RouterSample.

#[local] Existing Instances toy_sha256 RouterSample.ascii_unicode.

Lemma resolve_exact_witness :
  exists scopes, scope_map_of (graph_scopes RouterSample.graph) ∅ = Ok scopes /\
  match resolve RouterSample.graph (mkMethod "GET") "/posts" with Some (Ok x) => route_id x = "all-posts" | _ => False end.
Proof.
  destruct (resolve_exact RouterSample.builder RouterSample.graph (mkMethod "GET") "/posts" RouterSample.builder_seals)
    as (scopes & Hscopes & _).
  exists scopes. split; [exact Hscopes|]. vm_compute. reflexivity.
Defined.

Lemma seal_order_independent_witness :
  seal (mkBuilder 8 (reverse (builder_routes RouterSample.builder)) [RouterSample.posts] [] RouterSample.declared ["root"])
    = Some (Ok RouterSample.graph).
Proof.
  apply (seal_order_independent 8 (builder_routes RouterSample.builder) _ [RouterSample.posts]).
  - exact RouterSample.builder_seals.
  - symmetry. apply reverse_Permutation.
  - reflexivity.
Defined.
