(* ===== verification/Pboc.v ===== *)
(** * Pboc: the build output contract ([pliego-pboc])

    Models [crates/pliego-pboc/src/model.rs], [validate.rs], [util.rs] and
    [compatibility.rs]: the manifest of one sealed build, the checks of a manifest, its
    admission by a host, and the transitions between releases.

    [serde_json] is the class [ManifestCodec]; messages are built as the code builds
    them. An [expect] that fails is the outcome [None]. *)

From S2P Require Import Prelude Decimal Request Pattern Router.

Local Open Scope string_scope.
Local Open Scope N_scope.

Definition PBOC_FILE_NAME : string := "pliego.pboc.json".
Definition PBOC_SCHEMA : string := "dev.pliegors.pboc/v1alpha1".
Definition MAX_MANIFEST_BYTES : N := 16 * 1024 * 1024.
Definition MAX_COLLECTION_ITEMS : N := 100000.
Definition MAX_TEXT_BYTES : N := 4096.
Definition MAX_PORTABLE_PATH_BYTES : N := 4096.
Definition MAX_COMPONENT_BYTES : N := 255.
Definition MAX_PATH_COMPONENTS : N := 128.

(** ** The manifest *)

Record FrameworkIdentity : Type := mkFramework { framework_name : string; framework_version : string; framework_revision : string }.

Record ProvenanceIdentity : Type := mkProvenance { sbom_path : string; provenance_path : string; provenance_revision : string }.

Record BuildIdentity : Type := mkBuild {
  application_id : string;
  release_id : string;
  route_graph_sha256 : string;
  runtime_contract_sha256 : string;
  artifact_ledger_sha256 : string;
  provenance : ProvenanceIdentity;
}.

Record CompatibilityIdentity : Type := mkCompatibility {
  epoch : N;
  sequence : N;
  state_schema : string;
  previous_release_id : option string;
  rollback_safe : bool;
}.

Record FeatureRequirement : Type := mkFeature { feature_id : string; feature_version : N; feature_required : bool }.

(** [FeatureRequirement::required] and [optional]. *)
Definition required_feature (id : string) (version : N) : FeatureRequirement := mkFeature id version true.
Definition optional_feature (id : string) (version : N) : FeatureRequirement := mkFeature id version false.

Inductive ArtifactRole : Type := StaticAsset | NativeExecutable | CloudflareModule | Sbom | ProvenanceRole | Configuration.

Record PbocArtifact : Type := mkArtifact {
  artifact_path : string;
  artifact_bytes : N;
  artifact_sha256 : string;
  artifact_role : ArtifactRole;
  media_type : string;
}.

Inductive HostKind : Type := NativeOci | CloudflareWorkers.

#[export] Instance host_kind_eq_dec : EqDecision HostKind.
Proof. solve_decision. Defined.

Record DeploymentTarget : Type := mkTarget {
  target_id : string;
  target_host_kind : HostKind;
  artifact_paths : list string;
  required_features : list FeatureRequirement;
  optional_features : list FeatureRequirement;
}.

Record PbocAsset : Type := mkAsset {
  request_path_of : string;
  asset_artifact_path : string;
  asset_cache_policy_id : string;
  immutable : bool;
}.

Inductive RouteKind : Type := Static | Dynamic.
Inductive RenderMode : Type := Complete | Ordered | Boundary | ResourceMode.

#[export] Instance render_mode_eq_dec : EqDecision RenderMode.
Proof. solve_decision. Defined.

Record PbocRoute : Type := mkPbocRoute {
  route_id : string;
  route_method : string;
  route_pattern : string;
  route_kind : RouteKind;
  asset_path : option string;
  function_id : option string;
  render_mode : RenderMode;
  cache_policy_id : option string;
  route_features : list FeatureRequirement;
}.

Record PbocFunction : Type := mkFunction {
  function_name : string;
  entrypoint : string;
  render_modes : list RenderMode;
  max_response_bytes : N;
  function_secrets : list string;
  permission_ids : list string;
}.

Inductive CacheDomain : Type := PublicDomain | PrivateDomain | SessionDomain | RequestDomain.
Inductive CacheRevalidation : Type := Immutable | TimeBound | TagBound | NoStore.

Record CachePolicy : Type := mkPolicy {
  policy_id : string;
  domain : CacheDomain;
  revalidation : CacheRevalidation;
  max_age_seconds : option N;
  stale_while_revalidate_seconds : option N;
  vary_headers : list string;
  tags : list string;
}.

Record ResourcePermission : Type := mkPermission {
  permission_id : string;
  permission_resource : string;
  permission_capabilities : list string;
  permission_required : bool;
}.

Record SecretReference : Type := mkSecret { secret_id : string; purpose : string; secret_required : bool }.

Record TelemetryHook : Type := mkHook { hook_id : string; signal : string; hook_required : bool; redacted_fields : list string }.

Record PbocManifest : Type := mkManifest {
  schema : string;
  framework : FrameworkIdentity;
  build : BuildIdentity;
  compatibility : CompatibilityIdentity;
  capabilities : list FeatureRequirement;
  artifacts : list PbocArtifact;
  targets : list DeploymentTarget;
  assets : list PbocAsset;
  manifest_routes : list PbocRoute;
  functions : list PbocFunction;
  cache_policies : list CachePolicy;
  permissions : list ResourcePermission;
  secret_references : list SecretReference;
  telemetry_hooks : list TelemetryHook;
}.

Record HostProfile : Type := mkHost {
  host_id : string;
  host_version : string;
  host_target_id : string;
  host_kind : HostKind;
  host_features : list FeatureRequirement;
  max_artifact_bytes : N;
  max_bundle_bytes : N;
}.

(** [serde_json::Error] and [std::io::Error] are their texts. *)
Inductive PbocError : Type :=
| ManifestTooLarge (actual maximum : N)
| Json (error : string)
| Invalid (message : string)
| UnsupportedTarget (target : string)
| UnsupportedFeatures (features : list string)
| ArtifactError (message : string)
| Io (path source : string).

Class ManifestCodec : Type := {
  to_vec : PbocManifest -> result string bytes;
  from_slice : bytes -> result string PbocManifest;
}.

(** ** Checks of texts *)

Definition invalid {A} (message : string) : result PbocError A := Err (Invalid message).

(** A number in a message. *)
Definition number_text (n : N) : string := String.string_of_list_ascii (u64_to_string n).

Definition bounded_text (value label : string) : result PbocError unit :=
  if (slen value =? 0) || (MAX_TEXT_BYTES <? slen value) || any_control value
  then invalid (label ++ " is empty, too long, or contains controls") else Ok tt.

Definition is_portable_id_char (c : ascii) : bool := is_ascii_lowercase c || is_ascii_digit c || char_in ["-"; "."]%char c.

Definition portable_id (value : string) : bool :=
  match value with
  | EmptyString => false
  | String first rest =>
      (slen value <=? 128) && is_ascii_lowercase first && string_all is_portable_id_char rest
      && negb (ends_with "-" value) && negb (ends_with "." value)
      && negb (str_contains "--" value) && negb (str_contains ".." value)
  end.

Definition bounded_id (value label : string) : result PbocError unit :=
  _ ← bounded_text value label;
  if portable_id value then Ok tt else invalid (label ++ " is not a portable identifier: " ++ value).

Definition is_lowercase_hexdigit (c : ascii) : bool := is_ascii_hexdigit c && negb (is_ascii_uppercase c).

Definition check_sha256 (value label : string) : result PbocError unit :=
  if (slen value =? 64) && string_all is_lowercase_hexdigit value then Ok tt
  else invalid (label ++ " is not lowercase SHA-256").

Definition revision (value label : string) : result PbocError unit :=
  if (slen value =? 40) && string_all is_lowercase_hexdigit value then Ok tt
  else invalid (label ++ " is not a 40-character lowercase revision").

Section paths.
Context `{Unicode}.

Definition portable_component (component : string) : bool :=
  negb (String.eqb component "") && negb (String.eqb component ".") && negb (String.eqb component "..")
  && (slen component <=? MAX_COMPONENT_BYTES) && negb (has_last "." component) && negb (has_last " " component)
  && negb (any_control component)
  && string_all (fun c => negb (char_in ["000"; "<"; ">"; ":"; "034"; "|"; "?"; "*"]%char c)) component.

Definition reserved_component (component : string) : bool :=
  let stem := match split_on "." component with s :: _ => s | [] => component end in
  let reserved := portable_case_key stem in
  existsb (String.eqb reserved) ["con"; "prn"; "aux"; "nul"] || device_suffix "com" reserved || device_suffix "lpt" reserved.

Fixpoint check_components (value : string) (components : list string) : result string unit :=
  match components with
  | [] => Ok tt
  | component :: components =>
      if negb (portable_component component) then Err ("non-portable artifact path component: " ++ value)
      else if reserved_component component then Err ("reserved artifact path component: " ++ value)
      else check_components value components
  end.

Definition validate_portable_path (value : string) : result string string :=
  if (slen value =? 0) || (MAX_PORTABLE_PATH_BYTES <? slen value) || starts_with "/" value || has_last "/" value
     || str_has "\" value
  then Err ("non-portable artifact path: " ++ value)
  else
    let normalized := nfc value in
    if (MAX_PORTABLE_PATH_BYTES <? slen normalized) || negb (String.eqb normalized value)
    then Err ("artifact path is not NFC-normalized: " ++ value)
    else
      let components := split_slash normalized in
      if MAX_PATH_COMPONENTS <? blen components then Err ("artifact path has too many components: " ++ value)
      else _ ← check_components value components; Ok normalized.

Definition portable_path (value label : string) : result PbocError unit :=
  match validate_portable_path value with
  | Ok _ => Ok tt
  | Err error => invalid (label ++ ": " ++ error)
  end.
End paths.

Definition canonical_request_path (value : string) : bool :=
  negb (slen value =? 0) && (slen value <=? MAX_TEXT_BYTES) && starts_with "/" value
  && (String.eqb value "/" || negb (ends_with "/" value)) && negb (str_contains "//" value)
  && string_all (fun c => negb (char_in ["\"; "%"; "?"; "#"; "000"]%char c)) value && negb (any_control value).

Definition request_path (value label : string) : result PbocError unit :=
  if canonical_request_path value then Ok tt else invalid (label ++ " is not a canonical request path: " ++ value).

Definition check_method (value : string) : result PbocError unit :=
  if negb (slen value =? 0) && (slen value <=? 32) && string_all is_ascii_uppercase value then Ok tt
  else invalid ("invalid route method " ++ value).

(** ** Checks of collections *)

(** [for value in values { check(value)?; }]. *)
Fixpoint check_each {A} (check : A -> result PbocError unit) (values : list A) : result PbocError unit :=
  match values with
  | [] => Ok tt
  | value :: values => _ ← check value; check_each check values
  end.

Definition collection {A} (values : list A) (label : string) : result PbocError unit :=
  if MAX_COLLECTION_ITEMS <? blen values then invalid (label ++ " exceeds " ++ number_text MAX_COLLECTION_ITEMS ++ " entries") else Ok tt.

(** [windows(2).all(|window| window[0] < window[1])]. *)
Fixpoint ascending {A} (less : A -> A -> bool) (values : list A) : bool :=
  match values with
  | a :: (b :: _) as rest => less a b && ascending less rest
  | _ => true
  end.

Definition str_less (a b : string) : bool := match String.compare a b with Lt => true | _ => false end.

Definition require_sorted_unique {A} (values : list A) (key : A -> string) (label : string) : result PbocError unit :=
  if ascending (fun a b => str_less (key a) (key b)) values then Ok tt
  else invalid (label ++ " must be sorted with unique identifiers").

Definition require_sorted_unique_by_ord {A} (less : A -> A -> bool) (values : list A) (label : string) : result PbocError unit :=
  if ascending less values then Ok tt else invalid (label ++ " must be sorted and unique").

Definition sorted_strings (values : list string) (label : string) (lowercase : bool) : result PbocError unit :=
  _ ← require_sorted_unique_by_ord str_less values label;
  check_each (fun value =>
    _ ← bounded_text value label;
    if lowercase && negb (string_all (fun c => negb (is_ascii_uppercase c)) value)
    then invalid (label ++ " values must be lowercase") else Ok tt) values.

(** The derived order of [RenderMode]. *)
Definition mode_rank (m : RenderMode) : N := match m with Complete => 0 | Ordered => 1 | Boundary => 2 | ResourceMode => 3 end.
Definition mode_less (a b : RenderMode) : bool := mode_rank a <? mode_rank b.

(** The order of [(&method, &pattern, &id)]. *)
Definition route_less (a b : PbocRoute) : bool :=
  match String.compare (route_method a) (route_method b) with
  | Lt => true
  | Gt => false
  | Eq =>
      match String.compare (route_pattern a) (route_pattern b) with
      | Lt => true
      | Gt => false
      | Eq => str_less (route_id a) (route_id b)
      end
  end.

Definition validate_feature (label : string) (feature : FeatureRequirement) : result PbocError unit :=
  _ ← bounded_id (feature_id feature) label;
  if feature_version feature =? 0 then invalid (label ++ " " ++ feature_id feature ++ " has version zero") else Ok tt.

Definition feature_key (feature : FeatureRequirement) : string * N := (feature_id feature, feature_version feature).

(** ** The manifest *)

Section manifest.
Context `{Unicode}.

(** The loop over the artifacts, with the running total of bytes. *)
Fixpoint check_artifacts (total : N) (values : list PbocArtifact) : result PbocError N :=
  match values with
  | [] => Ok total
  | artifact :: values =>
      _ ← portable_path (artifact_path artifact) "artifact.path";
      _ ← check_sha256 (artifact_sha256 artifact) "artifact.sha256";
      _ ← bounded_text (media_type artifact) "artifact.mediaType";
      fail_if artifact_bytes artifact =? 0 with Invalid ("artifact " ++ artifact_path artifact ++ " has zero bytes");;
      total ← ok_or (Invalid "artifact byte total overflows u64") (checked_add_u64 total (artifact_bytes artifact));
      check_artifacts total values
  end.

Definition check_provenance (paths : gset string) (label path : string) : result PbocError unit :=
  _ ← portable_path path label;
  if bool_decide (path ∈ paths) then Ok tt else invalid (label ++ " references undeclared artifact " ++ path).

Definition validate_target (paths : gset string) (t : DeploymentTarget) : result PbocError unit :=
  _ ← bounded_id (target_id t) "target.id";
  _ ← sorted_strings (artifact_paths t) "target.artifactPaths" false;
  fail_if match artifact_paths t with [] => true | _ => false end
    with Invalid ("target " ++ target_id t ++ " contains no artifacts");;
  _ ← check_each (fun path =>
        if bool_decide (path ∈ paths) then Ok tt
        else invalid ("target " ++ target_id t ++ " references unknown artifact " ++ path)) (artifact_paths t);
  _ ← require_sorted_unique (required_features t) feature_id "target.requiredFeatures";
  _ ← require_sorted_unique (optional_features t) feature_id "target.optionalFeatures";
  _ ← check_each (fun feature =>
        _ ← validate_feature "target required feature" feature;
        if feature_required feature then Ok tt
        else invalid ("target " ++ target_id t ++ " required feature is marked optional")) (required_features t);
  _ ← check_each (fun feature =>
        _ ← validate_feature "target optional feature" feature;
        if feature_required feature then invalid ("target " ++ target_id t ++ " optional feature is marked required")
        else Ok tt) (optional_features t);
  let required := list_to_set (map feature_key (required_features t)) : gset (string * N) in
  match List.find (fun feature => bool_decide (feature_key feature ∈ required)) (optional_features t) with
  | Some feature => invalid ("target " ++ target_id t ++ " repeats feature " ++ feature_id feature)
  | None => Ok tt
  end.

Definition validate_policy (p : CachePolicy) : result PbocError unit :=
  _ ← bounded_id (policy_id p) "cachePolicy.id";
  fail_if match revalidation p, max_age_seconds p with TimeBound, None => true | _, _ => false end
    with Invalid ("cache policy " ++ policy_id p ++ " requires maxAgeSeconds");;
  fail_if match domain p with PrivateDomain | SessionDomain => true | _ => false end
          && negb (existsb (fun v => String.eqb v "cookie" || String.eqb v "authorization") (vary_headers p))
    with Invalid ("private cache policy " ++ policy_id p ++ " must vary on cookie or authorization");;
  _ ← sorted_strings (vary_headers p) "cachePolicy.varyHeaders" true;
  sorted_strings (tags p) "cachePolicy.tags" false.

Definition validate_asset (paths cache_ids : gset string) (a : PbocAsset) : result PbocError unit :=
  _ ← request_path (request_path_of a) "asset.requestPath";
  _ ← portable_path (asset_artifact_path a) "asset.artifactPath";
  fail_if negb (bool_decide (asset_artifact_path a ∈ paths))
    with Invalid ("asset " ++ request_path_of a ++ " references undeclared bytes");;
  fail_if negb (bool_decide (asset_cache_policy_id a ∈ cache_ids))
    with Invalid ("asset " ++ request_path_of a ++ " references unknown cache policy");;
  Ok tt.

Definition validate_secret (s : SecretReference) : result PbocError unit :=
  _ ← bounded_id (secret_id s) "secretReference.id";
  _ ← bounded_text (purpose s) "secretReference.purpose";
  fail_if str_has "=" (purpose s) || str_contains "Bearer " (purpose s)
    with Invalid ("secret reference " ++ secret_id s ++ " appears to contain a value");;
  Ok tt.

Definition validate_permission (p : ResourcePermission) : result PbocError unit :=
  _ ← bounded_id (permission_id p) "permission.id";
  _ ← bounded_id (permission_resource p) "permission.resource";
  _ ← sorted_strings (permission_capabilities p) "permission.capabilities" false;
  fail_if match permission_capabilities p with [] => true | _ => false end
    with Invalid ("permission " ++ permission_id p ++ " has no capabilities");;
  Ok tt.

Definition validate_function (secret_ids known_permissions : gset string) (f : PbocFunction) : result PbocError unit :=
  _ ← bounded_id (function_name f) "function.id";
  _ ← bounded_id (entrypoint f) "function.entrypoint";
  fail_if max_response_bytes f =? 0 with Invalid ("function " ++ function_name f ++ " has zero response budget");;
  fail_if match render_modes f with [] => true | _ => false end
    with Invalid ("function " ++ function_name f ++ " has no render modes");;
  _ ← require_sorted_unique_by_ord mode_less (render_modes f) "function.renderModes";
  _ ← sorted_strings (function_secrets f) "function.secretReferences" false;
  _ ← check_each (fun secret =>
        if bool_decide (secret ∈ secret_ids) then Ok tt
        else invalid ("function " ++ function_name f ++ " references unknown secret " ++ secret)) (function_secrets f);
  _ ← sorted_strings (permission_ids f) "function.permissionIds" false;
  check_each (fun permission =>
    if bool_decide (permission ∈ known_permissions) then Ok tt
    else invalid ("function " ++ function_name f ++ " references unknown permission " ++ permission)) (permission_ids f).

(** The [expect]s hold by the checks above them: the identifier is one of the functions. *)
Definition check_route_target (asset_paths function_ids : gset string) (fs : list PbocFunction) (r : PbocRoute)
    : result PbocError unit :=
  match route_kind r with
  | Static =>
      match function_id r, asset_path r with
      | None, Some asset =>
          fail_if negb (bool_decide (asset ∈ asset_paths)) with Invalid ("static route " ++ route_id r ++ " references unknown asset");;
          fail_if negb (bool_decide (render_mode r = Complete))
            with Invalid ("static route " ++ route_id r ++ " must use complete render mode");;
          Ok tt
      | _, _ => invalid ("static route " ++ route_id r ++ " has invalid target")
      end
  | Dynamic =>
      match asset_path r, function_id r with
      | None, Some id =>
          fail_if negb (bool_decide (id ∈ function_ids)) with Invalid ("dynamic route " ++ route_id r ++ " references unknown function");;
          match List.find (fun f => String.eqb (function_name f) id) fs with
          | Some f =>
              fail_if negb (bool_decide (render_mode r ∈ render_modes f))
                with Invalid ("route " ++ route_id r ++ " render mode is not implemented by function " ++ function_name f);;
              Ok tt
          | None => Ok tt
          end
      | _, _ => invalid ("dynamic route " ++ route_id r ++ " has invalid target")
      end
  end.

Definition validate_route (asset_paths function_ids cache_ids : gset string) (declared : gset (string * N)) (fs : list PbocFunction)
    (ids : gset string) (keys : gset (string * string)) (r : PbocRoute) : result PbocError unit :=
  _ ← bounded_id (route_id r) "route.id";
  _ ← check_method (route_method r);
  _ ← request_path (route_pattern r) "route.pattern";
  fail_if bool_decide (route_id r ∈ ids) with Invalid ("duplicate route ID " ++ route_id r);;
  fail_if bool_decide ((route_method r, route_pattern r) ∈ keys)
    with Invalid ("duplicate route " ++ route_method r ++ " " ++ route_pattern r);;
  _ ← check_route_target asset_paths function_ids fs r;
  fail_if match cache_policy_id r with Some id => negb (bool_decide (id ∈ cache_ids)) | None => false end
    with Invalid ("route " ++ route_id r ++ " references unknown cache policy");;
  _ ← require_sorted_unique (route_features r) feature_id "route.requiredFeatures";
  check_each (fun feature =>
    _ ← validate_feature "route feature" feature;
    fail_if negb (feature_required feature) with Invalid ("route " ++ route_id r ++ " lists an optional feature as required");;
    fail_if negb (bool_decide (feature_key feature ∈ declared))
      with Invalid ("route " ++ route_id r ++ " feature " ++ feature_id feature ++ " is not globally declared");;
    Ok tt) (route_features r).

(** The loop over the routes, with the identifiers and keys it has seen. *)
Fixpoint check_routes (asset_paths function_ids cache_ids : gset string) (declared : gset (string * N)) (fs : list PbocFunction)
    (ids : gset string) (keys : gset (string * string)) (rs : list PbocRoute) : result PbocError unit :=
  match rs with
  | [] => Ok tt
  | r :: rs =>
      _ ← validate_route asset_paths function_ids cache_ids declared fs ids keys r;
      check_routes asset_paths function_ids cache_ids declared fs ({[route_id r]} ∪ ids)
        ({[(route_method r, route_pattern r)]} ∪ keys) rs
  end.

Definition validate_hook (h : TelemetryHook) : result PbocError unit :=
  _ ← bounded_id (hook_id h) "telemetryHook.id";
  _ ← bounded_id (signal h) "telemetryHook.signal";
  sorted_strings (redacted_fields h) "telemetryHook.redactedFields" false.

(** The identity of the build, the first part of [validate_manifest]. *)
Definition validate_identity (m : PbocManifest) : result PbocError unit :=
  fail_if negb (String.eqb (schema m) PBOC_SCHEMA) with Invalid ("unsupported schema " ++ schema m);;
  _ ← bounded_id (framework_name (framework m)) "framework.name";
  _ ← bounded_text (framework_version (framework m)) "framework.version";
  _ ← revision (framework_revision (framework m)) "framework.sourceRevision";
  _ ← bounded_id (application_id (build m)) "build.applicationId";
  _ ← bounded_id (release_id (build m)) "build.releaseId";
  _ ← check_sha256 (route_graph_sha256 (build m)) "build.routeGraphSha256";
  _ ← check_sha256 (runtime_contract_sha256 (build m)) "build.runtimeContractSha256";
  _ ← check_sha256 (artifact_ledger_sha256 (build m)) "build.artifactLedgerSha256";
  _ ← revision (provenance_revision (provenance (build m))) "build.provenance.sourceRevision";
  fail_if negb (String.eqb (provenance_revision (provenance (build m))) (framework_revision (framework m)))
    with Invalid "framework and provenance source revisions differ";;
  fail_if (epoch (compatibility m) =? 0) || (sequence (compatibility m) =? 0)
    with Invalid "compatibility epoch and sequence must be non-zero";;
  _ ← bounded_id (state_schema (compatibility m)) "compatibility.stateSchema";
  match previous_release_id (compatibility m) with
  | Some previous =>
      _ ← bounded_id previous "compatibility.previousReleaseId";
      fail_if String.eqb previous (release_id (build m)) with Invalid "previous release cannot equal the current release";;
      Ok tt
  | None => Ok tt
  end.

Definition validate_collections (m : PbocManifest) : result PbocError unit :=
  _ ← collection (capabilities m) "capabilities";
  _ ← collection (artifacts m) "artifacts";
  _ ← collection (targets m) "targets";
  _ ← collection (assets m) "assets";
  _ ← collection (manifest_routes m) "routes";
  _ ← collection (functions m) "functions";
  _ ← collection (cache_policies m) "cachePolicies";
  _ ← collection (permissions m) "permissions";
  _ ← collection (secret_references m) "secretReferences";
  collection (telemetry_hooks m) "telemetryHooks".

Definition names_of {A} (key : A -> string) (values : list A) : gset string := list_to_set (map key values).

Definition validate_manifest (m : PbocManifest) : result PbocError unit :=
  _ ← validate_identity m;
  _ ← validate_collections m;
  _ ← require_sorted_unique (capabilities m) feature_id "capabilities";
  _ ← check_each (validate_feature "capability") (capabilities m);
  _ ← require_sorted_unique (artifacts m) artifact_path "artifacts";
  total ← check_artifacts 0 (artifacts m);
  let paths := names_of artifact_path (artifacts m) in
  fail_if total =? 0 with Invalid "PBOC contains no artifact bytes";;
  _ ← check_provenance paths "provenance.sbomPath" (sbom_path (provenance (build m)));
  _ ← check_provenance paths "provenance.provenancePath" (provenance_path (provenance (build m)));
  _ ← require_sorted_unique (targets m) target_id "targets";
  fail_if match targets m with [] => true | _ => false end with Invalid "at least one deployment target is required";;
  _ ← check_each (validate_target paths) (targets m);
  _ ← require_sorted_unique (cache_policies m) policy_id "cachePolicies";
  let cache_ids := names_of policy_id (cache_policies m) in
  _ ← check_each validate_policy (cache_policies m);
  _ ← require_sorted_unique (assets m) request_path_of "assets";
  _ ← check_each (validate_asset paths cache_ids) (assets m);
  let asset_paths := names_of asset_artifact_path (assets m) in
  _ ← require_sorted_unique (secret_references m) secret_id "secretReferences";
  let secret_ids := names_of secret_id (secret_references m) in
  _ ← check_each validate_secret (secret_references m);
  _ ← require_sorted_unique (permissions m) permission_id "permissions";
  let known_permissions := names_of permission_id (permissions m) in
  _ ← check_each validate_permission (permissions m);
  _ ← require_sorted_unique (functions m) function_name "functions";
  let function_ids := names_of function_name (functions m) in
  _ ← check_each (validate_function secret_ids known_permissions) (functions m);
  let declared := list_to_set (map feature_key (capabilities m)) : gset (string * N) in
  _ ← check_routes asset_paths function_ids cache_ids declared (functions m) ∅ ∅ (manifest_routes m);
  fail_if negb (ascending route_less (manifest_routes m)) with Invalid "routes are not in canonical method/pattern/id order";;
  _ ← require_sorted_unique (telemetry_hooks m) hook_id "telemetryHooks";
  check_each validate_hook (telemetry_hooks m).
End manifest.

(** [PbocRoute::dynamic]. *)
Definition dynamic_route (r : RouteSpec) (function_id : string) (mode : RenderMode) (features : list FeatureRequirement) : PbocRoute :=
  mkPbocRoute (id r) (method_str (method r)) (canonical (pattern r)) Dynamic None (Some function_id) mode
    (cache_policy r) features.

(** ** Bytes *)

Section codec.
Context `{Unicode, ManifestCodec, Sha256}.

Definition decode_manifest (bs : bytes) : result PbocError PbocManifest :=
  fail_if MAX_MANIFEST_BYTES <? blen bs with ManifestTooLarge (blen bs) MAX_MANIFEST_BYTES;;
  manifest ← map_err Json (from_slice bs);
  _ ← validate_manifest manifest;
  Ok manifest.

Definition encode_manifest (m : PbocManifest) : result PbocError bytes :=
  _ ← validate_manifest m;
  bs ← map_err Json (to_vec m);
  fail_if MAX_MANIFEST_BYTES <? blen bs with ManifestTooLarge (blen bs) MAX_MANIFEST_BYTES;;
  Ok bs.

Definition manifest_sha256 (m : PbocManifest) : result PbocError string :=
  bs ← encode_manifest m; Ok (hex (sha256 bs)).

Record RuntimeContractBinding : Type := mkBinding { binding_id : string; binding_sha256 : string }.

Definition binding_bytes (b : RuntimeContractBinding) : bytes :=
  (lp (as_bytes (binding_id b)) ++ as_bytes (binding_sha256 b))%list.

Definition runtime_contract_preimage (graph : string) (actions loaders caches : list RuntimeContractBinding) : bytes :=
  (as_bytes "pliego-runtime-contract-v1" ++ [x00] ++ as_bytes graph
   ++ concat (map binding_bytes (actions ++ loaders ++ caches)))%list.

Definition runtime_contract_sha256_v1 (graph : string) (actions loaders caches : list RuntimeContractBinding) : string :=
  hex (sha256 (runtime_contract_preimage graph actions loaders caches)).

(** ** Admission by a host *)

Record HostAdmission : Type := mkAdmission {
  contract : string;
  admitted_sha256 : string;
  admitted_host_id : string;
  admitted_host_version : string;
  admitted_target_id : string;
  admitted_artifact_paths : list string;
  unsupported_optional_features : list string;
  required_secret_references : list string;
}.

(** [format!("{}@{}", id, version)]. *)
Definition feature_text (feature : FeatureRequirement) : string := feature_id feature ++ "@" ++ number_text (feature_version feature).

Definition feature_set (host : HostProfile) : gset (string * N) := list_to_set (map feature_key (host_features host)).

(** The texts of the features that are not available. *)
Definition lacking (available : gset (string * N)) (features : list FeatureRequirement) : gset string :=
  list_to_set (map feature_text (List.filter (fun f => negb (bool_decide (feature_key f ∈ available))) features)).

Definition all_required (m : PbocManifest) (t : DeploymentTarget) : list FeatureRequirement :=
  (List.filter feature_required (capabilities m) ++ required_features t ++ concat (map route_features (manifest_routes m)))%list.

Definition all_optional (m : PbocManifest) (t : DeploymentTarget) : list FeatureRequirement :=
  (List.filter (fun f => negb (feature_required f)) (capabilities m) ++ optional_features t)%list.

(** The map [by_path]: a later artifact replaces an earlier one of its path. *)
Definition by_path (values : list PbocArtifact) : gmap string PbocArtifact :=
  fold_left (fun m a => <[artifact_path a := a]> m) values ∅.

Definition upload_paths (m : PbocManifest) (t : DeploymentTarget) : gset string :=
  list_to_set (artifact_paths t) ∪ names_of asset_artifact_path (assets m)
  ∪ {[sbom_path (provenance (build m))]} ∪ {[provenance_path (provenance (build m))]}.

(** The loop over the paths to upload; [None] is the [expect]. *)
Fixpoint upload_total (host : HostProfile) (known : gmap string PbocArtifact) (total : N) (paths : list string)
    : option (result PbocError N) :=
  match paths with
  | [] => Some (Ok total)
  | path :: paths =>
      match known !! path with
      | None => None
      | Some artifact =>
          if max_artifact_bytes host <? artifact_bytes artifact
          then Some (invalid ("artifact " ++ artifact_path artifact ++ " exceeds host limit " ++ number_text (max_artifact_bytes host)))
          else match checked_add_u64 total (artifact_bytes artifact) with
               | None => Some (invalid "host upload byte total overflows u64")
               | Some total => upload_total host known total paths
               end
      end
  end.

Definition find_target (m : PbocManifest) (host : HostProfile) : option DeploymentTarget :=
  List.find (fun t => String.eqb (target_id t) (host_target_id host) && bool_decide (target_host_kind t = host_kind host)) (targets m).

(** The checks before the artifacts are measured. *)
Definition admission_target (m : PbocManifest) (host : HostProfile) : result PbocError DeploymentTarget :=
  _ ← validate_manifest m;
  _ ← bounded_id (host_id host) "host.id";
  _ ← bounded_text (host_version host) "host.version";
  t ← ok_or (UnsupportedTarget (host_target_id host)) (find_target m host);
  let missing := lacking (feature_set host) (all_required m t) in
  fail_if negb (bool_decide (missing = ∅)) with UnsupportedFeatures (btree_elements missing);;
  Ok t.

(** [PbocManifest::admit]. *)
Definition admit_manifest (m : PbocManifest) (host : HostProfile) : option (result PbocError HostAdmission) :=
  match admission_target m host with
  | Err error => Some (Err error)
  | Ok t =>
      let paths := btree_elements (upload_paths m t) in
      match upload_total host (by_path (artifacts m)) 0 paths with
      | None => None
      | Some (Err error) => Some (Err error)
      | Some (Ok total) =>
          if max_bundle_bytes host <? total
          then Some (invalid ("host upload is " ++ number_text total ++ " bytes; maximum is " ++ number_text (max_bundle_bytes host)))
          else Some (
            sha ← manifest_sha256 m;
            Ok (mkAdmission "dev.pliegors.pboc-admission/v1" sha (host_id host) (host_version host) (target_id t) paths
                  (btree_elements (lacking (feature_set host) (all_optional m t)))
                  (map secret_id (List.filter secret_required (secret_references m)))))
      end
  end.
End codec.

(** ** Transitions between releases *)

Inductive CompatibilityDirection : Type := Rolling | Rollback.

Record CompatibilityReceipt : Type := mkReceipt {
  receipt_contract : string;
  direction : CompatibilityDirection;
  receipt_application_id : string;
  from_release_id : string;
  to_release_id : string;
  receipt_epoch : N;
  receipt_state_schema : string;
  from_sequence : N;
  to_sequence : N;
}.

Inductive CompatibilityError : Type :=
| InvalidManifest (error : PbocError)
| ApplicationMismatch
| EpochMismatch
| StateSchemaMismatch
| SequenceMismatch
| ReleaseChainMismatch
| RollbackUnsafe.

Definition compatibility_code (e : CompatibilityError) : string :=
  match e with
  | InvalidManifest _ => "PLG-PBOC-100"
  | ApplicationMismatch => "PLG-PBOC-101"
  | EpochMismatch => "PLG-PBOC-102"
  | StateSchemaMismatch => "PLG-PBOC-103"
  | SequenceMismatch => "PLG-PBOC-104"
  | ReleaseChainMismatch => "PLG-PBOC-105"
  | RollbackUnsafe => "PLG-PBOC-106"
  end.

Section transitions.
Context `{Unicode}.

Definition validate_pair (active candidate : PbocManifest) : result CompatibilityError unit :=
  _ ← map_err InvalidManifest (validate_manifest active);
  _ ← map_err InvalidManifest (validate_manifest candidate);
  fail_if negb (String.eqb (application_id (build active)) (application_id (build candidate))) with ApplicationMismatch;;
  fail_if negb (epoch (compatibility active) =? epoch (compatibility candidate)) with EpochMismatch;;
  fail_if negb (String.eqb (state_schema (compatibility active)) (state_schema (compatibility candidate))) with StateSchemaMismatch;;
  Ok tt.

Definition transition_receipt (d : CompatibilityDirection) (from to : PbocManifest) : CompatibilityReceipt :=
  mkReceipt "dev.pliegors.pboc-compatibility/v1" d (application_id (build from)) (release_id (build from)) (release_id (build to))
    (epoch (compatibility from)) (state_schema (compatibility from)) (sequence (compatibility from)) (sequence (compatibility to)).

Definition verify_rolling_transition (active candidate : PbocManifest) : result CompatibilityError CompatibilityReceipt :=
  _ ← validate_pair active candidate;
  fail_if sequence (compatibility candidate) <=? sequence (compatibility active) with SequenceMismatch;;
  fail_if negb (bool_decide (previous_release_id (compatibility candidate) = Some (release_id (build active)))) with ReleaseChainMismatch;;
  Ok (transition_receipt Rolling active candidate).

Definition verify_rollback_transition (active target : PbocManifest) : result CompatibilityError CompatibilityReceipt :=
  _ ← validate_pair active target;
  fail_if negb (rollback_safe (compatibility active)) with RollbackUnsafe;;
  fail_if sequence (compatibility active) <=? sequence (compatibility target) with SequenceMismatch;;
  fail_if negb (bool_decide (previous_release_id (compatibility active) = Some (release_id (build target)))) with ReleaseChainMismatch;;
  Ok (transition_receipt Rollback active target).
End transitions.
