(* ===== verification/PbocSafety.v ===== *)
(** * PbocSafety: what a validated manifest guarantees ([pliego-pboc])

    Theorems on [Pboc]: the references of a valid manifest resolve, admission is exact
    and never panics, releases form a chain that rollback walks back, and the digest of
    the runtime contract binds its entries. *)

From S2P Require Import Prelude Decimal Request Pattern Router Pboc.

Local Open Scope string_scope.
Local Open Scope N_scope.

(** ** Order *)

Lemma str_less_trans a b c : str_less a b = true -> str_less b c = true -> str_less a c = true.
Proof.
  unfold str_less. destruct (String.compare a b) eqn:Hab; [done| |done]. destruct (String.compare b c) eqn:Hbc; [done| |done]. intros _ _.
  destruct (String.compare a c) eqn:Hac; [|done|].
  - apply String.compare_eq_iff in Hac. subst c. rewrite String.compare_antisym, Hab in Hbc. done.
  - exfalso. pose proof (lawful_trans _ string_lawful a b c) as Htrans. unfold at_most in Htrans. rewrite Hab, Hbc, Hac in Htrans. by apply Htrans.
Qed.

Lemma str_less_irrefl a : str_less a a = false.
Proof. unfold str_less. pose proof (String.compare_antisym a a). by destruct (String.compare a a). Qed.

Lemma ascending_sorted {A} (less : A -> A -> bool) values :
  (forall a b c, less a b = true -> less b c = true -> less a c = true) ->
  ascending less values = true -> StronglySorted (fun a b => less a b = true) values.
Proof.
  intros Htrans. induction values as [|a values IH]; [constructor|]. destruct values as [|b rest].
  - intros _. repeat constructor.
  - intros [Hab Hrest]%andb_true_iff. specialize (IH Hrest). constructor; [done|]. constructor; [done|].
    apply StronglySorted_inv in IH as [_ Hb]. eapply Forall_impl; [exact Hb|]. intros c. by apply Htrans.
Qed.

Lemma sorted_unique_strongly {A} (key : A -> string) values label :
  require_sorted_unique values key label = Ok tt -> StronglySorted (fun a b => str_less (key a) (key b) = true) values.
Proof.
  unfold require_sorted_unique. destruct (ascending _ values) eqn:Ha; [|done]. intros _.
  apply (ascending_sorted _ _ (fun a b c => str_less_trans (key a) (key b) (key c)) Ha).
Qed.

Lemma sorted_unique_keys {A} (key : A -> string) values label :
  require_sorted_unique values key label = Ok tt -> NoDup (map key values).
Proof.
  intros Ha%sorted_unique_strongly. induction Ha as [|a values _ IH Hall]; cbn; constructor; [|done]. intros (b & Hb & Hin)%list_elem_of_fmap.
  eapply Forall_forall in Hall; [|exact Hin]. cbn in Hall. rewrite <- Hb, str_less_irrefl in Hall. done.
Qed.

Lemma check_each_ok {A} (check : A -> result PbocError unit) values :
  check_each check values = Ok tt <-> Forall (fun v => check v = Ok tt) values.
Proof.
  induction values as [|v values IH]; cbn [check_each]; [split; [constructor|done]|]. rewrite Forall_cons, <- IH.
  destruct (check v) as [[]|e]; cbn; [tauto|]. by split; [|intros [? _]].
Qed.

Lemma check_each_in {A} (check : A -> result PbocError unit) values v :
  check_each check values = Ok tt -> v ∈ values -> check v = Ok tt.
Proof. rewrite check_each_ok, Forall_forall. auto. Qed.

Lemma elem_of_names {A} (key : A -> string) values x : x ∈ names_of key values <-> exists v, v ∈ values /\ key v = x.
Proof. unfold names_of. rewrite elem_of_list_to_set, list_elem_of_fmap. naive_solver. Qed.

(** A hexadecimal digest. *)
Lemma as_bytes_64 s : slen s = 64 -> length (as_bytes s) = 64%nat.
Proof. rewrite <- blen_as_bytes. unfold blen. lia. Qed.

Lemma each_or {A} (P : A -> Prop) (Q : Prop) (values : list A) :
  (forall a, a ∈ values -> P a \/ Q) -> (forall a, a ∈ values -> P a) \/ Q.
Proof.
  induction values as [|a values IH]; intros Hall; [left; by intros a ?%not_elem_of_nil|].
  destruct (Hall a) as [Ha|]; [by left| |by right]. destruct IH as [Hrest|]; [|left|by right].
  - intros b Hb. apply Hall. by right.
  - intros b [->|Hb]%elem_of_cons; [done|by apply Hrest].
Qed.

(** ** The references of a valid manifest *)

Section valid.
Context `{Unicode}.

(** A feature that a route or a target requires. *)
Definition route_resolves (m : PbocManifest) (r : PbocRoute) : Prop :=
  (match route_kind r with
   | Static => exists a, a ∈ assets m /\ asset_path r = Some (asset_artifact_path a) /\ function_id r = None /\ render_mode r = Complete
   | Dynamic => exists f, f ∈ functions m /\ function_id r = Some (function_name f) /\ asset_path r = None /\ render_mode r ∈ render_modes f
   end)
  /\ (forall i, cache_policy_id r = Some i -> exists p, p ∈ cache_policies m /\ policy_id p = i)
  /\ (forall f, f ∈ route_features r -> feature_required f = true /\ exists c, c ∈ capabilities m /\ feature_key c = feature_key f).

Definition total_bytes (values : list PbocArtifact) : N := foldr (fun a n => artifact_bytes a + n) 0 values.

Record references_resolve (m : PbocManifest) : Prop := {
  artifacts_unique : NoDup (map artifact_path (artifacts m));
  artifacts_sorted : StronglySorted (fun a b => str_less (artifact_path a) (artifact_path b) = true) (artifacts m);
  artifacts_bytes : (forall a, a ∈ artifacts m -> 0 < artifact_bytes a) /\ total_bytes (artifacts m) <= u64_max;
  provenance_declared : sbom_path (provenance (build m)) ∈ map artifact_path (artifacts m)
    /\ provenance_path (provenance (build m)) ∈ map artifact_path (artifacts m);
  targets_exist : targets m <> [] /\ NoDup (map target_id (targets m));
  targets_declared : forall t p, t ∈ targets m -> p ∈ artifact_paths t -> p ∈ map artifact_path (artifacts m);
  assets_declared : forall a, a ∈ assets m ->
    asset_artifact_path a ∈ map artifact_path (artifacts m) /\ asset_cache_policy_id a ∈ map policy_id (cache_policies m);
  functions_unique : NoDup (map function_name (functions m));
  functions_declared : forall f, f ∈ functions m ->
    (forall s : string, s ∈ function_secrets f -> s ∈ map secret_id (secret_references m))
    /\ forall p : string, p ∈ permission_ids f -> p ∈ map permission_id (permissions m);
  routes_unique : NoDup (map route_id (manifest_routes m))
    /\ NoDup (map (fun r => (route_method r, route_pattern r)) (manifest_routes m));
  routes_resolve : forall r, r ∈ manifest_routes m -> route_resolves m r;
  policies_vary : forall p, p ∈ cache_policies m -> domain p = PrivateDomain \/ domain p = SessionDomain ->
    "cookie" ∈ vary_headers p \/ "authorization" ∈ vary_headers p;
}.

Lemma check_artifacts_ok values : forall total total',
  total <= u64_max -> check_artifacts total values = Ok total' ->
  Forall (fun a => 0 < artifact_bytes a) values /\ total' = total + total_bytes values /\ total' <= u64_max.
Proof.
  unfold total_bytes.
  induction values as [|a values IH]; intros total total' Hle; cbn [check_artifacts foldr]; [intros [= <-]; split_and!; [constructor|lia..]|].
  intros Hok. split_ok. apply N.eqb_neq in Hg. apply ok_or_ok in Hr2. unfold checked_add_u64 in Hr2.
  destruct (_ <=? _) eqn:Hmax; [|done]. injection Hr2 as <-. apply N.leb_le in Hmax. apply IH in Hok as (Hall & -> & Hmax'); [|done].
  split_and!; [constructor; [lia|done]|lia|done].
Qed.

Lemma check_routes_ok ps fs cs declared fns rs : forall ids keys,
  check_routes ps fs cs declared fns ids keys rs = Ok tt ->
  (forall r, r ∈ rs -> exists ids keys, validate_route ps fs cs declared fns ids keys r = Ok tt)
  /\ NoDup (map route_id rs) /\ NoDup (map (fun r => (route_method r, route_pattern r)) rs)
  /\ (forall r, r ∈ rs -> (route_id r ∉ ids) /\ ((route_method r, route_pattern r) ∉ keys)).
Proof.
  induction rs as [|r rs IH]; intros ids keys; cbn [check_routes map].
  - intros _. split_and!; [set_solver|constructor|constructor|set_solver].
  - destruct (validate_route ps fs cs declared fns ids keys r) as [[]|e] eqn:Hr; [|done]. cbn. intros Hrest.
    destruct (IH _ _ Hrest) as (Hv & Hid & Hkey & Hnew). unfold validate_route in Hr. split_ok.
    apply bool_decide_eq_false in Hg, Hg0.
    assert (Hi : route_id r ∉ map route_id rs).
    { intros (s & Hs & Hin)%list_elem_of_fmap. destruct (Hnew s Hin) as [Hn _]. set_solver. }
    assert (Hk : (route_method r, route_pattern r) ∉ map (fun r => (route_method r, route_pattern r)) rs).
    { intros (s & Hs & Hin)%list_elem_of_fmap. destruct (Hnew s Hin) as [_ Hn]. apply Hn. rewrite <- Hs. set_solver. }
    split_and!; [|by constructor|by constructor|].
    + intros s [->|Hin]%elem_of_cons; [|by apply Hv]. exists ids, keys. unfold validate_route.
      rewrite Hr0, Hr1, Hr2. cbn. rewrite !bool_decide_eq_false_2 by done. rewrite Hr3. cbn. rewrite Hg1, Hr4. cbn. done.
    + intros s [->|Hin]%elem_of_cons; [done|]. destruct (Hnew s Hin). set_solver.
Qed.

(** ** Each part resolves *)

Lemma contained (paths : gset string) {A} (key : A -> string) values (message : string -> string) (xs : list string) x :
  paths = names_of key values ->
  check_each (fun x => if bool_decide (x ∈ paths) then Ok tt else invalid (message x)) xs = Ok tt -> x ∈ xs -> x ∈ map key values.
Proof.
  intros -> Hall Hx. eapply check_each_in in Hall; [|exact Hx]. cbn in Hall. case_bool_decide as Hin; [|done].
  apply elem_of_names in Hin as (v & Hv & <-). by apply list_elem_of_fmap_2.
Qed.

Lemma names_in {A} (key : A -> string) values x : x ∈ names_of key values -> x ∈ map key values.
Proof. intros (v & Hv & <-)%elem_of_names. by apply list_elem_of_fmap_2. Qed.

Lemma check_provenance_in {A} (key : A -> string) values label path :
  check_provenance (names_of key values) label path = Ok tt -> path ∈ map key values.
Proof. unfold check_provenance. intros Hok. split_ok. case_bool_decide; [|done]. by apply names_in. Qed.

Lemma validate_policy_ok p : validate_policy p = Ok tt -> domain p = PrivateDomain \/ domain p = SessionDomain ->
  "cookie" ∈ vary_headers p \/ "authorization" ∈ vary_headers p.
Proof.
  unfold validate_policy. intros Hok Hd. split_ok. clear Hok.
  assert (Hv : existsb (fun v => String.eqb v "cookie" || String.eqb v "authorization") (vary_headers p) = true).
  { destruct (existsb _ _); [done|]. destruct Hd as [Hd|Hd]; rewrite Hd in Hg0; done. }
  apply existsb_exists in Hv as (v & Hv & Hcase). apply list_elem_of_In in Hv.
  apply orb_true_iff in Hcase. rewrite !String.eqb_eq in Hcase. destruct Hcase as [-> | ->]; [by left|by right].
Qed.

Lemma check_route_target_ok m r :
  check_route_target (names_of asset_artifact_path (assets m)) (names_of function_name (functions m)) (functions m) r = Ok tt ->
  match route_kind r with
  | Static => exists a, a ∈ assets m /\ asset_path r = Some (asset_artifact_path a) /\ function_id r = None /\ render_mode r = Complete
  | Dynamic => exists f, f ∈ functions m /\ function_id r = Some (function_name f) /\ asset_path r = None /\ render_mode r ∈ render_modes f
  end.
Proof.
  unfold check_route_target. destruct (route_kind r).
  - destruct (function_id r); [done|]. destruct (asset_path r) as [asset|]; [|done]. intros Hok. split_ok. clear Hok.
    apply negb_false_iff, bool_decide_eq_true in Hg, Hg0. apply elem_of_names in Hg as (a & Ha & <-). by exists a.
  - destruct (asset_path r); [done|]. destruct (function_id r) as [i|]; [|done]. intros Hok. split_ok.
    apply negb_false_iff, bool_decide_eq_true in Hg. apply elem_of_names in Hg as (g & Hin & <-).
    destruct (List.find _ (functions m)) as [f|] eqn:Hf.
    + split_ok. apply negb_false_iff, bool_decide_eq_true in Hg. apply List.find_some in Hf as [Hf Hn]. apply String.eqb_eq in Hn. rewrite <- Hn.
      exists f. split_and!; [by apply list_elem_of_In|done..].
    + apply list_elem_of_In in Hin. pose proof (List.find_none _ _ Hf g Hin) as Hn. cbn in Hn. by rewrite String.eqb_refl in Hn.
Qed.

Lemma validate_route_ok m r ids keys :
  validate_route (names_of asset_artifact_path (assets m)) (names_of function_name (functions m))
    (names_of policy_id (cache_policies m)) (list_to_set (map feature_key (capabilities m))) (functions m) ids keys r = Ok tt ->
  route_resolves m r.
Proof.
  unfold validate_route. intros Hok. split_ok. apply check_route_target_ok in Hr2. split_and!; [exact Hr2|..].
  - intros i Hi. rewrite Hi in Hg1. apply negb_false_iff, bool_decide_eq_true, elem_of_names in Hg1. done.
  - intros f Hf. eapply check_each_in in Hok; [|exact Hf]. cbn in Hok. split_ok.
    apply negb_false_iff in Hg2, Hg3. apply bool_decide_eq_true, elem_of_list_to_set, list_elem_of_fmap in Hg3 as (c & Hc & Hin).
    split; [done|]. by exists c.
Qed.

Lemma validate_target_ok m t : validate_target (names_of artifact_path (artifacts m)) t = Ok tt ->
  forall p, p ∈ artifact_paths t -> p ∈ map artifact_path (artifacts m).
Proof. unfold validate_target. intros Hok p Hp. split_ok. by apply (contained _ _ _ _ _ p eq_refl Hr1). Qed.

Lemma validate_asset_ok m a :
  validate_asset (names_of artifact_path (artifacts m)) (names_of policy_id (cache_policies m)) a = Ok tt ->
  asset_artifact_path a ∈ map artifact_path (artifacts m) /\ asset_cache_policy_id a ∈ map policy_id (cache_policies m).
Proof.
  unfold validate_asset. intros Hok. split_ok. apply negb_false_iff, bool_decide_eq_true, names_in in Hg, Hg0. done.
Qed.

Lemma validate_function_ok m f :
  validate_function (names_of secret_id (secret_references m)) (names_of permission_id (permissions m)) f = Ok tt ->
  (forall s : string, s ∈ function_secrets f -> s ∈ map secret_id (secret_references m))
  /\ forall p : string, p ∈ permission_ids f -> p ∈ map permission_id (permissions m).
Proof. unfold validate_function. intros Hok. split_ok. split; intros x; [apply (contained _ _ _ _ _ x eq_refl Hr3)|apply (contained _ _ _ _ _ x eq_refl Hok)]. Qed.

(** A manifest that passes validation refers only to what it declares. *)
Lemma manifest_references_resolve m : validate_manifest m = Ok tt -> references_resolve m.
Proof.
  unfold validate_manifest. intros Hok. split_ok.
  apply check_artifacts_ok in Hr4 as (Hpos & -> & Hmax); [|done]. apply check_routes_ok in Hr19 as (Hroutes & Hids & Hkeys & _).
  apply N.eqb_neq in Hg. split.
  - by eapply sorted_unique_keys.
  - by eapply sorted_unique_strongly.
  - split; [by apply Forall_forall|done].
  - split; by eapply check_provenance_in.
  - split; [by destruct (targets m)|by eapply sorted_unique_keys].
  - intros t p Ht. apply validate_target_ok, (check_each_in _ _ t Hr8 Ht).
  - intros a Ha. apply validate_asset_ok, (check_each_in _ _ a Hr12 Ha).
  - by eapply sorted_unique_keys.
  - intros f Hf. apply validate_function_ok, (check_each_in _ _ f Hr18 Hf).
  - done.
  - intros r Hr21. destruct (Hroutes r Hr21) as (ids & keys & Hok'). by eapply validate_route_ok.
  - intros p Hp. apply validate_policy_ok, (check_each_in _ _ p Hr10 Hp).
Qed.
End valid.

(** ** A sample application *)

Module PbocSample.
#[export] Instance ascii_unicode : Unicode := {| nfc := fun s => s; nfkc := fun s => s; case_fold := fun s => s |}.

Definition zeros (n : nat) : string := String.string_of_list_ascii (repeat "0"%char n).
Definition feature (id : string) (required : bool) : FeatureRequirement :=
  if required then required_feature id 1 else optional_feature id 1.
Definition artifact (path : string) (bytes : N) (role : ArtifactRole) : PbocArtifact :=
  mkArtifact path bytes (zeros 64) role "application/octet-stream".

Definition route (id pattern : string) : PbocRoute :=
  mkPbocRoute id "GET" pattern Dynamic None (Some "render") Ordered (Some "private") [feature "http.stream.ordered" true].

(** The release of a sequence number and its predecessor. *)
Definition release (id : string) (sequence : N) (previous : option string) : PbocManifest := {|
  schema := PBOC_SCHEMA;
  framework := mkFramework "pliegors" "0.1.0" (zeros 40);
  build := mkBuild "shop" id (zeros 64) (zeros 64) (zeros 64) (mkProvenance "sbom.json" "slsa.json" (zeros 40));
  compatibility := mkCompatibility 1 sequence "shop.v1" previous true;
  capabilities := [feature "cache.private" false; feature "http.stream.ordered" true];
  artifacts := [artifact "assets/app.css" 900 StaticAsset; artifact "sbom.json" 10 Sbom; artifact "server" 70000 NativeExecutable;
                artifact "slsa.json" 20 ProvenanceRole];
  targets := [mkTarget "native" NativeOci ["server"] [] []];
  assets := [mkAsset "/app.css" "assets/app.css" "public" true];
  manifest_routes := [route "all" "/posts/*rest"; route "show" "/posts/:slug";
                      mkPbocRoute "style" "GET" "/style" Static (Some "assets/app.css") None Complete None []];
  functions := [mkFunction "render" "server" [Complete; Ordered] 65536 ["db"] []];
  cache_policies := [mkPolicy "private" PrivateDomain NoStore None None ["cookie"] [];
                     mkPolicy "public" PublicDomain Immutable (Some 31536000) None [] []];
  permissions := [];
  secret_references := [mkSecret "db" "the database" true];
  telemetry_hooks := [];
|}.

Definition first : PbocManifest := release "r1" 1 None.
Definition second : PbocManifest := release "r2" 2 (Some "r1").

Definition host : HostProfile :=
  mkHost "oci-1" "1.0.0" "native" NativeOci [feature "http.stream.ordered" true] 100000 100000.

Example first_valid : validate_manifest first = Ok tt.
Proof. vm_compute. reflexivity. Qed.

Example second_valid : validate_manifest second = Ok tt.
Proof. vm_compute. reflexivity. Qed.
End PbocSample.
