(* ===== verification/PbocReleases.v ===== *)
(** * PbocReleases: releases that replace each other ([pliego-pboc])

    Theorems on the transitions between releases and on the digest of the runtime
    contract: rollback is rolling walked backwards, releases form a chain, and the digest
    binds the route graph and every entry. *)

From S2P Require Import Prelude Decimal Request Pattern Router Pboc PbocSafety.

Local Open Scope string_scope.
Local Open Scope N_scope.

Section releases.
Context `{Unicode}.

(** Two manifests of one line of releases. *)
Definition same_line (a b : PbocManifest) : Prop :=
  application_id (build a) = application_id (build b) /\ epoch (compatibility a) = epoch (compatibility b)
  /\ state_schema (compatibility a) = state_schema (compatibility b).

(** [b] is the release that may directly replace [a]. *)
Definition succeeds (a b : PbocManifest) : Prop :=
  validate_manifest a = Ok tt /\ validate_manifest b = Ok tt /\ same_line a b
  /\ sequence (compatibility a) < sequence (compatibility b)
  /\ previous_release_id (compatibility b) = Some (release_id (build a)).

Lemma validate_pair_ok a b : validate_pair a b = Ok tt <-> validate_manifest a = Ok tt /\ validate_manifest b = Ok tt /\ same_line a b.
Proof.
  unfold validate_pair, same_line. destruct (validate_manifest a) as [[]|]; [|naive_solver]. destruct (validate_manifest b) as [[]|]; [|naive_solver].
  cbn. destruct (String.eqb_spec (application_id (build a)) (application_id (build b))); cbn; [|naive_solver].
  destruct (N.eqb_spec (epoch (compatibility a)) (epoch (compatibility b))); cbn; [|naive_solver].
  destruct (String.eqb_spec (state_schema (compatibility a)) (state_schema (compatibility b))); cbn; naive_solver.
Qed.

Lemma same_line_sym a b : same_line a b <-> same_line b a.
Proof. unfold same_line. naive_solver. Qed.

Lemma rolling_ok a b r : verify_rolling_transition a b = Ok r <-> succeeds a b /\ r = transition_receipt Rolling a b.
Proof.
  unfold verify_rolling_transition, succeeds. destruct (validate_pair a b) as [[]|e] eqn:Hp.
  - apply validate_pair_ok in Hp. cbn. destruct (N.leb_spec (sequence (compatibility b)) (sequence (compatibility a))); [split; [done|lia]|].
    case_bool_decide; cbn; naive_solver.
  - cbn. split; [done|]. intros [(Ha & Hb & Hl & _) _]. by rewrite (proj2 (validate_pair_ok a b)) in Hp.
Qed.

Lemma rollback_ok a b r :
  verify_rollback_transition a b = Ok r <-> rollback_safe (compatibility a) = true /\ succeeds b a /\ r = transition_receipt Rollback a b.
Proof.
  unfold verify_rollback_transition, succeeds. destruct (validate_pair a b) as [[]|e] eqn:Hp.
  - apply validate_pair_ok in Hp as (Ha & Hb & Hl). rewrite same_line_sym. cbn. destruct (rollback_safe _); cbn; [|naive_solver].
    destruct (N.leb_spec (sequence (compatibility a)) (sequence (compatibility b))); [split; [done|lia]|].
    case_bool_decide; cbn; naive_solver.
  - cbn. split; [done|]. intros (_ & (Ha & Hb & Hl & _) & _). by rewrite (proj2 (validate_pair_ok a b)) in Hp by (by rewrite same_line_sym).
Qed.

(** A host that was rolled from release to release. *)
Inductive rolled : PbocManifest -> list PbocManifest -> Prop :=
| rolled_first m : rolled m []
| rolled_next m candidate receipt rest :
    verify_rolling_transition m candidate = Ok receipt -> rolled candidate rest -> rolled m (candidate :: rest).

(** [b] was rolled out later than [a]. *)
Definition later (a b : PbocManifest) : Prop := same_line a b /\ sequence (compatibility a) < sequence (compatibility b).

Lemma later_trans a b c : later a b -> later b c -> later a c.
Proof. unfold later, same_line. intros [(? & ? & ?) ?] [(? & ? & ?) ?]. split_and!; [congruence..|lia]. Qed.

Lemma rolled_later m rest : rolled m rest -> StronglySorted later (m :: rest).
Proof.
  induction 1 as [m|m candidate receipt rest Hroll _ IH]; [repeat constructor|].
  apply rolling_ok in Hroll as [(_ & _ & Hline & Hseq & _) _]. constructor; [done|].
  assert (Hl : later m candidate) by done. constructor; [done|]. apply StronglySorted_inv in IH as [_ Hall].
  eapply Forall_impl; [exact Hall|]. intros x. by apply later_trans.
Qed.
End releases.

(** ** The runtime contract *)

Definition binding_fits (b : RuntimeContractBinding) : Prop := slen (binding_id b) <= u64_max /\ slen (binding_sha256 b) = 64.

Lemma binding_delimiting : self_delimiting binding_fits binding_bytes.
Proof.
  intros [i s] [j t] r q [Hi Hs] [Hj Ht]. unfold binding_bytes. cbn in *. rewrite <- !app_assoc. intros E.
  apply lp_string_delimiting in E as [-> E]; [|done..]. apply (fixed_delimiting 64) in E as [E ->].
  - split; [|done]. f_equal. by apply as_bytes_inj.
  - exact (as_bytes_64 s Hs).
  - exact (as_bytes_64 t Ht).
Qed.

Lemma bindings_inj xs : forall ys, Forall binding_fits xs -> Forall binding_fits ys ->
  concat (map binding_bytes xs) = concat (map binding_bytes ys) -> xs = ys.
Proof.
  assert (Hne : forall b bs, binding_fits b -> (binding_bytes b ++ bs)%list <> []).
  { intros b bs [_ Hs] E. apply app_eq_nil in E as [E _]. unfold binding_bytes in E. apply app_eq_nil in E as [_ E].
    rewrite <- blen_as_bytes, E in Hs. done. }
  induction xs as [|x xs IH]; intros [|y ys] Hxs Hys; cbn; [done|intros E..|].
  - apply Forall_cons in Hys as [Hy _]. by destruct (Hne _ _ Hy (eq_sym E)).
  - apply Forall_cons in Hxs as [Hx _]. by destruct (Hne _ _ Hx E).
  - apply Forall_cons in Hxs as [Hx Hxs], Hys as [Hy Hys]. intros E.
    apply (binding_delimiting x y) in E as [-> E]; [|done..]. f_equal. by apply IH.
Qed.

(** The digest of a runtime contract binds the graph and the entries, as one list. *)
Lemma runtime_contract_binds `{Sha256} g g' actions actions' loaders loaders' caches caches' :
  slen g = 64 -> slen g' = 64 ->
  Forall binding_fits (actions ++ loaders ++ caches)%list -> Forall binding_fits (actions' ++ loaders' ++ caches')%list ->
  runtime_contract_sha256_v1 g actions loaders caches = runtime_contract_sha256_v1 g' actions' loaders' caches' ->
  (g = g' /\ (actions ++ loaders ++ caches = actions' ++ loaders' ++ caches')%list)
  \/ collides (runtime_contract_preimage g actions loaders caches) (runtime_contract_preimage g' actions' loaders' caches').
Proof.
  intros Hg Hg' Hf Hf' E%hex_inj.
  destruct (decide (runtime_contract_preimage g actions loaders caches = runtime_contract_preimage g' actions' loaders' caches')) as [Ep|Hne];
    [left|by right]. unfold runtime_contract_preimage in Ep. apply app_inv_head in Ep. cbn [app] in Ep. injection Ep as Ep.
  apply (fixed_delimiting 64) in Ep as [Eg Ep]; [|by apply as_bytes_64..]. split; [by apply as_bytes_inj|by apply bindings_inj].
Qed.

(** ** Properties *)

(** Releases rolled out one after the other advance strictly on one line, and rollback walks
    exactly one step back: the release that was replaced is accepted when the active one says it is
    safe, and whatever is accepted has that release's identifier and lies on its line. *)
Theorem rollback_walks_back `{Unicode} m rest before a b after :
  rolled m rest -> (m :: rest = before ++ a :: b :: after)%list ->
  StronglySorted later (m :: rest) /\
  (verify_rollback_transition b a = Ok (transition_receipt Rollback b a) <-> rollback_safe (compatibility b) = true) /\
  forall target r, verify_rollback_transition b target = Ok r ->
    r = transition_receipt Rollback b target /\ release_id (build target) = release_id (build a) /\ later target b /\ same_line target a.
Proof.
  intros Hrolled Hsplit. split; [by apply rolled_later|].
  assert (Hab : succeeds a b).
  { revert m rest Hrolled Hsplit. induction before as [|c before IH]; intros m rest Hrolled; cbn; intros [= -> Hrest].
    - subst rest. inversion Hrolled as [|? ? ? ? Hroll]; subst. by apply rolling_ok in Hroll as [? _].
    - destruct Hrolled as [m|m candidate receipt rest _ Hrolled]; [by destruct before|]. by eapply IH. }
  split.
  - rewrite rollback_ok. naive_solver.
  - intros target r (_ & (_ & _ & Hline & Hseq & Hprev) & ->)%rollback_ok. destruct Hab as (_ & _ & Hline' & _ & Hprev').
    rewrite Hprev in Hprev'. injection Hprev' as ->. split_and!; [done..|]. unfold same_line in *. naive_solver congruence.
Qed.

(** ** Witnesses *)

Import PbocSample.

Lemma rollback_walks_back_witness :
  verify_rollback_transition second first = Ok (transition_receipt Rollback second first).
Proof.
  apply (rollback_walks_back first [second] [] first second []); [|done..].
  eapply rolled_next; [vm_compute; reflexivity|constructor].
Defined.
