(* ===== verification/PbocAdmission.v ===== *)
(** * PbocAdmission: what a host is handed ([pliego-pboc])

    Theorems on the admission of a manifest by a host: it never panics, it succeeds
    exactly when the host has the target, the features and the room, and the receipt
    lists exactly what is uploaded. *)

From S2P Require Import Prelude Decimal Request Pattern Router Pboc PbocSafety.

Local Open Scope string_scope.
Local Open Scope N_scope.

(** ** The specification *)

(** What is uploaded for a target. *)
Definition uploaded (m : PbocManifest) (t : DeploymentTarget) (path : string) : Prop :=
  path ∈ artifact_paths t \/ path ∈ map asset_artifact_path (assets m)
  \/ path = sbom_path (provenance (build m)) \/ path = provenance_path (provenance (build m)).

(** A feature without which the host cannot run the target. *)
Definition demands (m : PbocManifest) (t : DeploymentTarget) (f : FeatureRequirement) : Prop :=
  (f ∈ capabilities m /\ feature_required f = true) \/ f ∈ required_features t
  \/ exists r, r ∈ manifest_routes m /\ f ∈ route_features r.

(** A feature it can do without. *)
Definition suggests (m : PbocManifest) (t : DeploymentTarget) (f : FeatureRequirement) : Prop :=
  (f ∈ capabilities m /\ feature_required f = false) \/ f ∈ optional_features t.

Definition provides (host : HostProfile) (f : FeatureRequirement) : Prop := feature_key f ∈ map feature_key (host_features host).

(** The bytes of the artifacts that are uploaded. *)
Definition upload_artifacts (m : PbocManifest) (t : DeploymentTarget) : list PbocArtifact :=
  List.filter (fun a => bool_decide (artifact_path a ∈ upload_paths m t)) (artifacts m).

Record admissible `{Unicode} (m : PbocManifest) (host : HostProfile) (t : DeploymentTarget) : Prop := {
  admissible_valid : validate_manifest m = Ok tt;
  admissible_host : bounded_id (host_id host) "host.id" = Ok tt /\ bounded_text (host_version host) "host.version" = Ok tt;
  admissible_target : t ∈ targets m /\ target_id t = host_target_id host /\ target_host_kind t = host_kind host;
  admissible_features : forall f, demands m t f -> provides host f;
  admissible_artifacts : forall a, a ∈ artifacts m -> uploaded m t (artifact_path a) -> artifact_bytes a <= max_artifact_bytes host;
  admissible_bundle : total_bytes (upload_artifacts m t) <= max_bundle_bytes host;
}.

Record admits `{Unicode, ManifestCodec, Sha256} (m : PbocManifest) (host : HostProfile) (t : DeploymentTarget) (a : HostAdmission) : Prop := {
  admits_contract : contract a = "dev.pliegors.pboc-admission/v1";
  admits_sha256 : manifest_sha256 m = Ok (admitted_sha256 a);
  admits_host : admitted_host_id a = host_id host /\ admitted_host_version a = host_version host /\ admitted_target_id a = target_id t;
  admits_paths : StronglySorted String.le (admitted_artifact_paths a) /\ NoDup (admitted_artifact_paths a)
    /\ forall p, p ∈ admitted_artifact_paths a <-> uploaded m t p;
  admits_optional : StronglySorted String.le (unsupported_optional_features a) /\ NoDup (unsupported_optional_features a)
    /\ forall x, x ∈ unsupported_optional_features a <-> exists f, suggests m t f /\ ~ provides host f /\ x = feature_text f;
  admits_secrets : required_secret_references a = map secret_id (List.filter secret_required (secret_references m));
}.

(** ** Sets *)

Lemma elem_of_upload m t p : p ∈ upload_paths m t <-> uploaded m t p.
Proof. unfold upload_paths, uploaded, names_of. rewrite !elem_of_union, !elem_of_list_to_set, !elem_of_singleton. naive_solver. Qed.

Lemma elem_of_feature_set host f : feature_key f ∈ feature_set host <-> provides host f.
Proof. unfold feature_set, provides. by rewrite elem_of_list_to_set. Qed.

Lemma elem_of_lacking host fs x :
  x ∈ lacking (feature_set host) fs <-> exists f, f ∈ fs /\ ~ provides host f /\ x = feature_text f.
Proof.
  unfold lacking. rewrite elem_of_list_to_set, list_elem_of_fmap. split.
  - intros (f & -> & Hf). apply list_elem_of_In, List.filter_In in Hf as [Hf Hn]. apply list_elem_of_In in Hf.
    apply negb_true_iff, bool_decide_eq_false in Hn. rewrite elem_of_feature_set in Hn. by exists f.
  - intros (f & Hf & Hn & ->). exists f. split; [done|]. apply list_elem_of_In, List.filter_In. split; [by apply list_elem_of_In|].
    apply negb_true_iff, bool_decide_eq_false. by rewrite elem_of_feature_set.
Qed.

Lemma elem_of_filter_b {A} (P : A -> bool) (values : list A) v : v ∈ List.filter P values <-> v ∈ values /\ P v = true.
Proof. by rewrite !list_elem_of_In, List.filter_In. Qed.

Lemma elem_of_concat_map {A B} (f : A -> list B) values x : x ∈ concat (map f values) <-> exists v, v ∈ values /\ x ∈ f v.
Proof.
  rewrite list_elem_of_In, in_concat. setoid_rewrite <- list_elem_of_In. setoid_rewrite list_elem_of_fmap. naive_solver.
Qed.

Lemma elem_of_all_required m t f : f ∈ all_required m t <-> demands m t f.
Proof. unfold all_required, demands. by rewrite !elem_of_app, elem_of_filter_b, elem_of_concat_map. Qed.

Lemma elem_of_all_optional m t f : f ∈ all_optional m t <-> suggests m t f.
Proof. unfold all_optional, suggests. rewrite elem_of_app, elem_of_filter_b, negb_true_iff. done. Qed.

Lemma lacking_empty host fs : lacking (feature_set host) fs = ∅ <-> forall f, f ∈ fs -> provides host f.
Proof.
  rewrite <- (leibniz_equiv_iff (A := gset string)), elem_of_equiv_empty. setoid_rewrite elem_of_lacking. split.
  - intros Hn f Hf. destruct (decide (feature_key f ∈ map feature_key (host_features host))) as [|Hno]; [done|].
    destruct (Hn (feature_text f)). by exists f.
  - intros Hall x (f & Hf & Hno & _). by apply Hno, Hall.
Qed.

(** A sorted list without repetitions is the elements of its set. *)
Lemma btree_elements_unique (s : gset string) l :
  StronglySorted String.le l -> NoDup l -> (forall x, x ∈ l <-> x ∈ s) -> l = btree_elements s.
Proof.
  intros Hsorted Hnd Hin. apply (StronglySorted_unique String.le); [done|apply StronglySorted_merge_sort; apply _|].
  unfold btree_elements. rewrite merge_sort_Permutation. apply NoDup_Permutation; [done|apply NoDup_elements|].
  intros x. by rewrite Hin, elem_of_elements.
Qed.

Lemma btree_elements_spec (s : gset string) :
  StronglySorted String.le (btree_elements s) /\ NoDup (btree_elements s) /\ forall x, x ∈ btree_elements s <-> x ∈ s.
Proof.
  split_and!; [apply StronglySorted_merge_sort; apply _| |apply elem_of_btree_elements].
  unfold btree_elements. rewrite merge_sort_Permutation. apply NoDup_elements.
Qed.

(** ** The artifacts by their paths *)

Lemma by_path_lookup values path a : NoDup (map artifact_path values) ->
  by_path values !! path = Some a <-> a ∈ values /\ artifact_path a = path.
Proof.
  intros Hnd. unfold by_path.
  assert (Hgen : forall m : gmap string PbocArtifact, fold_left (fun m a => <[artifact_path a := a]> m) values m !! path = Some a <->
    (a ∈ values /\ artifact_path a = path) \/ ((path ∉ map artifact_path values) /\ m !! path = Some a)).
  { revert Hnd. induction values as [|b values IH]; intros Hnd m; cbn [fold_left map]; [set_solver|].
    apply NoDup_cons in Hnd as [Hb Hnd]. rewrite (IH Hnd), lookup_insert_Some, !elem_of_cons.
    assert (Ha : a ∈ values -> artifact_path a <> artifact_path b).
    { intros Hin Heq. apply Hb. rewrite <- Heq. by apply list_elem_of_fmap_2. }
    destruct (decide (path = artifact_path b)) as [->|]; naive_solver. }
  rewrite Hgen, lookup_empty. naive_solver.
Qed.

Lemma total_bytes_perm values values' : values ≡ₚ values' -> total_bytes values = total_bytes values'.
Proof. unfold total_bytes. induction 1; cbn [foldr]; lia. Qed.

Lemma total_bytes_filter P values : total_bytes (List.filter P values) <= total_bytes values.
Proof. unfold total_bytes. induction values as [|a values IH]; cbn [List.filter foldr]; [done|]. destruct (P a); cbn [foldr]; lia. Qed.

Section upload.
Context (host : HostProfile) (values : list PbocArtifact) (Hnd : NoDup (map artifact_path values)).

(** The loop over the paths measures the artifacts they name. *)
Lemma upload_total_exact uploads : forall total,
  Forall (fun a => a ∈ values) uploads -> total + total_bytes uploads <= u64_max ->
  match upload_total host (by_path values) total (map artifact_path uploads) with
  | None => False
  | Some (Err _) => exists a, a ∈ uploads /\ max_artifact_bytes host < artifact_bytes a
  | Some (Ok total') => total' = total + total_bytes uploads /\ Forall (fun a => artifact_bytes a <= max_artifact_bytes host) uploads
  end.
Proof.
  unfold total_bytes. induction uploads as [|a uploads IH]; intros total Hin Hle; cbn [map upload_total foldr] in *; [split; [lia|constructor]|].
  apply Forall_cons in Hin as [Ha Hin]. rewrite (proj2 (by_path_lookup values (artifact_path a) a Hnd)) by done.
  destruct (max_artifact_bytes host <? artifact_bytes a) eqn:Hmax; [exists a; split; [by left|by apply N.ltb_lt]|].
  unfold checked_add_u64. rewrite (proj2 (N.leb_le (total + artifact_bytes a) u64_max)) by lia.
  specialize (IH (total + artifact_bytes a) Hin ltac:(lia)). destruct (upload_total _ _ _ _) as [[total'|e]|]; [..|done].
  - destruct IH as [-> Hall]. split; [lia|]. constructor; [by apply N.ltb_ge|done].
  - destruct IH as (b & Hb & Hlt). exists b. split; [by right|done].
Qed.
End upload.

(** ** Admission *)

Section admission.
Context `{Unicode}.

Lemma find_target_exact m host t : NoDup (map target_id (targets m)) ->
  find_target m host = Some t <-> t ∈ targets m /\ target_id t = host_target_id host /\ target_host_kind t = host_kind host.
Proof.
  intros Hnd. unfold find_target. split.
  - intros [Hin [Hid Hk]%andb_true_iff]%List.find_some. apply String.eqb_eq in Hid. apply bool_decide_eq_true in Hk.
    by apply list_elem_of_In in Hin.
  - intros (Hin & Hid & Hk). destruct (List.find _ _) as [t'|] eqn:Hf.
    + apply List.find_some in Hf as [Hin' [Hid' _]%andb_true_iff]. apply String.eqb_eq in Hid'. apply list_elem_of_In in Hin'.
      f_equal. apply (NoDup_map_inj target_id (targets m)); [done..|]. by rewrite Hid.
    + apply list_elem_of_In in Hin. pose proof (List.find_none _ _ Hf t Hin) as Hn. cbn in Hn.
      by rewrite Hid, String.eqb_refl, bool_decide_eq_true_2 in Hn.
Qed.

Lemma upload_artifacts_paths m t : references_resolve m -> t ∈ targets m ->
  btree_elements (upload_paths m t) = map artifact_path (upload_artifacts m t).
Proof.
  intros Hm Ht. symmetry. apply btree_elements_unique.
  - unfold upload_artifacts. generalize (artifacts_sorted m Hm). generalize (artifacts m). intros values Hs.
    induction Hs as [|a values _ IH Hall]; cbn [List.filter map]; [constructor|]. destruct (bool_decide _); [|done].
    cbn [map]. constructor; [done|]. apply Forall_forall. intros x (b & -> & Hb)%list_elem_of_fmap.
    apply elem_of_filter_b in Hb as [Hb _]. eapply Forall_forall in Hall; [|exact Hb]. unfold str_less in Hall.
    apply string_le_compare. by destruct (String.compare _ _).
  - pose proof (artifacts_unique m Hm) as Hnd. unfold upload_artifacts. revert Hnd. generalize (artifacts m). intros values.
    induction values as [|a values IH]; [done|]. intros [Ha Hnd]%NoDup_cons. cbn [List.filter]. destruct (bool_decide _); [|by apply IH].
    cbn [map]. apply NoDup_cons. split; [|by apply IH]. intros (b & Hb & [Hin _]%elem_of_filter_b)%list_elem_of_fmap.
    apply Ha. rewrite Hb. by apply list_elem_of_fmap_2.
  - intros x. rewrite list_elem_of_fmap. unfold upload_artifacts. setoid_rewrite elem_of_filter_b. setoid_rewrite bool_decide_eq_true. split.
    + by intros (a & -> & _ & Hx).
    + intros Hx. assert (Hd : x ∈ map artifact_path (artifacts m)).
      { apply elem_of_upload in Hx as [Hx|[(a & -> & Ha)%list_elem_of_fmap|[->| ->]]].
        - by eapply targets_declared.
        - by apply assets_declared.
        - by apply provenance_declared.
        - by apply provenance_declared. }
      apply list_elem_of_fmap in Hd as (a & -> & Ha). by exists a.
Qed.

Lemma admission_target_exact m host t : admission_target m host = Ok t <->
  validate_manifest m = Ok tt /\ (bounded_id (host_id host) "host.id" = Ok tt /\ bounded_text (host_version host) "host.version" = Ok tt)
  /\ (t ∈ targets m /\ target_id t = host_target_id host /\ target_host_kind t = host_kind host)
  /\ forall f, demands m t f -> provides host f.
Proof.
  unfold admission_target. destruct (validate_manifest m) as [[]|e] eqn:Hv; [|naive_solver]. cbn.
  pose proof (manifest_references_resolve m Hv) as Hm. destruct (targets_exist m Hm) as [_ Hnd].
  rewrite <- (find_target_exact m host t Hnd).
  destruct (bounded_id _ _) as [[]|e]; [|naive_solver]. cbn. destruct (bounded_text _ _) as [[]|e]; [|naive_solver]. cbn.
  destruct (find_target m host) as [t'|]; cbn; [|naive_solver].
  assert (Hl : lacking (feature_set host) (all_required m t') = ∅ <-> forall f, demands m t' f -> provides host f).
  { rewrite lacking_empty. by setoid_rewrite elem_of_all_required. }
  case_bool_decide as Hempty; cbn; rewrite Hl in Hempty; naive_solver.
Qed.

(** The receipt of an admission is the one the code builds. *)
Lemma receipt_exact `{ManifestCodec, Sha256} m host t a :
  (sha ← manifest_sha256 m;
   Ok (mkAdmission "dev.pliegors.pboc-admission/v1" sha (host_id host) (host_version host) (target_id t) (btree_elements (upload_paths m t))
         (btree_elements (lacking (feature_set host) (all_optional m t)))
         (map secret_id (List.filter secret_required (secret_references m))))) = Ok a <-> admits m host t a.
Proof.
  assert (Hopt : forall x, x ∈ lacking (feature_set host) (all_optional m t) <->
    exists f, suggests m t f /\ ~ provides host f /\ x = feature_text f).
  { intros x. rewrite elem_of_lacking. by setoid_rewrite elem_of_all_optional. }
  split.
  - destruct (manifest_sha256 m) as [sha|e] eqn:Hsha; [|done]. intros [= <-]. split; cbn; [done..| | |done].
    + pose proof (btree_elements_spec (upload_paths m t)) as (? & ? & Hin). split_and!; [done..|]. intros p. by rewrite Hin, elem_of_upload.
    + pose proof (btree_elements_spec (lacking (feature_set host) (all_optional m t))) as (? & ? & Hin). split_and!; [done..|].
      intros x. by rewrite Hin, Hopt.
  - destruct a as [c sha hid hv tid paths optional secrets]. intros [Hc Hsha (Hi & Hv & Hti) (Hs & Hnd & Hin) (Hs' & Hnd' & Hin') Hsec].
    cbn in *. rewrite Hsha. cbn. subst c hid hv tid secrets.
    rewrite (btree_elements_unique (upload_paths m t) paths) by (try done; intros x; by rewrite Hin, elem_of_upload).
    rewrite (btree_elements_unique (lacking (feature_set host) (all_optional m t)) optional) by (try done; intros x; by rewrite Hin', Hopt).
    done.
Qed.
End admission.

(** ** Properties *)

(** C35. Admission is exact: it never panics, and it succeeds with a receipt exactly when the
    manifest is valid, one of its targets is the host's own, the host provides every feature that
    the build, the target or a route demands, and the artifacts to upload fit, each and together;
    the receipt then lists exactly those artifacts, the optional features the host lacks and the
    secrets it must supply, under the digest of the manifest. *)
Theorem admission_exact `{Unicode, ManifestCodec, Sha256} m host :
  admit_manifest m host <> None /\
  forall a, admit_manifest m host = Some (Ok a) <-> exists t, admissible m host t /\ admits m host t a.
Proof.
  unfold admit_manifest. destruct (admission_target m host) as [t|e] eqn:Ht.
  2:{ split; [done|]. intros a. split; [done|]. intros (t & [? ? ? ? _ _] & _).
      rewrite (proj2 (admission_target_exact m host t)) in Ht by done. done. }
  pose proof (proj1 (admission_target_exact m host t) Ht) as (Hv & Hhost & Htarget & Hfeatures).
  pose proof (manifest_references_resolve m Hv) as Hm. rewrite (upload_artifacts_paths m t Hm) by apply Htarget.
  pose proof (upload_total_exact host (artifacts m) (artifacts_unique m Hm) (upload_artifacts m t) 0) as Hupload.
  pose proof (total_bytes_filter (fun a => bool_decide (artifact_path a ∈ upload_paths m t)) (artifacts m)) as Hle.
  destruct (artifacts_bytes m Hm) as [_ Hmax].
  specialize (Hupload ltac:(apply Forall_forall; intros a [Ha _]%elem_of_filter_b; done) ltac:(unfold upload_artifacts; lia)).
  assert (Huniq : forall t', admissible m host t' -> t' = t).
  { intros t' [? ? ? ? _ _]. rewrite (proj2 (admission_target_exact m host t')) in Ht by done. by injection Ht. }
  assert (Huploaded : forall a, a ∈ upload_artifacts m t <-> a ∈ artifacts m /\ uploaded m t (artifact_path a)).
  { intros a. unfold upload_artifacts. by rewrite elem_of_filter_b, bool_decide_eq_true, elem_of_upload. }
  destruct (upload_total _ _ _ _) as [[total|e]|]; [..|done].
  - destruct Hupload as [-> Hall]. rewrite N.add_0_l. destruct (max_bundle_bytes host <? _) eqn:Hbundle.
    + split; [done|]. intros a. split; [done|]. intros (t' & Hadm & _). pose proof (Huniq t' Hadm) as ->.
      apply N.ltb_lt in Hbundle. pose proof (admissible_bundle m host t Hadm). lia.
    + split; [done|]. intros a. apply N.ltb_ge in Hbundle.
      assert (Hadm : admissible m host t).
      { split; [done..| |done]. intros b Hb Hu. eapply Forall_forall in Hall; [exact Hall|]. by apply Huploaded. }
      rewrite <- (upload_artifacts_paths m t Hm) by apply Htarget.
      split; [intros [= Hr]; exists t; split; [done|by apply receipt_exact]|].
      intros (t' & Hadm' & Hr%receipt_exact). rewrite (Huniq t' Hadm') in Hr. by f_equal.
  - split; [done|]. intros a. split; [done|]. intros (t' & Hadm & _). pose proof (Huniq t' Hadm) as ->.
    destruct Hupload as (b & Hb & Hlt). apply Huploaded in Hb as [Hb Hu]. pose proof (admissible_artifacts m host t Hadm b Hb Hu). lia.
Qed.

(** ** A sample admission *)

Module AdmissionSample.
Import PbocSample.

#[local] Existing Instance toy_sha256.
#[local] Instance release_codec : ManifestCodec :=
  {| to_vec := fun m => Ok (as_bytes (release_id (build m))); from_slice := fun _ => Err "not a manifest" |}.

Example first_admitted :
  match admit_manifest first host with
  | Some (Ok a) => admitted_artifact_paths a = ["assets/app.css"; "sbom.json"; "server"; "slsa.json"]
      /\ unsupported_optional_features a = ["cache.private@1"] /\ required_secret_references a = ["db"]
  | _ => False
  end.
Proof. vm_compute. done. Qed.

Example missing_feature : admit_manifest first (mkHost "oci-1" "1.0.0" "native" NativeOci [] 100000 100000)
  = Some (Err (UnsupportedFeatures ["http.stream.ordered@1"])).
Proof. vm_compute. reflexivity. Qed.

Example too_large : admit_manifest first (mkHost "oci-1" "1.0.0" "native" NativeOci (host_features host) 60000 100000)
  = Some (Err (Invalid "artifact server exceeds host limit 60000")).
Proof. vm_compute. reflexivity. Qed.
End AdmissionSample.
