(* ===== verification/PbocBundle.v ===== *)
(** * PbocBundle: verification of a bundle on disk ([pliego-pboc/src/artifact.rs])

    [verify_bundle] reads a directory whose files others may change meanwhile. What its
    calls answer is the argument: the tree of directory entries the walk sees, where each
    directory and each entry is asked once, and for each declared path the answers of the
    two [symlink_metadata] and of the [read] between them. Paths are those of a system
    whose separator is the slash; names are bytes, which [to_string_lossy] may change. *)

From S2P Require Import Prelude Decimal Request Pattern Router Pboc PbocSafety PbocAdmission.

Local Open Scope string_scope.
Local Open Scope N_scope.

(** ** Names *)

(** [String::from_utf8_lossy]: each maximal part of a broken sequence becomes U+FFFD. *)
Definition REPLACEMENT : bytes := [xef; xbf; xbd].

Definition continuation (b : Byte.byte) : bool := byte_in 128 191 b.

(** The second byte a first byte allows. *)
Definition second_of_three (a b : Byte.byte) : bool :=
  if byte_in 224 224 a then byte_in 160 191 b else if byte_in 237 237 a then byte_in 128 159 b else byte_in 128 191 b.
Definition second_of_four (a b : Byte.byte) : bool :=
  if byte_in 240 240 a then byte_in 144 191 b else if byte_in 244 244 a then byte_in 128 143 b else byte_in 128 191 b.

Fixpoint lossy (bs : bytes) : bytes :=
  match bs with
  | [] => []
  | a :: bs1 =>
      if byte_in 0 127 a then a :: lossy bs1
      else if byte_in 194 223 a then
        match bs1 with
        | b :: bs2 => if continuation b then a :: b :: lossy bs2 else REPLACEMENT ++ lossy bs1
        | [] => REPLACEMENT
        end
      else if byte_in 224 239 a then
        match bs1 with
        | b :: bs2 =>
            if second_of_three a b then
              match bs2 with
              | c :: bs3 => if continuation c then a :: b :: c :: lossy bs3 else REPLACEMENT ++ lossy bs2
              | [] => REPLACEMENT
              end
            else REPLACEMENT ++ lossy bs1
        | [] => REPLACEMENT
        end
      else if byte_in 240 244 a then
        match bs1 with
        | b :: bs2 =>
            if second_of_four a b then
              match bs2 with
              | c :: bs3 =>
                  if continuation c then
                    match bs3 with
                    | d :: bs4 => if continuation d then a :: b :: c :: d :: lossy bs4 else REPLACEMENT ++ lossy bs3
                    | [] => REPLACEMENT
                    end
                  else REPLACEMENT ++ lossy bs2
              | [] => REPLACEMENT
              end
            else REPLACEMENT ++ lossy bs1
        | [] => REPLACEMENT
        end
      else REPLACEMENT ++ lossy bs1
  end%list.

Definition to_string_lossy (name : string) : string := String.string_of_list_byte (lossy (as_bytes name)).

(** [Path::join] with a relative path. *)
Definition join_path (base name : string) : string :=
  if String.eqb base "" || ends_with "/" base then base ++ name else base ++ "/" ++ name.

(** ** What the calls answer *)

Inductive FileType : Type := RegularFile | DirectoryType | SymlinkType | OtherType.

#[export] Instance file_type_eq_dec : EqDecision FileType.
Proof. solve_decision. Defined.

(** [modified().ok()] is a point in time. *)
Record Metadata : Type := mkMetadata { file_type : FileType; len : N; modified : option N }.

(** An entry of a directory: its name, its metadata and, for a directory, its own entries. *)
Inductive Entry : Type := mkEntry (name : string) (metadata : result string Metadata) (listing : result string (list Entry)).

Definition file_name (e : Entry) : string := let 'mkEntry name _ _ := e in name.

Record Observation : Type := mkObservation {
  before : result string Metadata; content : result string bytes; after : result string Metadata }.

Record Tree : Type := mkTree {
  root : string; root_metadata : result string Metadata; root_listing : result string (list Entry); observe : string -> Observation }.

(** ** The walk *)

Definition io {A} (path : string) (answer : result string A) : result PbocError A := map_err (Io (to_string_lossy path)) answer.

Fixpoint run_each (steps : list (string * (gset string -> result PbocError (gset string)))) (output : gset string)
    : result PbocError (gset string) :=
  match steps with
  | [] => Ok output
  | (_, step) :: steps => output ← step output; run_each steps output
  end.

(** [entries.sort_by_key(|entry| entry.file_name())], then the loop. *)
Definition run_by_name (steps : list (string * (gset string -> result PbocError (gset string)))) :
    gset string -> result PbocError (gset string) :=
  run_each (sort_by (fun l r => String.compare l.1 r.1) steps).

Section bundle.
Context `{Unicode}.

(** The relative path of a file from the components below the root. *)
Definition portable_of (components : list string) : string := join_slash (map to_string_lossy components).

(** One entry of [collect_files]; a path below the root always has it as its prefix. *)
Fixpoint collect_entry (directory : string) (parents : list string) (e : Entry) (output : gset string)
    : result PbocError (gset string) :=
  let 'mkEntry name metadata listing := e in
  let path := join_path directory name in
  match io path metadata with
  | Err error => Err error
  | Ok metadata =>
      match file_type metadata with
      | SymlinkType => Err (ArtifactError ("symlink is forbidden: " ++ to_string_lossy path))
      | DirectoryType =>
          match listing with
          | Err error => io path (Err error)
          | Ok entries => run_by_name (map (fun e => (file_name e, collect_entry path (parents ++ [name]) e)) entries) output
          end
      | RegularFile =>
          let portable := portable_of (parents ++ [name]) in
          _ ← map_err ArtifactError (validate_portable_path portable);
          Ok ({[portable]} ∪ output)
      | OtherType => Err (ArtifactError ("unsupported file type: " ++ to_string_lossy path))
      end
  end.

(** [collect_files(root, root, &mut observed)]. *)
Definition collect_files (t : Tree) (output : gset string) : result PbocError (gset string) :=
  entries ← io (root t) (root_listing t);
  run_by_name (map (fun e => (file_name e, collect_entry (root t) [] e)) entries) output.

(** ** The artifacts *)

Section hashed.
Context `{Sha256}.

Definition verify_artifact (t : Tree) (relative : string) (a : PbocArtifact) : result PbocError unit :=
  let path := join_path (root t) relative in
  let answers := observe t relative in
  before ← io path (before answers);
  fail_if negb (bool_decide (file_type before = RegularFile)) with ArtifactError (artifact_path a ++ " is not a regular file");;
  fail_if negb (len before =? artifact_bytes a) with ArtifactError (artifact_path a ++ " byte length differs");;
  bytes ← io path (content answers);
  after ← io path (after answers);
  fail_if negb (len before =? len after) || negb (bool_decide (modified before = modified after))
    with ArtifactError (artifact_path a ++ " changed during verification");;
  fail_if negb (String.eqb (hex (sha256 bytes)) (artifact_sha256 a)) with ArtifactError (artifact_path a ++ " digest differs");;
  Ok tt.

(** What the digest of the set takes from an artifact. *)
Definition artifact_entry (a : PbocArtifact) : bytes :=
  (lp (as_bytes (artifact_path a)) ++ be_bytes 8 (artifact_bytes a) ++ as_bytes (artifact_sha256 a))%list.

Fixpoint verify_each (t : Tree) (total : N) (set : bytes) (expected : list (string * PbocArtifact)) : result PbocError (N * bytes) :=
  match expected with
  | [] => Ok (total, set)
  | (relative, a) :: expected =>
      _ ← verify_artifact t relative a;
      total ← ok_or (ArtifactError "bundle byte total overflows u64") (checked_add_u64 total (artifact_bytes a));
      verify_each t total (set ++ artifact_entry a)%list expected
  end.

Record BundleVerification : Type := mkVerification {
  bundle_contract : string; bundle_manifest_sha256 : string; artifact_count : N; bundle_total_bytes : N; artifact_set_sha256 : string }.

(** The entries of the map in the order of their keys. *)
Definition btree_entries {A} (entries : gmap string A) : list (string * A) :=
  omap (fun key => value ← entries !! key; Some (key, value)) (btree_elements (dom entries)).

Definition verify_bundle `{ManifestCodec} (t : Tree) (m : PbocManifest) : result PbocError BundleVerification :=
  _ ← validate_manifest m;
  root_metadata ← io (root t) (root_metadata t);
  fail_if negb (bool_decide (file_type root_metadata = DirectoryType)) with ArtifactError "bundle root must be a real directory";;
  let expected := by_path (artifacts m) in
  observed ← collect_files t ∅;
  let observed := observed ∖ {[PBOC_FILE_NAME]} in
  let expected_paths := dom expected : gset string in
  fail_if negb (bool_decide (observed = expected_paths))
    with ArtifactError ("bundle exact set differs; missing=[" ++ String.concat "," (btree_elements (expected_paths ∖ observed))
           ++ "] extra=[" ++ String.concat "," (btree_elements (observed ∖ expected_paths)) ++ "]");;
  verified ← verify_each t 0 [] (btree_entries expected);
  sha ← manifest_sha256 m;
  Ok (mkVerification "dev.pliegors.pboc-bundle-verification/v1" sha (N.of_nat (size expected)) (fst verified)
        (hex (sha256 (snd verified)))).
End hashed.
End bundle.
