(* ===== verification/PbocBundleSafety.v ===== *)
(** * PbocBundleSafety: a verified bundle is the declared one ([pliego-pboc/src/artifact.rs])

    Theorems on [PbocBundle]: verification succeeds exactly when the files below the root,
    by the names that [to_string_lossy] reads, are the declared ones with the declared
    contents, and the digest of the set binds these. Where all names are UTF-8, the files
    are the declared ones by their own names. *)

From S2P Require Import Prelude Decimal Request Pattern Router Pboc PbocSafety PbocAdmission PbocBundle.

Local Open Scope string_scope.
Local Open Scope N_scope.

(** ** Lossy names *)

(** A name that is UTF-8 is unchanged. *)
Lemma lossy_valid bs : utf8_valid bs = true -> lossy bs = bs.
Proof.
  induction bs as [bs IH] using (induction_ltof1 _ (@length Byte.byte)). unfold ltof in IH.
  destruct bs as [|a bs1]; [done|]. cbn [utf8_valid lossy]. unfold continuation, second_of_three, second_of_four.
  destruct (byte_in 0 127 a); [intros Hv; f_equal; apply IH; [cbn; lia|done]|].
  destruct bs1 as [|b bs2]; [done|]. destruct (byte_in 194 223 a).
  { intros [-> Hv]%andb_true_iff. do 2 f_equal. apply IH; [cbn; lia|done]. }
  destruct bs2 as [|c bs3]; [done|]. destruct (byte_in 224 239 a).
  { intros [[Hb ->]%andb_true_iff Hv]%andb_true_iff. rewrite Hb. do 3 f_equal. apply IH; [cbn; lia|done]. }
  destruct bs3 as [|d bs4]; [done|]. intros [[[[-> Hb]%andb_true_iff ->]%andb_true_iff ->]%andb_true_iff Hv]%andb_true_iff.
  rewrite Hb. do 4 f_equal. apply IH; [cbn; lia|done].
Qed.

Lemma to_string_lossy_valid s : utf8_valid (as_bytes s) = true -> to_string_lossy s = s.
Proof. intros Hv. unfold to_string_lossy. rewrite lossy_valid by done. apply String.string_of_list_byte_of_string. Qed.

(** ** The walk *)

Section walk.
Context `{Unicode}.

(** Entries are trees. *)
Lemma entry_induction (P : Entry -> Prop) :
  (forall name metadata error, P (mkEntry name metadata (Err error))) ->
  (forall name metadata entries, Forall P entries -> P (mkEntry name metadata (Ok entries))) -> forall e, P e.
Proof.
  intros Herr Hok. fix IH 1. intros [name metadata [entries|error]]; [|apply Herr]. apply Hok.
  induction entries as [|e entries IHes]; constructor; [apply IH|apply IHes].
Qed.

(** The files of an entry, by their portable names. *)
Fixpoint entry_files (parents : list string) (e : Entry) : list string :=
  let 'mkEntry name metadata listing := e in
  match metadata, listing with
  | Ok (mkMetadata RegularFile _ _), _ => [portable_of (parents ++ [name])]
  | Ok (mkMetadata DirectoryType _ _), Ok entries => concat (map (entry_files (parents ++ [name])) entries)
  | _, _ => []
  end.

(** Nothing but readable directories and regular files of portable names. *)
Fixpoint entry_ok (parents : list string) (e : Entry) : Prop :=
  let 'mkEntry name metadata listing := e in
  match metadata, listing with
  | Ok (mkMetadata RegularFile _ _), _ =>
      validate_portable_path (portable_of (parents ++ [name])) = Ok (nfc (portable_of (parents ++ [name])))
  | Ok (mkMetadata DirectoryType _ _), Ok entries => foldr (fun e P => entry_ok (parents ++ [name]) e /\ P) True entries
  | _, _ => False
  end.

Lemma foldr_and {A} (P : A -> Prop) values : foldr (fun a Q => P a /\ Q) True values <-> Forall P values.
Proof. induction values as [|a values IH]; cbn [foldr]; [by split; [constructor|]|]. by rewrite Forall_cons, IH. Qed.

Definition step_exact (step : gset string -> result PbocError (gset string)) (ok : Prop) (files : list string) : Prop :=
  forall output output', step output = Ok output' <-> ok /\ output' = list_to_set files ∪ output.

Lemma run_each_exact {A} (name : A -> string) (step : A -> gset string -> result PbocError (gset string)) (ok : A -> Prop)
    (files : A -> list string) entries :
  Forall (fun e => step_exact (step e) (ok e) (files e)) entries ->
  step_exact (run_each (map (fun e => (name e, step e)) entries)) (Forall ok entries) (concat (map files entries)).
Proof.
  induction 1 as [|e entries He _ IH]; intros output output'; cbn [map run_each concat].
  - rewrite list_to_set_nil, union_empty_l_L. split; [intros [= <-]; by split; [constructor|]|]. by intros [_ ->].
  - rewrite Forall_cons. specialize (He output). specialize (IH (list_to_set (files e) ∪ output)). destruct (step e output) as [out|error] eqn:Hs.
    + pose proof (proj1 (He out) eq_refl) as [Hok ->]. cbn. rewrite IH, list_to_set_app_L, (union_assoc_L _ _ output),
        (union_comm_L (list_to_set (concat _))). tauto.
    + cbn. split; [done|]. intros [[Hok _] _]. discriminate (proj2 (He _) (conj Hok eq_refl)).
Qed.

Lemma run_by_name_exact {A} (name : A -> string) (step : A -> gset string -> result PbocError (gset string)) (ok : A -> Prop)
    (files : A -> list string) entries :
  Forall (fun e => step_exact (step e) (ok e) (files e)) entries ->
  step_exact (run_by_name (map (fun e => (name e, step e)) entries)) (Forall ok entries) (concat (map files entries)).
Proof.
  intros Hall. unfold run_by_name.
  destruct (Permutation_map_inv (fun e => (name e, step e)) entries
    (sort_by_perm (fun l r => String.compare l.1 r.1) (map (fun e => (name e, step e)) entries))) as (sorted & -> & Hp).
  assert (Hset : list_to_set (concat (map files entries)) = (list_to_set (concat (map files sorted)) : gset string))
    by (apply list_to_set_perm_L, concat_perm; by rewrite Hp).
  rewrite Hp in Hall. pose proof (run_each_exact name step ok files sorted Hall) as Hrun.
  intros output output'. rewrite Hset, Hp. apply Hrun.
Qed.

Lemma portable_path_ok value p : validate_portable_path value = Ok p -> p = nfc value.
Proof. unfold validate_portable_path. intros Hok. split_ok. done. Qed.

Lemma collect_entry_exact e : forall directory parents,
  step_exact (collect_entry directory parents e) (entry_ok parents e) (entry_files parents e).
Proof.
  induction e as [name metadata error|name metadata entries IH] using entry_induction; intros directory parents output output'.
  all: destruct metadata as [[[| | |] l t]|error']; cbn [collect_entry io map_err file_type entry_ok entry_files]; try (by split; [|intros []]).
  1,2: destruct (validate_portable_path (portable_of (parents ++ [name]))) as [p|error'] eqn:Hp; cbn;
    [apply portable_path_ok in Hp; subst p; split; [intros [= <-]; split; [done|set_solver]|intros [_ ->]; f_equal; set_solver]|by split; [|intros [? _]]].
  rewrite foldr_and. apply run_by_name_exact. eapply Forall_impl; [exact IH|]. intros e He. apply He.
Qed.
End walk.

(** ** The declared artifacts *)

Lemma dom_by_path values : NoDup (map artifact_path values) -> dom (by_path values) = (list_to_set (map artifact_path values) : gset string).
Proof.
  intros Hnd. apply set_eq. intros path. rewrite elem_of_dom, elem_of_list_to_set, list_elem_of_fmap. split.
  - intros [a [Ha <-]%by_path_lookup]; [|done]. by exists a.
  - intros (a & -> & Ha). exists a. by apply by_path_lookup.
Qed.

(** Paths in order are their own sorted set. *)
Lemma sorted_paths values : StronglySorted (fun a b => str_less (artifact_path a) (artifact_path b) = true) values ->
  StronglySorted String.le (map artifact_path values).
Proof.
  induction 1 as [|a values _ IH Hall]; cbn; constructor; [done|]. apply Forall_forall. intros x (b & -> & Hb)%list_elem_of_fmap.
  eapply Forall_forall in Hall; [|exact Hb]. unfold str_less in Hall. apply string_le_compare. by destruct (String.compare _ _).
Qed.

Lemma btree_entries_by_path values :
  NoDup (map artifact_path values) -> StronglySorted (fun a b => str_less (artifact_path a) (artifact_path b) = true) values ->
  btree_entries (by_path values) = map (fun a => (artifact_path a, a)) values.
Proof.
  intros Hnd Hs. unfold btree_entries. rewrite dom_by_path by done.
  rewrite <- (btree_elements_unique (list_to_set (map artifact_path values)) (map artifact_path values));
    [|by apply sorted_paths|done|intros x; by rewrite elem_of_list_to_set].
  assert (Hgen : forall rest, Forall (fun a => a ∈ values) rest ->
    omap (fun key => value ← by_path values !! key; Some (key, value)) (map artifact_path rest) = map (fun a => (artifact_path a, a)) rest).
  { induction rest as [|a rest IH]; [done|]. intros [Ha Hrest]%Forall_cons. cbn [map omap list_omap].
    rewrite (proj2 (by_path_lookup values (artifact_path a) a Hnd)) by done. cbn. f_equal. by apply IH. }
  by apply Hgen, Forall_forall.
Qed.

Lemma size_by_path values : NoDup (map artifact_path values) -> size (by_path values) = length values.
Proof. intros Hnd. rewrite <- size_dom, dom_by_path, size_list_to_set by done. apply length_fmap. Qed.

(** ** One artifact *)

Section hashed.
Context `{Unicode, Sha256}.

(** Before and after the read the file is regular, of the declared length and unchanged, and what was read
    has the declared digest. *)
Definition intact (t : Tree) (a : PbocArtifact) : Prop :=
  exists first bytes last, observe t (artifact_path a) = mkObservation (Ok first) (Ok bytes) (Ok last)
    /\ file_type first = RegularFile /\ len first = artifact_bytes a /\ len last = len first /\ modified last = modified first
    /\ hex (sha256 bytes) = artifact_sha256 a.

Lemma io_ok {A} path (answer : result string A) a : io path answer = Ok a <-> answer = Ok a.
Proof. apply map_err_ok. Qed.

Lemma verify_artifact_exact t a : verify_artifact t (artifact_path a) a = Ok tt <-> intact t a.
Proof.
  unfold verify_artifact, intact. destruct (observe t (artifact_path a)) as [[first|e] content [last|e']]; cbn.
  - case_bool_decide as Hf; cbn; [|naive_solver]. destruct (N.eqb_spec (len first) (artifact_bytes a)) as [Hl|]; cbn; [|naive_solver].
    destruct content as [bytes|e]; cbn; [|naive_solver]. destruct (N.eqb_spec (len first) (len last)) as [Hll|]; cbn; [|naive_solver].
    case_bool_decide as Hm; cbn; [|naive_solver]. destruct (String.eqb_spec (hex (sha256 bytes)) (artifact_sha256 a)); cbn; naive_solver.
  - split; [|naive_solver]. destruct (negb _); [done|]. destruct (negb _); [done|]. by destruct content.
  - naive_solver.
  - naive_solver.
Qed.

Definition artifact_set (values : list PbocArtifact) : bytes := concat (map artifact_entry values).

Lemma verify_each_exact t values : forall total set r, total + total_bytes values <= u64_max ->
  verify_each t total set (map (fun a => (artifact_path a, a)) values) = Ok r <->
  Forall (intact t) values /\ r = (total + total_bytes values, set ++ artifact_set values)%list.
Proof.
  unfold total_bytes, artifact_set. induction values as [|a values IH]; intros total set r Hle; cbn [map verify_each foldr concat] in *.
  - rewrite app_nil_r, N.add_0_r. split; [intros [= <-]; by split; [constructor|]|by intros [_ ->]].
  - rewrite Forall_cons. destruct (verify_artifact t (artifact_path a) a) as [[]|e] eqn:Ha.
    + apply verify_artifact_exact in Ha. cbn [mbind result_bind]. unfold checked_add_u64. rewrite (proj2 (N.leb_le _ _)) by lia.
      cbn [ok_or mbind result_bind]. rewrite (IH (total + artifact_bytes a)) by lia. rewrite N.add_assoc, app_assoc. tauto.
    + cbn [mbind result_bind]. split; [done|]. intros [[Hi _] _]. apply verify_artifact_exact in Hi. congruence.
Qed.
End hashed.

(** ** The bundle *)

(** The entries of a tree. *)
Definition tree_files (t : Tree) (path : string) : Prop :=
  exists entries e, root_listing t = Ok entries /\ e ∈ entries /\ path ∈ entry_files [] e.

(** The files of a tree by their own names, and trees whose names are all UTF-8. *)
Fixpoint entry_paths (parents : list string) (e : Entry) : list string :=
  let 'mkEntry name metadata listing := e in
  match metadata, listing with
  | Ok (mkMetadata RegularFile _ _), _ => [join_slash (parents ++ [name])]
  | Ok (mkMetadata DirectoryType _ _), Ok entries => concat (map (entry_paths (parents ++ [name])) entries)
  | _, _ => []
  end.

Definition tree_paths (t : Tree) (path : string) : Prop :=
  exists entries e, root_listing t = Ok entries /\ e ∈ entries /\ path ∈ entry_paths [] e.

Fixpoint entry_utf8 (e : Entry) : bool :=
  let 'mkEntry name metadata listing := e in
  utf8_valid (as_bytes name) && match listing with Ok entries => forallb entry_utf8 entries | Err _ => true end.

Definition tree_utf8 (t : Tree) : bool := match root_listing t with Ok entries => forallb entry_utf8 entries | Err _ => true end.

Lemma portable_own_names names : forallb (fun name => utf8_valid (as_bytes name)) names = true -> portable_of names = join_slash names.
Proof.
  intros Hv. unfold portable_of. f_equal. induction names as [|name names IH]; [done|]. cbn in *.
  apply andb_true_iff in Hv as [Hn Hv]. rewrite (to_string_lossy_valid _ Hn). f_equal. by apply IH.
Qed.

Lemma entry_own_names e : forall parents, forallb (fun name => utf8_valid (as_bytes name)) parents = true -> entry_utf8 e = true ->
  entry_files parents e = entry_paths parents e.
Proof.
  assert (Hsnoc : forall parents name, forallb (fun name => utf8_valid (as_bytes name)) parents = true -> utf8_valid (as_bytes name) = true ->
    forallb (fun name => utf8_valid (as_bytes name)) (parents ++ [name]) = true).
  { intros parents name Hp Hn. rewrite forallb_app, Hp. cbn. by rewrite Hn. }
  induction e as [name metadata error|name metadata entries IH] using entry_induction; intros parents Hp; cbn [entry_utf8 entry_files entry_paths];
    intros [Hn Hes]%andb_true_iff; pose proof (Hsnoc parents name Hp Hn) as Hps; destruct metadata as [[[| | |] l tm]|e']; try done;
    try by rewrite (portable_own_names _ Hps).
  f_equal. induction IH as [|e entries He _ IHes]; [done|]. cbn in *. apply andb_true_iff in Hes as [He' Hes].
  f_equal; [by apply He|by apply IHes].
Qed.

Lemma tree_own_names t : tree_utf8 t = true -> forall path, tree_files t path <-> tree_paths t path.
Proof.
  unfold tree_utf8, tree_files, tree_paths. intros Hu path. destruct (root_listing t) as [entries|]; [|naive_solver].
  rewrite forallb_forall in Hu. split; intros (es & e & [= <-] & He & Hin); exists entries, e; (split; [done|]); (split; [done|]);
    [rewrite <- (entry_own_names e [])|rewrite (entry_own_names e [])]; try done; by apply Hu, list_elem_of_In.
Qed.

Definition tree_ok `{Unicode} (t : Tree) : Prop :=
  (exists md, root_metadata t = Ok md /\ file_type md = DirectoryType)
  /\ exists entries, root_listing t = Ok entries /\ Forall (entry_ok []) entries.

(** The receipt of a verification. *)
Definition verified `{Unicode, ManifestCodec, Sha256} (m : PbocManifest) (v : BundleVerification) : Prop :=
  exists sha, manifest_sha256 m = Ok sha /\
  v = mkVerification "dev.pliegors.pboc-bundle-verification/v1" sha (blen (artifacts m)) (total_bytes (artifacts m))
        (hex (sha256 (artifact_set (artifacts m)))).

Lemma collect_files_exact `{Unicode} t entries : root_listing t = Ok entries ->
  step_exact (collect_files t) (Forall (entry_ok []) entries) (concat (map (entry_files []) entries)).
Proof.
  intros Hl. unfold collect_files. rewrite Hl. cbn. apply run_by_name_exact. apply Forall_forall. intros e _. apply collect_entry_exact.
Qed.

(** Verification succeeds exactly on the declared bundle. *)
Lemma verify_bundle_exact `{Unicode, ManifestCodec, Sha256} t m v :
  verify_bundle t m = Ok v <->
  validate_manifest m = Ok tt /\ tree_ok t
  /\ (forall path, (path ∈ map artifact_path (artifacts m)) <-> tree_files t path /\ path <> PBOC_FILE_NAME)
  /\ (forall a, a ∈ artifacts m -> intact t a) /\ verified m v.
Proof.
  unfold verify_bundle. destruct (validate_manifest m) as [[]|e] eqn:Hv; [|naive_solver]. cbn.
  pose proof (manifest_references_resolve m Hv) as Hm. destruct (artifacts_bytes m Hm) as [_ Hmax].
  pose proof (artifacts_unique m Hm) as Hnd. unfold tree_ok, verified.
  destruct (root_metadata t) as [md|e]; cbn; [|naive_solver]. case_bool_decide as Hd; cbn; [|naive_solver].
  destruct (root_listing t) as [entries|e] eqn:Hl; [|unfold collect_files; rewrite Hl; naive_solver].
  pose proof (collect_files_exact t entries Hl ∅) as Hwalk.
  assert (Hfiles : forall path, path ∈ (list_to_set (concat (map (entry_files []) entries)) ∪ ∅ : gset string) <-> tree_files t path).
  { intros path. rewrite union_empty_r_L, elem_of_list_to_set, elem_of_concat_map. unfold tree_files. rewrite Hl. naive_solver. }
  destruct (collect_files t ∅) as [observed|e]; cbn.
  2:{ split; [done|]. intros (_ & [_ (es & [= <-] & Hall)] & _). discriminate (proj2 (Hwalk _) (conj Hall eq_refl)). }
  destruct (proj1 (Hwalk observed) eq_refl) as [Hok ->]. rewrite btree_entries_by_path, size_by_path, dom_by_path by (done || by apply artifacts_sorted).
  assert (Hset : (list_to_set (concat (map (entry_files []) entries)) ∪ ∅) ∖ {[PBOC_FILE_NAME]} = (list_to_set (map artifact_path (artifacts m)) : gset string)
    <-> forall path, (path ∈ map artifact_path (artifacts m)) <-> tree_files t path /\ path <> PBOC_FILE_NAME).
  { rewrite set_eq. setoid_rewrite elem_of_difference. setoid_rewrite Hfiles. setoid_rewrite elem_of_list_to_set. setoid_rewrite elem_of_singleton.
    naive_solver. }
  case_bool_decide as Hsame; cbn; rewrite Hset in Hsame; [|naive_solver].
  pose proof (verify_each_exact t (artifacts m) 0 [] ) as Heach. destruct (verify_each _ _ _ _) as [[total set]|e]; cbn.
  - destruct (proj1 (Heach (total, set) ltac:(lia)) eq_refl) as [Hintact [= -> ->]]. rewrite Forall_forall in Hintact.
    destruct (manifest_sha256 m) as [sha|e]; cbn; naive_solver.
  - split; [done|]. intros (_ & _ & _ & Hintact & _). apply Forall_forall in Hintact.
    discriminate (proj2 (Heach _ ltac:(lia)) (conj Hintact eq_refl)).
Qed.

(** ** The digest of the set *)

Definition artifact_fits (a : PbocArtifact) : Prop :=
  slen (artifact_path a) <= u64_max /\ artifact_bytes a <= u64_max /\ slen (artifact_sha256 a) = 64.

Lemma check_artifacts_shape `{Unicode} values : forall total total', check_artifacts total values = Ok total' -> Forall artifact_fits values.
Proof.
  induction values as [|a values IH]; intros total total'; cbn [check_artifacts]; [constructor|]. intros Hok. split_ok.
  apply ok_or_ok in Hr2. unfold checked_add_u64 in Hr2. destruct (_ <=? _) eqn:Hmax; [|done]. apply N.leb_le in Hmax.
  constructor; [|by eapply IH]. unfold portable_path in Hr. destruct (validate_portable_path _) eqn:Hp; [|done].
  unfold validate_portable_path in Hp. split_ok. apply orb_false_iff in Hg0 as [[[[_ Hlen]%orb_false_iff _]%orb_false_iff _]%orb_false_iff _].
  apply N.ltb_ge in Hlen. unfold check_sha256 in Hr0. destruct (slen (artifact_sha256 a) =? 64) eqn:Hsha; [|done]. apply N.eqb_eq in Hsha.
  unfold artifact_fits, MAX_PORTABLE_PATH_BYTES, u64_max in *. split_and!; [lia..|done].
Qed.

(** What an entry of the set says of an artifact. *)
Definition artifact_claim (a : PbocArtifact) : string * string := (artifact_path a, artifact_sha256 a).

Lemma artifact_entry_binds a b r s : artifact_fits a -> artifact_fits b ->
  (artifact_entry a ++ r = artifact_entry b ++ s)%list -> artifact_claim a = artifact_claim b /\ r = s.
Proof.
  intros (Hpa & Hba & Hsa) (Hpb & Hbb & Hsb). unfold artifact_entry, artifact_claim. rewrite <- !app_assoc. intros E.
  apply lp_string_delimiting in E as [-> E]; [|done..]. apply be_bytes_8_delimiting in E as [_ E]; [|done..].
  apply (fixed_delimiting 64) in E as [E ->]; [|by apply as_bytes_64..]. by apply as_bytes_inj in E as ->.
Qed.

Lemma artifact_set_binds xs : forall ys, Forall artifact_fits xs -> Forall artifact_fits ys ->
  artifact_set xs = artifact_set ys -> map artifact_claim xs = map artifact_claim ys.
Proof.
  assert (Hne : forall a bs, (artifact_entry a ++ bs)%list <> []).
  { intros a bs E. apply app_eq_nil in E as [E _]. unfold artifact_entry, lp in E. apply app_eq_nil in E as [E _].
    apply app_eq_nil in E as [E _]. pose proof (length_be_bytes 8 (blen (as_bytes (artifact_path a)))) as Hl. by rewrite E in Hl. }
  unfold artifact_set. induction xs as [|x xs IH]; intros [|y ys] Hxs Hys; cbn [map concat]; [done|intros E..|].
  - by destruct (Hne _ _ (eq_sym E)).
  - by destruct (Hne _ _ E).
  - apply Forall_cons in Hxs as [Hx Hxs], Hys as [Hy Hys]. intros E.
    apply artifact_entry_binds in E as [-> E]; [|done..]. f_equal. by apply IH.
Qed.

Lemma valid_artifacts_fit `{Unicode} m : validate_manifest m = Ok tt -> Forall artifact_fits (artifacts m).
Proof. unfold validate_manifest. intros Hok. split_ok. by eapply check_artifacts_shape. Qed.

(** ** Properties *)

(** Two reads under one path whose contents collide. *)
Definition contents_collide `{Sha256} (t t' : Tree) : Prop :=
  exists path bytes bytes', content (observe t path) = Ok bytes /\ content (observe t' path) = Ok bytes' /\ collides bytes bytes'.

(** C31. Verification of a bundle is exact, whatever changes on the disk between its calls: it succeeds
    exactly when the manifest is valid, the walk from a real directory sees only readable directories and
    regular files of portable names, those names, as [to_string_lossy] reads them, are the declared paths
    and at most the manifest itself, and each declared file keeps its length and time over a read of bytes
    with the declared digest. Where every name below the root is UTF-8 the files are exactly the declared
    ones by their own names; elsewhere a file whose name reads like a declared one goes unnoticed. The
    digest of the set in the receipt binds what was read: two verified bundles with one digest have the
    same paths with the same contents, or the two sets, or two contents of one path, are a collision of
    SHA-256. *)
Theorem bundle_exact `{Unicode, ManifestCodec, Sha256} t m v :
  (verify_bundle t m = Ok v <->
   validate_manifest m = Ok tt /\ tree_ok t
   /\ (forall path, (path ∈ map artifact_path (artifacts m)) <-> tree_files t path /\ path <> PBOC_FILE_NAME)
   /\ (forall a, a ∈ artifacts m -> intact t a) /\ verified m v)
  /\ (verify_bundle t m = Ok v -> tree_utf8 t = true ->
      forall path, (path ∈ map artifact_path (artifacts m)) <-> tree_paths t path /\ path <> PBOC_FILE_NAME)
  /\ forall t' m' v', verify_bundle t m = Ok v -> verify_bundle t' m' = Ok v' -> artifact_set_sha256 v = artifact_set_sha256 v' ->
     (map artifact_path (artifacts m) = map artifact_path (artifacts m')
      /\ forall path, path ∈ map artifact_path (artifacts m) -> exists bytes,
           content (observe t path) = Ok bytes /\ content (observe t' path) = Ok bytes)
     \/ collides (artifact_set (artifacts m)) (artifact_set (artifacts m')) \/ contents_collide t t'.
Proof.
  split; [apply verify_bundle_exact|]. split.
  { intros (_ & _ & Hset & _)%verify_bundle_exact Hu path. by rewrite Hset, (tree_own_names t Hu). }
  intros t' m' v'.
  intros (Hv & _ & _ & Hin & (? & _ & ->))%verify_bundle_exact (Hv' & _ & _ & Hin' & (? & _ & ->))%verify_bundle_exact. cbn.
  intros E%hex_inj. destruct (decide (artifact_set (artifacts m) = artifact_set (artifacts m'))) as [Es|Hne]; [|by right; left].
  apply artifact_set_binds in Es; [|by apply valid_artifacts_fit..].
  assert (Hpaths : map artifact_path (artifacts m) = map artifact_path (artifacts m')).
  { apply (f_equal (map fst)) in Es. by rewrite !map_map in Es. }
  destruct (each_or (fun path => exists bytes, content (observe t path) = Ok bytes /\ content (observe t' path) = Ok bytes)
    (contents_collide t t') (map artifact_path (artifacts m))) as [Hall|]; [|by left|by right; right].
  intros path (a & -> & Ha)%list_elem_of_fmap.
  assert (Hclaim : artifact_claim a ∈ map artifact_claim (artifacts m')) by (rewrite <- Es; by apply list_elem_of_fmap_2).
  apply list_elem_of_fmap in Hclaim as (a' & [= Hpath Hsha] & Ha').
  destruct (Hin a Ha) as (? & bytes & ? & Ho & _ & _ & _ & _ & Hd), (Hin' a' Ha') as (? & bytes' & ? & Ho' & _ & _ & _ & _ & Hd').
  rewrite <- Hpath in Ho'. unfold contents_collide. pose proof Ho as Ho1. pose proof Ho' as Ho1'. rewrite Ho, Ho'. cbn. rewrite <- Hsha, <- Hd in Hd'. apply hex_inj in Hd'.
  destruct (decide (bytes = bytes')) as [->|Hne]; [left; by exists bytes'|right].
  exists (artifact_path a), bytes, bytes'. by rewrite Ho1, Ho1'.
Qed.

(** ** A sample bundle *)

Module BundleSample.
Import PbocSample.

Definition zero_sha256 : Sha256 := fun _ => repeat x00 32.
Definition release_codec : ManifestCodec :=
  {| to_vec := fun m => Ok (as_bytes (release_id (build m))); from_slice := fun _ => Err "not a manifest" |}.
#[export] Existing Instances zero_sha256 release_codec.

Definition regular (n : N) : Metadata := mkMetadata RegularFile n (Some 7).
Definition file (name : string) (n : N) : Entry := mkEntry name (Ok (regular n)) (Ok []).
Definition directory (name : string) (entries : list Entry) : Entry := mkEntry name (Ok (mkMetadata DirectoryType 0 None)) (Ok entries).

Definition observation (n : N) : Observation := mkObservation (Ok (regular n)) (Ok [x01]) (Ok (regular n)).

Definition observed_at (path : string) : Observation :=
  match List.find (fun a => String.eqb (artifact_path a) path) (artifacts first) with
  | Some a => observation (artifact_bytes a)
  | None => mkObservation (Err "no such file") (Err "no such file") (Err "no such file")
  end.

Definition tree (entries : list Entry) : Tree :=
  mkTree "/srv/shop" (Ok (mkMetadata DirectoryType 0 None)) (Ok entries) observed_at.

Definition deployed : Tree :=
  tree [file "server" 70000; directory "assets" [file "app.css" 900]; file "sbom.json" 10; file "pliego.pboc.json" 5; file "slsa.json" 20].

Definition receipt : BundleVerification :=
  mkVerification "dev.pliegors.pboc-bundle-verification/v1" (zeros 64) 4 70930 (zeros 64).

Example deployed_verifies : verify_bundle deployed first = Ok receipt.
Proof. vm_compute. reflexivity. Qed.

Example extra_file : verify_bundle (tree (file "notes.txt" 1 :: default [] (match root_listing deployed with Ok es => Some es | _ => None end))) first
  = Err (ArtifactError "bundle exact set differs; missing=[] extra=[notes.txt]").
Proof. vm_compute. reflexivity. Qed.

Example forbidden_symlink : verify_bundle (tree [mkEntry "server" (Ok (mkMetadata SymlinkType 0 None)) (Ok [])]) first
  = Err (ArtifactError "symlink is forbidden: /srv/shop/server").
Proof. vm_compute. reflexivity. Qed.

(** A byte that is not UTF-8 and the replacement character are one name to the walk. *)
Example lossy_names_collide :
  entry_files [] (file (String "255" "") 1) = entry_files [] (file (String.string_of_list_byte REPLACEMENT) 1).
Proof. vm_compute. reflexivity. Qed.
End BundleSample.

(** ** Witnesses *)

Import PbocSample BundleSample.

Lemma bundle_exact_witness :
  (forall a, a ∈ artifacts PbocSample.first -> intact BundleSample.deployed a)
  /\ (forall path, (path ∈ map artifact_path (artifacts PbocSample.first)) <-> tree_paths BundleSample.deployed path /\ path <> PBOC_FILE_NAME)
  /\ ((exists bytes, content (observe BundleSample.deployed "server") = Ok bytes /\ content (observe BundleSample.deployed "server") = Ok bytes)
      \/ collides (artifact_set (artifacts PbocSample.first)) (artifact_set (artifacts PbocSample.first))
      \/ contents_collide BundleSample.deployed BundleSample.deployed).
Proof.
  destruct (bundle_exact BundleSample.deployed PbocSample.first BundleSample.receipt) as ([Hexact _] & Hown & Hbinds).
  destruct (Hexact BundleSample.deployed_verifies) as (_ & _ & _ & Hintact & _). split; [exact Hintact|].
  split; [exact (Hown BundleSample.deployed_verifies eq_refl)|].
  destruct (Hbinds _ _ _ BundleSample.deployed_verifies BundleSample.deployed_verifies eq_refl) as [[_ Hpaths]|Hcollision]; [left|right; exact Hcollision].
  apply Hpaths. apply list_elem_of_In. cbn. tauto.
Defined.
