(* ===== verification/PbocRouting.v ===== *)
(** * PbocRouting: requests against a build ([pliego-pboc/src/router.rs])

    The router of a manifest: the sealed route graph of its routes beside the map from
    their identifiers. It refuses or builds without panic, and resolution answers with the
    declared route. A [RouteError] stands for its text. *)

From S2P Require Import Prelude Decimal Request Pattern Router Pboc PbocSafety.

Local Open Scope string_scope.
Local Open Scope N_scope.

Record PbocRouter : Type := mkRouter { router_graph : RouteGraph; router_routes : gmap string PbocRoute }.

Record PbocRouteMatch : Type := mkRouteMatch { matched_route : PbocRoute; matched_parameters : gmap string string }.

Inductive PbocRouterError : Type :=
| ManifestError (error : PbocError)
| GraphError (error : RouteError)
| InvalidRequest
| ResolveFailure (error : ResolveError).

Definition status_code (e : PbocRouterError) : N :=
  match e with
  | ResolveFailure NotFound => 404
  | ResolveFailure (MethodNotAllowed _) => 405
  | InvalidRequest | ResolveFailure InvalidPath => 400
  | ManifestError _ | GraphError _ => 500
  end.

Definition router_code (e : PbocRouterError) : string :=
  match e with
  | ResolveFailure NotFound => "PLG-RTE-404"
  | ResolveFailure (MethodNotAllowed _) => "PLG-RTE-405"
  | InvalidRequest | ResolveFailure InvalidPath => "PLG-PBOC-400"
  | ManifestError _ => "PLG-PBOC-001"
  | GraphError _ => "PLG-PBOC-002"
  end.

Definition allow_header (e : PbocRouterError) : option string :=
  match e with
  | ResolveFailure (MethodNotAllowed allowed) => Some (String.concat ", " (map method_str allowed))
  | _ => None
  end.

Section router.
Context `{Unicode, Sha256}.

(** The body of the loop of [PbocRouter::new]. *)
Definition route_spec (r : PbocRoute) : result RouteError RouteSpec :=
  m ← method_new (route_method r);
  spec ← route_new (route_id r) m (route_pattern r);
  match cache_policy_id r with
  | Some policy => route_cache_policy spec policy
  | None => Ok spec
  end.

Fixpoint push_routes (b : RouteGraphBuilder) (routes : gmap string PbocRoute) (rs : list PbocRoute)
    : result RouteError (RouteGraphBuilder * gmap string PbocRoute) :=
  match rs with
  | [] => Ok (b, routes)
  | r :: rs =>
      spec ← route_spec r;
      push_routes (builder_route b spec) (<[route_id r := r]> routes) rs
  end.

(** Up to [seal], which can panic in general. *)
Definition router_builder (m : PbocManifest) : result PbocRouterError (RouteGraphBuilder * gmap string PbocRoute) :=
  _ ← map_err ManifestError (validate_manifest m);
  builder ← map_err GraphError (with_max_routes (N.max (blen (manifest_routes m)) 1));
  map_err GraphError (push_routes builder ∅ (manifest_routes m)).

(** [PbocRouter::new]. *)
Definition router_new (m : PbocManifest) : option (result PbocRouterError PbocRouter) :=
  match router_builder m with
  | Err error => Some (Err error)
  | Ok (builder, routes) =>
      match seal builder with
      | None => None
      | Some (Err error) => Some (Err (GraphError error))
      | Some (Ok graph) => Some (Ok (mkRouter graph routes))
      end
  end.

(** [PbocRouter::resolve]; [None] is a panic of the graph or the [expect]. *)
Definition router_resolve (router : PbocRouter) (method path : string) : option (result PbocRouterError PbocRouteMatch) :=
  match method_new method with
  | Err _ => Some (Err InvalidRequest)
  | Ok method =>
      match resolve (router_graph router) method path with
      | None => None
      | Some (Err error) => Some (Err (ResolveFailure error))
      | Some (Ok matched) =>
          match router_routes router !! Router.route_id matched with
          | None => None
          | Some route => Some (Ok (mkRouteMatch route (parameters matched)))
          end
      end
  end.

(** ** The routes behind a graph *)

(** A declared route and what the graph knows of it. *)
Definition declares (r : PbocRoute) (s : RouteSpec) : Prop :=
  id s = route_id r /\ method_str (method s) = route_method r /\ parse (route_pattern r) = Ok (pattern s).

Lemma method_new_ok value m : method_new value = Ok m -> m = mkMethod value.
Proof. unfold method_new. intros Hok. split_ok. done. Qed.

Lemma route_spec_ok r s : route_spec r = Ok s -> declares r s.
Proof.
  unfold route_spec, declares, route_new, route_cache_policy. intros Hok. split_ok. apply method_new_ok in Hr as ->.
  destruct (cache_policy_id r); split_ok; subst; done.
Qed.

Lemma push_routes_keeps rs : forall b routes b' routes' i,
  i ∉ map route_id rs -> push_routes b routes rs = Ok (b', routes') -> routes' !! i = routes !! i.
Proof.
  induction rs as [|r rs IH]; intros b routes b' routes' i Hi; cbn [push_routes map] in *; [by intros [= _ <-]|].
  apply not_elem_of_cons in Hi as [Hne Hi]. destruct (route_spec r) as [s|e]; [|done]. cbn [mbind result_bind].
  intros Hrest. rewrite (IH _ _ _ _ _ Hi Hrest). by apply lookup_insert_ne.
Qed.

Lemma push_routes_ok rs : forall b routes b' routes', NoDup (map route_id rs) -> push_routes b routes rs = Ok (b', routes') ->
  (exists specs, builder_routes b' = (builder_routes b ++ specs)%list /\ Forall2 declares rs specs)
  /\ forall r, r ∈ rs -> routes' !! route_id r = Some r.
Proof.
  induction rs as [|r rs IH]; intros b routes b' routes' Hnd; cbn [push_routes map] in *.
  - intros [= <- <-]. split; [exists []; by rewrite app_nil_r|by intros r ?%not_elem_of_nil].
  - apply NoDup_cons in Hnd as [Hfresh Hnd]. destruct (route_spec r) as [s|e] eqn:Hs; [|done]. cbn [mbind result_bind]. intros Hrest.
    pose proof (IH _ _ _ _ Hnd Hrest) as [(specs & Hb & Hall) Hmap]. split.
    + exists (s :: specs). cbn in Hb. rewrite Hb, <- app_assoc. split; [done|]. constructor; [by apply route_spec_ok|done].
    + intros x [->|Hx]%elem_of_cons; [|by apply Hmap]. rewrite (push_routes_keeps _ _ _ _ _ _ Hfresh Hrest). apply lookup_insert_eq.
Qed.

(** The graph of a router that was built is in order over the declared routes. *)
Lemma router_new_ok m router : router_new m = Some (Ok router) ->
  references_resolve m /\ (forall r, r ∈ manifest_routes m -> router_routes router !! route_id r = Some r) /\
  exists specs scopes, Forall2 declares (manifest_routes m) specs /\ graph_ok specs (router_graph router) scopes.
Proof.
  unfold router_new. destruct (router_builder m) as [[b routes]|e] eqn:Hb; [|done].
  unfold router_builder in Hb. split_ok. rename Hr0 into Hvalid, Hr1 into Hpush, Hr2 into Hmax. subst. destruct (seal b) as [[g|e]|] eqn:Hseal; [|done..]. intros [= <-]. cbn.
  pose proof (manifest_references_resolve m Hvalid) as Hm. unfold with_max_routes in Hmax. split_ok. subst.
  apply push_routes_ok in Hpush as [(specs & Hspecs & Hall) Hmap]; [|by apply routes_unique]. cbn in Hspecs.
  split; [done|]. split; [done|]. apply seal_graph_ok in Hseal as (scopes & _ & Hgraph).
  rewrite Hspecs in Hgraph. by exists specs, scopes.
Qed.

Lemma router_new_total m : router_new m <> None.
Proof.
  unfold router_new. destruct (router_builder m) as [[b routes]|e]; [|done].
  assert (Htotal : is_Some (seal b)).
  { unfold seal. destruct (_ <? _); [by eexists|]. cbn [lift mbind fueled_bind]. apply seal_sorted_total. }
  destruct Htotal as [[g|e] ->]; done.
Qed.
End router.

(** ** Properties *)

Section properties.
Context `{Unicode}.

(** A declared route matches a path with parameters. *)
Definition serves (m : PbocManifest) (path : string) (r : PbocRoute) (ps : gmap string string) : Prop :=
  r ∈ manifest_routes m /\ exists p, parse (route_pattern r) = Ok p /\ match_admitted p path = Some ps.

(** The pattern of [r] ranks strictly below that of [best]. *)
Definition outranked (best r : PbocRoute) : Prop :=
  exists p q, parse (route_pattern best) = Ok p /\ parse (route_pattern r) = Ok q /\ compare_list (specificity q) (specificity p) = Lt.

Definition path_admitted (path : string) : bool := validate_request_path path && validate_request_path (nfc path).

Lemma declared_by m specs s path ps : Forall2 declares (manifest_routes m) specs -> s ∈ specs -> match_admitted (pattern s) path = Some ps ->
  exists r, declares r s /\ serves m path r ps.
Proof.
  intros Hall Hs Hps. apply list_elem_of_lookup in Hs as [i Hs]. destruct (Forall2_lookup_r _ _ _ _ _ Hall Hs) as (r & Hr & Hd).
  exists r. split; [done|]. split; [by apply list_elem_of_lookup_2 in Hr|]. destruct Hd as (_ & _ & Hp). by exists (pattern s).
Qed.

Lemma served_spec m specs r path ps : Forall2 declares (manifest_routes m) specs -> serves m path r ps ->
  exists s, s ∈ specs /\ declares r s /\ match_admitted (pattern s) path = Some ps.
Proof.
  intros Hall [Hr (p & Hp & Hps)]. apply list_elem_of_lookup in Hr as [i Hr]. destruct (Forall2_lookup_l _ _ _ _ _ Hall Hr) as (s & Hs & Hd).
  exists s. split; [by apply list_elem_of_lookup_2 in Hs|]. split; [done|]. destruct Hd as (_ & _ & Hp'). rewrite Hp in Hp'. by injection Hp' as <-.
Qed.

(** C38. The router of a build is exact over its routes: building it never panics, and resolving a
    request never panics and answers with the declared route of the method that matches the path and
    outranks every other one that does, with its parameters and a target the manifest declares; a
    refusal is 400 for a method or a path that is not admitted, 404 when no route matches, and 405 with
    exactly the methods of the routes that match, in order. *)
Theorem router_exact `{Sha256} m :
  router_new m <> None /\
  forall router, router_new m = Some (Ok router) -> forall name path,
  match router_resolve router name path with
  | None => False
  | Some (Ok x) =>
      path_admitted path = true /\ route_method (matched_route x) = name /\ serves m (nfc path) (matched_route x) (matched_parameters x)
      /\ route_resolves m (matched_route x)
      /\ forall r ps, serves m (nfc path) r ps -> route_method r = name -> r = matched_route x \/ outranked (matched_route x) r
  | Some (Err e) =>
      match status_code e with
      | 400 => (exists error, method_new name = Err error) \/ path_admitted path = false
      | 404 => path_admitted path = true /\ forall r ps, ~ serves m (nfc path) r ps
      | 405 => path_admitted path = true /\ exists names, allow_header e = Some (String.concat ", " names) /\ names <> []
          /\ StronglySorted String.le names /\ (name ∉ names)
          /\ forall n, n ∈ names <-> exists r ps, serves m (nfc path) r ps /\ route_method r = n
      | _ => False
      end
  end.
Proof.
  split; [apply router_new_total|]. intros router Hnew name path.
  apply router_new_ok in Hnew as (Hm & Hmap & specs & scopes & Hall & Hg). unfold router_resolve, path_admitted.
  destruct (method_new name) as [mth|e] eqn:Hname; [|left; by exists e]. apply method_new_ok in Hname as ->.
  pose proof (resolve_graph_ok _ _ _ (mkMethod name) path Hg) as Hres. cbn zeta in Hres.
  destruct (resolve (router_graph router) (mkMethod name) path) as [[x|[| |allowed]]|]; cbn [status_code allow_header].
  - destruct Hres as (Hvalid & s & ps & c & Hs & Hms & Hps & _ & -> & Hbest). cbn [Router.route_id make_match parameters].
    destruct (declared_by m specs s (nfc path) ps Hall Hs Hps) as (r & Hd & Hserves). destruct Hd as (Hid & Hmethod & Hpattern).
    rewrite Hid, (Hmap r) by apply Hserves. cbn [matched_route matched_parameters]. split_and!; [done| |done| |].
    + by rewrite <- Hmethod, Hms.
    + apply (routes_resolve m Hm). apply Hserves.
    + intros r' ps' Hserves' Hname'. destruct (served_spec m specs r' (nfc path) ps' Hall Hserves') as (s' & Hs' & (Hid' & Hm' & Hp') & Hps').
      destruct (Hbest s') as [->|Hlt]; [by split; [|by eexists]| | |].
      * destruct (method s') as [n]. cbn in Hm'. congruence.
      * left. apply (NoDup_map_inj route_id (manifest_routes m)); [by apply routes_unique|apply Hserves'|apply Hserves|congruence].
      * right. by exists (pattern s), (pattern s').
  - by right.
  - destruct Hres as [Hvalid Hnone]. split; [done|]. intros r ps Hserves.
    destruct (served_spec m specs r (nfc path) ps Hall Hserves) as (s & Hs & _ & Hps). apply (Hnone s). split; [done|by eexists].
  - destruct Hres as (Hvalid & Hne & Hno & Hsorted & Hiff). split; [done|]. exists (map method_str allowed). split_and!; [done|by destruct allowed|done|..].
    + intros ([n] & -> & Hin)%list_elem_of_fmap. done.
    + intros n. rewrite list_elem_of_fmap. split.
      * intros ([n'] & -> & (s & [Hs [ps Hps]] & Hms)%Hiff). destruct (declared_by m specs s (nfc path) ps Hall Hs Hps) as (r & (_ & Hd & _) & Hserves).
        exists r, ps. split; [done|]. by rewrite <- Hd, Hms.
      * intros (r & ps & Hserves & <-). destruct (served_spec m specs r (nfc path) ps Hall Hserves) as (s & Hs & (_ & Hd & _) & Hps).
        exists (method s). split; [done|]. apply Hiff. exists s. split; [|done]. split; [done|by eexists].
  - done.
Qed.
End properties.

(** ** A sample router *)

Module RoutingSample.
Import PbocSample.
#[export] Existing Instance toy_sha256.

Definition router : PbocRouter :=
  match router_new first with
  | Some (Ok router) => router
  | _ => mkRouter (mkGraph [] [] ∅ ∅ ∅ [] ∅ [] "") ∅
  end.

Example first_routes : router_new first = Some (Ok router).
Proof. vm_compute. reflexivity. Qed.

Definition answer (method path : string) : option (string * list (string * string)) :=
  match router_resolve router method path with
  | Some (Ok x) => Some (route_id (matched_route x), map_to_list (matched_parameters x))
  | _ => None
  end.

Example parameter_before_catch_all : answer "GET" "/posts/hello" = Some ("show", [("slug", "hello")]).
Proof. vm_compute. reflexivity. Qed.

Example catch_all : answer "GET" "/posts/2026/hello" = Some ("all", [("rest", "2026/hello")]).
Proof. vm_compute. reflexivity. Qed.

Example other_method_refused : router_resolve router "POST" "/style" = Some (Err (ResolveFailure (MethodNotAllowed [mkMethod "GET"]))).
Proof. vm_compute. reflexivity. Qed.

(** An optional parameter has no place in a manifest. *)
Example optional_parameter : request_path "/posts/:page?" "route.pattern"
  = Err (Invalid "route.pattern is not a canonical request path: /posts/:page?").
Proof. vm_compute. reflexivity. Qed.
End RoutingSample.

(** ** Witnesses *)

Lemma router_exact_witness :
  match @router_resolve PbocSample.ascii_unicode RoutingSample.router "GET" "/posts/hello" with
  | Some (Ok x) => route_resolves PbocSample.first (matched_route x)
  | _ => False
  end.
Proof.
  destruct (@router_exact PbocSample.ascii_unicode toy_sha256 PbocSample.first) as [_ Hexact].
  specialize (Hexact RoutingSample.router RoutingSample.first_routes "GET" "/posts/hello").
  destruct (@router_resolve PbocSample.ascii_unicode RoutingSample.router "GET" "/posts/hello") as [[x|e]|] eqn:Hres.
  - destruct Hexact as (_ & _ & _ & Hresolves & _). exact Hresolves.
  - vm_compute in Hres. discriminate Hres.
  - vm_compute in Hres. discriminate Hres.
Defined.
