(* ===== verification/Sdk.v ===== *)
(** * Sdk: extensions and their capabilities ([pliego-sdk])

    Models [crates/pliego-sdk/src/manifest.rs], [component.rs] and [capability.rs]: the
    manifest of an extension, the inspection of its component, its admission by a host
    under a policy, and the broker that runs and receipts effects.

    The [semver] crate is the class [Semver], the [wasmparser] crate the class
    [ComponentParser]. *)

From S2P Require Import Prelude Decimal Request Pattern.

Local Open Scope string_scope.
Local Open Scope N_scope.

Definition OPENSDK_API_VERSION : string := "0.2.0-beta.1".
Definition OPENSDK_MANIFEST_SCHEMA : string := "dev.pliegors.sdk-extension/v1".
Definition MAX_EFFECT_RECEIPTS : N := 4096.

(** ** Capabilities *)

Inductive Plane : Type := Build | Server | Browser | Tooling.
Inductive EntryKind : Type := WasmComponent | BrowserEsm | JsonRpcProcess.
Inductive Determinism : Type := Pure | RecordedEffect | NativeTrusted.

#[export] Instance plane_eq_dec : EqDecision Plane.
Proof. solve_decision. Defined.
#[export] Instance entry_kind_eq_dec : EqDecision EntryKind.
Proof. solve_decision. Defined.
#[export] Instance determinism_eq_dec : EqDecision Determinism.
Proof. solve_decision. Defined.

Inductive Capability : Type :=
| FilesystemRead | FilesystemWrite | Network | Environment | Clock | Random | Http | EffectBrokerCapability
| DomCapability | Motion | SmoothScroll | Audio | Video | Webgl | Webgpu | HighFrequencyRaf.

#[export] Instance sdk_capability_eq_dec : EqDecision Capability.
Proof. solve_decision. Defined.

(** In the derived order. *)
Definition all_capabilities : list Capability :=
  [FilesystemRead; FilesystemWrite; Network; Environment; Clock; Random; Http; EffectBrokerCapability;
   DomCapability; Motion; SmoothScroll; Audio; Video; Webgl; Webgpu; HighFrequencyRaf].

Definition capability_rank (c : Capability) : N :=
  match c with
  | FilesystemRead => 0 | FilesystemWrite => 1 | Network => 2 | Environment => 3 | Clock => 4 | Random => 5 | Http => 6
  | EffectBrokerCapability => 7 | DomCapability => 8 | Motion => 9 | SmoothScroll => 10 | Audio => 11 | Video => 12
  | Webgl => 13 | Webgpu => 14 | HighFrequencyRaf => 15
  end.

Definition capability_compare (a b : Capability) : comparison := N.compare (capability_rank a) (capability_rank b).

#[export] Instance capability_countable : Countable Capability.
Proof. apply (inj_countable capability_rank (fun n => nth_error all_capabilities (N.to_nat n))). by intros []. Defined.

Definition capability_text (c : Capability) : string :=
  match c with
  | FilesystemRead => "filesystem-read" | FilesystemWrite => "filesystem-write" | Network => "network"
  | Environment => "environment" | Clock => "clock" | Random => "random" | Http => "http"
  | EffectBrokerCapability => "effect-broker" | DomCapability => "dom" | Motion => "motion" | SmoothScroll => "smooth-scroll"
  | Audio => "audio" | Video => "video" | Webgl => "webgl" | Webgpu => "webgpu" | HighFrequencyRaf => "high-frequency-raf"
  end.

Definition is_browser_only (c : Capability) : bool :=
  match c with
  | DomCapability | Motion | SmoothScroll | Audio | Video | Webgl | Webgpu | HighFrequencyRaf => true
  | _ => false
  end.

(** [Capability::from_str], whose arms are the texts of [as_str]. *)
Definition capability_from_str (value : string) : result string Capability :=
  match List.find (fun c => String.eqb (capability_text c) value) all_capabilities with
  | Some c => Ok c
  | None => Err ("unknown OpenSDK capability `" ++ value ++ "`")
  end.

(** A [BTreeSet<Capability>] in order. *)
Definition capability_elements (cs : gset Capability) : list Capability :=
  List.filter (fun c => bool_decide (c ∈ cs)) all_capabilities.

(** ** Manifests *)

Record ExtensionIdentity : Type := mkIdentity { namespace : string; extension_name : string; extension_version : string; extension_digest : string }.

Record ExtensionEntry : Type := mkExtensionEntry { kind : EntryKind; entry_path : string; world : option string; custom_element : option string }.

Record Budget : Type := mkBudget { cpu_ms : N; wall_time_ms : N; memory_bytes : N; output_bytes : N }.

Record Lifecycle : Type := mkLifecycle { init : bool; update : bool; suspend : bool; resume : bool; dispose : bool; hmr : bool }.

Record ExtensionManifest : Type := mkExtension {
  manifest_schema : string;
  api_version : string;
  host_version : string;
  plane : Plane;
  identity : ExtensionIdentity;
  entry : ExtensionEntry;
  determinism : Determinism;
  imports : list string;
  exports : list string;
  manifest_capabilities : list Capability;
  required_feature_ids : list string;
  optional_feature_ids : list string;
  budgets : Budget;
  lifecycle : Lifecycle;
}.

(** [semver::Version] and [VersionReq]; a parse error is its text. *)
Class Semver : Type := {
  Version : Type;
  VersionReq : Type;
  version_eqb : Version -> Version -> bool;
  version_parse : string -> result string Version;
  version_text : Version -> string;
  req_parse : string -> result string VersionReq;
  req_matches : VersionReq -> Version -> bool;
}.

(** What [verify_manifest] and [inspect_component] report. *)
Inductive ComponentError : Type :=
| ComponentText (message : string)
| ImportsDiffer (binary manifest : list string)
| ExportsDiffer (binary manifest : list string)
| UndeclaredCapability (c : Capability).

Inductive AdmissionError `{Semver} : Type :=
| UnknownSchema (schema : string)
| InvalidApiVersion (error : string)
| InvalidHostRequirement (error : string)
| InvalidVersion (error : string)
| InvalidIdentity (error : string)
| InvalidEntry (error : string)
| InvalidContract (error : string)
| InvalidBudget (error : string)
| InvalidComponent (error : ComponentError)
| IncompatibleApi (extension host : Version)
| IncompatibleHost (requirement : string) (host : Version)
| DigestMismatch (declared actual : string)
| MissingFeature (feature : string)
| CapabilityDenied (c : Capability).

(** ** Checks *)

(** [bytes().any(|byte| byte < 0x20 || byte == 0x7f)]. *)
Definition is_control_byte (c : ascii) : bool := (Ascii.N_of_ascii c <? 32) || (Ascii.N_of_ascii c =? 127).
Definition has_control_byte (value : string) : bool := negb (string_all (fun c => negb (is_control_byte c)) value).

(** The grammar [validate_identifier] and [validate_feature] share. *)
Definition interior_hyphens (value : string) : bool :=
  negb (slen value =? 0) && (slen value <=? 64) && negb (starts_with "-" value) && negb (ends_with "-" value)
  && string_all (fun c => is_ascii_lowercase c || is_ascii_digit c || Ascii.eqb c "-"%char) value.

Definition is_lower_hex (c : ascii) : bool := is_ascii_digit c || in_range "a" "f" c.

Definition digest_hex (value : string) : bool :=
  match strip_prefix "sha256:" value with
  | Some hex => (slen hex =? 64) && string_all is_lower_hex hex
  | None => false
  end.

(** The normalized relative path of an entry or of a transform. *)
Definition relative_slash_path (path : string) : bool :=
  negb (slen path =? 0) && (slen path <=? 1024) && negb (starts_with "/" path) && negb (starts_with "\" path) && negb (str_has "\" path)
  && forallb (fun part => negb (String.eqb part "" || String.eqb part "." || String.eqb part "..")) (split_slash path)
  && negb (has_control_byte path).

Definition RESERVED_ELEMENTS : list string :=
  ["annotation-xml"; "color-profile"; "font-face"; "font-face-src"; "font-face-uri"; "font-face-format"; "font-face-name"; "missing-glyph"].

Definition custom_element_name (value : string) : bool :=
  (slen value <=? 128) && str_has "-" value
  && match value with String c _ => is_ascii_lowercase c | EmptyString => false end
  && negb (starts_with "xml" value) && negb (existsb (String.eqb value) RESERVED_ELEMENTS)
  && string_all (fun c => is_ascii_lowercase c || is_ascii_digit c || char_in ["-"; "."; "_"]%char c) value.

(** [windows(2).all(|pair| pair[0] < pair[1])]. *)
Fixpoint strictly_ascending {A} (cmp : A -> A -> comparison) (values : list A) : bool :=
  match values with
  | a :: (b :: _) as rest => match cmp a b with Lt => strictly_ascending cmp rest | _ => false end
  | _ => true
  end.

(** [slice::binary_search]: the loop halves [size] from [base]. *)
Fixpoint search_base {A} (cmp : A -> A -> comparison) (fuel : nat) (values : list A) (target : A) (base size : nat) : nat :=
  match fuel with
  | O => base
  | S fuel =>
      if (1 <? size)%nat then
        let half := (size / 2)%nat in
        let mid := (base + half)%nat in
        let base := match values !! mid with Some v => match cmp v target with Gt => base | _ => mid end | None => base end in
        search_base cmp fuel values target base (size - half)
      else base
  end.

Definition binary_search {A} (cmp : A -> A -> comparison) (values : list A) (target : A) : bool :=
  match values !! search_base cmp (length values) values target 0 (length values) with
  | Some v => match cmp v target with Eq => true | _ => false end
  | None => false
  end.

Section checks.
Context `{Semver}.

Definition validate_identifier (value label : string) : result AdmissionError unit :=
  fail_if negb (interior_hyphens value)
    with InvalidIdentity (label ++ " must be 1-64 lowercase ASCII letters, digits, or interior hyphens");;
  Ok tt.

Definition validate_digest (value : string) : result AdmissionError unit :=
  fail_if negb (digest_hex value) with InvalidIdentity "digest must use sha256:<64 lowercase hex>";; Ok tt.

Definition validate_contract_name (value : string) : result AdmissionError unit :=
  fail_if (slen value =? 0) || (256 <? slen value) || has_control_byte value
    with InvalidContract "contract names must contain 1-256 non-control bytes";;
  Ok tt.

Definition validate_feature_id (value : string) : result AdmissionError unit :=
  fail_if negb (interior_hyphens value)
    with InvalidContract "feature IDs use 1-64 lowercase ASCII letters, digits, and interior hyphens";;
  Ok tt.

Definition validate_custom_element (value : string) : result AdmissionError unit :=
  fail_if negb (custom_element_name value)
    with InvalidEntry "customElement must be a non-reserved lowercase ASCII Custom Element name";;
  Ok tt.

Definition expected_kind (p : Plane) : EntryKind :=
  match p with Build | Server => WasmComponent | Browser => BrowserEsm | Tooling => JsonRpcProcess end.

Definition plane_debug (p : Plane) : string :=
  match p with Build => "Build" | Server => "Server" | Browser => "Browser" | Tooling => "Tooling" end.
Definition kind_debug (k : EntryKind) : string :=
  match k with WasmComponent => "WasmComponent" | BrowserEsm => "BrowserEsm" | JsonRpcProcess => "JsonRpcProcess" end.

Definition validate_entry (m : ExtensionManifest) : result AdmissionError unit :=
  fail_if negb (bool_decide (kind (entry m) = expected_kind (plane m)))
    with InvalidEntry ("plane " ++ plane_debug (plane m) ++ " requires entry kind " ++ kind_debug (expected_kind (plane m)));;
  fail_if negb (relative_slash_path (entry_path (entry m))) with InvalidEntry "entry path must be a normalized relative slash path";;
  match kind (entry m) with
  | WasmComponent =>
      world ← ok_or (InvalidEntry "Wasm component entries require a WIT world") (world (entry m));
      _ ← validate_contract_name world;
      fail_if match custom_element (entry m) with Some _ => true | None => false end
        with InvalidEntry "Wasm component entries cannot declare a Custom Element";;
      Ok tt
  | BrowserEsm =>
      fail_if match world (entry m) with Some _ => true | None => false end
        with InvalidEntry "browser ESM entries cannot declare a WIT world";;
      element ← ok_or (InvalidEntry "browser ESM entries require customElement") (custom_element (entry m));
      validate_custom_element element
  | JsonRpcProcess =>
      fail_if match world (entry m), custom_element (entry m) with None, None => false | _, _ => true end
        with InvalidEntry "JSON-RPC entries cannot declare a WIT world or Custom Element";;
      Ok tt
  end.

Definition validate_lifecycle (m : ExtensionManifest) : result AdmissionError unit :=
  let l := lifecycle m in
  fail_if negb (init l) || negb (dispose l) with InvalidContract "every preview extension must declare init and dispose";;
  fail_if negb (Bool.eqb (suspend l) (resume l)) with InvalidContract "suspend and resume must be declared together";;
  fail_if hmr l && (negb (update l) || negb (bool_decide (plane m = Browser)))
    with InvalidContract "HMR requires browser update lifecycle support";;
  Ok tt.

Definition within (lo hi n : N) : bool := (lo <=? n) && (n <=? hi).

Definition validate_budget (b : Budget) : result AdmissionError unit :=
  fail_if negb (within 1 60000 (cpu_ms b)) || negb (within 1 300000 (wall_time_ms b))
          || negb (within (64 * 1024) (1024 * 1024 * 1024) (memory_bytes b)) || negb (within 1 (1024 * 1024 * 1024) (output_bytes b))
    with InvalidBudget "budgets exceed preview bounds";;
  Ok tt.

Fixpoint validate_all (validate : string -> result AdmissionError unit) (values : list string) : result AdmissionError unit :=
  match values with
  | [] => Ok tt
  | value :: values => _ ← validate value; validate_all validate values
  end.

Definition ensure_sorted_unique (values : list string) (label : string) (validate : string -> result AdmissionError unit)
    : result AdmissionError unit :=
  fail_if (256 <? blen values) || negb (strictly_ascending String.compare values)
    with InvalidContract (label ++ " must contain at most 256 sorted unique values");;
  validate_all validate values.

Definition validate_manifest_shape (m : ExtensionManifest) : result AdmissionError unit :=
  fail_if negb (String.eqb (manifest_schema m) OPENSDK_MANIFEST_SCHEMA) with UnknownSchema (manifest_schema m);;
  _ ← validate_identifier (namespace (identity m)) "namespace";
  _ ← validate_identifier (extension_name (identity m)) "name";
  _ ← validate_digest (extension_digest (identity m));
  fail_if (64 <? slen (extension_version (identity m))) || (64 <? slen (api_version m))
          || (slen (host_version m) =? 0) || (128 <? slen (host_version m))
    with InvalidVersion "version fields exceed preview bounds";;
  _ ← validate_entry m;
  _ ← ensure_sorted_unique (imports m) "imports" validate_contract_name;
  _ ← ensure_sorted_unique (exports m) "exports" validate_contract_name;
  _ ← ensure_sorted_unique (required_feature_ids m) "required_features" validate_feature_id;
  _ ← ensure_sorted_unique (optional_feature_ids m) "optional_features" validate_feature_id;
  fail_if existsb (binary_search String.compare (optional_feature_ids m)) (required_feature_ids m)
    with InvalidContract "a feature cannot be both required and optional";;
  fail_if negb (strictly_ascending capability_compare (manifest_capabilities m))
    with InvalidContract "capabilities must be sorted and unique";;
  fail_if negb (bool_decide (plane m = Browser)) && existsb is_browser_only (manifest_capabilities m)
    with InvalidContract "browser capabilities are only valid in the browser plane";;
  fail_if bool_decide (determinism m = Pure) && negb (bool_decide (manifest_capabilities m = []))
    with InvalidContract "pure extensions cannot request capabilities";;
  fail_if bool_decide (determinism m = RecordedEffect) && negb (bool_decide (EffectBrokerCapability ∈ manifest_capabilities m))
    with InvalidContract "recorded-effect extensions must request effect-broker";;
  _ ← validate_lifecycle m;
  validate_budget (budgets m).
End checks.

(** ** Policies *)

Record CapabilityPolicy : Type := mkCapabilityPolicy { grants : gset Capability }.

Record CapabilityDenial : Type := mkDenial { denied : Capability; denied_operation : string }.

Definition deny_all : CapabilityPolicy := mkCapabilityPolicy ∅.
Definition grant (p : CapabilityPolicy) (c : Capability) : CapabilityPolicy := mkCapabilityPolicy ({[c]} ∪ grants p).
Definition allows (p : CapabilityPolicy) (c : Capability) : bool := bool_decide (c ∈ grants p).

Definition require (p : CapabilityPolicy) (c : Capability) (operation : string) : result CapabilityDenial unit :=
  if allows p c then Ok tt else Err (mkDenial c operation).

(** ** Inspection of a component *)

(** What [wasmparser] reports of a binary: an import is its name and whether it is a type. *)
Inductive Payload : Type :=
| ModuleSection
| ComponentSection
| End
| ComponentImportSection (section : list (result string (string * bool)))
| ComponentExportSection (section : list (result string (string * bool)))
| OtherPayload.

Class ComponentParser : Type := {
  validator : bytes -> result string unit;
  parse_payloads : bytes -> list (result string Payload);
}.

Record ComponentInspection : Type := mkInspection {
  inspected_imports : list string; inspected_exports : list string; required_capabilities : list Capability }.

Record InspectionState : Type := mkInspecting {
  seen_imports : gset string; seen_exports : gset string; seen_capabilities : gset Capability; depth : N }.

(** The capabilities an import stands for. *)
Definition classify_import (name : string) : result string (gset Capability) :=
  let package := match split_on "@" name with p :: _ => p | [] => name end in
  if starts_with "wasi:filesystem/" package then Ok {[FilesystemRead; FilesystemWrite]}
  else if starts_with "wasi:sockets/" package then Ok {[Network]}
  else if starts_with "wasi:cli/environment" package then Ok {[Environment]}
  else if starts_with "wasi:clocks/" package then Ok {[Clock]}
  else if starts_with "wasi:random/" package then Ok {[Random]}
  else if starts_with "wasi:http/" package then Ok {[Http]}
  else if starts_with "pliego:effects/broker" package then Ok {[EffectBrokerCapability]}
  else if starts_with "wasi:io/" package || starts_with "pliego:diagnostics/sink" package then Ok ∅
  else Err ("component import `" ++ name ++ "` has no preview capability classification").

Fixpoint inspect_imports (section : list (result string (string * bool))) (s : InspectionState) : result string InspectionState :=
  match section with
  | [] => Ok s
  | import :: section =>
      '(name, is_type) ← map_err (fun error => "invalid component import: " ++ error) import;
      if (is_type : bool) then inspect_imports section s
      else
        capabilities ← classify_import name;
        inspect_imports section
          (mkInspecting ({[name]} ∪ seen_imports s) (seen_exports s) (capabilities ∪ seen_capabilities s) (depth s))
  end.

Fixpoint inspect_exports (section : list (result string (string * bool))) (s : InspectionState) : result string InspectionState :=
  match section with
  | [] => Ok s
  | export :: section =>
      '(name, is_type) ← map_err (fun error => "invalid component export: " ++ error) export;
      if (is_type : bool) then inspect_exports section s
      else inspect_exports section (mkInspecting (seen_imports s) ({[name]} ∪ seen_exports s) (seen_capabilities s) (depth s))
  end.

Definition set_depth (n : N) (s : InspectionState) : InspectionState :=
  mkInspecting (seen_imports s) (seen_exports s) (seen_capabilities s) n.

Fixpoint inspect_payloads (payloads : list (result string Payload)) (s : InspectionState) : result string InspectionState :=
  match payloads with
  | [] => Ok s
  | payload :: payloads =>
      payload ← map_err (fun error => "cannot inspect WebAssembly component: " ++ error) payload;
      match payload with
      | ModuleSection | ComponentSection =>
          fail_if u32_max <? depth s + 1 with "component nesting depth overflowed";;
          inspect_payloads payloads (set_depth (depth s + 1) s)
      | End => inspect_payloads payloads (if 0 <? depth s then set_depth (depth s - 1) s else s)
      | ComponentImportSection section =>
          if 0 <? depth s then inspect_payloads payloads s
          else s ← inspect_imports section s; inspect_payloads payloads s
      | ComponentExportSection section =>
          if 0 <? depth s then inspect_payloads payloads s
          else s ← inspect_exports section s; inspect_payloads payloads s
      | OtherPayload => inspect_payloads payloads s
      end
  end.

Definition inspect_component `{ComponentParser} (bs : bytes) : result string ComponentInspection :=
  fail_if 128 * 1024 * 1024 <? blen bs with "component exceeds the 128 MiB inspection ceiling";;
  _ ← map_err (fun error => "invalid WebAssembly component: " ++ error) (validator bs);
  s ← inspect_payloads (parse_payloads bs) (mkInspecting ∅ ∅ ∅ 0);
  Ok (mkInspection (btree_elements (seen_imports s)) (btree_elements (seen_exports s)) (capability_elements (seen_capabilities s))).

(** [ComponentInspection::verify_manifest]. *)
Definition verify_manifest (i : ComponentInspection) (m : ExtensionManifest) : result ComponentError unit :=
  fail_if negb (bool_decide (inspected_imports i = imports m)) with ImportsDiffer (inspected_imports i) (imports m);;
  fail_if negb (bool_decide (inspected_exports i = exports m)) with ExportsDiffer (inspected_exports i) (exports m);;
  match List.find (fun c => negb (binary_search capability_compare (manifest_capabilities m) c)) (required_capabilities i) with
  | Some c => Err (UndeclaredCapability c)
  | None => Ok tt
  end.

(** ** Admission *)

Section admission.
Context `{Semver, Sha256}.

Record HostContract : Type := mkContract {
  contract_version : Version; contract_api_version : Version; contract_features : gset string; contract_policy : CapabilityPolicy }.

(** [None] is the [expect] of the built-in version. *)
Definition preview (version : Version) (policy : CapabilityPolicy) : option HostContract :=
  match version_parse OPENSDK_API_VERSION with
  | Ok api => Some (mkContract version api ∅ policy)
  | Err _ => None
  end.

Definition with_feature (h : HostContract) (feature : string) : HostContract :=
  mkContract (contract_version h) (contract_api_version h) ({[feature]} ∪ contract_features h) (contract_policy h).

Record AdmissionReceipt : Type := mkAdmissionReceipt {
  admission_schema : string;
  admitted_extension : string;
  admitted_digest : string;
  admitted_host : string;
  admitted_api : string;
  granted_capabilities : list Capability;
  negotiated_features : list string;
}.

Record ValidatedExtension : Type := mkValidated { validated_manifest : ExtensionManifest; validated_receipt : AdmissionReceipt }.

Definition content_digest (bs : bytes) : string := "sha256:" ++ hex (sha256 bs).

(** [HostContract::admit]. *)
Definition admit_extension (h : HostContract) (m : ExtensionManifest) (bs : bytes) : result AdmissionError ValidatedExtension :=
  _ ← validate_manifest_shape m;
  version ← map_err InvalidVersion (version_parse (extension_version (identity m)));
  api ← map_err InvalidApiVersion (version_parse (api_version m));
  fail_if negb (version_eqb api (contract_api_version h)) with IncompatibleApi api (contract_api_version h);;
  requirement ← map_err InvalidHostRequirement (req_parse (host_version m));
  fail_if negb (req_matches requirement (contract_version h)) with IncompatibleHost (host_version m) (contract_version h);;
  fail_if negb (String.eqb (extension_digest (identity m)) (content_digest bs))
    with DigestMismatch (extension_digest (identity m)) (content_digest bs);;
  _ ← match List.find (fun f => negb (bool_decide (f ∈ contract_features h))) (required_feature_ids m) with
      | Some feature => Err (MissingFeature feature)
      | None => Ok tt
      end;
  _ ← match List.find (fun c => negb (allows (contract_policy h) c)) (manifest_capabilities m) with
      | Some c => Err (CapabilityDenied c)
      | None => Ok tt
      end;
  Ok (mkValidated m (mkAdmissionReceipt "dev.pliegors.sdk-admission/v1"
    (namespace (identity m) ++ ":" ++ extension_name (identity m) ++ "/" ++ version_text version)
    (extension_digest (identity m)) (version_text (contract_version h)) (version_text (contract_api_version h))
    (manifest_capabilities m)
    (btree_elements (list_to_set (List.filter (fun f => bool_decide (f ∈ contract_features h))
                                    (required_feature_ids m ++ optional_feature_ids m)%list))))).

(** [HostContract::admit_component]. *)
Definition admit_component `{ComponentParser} (h : HostContract) (m : ExtensionManifest) (bs : bytes)
    : result AdmissionError ValidatedExtension :=
  inspection ← map_err (fun message => InvalidComponent (ComponentText message)) (inspect_component bs);
  _ ← map_err InvalidComponent (verify_manifest inspection m);
  admit_extension h m bs.
End admission.

(** ** Effects *)

Inductive EffectOutcome : Type := Success | EffectFailed.

Record EffectReceipt : Type := mkEffectReceipt {
  receipt_schema : string;
  receipt_sequence : N;
  receipt_outcome : EffectOutcome;
  receipt_capability : Capability;
  receipt_operation : string;
  input_sha256 : string;
  output_sha256 : string;
}.

Record EffectBroker : Type := mkBroker { broker_policy : CapabilityPolicy; next_sequence : N; receipts : list EffectReceipt }.

Inductive EffectError : Type :=
| Denied (denial : CapabilityDenial)
| InvalidOperation
| Executor (message : string) (receipt : EffectReceipt)
| ReceiptLimitExceeded
| SequenceExhausted.

Definition broker_new (policy : CapabilityPolicy) : EffectBroker := mkBroker policy 1 [].

Definition is_ascii_graphic (c : ascii) : bool := (33 <=? Ascii.N_of_ascii c) && (Ascii.N_of_ascii c <=? 126).

Definition validate_operation (operation : string) : result EffectError unit :=
  fail_if (slen operation =? 0) || (128 <? slen operation) || negb (string_all is_ascii_graphic operation) with InvalidOperation;;
  Ok tt.

(** The checks before the executor runs; the sequence number after it. *)
Definition preflight (b : EffectBroker) (c : Capability) (operation : string) : result EffectError N :=
  _ ← validate_operation operation;
  _ ← map_err Denied (require (broker_policy b) EffectBrokerCapability operation);
  _ ← map_err Denied (require (broker_policy b) c operation);
  fail_if MAX_EFFECT_RECEIPTS <=? blen (receipts b) with ReceiptLimitExceeded;;
  ok_or SequenceExhausted (checked_add_u64 (next_sequence b) 1).

Section effects.
Context `{Sha256}.

Definition effect_receipt (sequence : N) (c : Capability) (operation : string) (input : bytes) (answer : result string bytes) : EffectReceipt :=
  mkEffectReceipt "dev.pliegors.effect-receipt/v1" sequence
    (match answer with Ok _ => Success | Err _ => EffectFailed end) c operation (content_digest input)
    (content_digest (match answer with Ok output => output | Err message => as_bytes message end)).

(** [EffectBroker::execute]; the executor is over a world [W] it may change. *)
Definition broker_execute {W} (b : EffectBroker) (c : Capability) (operation : string) (input : bytes)
    (executor : W -> result string bytes * W) (w : W) : result EffectError bytes * EffectBroker * W :=
  match preflight b c operation with
  | Err error => (Err error, b, w)
  | Ok next =>
      let '(answer, w) := executor w in
      let receipt := effect_receipt (next_sequence b) c operation input answer in
      let b := mkBroker (broker_policy b) next (receipts b ++ [receipt])%list in
      (match answer with Ok output => Ok output | Err message => Err (Executor message receipt) end, b, w)
  end.
End effects.
