(* ===== verification/SdkHost.v ===== *)
(** * SdkHost: running an admitted component ([pliego-sdk/src/runtime.rs])

    The host of components: the checks before a guest runs, the effect interface it may
    import, and the transform of a build.

    The [wasmtime] crate is the class [Wasmtime]: what a guest does under a budget is a
    program over its one import. [serde_json] is the class [SdkJson]. An executor is
    user code over a world of its own; it may panic, which the host catches. Sizes are
    those of a 64-bit host. *)

From S2P Require Import Prelude Decimal Request Pattern Sdk.

Local Open Scope string_scope.
Local Open Scope N_scope.

Definition FUEL_PER_DECLARED_CPU_MS : N := 100000.
Definition MAX_TRANSFORM_INPUT_BYTES : N := 128 * 1024 * 1024.

(** ** The effect interface *)

Record EffectRequest : Type := mkRequest { request_capability : string; operation : string; payload : bytes }.
Record EffectResponse : Type := mkResponse { response_payload : bytes; response_receipt : string }.
Record EffectFailure : Type := mkFailure { failure_message : string; failure_receipt : option string }.

(** [serde_json]: a receipt as text, and whether a text is JSON and an array. *)
Class SdkJson : Type := {
  receipt_json : EffectReceipt -> result string string;
  json_is_array : string -> result string bool;
}.

(** What an [EffectExecutor] does with a call: it returns or panics. *)
Inductive Executed : Type := Returned (answer : result string bytes) | Panicked.

Definition EffectExecutor (W : Type) : Type := Capability -> string -> bytes -> W -> Executed * W.

(** [EffectError] as [Display] writes it. *)
Definition effect_error_text (e : EffectError) : string :=
  match e with
  | Denied d => "capability `" ++ capability_text (denied d) ++ "` denied for `" ++ denied_operation d ++ "`"
  | InvalidOperation => "effect operation is invalid"
  | Executor message _ => "effect executor failed: " ++ message
  | ReceiptLimitExceeded => "effect receipt limit exceeded"
  | SequenceExhausted => "effect receipt sequence exhausted"
  end.

Definition limit_text (n : N) : string := String.string_of_list_ascii (u64_to_string n).

(** The closure passed to the broker, after [catch_unwind]. *)
Definition bounded_answer (limit : N) (executed : Executed) : result string bytes :=
  match match executed with Returned answer => answer | Panicked => Err "effect executor panicked" end with
  | Ok output => if limit <? blen output then Err ("effect output exceeds the " ++ limit_text limit ++ "-byte budget") else Ok output
  | Err message =>
      if limit <? slen message then Err ("effect failure exceeds the " ++ limit_text limit ++ "-byte budget") else Err message
  end.

Section host.
Context `{Sha256, SdkJson} {W : Type}.

Record HostState : Type := mkHostState {
  effect_broker : option EffectBroker; effect_executor : option (EffectExecutor W); output_limit_bytes : N }.

Definition set_broker (b : EffectBroker) (s : HostState) : HostState := mkHostState (Some b) (effect_executor s) (output_limit_bytes s).

Definition refuse (message : string) : result EffectFailure EffectResponse := Err (mkFailure message None).

(** The answer to the guest once the broker is done. *)
Definition effect_reply (b : EffectBroker) (result : result EffectError bytes) : Prelude.result EffectFailure EffectResponse :=
  match result with
  | Ok output =>
      receipt ← ok_or (mkFailure "effect completed without a receipt" None) (last (receipts b));
      json ← map_err (fun error => mkFailure ("cannot encode effect receipt: " ++ error) None) (receipt_json receipt);
      Ok (mkResponse output json)
  | Err (Executor message receipt) =>
      match receipt_json receipt with
      | Ok json => Err (mkFailure message (Some json))
      | Err error => refuse ("cannot encode effect receipt: " ++ error)
      end
  | Err error => refuse (effect_error_text error)
  end.

(** [Host::execute] of the effect interface. *)
Definition host_execute (s : HostState) (r : EffectRequest) (w : W) : result EffectFailure EffectResponse * HostState * W :=
  match capability_from_str (request_capability r), effect_executor s, effect_broker s with
  | Err error, _, _ => (refuse error, s, w)
  | Ok _, None, _ => (refuse "effect executor is unavailable", s, w)
  | Ok _, Some _, None => (refuse "effect broker was not admitted", s, w)
  | Ok c, Some executor, Some b =>
      let limit := output_limit_bytes s in
      if limit <? blen (payload r) then (refuse ("effect input exceeds the " ++ limit_text limit ++ "-byte budget"), s, w)
      else
        let run w := let '(executed, w) := executor c (operation r) (payload r) w in (bounded_answer limit executed, w) in
        let '(answer, b, w) := broker_execute b c (operation r) (payload r) run w in
        (effect_reply b answer, set_broker b s, w)
  end.

(** ** Guests *)

(** A guest under its fuel: it ends, or calls the interface and goes on with the answer. *)
Inductive Guest (A : Type) : Type :=
| Ended (a : A)
| Calls (request : EffectRequest) (rest : result EffectFailure EffectResponse -> Guest A).

Fixpoint run_guest {A} (g : Guest A) (s : HostState) (w : W) : A * HostState * W :=
  match g with
  | Ended _ a => (a, s, w)
  | Calls _ request rest => let '(answer, s, w) := host_execute s request w in run_guest (rest answer) s w
  end.
End host.

Arguments Ended {A} a.
Arguments Calls {A} request rest.

(** How a run ended: its own result, the fuel that is left, and whether the deadline had passed. *)
Record Ending (A : Type) : Type := mkEnding { outcome : result string A; fuel_left : result string N; deadline_expired : result string bool }.
Arguments mkEnding {A} outcome fuel_left deadline_expired.
Arguments outcome {A} e.
Arguments fuel_left {A} e.
Arguments deadline_expired {A} e.

Record BuildTransformInput : Type := mkTransformInput { input_path : string; input_media_type : string; input_bytes : bytes; options_json : string }.
Record BuildTransformOutput : Type := mkTransformOutput { output_media_type : string; output_content : bytes; diagnostics_json : string }.

(** The engine, with the budget of a store and what it makes of the bytes of a component. *)
Class Wasmtime : Type := {
  configured_engine : result string unit;
  component_new : bytes -> result string unit;
  set_fuel : N -> result string unit;
  add_to_linker : result string unit;
  instance : bytes -> N -> N -> N -> Guest (Ending unit);
  transformer : bytes -> N -> N -> N -> BuildTransformInput -> Ending (result string BuildTransformOutput);
}.

Inductive ComponentHostError : Type :=
| WrongEntryKind
| WrongPlane
| WrongWorld
| ComponentFailed (error : ComponentError)
| Contract (message : string)
| UnlinkedImports (imports : list string)
| BudgetExceeded (message : string)
| Runtime (message : string)
| GuestError (message : string)
| Deadline
| FuelExhausted.

Record ComponentHostReceipt : Type := mkHostReceipt {
  host_schema : string;
  host_extension : string;
  host_digest : string;
  runtime : string;
  fuel_limit : N;
  memory_limit_bytes : N;
  host_imports : list string;
}.

(** The fuel of a manifest. *)
Definition fuel_of (m : ExtensionManifest) : result ComponentHostError N :=
  let fuel := cpu_ms (budgets m) * FUEL_PER_DECLARED_CPU_MS in
  if fuel <=? u64_max then Ok fuel else Err (BudgetExceeded "fuel limit overflow").

Definition is_broker_import (import : string) : bool := starts_with "pliego:effects/broker@" import.

(** [ComponentHost::deny_by_default] and [with_effect_executor]. *)
Record ComponentHost (W : Type) : Type := mkComponentHost { host_executor : option (EffectExecutor W) }.
Arguments mkComponentHost {W} host_executor.
Arguments host_executor {W} c.

Definition deny_by_default `{Wasmtime} {W} : result ComponentHostError (ComponentHost W) :=
  _ ← map_err Runtime configured_engine; Ok (mkComponentHost None).

Definition with_effect_executor {W} (host : ComponentHost W) (executor : EffectExecutor W) : ComponentHost W :=
  mkComponentHost (Some executor).

(** How a run that the deadline allows is reported. *)
Definition settle_ending {A} (e : Ending A) : result ComponentHostError A :=
  expired ← map_err Runtime (deadline_expired e);
  fail_if (expired : bool) with Deadline;;
  match outcome e with
  | Ok a => Ok a
  | Err error => match fuel_left e with Ok 0 => Err FuelExhausted | _ => Err (Runtime error) end
  end.

Section instantiate.
Context `{ComponentParser, Wasmtime, Sha256, SdkJson} {W : Type}.

(** The inspection and the checks of [instantiate] before it makes an engine: the imports of the component. *)
Definition linkable (host : ComponentHost W) (m : ExtensionManifest) (bs : bytes) : result ComponentHostError (list string) :=
  fail_if negb (bool_decide (kind (entry m) = WasmComponent)) with WrongEntryKind;;
  inspection ← map_err (fun message => ComponentFailed (ComponentText message)) (inspect_component bs);
  _ ← map_err ComponentFailed (verify_manifest inspection m);
  let imports := inspected_imports inspection in
  fail_if existsb (fun i => negb (is_broker_import i)) imports
          || existsb is_broker_import imports && match host_executor host with Some _ => false | None => true end
    with UnlinkedImports imports;;
  Ok imports.

(** The store of an instance: the policy of its broker is what admission granted. *)
Definition initial_state (host : ComponentHost W) (v : ValidatedExtension) (imports : list string) : HostState :=
  let policy := fold_left grant (granted_capabilities (validated_receipt v)) deny_all in
  mkHostState (if existsb is_broker_import imports then Some (broker_new policy) else None) (host_executor host)
    (output_bytes (budgets (validated_manifest v))).

Definition instance_fuel (m : ExtensionManifest) (bs : bytes) : result ComponentHostError N :=
  _ ← map_err Runtime configured_engine;
  _ ← map_err Runtime (component_new bs);
  fuel ← fuel_of m;
  _ ← map_err Runtime (set_fuel fuel);
  Ok fuel.

(** [ComponentHost::instantiate], with the state of the host and the world at the end. *)
Definition instantiate (host : ComponentHost W) (v : ValidatedExtension) (bs : bytes) (w : W)
    : result ComponentHostError ComponentHostReceipt * option HostState * W :=
  let m := validated_manifest v in
  match imports ← linkable host m bs; fuel ← instance_fuel m bs;
        (if existsb is_broker_import imports then map_err Runtime add_to_linker else Ok tt) ≫= fun _ => Ok (imports, fuel) with
  | Err error => (Err error, None, w)
  | Ok (imports, fuel) =>
      let '(ending, s, w) := run_guest (instance bs fuel (memory_bytes (budgets m)) (wall_time_ms (budgets m)))
                               (initial_state host v imports) w in
      (_ ← settle_ending ending;
       Ok (mkHostReceipt "dev.pliegors.component-host/v1" (admitted_extension (validated_receipt v)) (admitted_digest (validated_receipt v))
             "wasmtime-component-36.0.8" fuel (memory_bytes (budgets m)) imports), Some s, w)
  end.
End instantiate.

(** ** Transforms *)

Definition validate_media_type (value : string) : result ComponentHostError unit :=
  fail_if (slen value =? 0) || (256 <? slen value) || negb (str_has "/" value) || has_control_byte value
    with Contract "transform media type must be a bounded visible MIME value";;
  Ok tt.

Definition validate_transform_path (path : string) : result ComponentHostError unit :=
  fail_if negb (relative_slash_path path) with Contract "transform path must be a normalized relative slash path";; Ok tt.

Definition le_bytes_8 (n : N) : bytes := rev (be_bytes 8 n).

(** The fields a digest of a transform takes, each under its length. *)
Definition le_fields (fields : list bytes) : bytes := concat (map (fun f => le_bytes_8 (blen f) ++ f)%list fields).

Section transform.
Context `{ComponentParser, Wasmtime, Sha256, SdkJson}.

Definition validate_transform_input (input : BuildTransformInput) : result ComponentHostError unit :=
  _ ← validate_transform_path (input_path input);
  _ ← validate_media_type (input_media_type input);
  _ ← map_err (fun error => Contract ("transform options_json is invalid JSON: " ++ error)) (json_is_array (options_json input));
  Ok tt.

Definition validate_transform_output (output : BuildTransformOutput) : result ComponentHostError unit :=
  _ ← validate_media_type (output_media_type output);
  array ← map_err (fun error => Contract ("transform diagnostics_json is invalid JSON: " ++ error)) (json_is_array (diagnostics_json output));
  fail_if negb array with Contract "transform diagnostics_json must encode an array";;
  Ok tt.

Definition hash_transform_input (input : BuildTransformInput) : string :=
  content_digest (le_fields [as_bytes (input_path input); as_bytes (input_media_type input); input_bytes input; as_bytes (options_json input)]).

Definition hash_transform_output (output : BuildTransformOutput) : string :=
  content_digest (le_fields [as_bytes (output_media_type output); output_content output; as_bytes (diagnostics_json output)]).

Record BuildTransformReceipt : Type := mkTransformReceipt {
  transform_schema : string;
  transform_extension : string;
  transform_digest : string;
  transform_input_sha256 : string;
  transform_output_sha256 : string;
  transform_fuel_limit : N;
  fuel_consumed : N;
  transform_memory_limit : N;
  transform_output_limit : N;
}.

(** The checks before the guest runs. *)
Definition transformable (m : ExtensionManifest) (bs : bytes) (input : BuildTransformInput) : result ComponentHostError unit :=
  fail_if negb (bool_decide (kind (entry m) = WasmComponent)) with WrongEntryKind;;
  fail_if negb (bool_decide (plane m = Build)) with WrongPlane;;
  fail_if negb (bool_decide (world (entry m) = Some "pliego:build/transformer@0.1.0")) with WrongWorld;;
  fail_if negb (bool_decide (determinism m = Pure)) with Contract "build transform execution requires determinism pure";;
  inspection ← map_err (fun message => ComponentFailed (ComponentText message)) (inspect_component bs);
  _ ← map_err ComponentFailed (verify_manifest inspection m);
  fail_if negb (bool_decide (inspected_imports inspection = [])) with UnlinkedImports (inspected_imports inspection);;
  fail_if MAX_TRANSFORM_INPUT_BYTES <?
          saturating_add (saturating_add (saturating_add (slen (input_path input)) (slen (input_media_type input))) (blen (input_bytes input)))
            (slen (options_json input))
    with BudgetExceeded "transform input exceeds the 128 MiB runtime ceiling";;
  validate_transform_input input.

(** [ComponentHost::execute_build_transform]. *)
Definition execute_build_transform (v : ValidatedExtension) (bs : bytes) (input : BuildTransformInput)
    : result ComponentHostError (BuildTransformOutput * BuildTransformReceipt) :=
  let m := validated_manifest v in
  _ ← transformable m bs input;
  fuel ← instance_fuel m bs;
  let ending := transformer bs fuel (memory_bytes (budgets m)) (wall_time_ms (budgets m)) input in
  guest ← settle_ending ending;
  output ← map_err GuestError guest;
  _ ← validate_transform_output output;
  fail_if output_bytes (budgets m) <?
          saturating_add (saturating_add (slen (output_media_type output)) (blen (output_content output))) (slen (diagnostics_json output))
    with BudgetExceeded ("transform output exceeds the " ++ limit_text (output_bytes (budgets m)) ++ "-byte budget");;
  remaining ← map_err Runtime (fuel_left ending);
  Ok (output, mkTransformReceipt "dev.pliegors.build-transform-receipt/v1" (admitted_extension (validated_receipt v))
        (admitted_digest (validated_receipt v)) (hash_transform_input input) (hash_transform_output output) fuel (fuel - remaining)
        (memory_bytes (budgets m)) (output_bytes (budgets m))).
End transform.
