(* ===== verification/SdkSafety.v ===== *)
(** * SdkSafety: extensions are confined to what they were granted ([pliego-sdk])

    Theorems on [Sdk] and [SdkHost]: admission of a component is exact, and whatever an
    admitted guest asks for, the executor is called only within its grants and budget,
    with one receipt for every call. *)

From S2P Require Import Prelude Decimal Request Pattern Sdk SdkHost.

Local Open Scope string_scope.
Local Open Scope N_scope.

(** ** Searching *)

Section search.
Context {A : Type} (cmp : A -> A -> comparison) (Heq : forall x y, cmp x y = Eq -> x = y).

Lemma binary_search_sound values x : binary_search cmp values x = true -> x ∈ values.
Proof.
  unfold binary_search. destruct (values !! _) as [v|] eqn:Hv; [|done]. destruct (cmp v x) eqn:Hc; [|done..].
  apply Heq in Hc as ->. intros _. by eapply list_elem_of_lookup_2.
Qed.

Context (Htrans : forall x y z, cmp x y = Lt -> cmp y z = Lt -> cmp x z = Lt).
Context (Hrefl : forall x, cmp x x = Eq) (Hflip : forall x y, cmp x y = Lt -> cmp y x = Gt).

Lemma strictly_ascending_sorted values : strictly_ascending cmp values = true -> StronglySorted (fun a b => cmp a b = Lt) values.
Proof.
  induction values as [|a values IH]; [constructor|]. destruct values as [|b rest]; [repeat constructor|].
  cbn [strictly_ascending]. destruct (cmp a b) eqn:Hab; [done| |done]. intros Hrest. specialize (IH Hrest).
  constructor; [done|]. constructor; [done|]. apply StronglySorted_inv in IH as [_ Hb].
  eapply Forall_impl; [exact Hb|]. intros c. by apply Htrans.
Qed.

Lemma ascending_lookup values i j x y : StronglySorted (fun a b => cmp a b = Lt) values ->
  (i < j)%nat -> values !! i = Some x -> values !! j = Some y -> cmp x y = Lt.
Proof.
  intros Hs. revert i j. induction Hs as [|a values _ IH Hall]; intros i j Hij Hi Hj; [done|].
  destruct j as [|j]; [lia|]. destruct i as [|i]; cbn in *.
  - injection Hi as ->. by eapply (proj1 (Forall_lookup _ _) Hall).
  - apply (IH i j); [lia|done..].
Qed.

Lemma search_base_finds values x i : StronglySorted (fun a b => cmp a b = Lt) values -> values !! i = Some x ->
  forall fuel base size, (size <= fuel)%nat -> (base <= i < base + size)%nat -> (base + size <= length values)%nat ->
  search_base cmp fuel values x base size = i.
Proof.
  intros Hs Hi. induction fuel as [|fuel IH]; intros base size Hfuel Hbase Hlen; [lia|]. cbn [search_base].
  destruct (Nat.ltb_spec 1 size) as [Hsize|Hsize]; [|lia].
  assert (Hhalf : (0 < size / 2 /\ 2 * (size / 2) <= size)%nat).
  { pose proof (Nat.div_mod size 2 ltac:(lia)). pose proof (Nat.mod_upper_bound size 2 ltac:(lia)). lia. }
  destruct (lookup_lt_is_Some_2 values (base + size / 2)) as [v Hv]; [lia|]. rewrite Hv.
  destruct (Nat.lt_trichotomy i (base + size / 2)) as [Hlt|[->|Hgt]].
  - pose proof (Hflip _ _ (ascending_lookup _ _ _ _ _ Hs Hlt Hi Hv)) as ->. apply IH; lia.
  - rewrite Hi in Hv. injection Hv as <-. rewrite Hrefl. apply IH; lia.
  - rewrite (ascending_lookup _ _ _ _ _ Hs Hgt Hv Hi). apply IH; lia.
Qed.

Lemma binary_search_exact values x : strictly_ascending cmp values = true -> binary_search cmp values x = true <-> x ∈ values.
Proof.
  intros Hs%strictly_ascending_sorted. split; [apply binary_search_sound|]. intros [i Hi]%list_elem_of_lookup.
  pose proof (lookup_lt_Some _ _ _ Hi). unfold binary_search. rewrite (search_base_finds values x i Hs Hi) by lia. by rewrite Hi, Hrefl.
Qed.
End search.

Lemma capability_rank_inj x y : capability_rank x = capability_rank y -> x = y.
Proof. by destruct x, y. Qed.

Lemma capability_search cs c : strictly_ascending capability_compare cs = true -> binary_search capability_compare cs c = true <-> c ∈ cs.
Proof.
  apply binary_search_exact; unfold capability_compare.
  - intros x y Hxy%N.compare_eq_iff. by apply capability_rank_inj.
  - intros x y z. rewrite !N.compare_lt_iff. lia.
  - intros x. apply N.compare_refl.
  - intros x y. rewrite N.compare_lt_iff, N.compare_gt_iff. done.
Qed.

Lemma elem_of_capability_elements cs c : c ∈ capability_elements cs <-> c ∈ cs.
Proof.
  unfold capability_elements. rewrite !list_elem_of_In, List.filter_In, bool_decide_eq_true. split; [by intros [_ ?]|].
  intros Hc. split; [|done]. destruct c; cbn; tauto.
Qed.

(** ** Inspection *)

(** Every import seen is classified, and its capabilities are collected. *)
Definition classified (imports : gset string) (capabilities : gset Capability) : Prop :=
  forall name, name ∈ imports -> exists cs, classify_import name = Ok cs /\ cs ⊆ capabilities.

Lemma inspect_imports_classified section : forall s s', classified (seen_imports s) (seen_capabilities s) ->
  inspect_imports section s = Ok s' -> classified (seen_imports s') (seen_capabilities s').
Proof.
  induction section as [|[[name is_type]|e] section IH]; intros s s' Hs; cbn [inspect_imports map_err]; [by intros [= <-]| |done].
  cbn [mbind result_bind]. destruct is_type; [by apply IH|]. destruct (classify_import name) as [cs|e] eqn:Hc; [|done]. cbn [mbind result_bind].
  apply IH. cbn. intros n [->%elem_of_singleton|Hn]%elem_of_union.
  - exists cs. split; [done|set_solver].
  - destruct (Hs n Hn) as (cs' & Hcs' & Hsub). exists cs'. split; [done|set_solver].
Qed.

Lemma inspect_exports_keeps section : forall s s', inspect_exports section s = Ok s' ->
  seen_imports s' = seen_imports s /\ seen_capabilities s' = seen_capabilities s.
Proof.
  induction section as [|[[name is_type]|e] section IH]; intros s s'; cbn [inspect_exports map_err]; [by intros [= <-]| |done].
  cbn [mbind result_bind]. destruct is_type; intros Hs; apply IH in Hs; done.
Qed.

Lemma inspect_payloads_classified payloads : forall s s', classified (seen_imports s) (seen_capabilities s) ->
  inspect_payloads payloads s = Ok s' -> classified (seen_imports s') (seen_capabilities s').
Proof.
  induction payloads as [|[p|e] payloads IH]; intros s s' Hs; cbn [inspect_payloads map_err]; [by intros [= <-]| |done].
  cbn [mbind result_bind]. destruct p as [| | |section|section|].
  - destruct (_ <? _); [done|]. by apply IH.
  - destruct (_ <? _); [done|]. by apply IH.
  - destruct (_ <? _); by apply IH.
  - destruct (_ <? _); [by apply IH|]. destruct (inspect_imports section s) as [s1|] eqn:Hi; [|done]. cbn [mbind result_bind].
    apply IH. by eapply inspect_imports_classified.
  - destruct (_ <? _); [by apply IH|]. destruct (inspect_exports section s) as [s1|] eqn:Hi; [|done]. cbn [mbind result_bind].
    apply inspect_exports_keeps in Hi as [Hi Hc]. apply IH. by rewrite Hi, Hc.
  - by apply IH.
Qed.

Lemma inspect_component_classified `{ComponentParser} bs i : inspect_component bs = Ok i ->
  forall name, name ∈ inspected_imports i -> exists cs, classify_import name = Ok cs /\ forall c, c ∈ cs -> c ∈ required_capabilities i.
Proof.
  unfold inspect_component. intros Hi. split_ok. apply inspect_payloads_classified in Hr0; [|by intros ? ?%not_elem_of_empty].
  subst i. cbn [inspected_imports required_capabilities]. intros name Hname%elem_of_btree_elements. destruct (Hr0 name Hname) as (cs & Hcs & Hsub). exists cs. split; [done|].
  intros c Hc. apply elem_of_capability_elements. by apply Hsub.
Qed.

(** ** Effects *)

(** A call of the executor. *)
Record Call : Type := mkCall { called : Capability; called_operation : string; called_input : bytes; executed : Executed }.

(** An executor that records its calls. *)
Definition recorded {W} (executor : EffectExecutor W) : EffectExecutor (W * list Call) :=
  fun c operation input w =>
    let '(e, w') := executor c operation input (fst w) in (e, (w', snd w ++ [mkCall c operation input e])%list).

Section effects.
Context `{Sha256, SdkJson} {W : Type}.

(** The receipts of the calls, numbered from one. *)
Definition receipts_of (limit : N) (calls : list Call) : list EffectReceipt :=
  imap (fun i call => effect_receipt (N.of_nat i + 1) (called call) (called_operation call) (called_input call)
                        (bounded_answer limit (executed call))) calls.

(** A call a policy allows, within a budget. *)
Definition confined (policy : CapabilityPolicy) (limit : N) (call : Call) : Prop :=
  called call ∈ grants policy /\ EffectBrokerCapability ∈ grants policy /\ blen (called_input call) <= limit
  /\ validate_operation (called_operation call) = Ok tt.

(** A broker and the calls made through it. *)
Definition accounted (policy : CapabilityPolicy) (limit : N) (calls : list Call) (b : EffectBroker) : Prop :=
  broker_policy b = policy /\ next_sequence b = blen calls + 1 /\ receipts b = receipts_of limit calls
  /\ blen calls <= MAX_EFFECT_RECEIPTS /\ Forall (confined policy limit) calls.

Lemma require_ok p c operation : require p c operation = Ok tt <-> c ∈ grants p.
Proof. unfold require, allows. by case_bool_decide. Qed.

Lemma preflight_ok b c operation next : preflight b c operation = Ok next ->
  validate_operation operation = Ok tt /\ EffectBrokerCapability ∈ grants (broker_policy b) /\ c ∈ grants (broker_policy b)
  /\ blen (receipts b) < MAX_EFFECT_RECEIPTS /\ next = next_sequence b + 1.
Proof.
  unfold preflight. intros Hok. split_ok. rewrite !require_ok in *. apply N.leb_gt in Hg. apply ok_or_ok in Hok.
  unfold checked_add_u64 in Hok. destruct (_ <=? _); [|done]. injection Hok as <-. done.
Qed.

(** With room for a receipt the sequence never runs out. *)
Lemma accounted_grows policy limit calls b c operation input answer :
  accounted policy limit calls b -> blen input <= limit ->
  forall next, preflight b c operation = Ok next ->
  accounted policy limit (calls ++ [mkCall c operation input answer])%list
    (mkBroker (broker_policy b) next (receipts b ++ [effect_receipt (next_sequence b) c operation input (bounded_answer limit answer)])%list).
Proof.
  intros (Hp & Hn & Hr & Hmax & Hall) Hinput next (Hop & Hb & Hc & Hroom & ->)%preflight_ok.
  assert (Hlen : blen (receipts b) = blen calls) by (unfold blen, receipts_of in *; by rewrite Hr, length_imap). unfold accounted. cbn.
  unfold blen in *. rewrite length_app. cbn. split_and!; [done|lia| |lia|].
  - unfold receipts_of. rewrite imap_app, Hr, Hn. cbn. by rewrite Nat.add_0_r.
  - apply Forall_app. split; [done|]. constructor; [|done]. unfold confined. cbn. by rewrite <- Hp.
Qed.

Lemma host_execute_accounted policy limit executor s r w calls reply s' (w' : W * list Call) :
  effect_executor s = Some (recorded executor) -> output_limit_bytes s = limit ->
  (forall b, effect_broker s = Some b -> accounted policy limit calls b) -> (effect_broker s = None -> calls = []) ->
  host_execute s r (w, calls) = (reply, s', w') ->
  effect_executor s' = Some (recorded executor) /\ output_limit_bytes s' = limit
  /\ (forall b, effect_broker s' = Some b -> accounted policy limit (snd w') b) /\ (effect_broker s' = None -> snd w' = []).
Proof.
  intros Hx Hl Hb Hnone. unfold host_execute. rewrite Hx, Hl.
  destruct (capability_from_str _) as [c|e]; [|by intros [= <- <- <-]].
  destruct (effect_broker s) as [b|] eqn:Hbroker; [|intros [= <- <- <-]; rewrite Hbroker; by split_and!].
  destruct (limit <? blen (payload r)) eqn:Hsize; [intros [= <- <- <-]; rewrite Hbroker; split_and!; [done..|naive_solver|done]|].
  apply N.ltb_ge in Hsize. unfold broker_execute. destruct (preflight b c (operation r)) as [next|e] eqn:Hp.
  - unfold recorded. cbn [fst snd]. destruct (executor c (operation r) (payload r) w) as [e w1]. intros [= _ <- <-]. cbn.
    split_and!; [done..| |done]. intros b' [= <-]. by apply (accounted_grows policy limit calls b c (operation r) (payload r) e (Hb b eq_refl) Hsize).
  - intros [= _ <- <-]. cbn. split_and!; [done..| |done]. intros b' [= <-]. by apply Hb.
Qed.

Lemma run_guest_accounted {A} (g : Guest A) : forall policy limit executor s w calls a s' (w' : W * list Call),
  effect_executor s = Some (recorded executor) -> output_limit_bytes s = limit ->
  (forall b, effect_broker s = Some b -> accounted policy limit calls b) -> (effect_broker s = None -> calls = []) ->
  run_guest g s (w, calls) = (a, s', w') ->
  (forall b, effect_broker s' = Some b -> accounted policy limit (snd w') b) /\ (effect_broker s' = None -> snd w' = []).
Proof.
  induction g as [a|r rest IH]; intros policy limit executor s w calls a' s' w' Hx Hl Hb Hnone; cbn [run_guest].
  - intros [= _ <- <-]. done.
  - destruct (host_execute s r (w, calls)) as [[reply s1] [w1 calls1]] eqn:Hstep.
    destruct (host_execute_accounted _ _ _ _ _ _ _ _ _ _ Hx Hl Hb Hnone Hstep) as (Hx1 & Hl1 & Hb1 & Hn1). by eapply IH.
Qed.
End effects.

(** ** Admission *)

Section admission.
Context `{Semver, Sha256}.

Lemma find_none_iff {A} (P : A -> bool) (values : list A) : List.find P values = None <-> forall a, a ∈ values -> P a = false.
Proof.
  split; [intros Hf a Ha; by eapply List.find_none; [|apply list_elem_of_In]|]. intros Hall. destruct (List.find P values) as [a|] eqn:Hf; [|done].
  apply List.find_some in Hf as [Ha Hp]. rewrite Hall in Hp; [done|by apply list_elem_of_In].
Qed.

(** What the manifest of a well-shaped extension may ask for. *)
Definition disciplined (m : ExtensionManifest) : Prop :=
  (plane m <> Browser -> forall c, c ∈ manifest_capabilities m -> is_browser_only c = false)
  /\ (determinism m = Pure -> manifest_capabilities m = [])
  /\ (determinism m = RecordedEffect -> EffectBrokerCapability ∈ manifest_capabilities m).

Lemma shape_capabilities m : validate_manifest_shape m = Ok tt ->
  strictly_ascending capability_compare (manifest_capabilities m) = true /\ disciplined m.
Proof.
  unfold validate_manifest_shape, disciplined. intros Hok. split_ok. apply negb_false_iff in Hg2. split; [done|]. split_and!.
  - intros Hp c Hc. rewrite bool_decide_eq_false_2 in Hg3 by done. cbn in Hg3. destruct (is_browser_only c) eqn:Hb; [|done].
    rewrite <- Hg3. symmetry. apply existsb_exists. exists c. by rewrite <- list_elem_of_In.
  - intros Hp. rewrite bool_decide_eq_true_2 in Hg4 by done. by apply negb_false_iff, bool_decide_eq_true in Hg4.
  - intros Hp. rewrite bool_decide_eq_true_2 in Hg5 by done. by apply negb_false_iff, bool_decide_eq_true in Hg5.
Qed.

(** The conditions of [HostContract::admit]. *)
Record welcome (h : HostContract) (m : ExtensionManifest) (bs : bytes) : Prop := {
  welcome_shape : validate_manifest_shape m = Ok tt;
  welcome_api : exists api, version_parse (api_version m) = Ok api /\ version_eqb api (contract_api_version h) = true;
  welcome_host : exists requirement, req_parse (host_version m) = Ok requirement /\ req_matches requirement (contract_version h) = true;
  welcome_digest : extension_digest (identity m) = content_digest bs;
  welcome_features : forall f, f ∈ required_feature_ids m -> f ∈ contract_features h;
  welcome_capabilities : forall c, c ∈ manifest_capabilities m -> c ∈ grants (contract_policy h);
}.

(** The receipt of an admission. *)
Record receipts_admission (h : HostContract) (m : ExtensionManifest) (v : ValidatedExtension) : Prop := {
  keeps_manifest : validated_manifest v = m;
  keeps_schema : admission_schema (validated_receipt v) = "dev.pliegors.sdk-admission/v1";
  keeps_name : exists version, version_parse (extension_version (identity m)) = Ok version /\
    admitted_extension (validated_receipt v) = namespace (identity m) ++ ":" ++ extension_name (identity m) ++ "/" ++ version_text version;
  keeps_digest : admitted_digest (validated_receipt v) = extension_digest (identity m);
  keeps_versions : admitted_host (validated_receipt v) = version_text (contract_version h)
    /\ admitted_api (validated_receipt v) = version_text (contract_api_version h);
  keeps_capabilities : granted_capabilities (validated_receipt v) = manifest_capabilities m;
  keeps_features : negotiated_features (validated_receipt v) = btree_elements (list_to_set
    (List.filter (fun f => bool_decide (f ∈ contract_features h)) (required_feature_ids m ++ optional_feature_ids m)%list));
}.

Lemma admit_extension_exact h m bs v : admit_extension h m bs = Ok v <-> welcome h m bs /\ receipts_admission h m v.
Proof.
  split.
  - unfold admit_extension. intros Hok. split_ok. subst v. apply negb_false_iff in Hg, Hg0, Hg1. apply String.eqb_eq in Hg1.
    destruct (List.find _ (required_feature_ids m)) eqn:Hf; [done|]. destruct (List.find _ (manifest_capabilities m)) eqn:Hc; [done|].
    rewrite find_none_iff in Hf. rewrite find_none_iff in Hc. split; split; cbn; try done; try (by eexists).
    + intros f Hin. specialize (Hf f Hin). cbn in Hf. by apply negb_false_iff, bool_decide_eq_true in Hf.
    + intros c Hin. specialize (Hc c Hin). cbn in Hc. by apply negb_false_iff, bool_decide_eq_true in Hc.
  - intros [[Hshape (api & Hapi & Heq) (req & Hreq & Hmatch) Hdigest Hfeatures Hcaps] [Hm Hs (version & Hv & Hn) Hd [Hh Ha] Hg Hf]].
    unfold admit_extension. rewrite Hshape, Hv, Hapi. cbn [mbind result_bind map_err]. rewrite Heq, Hreq. cbn [mbind result_bind map_err negb].
    rewrite Hmatch, Hdigest, String.eqb_refl. cbn [negb].
    rewrite (proj2 (find_none_iff _ (required_feature_ids m))) by (intros f Hin; by rewrite bool_decide_eq_true_2 by auto).
    rewrite (proj2 (find_none_iff _ (manifest_capabilities m))) by (intros c Hin; unfold allows; by rewrite bool_decide_eq_true_2 by auto).
    cbn [mbind result_bind]. destruct v as [vm [schema name digest vh va caps features]]. cbn in *. subst. by rewrite Hdigest.
Qed.

(** What the binary of a component asks for is what its manifest says. *)
Record faithful `{ComponentParser} (m : ExtensionManifest) (bs : bytes) : Prop := {
  faithful_inspection : exists i, inspect_component bs = Ok i /\ inspected_imports i = imports m /\ inspected_exports i = exports m
    /\ forall c, c ∈ required_capabilities i -> c ∈ manifest_capabilities m;
}.

Lemma verify_manifest_exact i m : strictly_ascending capability_compare (manifest_capabilities m) = true ->
  verify_manifest i m = Ok tt <-> inspected_imports i = imports m /\ inspected_exports i = exports m
    /\ forall c, c ∈ required_capabilities i -> c ∈ manifest_capabilities m.
Proof.
  intros Hs. unfold verify_manifest. case_bool_decide as Hi; cbn [negb]; [|naive_solver]. case_bool_decide as He; cbn [negb]; [|naive_solver].
  assert (Hf : List.find (fun c => negb (binary_search capability_compare (manifest_capabilities m) c)) (required_capabilities i) = None <->
    forall c, c ∈ required_capabilities i -> c ∈ manifest_capabilities m).
  { rewrite find_none_iff. setoid_rewrite negb_false_iff. by setoid_rewrite (fun c => capability_search (manifest_capabilities m) c Hs). }
  destruct (List.find _ _); naive_solver.
Qed.
End admission.

Lemma granted_policy caps c : c ∈ grants (fold_left grant caps deny_all) <-> c ∈ caps.
Proof.
  assert (Hgen : forall p, c ∈ grants (fold_left grant caps p) <-> c ∈ caps \/ c ∈ grants p).
  { induction caps as [|d caps IH]; intros p; cbn [fold_left]; [set_solver|]. rewrite IH. unfold grant. cbn. set_solver. }
  rewrite Hgen. unfold deny_all. cbn. set_solver.
Qed.

(** ** The digests of a transform *)

Lemma le_bytes_8_inj x y r q : x <= u64_max -> y <= u64_max -> (le_bytes_8 x ++ r = le_bytes_8 y ++ q)%list -> x = y /\ r = q.
Proof.
  intros Hx Hy E. unfold le_bytes_8 in E. apply app_inj_1 in E as [E ->]; [|by rewrite !length_rev, !length_be_bytes].
  split; [|done]. apply (f_equal (@rev _)) in E. rewrite !rev_involutive in E.
  apply (be_bytes_8_delimiting x y [] []); [done..|]. by rewrite E.
Qed.

Lemma le_fields_inj xs : forall ys, length xs = length ys -> Forall (fun f => blen f <= u64_max) (xs ++ ys)%list ->
  le_fields xs = le_fields ys -> xs = ys.
Proof.
  unfold le_fields. induction xs as [|x xs IH]; intros [|y ys] Hlen Hall; cbn [map concat length] in *; try done.
  rewrite <- !app_assoc. apply Forall_app in Hall as [[Hx Hxs]%Forall_cons [Hy Hys]%Forall_cons].
  intros [Hl E]%le_bytes_8_inj; [|done..]. apply app_inj_1 in E as [-> E]; [|unfold blen in Hl; lia]. f_equal.
  apply IH; [lia|by apply Forall_app|done].
Qed.

(** The output digest binds media type, content and diagnostics. *)
Lemma transform_output_binds `{Sha256} a b :
  Forall (fun f => blen f <= u64_max) [as_bytes (output_media_type a); output_content a; as_bytes (diagnostics_json a);
    as_bytes (output_media_type b); output_content b; as_bytes (diagnostics_json b)] ->
  hash_transform_output a = hash_transform_output b -> a = b \/ exists x y, collides x y.
Proof.
  intros Hfits E. unfold hash_transform_output, content_digest in E. apply (inj (String.append "sha256:")) in E. apply hex_inj in E.
  destruct (decide (le_fields [as_bytes (output_media_type a); output_content a; as_bytes (diagnostics_json a)]
    = le_fields [as_bytes (output_media_type b); output_content b; as_bytes (diagnostics_json b)])) as [Ef|Hne]; [left|right; by eexists _, _].
  apply le_fields_inj in Ef; [|done|done]. injection Ef as Em Ec Ed. apply as_bytes_inj in Em, Ed. destruct a, b. cbn in *. by subst.
Qed.

(** ** Properties *)

(** C36. Admission of a component is exact: it succeeds exactly when the manifest is well shaped, states
    the imports and exports of the binary and at least the capabilities these stand for, the versions are
    those of the host, the digest is that of the bytes, and the host has every required feature and grants
    every capability; the receipt restates the manifest and the negotiated features. Every import of an
    admitted component is then one the host knows and grants, and a pure extension has no capability. *)
Theorem component_admission_exact `{Semver, Sha256, ComponentParser} h m bs v :
  (admit_component h m bs = Ok v <-> faithful m bs /\ welcome h m bs /\ receipts_admission h m v)
  /\ (admit_component h m bs = Ok v -> disciplined m /\
      forall name, name ∈ imports m -> exists cs, classify_import name = Ok cs /\ cs ⊆ grants (contract_policy h)).
Proof.
  assert (Hexact : admit_component h m bs = Ok v <-> faithful m bs /\ welcome h m bs /\ receipts_admission h m v).
  { unfold admit_component. rewrite <- admit_extension_exact.
    destruct (inspect_component bs) as [i|e] eqn:Hi; cbn [map_err mbind result_bind].
    2:{ split; [done|]. intros [[(i & Hi' & _)] _]. congruence. }
    split.
    - intros Hok. split_ok. split; [|done]. apply admit_extension_exact in Hok as [Hw _].
      apply (verify_manifest_exact i m (proj1 (shape_capabilities m (welcome_shape h m bs Hw)))) in Hr0. split. by exists i.
    - intros [[(i' & Hi' & Hspec)] Hok]. injection (eq_trans (eq_sym Hi) Hi') as <-.
      pose proof (proj1 (admit_extension_exact h m bs v) Hok) as [Hw _].
      by rewrite (proj2 (verify_manifest_exact i m (proj1 (shape_capabilities m (welcome_shape h m bs Hw)))) Hspec). }
  split; [exact Hexact|]. intros Hok. apply Hexact in Hok as ([(i & Hi & Himports & _ & Hcaps)] & Hw & _).
  split; [apply shape_capabilities, (welcome_shape h m bs Hw)|]. rewrite <- Himports. intros name Hname.
  destruct (inspect_component_classified bs i Hi name Hname) as (cs & Hcs & Hsub). exists cs. split; [done|].
  intros c Hc. by apply (welcome_capabilities h m bs Hw), Hcaps, Hsub.
Qed.

(** C19. An admitted extension is confined: whatever guest code is instantiated for it and whatever that
    guest asks of the effect interface, the executor is called only for capabilities that the manifest
    declares and the policy of the host grants, with the broker itself granted, with valid operations and
    inputs within the output budget, at most 4096 times, panics and failures included; the receipts are
    those calls, in order, numbered from one, each binding its input and the answer the guest was given. *)
Theorem effects_confined `{Semver, Sha256, ComponentParser, Wasmtime, SdkJson} {W} h m bs v code (executor : EffectExecutor W) host w r s w' calls :
  admit_extension h m bs = Ok v ->
  instantiate (with_effect_executor host (recorded executor)) v code (w, []) = (r, s, (w', calls)) ->
  let limit := output_bytes (budgets m) in
  Forall (fun call => called call ∈ manifest_capabilities m /\ confined (contract_policy h) limit call) calls
  /\ blen calls <= MAX_EFFECT_RECEIPTS
  /\ (calls = [] \/ exists state b, s = Some state /\ effect_broker state = Some b /\ receipts b = receipts_of limit calls).
Proof.
  intros [Hw Hrec]%admit_extension_exact. unfold instantiate. rewrite (keeps_manifest h m v Hrec). cbn zeta.
  destruct (imports ← _; _) as [[imports fuel]|e]; [|intros [= _ _ _ <-]; split_and!; [constructor|done|by left]].
  destruct (run_guest _ _ _) as [[ending state] world] eqn:Hrun. intros [= _ <- ->].
  set (policy := fold_left grant (manifest_capabilities m) deny_all).
  assert (Hends : (forall b, effect_broker state = Some b -> accounted policy (output_bytes (budgets m)) calls b)
    /\ (effect_broker state = None -> calls = [])).
  { refine (run_guest_accounted _ policy (output_bytes (budgets m)) executor _ w [] ending state (w', calls) _ _ _ _ Hrun);
      unfold initial_state; cbn; rewrite ?(keeps_manifest h m v Hrec), ?(keeps_capabilities h m v Hrec); try done.
    intros b. destruct (existsb _ _); [|done]. intros [= <-]. by split_and!. }
  destruct Hends as [Hb Hnone]. destruct (effect_broker state) as [b|] eqn:Hbroker.
  2:{ rewrite (Hnone eq_refl). split_and!; [constructor|done|by left]. }
  destruct (Hb b eq_refl) as (_ & _ & Hreceipts & Hmax & Hall). split_and!; [|done|right; by exists state, b].
  eapply Forall_impl; [exact Hall|]. intros call (Hc & Hbr & Hrest). unfold policy in Hc, Hbr. rewrite granted_policy in Hc, Hbr.
  split; [done|]. split; [by apply (welcome_capabilities h m bs Hw)|]. split; [by apply (welcome_capabilities h m bs Hw)|done].
Qed.

(** ** A sample extension *)

Module SdkSample.
#[export] Existing Instance toy_sha256.

#[export] Instance equal_versions : Semver := {|
  Version := string; VersionReq := string; version_eqb := String.eqb; version_parse := fun s => Ok s; version_text := fun s => s;
  req_parse := fun s => Ok s; req_matches := fun _ _ => true |}.

#[export] Instance broker_importer : ComponentParser := {|
  validator := fun _ => Ok tt;
  parse_payloads := fun _ => [Ok ModuleSection; Ok End; Ok (ComponentImportSection [Ok ("pliego:effects/broker@0.1.0", false)]); Ok End] |}.

Definition greedy : Guest (Ending unit) :=
  Calls (mkRequest "network" "fetch" [x01]) (fun _ =>
  Calls (mkRequest "clock" "now" []) (fun _ =>
  Calls (mkRequest "network" "fetch" [x02]) (fun _ =>
  Ended (mkEnding (Ok tt) (Ok 1) (Ok false))))).

#[export] Instance greedy_engine : Wasmtime := {|
  configured_engine := Ok tt; component_new := fun _ => Ok tt; set_fuel := fun _ => Ok tt; add_to_linker := Ok tt;
  instance := fun _ _ _ _ => greedy;
  transformer := fun _ _ _ _ _ => mkEnding (Err "no transform") (Ok 1) (Ok false) |}.

#[export] Instance operations_as_json : SdkJson := {| receipt_json := fun r => Ok (receipt_operation r); json_is_array := fun _ => Ok true |}.

Definition component : bytes := [x00; x61].

Definition fetcher : ExtensionManifest := {|
  manifest_schema := OPENSDK_MANIFEST_SCHEMA;
  api_version := OPENSDK_API_VERSION;
  host_version := ">=0.2.0";
  plane := Server;
  identity := mkIdentity "pliego" "fetcher" "0.1.0" (content_digest component);
  entry := mkExtensionEntry WasmComponent "component.wasm" (Some "pliego:effects/recorded-effect@0.1.0") None;
  determinism := RecordedEffect;
  imports := ["pliego:effects/broker@0.1.0"];
  exports := [];
  manifest_capabilities := [Network; EffectBrokerCapability];
  required_feature_ids := [];
  optional_feature_ids := ["retries"; "tracing"];
  budgets := mkBudget 10 100 65536 1024;
  lifecycle := mkLifecycle true false false false true false;
|}.

Definition contract : HostContract :=
  mkContract "0.2.0" OPENSDK_API_VERSION {["tracing"]} (mkCapabilityPolicy {[Network; Clock; EffectBrokerCapability]}).

Definition admitted : ValidatedExtension :=
  match admit_component contract fetcher component with
  | Ok v => v
  | Err _ => mkValidated fetcher (mkAdmissionReceipt "" "" "" "" "" [] [])
  end.

Example fetcher_admitted : admit_component contract fetcher component = Ok admitted.
Proof. vm_compute. reflexivity. Qed.

Example tracing_negotiated : negotiated_features (validated_receipt admitted) = ["tracing"].
Proof. vm_compute. reflexivity. Qed.

(** It answers, and the second time it panics. *)
Definition flaky : EffectExecutor N :=
  fun _ _ input w => (if w =? 0 then Returned (Ok input) else Panicked, w + 1).

Definition run := instantiate (with_effect_executor (mkComponentHost None) (recorded flaky)) admitted component (0, []).

Definition calls : list Call := [mkCall Network "fetch" [x01] (Returned (Ok [x01])); mkCall Network "fetch" [x02] Panicked].

Example run_calls : run = (fst (fst run), snd (fst run), (2, calls)).
Proof. vm_compute. reflexivity. Qed.
End SdkSample.

(** ** Witnesses *)

Import SdkSample.

Lemma component_admission_exact_witness :
  disciplined fetcher /\ exists cs, classify_import "pliego:effects/broker@0.1.0" = Ok cs /\ cs ⊆ grants (contract_policy contract).
Proof.
  destruct (component_admission_exact contract fetcher component admitted) as [_ Hsafe].
  destruct (Hsafe fetcher_admitted) as [Hdisciplined Himports]. split; [exact Hdisciplined|].
  apply Himports. apply list_elem_of_In. cbn. tauto.
Defined.

Lemma effects_confined_witness :
  Forall (fun call => called call ∈ [Network; EffectBrokerCapability]
    /\ confined (mkCapabilityPolicy {[Network; Clock; EffectBrokerCapability]}) 1024 call) calls.
Proof.
  assert (Hadmit : admit_extension contract fetcher component = Ok admitted) by (vm_compute; reflexivity).
  destruct (effects_confined contract fetcher component admitted component flaky (mkComponentHost None) (0 : N) _ _ _ _ Hadmit run_calls)
    as [Hall _]. exact Hall.
Defined.
