(* ===== verification/SdkTooling.v ===== *)
(** * SdkTooling: the tooling hosts ([pliego-sdk/src/tooling.rs])

    The JSON-RPC host and the MCP host as state machines over requests, and the theorem
    that tools are reachable exactly after a completed initialization. Requests are
    decoded; [serde_json::to_string] of a value is a parameter. *)

From S2P Require Import Prelude Decimal Json.

Local Open Scope string_scope.
Local Open Scope Z_scope.

Definition JSON_RPC_VERSION : string := "2.0".
Definition TOOLING_PROTOCOL_VERSION : string := "0.2.0-beta.1".
Definition MCP_PROTOCOL_VERSION : string := "2025-11-25".

Record RpcRequest : Type := mkRpcRequest { jsonrpc : string; rpc_id : option value; rpc_method : string; params : option value }.

Record RpcError : Type := mkRpcError { error_code : Z; error_message : string; data : option value }.

(** Every response carries [JSON_RPC_VERSION] and its identifier. *)
Inductive RpcResponse : Type :=
| RpcSuccess (version : string) (id : value) (result : value)
| RpcFailure (version : string) (id : value) (error : RpcError).

(** [deserialize_rpc_id]: what an identifier may be. *)
Definition rpc_id_allowed (v : value) : bool := match v with Null | Str _ | Number _ => true | _ => false end.

Definition rpc_failure (id : value) (code : Z) (message : string) (data : option value) : RpcResponse :=
  RpcFailure JSON_RPC_VERSION id (mkRpcError code message data).

(** [Value::as_object], [as_str] and [Map::get]. *)
Definition as_object (v : value) : option (list (string * value)) := match v with Object es => Some es | _ => None end.
Definition as_str (v : value) : option string := match v with Str s => Some s | _ => None end.
Definition get (key : string) (es : list (string * value)) : option value :=
  snd <$> List.find (fun e => String.eqb (fst e) key) es.

Definition param (r : RpcRequest) (key : string) : option value := (params r ≫= as_object) ≫= get key.

(** [json!] of an [Option<&str>]. *)
Definition optional_str (s : option string) : value := match s with Some s => Str s | None => Null end.

(** ** The JSON-RPC host *)

Record RpcHost : Type := mkRpcHost { rpc_host_version : string; methods : gset string; features : gset string; negotiated : bool }.

Definition rpc_host_new (version : string) : RpcHost :=
  mkRpcHost version {["pliego/handshake"; "pliego/diagnostics"]} ∅ false.

Definition rpc_with_feature (h : RpcHost) (feature : string) : RpcHost :=
  mkRpcHost (rpc_host_version h) (methods h) ({[feature]} ∪ features h) (negotiated h).

Definition set_negotiated (n : bool) (h : RpcHost) : RpcHost := mkRpcHost (rpc_host_version h) (methods h) (features h) n.

Definition str_array (s : gset string) : value := Array (map Str (merge_sort String.le (elements s))).

(** The entries of an object are in the order of their keys. *)
Definition handshake_value (h : RpcHost) : value :=
  Object [("features", str_array (features h)); ("hostVersion", Str (rpc_host_version h)); ("methods", str_array (methods h));
          ("protocolVersion", Str TOOLING_PROTOCOL_VERSION)].

Definition unsupported_protocol (id : value) (requested : option string) (supported : string) : RpcResponse :=
  rpc_failure id (-32602) "Unsupported protocol version"
    (Some (Object [("requested", optional_str requested); ("supported", Array [Str supported])])).

Definition rpc_handle (h : RpcHost) (r : RpcRequest) : option RpcResponse * RpcHost :=
  match rpc_id r with
  | None => (None, h)
  | Some id =>
      if negb (String.eqb (jsonrpc r) JSON_RPC_VERSION) then (Some (rpc_failure id (-32600) "Invalid Request" None), h)
      else if String.eqb (rpc_method r) "pliego/handshake" then
        let requested := param r "protocolVersion" ≫= as_str in
        if negb (bool_decide (requested = Some TOOLING_PROTOCOL_VERSION))
        then (Some (unsupported_protocol id requested TOOLING_PROTOCOL_VERSION), set_negotiated false h)
        else let h := set_negotiated true h in (Some (RpcSuccess JSON_RPC_VERSION id (handshake_value h)), h)
      else if negb (bool_decide (rpc_method r ∈ methods h)) then (Some (rpc_failure id (-32601) "Method not found" None), h)
      else if negb (negotiated h) then (Some (rpc_failure id (-32002) "OpenSDK tooling handshake is incomplete" None), h)
      else (Some (RpcSuccess JSON_RPC_VERSION id (Object [("contract", Str "dev.pliegors.diagnostics/v1"); ("diagnostics", Array [])])), h)
  end.

(** ** The MCP host *)

Record McpHost : Type := mkMcpHost { tooling : RpcHost; initialize_accepted : bool; initialized : bool }.

Definition mcp_host_new (version : string) : McpHost := mkMcpHost (rpc_host_new version) false false.

Definition mcp_with_feature (h : McpHost) (feature : string) : McpHost :=
  mkMcpHost (rpc_with_feature (tooling h) feature) (initialize_accepted h) (initialized h).

(** A field of the client's name, at most 128 bytes. *)
Definition client_field (client : list (string * value)) (field : string) : bool :=
  match get field client ≫= as_str with
  | Some text => negb (slen text =? 0)%N && (slen text <=? 128)%N
  | None => false
  end.

Definition initialize_well_formed (r : RpcRequest) : bool :=
  match param r "capabilities" with Some (Object _) => true | _ => false end
  && match param r "clientInfo" ≫= as_object with
     | Some client => client_field client "name" && client_field client "version"
     | None => false
     end.

Definition initialize_result : value :=
  Object [("capabilities", Object [("tools", Object [("listChanged", Bool false)])]);
          ("instructions", Str "OpenSDK tooling is capability-negotiated and project-local.");
          ("protocolVersion", Str MCP_PROTOCOL_VERSION);
          ("serverInfo", Object [("name", Str "pliegors-opensdk"); ("title", Str "PliegoRS OpenSDK tooling host");
                                 ("version", Str TOOLING_PROTOCOL_VERSION)])].

Definition tools_result : value :=
  Object [("tools", Array [Object [
    ("description", Str "Returns the negotiated OpenSDK tooling protocol, methods, and features.");
    ("inputSchema", Object [("additionalProperties", Bool false); ("type", Str "object")]);
    ("name", Str "pliego_sdk_handshake"); ("title", Str "Inspect PliegoRS OpenSDK capabilities")]])].

Section mcp.
Context (to_string : value -> string).

Definition mcp_initialize (h : McpHost) (id : value) (r : RpcRequest) : RpcResponse * McpHost :=
  let requested := param r "protocolVersion" ≫= as_str in
  if negb (initialize_well_formed r)
  then (rpc_failure id (-32602) "Malformed initialize request" None, mkMcpHost (tooling h) false false)
  else if negb (bool_decide (requested = Some MCP_PROTOCOL_VERSION))
  then (unsupported_protocol id requested MCP_PROTOCOL_VERSION, mkMcpHost (tooling h) false false)
  else (RpcSuccess JSON_RPC_VERSION id initialize_result, mkMcpHost (tooling h) true false).

Definition mcp_call (h : McpHost) (id : value) (r : RpcRequest) : RpcResponse :=
  if negb (bool_decide (param r "name" ≫= as_str = Some "pliego_sdk_handshake")) then rpc_failure id (-32602) "Unknown tool" None
  else if negb match param r "arguments" ≫= as_object with Some [] => true | _ => false end
  then rpc_failure id (-32602) "pliego_sdk_handshake requires empty arguments" None
  else
    let handshake := handshake_value (tooling h) in
    RpcSuccess JSON_RPC_VERSION id
      (Object [("content", Array [Object [("text", Str (to_string handshake)); ("type", Str "text")]]); ("isError", Bool false);
               ("structuredContent", handshake)]).

Definition mcp_handle (h : McpHost) (r : RpcRequest) : option RpcResponse * McpHost :=
  if negb (String.eqb (jsonrpc r) JSON_RPC_VERSION)
  then ((fun id => rpc_failure id (-32600) "Invalid Request" None) <$> rpc_id r, h)
  else
    match rpc_id r with
    | None =>
        if String.eqb (rpc_method r) "notifications/initialized"
        then (None, mkMcpHost (tooling h) (initialize_accepted h) (initialize_accepted h))
        else (None, h)
    | Some id =>
        if String.eqb (rpc_method r) "initialize" then let '(response, h) := mcp_initialize h id r in (Some response, h)
        else if String.eqb (rpc_method r) "ping" then (Some (RpcSuccess JSON_RPC_VERSION id (Object [])), h)
        else if negb (initialized h) then (Some (rpc_failure id (-32002) "MCP initialization is incomplete" None), h)
        else if String.eqb (rpc_method r) "tools/list" then (Some (RpcSuccess JSON_RPC_VERSION id tools_result), h)
        else if String.eqb (rpc_method r) "tools/call" then (Some (mcp_call h id r), h)
        else (Some (rpc_failure id (-32601) "Method not found" None), h)
    end.
End mcp.

(** ** Sessions *)

Section session.
Context (to_string : value -> string).

(** The host after a sequence of requests. *)
Definition serve (h : McpHost) (rs : list RpcRequest) : McpHost := fold_left (fun h r => (mcp_handle to_string h r).2) rs h.

(** A request that asks to initialize, one that is granted, and the notice that completes it. *)
Definition asks_initialize (r : RpcRequest) : Prop :=
  jsonrpc r = JSON_RPC_VERSION /\ rpc_method r = "initialize" /\ rpc_id r <> None.
Definition accepted_initialize (r : RpcRequest) : Prop :=
  asks_initialize r /\ initialize_well_formed r = true /\ (param r "protocolVersion" ≫= as_str) = Some MCP_PROTOCOL_VERSION.
Definition initialized_notice (r : RpcRequest) : Prop :=
  jsonrpc r = JSON_RPC_VERSION /\ rpc_method r = "notifications/initialized" /\ rpc_id r = None.

#[local] Instance asks_initialize_dec r : Decision (asks_initialize r).
Proof. unfold asks_initialize. destruct (rpc_id r); [|right; naive_solver]. destruct (decide (jsonrpc r = JSON_RPC_VERSION /\ rpc_method r = "initialize")); [left|right]; naive_solver. Defined.

(** The last attempt to initialize was accepted. *)
Definition accepted_last (rs : list RpcRequest) : Prop :=
  exists before r after, rs = (before ++ r :: after)%list /\ accepted_initialize r /\ Forall (fun r => ~ asks_initialize r) after.

(** And a notice came after it. *)
Definition completed (rs : list RpcRequest) : Prop :=
  exists before r between notice after, rs = (before ++ r :: between ++ notice :: after)%list /\ accepted_initialize r
    /\ initialized_notice notice /\ Forall (fun r => ~ asks_initialize r) (between ++ notice :: after).

(** What a request does to the two flags. *)
Lemma mcp_flags h r :
  let h' := (mcp_handle to_string h r).2 in
  tooling h' = tooling h /\
  ((asks_initialize r /\ (initialize_accepted h' = true <-> accepted_initialize r) /\ initialized h' = false)
   \/ (~ asks_initialize r /\ initialize_accepted h' = initialize_accepted h /\
       ((initialized_notice r /\ initialized h' = initialize_accepted h) \/ (~ initialized_notice r /\ initialized h' = initialized h)))).
Proof.
  unfold mcp_handle, asks_initialize, accepted_initialize, initialized_notice, asks_initialize.
  destruct (String.eqb_spec (jsonrpc r) JSON_RPC_VERSION) as [Hv|Hv]; cbn [negb].
  2:{ cbn. split; [done|right]. split_and!; [tauto|done|right; tauto]. }
  destruct (rpc_id r) as [id|] eqn:Hid.
  - destruct (String.eqb_spec (rpc_method r) "initialize") as [Hm|Hm].
    + unfold mcp_initialize. destruct (initialize_well_formed r) eqn:Hw; cbn [negb].
      * case_bool_decide as Hp; cbn; (split; [done|left; split_and!; [done..| |done]]); split; (done || tauto).
      * cbn. split; [done|left]. split_and!; [done..| |done]. split; [done|]. by intros (_ & ? & _).
    + destruct (String.eqb _ "ping"); [|destruct (negb (initialized h)); [|destruct (String.eqb _ "tools/list"); [|destruct (String.eqb _ "tools/call")]]].
      all: cbn; split; [done|right]; split_and!; [tauto|done|right]; split; [by intros (_ & _ & ?)|done].
  - destruct (String.eqb_spec (rpc_method r) "notifications/initialized") as [Hm|Hm]; cbn; (split; [done|right]); split_and!; try tauto.
    all: by intros (_ & _ & ?).
Qed.

Lemma notice_not_asks r : initialized_notice r -> ~ asks_initialize r.
Proof. intros (_ & _ & Hid) (_ & _ & Hne). done. Qed.

Lemma snoc_split {A} (before after rs : list A) x r : (rs ++ [r] = before ++ x :: after)%list ->
  (after = [] /\ r = x /\ rs = before) \/ (exists after', after = after' ++ [r] /\ rs = before ++ x :: after')%list.
Proof.
  destruct after as [|y after _] using rev_ind; intros E.
  - apply app_inj_tail in E as [-> ->]. by left.
  - right. exists after. rewrite app_comm_cons, app_assoc in E. apply app_inj_tail in E as [-> ->]. done.
Qed.

Lemma accepted_last_snoc rs r : accepted_last (rs ++ [r]) <-> accepted_initialize r \/ (~ asks_initialize r /\ accepted_last rs).
Proof.
  split.
  - intros (before & x & after & E & Hx & Hall). apply snoc_split in E as [(-> & -> & ->)|(after' & -> & ->)]; [by left|right].
    apply Forall_app in Hall as [Hall Hr]. apply Forall_inv in Hr. split; [done|]. by exists before, x, after'.
  - intros [Hr|[Hr (before & x & after & -> & Hx & Hall)]]; [by exists rs, r, []|]. exists before, x, (after ++ [r])%list.
    split; [by rewrite <- app_assoc|]. split; [done|]. apply Forall_app. by split; [|constructor].
Qed.

Lemma completed_snoc rs r : completed (rs ++ [r]) <-> ~ asks_initialize r /\ (completed rs \/ (initialized_notice r /\ accepted_last rs)).
Proof.
  split.
  - intros (before & x & between & notice & after & E & Hx & Hn & Hall).
    rewrite app_comm_cons, app_assoc in E. apply snoc_split in E as [(-> & -> & ->)|(after' & -> & ->)].
    + split; [by apply notice_not_asks|right]. split; [done|]. exists before, x, between. apply Forall_app in Hall as [Hall _]. done.
    + rewrite app_comm_cons, app_assoc, Forall_app in Hall. destruct Hall as [Hall Hr]. apply Forall_inv in Hr. split; [done|left].
      exists before, x, between, notice, after'. by rewrite <- app_assoc.
  - intros [Hr [(before & x & between & notice & after & -> & Hx & Hn & Hall)|[Hn (before & x & after & -> & Hx & Hall)]]].
    + exists before, x, between, notice, (after ++ [r])%list. split_and!; [|done|done|].
      * by rewrite <- !app_assoc; cbn; rewrite <- app_assoc.
      * rewrite app_comm_cons, app_assoc. apply Forall_app. by split; [|constructor].
    + exists before, x, after, r, []. split_and!; [by rewrite <- app_assoc|done|done|]. apply Forall_app. by split; [|constructor].
Qed.

Lemma completed_accepted rs : completed rs -> accepted_last rs.
Proof. intros (before & r & between & notice & after & -> & Hr & _ & Hall). by exists before, r, (between ++ notice :: after)%list. Qed.

(** The flags say exactly what happened. *)
Lemma serve_flags version rs : let h := serve (mcp_host_new version) rs in
  tooling h = rpc_host_new version /\ (initialize_accepted h = true <-> accepted_last rs) /\ (initialized h = true <-> completed rs).
Proof.
  unfold serve. induction rs as [|r rs IH] using rev_ind; cbn zeta.
  - split; [done|]. cbn. split; (split; [done|]).
    + intros (before & ? & ? & E & _). by destruct before.
    + intros (before & ? & ? & ? & ? & E & _). by destruct before.
  - rewrite fold_left_app. cbn [fold_left]. cbn zeta in IH. destruct IH as (Ht & Ha & Hi).
    destruct (mcp_flags (fold_left (fun h r => (mcp_handle to_string h r).2) rs (mcp_host_new version)) r) as [Ht' Hstep].
    rewrite accepted_last_snoc, completed_snoc. split; [by rewrite Ht'|].
    destruct Hstep as [(Hasks & Hacc & ->)|(Hno & Hacc & Hcase)].
    + split; [rewrite Hacc; tauto|]. split; [done|]. tauto.
    + rewrite Hacc, Ha. split; [unfold accepted_initialize; tauto|]. destruct Hcase as [[Hn ->]|[Hn ->]]; [rewrite Ha; pose proof (completed_accepted rs); tauto|rewrite Hi; tauto].
Qed.
End session.

(** ** Properties *)

(** Each conjunct of what a response says. *)
Ltac settle_reply := cbn; split_and!; solve [done | tauto].

(** C39. Tools are reachable exactly after a completed initialization: after any requests, the host counts as
    initialized exactly when the last attempt to initialize was accepted and the client's notice came after
    it; every request with an identifier gets one response with that identifier and others none; without
    initialization everything but a new attempt and a ping is refused, and with it the list of tools is given. *)
Theorem mcp_session_exact to_string version rs r :
  let h := serve to_string (mcp_host_new version) rs in
  let response := (mcp_handle to_string h r).1 in
  (initialized h = true <-> completed rs)
  /\ (rpc_id r = None <-> response = None)
  /\ forall id, rpc_id r = Some id ->
     match response with
     | Some (RpcSuccess _ id' _) =>
         id' = id /\ jsonrpc r = JSON_RPC_VERSION
         /\ (accepted_initialize r \/ rpc_method r = "ping" \/ (completed rs /\ (rpc_method r = "tools/list" \/ rpc_method r = "tools/call")))
     | Some (RpcFailure _ id' _) =>
         id' = id /\ ~ accepted_initialize r /\ ~ (jsonrpc r = JSON_RPC_VERSION /\ completed rs /\ rpc_method r = "tools/list")
     | None => False
     end.
Proof.
  cbn zeta. destruct (serve_flags to_string version rs) as (_ & _ & Hi). cbn zeta in Hi. split; [exact Hi|].
  generalize dependent (serve to_string (mcp_host_new version) rs). intros h Hi.
  unfold mcp_handle, accepted_initialize, asks_initialize.
  destruct (String.eqb_spec (jsonrpc r) JSON_RPC_VERSION) as [Hv|Hv]; cbn [negb].
  2:{ destruct (rpc_id r) as [id|]; cbn; (split; [by split|]); [intros ? [= ->]; settle_reply|done]. }
  destruct (rpc_id r) as [id|] eqn:Hid; [|destruct (String.eqb _ _); cbn; by split].
  split.
  { split; [done|]. destruct (String.eqb _ "initialize"); [by destruct (mcp_initialize _ _ _)|]. destruct (String.eqb _ "ping"); [done|].
    destruct (negb _); [done|]. destruct (String.eqb _ "tools/list"); [done|]. by destruct (String.eqb _ "tools/call"). }
  intros id' [= <-]. destruct (String.eqb_spec (rpc_method r) "initialize") as [Hm|Hm].
  { unfold mcp_initialize. destruct (initialize_well_formed r) eqn:Hw; cbn [negb].
    - case_bool_decide as Hp; cbn; [split_and!; [done..|left; split_and!; done]|]. split_and!; [done|tauto|]. rewrite Hm. by intros (_ & _ & ?).
    - cbn. split_and!; [done|by intros (_ & ? & _)|]. rewrite Hm. by intros (_ & _ & ?). }
  destruct (String.eqb_spec (rpc_method r) "ping") as [Hp|Hp]; [settle_reply|].
  destruct (initialized h) eqn:Hinit; cbn [negb].
  2:{ cbn. split_and!; [done|tauto|]. rewrite <- Hi. by intros (_ & ? & _). }
  destruct (String.eqb_spec (rpc_method r) "tools/list") as [Hl|Hl]; [settle_reply|].
  destruct (String.eqb_spec (rpc_method r) "tools/call") as [Hc|Hc]; [|settle_reply]. cbn. unfold mcp_call.
  destruct (negb _); [settle_reply|]. destruct (negb _); settle_reply.
Qed.

(** ** A sample session *)

Module ToolingSample.
Definition to_text (v : value) : string := "json".

Definition ask (id : option value) (method : string) (ps : list (string * value)) : RpcRequest :=
  mkRpcRequest JSON_RPC_VERSION id method (Some (Object ps)).

Definition hello : RpcRequest :=
  ask (Some (Number "1")) "initialize"
    [("protocolVersion", Str MCP_PROTOCOL_VERSION); ("capabilities", Object []);
     ("clientInfo", Object [("name", Str "editor"); ("version", Str "1")])].
Definition ready : RpcRequest := ask None "notifications/initialized" [].
Definition list_tools : RpcRequest := ask (Some (Number "2")) "tools/list" [].

Example list_before_ready :
  (mcp_handle to_text (serve to_text (mcp_host_new "1") [hello]) list_tools).1
  = Some (rpc_failure (Number "2") (-32002) "MCP initialization is incomplete" None).
Proof. vm_compute. reflexivity. Qed.

Example list_after_ready :
  (mcp_handle to_text (serve to_text (mcp_host_new "1") [hello; ready]) list_tools).1
  = Some (RpcSuccess JSON_RPC_VERSION (Number "2") tools_result).
Proof. vm_compute. reflexivity. Qed.

(** A new attempt closes the session until it is completed again. *)
Example renewed : initialized (serve to_text (mcp_host_new "1") [hello; ready; hello]) = false.
Proof. vm_compute. reflexivity. Qed.
End ToolingSample.

(** ** Witnesses *)

Lemma mcp_session_exact_witness :
  completed [ToolingSample.hello; ToolingSample.ready] /\
  match (mcp_handle ToolingSample.to_text (serve ToolingSample.to_text (mcp_host_new "1") [ToolingSample.hello; ToolingSample.ready])
           ToolingSample.list_tools).1 with
  | Some (RpcSuccess _ id _) => id = Number "2"
  | _ => False
  end.
Proof.
  destruct (mcp_session_exact ToolingSample.to_text "1" [ToolingSample.hello; ToolingSample.ready] ToolingSample.list_tools)
    as (Hinit & _ & Hreply).
  split; [apply Hinit; vm_compute; reflexivity|]. specialize (Hreply (Number "2") eq_refl).
  rewrite ToolingSample.list_after_ready in *. exact (proj1 Hreply).
Defined.
