(* ===== verification/SdkCompat.v ===== *)
(** * SdkCompat: the compatibility matrix ([pliego-sdk/src/compatibility.rs])

    The matrix of hosts, toolchains, surfaces and deprecations, and its validation. An
    error is its message. *)

From S2P Require Import Prelude Decimal Request Pattern Sdk.

Local Open Scope string_scope.
Local Open Scope N_scope.

Record HostCompatibility : Type := mkHostCompatibility {
  host_release : string; api_versions : list string; stability : string; planes : list Plane; host_feature_ids : list string }.

Record CompatibilityToolchain : Type := mkToolchain {
  toolchain_id : string; language : string; boundary : string; support : string; toolchain_version : string; toolchain_checks : list string }.

Record CompatibilitySurface : Type := mkSurface {
  surface_id : string; protocol : string; surface_version : string; surface_checks : list string }.

Inductive DeprecationState : Type := Active | Deprecated | Removed.

Record Deprecation : Type := mkDeprecation {
  deprecation_id : string; state : DeprecationState; since : string; earliest_removal : option string; replacement : option string }.

Record CompatibilityMatrix : Type := mkMatrix {
  matrix_contract : string;
  protocol_version : string;
  source : string;
  hosts : list HostCompatibility;
  toolchains : list CompatibilityToolchain;
  surfaces : list CompatibilitySurface;
  deprecations : list Deprecation;
}.

(** ** Checks *)

Definition count_text (n : N) : string := String.string_of_list_ascii (u64_to_string n).

Definition require_count {A} (values : list A) (minimum maximum : N) (label : string) : result string unit :=
  fail_if negb ((minimum <=? blen values) && (blen values <=? maximum))
    with label ++ " must contain " ++ count_text minimum ++ "-" ++ count_text maximum ++ " entries";;
  Ok tt.

Definition require_bounded (value : string) (maximum : N) (label : string) : result string unit :=
  fail_if (slen value =? 0) || (maximum <? slen value) with label ++ " must contain 1-" ++ count_text maximum ++ " bytes";; Ok tt.

Definition slug_segment (segment : string) : bool :=
  negb (String.eqb segment "") && string_all (fun c => is_ascii_lowercase c || is_ascii_digit c) segment.

Definition require_slug (value label : string) : result string unit :=
  _ ← require_bounded value 128 label;
  fail_if negb (forallb slug_segment (split_on "-" value)) with label ++ " must be a lowercase ASCII slug";;
  Ok tt.

(** [split] on any of several characters. *)
Fixpoint split_any (cs : list ascii) (s : string) : list string :=
  match s with
  | EmptyString => [""]
  | String c s =>
      if char_in cs c then "" :: split_any cs s
      else match split_any cs s with p :: ps => String c p :: ps | [] => [String c ""] end
  end.

Definition SEPARATORS : list ascii := ["."; "/"; "-"]%char.

Definition first_is (cs : list ascii) (s : string) : bool := match s with String c _ => char_in cs c | EmptyString => false end.

Definition require_contract_id (value label : string) : result string unit :=
  _ ← require_bounded value 128 label;
  fail_if first_is SEPARATORS value || existsb (fun c => has_last c value) SEPARATORS
          || negb (forallb slug_segment (split_any SEPARATORS value))
    with label ++ " must be a lowercase ASCII contract id";;
  Ok tt.

Fixpoint check_all {A} (check : A -> result string unit) (values : list A) : result string unit :=
  match values with
  | [] => Ok tt
  | value :: values => _ ← check value; check_all check values
  end.

Definition validate_checks (values : list string) (label : string) : result string unit :=
  _ ← require_count values 0 256 label;
  check_all (fun value => require_bounded value 128 label) values.

(** [windows(2).any(|pair| key(&pair[0]) >= key(&pair[1]))], negated. *)
Definition require_ascending {A} (key : A -> string) (values : list A) (label : string) : result string unit :=
  fail_if negb (strictly_ascending (fun a b => String.compare (key a) (key b)) values) with label ++ " must be sorted and unique";; Ok tt.

Definition require_unique {A} `{Countable A} (values : list A) (label : string) : result string unit :=
  fail_if negb (N.of_nat (size (list_to_set values : gset A)) =? blen values) with label ++ " must be unique";; Ok tt.

Definition plane_rank (p : Plane) : N := match p with Build => 0 | Server => 1 | Browser => 2 | Tooling => 3 end.

#[export] Instance plane_countable : Countable Plane.
Proof. apply (inj_countable plane_rank (fun n => nth_error [Build; Server; Browser; Tooling] (N.to_nat n))). by intros []. Defined.

Definition one_of (values : list string) (value : string) : bool := existsb (String.eqb value) values.

(** The order of versions. *)
Class VersionOrder `{Semver} : Type := version_compare : Version -> Version -> comparison.

Section matrix.
Context `{VersionOrder}.

Definition parse_version (value label : string) : result string Version :=
  map_err (fun _ => label ++ " is not valid SemVer: " ++ value) (version_parse value).

Definition parse_optional (value : option string) (label : string) : result string (option Version) :=
  match value with Some value => version ← parse_version value label; Ok (Some version) | None => Ok None end.

Definition optional_check (check : string -> result string unit) (value : option string) : result string unit :=
  match value with Some value => check value | None => Ok tt end.

(** The rules of each state. *)
Definition validate_state (d : Deprecation) (since : Version) (earliest : option Version) : result string unit :=
  match state d with
  | Active =>
      fail_if match earliest, replacement d with None, None => false | _, _ => true end
        with "active contracts cannot declare removal or replacement";;
      Ok tt
  | Deprecated =>
      removal ← ok_or "deprecated contracts require an earliest removal version" earliest;
      fail_if match version_compare removal since with Gt => false | _ => true end
        with "earliest removal must be later than the deprecation version";;
      fail_if match replacement d with Some text => String.eqb text "" | None => true end
        with "deprecated contracts require a replacement";;
      Ok tt
  | Removed =>
      removal ← ok_or "removed contracts require their removal version" earliest;
      fail_if match version_compare removal since with Lt => true | _ => false end with "removal cannot predate deprecation";;
      Ok tt
  end.

Definition validate_deprecation (d : Deprecation) : result string unit :=
  _ ← require_contract_id (deprecation_id d) "deprecation id";
  _ ← require_bounded (since d) 64 "deprecation `since`";
  _ ← optional_check (fun removal => require_bounded removal 64 "deprecation `earliestRemoval`") (earliest_removal d);
  _ ← optional_check (fun id => require_contract_id id "deprecation replacement") (replacement d);
  since ← parse_version (since d) "deprecation `since`";
  earliest ← parse_optional (earliest_removal d) "deprecation `earliestRemoval`";
  validate_state d since earliest.

Definition validate_host (h : HostCompatibility) : result string unit :=
  _ ← require_bounded (host_release h) 64 "host version";
  _ ← parse_version (host_release h) "host version";
  fail_if negb (one_of ["experimental"; "preview"; "stable"] (stability h))
    with "host stability must be experimental, preview, or stable";;
  _ ← require_count (api_versions h) 1 256 "host API versions";
  _ ← require_ascending (fun v => v) (api_versions h) "host API versions";
  _ ← check_all (fun v => _ ← require_bounded v 128 "host API version"; _ ← parse_version v "host API version"; Ok tt) (api_versions h);
  _ ← require_count (host_feature_ids h) 0 256 "host features";
  _ ← require_ascending (fun f => f) (host_feature_ids h) "host features";
  _ ← check_all (fun f => require_slug f "host feature") (host_feature_ids h);
  _ ← require_count (planes h) 1 4 "host planes";
  require_unique (planes h) "host planes".

Definition validate_toolchain (t : CompatibilityToolchain) : result string unit :=
  _ ← require_slug (toolchain_id t) "toolchain id";
  _ ← require_bounded (language t) 128 "toolchain language";
  _ ← require_bounded (toolchain_version t) 128 "toolchain tested version";
  fail_if negb (one_of ["component-model"; "process-bridge"; "http-bridge"] (boundary t)) with "toolchain boundary is unsupported";;
  fail_if negb (one_of ["reference"; "conformance"; "experimental"] (support t)) with "toolchain support level is unsupported";;
  _ ← validate_checks (toolchain_checks t) "toolchain checks";
  require_unique (toolchain_checks t) "toolchain checks".

Definition validate_surface (s : CompatibilitySurface) : result string unit :=
  _ ← require_slug (surface_id s) "surface id";
  _ ← require_bounded (surface_version s) 128 "surface tested version";
  fail_if negb (one_of ["browser-component"; "json-rpc"; "mcp"] (protocol s)) with "compatibility surface protocol is unsupported";;
  _ ← validate_checks (surface_checks s) "surface checks";
  require_unique (surface_checks s) "surface checks".

(** [CompatibilityMatrix::validate]. *)
Definition validate_matrix (m : CompatibilityMatrix) : result string unit :=
  fail_if negb (String.eqb (matrix_contract m) "dev.pliegors.sdk-compatibility/v1") with "unsupported compatibility contract";;
  fail_if negb (String.eqb (protocol_version m) OPENSDK_API_VERSION)
    with "compatibility protocol does not match the OpenSDK API";;
  fail_if negb (String.eqb (source m) "celiumsai/pliegors") with "compatibility source must be the public PliegoRS repository";;
  _ ← require_count (hosts m) 1 128 "hosts";
  _ ← require_count (toolchains m) 3 128 "toolchains";
  _ ← require_count (surfaces m) 5 256 "surfaces";
  _ ← require_count (deprecations m) 0 256 "deprecations";
  _ ← require_ascending host_release (hosts m) "host versions";
  _ ← require_ascending toolchain_id (toolchains m) "toolchains";
  _ ← require_ascending surface_id (surfaces m) "surfaces";
  _ ← require_ascending deprecation_id (deprecations m) "deprecations";
  _ ← check_all validate_host (hosts m);
  _ ← check_all validate_toolchain (toolchains m);
  _ ← check_all validate_surface (surfaces m);
  check_all validate_deprecation (deprecations m).
End matrix.

Definition browser_checks : list string := ["mount"; "update"; "reduced-motion"; "hmr"; "dispose"].

Definition preview_compatibility_matrix : CompatibilityMatrix := {|
  matrix_contract := "dev.pliegors.sdk-compatibility/v1";
  protocol_version := OPENSDK_API_VERSION;
  source := "celiumsai/pliegors";
  hosts := [mkHostCompatibility OPENSDK_API_VERSION [OPENSDK_API_VERSION] "preview" [Build; Server; Browser; Tooling]
              ["custom-elements-v1"; "diagnostic-links"; "mcp-2025-11-25"]];
  toolchains := [
    mkToolchain "python-process" "Python" "process-bridge" "conformance" "3.11" ["transform-equivalence"];
    mkToolchain "rust-component" "Rust" "component-model" "reference" "1.86.0"
      ["admission"; "deny-by-default-runtime"; "effect-broker"; "runtime-budgets"; "transform-equivalence"];
    mkToolchain "rust-process" "Rust" "process-bridge" "conformance" "1.86.0" ["transform-equivalence"];
    mkToolchain "typescript-process" "TypeScript" "process-bridge" "conformance" "Node.js 20 + esbuild 0.28" ["transform-equivalence"]];
  surfaces := [
    mkSurface "adapter-lifecycle-v1" "browser-component" "1" ["dispose"; "hmr"; "listener-cleanup"; "scope-cleanup"; "timer-cleanup"];
    mkSurface "lit-custom-element" "browser-component" "3.3.3" browser_checks;
    mkSurface "mcp-reference-client" "mcp" "2025-11-25" ["initialize"; "capability-negotiation"; "tools-list"; "tools-call"];
    mkSurface "react-custom-element" "browser-component" "19.2.7" browser_checks;
    mkSurface "svelte-custom-element" "browser-component" "5.56.6" browser_checks];
  deprecations := [];
|}.

(** ** What a valid matrix guarantees *)

Section valid.
Context `{VersionOrder}.

Lemma check_all_in {A} (check : A -> result string unit) values a : check_all check values = Ok tt -> a ∈ values -> check a = Ok tt.
Proof.
  induction values as [|b values IH]; [by intros _ ?%not_elem_of_nil|]. cbn [check_all]. destruct (check b) as [[]|e] eqn:Hb; [|done].
  cbn [mbind result_bind]. intros Hall [->|Ha]%elem_of_cons; [done|by apply IH].
Qed.

(** The life of a contract: active ones promise nothing, deprecated ones name their replacement and a later
    removal, removed ones left no earlier than they were deprecated. *)
Definition life_of (d : Deprecation) : Prop :=
  exists deprecated, version_parse (since d) = Ok deprecated /\
  match state d with
  | Active => earliest_removal d = None /\ replacement d = None
  | Deprecated => exists text removal, earliest_removal d = Some text /\ version_parse text = Ok removal
      /\ version_compare removal deprecated = Gt /\ is_Some (replacement d)
  | Removed => exists text removal, earliest_removal d = Some text /\ version_parse text = Ok removal /\ version_compare removal deprecated <> Lt
  end.

Lemma validate_deprecation_life d : validate_deprecation d = Ok tt -> life_of d.
Proof.
  unfold validate_deprecation, life_of, parse_version, parse_optional, validate_state. intros Hok. split_ok.
  exists value5. split; [done|].
  destruct (earliest_removal d) as [text|]; [unfold parse_version in Hr4; split_ok; subst value4|injection Hr4 as <-].
  - destruct (state d); cbn [ok_or mbind result_bind] in Hok; split_ok; exists text; eexists; (split; [done|]); (split; [eassumption|]).
    + destruct (version_compare _ _) eqn:Hc; [done..|]. split; [done|]. by destruct (replacement d).
    + by destruct (version_compare _ _).
  - destruct (state d); cbn [ok_or mbind result_bind] in Hok; split_ok. by destruct (replacement d).
Qed.

Lemma validate_matrix_lives m : validate_matrix m = Ok tt -> forall d, d ∈ deprecations m -> life_of d.
Proof.
  unfold validate_matrix. intros Hok d Hd. split_ok. apply validate_deprecation_life. by eapply check_all_in.
Qed.
End valid.

(** ** The published matrix *)

Module CompatSample.
#[local] Instance equal_versions : Semver := {|
  Version := string; VersionReq := string; version_eqb := String.eqb; version_parse := fun s => Ok s; version_text := fun s => s;
  req_parse := fun s => Ok s; req_matches := fun _ _ => true |}.
#[local] Instance string_versions : VersionOrder := String.compare.

Example preview_is_valid : validate_matrix preview_compatibility_matrix = Ok tt.
Proof. vm_compute. reflexivity. Qed.
End CompatSample.
