(* ===== verification/Reactive.v ===== *)
(** * Reactive: the arena and the graph of [pliego-reactive]

    Models the runtime of [crates/pliego-reactive/src/lib.rs]: node identities with
    their generations, the arena of slots, the nodes with their colours, edges and
    owners, the effect queue, the marking of subscribers and the collection of a
    disposed tree. What user closures do is a [Prog]: a tree of calls on the public
    API, which [ReactiveRun] interprets.

    Vectors used as stacks ([free], [frames], the work lists) have their last
    element first. *)

From S2P Require Import Prelude.

Definition MIN_EFFECT_RUNS_PER_FLUSH : N := 1024.
Definition EFFECT_RUNS_PER_LIVE_NODE : N := 256.
Definition MAX_EFFECT_RUNS_PER_FLUSH : N := 1000000.

Record NodeId : Type := mkId { slot : N; generation : N }.

#[export] Instance node_id_eq_dec : EqDecision NodeId.
Proof. solve_decision. Defined.

#[export] Instance node_id_countable : Countable NodeId.
Proof. by apply (inj_countable' (fun i => (slot i, generation i)) (fun p => mkId p.1 p.2)); intros []. Defined.

Inductive OwnerError : Type := Disposed | ResourceDisposed | ResourceBusy | AlreadyOwned.

Inductive Color : Type := Clean | Check | Dirty.

#[export] Instance color_eq_dec : EqDecision Color.
Proof. solve_decision. Defined.

#[export] Instance color_countable : Countable Color.
Proof.
  by apply (inj_countable' (fun c => match c with Clean => 0 | Check => 1 | Dirty => 2 end)
              (fun n => match n with 0 => Clean | 1 => Check | _ => Dirty end)); intros [].
Defined.

(** The derived [Ord]. *)
Definition color_rank (c : Color) : N := match c with Clean => 0 | Check => 1 | Dirty => 2 end.
Definition color_lt (c d : Color) : bool := color_rank c <? color_rank d.

Inductive Kind : Type := Owner | Signal | Memo | Effect.

#[export] Instance kind_eq_dec : EqDecision Kind.
Proof. solve_decision. Defined.

(** ** User code

    A closure handed to the runtime is a [Prog] over the values [V] ([dyn Any]):
    it returns, panics with a payload, has an effect outside the runtime, or calls
    the API and continues with the reply. [Signal::with] is [SignalGet] followed by
    the rest; dropping an [Owner] is [OwnerDispose]. *)

Inductive Reply (V : Type) : Type :=
| UnitReply
| ValueReply (v : V)
| OptionReply (v : option V)
| IdReply (id : NodeId)
| OwnerReply (r : result OwnerError NodeId)
| OwnerUnitReply (r : result OwnerError unit)
| BoolReply (b : bool).

Inductive Prog (V : Type) : Type :=
| Return (v : V)
| Throw (payload : string)
| Emit (v : V) (k : Prog V)
| Call (o : Op V) (k : Reply V -> Prog V)
with Op (V : Type) : Type :=
| SignalNew (v : V)
| SignalGet (id : NodeId)
| SignalGetUntracked (id : NodeId)
| SignalTryGet (id : NodeId)
| SignalSet (id : NodeId) (v : V)
| SignalUpdate (id : NodeId) (f : V -> Prog V)
| MemoNew (f : Prog V) (eq : V -> V -> bool)
| MemoGet (id : NodeId)
| MemoTryGet (id : NodeId)
| EffectNew (f : Prog V)
| Dispose (id : NodeId)
| OnCleanup (f : Prog V)
| Untrack (f : Prog V)
| OwnerNew
| OwnerChild (owner : NodeId)
| OwnerOnCleanup (owner : NodeId) (f : Prog V)
| OwnerSignal (owner : NodeId) (v : V)
| OwnerMemo (owner : NodeId) (f : Prog V) (eq : V -> V -> bool)
| OwnerEffect (owner : NodeId) (f : Prog V)
| OwnerAdoptEffect (owner effect : NodeId)
| OwnerDispose (owner : NodeId)
| OwnerIsDisposed (owner : NodeId).

Arguments UnitReply {V}. Arguments ValueReply {V}. Arguments OptionReply {V}. Arguments IdReply {V}.
Arguments OwnerReply {V}. Arguments OwnerUnitReply {V}. Arguments BoolReply {V}.
Arguments Return {V}. Arguments Throw {V}. Arguments Emit {V}. Arguments Call {V}.
Arguments SignalNew {V}. Arguments SignalGet {V}. Arguments SignalGetUntracked {V}. Arguments SignalTryGet {V}.
Arguments SignalSet {V}. Arguments SignalUpdate {V}. Arguments MemoNew {V}. Arguments MemoGet {V}.
Arguments MemoTryGet {V}. Arguments EffectNew {V}. Arguments Dispose {V}. Arguments OnCleanup {V}. Arguments Untrack {V}.
Arguments OwnerNew {V}. Arguments OwnerChild {V}. Arguments OwnerOnCleanup {V}. Arguments OwnerSignal {V}.
Arguments OwnerMemo {V}. Arguments OwnerEffect {V}. Arguments OwnerAdoptEffect {V}. Arguments OwnerDispose {V}.
Arguments OwnerIsDisposed {V}.

(** ** Nodes *)

Record Node (V : Type) : Type := mkNode {
  kind : Kind; color : Color; owner : option NodeId; dispose_requested : bool; queued : bool; updating : bool;
  running : bool; retry_notify : bool; value : option V; compute : option (Prog V); eq_fn : option (V -> V -> bool);
  sources : list NodeId; subscribers : list NodeId; owned : list NodeId; cleanups : list (Prog V) }.

Record Slot (V : Type) : Type := mkSlot { slot_generation : N; slot_node : option (Node V) }.

Record ComputationFrame (V : Type) : Type := mkFrame {
  frame_observer : NodeId; frame_sources : list NodeId; frame_owned : list NodeId; frame_cleanups : list (Prog V) }.

Record Runtime (V : Type) : Type := mkRuntime {
  slots : list (Slot V); free : list N; observer : option NodeId; active_owner : option NodeId;
  frames : list (ComputationFrame V); pending : list NodeId; flushing : bool; batch_depth : N;
  deferred_disposals : list NodeId }.

Arguments mkNode {V}. Arguments kind {V}. Arguments color {V}. Arguments owner {V}. Arguments dispose_requested {V}.
Arguments queued {V}. Arguments updating {V}. Arguments running {V}. Arguments retry_notify {V}. Arguments value {V}.
Arguments compute {V}. Arguments eq_fn {V}. Arguments sources {V}. Arguments subscribers {V}. Arguments owned {V}.
Arguments cleanups {V}. Arguments mkSlot {V}. Arguments slot_generation {V}. Arguments slot_node {V}.
Arguments mkFrame {V}. Arguments frame_observer {V}. Arguments frame_sources {V}. Arguments frame_owned {V}.
Arguments frame_cleanups {V}. Arguments mkRuntime {V}. Arguments slots {V}. Arguments free {V}. Arguments observer {V}.
Arguments active_owner {V}. Arguments frames {V}. Arguments pending {V}. Arguments flushing {V}.
Arguments batch_depth {V}. Arguments deferred_disposals {V}.

Section runtime.
Context {V : Type}.
Implicit Types (n : Node V) (rt : Runtime V).

(** Assignments to one field. *)
Definition set_color (x : Color) n : Node V :=
  mkNode (kind n) x (owner n) (dispose_requested n) (queued n) (updating n) (running n) (retry_notify n) (value n)
    (compute n) (eq_fn n) (sources n) (subscribers n) (owned n) (cleanups n).
Definition set_owner (x : option NodeId) n : Node V :=
  mkNode (kind n) (color n) x (dispose_requested n) (queued n) (updating n) (running n) (retry_notify n) (value n)
    (compute n) (eq_fn n) (sources n) (subscribers n) (owned n) (cleanups n).
Definition set_dispose_requested (x : bool) n : Node V :=
  mkNode (kind n) (color n) (owner n) x (queued n) (updating n) (running n) (retry_notify n) (value n) (compute n)
    (eq_fn n) (sources n) (subscribers n) (owned n) (cleanups n).
Definition set_queued (x : bool) n : Node V :=
  mkNode (kind n) (color n) (owner n) (dispose_requested n) x (updating n) (running n) (retry_notify n) (value n)
    (compute n) (eq_fn n) (sources n) (subscribers n) (owned n) (cleanups n).
Definition set_updating (x : bool) n : Node V :=
  mkNode (kind n) (color n) (owner n) (dispose_requested n) (queued n) x (running n) (retry_notify n) (value n)
    (compute n) (eq_fn n) (sources n) (subscribers n) (owned n) (cleanups n).
Definition set_running (x : bool) n : Node V :=
  mkNode (kind n) (color n) (owner n) (dispose_requested n) (queued n) (updating n) x (retry_notify n) (value n)
    (compute n) (eq_fn n) (sources n) (subscribers n) (owned n) (cleanups n).
Definition set_retry_notify (x : bool) n : Node V :=
  mkNode (kind n) (color n) (owner n) (dispose_requested n) (queued n) (updating n) (running n) x (value n) (compute
    n) (eq_fn n) (sources n) (subscribers n) (owned n) (cleanups n).
Definition set_value (x : option V) n : Node V :=
  mkNode (kind n) (color n) (owner n) (dispose_requested n) (queued n) (updating n) (running n) (retry_notify n) x
    (compute n) (eq_fn n) (sources n) (subscribers n) (owned n) (cleanups n).
Definition set_sources (x : list NodeId) n : Node V :=
  mkNode (kind n) (color n) (owner n) (dispose_requested n) (queued n) (updating n) (running n) (retry_notify n)
    (value n) (compute n) (eq_fn n) x (subscribers n) (owned n) (cleanups n).
Definition set_subscribers (x : list NodeId) n : Node V :=
  mkNode (kind n) (color n) (owner n) (dispose_requested n) (queued n) (updating n) (running n) (retry_notify n)
    (value n) (compute n) (eq_fn n) (sources n) x (owned n) (cleanups n).
Definition set_owned (x : list NodeId) n : Node V :=
  mkNode (kind n) (color n) (owner n) (dispose_requested n) (queued n) (updating n) (running n) (retry_notify n)
    (value n) (compute n) (eq_fn n) (sources n) (subscribers n) x (cleanups n).
Definition set_cleanups (x : list (Prog V)) n : Node V :=
  mkNode (kind n) (color n) (owner n) (dispose_requested n) (queued n) (updating n) (running n) (retry_notify n)
    (value n) (compute n) (eq_fn n) (sources n) (subscribers n) (owned n) x.

Definition set_slots (x : list (Slot V)) rt : Runtime V :=
  mkRuntime x (free rt) (observer rt) (active_owner rt) (frames rt) (pending rt) (flushing rt) (batch_depth rt)
    (deferred_disposals rt).
Definition set_free (x : list N) rt : Runtime V :=
  mkRuntime (slots rt) x (observer rt) (active_owner rt) (frames rt) (pending rt) (flushing rt) (batch_depth rt)
    (deferred_disposals rt).
Definition set_observer (x : option NodeId) rt : Runtime V :=
  mkRuntime (slots rt) (free rt) x (active_owner rt) (frames rt) (pending rt) (flushing rt) (batch_depth rt)
    (deferred_disposals rt).
Definition set_active_owner (x : option NodeId) rt : Runtime V :=
  mkRuntime (slots rt) (free rt) (observer rt) x (frames rt) (pending rt) (flushing rt) (batch_depth rt)
    (deferred_disposals rt).
Definition set_frames (x : list (ComputationFrame V)) rt : Runtime V :=
  mkRuntime (slots rt) (free rt) (observer rt) (active_owner rt) x (pending rt) (flushing rt) (batch_depth rt)
    (deferred_disposals rt).
Definition set_pending (x : list NodeId) rt : Runtime V :=
  mkRuntime (slots rt) (free rt) (observer rt) (active_owner rt) (frames rt) x (flushing rt) (batch_depth rt)
    (deferred_disposals rt).
Definition set_flushing (x : bool) rt : Runtime V :=
  mkRuntime (slots rt) (free rt) (observer rt) (active_owner rt) (frames rt) (pending rt) x (batch_depth rt)
    (deferred_disposals rt).
Definition set_batch_depth (x : N) rt : Runtime V :=
  mkRuntime (slots rt) (free rt) (observer rt) (active_owner rt) (frames rt) (pending rt) (flushing rt) x
    (deferred_disposals rt).
Definition set_deferred_disposals (x : list NodeId) rt : Runtime V :=
  mkRuntime (slots rt) (free rt) (observer rt) (active_owner rt) (frames rt) (pending rt) (flushing rt) (batch_depth
    rt) x.

Definition default_runtime : Runtime V := mkRuntime [] [] None None [] [] false 0 [].

(** A fresh node; [Owner::new], [Signal::install], [Memo::install] and
    [Effect::install] differ in these fields. *)
Definition fresh_node (k : Kind) (c : Color) (v : option V) (f : option (Prog V)) (e : option (V -> V -> bool)) : Node V :=
  mkNode k c None false false false false false v f e [] [] [] [].

(** ** The arena *)

Definition node rt (id : NodeId) : option (Node V) :=
  s ← slots rt !! N.to_nat (slot id);
  if generation id =? slot_generation s then slot_node s else None.

Definition live rt (id : NodeId) : Prop := is_Some (node rt id).

#[export] Instance live_dec rt id : Decision (live rt id).
Proof. unfold live. apply _. Defined.

(** [node_mut] and an assignment through it; nothing when the handle is stale. *)
Definition update_node (id : NodeId) (f : Node V -> Node V) rt : Runtime V :=
  match node rt id with
  | Some n => set_slots (<[N.to_nat (slot id) := mkSlot (generation id) (Some (f n))]> (slots rt)) rt
  | None => rt
  end.

(** [None] is the panic of [u32::try_from]: the arena has [2^32] slots. *)
Definition allocate_node n rt : option (NodeId * Runtime V) :=
  match free rt with
  | s :: rest =>
      g ← slot_generation <$> slots rt !! N.to_nat s;
      Some (mkId s g, set_slots (<[N.to_nat s := mkSlot g (Some n)]> (slots rt)) (set_free rest rt))
  | [] =>
      let s := blen (slots rt) in
      if u32_max <? s then None else Some (mkId s 0, set_slots (slots rt ++ [mkSlot 0 (Some n)])%list rt)
  end.

(** The generation moves on, and the slot is reused while it can. *)
Definition take_node (id : NodeId) rt : option (Node V * Runtime V) :=
  n ← node rt id;
  Some (n,
    match checked_add_u32 (generation id) 1 with
    | Some g => set_slots (<[N.to_nat (slot id) := mkSlot g None]> (slots rt)) (set_free (slot id :: free rt) rt)
    | None => set_slots (<[N.to_nat (slot id) := mkSlot (generation id) None]> (slots rt)) rt
    end).

(** ** The effect queue *)

Definition enqueue_effect (id : NodeId) rt : Runtime V :=
  match node rt id with
  | Some n =>
      if bool_decide (kind n = Effect) && negb (queued n)
      then set_pending (pending rt ++ [id])%list (update_node id (set_queued true) rt)
      else rt
  | None => rt
  end.

Fixpoint pop_pending_from (queue : list NodeId) rt : option NodeId * Runtime V :=
  match queue with
  | [] => (None, set_pending [] rt)
  | id :: queue =>
      match node rt id with
      | Some _ => (Some id, set_pending queue (update_node id (set_queued false) rt))
      | None => pop_pending_from queue rt
      end
  end.

Definition pop_pending rt : option NodeId * Runtime V := pop_pending_from (pending rt) rt.

(** ** Work lists with a visited set

    [mark_subscribers_with_force], [rearm_discarded_effect] and
    [assert_signal_write_allowed] walk the graph with a stack and a [HashSet]: pop
    a key, skip it when it was visited, expand it and push its successors.
    [expand] returns [None] to panic. *)

Section explore.
Context {K S : Type} `{Countable K}.
Variable expand : K -> S -> option (S * list K).

Inductive Explored : Type := OutOfFuel | Stopped | Finished (s : S).

Fixpoint explore (fuel : nat) (stack : list K) (visited : gset K) (s : S) : Explored :=
  match fuel with
  | O => OutOfFuel
  | Datatypes.S fuel =>
      match stack with
      | [] => Finished s
      | k :: stack =>
          if bool_decide (k ∈ visited) then explore fuel stack visited s
          else match expand k s with
               | None => Stopped
               | Some (s, next) => explore fuel (next ++ stack)%list ({[k]} ∪ visited) s
               end
      end
  end.

End explore.

Definition degree rt : nat :=
  sum_list (map (fun s => match slot_node s with
                          | Some n => length (sources n) + length (subscribers n)
                          | None => 0
                          end) (slots rt))%nat.

(** Enough for a walk that expands each live node at most [copies] times. *)
Definition explore_fuel (copies : nat) rt (stack : nat) : nat :=
  S (stack + copies * length (slots rt) * S (degree rt))%nat.

(** The pushes of the code reverse the successors; the stack here has its top
    first. *)
Definition mark_expand (k : NodeId * Color * bool) rt : option (Runtime V * list (NodeId * Color * bool)) :=
  let '(s, c, force) := k in
  match node rt s with
  | None => Some (rt, [])
  | Some n =>
      let should_descend := color_lt (color n) c in
      let force_descend := force || retry_notify n in
      let rt := update_node s (fun n => set_retry_notify false (if should_descend then set_color c n else n)) rt in
      if bool_decide (kind n = Effect) then Some (enqueue_effect s rt, [])
      else if should_descend || force_descend
      then Some (rt, map (fun child => (child, Check, force_descend)) (subscribers n))
      else Some (rt, [])
  end.

(** [None] is unreachable: the fuel is enough. *)
Definition mark_subscribers_with_force (source : NodeId) (c : Color) (force : bool) rt : option (Runtime V) :=
  match node rt source with
  | None => Some rt
  | Some n =>
      let stack := map (fun s => (s, c, force)) (subscribers n) in
      match explore mark_expand (explore_fuel 6 rt (length stack)) stack ∅ rt with
      | Finished rt => Some rt
      | _ => None
      end
  end.

Definition mark_subscribers (source : NodeId) (c : Color) rt : option (Runtime V) := mark_subscribers_with_force source c false rt.

Definition rearm_expand (source : NodeId) rt : option (Runtime V * list NodeId) :=
  match node rt source with
  | None => Some (rt, [])
  | Some n =>
      let rt := if bool_decide (kind n = Memo) && bool_decide (color n = Dirty)
                then update_node source (set_retry_notify true) rt else rt in
      Some (rt, reverse (sources n))
  end.

Definition rearm_discarded_effect (effect : NodeId) rt : option (Runtime V) :=
  let stack := reverse (from_option sources [] (node rt effect)) in
  match explore rearm_expand (explore_fuel 1 rt (length stack)) stack ∅ rt with
  | Finished rt => Some rt
  | _ => None
  end.

Fixpoint rearm_all (discarded : list NodeId) rt : option (Runtime V) :=
  match discarded with
  | [] => Some rt
  | id :: discarded => rt ← rearm_discarded_effect id rt; rearm_all discarded rt
  end.

Definition clear_pending rt : option (Runtime V) :=
  let discarded := base.filter (live rt) (pending rt) in
  rearm_all discarded (set_pending [] (foldr (fun id => update_node id (set_queued false)) rt discarded)).

Definition abort_pending (current : NodeId) rt : option (Runtime V) :=
  rt ← rearm_discarded_effect current rt; clear_pending rt.

(** ** Disposal *)

Record DisposalBatch : Type := mkBatch { batch_cleanups : list (Prog V); retired : list (Node V) }.

Definition empty_batch : DisposalBatch := mkBatch [] [].

Inductive Task : Type :=
| Visit (id : NodeId)
| Finish (n : Node V) (cs : list (Prog V)).

Definition without (id : NodeId) (xs : list NodeId) : list NodeId := base.filter (fun x => x <> id) xs.

(** What a visit does to the rest of the runtime once [n] has left its slot. *)
Definition detach (id : NodeId) n rt : Runtime V :=
  let rt := set_pending (without id (pending rt)) rt in
  let rt := set_frames (map (fun f => mkFrame (frame_observer f) (frame_sources f) (without id (frame_owned f))
                                        (frame_cleanups f)) (frames rt)) rt in
  let rt := match owner n with
            | Some o => update_node o (fun m => set_owned (without id (owned m)) m) rt
            | None => rt
            end in
  let rt := foldl (fun rt s => update_node s (fun m => set_subscribers (without id (subscribers m)) m) rt) rt (sources n) in
  foldl (fun rt s => update_node s (fun m => set_sources (without id (sources m)) m) rt) rt (subscribers n).

(** The node as it is retired: without edges, owner, children, cleanups or flags. *)
Definition stripped n : Node V :=
  mkNode (kind n) (color n) None (dispose_requested n) false false false (retry_notify n) (value n) (compute n) (eq_fn n)
    [] [] [] [].

Fixpoint collect_loop (fuel : nat) (tasks : list Task) rt (batch : DisposalBatch) : option (Runtime V * DisposalBatch) :=
  match fuel with
  | O => None
  | S fuel =>
      match tasks with
      | [] => Some (rt, batch)
      | Visit id :: tasks =>
          match take_node id rt with
          | None => collect_loop fuel tasks rt batch
          | Some (n, rt) =>
              collect_loop fuel (reverse (map Visit (owned n)) ++ Finish (stripped n) (cleanups n) :: tasks)%list
                (detach id n rt) batch
          end
      | Finish n cs :: tasks =>
          collect_loop fuel tasks rt (mkBatch (batch_cleanups batch ++ reverse cs)%list (retired batch ++ [n])%list)
      end
  end.

(** Each live node is taken once, finished once and lists its children once. *)
Definition collect_fuel rt (tasks : nat) : nat :=
  S (tasks + sum_list (map (fun s => match slot_node s with Some n => 2 + length (owned n) | None => 0 end) (slots rt)))%nat.

(** [None] is unreachable: the fuel is enough. *)
Definition collect_disposal (id : NodeId) rt (batch : DisposalBatch) : option (Runtime V * DisposalBatch) :=
  collect_loop (collect_fuel rt 1) [Visit id] rt batch.

Fixpoint collect_all (ids : list NodeId) rt (batch : DisposalBatch) : option (Runtime V * DisposalBatch) :=
  match ids with
  | [] => Some (rt, batch)
  | id :: ids => '(rt, batch) ← collect_disposal id rt batch; collect_all ids rt batch
  end.

(** The walk down the owned tree of [disposable_tree_is_busy] and
    [assert_disposable_tree]: the first node, if any, that is updating or running.
    [None] when the fuel ran out. *)
Fixpoint first_busy (fuel : nat) (stack : list NodeId) rt : option (option (Node V)) :=
  match fuel with
  | O => None
  | S fuel =>
      match stack with
      | [] => Some None
      | id :: stack =>
          match node rt id with
          | None => first_busy fuel stack rt
          | Some n =>
              if updating n || running n then Some (Some n) else first_busy fuel (reverse (owned n) ++ stack)%list rt
          end
      end
  end.

(** ** Committing a computation *)

Definition subscribe (id : NodeId) (source : NodeId) rt : Runtime V :=
  update_node source (fun m => if bool_decide (id ∈ subscribers m) then m
                               else set_subscribers (subscribers m ++ [id])%list m) rt.

(** The edges of the old run are removed, those of the frame installed. *)
Definition publish_frame (id : NodeId) n (frame : ComputationFrame V) (new_value : V) rt : Runtime V :=
  let rt := update_node id (fun n => set_sources [] (set_owned [] (set_cleanups [] n))) rt in
  let rt := foldl (fun rt s => update_node s (fun m => set_subscribers (without id (subscribers m)) m) rt) rt (sources n) in
  let new_sources := base.filter (live rt) (frame_sources frame) in
  let rt := foldl (fun rt s => subscribe id s rt) rt new_sources in
  update_node id (fun n =>
    set_color Clean
      ((if bool_decide (kind n = Memo) then set_value (Some new_value) else fun n => n)
         (set_retry_notify false
            (set_cleanups (frame_cleanups frame) (set_owned (frame_owned frame) (set_sources new_sources n)))))) rt.

(** [commit_computation]. [None] is a stale handle. *)
Definition commit_computation (id : NodeId) (frame : ComputationFrame V) (new_value : V) (changed : bool) rt
    : option (Runtime V * DisposalBatch) :=
  n ← node rt id;
  let rt := publish_frame id n frame new_value rt in
  rt ← (if bool_decide (kind n = Memo) && (changed || retry_notify n)
        then mark_subscribers_with_force id (if changed then Dirty else Check) (retry_notify n) rt
        else Some rt);
  '(rt, batch) ← collect_all (reverse (owned n)) rt empty_batch;
  Some (rt, mkBatch (batch_cleanups batch ++ reverse (cleanups n))%list (retired batch)).

End runtime.
