(* ===== verification/ReactiveRun.v ===== *)
(** * ReactiveRun: computations, effects and the public API of [pliego-reactive]

    Interprets user code against the runtime of [Reactive]: the guards of
    [crates/pliego-reactive/src/lib.rs] with what their [Drop] does when a panic
    unwinds through them, the pull of a node, the run and the commit of a
    computation, the flush of effects, disposal with its cleanups, and every method
    of [Owner], [Signal], [Memo] and [Effect].

    A step of the machine returns normally, panics with a payload, or aborts the
    process (a panic that leaves a destructor during unwinding). [None] is
    exhausted fuel. The [Drop] of values and closures has no effect of its own, and
    the comparison of a memo is a function. *)

From stdpp Require Import pretty.
From S2P Require Import Prelude Reactive.

Record Machine (V : Type) : Type := mkMachine { rt : Runtime V; emitted : list V }.

Arguments mkMachine {V}. Arguments rt {V}. Arguments emitted {V}.

Inductive Outcome (A : Type) : Type :=
| Done (a : A)
| Panicked (payload : string)
| Aborted.

Arguments Done {A}. Arguments Panicked {A}. Arguments Aborted {A}.

Definition M (V A : Type) : Type := Machine V -> option (Outcome A * Machine V).

#[export] Instance m_ret {V} : MRet (M V) := fun A a m => Some (Done a, m).

#[export] Instance m_bind {V} : MBind (M V) := fun A B f x m =>
  match x m with
  | Some (Done a, m) => f a m
  | Some (Panicked p, m) => Some (Panicked p, m)
  | Some (Aborted, m) => Some (Aborted, m)
  | None => None
  end.

#[export] Instance m_fmap {V} : FMap (M V) := fun A B f x => x ≫= fun a => mret (f a).

Section primitives.
Context {V : Type}.

Definition stuck {A} : M V A := fun _ => None.
Definition panic {A} (payload : string) : M V A := fun m => Some (Panicked payload, m).
Definition abort {A} : M V A := fun m => Some (Aborted, m).

(** A borrow of the runtime. *)
Definition read {A} (f : Runtime V -> A) : M V A := fun m => Some (Done (f (rt m)), m).
Definition assign (f : Runtime V -> Runtime V) : M V unit := fun m => Some (Done (), mkMachine (f (rt m)) (emitted m)).

(** A mutable borrow by a function with fuel of its own. *)
Definition attempt {A} (f : Runtime V -> option (Runtime V * A)) : M V A := fun m =>
  match f (rt m) with Some (r, a) => Some (Done a, mkMachine r (emitted m)) | None => None end.

Definition expect {A} (message : string) (o : option A) : M V A :=
  match o with Some a => mret a | None => panic message end.

Definition assert (b : bool) (message : string) : M V unit := if b then mret () else panic message.

(** [catch_unwind]; an abort is not caught. *)
Definition catch {A} (x : M V A) : M V (result string A) := fun m =>
  match x m with
  | Some (Done a, m) => Some (Done (Ok a), m)
  | Some (Panicked p, m) => Some (Done (Err p), m)
  | Some (Aborted, m) => Some (Aborted, m)
  | None => None
  end.

Definition resume {A} (r : result string A) : M V A := match r with Ok a => mret a | Err p => panic p end.

(** The first panic is kept, later ones are suppressed. *)
Definition merge_panic (first payload : option string) : option string :=
  match first with Some p => Some p | None => payload end.

Definition merge_result (first : option string) (r : result string unit) : option string :=
  match first, r with None, Err p => Some p | _, _ => first end.

(** ** Guards *)

Definition batch_enter : M V unit := assign (fun r => set_batch_depth (batch_depth r + 1) r).

(** [BatchGuard::finish], and its [Drop]. *)
Definition batch_leave : M V bool :=
  d ← read batch_depth;
  _ ← assert (0 <? d) "reactive batch depth underflow";
  _ ← assign (set_batch_depth (d - 1));
  mret (d - 1 =? 0).

(** [ObserverGuard::replace(None)] around [x]. *)
Definition untracked {A} (x : M V A) : M V A :=
  previous ← read observer;
  _ ← assign (set_observer None);
  r ← catch x;
  _ ← assign (set_observer previous);
  resume r.

Definition enter_computation (id : NodeId) : M V (option NodeId * option NodeId) :=
  n ← read (fun r => node r id);
  n ← expect "stale computation handle" n;
  _ ← assert (negb (running n)) "reactive computation re-entered itself";
  _ ← assign (update_node id (set_running true));
  o ← read observer;
  w ← read active_owner;
  _ ← assign (fun r => set_frames (mkFrame id [] [] [] :: frames r) (set_active_owner (Some id) (set_observer (Some id) r)));
  mret (o, w).

Definition pop_frame (id : NodeId) (previous : option NodeId * option NodeId) : M V (ComputationFrame V) :=
  fs ← read frames;
  match fs with
  | [] => panic "missing computation frame"
  | f :: fs =>
      _ ← assign (set_frames fs);
      _ ← assert (bool_decide (frame_observer f = id)) "computation frame order changed";
      _ ← assign (fun r => set_active_owner previous.2 (set_observer previous.1 r));
      mret f
  end.

Definition finish_computation (id : NodeId) (previous : option NodeId * option NodeId) : M V (ComputationFrame V) :=
  f ← pop_frame id previous;
  n ← read (fun r => node r id);
  _ ← expect "computation disposed while running" n;
  _ ← assign (update_node id (set_running false));
  mret f.

Definition take_rollback (id : NodeId) (previous : option NodeId * option NodeId) : M V (DisposalBatch (V := V)) :=
  f ← pop_frame id previous;
  _ ← assign (update_node id (set_running false));
  b ← attempt (fun r => collect_all (reverse (frame_owned f)) r empty_batch);
  mret (mkBatch (batch_cleanups b ++ reverse (frame_cleanups f))%list (retired b)).

End primitives.

(** ** Reading and creating *)

Section operations.
Context {V : Type}.

(** An assignment to the last frame, which must be that of [id]. *)
Definition update_frame (missing mismatch : string) (id : NodeId) (g : ComputationFrame V -> ComputationFrame V) : M V unit :=
  fs ← read frames;
  match fs with
  | [] => panic missing
  | f :: fs =>
      _ ← assert (bool_decide (frame_observer f = id)) mismatch;
      assign (set_frames (g f :: fs))
  end.

Definition add_source (s : NodeId) (f : ComputationFrame V) : ComputationFrame V :=
  if bool_decide (s ∈ frame_sources f) then f
  else mkFrame (frame_observer f) (frame_sources f ++ [s])%list (frame_owned f) (frame_cleanups f).

Definition add_owned (id : NodeId) (f : ComputationFrame V) : ComputationFrame V :=
  mkFrame (frame_observer f) (frame_sources f) (frame_owned f ++ [id])%list (frame_cleanups f).

Definition add_cleanup (c : Prog V) (f : ComputationFrame V) : ComputationFrame V :=
  mkFrame (frame_observer f) (frame_sources f) (frame_owned f) (frame_cleanups f ++ [c])%list.

(** [track]: record a source in the active frame. *)
Definition track (source : NodeId) : M V unit :=
  o ← read observer;
  alive ← read (fun r => bool_decide (live r source));
  match o with
  | None => mret ()
  | Some obs =>
      if bool_decide (obs = source) || negb alive then mret ()
      else update_frame "active observer must have a computation frame" "observer/frame mismatch" obs (add_source source)
  end.

Definition allocate (n : Node V) : M V NodeId := fun m =>
  match allocate_node n (rt m) with
  | Some (id, r) => Some (Done id, mkMachine r (emitted m))
  | None => Some (Panicked "reactive arena exhausted u32 slots", m)
  end.

(** [Runtime::add_node]: owned by the running computation, if any. *)
Definition add_node (n : Node V) : M V NodeId :=
  w ← read (fun r => w ← active_owner r; if decide (live r w) then Some w else None);
  id ← allocate (set_owner w n);
  _ ← match w with
      | None => mret ()
      | Some w => update_frame "active observer must have a computation frame" "observer/frame mismatch" w (add_owned id)
      end;
  mret id.

Definition add_owned_node (n : Node V) (w : NodeId) : M V NodeId :=
  o ← read (fun r => node r w);
  o ← expect "explicit owner disappeared before resource allocation" o;
  _ ← assert (bool_decide (kind o = Owner)) "explicit owner kind changed";
  _ ← assert (negb (dispose_requested o)) "cannot add a resource to an owner pending disposal";
  id ← allocate (set_owner (Some w) n);
  _ ← assign (update_node w (fun m => set_owned (owned m ++ [id])%list m));
  mret id.

Definition install (n : Node V) (explicit_owner : option NodeId) : M V NodeId :=
  match explicit_owner with Some w => add_owned_node n w | None => add_node n end.

Definition signal_node (v : V) : Node V := fresh_node Signal Clean (Some v) None None.
Definition memo_node (f : Prog V) (e : V -> V -> bool) : Node V := fresh_node Memo Dirty None (Some f) (Some e).
Definition effect_node (f : Prog V) : Node V := fresh_node Effect Dirty None (Some f) None.
Definition owner_node : Node V := fresh_node Owner Clean None None None.

Definition stable_value (stale missing : string) (id : NodeId) : M V V :=
  n ← read (fun r => node r id);
  n ← expect stale n;
  expect missing (value n).

Definition signal_get (id : NodeId) : M V V := _ ← track id; stable_value "stale or disposed signal handle" "signal value" id.

(** [on_cleanup]. *)
Definition on_cleanup (f : Prog V) : M V unit :=
  w ← read active_owner;
  match w with
  | None => mret ()
  | Some w => update_frame "active owner must have a computation frame" "owner/frame mismatch" w (add_cleanup f)
  end.

Definition ensure_alive (id : NodeId) : M V (result OwnerError unit) :=
  n ← read (fun r => node r id);
  mret (match n with
        | Some n => if bool_decide (kind n = Owner) && negb (dispose_requested n) then Ok () else Err Disposed
        | None => Err Disposed
        end).

(** [Owner::adopt_effect]. *)
Definition adopt_effect (w e : NodeId) : M V (result OwnerError unit) :=
  on ← read (fun r => node r w);
  en ← read (fun r => node r e);
  match on with
  | None => mret (Err Disposed)
  | Some on =>
      if negb (bool_decide (kind on = Owner)) then mret (Err Disposed)
      else if dispose_requested on then mret (Err Disposed)
      else
        match en with
        | None => mret (Err ResourceDisposed)
        | Some en =>
            if running en then mret (Err ResourceBusy)
            else
              match owner en with
              | Some current => mret (if bool_decide (current = w) then Ok () else Err AlreadyOwned)
              | None =>
                  _ ← assign (update_node e (set_owner (Some w)));
                  _ ← assign (update_node w (fun m => set_owned (owned m ++ [e])%list m));
                  mret (Ok ())
              end
        end
  end.

(** ** Writes *)

Definition write_expand (target source : NodeId) (r : Runtime V) : option (Runtime V * list NodeId) :=
  if bool_decide (source = target) then None else Some (r, reverse (from_option sources [] (node r source))).

(** [assert_signal_write_allowed]: [Some false] is its panic, [None] exhausted
    fuel, which is unreachable. *)
Fixpoint write_allowed_from (fs : list (ComputationFrame V)) (id : NodeId) (r : Runtime V) : option bool :=
  match fs with
  | [] => Some true
  | f :: fs =>
      let stack := reverse (frame_sources f ++ from_option sources [] (node r (frame_observer f)))%list in
      match explore (write_expand id) (explore_fuel 1 r (length stack)) stack ∅ r with
      | OutOfFuel => None
      | Stopped => Some false
      | Finished _ => write_allowed_from fs id r
      end
  end.

Definition assert_signal_write_allowed (id : NodeId) : M V unit :=
  allowed ← attempt (fun r => a ← write_allowed_from (frames r) id r; Some (r, a));
  assert allowed "a computation cannot write to one of its reactive sources".

Definition mark (id : NodeId) (c : Color) : M V unit :=
  attempt (fun r => r ← mark_subscribers id c r; Some (r, ())).

(** The borrow of [Signal::set]. *)
Definition replace_value (id : NodeId) (v : V) : M V unit :=
  _ ← assert_signal_write_allowed id;
  n ← read (fun r => node r id);
  n ← expect "stale or disposed signal handle" n;
  _ ← assert (negb (updating n)) "reentrant write to the same signal";
  _ ← assign (update_node id (set_value (Some v)));
  _ ← expect "signal value" (value n);
  mark id Dirty.

(** [UpdateGuard::enter]. *)
Definition enter_update (id : NodeId) : M V V :=
  _ ← assert_signal_write_allowed id;
  n ← read (fun r => node r id);
  n ← expect "stale or disposed signal handle" n;
  _ ← assert (negb (updating n)) "reentrant write to the same signal";
  v ← expect "signal value" (value n);
  _ ← assign (update_node id (set_updating true));
  mret v.

(** The borrow of [Signal::update] that publishes the candidate. *)
Definition publish_value (id : NodeId) (v : V) : M V unit :=
  n ← read (fun r => node r id);
  n ← expect "signal disposed during update" n;
  _ ← assign (update_node id (set_value (Some v)));
  _ ← expect "signal value" (value n);
  mark id Dirty.

End operations.

(** ** Procedures that run user code

    [run] interprets a closure and [flush_again] is the flush at the end of a nested
    batch; [interp] ties the knot. [fuel] bounds the loops. *)

Section procedures.
Context {V : Type} (fuel : nat) (run : Prog V -> M V V) (flush_again : M V unit).

Fixpoint run_cleanups (cs : list (Prog V)) (first : option string) : M V (option string) :=
  match cs with
  | [] => mret first
  | c :: cs => r ← catch (_ ← run c; mret ()); run_cleanups cs (merge_result first r)
  end.

Definition run_disposal (b : DisposalBatch (V := V)) : M V (option string) :=
  untracked (run_cleanups (batch_cleanups b) None).

(** [take_ready_deferred_disposal], over the [queued] requests found on entry. *)
Fixpoint take_ready (queued : nat) : M V (option (DisposalBatch (V := V))) :=
  match queued with
  | O => mret None
  | S queued =>
      q ← read deferred_disposals;
      match q with
      | [] => panic "deferred disposal queue length changed"
      | id :: q =>
          _ ← assign (set_deferred_disposals q);
          n ← read (fun r => node r id);
          match n with
          | None => take_ready queued
          | Some n =>
              _ ← assert (bool_decide (kind n = Owner)) "deferred node is not an owner";
              if negb (dispose_requested n) then take_ready queued
              else
                busy ← attempt (fun r => b ← first_busy fuel [id] r; Some (r, b));
                match busy with
                | Some _ => _ ← assign (set_deferred_disposals (q ++ [id])%list); take_ready queued
                | None =>
                    _ ← assign (update_node id (set_dispose_requested false));
                    b ← attempt (fun r => collect_disposal id r empty_batch);
                    mret (Some b)
                end
          end
      end
  end.

Fixpoint drain_deferred_loop (n : nat) (first : option string) : M V (option string) :=
  match n with
  | O => stuck
  | S n =>
      queued ← read (fun r => length (deferred_disposals r));
      b ← take_ready queued;
      match b with
      | None => mret first
      | Some b => p ← run_disposal b; drain_deferred_loop n (merge_panic first p)
      end
  end.

Definition drain_deferred_disposals : M V (option string) := drain_deferred_loop fuel None.

(** What follows the retirement of a scope: its cleanups, then the deferred
    disposals that became ready. *)
Definition retire (b : DisposalBatch (V := V)) : M V (option string) :=
  p ← run_disposal b; q ← drain_deferred_disposals; mret (merge_panic p q).

Definition flush_while_preserving {A} (primary : string) (should_flush : bool) : M V A :=
  _ ← (if should_flush then catch flush_again else mret (Ok ()));
  panic primary.

(** The [Drop] of an unfinished [ComputationGuard] while a panic unwinds. *)
Definition drop_computation_guard (id : NodeId) (previous : option NodeId * option NodeId) : M V unit :=
  r ← catch (take_rollback id previous);
  match r with
  | Err _ => abort
  | Ok b => _ ← retire b; mret ()
  end.

(** [compute] under the equality gate. *)
Definition evaluate (f : Prog V) (previous : option V) (e : option (V -> V -> bool)) : M V (V * bool) :=
  v ← run f;
  mret (v, match previous, e with Some p, Some e => negb (e p v) | _, _ => true end).

Definition commit (id : NodeId) (f : ComputationFrame V) (v : V) (changed : bool) : M V (DisposalBatch (V := V)) :=
  n ← read (fun r => node r id);
  _ ← expect "stale computation handle" n;
  attempt (commit_computation id f v changed).

(** The end of a batch that succeeded, or that has a panic to resume. *)
Definition end_batch (payload : option string) : M V unit :=
  should_flush ← batch_leave;
  match payload with
  | Some p => flush_while_preserving p should_flush
  | None => if should_flush then flush_again else mret ()
  end.

(** A computation whose closure panicked: its frame is rolled back. *)
Definition fail_computation (id : NodeId) (k : Kind) (g : option NodeId * option NodeId) (primary : string) : M V unit :=
  r ← catch (take_rollback id g);
  match r with
  | Err p => _ ← drop_computation_guard id g; _ ← batch_leave; panic p
  | Ok b =>
      _ ← retire b;
      _ ← (if bool_decide (k = Memo) then assign (update_node id (set_retry_notify true)) else mret ());
      end_batch (Some primary)
  end.

(** A computation whose closure returned: its frame is committed. *)
Definition succeed_computation (id : NodeId) (g : option NodeId * option NodeId) (v : V) (changed : bool) : M V unit :=
  frame ← catch (finish_computation id g);
  match frame with
  | Err p => _ ← drop_computation_guard id g; _ ← batch_leave; panic p
  | Ok frame => b ← commit id frame v changed; p ← retire b; end_batch p
  end.

(** [run_computation]. *)
Definition run_computation (id : NodeId) : M V unit :=
  _ ← batch_enter;
  n ← read (fun r => node r id);
  match n with
  | None => _ ← batch_leave; panic "stale computation handle"
  | Some n =>
      match compute n with
      | None => _ ← batch_leave; panic "computation node"
      | Some f =>
          g ← catch (enter_computation id);
          match g with
          | Err p => _ ← batch_leave; panic p
          | Ok g =>
              outcome ← catch (evaluate f (value n) (eq_fn n));
              match outcome with
              | Err primary => fail_computation id (kind n) g primary
              | Ok (v, changed) => succeed_computation id g v changed
              end
          end
      end
  end.

Record PullFrame : Type := mkPull { pull_id : NodeId; pull_sources : list NodeId }.

(** The loop of [update_if_necessary]; the stack has its top first. *)
Fixpoint pull (n : nat) (stack : list PullFrame) (active : gset NodeId) : M V unit :=
  match n with
  | O => stuck
  | S n =>
      match stack with
      | [] => mret ()
      | mkPull id sources :: rest =>
          x ← read (fun r => node r id);
          match x with
          | None => pull n rest (active ∖ {[id]})
          | Some x =>
              if bool_decide (color x = Clean) || bool_decide (kind x = Signal) then pull n rest (active ∖ {[id]})
              else if bool_decide (color x = Dirty) then _ ← run_computation id; pull n rest (active ∖ {[id]})
              else
                match sources with
                | source :: sources =>
                    y ← read (fun r => node r source);
                    match y with
                    | None => pull n (mkPull id sources :: rest) active
                    | Some y =>
                        _ ← assert (negb (bool_decide (source ∈ active))) "cycle detected in reactive dependencies";
                        pull n (mkPull source (Reactive.sources y) :: mkPull id sources :: rest) ({[source]} ∪ active)
                    end
                | [] => _ ← assign (update_node id (set_color Clean)); pull n rest (active ∖ {[id]})
                end
          end
      end
  end.

Definition update_if_necessary (id : NodeId) : M V unit :=
  n ← read (fun r => node r id);
  match n with
  | None => mret ()
  | Some n => pull fuel [mkPull id (sources n)] {[id]}
  end.

(** ** Flushing *)

Definition live_nodes (r : Runtime V) : N := blen (base.filter (fun s => is_Some (slot_node s)) (slots r)).

Definition max_executions (r : Runtime V) : N :=
  N.min (N.max MIN_EFFECT_RUNS_PER_FLUSH (live_nodes r * EFFECT_RUNS_PER_LIVE_NODE)) MAX_EFFECT_RUNS_PER_FLUSH.

Fixpoint flush_loop (n : nat) (maximum executions : N) (first : option string) : M V (option string) :=
  match n with
  | O => stuck
  | S n =>
      next ← attempt (fun r => let '(x, r) := pop_pending r in Some (r, x));
      match next with
      | None => mret first
      | Some next =>
          let executions := executions + 1 in
          if maximum <? executions then
            _ ← attempt (fun r => r ← abort_pending next r; Some (r, ()));
            mret (merge_panic first (Some ("reactive flush exceeded its " ++ pretty maximum ++ "-effect safety budget")%string))
          else
            r ← catch (update_if_necessary next);
            flush_loop n maximum executions (merge_result first r)
      end
  end.

Definition flush_effects : M V unit :=
  f ← read flushing;
  if (f : bool) then mret ()
  else
    _ ← assign (set_flushing true);
    maximum ← read max_executions;
    p ← flush_loop fuel maximum 0 None;
    _ ← assign (set_flushing false);
    match p with Some p => panic p | None => mret () end.

(** ** The public API *)

Definition memo_get (id : NodeId) : M V V :=
  _ ← update_if_necessary id;
  _ ← track id;
  stable_value "stale or disposed memo handle" "memo ran" id.

Definition memo_try_get (id : NodeId) : M V (option V) :=
  alive ← read (fun r => bool_decide (live r id));
  if negb alive then mret None
  else
    _ ← update_if_necessary id;
    _ ← track id;
    read (fun r => node r id ≫= value).

Definition signal_set (id : NodeId) (v : V) : M V unit :=
  _ ← batch_enter;
  r ← catch (replace_value id v);
  match r with
  | Err p => _ ← batch_leave; panic p
  | Ok _ => end_batch None
  end.

(** The unwinding of [Signal::update] once the signal is gone: the guard drains,
    the batch is left without a flush. *)
Definition lost_signal : M V unit :=
  _ ← drain_deferred_disposals; _ ← batch_leave; panic "signal disposed during update".

Definition signal_update (id : NodeId) (f : V -> Prog V) : M V unit :=
  _ ← batch_enter;
  stable ← catch (enter_update id);
  match stable with
  | Err p => _ ← batch_leave; panic p
  | Ok stable =>
      outcome ← catch (run (f stable));
      alive ← read (fun r => bool_decide (live r id));
      if negb alive then lost_signal
      else
        match outcome with
        | Err primary =>
            _ ← assign (update_node id (set_updating false));
            _ ← drain_deferred_disposals;
            end_batch (Some primary)
        | Ok candidate =>
            _ ← publish_value id candidate;
            _ ← assign (update_node id (set_updating false));
            p ← drain_deferred_disposals;
            end_batch p
        end
  end.

(** [dispose]. *)
Definition dispose (id : NodeId) : M V unit :=
  _ ← batch_enter;
  busy ← attempt (fun r => b ← first_busy fuel [id] r; Some (r, b));
  match busy with
  | Some n =>
      _ ← batch_leave;
      panic (if updating n then "cannot dispose a signal during its update" else "cannot dispose a running computation")
  | None =>
      b ← attempt (fun r => collect_disposal id r empty_batch);
      p ← retire b;
      end_batch p
  end.

Definition defer_owner_disposal (id : NodeId) : M V unit :=
  n ← read (fun r => node r id);
  match n with
  | None => mret ()
  | Some n =>
      if dispose_requested n then mret ()
      else
        _ ← assign (update_node id (set_dispose_requested true));
        assign (fun r => set_deferred_disposals (deferred_disposals r ++ [id])%list r)
  end.

(** [dispose_owner]. *)
Definition dispose_owner (id : NodeId) : M V unit :=
  _ ← batch_enter;
  n ← read (fun r => node r id);
  b ← match n with
      | None => mret None
      | Some n =>
          if negb (bool_decide (kind n = Owner)) then mret None
          else
            busy ← attempt (fun r => b ← first_busy fuel [id] r; Some (r, b));
            match busy with
            | Some _ => _ ← defer_owner_disposal id; mret None
            | None => b ← attempt (fun r => collect_disposal id r empty_batch); mret (Some b)
            end
      end;
  p ← match b with Some b => run_disposal b | None => mret None end;
  q ← drain_deferred_disposals;
  end_batch (merge_panic p q).

(** [Effect::install]. *)
Definition effect_install (f : Prog V) (explicit_owner : option NodeId) : M V NodeId :=
  id ← install (effect_node f) explicit_owner;
  r ← catch (run_computation id);
  match r with
  | Err p => _ ← catch (dispose id); panic p
  | Ok _ => mret id
  end.

(** The methods of [Owner] that create a resource check it first. *)
Definition in_owner (w : NodeId) (create : M V NodeId) : M V (Reply V) :=
  a ← ensure_alive w;
  match a with
  | Err e => mret (OwnerReply (Err e))
  | Ok _ => id ← create; mret (OwnerReply (Ok id))
  end.

Definition api (o : Op V) : M V (Reply V) :=
  match o with
  | SignalNew v => IdReply <$> install (signal_node v) None
  | SignalGet id => ValueReply <$> signal_get id
  | SignalGetUntracked id => ValueReply <$> stable_value "stale or disposed signal handle" "signal value" id
  | SignalTryGet id => OptionReply <$> read (fun r => node r id ≫= value)
  | SignalSet id v => _ ← signal_set id v; mret UnitReply
  | SignalUpdate id f => _ ← signal_update id f; mret UnitReply
  | MemoNew f e => IdReply <$> install (memo_node f e) None
  | MemoGet id => ValueReply <$> memo_get id
  | MemoTryGet id => OptionReply <$> memo_try_get id
  | EffectNew f => IdReply <$> effect_install f None
  | Dispose id => _ ← dispose id; mret UnitReply
  | OnCleanup f => _ ← on_cleanup f; mret UnitReply
  | Untrack f => ValueReply <$> untracked (run f)
  | OwnerNew => IdReply <$> allocate owner_node
  | OwnerChild w => in_owner w (add_owned_node owner_node w)
  | OwnerOnCleanup w f =>
      a ← ensure_alive w;
      match a with
      | Err e => mret (OwnerUnitReply (Err e))
      | Ok _ => _ ← assign (update_node w (fun m => set_cleanups (cleanups m ++ [f])%list m)); mret (OwnerUnitReply (Ok ()))
      end
  | OwnerSignal w v => in_owner w (install (signal_node v) (Some w))
  | OwnerMemo w f e => in_owner w (install (memo_node f e) (Some w))
  | OwnerEffect w f => in_owner w (effect_install f (Some w))
  | OwnerAdoptEffect w e => OwnerUnitReply <$> adopt_effect w e
  | OwnerDispose w => _ ← dispose_owner w; mret UnitReply
  | OwnerIsDisposed w => a ← ensure_alive w; mret (BoolReply (match a with Ok _ => false | Err _ => true end))
  end.

Definition emit (v : V) : M V unit := fun m => Some (Done (), mkMachine (rt m) (emitted m ++ [v])%list).

(** One node of a program. *)
Definition run_step (p : Prog V) : M V V :=
  match p with
  | Return v => mret v
  | Throw payload => panic payload
  | Emit v k => _ ← emit v; run k
  | Call o k => r ← api o; run (k r)
  end.

End procedures.

Fixpoint interp {V} (fuel : nat) : (Prog V -> M V V) * M V unit :=
  match fuel with
  | O => (fun _ => stuck, stuck)
  | S fuel =>
      let '(run, flush) := interp fuel in
      (run_step fuel run flush, flush_effects fuel run flush)
  end.

(** Run a closure outside of any computation. *)
Definition run_prog {V} (fuel : nat) : Prog V -> M V V := (interp fuel).1.

Definition initial {V} : Machine V := mkMachine default_runtime [].
