(* ===== verification/ReactiveGraph.v ===== *)
(** * ReactiveGraph: the arena and the edges of the reactive runtime

    Lemmas on the arena of [Reactive] (what an update, an allocation or a disposal
    does to every handle), the fuel of its work lists, the invariant of the graph
    (edges in both directions, no duplicates, the effect queue) and the step
    relation of the runtime with the proof that every procedure of [ReactiveRun] is
    a sequence of its steps. *)

From S2P Require Import Prelude Reactive ReactiveRun.

#[global] Arguments without : simpl never.

Section arena.
Context {V : Type}.
Implicit Types (n : Node V) (r : Runtime V) (id : NodeId).

(** ** Handles *)

Lemma slot_inj id y : N.to_nat (slot id) = N.to_nat (slot y) -> generation id = generation y -> id = y.
Proof. destruct id, y. cbn. intros ?%N2Nat.inj ->. by subst. Qed.

Lemma node_some r id n :
  node r id = Some n <-> slots r !! N.to_nat (slot id) = Some (mkSlot (generation id) (Some n)).
Proof.
  unfold node. destruct (slots r !! N.to_nat (slot id)) as [[g x]|]; cbn; [|naive_solver].
  destruct (N.eqb_spec (generation id) g) as [->|Hne]; naive_solver.
Qed.

(** What a slot holds answers for its handles. *)
Lemma node_slot r id s :
  slots r !! N.to_nat (slot id) = Some s ->
  node r id = if generation id =? slot_generation s then slot_node s else None.
Proof. unfold node. by intros ->. Qed.

Lemma node_insert_slot r id y g x :
  N.to_nat (slot id) = N.to_nat (slot y) -> (N.to_nat (slot id) < length (slots r))%nat ->
  node (set_slots (<[N.to_nat (slot id) := mkSlot g x]> (slots r)) r) y = if generation y =? g then x else None.
Proof. intros Heq Hlt. rewrite (node_slot _ _ (mkSlot g x)); [done|]. cbn. rewrite <-Heq. by apply list_lookup_insert_eq. Qed.

Lemma node_insert_other r id y s :
  N.to_nat (slot id) <> N.to_nat (slot y) ->
  node (set_slots (<[N.to_nat (slot id) := s]> (slots r)) r) y = node r y.
Proof. intros Hne. unfold node. cbn. by rewrite list_lookup_insert_ne. Qed.

Lemma node_update r id f y :
  node (update_node id f r) y = if decide (y = id) then f <$> node r id else node r y.
Proof.
  unfold update_node. destruct (node r id) as [n|] eqn:Hn; [|by destruct (decide (y = id)) as [->|]].
  apply node_some in Hn as Hs. pose proof (lookup_lt_Some _ _ _ Hs) as Hlt.
  destruct (decide (N.to_nat (slot id) = N.to_nat (slot y))) as [Heq|Hne].
  - rewrite node_insert_slot by done. destruct (decide (y = id)) as [->|Hyid]; [by rewrite N.eqb_refl|].
    destruct (N.eqb_spec (generation y) (generation id)) as [Hg|Hg]; [by destruct Hyid; apply slot_inj|].
    destruct (node r y) as [m|] eqn:Hm; [|done]. apply node_some in Hm. rewrite <-Heq, Hs in Hm. congruence.
  - rewrite node_insert_other by done. destruct (decide (y = id)) as [->|]; [done|done].
Qed.

Lemma live_update r id f y : live (update_node id f r) y <-> live r y.
Proof. unfold live. rewrite node_update. destruct (decide (y = id)) as [->|]; [|done]. by rewrite fmap_is_Some. Qed.

Lemma take_node_spec r id n r' :
  take_node id r = Some (n, r') -> node r id = Some n /\ forall y, node r' y = if decide (y = id) then None else node r y.
Proof.
  unfold take_node. destruct (node r id) as [m|] eqn:Hn; [|done]. cbn [mbind option_bind]. intros Ht. injection Ht as -> <-.
  split; [done|]. intros y. apply node_some in Hn as Hs. pose proof (lookup_lt_Some _ _ _ Hs) as Hlt.
  assert (Hother : N.to_nat (slot id) <> N.to_nat (slot y) -> node r y = if decide (y = id) then None else node r y).
  { intros Hne. destruct (decide (y = id)) as [->|]; done. }
  assert (Hsame : N.to_nat (slot id) = N.to_nat (slot y) -> y <> id -> node r y = None).
  { intros Heq Hne. destruct (node r y) as [m|] eqn:Hm; [|done]. apply node_some in Hm. rewrite <-Heq, Hs in Hm.
    destruct Hne. apply slot_inj; [done|congruence]. }
  unfold checked_add_u32. destruct (_ <=? _); cbn [slots set_free set_slots];
    (destruct (decide (N.to_nat (slot id) = N.to_nat (slot y))) as [Heq|Hne];
     [|unfold node; cbn; rewrite list_lookup_insert_ne by done; by apply Hother]).
  - rewrite (node_slot _ _ (mkSlot (generation id + 1) None)) by (cbn; rewrite <-Heq; by apply list_lookup_insert_eq).
    cbn. destruct (decide (y = id)) as [->|Hy]; [by destruct (_ =? _)|]. rewrite (Hsame Heq Hy). by destruct (_ =? _).
  - rewrite (node_slot _ _ (mkSlot (generation id) None)) by (cbn; rewrite <-Heq; by apply list_lookup_insert_eq).
    cbn. destruct (decide (y = id)) as [->|Hy]; [by destruct (_ =? _)|]. rewrite (Hsame Heq Hy). by destruct (_ =? _).
Qed.

(** ** Stale handles stay stale *)

Definition arena_ok r : Prop :=
  NoDup (free r) /\ forall s, s ∈ free r -> exists g, slots r !! N.to_nat s = Some (mkSlot g None).

(** A handle whose slot has moved on, or was retired at the last generation. *)
Definition dead r id : Prop :=
  exists s, slots r !! N.to_nat (slot id) = Some s /\
    (generation id < slot_generation s \/ generation id = slot_generation s /\ slot_node s = None /\ slot id ∉ free r).

Lemma dead_not_live r id : dead r id -> node r id = None.
Proof.
  intros (s & Hs & H). rewrite (node_slot _ _ _ Hs). destruct (N.eqb_spec (generation id) (slot_generation s)); [|done].
  destruct H as [H|(_ & H & _)]; [lia|done].
Qed.

(** What time does to handles. *)
Definition advances r r' : Prop :=
  (arena_ok r -> arena_ok r') /\
  (arena_ok r -> forall id, (dead r id -> dead r' id) /\ (live r id -> live r' id \/ dead r' id)).

#[export] Instance advances_preorder : PreOrder (@advances).
Proof.
  split.
  - intros r. split; [done|]. intros _ id. split; [done|by left].
  - intros r1 r2 r3 [Ha12 H12] [Ha23 H23]. split; [by auto|]. intros Ha id.
    destruct (H12 Ha id) as [Hd12 Hl12]. destruct (H23 (Ha12 Ha) id) as [Hd23 Hl23]. split; [by auto|].
    intros [Hl|Hd]%Hl12; auto.
Qed.

Lemma advances_same r r' : slots r' = slots r -> free r' = free r -> advances r r'.
Proof.
  intros Hs Hf. unfold advances, arena_ok, dead, live, node. rewrite Hs, Hf. split; [done|]. intros _ id. split; [done|by left].
Qed.

Lemma advances_update r id f : advances r (update_node id f r).
Proof.
  assert (Hfree : free (update_node id f r) = free r) by (unfold update_node; by destruct (node r id)).
  assert (Hslots : forall i s, slots r !! i = Some s -> exists s', slots (update_node id f r) !! i = Some s' /\
            slot_generation s' = slot_generation s /\ (slot_node s' = None <-> slot_node s = None)).
  { intros i s Hs. unfold update_node. destruct (node r id) as [n|] eqn:Hn; [|by exists s]. cbn [slots set_slots].
    destruct (decide (N.to_nat (slot id) = i)) as [<-|Hne].
    - apply node_some in Hn. rewrite Hn in Hs. injection Hs as <-.
      exists (mkSlot (generation id) (Some (f n))). split; [|done].
      apply list_lookup_insert_eq. by eapply lookup_lt_Some.
    - exists s. by rewrite list_lookup_insert_ne. }
  split.
  - intros [Hnd Hnone]. unfold arena_ok. rewrite Hfree. split; [done|]. intros s (g & Hg)%Hnone.
    destruct (Hslots _ _ Hg) as ([g' n'] & Hs' & Hg' & Hn'). exists g'. rewrite Hs'. f_equal. f_equal. by apply Hn'.
  - intros _ y. split.
    + intros (s & Hs & Hd). destruct (Hslots _ _ Hs) as (s' & Hs' & Hg' & Hn'). exists s'. split; [done|].
      rewrite Hg', Hfree, Hn'. done.
    + intros Hl. left. by apply live_update.
Qed.

Lemma advances_allocate n r id r' : allocate_node n r = Some (id, r') -> advances r r'.
Proof.
  unfold allocate_node. destruct (free r) as [|s rest] eqn:Hfree.
  - destruct (u32_max <? _); [done|]. intros Ha. injection Ha as <- <-. split.
    + intros [Hnd Hnone]. split; [done|]. cbn. intros s (g & Hg)%Hnone. exists g. by apply lookup_app_l_Some.
    + intros _ y. split.
      * intros (s & Hs & Hd). exists s. split; [by apply lookup_app_l_Some|done].
      * intros [m Hm%node_some]. left. exists m. apply node_some. by apply lookup_app_l_Some.
  - destruct (slots r !! N.to_nat s) as [[g x]|] eqn:Hs; [|done]. cbn. intros Ha. injection Ha as <- <-.
    assert (Hok : arena_ok r -> x = None /\ (s ∉ rest) /\ NoDup rest).
    { intros [Hnd Hnone]. rewrite Hfree in Hnd. apply NoDup_cons in Hnd as [Hin Hnd].
      destruct (Hnone s) as [g' Hg']; [rewrite Hfree; by left|]. rewrite Hs in Hg'. by injection Hg' as _ ->. }
    split.
    + intros Hr. destruct (Hok Hr) as (_ & Hin & Hnd). destruct Hr as [_ Hnone]. split; [done|]. cbn. intros t Ht.
      destruct (Hnone t) as [g' Hg']; [rewrite Hfree; by right|]. exists g'. rewrite list_lookup_insert_ne; [done|].
      intros ->%N2Nat.inj. done.
    + intros Hr y. destruct (Hok Hr) as (-> & Hin & _). pose proof (lookup_lt_Some _ _ _ Hs) as Hlt.
      destruct (decide (s = slot y)) as [->|Hne].
      * split.
        -- intros (s & Hsy & Hd). rewrite Hs in Hsy. injection Hsy as <-. cbn in Hd. rewrite Hfree in Hd.
           destruct Hd as [Hd|(_ & _ & Hd)]; [|by destruct Hd; left]. exists (mkSlot g (Some n)).
           split; [cbn; by apply list_lookup_insert_eq|]. by left.
        -- intros [m Hm%node_some]. rewrite Hs in Hm. done.
      * assert (Hlook : forall t, <[N.to_nat s:=t]> (slots r) !! N.to_nat (slot y) = slots r !! N.to_nat (slot y)).
        { intros t. apply list_lookup_insert_ne. by intros ->%N2Nat.inj. }
        split.
        -- intros (t & Ht & Hd). exists t. cbn. rewrite Hlook. split; [done|]. rewrite Hfree in Hd. set_solver.
        -- intros [m Hm%node_some]. left. exists m. apply node_some. cbn. by rewrite Hlook.
Qed.

Lemma advances_take id r n r' : take_node id r = Some (n, r') -> advances r r'.
Proof.
  unfold take_node. destruct (node r id) as [m|] eqn:Hn; [|done]. cbn [mbind option_bind]. intros Ht. injection Ht as -> <-.
  apply node_some in Hn as Hs. pose proof (lookup_lt_Some _ _ _ Hs) as Hlt.
  set (g' := default (generation id) (checked_add_u32 (generation id) 1)).
  set (fr := if decide (checked_add_u32 (generation id) 1 = None) then free r else slot id :: free r).
  set (r' := set_slots (<[N.to_nat (slot id) := mkSlot g' None]> (slots r)) (set_free fr r)).
  assert (Hg : g' = generation id /\ fr = free r \/ generation id < g' /\ fr = slot id :: free r).
  { unfold g', fr, checked_add_u32. destruct (_ <=? _); cbn; [right; split; [lia|done]|by left]. }
  replace (match checked_add_u32 (generation id) 1 with Some g => _ | None => _ end) with r';
    [|unfold r', g', fr; destruct (checked_add_u32 (generation id) 1); done].
  assert (Hfresh : arena_ok r -> slot id ∉ free r).
  { intros [_ Hnone] (g & Hbad)%Hnone. rewrite Hs in Hbad. done. }
  split.
  - intros Hr. specialize (Hfresh Hr). destruct Hr as [Hnd Hnone]. split.
    + destruct Hg as [[_ Hf]|[_ Hf]]; cbn; rewrite Hf; [done|]. by apply NoDup_cons.
    + intros s Hin. cbn in Hin |- *. destruct (decide (s = slot id)) as [->|Hne].
      * exists g'. by apply list_lookup_insert_eq.
      * rewrite list_lookup_insert_ne by (intros ?%N2Nat.inj; congruence). apply Hnone.
        destruct Hg as [[_ Hf]|[_ Hf]]; rewrite Hf in Hin; set_solver.
  - intros Hr y. specialize (Hfresh Hr).
    destruct (decide (slot id = slot y)) as [Heq|Hne].
    + assert (Hy : slots r' !! N.to_nat (slot y) = Some (mkSlot g' None)).
      { cbn. rewrite <-Heq. by apply list_lookup_insert_eq. }
      assert (Hdead : generation y <= generation id -> dead r' y).
      { intros Hle. exists (mkSlot g' None). split; [exact Hy|].
        destruct Hg as [[Hg' Hf]|[Hlt' _]]; [|left; cbn; lia].
        destruct (N.eq_dec (generation y) (generation id)); [right|left; cbn; lia]. cbn [slot_generation slot_node].
        split_and!; [congruence|done|]. change (slot y ∉ fr). by rewrite Hf, <-Heq. }
      split.
      * intros (s & Hsy & Hd). rewrite <-Heq, Hs in Hsy. injection Hsy as <-. apply Hdead. cbn in Hd.
        destruct Hd as [Hd|(Hd & _)]; lia.
      * intros [m Hm%node_some]. right. apply Hdead. rewrite <-Heq, Hs in Hm. injection Hm as Hm _. lia.
    + assert (Hlook : slots r' !! N.to_nat (slot y) = slots r !! N.to_nat (slot y)).
      { cbn. apply list_lookup_insert_ne. by intros ?%N2Nat.inj. }
      split.
      * intros (t & Ht & Hd). exists t. rewrite Hlook. split; [done|].
        destruct Hd as [Hd|(H1 & H2 & H3)]; [by left|right]. split_and!; [done..|]. cbn.
        destruct Hg as [[_ ->]|[_ ->]]; [done|]. set_solver.
      * intros [m Hm%node_some]. left. exists m. apply node_some. by rewrite Hlook.
Qed.

End arena.

(** ** Work lists *)

Section worklists.
Context {K S : Type} `{Countable K}.
Implicit Types (expand : K -> S -> option (S * list K)) (stack : list K) (visited : gset K).

(** An invariant of the stack, the visited keys and the state. *)
Lemma explore_rule expand (I : list K -> gset K -> S -> Prop) fuel stack visited s s' :
  (forall k stack visited s, k ∈ visited -> I (k :: stack) visited s -> I stack visited s) ->
  (forall k stack visited s s' next, k ∉ visited -> I (k :: stack) visited s -> expand k s = Some (s', next) ->
    I (next ++ stack)%list ({[k]} ∪ visited) s') ->
  I stack visited s -> explore expand fuel stack visited s = Finished s' -> exists visited', I [] visited' s'.
Proof.
  intros Hskip Hstep. revert stack visited s. induction fuel as [|fuel IH]; intros stack visited s HI He; [done|].
  cbn in He. destruct stack as [|k stack]; [injection He as <-; by eexists|].
  destruct (bool_decide (k ∈ visited)) eqn:Hk.
  - apply bool_decide_eq_true in Hk. apply (IH stack visited s); [by eapply Hskip|done].
  - apply bool_decide_eq_false in Hk. destruct (expand k s) as [[s1 next]|] eqn:Hx; [|done].
    apply (IH _ _ _ (Hstep _ _ _ _ _ _ Hk HI Hx) He).
Qed.

(** The same for the state alone. *)
Lemma explore_state expand (P : S -> Prop) fuel stack visited s s' :
  (forall k s s' next, P s -> expand k s = Some (s', next) -> P s') ->
  P s -> explore expand fuel stack visited s = Finished s' -> P s'.
Proof.
  intros Hstep HP He. by destruct (explore_rule expand (fun _ _ => P) fuel stack visited s s'
    (fun _ _ _ _ _ h => h) (fun k _ _ s s' next _ h e => Hstep k s s' next h e) HP He).
Qed.

(** Fuel for a walk in which only the keys of [U] have successors, [B] at most. *)
Lemma explore_total expand (P : S -> Prop) (U : gset K) (B fuel : nat) stack visited s :
  (forall k s s' next, P s -> expand k s = Some (s', next) -> P s' /\ (length next <= B)%nat /\ (k ∉ U -> next = [])) ->
  P s -> (length stack + size (U ∖ visited) * Datatypes.S B < fuel)%nat ->
  explore expand fuel stack visited s <> OutOfFuel.
Proof.
  intros Hstep. revert stack visited s. induction fuel as [|fuel IH]; intros stack visited s HP Hf; [lia|].
  cbn. destruct stack as [|k stack]; [done|]. cbn in Hf. destruct (bool_decide (k ∈ visited)) eqn:Hk.
  - apply IH; [done|lia].
  - apply bool_decide_eq_false in Hk. destruct (expand k s) as [[s1 next]|] eqn:Hx; [|done].
    destruct (Hstep _ _ _ _ HP Hx) as (HP1 & HB & HU). apply IH; [done|]. rewrite length_app.
    assert (Hsub : U ∖ ({[k]} ∪ visited) ⊆ U ∖ visited) by set_solver. apply subseteq_size in Hsub as Hle.
    destruct (decide (k ∈ U)) as [Hin|Hout].
    + assert (Hlt : (size (U ∖ ({[k]} ∪ visited)) < size (U ∖ visited))%nat) by (apply subset_size; set_solver). nia.
    + rewrite (HU Hout). cbn. nia.
Qed.

Lemma explore_not_stopped expand fuel stack visited s :
  (forall k s, is_Some (expand k s)) -> explore expand fuel stack visited s <> Stopped.
Proof.
  intros Hx. revert stack visited s. induction fuel as [|fuel IH]; intros stack visited s; [done|]. cbn.
  destruct stack as [|k stack]; [done|]. destruct (bool_decide _); [apply IH|].
  destruct (Hx k s) as [[s1 next] ->]. apply IH.
Qed.

End worklists.

Section graph.
Context {V : Type}.
Implicit Types (n m : Node V) (r : Runtime V) (id x y : NodeId).

(** The handles that can be live. *)
Definition handles r : list NodeId := imap (fun i s => mkId (N.of_nat i) (slot_generation s)) (slots r).

Lemma live_handle r id n : node r id = Some n -> id ∈ handles r.
Proof.
  intros Hn%node_some. apply list_elem_of_lookup. exists (N.to_nat (slot id)). unfold handles.
  rewrite list_lookup_imap, Hn. cbn. rewrite N2Nat.id. by destruct id.
Qed.

Lemma size_list_to_set_le {A} `{Countable A} (l : list A) : (size (list_to_set l : gset A) <= length l)%nat.
Proof.
  induction l as [|a l IH]; [done|]. cbn [list_to_set length]. rewrite size_union_alt, size_singleton.
  assert (Hsub : list_to_set l ∖ {[a]} ⊆ (list_to_set l : gset A)) by set_solver. apply subseteq_size in Hsub. lia.
Qed.

Lemma degree_bound r id n : node r id = Some n -> (length (sources n) + length (subscribers n) <= degree r)%nat.
Proof.
  intros Hn%node_some. unfold degree. apply list_elem_of_lookup_2 in Hn. apply list_elem_of_split in Hn as (l1 & l2 & ->).
  induction l1 as [|s l1 IH]; cbn; [lia|]. cbn in IH. lia.
Qed.

(** Two runtimes with one shape: the marking of a graph changes no edge. *)
Definition same_edges r r' : Prop :=
  forall id, (fun n => (sources n, subscribers n)) <$> node r' id = (fun n => (sources n, subscribers n)) <$> node r id.

Lemma same_edges_update r r' id f :
  (forall n, sources (f n) = sources n /\ subscribers (f n) = subscribers n) ->
  same_edges r r' -> same_edges r (update_node id f r').
Proof.
  intros Hf Hs y. rewrite <-(Hs y), node_update. destruct (decide (y = id)) as [->|]; [|done].
  destruct (node r' id) as [n|]; [|done]. cbn. by destruct (Hf n) as [-> ->].
Qed.

Lemma same_edges_some r r' id n :
  same_edges r r' -> node r' id = Some n -> exists m, node r id = Some m /\ sources n = sources m /\ subscribers n = subscribers m.
Proof.
  intros Hs Hn. specialize (Hs id). rewrite Hn in Hs. destruct (node r id) as [m|]; [|done]. injection Hs as -> ->. by exists m.
Qed.

(** ** Marking *)

(** What marking changes of a node. *)
Definition marked_node (c : Color) (retry q : bool) n : Node V := set_queued q (set_retry_notify retry (set_color c n)).

(** The runtime but for its nodes and its queue. *)
Definition rest r := (free r, observer r, active_owner r, frames r, flushing r, batch_depth r, deferred_disposals r).

Lemma rest_update r id f : rest (update_node id f r) = rest r.
Proof. unfold update_node. by destruct (node r id). Qed.

Definition marked r r' : Prop :=
  rest r' = rest r /\
  forall id, match node r id with
             | None => node r' id = None
             | Some n =>
                 exists c retry q, node r' id = Some (marked_node c retry q n) /\ color_rank (color n) <= color_rank c /\
                   (queued n = true -> q = true) /\ (retry = true -> retry_notify n = true)
             end.

Lemma marked_node_id n : marked_node (color n) (retry_notify n) (queued n) n = n.
Proof. by destruct n. Qed.

Lemma marked_same n :
  exists c retry q, Some n = Some (marked_node c retry q n) /\ color_rank (color n) <= color_rank c /\
    (queued n = true -> q = true) /\ (retry = true -> retry_notify n = true).
Proof. exists (color n), (retry_notify n), (queued n). rewrite marked_node_id. split_and!; [done|lia|done|done]. Qed.

#[export] Instance marked_preorder : PreOrder marked.
Proof.
  split.
  - intros r. split; [done|]. intros id. destruct (node r id) as [n|]; [apply marked_same|done].
  - intros r1 r2 r3 [Hr12 H12] [Hr23 H23]. split; [congruence|]. intros id. specialize (H12 id). specialize (H23 id).
    destruct (node r1 id) as [n|]; [|by rewrite H12 in H23].
    destruct H12 as (c & e & q & Hn2 & Hc & Hq & He). rewrite Hn2 in H23.
    destruct H23 as (c' & e' & q' & Hn3 & Hc' & Hq' & He'). exists c', e', q'.
    split_and!; [done|cbn in Hc'; lia|auto|auto].
Qed.

Lemma marked_update r id f c retry q :
  (forall n, node r id = Some n -> f n = marked_node (c n) (retry n) (q n) n /\ color_rank (color n) <= color_rank (c n) /\
    (queued n = true -> q n = true) /\ (retry n = true -> retry_notify n = true)) ->
  marked r (update_node id f r).
Proof.
  intros Hf. split; [apply rest_update|]. intros y. rewrite node_update. destruct (decide (y = id)) as [->|_].
  - destruct (node r id) as [n|] eqn:Hn; [|done]. cbn. destruct (Hf n eq_refl) as (-> & Hc & Hq & He).
    by exists (c n), (retry n), (q n).
  - destruct (node r y); [apply marked_same|done].
Qed.

Lemma marked_enqueue r id : marked r (enqueue_effect id r).
Proof.
  unfold enqueue_effect. destruct (node r id) as [n|] eqn:Hn; [|done]. destruct (_ && _); [|done].
  change (marked r (update_node id (set_queued true) r)).
  apply (marked_update r id _ color retry_notify (fun _ => true)). intros m _. split_and!; [by destruct m|lia|done|done].
Qed.

(** The node that a step of the marking colours. *)
Definition recolor (c : Color) n : Node V := set_retry_notify false (if color_lt (color n) c then set_color c n else n).

Lemma marked_recolor r s c : marked r (update_node s (recolor c) r).
Proof.
  apply (marked_update r s _ (fun n => if color_lt (color n) c then c else color n) (fun _ => false) queued). intros n _.
  unfold recolor, color_lt. destruct (N.ltb_spec (color_rank (color n)) (color_rank c));
    split_and!; [by destruct n|lia|done|done|by destruct n|lia|done|done].
Qed.

(** A step of the marking: recolour a live node, enqueue it if it is an effect. *)
Lemma mark_expand_spec s c force r r' next :
  mark_expand (s, c, force) r = Some (r', next) ->
  match node r s with
  | None => r' = r /\ next = []
  | Some n =>
      if bool_decide (kind n = Effect) then r' = enqueue_effect s (update_node s (recolor c) r) /\ next = []
      else r' = update_node s (recolor c) r /\
           next = if color_lt (color n) c || (force || retry_notify n)
                  then map (fun child => (child, Check, force || retry_notify n)) (subscribers n) else []
  end.
Proof.
  unfold mark_expand. destruct (node r s) as [n|] eqn:Hn; [|by intros [= <- <-]].
  assert (Hf : update_node s (fun n0 => set_retry_notify false (if color_lt (color n) c then set_color c n0 else n0)) r
               = update_node s (recolor c) r) by (unfold update_node; by rewrite Hn).
  rewrite Hf. destruct (bool_decide _); [by intros [= <- <-]|]. destruct (_ || _); by intros [= <- <-].
Qed.

Lemma mark_expand_marked k r r' next : mark_expand k r = Some (r', next) -> marked r r'.
Proof.
  destruct k as [[s c] force]. intros Hx%mark_expand_spec. destruct (node r s) as [n|]; [|by destruct Hx as [-> _]].
  pose proof (marked_recolor r s c). destruct (bool_decide _); destruct Hx as [-> _]; [|done].
  etrans; [done|apply marked_enqueue].
Qed.

Lemma marked_node_some r r' id n :
  marked r r' -> node r id = Some n -> exists c retry q, node r' id = Some (marked_node c retry q n) /\
    color_rank (color n) <= color_rank c /\ (queued n = true -> q = true) /\ (retry = true -> retry_notify n = true).
Proof. intros [_ Hm] Hn. specialize (Hm id). by rewrite Hn in Hm. Qed.

Lemma marked_node_back r r' id n' :
  marked r r' -> node r' id = Some n' -> exists n c retry q, node r id = Some n /\ n' = marked_node c retry q n /\
    color_rank (color n) <= color_rank c /\ (queued n = true -> q = true) /\ (retry = true -> retry_notify n = true).
Proof.
  intros [_ Hm] Hn. specialize (Hm id). destruct (node r id) as [n|]; [|congruence].
  destruct Hm as (c & e & q & Hn' & H). exists n, c, e, q. split_and!; [done|congruence|apply H..].
Qed.

Lemma marked_live r r' id : marked r r' -> live r' id <-> live r id.
Proof.
  intros Hm. split; intros [n Hn].
  - destruct (marked_node_back _ _ _ _ Hm Hn) as (m & ? & ? & ? & ? & _). by exists m.
  - destruct (marked_node_some _ _ _ _ Hm Hn) as (? & ? & ? & ? & _). by eexists.
Qed.

Lemma marked_same_edges r r' : marked r r' -> same_edges r r'.
Proof.
  intros [_ Hm] id. specialize (Hm id). destruct (node r id) as [n|]; [|by rewrite Hm].
  by destruct Hm as (c & e & q & -> & _).
Qed.

Lemma mark_marked source c force r r' : mark_subscribers_with_force source c force r = Some r' -> marked r r'.
Proof.
  unfold mark_subscribers_with_force. destruct (node r source) as [n|]; [|by intros [= <-]].
  destruct (explore _ _ _ _ _) as [| |s] eqn:He; [done|done|]. intros [= <-].
  apply (explore_state _ (marked r) _ _ _ _ _) in He; [done| |done].
  intros k s1 s2 next H1 Hx. etrans; [done|]. by eapply mark_expand_marked.
Qed.

Definition mark_universe r : gset (NodeId * Color * bool) :=
  list_to_set (x ← handles r; c ← [Clean; Check; Dirty]; b ← [true; false]; [(x, c, b)]).

Lemma length_mark_universe l :
  length (x ← l; c ← [Clean; Check; Dirty]; b ← [true; false]; [(x, c, b)] : list (NodeId * Color * bool)) = (6 * length l)%nat.
Proof. induction l as [|x l IH]; [done|]. cbn in *. lia. Qed.

(** Marking never runs out of fuel. *)
Lemma mark_total source c force r : is_Some (mark_subscribers_with_force source c force r).
Proof.
  unfold mark_subscribers_with_force. destruct (node r source) as [n|]; [|by eexists].
  destruct (explore _ _ _ _ _) as [| |s] eqn:He; [| |by eexists].
  - exfalso. revert He. apply (explore_total _ (marked r) (mark_universe r) (degree r)); [|done|].
    + intros [[s b] f] r1 r2 next H1 Hx. pose proof (mark_expand_marked _ _ _ _ Hx) as H2. split; [by etrans|].
      apply mark_expand_spec in Hx. destruct (node r1 s) as [m|] eqn:Hm; [|destruct Hx as [_ ->]; cbn; split; [lia|done]].
      destruct (same_edges_some _ _ _ _ (marked_same_edges _ _ H1) Hm) as (m0 & Hm0 & _ & Hsub).
      pose proof (degree_bound _ _ _ Hm0) as Hdeg. split.
      * destruct (bool_decide _); destruct Hx as [_ ->]; [cbn; lia|]. destruct (_ || _); [rewrite length_map, Hsub|cbn]; lia.
      * intros Hout. destruct Hout. unfold mark_universe. apply elem_of_list_to_set, list_elem_of_bind. exists s.
        split; [|by eapply live_handle]. destruct b, f; cbn; set_solver.
    + rewrite length_map. unfold explore_fuel, mark_universe.
      rewrite difference_empty_L. pose proof (size_list_to_set_le (x ← handles r; c ← [Clean; Check; Dirty]; b ← [true; false]; [(x, c, b)])).
      rewrite length_mark_universe in *. unfold handles in *. rewrite length_imap in *. nia.
  - exfalso. revert He. apply explore_not_stopped. intros [[s b] f] r1. unfold mark_expand.
    destruct (node r1 s); [|by eexists]. destruct (bool_decide _); [by eexists|]. destruct (_ || _); by eexists.
Qed.

(** ** The invariant of the graph

    Every edge is recorded at both ends and once, no node reads itself, and the
    queue holds exactly the nodes whose flag says so, which are effects. *)

Record graph_ok r : Prop := {
  source_edge x n y : node r x = Some n -> y ∈ sources n -> exists m, node r y = Some m /\ x ∈ subscribers m;
  subscriber_edge x n y : node r x = Some n -> y ∈ subscribers n -> exists m, node r y = Some m /\ x ∈ sources m;
  edges_once x n : node r x = Some n -> NoDup (sources n) /\ NoDup (subscribers n) /\ x ∉ sources n;
  queue_once : NoDup (pending r);
  queue_exact x : x ∈ pending r <-> exists n, node r x = Some n /\ queued n = true;
  queue_effects x n : node r x = Some n -> queued n = true -> kind n = Effect }.

Lemma default_graph_ok : graph_ok (default_runtime (V := V)).
Proof. split; try done; [by apply NoDup_nil_2|]. intros x. split; [by intros ?%not_elem_of_nil|by intros (n & Hn & _)]. Qed.

(** What the invariant reads of a node. *)
Definition view n := (kind n, queued n, sources n, subscribers n).

Definition same_graph r r' : Prop := pending r' = pending r /\ forall id, view <$> node r' id = view <$> node r id.

#[export] Instance same_graph_preorder : PreOrder same_graph.
Proof. split; [done|]. intros r1 r2 r3 [Hp Hn] [Hp' Hn']. split; [congruence|]. intros id. by rewrite Hn'. Qed.

Lemma same_graph_some r r' id n :
  same_graph r r' -> node r id = Some n -> exists m, node r' id = Some m /\ view m = view n.
Proof. intros [_ Hs] Hn. specialize (Hs id). rewrite Hn in Hs. destruct (node r' id) as [m|]; [|done]. injection Hs as H1 H2 H3 H4.
  exists m. split; [done|]. unfold view. congruence. Qed.

Lemma same_graph_back r r' id n :
  same_graph r r' -> node r' id = Some n -> exists m, node r id = Some m /\ view n = view m.
Proof.
  intros [_ Hs] Hn. specialize (Hs id). rewrite Hn in Hs. destruct (node r id) as [m|]; [|done]. injection Hs as H1 H2 H3 H4.
  exists m. split; [done|]. unfold view. congruence.
Qed.

Lemma same_graph_ok r r' : same_graph r r' -> graph_ok r -> graph_ok r'.
Proof.
  intros Hs G. split.
  - intros x n y Hn Hy. destruct (same_graph_back _ _ _ _ Hs Hn) as (m & Hm & [= _ _ Hv _]). rewrite Hv in Hy.
    destruct (source_edge _ G x m y Hm Hy) as (k & Hk & Hx). destruct (same_graph_some _ _ _ _ Hs Hk) as (k' & Hk' & [= _ _ _ He]).
    exists k'. by rewrite He.
  - intros x n y Hn Hy. destruct (same_graph_back _ _ _ _ Hs Hn) as (m & Hm & [= _ _ _ Hv]). rewrite Hv in Hy.
    destruct (subscriber_edge _ G x m y Hm Hy) as (k & Hk & Hx). destruct (same_graph_some _ _ _ _ Hs Hk) as (k' & Hk' & [= _ _ He _]).
    exists k'. by rewrite He.
  - intros x n Hn. destruct (same_graph_back _ _ _ _ Hs Hn) as (m & Hm & [= _ _ -> ->]). by apply (edges_once _ G).
  - destruct Hs as [-> _]. apply (queue_once _ G).
  - intros x. destruct Hs as [-> Hs]. rewrite (queue_exact _ G x). specialize (Hs x).
    destruct (node r' x) as [n'|], (node r x) as [n|]; [|done|done|naive_solver]. injection Hs as _ Hq _ _.
    split; intros (k & [= <-] & Hk); eexists; (split; [done|congruence]).
  - intros x n Hn. destruct (same_graph_back _ _ _ _ Hs Hn) as (m & Hm & [= -> -> _ _]). by apply (queue_effects _ G x).
Qed.

Lemma same_graph_update r id f : (forall n, view (f n) = view n) -> same_graph r (update_node id f r).
Proof.
  intros Hf. split; [unfold update_node; by destruct (node r id)|]. intros y. rewrite node_update.
  destruct (decide (y = id)) as [->|]; [|done]. destruct (node r id); [|done]. cbn. by rewrite Hf.
Qed.

(** ** Enqueueing and dequeueing *)

Lemma pending_update r id f : pending (update_node id f r) = pending r.
Proof. unfold update_node. by destruct (node r id). Qed.

Lemma frames_update r id f : frames (update_node id f r) = frames r.
Proof. unfold update_node. by destruct (node r id). Qed.

(** An update of the flag alone keeps the edges. *)
Lemma edges_of_flag r r' :
  (forall id, (fun n => (sources n, subscribers n)) <$> node r' id = (fun n => (sources n, subscribers n)) <$> node r id) ->
  graph_ok r -> NoDup (pending r') ->
  (forall x, x ∈ pending r' <-> exists n, node r' x = Some n /\ queued n = true) ->
  (forall x n, node r' x = Some n -> queued n = true -> kind n = Effect) -> graph_ok r'.
Proof.
  intros Hs G Hnd Hq He.
  assert (Hback : forall x n, node r' x = Some n -> exists m, node r x = Some m /\ sources n = sources m /\ subscribers n = subscribers m)
    by (intros; by apply same_edges_some with r').
  assert (Hfor : forall x n, node r x = Some n -> exists m, node r' x = Some m /\ sources m = sources n /\ subscribers m = subscribers n).
  { intros x n Hn. specialize (Hs x). rewrite Hn in Hs. destruct (node r' x) as [m|]; [|done]. injection Hs as H1 H2. by exists m. }
  split; [| | |done..].
  - intros x n y (m & Hm & Hsn & _)%Hback Hy. rewrite Hsn in Hy. destruct (source_edge _ G x m y Hm Hy) as (k & Hk & Hx).
    destruct (Hfor _ _ Hk) as (k' & Hk' & _ & Hsub). exists k'. by rewrite Hsub.
  - intros x n y (m & Hm & _ & Hsn)%Hback Hy. rewrite Hsn in Hy. destruct (subscriber_edge _ G x m y Hm Hy) as (k & Hk & Hx).
    destruct (Hfor _ _ Hk) as (k' & Hk' & Hsrc & _). exists k'. by rewrite Hsrc.
  - intros x n (m & Hm & -> & ->)%Hback. by apply (edges_once _ G).
Qed.

Lemma set_queued_edges r id q y :
  (fun n => (sources n, subscribers n)) <$> node (update_node id (set_queued q) r) y
  = (fun n => (sources n, subscribers n)) <$> node r y.
Proof. rewrite node_update. destruct (decide (y = id)) as [->|]; [|done]. by destruct (node r id). Qed.

Lemma enqueue_graph_ok r id : graph_ok r -> graph_ok (enqueue_effect id r).
Proof.
  intros G. unfold enqueue_effect. destruct (node r id) as [n|] eqn:Hn; [|done].
  destruct (bool_decide (kind n = Effect)) eqn:Hk; [|done]. apply bool_decide_eq_true in Hk.
  destruct (queued n) eqn:Hq; [done|]. cbn [negb andb]. apply (edges_of_flag r); [apply set_queued_edges|done| | |].
  - cbn. apply NoDup_app. split_and!; [apply (queue_once _ G)| |apply NoDup_singleton].
    intros x Hx ->%list_elem_of_singleton. apply (queue_exact _ G) in Hx as (m & Hm & Hqm). congruence.
  - intros x. cbn [pending set_pending]. rewrite elem_of_app, list_elem_of_singleton, (queue_exact _ G x).
    change (node (set_pending ?p ?r) x) with (node r x). setoid_rewrite node_update.
    destruct (decide (x = id)) as [->|Hne]; [|naive_solver]. rewrite Hn. cbn. split; [|by right].
    intros _. exists (set_queued true n). done.
  - intros x m. change (node (set_pending ?p ?r) x) with (node r x). rewrite node_update.
    destruct (decide (x = id)) as [->|]; [|apply (queue_effects _ G)]. rewrite Hn. cbn. by intros [= <-].
Qed.

Lemma mark_expand_ok k r r' next : graph_ok r -> mark_expand k r = Some (r', next) -> graph_ok r'.
Proof.
  destruct k as [[s c] force]. intros G Hx%mark_expand_spec. destruct (node r s) as [n|]; [|by destruct Hx as [-> _]].
  assert (G1 : graph_ok (update_node s (recolor c) r)).
  { apply (same_graph_ok r); [|done]. apply same_graph_update. intros m. unfold view, recolor. by destruct (color_lt (color m) c). }
  destruct (bool_decide _); destruct Hx as [-> _]; [by apply enqueue_graph_ok|done].
Qed.

Lemma mark_ok source c force r r' : graph_ok r -> mark_subscribers_with_force source c force r = Some r' -> graph_ok r'.
Proof.
  intros G. unfold mark_subscribers_with_force. destruct (node r source) as [n|]; [|by intros [= <-]].
  destruct (explore _ _ _ _ _) as [| |s] eqn:He; [done|done|]. intros [= <-].
  apply (explore_state _ graph_ok _ _ _ _ _) in He; [done| |done]. intros k s1 s2 next. apply mark_expand_ok.
Qed.

Lemma pop_pending_ok r (next : option NodeId) r' : graph_ok r -> pop_pending r = (next, r') -> graph_ok r'.
Proof.
  intros G. unfold pop_pending. destruct (pending r) as [|id queue] eqn:Hp.
  - intros [= _ <-]. apply (same_graph_ok r); [|done]. by split.
  - assert (Hid : id ∈ pending r) by (rewrite Hp; by left). apply (queue_exact _ G) in Hid as (n & Hn & Hq).
    cbn [pop_pending_from]. rewrite Hn. intros [= _ <-]. pose proof (queue_once _ G) as Hnd. rewrite Hp in Hnd.
    apply NoDup_cons in Hnd as [Hout Hnd].
    apply (edges_of_flag r); [apply set_queued_edges|done|done| |].
    + intros y. change (node (set_pending ?p ?r) y) with (node r y). cbn [pending set_pending]. setoid_rewrite node_update.
      destruct (decide (y = id)) as [->|Hne].
      * rewrite Hn. cbn. naive_solver.
      * rewrite <-(queue_exact _ G y), Hp. set_solver.
    + intros y m. change (node (set_pending ?p ?r) y) with (node r y). rewrite node_update.
      destruct (decide (y = id)) as [->|]; [|apply (queue_effects _ G)]. rewrite Hn. cbn. by intros [= <-].
Qed.

(** ** Removing a node *)

(** All trace of [id] in another node. *)
Definition forget (id : NodeId) n : Node V :=
  set_subscribers (without id (subscribers n)) (set_sources (without id (sources n)) n).

Lemma elem_of_without id x xs : x ∈ without id xs <-> x ∈ xs /\ x <> id.
Proof. unfold without. rewrite list_elem_of_filter. naive_solver. Qed.

Lemma without_notin id xs : id ∉ xs -> without id xs = xs.
Proof.
  induction xs as [|x xs IH]; [done|]. intros [Hx Hxs]%not_elem_of_cons. unfold without in *.
  rewrite filter_cons_True by done. by rewrite IH.
Qed.

Lemma without_nodup id xs : NoDup xs -> NoDup (without id xs).
Proof. apply NoDup_filter. Qed.

(** A sequence of updates with one idempotent function. *)
Lemma node_updates f l r y :
  (forall n, f (f n) = f n) ->
  node (foldl (fun r s => update_node s f r) r l) y = if decide (y ∈ l) then f <$> node r y else node r y.
Proof.
  intros Hf. revert r. induction l as [|x l IH]; intros r; [done|]. cbn [foldl]. rewrite IH, node_update.
  destruct (decide (y = x)) as [->|Hne].
  - rewrite (decide_True (P := x ∈ x :: l)) by by left. destruct (decide (x ∈ l)); [|done].
    destruct (node r x); [|done]. cbn. by rewrite Hf.
  - destruct (decide (y ∈ l)) as [Hin|Hout].
    + by rewrite (decide_True (P := y ∈ x :: l)) by by right.
    + rewrite (decide_False (P := y ∈ x :: l)); [done|]. by intros [->|?]%elem_of_cons.
Qed.

Lemma pending_updates {A} (g : A -> NodeId) f l r : pending (foldl (fun r s => update_node (g s) f r) r l) = pending r.
Proof. revert r. induction l as [|x l IH]; intros r; [done|]. cbn. by rewrite IH, pending_update. Qed.

Lemma frames_updates {A} (g : A -> NodeId) f l r : frames (foldl (fun r s => update_node (g s) f r) r l) = frames r.
Proof. revert r. induction l as [|x l IH]; intros r; [done|]. cbn. by rewrite IH, frames_update. Qed.

Lemma without_idem id xs : without id (without id xs) = without id xs.
Proof. apply without_notin. by intros [_ ?]%elem_of_without. Qed.

(** What [detach] leaves of the edges, when those of [n] were its neighbours'. *)
Lemma detach_edges id n r y :
  (forall m, node r y = Some m -> id ∈ subscribers m -> y ∈ sources n) ->
  (forall m, node r y = Some m -> id ∈ sources m -> y ∈ subscribers n) ->
  view <$> node (detach id n r) y = view ∘ forget id <$> node r y.
Proof.
  intros Hsub Hsrc. unfold detach. rewrite !node_updates by (intros m; by destruct m; cbn; rewrite without_idem).
  set (r1 := match owner n with Some o => _ | None => _ end).
  assert (Hr1 : exists f, (forall m, view (f m) = view m) /\ node r1 y = f <$> node r y).
  { unfold r1. destruct (owner n) as [o|]; [|exists (fun m => m); split; [done|]; by destruct (node r y) eqn:E; unfold node in *; cbn; rewrite E].
    rewrite node_update. destruct (decide (y = o)) as [->|]; [by eexists (fun m => set_owned _ m)|].
    exists (fun m => m). split; [done|]. change (node r y = (fun m => m) <$> node r y). by destruct (node r y). }
  destruct Hr1 as (f & Hf & ->). destruct (node r y) as [m|]; [|by destruct (decide _), (decide _)].
  specialize (Hsub m eq_refl). specialize (Hsrc m eq_refl). specialize (Hf m). injection Hf as H1 H2 H3 H4. cbn [fmap option_fmap].
  assert (Ha : y ∉ sources n -> without id (subscribers m) = subscribers m) by (intros; apply without_notin; auto).
  assert (Hb : y ∉ subscribers n -> without id (sources m) = sources m) by (intros; apply without_notin; auto).
  destruct (decide (y ∈ subscribers n)), (decide (y ∈ sources n)); cbn; unfold view, forget; cbn;
    rewrite H1, H2, ?H3, ?H4, ?Ha, ?Hb by done; done.
Qed.

(** A visit of [collect_disposal]. *)
Lemma retire_node_ok r id n r1 : graph_ok r -> take_node id r = Some (n, r1) -> graph_ok (detach id n r1).
Proof.
  intros G Ht. pose proof Ht as [Hn Hnode]%take_node_spec.
  assert (Hview : forall y, view <$> node (detach id n r1) y = if decide (y = id) then None else view ∘ forget id <$> node r y).
  { intros y. rewrite detach_edges.
    - rewrite Hnode. by destruct (decide (y = id)).
    - intros m Hm Hin. rewrite Hnode in Hm. destruct (decide (y = id)); [done|].
      destruct (subscriber_edge _ G y m id Hm Hin) as (k & Hk & Hy). congruence.
    - intros m Hm Hin. rewrite Hnode in Hm. destruct (decide (y = id)); [done|].
      destruct (source_edge _ G y m id Hm Hin) as (k & Hk & Hy). congruence. }
  assert (Hpend : pending (detach id n r1) = without id (pending r)).
  { unfold detach. rewrite !(pending_updates (fun s => s)). assert (Hp : pending r1 = pending r).
    { unfold take_node in Ht. rewrite Hn in Ht. injection Ht as <-. by destruct (checked_add_u32 _ _). }
    rewrite <-Hp. destruct (owner n); [by rewrite pending_update|done]. }
  assert (Hback : forall x m, node (detach id n r1) x = Some m -> x <> id /\ exists k, node r x = Some k /\ view m = view (forget id k)).
  { intros x m Hm. specialize (Hview x). rewrite Hm in Hview. destruct (decide (x = id)) as [|Hne]; [done|]. split; [done|].
    destruct (node r x) as [k|]; [|done]. exists k. split; [done|]. by apply (inj Some) in Hview. }
  assert (Hfor : forall x k, x <> id -> node r x = Some k -> exists m, node (detach id n r1) x = Some m /\ view m = view (forget id k)).
  { intros x k Hne Hk. specialize (Hview x). rewrite decide_False, Hk in Hview by done. destruct (node _ x) as [m|]; [|done].
    exists m. split; [done|]. by apply (inj Some) in Hview. }
  split.
  - intros x m y (Hx & k & Hk & [= _ _ Hv _])%Hback Hy. rewrite Hv in Hy. apply elem_of_without in Hy as [Hy Hyid].
    destruct (source_edge _ G x k y Hk Hy) as (j & Hj & Hin). destruct (Hfor y j Hyid Hj) as (m' & Hm' & [= _ _ _ Hv']).
    exists m'. rewrite Hv', elem_of_without. done.
  - intros x m y (Hx & k & Hk & [= _ _ _ Hv])%Hback Hy. rewrite Hv in Hy. apply elem_of_without in Hy as [Hy Hyid].
    destruct (subscriber_edge _ G x k y Hk Hy) as (j & Hj & Hin). destruct (Hfor y j Hyid Hj) as (m' & Hm' & [= _ _ Hv' _]).
    exists m'. rewrite Hv', elem_of_without. done.
  - intros x m (Hx & k & Hk & [= _ _ -> ->])%Hback. destruct (edges_once _ G x k Hk) as (H1 & H2 & H3).
    split_and!; [by apply without_nodup..|]. by intros [? _]%elem_of_without.
  - rewrite Hpend. apply without_nodup, (queue_once _ G).
  - intros x. rewrite Hpend, elem_of_without, (queue_exact _ G x). split.
    + intros [(k & Hk & Hq) Hne]. destruct (Hfor x k Hne Hk) as (m & Hm & [= _ Hqm _ _]). exists m. by rewrite Hqm.
    + intros (m & Hm & Hq). destruct (Hback x m Hm) as (Hne & k & Hk & [= _ Hqm _ _]). split; [|done]. exists k. by rewrite <-Hqm.
  - intros x m (Hx & k & Hk & [= -> -> _ _])%Hback. by apply (queue_effects _ G x).
Qed.

Lemma collect_loop_ok fuel tasks r b r' b' : graph_ok r -> collect_loop fuel tasks r b = Some (r', b') -> graph_ok r'.
Proof.
  revert tasks r b. induction fuel as [|fuel IH]; intros tasks r b G Hc; [done|]. cbn in Hc.
  destruct tasks as [|[id|n cs] tasks]; [by injection Hc as <- _| |by eapply IH].
  destruct (take_node id r) as [[n r1]|] eqn:Ht; [|by eapply IH]. eapply IH; [|exact Hc]. by eapply retire_node_ok.
Qed.

Lemma collect_all_ok ids r b r' b' : graph_ok r -> collect_all ids r b = Some (r', b') -> graph_ok r'.
Proof.
  revert r b. induction ids as [|id ids IH]; intros r b G Hc; [by injection Hc as <- _|]. cbn [collect_all] in Hc.
  destruct (collect_disposal id r b) as [[r1 b1]|] eqn:Hd; [|done]. eapply IH; [|exact Hc]. by eapply collect_loop_ok.
Qed.

(** ** Disposal ends *)

Definition weight (s : Slot V) : nat := match slot_node s with Some n => 2 + length (owned n) | None => 0 end.

Definition total_weight r : nat := sum_list (map weight (slots r)).

Lemma sum_insert {A} (w : A -> nat) (l : list A) i (x y : A) :
  l !! i = Some x -> (sum_list (map w (<[i := y]> l)) + w x = sum_list (map w l) + w y)%nat.
Proof.
  revert i. induction l as [|a l IH]; intros [|i] Hi; try done.
  - injection Hi as ->. cbn. lia.
  - specialize (IH i Hi). cbn in IH |- *. unfold insert in *. lia.
Qed.

Lemma weight_update r id f :
  (forall n, (length (owned (f n)) <= length (owned n))%nat) -> (total_weight (update_node id f r) <= total_weight r)%nat.
Proof.
  intros Hf. unfold update_node. destruct (node r id) as [n|] eqn:Hn; [|done]. apply node_some in Hn.
  unfold total_weight. cbn [slots set_slots].
  pose proof (sum_insert weight _ _ _ (mkSlot (generation id) (Some (f n))) Hn) as Hs. specialize (Hf n). cbn in Hs. lia.
Qed.

Lemma weight_updates l r f :
  (forall n, (length (owned (f n)) <= length (owned n))%nat) ->
  (total_weight (foldl (fun r s => update_node s f r) r l) <= total_weight r)%nat.
Proof. intros Hf. revert r. induction l as [|x l IH]; intros r; [done|]. cbn. etrans; [apply IH|]. by apply weight_update. Qed.

Lemma weight_take r id n r1 :
  take_node id r = Some (n, r1) -> (total_weight r1 + 2 + length (owned n) = total_weight r)%nat.
Proof.
  unfold take_node. destruct (node r id) as [m|] eqn:Hn; [|done]. cbn [mbind option_bind]. intros [= -> <-].
  apply node_some in Hn. unfold total_weight.
  destruct (checked_add_u32 _ _) as [g|]; cbn [slots set_slots set_free].
  - pose proof (sum_insert weight _ _ _ (mkSlot g None) Hn) as Hs. cbn in Hs. lia.
  - pose proof (sum_insert weight _ _ _ (mkSlot (generation id) None) Hn) as Hs. cbn in Hs. lia.
Qed.

Lemma length_without id xs : (length (without id xs) <= length xs)%nat.
Proof. apply length_filter. Qed.

Lemma weight_detach id n r : (total_weight (detach id n r) <= total_weight r)%nat.
Proof.
  unfold detach. etrans; [apply weight_updates; done|]. etrans; [apply weight_updates; done|].
  destruct (owner n) as [o|]; [|done]. etrans; [apply weight_update; intros m; apply length_without|]. done.
Qed.

Lemma collect_loop_total fuel tasks r b :
  (length tasks + total_weight r < fuel)%nat -> is_Some (collect_loop fuel tasks r b).
Proof.
  revert tasks r b. induction fuel as [|fuel IH]; intros tasks r b Hf; [lia|]. cbn.
  destruct tasks as [|[id|n cs] tasks]; [by eexists| |apply IH; cbn in Hf; lia]. cbn in Hf.
  destruct (take_node id r) as [[n r1]|] eqn:Ht; [|apply IH; lia]. apply IH.
  pose proof (weight_take _ _ _ _ Ht). pose proof (weight_detach id n r1).
  rewrite length_app, length_reverse, length_map. cbn. lia.
Qed.

Lemma collect_total id r b : is_Some (collect_disposal id r b).
Proof. apply collect_loop_total. change (1 + total_weight r < S (1 + total_weight r))%nat. lia. Qed.

Lemma collect_all_total ids r b : is_Some (collect_all ids r b).
Proof.
  revert r b. induction ids as [|id ids IH]; intros r b; [by eexists|]. cbn [collect_all].
  destruct (collect_total id r b) as [[r1 b1] ->]. apply IH.
Qed.

(** ** Discarded effects *)

Lemma rearm_expand_same k r r' next : rearm_expand k r = Some (r', next) -> same_graph r r'.
Proof.
  unfold rearm_expand. destruct (node r k) as [n|]; [|by intros [= <- _]]. destruct (_ && _); intros [= <- _]; [|done].
  by apply same_graph_update.
Qed.

Lemma rearm_same e r r' : rearm_discarded_effect e r = Some r' -> same_graph r r'.
Proof.
  unfold rearm_discarded_effect. destruct (explore _ _ _ _ _) as [| |s] eqn:He; [done|done|]. intros [= <-].
  apply (explore_state _ (same_graph r) _ _ _ _ _) in He; [done| |done].
  intros k s1 s2 next H1 Hx. etrans; [done|]. by eapply rearm_expand_same.
Qed.

Lemma rearm_all_same l r r' : rearm_all l r = Some r' -> same_graph r r'.
Proof.
  revert r. induction l as [|x l IH]; intros r Hr; [by injection Hr as <-|]. cbn [rearm_all] in Hr.
  destruct (rearm_discarded_effect x r) as [r1|] eqn:H1; [|done]. etrans; [by eapply rearm_same|by apply IH].
Qed.

Lemma node_unqueue l r y :
  node (foldr (fun id => update_node id (set_queued false)) r l) y
  = if decide (y ∈ l) then set_queued false <$> node r y else node r y.
Proof.
  induction l as [|x l IH]; [done|]. cbn [foldr]. rewrite node_update. destruct (decide (y = x)) as [->|Hne].
  - rewrite (decide_True (P := x ∈ x :: l)) by by left. rewrite IH. destruct (decide (x ∈ l)); [|done]. by destruct (node r x).
  - rewrite IH. destruct (decide (y ∈ l)) as [Hin|Hout].
    + by rewrite (decide_True (P := y ∈ x :: l)) by by right.
    + rewrite (decide_False (P := y ∈ x :: l)); [done|]. by intros [->|?]%elem_of_cons.
Qed.

Lemma clear_pending_ok r r' : graph_ok r -> clear_pending r = Some r' -> graph_ok r'.
Proof.
  intros G Hc. unfold clear_pending in Hc. apply rearm_all_same in Hc. apply (same_graph_ok _ _ Hc). clear r' Hc.
  set (l := base.filter (live r) (pending r)).
  assert (Hq : forall x n, node r x = Some n -> queued n = true -> x ∈ l).
  { intros x n Hn Hqn. apply list_elem_of_filter. split; [by exists n|]. apply (queue_exact _ G). by exists n. }
  assert (Hnode : forall x, node (set_pending [] (foldr (fun id => update_node id (set_queued false)) r l)) x
                            = if decide (x ∈ l) then set_queued false <$> node r x else node r x) by apply node_unqueue.
  assert (Hno : forall x n, node (set_pending [] (foldr (fun id => update_node id (set_queued false)) r l)) x = Some n -> queued n = false).
  { intros x n. rewrite Hnode. destruct (decide (x ∈ l)) as [|Hout]; [destruct (node r x); by intros [= <-]|]. intros Hn.
    destruct (queued n) eqn:Hqn; [|done]. destruct Hout. by apply (Hq x n). }
  apply (edges_of_flag r); [|done|by apply NoDup_nil_2| |].
  - intros x. rewrite Hnode. destruct (decide (x ∈ l)); [|done]. by destruct (node r x).
  - intros x. split; [by intros ?%not_elem_of_nil|]. intros (n & Hn & Hqn). rewrite (Hno x n Hn) in Hqn. done.
  - intros x n Hn Hqn. rewrite (Hno x n Hn) in Hqn. done.
Qed.

Lemma abort_pending_ok id r r' : graph_ok r -> abort_pending id r = Some r' -> graph_ok r'.
Proof.
  intros G. unfold abort_pending. destruct (rearm_discarded_effect id r) as [r1|] eqn:H1; [|done].
  cbn [mbind option_bind]. apply clear_pending_ok. apply (same_graph_ok r); [by eapply rearm_same|done].
Qed.

(** A walk over the sources never runs out of fuel. *)
Lemma walk_total expand r stack :
  (forall k r1, same_graph r r1 -> expand k r1 <> None -> exists r2, same_graph r r2 /\
     expand k r1 = Some (r2, reverse (from_option sources [] (node r1 k)))) ->
  explore expand (explore_fuel 1 r (length stack)) stack ∅ r <> OutOfFuel.
Proof.
  intros Hx. apply (explore_total _ (same_graph r) (list_to_set (handles r)) (degree r)); [|done|].
  - intros k r1 r1' next H1 Hs. destruct (Hx k r1 H1) as (r2 & H2 & Heq); [by rewrite Hs|]. rewrite Hs in Heq.
    injection Heq as -> ->. split; [done|]. rewrite length_reverse. destruct (node r1 k) as [n|] eqn:Hn; cbn; [|split; [lia|done]].
    destruct (same_graph_back _ _ _ _ H1 Hn) as (m & Hm & [= _ _ -> _]). pose proof (degree_bound _ _ _ Hm). split; [lia|].
    intros Hout. destruct Hout. apply elem_of_list_to_set. by eapply live_handle.
  - unfold explore_fuel. rewrite difference_empty_L. pose proof (size_list_to_set_le (handles r)).
    unfold handles in *. rewrite length_imap in *. nia.
Qed.

Lemma rearm_total e r : is_Some (rearm_discarded_effect e r).
Proof.
  unfold rearm_discarded_effect. destruct (explore _ _ _ _ _) as [| |s] eqn:He; [| |by eexists]; exfalso; revert He.
  - apply walk_total. intros k r1 H1 _. unfold rearm_expand.
    destruct (node r1 k) as [n|] eqn:Hn; [|by exists r1]. cbn. eexists. split; [|done]. etrans; [exact H1|].
    destruct (_ && _); [by apply same_graph_update|done].
  - apply explore_not_stopped. intros k r1. unfold rearm_expand. destruct (node r1 k); by eexists.
Qed.

Lemma rearm_all_total l r : is_Some (rearm_all l r).
Proof.
  revert r. induction l as [|x l IH]; intros r; [by eexists|]. cbn [rearm_all]. destruct (rearm_total x r) as [r1 ->]. apply IH.
Qed.

Lemma abort_pending_total id r : is_Some (abort_pending id r).
Proof. unfold abort_pending. destruct (rearm_total id r) as [r1 ->]. apply rearm_all_total. Qed.

Lemma write_allowed_total fs id r : is_Some (write_allowed_from fs id r).
Proof.
  induction fs as [|f fs IH]; [by eexists|]. cbn [write_allowed_from].
  destruct (explore _ _ _ _ _) eqn:He; [|by eexists|done]. exfalso. revert He. apply walk_total.
  intros k r1 H1 Hne. unfold write_expand in *. destruct (bool_decide _); [done|]. by exists r1.
Qed.

(** ** New nodes *)

Lemma allocate_node_spec n r id r' :
  arena_ok r -> allocate_node n r = Some (id, r') ->
  node r id = None /\ pending r' = pending r /\ frames r' = frames r /\
  forall y, node r' y = if decide (y = id) then Some n else node r y.
Proof.
  intros Hr. unfold allocate_node. destruct (free r) as [|s rest_] eqn:Hfree.
  - destruct (u32_max <? _); [done|]. intros Ha. injection Ha as <- <-.
    assert (Hlen : N.to_nat (blen (slots r)) = length (slots r)) by (unfold blen; lia).
    split_and!; [|done|done|].
    + unfold node. cbn. rewrite Hlen, lookup_ge_None_2 by lia. done.
    + intros y. unfold node. cbn [slots set_slots]. destruct (decide (y = _)) as [->|Hne].
      * cbn. rewrite Hlen, lookup_app_r, Nat.sub_diag by lia. done.
      * destruct (decide (N.to_nat (slot y) = length (slots r))) as [Heq|Hlt].
        -- rewrite Heq, lookup_app_r, Nat.sub_diag by lia. rewrite (lookup_ge_None_2 (slots r)) by lia. cbn.
           destruct (N.eqb_spec (generation y) 0) as [Hg|]; [|done]. destruct Hne. apply slot_inj; cbn; lia.
        -- destruct (decide (N.to_nat (slot y) < length (slots r))%nat); [by rewrite lookup_app_l by lia|].
           rewrite !lookup_ge_None_2 by (rewrite ?length_app; cbn; lia). done.
  - destruct (slots r !! N.to_nat s) as [[g x]|] eqn:Hs; [|done]. cbn. intros Ha. injection Ha as <- <-.
    destruct Hr as [_ Hnone]. destruct (Hnone s) as [g' Hg']; [rewrite Hfree; by left|]. rewrite Hs in Hg'.
    injection Hg' as <- ->. pose proof (lookup_lt_Some _ _ _ Hs) as Hlt. split_and!; [|done|done|].
    + rewrite (node_slot _ _ (mkSlot g None)) by done. cbn. by destruct (_ =? _).
    + intros y. destruct (decide (N.to_nat (slot y) = N.to_nat s)) as [Heq|Hne].
      * rewrite (node_slot _ y (mkSlot g (Some n))) by (cbn; rewrite Heq; by apply list_lookup_insert_eq).
        rewrite (node_slot r y (mkSlot g None)) by (by rewrite Heq). cbn.
        destruct (N.eqb_spec (generation y) g) as [Hg|Hg].
        -- rewrite decide_True; [done|]. by apply slot_inj.
        -- rewrite decide_False; [done|]. by intros ->.
      * rewrite decide_False by (by intros ->). unfold node. cbn. by rewrite list_lookup_insert_ne.
Qed.

Lemma allocate_ok n r id r' :
  arena_ok r -> graph_ok r -> sources n = [] -> subscribers n = [] -> queued n = false ->
  allocate_node n r = Some (id, r') -> graph_ok r'.
Proof.
  intros Ha G Hs Hb Hq Hal. destruct (allocate_node_spec _ _ _ _ Ha Hal) as (Hnone & Hp & _ & Hnode).
  assert (Hkeep : forall y k, node r y = Some k -> node r' y = Some k).
  { intros y k Hk. rewrite Hnode, decide_False; [done|]. intros ->. congruence. }
  assert (Hback : forall y k, node r' y = Some k -> y = id /\ k = n \/ node r y = Some k).
  { intros y k. rewrite Hnode. destruct (decide (y = id)); [intros [= <-]; by left|by right]. }
  split.
  - intros x k y [[-> ->]|Hk]%Hback Hy; [rewrite Hs in Hy; by apply not_elem_of_nil in Hy|].
    destruct (source_edge _ G x k y Hk Hy) as (m & Hm & Hin). exists m. auto.
  - intros x k y [[-> ->]|Hk]%Hback Hy; [rewrite Hb in Hy; by apply not_elem_of_nil in Hy|].
    destruct (subscriber_edge _ G x k y Hk Hy) as (m & Hm & Hin). exists m. auto.
  - intros x k [[-> ->]|Hk]%Hback; [|by apply (edges_once _ G)]. rewrite Hs, Hb. split_and!; [apply NoDup_nil_2..|apply not_elem_of_nil].
  - rewrite Hp. apply (queue_once _ G).
  - intros x. rewrite Hp, (queue_exact _ G x). split.
    + intros (k & Hk & Hqk). exists k. auto.
    + intros (k & [[-> ->]|Hk]%Hback & Hqk); [congruence|by exists k].
  - intros x k [[-> ->]|Hk]%Hback Hqk; [congruence|by apply (queue_effects _ G x)].
Qed.

(** ** Committing *)

Definition subscribe_node id n : Node V :=
  if bool_decide (id ∈ subscribers n) then n else set_subscribers (subscribers n ++ [id])%list n.

Lemma subscribe_idem id n : subscribe_node id (subscribe_node id n) = subscribe_node id n.
Proof.
  unfold subscribe_node. destruct (bool_decide (id ∈ subscribers n)) eqn:Hin; [by rewrite Hin|].
  rewrite bool_decide_true; [done|]. cbn. set_solver.
Qed.

(** The node a committed computation leaves behind. *)
Definition committed (k : Kind) (frame : ComputationFrame V) (v : V) (new_sources : list NodeId) n : Node V :=
  set_color Clean
    ((if bool_decide (k = Memo) then set_value (Some v) else fun n => n)
       (set_retry_notify false
          (set_cleanups (frame_cleanups frame) (set_owned (frame_owned frame) (set_sources new_sources n))))).

Lemma rest_updates {A} (g : A -> NodeId) f l r : rest (foldl (fun r s => update_node (g s) f r) r l) = rest r.
Proof. revert r. induction l as [|x l IH]; intros r; [done|]. cbn. by rewrite IH, rest_update. Qed.

Lemma live_updates l f r y : live (foldl (fun r s => update_node s f r) r l) y <-> live r y.
Proof. revert r. induction l as [|x l IH]; intros r; [done|]. cbn [foldl]. by rewrite IH, live_update. Qed.

Lemma set_subscribers_same n xs : xs = subscribers n -> set_subscribers xs n = n.
Proof. intros ->. by destruct n. Qed.

Lemma publish_frame_spec id n frame v r :
  graph_ok r -> node r id = Some n -> id ∉ frame_sources frame ->
  let new := base.filter (live r) (frame_sources frame) in
  let r' := publish_frame id n frame v r in
  pending r' = pending r /\ rest r' = rest r /\
  node r' id = Some (committed (kind n) frame v new n) /\
  forall y, y <> id -> node r' y =
    (fun m => set_subscribers (without id (subscribers m) ++ (if bool_decide (y ∈ new) then [id] else []))%list m) <$> node r y.
Proof.
  intros G Hn Hself new r'. unfold r', publish_frame.
  set (erase := fun m => set_subscribers (without id (subscribers m)) m).
  set (clear := fun n : Node V => set_sources [] (set_owned [] (set_cleanups [] n))).
  set (r1 := foldl (fun r s => update_node s erase r) (update_node id clear r) (sources n)).
  assert (Hnew : base.filter (live r1) (frame_sources frame) = new).
  { apply list_filter_iff. intros x. unfold r1. by rewrite live_updates, live_update. }
  rewrite Hnew. set (r2 := foldl (fun r s => subscribe id s r) r1 new).
  change r2 with (foldl (fun r s => update_node s (subscribe_node id) r) r1 new) in *.
  destruct (edges_once _ G id n Hn) as (_ & _ & Hout).
  assert (Hid : id ∉ new) by (intros [_ Hbad]%list_elem_of_filter; done).
  split_and!.
  - unfold r1. by rewrite pending_update, !(pending_updates (fun s => s)), pending_update.
  - unfold r1. by rewrite rest_update, !(rest_updates (fun s => s)), rest_update.
  - rewrite node_update, decide_True, node_updates, decide_False by (done || apply subscribe_idem).
    unfold r1. rewrite node_updates, decide_False, node_update, decide_True, Hn by (done || (intros m; unfold erase; cbn; by rewrite without_idem)).
    cbn. f_equal.
  - intros y Hy. rewrite node_update, decide_False, node_updates by (done || apply subscribe_idem).
    unfold r1. rewrite node_updates, node_update, (decide_False (P := y = id)) by (done || (intros m; unfold erase; cbn; by rewrite without_idem)).
    destruct (node r y) as [m|] eqn:Hm; [|by destruct (decide _), (decide _)].
    assert (Hsub : y ∉ sources n -> without id (subscribers m) = subscribers m).
    { intros Hns. apply without_notin. intros Hin. destruct (subscriber_edge _ G y m id Hm Hin) as (k & Hk & Hys). congruence. }
    assert (Hw : id ∉ without id (subscribers m)) by by intros [_ ?]%elem_of_without.
    destruct (decide (y ∈ new)) as [Hin|Hnin]; [rewrite bool_decide_true by done|rewrite bool_decide_false by done];
      destruct (decide (y ∈ sources n)) as [|Hns]; cbn; f_equal; rewrite ?app_nil_r.
    + unfold subscribe_node. cbn. by rewrite bool_decide_false.
    + unfold subscribe_node. rewrite Hsub in * by done. by rewrite bool_decide_false.
    + done.
    + rewrite Hsub by done. by rewrite set_subscribers_same.
Qed.

Lemma publish_frame_ok id n frame v r :
  graph_ok r -> node r id = Some n -> id ∉ frame_sources frame -> NoDup (frame_sources frame) ->
  graph_ok (publish_frame id n frame v r).
Proof.
  intros G Hn Hself Hnd. destruct (publish_frame_spec id n frame v r G Hn Hself) as (Hp & _ & Hid & Hother).
  set (new := base.filter (live r) (frame_sources frame)) in *. set (r' := publish_frame id n frame v r) in *.
  set (n' := committed (kind n) frame v new n) in *.
  assert (Hv : kind n' = kind n /\ queued n' = queued n /\ sources n' = new /\ subscribers n' = subscribers n)
    by (unfold n', committed; by destruct (bool_decide (kind n = Memo))).
  destruct Hv as (Hk & Hq & Hs & Hb).
  assert (Hnew : forall y, y ∈ new -> y <> id /\ live r y).
  { intros y [Hl Hy]%list_elem_of_filter. split; [by intros ->|done]. }
  assert (Hback : forall x m, node r' x = Some m -> x = id /\ m = n' \/
            x <> id /\ exists k, node r x = Some k /\
              m = set_subscribers (without id (subscribers k) ++ (if bool_decide (x ∈ new) then [id] else []))%list k).
  { intros x m Hm. destruct (decide (x = id)) as [->|Hne]; [left; split; [done|congruence]|right]. split; [done|].
    rewrite (Hother x Hne) in Hm. destruct (node r x) as [k|]; [|done]. injection Hm as <-. by exists k. }
  split.
  - intros x m y [[-> ->]|(Hne & k & Hkx & ->)]%Hback Hy.
    + rewrite Hs in Hy. destruct (Hnew y Hy) as [Hne [j Hj]]. eexists. rewrite (Hother y Hne), Hj. split; [done|]. cbn.
      rewrite bool_decide_true by done. set_solver.
    + cbn in Hy. destruct (source_edge _ G x k y Hkx Hy) as (j & Hj & Hin). destruct (decide (y = id)) as [->|Hyne].
      * exists n'. split; [done|]. rewrite Hb. congruence.
      * eexists. rewrite (Hother y Hyne), Hj. split; [done|]. cbn. apply elem_of_app. left. by apply elem_of_without.
  - intros x m y [[-> ->]|(Hne & k & Hkx & ->)]%Hback Hy.
    + rewrite Hb in Hy. destruct (subscriber_edge _ G id n y Hn Hy) as (j & Hj & Hin).
      assert (y <> id) as Hyne by (intros ->; destruct (edges_once _ G id n Hn) as (_ & _ & Ho); congruence).
      eexists. rewrite (Hother y Hyne), Hj. split; [done|]. done.
    + cbn in Hy. apply elem_of_app in Hy as [[Hy Hyne]%elem_of_without|Hy].
      * destruct (subscriber_edge _ G x k y Hkx Hy) as (j & Hj & Hin). eexists. rewrite (Hother y Hyne), Hj. split; [done|]. done.
      * destruct (bool_decide (x ∈ new)) eqn:Hx; [|by apply not_elem_of_nil in Hy]. apply bool_decide_eq_true in Hx.
        apply list_elem_of_singleton in Hy as ->. exists n'. by rewrite Hs.
  - intros x m [[-> ->]|(Hne & k & Hkx & ->)]%Hback.
    + rewrite Hs, Hb. destruct (edges_once _ G id n Hn) as (_ & H2 & _). split_and!; [by apply NoDup_filter|done|].
      intros Hbad. by apply Hnew in Hbad as [? _].
    + destruct (edges_once _ G x k Hkx) as (H1 & H2 & H3). cbn. split_and!; [done| |done]. apply NoDup_app.
      split_and!; [by apply without_nodup| |destruct (bool_decide _); [apply NoDup_singleton|apply NoDup_nil_2]].
      intros z [_ Hz]%elem_of_without Hbad. destruct (bool_decide _); [by apply list_elem_of_singleton in Hbad|by apply not_elem_of_nil in Hbad].
  - rewrite Hp. apply (queue_once _ G).
  - intros x. rewrite Hp, (queue_exact _ G x). split.
    + intros (k & Hkx & Hqx). destruct (decide (x = id)) as [->|Hne]; [exists n'; split; [done|congruence]|].
      eexists. rewrite (Hother x Hne), Hkx. split; [done|]. done.
    + intros (m & [[-> ->]|(Hne & k & Hkx & ->)]%Hback & Hqx); [exists n; split; [done|congruence]|by exists k].
  - intros x m [[-> ->]|(Hne & k & Hkx & ->)]%Hback Hqx; [rewrite Hk; apply (queue_effects _ G id n Hn); congruence|].
    exact (queue_effects _ G x k Hkx Hqx).
Qed.

Lemma commit_graph_ok id frame v changed r r' b :
  graph_ok r -> frame_observer frame ∉ frame_sources frame -> NoDup (frame_sources frame) -> frame_observer frame = id ->
  commit_computation id frame v changed r = Some (r', b) -> graph_ok r'.
Proof.
  intros G Hself Hnd <- Hc. unfold commit_computation in Hc. destruct (node r (frame_observer frame)) as [n|] eqn:Hn; [|done].
  cbn [mbind option_bind] in Hc. pose proof (publish_frame_ok _ _ _ v _ G Hn Hself Hnd) as G1.
  set (r1 := publish_frame (frame_observer frame) n frame v r) in *.
  assert (Hm : exists r2, graph_ok r2 /\ exists r3 b3, collect_all (reverse (owned n)) r2 empty_batch = Some (r3, b3) /\ r' = r3).
  { destruct (bool_decide _ && _).
    - destruct (mark_subscribers_with_force _ _ _ r1) as [r2|] eqn:Hmark; [|done]. exists r2. split; [by eapply mark_ok|].
      cbn in Hc. destruct (collect_all _ _ _) as [[r3 b3]|]; [|done]. injection Hc as <- _. by exists r3, b3.
    - exists r1. split; [done|]. cbn in Hc. destruct (collect_all _ _ _) as [[r3 b3]|]; [|done]. injection Hc as <- _. by exists r3, b3. }
  destruct Hm as (r2 & G2 & r3 & b3 & Hcol & ->). by eapply collect_all_ok.
Qed.

Lemma commit_total id frame v changed r : live r id -> is_Some (commit_computation id frame v changed r).
Proof.
  intros [n Hn]. unfold commit_computation. rewrite Hn. cbn [mbind option_bind].
  set (r1 := publish_frame id n frame v r).
  assert (Hm : exists r2, (if bool_decide (kind n = Memo) && (changed || retry_notify n)
                           then mark_subscribers_with_force id (if changed then Dirty else Check) (retry_notify n) r1
                           else Some r1) = Some r2) by (destruct (_ && _); [apply mark_total|by eexists]).
  destruct Hm as [r2 ->]. cbn. destruct (collect_all_total (reverse (owned n)) r2 empty_batch) as [[r3 b3] ->]. by eexists.
Qed.

End graph.
