(* ===== verification/ReactiveSafety.v ===== *)
(** * ReactiveSafety: what no user code can break

    The runtime as a transition system: [step] lists the changes the procedures of
    [ReactiveRun] make to it, and every procedure, for any user code and whether it
    returns, panics or aborts, is a sequence of such steps. By induction on the
    steps, the invariant of the graph holds whenever user code runs, and a handle
    that stopped resolving never resolves again. *)

From S2P Require Import Prelude Reactive ReactiveRun ReactiveGraph.

Section steps.
Context {V : Type}.
Implicit Types (n : Node V) (r : Runtime V) (id : NodeId).

(** A frame never lists its own node, nor a source twice. *)
Definition frame_ok (f : ComputationFrame V) : Prop := NoDup (frame_sources f) /\ frame_observer f ∉ frame_sources f.

Definition frames_ok r : Prop := Forall frame_ok (frames r).

(** An update that leaves what the graph and the queue need of a node. *)
Definition silent (f : Node V -> Node V) : Prop := forall n, view (f n) = view n.

Inductive step : Runtime V -> Runtime V -> Prop :=
| step_bookkeeping r r' :
    slots r' = slots r -> free r' = free r -> frames r' = frames r -> pending r' = pending r -> step r r'
| step_update r id f : silent f -> step r (update_node id f r)
| step_enter r id o w : step r (set_frames (mkFrame id [] [] [] :: frames r) (set_active_owner o (set_observer w r)))
| step_leave r f fs : frames r = f :: fs -> step r (set_frames fs r)
| step_track r f fs s :
    frames r = f :: fs -> s <> frame_observer f -> s ∉ frame_sources f ->
    step r (set_frames (mkFrame (frame_observer f) (frame_sources f ++ [s])%list (frame_owned f) (frame_cleanups f) :: fs) r)
| step_frame r f fs o c :
    frames r = f :: fs -> step r (set_frames (mkFrame (frame_observer f) (frame_sources f) o c :: fs) r)
| step_allocate r n id r' :
    sources n = [] -> subscribers n = [] -> queued n = false -> allocate_node n r = Some (id, r') -> step r r'
| step_mark r id c force r' : mark_subscribers_with_force id c force r = Some r' -> step r r'
| step_pop r next r' : pop_pending r = (next, r') -> step r r'
| step_abort r id r' : abort_pending id r = Some r' -> step r r'
| step_collect r ids b r' b' : collect_all ids r b = Some (r', b') -> step r r'
| step_commit r id f v changed r' b :
    frame_ok f -> frame_observer f = id -> commit_computation id f v changed r = Some (r', b) -> step r r'.

(** ** Each step respects handles *)

Lemma advances_silent r id f : advances r (update_node id f r).
Proof. apply advances_update. Qed.

Lemma advances_updates l f r : advances r (foldl (fun r s => update_node s f r) r l).
Proof. revert r. induction l as [|x l IH]; intros r; [done|]. cbn. etrans; [apply advances_update|apply IH]. Qed.

Lemma advances_enqueue id r : advances r (enqueue_effect id r).
Proof.
  unfold enqueue_effect. destruct (node r id); [|done]. destruct (_ && _); [|done].
  etrans; [apply (advances_update r id (set_queued true))|]. by apply advances_same.
Qed.

Lemma advances_mark id c force r r' : mark_subscribers_with_force id c force r = Some r' -> advances r r'.
Proof.
  unfold mark_subscribers_with_force. destruct (node r id); [|by intros [= <-]].
  destruct (explore _ _ _ _ _) as [| |s] eqn:He; [done|done|]. intros [= <-].
  apply (explore_state _ (advances r) _ _ _ _ _) in He; [done| |done]. clear.
  intros [[x c] force] r1 r2 next H1 Hx%mark_expand_spec. etrans; [exact H1|].
  destruct (node r1 x); [|by destruct Hx as [-> _]]. destruct (bool_decide _); destruct Hx as [-> _]; [|apply advances_update].
  etrans; [apply advances_update|apply advances_enqueue].
Qed.

Lemma advances_rearm l r r' : rearm_all l r = Some r' -> advances r r'.
Proof.
  revert r. induction l as [|x l IH]; intros r; [by intros [= <-]|]. cbn [rearm_all].
  destruct (rearm_discarded_effect x r) as [r1|] eqn:H1; [|done]. intros H2. etrans; [|by apply IH]. revert H1.
  unfold rearm_discarded_effect. destruct (explore _ _ _ _ _) as [| |s] eqn:He; [done|done|]. intros [= <-].
  apply (explore_state _ (advances r) _ _ _ _ _) in He; [done| |done]. clear.
  intros k r1 r2 next H1. unfold rearm_expand. destruct (node r1 k); [|by intros [= <- _]].
  destruct (_ && _); intros [= <- _]; [|done]. etrans; [exact H1|apply advances_update].
Qed.

Lemma advances_abort id r r' : abort_pending id r = Some r' -> advances r r'.
Proof.
  unfold abort_pending. destruct (rearm_discarded_effect id r) as [r1|] eqn:H1; [|done]. cbn [mbind option_bind].
  intros H2%advances_rearm. etrans; [apply (advances_rearm [id]); cbn; by rewrite H1|]. etrans; [|exact H2]. clear.
  generalize (base.filter (live r1) (pending r1)) as l. intros l.
  trans (foldr (fun id => update_node id (set_queued false)) r1 l); [|by apply advances_same].
  induction l as [|x l IH]; [done|]. cbn. etrans; [exact IH|apply advances_update].
Qed.

Lemma advances_pop r next r' : pop_pending r = (next, r') -> advances r r'.
Proof.
  unfold pop_pending. generalize (pending r) as q. induction q as [|id q IH]; cbn.
  - intros [= _ <-]. by apply advances_same.
  - destruct (node r id); [|exact IH]. intros [= _ <-]. etrans; [apply advances_update|by apply advances_same].
Qed.

Lemma advances_detach id n r : advances r (detach id n r).
Proof.
  unfold detach. etrans; [|apply advances_updates]. etrans; [|apply advances_updates].
  destruct (owner n) as [o|]; [|by apply advances_same]. etrans; [|apply advances_update]. by apply advances_same.
Qed.

Lemma advances_collect ids r b r' b' : collect_all ids r b = Some (r', b') -> advances r r'.
Proof.
  revert r b. induction ids as [|id ids IH]; intros r b; [by intros [= <- _]|]. cbn [collect_all].
  destruct (collect_disposal id r b) as [[r1 b1]|] eqn:Hd; [|done]. intros H2. etrans; [|by eapply IH]. clear -Hd.
  unfold collect_disposal in Hd. revert Hd. generalize (collect_fuel r 1) as fuel, [Visit (V := V) id] as tasks. intros fuel.
  revert r b. induction fuel as [|fuel IH]; intros r b tasks Hc; [done|]. cbn in Hc.
  destruct tasks as [|[x|n cs] tasks]; [by injection Hc as <- _| |by eapply IH].
  destruct (take_node x r) as [[n r2]|] eqn:Ht; [|by eapply IH].
  etrans; [by eapply advances_take|]. etrans; [apply advances_detach|]. by eapply IH.
Qed.

Lemma advances_publish id n f v r : advances r (publish_frame id n f v r).
Proof.
  unfold publish_frame. etrans; [|apply advances_update]. etrans; [|apply advances_updates].
  etrans; [|apply advances_updates]. apply advances_update.
Qed.

Lemma commit_parts id f v changed r r' b :
  commit_computation id f v changed r = Some (r', b) ->
  exists n r2 b', node r id = Some n /\
    (r2 = publish_frame id n f v r \/ exists c force, mark_subscribers_with_force id c force (publish_frame id n f v r) = Some r2) /\
    collect_all (reverse (owned n)) r2 empty_batch = Some (r', b').
Proof.
  unfold commit_computation. destruct (node r id) as [n|]; [|done]. cbn [mbind option_bind]. intros Hc.
  destruct (bool_decide (kind n = Memo) && _).
  - destruct (mark_subscribers_with_force _ _ _ _) as [r2|] eqn:Hm; [|done]. cbn [mbind option_bind] in Hc.
    destruct (collect_all _ r2 _) as [[r3 b3]|] eqn:Hcol; [|done]. injection Hc as <- _. exists n, r2, b3.
    split_and!; [done|right; by eexists _, _|done].
  - cbn [mbind option_bind] in Hc. destruct (collect_all _ _ _) as [[r3 b3]|] eqn:Hcol; [|done]. injection Hc as <- _.
    exists n. eexists _, _. split_and!; [done|by left|done].
Qed.

Lemma step_advances r r' : step r r' -> advances r r'.
Proof.
  intros Hs. destruct Hs as [| | | | | |r n id r' _ _ _ Ha|r id c force r' Hm|r next r' Hp|r id r' Ha|r ids b r' b' Hc|r id f v ch r' b _ _ Hc].
  - by apply advances_same.
  - apply advances_update.
  - by apply advances_same.
  - by apply advances_same.
  - by apply advances_same.
  - by apply advances_same.
  - by eapply advances_allocate.
  - by eapply advances_mark.
  - by eapply advances_pop.
  - by eapply advances_abort.
  - by eapply advances_collect.
  - apply commit_parts in Hc as (n & r2 & b' & _ & Hm & Hcol). etrans; [apply (advances_publish id n f v)|].
    etrans; [|by eapply advances_collect]. destruct Hm as [->|(c & force & Hm)]; [done|by eapply advances_mark].
Qed.

(** ** Each step respects the frames and the graph *)

Lemma rearm_all_frames l r r' : rearm_all l r = Some r' -> frames r' = frames r.
Proof.
  revert r. induction l as [|x l IH]; intros r; [by intros [= <-]|]. cbn [rearm_all].
  destruct (rearm_discarded_effect x r) as [r1|] eqn:H1; [|done]. intros H2. rewrite (IH _ H2). revert H1.
  unfold rearm_discarded_effect. destruct (explore _ _ _ _ _) as [| |s] eqn:He; [done|done|]. intros [= <-].
  apply (explore_state _ (fun r2 => frames r2 = frames r) _ _ _ _ _) in He; [done| |done]. clear.
  intros k r1 r2 next H1. unfold rearm_expand. destruct (node r1 k); [|by intros [= <- _]].
  destruct (_ && _); intros [= <- _]; [by rewrite frames_update|done].
Qed.

Lemma abort_frames id r r' : abort_pending id r = Some r' -> frames r' = frames r.
Proof.
  unfold abort_pending. destruct (rearm_discarded_effect id r) as [r1|] eqn:H1; [|done]. cbn [mbind option_bind].
  intros H2%rearm_all_frames. assert (H3 : frames r1 = frames r) by (apply (rearm_all_frames [id]); cbn; by rewrite H1).
  rewrite H2, <-H3. cbn. generalize (base.filter (live r1) (pending r1)) as l. intros l.
  induction l as [|x l IH]; [done|]. cbn. by rewrite frames_update.
Qed.

Lemma pop_frames r next r' : pop_pending r = (next, r') -> frames r' = frames r.
Proof.
  unfold pop_pending. generalize (pending r) as q. induction q as [|id q IH]; cbn; [by intros [= _ <-]|].
  destruct (node r id); [|exact IH]. intros [= _ <-]. apply frames_update.
Qed.

Lemma detach_frames id n r : frames_ok r -> frames_ok (detach id n r).
Proof.
  intros Hr. unfold frames_ok, detach. rewrite !(frames_updates (fun s => s)).
  assert (Hmap : Forall frame_ok (map (fun f => mkFrame (frame_observer f) (frame_sources f) (without id (frame_owned f))
                                                  (frame_cleanups f)) (frames r))) by (apply Forall_fmap; exact Hr).
  destruct (owner n); [rewrite frames_update|]; exact Hmap.
Qed.

Lemma collect_frames ids r b r' b' : frames_ok r -> collect_all ids r b = Some (r', b') -> frames_ok r'.
Proof.
  revert r b. induction ids as [|id ids IH]; intros r b Hr; [by intros [= <- _]|]. cbn [collect_all].
  destruct (collect_disposal id r b) as [[r1 b1]|] eqn:Hd; [|done]. intros H2. eapply IH; [|exact H2]. clear -Hd Hr.
  unfold collect_disposal in Hd. revert Hd. generalize (collect_fuel r 1) as fuel, [Visit (V := V) id] as tasks. intros fuel.
  revert r b Hr. induction fuel as [|fuel IH]; intros r b Hr tasks Hc; [done|]. cbn in Hc.
  destruct tasks as [|[x|n cs] tasks]; [by injection Hc as <- _| |by eapply IH].
  destruct (take_node x r) as [[n r2]|] eqn:Ht; [|by eapply IH]. eapply IH; [|exact Hc]. apply detach_frames.
  unfold take_node in Ht. destruct (node r x); [|done]. injection Ht as _ <-. by destruct (checked_add_u32 _ _).
Qed.

Lemma step_frames_ok r r' : step r r' -> frames_ok r -> frames_ok r'.
Proof.
  intros Hs Hr. unfold frames_ok in *.
  destruct Hs as [r r' _ _ Hf _|r id f _|r id o w|r f fs Hf|r f fs s Hf Hne Hin|r f fs o c Hf|r n id r' _ _ _ Ha|r id c force r' Hm
                 |r next r' Hp|r id r' Ha|r ids b r' b' Hc|r id f v ch r' b _ _ Hc].
  - by rewrite Hf.
  - by rewrite frames_update.
  - cbn. constructor; [|done]. split; [apply NoDup_nil_2|apply not_elem_of_nil].
  - rewrite Hf in Hr. by apply Forall_cons in Hr as [_ ?].
  - rewrite Hf in Hr. apply Forall_cons in Hr as [[Hnd Ho] Hr]. cbn. constructor; [|done]. split; cbn.
    + apply NoDup_app. split_and!; [done| |apply NoDup_singleton]. by intros x Hx ->%list_elem_of_singleton.
    + set_solver.
  - rewrite Hf in Hr. apply Forall_cons in Hr as [? Hr]. cbn. by constructor.
  - assert (Hf : frames r' = frames r); [|by rewrite Hf]. unfold allocate_node in Ha. destruct (free r).
    + destruct (u32_max <? _); [done|]. by injection Ha as _ <-.
    + destruct (_ <$> _); [|done]. cbn in Ha. by injection Ha as _ <-.
  - apply mark_marked in Hm as [Hm _]. injection Hm as _ _ _ Hf _ _ _. by rewrite Hf.
  - by rewrite (pop_frames _ _ _ Hp).
  - by rewrite (abort_frames _ _ _ Ha).
  - by eapply collect_frames.
  - apply commit_parts in Hc as (n & r2 & b' & _ & Hm & Hcol). eapply collect_frames; [|exact Hcol].
    assert (Hp : frames (publish_frame id n f v r) = frames r).
    { unfold publish_frame, subscribe. by rewrite frames_update, !(frames_updates (fun s => s)), frames_update. }
    unfold frames_ok. destruct Hm as [->|(c & force & [Hm _]%mark_marked)]; [by rewrite Hp|].
    injection Hm as _ _ _ Hf _ _ _. by rewrite Hf, Hp.
Qed.

(** The whole structure: the arena, the frames and the graph. *)
Definition structure_ok r : Prop := arena_ok r /\ frames_ok r /\ graph_ok r.

Lemma step_structure r r' : step r r' -> structure_ok r -> structure_ok r'.
Proof.
  intros Hs (Ha & Hf & G). split_and!; [by apply (step_advances _ _ Hs)|by apply (step_frames_ok _ _ Hs)|].
  destruct Hs as [r r' Hs _ _ Hp|r id f Hv| | | | |r n id r' H1 H2 H3 Hal|r id c force r' Hm|r next r' Hp|r id r' Hab
                 |r ids b r' b' Hc|r id f v ch r' b [Hnd Ho] <- Hc];
    try (apply (same_graph_ok r); [by split|done]).
  - apply (same_graph_ok r); [|done]. split; [done|]. intros x. unfold node. by rewrite Hs.
  - apply (same_graph_ok r); [|done]. by apply same_graph_update.
  - by eapply allocate_ok.
  - by eapply mark_ok.
  - by eapply pop_pending_ok.
  - by eapply abort_pending_ok.
  - by eapply collect_all_ok.
  - by eapply commit_graph_ok.
Qed.

Lemma steps_structure r r' : rtc step r r' -> structure_ok r -> structure_ok r'.
Proof. induction 1 as [|r1 r2 r3 Hs _ IH]; [done|]. intros Hr. by apply IH, (step_structure _ _ Hs). Qed.

Lemma steps_advance r r' : rtc step r r' -> advances r r'.
Proof. induction 1 as [|r1 r2 r3 Hs _ IH]; [done|]. etrans; [by apply step_advances|done]. Qed.

End steps.

(** ** Procedures are sequences of steps *)

Section machine.
Context {V : Type}.
Implicit Types (r : Runtime V) (id : NodeId).

(** From a runtime whose frames are in order, [x] takes steps, however it ends, and
    a value it returns satisfies [Q]. *)
Definition steps_to {A} (x : M V A) (Q : A -> Prop) : Prop :=
  forall m o m', frames_ok (rt m) -> x m = Some (o, m') -> rtc step (rt m) (rt m') /\ forall a, o = Done a -> Q a.

Definition anything {A} (a : A) : Prop := True.

Lemma steps_frames r r' : rtc step r r' -> frames_ok r -> frames_ok r'.
Proof. induction 1 as [|r1 r2 r3 Hs _ IH]; [done|]. intros Hr. by apply IH, (step_frames_ok _ _ Hs). Qed.

Lemma st_ret {A} (a : A) (Q : A -> Prop) : Q a -> steps_to (mret a) Q.
Proof. intros HQ m o m' _ [= <- <-]. split; [done|]. by intros b [= <-]. Qed.

Lemma st_ret_any {A} (a : A) : steps_to (mret a) anything.
Proof. by apply st_ret. Qed.

Lemma st_bind {A B} (x : M V A) (f : A -> M V B) P Q :
  steps_to x P -> (forall a, P a -> steps_to (f a) Q) -> steps_to (x ≫= f) Q.
Proof.
  intros Hx Hf m o m' Hr H. unfold mbind, m_bind in H. destruct (x m) as [[[a|p|] m1]|] eqn:Hm; [| | |done].
  - destruct (Hx _ _ _ Hr Hm) as [H1 HP]. destruct (Hf a (HP a eq_refl) m1 o m') as [H2 HQ]; [by eapply steps_frames|done|].
    split; [by etrans|done].
  - injection H as <- <-. split; [by eapply Hx|done].
  - injection H as <- <-. split; [by eapply Hx|done].
Qed.

Lemma st_weaken {A} (x : M V A) (P Q : A -> Prop) : steps_to x P -> (forall a, P a -> Q a) -> steps_to x Q.
Proof. intros Hx HPQ m o m' Hr H. destruct (Hx m o m' Hr H) as [Hs HP]. split; [done|auto]. Qed.

Lemma st_any {A} (x : M V A) Q : steps_to x Q -> steps_to x anything.
Proof. intros Hx. by eapply st_weaken. Qed.

Lemma st_fmap {A B} (f : A -> B) (x : M V A) : steps_to x anything -> steps_to (f <$> x) anything.
Proof. intros Hx. eapply st_bind; [exact Hx|]. intros a _. by apply st_ret. Qed.

Lemma st_panic {A} p (Q : A -> Prop) : steps_to (panic p) Q.
Proof. by intros m o m' _ [= <- <-]. Qed.

Lemma st_abort {A} (Q : A -> Prop) : steps_to abort Q.
Proof. by intros m o m' _ [= <- <-]. Qed.

Lemma st_stuck {A} (Q : A -> Prop) : steps_to stuck Q.
Proof. by intros m o m' _ H. Qed.

Lemma st_read {A} (f : Runtime V -> A) : steps_to (read f) anything.
Proof. by intros m o m' _ [= <- <-]. Qed.

Lemma st_expect {A} e (x : option A) : steps_to (expect e x) anything.
Proof. destruct x; [by apply st_ret|apply st_panic]. Qed.

Lemma st_assert b e : steps_to (assert b e : M V unit) anything.
Proof. destruct b; [by apply st_ret|apply st_panic]. Qed.

Lemma st_assign (f : Runtime V -> Runtime V) : (forall r, step r (f r)) -> steps_to (assign f) anything.
Proof. intros Hf m o m' _ [= <- <-]. split; [by apply rtc_once|done]. Qed.

Lemma st_attempt {A} (f : Runtime V -> option (Runtime V * A)) :
  (forall r r' a, f r = Some (r', a) -> rtc step r r') -> steps_to (attempt f) anything.
Proof. intros Hf m o m' _ H. unfold attempt in H. destruct (f (rt m)) as [[r a]|] eqn:Hr; [|done]. injection H as <- <-. split; [by eapply Hf|done]. Qed.

(** What a caught computation returned. *)
Definition returned {A} (Q : A -> Prop) (r : result string A) : Prop := match r with Ok a => Q a | Err _ => True end.

Lemma st_catch {A} (x : M V A) Q : steps_to x Q -> steps_to (catch x) (returned Q).
Proof.
  intros Hx m o m' Hr H. unfold catch in H. destruct (x m) as [[[a|p|] m1]|] eqn:Hm; [| | |done];
    injection H as <- <-; destruct (Hx _ _ _ Hr Hm) as [Hs HQ]; (split; [done|]); intros r [= <-]; cbn; auto.
Qed.

Lemma st_resume {A} (r : result string A) : steps_to (resume r : M V A) anything.
Proof. destruct r; [by apply st_ret|apply st_panic]. Qed.

(** Bookkeeping and silent updates. *)
Lemma st_set (f : Runtime V -> Runtime V) :
  (forall r, slots (f r) = slots r /\ free (f r) = free r /\ frames (f r) = frames r /\ pending (f r) = pending r) ->
  steps_to (assign f) anything.
Proof. intros Hf. apply st_assign. intros r. destruct (Hf r) as (? & ? & ? & ?). by apply step_bookkeeping. Qed.

Lemma st_update id (f : Node V -> Node V) : silent f -> steps_to (assign (update_node id f)) anything.
Proof. intros Hf. apply st_assign. intros r. by apply step_update. Qed.

Lemma st_silent_attempt {A} (f : Runtime V -> option A) :
  steps_to (attempt (fun r => a ← f r; Some (r, a))) anything.
Proof. apply st_attempt. intros r r' a. destruct (f r); [|done]. by intros [= <- _]. Qed.

Lemma st_collect ids b0 : steps_to (attempt (fun r => collect_all ids r b0)) anything.
Proof. apply st_attempt. intros r r' b H. apply rtc_once. by eapply step_collect. Qed.

Lemma st_collect_one id b0 : steps_to (attempt (fun r => collect_disposal id r b0)) anything.
Proof.
  apply st_attempt. intros r r' b H. apply rtc_once, (step_collect r [id] b0 r' b). cbn [collect_all]. by rewrite H.
Qed.

End machine.

(** The rules, and the two forms of primitive step. *)
Ltac st_side := first [done | by intros ?; split_and! | by intros []].

Ltac st_one :=
  match goal with
  | |- steps_to (mbind _ _) _ => eapply st_bind; [|intros ? ?]
  | |- steps_to (mret _) _ => first [apply st_ret_any | apply st_ret; done]
  | |- steps_to (panic _) _ => apply st_panic
  | |- steps_to abort _ => apply st_abort
  | |- steps_to stuck _ => apply st_stuck
  | |- steps_to (read _) _ => apply st_read
  | |- steps_to (expect _ _) _ => apply st_expect
  | |- steps_to (assert _ _) _ => apply st_assert
  | |- steps_to (catch _) _ => eapply st_catch
  | |- steps_to (resume _) _ => apply st_resume
  | |- steps_to (fmap _ _) _ => apply st_fmap
  | |- steps_to (assign (update_node _ _)) _ => apply st_update; st_side
  | |- steps_to (assign _) _ => apply st_set; st_side
  | |- steps_to (attempt (fun r => collect_all _ _ _)) _ => apply st_collect
  | |- steps_to (attempt (fun r => collect_disposal _ _ _)) _ => apply st_collect_one
  | |- steps_to (attempt (fun r => mbind _ _)) _ => apply st_silent_attempt
  | |- steps_to (if ?b then _ else _) _ => destruct b
  | |- steps_to (match ?x with _ => _ end) _ => destruct x
  end.

Create HintDb steps.
Ltac st := repeat first [solve [eauto with steps] | st_one | solve [eapply st_any; eauto with steps]].

Section procedures.
Context {V : Type}.
Implicit Types (r : Runtime V) (id : NodeId) (f : ComputationFrame V).

Lemma st_batch_enter : steps_to (V := V) batch_enter anything.
Proof. unfold batch_enter. st. Qed.

Lemma st_batch_leave : steps_to (V := V) batch_leave anything.
Proof. unfold batch_leave. st. Qed.

Lemma st_untracked {A} (x : M V A) : steps_to x anything -> steps_to (untracked x) anything.
Proof. intros Hx. unfold untracked. st. Qed.

Lemma st_update_frame missing mismatch id g :
  (forall r f fs, frames r = f :: fs -> frame_observer f = id -> step r (set_frames (g f :: fs) r)) ->
  steps_to (update_frame missing mismatch id g) anything.
Proof.
  intros Hg m o m' _ H. unfold update_frame, read, mbind, m_bind in H. destruct (frames (rt m)) as [|f fs] eqn:Hf.
  - by injection H as <- <-.
  - unfold assert in H. destruct (bool_decide (frame_observer f = id)) eqn:Ho.
    + apply bool_decide_eq_true in Ho. injection H as <- <-. split; [|done]. apply rtc_once. by apply Hg.
    + by injection H as <- <-.
Qed.

Lemma st_track source : steps_to (V := V) (track source) anything.
Proof.
  unfold track. eapply st_bind; [apply st_read|]. intros [obs|] _; [|st]. eapply st_bind; [apply st_read|]. intros alive _.
  destruct (bool_decide (obs = source)) eqn:Ho; cbn [orb]; [st|]. destruct (negb alive); [st|].
  apply bool_decide_eq_false in Ho. apply st_update_frame. intros r f fs Hf Hof. unfold add_source.
  destruct (bool_decide (source ∈ frame_sources f)) eqn:Hin.
  - replace f with (mkFrame (frame_observer f) (frame_sources f) (frame_owned f) (frame_cleanups f)) at 1 by by destruct f.
    by apply step_frame.
  - apply bool_decide_eq_false in Hin. apply step_track; [done|congruence|done].
Qed.

Lemma st_enter id : steps_to (V := V) (enter_computation id) anything.
Proof. unfold enter_computation. st. apply st_assign. intros r. apply step_enter. Qed.

Definition frame_of id f : Prop := frame_ok f /\ frame_observer f = id.

Lemma st_pop_frame id g : steps_to (V := V) (pop_frame id g) (frame_of id).
Proof.
  intros m o m' Hr H. unfold pop_frame, read, mbind, m_bind, assign, assert in H. unfold frames_ok in Hr.
  destruct (frames (rt m)) as [|f fs] eqn:Hf; [by injection H as <- <-|].
  pose proof (step_leave _ _ _ Hf) as Hleave. apply Forall_cons in Hr as [Hok Hr].
  destruct (bool_decide (frame_observer f = id)) eqn:Ho.
  - apply bool_decide_eq_true in Ho. injection H as <- <-. split; [|by intros a [= <-]].
    eapply rtc_l; [exact Hleave|]. apply rtc_once. by apply step_bookkeeping.
  - injection H as <- <-. split; [by apply rtc_once|done].
Qed.

Lemma st_finish id g : steps_to (V := V) (finish_computation id g) (frame_of id).
Proof.
  unfold finish_computation. eapply st_bind; [apply st_pop_frame|]. intros f Hf. st.
Qed.

Lemma st_rollback id g : steps_to (V := V) (take_rollback id g) anything.
Proof. unfold take_rollback. eapply st_bind; [apply st_pop_frame|]. intros f Hf. st. Qed.

(** A node without edges. *)
Definition unlinked (n : Node V) : Prop := sources n = [] /\ subscribers n = [] /\ queued n = false.

Lemma st_allocate n : unlinked n -> steps_to (allocate n) anything.
Proof.
  intros (Hs & Hb & Hq) m o m' _ H. unfold allocate in H. destruct (allocate_node n (rt m)) as [[id r]|] eqn:Ha.
  - injection H as <- <-. split; [|done]. apply rtc_once. by eapply step_allocate.
  - by injection H as <- <-.
Qed.

Lemma st_add_node n : unlinked n -> steps_to (add_node n) anything.
Proof.
  intros Hn. unfold add_node. eapply st_bind; [apply st_read|]. intros w _. eapply st_bind; [by apply st_allocate|].
  intros id _. eapply (st_bind _ _ anything); [|intros ? _; st]. destruct w as [w|]; [|st]. apply st_update_frame.
  intros r f fs Hf _. by apply step_frame.
Qed.

Lemma st_add_owned_node n w : unlinked n -> steps_to (add_owned_node n w) anything.
Proof. intros Hn. unfold add_owned_node. st; try by apply st_allocate. Qed.

Lemma st_install n w : unlinked n -> steps_to (install n w) anything.
Proof. intros Hn. destruct w; [by apply st_add_owned_node|by apply st_add_node]. Qed.

Lemma st_stable_value a b id : steps_to (V := V) (stable_value a b id) anything.
Proof. unfold stable_value. st. Qed.

Lemma st_on_cleanup c : steps_to (V := V) (on_cleanup c) anything.
Proof.
  unfold on_cleanup. eapply st_bind; [apply st_read|]. intros [w|] _; [|st]. apply st_update_frame.
  intros r f fs Hf _. by apply step_frame.
Qed.

Lemma st_ensure_alive id : steps_to (V := V) (ensure_alive id) anything.
Proof. unfold ensure_alive. st. Qed.

Lemma st_adopt w e : steps_to (V := V) (adopt_effect w e) anything.
Proof. unfold adopt_effect. st. Qed.

Lemma st_write_allowed id : steps_to (V := V) (assert_signal_write_allowed id) anything.
Proof. unfold assert_signal_write_allowed. st. Qed.

Lemma st_mark id c : steps_to (V := V) (mark id c) anything.
Proof.
  apply st_attempt. intros r r' a. destruct (mark_subscribers id c r) as [r1|] eqn:Hm; [|done]. intros [= <- _].
  apply rtc_once. by eapply step_mark.
Qed.

#[local] Hint Resolve st_batch_enter st_batch_leave st_untracked st_track st_enter st_rollback st_stable_value
  st_on_cleanup st_ensure_alive st_adopt st_write_allowed st_mark : steps.

Lemma st_replace_value id v : steps_to (V := V) (replace_value id v) anything.
Proof. unfold replace_value. st. Qed.

Lemma st_enter_update id : steps_to (V := V) (enter_update id) anything.
Proof. unfold enter_update. st. Qed.

Lemma st_publish_value id v : steps_to (V := V) (publish_value id v) anything.
Proof. unfold publish_value. st. Qed.

End procedures.

#[export] Hint Resolve st_batch_enter st_batch_leave st_untracked st_track st_enter st_rollback st_stable_value
  st_on_cleanup st_ensure_alive st_adopt st_write_allowed st_mark st_replace_value st_enter_update st_publish_value : steps.

Section interpreter.
Context {V : Type} (fuel : nat) (run : Prog V -> M V V) (flush_again : M V unit).
Context (Hrun : forall p, steps_to (run p) anything) (Hflush : steps_to flush_again anything).

#[local] Hint Resolve Hrun Hflush : steps.

Lemma st_run_cleanups cs first : steps_to (run_cleanups run cs first) anything.
Proof. revert first. induction cs as [|c cs IH]; intros first; cbn [run_cleanups]; [st|]. st; try apply IH. Qed.

Lemma st_run_disposal b : steps_to (run_disposal run b) anything.
Proof. apply st_untracked, st_run_cleanups. Qed.

Lemma st_take_ready queued : steps_to (V := V) (take_ready fuel queued) anything.
Proof.
  induction queued as [|queued IH]; cbn [take_ready]; [st|]. st.
Qed.

#[local] Hint Resolve st_run_cleanups st_run_disposal st_take_ready : steps.

Lemma st_drain : steps_to (drain_deferred_disposals fuel run) anything.
Proof.
  unfold drain_deferred_disposals. generalize fuel at 2 as n, (None : option string) as first. intros n.
  induction n as [|n IH]; intros first; cbn [drain_deferred_loop]; [st|]. st; try apply IH.
Qed.

#[local] Hint Resolve st_drain : steps.

Lemma st_retire b : steps_to (retire fuel run b) anything.
Proof. unfold retire. st. Qed.

Lemma st_preserving {A} p b (Q : A -> Prop) : steps_to (flush_while_preserving flush_again p b) Q.
Proof. unfold flush_while_preserving. eapply (st_bind _ _ anything); [|intros; apply st_panic]. destruct b; [eapply st_any, st_catch; st|st]. Qed.

#[local] Hint Resolve st_retire st_preserving : steps.

Lemma st_end_batch p : steps_to (end_batch flush_again p) anything.
Proof. unfold end_batch. st. Qed.

Lemma st_drop_guard id g : steps_to (drop_computation_guard fuel run id g) anything.
Proof. unfold drop_computation_guard. st. Qed.

#[local] Hint Resolve st_end_batch st_drop_guard : steps.

Lemma st_evaluate f v e : steps_to (evaluate run f v e) anything.
Proof. unfold evaluate. st. Qed.

Lemma st_commit id (f : ComputationFrame V) v changed : frame_of id f -> steps_to (commit id f v changed) anything.
Proof.
  intros [Hok Ho]. unfold commit. st. apply st_attempt. intros r r' b Hc. apply rtc_once. by eapply step_commit.
Qed.

Lemma st_succeed id g v changed : steps_to (succeed_computation fuel run flush_again id g v changed) anything.
Proof.
  unfold succeed_computation. eapply st_bind; [eapply st_catch, st_finish|]. intros [f|p] Hf; [|st].
  eapply st_bind; [by apply st_commit|]. intros b _. st.
Qed.

Lemma st_fail id k g p : steps_to (fail_computation fuel run flush_again id k g p) anything.
Proof. unfold fail_computation. st. Qed.

#[local] Hint Resolve st_evaluate st_succeed st_fail : steps.

Lemma st_run_computation id : steps_to (run_computation fuel run flush_again id) anything.
Proof. unfold run_computation. st. Qed.

#[local] Hint Resolve st_run_computation : steps.

Lemma st_update_if_necessary id : steps_to (update_if_necessary fuel run flush_again id) anything.
Proof.
  unfold update_if_necessary. st. generalize fuel at 2 as count. intros count.
  match goal with |- steps_to (pull _ _ _ _ ?st ?ac) _ => generalize st, ac end.
  induction count as [|count IH]; intros stack active; cbn [pull]; st; try apply IH.
Qed.

#[local] Hint Resolve st_update_if_necessary : steps.

Lemma st_pop : steps_to (V := V) (attempt (fun r => let '(x, r) := pop_pending r in Some (r, x))) anything.
Proof.
  apply st_attempt. intros r r' x. destruct (pop_pending r) as [y r1] eqn:Hp. intros [= <- _]. apply rtc_once. by eapply step_pop.
Qed.

Lemma st_abort_pending id : steps_to (V := V) (attempt (fun r => r ← abort_pending id r; Some (r, ()))) anything.
Proof.
  apply st_attempt. intros r r' x. destruct (abort_pending id r) as [r1|] eqn:Hp; [|done]. intros [= <- _].
  apply rtc_once. by eapply step_abort.
Qed.

#[local] Hint Resolve st_pop st_abort_pending : steps.

Lemma st_flush_effects : steps_to (flush_effects fuel run flush_again) anything.
Proof.
  unfold flush_effects. st. generalize fuel at 2 as n, 0 as executions, (None : option string) as first. intros n.
  induction n as [|n IH]; intros executions first; cbn [flush_loop]; st; try apply IH.
Qed.

Lemma st_memo_get id : steps_to (memo_get fuel run flush_again id) anything.
Proof. unfold memo_get. st. Qed.

Lemma st_memo_try_get id : steps_to (memo_try_get fuel run flush_again id) anything.
Proof. unfold memo_try_get. st. Qed.

Lemma st_signal_set id v : steps_to (signal_set flush_again id v) anything.
Proof. unfold signal_set. st. Qed.

Lemma st_signal_update id f : steps_to (signal_update fuel run flush_again id f) anything.
Proof. unfold signal_update, lost_signal. st. Qed.

Lemma st_dispose id : steps_to (dispose fuel run flush_again id) anything.
Proof. unfold dispose. st. Qed.

Lemma st_dispose_owner id : steps_to (dispose_owner fuel run flush_again id) anything.
Proof. unfold dispose_owner, defer_owner_disposal. st. Qed.

#[local] Hint Resolve st_memo_get st_memo_try_get st_signal_set st_signal_update st_dispose st_dispose_owner : steps.

Lemma st_effect_install f w : steps_to (effect_install fuel run flush_again f w) anything.
Proof. unfold effect_install. eapply st_bind; [by apply st_install|]. intros id _. st. Qed.

Lemma st_in_owner w (x : M V NodeId) : steps_to x anything -> steps_to (in_owner w x) anything.
Proof. intros Hx. unfold in_owner. st. Qed.

Lemma st_api o : steps_to (api fuel run flush_again o) anything.
Proof.
  destruct o; cbn [api]; try (apply st_in_owner); try apply st_fmap; st;
    first [by apply st_install | by apply st_allocate | by apply st_add_owned_node | apply st_effect_install | idtac].
  unfold signal_get. st.
Qed.

Lemma st_run_step p : steps_to (run_step fuel run flush_again p) anything.
Proof.
  destruct p as [v|payload|v k|o k]; cbn [run_step]; [st|st| |].
  - eapply (st_bind _ _ anything); [by intros m r m' _ [= <- <-]|]. intros _ _. apply Hrun.
  - eapply st_bind; [apply st_api|]. intros x _. apply Hrun.
Qed.

End interpreter.

Lemma interp_steps {V} fuel :
  (forall p, steps_to ((interp (V := V) fuel).1 p) anything) /\ steps_to (interp (V := V) fuel).2 anything.
Proof.
  induction fuel as [|fuel [IHr IHf]]; [split; [intros p|]; apply st_stuck|]. cbn [interp].
  destruct (interp fuel) as [run flush]. split; [intros p; by apply st_run_step|by apply st_flush_effects].
Qed.

(** A closure takes the runtime through a sequence of steps. *)
Lemma run_prog_steps {V} fuel (p : Prog V) m o m' :
  frames_ok (rt m) -> run_prog fuel p m = Some (o, m') -> rtc step (rt m) (rt m').
Proof. intros Hr H. destruct (interp_steps (V := V) fuel) as [Hs _]. by destruct (Hs p m o m' Hr H). Qed.

Lemma initial_structure {V} : structure_ok (default_runtime (V := V)).
Proof.
  split_and!; [split; [apply NoDup_nil_2|by intros s ?%not_elem_of_nil]|by apply Forall_nil|apply default_graph_ok].
Qed.

Lemma run_prog_structure {V} fuel (p : Prog V) m o m' :
  structure_ok (rt m) -> run_prog fuel p m = Some (o, m') -> structure_ok (rt m').
Proof. intros Hr H. eapply steps_structure; [|exact Hr]. eapply run_prog_steps; [apply Hr|exact H]. Qed.

(** ** Properties *)

(** C10. No user code breaks the graph: from a runtime whose arena, frames and graph
    are in order, a closure that runs to any end (a value, a panic, an abort) leaves
    them in order: every edge is recorded at both ends, no edge twice, no node reads
    itself, free slots are empty, and the queue holds exactly the effects flagged
    as queued, each once. *)
Theorem graph_is_invariant {V} fuel (p : Prog V) m o m' :
  structure_ok (rt m) -> run_prog fuel p m = Some (o, m') -> structure_ok (rt m').
Proof. apply run_prog_structure. Qed.

(** C15. A handle that stopped resolving never resolves again: if a handle is live
    before some user code and not after it, then no user code that runs later makes
    it live, whatever slots are reused. *)
Theorem stale_handles_stay_stale {V} fuel1 fuel2 (p1 p2 : Prog V) m m1 m2 o1 o2 id :
  structure_ok (rt m) ->
  run_prog fuel1 p1 m = Some (o1, m1) -> run_prog fuel2 p2 m1 = Some (o2, m2) ->
  live (rt m) id -> node (rt m1) id = None -> node (rt m2) id = None.
Proof.
  intros Hr H1 H2 Hl Hn. apply run_prog_steps in H1; [|apply Hr].
  pose proof (steps_structure _ _ H1 Hr) as Hr1. apply run_prog_steps in H2; [|apply Hr1].
  destruct (steps_advance _ _ H1) as [_ Ha1]. destruct (Ha1 (proj1 Hr) id) as [_ [Hbad|Hdead]]; [done|destruct Hbad; congruence|].
  destruct (steps_advance _ _ H2) as [_ Ha2]. by apply dead_not_live, (Ha2 (proj1 Hr1) id).
Qed.

(** ** Concrete programs *)

Module ReactiveSample.

Definition id_ (s : N) : NodeId := mkId s 0.

Definition get (i : NodeId) (k : N -> Prog N) : Prog N :=
  Call (SignalGet i) (fun r => match r with ValueReply v => k v | _ => Throw "reply" end).
Definition pull_ (i : NodeId) (k : N -> Prog N) : Prog N :=
  Call (MemoGet i) (fun r => match r with ValueReply v => k v | _ => Throw "reply" end).
Definition then_ (o : Op N) (k : Prog N) : Prog N := Call o (fun _ => k).

(** [gate_diamond_runs_effect_once]. *)
Definition diamond : Prog N :=
  then_ (SignalNew 1)
  (then_ (MemoNew (get (id_ 0) (fun v => Return (v * 2))) N.eqb)
  (then_ (MemoNew (get (id_ 0) (fun v => Return (v + 10))) N.eqb)
  (then_ (EffectNew (pull_ (id_ 1) (fun a => pull_ (id_ 2) (fun b => Emit (a + b) (Return 0)))))
  (then_ (SignalSet (id_ 0) 5) (Return 0))))).

Example diamond_runs_once : option_map (fun x => emitted x.2) (run_prog 40 diamond initial) = Some [2 + 11; 10 + 15].
Proof. vm_compute. reflexivity. Qed.

(** A memo in slot 2 that reads the memo that created it. *)
Definition reads_its_owner : Prog N :=
  then_ (SignalNew 1)
  (then_ (MemoNew (get (id_ 0) (fun v => then_ (MemoNew (pull_ (id_ 1) Return) N.eqb) (Return v))) N.eqb)
  (pull_ (id_ 1) (fun _ => then_ (SignalSet (id_ 0) 5) (pull_ (id_ 2) Return)))).

(** Its owner re-runs while it runs and disposes it; its guard then panics in its
    destructor and the process aborts. *)
Example running_memo_disposed_aborts : option_map fst (run_prog 40 reads_its_owner initial) = Some Aborted.
Proof. vm_compute. reflexivity. Qed.

(** Set up a signal and a memo, then dispose the memo, then create a signal in its
    slot. *)
Definition setup : Prog N :=
  then_ (SignalNew 1) (then_ (MemoNew (get (id_ 0) Return) N.eqb) (pull_ (id_ 1) Return)).
Definition drop_memo : Prog N := then_ (Dispose (id_ 1)) (Return 0).
Definition reuse : Prog N := then_ (SignalNew 7) (Return 0).

Definition after (p : Prog N) (m : Machine N) : Machine N := match run_prog 40 p m with Some (_, m) => m | None => m end.

End ReactiveSample.

Lemma graph_is_invariant_witness :
  structure_ok (rt (ReactiveSample.after ReactiveSample.diamond initial)).
Proof.
  apply (graph_is_invariant 40 ReactiveSample.diamond initial (Done 0)); [apply initial_structure|].
  vm_compute. reflexivity.
Defined.

Lemma stale_handles_stay_stale_witness :
  let m := ReactiveSample.after ReactiveSample.setup initial in
  let m1 := ReactiveSample.after ReactiveSample.drop_memo m in
  node (rt (ReactiveSample.after ReactiveSample.reuse m1)) (ReactiveSample.id_ 1) = None.
Proof.
  apply (stale_handles_stay_stale 40 40 ReactiveSample.drop_memo ReactiveSample.reuse
           (ReactiveSample.after ReactiveSample.setup initial)
           (ReactiveSample.after ReactiveSample.drop_memo (ReactiveSample.after ReactiveSample.setup initial)) _ (Done 0) (Done 0)).
  - apply (run_prog_structure 40 ReactiveSample.setup initial (Done 1)); [apply initial_structure|vm_compute; reflexivity].
  - vm_compute. reflexivity.
  - vm_compute. reflexivity.
  - vm_compute. by eexists.
  - vm_compute. reflexivity.
Defined.
