(* ===== verification/ReactivePure.v ===== *)
(** * ReactivePure: glitch freedom of the reactive graph

    A graph is pure when its memos and effects only read signals and memos, its
    effects also emit, and the comparisons of its memos decide equality. [meaning]
    is the reference: a memo is what its function computes from the present signals.
    The colours of the runtime stand for an invariant ([coherent]) that ties every
    stored value to the values it was computed from; [ReactiveSettle] shows that
    pulling and flushing restore it. *)

From S2P Require Import Prelude Reactive ReactiveRun ReactiveGraph.

(** ** What a pure program computes *)

Section reference.
Context {V : Type}.

(** The value, the reads and the output of a program when signals and memos have
    the values of [look]. *)
Fixpoint eval (look : NodeId -> option V) (p : Prog V) : option V :=
  match p with
  | Return v => Some v
  | Emit _ k => eval look k
  | Call (SignalGet id) k | Call (MemoGet id) k => v ← look id; eval look (k (ValueReply v))
  | _ => None
  end.

Fixpoint reads (look : NodeId -> option V) (p : Prog V) : list NodeId :=
  match p with
  | Emit _ k => reads look k
  | Call (SignalGet id) k | Call (MemoGet id) k =>
      id :: match look id with Some v => reads look (k (ValueReply v)) | None => [] end
  | _ => []
  end.

Fixpoint outputs (look : NodeId -> option V) (p : Prog V) : list V :=
  match p with
  | Emit v k => v :: outputs look k
  | Call (SignalGet id) k | Call (MemoGet id) k =>
      match look id with Some v => outputs look (k (ValueReply v)) | None => [] end
  | _ => []
  end.

(** The value a node stores. *)
Definition look (r : Runtime V) (id : NodeId) : option V := n ← node r id; value n.

(** The reference: recompute everything from the signals. *)
Fixpoint meaning (fuel : nat) (r : Runtime V) (id : NodeId) : option V :=
  match fuel with
  | O => None
  | S fuel =>
      n ← node r id;
      match kind n with
      | Signal => value n
      | Memo => p ← compute n; eval (meaning fuel r) p
      | Owner | Effect => None
      end
  end.

(** A program that reads [l] only depends on [look] there. *)
Lemma eval_ext look1 look2 p :
  (forall x, x ∈ reads look1 p -> look1 x = look2 x) ->
  eval look1 p = eval look2 p /\ reads look1 p = reads look2 p /\ outputs look1 p = outputs look2 p.
Proof.
  revert p. fix IH 1. intros [v|e|v k|o k] Hl; [done|done| |].
  - destruct (IH k Hl) as (H1 & H2 & H3). cbn. by rewrite H1, H2, H3.
  - destruct o; try done; cbn in *; rewrite <-(Hl id) by (by left);
      (destruct (look1 id) as [v|]; [|done]); cbn;
      (destruct (IH (k (ValueReply v))) as (H1 & H2 & H3); [intros x Hx; apply Hl; by right|]); by rewrite H1, H2, H3.
Qed.

End reference.

(** ** Pure graphs *)

Section pure.
Context {V : Type} (rk : NodeId -> nat) (sg : NodeId -> option (Kind * option (Prog V) * option (V -> V -> bool))).
Implicit Types (n : Node V) (r : Runtime V) (id x y : NodeId).

Definition is_kind (k : Kind) id : Prop := exists p e, sg id = Some (k, p, e).

Definition source_kind id : Prop := is_kind Signal id \/ is_kind Memo id.

(** [p] reads signals and memos of a rank below [b], and emits only if [out]. *)
Inductive pure (out : bool) (b : nat) : Prog V -> Prop :=
| pure_return v : pure out b (Return v)
| pure_emit v k : out = true -> pure out b k -> pure out b (Emit v k)
| pure_signal id k :
    (rk id < b)%nat -> is_kind Signal id -> (forall v, pure out b (k (ValueReply v))) -> pure out b (Call (SignalGet id) k)
| pure_memo id k :
    (rk id < b)%nat -> is_kind Memo id -> (forall v, pure out b (k (ValueReply v))) -> pure out b (Call (MemoGet id) k).

(** Ranks witness that no memo depends on itself. *)
Definition pure_graph : Prop :=
  forall id, match sg id with
             | Some (Memo, Some p, Some e) => pure false (rk id) p /\ forall a b, e a b = true <-> a = b
             | Some (Effect, Some p, None) => pure true (rk id) p
             | Some (Signal, None, None) | Some (Owner, None, None) | None => True
             | _ => False
             end.

Definition signature n := (kind n, compute n, eq_fn n).

(** A memo or an effect that is not dirty has run, and would do the same again. *)
Definition fresh r n : Prop :=
  exists p v, compute n = Some p /\ eval (look r) p = Some v /\ (kind n = Memo -> value n = Some v) /\
    forall x, x ∈ reads (look r) p -> x ∈ sources n.

Definition computed (k : Kind) : Prop := k = Memo \/ k = Effect.

(** The invariant of a pure graph between, and during, the runs of its nodes. *)
Record coherent r : Prop := {
  coherent_graph : graph_ok r;
  coherent_signature id : signature <$> node r id = sg id;
  coherent_quiet id n : node r id = Some n -> retry_notify n = false /\ updating n = false /\ owned n = [] /\ cleanups n = [];
  coherent_deferred : deferred_disposals r = [];
  coherent_signal id n : node r id = Some n -> kind n = Signal -> color n = Clean /\ sources n = [] /\ is_Some (value n);
  coherent_owner id n : node r id = Some n -> kind n = Owner -> color n = Clean /\ sources n = [];
  coherent_sources id n x : node r id = Some n -> x ∈ sources n -> source_kind x /\ (rk x < rk id)%nat;
  coherent_colors id n y m : node r id = Some n -> color n <> Clean -> y ∈ subscribers n -> node r y = Some m -> color m <> Clean;
  coherent_fresh id n : node r id = Some n -> computed (kind n) -> color n <> Dirty -> fresh r n }.

Lemma look_some r id n : node r id = Some n -> look r id = value n.
Proof. unfold look. by intros ->. Qed.

Lemma coherent_kind r id n : coherent r -> node r id = Some n -> is_kind (kind n) id.
Proof. intros C Hn. pose proof (coherent_signature _ C id) as Hs. rewrite Hn in Hs. by exists (compute n), (eq_fn n). Qed.

Lemma is_kind_inj k k' id : is_kind k id -> is_kind k' id -> k = k'.
Proof. intros (p & e & H1) (p' & e' & H2). congruence. Qed.

Lemma coherent_live r k id : coherent r -> is_kind k id -> exists n, node r id = Some n /\ kind n = k.
Proof.
  intros C (p & e & Hk). pose proof (coherent_signature _ C id) as Hs. rewrite Hk in Hs.
  destruct (node r id) as [n|]; [|done]. exists n. split; [done|]. by injection Hs.
Qed.

(** Effects and owners have no subscribers. *)
Lemma coherent_subscribers r id n y :
  coherent r -> node r id = Some n -> y ∈ subscribers n -> kind n = Signal \/ kind n = Memo.
Proof.
  intros C Hn Hy. destruct (subscriber_edge _ (coherent_graph _ C) id n y Hn Hy) as (m & Hm & Hin).
  destruct (coherent_sources _ C y m id Hm Hin) as [[Hk|Hk] _];
    [left|right]; (eapply is_kind_inj; [by eapply coherent_kind|done]).
Qed.

(** Stored values of clean memos are their meaning. *)
Lemma clean_sources r id n x m :
  coherent r -> node r id = Some n -> color n = Clean -> x ∈ sources n -> node r x = Some m -> color m = Clean.
Proof.
  intros C Hn Hc Hx Hm. destruct (source_edge _ (coherent_graph _ C) id n x Hn Hx) as (m' & Hm' & Hin).
  rewrite Hm in Hm'. injection Hm' as <-. destruct (decide (color m = Clean)) as [|Hne]; [done|].
  by destruct (coherent_colors _ C x m id n Hm Hne Hin Hn).
Qed.

Lemma pure_reads out b lk p x : pure out b p -> x ∈ reads lk p -> source_kind x /\ (rk x < b)%nat.
Proof.
  induction 1 as [v|v k Hout Hk IH|id k Hid Hsk Hk IH|id k Hid Hsk Hk IH]; cbn; intros Hx.
  - by apply not_elem_of_nil in Hx.
  - by apply IH.
  - apply elem_of_cons in Hx as [->|Hx]; [split; [by left|done]|]. destruct (lk id); [by eapply IH|by apply not_elem_of_nil in Hx].
  - apply elem_of_cons in Hx as [->|Hx]; [split; [by right|done]|]. destruct (lk id); [by eapply IH|by apply not_elem_of_nil in Hx].
Qed.

Lemma pure_silent b lk p : pure false b p -> outputs lk p = [].
Proof.
  induction 1 as [v|v k Hout Hk IH|id k Hid Hsk Hk IH|id k Hid Hsk Hk IH]; cbn; [done|done| |]; by destruct (lk id).
Qed.

Lemma clean_meaning r id n fuel :
  coherent r -> node r id = Some n -> source_kind id -> color n = Clean -> (rk id < fuel)%nat ->
  meaning fuel r id = value n.
Proof.
  intros C. revert id n. induction fuel as [|fuel IH]; intros id n Hn Hk Hc Hf; [lia|]. cbn. rewrite Hn. cbn.
  pose proof (coherent_kind _ _ _ C Hn) as Hkn. destruct Hk as [Hk|Hk]; rewrite (is_kind_inj _ _ _ Hkn Hk); [done|].
  pose proof (is_kind_inj _ _ _ Hkn Hk) as Hmemo.
  destruct (coherent_fresh _ C id n Hn) as (p & v & Hp & Hv & Hval & Hreads); [by left|by rewrite Hc|].
  rewrite Hp, (Hval Hmemo). cbn. rewrite <-Hv. symmetry. apply eval_ext. intros x Hx.
  pose proof (Hreads x Hx) as Hs. destruct (coherent_sources _ C id n x Hn Hs) as [Hxk Hrk].
  destruct (source_edge _ (coherent_graph _ C) id n x Hn Hs) as (m & Hm & _). rewrite (look_some _ _ _ Hm). symmetry.
  apply IH; [done|done| |lia]. exact (clean_sources r id n x m C Hn Hc Hs Hm).
Qed.

(** ** Marking in a coherent graph *)

(** The marking from [source] with [Dirty]: the stack, the visited keys and the
    state of its loop. [T] bounds what the marking can touch. *)
Record marking (r0 : Runtime V) (source : NodeId) (T : NodeId -> Prop) (stack : list (NodeId * Color * bool))
    (visited : gset (NodeId * Color * bool)) (r : Runtime V) : Prop := {
  marking_marked : marked r0 r;
  marking_stack y c f : (y, c, f) ∈ stack -> T y /\ f = false /\ (c = Check \/ c = Dirty /\ y ∈ from_option subscribers [] (node r0 source));
  marking_visited y c f m : (y, c, f) ∈ visited -> node r y = Some m -> color_rank c <= color_rank (color m);
  marking_direct y m : y ∈ from_option subscribers [] (node r0 source) -> node r y = Some m ->
    color m = Dirty \/ (y, Dirty, false) ∈ stack;
  marking_closed x n y m : node r x = Some n -> color n <> Clean -> y ∈ subscribers n -> node r y = Some m ->
    color m <> Clean \/ exists c f, (y, c, f) ∈ stack;
  marking_dirty y n m : node r0 y = Some n -> node r y = Some m -> color m = Dirty ->
    color n = Dirty \/ y ∈ from_option subscribers [] (node r0 source);
  marking_effect y n m : node r0 y = Some n -> node r y = Some m -> kind n = Effect -> color m <> color n -> queued m = true;
  marking_outside y : ~ T y -> node r y = node r0 y;
  marking_pending : exists l, pending r = (pending r0 ++ l)%list /\ forall x, x ∈ l -> T x }.

Lemma color_max_recolor c n : color (recolor c n) = if color_lt (color n) c then c else color n.
Proof. unfold recolor. by destruct (color_lt (color n) c). Qed.

Lemma color_clean_rank c : c <> Clean <-> 1 <= color_rank c.
Proof. destruct c; cbn; split; (done || lia). Qed.

Lemma recolor_ge c n : color_rank c <= color_rank (color (recolor c n)) /\ color_rank (color n) <= color_rank (color (recolor c n)).
Proof. rewrite color_max_recolor. unfold color_lt. destruct (N.ltb_spec (color_rank (color n)) (color_rank c)); lia. Qed.

(** One step of the marking on a live node that asks for no retry. *)
Lemma mark_step_shape y c r r' next n :
  node r y = Some n -> retry_notify n = false -> mark_expand (y, c, false) r = Some (r', next) ->
  exists n', node r' y = Some n' /\ (forall x, x <> y -> node r' x = node r x) /\
    color n' = color (recolor c n) /\ subscribers n' = subscribers n /\ kind n' = kind n /\
    (kind n = Effect -> queued n' = true) /\
    (exists l, pending r' = (pending r ++ l)%list /\ forall x, x ∈ l -> x = y) /\
    next = if bool_decide (kind n = Effect) then [] else
           if color_lt (color n) c then map (fun child => (child, Check, false)) (subscribers n) else [].
Proof.
  intros Hn Hr Hx%mark_expand_spec. rewrite Hn, Hr in Hx. rewrite orb_false_r in Hx. cbn [orb] in Hx.
  assert (H1 : node (update_node y (recolor c) r) y = Some (recolor c n)) by (by rewrite node_update, decide_True, Hn).
  assert (H2 : forall x, x <> y -> node (update_node y (recolor c) r) x = node r x).
  { intros x Hne. by rewrite node_update, decide_False. }
  assert (Hsub : subscribers (recolor c n) = subscribers n) by (unfold recolor; by destruct (color_lt _ _)).
  assert (Hkind : kind (recolor c n) = kind n) by (unfold recolor; by destruct (color_lt _ _)).
  destruct (bool_decide (kind n = Effect)) eqn:Hk; destruct Hx as [-> ->].
  - apply bool_decide_eq_true in Hk. unfold enqueue_effect. rewrite H1, Hkind, bool_decide_true by done. cbn [andb].
    destruct (queued (recolor c n)) eqn:Hq; cbn [negb].
    + exists (recolor c n). split_and!; try done. exists []. rewrite pending_update, app_nil_r. split; [done|by intros x ?%not_elem_of_nil].
    + exists (set_queued true (recolor c n)).
      assert (Hnode : forall x, node (set_pending (pending (update_node y (recolor c) r) ++ [y])%list
                 (update_node y (set_queued true) (update_node y (recolor c) r))) x
               = if decide (x = y) then Some (set_queued true (recolor c n)) else node r x).
      { intros x. change (node (set_pending ?p ?q) x) with (node q x). rewrite node_update, H1.
        destruct (decide (x = y)); [done|by apply H2]. }
      split_and!; try done; [by rewrite Hnode, decide_True|intros x Hne; by rewrite Hnode, decide_False|].
      exists [y]. cbn [pending set_pending]. rewrite pending_update. split; [done|by intros x ?%list_elem_of_singleton].
  - apply bool_decide_eq_false in Hk. exists (recolor c n). split_and!; try done. exists [].
    rewrite pending_update, app_nil_r. split; [done|by intros x ?%not_elem_of_nil].
Qed.

Lemma marking_skip r0 source T k stack visited r :
  k ∈ visited -> marking r0 source T (k :: stack) visited r -> marking r0 source T stack visited r.
Proof.
  intros Hk M. destruct M as [M1 M2 M3 M4 M5 M6 M7 M8 M9]. split; try done.
  - intros y c f Hin. apply M2. by right.
  - intros y m Hy Hm. destruct (M4 y m Hy Hm) as [|[Heq|]%elem_of_cons]; [by left| |by right].
    left. rewrite <-Heq in Hk. specialize (M3 _ _ _ _ Hk Hm). by destruct (color m).
  - intros x n y m Hn Hc Hy Hm. destruct (M5 x n y m Hn Hc Hy Hm) as [|(c & f & [Heq|]%elem_of_cons)]; [by left| |right; by exists c, f].
    left. rewrite <-Heq in Hk. specialize (M3 _ _ _ _ Hk Hm). destruct (M2 y c f) as (_ & _ & [->|[-> _]]); [rewrite Heq; by left| |];
      apply color_clean_rank; cbn in M3; lia.
Qed.

Section mark.
Context (r0 : Runtime V) (source : NodeId) (T : NodeId -> Prop).
Context (Hgraph : graph_ok r0) (Hretry : forall id n, node r0 id = Some n -> retry_notify n = false).
Context (Heffects : forall id n, node r0 id = Some n -> kind n = Effect -> subscribers n = []).
Context (HT : forall x n y, T x -> node r0 x = Some n -> y ∈ subscribers n -> T y).

Lemma marking_retry stack visited r y n : marking r0 source T stack visited r -> node r y = Some n ->
  exists n0, node r0 y = Some n0 /\ retry_notify n = false /\ subscribers n = subscribers n0 /\ kind n = kind n0.
Proof.
  intros M Hn. destruct (marked_node_back _ _ _ _ (marking_marked _ _ _ _ _ _ M) Hn) as (n0 & c & e & q & Hn0 & -> & _ & _ & He).
  exists n0. split_and!; [done| |done|done]. cbn. destruct e; [|done]. rewrite (Hretry _ _ Hn0) in He. by discriminate He.
Qed.

Lemma marking_step k stack visited r r' next :
  k ∉ visited -> marking r0 source T (k :: stack) visited r -> mark_expand k r = Some (r', next) ->
  marking r0 source T (next ++ stack)%list ({[k]} ∪ visited) r'.
Proof.
  intros Hk M Hx. pose proof (mark_expand_marked _ _ _ _ Hx) as Hmk. destruct k as [[y0 c0] f0].
  pose proof M as [M1 M2 M3 M4 M5 M6 M7 M8 M9]. destruct (M2 y0 c0 f0) as (HTy & -> & Hc0); [by left|].
  assert (Hc0' : 1 <= color_rank c0) by (destruct Hc0 as [->|[-> _]]; cbn; lia).
  destruct (node r y0) as [n|] eqn:Hn.
  2: { apply mark_expand_spec in Hx. rewrite Hn in Hx. destruct Hx as [-> ->]. cbn [app]. split; try done.
       - intros y c f Hin. apply M2. by right.
       - intros y c f m [Heq%elem_of_singleton|Hin]%elem_of_union Hm; [congruence|by eapply M3].
       - intros y m Hy Hm. destruct (M4 y m Hy Hm) as [|[Heq|]%elem_of_cons]; [by left|congruence|by right].
       - intros x n y m Hnx Hc Hy Hm. destruct (M5 x n y m Hnx Hc Hy Hm) as [|(c & f & [Heq|]%elem_of_cons)];
           [by left|congruence|right; by exists c, f]. }
  destruct (marking_retry _ _ _ _ _ M Hn) as (n0 & Hn0 & Hr & Hsub & Hkind).
  destruct (mark_step_shape _ _ _ _ _ _ Hn Hr Hx) as (n' & Hn' & Hother & Hcol & Hsub' & Hkind' & Hq & (l & Hl & Hly) & Hnext).
  assert (Hback : forall x m, node r' x = Some m -> x = y0 /\ m = n' \/ x <> y0 /\ node r x = Some m).
  { intros x m Hm. destruct (decide (x = y0)) as [->|Hne]; [left; split; [done|congruence]|right]. by rewrite <-Hother. }
  pose proof (recolor_ge c0 n) as [Hge1 Hge2]. rewrite <-Hcol in Hge1, Hge2.
  assert (Hnextin : forall y c f, (y, c, f) ∈ next -> y ∈ subscribers n /\ c = Check /\ f = false /\ color_rank (color n) < color_rank c0).
  { intros y c f Hin. rewrite Hnext in Hin. destruct (bool_decide _); [by apply not_elem_of_nil in Hin|].
    unfold color_lt in Hin. destruct (N.ltb_spec (color_rank (color n)) (color_rank c0)); [|by apply not_elem_of_nil in Hin].
    apply list_elem_of_fmap in Hin as (z & [= -> -> ->] & Hz). done. }
  split.
  - by etrans.
  - intros y c f [Hin|Hin]%elem_of_app; [|apply M2; by right]. apply Hnextin in Hin as (Hin & -> & -> & _).
    rewrite Hsub in Hin. split_and!; [by eapply HT|done|by left].
  - intros y c f m [Heq%elem_of_singleton|Hin]%elem_of_union Hm; (destruct (Hback _ _ Hm) as [[-> ->]|[Hne Hm']]).
    + by injection Heq as -> ->.
    + congruence.
    + specialize (M3 _ _ _ _ Hin Hn). lia.
    + by eapply M3.
  - intros y m Hy Hm. destruct (Hback _ _ Hm) as [[-> ->]|[Hne Hm']].
    + destruct (M4 y0 n Hy Hn) as [Hd|[Heq|Hin]%elem_of_cons].
      * left. rewrite Hd in Hge2. by destruct (color n').
      * left. injection Heq as <-. by destruct (color n').
      * right. apply elem_of_app. by right.
    + destruct (M4 y m Hy Hm') as [|[Heq|Hin]%elem_of_cons]; [by left|congruence|right; apply elem_of_app; by right].
  - intros x nx y m Hnx Hcx Hy Hm. destruct (Hback _ _ Hm) as [[-> ->]|[Hne Hm']]; [left; apply color_clean_rank; lia|].
    assert (Hold : exists nx', node r x = Some nx' /\ (y ∈ subscribers nx') /\ (color nx' <> Clean \/ exists c f, (y, c, f) ∈ next)).
    { destruct (Hback _ _ Hnx) as [[-> ->]|[_ Hnx']]; [|exists nx; auto]. rewrite Hsub' in Hy. exists n. split_and!; [done..|].
      destruct (decide (color n = Clean)) as [Hcl|]; [right|by left]. exists Check, false. rewrite Hnext.
      rewrite bool_decide_false by (intros He; rewrite Hsub, (Heffects _ _ Hn0) in Hy by congruence; by apply not_elem_of_nil in Hy).
      unfold color_lt. rewrite Hcl. cbn. replace (0 <? color_rank c0) with true by (symmetry; apply N.ltb_lt; lia).
      apply list_elem_of_fmap. by exists y. }
    destruct Hold as (nx' & Hnx' & Hy' & [Hc|(c & f & Hin)]); [|right; exists c, f; apply elem_of_app; by left].
    destruct (M5 x nx' y m Hnx' Hc Hy' Hm') as [|(c & f & [Heq|Hin]%elem_of_cons)]; [by left|congruence|].
    right. exists c, f. apply elem_of_app. by right.
  - intros y a m Ha Hm Hd. destruct (Hback _ _ Hm) as [[-> ->]|[Hne Hm']]; [|by eapply M6].
    rewrite Hcol, color_max_recolor in Hd. destruct (color_lt (color n) c0) eqn:Hlt; [|by eapply M6].
    destruct Hc0 as [->|[_ Hin]]; [done|by right].
  - intros y a m Ha Hm Hk' Hne'. destruct (Hback _ _ Hm) as [[-> ->]|[Hne Hm']]; [|by eapply M7].
    apply Hq. rewrite Hkind. congruence.
  - intros y Hy. rewrite Hother; [by apply M8|]. by intros ->.
  - destruct M9 as (l0 & Hl0 & HT0). exists (l0 ++ l)%list. rewrite Hl, Hl0, app_assoc. split; [done|].
    intros x [Hin|Hin]%elem_of_app; [by apply HT0|]. by rewrite (Hly x Hin).
Qed.

End mark.

(** Marking [source] dirty in a graph whose colours are in order. *)
Lemma mark_dirty r0 source T r' :
  graph_ok r0 -> (forall id n, node r0 id = Some n -> retry_notify n = false) ->
  (forall id n, node r0 id = Some n -> kind n = Effect -> subscribers n = []) ->
  (forall x n y m, node r0 x = Some n -> color n <> Clean -> y ∈ subscribers n -> node r0 y = Some m -> color m <> Clean) ->
  (forall x n y, T x -> node r0 x = Some n -> y ∈ subscribers n -> T y) ->
  (forall y, y ∈ from_option subscribers [] (node r0 source) -> T y) ->
  mark_subscribers source Dirty r0 = Some r' -> exists visited, marking r0 source T [] visited r'.
Proof.
  intros G Hretry Heff Hcol HT Hsource Hm. unfold mark_subscribers, mark_subscribers_with_force in Hm.
  assert (Hstart : forall stack, (forall y c f, (y, c, f) ∈ stack -> f = false /\ c = Dirty /\ y ∈ from_option subscribers [] (node r0 source)) ->
            (forall y, y ∈ from_option subscribers [] (node r0 source) -> (y, Dirty, false) ∈ stack) -> marking r0 source T stack ∅ r0).
  { intros stack Hs Hs'. split.
    - done.
    - intros y c f Hin. destruct (Hs y c f Hin) as (-> & -> & Hy). split_and!; [by apply Hsource|done|by right].
    - intros y c f m Hbad. set_solver.
    - intros y m Hy _. right. by apply Hs'.
    - intros x n y m Hn Hc Hy Hm'. left. exact (Hcol x n y m Hn Hc Hy Hm').
    - intros y n m Hn Hm' Hd. left. congruence.
    - intros y n m Hn Hm' _ Hne. congruence.
    - done.
    - exists []. rewrite app_nil_r. split; [done|by intros x ?%not_elem_of_nil]. }
  destruct (node r0 source) as [n|] eqn:Hn.
  - destruct (explore _ _ _ _ _) as [| |s] eqn:He; [done|done|]. injection Hm as <-.
    apply (explore_rule _ (marking r0 source T)) in He; [done|intros; by eapply marking_skip|intros; by eapply marking_step|].
    apply Hstart; cbn.
    + intros y c f (z & [= -> -> ->] & Hz)%list_elem_of_fmap. done.
    + intros y Hy. apply list_elem_of_fmap. by exists y.
  - injection Hm as <-. exists ∅. apply Hstart; [by intros y c f ?%not_elem_of_nil|by intros y ?%not_elem_of_nil].
Qed.

(** ** How a settling graph changes

    What pulling other nodes does to a node: a clean node keeps its value and its
    sources, a value only changes under a node that ends clean, and a node of [G],
    which does not run, is dirtied exactly when a value it read has changed. *)

Record evolved (G : NodeId -> Prop) r r' y n n' : Prop := {
  evolved_signature : signature n' = signature n;
  evolved_clean : color n = Clean -> color n' = Clean /\ value n' = value n /\ sources n' = sources n;
  evolved_stale : color n' <> Clean -> value n' = value n;
  evolved_kept : G y -> value n' = value n /\ sources n' = sources n /\ (color n <> Clean -> color n' <> Clean) /\
    (color n' <> Dirty -> color n <> Dirty /\ forall x, x ∈ sources n -> look r' x = look r x) /\
    (color n' = Dirty -> color n = Dirty \/ exists x, x ∈ sources n /\ look r' x <> look r x) }.

Definition evolves (G : NodeId -> Prop) r r' : Prop :=
  (forall y, node r y = None -> node r' y = None) /\
  (forall y n, node r y = Some n -> exists n', node r' y = Some n' /\ evolved G r r' y n n').

(** The queue only grows, with nodes that were not clean. *)
Definition grows r r' : Prop :=
  exists l, pending r' = (pending r ++ l)%list /\ forall x, x ∈ l -> exists n, node r x = Some n /\ color n <> Clean.

Lemma evolved_look G r r' x n : evolves G r r' -> node r x = Some n -> color n = Clean -> look r' x = look r x.
Proof.
  intros (_ & Hn) Hx Hc. destruct (Hn x n Hx) as (n' & Hx' & E). destruct (evolved_clean _ _ _ _ _ _ E Hc) as (_ & Hv & _).
  unfold look. by rewrite Hx, Hx'.
Qed.

Lemma evolved_look_changed G r r' x : evolves G r r' -> look r' x <> look r x -> exists n', node r' x = Some n' /\ color n' = Clean.
Proof.
  intros (Hnone & Hn) Hne. unfold look in *. destruct (node r x) as [n|] eqn:Hx; [|by rewrite (Hnone x Hx) in Hne].
  destruct (Hn x n Hx) as (n' & Hx' & E). exists n'. split; [done|]. destruct (decide (color n' = Clean)) as [|Hc]; [done|].
  destruct Hne. rewrite Hx'. cbn. by apply (evolved_stale _ _ _ _ _ _ E).
Qed.

Lemma evolves_weaken (G G' : NodeId -> Prop) r r' : (forall y, is_Some (node r y) -> G' y -> G y) -> evolves G r r' -> evolves G' r r'.
Proof.
  intros HG (H1 & H2). split; [done|]. intros y n Hn. destruct (H2 y n Hn) as (n' & Hn' & []). exists n'.
  split; [done|]. split; try done. intros Hy. apply evolved_kept0, HG; [by exists n|done].
Qed.

Lemma evolves_refl G r : evolves G r r.
Proof.
  split; [done|]. intros y n Hn. exists n. split; [done|]. split; try done. intros _. split_and!; [done..| |]; auto.
Qed.

Lemma grows_refl r r' : pending r' = pending r -> grows r r'.
Proof. exists []. rewrite app_nil_r. split; [done|by intros x ?%not_elem_of_nil]. Qed.

Lemma evolves_trans G r1 r2 r3 : evolves G r1 r2 -> evolves G r2 r3 -> evolves G r1 r3.
Proof.
  intros E12 E23. pose proof E12 as (N12 & H12). pose proof E23 as (N23 & H23). split.
  - auto.
  - intros y n Hn. destruct (H12 y n Hn) as (n2 & Hn2 & [S1 C1 F1 K1]). destruct (H23 y n2 Hn2) as (n3 & Hn3 & [S2 C2 F2 K2]).
    exists n3. split; [done|]. split; [congruence| | |].
    + intros Hc. destruct (C1 Hc) as (Hc2 & Hv2 & Hs2). destruct (C2 Hc2) as (? & ? & ?). split_and!; congruence.
    + intros Hc. destruct (decide (color n2 = Clean)) as [Hc2|Hc2]; [by destruct (C2 Hc2) as [? _]|]. rewrite F2, F1; done.
    + intros HG. destruct (K1 HG) as (V1 & Sr1 & Cl1 & D1 & D1'), (K2 HG) as (V2 & Sr2 & Cl2 & D2 & D2'). rewrite Sr1 in *.
      split_and!; [congruence|congruence|auto| |].
      * intros Hd. destruct (D2 Hd) as [Hd2 L2]. destruct (D1 Hd2) as [Hd1 L1]. split; [done|]. intros x Hx. by rewrite L2, L1.
      * intros Hd. destruct (D2' Hd) as [Hd2|(x & Hx & Hne)].
        -- destruct (D1' Hd2) as [|(x & Hx & Hne)]; [by left|right]. exists x. split; [done|].
           destruct (evolved_look_changed _ _ _ _ E12 Hne) as (m & Hm & Hcm). by rewrite (evolved_look _ _ _ _ _ E23 Hm Hcm).
        -- right. exists x. split; [done|]. destruct (node r2 x) as [m|] eqn:Hm; [|unfold look in Hne; by rewrite Hm, (N23 x Hm) in Hne].
           destruct (decide (color m = Clean)) as [Hcm|Hcm]; [by destruct Hne; apply (evolved_look _ _ _ _ _ E23 Hm Hcm)|].
           assert (Heq : look r2 x = look r1 x); [|by rewrite <-Heq].
           destruct (node r1 x) as [m1|] eqn:Hm1; [|rewrite (N12 x Hm1) in Hm; done].
           destruct (H12 x m1 Hm1) as (m2 & Hm2 & E). rewrite Hm in Hm2. injection Hm2 as <-. unfold look. rewrite Hm, Hm1. cbn.
           by apply (evolved_stale _ _ _ _ _ _ E).
Qed.

Lemma grows_trans G r1 r2 r3 : evolves G r1 r2 -> grows r1 r2 -> grows r2 r3 -> grows r1 r3.
Proof.
  intros (N12 & H12) (l12 & L12 & P12) (l23 & L23 & P23).
  exists (l12 ++ l23)%list. rewrite L23, L12, app_assoc. split; [done|]. intros x [Hx|Hx]%elem_of_app; [by apply P12|].
    destruct (P23 x Hx) as (n2 & Hn2 & Hc). destruct (node r1 x) as [n|] eqn:Hn; [|rewrite (N12 x Hn) in Hn2; done].
    exists n. split; [done|]. destruct (H12 x n Hn) as (n2' & Hn2' & E). rewrite Hn2 in Hn2'. injection Hn2' as <-.
    intros Hcl. by destruct (evolved_clean _ _ _ _ _ _ E Hcl) as [? _].
Qed.

(** ** A computation commits *)

Section commit.
Context (Hpure : pure_graph) (r : Runtime V) (id : NodeId) (n : Node V) (p : Prog V) (v : V) (f : ComputationFrame V).
Context (C : coherent r) (Hn : node r id = Some n) (Hstale : color n <> Clean) (Hk : computed (kind n)) (Hp : compute n = Some p).
Context (Ho : frame_owned f = []) (Hcl : frame_cleanups f = []) (Hnd : NoDup (frame_sources f)).
Context (Hfs : forall x, x ∈ frame_sources f -> (exists m, node r x = Some m /\ color m = Clean) /\ source_kind x /\ (rk x < rk id)%nat).
Context (Hv : eval (look r) p = Some v) (Hrd : forall x, x ∈ reads (look r) p -> x ∈ frame_sources f).

Definition value_changed : bool := match value n, eq_fn n with Some pv, Some e => negb (e pv v) | _, _ => true end.

Let r1 := publish_frame id n f v r.
Let n1 := committed (kind n) f v (frame_sources f) n.

Lemma self_not_read : id ∉ frame_sources f.
Proof. intros (_ & _ & Hlt)%Hfs. lia. Qed.

Lemma published :
  pending r1 = pending r /\ rest r1 = rest r /\ node r1 id = Some n1 /\ graph_ok r1 /\
  forall y, y <> id -> exists subs, node r1 y = set_subscribers (subs (node r y)) <$> node r y.
Proof.
  pose proof (coherent_graph _ C) as G. destruct (publish_frame_spec id n f v r G Hn self_not_read) as (H1 & H2 & H3 & H4).
  assert (Hlive : base.filter (live r) (frame_sources f) = frame_sources f).
  { apply filter_all. intros x ((m & Hm & _) & _)%Hfs. by exists m. }
  rewrite Hlive in H3, H4. split_and!; [done|done|done|by apply (publish_frame_ok _ _ _ _ _ G Hn self_not_read)|]. intros y Hy.
  fold r1 in H4. rewrite (H4 y Hy). destruct (node r y) as [m|]; [|by exists (fun _ => [])].
  by exists (fun _ => (without id (subscribers m) ++ (if bool_decide (y ∈ frame_sources f) then [id] else []))%list).
Qed.

Lemma published_other y m : y <> id -> node r y = Some m -> exists subs, node r1 y = Some (set_subscribers subs m).
Proof. intros Hy Hm. destruct published as (_ & _ & _ & _ & H). destruct (H y Hy) as [subs Hs]. rewrite Hm in Hs. by exists (subs (Some m)). Qed.

Lemma published_back y m1 : node r1 y = Some m1 -> y = id /\ m1 = n1 \/
  y <> id /\ exists m subs, node r y = Some m /\ m1 = set_subscribers subs m.
Proof.
  destruct published as (_ & _ & Hid & _ & H). intros Hm. destruct (decide (y = id)) as [->|Hy]; [left; split; [done|congruence]|right].
  split; [done|]. destruct (H y Hy) as [subs Hs]. rewrite Hm in Hs. destruct (node r y) as [m|]; [|done].
  injection Hs as ->. by exists m, (subs (Some m)).
Qed.

Lemma committed_fields :
  signature n1 = signature n /\ color n1 = Clean /\ sources n1 = frame_sources f /\ subscribers n1 = subscribers n /\
  running n1 = running n /\ queued n1 = queued n /\ updating n1 = updating n /\ retry_notify n1 = false /\
  owned n1 = [] /\ cleanups n1 = [] /\ value n1 = if bool_decide (kind n = Memo) then Some v else value n.
Proof. unfold n1, committed, signature. rewrite <-Ho, <-Hcl. by destruct (bool_decide (kind n = Memo)). Qed.

(** The colours are in order: only [id] became clean, with clean sources. *)
Lemma published_colors x a y m :
  node r1 x = Some a -> color a <> Clean -> y ∈ subscribers a -> node r1 y = Some m -> color m <> Clean.
Proof.
  intros Ha Hc Hy Hm. destruct published as (_ & _ & Hid & G1 & _). destruct committed_fields as (_ & Hcn & Hsn & _).
  destruct (published_back _ _ Ha) as [[-> ->]|(Hx & a0 & sa & Ha0 & ->)]; [congruence|].
  destruct (published_back _ _ Hm) as [[-> ->]|(Hyid & m0 & sm & Hm0 & ->)].
  - destruct (subscriber_edge _ G1 _ _ _ Ha Hy) as (k & Hk1 & Hin). rewrite Hid in Hk1. injection Hk1 as <-.
    rewrite Hsn in Hin. destruct (Hfs x Hin) as ((k & Hkx & Hck) & _). rewrite Ha0 in Hkx. injection Hkx as <-. done.
  - destruct (subscriber_edge _ G1 _ _ _ Ha Hy) as (k & Hk1 & Hin). rewrite Hm in Hk1. injection Hk1 as <-.
    destruct (source_edge _ (coherent_graph _ C) y m0 x Hm0 Hin) as (a1 & Ha1 & Hy1). rewrite Ha0 in Ha1. injection Ha1 as <-.
    exact (coherent_colors _ C x a0 y m0 Ha0 Hc Hy1 Hm0).
Qed.

(** What the marking, if any, leaves. *)
Record noticed (r2 : Runtime V) : Prop := {
  noticed_marked : marked r1 r2;
  noticed_graph : graph_ok r2;
  noticed_colors x a y m : node r2 x = Some a -> color a <> Clean -> y ∈ subscribers a -> node r2 y = Some m -> color m <> Clean;
  noticed_clean y m : node r1 y = Some m -> color m = Clean -> node r2 y = Some m;
  noticed_pending : exists l, pending r2 = (pending r1 ++ l)%list /\ forall x, x ∈ l -> exists m, node r1 x = Some m /\ color m <> Clean;
  noticed_dirty y m1 m2 : node r1 y = Some m1 -> node r2 y = Some m2 -> color m2 = Dirty ->
    color m1 = Dirty \/ y ∈ subscribers n /\ value n1 <> value n;
  noticed_change y m2 : y ∈ subscribers n -> node r2 y = Some m2 -> value n1 = value n \/ color m2 = Dirty }.

Lemma noticed_same : value n1 = value n -> noticed r1.
Proof.
  intros Hval. destruct published as (_ & _ & _ & G1 & _). split; try done.
  - apply published_colors.
  - exists []. rewrite app_nil_r. split; [done|by intros x ?%not_elem_of_nil].
  - intros y m1 m2 H1 H2 Hd. left. congruence.
  - by left.
Qed.

Lemma published_quiet y m : node r1 y = Some m -> retry_notify m = false /\ (kind m = Effect -> subscribers m = []).
Proof.
  destruct committed_fields as (Hsig & _ & _ & Hsub & _ & _ & _ & Hr & _).
  assert (Hkk : kind n1 = kind n) by exact (f_equal (fun t => t.1.1) Hsig).
  intros Hym. destruct (published_back _ _ Hym) as [[-> ->]|(Hy & m0 & subs & Hm0 & ->)].
  - split; [done|]. intros He. rewrite Hsub. destruct (subscribers n) as [|z l] eqn:Hs; [done|].
    assert (Hz : z ∈ subscribers n) by (rewrite Hs; by left). destruct (coherent_subscribers r id n z C Hn Hz); congruence.
  - split; [by apply (coherent_quiet _ C _ _ Hm0)|]. cbn. intros He. destruct subs as [|z l]; [done|]. exfalso.
    destruct published as (_ & _ & Hid & G1 & _). destruct (subscriber_edge _ G1 y _ z Hym) as (k & Hkz & Hin); [by left|].
    assert (Hsk : source_kind y).
    { destruct (published_back _ _ Hkz) as [[-> ->]|(Hz & k0 & sk & Hk0 & ->)].
      - destruct committed_fields as (_ & _ & Hsn & _). rewrite Hsn in Hin. by apply Hfs.
      - by apply (coherent_sources _ C z k0 y Hk0). }
    pose proof (coherent_kind _ _ _ C Hm0) as Hky. rewrite He in Hky. destruct Hsk as [Hsk|Hsk];
      by pose proof (is_kind_inj _ _ _ Hky Hsk).
Qed.

Lemma noticed_mark r2 : value n1 <> value n -> mark_subscribers id Dirty r1 = Some r2 -> noticed r2.
Proof.
  intros Hval Hm. pose proof published as (_ & _ & Hid & G1 & _). pose proof committed_fields as (_ & _ & _ & Hsub & _).
  assert (Hsource : from_option subscribers [] (node r1 id) = subscribers n) by (rewrite Hid; exact Hsub).
  assert (HT : forall x a y, node r1 x = Some a -> y ∈ subscribers a -> exists m, node r1 y = Some m /\ x ∈ sources m)
    by (intros; by eapply (subscriber_edge _ G1)).
  destruct (mark_dirty r1 id (fun y => exists m, node r1 y = Some m /\ color m <> Clean) r2) as [visited M].
  - done.
  - intros y m Hy. by apply (published_quiet y m Hy).
  - intros y m Hy. by apply (published_quiet y m Hy).
  - apply published_colors.
  - intros x a y (a' & Ha' & Hc) Ha Hy. rewrite Ha in Ha'. injection Ha' as <-. destruct (HT x a y Ha Hy) as (m & Hmy & _).
    exists m. split; [done|]. exact (published_colors x a y m Ha Hc Hy Hmy).
  - rewrite Hsource. intros y Hy. destruct (subscriber_edge _ (coherent_graph _ C) id n y Hn Hy) as (m & Hmy & Hin).
    assert (Hyid : y <> id) by (intros ->; by destruct (edges_once _ (coherent_graph _ C) _ _ Hmy) as (_ & _ & ?)).
    destruct (published_other y m Hyid Hmy) as [subs Hs]. eexists. split; [exact Hs|].
    exact (coherent_colors _ C id n y m Hn Hstale Hy Hmy).
  - done.
  - destruct M as [M1 M2 M3 M4 M5 M6 M7 M8 M9]. rewrite Hsource in M4, M6. split; try done.
    + by eapply mark_ok.
    + intros x a y m Ha Hc Hy Hmy. destruct (M5 x a y m Ha Hc Hy Hmy) as [|(c & g & Hbad%not_elem_of_nil)]; done.
    + intros y m Hy Hc. rewrite M8; [done|]. intros (m' & Hm' & Hc'). congruence.
    + intros y m1 m2 Hy1 Hy2 Hd. destruct (M6 y m1 m2 Hy1 Hy2 Hd); [by left|by right].
    + intros y m2 Hy Hy2. right. by destruct (M4 y m2 Hy Hy2) as [|Hbad%not_elem_of_nil].
Qed.

(** Values after the commit. *)
Lemma committed_look r2 x : marked r1 r2 -> look r2 x = if decide (x = id) then value n1 else look r x.
Proof.
  intros [_ Hm]. specialize (Hm x). pose proof published as (_ & _ & Hid & _ & Hother). unfold look.
  destruct (decide (x = id)) as [->|Hx].
  - rewrite Hid in Hm. by destruct Hm as (c & e & q & -> & _).
  - destruct (Hother x Hx) as [subs Hs]. rewrite Hs in Hm. destruct (node r x) as [m|]; cbn in Hm; [|by rewrite Hm].
    by destruct Hm as (c & e & q & -> & _).
Qed.

(** A node other than [id], before and after. *)
Lemma noticed_node r2 y m2 :
  noticed r2 -> y <> id -> node r2 y = Some m2 ->
  exists m, node r y = Some m /\ signature m2 = signature m /\ running m2 = running m /\ updating m2 = updating m /\
    owned m2 = owned m /\ cleanups m2 = cleanups m /\ value m2 = value m /\ sources m2 = sources m /\
    retry_notify m2 = false /\ (queued m = true -> queued m2 = true) /\ color_rank (color m) <= color_rank (color m2) /\
    (color m = Clean -> color m2 = Clean) /\
    (color m2 = Dirty -> color m = Dirty \/ y ∈ subscribers n /\ value n1 <> value n).
Proof.
  intros N Hy Hm2. destruct (marked_node_back _ _ _ _ (noticed_marked _ N) Hm2) as (m1 & c & e & q & Hm1 & -> & Hc & Hq & He).
  pose proof (noticed_clean _ N y m1 Hm1) as Hkeep. pose proof (noticed_dirty _ N y m1 _ Hm1 Hm2) as Hd.
  destruct (published_back y m1 Hm1) as [[? _]|(_ & m & subs & Hm & ->)]; [done|]. exists m.
  pose proof (coherent_quiet _ C y m Hm) as (Hr & _). split_and!; try done.
  - cbn in *. destruct e; [|done]. rewrite Hr in He. symmetry. by apply He.
  - intros Hc'. specialize (Hkeep Hc'). rewrite Hm2 in Hkeep. injection Hkeep as Hkeep. cbn in *. congruence.
Qed.

Section settled.
Context (r2 : Runtime V) (N : noticed r2).

Lemma noticed_self : node r2 id = Some n1.
Proof. destruct published as (_ & _ & Hid & _). destruct committed_fields as (_ & Hc & _). by apply (noticed_clean _ N). Qed.

Lemma noticed_none y : node r2 y = None <-> node r y = None.
Proof.
  destruct published as (_ & _ & Hid & _ & Hother). destruct (noticed_marked _ N) as [_ Hm]. specialize (Hm y).
  destruct (decide (y = id)) as [->|Hy]; [rewrite noticed_self; split; congruence|]. destruct (Hother y Hy) as [subs Hs].
  rewrite Hs in Hm. destruct (node r y); cbn in Hm; [destruct Hm as (? & ? & ? & -> & _); done|by rewrite Hm].
Qed.

(** A node that is not dirty afterwards read nothing that changed. *)
Lemma noticed_unchanged y m m2 x :
  y <> id -> node r y = Some m -> node r2 y = Some m2 -> color m2 <> Dirty -> x ∈ sources m -> look r2 x = look r x.
Proof.
  intros Hy Hm Hm2 Hd Hx. rewrite (committed_look r2) by apply N. destruct (decide (x = id)) as [->|]; [|done].
  destruct (source_edge _ (coherent_graph _ C) y m id Hm Hx) as (n' & Hn' & Hin). rewrite Hn in Hn'. injection Hn' as <-.
  rewrite (look_some _ _ _ Hn). by destruct (noticed_change _ N y m2 Hin Hm2).
Qed.

Lemma dirty_rank (c : Color) : 2 <= color_rank c -> c = Dirty.
Proof. destruct c; cbn; (done || lia). Qed.

Lemma noticed_fresh y m : node r2 y = Some m -> computed (kind m) -> color m <> Dirty -> fresh r2 m.
Proof.
  intros Hm2 Hkm Hd. destruct (decide (y = id)) as [->|Hy].
  - rewrite noticed_self in Hm2. injection Hm2 as <-. destruct committed_fields as (Hsig & _ & Hsrc & _ & _ & _ & _ & _ & _ & _ & Hval).
    assert (Hext : forall x, x ∈ reads (look r) p -> look r x = look r2 x).
    { intros x Hx. rewrite (committed_look r2) by apply N. rewrite decide_False; [done|]. intros ->. by apply self_not_read, Hrd. }
    destruct (eval_ext _ _ p Hext) as (He & Hr & _). exists p, v. split_and!.
    + etrans; [exact (f_equal (fun t => t.1.2) Hsig)|done].
    + by rewrite <-He.
    + intros Hmemo. rewrite Hval, bool_decide_true; [done|]. etrans; [symmetry; exact (f_equal (fun t => t.1.1) Hsig)|done].
    + intros x. rewrite <-Hr, Hsrc. apply Hrd.
  - destruct (noticed_node r2 y m N Hy Hm2) as (m0 & Hm0 & Hsig & _ & _ & _ & _ & Hval & Hsrc & _ & _ & Hrank & _).
    injection Hsig as Hk0 Hc0 _. assert (Hd0 : color m0 <> Dirty) by (intros Hbad; rewrite Hbad in Hrank; by apply dirty_rank in Hrank).
    destruct (coherent_fresh _ C y m0 Hm0) as (q & w & Hq & Hw & Hvw & Hreads); [by rewrite <-Hk0|done|].
    assert (Hext : forall x, x ∈ reads (look r) q -> look r x = look r2 x).
    { intros x Hx. symmetry. by apply (noticed_unchanged y m0 m), Hreads. }
    destruct (eval_ext _ _ q Hext) as (He & Hr & _). exists q, w. rewrite Hc0, Hval, Hk0, Hsrc, <-He, <-Hr. done.
Qed.

Lemma noticed_coherent : coherent r2.
Proof.
  pose proof committed_fields as (Hsig & Hcol & Hsrc & Hsub & Hrun & Hq & Hup & Hr & How & Hclean & Hval).
  pose proof published as (Hpend & Hrest & _). destruct (noticed_marked _ N) as [Hmrest _].
  assert (Hkk : kind n1 = kind n) by exact (f_equal (fun t => t.1.1) Hsig).
  assert (Hself : forall y m, node r2 y = Some m -> y = id /\ m = n1 \/ y <> id).
  { intros y m Hm. destruct (decide (y = id)) as [->|]; [left|by right]. rewrite noticed_self in Hm. split; [done|congruence]. }
  split.
  - apply N.
  - intros y. rewrite <-(coherent_signature _ C y). destruct (node r2 y) as [m|] eqn:Hm; [|by rewrite (proj1 (noticed_none y) Hm)].
    destruct (Hself y m Hm) as [[-> ->]|Hy]; [by rewrite Hn; cbn; rewrite Hsig|].
    destruct (noticed_node r2 y m N Hy Hm) as (m0 & Hm0 & Hs & _). rewrite Hm0. cbn. by rewrite Hs.
  - intros y m Hm. destruct (Hself y m Hm) as [[-> ->]|Hy].
    + destruct (coherent_quiet _ C id n Hn) as (_ & Hu & _). rewrite Hr, Hup, How, Hclean. done.
    + destruct (noticed_node r2 y m N Hy Hm) as (m0 & Hm0 & _ & _ & Hu & Ho' & Hc' & _ & _ & Hr' & _).
      destruct (coherent_quiet _ C y m0 Hm0) as (_ & ? & ? & ?). split_and!; congruence.
  - pose proof (coherent_deferred _ C) as Hd. rewrite Hrest in Hmrest. injection Hmrest as _ _ _ _ _ _ Hdef. congruence.
  - intros y m Hm Hsk. destruct (Hself y m Hm) as [[-> ->]|Hy]; [rewrite Hkk in Hsk; by destruct Hk; congruence|].
    destruct (noticed_node r2 y m N Hy Hm) as (m0 & Hm0 & Hs & _ & _ & _ & _ & Hv' & Hs' & _ & _ & _ & Hcl' & _).
    injection Hs as Hk0 _ _. destruct (coherent_signal _ C y m0 Hm0) as (H1 & H2 & H3); [congruence|].
    rewrite Hs', Hv'. auto.
  - intros y m Hm Hsk. destruct (Hself y m Hm) as [[-> ->]|Hy]; [rewrite Hkk in Hsk; by destruct Hk; congruence|].
    destruct (noticed_node r2 y m N Hy Hm) as (m0 & Hm0 & Hs & _ & _ & _ & _ & Hv' & Hs' & _ & _ & _ & Hcl' & _).
    injection Hs as Hk0 _ _. destruct (coherent_owner _ C y m0 Hm0) as (H1 & H2); [congruence|]. rewrite Hs'. auto.
  - intros y m x Hm Hx. destruct (Hself y m Hm) as [[-> ->]|Hy]; [rewrite Hsrc in Hx; by apply Hfs in Hx as (_ & ?)|].
    destruct (noticed_node r2 y m N Hy Hm) as (m0 & Hm0 & _ & _ & _ & _ & _ & _ & Hs' & _). rewrite Hs' in Hx.
    by apply (coherent_sources _ C y m0).
  - apply N.
  - apply noticed_fresh.
Qed.

Lemma noticed_grows : grows r r2.
Proof.
  pose proof published as (Hpend & _). destruct (noticed_pending _ N) as (l & Hl & Hin). exists l. rewrite Hl, Hpend. split; [done|].
  intros x Hx. destruct (Hin x Hx) as (m1 & Hm1 & Hc).
  destruct (published_back x m1 Hm1) as [[-> ->]|(_ & m & subs & Hm & ->)]; [done|]. by exists m.
Qed.

Lemma noticed_running y : running <$> node r2 y = running <$> node r y.
Proof.
  destruct (decide (y = id)) as [->|Hy].
  - rewrite noticed_self, Hn. destruct committed_fields as (_ & _ & _ & _ & Hrun & _). exact (f_equal Some Hrun).
  - destruct (node r2 y) as [m|] eqn:Hm; [|by rewrite (proj1 (noticed_none y) Hm)].
    destruct (noticed_node r2 y m N Hy Hm) as (m0 & -> & _ & Hr & _). cbn. by rewrite Hr.
Qed.

Lemma noticed_evolves : evolves (fun y => y <> id) r r2.
Proof.
  pose proof committed_fields as (Hsig & Hcol & Hsrc & Hsub & Hrun & Hq & _).
  split.
  - intros y Hy. by apply noticed_none.
  - intros y m Hm. destruct (decide (y = id)) as [->|Hy].
    + rewrite Hn in Hm. injection Hm as <-. exists n1. split; [apply noticed_self|]. split; try done; congruence.
    + destruct (node r2 y) as [m2|] eqn:Hm2; [|apply noticed_none in Hm2; congruence]. exists m2. split; [done|].
      destruct (noticed_node r2 y m2 N Hy Hm2) as (m0 & Hm0 & Hs & Hr & _ & _ & _ & Hv' & Hs' & _ & Hq' & Hrank & Hcl' & Hd').
      rewrite Hm in Hm0. injection Hm0 as <-. split; try done; [by auto|]. intros _. split_and!; try done.
      * intros Hc Hc2. rewrite Hc2 in Hrank. destruct (color m); cbn in Hrank; (done || lia).
      * intros Hd. split; [intros Hbad; rewrite Hbad in Hrank; by apply dirty_rank in Hrank|].
        intros x Hx. by apply (noticed_unchanged y m m2).
      * intros Hd. destruct (Hd' Hd) as [|[Hin Hne]]; [by left|right]. exists id.
        destruct (subscriber_edge _ (coherent_graph _ C) id n y Hn Hin) as (m' & Hm' & Hid). rewrite Hm in Hm'. injection Hm' as <-.
        split; [done|]. rewrite (committed_look r2) by apply N. by rewrite decide_True, (look_some _ _ _ Hn).
Qed.

End settled.

(** The equality gate: a memo is marked changed exactly when its value changed. *)
Lemma gate : kind n = Memo -> if value_changed then Some v <> value n else Some v = value n.
Proof.
  intros Hmemo. unfold value_changed. pose proof (Hpure id) as Hs. pose proof (coherent_signature _ C id) as Hsig.
  rewrite Hn in Hsig. cbn in Hsig. unfold signature in Hsig. rewrite Hmemo, Hp in Hsig. rewrite <-Hsig in Hs.
  destruct (value n) as [w|]; [|done]. destruct (eq_fn n) as [e|]; [|done]. destruct Hs as [_ He]. specialize (He w v).
  destruct (e w v); cbn.
  - by rewrite (proj1 He eq_refl).
  - intros [= ->]. by discriminate (proj2 He eq_refl).
Qed.

Lemma commit_pure :
  exists r2, commit_computation id f v value_changed r = Some (r2, empty_batch) /\ coherent r2 /\
    evolves (fun y => y <> id) r r2 /\ grows r r2 /\ rest r2 = rest r /\ node r2 id = Some n1 /\
    forall y, running <$> node r2 y = running <$> node r y.
Proof.
  assert (Hfinal : forall r2, noticed r2 -> coherent r2 /\ evolves (fun y => y <> id) r r2 /\ grows r r2 /\ rest r2 = rest r /\
            node r2 id = Some n1 /\ forall y, running <$> node r2 y = running <$> node r y).
  { intros r2 N. split_and!; [by apply noticed_coherent|by apply noticed_evolves|by apply noticed_grows| |by apply noticed_self|
      by apply noticed_running].
    destruct (noticed_marked _ N) as [Hr _]. rewrite Hr. apply published. }
  unfold commit_computation. rewrite Hn. cbn [mbind option_bind]. fold r1.
  destruct (coherent_quiet _ C id n Hn) as (Hr & _ & Hown & Hcleanups). rewrite Hr, Hown, Hcleanups, orb_false_r.
  destruct committed_fields as (_ & _ & _ & _ & _ & _ & _ & _ & _ & _ & Hval).
  destruct (bool_decide (kind n = Memo)) eqn:Hmemo; [apply bool_decide_eq_true in Hmemo|apply bool_decide_eq_false in Hmemo]; cbn [andb].
  - pose proof (gate Hmemo) as Hgate. destruct value_changed.
    + destruct (mark_total id Dirty false r1) as [r2 Hr2]. rewrite Hr2. exists r2. split; [done|].
      apply Hfinal, noticed_mark; [by rewrite Hval|exact Hr2].
    + exists r1. split; [done|]. apply Hfinal, noticed_same. by rewrite Hval.
  - exists r1. split; [done|]. apply Hfinal, noticed_same. by rewrite Hval.
Qed.

End commit.

End pure.
