(* ===== verification/ReactiveSettle.v ===== *)
(** * ReactiveSettle: pulling and flushing a pure graph

    For the pure graphs of [ReactivePure]: a pull brings a node up to date and runs
    each computation at most once, reading a memo gives its [meaning], and setting a
    signal runs exactly the effects one of whose sources changed, each once and on
    the final values. Every statement holds for all fuel above some bound, so
    termination is part of it. *)

From S2P Require Import Prelude Reactive ReactiveRun ReactiveGraph ReactiveSafety ReactivePure.

Section settle.
Context {V : Type} (rk : NodeId -> nat) (sg : NodeId -> option (Kind * option (Prog V) * option (V -> V -> bool))).
Context (Hpure : pure_graph rk sg).
Implicit Types (n : Node V) (r : Runtime V) (m : Machine V) (id x y : NodeId) (p : Prog V).

Abbreviation coherent := (coherent rk sg).
Abbreviation pure := (pure rk sg).
Abbreviation is_kind := (is_kind sg).
Abbreviation source_kind := (source_kind sg).

(** ** States with the same nodes but for the flags of a run *)

Definition core n : Node V := set_queued false (set_running false n).

Definition same_core r r' : Prop := forall y, core <$> node r' y = core <$> node r y.

#[local] Instance same_core_equivalence : Equivalence same_core.
Proof. split; [done|by intros r r' Hs y|]. intros r1 r2 r3 H1 H2 y. by rewrite H2. Qed.

Lemma core_some r r' y n : same_core r r' -> node r y = Some n -> exists n', node r' y = Some n' /\ core n' = core n.
Proof.
  intros Hs Hn. specialize (Hs y). rewrite Hn in Hs. destruct (node r' y) as [n'|]; [|done]. exists n'.
  split; [done|by apply (inj Some)].
Qed.

Lemma core_fields n n' : core n' = core n ->
  signature n' = signature n /\ kind n' = kind n /\ color n' = color n /\ value n' = value n /\ sources n' = sources n /\
  subscribers n' = subscribers n /\ retry_notify n' = retry_notify n /\ updating n' = updating n /\ owned n' = owned n /\
  cleanups n' = cleanups n /\ compute n' = compute n.
Proof. destruct n, n'. by intros [= -> -> -> -> -> -> -> -> -> -> -> -> ->]. Qed.

Lemma core_look r r' x : same_core r r' -> look r' x = look r x.
Proof.
  intros Hs. unfold look. destruct (node r x) as [n|] eqn:Hn.
  - destruct (core_some _ _ _ _ Hs Hn) as (n' & -> & Hc). by destruct (core_fields _ _ Hc) as (_ & _ & _ & ? & _).
  - specialize (Hs x). rewrite Hn in Hs. by destruct (node r' x).
Qed.

Lemma core_update r id f : (forall n, core (f n) = core n) -> same_core r (update_node id f r).
Proof.
  intros Hf y. rewrite node_update. destruct (decide (y = id)) as [->|]; [|done]. destruct (node r id); [|done]. cbn. by rewrite Hf.
Qed.

Lemma core_coherent r r' :
  same_core r r' -> graph_ok r' -> deferred_disposals r' = deferred_disposals r -> coherent r -> coherent r'.
Proof.
  intros Hs G Hd C. assert (Hb : same_core r' r) by by symmetry.
  assert (Hf : forall y n', node r' y = Some n' -> exists n, node r y = Some n /\ core n = core n')
    by (intros; by eapply core_some).
  split.
  - done.
  - intros y. rewrite <-(coherent_signature _ _ _ C y). destruct (node r' y) as [n'|] eqn:Hn'.
    + destruct (Hf y n' Hn') as (n & -> & Hc%core_fields). cbn. f_equal. by destruct Hc.
    + specialize (Hs y). rewrite Hn' in Hs. by destruct (node r y).
  - intros y n' Hn'. destruct (Hf y n' Hn') as (n & Hn & Hc%core_fields). destruct_and! Hc.
    destruct (coherent_quiet _ _ _ C y n Hn) as (? & ? & ? & ?). split_and!; congruence.
  - rewrite Hd. apply C.
  - intros y n' Hn'. destruct (Hf y n' Hn') as (n & Hn & Hc%core_fields). destruct_and! Hc.
    pose proof (coherent_signal _ _ _ C y n Hn) as Hk. by (repeat match goal with H : _ n = _ n' |- _ => rewrite H in Hk; clear H end).
  - intros y n' Hn'. destruct (Hf y n' Hn') as (n & Hn & Hc%core_fields). destruct_and! Hc.
    pose proof (coherent_owner _ _ _ C y n Hn) as Hk. by (repeat match goal with H : _ n = _ n' |- _ => rewrite H in Hk; clear H end).
  - intros y n' x Hn' Hx. destruct (Hf y n' Hn') as (n & Hn & Hc%core_fields). destruct_and! Hc.
    apply (coherent_sources _ _ _ C y n x Hn). congruence.
  - intros x a' y b' Ha' Hne Hy Hb'. destruct (Hf x a' Ha') as (a & Ha & Hc%core_fields). destruct (Hf y b' Hb') as (b & Hyb & Hc'%core_fields).
    destruct_and! Hc. destruct_and! Hc'. assert (color b <> Clean); [|congruence].
    apply (coherent_colors _ _ _ C x a y b Ha); congruence.
  - intros y n' Hn' Hk Hne. destruct (Hf y n' Hn') as (n & Hn & Hc%core_fields). destruct_and! Hc.
    destruct (coherent_fresh _ _ _ C y n Hn) as (p & v & Hp & Hv & Hval & Hr); [congruence|congruence|].
    assert (Hext : forall x, x ∈ reads (look r) p -> look r x = look r' x) by (intros; symmetry; by apply core_look).
    destruct (eval_ext _ _ p Hext) as (He & Hr' & _). exists p, v. rewrite <-He, <-Hr'. split_and!; [congruence|done| |].
    + intros Hm. rewrite <-Hval; congruence.
    + intros x Hx. apply Hr in Hx. congruence.
Qed.

Lemma core_evolves G r r' : same_core r r' -> evolves G r r'.
Proof.
  intros Hs. split.
  - intros y Hy. specialize (Hs y). rewrite Hy in Hs. by destruct (node r' y).
  - intros y n Hn. destruct (core_some _ _ _ _ Hs Hn) as (n' & Hn' & Hc%core_fields). destruct_and! Hc.
    exists n'. split; [done|]. split; [done|intros; split_and!; congruence|done|]. intros _. split_and!; [done|done|congruence| |].
    + intros ?. split; [congruence|]. intros x _. by apply core_look.
    + intros ?. left. congruence.
Qed.

(** ** Progress *)

(** A value that changed over two steps changed in one of them, and conversely. *)
Lemma changed_trans G r1 r2 r3 x :
  evolves G r1 r2 -> evolves G r2 r3 -> look r3 x <> look r1 x <-> look r2 x <> look r1 x \/ look r3 x <> look r2 x.
Proof.
  intros E12 E23. assert (Hd : look r2 x = look r1 x \/ look r3 x = look r2 x).
  { destruct E12 as [N12 H12]. destruct (node r1 x) as [n1|] eqn:H1.
    - destruct (H12 x n1 H1) as (n2 & H2 & E). destruct (decide (color n2 = Clean)) as [Hc|Hc].
      + right. by apply (evolved_look G r2 r3 x n2).
      + left. unfold look. rewrite H1, H2. by apply (evolved_stale _ _ _ _ _ _ E).
    - left. unfold look. by rewrite H1, (N12 x H1). }
  destruct Hd as [Hd|Hd]; rewrite Hd; naive_solver.
Qed.

Record progress (G : NodeId -> Prop) r r' : Prop := {
  progress_coherent : coherent r';
  progress_running y : running <$> node r' y = running <$> node r y;
  progress_evolves : evolves G r r';
  progress_grows : grows r r' }.

Lemma progress_refl G r : coherent r -> progress G r r.
Proof. intros C. split; [done|done|apply evolves_refl|by apply grows_refl]. Qed.

Lemma progress_trans G r1 r2 r3 : progress G r1 r2 -> progress G r2 r3 -> progress G r1 r3.
Proof.
  intros [C1 R1 E1 Q1] [C2 R2 E2 Q2]. split; [done|by intros; rewrite R2| |].
  - by eapply evolves_trans.
  - by eapply grows_trans.
Qed.

Lemma progress_weaken (G G' : NodeId -> Prop) r r' :
  (forall y, is_Some (node r y) -> G' y -> G y) -> progress G r r' -> progress G' r r'.
Proof. intros HG [C R E Q]. split; [done|done| |done]. by eapply evolves_weaken. Qed.

(** Only running nodes of rank [b] and above. *)
Definition idle (b : nat) r : Prop := forall y n, node r y = Some n -> running n = true -> (b <= rk y)%nat.

Lemma progress_idle G b r r' : progress G r r' -> idle b r -> idle b r'.
Proof.
  intros P I y n' Hn' Hrun. pose proof (progress_running _ _ _ P y) as Hr. rewrite Hn' in Hr.
  destruct (node r y) as [n|] eqn:Hn; [|done]. injection Hr as Hr. apply (I y n Hn). congruence.
Qed.

Lemma idle_le b b' r : (b' <= b)%nat -> idle b r -> idle b' r.
Proof. intros Hb I y n Hn Hrun. specialize (I y n Hn Hrun). lia. Qed.

Definition clean_at r x : Prop := exists n, node r x = Some n /\ color n = Clean.

Lemma progress_clean G r r' x : progress G r r' -> clean_at r x -> clean_at r' x /\ look r' x = look r x.
Proof.
  intros P (n & Hn & Hc). destruct (progress_evolves _ _ _ P) as [_ H]. destruct (H x n Hn) as (n' & Hn' & E).
  destruct (evolved_clean _ _ _ _ _ _ E Hc) as (Hc' & Hv & _). split; [by exists n'|]. unfold look. by rewrite Hn, Hn'.
Qed.

(** No effect would run if the outermost batch ended now. *)
Definition quiet r : Prop :=
  0 < batch_depth r \/ flushing r = true \/
  pending r = [] /\ forall y n, node r y = Some n -> kind n = Effect -> color n = Clean.

Lemma progress_settled G r r' :
  progress G r r' -> (forall y n, node r y = Some n -> kind n = Effect -> color n = Clean) -> pending r = [] ->
  pending r' = [] /\ forall y n, node r' y = Some n -> kind n = Effect -> color n = Clean.
Proof.
  intros [C R [Hnone He] (l & Hl & Hin)] Heff Hp.
  assert (Hback : forall y n', node r' y = Some n' -> kind n' = Effect ->
            exists n, node r y = Some n /\ color n = Clean /\ color n' = Clean).
  { intros y n' Hn' Hk. destruct (node r y) as [n|] eqn:Hn; [|rewrite (Hnone y Hn) in Hn'; done].
    destruct (He y n Hn) as (m & Hm & E). rewrite Hn' in Hm. injection Hm as <-.
    assert (Hc : color n = Clean).
    { apply (Heff y n Hn). rewrite <-Hk. symmetry. exact (f_equal (fun t => t.1.1) (evolved_signature _ _ _ _ _ _ E)). }
    exists n. split_and!; [done|done|by apply (evolved_clean _ _ _ _ _ _ E)]. }
  split.
  - rewrite Hl, Hp. destruct l as [|x l]; [done|exfalso]. destruct (Hin x) as (n & Hn & Hne); [by left|].
    assert (Hx : x ∈ pending r') by (rewrite Hl, Hp; by left). pose proof (coherent_graph _ _ _ C) as Gr.
    apply (queue_exact _ Gr) in Hx as (n' & Hn' & Hq). destruct (Hback x n' Hn') as (n2 & Hn2 & Hc & _); [|congruence].
    by apply (queue_effects _ Gr x).
  - intros y n' Hn' Hk. by destruct (Hback y n' Hn' Hk) as (n & _ & _ & ?).
Qed.

Lemma progress_quiet G r r' :
  progress G r r' -> batch_depth r' = batch_depth r -> flushing r' = flushing r -> quiet r -> quiet r'.
Proof.
  intros P Hd Hf [H|[H|[Hp He]]]; [left; congruence|right; left; congruence|]. right. right.
  by apply (progress_settled G r r').
Qed.

(** ** Equations of the machine *)

Lemma bind_done {A B} (x : M V A) (f : A -> M V B) m a m' : x m = Some (Done a, m') -> (x ≫= f) m = f a m'.
Proof. unfold mbind, m_bind. by intros ->. Qed.

Lemma fmap_done {A B} (f : A -> B) (x : M V A) m a m' : x m = Some (Done a, m') -> (f <$> x) m = Some (Done (f a), m').
Proof. intros H. unfold fmap, m_fmap. by rewrite (bind_done _ _ _ _ _ H). Qed.

Lemma catch_done {A} (x : M V A) m a m' : x m = Some (Done a, m') -> catch x m = Some (Done (Ok a), m').
Proof. unfold catch. by intros ->. Qed.

Lemma interp_run fuel : (interp (V := V) (S fuel)).1 = run_step fuel (interp fuel).1 (interp fuel).2.
Proof. cbn [interp]. by destruct (interp fuel). Qed.

Lemma interp_flush fuel : (interp (V := V) (S fuel)).2 = flush_effects fuel (interp fuel).1 (interp fuel).2.
Proof. cbn [interp]. by destruct (interp fuel). Qed.

Definition with_rt r m : Machine V := mkMachine r (emitted m).

Lemma read_done {A} (f : Runtime V -> A) m : read f m = Some (Done (f (rt m)), m).
Proof. done. Qed.

Lemma assign_done f m : assign f m = Some (Done (), with_rt (f (rt m)) m).
Proof. done. Qed.

Lemma flush_nothing fuel m :
  (2 <= fuel)%nat -> flushing (rt m) = true \/ pending (rt m) = [] -> (interp fuel).2 m = Some (Done (), m).
Proof.
  intros Hf Hp. destruct fuel as [|[|fuel]]; [lia..|]. rewrite interp_flush. unfold flush_effects.
  rewrite (bind_done _ _ _ _ _ (read_done _ _)). destruct m as [r e]. cbn [rt] in *. destruct (flushing r) eqn:Hfl; [done|].
  destruct Hp as [|Hp]; [done|]. destruct r. cbn in *. by subst.
Qed.

Lemma quiet_flush fuel m : (2 <= fuel)%nat -> quiet (rt m) -> batch_depth (rt m) = 0 -> (interp fuel).2 m = Some (Done (), m).
Proof. intros Hf [Hd|[Hq|[Hq _]]] H0; [lia| |]; apply flush_nothing; auto. Qed.

(** ** The frame of a computation *)

Lemma frames_coherent fs r : coherent r -> coherent (set_frames fs r).
Proof.
  intros C. apply (core_coherent r); [done| |done|done]. by apply (same_graph_ok r); [|apply C].
Qed.

Lemma frames_progress G fs r : coherent r -> progress G r (set_frames fs r).
Proof. intros C. split; [by apply frames_coherent|done|by apply core_evolves|by apply grows_refl]. Qed.

(** [x] is a source that a computation below [b] may have read. *)
Definition readable (b : nat) r x : Prop := clean_at r x /\ source_kind x /\ (rk x < b)%nat.

Definition frame_ok (b : nat) r (f : ComputationFrame V) : Prop :=
  NoDup (frame_sources f) /\ forall x, x ∈ frame_sources f -> readable b r x.

Lemma progress_readable G b r r' x : progress G r r' -> readable b r x -> readable b r' x.
Proof. intros P (Hc & Hk). split; [by apply (progress_clean G r)|done]. Qed.

Lemma progress_frame G b r r' f : progress G r r' -> frame_ok b r f -> frame_ok b r' f.
Proof. intros P [Hd Hr]. split; [done|]. intros x Hx. by eapply progress_readable, Hr. Qed.

Lemma add_source_in x (f : ComputationFrame V) y : y ∈ frame_sources (add_source x f) <-> y = x \/ y ∈ frame_sources f.
Proof. unfold add_source. case_bool_decide as Hx; cbn; [|rewrite elem_of_app, list_elem_of_singleton]; naive_solver. Qed.

Lemma add_source_ok b r x (f : ComputationFrame V) : readable b r x -> frame_ok b r f -> frame_ok b r (add_source x f).
Proof.
  intros Hx [Hd Hr]. split; [|intros y [->|Hy]%add_source_in; auto].
  unfold add_source. case_bool_decide as Hin; [done|]. cbn. apply NoDup_app. split_and!; [done| |by apply NoDup_singleton].
  intros y Hy ->%list_elem_of_singleton. done.
Qed.

Lemma add_source_same x (f : ComputationFrame V) :
  frame_observer (add_source x f) = frame_observer f /\ frame_owned (add_source x f) = frame_owned f /\
  frame_cleanups (add_source x f) = frame_cleanups f.
Proof. unfold add_source. by case_bool_decide. Qed.

Lemma track_done id x f fs m :
  observer (rt m) = Some id -> frames (rt m) = f :: fs -> frame_observer f = id -> x <> id -> live (rt m) x ->
  track x m = Some (Done (), with_rt (set_frames (add_source x f :: fs) (rt m)) m).
Proof.
  intros Ho Hf Hid Hx Hl. unfold track. rewrite (bind_done _ _ _ _ _ (read_done _ _)), (bind_done _ _ _ _ _ (read_done _ _)), Ho.
  rewrite bool_decide_false, bool_decide_true by congruence. cbn [orb negb]. unfold update_frame.
  rewrite (bind_done _ _ _ _ _ (read_done _ _)), Hf, bool_decide_true by done. done.
Qed.

Lemma stable_value_done s1 s2 id n v m :
  node (rt m) id = Some n -> value n = Some v -> stable_value s1 s2 id m = Some (Done v, m).
Proof. intros Hn Hv. unfold stable_value. rewrite (bind_done _ _ _ _ _ (read_done _ _)), Hn, (bind_done _ _ _ n m), Hv by done. done. Qed.

(** A clean source has a value. *)
Lemma clean_value r x : coherent r -> clean_at r x -> source_kind x -> exists n v, node r x = Some n /\ value n = Some v.
Proof.
  intros C (n & Hn & Hc) Hk. exists n. pose proof (coherent_kind _ _ _ _ _ C Hn) as Hkn.
  destruct Hk as [Hk|Hk]; pose proof (is_kind_inj _ _ _ _ Hkn Hk) as Hkind.
  - destruct (coherent_signal _ _ _ C x n Hn Hkind) as (_ & _ & [v Hv]). by exists v.
  - destruct (coherent_fresh _ _ _ C x n Hn) as (p & v & _ & _ & Hv & _); [by left|congruence|]. exists v. auto.
Qed.

Lemma rest_fields r r' : rest r' = rest r ->
  free r' = free r /\ observer r' = observer r /\ active_owner r' = active_owner r /\ frames r' = frames r /\
  flushing r' = flushing r /\ batch_depth r' = batch_depth r /\ deferred_disposals r' = deferred_disposals r.
Proof. by intros [= -> -> -> -> -> -> ->]. Qed.

(** ** A pure program runs to its value *)

(** What running and pulling leave alone. *)
Definition reading (b : nat) y : Prop := is_kind Effect y \/ (b <= rk y)%nat.
Definition below id y : Prop := y <> id /\ reading (rk id) y.

(** The outcome of a program of a computation [id] whose frame was [f]. *)
Record ran_to (b : nat) id f fs p m m' (v : V) f' : Prop := {
  ran_rest : rest (rt m') = rest (set_frames (f' :: fs) (rt m));
  ran_progress : progress (reading b) (rt m) (rt m');
  ran_frame : frame_observer f' = id /\ frame_owned f' = frame_owned f /\ frame_cleanups f' = frame_cleanups f /\
              frame_ok b (rt m') f' /\ forall x, x ∈ frame_sources f -> x ∈ frame_sources f';
  ran_value : eval (look (rt m')) p = Some v;
  ran_reads x : x ∈ reads (look (rt m')) p -> x ∈ frame_sources f';
  ran_emitted : emitted m' = (emitted m ++ outputs (look (rt m')) p)%list }.

(** Pulling [id] brings it up to date. *)
Definition pulls id : Prop := forall m n,
  coherent (rt m) -> quiet (rt m) -> idle (S (rk id)) (rt m) -> node (rt m) id = Some n ->
  exists N m', (forall fuel, (N <= fuel)%nat -> update_if_necessary fuel (interp fuel).1 (interp fuel).2 id m = Some (Done (), m')) /\
    rest (rt m') = rest (rt m) /\ progress (below id) (rt m) (rt m') /\ clean_at (rt m') id /\ emitted m' = emitted m.

Lemma ran_call b id o x k m m2 f fs v :
  o = SignalGet x \/ o = MemoGet x ->
  (exists N, forall fuel, (N <= fuel)%nat -> api fuel (interp fuel).1 (interp fuel).2 o m = Some (Done (ValueReply v), m2)) ->
  rest (rt m2) = rest (set_frames (add_source x f :: fs) (rt m)) -> progress (reading b) (rt m) (rt m2) ->
  clean_at (rt m2) x -> look (rt m2) x = Some v -> emitted m2 = emitted m ->
  (exists N m' w f', (forall fuel, (N <= fuel)%nat -> (interp fuel).1 (k (ValueReply v)) m2 = Some (Done w, m')) /\
     ran_to b id (add_source x f) fs (k (ValueReply v)) m2 m' w f') ->
  exists N m' w f', (forall fuel, (N <= fuel)%nat -> (interp fuel).1 (Call o k) m = Some (Done w, m')) /\
     ran_to b id f fs (Call o k) m m' w f'.
Proof.
  intros Ho [N1 H1] Hrest P Hclean Hlook Hemit (N2 & m' & w & f' & H2 & [R1 R2 (F1 & F2 & F3 & F4 & F5) R4 R5 R6]).
  destruct (progress_clean _ _ _ _ R2 Hclean) as [_ Hl]. rewrite Hlook in Hl.
  destruct (add_source_same x f) as (_ & Hown & Hcl). exists (S (N1 + N2)), m', w, f'. split.
  - intros [|fuel] Hfuel; [lia|]. rewrite interp_run. cbn [run_step].
    rewrite (bind_done _ _ _ _ _ (H1 fuel ltac:(lia))). apply H2. lia.
  - split.
    + destruct (rest_fields _ _ R1) as (? & ? & ? & ? & ? & ? & ?), (rest_fields _ _ Hrest) as (? & ? & ? & ? & ? & ? & ?).
      cbn in *. unfold rest. cbn. congruence.
    + by eapply progress_trans.
    + split_and!; [done|congruence|congruence|done|]. intros y Hy. apply F5, add_source_in. by right.
    + destruct Ho as [-> | ->]; cbn; by rewrite Hl.
    + assert (Hx : x ∈ frame_sources f') by (apply F5, add_source_in; by left).
      intros y Hy. destruct Ho as [-> | ->]; cbn in Hy; rewrite Hl in Hy; apply elem_of_cons in Hy as [->|Hy]; auto.
    + rewrite R6, Hemit. destruct Ho as [-> | ->]; cbn; by rewrite Hl.
Qed.

(** What a computation [id] needs of the machine while it runs. *)
Record runs_in (b : nat) id f fs m : Prop := {
  runs_coherent : coherent (rt m);
  runs_quiet : quiet (rt m);
  runs_idle : idle b (rt m);
  runs_observer : observer (rt m) = Some id;
  runs_frames : frames (rt m) = f :: fs;
  runs_frame : frame_observer f = id;
  runs_sources : frame_ok b (rt m) f }.

(** Reading [x] moves on to a machine where [x] is a source of the frame. *)
Lemma runs_tracked b id f fs m m1 x :
  runs_in b id f fs m -> rest (rt m1) = rest (rt m) -> progress (reading b) (rt m) (rt m1) -> readable b (rt m1) x ->
  let m2 := with_rt (set_frames (add_source x f :: fs) (rt m1)) m1 in
  runs_in b id (add_source x f) fs m2 /\ progress (reading b) (rt m) (rt m2).
Proof.
  intros [C Q I O F FO FS] Hrest P Hx m2. destruct (rest_fields _ _ Hrest) as (_ & Hobs & _ & _ & Hfl & Hbd & _).
  assert (P2 : progress (reading b) (rt m) (rt m2)).
  { eapply progress_trans; [exact P|]. apply frames_progress, P. }
  split; [|done]. destruct (add_source_same x f) as (Hfo & _ & _). split.
  - apply P2.
  - by apply (progress_quiet (reading b) (rt m)).
  - by apply (progress_idle (reading b) b (rt m)).
  - cbn. by rewrite Hobs.
  - done.
  - by rewrite Hfo.
  - apply add_source_ok; [done|]. by apply (progress_frame (reading b) b (rt m)).
Qed.

Lemma prog_runs out b p : pure out b p ->
  (forall s, (rk s < b)%nat -> is_kind Memo s -> pulls s) ->
  forall id m f fs, (b <= rk id)%nat -> runs_in b id f fs m ->
  exists N m' v f', (forall fuel, (N <= fuel)%nat -> (interp fuel).1 p m = Some (Done v, m')) /\ ran_to b id f fs p m m' v f'.
Proof.
  intros Hp Hpull. induction Hp as [v|v k Hout Hk IH|x k Hx Hxk Hk IH|x k Hx Hxk Hk IH]; intros id m f fs Hid R.
  - exists 1%nat, m, v, f. split; [intros [|fuel] Hf; [lia|by rewrite interp_run]|]. destruct R as [C Q I O F FO FS].
    split; [|by apply progress_refl|done|done|by intros x ?%not_elem_of_nil|by rewrite app_nil_r].
    unfold rest. cbn. by rewrite F.
  - set (m1 := mkMachine (rt m) (emitted m ++ [v])%list).
    destruct (IH id m1 f fs Hid) as (N & m' & w & f' & H & [R1 R2 R3 R4 R5 R6]); [by destruct R|].
    exists (S N), m', w, f'. split.
    + intros [|fuel] Hf; [lia|]. rewrite interp_run. cbn [run_step].
      rewrite (bind_done (emit v) _ m () m1) by done. apply H. lia.
    + split; try done. rewrite R6. cbn. by rewrite <-app_assoc.
  - destruct (coherent_live _ _ _ _ _ (runs_coherent _ _ _ _ _ R) Hxk) as (n & Hn & Hkn).
    destruct (coherent_signal _ _ _ (runs_coherent _ _ _ _ _ R) x n Hn Hkn) as (Hc & _ & [v Hv]).
    assert (Hr : readable b (rt m) x) by (split_and!; [by exists n|by left|done]).
    destruct (runs_tracked b id f fs m m x R eq_refl (progress_refl _ _ (runs_coherent _ _ _ _ _ R)) Hr) as [R2 P2].
    set (m2 := with_rt _ m) in *. apply (ran_call b id (SignalGet x) x k m m2 f fs v); [by left| |done|done|by exists n| |done|].
    + exists 0%nat. intros fuel _. cbn [api]. apply fmap_done. unfold signal_get.
      rewrite (bind_done _ _ m () m2); [by apply (stable_value_done _ _ x n)|].
      destruct R. apply (track_done id); [done|done|done|intros ->; lia|by exists n].
    + change (look (rt m2) x) with (look (rt m) x). by rewrite (look_some _ _ _ Hn).
    + by apply IH.
  - destruct (coherent_live _ _ _ _ _ (runs_coherent _ _ _ _ _ R) Hxk) as (n & Hn & Hkn).
    destruct (Hpull x Hx Hxk m n (runs_coherent _ _ _ _ _ R) (runs_quiet _ _ _ _ _ R)) as (N & m1 & H1 & Hrest & P1 & Hc & He);
      [apply (idle_le b); [lia|by destruct R]|done|].
    assert (P : progress (reading b) (rt m) (rt m1)).
    { apply (progress_weaken (below x)); [|done]. intros y _ Hy. split.
      - intros ->. destruct Hy as [Hy|Hy]; [by pose proof (is_kind_inj _ _ _ _ Hxk Hy)|lia].
      - destruct Hy as [Hy|Hy]; [by left|right; lia]. }
    assert (Hr : readable b (rt m1) x) by (split_and!; [done|by right|done]).
    destruct (runs_tracked b id f fs m m1 x R Hrest P Hr) as [R2 P2].
    destruct (clean_value (rt m1) x (progress_coherent _ _ _ P1) Hc) as (n1 & v & Hn1 & Hv); [by right|].
    set (m2 := with_rt _ m1) in *. apply (ran_call b id (MemoGet x) x k m m2 f fs v); [by right| | |done|done| |done|].
    + exists N. intros fuel Hf. cbn [api]. apply fmap_done. unfold memo_get. rewrite (bind_done _ _ _ _ _ (H1 fuel Hf)).
      rewrite (bind_done _ _ m1 () m2); [by apply (stable_value_done _ _ x n1)|].
      destruct R, (rest_fields _ _ Hrest) as (_ & Hobs & _ & Hfr & _).
      apply (track_done id); [congruence|congruence|done|intros ->; lia|by exists n1].
    + destruct (rest_fields _ _ Hrest) as (? & ? & ? & ? & ? & ? & ?). unfold rest. cbn. congruence.
    + change (look (rt m2) x) with (look (rt m1) x). by rewrite (look_some _ _ _ Hn1).
    + by apply IH.
Qed.

(** ** One run of a computation *)

Lemma machine_eta m : with_rt (rt m) m = m.
Proof. by destruct m. Qed.

Lemma retire_nothing fuel m :
  (1 <= fuel)%nat -> deferred_disposals (rt m) = [] -> retire fuel (interp fuel).1 empty_batch m = Some (Done None, m).
Proof.
  intros Hf Hd. unfold retire, run_disposal. rewrite (bind_done _ _ m None m).
  - unfold drain_deferred_disposals. destruct fuel as [|fuel]; [lia|]. cbn [drain_deferred_loop].
    rewrite (bind_done _ _ m None m); [done|]. rewrite (bind_done _ _ _ _ _ (read_done _ _)), Hd. by cbn.
  - destruct m as [[] e]. done.
Qed.

Lemma end_batch_quiet fuel m d :
  (2 <= fuel)%nat -> batch_depth (rt m) = d + 1 -> quiet (set_batch_depth d (rt m)) ->
  end_batch (interp fuel).2 None m = Some (Done (), with_rt (set_batch_depth d (rt m)) m).
Proof.
  intros Hf Hd Hq. unfold end_batch.
  rewrite (bind_done _ _ m (d =? 0) (with_rt (set_batch_depth d (rt m)) m)).
  - destruct (N.eqb_spec d 0) as [->|]; [|done]. by apply quiet_flush.
  - unfold batch_leave. rewrite (bind_done _ _ _ _ _ (read_done _ _)), Hd.
    replace (d + 1 - 1) with d by lia. replace (0 <? d + 1) with true by (symmetry; apply N.ltb_lt; lia). done.
Qed.

Definition entered id m : Machine V :=
  let r := set_batch_depth (batch_depth (rt m) + 1) (rt m) in
  with_rt (set_frames (mkFrame id [] [] [] :: frames r)
             (set_active_owner (Some id) (set_observer (Some id) (update_node id (set_running true) r)))) m.

Lemma set_frames_node fs r y : node (set_frames fs r) y = node r y.
Proof. done. Qed.

Lemma entered_core id m : same_core (rt m) (rt (entered id m)).
Proof.
  intros y. unfold entered. cbn [rt with_rt]. rewrite set_frames_node.
  exact (core_update (set_batch_depth (batch_depth (rt m) + 1) (rt m)) id (set_running true) (fun n => eq_refl) y).
Qed.

(** A change of flags keeps the invariant and is progress but for the running flags. *)
Lemma core_ok r r' : same_core r r' -> same_graph r r' -> deferred_disposals r' = deferred_disposals r -> coherent r -> coherent r'.
Proof. intros Hs Hg Hd C. apply (core_coherent r); [done| |done|done]. apply (same_graph_ok r); [done|apply C]. Qed.

Lemma entered_graph id m : same_graph (rt m) (rt (entered id m)).
Proof. exact (same_graph_update (set_batch_depth (batch_depth (rt m) + 1) (rt m)) id (set_running true) (fun n => eq_refl)). Qed.

Lemma entered_rest id m :
  rest (rt (entered id m)) =
  (free (rt m), Some id, Some id, mkFrame id [] [] [] :: frames (rt m), flushing (rt m), batch_depth (rt m) + 1, deferred_disposals (rt m)).
Proof.
  unfold entered. cbn [rt with_rt]. set (r := set_batch_depth _ (rt m)). pose proof (rest_update r id (set_running true)) as Hr.
  destruct (rest_fields _ _ Hr) as (? & ? & ? & ? & ? & ? & ?). unfold rest. cbn in *. congruence.
Qed.

Lemma entered_runs id m n :
  coherent (rt m) -> idle (S (rk id)) (rt m) -> node (rt m) id = Some n ->
  runs_in (rk id) id (mkFrame id [] [] []) (frames (rt m)) (entered id m).
Proof.
  intros C I Hn. pose proof (entered_rest id m) as Hr. split.
  - apply (core_ok (rt m)); [apply entered_core|apply entered_graph|exact (f_equal (fun t => t.2) Hr)|done].
  - left. assert (Hd : batch_depth (rt (entered id m)) = batch_depth (rt m) + 1) by exact (f_equal (fun t => t.1.2) Hr).
    rewrite Hd. lia.
  - intros y a Ha Hrun. change (node (update_node id (set_running true) (set_batch_depth (batch_depth (rt m) + 1) (rt m))) y = Some a) in Ha.
    rewrite node_update in Ha. destruct (decide (y = id)) as [->|]; [lia|]. specialize (I y a Ha Hrun). lia.
  - done.
  - done.
  - done.
  - split; [by apply NoDup_nil_2|by intros x ?%not_elem_of_nil].
Qed.

Lemma enter_done id m n :
  node (rt m) id = Some n -> running n = false ->
  enter_computation id (with_rt (set_batch_depth (batch_depth (rt m) + 1) (rt m)) m) =
  Some (Done (observer (rt m), active_owner (rt m)), entered id m).
Proof.
  intros Hn Hr. set (r := set_batch_depth _ (rt m)). assert (Hn' : node r id = Some n) by done.
  unfold enter_computation. rewrite (bind_done _ _ _ _ _ (read_done _ _)). cbn [rt with_rt]. rewrite Hn'. cbn [expect].
  rewrite (bind_done (mret n) _ _ n _ eq_refl), Hr. cbn [negb assert].
  rewrite (bind_done (mret ()) _ _ () _ eq_refl), (bind_done _ _ _ _ _ (assign_done _ _)).
  rewrite (bind_done _ _ _ _ _ (read_done _ _)), (bind_done _ _ _ _ _ (read_done _ _)), (bind_done _ _ _ _ _ (assign_done _ _)).
  unfold mret, m_ret. destruct (rest_fields _ _ (rest_update r id (set_running true))) as (_ & Ho & Hw & Hf & _).
  cbn [rt with_rt]. rewrite Ho, Hw. unfold entered. fold r. cbn [rt with_rt]. by rewrite Hf.
Qed.

Lemma entered_fields id m :
  free (rt (entered id m)) = free (rt m) /\ flushing (rt (entered id m)) = flushing (rt m) /\
  batch_depth (rt (entered id m)) = batch_depth (rt m) + 1 /\ deferred_disposals (rt (entered id m)) = deferred_disposals (rt m).
Proof.
  pose proof (entered_rest id m) as Hr. split_and!; [exact (f_equal (fun t => t.1.1.1.1.1.1) Hr)|exact (f_equal (fun t => t.1.1.2) Hr)|
    exact (f_equal (fun t => t.1.2) Hr)|exact (f_equal (fun t => t.2) Hr)].
Qed.

Lemma entered_running id m y : y <> id -> running <$> node (rt (entered id m)) y = running <$> node (rt m) y.
Proof.
  intros Hy. set (r := set_batch_depth (batch_depth (rt m) + 1) (rt m)).
  change (running <$> node (update_node id (set_running true) r) y = running <$> node r y). by rewrite node_update, decide_False.
Qed.

Definition finished id (g : option NodeId * option NodeId) fs m : Machine V :=
  with_rt (update_node id (set_running false) (set_active_owner g.2 (set_observer g.1 (set_frames fs (rt m))))) m.

Lemma finished_core id g fs m : same_core (rt m) (rt (finished id g fs m)).
Proof. exact (core_update (set_active_owner g.2 (set_observer g.1 (set_frames fs (rt m)))) id (set_running false) (fun n => eq_refl)). Qed.

Lemma finished_graph id g fs m : same_graph (rt m) (rt (finished id g fs m)).
Proof. exact (same_graph_update (set_active_owner g.2 (set_observer g.1 (set_frames fs (rt m)))) id (set_running false) (fun n => eq_refl)). Qed.

Lemma finished_rest id g fs m :
  rest (rt (finished id g fs m)) = (free (rt m), g.1, g.2, fs, flushing (rt m), batch_depth (rt m), deferred_disposals (rt m)).
Proof. apply (rest_update (set_active_owner g.2 (set_observer g.1 (set_frames fs (rt m)))) id (set_running false)). Qed.

Lemma finished_node id g fs m y :
  node (rt (finished id g fs m)) y = if decide (y = id) then set_running false <$> node (rt m) id else node (rt m) y.
Proof. exact (node_update (set_active_owner g.2 (set_observer g.1 (set_frames fs (rt m)))) id (set_running false) y). Qed.

Lemma finish_done id g f fs m n :
  frames (rt m) = f :: fs -> frame_observer f = id -> node (rt m) id = Some n ->
  finish_computation id g m = Some (Done f, finished id g fs m).
Proof.
  intros Hf Ho Hn. unfold finish_computation, pop_frame.
  set (m1 := with_rt (set_active_owner g.2 (set_observer g.1 (set_frames fs (rt m)))) m).
  rewrite (bind_done _ _ m f m1).
  - rewrite (bind_done _ _ _ _ _ (read_done _ _)). change (node (rt m1) id) with (node (rt m) id). by rewrite Hn.
  - rewrite (bind_done _ _ _ _ _ (read_done _ _)), Hf. rewrite (bind_done _ _ _ _ _ (assign_done _ _)).
    rewrite bool_decide_true by done. done.
Qed.

Lemma core_sym_some r r' y n' : same_core r r' -> node r' y = Some n' -> exists n, node r y = Some n /\ core n = core n'.
Proof. intros Hs. by apply core_some. Qed.

(** Before and after, but for the running flags. *)
Definition moves (G : NodeId -> Prop) r r' : Prop := evolves G r r' /\ grows r r'.

Lemma moves_trans G r1 r2 r3 : moves G r1 r2 -> moves G r2 r3 -> moves G r1 r3.
Proof. intros [E1 G1] [E2 G2]. split; [by eapply evolves_trans|by eapply grows_trans]. Qed.

Lemma moves_core G r r' : same_core r r' -> pending r' = pending r -> moves G r r'.
Proof. intros Hs Hp. split; [by apply core_evolves|by apply grows_refl]. Qed.

Lemma moves_weaken (G G' : NodeId -> Prop) r r' : (forall y, G' y -> G y) -> moves G r r' -> moves G' r r'.
Proof. intros HG [E Q]. split; [|done]. eapply evolves_weaken; [|exact E]. auto. Qed.

(** The closure of [id] ran and its frame was popped: what the commit starts from. *)
Record popped id n p m m3 v f : Prop := {
  popped_coherent : coherent (rt m3);
  popped_rest : rest (rt m3) = rest (set_batch_depth (batch_depth (rt m) + 1) (rt m));
  popped_moves : moves (reading (rk id)) (rt m) (rt m3);
  popped_running y : running <$> node (rt m3) y = running <$> node (rt m) y;
  popped_node : exists n3, node (rt m3) id = Some n3 /\ signature n3 = signature n /\ value n3 = value n /\ color n3 <> Clean;
  popped_frame : frame_owned f = [] /\ frame_cleanups f = [] /\ frame_ok (rk id) (rt m3) f;
  popped_value : eval (look (rt m3)) p = Some v;
  popped_reads x : x ∈ reads (look (rt m3)) p -> x ∈ frame_sources f;
  popped_emitted : emitted m3 = (emitted m ++ outputs (look (rt m3)) p)%list }.

Lemma closure_runs id n p m out :
  (forall s, (rk s < rk id)%nat -> is_kind Memo s -> pulls s) -> pure out (rk id) p ->
  coherent (rt m) -> idle (S (rk id)) (rt m) -> node (rt m) id = Some n -> running n = false -> color n <> Clean ->
  let g := (observer (rt m), active_owner (rt m)) in
  exists N m2 v f, (forall fuel, (N <= fuel)%nat -> (interp fuel).1 p (entered id m) = Some (Done v, m2)) /\
    frames (rt m2) = f :: frames (rt m) /\ frame_observer f = id /\ live (rt m2) id /\
    popped id n p m (finished id g (frames (rt m)) m2) v f.
Proof.
  intros Hpull Hp C I Hn Hrun Hc g. pose proof (entered_runs id m n C I Hn) as R.
  destruct (prog_runs out (rk id) p Hp Hpull id _ _ _ (le_n _) R) as (N & m2 & v & f & H & [R1 P (F1 & F2 & F3 & F4 & _) R4 R5 R6]).
  destruct (rest_fields _ _ R1) as (Q1 & Q2 & Q3 & Q4 & Q5 & Q6 & Q7).
  set (m3 := finished id g (frames (rt m)) m2).
  assert (Hs : same_core (rt m2) (rt m3)) by apply finished_core.
  assert (M : moves (reading (rk id)) (rt m) (rt m2)).
  { eapply moves_trans; [apply moves_core; [apply (entered_core id)|apply (proj1 (entered_graph id m))]|]. split; apply P. }
  destruct (proj2 (proj1 M) id n Hn) as (n2 & Hn2 & Ev). exists N, m2, v, f. split_and!; [done|done|done|by exists n2|].
  assert (Hext : forall x, x ∈ reads (look (rt m2)) p -> look (rt m2) x = look (rt m3) x) by (intros; symmetry; by apply core_look).
  destruct (eval_ext _ _ p Hext) as (X1 & X2 & X3). split.
  - apply (core_ok (rt m2)); [done|apply finished_graph|exact (f_equal (fun t => t.2) (finished_rest id g _ m2))|apply P].
  - rewrite (finished_rest id g _ m2). destruct (entered_fields id m) as (E1 & E2 & E3 & E4).
    rewrite (eq_trans Q1 E1), (eq_trans Q5 E2), (eq_trans Q6 E3), (eq_trans Q7 E4). done.
  - eapply moves_trans; [exact M|]. apply moves_core; [done|apply (proj1 (finished_graph id g _ m2))].
  - intros y. rewrite finished_node. destruct (decide (y = id)) as [->|Hy]; [rewrite Hn2, Hn; cbn; by rewrite Hrun|].
    by rewrite (progress_running _ _ _ P), entered_running.
  - destruct (evolved_kept _ _ _ _ _ _ Ev) as (K1 & K2 & K3 & _); [by right|]. exists (set_running false n2).
    rewrite finished_node, decide_True, Hn2 by done. split_and!; [done| |done|auto]. apply (evolved_signature _ _ _ _ _ _ Ev).
  - split_and!; [done|done|]. destruct F4 as [Hd Hr]. split; [done|]. intros x Hx. destruct (Hr x Hx) as [(k & Hk & Hck) Hk'].
    split; [|done]. destruct (core_some _ _ _ _ Hs Hk) as (k' & Hk1 & Hk2%core_fields). exists k'. split; [done|]. destruct_and! Hk2. congruence.
  - exact (eq_trans (eq_sym X1) R4).
  - intros x Hx. apply R5. rewrite X2. exact Hx.
  - etrans; [exact R6|]. exact (f_equal (app (emitted m)) X3).
Qed.

Lemma commit_popped id n p m m3 v f :
  computed (kind n) -> compute n = Some p -> popped id n p m m3 v f ->
  let changed := match value n, eq_fn n with Some w, Some e => negb (e w v) | _, _ => true end in
  exists r4, commit id f v changed m3 = Some (Done empty_batch, with_rt r4 m3) /\ coherent r4 /\
    moves (fun y => y <> id) (rt m3) r4 /\ rest r4 = rest (rt m3) /\ clean_at r4 id /\
    (forall y, running <$> node r4 y = running <$> node (rt m3) y) /\
    forall x, x ∈ reads (look (rt m3)) p -> look r4 x = look (rt m3) x.
Proof.
  intros Hk Hp [C R M Hrun (n3 & Hn3 & Hsig & Hval & Hc) (Ho & Hcl & Hnd & Hfs) Hv Hrd He] changed.
  assert (Hk3 : kind n3 = kind n) by exact (f_equal (fun t => t.1.1) Hsig).
  assert (Hp3 : compute n3 = compute n) by exact (f_equal (fun t => t.1.2) Hsig).
  assert (He3 : eq_fn n3 = eq_fn n) by exact (f_equal (fun t => t.2) Hsig).
  destruct (commit_pure rk sg Hpure (rt m3) id n3 p v f C Hn3 Hc) as (r4 & H4 & C4 & E4 & G4 & R4 & N4 & Run4);
    try done; try congruence.
  unfold value_changed in H4. rewrite Hval, He3 in H4. fold changed in H4. exists r4. split_and!; try done.
  - unfold commit. rewrite (bind_done _ _ _ _ _ (read_done _ _)), Hn3. cbn [expect].
    rewrite (bind_done (mret n3) _ _ n3 _ eq_refl). unfold attempt. by rewrite H4.
  - eexists. split; [exact N4|]. unfold committed. by destruct (bool_decide _).
  - intros x Hx. destruct (Hfs x (Hrd x Hx)) as ((k & Hkx & Hck) & _). by apply (evolved_look _ _ _ _ _ E4 Hkx).
Qed.

(** A stale computation runs once, emits what its closure emits, and is clean. *)
Lemma computation_runs id m n p out :
  (forall s, (rk s < rk id)%nat -> is_kind Memo s -> pulls s) -> pure out (rk id) p ->
  coherent (rt m) -> quiet (rt m) -> idle (S (rk id)) (rt m) -> node (rt m) id = Some n -> color n <> Clean ->
  computed (kind n) -> compute n = Some p ->
  exists N m', (forall fuel, (N <= fuel)%nat -> run_computation fuel (interp fuel).1 (interp fuel).2 id m = Some (Done (), m')) /\
    rest (rt m') = rest (rt m) /\ progress (below id) (rt m) (rt m') /\ clean_at (rt m') id /\
    emitted m' = (emitted m ++ outputs (look (rt m')) p)%list.
Proof.
  intros Hpull Hp C Q I Hn Hc Hk Hcp. set (g := (observer (rt m), active_owner (rt m))).
  assert (Hrun : running n = false). { destruct (running n) eqn:Hr; [|done]. specialize (I id n Hn Hr). lia. }
  destruct (closure_runs id n p m out Hpull Hp C I Hn Hrun Hc) as (N & m2 & v & f & H & Hfs & Hfo & [n2 Hn2] & P).
  set (m3 := finished id g (frames (rt m)) m2) in *.
  destruct (commit_popped id n p m m3 v f Hk Hcp P) as (r4 & H4 & C4 & M4 & R4 & K4 & Run4 & L4).
  set (changed := match value n, eq_fn n with Some w, Some e => negb (e w v) | _, _ => true end) in *.
  set (m5 := with_rt (set_batch_depth (batch_depth (rt m)) r4) m3). destruct P as [C3 R3 M3 Run3 _ _ _ _ He].
  destruct (rest_fields _ _ (eq_trans R4 R3)) as (F1 & F2 & F3 & F4 & F5 & F6 & F7).
  assert (Pr : progress (below id) (rt m) (rt m5)).
  { split; [|intros y; change (node (rt m5) y) with (node r4 y); by rewrite Run4, Run3| |].
    - apply (core_ok r4); done.
    - eapply evolves_trans; [apply (moves_weaken _ (below id) _ _ (fun y Hy => proj2 Hy) M3)|].
      eapply evolves_trans; [apply (moves_weaken _ (below id) _ _ (fun y Hy => proj1 Hy) M4)|]. by apply core_evolves.
    - eapply grows_trans; [apply M3|apply M3|]. eapply grows_trans; [apply M4|apply M4|]. by apply grows_refl. }
  assert (Q5 : quiet (rt m5)) by (apply (progress_quiet (below id) (rt m)); done).
  exists (S (S N)), m5. split_and!; [|by unfold rest; cbn; rewrite F1, F2, F3, F4, F5, F7|done|done|].
  - intros fuel Hfuel. unfold run_computation, batch_enter. rewrite (bind_done _ _ _ _ _ (assign_done _ _)), (bind_done _ _ _ _ _ (read_done _ _)).
    set (m0 := with_rt _ m). change (node (rt m0) id) with (node (rt m) id). rewrite Hn, Hcp.
    rewrite (bind_done _ _ _ _ _ (catch_done _ _ _ _ (enter_done id m n Hn Hrun))).
    rewrite (bind_done _ _ _ (Ok (v, changed)) m2).
    2: { apply catch_done. unfold evaluate. by rewrite (bind_done _ _ _ _ _ (H fuel ltac:(lia))). }
    unfold succeed_computation. rewrite (bind_done _ _ _ _ _ (catch_done _ _ _ _ (finish_done id g f _ m2 n2 Hfs Hfo Hn2))).
    fold m3. rewrite (bind_done _ _ _ _ _ H4). rewrite (bind_done _ _ _ _ _ (retire_nothing fuel (with_rt r4 m3) ltac:(lia) ltac:(apply C4))).
    apply (end_batch_quiet fuel (with_rt r4 m3)); [lia|exact F6|exact Q5].
  - assert (Hext : forall x, x ∈ reads (look (rt m3)) p -> look (rt m3) x = look (rt m5) x) by (intros; symmetry; by apply L4).
    destruct (eval_ext _ _ p Hext) as (_ & _ & Ho). exact (eq_trans He (f_equal (app (emitted m)) Ho)).
Qed.

(** ** A checked node whose sources are all clean is clean *)

Section checked.
Context (r : Runtime V) (id : NodeId) (n : Node V) (C : coherent r) (Hn : node r id = Some n).
Context (Hc : color n = Check) (Hs : forall x, x ∈ sources n -> clean_at r x).

Let r' := update_node id (set_color Clean) r.

Lemma checked_back y a' : node r' y = Some a' -> y = id /\ a' = set_color Clean n \/ y <> id /\ node r y = Some a'.
Proof.
  unfold r'. rewrite node_update. destruct (decide (y = id)) as [->|Hy]; [rewrite Hn; intros [= <-]; by left|by right].
Qed.

Lemma checked_look x : look r' x = look r x.
Proof. unfold look, r'. rewrite node_update. destruct (decide (x = id)) as [->|]; [|done]. by rewrite Hn. Qed.

Lemma checked_fresh a : fresh r a -> fresh r' a.
Proof.
  intros (p & v & Hp & Hv & Hval & Hr). exists p, v.
  assert (Hext : forall x, x ∈ reads (look r) p -> look r x = look r' x) by (intros; symmetry; apply checked_look).
  destruct (eval_ext _ _ p Hext) as (He & Hr' & _). by rewrite <-He, <-Hr'.
Qed.

Lemma checked_kind : kind n <> Signal /\ kind n <> Owner.
Proof.
  split; intros Hk; [destruct (coherent_signal _ _ _ C id n Hn Hk) as [? _]|destruct (coherent_owner _ _ _ C id n Hn Hk) as [? _]]; congruence.
Qed.

Lemma checked_coherent : coherent r'.
Proof.
  split.
  - apply (same_graph_ok r); [by apply same_graph_update|apply C].
  - intros y. rewrite <-(coherent_signature _ _ _ C y). unfold r'. rewrite node_update.
    destruct (decide (y = id)) as [->|]; [|done]. by rewrite Hn.
  - intros y a' Ha'. destruct (checked_back y a' Ha') as [[-> ->]|[_ Ha]]; [by apply (coherent_quiet _ _ _ C id n)|by apply (coherent_quiet _ _ _ C y)].
  - destruct (rest_fields _ _ (rest_update r id (set_color Clean))) as (_ & _ & _ & _ & _ & _ & Hd). etrans; [exact Hd|apply C].
  - intros y a' Ha'. destruct (checked_back y a' Ha') as [[-> ->]|[_ Ha]]; [by intros Hk; destruct checked_kind|by apply (coherent_signal _ _ _ C y)].
  - intros y a' Ha'. destruct (checked_back y a' Ha') as [[-> ->]|[_ Ha]]; [by intros Hk; destruct checked_kind|by apply (coherent_owner _ _ _ C y)].
  - intros y a' x Ha'. destruct (checked_back y a' Ha') as [[-> ->]|[_ Ha]]; [by apply (coherent_sources _ _ _ C id n)|by apply (coherent_sources _ _ _ C y)].
  - intros x a' y b' Ha' Hne Hy Hb'. destruct (checked_back x a' Ha') as [[-> ->]|[_ Ha]]; [done|].
    destruct (checked_back y b' Hb') as [[-> ->]|[_ Hb]]; [|by apply (coherent_colors _ _ _ C x a' y b')].
    destruct (subscriber_edge _ (coherent_graph _ _ _ C) x a' id Ha Hy) as (k & Hk & Hin). rewrite Hn in Hk. injection Hk as <-.
    destruct (Hs x Hin) as (k & Hk & Hck). congruence.
  - intros y a' Ha' Hk Hd. destruct (checked_back y a' Ha') as [[-> ->]|[_ Ha]].
    + apply (checked_fresh n), (coherent_fresh _ _ _ C id n Hn Hk). congruence.
    + by apply checked_fresh, (coherent_fresh _ _ _ C y).
Qed.

Lemma checked_progress : progress (below id) r r'.
Proof.
  split.
  - apply checked_coherent.
  - intros y. unfold r'. rewrite node_update. destruct (decide (y = id)) as [->|]; [|done]. by rewrite Hn.
  - split.
    + intros y Hy. unfold r'. rewrite node_update. destruct (decide (y = id)) as [->|]; [congruence|done].
    + intros y a Ha. destruct (decide (y = id)) as [->|Hy].
      * rewrite Hn in Ha. injection Ha as <-. exists (set_color Clean n). unfold r'. rewrite node_update, decide_True, Hn by done.
        split; [done|]. split; [done|congruence|done|]. intros [Hbad _]. done.
      * exists a. unfold r'. rewrite node_update, decide_False by done. split; [done|]. split; try done.
        intros _. split_and!; [done..| |by left]. intros Hd. split; [done|]. intros x _. apply checked_look.
  - apply grows_refl, pending_update.
Qed.

Lemma checked_clean : clean_at r' id.
Proof. exists (set_color Clean n). unfold r'. by rewrite node_update, decide_True, Hn. Qed.

End checked.

(** ** Pulling a node *)

(** Either the computation ran, because it was dirty or one of its sources changed,
    and emitted what it computes now, or it did not have to run. *)
Definition caught_up n m m' : Prop :=
  (exists p, compute n = Some p /\ emitted m' = (emitted m ++ outputs (look (rt m')) p)%list /\
     (color n = Dirty \/ exists x, x ∈ sources n /\ look (rt m') x <> look (rt m) x)) \/
  emitted m' = emitted m /\ color n <> Dirty /\
    forall x, x ∈ sources n -> look (rt m') x = look (rt m) x /\ clean_at (rt m') x.

Definition pulled id n m m' : Prop :=
  rest (rt m') = rest (rt m) /\ progress (below id) (rt m) (rt m') /\ clean_at (rt m') id /\ caught_up n m m'.

(** A frame of the stack with enough sources left to check is popped. *)
Definition pull_ok id : Prop := forall ss m n active,
  coherent (rt m) -> quiet (rt m) -> idle (S (rk id)) (rt m) -> node (rt m) id = Some n ->
  (forall a, a ∈ active -> (rk id <= rk a)%nat) -> (forall x, x ∈ ss -> x ∈ sources n) ->
  (color n = Check -> forall x, x ∈ sources n -> x ∈ ss \/ clean_at (rt m) x) ->
  exists N K m', (forall fuel, (N <= fuel)%nat -> forall k stack,
      pull fuel (interp fuel).1 (interp fuel).2 (K + k) (mkPull id ss :: stack) active m =
      pull fuel (interp fuel).1 (interp fuel).2 k stack (active ∖ {[id]}) m') /\
    pulled id n m m'.

Lemma caught_up_trans G1 G2 id n n1 m m1 m' :
  progress G1 (rt m) (rt m1) -> G1 id -> progress G2 (rt m1) (rt m') -> emitted m1 = emitted m ->
  node (rt m) id = Some n -> node (rt m1) id = Some n1 -> caught_up n1 m1 m' -> caught_up n m m'.
Proof.
  intros P1 HG P2 He Hn Hn1 U. destruct (proj2 (progress_evolves _ _ _ P1) id n Hn) as (n1' & Hn1' & E).
  rewrite Hn1 in Hn1'. injection Hn1' as <-. destruct (evolved_kept _ _ _ _ _ _ E HG) as (_ & Hsrc & _ & Hfresh & Hdirty).
  assert (Hsig : compute n1 = compute n) by exact (f_equal (fun t => t.1.2) (evolved_signature _ _ _ _ _ _ E)).
  assert (E1 : evolves (fun _ => False) (rt m) (rt m1)) by (eapply evolves_weaken; [|apply P1]; done).
  assert (E2 : evolves (fun _ => False) (rt m1) (rt m')) by (eapply evolves_weaken; [|apply P2]; done).
  pose proof (fun x => changed_trans _ _ _ _ x E1 E2) as Hch. destruct U as [(p & Hp & Ho & Hd)|(Ho & Hd & Hs)].
  - left. exists p. rewrite Ho, He, <-Hsig. split_and!; [done|done|]. destruct Hd as [Hd|(x & Hx & Hne)].
    + destruct (Hdirty Hd) as [|(x & Hx & Hne)]; [by left|]. right. exists x. split; [done|]. apply Hch. by left.
    + right. exists x. rewrite <-Hsrc. split; [done|]. apply Hch. by right.
  - right. destruct (Hfresh Hd) as [Hd0 Hl]. split_and!; [congruence|done|]. intros x Hx. rewrite <-Hsrc in Hx.
    destruct (Hs x Hx) as [Hl2 Hc]. split; [|done]. rewrite Hl2. apply Hl. congruence.
Qed.

Section pull.
Context (id : NodeId) (IHid : forall s, (rk s < rk id)%nat -> pull_ok s).

(** Catching up a source emits nothing. *)
Lemma source_silent s n m m' : source_kind s -> coherent (rt m) -> node (rt m) s = Some n -> caught_up n m m' -> emitted m' = emitted m.
Proof.
  intros Hk C Hn [(p & Hp & Ho & _)|[Ho _]]; [|done]. pose proof (coherent_signature _ _ _ C s) as Hs. rewrite Hn in Hs.
  pose proof (Hpure s) as Hsp. destruct Hk as [(q & e & Hk)|(q & e & Hk)]; rewrite Hk in Hs, Hsp; injection Hs as _ Hpn _;
    rewrite <-Hpn, Hp in Hsp; (destruct e as [e|]; [|done]).
  - done.
  - destruct Hsp as [Hsp _]. by rewrite Ho, (pure_silent _ _ _ _ _ Hsp), app_nil_r.
Qed.

(** A pull of the whole stack. *)
Lemma pull_ok_update s m n :
  pull_ok s -> coherent (rt m) -> quiet (rt m) -> idle (S (rk s)) (rt m) -> node (rt m) s = Some n ->
  exists N m', (forall fuel, (N <= fuel)%nat -> update_if_necessary fuel (interp fuel).1 (interp fuel).2 s m = Some (Done (), m')) /\
    pulled s n m m'.
Proof.
  intros U C Q I Hn. destruct (U (sources n) m n {[s]} C Q I Hn) as (N & K & m' & H & P);
    [by intros a ->%elem_of_singleton|done|by left|].
  exists (N + S K)%nat, m'. split; [|done]. intros fuel Hf. unfold update_if_necessary.
  rewrite (bind_done _ _ _ _ _ (read_done _ _)), Hn. pose proof (H fuel ltac:(lia) (S (fuel - S K))%nat []) as Heq.
  replace (K + S (fuel - S K))%nat with fuel in Heq by lia. rewrite Heq. done.
Qed.

Lemma pull_ok_pulls s : is_kind Memo s -> pull_ok s -> pulls s.
Proof.
  intros Hk U m n C Q I Hn. destruct (pull_ok_update s m n U C Q I Hn) as (N & m' & H & Hrest & P & Hc & Hcu).
  exists N, m'. split_and!; [done..|]. apply (source_silent s n m m'); [by right|done|done|done].
Qed.

Lemma pull_clean fuel k ss stack active m n :
  node (rt m) id = Some n -> color n = Clean ->
  pull fuel (interp fuel).1 (interp fuel).2 (1 + k) (mkPull id ss :: stack) active m =
  pull fuel (interp fuel).1 (interp fuel).2 k stack (active ∖ {[id]}) m.
Proof.
  intros Hn Hc. cbn [pull Nat.add]. rewrite (bind_done _ _ _ _ _ (read_done _ _)), Hn, (bool_decide_true (color n = Clean)) by done.
  done.
Qed.

Lemma pull_dirty fuel k ss stack active m n m' :
  node (rt m) id = Some n -> color n = Dirty -> kind n <> Signal ->
  run_computation fuel (interp fuel).1 (interp fuel).2 id m = Some (Done (), m') ->
  pull fuel (interp fuel).1 (interp fuel).2 (1 + k) (mkPull id ss :: stack) active m =
  pull fuel (interp fuel).1 (interp fuel).2 k stack (active ∖ {[id]}) m'.
Proof.
  intros Hn Hc Hk Hr. cbn [pull Nat.add]. rewrite (bind_done _ _ _ _ _ (read_done _ _)), Hn.
  rewrite (bool_decide_false (color n = Clean)), (bool_decide_false (kind n = Signal)), (bool_decide_true (color n = Dirty)) by congruence.
  cbn [orb]. by rewrite (bind_done _ _ _ _ _ Hr).
Qed.

Lemma pull_checked fuel k stack active m n :
  node (rt m) id = Some n -> color n = Check -> kind n <> Signal ->
  pull fuel (interp fuel).1 (interp fuel).2 (1 + k) (mkPull id [] :: stack) active m =
  pull fuel (interp fuel).1 (interp fuel).2 k stack (active ∖ {[id]}) (with_rt (update_node id (set_color Clean) (rt m)) m).
Proof.
  intros Hn Hc Hk. cbn [pull Nat.add]. rewrite (bind_done _ _ _ _ _ (read_done _ _)), Hn.
  rewrite (bool_decide_false (color n = Clean)), (bool_decide_false (kind n = Signal)), (bool_decide_false (color n = Dirty)) by congruence.
  cbn [orb]. by rewrite (bind_done _ _ _ _ _ (assign_done _ _)).
Qed.

Lemma pull_source fuel k s ss stack active m n ns :
  node (rt m) id = Some n -> color n = Check -> kind n <> Signal -> node (rt m) s = Some ns -> s ∉ active ->
  pull fuel (interp fuel).1 (interp fuel).2 (1 + k) (mkPull id (s :: ss) :: stack) active m =
  pull fuel (interp fuel).1 (interp fuel).2 k (mkPull s (sources ns) :: mkPull id ss :: stack) ({[s]} ∪ active) m.
Proof.
  intros Hn Hc Hk Hs Ha. cbn [pull Nat.add]. rewrite (bind_done _ _ _ _ _ (read_done _ _)), Hn.
  rewrite (bool_decide_false (color n = Clean)), (bool_decide_false (kind n = Signal)), (bool_decide_false (color n = Dirty)) by congruence.
  cbn [orb]. rewrite (bind_done _ _ _ _ _ (read_done _ _)), Hs, bool_decide_false by done. done.
Qed.

(** A dirty node runs. *)
Lemma pull_dirty_ok ss m n active :
  coherent (rt m) -> quiet (rt m) -> idle (S (rk id)) (rt m) -> node (rt m) id = Some n -> color n = Dirty ->
  exists N K m', (forall fuel, (N <= fuel)%nat -> forall k stack,
      pull fuel (interp fuel).1 (interp fuel).2 (K + k) (mkPull id ss :: stack) active m =
      pull fuel (interp fuel).1 (interp fuel).2 k stack (active ∖ {[id]}) m') /\ pulled id n m m'.
Proof.
  intros C Q I Hn Hc. pose proof (coherent_signature _ _ _ C id) as Hs. rewrite Hn in Hs. pose proof (Hpure id) as Hp. rewrite <-Hs in Hp.
  cbn in Hp. unfold signature in Hp.
  assert (Hex : exists out p, pure out (rk id) p /\ compute n = Some p /\ computed (kind n)).
  { destruct (kind n) eqn:Hk; [|by destruct (coherent_signal _ _ _ C id n Hn Hk) as [? _]; congruence| |].
    - by destruct (coherent_owner _ _ _ C id n Hn Hk) as [? _]; congruence.
    - destruct (compute n) as [p|]; [|done]. destruct (eq_fn n) as [e|]; [|done]. exists false, p. split_and!; [apply Hp|done|by left].
    - destruct (compute n) as [p|]; [|done]. destruct (eq_fn n) as [e|]; [done|]. exists true, p. split_and!; [apply Hp|done|by right]. }
  destruct Hex as (out & p & Hpp & Hcp & Hk).
  destruct (computation_runs id m n p out) as (N & m' & H & Hrest & P & Hcl & He); try done; [|congruence|].
  { intros s Hlt Hms. by apply pull_ok_pulls, IHid. }
  exists N, 1%nat, m'. split.
  - intros fuel Hf k stack. apply (pull_dirty _ _ _ _ _ _ n); [done|done|by destruct Hk; congruence|by apply H].
  - split_and!; [done|done|done|]. left. exists p. split_and!; [done|done|by left].
Qed.

Lemma pull_runs : pull_ok id.
Proof.
  intros ss. induction ss as [|s ss IH]; intros m n active C Q I Hn Ha Hss Hcheck; destruct (color n) eqn:Hc;
    try (by apply pull_dirty_ok); try (by exists 0%nat, 1%nat, m; split; [intros fuel _ k stack; by apply (pull_clean _ _ _ _ _ _ n)|];
      split_and!; [done|by apply progress_refl|by exists n|right; split_and!; [done|congruence|]; intros x Hx; split; [done|];
        destruct (source_edge _ (coherent_graph _ _ _ C) id n x Hn Hx) as (k & Hk & _); exists k; split; [done|];
        by apply (clean_sources rk sg (rt m) id n x k)]);
    destruct (checked_kind (rt m) id n C Hn Hc) as [Hks _].
  - assert (Hs : forall x, x ∈ sources n -> clean_at (rt m) x).
    { intros x Hx. by destruct (Hcheck eq_refl x Hx) as [Hbad%not_elem_of_nil|]. }
    exists 0%nat, 1%nat, (with_rt (update_node id (set_color Clean) (rt m)) m). split; [intros; by apply (pull_checked _ _ _ _ _ n)|].
    pose proof (checked_progress (rt m) id n C Hn Hc Hs) as P. split_and!.
    + apply rest_update.
    + exact P.
    + by apply (checked_clean (rt m) id n).
    + right. split_and!; [done|congruence|]. intros x Hx. destruct (progress_clean _ _ _ _ P (Hs x Hx)). done.
  - destruct (coherent_sources _ _ _ C id n s Hn) as [Hsk Hlt]; [apply Hss; by left|].
    destruct (source_edge _ (coherent_graph _ _ _ C) id n s Hn) as (ns & Hns & _); [apply Hss; by left|].
    assert (Hsa : s ∉ active) by (intros Hbad; specialize (Ha s Hbad); lia).
    destruct (IHid s Hlt (sources ns) m ns ({[s]} ∪ active) C Q) as (N1 & K1 & m1 & H1 & R1 & P1 & Cl1 & U1); try done.
    { apply (idle_le (S (rk id))); [lia|done]. }
    { intros a [->%elem_of_singleton|Hin]%elem_of_union; [lia|]. specialize (Ha a Hin). lia. }
    { intros _ x Hx. by left. }
    assert (Hbs : below s id) by (split; [intros ->; lia|right; lia]).
    destruct (rest_fields _ _ R1) as (_ & _ & _ & _ & Hfl & Hbd & _).
    destruct (proj2 (progress_evolves _ _ _ P1) id n Hn) as (n1 & Hn1 & E1).
    destruct (evolved_kept _ _ _ _ _ _ E1 Hbs) as (_ & Hsrc & _).
    destruct (IH m1 n1 active) as (N2 & K2 & m2 & H2 & R2 & P2 & Cl2 & U2).
    { apply P1. }
    { by apply (progress_quiet (below s) (rt m)). }
    { by apply (progress_idle (below s) _ (rt m)). }
    { done. }
    { done. }
    { intros x Hx. rewrite Hsrc. apply Hss. by right. }
    { intros _ x Hx. rewrite Hsrc in Hx. destruct (Hcheck eq_refl x Hx) as [[->|Hin]%elem_of_cons|Hcl]; [by right|by left|].
      right. by apply (progress_clean (below s) (rt m)). }
    exists (N1 + N2)%nat, (S (K1 + K2)), m2. split.
    + intros fuel Hf k stack. replace (S (K1 + K2) + k)%nat with (1 + (K1 + (K2 + k)))%nat by lia.
      rewrite (pull_source _ _ _ _ _ _ _ n ns), (H1 fuel) by (done || lia).
      replace (({[s]} ∪ active) ∖ {[s]}) with active by (apply set_eq; set_solver). by rewrite (H2 fuel) by lia.
    + split_and!; [congruence| |done|].
      * eapply progress_trans; [|exact P2]. apply (progress_weaken (below s)); [|done]. intros y _ [Hy Hr]. split.
        -- intros ->. destruct Hr as [Hr|Hr]; [|lia]. destruct Hsk as [Hsk|Hsk]; by pose proof (is_kind_inj _ _ _ _ Hsk Hr).
        -- destruct Hr as [Hr|Hr]; [by left|right; lia].
      * apply (caught_up_trans (below s) (below id) id n n1 m m1 m2); try done. by apply (source_silent s ns).
Qed.


End pull.

Lemma all_pull id : pull_ok id.
Proof.
  assert (Hall : forall k s, (rk s < k)%nat -> pull_ok s).
  { intros k. induction k as [|k IH]; intros s Hs; [lia|]. apply pull_runs. intros x Hx. apply IH. lia. }
  apply (Hall (S (rk id))). lia.
Qed.

(** [update_if_necessary] on any live node. *)
Lemma update_runs id m n :
  coherent (rt m) -> quiet (rt m) -> idle (S (rk id)) (rt m) -> node (rt m) id = Some n ->
  exists N m', (forall fuel, (N <= fuel)%nat -> update_if_necessary fuel (interp fuel).1 (interp fuel).2 id m = Some (Done (), m')) /\
    pulled id n m m'.
Proof. apply pull_ok_update, all_pull. Qed.

(** ** The meaning of a node does not depend on what has been pulled *)

Lemma meaning_evolves G r r' fuel id : coherent r -> evolves G r r' -> meaning fuel r' id = meaning fuel r id.
Proof.
  intros C [Hnone He]. revert id. induction fuel as [|fuel IH]; intros id; [done|]. cbn [meaning].
  destruct (node r id) as [n|] eqn:Hn; [|by rewrite (Hnone id Hn)]. destruct (He id n Hn) as (n' & -> & E). cbn [mbind option_bind].
  pose proof (evolved_signature _ _ _ _ _ _ E) as Hs.
  assert (Hk : kind n' = kind n) by exact (f_equal (fun t => t.1.1) Hs). assert (Hp : compute n' = compute n) by exact (f_equal (fun t => t.1.2) Hs).
  rewrite Hk, Hp. destruct (kind n) eqn:Hkind; try done.
  - apply (evolved_clean _ _ _ _ _ _ E). by apply (coherent_signal _ _ _ C id n).
  - destruct (compute n) as [p|]; [|done]. cbn. by apply eval_ext.
Qed.

(** No closure runs and no batch is open. *)
Definition all_idle r : Prop := forall y n, node r y = Some n -> running n = false.

Lemma all_idle_idle b r : all_idle r -> idle b r.
Proof. intros I y n Hn Hr. by rewrite (I y n Hn) in Hr. Qed.

Lemma progress_all_idle G r r' : progress G r r' -> all_idle r -> all_idle r'.
Proof.
  intros P I y n' Hn'. pose proof (progress_running _ _ _ P y) as Hr. rewrite Hn' in Hr.
  destruct (node r y) as [n|] eqn:Hn; [|done]. injection Hr as Hr. by rewrite Hr, (I y n).
Qed.

Record settled r : Prop := {
  settled_coherent : coherent r;
  settled_idle : all_idle r;
  settled_rest : observer r = None /\ active_owner r = None /\ frames r = [] /\ flushing r = false /\ batch_depth r = 0;
  settled_pending : pending r = [];
  settled_effects y n : node r y = Some n -> kind n = Effect -> color n = Clean }.

Lemma progress_rests G r r' : progress G r r' -> rest r' = rest r -> settled r -> settled r'.
Proof.
  intros P Hr [C I (R1 & R2 & R3 & R4 & R5) Hp He]. destruct (rest_fields _ _ Hr) as (_ & F2 & F3 & F4 & F5 & F6 & _).
  destruct (progress_settled G r r' P He Hp) as [Hp' He'].
  split; [apply P|by apply (progress_all_idle G r)|split_and!; congruence|done|done].
Qed.

Lemma settled_quiet r : settled r -> quiet r.
Proof. intros [_ _ _ Hp He]. right. right. done. Qed.

(** Reading a memo from outside. *)
Definition get_memo id : Prog V := Call (MemoGet id) (fun a => match a with ValueReply v => Return v | _ => Throw "" end).

(** C3. Reading a memo gives what its function computes from the present signals,
    whatever was stale: in a settled acyclic graph of pure memos with lawful
    comparisons, [Memo::get] returns, its result is the [meaning] of the memo, no
    effect shows anything, the graph is settled again and no meaning has changed. *)
Theorem get_memo_exact id m :
  settled (rt m) -> is_kind Memo id ->
  exists N m' v, (forall fuel, (N <= fuel)%nat -> run_prog fuel (get_memo id) m = Some (Done v, m')) /\
    meaning (S (rk id)) (rt m) id = Some v /\ emitted m' = emitted m /\ settled (rt m') /\
    forall fuel x, meaning fuel (rt m') x = meaning fuel (rt m) x.
Proof.
  intros S Hk. destruct (coherent_live _ _ _ _ _ (settled_coherent _ S) Hk) as (n & Hn & Hkn).
  assert (C : coherent (rt m)) by apply S.
  destruct (update_runs id m n C (settled_quiet _ S) (all_idle_idle _ _ (settled_idle _ S)) Hn) as (N & m' & H & Hrest & P & Hcl & U).
  assert (S' : settled (rt m')) by (by apply (progress_rests (below id) (rt m))).
  destruct (clean_value (rt m') id) as (n' & v & Hn' & Hv); [apply S'|done|by right|].
  assert (Hmean : forall fuel x, meaning fuel (rt m') x = meaning fuel (rt m) x) by (intros; eapply meaning_evolves; [done|apply P]).
  exists (Datatypes.S (Datatypes.S N)), m', v. split_and!; try done.
  - intros [|[|fuel]] Hf; [lia..|]. unfold run_prog, get_memo. rewrite interp_run. cbn [run_step api].
    rewrite (bind_done _ _ m (ValueReply v) m'); [by rewrite interp_run|]. apply fmap_done. unfold memo_get.
    rewrite (bind_done _ _ _ _ _ (H (Datatypes.S fuel) ltac:(lia))). rewrite (bind_done _ _ m' () m').
    + by apply (stable_value_done _ _ id n').
    + unfold track. rewrite (bind_done _ _ _ _ _ (read_done _ _)), (bind_done _ _ _ _ _ (read_done _ _)).
      by rewrite (proj1 (settled_rest _ S')).
  - rewrite <-Hmean, <-Hv. destruct Hcl as (k & Hk' & Hc). rewrite Hn' in Hk'. injection Hk' as <-.
    apply (clean_meaning rk sg); [apply S'|done|by right|done|lia].
  - apply (source_silent id n m m'); [by right|done..].
Qed.

(** ** Flushing *)

Record flushable r : Prop := {
  flushable_coherent : coherent r;
  flushable_idle : all_idle r;
  flushable_flushing : flushing r = true;
  flushable_effects y n : node r y = Some n -> kind n = Effect -> color n <> Clean -> y ∈ pending r }.

(** An effect in the queue may be queued once more by its own sources before it runs. *)
Definition turns r y : nat := match node r y with Some n => if decide (color n = Clean) then 1 else 2 | None => 1 end.
Definition queue_turns r : nat := sum_list_with (turns r) (pending r).

Lemma sum_le {A} (f g : A -> nat) (l : list A) :
  (forall a : A, a ∈ l -> (f a <= g a)%nat) -> (sum_list_with f l <= sum_list_with g l)%nat.
Proof.
  induction l as [|a l IH]; cbn; intros Hl; [lia|]. pose proof (Hl a ltac:(by left)).
  assert (sum_list_with f l <= sum_list_with g l)%nat; [|lia]. apply IH. intros b Hb. apply Hl. by right.
Qed.

Definition shown r e : list V := match (node r e ≫= compute) with Some p => outputs (look r) p | None => [] end.

(** What a flush from [m] to [m'] did: the effects [es] ran, each once. *)
Record flushed m m' (es : list NodeId) : Prop := {
  flushed_rest : rest (rt m') = rest (rt m);
  flushed_state : flushable (rt m') /\ pending (rt m') = [];
  flushed_evolves : evolves (fun _ => False) (rt m) (rt m');
  flushed_once : NoDup es;
  flushed_emitted : emitted m' = (emitted m ++ concat (map (shown (rt m')) es))%list;
  flushed_exact e : e ∈ es <-> exists n, node (rt m) e = Some n /\ kind n = Effect /\
    (color n = Dirty \/ exists x, x ∈ sources n /\ look (rt m') x <> look (rt m) x) }.

Lemma flushed_nothing m : flushable (rt m) -> pending (rt m) = [] -> flushed m m [].
Proof.
  intros F Hp. split; [done|done|apply evolves_refl|by apply NoDup_nil_2|by rewrite app_nil_r|].
  intros e. split; [by intros ?%not_elem_of_nil|]. intros (n & Hn & Hk & [Hd|(x & _ & Hne)]); [|done].
  rewrite <-Hp. apply (flushable_effects _ F e n Hn Hk). congruence.
Qed.

(** Popping the next effect. *)
Definition popped_rt id (q : list NodeId) r : Runtime V := set_pending q (update_node id (set_queued false) r).

Lemma popped_core id q r : same_core r (popped_rt id q r).
Proof. exact (core_update r id (set_queued false) (fun n => eq_refl)). Qed.

Lemma popped_node_running id q r y n : node (popped_rt id q r) y = Some n -> exists n0, node r y = Some n0 /\ running n = running n0.
Proof.
  change (node (popped_rt id q r) y) with (node (update_node id (set_queued false) r) y). rewrite node_update.
  destruct (decide (y = id)) as [->|]; [|by exists n]. destruct (node r id) as [n0|]; [|done]. intros [= <-]. by exists n0.
Qed.

Lemma pop_next id q r :
  flushable r -> pending r = id :: q ->
  pop_pending r = (Some id, popped_rt id q r) /\ coherent (popped_rt id q r) /\ all_idle (popped_rt id q r) /\
  rest (popped_rt id q r) = rest r /\ (id ∉ q) /\
  exists n, node r id = Some n /\ kind n = Effect /\ node (popped_rt id q r) id = Some (set_queued false n).
Proof.
  intros [C I Hf He] Hp. pose proof (coherent_graph _ _ _ C) as Gr.
  assert (Hid : id ∈ pending r) by (rewrite Hp; by left). apply (queue_exact _ Gr) in Hid as (n & Hn & Hq).
  assert (Hpop : pop_pending r = (Some id, popped_rt id q r)).
  { unfold pop_pending. rewrite Hp. cbn [pop_pending_from]. by rewrite Hn. }
  assert (Hrest : rest (popped_rt id q r) = rest r) by apply (rest_update r id (set_queued false)).
  split_and!; [done| | |done| |].
  - apply (core_coherent r); [apply popped_core| |by destruct (rest_fields _ _ Hrest) as (_ & _ & _ & _ & _ & _ & ?)|done].
    by apply (pop_pending_ok r (Some id)).
  - intros y a (a0 & Ha0 & ->)%popped_node_running. by apply (I y).
  - pose proof (queue_once _ Gr) as Hnd. rewrite Hp in Hnd. by apply NoDup_cons in Hnd as [? _].
  - exists n. split_and!; [done|by apply (queue_effects _ Gr id)|].
    change (node (popped_rt id q r) id) with (node (update_node id (set_queued false) r) id). by rewrite node_update, decide_True, Hn.
Qed.

Section one_effect.
Context (id : NodeId) (q : list NodeId) (m m2 : Machine V) (n : Node V).
Context (F : flushable (rt m)) (Hp : pending (rt m) = id :: q) (Hn : node (rt m) id = Some n) (Hk : kind n = Effect).

Let m1 := with_rt (popped_rt id q (rt m)) m.
Context (Hpull : pulled id (set_queued false n) m1 m2).

Lemma popped_back y a1 : node (rt m1) y = Some a1 -> exists a, node (rt m) y = Some a /\ core a = core a1.
Proof. apply core_some. symmetry. apply popped_core. Qed.

(** The queue afterwards: the effect may only be there again if it was not clean. *)
Lemma queue_after : exists l, pending (rt m2) = (q ++ l)%list /\ (l = [] \/ l = [id] /\ color n <> Clean).
Proof.
  destruct Hpull as (_ & [C2 R2 [Hnone He] (l & Hl & Hin)] & _). change (pending (rt m1)) with q in Hl.
  exists l. split; [done|]. pose proof (coherent_graph _ _ _ C2) as G2. pose proof (queue_once _ G2) as Hnd. rewrite Hl in Hnd.
  apply NoDup_app in Hnd as (_ & Hdis & Hnd).
  assert (Hall : forall x, x ∈ l -> x = id /\ color n <> Clean).
  { intros x Hx. destruct (Hin x Hx) as (a1 & Ha1 & Hc1). destruct (popped_back x a1 Ha1) as (a & Ha & Hca%core_fields). destruct_and! Hca.
    destruct (decide (x = id)) as [->|Hne]; [split; [done|]; rewrite Hn in Ha; injection Ha as <-; congruence|exfalso].
    assert (Hx2 : x ∈ pending (rt m2)) by (rewrite Hl; apply elem_of_app; by right).
    apply (queue_exact _ G2) in Hx2 as (a2 & Ha2 & Hq2). pose proof (queue_effects _ G2 x a2 Ha2 Hq2) as Hk2.
    destruct (He x a1 Ha1) as (a2' & Ha2' & E). rewrite Ha2 in Ha2'. injection Ha2' as <-.
    pose proof (f_equal (fun t => t.1.1) (evolved_signature _ _ _ _ _ _ E)) as Hke. cbn in Hke.
    assert (Hxq : x ∈ pending (rt m)) by (apply (flushable_effects _ F x a Ha); congruence).
    rewrite Hp in Hxq. apply elem_of_cons in Hxq as [|Hxq]; [done|]. by apply (Hdis x). }
  destruct l as [|x l]; [by left|right]. destruct (Hall x) as [-> Hc]; [by left|]. split; [|done]. f_equal.
  destruct l as [|y l]; [done|]. destruct (Hall y) as [-> _]; [right; by left|]. apply NoDup_cons in Hnd as [Hbad _]. destruct Hbad. by left.
Qed.

Lemma stale_back y a2 : node (rt m2) y = Some a2 -> color a2 <> Clean ->
  y <> id /\ exists a, node (rt m) y = Some a /\ kind a = kind a2 /\ color a <> Clean.
Proof.
  intros Ha2 Hc2. destruct Hpull as (_ & [C2 R2 [Hnone He] _] & (k & Hid & Hck) & _).
  split; [intros ->; congruence|]. destruct (node (rt m1) y) as [a1|] eqn:Ha1; [|rewrite (Hnone y Ha1) in Ha2; done].
  destruct (He y a1 Ha1) as (a2' & Ha2' & E). rewrite Ha2 in Ha2'. injection Ha2' as <-.
  destruct (popped_back y a1 Ha1) as (a & Ha & Hca%core_fields). destruct_and! Hca. exists a.
  pose proof (f_equal (fun t => t.1.1) (evolved_signature _ _ _ _ _ _ E)) as Hke. cbn in Hke.
  split_and!; [done|congruence|]. intros Hcl. destruct (evolved_clean _ _ _ _ _ _ E) as [? _]; congruence.
Qed.

Lemma flushable_after : flushable (rt m2).
Proof.
  pose proof (pop_next id q (rt m) F Hp) as (_ & C1 & I1 & R1 & _). destruct Hpull as (Hrest & P & _). split.
  - apply P.
  - by apply (progress_all_idle (below id) (rt m1)).
  - destruct (rest_fields _ _ (eq_trans Hrest R1)) as (_ & _ & _ & _ & Hfl & _). rewrite Hfl. apply F.
  - intros y a2 Ha2 Hk2 Hc2. destruct (stale_back y a2 Ha2 Hc2) as (Hy & a & Ha & Hka & Hca).
    assert (Hin : y ∈ pending (rt m)) by (apply (flushable_effects _ F y a Ha); [congruence|done]).
    rewrite Hp in Hin. apply elem_of_cons in Hin as [|Hin]; [done|]. destruct queue_after as (l & -> & _). apply elem_of_app. by left.
Qed.

Lemma turns_after y : y <> id -> (turns (rt m2) y <= turns (rt m) y)%nat.
Proof.
  intros Hy. unfold turns. destruct (node (rt m2) y) as [a2|] eqn:Ha2; [|destruct (node (rt m) y); [case_decide|]; lia].
  case_decide as Hc2; [destruct (node (rt m) y); [case_decide|]; lia|].
  destruct (stale_back y a2 Ha2 Hc2) as (_ & a & -> & _ & Hc). by rewrite decide_False.
Qed.

Lemma queue_turns_after : (queue_turns (rt m2) < queue_turns (rt m))%nat.
Proof.
  pose proof (pop_next id q (rt m) F Hp) as (_ & _ & _ & _ & Hnotin & _).
  assert (Hq : (sum_list_with (turns (rt m2)) q <= sum_list_with (turns (rt m)) q)%nat).
  { apply sum_le. intros y Hy. apply turns_after. by intros ->. }
  unfold queue_turns. destruct queue_after as (l & -> & Hl). rewrite Hp, sum_list_with_app. cbn.
  assert (Ht : turns (rt m) id = if decide (color n = Clean) then 1%nat else 2%nat) by (unfold turns; by rewrite Hn).
  destruct Hl as [->|[-> Hc]]; cbn.
  - rewrite Ht. case_decide; lia.
  - rewrite Ht, decide_False by done. destruct Hpull as (_ & _ & (k & Hid & Hck) & _). unfold turns at 2.
    rewrite Hid, decide_True by done. lia.
Qed.

(** What one effect shows does not change while the others run. *)
Lemma shown_after m' p :
  evolves (fun _ => False) (rt m2) (rt m') -> compute n = Some p -> shown (rt m') id = outputs (look (rt m2)) p.
Proof.
  intros E Hcp. destruct Hpull as (_ & P & (k & Hid & Hck) & _). pose proof (progress_coherent _ _ _ P) as C2.
  destruct (proj2 (progress_evolves _ _ _ P) id (set_queued false n)) as (k' & Hk' & E1).
  { pose proof (pop_next id q (rt m) F Hp) as (_ & _ & _ & _ & _ & n' & Hn' & _ & Hset). rewrite Hn in Hn'. by injection Hn' as <-. }
  rewrite Hid in Hk'. injection Hk' as <-. pose proof (evolved_signature _ _ _ _ _ _ E1) as Hsig.
  assert (Hkk : kind k = Effect) by (etrans; [exact (f_equal (fun t => t.1.1) Hsig)|exact Hk]).
  assert (Hkp : compute k = Some p) by (etrans; [exact (f_equal (fun t => t.1.2) Hsig)|exact Hcp]).
  destruct (proj2 E id k Hid) as (k2 & Hk2 & E2). unfold shown. rewrite Hk2. cbn.
  assert (Hkp2 : compute k2 = Some p) by (etrans; [exact (f_equal (fun t => t.1.2) (evolved_signature _ _ _ _ _ _ E2))|exact Hkp]).
  rewrite Hkp2. destruct (coherent_fresh _ _ _ C2 id k Hid) as (p' & v & Hp' & _ & _ & Hr); [by right|congruence|].
  rewrite Hkp in Hp'. injection Hp' as <-.
  assert (Hext : forall x, x ∈ reads (look (rt m2)) p -> look (rt m2) x = look (rt m') x).
  { intros x Hx. destruct (source_edge _ (coherent_graph _ _ _ C2) id k x Hid (Hr x Hx)) as (a & Ha & _). symmetry.
    apply (evolved_look _ _ _ _ _ E Ha). by apply (clean_sources rk sg (rt m2) id k x a C2 Hid Hck (Hr x Hx)). }
  symmetry. by apply (eval_ext _ _ p Hext).
Qed.

End one_effect.
Section flushed_after.
Context (id : NodeId) (q : list NodeId) (m m2 m' : Machine V) (n : Node V) (es2 : list NodeId).
Context (F : flushable (rt m)) (Hp : pending (rt m) = id :: q) (Hn : node (rt m) id = Some n) (Hk : kind n = Effect).

Let m1 := with_rt (popped_rt id q (rt m)) m.
Context (Hpull : pulled id (set_queued false n) m1 m2) (H2 : flushed m2 m' es2).

Lemma popped_some : node (rt m1) id = Some (set_queued false n).
Proof. pose proof (pop_next id q (rt m) F Hp) as (_ & _ & _ & _ & _ & n' & Hn' & _ & Hset). rewrite Hn in Hn'. by injection Hn' as <-. Qed.

Lemma popped_look x : look (rt m1) x = look (rt m) x.
Proof. apply core_look, popped_core. Qed.

Lemma evolves_popped : evolves (below id) (rt m) (rt m2).
Proof. eapply evolves_trans; [apply core_evolves, popped_core|]. apply Hpull. Qed.

Lemma evolves_flushed : evolves (fun _ => False) (rt m) (rt m').
Proof. eapply evolves_trans; [|apply H2]. eapply evolves_weaken; [|apply evolves_popped]. done. Qed.

Lemma changed_flushed x : look (rt m') x <> look (rt m) x <-> look (rt m2) x <> look (rt m) x \/ look (rt m') x <> look (rt m2) x.
Proof. eapply changed_trans; [|apply H2]. eapply evolves_weaken; [|apply evolves_popped]. done. Qed.

(** The effect that was pulled is clean, and so are its sources. *)
Lemma pulled_not_again : id ∉ es2.
Proof.
  destruct Hpull as (_ & P & (k & Hid & Hck) & _). intros (k' & Hk' & _ & Hd)%(flushed_exact _ _ _ H2).
  rewrite Hid in Hk'. injection Hk' as <-. destruct Hd as [Hd|(x & Hx & Hne)]; [congruence|]. destruct Hne.
  pose proof (progress_coherent _ _ _ P) as C2. destruct (source_edge _ (coherent_graph _ _ _ C2) id k x Hid Hx) as (a & Ha & _).
  apply (evolved_look _ _ _ _ _ (flushed_evolves _ _ _ H2) Ha). by apply (clean_sources rk sg (rt m2) id k x a C2 Hid Hck Hx).
Qed.

(** For the other effects, what is left to do is what there was to do. *)
Lemma other_exact e : e <> id ->
  e ∈ es2 <-> exists a, node (rt m) e = Some a /\ kind a = Effect /\
    (color a = Dirty \/ exists x, x ∈ sources a /\ look (rt m') x <> look (rt m) x).
Proof.
  intros He. rewrite (flushed_exact _ _ _ H2 e). pose proof evolves_popped as [Hnone Hev].
  destruct (node (rt m) e) as [a|] eqn:Ha; [|rewrite (Hnone e Ha); split; intros (? & ? & _); done].
  destruct (Hev e a Ha) as (a2 & Ha2 & E). pose proof (f_equal (fun t => t.1.1) (evolved_signature _ _ _ _ _ _ E)) as Hke. cbn in Hke.
  rewrite Ha2. assert (Hb : kind a = Effect -> below id e).
  { intros Hka. split; [done|]. left. rewrite <-Hka. apply (coherent_kind rk sg (rt m)); [apply F|done]. }
  split.
  - intros (? & [= <-] & Hk2 & Hd). exists a. split_and!; [done|congruence|].
    destruct (evolved_kept _ _ _ _ _ _ E) as (_ & Hs & _ & _ & Hdirty); [apply Hb; congruence|].
    destruct Hd as [Hd|(x & Hx & Hne)].
    + destruct (Hdirty Hd) as [|(x & Hx & Hne)]; [by left|right]. exists x. split; [done|]. apply changed_flushed. by left.
    + right. exists x. split; [congruence|]. apply changed_flushed. by right.
  - intros (? & [= <-] & Hka & Hd). exists a2. split_and!; [done|congruence|].
    destruct (evolved_kept _ _ _ _ _ _ E (Hb Hka)) as (_ & Hs & _ & Hfresh & _).
    destruct (decide (color a2 = Dirty)) as [|Hnd]; [by left|right]. destruct (Hfresh Hnd) as [Hd0 Hsame].
    destruct Hd as [Hd|(x & Hx & Hne)]; [done|]. exists x. split; [congruence|].
    apply changed_flushed in Hne as [Hne|Hne]; [|done]. by destruct Hne; apply Hsame.
Qed.

Lemma flushed_cons : exists es, flushed m m' es.
Proof.
  assert (Hrest : rest (rt m') = rest (rt m)).
  { pose proof (pop_next id q (rt m) F Hp) as (_ & _ & _ & R1 & _). etrans; [apply H2|]. etrans; [apply Hpull|exact R1]. }
  destruct Hpull as (_ & _ & _ & [(p & Hcp & Ho & Hd)|(Ho & Hnd & Hs)]).
  - exists (id :: es2). split; [done|apply H2|apply evolves_flushed| | |].
    + apply NoDup_cons. split; [apply pulled_not_again|apply H2].
    + cbn. rewrite (shown_after id q m m2 n F Hp Hn Hk Hpull m' p (flushed_evolves _ _ _ H2) Hcp).
      rewrite (flushed_emitted _ _ _ H2), Ho, app_assoc. done.
    + intros e. destruct (decide (e = id)) as [->|He]; [|rewrite elem_of_cons, <-(other_exact e He); naive_solver].
      split; [intros _|by left]. exists n. split_and!; [done|done|]. destruct Hd as [Hd|(x & Hx & Hne)]; [by left|right].
      exists x. split; [done|]. apply changed_flushed. left. by rewrite <-(popped_look x).
  - exists es2. split; [done|apply H2|apply evolves_flushed|apply H2| |].
    + by rewrite (flushed_emitted _ _ _ H2), Ho.
    + intros e. destruct (decide (e = id)) as [->|He]; [|by apply other_exact].
      split; [intros Hbad; by destruct pulled_not_again|]. intros (a & Ha & _ & Hd). exfalso. rewrite Hn in Ha. injection Ha as <-.
      destruct Hd as [Hd|(x & Hx & Hne)]; [done|]. destruct (Hs x Hx) as [Hl (b & Hb & Hcb)].
      apply changed_flushed in Hne as [Hne|Hne]; [by destruct Hne; rewrite Hl; apply popped_look|].
      destruct Hne. by apply (evolved_look _ _ _ _ _ (flushed_evolves _ _ _ H2) Hb).
Qed.

End flushed_after.

(** The loop of a flush ends within its budget, without a panic. *)
Lemma flush_loop_runs w : forall m maximum executions,
  flushable (rt m) -> (queue_turns (rt m) <= w)%nat -> executions + N.of_nat w <= maximum ->
  exists N m' es, (forall fuel k, (N <= fuel)%nat -> (N <= k)%nat ->
      flush_loop fuel (interp fuel).1 (interp fuel).2 k maximum executions None m = Some (Done None, m')) /\ flushed m m' es.
Proof.
  induction w as [|w IH]; intros m maximum executions F Hw Hmax; destruct (pending (rt m)) as [|id q] eqn:Hp;
    try (exists 1%nat, m, []; split; [|by apply flushed_nothing]; intros fuel [|k] _ Hkk; [lia|]; cbn [flush_loop];
      rewrite (bind_done _ _ m None m); [done|]; destruct m as [[] e]; cbn in *; subst; done).
  - destruct (pop_next id q (rt m) F Hp) as (_ & _ & _ & _ & _ & n & Hn & _ & _).
    unfold queue_turns in Hw. rewrite Hp in Hw. cbn in Hw. unfold turns at 1 in Hw. rewrite Hn in Hw. case_decide; lia.
  - destruct (pop_next id q (rt m) F Hp) as (Hpop & C1 & I1 & R1 & _ & n & Hn & Hk & Hn1).
    set (m1 := with_rt (popped_rt id q (rt m)) m).
    destruct (update_runs id m1 (set_queued false n) C1) as (N1 & m2 & H1 & U); [|by apply all_idle_idle|done|].
    { right. left. destruct (rest_fields _ _ R1) as (_ & _ & _ & _ & Hfl & _). etrans; [exact Hfl|]. apply F. }
    pose proof (flushable_after id q m m2 n F Hp Hn U) as F2. pose proof (queue_turns_after id q m m2 n F Hp Hn U) as Hlt.
    destruct (IH m2 maximum (executions + 1) F2) as (N2 & m' & es2 & H2 & Hfl); [lia|lia|].
    destruct (flushed_cons id q m m2 m' n es2 F Hp Hn Hk U Hfl) as [es Hes]. exists (S (N1 + N2)), m', es. split; [|done].
    intros fuel [|k] Hfuel Hkk; [lia|]. cbn [flush_loop]. rewrite (bind_done _ _ m (Some id) m1).
    + replace (maximum <? executions + 1) with false by (symmetry; apply N.ltb_ge; lia).
      rewrite (bind_done _ _ _ _ _ (catch_done _ _ _ _ (H1 fuel ltac:(lia)))). apply H2; lia.
    + unfold attempt. by rewrite Hpop.
Qed.

(** ** The queue is shorter than the arena *)

Lemma count_le {A} (P : A -> Prop) `{!forall a : A, Decision (P a)} (l : list A) : forall idx : list nat,
  NoDup idx -> (forall i, i ∈ idx -> exists a : A, l !! i = Some a /\ P a) -> (length idx <= length (base.filter P l))%nat.
Proof.
  induction l as [|a l IH] using rev_ind; intros idx Hnd Hidx.
  - destruct idx as [|i idx]; [cbn; lia|]. destruct (Hidx i) as (a & Ha & _); [by left|]. by rewrite lookup_nil in Ha.
  - assert (Hlow : forall i, i <> length l -> (exists b, (l ++ [a])%list !! i = Some b /\ P b) -> exists b, l !! i = Some b /\ P b).
    { intros i Hi (b & Hb & HP). exists b. split; [|done]. pose proof (lookup_lt_Some _ _ _ Hb) as Hlt. rewrite length_app in Hlt. cbn in Hlt.
      rewrite lookup_app_l in Hb by lia. done. }
    rewrite filter_app, length_app. destruct (decide (length l ∈ idx)) as [Hin|Hout].
    + apply elem_of_Permutation in Hin as [idx' Hperm]. rewrite Hperm in Hnd. apply NoDup_cons in Hnd as [Hni Hnd].
      assert (HP : P a). { destruct (Hidx (length l)) as (b & Hb & HP); [rewrite Hperm; by left|]. rewrite lookup_app_r, Nat.sub_diag in Hb by lia.
        injection Hb as <-. done. }
      rewrite Hperm, filter_cons_True by done. cbn. rewrite Nat.add_comm. cbn. apply le_n_S, IH; [done|].
      intros i Hi. apply Hlow; [by intros ->|]. apply Hidx. rewrite Hperm. by right.
    + etrans; [apply (IH idx Hnd)|lia]. intros i Hi. apply Hlow; [by intros ->|by apply Hidx].
Qed.

Lemma live_count r (l : list NodeId) : NoDup l -> (forall x, x ∈ l -> live r x) -> blen l <= live_nodes r.
Proof.
  intros Hnd Hl.
  assert (Hc : (length (map (fun x => N.to_nat (slot x)) l) <= length (base.filter (fun s => is_Some (slot_node s)) (slots r)))%nat);
    [|rewrite length_map in Hc; unfold live_nodes, blen; lia].
  apply count_le.
  - assert (Hinj : forall x y, x ∈ l -> y ∈ l -> N.to_nat (slot x) = N.to_nat (slot y) -> x = y).
    { intros x y Hx Hy Hs. destruct (Hl x Hx) as [a Ha], (Hl y Hy) as [b Hb]. apply node_some in Ha, Hb.
      apply slot_inj; [done|]. rewrite Hs in Ha. congruence. }
    clear Hl. induction Hnd as [|x l Hx Hnd IH]; cbn; [by apply NoDup_nil_2|]. apply NoDup_cons. split.
    + intros (y & Hs & Hy)%list_elem_of_fmap. apply Hinj in Hs; [by subst|by left|by right].
    + apply IH. intros y z Hy Hz. apply Hinj; by right.
  - intros i (x & -> & Hx)%list_elem_of_fmap. destruct (Hl x Hx) as [a Ha]. apply node_some in Ha. eexists. split; [exact Ha|by eexists].
Qed.

Lemma queue_turns_bound r : (queue_turns r <= 2 * length (pending r))%nat.
Proof.
  unfold queue_turns. induction (pending r) as [|y l IH]; cbn; [lia|].
  assert (turns r y <= 2)%nat; [|lia]. unfold turns. destruct (node r y); [case_decide|]; lia.
Qed.

Lemma flush_runs m :
  coherent (rt m) -> all_idle (rt m) -> flushing (rt m) = false ->
  (forall y n, node (rt m) y = Some n -> kind n = Effect -> color n <> Clean -> y ∈ pending (rt m)) ->
  2 * blen (pending (rt m)) <= MAX_EFFECT_RUNS_PER_FLUSH ->
  let m1 := with_rt (set_flushing true (rt m)) m in
  exists N m2 es, (forall fuel, (N <= fuel)%nat -> (interp fuel).2 m = Some (Done (), with_rt (set_flushing false (rt m2)) m2)) /\
    flushed m1 m2 es.
Proof.
  intros C I Hf He Hmax m1.
  assert (F1 : flushable (rt m1)) by (split; [by apply (core_ok (rt m))|done|done|done]).
  assert (Hlive : blen (pending (rt m)) <= live_nodes (rt m)).
  { apply live_count; [apply (queue_once _ (coherent_graph _ _ _ C))|].
    intros x (n & Hn & _)%(queue_exact _ (coherent_graph _ _ _ C)). by exists n. }
  destruct (flush_loop_runs (queue_turns (rt m1)) m1 (max_executions (rt m1)) 0 F1) as (N & m2 & es & H & Hfl); [done| |].
  { pose proof (queue_turns_bound (rt m1)) as Hq. change (pending (rt m1)) with (pending (rt m)) in Hq.
    unfold max_executions. change (live_nodes (rt m1)) with (live_nodes (rt m)). unfold blen in *.
    unfold MIN_EFFECT_RUNS_PER_FLUSH, EFFECT_RUNS_PER_LIVE_NODE, MAX_EFFECT_RUNS_PER_FLUSH in *. lia. }
  exists (S N), m2, es. split; [|done]. intros [|fuel] Hfuel; [lia|]. rewrite interp_flush. unfold flush_effects.
  rewrite (bind_done _ _ _ _ _ (read_done _ _)), Hf, (bind_done _ _ _ _ _ (assign_done _ _)), (bind_done _ _ _ _ _ (read_done _ _)).
  fold m1. rewrite (bind_done _ _ m1 None m2); [|apply H; lia]. by rewrite (bind_done _ _ _ _ _ (assign_done _ _)).
Qed.

(** ** Writing a signal *)

Section written.
Context (r : Runtime V) (s : NodeId) (n : Node V) (w : V) (r2 : Runtime V).
Context (C : coherent r) (Hn : node r s = Some n) (Hk : kind n = Signal).
Context (Heff : forall y a, node r y = Some a -> kind a = Effect -> color a = Clean).

Let r1 := update_node s (set_value (Some w)) r.
Context (Hr2 : mark_subscribers s Dirty r1 = Some r2).

Lemma written_node y : node r1 y = (if decide (y = s) then set_value (Some w) else fun a => a) <$> node r y.
Proof. unfold r1. rewrite node_update. destruct (decide (y = s)) as [->|]; [done|by destruct (node r y)]. Qed.

(** A node after the write, and what it was. *)
Definition rewritten y (a : Node V) : Node V := (if decide (y = s) then set_value (Some w) else fun a => a) a.

Lemma rewritten_fields y a :
  kind (rewritten y a) = kind a /\ color (rewritten y a) = color a /\ sources (rewritten y a) = sources a /\
  subscribers (rewritten y a) = subscribers a /\ retry_notify (rewritten y a) = retry_notify a /\
  signature (rewritten y a) = signature a.
Proof. unfold rewritten. by destruct (decide (y = s)). Qed.

Definition has_source y : Prop := exists a x, node r y = Some a /\ x ∈ sources a.

Lemma written_graph : graph_ok r1.
Proof. apply (same_graph_ok r); [by apply same_graph_update|apply C]. Qed.

Lemma written_back y a1 : node r1 y = Some a1 -> exists a, node r y = Some a /\ a1 = rewritten y a.
Proof. rewrite written_node. destruct (node r y) as [a|]; [|done]. intros [= <-]. by exists a. Qed.

Lemma written_marking : exists visited, marking r1 s has_source [] visited r2.
Proof.
  assert (Hsub : forall x a y, node r1 x = Some a -> y ∈ subscribers a -> has_source y).
  { intros x a y (a0 & Ha0 & ->)%written_back Hy. destruct (rewritten_fields x a0) as (_ & _ & _ & Hs & _). rewrite Hs in Hy.
    destruct (subscriber_edge _ (coherent_graph _ _ _ C) x a0 y Ha0 Hy) as (b & Hb & Hin). by exists b, x. }
  apply mark_dirty; [apply written_graph| | | |by intros x a y _; apply Hsub| |done].
  - intros y a (a0 & Ha0 & ->)%written_back. destruct (rewritten_fields y a0) as (_ & _ & _ & _ & -> & _).
    by apply (coherent_quiet _ _ _ C y).
  - intros y a (a0 & Ha0 & ->)%written_back. destruct (rewritten_fields y a0) as (-> & _ & _ & -> & _). intros Hke.
    destruct (subscribers a0) as [|z l] eqn:Hz; [done|exfalso].
    destruct (coherent_subscribers rk sg r y a0 z C Ha0) as [|]; [rewrite Hz; by left|congruence|congruence].
  - intros x a y b (a0 & Ha0 & ->)%written_back. destruct (rewritten_fields x a0) as (_ & -> & _ & -> & _). intros Hc Hy (b0 & Hb0 & ->)%written_back.
    destruct (rewritten_fields y b0) as (_ & -> & _). by apply (coherent_colors _ _ _ C x a0 y b0).
  - intros y Hy. destruct (node r1 s) as [a|] eqn:Ha; [|by apply not_elem_of_nil in Hy]. by apply (Hsub s a).
Qed.

(** What the write and the marking leave of a node. *)
Record noted y (a a2 : Node V) : Prop := {
  noted_signature : signature a2 = signature a;
  noted_running : running a2 = running a;
  noted_quiet : retry_notify a2 = false /\ updating a2 = updating a /\ owned a2 = owned a /\ cleanups a2 = cleanups a;
  noted_edges : sources a2 = sources a /\ subscribers a2 = subscribers a;
  noted_value : value a2 = if decide (y = s) then Some w else value a;
  noted_color : color_rank (color a) <= color_rank (color a2) /\ (sources a = [] -> color a2 = color a);
  noted_dirty : (color a <> Dirty -> color a2 = Dirty -> s ∈ sources a) /\ (s ∈ sources a -> color a2 = Dirty);
  noted_queued : kind a = Effect -> color a2 <> Clean -> y ∈ pending r2 }.

Lemma written_subscribers : from_option subscribers [] (node r1 s) = subscribers n.
Proof. rewrite written_node, Hn. cbn. by rewrite decide_True. Qed.

Lemma subscribes y a : node r y = Some a -> s ∈ sources a <-> y ∈ subscribers n.
Proof.
  intros Ha. split; intros Hin.
  - destruct (source_edge _ (coherent_graph _ _ _ C) y a s Ha Hin) as (b & Hb & Hy). rewrite Hn in Hb. by injection Hb as <-.
  - destruct (subscriber_edge _ (coherent_graph _ _ _ C) s n y Hn Hin) as (b & Hb & Hy). rewrite Ha in Hb. by injection Hb as <-.
Qed.

Lemma written_noted y a : node r y = Some a -> exists a2, node r2 y = Some a2 /\ noted y a a2.
Proof.
  intros Ha. destruct written_marking as [visited [M1 M2 M3 M4 M5 M6 M7 M8 M9]]. rewrite written_subscribers in M4, M6.
  assert (Ha1 : node r1 y = Some (rewritten y a)) by (by rewrite written_node, Ha).
  destruct (marked_node_some _ _ _ _ M1 Ha1) as (c & e & q & Ha2 & Hc & Hq & He). exists (marked_node c e q (rewritten y a)).
  destruct (rewritten_fields y a) as (F1 & F2 & F3 & F4 & F5 & F6). destruct (coherent_quiet _ _ _ C y a Ha) as (Q1 & Q2 & Q3 & Q4).
  split; [done|]. split.
  - exact F6.
  - unfold rewritten. by destruct (decide (y = s)).
  - split_and!; [|unfold rewritten; by destruct (decide (y = s))..]. cbn. destruct e; [|done]. rewrite F5, Q1 in He. symmetry. by apply He.
  - done.
  - cbn. unfold rewritten. by destruct (decide (y = s)).
  - rewrite F2 in Hc. split; [done|]. intros Hs. rewrite M8, Ha1 in Ha2; [injection Ha2 as Ha2; rewrite <-Ha2; exact F2|].
    intros (b & x & Hb & Hx). rewrite Ha in Hb. injection Hb as <-. rewrite Hs in Hx. by apply not_elem_of_nil in Hx.
  - split.
    + intros Hnd Hd. destruct (M6 y _ _ Ha1 Ha2 Hd) as [Hbad|Hin]; [congruence|]. by apply (subscribes y a Ha).
    + intros Hin%(subscribes y a Ha). by destruct (M4 y _ Hin Ha2) as [|Hbad%not_elem_of_nil].
  - intros Hke Hne. assert (G2 : graph_ok r2) by (by eapply mark_ok; [apply written_graph|exact Hr2]).
    apply (queue_exact _ G2). eexists. split; [exact Ha2|]. apply (M7 y _ _ Ha1 Ha2); [congruence|].
    rewrite F2, (Heff y a Ha Hke). done.
Qed.

Lemma noted_back y a2 : node r2 y = Some a2 -> exists a, node r y = Some a /\ noted y a a2.
Proof.
  intros Ha2. destruct written_marking as [visited M].
  destruct (marked_node_back _ _ _ _ (marking_marked _ _ _ _ _ _ M) Ha2) as (a1 & c & e & q & Ha1 & _).
  destruct (written_back y a1 Ha1) as (a & Ha & _). destruct (written_noted y a Ha) as (a2' & Ha2' & H). exists a. split; [done|]. congruence.
Qed.

Lemma written_look x : look r2 x = if decide (x = s) then Some w else look r x.
Proof.
  unfold look. destruct (node r x) as [a|] eqn:Ha.
  - destruct (written_noted x a Ha) as (a2 & -> & H). cbn. by rewrite (noted_value _ _ _ H).
  - destruct (node r2 x) as [a2|] eqn:Ha2; [destruct (noted_back x a2 Ha2) as (a & Ha' & _); congruence|]. cbn.
    destruct (decide (x = s)) as [->|]; [congruence|done].
Qed.

Lemma written_fresh y a a2 : node r y = Some a -> noted y a a2 -> computed (kind a) -> color a2 <> Dirty -> fresh r2 a2.
Proof.
  intros Ha H Hka Hnd. destruct (noted_color _ _ _ H) as [Hc _]. destruct (noted_dirty _ _ _ H) as [_ Hd].
  assert (Hs : s ∉ sources a) by (intros Hin; by destruct Hnd; apply Hd).
  assert (Hka2 : kind a2 = kind a) by exact (f_equal (fun t => t.1.1) (noted_signature _ _ _ H)).
  assert (Hca2 : compute a2 = compute a) by exact (f_equal (fun t => t.1.2) (noted_signature _ _ _ H)).
  destruct (coherent_fresh _ _ _ C y a Ha Hka) as (p & v & Hp & Hv & Hval & Hr); [intros Hbad; rewrite Hbad in Hc; by destruct (color a2)|].
  assert (Hext : forall x, x ∈ reads (look r) p -> look r x = look r2 x).
  { intros x Hx. rewrite written_look, decide_False; [done|]. intros ->. by apply Hs, Hr. }
  destruct (eval_ext _ _ p Hext) as (He & Hr' & _). exists p, v. rewrite <-He, <-Hr', Hka2, Hca2, (proj1 (noted_edges _ _ _ H)).
  split_and!; [done|done| |done]. intros Hm. rewrite (noted_value _ _ _ H), decide_False; [by apply Hval|].
  intros ->. rewrite Hn in Ha. injection Ha as <-. congruence.
Qed.

Lemma written_coherent : coherent r2.
Proof.
  destruct written_marking as [visited M].
  split.
  - by eapply mark_ok; [apply written_graph|exact Hr2].
  - intros y. rewrite <-(coherent_signature _ _ _ C y). destruct (node r2 y) as [a2|] eqn:Ha2.
    + destruct (noted_back y a2 Ha2) as (a & -> & H). cbn. by rewrite (noted_signature _ _ _ H).
    + destruct (node r y) as [a|] eqn:Ha; [|done]. destruct (written_noted y a Ha) as (? & ? & _). congruence.
  - intros y a2 (a & Ha & H)%noted_back. destruct (noted_quiet _ _ _ H) as (? & ? & ? & ?).
    destruct (coherent_quiet _ _ _ C y a Ha) as (_ & ? & ? & ?). split_and!; congruence.
  - destruct (rest_fields _ _ (proj1 (marking_marked _ _ _ _ _ _ M))) as (_ & _ & _ & _ & _ & _ & Hd).
    destruct (rest_fields _ _ (rest_update r s (set_value (Some w)))) as (_ & _ & _ & _ & _ & _ & Hd1).
    etrans; [exact Hd|]. etrans; [exact Hd1|]. apply C.
  - intros y a2 (a & Ha & H)%noted_back Hk2. assert (Hka : kind a2 = kind a) by exact (f_equal (fun t => t.1.1) (noted_signature _ _ _ H)).
    destruct (coherent_signal _ _ _ C y a Ha) as (H1 & H2 & H3); [congruence|]. destruct (noted_color _ _ _ H) as [_ Hcc].
    rewrite (proj1 (noted_edges _ _ _ H)), (noted_value _ _ _ H). split_and!; [rewrite Hcc; done|done|by destruct (decide (y = s))].
  - intros y a2 (a & Ha & H)%noted_back Hk2. assert (Hka : kind a2 = kind a) by exact (f_equal (fun t => t.1.1) (noted_signature _ _ _ H)).
    destruct (coherent_owner _ _ _ C y a Ha) as (H1 & H2); [congruence|]. destruct (noted_color _ _ _ H) as [_ Hcc].
    rewrite (proj1 (noted_edges _ _ _ H)). split; [rewrite Hcc; done|done].
  - intros y a2 x (a & Ha & H)%noted_back. rewrite (proj1 (noted_edges _ _ _ H)). by apply (coherent_sources _ _ _ C y a).
  - intros x a y b Ha Hc Hy Hb. destruct (marking_closed _ _ _ _ _ _ M x a y b Ha Hc Hy Hb) as [|(c & f & Hbad%not_elem_of_nil)]; done.
  - intros y a2 (a & Ha & H)%noted_back Hk2 Hnd. apply (written_fresh y a); [done..| |done].
    assert (Hka : kind a2 = kind a) by exact (f_equal (fun t => t.1.1) (noted_signature _ _ _ H)). by rewrite <-Hka.
Qed.

End written.

(** Setting a signal from outside. *)
Definition set_signal id (v : V) : Prog V := Call (SignalSet id v) (fun _ => Return v).

Lemma replace_value_done s w m n v r2 :
  frames (rt m) = [] -> node (rt m) s = Some n -> updating n = false -> value n = Some v ->
  mark_subscribers s Dirty (update_node s (set_value (Some w)) (rt m)) = Some r2 ->
  replace_value s w m = Some (Done (), with_rt r2 m).
Proof.
  intros Hf Hn Hu Hv Hm. unfold replace_value. rewrite (bind_done _ _ m () m).
  - rewrite (bind_done _ _ _ _ _ (read_done _ _)), Hn, (bind_done (expect _ (Some n)) _ m n m eq_refl), Hu.
    rewrite (bind_done (assert (negb false) _) _ m () m eq_refl), (bind_done _ _ _ _ _ (assign_done _ _)), Hv.
    rewrite (bind_done (expect _ (Some v)) _ _ v _ eq_refl). unfold mark, attempt. cbn [rt with_rt]. by rewrite Hm.
  - unfold assert_signal_write_allowed. rewrite (bind_done _ _ m true m); [done|]. unfold attempt. rewrite Hf. by destruct m.
Qed.

Lemma signal_set_runs s w m m3 n v r2 N :
  frames (rt m) = [] -> batch_depth (rt m) = 0 -> node (rt m) s = Some n -> updating n = false -> value n = Some v ->
  mark_subscribers s Dirty (update_node s (set_value (Some w)) (set_batch_depth 1 (rt m))) = Some r2 -> batch_depth r2 = 1 ->
  (forall fuel, (N <= fuel)%nat -> (interp fuel).2 (with_rt (set_batch_depth 0 r2) m) = Some (Done (), m3)) ->
  forall fuel, (S (S N) <= fuel)%nat -> run_prog fuel (set_signal s w) m = Some (Done w, m3).
Proof.
  intros Hf Hd Hn Hu Hv Hm Hd2 H [|[|fuel]] Hfuel; [lia..|]. unfold run_prog, set_signal. rewrite interp_run. cbn [run_step api].
  rewrite (bind_done _ _ m UnitReply m3); [by rewrite interp_run|]. rewrite (bind_done _ _ m () m3); [done|].
  unfold signal_set, batch_enter. rewrite (bind_done _ _ _ _ _ (assign_done _ _)), Hd. set (m0 := with_rt _ m).
  rewrite (bind_done _ _ _ _ _ (catch_done _ _ _ _ (replace_value_done s w m0 n v r2 Hf Hn Hu Hv Hm))).
  unfold end_batch. rewrite (bind_done _ _ _ true (with_rt (set_batch_depth 0 r2) m)); [apply H; lia|].
  unfold batch_leave. rewrite (bind_done _ _ _ _ _ (read_done _ _)). cbn [rt with_rt]. by rewrite Hd2.
Qed.

(** A flush of the marked graph leaves it settled. *)
Lemma flushed_settled m m2 es :
  observer (rt m) = None /\ active_owner (rt m) = None /\ frames (rt m) = [] /\ batch_depth (rt m) = 0 ->
  flushed m m2 es -> settled (set_flushing false (rt m2)).
Proof.
  intros (R1 & R2 & R3 & R4) [Hr [F Hp] _ _ _ _]. destruct (rest_fields _ _ Hr) as (_ & F2 & F3 & F4 & F5 & F6 & _). split.
  - apply (core_ok (rt m2)); try done. apply F.
  - apply F.
  - cbn. split_and!; congruence.
  - done.
  - intros y n Hn Hk. destruct (decide (color n = Clean)) as [|Hc]; [done|].
    pose proof (flushable_effects _ F y n Hn Hk Hc) as Hbad. rewrite Hp in Hbad. by apply not_elem_of_nil in Hbad.
Qed.

(** What an effect shows, from the reference. *)
Definition effect_output r e : list V :=
  match (node r e ≫= compute) with Some p => outputs (meaning (rk e) r) p | None => [] end.

Lemma shown_meaning r e n : coherent r -> node r e = Some n -> kind n = Effect -> color n = Clean -> shown r e = effect_output r e.
Proof.
  intros C Hn Hk Hc. destruct (coherent_fresh _ _ _ C e n Hn) as (p & v & Hp & _ & _ & Hr); [by right|congruence|].
  unfold shown, effect_output. rewrite Hn. cbn. rewrite Hp. apply eval_ext. intros x Hx.
  destruct (source_edge _ (coherent_graph _ _ _ C) e n x Hn (Hr x Hx)) as (a & Ha & _).
  destruct (coherent_sources _ _ _ C e n x Hn (Hr x Hx)) as [Hkx Hlt]. rewrite (look_some _ _ _ Ha). symmetry.
  apply (clean_meaning rk sg); [done|done|done|by apply (clean_sources rk sg r e n x a C Hn Hc (Hr x Hx))|done].
Qed.

(** The effects that run are those that read [s] or a value that changed. *)
Lemma written_exact s n w r r2 m m2 es e :
  coherent r -> (forall y a, node r y = Some a -> kind a = Effect -> color a = Clean) -> node r s = Some n -> kind n = Signal -> mark_subscribers s Dirty (update_node s (set_value (Some w)) r) = Some r2 ->
  (forall y, node (rt m) y = node r2 y) -> flushed m m2 es ->
  e ∈ es <-> exists a, node r e = Some a /\ kind a = Effect /\ exists x, x ∈ sources a /\ (x = s \/ look (rt m2) x <> look r x).
Proof.
  intros C He Hn Hk Hr2 Hm H.
  rewrite (flushed_exact _ _ _ H e), Hm. assert (Hlook : forall x, look (rt m) x = look r2 x) by (intros; unfold look; by rewrite Hm).
  split.
  - intros (a2 & Ha2 & Hk2 & Hd). destruct (noted_back r s n w r2 C Hn He Hr2 e a2 Ha2) as (a & Ha & No). exists a.
    assert (Hka : kind a2 = kind a) by exact (f_equal (fun t => t.1.1) (noted_signature _ _ _ _ _ _ No)).
    split_and!; [done|congruence|]. destruct Hd as [Hd|(x & Hx & Hne)].
    + exists s. split; [|by left]. apply (noted_dirty _ _ _ _ _ _ No); [|done]. rewrite (He e a Ha); congruence.
    + rewrite (proj1 (noted_edges _ _ _ _ _ _ No)) in Hx. exists x. split; [done|].
      rewrite Hlook, (written_look r s n w r2 C Hn He Hr2) in Hne. destruct (decide (x = s)); [by left|by right].
  - intros (a & Ha & Hka & x & Hx & Hne). destruct (written_noted r s n w r2 C Hn He Hr2 e a Ha) as (a2 & Ha2 & No). exists a2.
    assert (Hka2 : kind a2 = kind a) by exact (f_equal (fun t => t.1.1) (noted_signature _ _ _ _ _ _ No)).
    split_and!; [done|congruence|]. destruct (decide (x = s)) as [->|Hxs]; [left; by apply (noted_dirty _ _ _ _ _ _ No)|right].
    exists x. rewrite (proj1 (noted_edges _ _ _ _ _ _ No)). split; [done|]. destruct Hne as [|Hne]; [done|].
    by rewrite Hlook, (written_look r s n w r2 C Hn He Hr2), decide_False.
Qed.

Lemma written_rest s w r r2 : mark_subscribers s Dirty (update_node s (set_value (Some w)) r) = Some r2 -> rest r2 = rest r.
Proof. intros H%mark_marked. etrans; [apply H|apply rest_update]. Qed.

(** The queue after the write is within the budget of the flush. *)
Lemma written_queue s n w r r2 :
  coherent r -> (forall y a, node r y = Some a -> kind a = Effect -> color a = Clean) -> node r s = Some n -> kind n = Signal -> mark_subscribers s Dirty (update_node s (set_value (Some w)) r) = Some r2 ->
  blen (pending r2) <= live_nodes r.
Proof.
  intros C He Hn Hk Hr2. pose proof (coherent_graph _ _ _ (written_coherent r s n w r2 C Hn Hk He Hr2)) as G2.
  apply live_count; [apply (queue_once _ G2)|]. intros x (a2 & Ha2 & _)%(queue_exact _ G2).
  destruct (noted_back r s n w r2 C Hn He Hr2 x a2 Ha2) as (a & Ha & _). by exists a.
Qed.

(** C2. Setting a signal is glitch free: [Signal::set] returns, the graph is settled
    again and only that signal has a new value; the effects that ran, each exactly
    once, are those one of whose sources is the signal or holds a changed value, and
    what each showed is what its closure computes from the final values. Half a
    million live nodes fit the budget of a flush. *)
Theorem set_signal_glitch_free s w m :
  settled (rt m) -> is_kind Signal s -> 2 * live_nodes (rt m) <= MAX_EFFECT_RUNS_PER_FLUSH ->
  exists N m' es, (forall fuel, (N <= fuel)%nat -> run_prog fuel (set_signal s w) m = Some (Done w, m')) /\
    settled (rt m') /\
    (forall x, is_kind Signal x -> look (rt m') x = if decide (x = s) then Some w else look (rt m) x) /\
    NoDup es /\
    (forall e, e ∈ es <-> exists n, node (rt m) e = Some n /\ kind n = Effect /\
       exists x, x ∈ sources n /\ (x = s \/ look (rt m') x <> look (rt m) x)) /\
    emitted m' = (emitted m ++ concat (map (effect_output (rt m')) es))%list.
Proof.
  intros S Hs Hmax. pose proof (settled_coherent _ S) as C. destruct (coherent_live _ _ _ _ _ C Hs) as (n & Hn & Hk).
  destruct (coherent_signal _ _ _ C s n Hn Hk) as (_ & _ & [v Hv]). destruct (coherent_quiet _ _ _ C s n Hn) as (_ & Hu & _).
  pose proof (settled_rest _ S) as (Q1 & Q2 & Q3 & Q4 & Q5). set (r := set_batch_depth 1 (rt m)).
  assert (S1 : coherent r) by (by apply (core_ok (rt m))). pose proof (settled_effects _ S) as He.
  destruct (mark_total s Dirty false (update_node s (set_value (Some w)) r)) as [r2 Hr2].
  destruct (rest_fields _ _ (written_rest s w r r2 Hr2)) as (_ & F2 & F3 & F4 & F5 & F6 & _).
  set (m1 := with_rt (set_batch_depth 0 r2) m). pose proof (written_coherent r s n w r2 S1 Hn Hk He Hr2) as C2.
  destruct (flush_runs m1) as (N & m2 & es & H & Hfl).
  { by apply (core_ok r2). }
  { intros y a2 Ha2. destruct (noted_back r s n w r2 S1 Hn He Hr2 y a2 Ha2) as (a & Ha & No). rewrite (noted_running _ _ _ _ _ _ No).
    by apply (settled_idle _ S y). }
  { etrans; [exact F5|done]. }
  { intros y a2 Ha2 Hka Hca. destruct (noted_back r s n w r2 S1 Hn He Hr2 y a2 Ha2) as (a & Ha & No).
    apply (noted_queued _ _ _ _ _ _ No); [|done]. by rewrite <-Hka; symmetry; exact (f_equal (fun t => t.1.1) (noted_signature _ _ _ _ _ _ No)). }
  { pose proof (written_queue s n w r r2 S1 He Hn Hk Hr2) as Hq. change (live_nodes r) with (live_nodes (rt m)) in Hq.
    change (pending (rt m1)) with (pending r2). lia. }
  set (m' := with_rt (set_flushing false (rt m2)) m2).
  assert (S' : settled (rt m')).
  { eapply (flushed_settled _ m2 es); [|exact Hfl]. cbn. split_and!; [exact (eq_trans F2 Q1)|exact (eq_trans F3 Q2)|exact (eq_trans F4 Q3)|done]. }
  exists (Datatypes.S (Datatypes.S N)), m', es. split_and!; [|done| |by apply Hfl| |].
  - intros fuel Hf. apply (signal_set_runs s w m m' n v r2 N Q3 Q5 Hn Hu Hv Hr2); [exact F6|exact H|exact Hf].
  - intros x Hx. destruct (coherent_live _ _ _ _ _ C2 Hx) as (a & Ha & Hka). destruct (coherent_signal _ _ _ C2 x a Ha Hka) as (Hc & _).
    etrans; [by apply (evolved_look _ _ _ _ _ (flushed_evolves _ _ _ Hfl) Ha)|]. by apply (written_look r s n w r2 S1 Hn He Hr2).
  - intros e. by apply (written_exact s n w r r2 (with_rt (set_flushing true (rt m1)) m1) m2 es e).
  - etrans; [apply Hfl|]. f_equal. f_equal. apply map_ext_in. intros e Hin%list_elem_of_In.
    apply (flushed_exact _ _ _ Hfl) in Hin as (a & Ha & Hka & _). destruct (proj2 (flushed_evolves _ _ _ Hfl) e a Ha) as (a' & Ha' & E).
    assert (Hka' : kind a' = Effect) by (etrans; [exact (f_equal (fun t => t.1.1) (evolved_signature _ _ _ _ _ _ E))|exact Hka]).
    apply (shown_meaning (rt m') e a'); [apply S'|done|done|]. by apply (settled_effects _ S' e).
Qed.

End settle.

(** ** A graph with a stale memo *)

Lemma all_nodes {V} (r : Runtime V) (P : NodeId -> Node V -> Prop) :
  Forall (fun y => match node r y with Some n => P y n | None => True end) (handles r) -> forall y n, node r y = Some n -> P y n.
Proof. intros Hall y n Hn. rewrite Forall_forall in Hall. specialize (Hall y (live_handle r y n Hn)). by rewrite Hn in Hall. Qed.

Module SettleSample.
Import ReactiveSample.

(** A doubled signal, an effect that shows it, and a memo nobody has read. *)
Definition double : Prog N := get (id_ 0) (fun v => Return (v * 2)).
Definition unread : Prog N := pull_ (id_ 1) (fun v => Return (v + 10)).
Definition show : Prog N := pull_ (id_ 1) (fun a => Emit a (Return 0)).
Definition program : Prog N :=
  then_ (SignalNew 1) (then_ (MemoNew double N.eqb) (then_ (MemoNew unread N.eqb) (then_ (EffectNew show) (Return 0)))).

(** What [program] leaves. *)
Definition machine : Machine N :=
  let entry k c v f e ss bs := mkSlot 0 (Some (mkNode k c None false false false false false v f e ss bs [] [])) in
  mkMachine
    (mkRuntime
       [entry Signal Clean (Some 1) None None [] [id_ 1];
        entry Memo Clean (Some 2) (Some double) (Some N.eqb) [id_ 0] [id_ 3];
        entry Memo Dirty None (Some unread) (Some N.eqb) [] [];
        entry Effect Clean None (Some show) None [id_ 1] []]
       [] None None [] [] false 0 []) [2].

Lemma program_leaves : run_prog 40 program initial = Some (Done 0, machine).
Proof. vm_compute. reflexivity. Qed.

Definition rank (i : NodeId) : nat := N.to_nat (slot i).
Definition graph (i : NodeId) : option (Kind * option (Prog N) * option (N -> N -> bool)) := signature <$> node (rt machine) i.

Lemma machine_structure : structure_ok (rt machine).
Proof. exact (run_prog_structure 40 program initial (Done 0) machine initial_structure program_leaves). Qed.

Ltac each_node :=
  lazymatch goal with |- forall y n, node ?r y = Some n -> @?P y n => apply (all_nodes r P) end;
  repeat (apply Forall_cons; split); try apply Forall_nil_2; cbn.

Ltac graph_kind := eexists _, _; reflexivity.

Lemma graph_pure : pure_graph rank graph.
Proof.
  intros y. unfold graph. destruct (node (rt machine) y) as [n|] eqn:Hn; [|done]. revert y n Hn. each_node.
  - done.
  - split; [|by intros; apply N.eqb_eq]. apply pure_signal; [vm_compute; lia|graph_kind|intros v; apply pure_return].
  - split; [|by intros; apply N.eqb_eq]. apply pure_memo; [vm_compute; lia|graph_kind|intros v; apply pure_return].
  - apply pure_memo; [vm_compute; lia|graph_kind|intros v; apply pure_emit; [done|apply pure_return]].
Qed.

Lemma machine_settled : settled rank graph (rt machine).
Proof.
  split; [|unfold all_idle; by each_node|done|done|by each_node]. split.
  - apply machine_structure.
  - done.
  - by each_node.
  - done.
  - each_node; try done.
  - by each_node.
  - intros y n x Hn. revert y n Hn x. each_node; intros x Hx; try (by apply not_elem_of_nil in Hx); apply list_elem_of_singleton in Hx as ->.
    + split; [left; graph_kind|vm_compute; lia].
    + split; [right; graph_kind|vm_compute; lia].
  - intros y n z m Hn. revert y n Hn z m. each_node; intros z m Hc Hz; try done. by apply not_elem_of_nil in Hz.
  - each_node; intros Hk Hd; try done; [by destruct Hk| |].
    + exists double, 2. split_and!; [done|done|done|]. intros x. by vm_compute.
    + exists show, 0. split_and!; [done|done|done|]. intros x. by vm_compute.
Qed.

Lemma live_machine : 2 * live_nodes (rt machine) <= MAX_EFFECT_RUNS_PER_FLUSH.
Proof. vm_compute. discriminate. Qed.

End SettleSample.

(** The memo nobody has read is 12. *)
Lemma get_memo_exact_witness :
  exists N m' v, (forall fuel, (N <= fuel)%nat -> run_prog fuel (get_memo (ReactiveSample.id_ 2)) SettleSample.machine = Some (Done v, m')) /\
    meaning 3 (rt SettleSample.machine) (ReactiveSample.id_ 2) = Some v /\ emitted m' = [2].
Proof.
  destruct (get_memo_exact SettleSample.rank SettleSample.graph SettleSample.graph_pure (ReactiveSample.id_ 2) SettleSample.machine
              SettleSample.machine_settled ltac:(eexists _, _; reflexivity)) as (N & m' & v & H1 & H2 & H3 & _).
  exists N, m', v. split; [exact H1|split; [exact H2|exact H3]].
Defined.

(** The effect runs once more. *)
Lemma set_signal_glitch_free_witness :
  exists N m' es, (forall fuel, (N <= fuel)%nat -> run_prog fuel (set_signal (ReactiveSample.id_ 0) 5) SettleSample.machine = Some (Done 5, m')) /\
    NoDup es /\ emitted m' = ([2] ++ concat (map (effect_output SettleSample.rank (rt m')) es))%list.
Proof.
  destruct (set_signal_glitch_free SettleSample.rank SettleSample.graph SettleSample.graph_pure (ReactiveSample.id_ 0) 5 SettleSample.machine
              SettleSample.machine_settled ltac:(eexists _, _; reflexivity) SettleSample.live_machine) as (N & m' & es & H1 & _ & _ & H2 & _ & H3).
  exists N, m', es. split; [exact H1|split; [exact H2|exact H3]].
Defined.
