(* ===== verification/DomName.v ===== *)
(** * DomName: validated DOM names and keyed rows ([pliego-dom])

    Models [crates/pliego-dom/src/name.rs] and [keyed.rs]: the validation of tag,
    attribute and event names with its errors, the namespaces of elements, the
    identities of keyed rows and their collection.

    A Rust [str] is the list of its [char]s, each a Unicode scalar value, so that
    [chars()] is the list itself and [len()] is the sum of the UTF-8 widths. The
    Unicode tables of the standard library are a parameter beyond ASCII. *)

From S2P Require Import Prelude.

Local Open Scope string_scope.
Local Open Scope N_scope.

(** ** Characters *)

Abbreviation chars := (list N).

(** A literal of the source. *)
Definition str (s : string) : chars := map Ascii.N_of_ascii (String.list_ascii_of_string s).

(** [char::len_utf8] and [str::len]. *)
Definition len_utf8 (c : N) : N := if c <? 128 then 1 else if c <? 2048 then 2 else if c <? 65536 then 3 else 4.
Definition clen (s : chars) : N := foldr (fun c n => len_utf8 c + n) 0 s.

Definition between (lo hi c : N) : bool := (lo <=? c) && (c <=? hi).

Definition ascii_digit (c : N) : bool := between 48 57 c.
Definition ascii_upper (c : N) : bool := between 65 90 c.
Definition ascii_lower (c : N) : bool := between 97 122 c.
Definition ascii_alphabetic (c : N) : bool := ascii_upper c || ascii_lower c.
Definition ascii_alphanumeric (c : N) : bool := ascii_alphabetic c || ascii_digit c.
Definition ascii_control (c : N) : bool := (c <? 32) || (c =? 127).

Definition lower (c : N) : N := if ascii_upper c then c + 32 else c.
Definition lowercase (s : chars) : chars := map lower s.
Definition eq_ignore_ascii_case (a b : chars) : bool := bool_decide (lowercase a = lowercase b).

(** [[...].iter().any(|name| s.eq_ignore_ascii_case(name))]. *)
Definition one_of (names : list string) (s : chars) : bool := existsb (fun n => eq_ignore_ascii_case s (str n)) names.

(** [char::is_whitespace]: the [White_Space] code points. *)
Definition is_whitespace (c : N) : bool :=
  between 9 13 c || (c =? 32) || (c =? 133) || (c =? 160) || (c =? 5760) || between 8192 8202 c || (c =? 8232)
  || (c =? 8233) || (c =? 8239) || (c =? 8287) || (c =? 12288).

(** [unicode::Alphabetic] and [unicode::N], consulted beyond ASCII. *)
Class UnicodeTables : Type := { unicode_alphabetic : N -> bool; unicode_numeric : N -> bool }.

Section names.
Context `{UnicodeTables}.

Definition is_alphabetic (c : N) : bool := if c <? 128 then ascii_alphabetic c else unicode_alphabetic c.
Definition is_alphanumeric (c : N) : bool :=
  if c <? 128 then ascii_alphanumeric c else unicode_alphabetic c || unicode_numeric c.

(** ** Names *)

Definition MAX_DOM_NAME_BYTES : N := 256.
Definition NAME_ERROR_PREVIEW_BYTES : N := 64.

Inductive NameKind : Type := Tag | Attribute | Event.

#[export] Instance name_kind_eq_dec : EqDecision NameKind.
Proof. solve_decision. Defined.

Inductive NameViolation : Type :=
| Empty
| TooLong (actual maximum : N)
| InvalidStart (index character : N)
| InvalidCharacter (index character : N)
| InvalidNamespaceSeparator (index : N)
| UnsupportedNamespacePrefix (prefix : chars).

Record NameError : Type := mkNameError {
  error_kind : NameKind; value_preview : chars; input_bytes : N; preview_truncated : bool; violation : NameViolation }.

(** The longest prefix of at most [n] bytes that ends on a character. *)
Fixpoint bounded_prefix (n : N) (s : chars) : chars :=
  match s with
  | [] => []
  | c :: s => if len_utf8 c <=? n then c :: bounded_prefix (n - len_utf8 c) s else []
  end.

Definition rejected (kind : NameKind) (value : chars) (v : NameViolation) : NameError :=
  let preview := bounded_prefix NAME_ERROR_PREVIEW_BYTES value in
  mkNameError kind preview (clen value) (clen preview <? clen value) v.

Definition is_name_start (c : N) : bool := (c =? 95) || is_alphabetic c.
Definition is_name_continue (c : N) : bool := is_alphanumeric c || (c =? 45) || (c =? 95) || (c =? 46).

(** The loop of [validate] at byte [index], after [before]. *)
Fixpoint validate_rest (kind : NameKind) (before : chars) (index separators : N) (after_separator : bool) (s : chars)
    : result NameViolation unit :=
  match s with
  | [] => Ok tt
  | c :: s' =>
      let next := validate_rest kind (before ++ [c])%list (index + len_utf8 c) in
      if c =? 58 then
        if bool_decide (kind = Tag) then Err (InvalidCharacter index c)
        else
          let separators := separators + 1 in
          fail_if (bool_decide (kind = Attribute) && (1 <? separators)) || after_separator || bool_decide (s' = [])
            with InvalidNamespaceSeparator index;;
          fail_if bool_decide (kind = Attribute) && negb (existsb (fun p => bool_decide (before = str p)) ["xlink"; "xml"; "xmlns"])
            with UnsupportedNamespacePrefix before;;
          next separators true s'
      else if negb (is_name_continue c) then Err (InvalidCharacter index c)
      else if after_separator && negb (is_name_start c) then Err (InvalidStart index c)
      else next separators false s'
  end.

Definition validate (value : chars) (kind : NameKind) : result NameViolation unit :=
  match value with
  | [] => Err Empty
  | first :: rest =>
      fail_if MAX_DOM_NAME_BYTES <? clen value with TooLong (clen value) MAX_DOM_NAME_BYTES;;
      fail_if negb (is_name_start first) with InvalidStart 0 first;;
      validate_rest kind [first] (len_utf8 first) 0 false rest
  end.

(** [TagName::new], [AttributeName::new] and [EventName::new]. *)
Definition name_new (kind : NameKind) (value : chars) : result NameError chars :=
  match validate value kind with
  | Err v => Err (rejected kind value v)
  | Ok _ => Ok value
  end.

(** ** Namespaces *)

Inductive ElementNamespace : Type := Html | Svg.

#[export] Instance namespace_eq_dec : EqDecision ElementNamespace.
Proof. solve_decision. Defined.

Definition for_element (ns : ElementNamespace) (tag : chars) : ElementNamespace :=
  if bool_decide (ns = Html) && eq_ignore_ascii_case tag (str "svg") then Svg else ns.

Definition for_children (ns : ElementNamespace) (tag : chars) : ElementNamespace :=
  if bool_decide (ns = Svg) && one_of ["foreignObject"; "desc"; "title"] tag then Html else ns.

Definition HTML_VOID_TAGS : list string :=
  ["area"; "base"; "br"; "col"; "embed"; "hr"; "img"; "input"; "link"; "meta"; "param"; "source"; "track"; "wbr"].

Definition is_void_in (tag : chars) (ns : ElementNamespace) : bool := bool_decide (ns = Html) && one_of HTML_VOID_TAGS tag.

(** ** Keyed rows *)

Definition MAX_KEYED_ITEMS : N := 65536.
Definition MAX_KEYED_TEXT_BYTES : N := 256.
Definition MAX_KEYED_BYTES : N := 8 * 1024 * 1024.

Inductive KeyedKey : Type := Signed (value : Z) | Unsigned (value : N) | TextKey (value : chars).

#[export] Instance keyed_key_eq_dec : EqDecision KeyedKey.
Proof. solve_decision. Defined.

Inductive KeyedStage : Type := Collection | Key | Row.

Inductive KeyedError : Type :=
| ItemLimit (limit : N)
| KeyBytesLimit (limit : N)
| EmptyTextKey
| TextKeyTooLong (bytes limit : N)
| DuplicateKey (key : KeyedKey)
| UnsupportedParent (tag : chars)
| Callback (stage : KeyedStage) (message : chars).

(** [KeyedKey::validated], the conversion of every kind of key. *)
Definition validated (k : KeyedKey) : result KeyedError KeyedKey :=
  match k with
  | TextKey [] => Err EmptyTextKey
  | TextKey s => fail_if MAX_KEYED_TEXT_BYTES <? clen s with TextKeyTooLong (clen s) MAX_KEYED_TEXT_BYTES;; Ok k
  | _ => Ok k
  end.

Definition byte_cost (k : KeyedKey) : N := match k with Signed _ | Unsigned _ => 16 | TextKey s => clen s end.

(** [KeyedError::callback] keeps at most 512 bytes of the message. *)
Definition callback (stage : KeyedStage) (message : chars) : KeyedError := Callback stage (bounded_prefix 512 message).

(** The collection of [try_keyed]: [key] is the user's callback followed by the
    conversion of its result. *)
Fixpoint collect_loop {T} (key : T -> result KeyedError KeyedKey) (items : list T) (seen : list KeyedKey) (key_bytes : N)
    (keyed_items : list (KeyedKey * T)) : result KeyedError (list (KeyedKey * T)) :=
  match items with
  | [] => Ok keyed_items
  | item :: items =>
      fail_if blen keyed_items =? MAX_KEYED_ITEMS with ItemLimit MAX_KEYED_ITEMS;;
      k ← key item;
      resolved ← validated k;
      let key_bytes := key_bytes + byte_cost resolved in
      fail_if (u64_max <? key_bytes) || (MAX_KEYED_BYTES <? key_bytes) with KeyBytesLimit MAX_KEYED_BYTES;;
      fail_if bool_decide (resolved ∈ seen) with DuplicateKey resolved;;
      collect_loop key items (resolved :: seen) key_bytes (keyed_items ++ [(resolved, item)])%list
  end.

(** Each pending row has its key and the answer of its builder. *)
Definition collect {T V} (each : result KeyedError (list T)) (key : T -> result KeyedError KeyedKey)
    (row : T -> result KeyedError V) : result KeyedError (list (KeyedKey * result KeyedError V)) :=
  items ← each;
  keyed_items ← collect_loop key items [] 0 [];
  Ok (map (fun r => (r.1, row r.2)) keyed_items).

End names.
