(* ===== verification/Dom.v ===== *)
(** * Dom: views and their server-side rendering ([pliego-dom/src/lib.rs])

    Elements with the builders that validate what is put in them, and the bounded
    walker that writes a view as HTML: escaping, resource limits, the checks against
    what a browser's parser would repair, and the comment markers of the adoptable
    mode.

    The walker calls each closure of a view once, so a view here holds the answer of
    that call: a string, a view, the rows of a keyed collection or an error. Event
    handlers are never called on the server and are left out. *)

From S2P Require Import Prelude DomName.

Local Open Scope string_scope.
Local Open Scope N_scope.

(** ** Views *)

Inductive AttributeValueViolation : Type :=
| ParserNormalizedCharacter (index character : N)
| DisallowedUrlScheme (scheme : chars).

Inductive DomError : Type :=
| InvalidName (error : NameError)
| ForbiddenElement (tag : chars)
| InlineEventAttribute (name : chars)
| ForbiddenAttribute (name : chars)
| DuplicateAttribute (name : chars)
| InvalidAttributeValue (name : chars) (violation : AttributeValueViolation).

Inductive AttrValue : Type :=
| Static (value : chars)
| Dyn (answer : result DomError chars).

Inductive View : Type :=
| Text (value : chars)
| DynText (answer : chars)
| Element (e : ElementData)
| Fragment (children : list View)
| DynView (answer : View)
| Keyed (rows : result KeyedError (list (KeyedKey * result KeyedError View)))
with ElementData : Type :=
| mkElement (tag : chars) (attrs : list (chars * AttrValue)) (listeners : list chars) (children : list View).

Definition tag (e : ElementData) : chars := let 'mkElement t _ _ _ := e in t.
Definition attrs (e : ElementData) : list (chars * AttrValue) := let 'mkElement _ a _ _ := e in a.
Definition listeners (e : ElementData) : list chars := let 'mkElement _ _ l _ := e in l.
Definition children (e : ElementData) : list View := let 'mkElement _ _ _ c := e in c.

Definition FORBIDDEN_ELEMENTS : list string :=
  ["script"; "style"; "iframe"; "fencedframe"; "portal"; "object"; "embed"; "applet"; "xmp"; "plaintext"; "noembed";
   "noframes"; "noscript"; "template"; "listing"; "frameset"; "frame"; "isindex"; "basefont"; "bgsound"; "keygen"; "math";
   "base"; "link"; "meta"; "animate"; "animateColor"; "set"; "animateMotion"; "animateTransform"; "discard"].

Definition is_forbidden_element (t : chars) : bool := one_of FORBIDDEN_ELEMENTS t.

(** ** Attribute values *)

(** The first NUL or carriage return, with its byte index. *)
Fixpoint find_normalized (index : N) (s : chars) : option (N * N) :=
  match s with
  | [] => None
  | c :: s => if (c =? 0) || (c =? 13) then Some (index, c) else find_normalized (index + len_utf8 c) s
  end.

Fixpoint scheme_loop (scheme s : chars) : option chars :=
  match s with
  | [] => None
  | c :: s =>
      if (c =? 32) || ascii_control c then scheme_loop scheme s
      else if c =? 58 then if bool_decide (scheme = []) then None else Some scheme
      else if (c =? 47) || (c =? 63) || (c =? 35) then None
      else
        let valid := if bool_decide (scheme = []) then ascii_alphabetic c
                     else ascii_alphanumeric c || (c =? 43) || (c =? 45) || (c =? 46) in
        if negb valid then None
        else scheme_loop (if clen scheme <? 32 then scheme ++ [lower c] else scheme)%list s
  end.

Definition explicit_url_scheme (value : chars) : option chars := scheme_loop [] value.

Definition ALLOWED_SCHEMES : list string := ["http"; "https"; "mailto"; "tel"].

Definition validate_url_scheme (name value : chars) : result DomError unit :=
  match explicit_url_scheme value with
  | None => Ok tt
  | Some scheme =>
      if one_of ALLOWED_SCHEMES scheme then Ok tt
      else Err (InvalidAttributeValue name (DisallowedUrlScheme scheme))
  end.

Definition URL_ATTRIBUTES : list string := ["href"; "src"; "action"; "formaction"; "poster"; "cite"; "background"; "xlink:href"].
Definition is_url_attribute (name : chars) : bool := one_of URL_ATTRIBUTES name.

(** [str::split(',')], and the first item of [split_whitespace]. *)
Fixpoint split_commas (s : chars) : list chars :=
  match s with
  | [] => [[]]
  | c :: s =>
      if c =? 44 then [] :: split_commas s
      else match split_commas s with p :: ps => (c :: p) :: ps | [] => [[c]] end
  end.

Fixpoint take_word (s : chars) : chars :=
  match s with [] => [] | c :: s => if is_whitespace c then [] else c :: take_word s end.

Fixpoint first_word (s : chars) : option chars :=
  match s with [] => None | c :: s' => if is_whitespace c then first_word s' else Some (take_word s) end.

Fixpoint validate_candidates (name : chars) (candidates : list chars) : result DomError unit :=
  match candidates with
  | [] => Ok tt
  | c :: candidates =>
      _ ← match first_word c with Some url => validate_url_scheme name url | None => Ok tt end;
      validate_candidates name candidates
  end.

Definition validate_attribute_value (name value : chars) : result DomError unit :=
  match find_normalized 0 value with
  | Some (index, character) => Err (InvalidAttributeValue name (ParserNormalizedCharacter index character))
  | None =>
      if eq_ignore_ascii_case name (str "srcset") then validate_candidates name (split_commas value)
      else if is_url_attribute name then validate_url_scheme name value
      else Ok tt
  end.

(** ** Builders *)

Section builders.
Context `{UnicodeTables}.

(** [TagName::new(_)?], the conversion of the error included. *)
Definition dom_name (kind : NameKind) (value : chars) : result DomError chars := map_err InvalidName (name_new kind value).

Definition try_el (t : chars) : result DomError ElementData :=
  t ← dom_name Tag t;
  fail_if is_forbidden_element t with ForbiddenElement t;;
  Ok (mkElement t [] [] []).

Definition validate_new_attribute (e : ElementData) (name : chars) : result DomError chars :=
  name ← dom_name Attribute name;
  fail_if match name with a :: b :: _ => eq_ignore_ascii_case [a; b] (str "on") | _ => false end with InlineEventAttribute name;;
  fail_if eq_ignore_ascii_case name (str "srcdoc") with ForbiddenAttribute name;;
  fail_if existsb (fun a => eq_ignore_ascii_case a.1 name) (attrs e) with DuplicateAttribute name;;
  Ok name.

Definition push_attr (e : ElementData) (name : chars) (v : AttrValue) : ElementData :=
  mkElement (tag e) (attrs e ++ [(name, v)])%list (listeners e) (children e).

Definition try_attr (e : ElementData) (name value : chars) : result DomError ElementData :=
  name ← validate_new_attribute e name;
  _ ← validate_attribute_value name value;
  Ok (push_attr e name (Static value)).

(** The guarded closure of [try_attr_dyn], on the answer of the user's closure. *)
Definition guarded (name answer : chars) : result DomError chars := _ ← validate_attribute_value name answer; Ok answer.

Definition try_attr_dyn (e : ElementData) (name answer : chars) : result DomError ElementData :=
  name ← validate_new_attribute e name;
  Ok (push_attr e name (Dyn (guarded name answer))).

Definition try_child (e : ElementData) (child : View) : result DomError ElementData :=
  Ok (mkElement (tag e) (attrs e) (listeners e) (children e ++ [child])%list).

Definition try_on (e : ElementData) (event : chars) : result DomError ElementData :=
  event ← dom_name Event event;
  Ok (mkElement (tag e) (attrs e) (listeners e ++ [event])%list (children e)).

End builders.

Definition show (when : bool) (then_view otherwise : View) : View := DynView (if when then then_view else otherwise).

(** ** Limits *)

Inductive RenderLimitKind : Type := Depth | Nodes | OutputBytes.

Record RenderLimits : Type := mkLimits { max_depth : N; max_nodes : N; max_output_bytes : N }.

Definition DEFAULT_RENDER_MAX_DEPTH : N := 128.
Definition DEFAULT_RENDER_MAX_NODES : N := 100000.
Definition DEFAULT_RENDER_MAX_OUTPUT_BYTES : N := 8 * 1024 * 1024.
Definition HARD_RENDER_MAX_DEPTH : N := 256.
Definition HARD_RENDER_MAX_NODES : N := 1000000.
Definition HARD_RENDER_MAX_OUTPUT_BYTES : N := 64 * 1024 * 1024.

Record RenderLimitsError : Type := mkLimitsError { limit_kind : RenderLimitKind; requested : N; hard_maximum : N }.

Definition limits_new (depth nodes output : N) : result RenderLimitsError RenderLimits :=
  fail_if HARD_RENDER_MAX_DEPTH <? depth with mkLimitsError Depth depth HARD_RENDER_MAX_DEPTH;;
  fail_if HARD_RENDER_MAX_NODES <? nodes with mkLimitsError Nodes nodes HARD_RENDER_MAX_NODES;;
  fail_if HARD_RENDER_MAX_OUTPUT_BYTES <? output with mkLimitsError OutputBytes output HARD_RENDER_MAX_OUTPUT_BYTES;;
  Ok (mkLimits depth nodes output).

Definition default_limits : RenderLimits :=
  mkLimits DEFAULT_RENDER_MAX_DEPTH DEFAULT_RENDER_MAX_NODES DEFAULT_RENDER_MAX_OUTPUT_BYTES.

Inductive RenderError : Type :=
| LimitExceeded (kind : RenderLimitKind) (limit : N)
| InvalidAttribute (error : DomError)
| ParserNormalizedText (index character : N)
| VoidElementChild (tag : chars)
| ParserRepair (parent : chars) (child : option chars) (rule : string)
| ForbiddenTag (tag : chars)
| AdoptionUnsupported (parent : chars) (view : string)
| KeyedFailure (error : KeyedError).

Inductive RenderMode : Type := Plain | Adoptable.

#[export] Instance render_mode_eq_dec : EqDecision RenderMode.
Proof. solve_decision. Defined.

(** ** What the HTML parser would do *)

Inductive RubyParserState : Type := NoRuby | Ruby | Rtc | Descendant.

#[export] Instance ruby_eq_dec : EqDecision RubyParserState.
Proof. solve_decision. Defined.

Record ParserContext : Type := mkContext {
  in_p : bool; in_button : bool; in_anchor : bool; in_form : bool; in_list_item : bool; in_definition_item : bool;
  in_nobr : bool; ruby : RubyParserState }.

Definition default_context : ParserContext := mkContext false false false false false false false NoRuby.

Record ParentContext : Type := mkParent { parent_tag : chars; parent_namespace : ElementNamespace; parser : ParserContext }.

Definition is_table_container (t : chars) : bool := one_of ["table"; "thead"; "tbody"; "tfoot"; "tr"; "colgroup"] t.

Definition is_svg_html_breakout (t : chars) : bool :=
  one_of ["b"; "big"; "blockquote"; "body"; "br"; "center"; "code"; "dd"; "div"; "dl"; "dt"; "em"; "embed"; "font"; "h1";
          "h2"; "h3"; "h4"; "h5"; "h6"; "head"; "hr"; "i"; "img"; "li"; "listing"; "menu"; "meta"; "nobr"; "ol"; "p"; "pre";
          "ruby"; "s"; "small"; "span"; "strike"; "strong"; "sub"; "sup"; "table"; "tt"; "u"; "ul"; "var"] t.

Definition is_p_closing_block (t : chars) : bool :=
  one_of ["address"; "article"; "aside"; "blockquote"; "details"; "dialog"; "div"; "dd"; "dt"; "center"; "dir"; "dl";
          "fieldset"; "figcaption"; "figure"; "footer"; "form"; "h1"; "h2"; "h3"; "h4"; "h5"; "h6"; "header"; "hgroup"; "hr";
          "main"; "li"; "listing"; "menu"; "nav"; "ol"; "p"; "pre"; "search"; "section"; "summary"; "table"; "ul"] t.

Definition is_standard_scope_boundary (t : chars) : bool :=
  one_of ["applet"; "caption"; "html"; "marquee"; "object"; "table"; "td"; "template"; "th"] t.

Definition is_html_special_element (t : chars) : bool :=
  one_of ["address"; "applet"; "area"; "article"; "aside"; "base"; "basefont"; "bgsound"; "blockquote"; "body"; "br"; "button";
          "caption"; "center"; "col"; "colgroup"; "dd"; "details"; "dir"; "div"; "dl"; "dt"; "embed"; "fieldset";
          "figcaption"; "figure"; "footer"; "form"; "frame"; "frameset"; "h1"; "h2"; "h3"; "h4"; "h5"; "h6"; "head"; "header";
          "hgroup"; "hr"; "html"; "iframe"; "img"; "input"; "keygen"; "li"; "link"; "listing"; "main"; "marquee"; "menu";
          "meta"; "nav"; "noembed"; "noframes"; "noscript"; "object"; "ol"; "p"; "param"; "plaintext"; "pre"; "script";
          "search"; "section"; "select"; "source"; "style"; "summary"; "table"; "tbody"; "td"; "template"; "textarea";
          "tfoot"; "th"; "thead"; "title"; "tr"; "track"; "ul"; "wbr"; "xmp"] t.

Definition is_list_scan_barrier (t : chars) : bool := is_html_special_element t && negb (one_of ["address"; "div"; "p"] t).

(** [ParserContext::descend]. *)
Definition descend (c : ParserContext) (t : chars) (ns child_ns : ElementNamespace) : ParserContext :=
  if bool_decide (ns <> Html) then
    if bool_decide (child_ns = Html) then mkContext false false false (in_form c) false false false NoRuby else c
  else
    let boundary := is_standard_scope_boundary t in
    let keep b := negb boundary && b in
    let barrier := is_list_scan_barrier t in
    let named n := eq_ignore_ascii_case t (str n) in
    mkContext
      ((keep (in_p c) && negb (named "button")) || named "p")
      (keep (in_button c) || named "button")
      (keep (in_anchor c) || named "a")
      (in_form c || named "form")
      ((negb barrier && in_list_item c) || named "li")
      ((negb barrier && in_definition_item c) || one_of ["dt"; "dd"] t)
      (keep (in_nobr c) || named "nobr")
      (if named "ruby" then Ruby
       else match if boundary then NoRuby else ruby c with
            | NoRuby => NoRuby
            | _ => if named "rtc" then Rtc else Descendant
            end).

Definition ruby_direct_start_tag_repairs (parent child : chars) : bool :=
  (one_of ["rb"; "rt"; "rp"] parent && one_of ["rb"; "rt"; "rp"; "rtc"] child)
  || (one_of ["rtc"] parent && one_of ["rb"; "rtc"] child).

Definition parent_name (parent : option ParentContext) : chars :=
  match parent with Some p => parent_tag p | None => str "#root" end.

Definition html_parent (parent : option ParentContext) (names : list string) : bool :=
  match parent with
  | Some p => bool_decide (parent_namespace p = Html) && one_of names (parent_tag p)
  | None => false
  end.

(** The parent an HTML table part must have. *)
Definition required_parent (child : chars) : option (list string * string) :=
  if one_of ["caption"; "colgroup"; "thead"; "tbody"; "tfoot"] child
  then Some (["table"], "table structure must be a direct child of <table>")
  else if one_of ["col"] child then Some (["colgroup"], "<col> must be a direct child of <colgroup>")
  else if one_of ["tr"] child
  then Some (["thead"; "tbody"; "tfoot"], "<tr> must be a direct child of <thead>, <tbody>, or <tfoot>")
  else if one_of ["td"; "th"] child then Some (["tr"], "table cells must be direct children of <tr>")
  else None.

(** What an open ancestor makes of the start tag of [child]. *)
Definition ancestor_repair (p : ParentContext) (child : chars) : option (string * string) :=
  let c := parser p in
  if in_p c && is_p_closing_block child then Some ("p", "a block element implicitly closes an open <p>")
  else if in_button c && one_of ["button"] child then Some ("button", "a nested <button> implicitly closes the open button")
  else if in_anchor c && one_of ["a"] child then Some ("a", "a nested <a> invokes the adoption agency algorithm")
  else if in_form c && one_of ["form"] child then Some ("form", "a nested <form> start tag is ignored")
  else if in_list_item c && one_of ["li"] child then Some ("li", "a new <li> implicitly closes the open list item")
  else if in_definition_item c && one_of ["dt"; "dd"] child
  then Some ("dt/dd", "a new definition item implicitly closes the open item")
  else if in_nobr c && one_of ["nobr"] child then Some ("nobr", "a nested <nobr> invokes the adoption agency algorithm")
  else if bool_decide (ruby c <> NoRuby) && ruby_direct_start_tag_repairs (parent_tag p) child
  then Some ("ruby", "ruby text/base start tags implicitly close the current ruby segment")
  else None.

(** Why an HTML parent cannot have [child] directly. *)
Definition invalid_child (parent child : chars) : option string :=
  let headings := ["h1"; "h2"; "h3"; "h4"; "h5"; "h6"] in
  if one_of ["textarea"; "title"] parent then Some "RCDATA elements may contain text only"
  else if one_of headings parent && one_of headings child then Some "a heading start tag implicitly closes the current heading"
  else if one_of ["table"] parent && negb (one_of ["caption"; "colgroup"; "thead"; "tbody"; "tfoot"] child)
  then Some "table children require an explicit caption/colgroup/section"
  else if one_of ["thead"; "tbody"; "tfoot"] parent && negb (one_of ["tr"] child)
  then Some "table sections may contain only <tr>"
  else if one_of ["tr"] parent && negb (one_of ["th"; "td"] child) then Some "table rows may contain only <th> or <td>"
  else if one_of ["colgroup"] parent && negb (one_of ["col"] child) then Some "colgroup may contain only <col>"
  else if one_of ["select"] parent && negb (one_of ["option"; "optgroup"; "hr"] child)
  then Some "select insertion mode ignores or reparents this child"
  else if one_of ["optgroup"] parent && negb (one_of ["option"] child) then Some "optgroup may contain only <option>"
  else if one_of ["option"] parent then Some "option elements may contain text only"
  else None.

Definition validate_direct_element (parent : option ParentContext) (child : chars) (child_ns : ElementNamespace)
    : result RenderError unit :=
  let html := bool_decide (child_ns = Html) in
  let repair rule := ParserRepair (parent_name parent) (Some child) rule in
  fail_if html && one_of ["image"] child with repair "the HTML parser rewrites <image> to <img>";;
  fail_if html && one_of ["html"; "head"; "body"] child
    with repair "document structure tags are handled specially by the HTML parser";;
  _ ← match (if html then required_parent child else None) with
      | Some (expected, rule) => if html_parent parent expected then Ok tt else Err (repair rule)
      | None => Ok tt
      end;
  _ ← match (if html then parent else None) with
      | Some p =>
          match ancestor_repair p child with
          | Some (ancestor, rule) => Err (ParserRepair (str ancestor) (Some child) rule)
          | None => Ok tt
          end
      | None => Ok tt
      end;
  match parent with
  | None => Ok tt
  | Some p =>
      fail_if bool_decide (parent_namespace p = Svg) && bool_decide (child_ns = Svg) && is_svg_html_breakout child
        with repair "the HTML parser exits SVG foreign content before this element";;
      if bool_decide (parent_namespace p <> Html) then Ok tt
      else match invalid_child (parent_tag p) child with
           | Some rule => Err (ParserRepair (parent_tag p) (Some child) rule)
           | None => Ok tt
           end
  end.

Definition find_canonical (names : list string) (s : chars) : option string :=
  List.find (fun n => eq_ignore_ascii_case s (str n)) names.

Definition canonical_svg_tag : chars -> option string :=
  find_canonical
    ["altGlyph"; "altGlyphDef"; "altGlyphItem"; "animateColor"; "animateMotion"; "animateTransform"; "clipPath"; "feBlend";
     "feColorMatrix"; "feComponentTransfer"; "feComposite"; "feConvolveMatrix"; "feDiffuseLighting"; "feDisplacementMap";
     "feDistantLight"; "feDropShadow"; "feFlood"; "feFuncA"; "feFuncB"; "feFuncG"; "feFuncR"; "feGaussianBlur"; "feImage";
     "feMerge"; "feMergeNode"; "feMorphology"; "feOffset"; "fePointLight"; "feSpecularLighting"; "feSpotLight"; "feTile";
     "feTurbulence"; "foreignObject"; "glyphRef"; "linearGradient"; "radialGradient"; "textPath"].

Definition has_upper (s : chars) : bool := existsb ascii_upper s.

Definition validate_parser_adjusted_svg_tag (parent : option ParentContext) (t : chars) (ns : ElementNamespace)
    : result RenderError unit :=
  if bool_decide (ns <> Svg) then Ok tt
  else if match canonical_svg_tag t with Some expected => bool_decide (t = str expected) | None => negb (has_upper t) end
  then Ok tt
  else Err (ParserRepair (parent_name parent) (Some t) "the HTML parser adjusts this SVG tag to its canonical spelling").

Definition canonical_svg_attribute : chars -> option string :=
  find_canonical
    ["attributeName"; "attributeType"; "baseFrequency"; "baseProfile"; "calcMode"; "clipPathUnits"; "diffuseConstant";
     "edgeMode"; "filterUnits"; "glyphRef"; "gradientTransform"; "gradientUnits"; "kernelMatrix"; "kernelUnitLength";
     "keyPoints"; "keySplines"; "keyTimes"; "lengthAdjust"; "limitingConeAngle"; "markerHeight"; "markerUnits";
     "markerWidth"; "maskContentUnits"; "maskUnits"; "numOctaves"; "pathLength"; "patternContentUnits"; "patternTransform";
     "patternUnits"; "pointsAtX"; "pointsAtY"; "pointsAtZ"; "preserveAlpha"; "preserveAspectRatio"; "primitiveUnits";
     "refX"; "refY"; "repeatCount"; "repeatDur"; "requiredExtensions"; "requiredFeatures"; "specularConstant";
     "specularExponent"; "spreadMethod"; "startOffset"; "stdDeviation"; "stitchTiles"; "surfaceScale"; "systemLanguage";
     "tableValues"; "targetX"; "targetY"; "textLength"; "viewBox"; "viewTarget"; "xChannelSelector"; "yChannelSelector";
     "zoomAndPan"].

Definition foreign_attribute : chars -> option string :=
  find_canonical
    ["xlink:actuate"; "xlink:arcrole"; "xlink:href"; "xlink:role"; "xlink:show"; "xlink:title"; "xlink:type"; "xml:base";
     "xml:lang"; "xml:space"; "xmlns"; "xmlns:xlink"].

Definition validate_parser_adjusted_svg_attribute (t name : chars) (ns : ElementNamespace) : result RenderError unit :=
  if bool_decide (ns <> Svg) then Ok tt
  else
    let spelling := match canonical_svg_attribute name with Some c => Some c | None => foreign_attribute name end in
    if match spelling with
       | Some expected => bool_decide (name = str expected)
       | None => negb (has_upper name) && negb (bool_decide (58 ∈ name))
       end
    then Ok tt
    else Err (ParserRepair t (Some (str "@" ++ name)%list) "the HTML parser adjusts this SVG attribute name or namespace").

Definition validate_direct_text (parent : option ParentContext) (value : chars) (has_content : bool) : result RenderError unit :=
  match parent with
  | None => Ok tt
  | Some p =>
      if bool_decide (parent_namespace p <> Html) then Ok tt
      else
        fail_if negb has_content && match value with c :: _ => c =? 10 | [] => false end && one_of ["pre"; "textarea"] (parent_tag p)
          with ParserRepair (parent_tag p) None "the HTML parser strips the first line feed";;
        fail_if is_table_container (parent_tag p) && negb (forallb is_whitespace value)
          with ParserRepair (parent_tag p) None "non-whitespace table text is foster-parented";;
        Ok tt
  end.

Definition is_html_rcdata_parent (parent : option ParentContext) : bool := html_parent parent ["textarea"; "title"].

(** ** The walker *)

(** [DirectChildState] of the current parent, [RenderState] and [BoundedHtml]. *)
Record St : Type := mkSt { has_serialized_content : bool; nodes : N; html : chars }.

Section walker.
Context (limits : RenderLimits) (mode : RenderMode).

Definition visit (depth : N) (st : St) : result RenderError St :=
  fail_if max_depth limits <? depth with LimitExceeded Depth (max_depth limits);;
  fail_if (u64_max <? nodes st + 1) || (max_nodes limits <? nodes st + 1) with LimitExceeded Nodes (max_nodes limits);;
  Ok (mkSt (has_serialized_content st) (nodes st + 1) (html st)).

Definition ensure_minimum_input_fits (input_bytes : N) (st : St) : result RenderError unit :=
  let minimum := clen (html st) + input_bytes in
  fail_if (u64_max <? minimum) || (max_output_bytes limits <? minimum) with LimitExceeded OutputBytes (max_output_bytes limits);;
  Ok tt.

Definition push_str (value : chars) (st : St) : result RenderError St :=
  _ ← ensure_minimum_input_fits (clen value) st;
  Ok (mkSt (has_serialized_content st) (nodes st) (html st ++ value)%list).

Definition escape (attribute : bool) (c : N) : chars :=
  if c =? 38 then str "&amp;"
  else if c =? 60 then str "&lt;"
  else if c =? 62 then str "&gt;"
  else if (c =? 34) && attribute then str "&quot;"
  else [c].

Fixpoint push_escaped (attribute : bool) (value : chars) (st : St) : result RenderError St :=
  match value with
  | [] => Ok st
  | c :: value => st ← push_str (escape attribute c) st; push_escaped attribute value st
  end.

Definition when_adoptable (comment : string) (st : St) : result RenderError St :=
  if bool_decide (mode = Adoptable) then push_str (str comment) st else Ok st.

Definition mark_content (st : St) : St := mkSt true (nodes st) (html st).

Definition write_text (value : chars) (parent : option ParentContext) (st : St) : result RenderError St :=
  _ ← ensure_minimum_input_fits (clen value) st;
  match find_normalized 0 value with
  | Some (index, character) => Err (ParserNormalizedText index character)
  | None =>
      _ ← validate_direct_text parent value (has_serialized_content st);
      st ← push_escaped false value st;
      Ok (if bool_decide (value = []) then st else mark_content st)
  end.

Definition write_attr (t : chars) (ns : ElementNamespace) (a : chars * AttrValue) (st : St) : result RenderError St :=
  let '(name, value) := a in
  _ ← validate_parser_adjusted_svg_attribute t name ns;
  value ← match value with Static value => Ok value | Dyn answer => map_err InvalidAttribute answer end;
  _ ← ensure_minimum_input_fits (clen value) st;
  _ ← map_err InvalidAttribute (validate_attribute_value name value);
  st ← push_str (str " ") st;
  st ← push_str name st;
  st ← push_str (str "=" ++ [34])%list st;
  st ← push_escaped true value st;
  push_str [34] st.

(** A loop that stops at the first error. *)
Definition each {A} (f : A -> St -> result RenderError St) : list A -> St -> result RenderError St :=
  fix each l st := match l with [] => Ok st | a :: l => st ← f a st; each l st end.

Definition adoption_unsupported (parent : option ParentContext) (view : string) : result RenderError unit :=
  fail_if bool_decide (mode = Adoptable) && is_html_rcdata_parent parent with AdoptionUnsupported (parent_name parent) view;;
  Ok tt.

Definition child_parent (parent : option ParentContext) (t : chars) (ns : ElementNamespace) : ParentContext :=
  mkParent t ns (descend (from_option parser default_context parent) t ns (for_children ns t)).

Definition open_element (parent : option ParentContext) (t : chars) (ns : ElementNamespace) (attributes : list (chars * AttrValue))
    (st : St) : result RenderError St :=
  fail_if is_forbidden_element t with ForbiddenTag t;;
  _ ← validate_parser_adjusted_svg_tag parent t ns;
  _ ← validate_direct_element parent t ns;
  st ← push_str (str "<") (mark_content st);
  st ← push_str t st;
  st ← each (write_attr t ns) attributes st;
  push_str (str ">") st.

Definition close_element (t : chars) (st : St) : result RenderError St :=
  st ← push_str (str "</") st;
  st ← push_str t st;
  push_str (str ">") st.

Fixpoint write_html (v : View) (ns : ElementNamespace) (depth : N) (parent : option ParentContext) (st : St)
    : result RenderError St :=
  st ← visit depth st;
  match v with
  | Text value =>
      let marked := negb (is_html_rcdata_parent parent) in
      st ← (if marked then when_adoptable "<!--pliego:text-->" st else Ok st);
      st ← write_text value parent st;
      if marked then when_adoptable "<!--/pliego:text-->" st else Ok st
  | DynText value =>
      _ ← adoption_unsupported parent "dynamic text";
      st ← when_adoptable "<!--pliego:dyn-text-->" st;
      st ← write_text value parent st;
      when_adoptable "<!--/pliego:dyn-text-->" st
  | Fragment children => each (fun child => write_html child ns (depth + 1) parent) children st
  | DynView inner =>
      _ ← adoption_unsupported parent "dynamic view";
      st ← when_adoptable "<!--pliego:dyn--><!--pliego:mount-->" st;
      st ← write_html inner ns (depth + 1) parent st;
      when_adoptable "<!--/pliego:mount--><!--/pliego:dyn-->" st
  | Keyed rows =>
      fail_if match parent with Some p => one_of ["pre"; "textarea"; "title"] (parent_tag p) | None => false end
        with KeyedFailure (UnsupportedParent (parent_name parent));;
      st ← when_adoptable "<!--pliego:keyed-->" st;
      match rows with
      | Err e => Err (KeyedFailure e)
      | Ok rows =>
          st ← each (fun row st =>
                       match row.2 with
                       | Err e => Err (KeyedFailure e)
                       | Ok view =>
                           st ← when_adoptable "<!--pliego:row-->" st;
                           st ← write_html view ns (depth + 1) parent st;
                           when_adoptable "<!--/pliego:row-->" st
                       end) rows st;
          when_adoptable "<!--/pliego:keyed-->" st
      end
  | Element (mkElement t attributes _ children) =>
      let ns := for_element ns t in
      st ← open_element parent t ns attributes st;
      if is_void_in t ns then
        match children with [] => Ok st | _ => Err (VoidElementChild t) end
      else
        let outer := has_serialized_content st in
        st ← each (fun child => write_html child (for_children ns t) (depth + 1) (Some (child_parent parent t ns))) children
               (mkSt false (nodes st) (html st));
        close_element t (mkSt outer (nodes st) (html st))
  end.

Definition try_render_html_mode (v : View) : result RenderError chars :=
  st ← when_adoptable "<!--pliego:ssr:v1-->" (mkSt false 0 []);
  st ← write_html v Html 1 None st;
  st ← when_adoptable "<!--/pliego:ssr:v1-->" st;
  Ok (html st).

End walker.

Definition try_render_html (v : View) (limits : RenderLimits) : result RenderError chars := try_render_html_mode limits Plain v.
Definition try_render_adoptable_html (v : View) (limits : RenderLimits) : result RenderError chars :=
  try_render_html_mode limits Adoptable v.

(** [render_html]; [None] is its panic. *)
Definition render_html (v : View) : option chars :=
  match try_render_html v default_limits with Ok h => Some h | Err _ => None end.
Definition render_adoptable_html (v : View) : option chars :=
  match try_render_adoptable_html v default_limits with Ok h => Some h | Err _ => None end.
