(* ===== verification/DomTokens.v ===== *)
(** * DomTokens: the markup of HTML, as a browser tokenizes it

    The specification side of rendering: the states of the WHATWG tokenizer that
    well-formed markup visits (text, tags, quoted attributes, comments and the named
    references of the escapes) as an executable automaton on characters. Any other
    input has no result: nothing is claimed of it. *)

From Stdlib Require Import ZifyBool.
From S2P Require Import Prelude DomName.

Local Open Scope string_scope.
Local Open Scope N_scope.

(** ** Tokens and states *)

Inductive Token : Type :=
| StartTag (name : chars) (attributes : list (chars * chars))
| EndTag (name : chars)
| Character (c : N)
| Comment (text : chars).

#[export] Instance token_eq_dec : EqDecision Token.
Proof. solve_decision. Defined.

Inductive TState : Type :=
| Data
| DataReference (seen : chars)
| TagOpen
| EndTagOpen
| EndTagName (name : chars)
| TagName (name : chars)
| BeforeAttributeName (name : chars) (attributes : list (chars * chars))
| AttributeName (name : chars) (attributes : list (chars * chars)) (attribute : chars)
| BeforeAttributeValue (name : chars) (attributes : list (chars * chars)) (attribute : chars)
| AttributeValue (name : chars) (attributes : list (chars * chars)) (attribute value : chars)
| AttributeReference (name : chars) (attributes : list (chars * chars)) (attribute value seen : chars)
| AfterAttributeValue (name : chars) (attributes : list (chars * chars))
| MarkupDeclaration
| MarkupDeclarationDash
| CommentStart
| CommentData (text : chars)
| CommentEndDash (text : chars)
| CommentEnd (text : chars).

#[export] Instance state_eq_dec : EqDecision TState.
Proof. solve_decision. Defined.

Definition space (c : N) : bool := (c =? 9) || (c =? 10) || (c =? 12) || (c =? 32).

(** The named references the escapes use. *)
Definition named_reference (name : chars) : option N :=
  if bool_decide (name = str "amp") then Some 38
  else if bool_decide (name = str "lt") then Some 60
  else if bool_decide (name = str "gt") then Some 62
  else if bool_decide (name = str "quot") then Some 34
  else None.

(** An attribute whose name the tag already has is dropped. *)
Definition add_attribute (attributes : list (chars * chars)) (name value : chars) : list (chars * chars) :=
  if bool_decide (name ∈ attributes.*1) then attributes else (attributes ++ [(name, value)])%list.

Definition data_step (c : N) : TState * list Token :=
  if c =? 38 then (DataReference [], []) else if c =? 60 then (TagOpen, []) else (Data, [Character c]).

(** ** The automaton *)

(** NUL and carriage return are changed before or by the tokenizer. *)
Definition step (q : TState) (c : N) : option (TState * list Token) :=
  if (c =? 0) || (c =? 13) then None else
  match q with
  | Data => Some (data_step c)
  | DataReference seen =>
      if c =? 59 then match named_reference seen with Some r => Some (Data, [Character r]) | None => None end
      else if ascii_alphanumeric c then Some (DataReference (seen ++ [c]), []) else None
  | TagOpen =>
      if c =? 33 then Some (MarkupDeclaration, [])
      else if c =? 47 then Some (EndTagOpen, [])
      else if ascii_alphabetic c then Some (TagName [lower c], [])
      else if c =? 63 then None
      else Some ((data_step c).1, Character 60 :: (data_step c).2)
  | EndTagOpen => if ascii_alphabetic c then Some (EndTagName [lower c], []) else None
  | EndTagName name =>
      if c =? 62 then Some (Data, [EndTag name])
      else if space c || (c =? 47) then None
      else Some (EndTagName (name ++ [lower c]), [])
  | TagName name =>
      if c =? 62 then Some (Data, [StartTag name []])
      else if space c then Some (BeforeAttributeName name [], [])
      else if c =? 47 then None
      else Some (TagName (name ++ [lower c]), [])
  | BeforeAttributeName name attributes =>
      if space c then Some (q, [])
      else if (c =? 47) || (c =? 62) || (c =? 61) then None
      else Some (AttributeName name attributes [lower c], [])
  | AttributeName name attributes attribute =>
      if space c || (c =? 47) || (c =? 62) then None
      else if c =? 61 then Some (BeforeAttributeValue name attributes attribute, [])
      else Some (AttributeName name attributes (attribute ++ [lower c]), [])
  | BeforeAttributeValue name attributes attribute =>
      if space c then Some (q, [])
      else if c =? 34 then Some (AttributeValue name attributes attribute [], [])
      else None
  | AttributeValue name attributes attribute value =>
      if c =? 34 then Some (AfterAttributeValue name (add_attribute attributes attribute value), [])
      else if c =? 38 then Some (AttributeReference name attributes attribute value [], [])
      else Some (AttributeValue name attributes attribute (value ++ [c]), [])
  | AttributeReference name attributes attribute value seen =>
      if c =? 59
      then match named_reference seen with
           | Some r => Some (AttributeValue name attributes attribute (value ++ [r]), [])
           | None => None
           end
      else if ascii_alphanumeric c then Some (AttributeReference name attributes attribute value (seen ++ [c]), []) else None
  | AfterAttributeValue name attributes =>
      if space c then Some (BeforeAttributeName name attributes, [])
      else if c =? 62 then Some (Data, [StartTag name attributes])
      else None
  | MarkupDeclaration => if c =? 45 then Some (MarkupDeclarationDash, []) else None
  | MarkupDeclarationDash => if c =? 45 then Some (CommentStart, []) else None
  | CommentStart => if (c =? 45) || (c =? 62) || (c =? 60) then None else Some (CommentData [c], [])
  | CommentData text =>
      if c =? 45 then Some (CommentEndDash text, []) else if c =? 60 then None else Some (CommentData (text ++ [c]), [])
  | CommentEndDash text =>
      if c =? 45 then Some (CommentEnd text, []) else if c =? 60 then None else Some (CommentData (text ++ [45; c]), [])
  | CommentEnd text => if c =? 62 then Some (Data, [Comment text]) else None
  end%list.

Fixpoint run (q : TState) (s : chars) : option (TState * list Token) :=
  match s with
  | [] => Some (q, [])
  | c :: s =>
      match step q c with
      | None => None
      | Some (q, emitted) => match run q s with Some (q, ts) => Some (q, emitted ++ ts)%list | None => None end
      end
  end.

(** The tokens of a whole input: its end must be in the data state. *)
Definition tokenize (s : chars) : option (list Token) :=
  match run Data s with Some (Data, ts) => Some ts | _ => None end.

(** ** Reading a concatenation *)

Lemma run_app q s1 s2 q1 ts1 : run q s1 = Some (q1, ts1) ->
  run q (s1 ++ s2) = match run q1 s2 with Some (q2, ts2) => Some (q2, ts1 ++ ts2)%list | None => None end.
Proof.
  revert q ts1. induction s1 as [|c s1 IH]; intros q ts1; cbn [run app].
  { intros [= <- <-]. by destruct (run q s2) as [[]|]. }
  destruct (step q c) as [[q' em]|]; [|done]. destruct (run q' s1) as [[q'' ts]|] eqn:Hr; [|done].
  intros [= -> <-]. rewrite (IH q' ts Hr). destruct (run q1 s2) as [[]|]; [|done]. by rewrite app_assoc.
Qed.

Lemma run_then q s1 s2 q1 ts1 q2 ts2 :
  run q s1 = Some (q1, ts1) -> run q1 s2 = Some (q2, ts2) -> run q (s1 ++ s2) = Some (q2, ts1 ++ ts2)%list.
Proof. intros H1 H2. by rewrite (run_app _ _ _ _ _ H1), H2. Qed.

(** ** Names, text and values *)

(** What validated names are made of. *)
Definition name_char (c : N) : bool := ascii_alphanumeric c || (c =? 45) || (c =? 46) || (c =? 58) || (c =? 95) || (128 <=? c).

Ltac char_tests :=
  repeat match goal with |- context [?a =? ?b] => rewrite (proj2 (N.eqb_neq a b)) by lia end.

Lemma name_char_plain c : name_char c = true ->
  c <> 0 /\ c <> 9 /\ c <> 10 /\ c <> 12 /\ c <> 13 /\ c <> 32 /\ c <> 34 /\ c <> 47 /\ c <> 60 /\ c <> 61 /\ c <> 62.
Proof.
  unfold name_char, ascii_alphanumeric, ascii_alphabetic, ascii_upper, ascii_lower, ascii_digit, between. lia.
Qed.

Lemma step_end_tag_name name c : name_char c = true -> step (EndTagName name) c = Some (EndTagName (name ++ [lower c]), [])%list.
Proof. intros (?&?&?&?&?&?&?&?&?&?&?)%name_char_plain. unfold step, space. by char_tests. Qed.

Lemma step_tag_name name c : name_char c = true -> step (TagName name) c = Some (TagName (name ++ [lower c]), [])%list.
Proof. intros (?&?&?&?&?&?&?&?&?&?&?)%name_char_plain. unfold step, space. by char_tests. Qed.

Lemma step_attribute_name t ats n c : name_char c = true ->
  step (AttributeName t ats n) c = Some (AttributeName t ats (n ++ [lower c]), [])%list.
Proof. intros (?&?&?&?&?&?&?&?&?&?&?)%name_char_plain. unfold step, space. by char_tests. Qed.

(** A state that gathers a name gathers all of it. *)
Lemma run_gather (P : N -> bool) (f : N -> N) (q : chars -> TState) :
  (forall n c, P c = true -> step (q n) c = Some (q (n ++ [f c])%list, [])) ->
  forall s n rest, forallb P s = true -> run (q n) (s ++ rest) = run (q (n ++ map f s)%list) rest.
Proof.
  intros Hstep s. induction s as [|c s IH]; intros n rest; cbn [forallb run map app]; [by rewrite app_nil_r|].
  intros [Hc Hs]%andb_true_iff. rewrite (Hstep n c Hc), (IH _ _ Hs), <- app_assoc. cbn [app].
  by destruct (run _ rest) as [[]|].
Qed.

Lemma name_plain_start c : ascii_alphabetic c = true -> c <> 0 /\ c <> 13 /\ c <> 33 /\ c <> 47 /\ c <> 63.
Proof.
  unfold ascii_alphabetic, ascii_upper, ascii_lower, between. lia.
Qed.

(** A name that opens a tag: a letter, then name characters. *)
Definition tag_like (t : chars) : bool :=
  match t with c :: s => ascii_alphabetic c && forallb name_char s | [] => false end.

Lemma run_start_tag t : tag_like t = true -> run Data (str "<" ++ t) = Some (TagName (lowercase t), []).
Proof.
  destruct t as [|c s]; [done|]. cbn [tag_like]. intros [Hc Hs]%andb_true_iff.
  eapply (run_then _ _ _ _ [] _ []); [reflexivity|]. cbn [run].
  assert (Hstep : step TagOpen c = Some (TagName [lower c], [])).
  { destruct (name_plain_start c Hc) as (?&?&?&?&?). unfold step. char_tests. by rewrite Hc. }
  rewrite Hstep, <- (app_nil_r s), (run_gather name_char lower TagName step_tag_name); [|done]. by rewrite app_nil_r.
Qed.

Lemma run_end_tag t : tag_like t = true -> run Data (str "</" ++ (t ++ str ">")) = Some (Data, [EndTag (lowercase t)]).
Proof.
  destruct t as [|c s]; [done|]. cbn [tag_like]. intros [Hc Hs]%andb_true_iff.
  eapply (run_then _ _ _ _ [] _ [_]); [reflexivity|]. cbn [app run].
  assert (Hstep : step EndTagOpen c = Some (EndTagName [lower c], [])).
  { destruct (name_plain_start c Hc) as (?&?&?&?&?). unfold step. char_tests. by rewrite Hc. }
  rewrite Hstep. by rewrite (run_gather name_char lower EndTagName step_end_tag_name).
Qed.

(** An attribute after the tag name or after another attribute. *)
Definition more (name : chars) (attributes : list (chars * chars)) (q : TState) : Prop :=
  q = AfterAttributeValue name attributes \/ q = TagName name /\ attributes = [].

Lemma run_attribute_name q name attributes a : more name attributes q -> a <> [] -> forallb name_char a = true ->
  run q (str " " ++ (a ++ (str "=" ++ [34]))) = Some (AttributeValue name attributes (lowercase a) [], []).
Proof.
  intros Hq Hne Ha. destruct a as [|c a]; [done|]. cbn [forallb] in Ha. apply andb_true_iff in Ha as [Hc Ha].
  eapply (run_then _ _ _ (BeforeAttributeName name attributes) [] _ []); [by destruct Hq as [->|[-> ->]]|].
  cbn [app run]. assert (Hstep : step (BeforeAttributeName name attributes) c = Some (AttributeName name attributes [lower c], [])).
  { destruct (name_char_plain c Hc) as (?&?&?&?&?&?&?&?&?&?&?). unfold step, space. by char_tests. }
  rewrite Hstep. by rewrite (run_gather name_char lower (AttributeName name attributes)
    (step_attribute_name name attributes)).
Qed.

Lemma run_close_tag q name attributes : more name attributes q -> run q (str ">") = Some (Data, [StartTag name attributes]).
Proof. by intros [->|[-> ->]]. Qed.
