(* ===== verification/DomHtml.v ===== *)
(** * DomHtml: what a browser reads in rendered HTML

    The specification side of [Dom]: which views the builders make ([view_ok]), the
    part of the WHATWG tokenizer that well-formed markup visits, and the scopes of
    its tree builder. Rendered HTML is read back as the tags, attributes, text and
    comments of the view, holds no active content, and respects the nesting the tree
    builder would otherwise repair. *)

From Stdlib Require Import ZifyBool.
From S2P Require Import Prelude DomName Dom DomTokens.

Local Open Scope string_scope.
Local Open Scope N_scope.

(** ** Induction on views *)

Section view_induction.
Context (P : View -> Prop).
Context (HText : forall s, P (Text s)) (HDynText : forall s, P (DynText s)).
Context (HElement : forall t a l c, Forall P c -> P (Element (mkElement t a l c))).
Context (HFragment : forall c, Forall P c -> P (Fragment c)) (HDynView : forall v, P v -> P (DynView v)).
Context (HError : forall e, P (Keyed (Err e))).
Context (HKeyed : forall rows, Forall (fun row => match row.2 with Ok v => P v | Err _ => True end) rows -> P (Keyed (Ok rows))).

Fixpoint view_rect' (v : View) : P v :=
  let all := fix all (l : list View) : Forall P l :=
    match l with [] => Forall_nil_2 _ | v :: l => Forall_cons_2 _ _ _ (view_rect' v) (all l) end in
  match v with
  | Text s => HText s
  | DynText s => HDynText s
  | Element (mkElement t a l c) => HElement t a l c (all c)
  | Fragment c => HFragment c (all c)
  | DynView v => HDynView v (view_rect' v)
  | Keyed (Err e) => HError e
  | Keyed (Ok rows) =>
      HKeyed rows ((fix all_rows (rows : list (KeyedKey * result KeyedError View)) :=
        match rows return Forall (fun row => match row.2 with Ok v => P v | Err _ => True end) rows with
        | [] => Forall_nil_2 _
        | (k, Ok v) :: rows => Forall_cons_2 (fun row => match row.2 with Ok v => P v | Err _ => True end) (k, Ok v) rows (view_rect' v) (all_rows rows)
        | (k, Err e) :: rows => Forall_cons_2 (fun row => match row.2 with Ok v => P v | Err _ => True end) (k, Err e) rows I (all_rows rows)
        end) rows)
  end.

End view_induction.

(** ** The views the builders make *)

Section built.
Context `{UnicodeTables}.

Definition handler_name (name : chars) : bool :=
  match name with a :: b :: _ => eq_ignore_ascii_case [a; b] (str "on") | _ => false end.

Record attribute_ok (a : chars * AttrValue) : Prop := {
  attribute_name : validate a.1 Attribute = Ok tt;
  attribute_inert : handler_name a.1 = false /\ eq_ignore_ascii_case a.1 (str "srcdoc") = false;
  attribute_value : match a.2 with
                    | Static v | Dyn (Ok v) => validate_attribute_value a.1 v = Ok tt
                    | Dyn (Err _) => True
                    end }.

Record element_ok (e : ElementData) : Prop := {
  element_tag : validate (tag e) Tag = Ok tt;
  element_inert : is_forbidden_element (tag e) = false;
  element_attrs : Forall attribute_ok (attrs e);
  element_once : NoDup (map (fun a => lowercase a.1) (attrs e));
  element_events : Forall (fun l => validate l Event = Ok tt) (listeners e) }.

Inductive view_ok : View -> Prop :=
| ok_text s : view_ok (Text s)
| ok_dyn_text s : view_ok (DynText s)
| ok_element e : element_ok e -> (forall c, c ∈ children e -> view_ok c) -> view_ok (Element e)
| ok_fragment cs : (forall c, c ∈ cs -> view_ok c) -> view_ok (Fragment cs)
| ok_dyn_view v : view_ok v -> view_ok (DynView v)
| ok_keyed rows : (forall k v, (k, Ok v) ∈ rows -> view_ok v) -> view_ok (Keyed (Ok rows))
| ok_keyed_error e : view_ok (Keyed (Err e)).

(** What a program makes with the public builders. *)
Inductive built : View -> Prop :=
| built_text s : built (Text s)
| built_dyn_text s : built (DynText s)
| built_fragment cs : (forall c, c ∈ cs -> built c) -> built (Fragment cs)
| built_dyn_view v : built v -> built (DynView v)
| built_keyed {T} each key (row : T -> result KeyedError View) :
    (forall t v, row t = Ok v -> built v) -> built (Keyed (collect each key row))
| built_into_view e : built_element e -> built (Element e)
with built_element : ElementData -> Prop :=
| built_el t e : try_el t = Ok e -> built_element e
| built_attr e name value e' : built_element e -> try_attr e name value = Ok e' -> built_element e'
| built_attr_dyn e name answer e' : built_element e -> try_attr_dyn e name answer = Ok e' -> built_element e'
| built_child e child e' : built_element e -> built child -> try_child e child = Ok e' -> built_element e'
| built_on e event e' : built_element e -> try_on e event = Ok e' -> built_element e'.

Scheme built_ind' := Minimality for built Sort Prop
  with built_element_ind' := Minimality for built_element Sort Prop.
Combined Scheme built_both_ind from built_ind', built_element_ind'.

Lemma dom_name_ok kind value r : dom_name kind value = Ok r -> r = value /\ validate value kind = Ok tt.
Proof. unfold dom_name, name_new. destruct (validate value kind) as [[]|]; [|done]. by intros [= <-]. Qed.

Lemma eq_ignore_true a b : eq_ignore_ascii_case a b = true <-> lowercase a = lowercase b.
Proof. unfold eq_ignore_ascii_case. by rewrite bool_decide_eq_true. Qed.

Lemma new_attribute_ok e name r : validate_new_attribute e name = Ok r ->
  r = name /\ validate name Attribute = Ok tt /\ handler_name name = false /\ eq_ignore_ascii_case name (str "srcdoc") = false /\
  lowercase name ∉ map (fun a => lowercase a.1) (attrs e).
Proof.
  unfold validate_new_attribute. destruct (dom_name Attribute name) as [n|] eqn:Hn; [|done]. apply dom_name_ok in Hn as [-> Hv].
  cbn [mbind result_bind]. fold (handler_name name). destruct (handler_name name); [done|].
  destruct (eq_ignore_ascii_case name (str "srcdoc")); [done|]. destruct (existsb _ _) eqn:He; [done|]. intros [= <-].
  split_and!; try done. intros (a & Ha & Hin)%list_elem_of_fmap.
  assert (Ht : existsb (fun a => eq_ignore_ascii_case a.1 name) (attrs e) = true).
  { apply existsb_exists. exists a. split; [by apply list_elem_of_In|]. by apply eq_ignore_true. }
  congruence.
Qed.

Lemma push_attr_ok e name v : element_ok e -> attribute_ok (name, v) ->
  lowercase name ∉ map (fun a => lowercase a.1) (attrs e) -> element_ok (push_attr e name v).
Proof.
  intros [E1 E2 E3 E4 E5] Ha Hn. split; cbn; [done|done| | |done].
  - apply Forall_app. split; [done|]. by apply Forall_singleton.
  - rewrite map_app. apply NoDup_app. split_and!; [done| |by apply NoDup_singleton].
    intros x Hx Hin. cbn in Hin. apply list_elem_of_singleton in Hin as ->. done.
Qed.

Record element_view_ok (e : ElementData) : Prop := {
  view_element : element_ok e; view_children : forall c, c ∈ children e -> view_ok c }.

Lemma collect_rows_ok {T} (each : result KeyedError (list T)) key (row : T -> result KeyedError View) :
  (forall t v, row t = Ok v -> view_ok v) -> view_ok (Keyed (collect each key row)).
Proof.
  intros Hrow. unfold collect. destruct each as [items|e]; [|constructor]. cbn [mbind result_bind].
  destruct (collect_loop key items [] 0 []) as [keyed|e]; [|constructor]. cbn [mbind result_bind].
  constructor. intros k v (r & Hr & _)%list_elem_of_fmap. injection Hr as _ Hv. by apply (Hrow r.2).
Qed.

Lemma try_el_ok t e : try_el t = Ok e -> element_view_ok e.
Proof.
  unfold try_el. destruct (dom_name Tag t) as [t'|] eqn:Ht; [|done]. apply dom_name_ok in Ht as [-> Ht].
  cbn [mbind result_bind]. destruct (is_forbidden_element t) eqn:Hf; [done|]. intros [= <-].
  split; [|by intros c ?%elem_of_nil]. split; try done; constructor.
Qed.

Lemma try_attr_ok e name value e' : try_attr e name value = Ok e' -> element_view_ok e -> element_view_ok e'.
Proof.
  unfold try_attr. destruct (validate_new_attribute e name) as [n|] eqn:Hn; [|done].
  apply new_attribute_ok in Hn as (-> & H1 & H2 & H3 & H4). cbn [mbind result_bind].
  destruct (validate_attribute_value name value) as [[]|] eqn:Hv; [|done]. intros [= <-] [He Hc].
  split; [|done]. by apply push_attr_ok.
Qed.

Lemma try_attr_dyn_ok e name answer e' : try_attr_dyn e name answer = Ok e' -> element_view_ok e -> element_view_ok e'.
Proof.
  unfold try_attr_dyn. destruct (validate_new_attribute e name) as [n|] eqn:Hn; [|done].
  apply new_attribute_ok in Hn as (-> & H1 & H2 & H3 & H4). cbn [mbind result_bind]. intros [= <-] [He Hc].
  split; [|done]. apply push_attr_ok; [done| |done]. split; [done..|]. cbn. unfold guarded.
  by destruct (validate_attribute_value name answer) as [[]|] eqn:Hv.
Qed.

Lemma try_on_ok e event e' : try_on e event = Ok e' -> element_view_ok e -> element_view_ok e'.
Proof.
  unfold try_on. destruct (dom_name Event event) as [n|] eqn:Hn; [|done]. apply dom_name_ok in Hn as [-> Hn].
  cbn [mbind result_bind]. intros [= <-] [[E1 E2 E3 E4 E5] Hc]. split; [|done].
  split; try done. cbn. apply Forall_app. by rewrite Forall_singleton.
Qed.

Lemma try_child_ok e child e' : try_child e child = Ok e' -> view_ok child -> element_view_ok e -> element_view_ok e'.
Proof.
  intros [= <-] Hok [[E1 E2 E3 E4 E5] Hc]. split; [by split|].
  cbn. intros c [?| ->%list_elem_of_singleton]%elem_of_app; [by apply Hc|done].
Qed.

Lemma built_both_ok : (forall v, built v -> view_ok v) /\ (forall e, built_element e -> element_view_ok e).
Proof.
  apply built_both_ind; intros; try (by constructor).
  - by apply collect_rows_ok.
  - match goal with H : element_view_ok _ |- _ => destruct H end. by constructor.
  - by eapply try_el_ok.
  - by eapply try_attr_ok.
  - by eapply try_attr_dyn_ok.
  - by eapply try_child_ok.
  - by eapply try_on_ok.
Qed.

End built.

(** ** The tokens of a view *)

(** The name and namespace of an element, and of those it is in, innermost first. *)
Definition Tagged : Type := chars * ElementNamespace.

Inductive Content : Type := Elem (e : Tagged) | Words (s : chars).

(** Every element and text of a view, in order, with the elements it is in. *)
Fixpoint contents (v : View) (ns : ElementNamespace) (ancestors : list Tagged) : list (list Tagged * Content) :=
  match v with
  | Text s | DynText s => [(ancestors, Words s)]
  | Keyed (Err _) => []
  | Fragment cs => concat (map (fun c => contents c ns ancestors) cs)
  | DynView v => contents v ns ancestors
  | Keyed (Ok rows) => concat (map (fun row => match row.2 with Ok v => contents v ns ancestors | Err _ => [] end) rows)
  | Element (mkElement t _ _ cs) =>
      let ns := for_element ns t in
      (ancestors, Elem (t, ns)) :: concat (map (fun c => contents c (for_children ns t) ((t, ns) :: ancestors)) cs)
  end.

(** A browser only reads [<] as a tag before an ASCII letter. *)
Definition starts_with_letter (t : chars) : bool := match t with c :: _ => ascii_alphabetic c | [] => false end.
Definition letter (c : list Tagged * Content) : bool := match c.2 with Elem (t, _) => starts_with_letter t | Words _ => true end.
Definition lettered (v : View) : bool := forallb letter (contents v Html []).

Definition value_of (a : AttrValue) : chars := match a with Static v | Dyn (Ok v) => v | Dyn (Err _) => [] end.
Definition read_attribute (a : chars * AttrValue) : chars * chars := (lowercase a.1, value_of a.2).

Section tokens.
Context (mode : RenderMode).

Definition marker (text : string) : list Token := if bool_decide (mode = Adoptable) then [Comment (str text)] else [].

(** [marked] is false in an element whose content a browser reads as text. *)
Fixpoint tokens (v : View) (ns : ElementNamespace) (marked : bool) : list Token :=
  match v with
  | Text s =>
      (if marked then marker "pliego:text" else []) ++ map Character s ++ (if marked then marker "/pliego:text" else [])
  | DynText s => marker "pliego:dyn-text" ++ map Character s ++ marker "/pliego:dyn-text"
  | Fragment cs => concat (map (fun c => tokens c ns marked) cs)
  | DynView v =>
      (marker "pliego:dyn" ++ marker "pliego:mount") ++ tokens v ns marked ++ marker "/pliego:mount" ++ marker "/pliego:dyn"
  | Keyed (Err _) => []
  | Keyed (Ok rows) =>
      marker "pliego:keyed" ++
      concat (map (fun row => match row.2 with
                              | Ok v => marker "pliego:row" ++ tokens v ns marked ++ marker "/pliego:row"
                              | Err _ => []
                              end) rows) ++
      marker "/pliego:keyed"
  | Element (mkElement t attributes _ cs) =>
      let ns := for_element ns t in
      let inside := negb (bool_decide (ns = Html) && one_of ["textarea"; "title"] t) in
      [StartTag (lowercase t) (map read_attribute attributes)] ++
      if is_void_in t ns then []
      else concat (map (fun c => tokens c (for_children ns t) inside) cs) ++ [EndTag (lowercase t)]
  end%list.

Definition document (v : View) : list Token :=
  (marker "pliego:ssr:v1" ++ tokens v Html true ++ marker "/pliego:ssr:v1")%list.

End tokens.

(** ** Reading what is written *)

(** The markup written from [h] to [h'] takes the tokenizer from [q] to [q']. *)
Definition reads (q : TState) (h : chars) (q' : TState) (h' : chars) (ts : list Token) : Prop :=
  exists s, h' = (h ++ s)%list /\ run q s = Some (q', ts).

Lemma reads_nil q h : reads q h q h [].
Proof. exists []. by rewrite app_nil_r. Qed.

Lemma reads_app q h q1 h1 ts1 q2 h2 ts2 :
  reads q h q1 h1 ts1 -> reads q1 h1 q2 h2 ts2 -> reads q h q2 h2 (ts1 ++ ts2)%list.
Proof. intros (s1 & -> & H1) (s2 & -> & H2). exists (s1 ++ s2)%list. rewrite app_assoc. split; [done|]. by eapply run_then. Qed.

Lemma find_normalized_shift value n m : find_normalized n value = None -> find_normalized m value = None.
Proof.
  revert n m. induction value as [|c value IH]; [done|]. cbn. intros n m. destruct ((c =? 0) || (c =? 13)); [done|]. apply IH.
Qed.

Lemma not_normalized c value n : find_normalized n (c :: value) = None -> c <> 0 /\ c <> 13 /\ find_normalized 0 value = None.
Proof.
  cbn. destruct ((c =? 0) || (c =? 13)) eqn:Hc; [done|]. intros Hv. reflect_guards. split_and!; try done.
  by apply find_normalized_shift with (n + len_utf8 c).
Qed.

Lemma run_escaped_text value : find_normalized 0 value = None ->
  run Data (concat (map (escape false) value)) = Some (Data, map Character value).
Proof.
  induction value as [|c value IH]; [done|]. intros (H0 & H13 & Hv)%not_normalized. cbn [map concat].
  apply (run_then _ _ _ Data [Character c] Data (map Character value)); [|by apply IH].
  unfold escape. destruct (N.eqb_spec c 38) as [->|?]; [done|]. destruct (N.eqb_spec c 60) as [->|?]; [done|].
  destruct (N.eqb_spec c 62) as [->|?]; [done|]. rewrite andb_false_r. cbn. unfold step, data_step. by char_tests.
Qed.

Lemma run_escaped_value value name ats a before : find_normalized 0 value = None ->
  run (AttributeValue name ats a before) (concat (map (escape true) value)) = Some (AttributeValue name ats a (before ++ value)%list, []).
Proof.
  revert before. induction value as [|c value IH]; intros before; [by rewrite app_nil_r|].
  intros (H0 & H13 & Hv)%not_normalized. cbn [map concat].
  apply (run_then _ _ _ (AttributeValue name ats a (before ++ [c])%list) [] _ []).
  - unfold escape. destruct (N.eqb_spec c 38) as [->|?]; [done|]. destruct (N.eqb_spec c 60) as [->|?]; [done|].
    destruct (N.eqb_spec c 62) as [->|?]; [done|]. rewrite andb_true_r. destruct (N.eqb_spec c 34) as [->|?]; [done|].
    cbn. unfold step. by char_tests.
  - rewrite (IH _ Hv). by rewrite <- app_assoc.
Qed.

(** ** Names that were validated *)

Section reading.
Context `{UnicodeTables}.

Lemma name_continue_char c : is_name_continue c = true -> name_char c = true.
Proof.
  unfold is_name_continue, name_char, is_alphanumeric. destruct (c <? 128) eqn:Hc; [|by replace (128 <=? c) with true by lia; rewrite orb_true_r].
  destruct (ascii_alphanumeric c), (c =? 45), (c =? 95), (c =? 46); cbn; rewrite ?orb_true_r; done.
Qed.

Lemma validate_rest_chars kind before index separators after s :
  validate_rest kind before index separators after s = Ok tt -> forallb name_char s = true.
Proof.
  revert before index separators after. induction s as [|c s IH]; intros before index separators after; [done|]. cbn [validate_rest forallb].
  destruct (N.eqb_spec c 58) as [->|_].
  - destruct (bool_decide (kind = Tag)); [done|]. intros Hv. split_ok. cbn. by eapply IH.
  - destruct (is_name_continue c) eqn:Hc; [|done]. cbn [negb]. destruct (after && negb (is_name_start c)); [done|].
    intros Hv%IH. by rewrite (name_continue_char _ Hc), Hv.
Qed.

Lemma name_start_char c : is_name_start c = true -> name_char c = true.
Proof.
  unfold is_name_start, name_char, is_alphabetic. destruct (c <? 128) eqn:Hc; [|by replace (128 <=? c) with true by lia; rewrite orb_true_r].
  unfold ascii_alphanumeric. destruct (ascii_alphabetic c), (c =? 95); cbn; rewrite ?orb_true_r; done.
Qed.

Lemma validate_chars kind value : validate value kind = Ok tt -> value <> [] /\ forallb name_char value = true.
Proof.
  destruct value as [|c s]; [done|]. cbn [validate]. destruct (MAX_DOM_NAME_BYTES <? _); [done|].
  destruct (is_name_start c) eqn:Hc; [|done]. cbn [negb]. intros Hs%validate_rest_chars.
  split; [done|]. cbn. by rewrite (name_start_char _ Hc), Hs.
Qed.

Lemma tag_name_like t : validate t Tag = Ok tt -> starts_with_letter t = true -> tag_like t = true.
Proof.
  intros [_ Ht]%validate_chars. destruct t as [|c s]; [done|]. cbn in *. intros ->.
  by apply andb_true_iff in Ht as [_ ->].
Qed.

(** ** Reading the walker's output *)

Context (limits : RenderLimits) (mode : RenderMode).

Lemma push_reads v st st' q q' ts : push_str limits v st = Ok st' -> run q v = Some (q', ts) -> reads q (html st) q' (html st') ts.
Proof. unfold push_str. intros Hp Hr. split_ok. subst st'. by exists v. Qed.

Lemma push_escaped_html attribute value st st' : push_escaped limits attribute value st = Ok st' ->
  html st' = (html st ++ concat (map (escape attribute) value))%list.
Proof.
  revert st. induction value as [|c value IH]; cbn; intros st Hp; [injection Hp as <-; by rewrite app_nil_r|].
  unfold push_str in Hp. split_ok. simplify_eq. rewrite (IH _ Hp). cbn. by rewrite <- app_assoc.
Qed.

Lemma text_reads value parent st st' : write_text limits value parent st = Ok st' ->
  reads Data (html st) Data (html st') (map Character value).
Proof.
  unfold write_text. intros Hw. split_ok. destruct (find_normalized 0 value) as [[]|] eqn:Hv; [done|]. split_ok.
  exists (concat (map (escape false) value)). split; [|by apply run_escaped_text].
  apply push_escaped_html in Hr1. rewrite <- Hr1. subst st'. by destruct (bool_decide (value = [])).
Qed.

Lemma marker_reads s text st st' : when_adoptable limits mode s st = Ok st' ->
  run Data (str s) = Some (Data, [Comment (str text)]) -> reads Data (html st) Data (html st') (marker mode text).
Proof.
  unfold when_adoptable, marker. destruct (bool_decide (mode = Adoptable)); [|intros [= ->] _; apply reads_nil].
  intros Hp Hs. by apply (push_reads (str s)).
Qed.

Lemma each_reads {A} (f : A -> St -> result RenderError St) (g : A -> list Token) l st st' :
  (forall a st st', a ∈ l -> f a st = Ok st' -> reads Data (html st) Data (html st') (g a)) ->
  each f l st = Ok st' -> reads Data (html st) Data (html st') (concat (map g l)).
Proof.
  revert st. induction l as [|a l IH]; intros st Hf; cbn; [intros [= ->]; apply reads_nil|]. intros He. split_ok.
  eapply reads_app; [apply (Hf a); [by left|done]|]. apply IH; [|done]. intros b s1 s2 Hb. apply Hf. by right.
Qed.

Lemma push_html v st st' : push_str limits v st = Ok st' -> html st' = (html st ++ v)%list.
Proof. unfold push_str. intros Hp. split_ok. by subst st'. Qed.

Lemma value_normalized name value : validate_attribute_value name value = Ok tt -> find_normalized 0 value = None.
Proof. unfold validate_attribute_value. by destruct (find_normalized 0 value) as [[]|]. Qed.

Lemma attr_reads t ns a st st' q name before : attribute_ok a -> more name before q ->
  lowercase a.1 ∉ before.*1 -> write_attr limits t ns a st = Ok st' ->
  reads q (html st) (AfterAttributeValue name (before ++ [read_attribute a])%list) (html st') [].
Proof.
  destruct a as [n v]. intros [[Hne Hname]%validate_chars _ _] Hq Hnew Hw. cbn [fst] in *. unfold write_attr in Hw. split_ok.
  assert (Hval : value_of v = value0).
  { destruct v as [w|[w|e]]; [by injection Hr0| |done]. by injection Hr0. }
  apply push_html in Hr3, Hr4, Hr5, Hw. apply push_escaped_html in Hr6. apply value_normalized in Hr7.
  exists ((str " " ++ (n ++ (str "=" ++ [34]))) ++ (concat (map (escape true) value0) ++ [34]))%list. split.
  { rewrite Hw, Hr6, Hr5, Hr4, Hr3. rewrite <- !app_assoc. reflexivity. }
  apply (run_then _ _ _ _ [] _ [] (run_attribute_name q name before n Hq Hne Hname)).
  apply (run_then _ _ _ _ [] _ [] (run_escaped_value value0 _ _ _ [] Hr7)).
  cbn. unfold add_attribute, read_attribute. cbn [fst snd]. by rewrite bool_decide_false, Hval.
Qed.

Lemma attrs_reads t ns l st st' q name before : Forall attribute_ok l -> more name before q ->
  NoDup (before.*1 ++ map (fun a => lowercase a.1) l) -> each (write_attr limits t ns) l st = Ok st' ->
  exists q', more name (before ++ map read_attribute l)%list q' /\ reads q (html st) q' (html st') [].
Proof.
  revert st q before. induction l as [|a l IH]; intros st q before Hok Hq Hnd; cbn [each map].
  { intros [= ->]. exists q. rewrite app_nil_r. by split; [|apply reads_nil]. }
  apply Forall_cons in Hok as [Ha Hok]. intros He. split_ok.
  assert (Hnew : lowercase a.1 ∉ before.*1).
  { apply NoDup_app in Hnd as (_ & Hnd & _). intros Hin. apply (Hnd _ Hin). by left. }
  pose proof (attr_reads t ns a st value q name before Ha Hq Hnew Hr) as H1.
  destruct (IH value (AfterAttributeValue name (before ++ [read_attribute a])%list) (before ++ [read_attribute a])%list) as (q' & Hq' & H2);
    [done|by left| |done|].
  { rewrite fmap_app. cbn. by rewrite <- app_assoc. }
  exists q'. rewrite <- app_assoc in Hq'. split; [done|]. exact (reads_app _ _ _ _ [] _ _ [] H1 H2).
Qed.

Lemma open_reads parent t ns l st st' : tag_like t = true -> Forall attribute_ok l -> NoDup (map (fun a => lowercase a.1) l) ->
  open_element limits parent t ns l st = Ok st' ->
  reads Data (html st) Data (html st') [StartTag (lowercase t) (map read_attribute l)].
Proof.
  intros Ht Hok Hnd. unfold open_element. destruct (is_forbidden_element t); [done|]. intros Ho. split_ok.
  apply push_html in Hr1 as H1. apply push_html in Hr2 as H2. apply push_html in Ho as H4.
  destruct (attrs_reads t ns l value2 value3 (TagName (lowercase t)) (lowercase t) [] Hok) as (q & Hq & H3); [by right|done|done|].
  apply (reads_app _ _ (TagName (lowercase t)) (html value2) [] _ _ [_]).
  { exists (str "<" ++ t)%list. split; [|by apply run_start_tag]. rewrite H2, H1, <- app_assoc. reflexivity. }
  apply (reads_app _ _ q (html value3) [] _ _ [_] H3). exists (str ">"). split; [done|]. by apply run_close_tag.
Qed.

Lemma close_reads t st st' : tag_like t = true -> close_element limits t st = Ok st' ->
  reads Data (html st) Data (html st') [EndTag (lowercase t)].
Proof.
  intros Ht. unfold close_element. intros Hc. split_ok. apply push_html in Hr, Hr0, Hc.
  exists (str "</" ++ (t ++ str ">"))%list. split; [|by apply run_end_tag]. rewrite Hc, Hr0, Hr, <- !app_assoc. reflexivity.
Qed.

Lemma forallb_concat {A B} (p : B -> bool) (f : A -> list B) l a :
  forallb p (concat (map f l)) = true -> a ∈ l -> forallb p (f a) = true.
Proof.
  rewrite !forallb_forall. intros Hl Ha x Hx. apply Hl, in_concat. exists (f a).
  split; [by apply in_map, list_elem_of_In|done].
Qed.

Lemma visit_html depth st st' : visit limits depth st = Ok st' -> html st' = html st.
Proof. unfold visit. intros Hv. split_ok. by subst st'. Qed.

Definition view_reads (v : View) : Prop :=
  forall ns depth parent ancestors st st', view_ok v -> forallb letter (contents v ns ancestors) = true ->
  write_html limits mode v ns depth parent st = Ok st' ->
  reads Data (html st) Data (html st') (tokens mode v ns (negb (is_html_rcdata_parent parent))).

Ltac start_view :=
  intros ns depth parent ancestors st st' Hok Hlet Hw; cbn [write_html] in Hw; inversion Hok; subst; clear Hok;
  destruct (visit limits depth st) as [st0|] eqn:Hvisit; cbn [mbind result_bind] in Hw; [|discriminate];
  apply visit_html in Hvisit; rewrite <- Hvisit; clear Hvisit; cbn [tokens].

Lemma text_view_reads s : view_reads (Text s).
Proof.
  start_view. destruct (is_html_rcdata_parent parent); cbn [negb] in *; split_ok; simplify_eq.
  { rewrite app_nil_l, app_nil_r. by apply text_reads with parent. }
  eapply reads_app; [by eapply marker_reads|]. eapply reads_app; [by eapply text_reads|]. by eapply marker_reads.
Qed.

Lemma dyn_text_view_reads s : view_reads (DynText s).
Proof.
  start_view. split_ok.
  eapply reads_app; [by eapply marker_reads|]. eapply reads_app; [by eapply text_reads|]. by eapply marker_reads.
Qed.

Lemma fragment_reads cs : Forall view_reads cs -> view_reads (Fragment cs).
Proof.
  intros Hcs. start_view. rewrite Forall_forall in Hcs. eapply each_reads; [|exact Hw]. intros c s1 s2 Hc.
  apply (Hcs c Hc ns (depth + 1) parent ancestors); [by apply H1|]. exact (forallb_concat _ _ _ _ Hlet Hc).
Qed.

Lemma two_markers_reads s t1 t2 st st' : when_adoptable limits mode s st = Ok st' ->
  run Data (str s) = Some (Data, [Comment (str t1); Comment (str t2)]) -> reads Data (html st) Data (html st') (marker mode t1 ++ marker mode t2)%list.
Proof.
  unfold when_adoptable, marker. destruct (bool_decide (mode = Adoptable)); [|intros [= ->] _; apply reads_nil].
  intros Hp Hs. by apply (push_reads (str s)).
Qed.

Lemma dyn_view_reads v : view_reads v -> view_reads (DynView v).
Proof.
  intros Hv. start_view. split_ok.
  eapply reads_app; [by eapply two_markers_reads|]. eapply reads_app; [|by eapply two_markers_reads]. by eapply Hv.
Qed.

Lemma keyed_reads rows : Forall (fun row => match row.2 with Ok v => view_reads v | Err _ => True end) rows ->
  view_reads (Keyed (Ok rows)).
Proof.
  intros Hrows. rewrite Forall_forall in Hrows. start_view. split_ok.
  eapply reads_app; [by eapply marker_reads|]. eapply reads_app; [|by eapply marker_reads].
  eapply each_reads; [|done]. intros [k [v|e]] s1 s2 Hin Hrow; cbn [snd] in *; [|done]. split_ok.
  eapply reads_app; [by eapply marker_reads|]. eapply reads_app; [|by eapply marker_reads].
  eapply (Hrows (k, Ok v) Hin); [by eapply H1| |done]. exact (forallb_concat _ _ _ _ Hlet Hin).
Qed.

Lemma element_reads t a l cs : Forall view_reads cs -> view_reads (Element (mkElement t a l cs)).
Proof.
  intros Hcs. rewrite Forall_forall in Hcs. start_view. apply andb_true_iff in Hlet as [Hletter Hlet]. cbn [letter fst snd] in Hletter.
  match goal with H : element_ok _ |- _ => destruct H as [E1 E2 E3 E4 E5] end. cbn in E1, E2, E3, E4.
  assert (Ht : tag_like t = true) by (by apply tag_name_like).
  destruct (open_element _ _ _ _ _ _) as [s1|] eqn:Hopen; cbn [mbind result_bind] in Hw; [|discriminate].
  eapply reads_app; [by eapply open_reads|]. destruct (is_void_in t (for_element ns t)).
  { destruct cs; [|done]. injection Hw as <-. apply reads_nil. }
  split_ok. eapply reads_app; [|by apply close_reads in Hw].
  cbn [html]. match goal with H : each _ cs _ = Ok ?s |- _ => apply (each_reads _ (fun c => tokens mode c (for_children (for_element ns t) t)
     (negb (bool_decide (for_element ns t = Html) && one_of ["textarea"; "title"] t)))) in H; [exact H|] end.
  intros c s2 s3 Hc Hwc. eapply (Hcs c Hc) in Hwc; [exact Hwc|by eauto|]. exact (forallb_concat _ _ _ _ Hlet Hc).
Qed.

Lemma every_view_reads v : view_reads v.
Proof.
  induction v using view_rect'.
  - apply text_view_reads.
  - apply dyn_text_view_reads.
  - by apply element_reads.
  - by apply fragment_reads.
  - by apply dyn_view_reads.
  - intros ns depth parent ancestors st st' _ _ Hw. cbn [write_html] in Hw. by split_ok.
  - by apply keyed_reads.
Qed.

Lemma document_reads v h : view_ok v -> lettered v = true -> try_render_html_mode limits mode v = Ok h ->
  run Data h = Some (Data, document mode v).
Proof.
  intros Hok Hlet. unfold try_render_html_mode. intros Hr. split_ok. subst h.
  enough (reads Data [] Data (html value1) (document mode v)) as (s & -> & Hs) by done.
  eapply (reads_app _ (html (mkSt false 0 []))); [by eapply marker_reads|].
  eapply reads_app; [|by eapply marker_reads]. by eapply (every_view_reads v Html 1 None []).
Qed.

End reading.

(** ** Schemes, as a browser parses them *)

Definition scheme_char (c : N) : bool := ascii_alphanumeric c || (c =? 43) || (c =? 45) || (c =? 46).

Fixpoint strip_start (s : chars) : chars := match s with c :: s' => if c <=? 32 then strip_start s' else s | [] => [] end.

Fixpoint scheme_rest (scheme s : chars) : option chars :=
  match s with
  | [] => None
  | c :: s => if c =? 58 then Some scheme else if scheme_char c then scheme_rest (scheme ++ [lower c])%list s else None
  end.

(** The WHATWG URL parser up to the scheme: leading controls and spaces are stripped,
    tabs and newlines removed; stripping the end cannot change the scheme. *)
Definition url_scheme (value : chars) : option chars :=
  match List.filter (fun c => negb ((c =? 9) || (c =? 10) || (c =? 13))) (strip_start value) with
  | c :: s => if ascii_alphabetic c then scheme_rest [lower c] s else None
  | [] => None
  end.

(** What [explicit_url_scheme] looks at. *)
Definition visible (c : N) : bool := negb ((c =? 32) || ascii_control c).

Lemma scheme_loop_visible s scheme : scheme_loop scheme (List.filter visible s) = scheme_loop scheme s.
Proof.
  revert scheme. induction s as [|c s IH]; intros scheme; [done|]. cbn [List.filter]. unfold visible.
  destruct ((c =? 32) || ascii_control c) eqn:Hc; cbn [negb scheme_loop]; rewrite Hc; [done|].
  destruct (c =? 58); [done|]. destruct ((c =? 47) || _ || _); [done|]. by destruct (negb _).
Qed.

Lemma visible_strip s : List.filter visible (strip_start s) = List.filter visible s.
Proof.
  induction s as [|c s IH]; [done|]. cbn [strip_start]. destruct (N.leb_spec c 32); [|done]. rewrite IH. cbn [List.filter].
  assert (visible c = false) as -> by (unfold visible, ascii_control; lia). done.
Qed.

Lemma visible_newlines s :
  List.filter visible (List.filter (fun c => negb ((c =? 9) || (c =? 10) || (c =? 13))) s) = List.filter visible s.
Proof.
  induction s as [|c s IH]; [done|]. cbn [List.filter]. destruct ((c =? 9) || (c =? 10) || (c =? 13)) eqn:Hc; cbn [negb List.filter].
  - rewrite IH. assert (visible c = false) as -> by (unfold visible, ascii_control; lia). done.
  - by rewrite IH.
Qed.

Lemma scheme_char_facts c : scheme_char c = true -> visible c = true /\ c <> 58 /\ c <> 47 /\ c <> 63 /\ c <> 35 /\ lower c < 128.
Proof.
  unfold scheme_char, visible, ascii_alphanumeric, ascii_alphabetic, lower, ascii_control, ascii_upper, ascii_lower, ascii_digit, between.
  destruct (N.leb_spec 65 c), (N.leb_spec c 90); cbn; lia.
Qed.

Lemma clen_ascii s : Forall (fun c => c < 128) s -> clen s = N.of_nat (length s).
Proof.
  induction 1 as [|c s Hc _ IH]; [done|]. change (clen (c :: s)) with (len_utf8 c + clen s).
  rewrite IH. unfold len_utf8. rewrite (proj2 (N.ltb_lt c 128) Hc). cbn [length]. lia.
Qed.

(** The scheme a browser reads is the one the code reads, up to 32 characters. *)
Lemma scheme_rest_loop s acc r : acc <> [] -> Forall (fun c => c < 128) acc -> scheme_rest acc s = Some r ->
  scheme_loop (take 32 acc) (List.filter visible s) = Some (take 32 r).
Proof.
  revert acc. induction s as [|c s IH]; intros acc Hne Hacc; [done|]. cbn [scheme_rest List.filter].
  assert (Hne' : take 32 acc <> []) by (by destruct acc).
  destruct (N.eqb_spec c 58) as [->|H58]; [intros [= <-]; cbn; by rewrite bool_decide_false|].
  destruct (scheme_char c) eqn:Hc; [|done]. intros Hr. pose proof (scheme_char_facts c Hc) as (Hv & _ & H47 & H63 & H35 & Hlow).
  rewrite Hv. cbn [scheme_loop]. unfold visible in Hv. apply negb_true_iff in Hv. rewrite Hv. char_tests. cbn [orb].
  rewrite bool_decide_false by done. unfold scheme_char in Hc. rewrite Hc. cbn [negb].
  apply IH in Hr; [|by destruct acc|by apply Forall_app; split; [|apply Forall_singleton]].
  rewrite <- Hr. f_equal. rewrite clen_ascii by by apply Forall_take. rewrite length_take.
  destruct (N.ltb_spec (N.of_nat (32 `min` length acc)) 32) as [Hlt|Hge].
  - rewrite (take_ge acc), (take_ge (acc ++ _)); [done| |]; rewrite ?length_app; cbn [length]; lia.
  - rewrite take_app_le; [done|lia].
Qed.

Lemma explicit_scheme value r : url_scheme value = Some r -> explicit_url_scheme value = Some (take 32 r).
Proof.
  unfold url_scheme, explicit_url_scheme. rewrite <- (scheme_loop_visible value), <- (visible_strip value), <- visible_newlines.
  destruct (List.filter _ (strip_start value)) as [|c s]; [done|]. destruct (ascii_alphabetic c) eqn:Hc; [|done]. intros Hr.
  assert (Hs : scheme_char c = true) by (unfold scheme_char, ascii_alphanumeric; by rewrite Hc).
  pose proof (scheme_char_facts c Hs) as (Hv & _ & H47 & H63 & H35 & Hlow).
  apply scheme_rest_loop in Hr; [|done|by apply Forall_singleton]. cbn [take] in Hr. rewrite <- Hr. cbn [List.filter].
  rewrite Hv. cbn [scheme_loop]. unfold visible in Hv. apply negb_true_iff in Hv. rewrite Hv.
  assert (c <> 58) by (revert Hc; unfold ascii_alphabetic, ascii_upper, ascii_lower, between; lia).
  char_tests. cbn [orb]. rewrite bool_decide_true by done. by rewrite Hc.
Qed.

Lemma one_of_length names s n : one_of names s = true -> forallb (fun m => Nat.leb (String.length m) n) names = true -> (length s <= n)%nat.
Proof.
  unfold one_of. intros (m & Hm & Heq)%existsb_exists Hn. rewrite forallb_forall in Hn. apply Hn, Nat.leb_le in Hm.
  apply eq_ignore_true in Heq. apply (f_equal length) in Heq. unfold lowercase, str in Heq.
  rewrite !length_map in Heq. rewrite Heq. clear -Hm. revert n Hm. induction m as [|a m IH]; cbn; intros n Hn; [lia|].
  destruct n; [lia|]. specialize (IH n). lia.
Qed.

Lemma allowed_scheme name value r : validate_url_scheme name value = Ok tt -> url_scheme value = Some r -> one_of ALLOWED_SCHEMES r = true.
Proof.
  unfold validate_url_scheme. intros Hv Hr%explicit_scheme. rewrite Hr in Hv. destruct (one_of ALLOWED_SCHEMES (take 32 r)) eqn:Ho; [|done].
  pose proof (one_of_length _ _ 6 Ho eq_refl) as Hlen. rewrite length_take in Hlen. by rewrite take_ge in Ho by lia.
Qed.

(** ** Inert markup *)

(** Elements that run or load code, change how the rest of the page is read, or
    rewrite attributes of others. *)
Definition ACTIVE_ELEMENTS : list string :=
  ["script"; "style"; "link"; "meta"; "base"; "iframe"; "frame"; "frameset"; "object"; "embed"; "applet"; "portal";
   "template"; "noscript"; "noembed"; "noframes"; "plaintext"; "xmp"; "listing"; "math"; "set"; "animate"; "animateMotion";
   "animateTransform"; "animateColor"].

(** Attributes a browser may navigate to. *)
Definition NAVIGABLE_ATTRIBUTES : list string :=
  ["href"; "xlink:href"; "src"; "action"; "formaction"; "poster"; "background"; "cite"].

Definition inert_attribute (a : chars * chars) : bool :=
  negb (match a.1 with x :: y :: _ => (x =? 111) && (y =? 110) | _ => false end) && negb (bool_decide (a.1 = str "srcdoc"))
  && (negb (one_of NAVIGABLE_ATTRIBUTES a.1)
      || match url_scheme a.2 with Some r => one_of ["http"; "https"; "mailto"; "tel"] r | None => true end).

Definition inert (t : Token) : bool :=
  match t with
  | StartTag name attributes => negb (one_of ACTIVE_ELEMENTS name) && forallb inert_attribute attributes
  | _ => true
  end.

Lemma lower_lower c : lower (lower c) = lower c.
Proof. unfold lower, ascii_upper, between. destruct (N.leb_spec 65 c), (N.leb_spec c 90); cbn; try done.
  - destruct (N.leb_spec 65 (c + 32)), (N.leb_spec (c + 32) 90); cbn; [lia|done..].
  - by rewrite (proj2 (N.leb_le 65 c)), (proj2 (N.leb_gt c 90)).
  - by rewrite (proj2 (N.leb_gt 65 c)).
  - by rewrite (proj2 (N.leb_gt 65 c)).
Qed.

Lemma lowercase_lowercase s : lowercase (lowercase s) = lowercase s.
Proof. unfold lowercase. rewrite map_map. apply map_ext, lower_lower. Qed.

Lemma one_of_lowercase names t : one_of names (lowercase t) = one_of names t.
Proof. unfold one_of, eq_ignore_ascii_case. by rewrite lowercase_lowercase. Qed.

Lemma one_of_incl l1 l2 t : forallb (fun m => one_of l2 (str m)) l1 = true -> one_of l1 t = true -> one_of l2 t = true.
Proof.
  unfold one_of. intros Hall (m & Hm & Heq)%existsb_exists. rewrite forallb_forall in Hall. apply Hall in Hm.
  apply existsb_exists in Hm as (m2 & Hm2 & Heq2). apply existsb_exists. exists m2. split; [done|].
  apply eq_ignore_true in Heq, Heq2. apply eq_ignore_true. congruence.
Qed.

Lemma one_of_disjoint l1 l2 t : forallb (fun m => one_of l2 (str m)) l1 = true -> one_of l2 t = false -> one_of l1 t = false.
Proof. intros Hall Hf. destruct (one_of l1 t) eqn:Ht; [|done]. by rewrite (one_of_incl _ _ _ Hall Ht) in Hf. Qed.

Section inert.
Context `{UnicodeTables}.

Lemma url_value_inert n v r : validate_attribute_value n v = Ok tt -> one_of NAVIGABLE_ATTRIBUTES n = true ->
  url_scheme v = Some r -> one_of ["http"; "https"; "mailto"; "tel"] r = true.
Proof.
  unfold validate_attribute_value. intros Hv Hn Hr. destruct (find_normalized 0 v) as [[]|]; [done|].
  destruct (eq_ignore_ascii_case n (str "srcset")) eqn:Hs.
  { exfalso. apply eq_ignore_true in Hs. unfold one_of, eq_ignore_ascii_case in Hn. rewrite Hs in Hn. by vm_compute in Hn. }
  assert (is_url_attribute n = true) as Hu by (by apply (one_of_incl NAVIGABLE_ATTRIBUTES)).
  rewrite Hu in Hv. by apply (allowed_scheme n v).
Qed.

Lemma attribute_is_inert a : attribute_ok a -> inert_attribute (read_attribute a) = true.
Proof.
  destruct a as [n v]. intros [_ [Hon Hsrc] Hval]. cbn [fst snd] in *. unfold inert_attribute, read_attribute. cbn [fst snd].
  rewrite one_of_lowercase. apply andb_true_iff; split; [apply andb_true_iff; split|].
  - destruct n as [|x [|y n]]; try done. cbn in *. unfold eq_ignore_ascii_case in Hon. apply bool_decide_eq_false in Hon.
    apply negb_true_iff, not_true_iff_false. intros [Hx Hy]%andb_true_iff. apply Hon.
    apply N.eqb_eq in Hx, Hy. cbn. by rewrite Hx, Hy.
  - apply negb_true_iff, bool_decide_eq_false. intros Hl. unfold eq_ignore_ascii_case in Hsrc.
    apply bool_decide_eq_false in Hsrc. by apply Hsrc.
  - destruct (one_of NAVIGABLE_ATTRIBUTES n) eqn:Hn; [|done]. cbn [negb orb]. destruct (url_scheme (value_of v)) as [r|] eqn:Hr; [|done].
    destruct v as [w|[w|e]]; cbn in Hr; [| |done]; by apply (url_value_inert n w).
Qed.

Definition all_inert (ts : list Token) : Prop := Forall (fun t => inert t = true) ts.

Lemma inert_concat {A} (f : A -> list Token) l : (forall a, a ∈ l -> all_inert (f a)) -> all_inert (concat (map f l)).
Proof.
  intros Hf. induction l as [|a l IH]; [constructor|]. cbn. apply Forall_app. split; [apply Hf; by left|].
  apply IH. intros b Hb. apply Hf. by right.
Qed.

Lemma marker_inert mode s : all_inert (marker mode s).
Proof. unfold marker. destruct (bool_decide _); repeat constructor. Qed.

Lemma characters_inert s : all_inert (map Character s).
Proof. induction s; by constructor. Qed.

Lemma tokens_inert mode v : view_ok v -> forall ns marked, all_inert (tokens mode v ns marked).
Proof.
  assert (Happ : forall a b, all_inert a -> all_inert b -> all_inert (a ++ b)%list) by (intros; by apply Forall_app).
  pose proof (marker_inert mode) as Hm. pose proof characters_inert as Hc.
  induction 1 as [s|s|e [E1 E2 E3 E4 E5] _ IH|cs _ IH|v _ IH|rows _ IH|e]; intros ns marked; cbn [tokens].
  - destruct marked; auto. rewrite app_nil_l, app_nil_r. auto.
  - auto.
  - destruct e as [t a l cs]. cbn in E1, E2, E3, IH. apply Forall_cons. split.
    + cbn [inert]. rewrite one_of_lowercase. rewrite (one_of_disjoint ACTIVE_ELEMENTS FORBIDDEN_ELEMENTS t eq_refl E2).
      cbn. rewrite forallb_forall. intros x (y & <- & Hy)%in_map_iff. apply attribute_is_inert.
      rewrite Forall_forall in E3. apply E3. by apply list_elem_of_In.
    + destruct (is_void_in _ _); [constructor|]. apply Happ; [|by repeat constructor]. apply inert_concat. auto.
  - apply inert_concat. auto.
  - auto 6.
  - apply Happ; [done|]. apply Happ; [|done]. apply inert_concat. intros [k [w|e]] Hw; [|constructor]. cbn. eauto 6.
  - constructor.
Qed.

End inert.

(** ** Resources *)

(** The walks [write_html] makes, and the deepest. *)
Fixpoint view_count (v : View) : N :=
  let sum := foldr (fun n total => n + total) 0 in
  match v with
  | Text _ | DynText _ | Keyed (Err _) => 1
  | Element (mkElement _ _ _ cs) | Fragment cs => 1 + sum (map view_count cs)
  | DynView v => 1 + view_count v
  | Keyed (Ok rows) => 1 + sum (map (fun row => match row.2 with Ok v => view_count v | Err _ => 0 end) rows)
  end.

Fixpoint view_height (v : View) : N :=
  let highest := foldr N.max 0 in
  match v with
  | Text _ | DynText _ | Keyed (Err _) => 1
  | Element (mkElement _ _ _ cs) | Fragment cs => 1 + highest (map view_height cs)
  | DynView v => 1 + view_height v
  | Keyed (Ok rows) => 1 + highest (map (fun row => match row.2 with Ok v => view_height v | Err _ => 0 end) rows)
  end.

Section bounds.
Context (limits : RenderLimits) (mode : RenderMode).

(** [st'] comes after [n] more visits, within the limits if [st] was. *)
Record grew (n : N) (st st' : St) : Prop := {
  grew_nodes : nodes st' = nodes st + n;
  grew_count : nodes st <= max_nodes limits -> nodes st' <= max_nodes limits;
  grew_output : clen (html st) <= max_output_bytes limits -> clen (html st') <= max_output_bytes limits }.

Lemma grew_same st st' : nodes st' = nodes st -> html st' = html st -> grew 0 st st'.
Proof. intros Hn Hh. split; rewrite ?Hn, ?Hh; lia. Qed.

Lemma grew_app n m st st1 st2 : grew n st st1 -> grew m st1 st2 -> grew (n + m) st st2.
Proof. intros [A1 A2 A3] [B1 B2 B3]. split; [lia|auto|auto]. Qed.

Lemma grew_0_app n st st1 st2 : grew 0 st st1 -> grew n st1 st2 -> grew n st st2.
Proof. apply grew_app. Qed.

Lemma grew_app_0 n st st1 st2 : grew n st st1 -> grew 0 st1 st2 -> grew n st st2.
Proof. intros H1 H2. rewrite <- (N.add_0_r n). by apply grew_app with st1. Qed.

Lemma clen_app s1 s2 : clen (s1 ++ s2) = clen s1 + clen s2.
Proof. induction s1 as [|c s1 IH]; [done|]. cbn [app]. change (clen (c :: ?s)) with (len_utf8 c + clen s). lia. Qed.

Lemma push_grew v st st' : push_str limits v st = Ok st' -> grew 0 st st'.
Proof.
  unfold push_str, ensure_minimum_input_fits. intros Hp. split_ok. subst st'. reflect_guards.
  split; cbn; rewrite ?clen_app; lia.
Qed.

Lemma when_adoptable_grew s st st' : when_adoptable limits mode s st = Ok st' -> grew 0 st st'.
Proof. unfold when_adoptable. destruct (bool_decide _); [apply push_grew|]. intros [= <-]. by apply grew_same. Qed.

Lemma push_escaped_grew a value st st' : push_escaped limits a value st = Ok st' -> grew 0 st st'.
Proof.
  revert st. induction value as [|c value IH]; cbn; intros st Hp; split_ok; [subst; by apply grew_same|].
  eapply grew_0_app; [by eapply push_grew|]. by apply IH.
Qed.

Lemma write_text_grew value parent st st' : write_text limits value parent st = Ok st' -> grew 0 st st'.
Proof.
  unfold write_text. intros Hw. split_ok. destruct (find_normalized 0 value) as [[]|]; [done|]. split_ok. subst st'.
  eapply grew_0_app; [by eapply push_escaped_grew|]. destruct (bool_decide (value = [])); by apply grew_same.
Qed.

Lemma each_grew {A} (f : A -> St -> result RenderError St) (g : A -> N) l st st' :
  (forall a st st', a ∈ l -> f a st = Ok st' -> grew (g a) st st') ->
  each f l st = Ok st' -> grew (foldr (fun n total => n + total) 0 (map g l)) st st'.
Proof.
  revert st. induction l as [|a l IH]; intros st Hf; cbn; [intros [= ->]; by apply grew_same|]. intros He. split_ok.
  eapply grew_app; [apply (Hf a); [by left|done]|]. apply IH; [|done]. intros b s1 s2 Hb. apply Hf. by right.
Qed.

Lemma write_attr_grew t ns a st st' : write_attr limits t ns a st = Ok st' -> grew 0 st st'.
Proof.
  destruct a as [n v]. unfold write_attr. intros Hw. split_ok.
  repeat (eapply grew_0_app; [first [by eapply push_grew|by eapply push_escaped_grew]|]). by apply grew_same.
Qed.

Lemma write_attrs_grew t ns l st st' : each (write_attr limits t ns) l st = Ok st' -> grew 0 st st'.
Proof.
  intros He. apply (each_grew _ (fun _ => 0)) in He; [|intros; by eapply write_attr_grew].
  enough (foldr (fun n total => n + total) 0 (map (fun _ => 0) l) = 0) as Hz by (by rewrite Hz in He).
  clear. by induction l.
Qed.

Lemma open_grew parent t ns l st st' : open_element limits parent t ns l st = Ok st' -> grew 0 st st'.
Proof.
  unfold open_element. destruct (is_forbidden_element t); [done|]. intros Ho. split_ok.
  apply grew_0_app with (mark_content st); [by apply grew_same|].
  repeat (eapply grew_0_app; [first [by eapply push_grew|by eapply write_attrs_grew]|]). by apply grew_same.
Qed.

Lemma close_grew t st st' : close_element limits t st = Ok st' -> grew 0 st st'.
Proof.
  unfold close_element. intros Hc. split_ok. repeat (eapply grew_0_app; [by eapply push_grew|]). by apply grew_same.
Qed.

Lemma visit_grew depth st st' : visit limits depth st = Ok st' -> depth <= max_depth limits /\ grew 1 st st'.
Proof. unfold visit. intros Hv. split_ok. subst st'. reflect_guards. split; [done|]. by split. Qed.

Lemma each_all {A} (f : A -> St -> result RenderError St) (P : A -> Prop) l st st' :
  (forall a st st', a ∈ l -> f a st = Ok st' -> P a) -> each f l st = Ok st' -> forall a, a ∈ l -> P a.
Proof.
  revert st. induction l as [|a l IH]; intros st Hf; cbn; [by intros _ b ?%elem_of_nil|]. intros He. split_ok.
  intros b [->|Hb]%elem_of_cons; [apply (Hf a st value); [by left|done]|].
  apply (IH value); [|done|done]. intros c s1 s2 Hc. apply Hf. by right.
Qed.

Lemma highest_le {A} (g : A -> N) l n : (forall a, a ∈ l -> g a <= n) -> foldr N.max 0 (map g l) <= n.
Proof.
  intros Hg. induction l as [|a l IH]; cbn; [lia|]. apply N.max_lub; [apply Hg; by left|]. apply IH.
  intros b Hb. apply Hg. by right.
Qed.

Definition view_fits (v : View) : Prop :=
  forall ns depth parent st st', write_html limits mode v ns depth parent st = Ok st' ->
  grew (view_count v) st st' /\ depth + view_height v <= max_depth limits + 1.

Ltac start_fits :=
  intros ns depth parent st st' Hw; cbn [write_html] in Hw;
  destruct (visit limits depth st) as [st0|] eqn:Hvisit; cbn [mbind result_bind] in Hw; [|discriminate];
  apply visit_grew in Hvisit as [Hdepth Hvisit]; cbn [view_count view_height].

Ltac small_steps := repeat (eapply grew_0_app; [first [by eapply when_adoptable_grew|by eapply write_text_grew]|]); by apply grew_same.

Lemma text_fits s : view_fits (Text s).
Proof.
  start_fits. split; [|lia]. apply grew_app_0 with st0; [done|].
  destruct (is_html_rcdata_parent parent); cbn [negb] in *; split_ok; simplify_eq; small_steps.
Qed.

Lemma dyn_text_fits s : view_fits (DynText s).
Proof. start_fits. split; [|lia]. apply grew_app_0 with st0; [done|]. split_ok. small_steps. Qed.

Lemma children_fit cs child st st' depth : Forall view_fits cs ->
  (forall c s1 s2, c ∈ cs -> child c s1 = Ok s2 -> exists ns parent, write_html limits mode c ns (depth + 1) parent s1 = Ok s2) ->
  depth <= max_depth limits -> each child cs st = Ok st' ->
  grew (foldr (fun n total => n + total) 0 (map view_count cs)) st st' /\
  depth + (1 + foldr N.max 0 (map view_height cs)) <= max_depth limits + 1.
Proof.
  rewrite Forall_forall. intros Hcs Hchild Hdepth He. split.
  - eapply each_grew; [|exact He]. intros c s1 s2 Hc (ns & parent & Hw)%Hchild; [|done]. by apply (Hcs c Hc) in Hw as [? _].
  - enough (foldr N.max 0 (map view_height cs) <= max_depth limits - depth) by lia. apply highest_le.
    eapply each_all; [|exact He]. intros c s1 s2 Hc (ns & parent & Hw)%Hchild; [|done]. apply (Hcs c Hc) in Hw as [_ ?]. lia.
Qed.

Lemma fragment_fits cs : Forall view_fits cs -> view_fits (Fragment cs).
Proof.
  intros Hcs. start_fits. eapply (children_fit cs _ _ _ depth) in Hw as [Hg Hh]; [|done| |done].
  - split; [|exact Hh]. by eapply grew_app.
  - intros c s1 s2 _ Hc. by exists ns, parent.
Qed.

Lemma dyn_view_fits v : view_fits v -> view_fits (DynView v).
Proof.
  intros Hv. start_fits. split_ok. apply Hv in Hr1 as [Hg Hh]. split; [|lia].
  eapply grew_app; [done|]. eapply grew_0_app; [by eapply when_adoptable_grew|]. eapply grew_app_0; [done|small_steps].
Qed.

Lemma keyed_fits rows : Forall (fun row => match row.2 with Ok v => view_fits v | Err _ => True end) rows ->
  view_fits (Keyed (Ok rows)).
Proof.
  rewrite Forall_forall. intros Hrows. start_fits. split_ok. split.
  - eapply grew_app; [done|]. eapply grew_0_app; [by eapply when_adoptable_grew|]. eapply grew_app_0; [|small_steps].
    eapply each_grew; [|done]. intros [k [v|e]] s1 s2 Hin Hrow; cbn [snd] in *; [|done]. split_ok.
    apply (Hrows _ Hin) in Hr2 as [Hrow' _]. eapply grew_0_app; [by eapply when_adoptable_grew|]. eapply grew_app_0; [done|small_steps].
  - enough (foldr N.max 0 (map (fun row : KeyedKey * result KeyedError View => match row.2 with Ok v => view_height v | Err _ => 0 end) rows)
      <= max_depth limits - depth) by lia.
    apply highest_le. eapply each_all; [|exact Hr0]. intros [k [v|e]] s1 s2 Hin Hrow; cbn [snd] in *; [|done]. split_ok.
    apply (Hrows _ Hin) in Hr2 as [_ Hh]. lia.
Qed.

Lemma element_fits t a l cs : Forall view_fits cs -> view_fits (Element (mkElement t a l cs)).
Proof.
  intros Hcs. start_fits. destruct (open_element _ _ _ _ _ _) as [s1|] eqn:Hopen; cbn [mbind result_bind] in Hw; [|discriminate].
  apply open_grew in Hopen. destruct (is_void_in t (for_element ns t)).
  { destruct cs; [|done]. injection Hw as <-. cbn. split; [|lia]. by eapply grew_app_0. }
  split_ok. apply (children_fit cs _ _ _ depth) in Hr as [Hg Hh]; [|done| |done].
  - split; [|exact Hh]. eapply grew_app; [done|]. eapply grew_0_app; [done|]. eapply grew_0_app; [by apply (grew_same _ (mkSt false (nodes s1) (html s1)))|].
    eapply grew_app_0; [done|]. eapply grew_0_app; [|by eapply close_grew]. by apply grew_same.
  - intros c s2 s3 _ Hc. by do 2 eexists.
Qed.

Lemma every_view_fits v : view_fits v.
Proof.
  induction v using view_rect'.
  - apply text_fits.
  - apply dyn_text_fits.
  - by apply element_fits.
  - by apply fragment_fits.
  - by apply dyn_view_fits.
  - intros ns depth parent st st' Hw. cbn [write_html] in Hw. by split_ok.
  - by apply keyed_fits.
Qed.

End bounds.

(** ** What rendering promises *)

Section promises.
Context `{UnicodeTables}.

(** C24. Whatever the public builders make is well formed: every element has a valid
    tag that is not forbidden, attributes whose names are valid, inert and distinct up
    to case and whose values were validated (those computed later included), valid
    event names, and only well-formed children, in keyed rows too. *)
Theorem builders_make_ok_views v : built v -> view_ok v.
Proof. apply built_both_ok. Qed.

(** C7. Reading rendered HTML back: for every view the builders make whose tags all start
    with an ASCII letter ([lettered]; of others, such as [_x], which the builders accept
    too, it is false), in both modes and under any limits, the output of the walker
    tokenizes to exactly the tags, attributes with their unescaped values, text and
    markers of the view, and ends outside any markup. *)
Theorem render_tokenizes limits mode v h : built v -> lettered v = true -> try_render_html_mode limits mode v = Ok h ->
  tokenize h = Some (document mode v).
Proof.
  intros Hv Hl Hr. unfold tokenize. by rewrite (document_reads limits mode v h (proj1 built_both_ok v Hv) Hl Hr).
Qed.

(** C6. Rendered HTML is inert: for every view the builders make whose tags all start with
    an ASCII letter, as those of HTML and of custom elements do ([lettered]; the builders
    also accept others, such as [_x], which browsers do not read as tags), whatever the
    text, the attribute values and the other characters of the names: no tag a browser
    reads in the output is an element that runs or loads code, no attribute is an event
    handler or [srcdoc], and a navigable attribute has, as the browser parses it, no scheme
    or one of http, https, mailto and tel. *)
Theorem rendered_is_inert limits mode v h : built v -> lettered v = true -> try_render_html_mode limits mode v = Ok h ->
  exists ts, tokenize h = Some ts /\ forallb inert ts = true.
Proof.
  intros Hv Hl Hr. pose proof (proj1 built_both_ok v Hv) as Hok. exists (document mode v). split.
  - unfold tokenize. by rewrite (document_reads limits mode v h Hok Hl Hr).
  - apply forallb_forall. intros t Ht%list_elem_of_In. revert t Ht. apply Forall_forall. unfold document.
    apply Forall_app; split; [apply marker_inert|]. apply Forall_app; split; [by apply tokens_inert|apply marker_inert].
Qed.

End promises.

(** A successful rendering stays within its limits: the bytes of the output, the
    number of views walked and their nesting depth. *)
Theorem render_within_limits limits mode v h : try_render_html_mode limits mode v = Ok h ->
  clen h <= max_output_bytes limits /\ view_count v <= max_nodes limits /\ view_height v <= max_depth limits.
Proof.
  unfold try_render_html_mode. intros Hr. split_ok. subst h.
  apply when_adoptable_grew in Hr0 as [A1 A2 A3]. apply every_view_fits in Hr1 as [[B1 B2 B3] B4].
  apply when_adoptable_grew in Hr2 as [C1 C2 C3]. cbn in A1, A2, A3. split_and!; [apply C3, B3, A3|rewrite A1 in B1|]; lia.
Qed.

(** ** A sample *)

Module RenderSample.

#[export] Instance ascii_only : UnicodeTables := {| unicode_alphabetic := fun _ => false; unicode_numeric := fun _ => false |}.

Definition force (r : result DomError ElementData) : ElementData :=
  match r with Ok e => e | Err _ => mkElement [] [] [] [] end.

Definition anchor : ElementData := force (try_el (str "A")).
Definition linked : ElementData := force (try_attr anchor (str "HREF") (str " htTps://example.org/?a=1&b=2")).
Definition titled : ElementData := force (try_attr_dyn linked (str "title") (34 :: str "<&>")).
Definition worded : ElementData := force (try_child titled (Text (str "5 < 6 & </a>"))).
Definition listening : ElementData := force (try_on worded (str "click")).

Definition row (n : N) : result KeyedError View :=
  Ok (Element (mkElement (str "li") [] [] [DynText [48 + n]])).
Definition rows : View := Keyed (collect (Ok [1; 2]) (fun n => Ok (Unsigned n)) row).

Definition list_element : ElementData := force (try_child (force (try_el (str "ul"))) rows).
Definition page : View := Fragment [Element listening; DynView (Element list_element)].

Lemma page_built : built page.
Proof.
  assert (Hli : forall n, built (Element (mkElement (str "li") [] [] [DynText [48 + n]]))).
  { intros n. constructor. eapply (built_child (mkElement (str "li") [] [] [])); [|constructor|reflexivity].
    by apply (built_el (str "li")). }
  constructor. intros c [->|[->|[]%elem_of_nil]%elem_of_cons]%elem_of_cons.
  - constructor. eapply (built_on worded (str "click")); [|reflexivity].
    eapply (built_child titled (Text (str "5 < 6 & </a>"))); [|constructor|reflexivity].
    eapply (built_attr_dyn linked (str "title") (34 :: str "<&>")); [|reflexivity].
    eapply (built_attr anchor (str "HREF") (str " htTps://example.org/?a=1&b=2")); [|reflexivity]. by eapply (built_el (str "A")).
  - constructor. constructor. eapply (built_child (mkElement (str "ul") [] [] []) rows); [by eapply (built_el (str "ul"))| |reflexivity].
    apply (built_keyed (Ok [1; 2]) (fun n => Ok (Unsigned n)) row). intros n v [= <-]. apply Hli.
Qed.

(** A tag of the builders may start with an underscore, which a browser reads as text. *)
Example underscore_is_text :
  try_render_html_mode default_limits Plain (Element (force (try_el (str "_x")))) = Ok (str "<_x></_x>") /\
  run Data (str "<_x>") = Some (Data, map Character (str "<_x>")).
Proof. by vm_compute. Qed.

End RenderSample.

Import RenderSample.

Definition page_html : chars := match try_render_html_mode default_limits Adoptable page with Ok h => h | Err _ => [] end.

Lemma builders_make_ok_views_witness : view_ok page.
Proof. exact (builders_make_ok_views page page_built). Defined.

Lemma render_tokenizes_witness : tokenize page_html = Some (document Adoptable page).
Proof.
  apply (render_tokenizes default_limits Adoptable page page_html page_built); by vm_compute.
Defined.

Lemma rendered_is_inert_witness : exists ts, tokenize page_html = Some ts /\ forallb inert ts = true.
Proof.
  apply (rendered_is_inert default_limits Adoptable page page_html page_built); by vm_compute.
Defined.

Lemma render_within_limits_witness : view_count page <= 10 /\ view_height page <= 6.
Proof.
  destruct (render_within_limits (mkLimits 6 10 1000) Adoptable page page_html) as (_ & Hn & Hd); [by vm_compute|].
  exact (conj Hn Hd).
Defined.
