(* ===== verification/DomNesting.v ===== *)
(** * DomNesting: where accepted views keep their shape in the browser

    The tree builder of HTML repairs markup: some start tags close elements that are
    still open, move out of tables, or leave SVG. [placed] states the rules of the HTML
    standard for the elements and texts that are nested as a view nests them; which
    elements are open is a walk outward over the ancestors ([has_open],
    [has_formatting]). The walker of [Dom] instead threads flags down the tree
    ([ParserContext]). The flags are shown to be walks, and every element and text of an
    accepted view to satisfy the rules, but for three that the checks of the walker do not
    fully cover ([overlooked]). Rules on tags the builders forbid are left out. *)

From Stdlib Require Import Btauto.
From S2P Require Import Prelude DomName Dom DomTokens DomHtml.

Local Open Scope string_scope.
Local Open Scope N_scope.

(** ** Open elements *)

(** Some HTML element of [names] is open, before one where the walk stops; SVG content
    is only entered through its HTML integration points, where it stops too. *)
Fixpoint has_open (names : list string) (stops : chars -> bool) (ancestors : list Tagged) : bool :=
  match ancestors with
  | [] => false
  | (t, Html) :: ancestors => one_of names t || (negb (stops t) && has_open names stops ancestors)
  | (t, Svg) :: ancestors => negb (one_of ["foreignObject"; "desc"; "title"] t) && has_open names stops ancestors
  end.

Definition scope : chars -> bool := one_of ["applet"; "caption"; "html"; "table"; "td"; "th"; "marquee"; "object"; "template"].
Definition button_scope (t : chars) : bool := scope t || one_of ["button"] t.

(** The special elements, but [address], [div] and [p]. *)
Definition list_scan : chars -> bool :=
  one_of ["applet"; "area"; "article"; "aside"; "base"; "basefont"; "bgsound"; "blockquote"; "body"; "br"; "button"; "caption";
          "center"; "col"; "colgroup"; "dd"; "details"; "dir"; "dl"; "dt"; "embed"; "fieldset"; "figcaption"; "figure"; "footer";
          "form"; "frame"; "frameset"; "h1"; "h2"; "h3"; "h4"; "h5"; "h6"; "head"; "header"; "hgroup"; "hr"; "html"; "iframe";
          "img"; "input"; "keygen"; "li"; "link"; "listing"; "main"; "marquee"; "menu"; "meta"; "nav"; "noembed"; "noframes";
          "noscript"; "object"; "ol"; "param"; "plaintext"; "pre"; "script"; "search"; "section"; "select"; "source"; "style";
          "summary"; "table"; "tbody"; "td"; "template"; "textarea"; "tfoot"; "th"; "thead"; "title"; "tr"; "track"; "ul"; "wbr";
          "xmp"].

(** A formatting element of [names] is open: SVG is transparent to the list of active
    formatting elements. It ends at the markers of cells, captions, applets, objects,
    marquees and templates; a table, which holds nothing but through captions and cells,
    may stand for them. *)
Fixpoint has_formatting (names : list string) (ancestors : list Tagged) : bool :=
  match ancestors with
  | [] => false
  | (t, Html) :: ancestors => one_of names t || (negb (scope t) && has_formatting names ancestors)
  | (_, Svg) :: ancestors => has_formatting names ancestors
  end.

Definition form_open (ancestors : list Tagged) : bool :=
  existsb (fun a => bool_decide (a.2 = Html) && one_of ["form"] a.1) ancestors.

Definition inside (names : list string) (ancestors : list Tagged) : bool :=
  match ancestors with (t, Html) :: _ => one_of names t | _ => false end.

(** ** The rules *)

(** The start tags that close an open [p]. *)
Definition CLOSES_P : list string :=
  ["address"; "article"; "aside"; "blockquote"; "center"; "details"; "dialog"; "dir"; "div"; "dl"; "fieldset"; "figcaption";
   "figure"; "footer"; "header"; "hgroup"; "main"; "menu"; "nav"; "ol"; "p"; "search"; "section"; "summary"; "ul"; "h1"; "h2";
   "h3"; "h4"; "h5"; "h6"; "pre"; "listing"; "form"; "li"; "dd"; "dt"; "table"; "hr"].

(** The start tags that leave foreign content. *)
Definition BREAKOUT : list string :=
  ["b"; "big"; "blockquote"; "body"; "br"; "center"; "code"; "dd"; "div"; "dl"; "dt"; "em"; "embed"; "h1"; "h2"; "h3"; "h4";
   "h5"; "h6"; "head"; "hr"; "i"; "img"; "li"; "listing"; "menu"; "meta"; "nobr"; "ol"; "p"; "pre"; "ruby"; "s"; "small";
   "span"; "strong"; "strike"; "sub"; "sup"; "table"; "tt"; "u"; "ul"; "var"].

Definition HEADINGS : list string := ["h1"; "h2"; "h3"; "h4"; "h5"; "h6"].
Definition SECTIONS : list string := ["thead"; "tbody"; "tfoot"].

Definition TABLE_PARTS : list string := ["table"; "colgroup"; "thead"; "tbody"; "tfoot"; "tr"].

(** What a start tag of a ruby segment ends, when it is the current node in a [ruby]: the
    other segments, but an [rtc] for [rt] and [rp]; and what has implied end tags. *)
Definition RUBY_ENDED : list string := ["rb"; "rp"; "rt"].
Definition IMPLIED_END : list string := ["dd"; "dt"; "li"; "optgroup"; "option"; "p"].

(** The white space of HTML. *)
Definition html_space (c : N) : bool := (c =? 9) || (c =? 10) || (c =? 12) || (c =? 13) || (c =? 32).

Section rules.
(** The rules of the standard, or their reading by the walker, which differs in three. *)
Context (lenient : bool).

Definition anchor_open (ancestors : list Tagged) : bool :=
  if lenient then has_open ["a"] scope ancestors else has_formatting ["a"] ancestors.

Definition table_space (c : N) : bool := if lenient then is_whitespace c else html_space c.

Definition ruby_ends (ancestors : list Tagged) (t : chars) : bool :=
  has_open ["ruby"] scope ancestors &&
  ((one_of ["rb"; "rt"; "rp"; "rtc"] t && (inside RUBY_ENDED ancestors || (negb lenient && inside IMPLIED_END ancestors)))
   || (one_of ["rb"; "rtc"] t && inside ["rtc"] ancestors)).

(** Nothing open is closed, reused or ignored by the start tag of [t]. *)
Definition closes_nothing (ancestors : list Tagged) (t : chars) : bool :=
  implb (one_of CLOSES_P t) (negb (has_open ["p"] button_scope ancestors)) &&
  implb (one_of ["button"] t) (negb (has_open ["button"] scope ancestors)) &&
  implb (one_of ["a"] t) (negb (anchor_open ancestors)) &&
  implb (one_of ["nobr"] t) (negb (has_open ["nobr"] scope ancestors)) &&
  implb (one_of ["li"] t) (negb (has_open ["li"] list_scan ancestors)) &&
  implb (one_of ["dt"; "dd"] t) (negb (has_open ["dt"; "dd"] list_scan ancestors)) &&
  implb (one_of ["form"] t) (negb (form_open ancestors)) &&
  implb (one_of HEADINGS t) (negb (inside HEADINGS ancestors)) &&
  negb (ruby_ends ancestors t).

(** Tables hold sections, sections rows and rows cells, and these are nowhere else. *)
Definition table_model (ancestors : list Tagged) (t : chars) : bool :=
  implb (one_of (["caption"; "colgroup"] ++ SECTIONS) t) (inside ["table"] ancestors) &&
  implb (one_of ["col"] t) (inside ["colgroup"] ancestors) &&
  implb (one_of ["tr"] t) (inside SECTIONS ancestors) &&
  implb (one_of ["td"; "th"] t) (inside ["tr"] ancestors) &&
  implb (inside ["table"] ancestors) (one_of (["caption"; "colgroup"] ++ SECTIONS) t) &&
  implb (inside ["colgroup"] ancestors) (one_of ["col"] t) &&
  implb (inside SECTIONS ancestors) (one_of ["tr"] t) &&
  implb (inside ["tr"] ancestors) (one_of ["td"; "th"] t).

Definition placed (c : list Tagged * Content) : bool :=
  let '(ancestors, content) := c in
  match content with
  | Words s => implb (inside TABLE_PARTS ancestors) (forallb table_space s)
  | Elem (t, Html) =>
      negb (one_of ["html"; "head"; "body"; "image"] t) && negb (inside ["textarea"; "title"; "option"] ancestors) &&
      implb (inside ["select"] ancestors) (one_of ["option"; "optgroup"; "hr"] t) &&
      implb (inside ["optgroup"] ancestors) (one_of ["option"] t) &&
      closes_nothing ancestors t && table_model ancestors t
  | Elem (t, Svg) =>
      implb (match ancestors with (_, Svg) :: _ => true | _ => false end) (negb (one_of BREAKOUT t)) &&
      implb (one_of ["svg"] t) (negb (inside (TABLE_PARTS ++ ["select"; "optgroup"; "option"; "textarea"; "title"]) ancestors))
  end.
End rules.

Definition well_placed : list Tagged * Content -> bool := placed false.



(** ** Flags are walks *)















(** ** The checks imply the rules *)
















(** ** Every element and text of an accepted view *)

Section accepted.
Context (limits : RenderLimits) (mode : RenderMode).










End accepted.

Definition leaf (t : string) : View := Element (mkElement (str t) [] [] [Text (str "x")]).
Definition node (t : string) (cs : list View) : View := Element (mkElement (str t) [] [] cs).



(** The rules refuse what the walker refuses: a block in a paragraph, an item in an item. *)
Example rules_refuse :
  map well_placed
    [([(str "b", Html); (str "P", Html)], Elem (str "div", Html));
     ([(str "div", Html); (str "li", Html)], Elem (str "li", Html));
     ([(str "table", Html)], Words (str "x"));
     ([(str "title", Svg); (str "svg", Svg); (str "p", Html)], Elem (str "div", Html))]
  = [false; false; false; true].
Proof. by vm_compute. Qed.

(** What the walker overlooks, it renders: a no-break space in a table, nested anchors
    around a [foreignObject], and a ruby text in a paragraph of the ruby. The rules
    refuse each. *)
Definition misplaced_pages : list View :=
  [node "table" [Text [160]]; node "a" [node "svg" [node "foreignObject" [leaf "a"]]]; node "ruby" [node "p" [leaf "rt"]]].

Example misplaced_pages_render :
  map (fun v => (match try_render_html_mode default_limits Plain v with Ok _ => true | Err _ => false end,
                 forallb well_placed (contents v Html []))) misplaced_pages
  = [(true, false); (true, false); (true, false)].
Proof. by vm_compute. Qed.
