(* ===== verification/KeyedLis.v ===== *)
(** * KeyedLis: which rows a keyed update leaves in place ([pliego-dom])

    Models [keyed_lis] of [crates/pliego-dom/src/mount.rs]: patience sorting over the
    old indexes of the retained rows, with the predecessor links that recover one
    longest increasing subsequence. The rows it marks keep their place in the
    document; every other retained row is moved. *)

From S2P Require Import Prelude.

#[local] Open Scope nat_scope.

(** ** The computation *)

(** [tails], [tail_positions] and [predecessor] of the loop. *)
Record LisState : Type := mkLis {
  tails : list nat;
  tail_positions : list nat;
  predecessor : list (option nat);
}.

(** [slice::partition_point]: how many elements come before the first that fails
    the test, on a slice where those that pass come first. *)
Fixpoint partition_point (p : nat -> bool) (xs : list nat) : nat :=
  match xs with
  | x :: rest => if p x then S (partition_point p rest) else 0
  | [] => 0
  end.

(** One retained row: [tail_positions !! (slot - 1)] is [Some], by [lis_invariant]. *)
Definition lis_step (position old_index : nat) (s : LisState) : LisState :=
  let slot := partition_point (fun tail => tail <? old_index) (tails s) in
  let links :=
    if 0 <? slot then <[position := tail_positions s !! (slot - 1)]> (predecessor s) else predecessor s in
  if slot =? length (tails s) then
    mkLis (tails s ++ [old_index]) (tail_positions s ++ [position]) links
  else mkLis (<[slot := old_index]> (tails s)) (<[slot := position]> (tail_positions s)) links.

(** The [for] loop over the rows; a fresh row has no old index. *)
Fixpoint lis_loop (position : nat) (rows : list (option nat)) (s : LisState) : LisState :=
  match rows with
  | [] => s
  | None :: rest => lis_loop (S position) rest s
  | Some old_index :: rest => lis_loop (S position) rest (lis_step position old_index s)
  end.

(** The final loop along the predecessor links, which go to smaller positions. *)
Fixpoint lis_mark (fuel : nat) (links : list (option nat)) (position : nat) (keep : list bool) : list bool :=
  match fuel with
  | O => keep
  | S fuel =>
      let keep := <[position := true]> keep in
      match links !! position with
      | Some (Some previous) => lis_mark fuel links previous keep
      | _ => keep
      end
  end.

Definition lis_keep (rows : list (option nat)) : list bool :=
  let n := length rows in
  let s := lis_loop 0 rows (mkLis [] [] (replicate n None)) in
  let keep := replicate n false in
  match last (tail_positions s) with
  | None => keep
  | Some position => lis_mark n (predecessor s) position keep
  end.

(** ** What it computes *)

(** The retained rows with their positions, and the old indexes at kept positions. *)
Fixpoint entries (position : nat) (rows : list (option nat)) : list (nat * nat) :=
  match rows with
  | [] => []
  | None :: rest => entries (S position) rest
  | Some old_index :: rest => (position, old_index) :: entries (S position) rest
  end.

Definition retained_indices (rows : list (option nat)) : list nat := omap id rows.

Definition kept_entries (rows : list (option nat)) (keep : list bool) : list (nat * nat) :=
  filter (fun e => keep !! e.1 = Some true) (entries 0 rows).

Definition kept_indices (rows : list (option nat)) (keep : list bool) : list nat := (kept_entries rows keep).*2.

Lemma entries_app position xs ys :
  entries position (xs ++ ys) = entries position xs ++ entries (position + length xs) ys.
Proof.
  revert position. induction xs as [|[i|] xs IH]; intros position; cbn.
  - by rewrite Nat.add_0_r.
  - by rewrite IH, Nat.add_succ_comm.
  - by rewrite IH, Nat.add_succ_comm.
Qed.

Lemma entries_values position rows : (entries position rows).*2 = retained_indices rows.
Proof. revert position. induction rows as [|[i|] rows IH]; intros position; cbn; by rewrite ?IH. Qed.

Lemma elem_of_entries position rows p v :
  (p, v) ∈ entries position rows <-> position <= p /\ rows !! (p - position) = Some (Some v).
Proof.
  revert position. induction rows as [|o rows IH]; intros position.
  { cbn. split; [intros H; inversion H|intros [_ H]; destruct (p - position); discriminate]. }
  transitivity ((p = position /\ o = Some v) \/ (p, v) ∈ entries (S position) rows).
  { destruct o; cbn; rewrite ?elem_of_cons; naive_solver. }
  rewrite IH. destruct (decide (p = position)) as [->|Hne].
  - rewrite Nat.sub_diag. cbn. naive_solver lia.
  - split.
    + intros [[??]|[H1 H2]]; [done|]. split; [lia|].
      replace (p - position) with (S (p - S position)) by lia. done.
    + intros [H1 H2]. right. replace (p - position) with (S (p - S position)) in H2 by lia. split; [lia|done].
Qed.

Definition entry_lt (e1 e2 : nat * nat) : Prop := e1.1 < e2.1.

Lemma entries_sorted position rows : StronglySorted entry_lt (entries position rows).
Proof.
  revert position. induction rows as [|[i|] rows IH]; intros position; cbn; [constructor| |done].
  constructor; [done|]. apply Forall_forall. intros [p v] Hp%elem_of_entries. unfold entry_lt. cbn. lia.
Qed.

Lemma sorted_entries_eq (xs ys : list (nat * nat)) :
  StronglySorted entry_lt xs -> StronglySorted entry_lt ys -> (forall e, e ∈ xs <-> e ∈ ys) -> xs = ys.
Proof.
  revert ys. induction xs as [|x xs IH]; intros ys Hx Hy Heq.
  { destruct ys as [|y ys]; [done|]. specialize (Heq y). set_solver. }
  destruct ys as [|y ys]; [specialize (Heq x); set_solver|].
  apply StronglySorted_inv in Hx as [Hx Hxs]. apply StronglySorted_inv in Hy as [Hy Hys]. rewrite Forall_forall in Hxs, Hys.
  assert (x = y) as ->.
  { destruct (proj1 (elem_of_cons ys x y) (proj1 (Heq x) ltac:(left))) as [->|Hi]; [done|].
    destruct (proj1 (elem_of_cons xs y x) (proj2 (Heq y) ltac:(left))) as [->|Hj]; [done|].
    specialize (Hxs _ Hj). specialize (Hys _ Hi). unfold entry_lt in *. lia. }
  f_equal. apply IH; [done..|]. intros e. specialize (Heq e). rewrite !elem_of_cons in Heq.
  assert (forall e, e ∈ xs -> e <> y) by (intros ? He ->; specialize (Hxs _ He); unfold entry_lt in *; lia).
  assert (forall e, e ∈ ys -> e <> y) by (intros ? He ->; specialize (Hys _ He); unfold entry_lt in *; lia).
  naive_solver.
Qed.

(** ** Chains of predecessor links *)

Section chains.
Context (rows : list (option nat)).

(** [chain links c p v]: following [links] back from position [p] visits the
    entries of [c ++ [(p, v)]] in reverse, strictly down in position and index. *)
Inductive chain (links : list (option nat)) : list (nat * nat) -> nat -> nat -> Prop :=
| chain_first p v :
    rows !! p = Some (Some v) -> links !! p = Some None -> chain links [] p v
| chain_next c q w p v :
    rows !! p = Some (Some v) -> links !! p = Some (Some q) -> q < p -> w < v ->
    chain links c q w -> chain links (c ++ [(q, w)]) p v.

Lemma chain_row links c p v : chain links c p v -> rows !! p = Some (Some v).
Proof. by destruct 1. Qed.

Lemma chain_frame links links' c p v :
  chain links c p v -> (forall q, q <= p -> links' !! q = links !! q) -> chain links' c p v.
Proof.
  induction 1 as [p v Hr Hl|c q w p v Hr Hl Hq Hw Hc IH]; intros Hf.
  - by apply chain_first; [|rewrite Hf].
  - apply chain_next; [done|by rewrite Hf|done|done|]. apply IH. intros; apply Hf; lia.
Qed.

Lemma StronglySorted_snoc {A} (R : relation A) (xs : list A) x :
  StronglySorted R xs -> (forall y, y ∈ xs -> R y x) -> StronglySorted R (xs ++ [x]).
Proof.
  induction 1 as [|y xs Hs IH Hf]; intros Hx; cbn; [repeat constructor|].
  constructor; [apply IH; set_solver|]. apply Forall_app. split; [done|]. repeat constructor. apply Hx. set_solver.
Qed.

(** The entries of a chain are rows, ascending in position and in old index. *)
Lemma chain_sorted links c p v :
  chain links c p v ->
  StronglySorted entry_lt (c ++ [(p, v)]) /\ StronglySorted lt (c ++ [(p, v)]).*2
  /\ (forall q w, (q, w) ∈ c -> q < p /\ w < v /\ rows !! q = Some (Some w)).
Proof.
  induction 1 as [p v Hr Hl|c q w p v Hr Hl Hq Hw Hc (IH1 & IH2 & IH3)]; cbn.
  { split_and!; [repeat constructor..|]. intros ?? H; inversion H. }
  assert (Hall : forall q' w', (q', w') ∈ c ++ [(q, w)] -> q' < p /\ w' < v /\ rows !! q' = Some (Some w')).
  { intros q' w' [Hin|Hin%list_elem_of_singleton]%elem_of_app.
    - specialize (IH3 _ _ Hin). naive_solver lia.
    - injection Hin as -> ->. split_and!; [done..|]. by eapply chain_row. }
  split_and!; [| |done].
  - apply StronglySorted_snoc; [done|]. intros [q' w'] Hin. by apply Hall in Hin as [? _].
  - rewrite fmap_app. apply StronglySorted_snoc; [done|].
    intros y [[q' w'] [-> Hin]]%list_elem_of_fmap. by apply Hall in Hin as (_ & ? & _).
Qed.

(** Marking a chain sets exactly its positions. *)
Lemma lis_mark_spec links c p v fuel keep :
  chain links c p v -> p < fuel -> p < length keep ->
  length (lis_mark fuel links p keep) = length keep
  /\ forall q, lis_mark fuel links p keep !! q = Some true <-> keep !! q = Some true \/ q ∈ (c ++ [(p, v)]).*1.
Proof.
  intros Hc. revert fuel keep. induction Hc as [p v Hr Hl|c q w p v Hr Hl Hq Hw Hc IH]; intros [|fuel] keep Hfuel Hlen; try lia.
  - cbn. rewrite Hl, length_insert. split; [done|]. intros i. destruct (decide (i = p)) as [->|Hne].
    + rewrite list_lookup_insert_eq; [|done]. set_solver.
    + rewrite list_lookup_insert_ne; [|done]. set_solver.
  - cbn. rewrite Hl. destruct (IH fuel (<[p := true]> keep)) as [IH1 IH2]; [lia|rewrite length_insert; lia|].
    rewrite IH1, length_insert. split; [done|]. intros i. rewrite IH2, !fmap_app. cbn.
    destruct (decide (i = p)) as [->|Hne].
    + rewrite list_lookup_insert_eq; [|done]. set_solver.
    + rewrite list_lookup_insert_ne; [|done]. set_solver.
Qed.

(** ** The invariant of the loop *)

Lemma partition_point_le p xs : partition_point p xs <= length xs.
Proof. induction xs as [|x xs IH]; cbn; [lia|]. destruct (p x); lia. Qed.

Lemma partition_point_lt v xs i x :
  xs !! i = Some x -> i < partition_point (fun tail => tail <? v) xs -> x < v.
Proof.
  revert i. induction xs as [|y xs IH]; intros i Hx; [done|]. cbn [partition_point]. destruct (Nat.ltb_spec y v); intros Hi; [|lia].
  destruct i; cbn in Hx; [by simplify_eq|]. apply (IH i); [done|lia].
Qed.

Lemma partition_point_ge v xs i x :
  StronglySorted lt xs -> xs !! i = Some x -> partition_point (fun tail => tail <? v) xs <= i -> v <= x.
Proof.
  revert i. induction xs as [|y xs IH]; intros i Hs Hx; [done|]. cbn [partition_point].
  apply StronglySorted_inv in Hs as [Hs Hf]. destruct (Nat.ltb_spec y v).
  - destruct i; [lia|]. intros. apply (IH i); [done|done|lia].
  - intros _. destruct i; cbn in Hx; [by simplify_eq|].
    rewrite Forall_forall in Hf. apply list_elem_of_lookup_2 in Hx. specialize (Hf _ Hx). lia.
Qed.

(** After the rows before [bound]: every slot ends a chain of its length, and no
    increasing subsequence of that length ends lower. *)
Record lis_invariant (bound : nat) (s : LisState) : Prop := mkInvariant {
  inv_length : length (tail_positions s) = length (tails s);
  inv_links : length (predecessor s) = length rows;
  inv_fresh : forall p, bound <= p < length rows -> predecessor s !! p = Some None;
  inv_sorted : StronglySorted lt (tails s);
  inv_chain : forall k v p, tails s !! k = Some v -> tail_positions s !! k = Some p ->
    p < bound /\ exists c, chain (predecessor s) c p v /\ length c = k;
  inv_best : forall xs x, xs ++ [x] `sublist_of` retained_indices (take bound rows) ->
    StronglySorted lt (xs ++ [x]) -> exists v, tails s !! length xs = Some v /\ v <= x;
}.

Lemma lis_initial : lis_invariant 0 (mkLis [] [] (replicate (length rows) None)).
Proof.
  constructor; cbn; [done|by rewrite length_replicate| |constructor|done|].
  - intros p Hp. by rewrite lookup_replicate_2; [|lia].
  - intros xs x Hs%sublist_nil_r. by destruct xs.
Qed.

Lemma lis_skip bound s :
  lis_invariant bound s -> rows !! bound = Some None -> lis_invariant (S bound) s.
Proof.
  intros [] Hr. constructor; [done|done| |done| |].
  - intros p Hp. apply inv_fresh0. lia.
  - intros k v p Hv Hp. destruct (inv_chain0 _ _ _ Hv Hp) as [? Hc]. split; [lia|done].
  - intros xs x Hs. apply inv_best0. erewrite take_S_r in Hs; [|done].
    unfold retained_indices in Hs. rewrite omap_app, app_nil_r in Hs. done.
Qed.

Lemma sorted_lookup (xs : list nat) :
  StronglySorted lt xs <-> (forall i j x y, i < j -> xs !! i = Some x -> xs !! j = Some y -> x < y).
Proof.
  split.
  - induction 1 as [|z xs Hs IH Hf]; intros i j x y Hij Hx Hy; [done|].
    destruct j as [|j]; [lia|]. cbn in Hy. destruct i as [|i]; cbn in Hx.
    + simplify_eq. rewrite Forall_forall in Hf. apply Hf. by eapply list_elem_of_lookup_2.
    + apply (IH i j); [lia|done|done].
  - induction xs as [|z xs IH]; intros Hlt; [constructor|]. constructor.
    + apply IH. intros i j x y Hij Hx Hy. apply (Hlt (S i) (S j)); [lia|done|done].
    + apply Forall_forall. intros x [i Hi]%list_elem_of_lookup_1. apply (Hlt 0 (S i)); [lia|done|done].
Qed.

(** Both branches of the code put a value at [slot]. *)
Lemma put_lookup {A} (xs : list A) slot v k :
  slot <= length xs ->
  (if slot =? length xs then xs ++ [v] else <[slot := v]> xs) !! k = (if k =? slot then Some v else xs !! k).
Proof.
  intros Hs. destruct (Nat.eqb_spec slot (length xs)) as [->|Hne].
  - destruct (Nat.eqb_spec k (length xs)) as [->|Hk]; [by rewrite lookup_app_r, Nat.sub_diag|].
    destruct (decide (k < length xs)); [by rewrite lookup_app_l|].
    rewrite lookup_app_r; [|lia]. rewrite (lookup_ge_None_2 xs); [|lia].
    destruct (k - length xs) eqn:?; [lia|done].
  - destruct (Nat.eqb_spec k slot) as [->|]; [apply list_lookup_insert_eq; lia|by apply list_lookup_insert_ne].
Qed.

Lemma lis_step_lookup bound v s :
  lis_invariant bound s ->
  let slot := partition_point (fun tail => tail <? v) (tails s) in
  (forall k, tails (lis_step bound v s) !! k = if k =? slot then Some v else tails s !! k)
  /\ (forall k, tail_positions (lis_step bound v s) !! k = if k =? slot then Some bound else tail_positions s !! k).
Proof.
  intros Hinv. cbn zeta. pose proof (partition_point_le (fun tail => tail <? v) (tails s)) as Hle.
  pose proof (fun k => put_lookup (tails s) _ v k Hle) as Ht.
  pose proof Hle as Hle'. rewrite <- (inv_length _ _ Hinv) in Hle'.
  pose proof (fun k => put_lookup (tail_positions s) _ bound k Hle') as Hp. rewrite (inv_length _ _ Hinv) in Hp.
  unfold lis_step. cbn zeta. destruct (partition_point _ _ =? length (tails s)); split; intros k; [apply Ht|apply Hp|apply Ht|apply Hp].
Qed.

(** The links after a step: those below [bound] stay, and [bound] ends a chain of
    length [slot]. *)
Lemma lis_step_chain bound v s :
  lis_invariant bound s -> rows !! bound = Some (Some v) ->
  (forall q, q <> bound -> predecessor (lis_step bound v s) !! q = predecessor s !! q)
  /\ length (predecessor (lis_step bound v s)) = length (predecessor s)
  /\ exists c, chain (predecessor (lis_step bound v s)) c bound v
       /\ length c = partition_point (fun tail => tail <? v) (tails s).
Proof.
  intros Hinv Hr. set (slot := partition_point _ _).
  assert (Hlinks : predecessor (lis_step bound v s)
    = if 0 <? slot then <[bound := tail_positions s !! (slot - 1)]> (predecessor s) else predecessor s).
  { unfold lis_step. fold slot. cbn zeta. by destruct (slot =? _). }
  assert (Hb : bound < length rows) by (by eapply lookup_lt_Some). pose proof (inv_links _ _ Hinv) as Hlen.
  assert (Hframe : forall q, q <> bound -> predecessor (lis_step bound v s) !! q = predecessor s !! q).
  { intros q Hq. rewrite Hlinks. destruct (0 <? slot); [|done]. by apply list_lookup_insert_ne. }
  split; [done|]. split; [rewrite Hlinks; destruct (0 <? slot); by rewrite ?length_insert|].
  destruct (Nat.ltb_spec 0 slot) as [Hpos|Hzero].
  - destruct (lookup_lt_is_Some_2 (tails s) (slot - 1)) as [w Hw].
    { pose proof (partition_point_le (fun tail => tail <? v) (tails s)). unfold slot in *. lia. }
    destruct (lookup_lt_is_Some_2 (tail_positions s) (slot - 1)) as [q Hq].
    { rewrite (inv_length _ _ Hinv). by eapply lookup_lt_Some. }
    destruct (inv_chain _ _ Hinv _ _ _ Hw Hq) as (Hqb & c & Hc & Hlc).
    exists (c ++ [(q, w)]). split; [|rewrite length_app; cbn; lia].
    apply chain_next; [done| |done| |].
    + rewrite Hlinks, Hq. apply list_lookup_insert_eq. lia.
    + eapply partition_point_lt; [done|]. fold slot. lia.
    + eapply chain_frame; [done|]. intros q' Hq'. apply Hframe. lia.
  - exists []. split; [|cbn; lia]. apply chain_first; [done|]. rewrite Hlinks. apply (inv_fresh _ _ Hinv). lia.
Qed.

Lemma sublist_snoc_inv {A} (xs : list A) x ys y :
  xs ++ [x] `sublist_of` ys ++ [y] -> xs ++ [x] `sublist_of` ys \/ (x = y /\ xs `sublist_of` ys).
Proof.
  intros (k1 & k2 & Heq & H1 & H2)%sublist_app_r.
  destruct k2 as [|z k2] using rev_ind.
  - left. rewrite app_nil_r in Heq. by subst.
  - clear IHk2. rewrite app_assoc in Heq. apply app_inj_tail in Heq as [-> ->].
    assert (k2 = [] /\ z = y) as [-> ->].
    { apply sublist_length in H2 as Hl. rewrite length_app in Hl. cbn in Hl. destruct k2; [|cbn in Hl; lia].
      split; [done|]. cbn in H2. apply singleton_sublist_l in H2. set_solver. }
    rewrite app_nil_r. right. done.
Qed.

Lemma lis_step_best bound v s xs x :
  lis_invariant bound s -> rows !! bound = Some (Some v) ->
  xs ++ [x] `sublist_of` retained_indices (take (S bound) rows) -> StronglySorted lt (xs ++ [x]) ->
  exists t, tails (lis_step bound v s) !! length xs = Some t /\ t <= x.
Proof.
  intros Hinv Hr Hsub Hsort. destruct (lis_step_lookup bound v s Hinv) as [Ht _]. rewrite Ht.
  set (slot := partition_point _ _) in *. erewrite take_S_r in Hsub; [|done].
  unfold retained_indices in Hsub. rewrite omap_app in Hsub. cbn in Hsub.
  apply sublist_snoc_inv in Hsub as [Hsub|[-> Hsub]].
  - destruct (inv_best _ _ Hinv _ _ Hsub Hsort) as (t & Hk & Htx).
    destruct (Nat.eqb_spec (length xs) slot) as [Heq|]; [|by exists t].
    exists v. split; [done|]. enough (v <= t) by lia.
    eapply partition_point_ge; [by apply (inv_sorted _ _ Hinv)|done|]. fold slot. lia.
  - assert (Hle : length xs <= slot).
    { destruct xs as [|z xs _] using rev_ind; [cbn; lia|]. rewrite length_app. cbn.
      destruct (inv_best _ _ Hinv xs z) as (t & Hk & Htz); [done| |].
      { by apply StronglySorted_app in Hsort as (_ & Hsort & _). }
      assert (z < v).
      { rewrite sorted_lookup in Hsort. apply (Hsort (length xs) (S (length xs))); [lia| |].
        - rewrite <- app_assoc. apply list_lookup_middle. done.
        - apply list_lookup_middle. rewrite length_app. cbn. lia. }
      destruct (decide (length xs < slot)) as [|Hge]; [lia|].
      pose proof (partition_point_ge v _ _ _ (inv_sorted _ _ Hinv) Hk) as Hge'. fold slot in Hge'. lia. }
    destruct (Nat.eqb_spec (length xs) slot); [by exists v|].
    destruct (lookup_lt_is_Some_2 (tails s) (length xs)) as [t Hk].
    { pose proof (partition_point_le (fun tail => tail <? v) (tails s)) as Hps. fold slot in Hps. lia. }
    exists t. split; [done|]. enough (t < v) by lia. eapply partition_point_lt; [done|]. fold slot. lia.
Qed.

Lemma lis_step_invariant bound v s :
  lis_invariant bound s -> rows !! bound = Some (Some v) -> lis_invariant (S bound) (lis_step bound v s).
Proof.
  intros Hinv Hr. destruct (lis_step_lookup bound v s Hinv) as [Ht Hp].
  destruct (lis_step_chain bound v s Hinv Hr) as (Hframe & Hlen & c & Hc & Hlc).
  set (slot := partition_point _ _) in *. constructor.
  - unfold lis_step. cbn zeta. destruct (_ =? length (tails s)); cbn;
      rewrite ?length_app, ?length_insert, (inv_length _ _ Hinv); done.
  - by rewrite Hlen, (inv_links _ _ Hinv).
  - intros p Hpb. rewrite Hframe; [|lia]. apply (inv_fresh _ _ Hinv). lia.
  - apply sorted_lookup. intros i j x y Hij. rewrite !Ht. pose proof (inv_sorted _ _ Hinv) as Hs.
    destruct (Nat.eqb_spec i slot) as [Hi|Hi], (Nat.eqb_spec j slot) as [Hj|Hj]; intros Hx Hy; [lia| | |].
    + injection Hx as <-. destruct (lookup_lt_is_Some_2 (tails s) slot) as [z Hz].
      { apply lookup_lt_Some in Hy. lia. }
      pose proof (partition_point_ge _ _ _ _ Hs Hz (le_n _)). rewrite sorted_lookup in Hs.
      specialize (Hs slot j z y). rewrite Hi in Hij. specialize (Hs Hij Hz Hy). lia.
    + injection Hy as <-. eapply partition_point_lt; [done|]. fold slot. lia.
    + rewrite sorted_lookup in Hs. by apply (Hs i j).
  - intros k t p Hk Hkp. rewrite Ht in Hk. rewrite Hp in Hkp. destruct (Nat.eqb_spec k slot) as [Heq|Hne].
    + injection Hk as <-. injection Hkp as <-. split; [lia|]. exists c. by rewrite Heq.
    + destruct (inv_chain _ _ Hinv _ _ _ Hk Hkp) as (Hpb & c' & Hc' & Hl). split; [lia|].
      exists c'. split; [|done]. eapply chain_frame; [done|]. intros q Hq. apply Hframe. lia.
  - intros xs x. by apply lis_step_best.
Qed.

Lemma lis_loop_invariant visited rest s :
  rows = visited ++ rest -> lis_invariant (length visited) s ->
  lis_invariant (length rows) (lis_loop (length visited) rest s).
Proof.
  revert visited s. induction rest as [|o rest IH]; intros visited s Hrows Hinv.
  { rewrite Hrows, app_nil_r. done. }
  assert (Hr : rows !! length visited = Some o) by (by rewrite Hrows; apply list_lookup_middle).
  assert (Hsplit : rows = (visited ++ [o]) ++ rest) by (by rewrite <- app_assoc).
  assert (Hlen : length (visited ++ [o]) = S (length visited)) by (rewrite length_app; cbn; lia).
  destruct o as [v|]; cbn; rewrite <- Hlen; apply IH; [done| |done|]; rewrite Hlen.
  - by apply lis_step_invariant.
  - by apply lis_skip.
Qed.

Lemma kept_entries_chain links c p v keep :
  chain links c p v ->
  (forall q, keep !! q = Some true <-> q ∈ (c ++ [(p, v)]).*1) -> kept_entries rows keep = c ++ [(p, v)].
Proof.
  intros Hc Hkeep. destruct (chain_sorted _ _ _ _ Hc) as (Hs & _ & Hrows). apply sorted_entries_eq; [|done|].
  - apply StronglySorted_filter, entries_sorted.
  - assert (Hin : forall q w, (q, w) ∈ c ++ [(p, v)] -> rows !! q = Some (Some w)).
    { intros q w [H|H%list_elem_of_singleton]%elem_of_app; [by apply Hrows in H as (_ & _ & ?)|].
      simplify_eq. by eapply chain_row. }
    intros [q w]. unfold kept_entries. rewrite list_elem_of_filter, elem_of_entries, Nat.sub_0_r. cbn.
    rewrite Hkeep. split.
    + intros [[[q' w'] [-> Hq]]%list_elem_of_fmap [_ Hr]]. cbn in *. apply Hin in Hq as Hr'. by simplify_eq.
    + intros Hq. split; [|split; [lia|by apply Hin]]. apply list_elem_of_fmap. by exists (q, w).
Qed.

(** The marked rows are one longest increasing subsequence of the old indexes. *)
Lemma lis_keep_spec :
  length (lis_keep rows) = length rows
  /\ (forall p, lis_keep rows !! p = Some true -> exists v, rows !! p = Some (Some v))
  /\ StronglySorted lt (kept_indices rows (lis_keep rows))
  /\ (forall xs, xs `sublist_of` retained_indices rows -> StronglySorted lt xs ->
        length xs <= length (kept_indices rows (lis_keep rows))).
Proof.
  pose proof (lis_loop_invariant [] rows _ eq_refl lis_initial) as Hinv. cbn in Hinv.
  unfold lis_keep. set (s := lis_loop 0 rows _) in *.
  assert (Hbest : forall xs, xs `sublist_of` retained_indices rows -> StronglySorted lt xs -> length xs <= length (tails s)).
  { intros xs. destruct xs as [|x xs _] using rev_ind; [cbn; lia|]. intros Hsub Hsort.
    rewrite <- (take_ge rows (length rows)) in Hsub by lia.
    destruct (inv_best _ _ Hinv _ _ Hsub Hsort) as (t & Hk & _). apply lookup_lt_Some in Hk.
    rewrite length_app. cbn. lia. }
  destruct (last (tail_positions s)) as [p|] eqn:Hlast.
  - rewrite last_lookup in Hlast. assert (Hp : pred (length (tail_positions s)) < length (tails s)).
    { rewrite <- (inv_length _ _ Hinv). by eapply lookup_lt_Some. }
    destruct (lookup_lt_is_Some_2 _ _ Hp) as [v Hv].
    destruct (inv_chain _ _ Hinv _ _ _ Hv Hlast) as (Hpb & c & Hc & Hlc).
    destruct (lis_mark_spec _ _ _ _ (length rows) (replicate (length rows) false) Hc Hpb) as [Hl Hmark].
    { by rewrite length_replicate. }
    rewrite length_replicate in Hl. set (keep := lis_mark _ _ _ _) in *.
    assert (Hkeep : forall q, keep !! q = Some true <-> q ∈ (c ++ [(p, v)]).*1).
    { intros q. rewrite Hmark. split; [|by right]. intros [[? _]%lookup_replicate_1|]; done. }
    pose proof (kept_entries_chain _ _ _ _ _ Hc Hkeep) as Heq.
    destruct (chain_sorted _ _ _ _ Hc) as (_ & Hs & Hrows). unfold kept_indices. rewrite Heq.
    split_and!; [done| |done|].
    + intros q [[q' w] [-> Hq]]%Hkeep%list_elem_of_fmap. exists w. cbn.
      apply elem_of_app in Hq as [Hq|Hq%list_elem_of_singleton]; [by apply Hrows in Hq as (_ & _ & ?)|].
      simplify_eq. by eapply chain_row.
    + intros xs Hsub Hsort. specialize (Hbest _ Hsub Hsort). rewrite length_fmap, length_app. cbn.
      rewrite (inv_length _ _ Hinv) in *. lia.
  - apply last_None in Hlast. assert (length (tails s) = 0) as Hzero by (rewrite <- (inv_length _ _ Hinv), Hlast; done).
    assert (Hno : kept_entries rows (replicate (length rows) false) = []).
    { apply elem_of_nil_inv. intros e [[? _]%lookup_replicate_1 _]%list_elem_of_filter. done. }
    unfold kept_indices. rewrite Hno, length_replicate. split_and!; [done| |constructor|].
    + intros q [? _]%lookup_replicate_1. done.
    + intros xs Hsub Hsort. specialize (Hbest _ Hsub Hsort). cbn. lia.
Qed.
End chains.

(** ** Fewest moves *)

(** A choice of retained rows that could stay where they are: their old order is
    their new order. *)
Definition can_stay (rows : list (option nat)) (keep : list bool) : Prop :=
  length keep = length rows
  /\ (forall p, keep !! p = Some true -> exists v, rows !! p = Some (Some v))
  /\ StronglySorted lt (kept_indices rows keep).

(** [moved_rows] of the update: the retained rows that are not kept. *)
Fixpoint moved_rows (rows : list (option nat)) (keep : list bool) : nat :=
  match rows, keep with
  | Some _ :: rows, false :: keep => S (moved_rows rows keep)
  | _ :: rows, _ :: keep => moved_rows rows keep
  | _, _ => 0
  end.

Lemma sublist_fmap {A B} (f : A -> B) xs ys : xs `sublist_of` ys -> f <$> xs `sublist_of` f <$> ys.
Proof. by induction 1; cbn; constructor. Qed.

Lemma kept_indices_sublist rows keep : kept_indices rows keep `sublist_of` retained_indices rows.
Proof. rewrite <- (entries_values 0 rows). apply sublist_fmap, sublist_filter. Qed.

Lemma filter_ext_in {A} (P Q : A -> Prop) `{!forall x, Decision (P x), !forall x, Decision (Q x)} (xs : list A) :
  (forall x, x ∈ xs -> P x <-> Q x) -> filter P xs = filter Q xs.
Proof.
  induction xs as [|x xs IH]; intros Hiff; [done|]. rewrite !filter_cons, IH by set_solver.
  destruct (Hiff x ltac:(left)). by do 2 case_decide; try naive_solver.
Qed.

(** Every retained row is kept or moved. *)
Lemma moved_kept_from position rows keep :
  length keep = length rows ->
  moved_rows rows keep + length (filter (fun e => keep !! (e.1 - position) = Some true) (entries position rows))
  = length (retained_indices rows).
Proof.
  revert position keep. induction rows as [|o rows IH]; intros position [|b keep] Hl; [done..|].
  injection Hl as Hl. specialize (IH (S position) keep Hl).
  rewrite (filter_ext_in _ (fun e => (b :: keep) !! (e.1 - position) = Some true)) in IH; cycle 1.
  { intros [p v] [Hp _]%elem_of_entries. cbn [fst]. replace (p - position) with (S (p - S position)) by lia. done. }
  destruct o as [v|]; cbn [entries retained_indices omap list_omap id].
  - rewrite filter_cons. cbn [fst]. rewrite Nat.sub_diag. fold (retained_indices rows).
    case_decide as Hb; cbn in Hb; destruct b; try congruence; cbn [moved_rows length]; unfold retained_indices in *; cbn; lia.
  - unfold retained_indices in *. destruct b; cbn [moved_rows]; done.
Qed.

Lemma moved_kept rows keep :
  length keep = length rows ->
  moved_rows rows keep + length (kept_indices rows keep) = length (retained_indices rows).
Proof.
  intros Hl. rewrite <- (moved_kept_from 0 rows keep Hl). unfold kept_indices, kept_entries. rewrite length_fmap.
  do 2 f_equal. apply list_filter_iff. intros e. by rewrite Nat.sub_0_r.
Qed.

(** The kept indexes, read along the rows. *)
Fixpoint kept_values (rows : list (option nat)) (keep : list bool) : list nat :=
  match rows, keep with
  | Some v :: rows, true :: keep => v :: kept_values rows keep
  | _ :: rows, _ :: keep => kept_values rows keep
  | _, _ => []
  end.

Lemma kept_values_from position rows keep :
  length keep = length rows ->
  (filter (fun e => keep !! (e.1 - position) = Some true) (entries position rows)).*2 = kept_values rows keep.
Proof.
  revert position keep. induction rows as [|o rows IH]; intros position [|b keep] Hl; [done..|].
  injection Hl as Hl. specialize (IH (S position) keep Hl).
  rewrite (filter_ext_in _ (fun e => (b :: keep) !! (e.1 - position) = Some true)) in IH; cycle 1.
  { intros [p v] [Hp _]%elem_of_entries. cbn [fst]. replace (p - position) with (S (p - S position)) by lia. done. }
  destruct o as [v|]; cbn [entries].
  - rewrite filter_cons. cbn [fst]. rewrite Nat.sub_diag.
    case_decide as Hb; cbn in Hb; destruct b; try congruence; cbn [kept_values fmap list_fmap snd]; by rewrite ?IH.
  - destruct b; cbn [kept_values]; done.
Qed.

Lemma kept_indices_values rows keep : length keep = length rows -> kept_indices rows keep = kept_values rows keep.
Proof.
  intros Hl. rewrite <- (kept_values_from 0 rows keep Hl). unfold kept_indices, kept_entries. f_equal.
  apply list_filter_iff. intros e. by rewrite Nat.sub_0_r.
Qed.

(** C37. [keyed_lis] marks rows that can stay where they are, and no choice of rows
    that can stay moves fewer: the update of a keyed view moves as few retained
    rows as any reordering of them can. *)
Theorem keyed_lis_moves_fewest rows :
  can_stay rows (lis_keep rows)
  /\ forall keep, can_stay rows keep -> moved_rows rows (lis_keep rows) <= moved_rows rows keep.
Proof.
  destruct (lis_keep_spec rows) as (Hl & Hret & Hsort & Hbest). split; [done|].
  intros keep (Hl' & _ & Hsort'). specialize (Hbest _ (kept_indices_sublist rows keep) Hsort').
  pose proof (moved_kept rows _ Hl). pose proof (moved_kept rows _ Hl'). lia.
Qed.

Example keyed_lis_sample :
  lis_keep [Some 3; Some 0; None; Some 1; Some 2] = [false; true; false; true; true]
  /\ lis_keep [Some 2; Some 1; Some 0] = [false; false; true]
  /\ lis_keep [None; None] = [false; false].
Proof. done. Qed.
