(* ===== verification/MountTree.v ===== *)
(** * MountTree: the browser tree and the layout of mounted ranges ([pliego-dom])

    Models the diagnostics and the layout checks of [crates/pliego-dom/src/mount.rs]:
    [MountError], the walks over siblings that validate a boundary range, a node
    sequence and the rows between two markers, and the wrappers around the mutating
    calls of [web_sys].

    The browser is not part of the repository: the class [Browser] lists the calls
    the code makes, [BrowserLaws] states what the DOM standard documents of them in
    terms of the ordered children of each node. *)

From S2P Require Import Prelude Reactive DomName Dom.

Local Open Scope string_scope.
Local Open Scope N_scope.

(** ** Diagnostics *)

Definition MAX_MOUNT_DIAGNOSTIC_BYTES : N := 256.

Record MountDiagnostic : Type := mkDiagnostic { preview : chars; input_bytes : N; preview_truncated : bool }.

(** [MountDiagnostic::new]. *)
Definition diagnostic (value : chars) : MountDiagnostic :=
  let shown := bounded_prefix MAX_MOUNT_DIAGNOSTIC_BYTES value in
  mkDiagnostic shown (clen value) (clen shown <? clen value).

Inductive MountOperation : Type :=
| AppendNode | InsertRange | RemoveNode | CreateElement | SetAttribute | AddEventListener | RemoveEventListener
| DispatchLifecycle | RestoreFocus | RegisterCleanup | InstallEffect.

Inductive MountStructureViolation : Type :=
| VoidElementHasChildren | BoundaryDetached | BoundaryParentsDiffer | BoundaryEndNotReachable
| BoundaryOwnershipMismatch | DynamicUpdateReentered | KeyedUpdateReentered.

Inductive MountError : Type :=
| WindowUnavailable
| DocumentUnavailable
| BodyUnavailable
| HostNotFound (host : MountDiagnostic)
| UnsupportedNamespace (namespace : MountDiagnostic)
| InvalidView (error : DomError)
| InvalidRender (error : RenderError)
| DynamicUpdatePoisoned (cause : MountError)
| KeyedUpdatePoisoned (cause : MountError)
| AdoptionMismatch (path expected actual : MountDiagnostic)
| DiagnosticOverflow (dropped_recoverable_events dropped_terminal_events : N)
| CleanupDidNotConverge (subject : MountDiagnostic) (remaining_owned_nodes passes : N)
| StructureError (violation : MountStructureViolation) (subject : MountDiagnostic)
| BrowserError (operation : MountOperation) (subject detail : MountDiagnostic)
| ReactiveError (operation : MountOperation) (source : OwnerError).

(** [From<KeyedError>]. *)
Definition keyed_error (error : KeyedError) : MountError := InvalidRender (KeyedFailure error).

Definition structure (violation : MountStructureViolation) (label : string) : MountError :=
  StructureError violation (diagnostic (str label)).

Definition ownership_mismatch (label : string) : MountError := structure BoundaryOwnershipMismatch label.

(** The [OwnerError::Disposed] of an operation on a scope that is going away. *)
Definition scope_gone (operation : MountOperation) : MountError := ReactiveError operation Disposed.

Definition dynamic_update_reentered : MountError := structure DynamicUpdateReentered "dynamic slot".
Definition keyed_update_reentered : MountError := structure KeyedUpdateReentered "keyed slot".

Definition dynamic_update_poisoned (cause : MountError) : MountError :=
  match cause with DynamicUpdatePoisoned _ => cause | _ => DynamicUpdatePoisoned cause end.

Definition keyed_update_poisoned (cause : MountError) : MountError :=
  match cause with KeyedUpdatePoisoned _ => cause | _ => KeyedUpdatePoisoned cause end.

Fixpoint has_structural_failure (error : MountError) : bool :=
  match error with
  | DynamicUpdatePoisoned cause | KeyedUpdatePoisoned cause => has_structural_failure cause
  | StructureError _ _ => true
  | _ => false
  end.

(** ** The browser *)

(** A handle to a DOM node; [is_same_node] is equality of handles. *)
Abbreviation Node := N.

Class Browser : Type := {
  Document : Type;
  parent_node : Document -> Node -> option Node;
  next_sibling : Document -> Node -> option Node;
  child_nodes : Document -> Node -> list Node;
  is_connected : Document -> Node -> bool;
  (* [dyn_ref::<DocumentFragment>], [Element], [HtmlElement] *)
  is_fragment : Node -> bool;
  is_element : Node -> bool;
  is_html_element : Node -> bool;
  (* of an element *)
  namespace_uri : Node -> option chars;
  local_name : Node -> chars;
  (* a thrown exception is its text *)
  node_insert_before : Document -> Node -> Node -> option Node -> result chars Document;
  node_remove_child : Document -> Node -> Node -> result chars Document;
  create_fragment : Document -> Node * Document;
  create_comment : chars -> Document -> Node * Document;
  create_text_node : chars -> Document -> Node * Document;
  (* [create_element] for HTML, [create_element_ns] for SVG *)
  create_element : ElementNamespace -> chars -> Document -> result chars (Node * Document);
  text_data : Document -> Node -> chars;
  set_text_data : chars -> Node -> Document -> Document;
  (* with the namespace of the attribute, if it has one, and its qualified name *)
  element_set_attribute : Document -> Node -> option chars -> chars -> chars -> result chars Document;
  element_get_attribute : Document -> Node -> option chars -> chars -> option chars;
  add_event_listener : Document -> Node -> chars -> result chars Document;
  active_element : Document -> option Node;
  node_focus : Document -> Node -> result chars Document;
  (* the answer of [dispatchEvent] for a [pliego:scope-dispose] event *)
  dispatch_scope_dispose : Document -> Node -> result chars unit;
  (* an upper bound of the length of every chain of parents *)
  node_count : Document -> nat;
}.

(** [appendChild] is [insertBefore] with no reference child. *)
Definition node_append_child `{Browser} (d : Document) (parent child : Node) : result chars Document :=
  node_insert_before d parent child None.

(** ** Ordered children *)

(** The node that follows [n] in a list of children. *)
Fixpoint after (n : Node) (children : list Node) : option Node :=
  match children with
  | [] => None
  | c :: rest => if bool_decide (c = n) then head rest else after n rest
  end.

(** What inserting [moved] before a child, or at the end, makes of the children. *)
Fixpoint place (moved : list Node) (before : option Node) (children : list Node) : list Node :=
  match children with
  | [] => moved
  | c :: rest => if bool_decide (before = Some c) then (moved ++ c :: rest)%list else c :: place moved before rest
  end.

Definition without (moved children : list Node) : list Node := filter (fun c => c ∉ moved) children.

Section laws.
Context `{Browser}.

(** Inserting a fragment inserts its children. *)
Definition moved_nodes (d : Document) (child : Node) : list Node :=
  if is_fragment child then child_nodes d child else [child].

Definition inserted (d : Document) (parent child : Node) (before : option Node) (d' : Document) : Prop :=
  forall q, child_nodes d' q =
    (if bool_decide (q = parent) then place (moved_nodes d child) before (without (moved_nodes d child) (child_nodes d q))
     else without (moved_nodes d child) (child_nodes d q)).

(** The node or one of its ancestors. *)
Inductive in_lineage (d : Document) (a : Node) : Node -> Prop :=
| lineage_self : in_lineage d a a
| lineage_parent n p : parent_node d n = Some p -> in_lineage d a p -> in_lineage d a n.
End laws.

(** The DOM standard on trees: children are ordered and distinct, and a child has one
    parent; a sibling may be moved before another child of its parent, a fragment may
    be inserted into an element or fragment outside it, and a child may be moved to a
    fragment without a host; insertion and removal change the children as documented,
    and nothing is inserted into its own descendants. *)
Class BrowserLaws `{Browser} : Prop := {
  children_nodup d p : NoDup (child_nodes d p);
  parent_child d n p : parent_node d n = Some p <-> n ∈ child_nodes d p;
  sibling_after d n p : parent_node d n = Some p -> next_sibling d n = after n (child_nodes d p);
  sibling_root d n : parent_node d n = None -> next_sibling d n = None;
  insert_inserted d p n before d' :
    node_insert_before d p n before = Ok d' -> (forall b, before = Some b -> b ∉ moved_nodes d n) ->
    inserted d p n before d';
  insert_lineage d p n before d' q :
    node_insert_before d p n before = Ok d' -> in_lineage d' q p <-> in_lineage d q p;
  insert_refused d p n before :
    (exists b, before = Some b /\ parent_node d b <> Some p) -> is_ok (node_insert_before d p n before) = false;
  insert_sibling d p n b :
    parent_node d n = Some p -> parent_node d b = Some p -> is_ok (node_insert_before d p n (Some b)) = true;
  insert_fragment d p f b :
    is_fragment f = true -> parent_node d b = Some p -> is_element p || is_fragment p = true ->
    (forall q, in_lineage d q p -> q <> f) -> is_ok (node_insert_before d p f (Some b)) = true;
  insert_in_fragment d f n p :
    is_fragment f = true -> parent_node d f = None -> parent_node d n = Some p -> n <> f ->
    is_ok (node_insert_before d f n None) = true;
  remove_removed d p n :
    parent_node d n = Some p -> exists d', node_remove_child d p n = Ok d'
      /\ forall q, child_nodes d' q = without [n] (child_nodes d q);
  remove_refused d p n : parent_node d n <> Some p -> is_ok (node_remove_child d p n) = false;
  fragment_is_root d f : is_fragment f = true -> parent_node d f = None;
  fragment_created d :
    is_fragment (create_fragment d).1 = true /\ child_nodes d (create_fragment d).1 = []
    /\ (forall q, child_nodes (create_fragment d).2 q = child_nodes d q);
}.

(** ** Walks over siblings *)

Section layout.
Context `{Browser}.

(** A range owned by a scope, frozen: [start], [end] and the nodes between, both
    included. *)
Record OwnedRangeSnapshot : Type := mkSnapshot { start : Node; end_ : Node; nodes : list Node }.

(** The loop of [validate_boundary_range]; the children of the parent bound it. *)
Fixpoint reach_end (fuel : nat) (d : Document) (cursor end_ : Node) (label : string) : result MountError unit :=
  if bool_decide (cursor = end_) then Ok tt
  else match fuel, next_sibling d cursor with
       | S fuel, Some next => reach_end fuel d next end_ label
       | _, _ => Err (structure BoundaryEndNotReachable label)
       end.

Definition validate_boundary_range (d : Document) (start end_ : Node) (label : string) : result MountError Node :=
  match parent_node d start with
  | None => Err (structure (if bool_decide (is_Some (parent_node d end_)) then BoundaryParentsDiffer else BoundaryDetached) label)
  | Some parent =>
      fail_if negb (bool_decide (parent_node d end_ = Some parent)) with structure BoundaryParentsDiffer label;;
      _ ← reach_end (length (child_nodes d parent)) d start end_ label;
      Ok parent
  end.

(** The comparison loop of [validate_node_sequence]. *)
Fixpoint match_sequence (d : Document) (actual : option Node) (expected : list Node) (label : string)
    : result MountError unit :=
  match expected with
  | [] => Ok tt
  | expected_node :: expected =>
      node ← ok_or (ownership_mismatch label) actual;
      fail_if negb (bool_decide (node = expected_node)) with ownership_mismatch label;;
      match_sequence d (next_sibling d node) expected label
  end.

Definition delimited_by (start end_ : Node) (ns : list Node) : bool :=
  bool_decide (head ns = Some start) && bool_decide (last ns = Some end_).

Definition validate_node_sequence (d : Document) (start end_ : Node) (expected : list Node) (label : string)
    : result MountError unit :=
  _ ← validate_boundary_range d start end_ label;
  fail_if negb (delimited_by start end_ expected) with ownership_mismatch label;;
  match_sequence d (Some start) expected label.

(** The rows one after the other between the markers: the body shared by
    [validate_keyed_layout] and [validate_dynamic_layout]. *)
Fixpoint match_segments (d : Document) (cursor : option Node) (segments : list OwnedRangeSnapshot) (outer_end : Node)
    (label segment_label : string) : result MountError unit :=
  match segments with
  | [] => fail_if negb (bool_decide (cursor = Some outer_end)) with ownership_mismatch label;; Ok tt
  | row :: rest =>
      _ ← validate_node_sequence d (start row) (end_ row) (nodes row) segment_label;
      first ← ok_or (ownership_mismatch segment_label) (head (nodes row));
      fail_if negb (bool_decide (cursor = Some first)) with ownership_mismatch label;;
      match_segments d (next_sibling d (end_ row)) rest outer_end label segment_label
  end.

Definition validate_keyed_layout (d : Document) (outer_start outer_end : Node) (rows : list OwnedRangeSnapshot)
    : result MountError unit :=
  _ ← validate_boundary_range d outer_start outer_end "keyed range";
  match_segments d (next_sibling d outer_start) rows outer_end "keyed range" "keyed row range".

Definition validate_dynamic_layout (d : Document) (outer_start outer_end : Node) (segments : list OwnedRangeSnapshot)
    : result MountError unit :=
  _ ← validate_boundary_range d outer_start outer_end "dynamic range";
  match_segments d (next_sibling d outer_start) segments outer_end "dynamic range" "dynamic child range".

Definition validate_dynamic_stable_layout (d : Document) (outer_start outer_end : Node) (stable : option OwnedRangeSnapshot)
    : result MountError unit :=
  validate_dynamic_layout d outer_start outer_end (match stable with Some s => [s] | None => [] end).

(** The loop of [snapshot_boundary_range]. *)
Fixpoint collect_range (fuel : nat) (d : Document) (cursor end_ : Node) (label : string) : result MountError (list Node) :=
  if bool_decide (cursor = end_) then Ok [cursor]
  else match fuel, next_sibling d cursor with
       | S fuel, Some next => rest ← collect_range fuel d next end_ label; Ok (cursor :: rest)
       | _, _ => Err (structure BoundaryEndNotReachable label)
       end.

Definition snapshot_boundary_range (d : Document) (start end_ : Node) (label : string)
    : result MountError (Node * list Node) :=
  parent ← validate_boundary_range d start end_ label;
  ns ← collect_range (length (child_nodes d parent)) d start end_ label;
  Ok (parent, ns).

(** The inner loop of [validate_owned_nodes_present]: from [cursor] to [expected],
    not past [end_]; the answer is the sibling after it. *)
Fixpoint find_owned (fuel : nat) (d : Document) (cursor : option Node) (expected end_ : Node) (label : string)
    : result MountError (option Node) :=
  match cursor with
  | None => Err (ownership_mismatch label)
  | Some node =>
      if bool_decide (node = expected) then Ok (next_sibling d node)
      else if bool_decide (node = end_) then Err (ownership_mismatch label)
      else match fuel with
           | S fuel => find_owned fuel d (next_sibling d node) expected end_ label
           | O => Err (ownership_mismatch label)
           end
  end.

Fixpoint find_all_owned (fuel : nat) (d : Document) (cursor : option Node) (owned : list Node) (end_ : Node) (label : string)
    : result MountError unit :=
  match owned with
  | [] => Ok tt
  | expected :: owned =>
      cursor ← find_owned fuel d cursor expected end_ label;
      find_all_owned fuel d cursor owned end_ label
  end.

(** [DomRange::validate_owned_nodes_present]. *)
Definition owned_nodes_present (d : Document) (start end_ : Node) (owned : list Node) (label : string) : result MountError unit :=
  parent ← validate_boundary_range d start end_ label;
  fail_if negb (delimited_by start end_ owned) with ownership_mismatch label;;
  find_all_owned (length (child_nodes d parent)) d (Some start) owned end_ label.

(** [node_is_within]: [ancestor] is the node or one of its ancestors. *)
Fixpoint within_loop (fuel : nat) (d : Document) (current ancestor : Node) : bool :=
  bool_decide (current = ancestor)
  || match fuel, parent_node d current with
     | S fuel, Some parent => within_loop fuel d parent ancestor
     | _, _ => false
     end.

Definition node_is_within (d : Document) (node ancestor : Node) : bool := within_loop (node_count d) d node ancestor.

Definition nodes_are_covered_by_topology (d : Document) (ns owned_top_level : list Node) : bool :=
  forallb (fun node => existsb (node_is_within d node) owned_top_level) ns.

(** [merge_unique_nodes]. *)
Definition merge_unique_nodes (target ns : list Node) : list Node :=
  fold_left (fun target node => if bool_decide (node ∈ target) then target else (target ++ [node])%list) ns target.
End layout.
