(* ===== verification/MountState.v ===== *)
(** * MountState: scopes, cleanups and slots of a mounted root ([pliego-dom])

    Models the ownership of [crates/pliego-dom/src/mount.rs]: the bounded error
    queue, the plans shown to an observer, [MountCleanup] with its leases, the
    topology transaction of an update, the update protocol of dynamic and keyed slots
    and the disposal of scopes.

    Everything lives in one [World]: the document, the allocations behind [Rc] and the
    queue of one mounted root. Code that is not the framework's runs at the [Site]s:
    the callbacks of views, the observer, and the custom element reactions of every
    mutation; it may change the world, and run the effect of a slot again. A
    computation answers, panics, or runs out of the fuel of the model ([Outcome]). *)

From S2P Require Import Prelude Reactive DomName Dom MountTree.

Local Open Scope string_scope.
Local Open Scope N_scope.

(** ** Data *)

(** An [Rc<MountCleanup>] with the [MountScope] it was made for, a slot, an origin. *)
Abbreviation ScopeId := N.
Abbreviation SlotId := N.
Abbreviation OriginId := N.

Definition MAX_MOUNT_ERROR_EVENTS : N := 64.
Definition MAX_CLEANUP_DRAIN_PASSES : nat := 64.

Record ErrorEvent : Type := mkEvent { event_error : MountError; terminal : bool }.

Record ErrorState : Type := mkErrors {
  events : list ErrorEvent;
  dropped_recoverable_events : N;
  dropped_terminal_events : N;
}.

Record ErrorOriginState : Type := mkOrigin {
  terminal_revision : N;
  latest_terminal : option MountError;
  origin_parent : option OriginId;
}.

Inductive DomOp : Type :=
| SetText (previous_bytes next_bytes : N)
| SetAttributeOp (name : chars) (had_previous : bool) (next_bytes : N)
| ReplaceSubtree (had_previous : bool)
| ReconcileKeyed (previous_rows next_rows retained_rows moved_rows inserted_rows removed_rows : N).

Record DomCommitContext : Type := mkContext { transaction_id : option N; state_root : option chars }.

Record DomPlan : Type := mkPlan { plan_id : N; target : N; context : DomCommitContext; operation : DomOp }.

(** What the observer was told: a plan, or the receipt of a plan. *)
Inductive Notification : Type := BeforeCommit (plan : DomPlan) | AfterCommit (receipt : DomPlan).

Record DomRange : Type := mkRange { range_start : Node; range_end : Node; owned_top_level : list Node; range_label : string }.

(** [strong_count] is the number of leases and of other [Rc]s, which the chains of
    running effects hold. *)
Record MountCleanup : Type := mkCleanup {
  range : option DomRange;
  owned_nodes : list Node;
  ancestors : list ScopeId;
  origin : OriginId;
  retiring : bool;
  cleaned : bool;
  cleanup_complete : bool;
  report_ownership_mismatch : bool;
  leases : N;
  holds : N;
}.

(** [owner] and [cleanup] are the options of the code; [owner_borrowed] is the
    mutable borrow that the statement of [dispose] keeps while the owner is disposed. *)
Record MountScope : Type := mkScope { has_owner : bool; owner_borrowed : bool; has_lease : bool; disposed : bool }.

Inductive SlotStatus : Type := Ready | Updating | PoisonedSlot (cause : MountError).

Record KeyedRow : Type := mkRow { row_key : KeyedKey; row_scope : ScopeId }.

(** [DynamicSlotState] and [KeyedSlotState]: a status and the stable content. *)
Inductive SlotContent : Type := DynamicContent (stable : option ScopeId) | KeyedContent (rows : list KeyedRow).

Record SlotState : Type := mkSlot { status : SlotStatus; content : SlotContent }.

(** The captures of an installed slot effect: the scope whose owner runs it, its
    markers, its error origin, its DOM target. *)
Record SlotEffect : Type := mkEffect {
  effect_scope : ScopeId;
  outer_start : Node;
  outer_end : Node;
  effect_origin : OriginId;
  effect_target : N;
  slot_state : SlotState;
}.

Section state.
Context `{Browser}.

Record World : Type := mkWorld {
  doc : Document;
  cleanups : gmap ScopeId MountCleanup;
  scopes : gmap ScopeId MountScope;
  slots : gmap SlotId SlotEffect;
  origins : gmap OriginId ErrorOriginState;
  queue : ErrorState;
  observed : bool;
  next_plan : N;
  next_target : N;
  notifications : list Notification;
  (* scopes with a running effect, and owners whose disposal waits for it *)
  running : list ScopeId;
  deferred : list ScopeId;
  (* the flags of the update that is running *)
  irreversible : bool;
  stable_corrupted : bool;
}.

(** Where code outside the framework runs. *)
Inductive Site : Type :=
| Reaction
| CollectRows (slot : SlotId)
| AnswerValue (scope : ScopeId)
| BuildRow (slot : SlotId) (key : KeyedKey)
| Observer
| FocusHandlers
| DisposeEvent (scope : ScopeId)
| OwnerCleanups (scope : ScopeId).
End state.

Class Foreign `{Browser} : Type := {
  foreign : Site -> World -> World;
  reenters : Site -> World -> list SlotId;
  commit_context : World -> DomCommitContext;
}.

(** ** The monad of the updates *)

Section monad.
Context `{Browser}.

(** Why a computation has no answer: the code panics, or the fuel of the model ends. *)
Inductive Fault : Type := Panicked | OutOfFuel.

Inductive Outcome (A : Type) : Type :=
| Ran (answer : A)
| Stuck (why : Fault).
#[global] Arguments Ran {_} answer.
#[global] Arguments Stuck {_} why.

Definition M (A : Type) : Type := World -> Outcome (result MountError A * World).

#[export] Instance m_ret : MRet M := fun A a w => Ran (Ok a, w).

#[export] Instance m_bind : MBind M := fun A B f m w =>
  match m w with
  | Ran (Ok a, w) => f a w
  | Ran (Err e, w) => Ran (Err e, w)
  | Stuck why => Stuck why
  end.

Definition fail {A} (e : MountError) : M A := fun w => Ran (Err e, w).
Definition panic {A} : M A := fun _ => Stuck Panicked.
Definition out_of_fuel {A} : M A := fun _ => Stuck OutOfFuel.
Definition of_result {A} (r : result MountError A) : M A := fun w => Ran (r, w).
Definition of_option {A} (o : option A) : M A := fun w => match o with Some a => Ran (Ok a, w) | None => Stuck Panicked end.
Definition gets {A} (f : World -> A) : M A := fun w => Ran (Ok (f w), w).
Definition modify (f : World -> World) : M unit := fun w => Ran (Ok tt, f w).

(** The answer of a computation as a value, as [let r = ...;] without [?]. *)
Definition try {A} (m : M A) : M (result MountError A) := fun w =>
  match m w with Ran (r, w) => Ran (Ok r, w) | Stuck why => Stuck why end.

Fixpoint for_each {A} (f : A -> M unit) (xs : list A) : M unit :=
  match xs with
  | [] => mret tt
  | x :: xs => _ ← f x; for_each f xs
  end.

Fixpoint collect_each {A B} (f : A -> M B) (xs : list A) : M (list B) :=
  match xs with
  | [] => mret []
  | x :: xs => b ← f x; bs ← collect_each f xs; mret (b :: bs)
  end.
End monad.

(** ** Field updates *)

Section updates.
Context `{Browser}.

Definition set_doc v (w : World) : World :=
  mkWorld v (cleanups w) (scopes w) (slots w) (origins w) (queue w) (observed w) (next_plan w) (next_target w) (notifications w) (running w) (deferred w) (irreversible w) (stable_corrupted w).
Definition set_cleanups v (w : World) : World :=
  mkWorld (doc w) v (scopes w) (slots w) (origins w) (queue w) (observed w) (next_plan w) (next_target w) (notifications w) (running w) (deferred w) (irreversible w) (stable_corrupted w).
Definition set_scopes v (w : World) : World :=
  mkWorld (doc w) (cleanups w) v (slots w) (origins w) (queue w) (observed w) (next_plan w) (next_target w) (notifications w) (running w) (deferred w) (irreversible w) (stable_corrupted w).
Definition set_slots v (w : World) : World :=
  mkWorld (doc w) (cleanups w) (scopes w) v (origins w) (queue w) (observed w) (next_plan w) (next_target w) (notifications w) (running w) (deferred w) (irreversible w) (stable_corrupted w).
Definition set_origins v (w : World) : World :=
  mkWorld (doc w) (cleanups w) (scopes w) (slots w) v (queue w) (observed w) (next_plan w) (next_target w) (notifications w) (running w) (deferred w) (irreversible w) (stable_corrupted w).
Definition set_queue v (w : World) : World :=
  mkWorld (doc w) (cleanups w) (scopes w) (slots w) (origins w) v (observed w) (next_plan w) (next_target w) (notifications w) (running w) (deferred w) (irreversible w) (stable_corrupted w).
Definition set_next_plan v (w : World) : World :=
  mkWorld (doc w) (cleanups w) (scopes w) (slots w) (origins w) (queue w) (observed w) v (next_target w) (notifications w) (running w) (deferred w) (irreversible w) (stable_corrupted w).
Definition set_next_target v (w : World) : World :=
  mkWorld (doc w) (cleanups w) (scopes w) (slots w) (origins w) (queue w) (observed w) (next_plan w) v (notifications w) (running w) (deferred w) (irreversible w) (stable_corrupted w).
Definition set_notifications v (w : World) : World :=
  mkWorld (doc w) (cleanups w) (scopes w) (slots w) (origins w) (queue w) (observed w) (next_plan w) (next_target w) v (running w) (deferred w) (irreversible w) (stable_corrupted w).
Definition set_running v (w : World) : World :=
  mkWorld (doc w) (cleanups w) (scopes w) (slots w) (origins w) (queue w) (observed w) (next_plan w) (next_target w) (notifications w) v (deferred w) (irreversible w) (stable_corrupted w).
Definition set_deferred v (w : World) : World :=
  mkWorld (doc w) (cleanups w) (scopes w) (slots w) (origins w) (queue w) (observed w) (next_plan w) (next_target w) (notifications w) (running w) v (irreversible w) (stable_corrupted w).
Definition set_irreversible v (w : World) : World :=
  mkWorld (doc w) (cleanups w) (scopes w) (slots w) (origins w) (queue w) (observed w) (next_plan w) (next_target w) (notifications w) (running w) (deferred w) v (stable_corrupted w).
Definition set_stable_corrupted v (w : World) : World :=
  mkWorld (doc w) (cleanups w) (scopes w) (slots w) (origins w) (queue w) (observed w) (next_plan w) (next_target w) (notifications w) (running w) (deferred w) (irreversible w) v.
Definition put_range v (c : MountCleanup) : MountCleanup :=
  mkCleanup v (owned_nodes c) (ancestors c) (origin c) (retiring c) (cleaned c) (cleanup_complete c) (report_ownership_mismatch c) (leases c) (holds c).
Definition put_owned_nodes v (c : MountCleanup) : MountCleanup :=
  mkCleanup (range c) v (ancestors c) (origin c) (retiring c) (cleaned c) (cleanup_complete c) (report_ownership_mismatch c) (leases c) (holds c).
Definition put_retiring v (c : MountCleanup) : MountCleanup :=
  mkCleanup (range c) (owned_nodes c) (ancestors c) (origin c) v (cleaned c) (cleanup_complete c) (report_ownership_mismatch c) (leases c) (holds c).
Definition put_cleaned v (c : MountCleanup) : MountCleanup :=
  mkCleanup (range c) (owned_nodes c) (ancestors c) (origin c) (retiring c) v (cleanup_complete c) (report_ownership_mismatch c) (leases c) (holds c).
Definition put_cleanup_complete v (c : MountCleanup) : MountCleanup :=
  mkCleanup (range c) (owned_nodes c) (ancestors c) (origin c) (retiring c) (cleaned c) v (report_ownership_mismatch c) (leases c) (holds c).
Definition put_report_ownership_mismatch v (c : MountCleanup) : MountCleanup :=
  mkCleanup (range c) (owned_nodes c) (ancestors c) (origin c) (retiring c) (cleaned c) (cleanup_complete c) v (leases c) (holds c).
Definition put_leases v (c : MountCleanup) : MountCleanup :=
  mkCleanup (range c) (owned_nodes c) (ancestors c) (origin c) (retiring c) (cleaned c) (cleanup_complete c) (report_ownership_mismatch c) v (holds c).
Definition put_holds v (c : MountCleanup) : MountCleanup :=
  mkCleanup (range c) (owned_nodes c) (ancestors c) (origin c) (retiring c) (cleaned c) (cleanup_complete c) (report_ownership_mismatch c) (leases c) v.

Definition put_slot_state v (e : SlotEffect) : SlotEffect :=
  mkEffect (effect_scope e) (outer_start e) (outer_end e) (effect_origin e) (effect_target e) v.
End updates.

(** ** The error queue *)

Section errors.
Context `{Browser}.

(** [Iterator::position] and [VecDeque::remove] of the first recoverable event. *)
Fixpoint remove_recoverable (es : list ErrorEvent) : option (list ErrorEvent) :=
  match es with
  | [] => None
  | e :: rest => if terminal e then cons e <$> remove_recoverable rest else Some rest
  end.

(** [ErrorSlot::push]. *)
Definition push_event (error : MountError) (is_terminal : bool) (s : ErrorState) : ErrorState :=
  let full := blen (events s) =? MAX_MOUNT_ERROR_EVENTS in
  let '(es, recoverable, terminals) :=
    if full then
      match remove_recoverable (events s) with
      | Some es => (es, saturating_add (dropped_recoverable_events s) 1, dropped_terminal_events s)
      | None => (tail (events s), dropped_recoverable_events s, saturating_add (dropped_terminal_events s) 1)
      end
    else (events s, dropped_recoverable_events s, dropped_terminal_events s) in
  mkErrors (es ++ [mkEvent error is_terminal]) recoverable terminals.

Definition record_error (error : MountError) (w : World) : World := set_queue (push_event error false (queue w)) w.

(** The walk of [record_terminal] up the origins that are still alive. *)
Fixpoint mark_origins (fuel : nat) (error : MountError) (cursor : option OriginId) (os : gmap OriginId ErrorOriginState)
    : gmap OriginId ErrorOriginState :=
  match fuel, cursor with
  | S fuel, Some id =>
      match os !! id with
      | Some o =>
          mark_origins fuel error (origin_parent o)
            (<[id := mkOrigin ((terminal_revision o + 1) mod (u64_max + 1)) (Some error) (origin_parent o)]> os)
      | None => os
      end
  | _, _ => os
  end.

Definition record_terminal (id : OriginId) (error : MountError) (w : World) : World :=
  let w := set_origins (mark_origins (size (origins w)) error (Some id) (origins w)) w in
  set_queue (push_event error true (queue w)) w.

(** [ErrorSlot::last] and [take], whose overflow diagnostic comes after the events. *)
Definition overflow (s : ErrorState) : option MountError :=
  if (dropped_recoverable_events s =? 0) && (dropped_terminal_events s =? 0) then None
  else Some (DiagnosticOverflow (dropped_recoverable_events s) (dropped_terminal_events s)).

Definition last_error (w : World) : option MountError :=
  match last (events (queue w)) with Some e => Some (event_error e) | None => overflow (queue w) end.

Definition take_error (w : World) : option MountError * World :=
  match last (events (queue w)) with
  | Some e =>
      (Some (event_error e),
       set_queue (mkErrors (removelast (events (queue w))) (dropped_recoverable_events (queue w))
                    (dropped_terminal_events (queue w))) w)
  | None => (overflow (queue w), set_queue (mkErrors (events (queue w)) 0 0) w)
  end.

Definition terminal_checkpoint (id : OriginId) (w : World) : N :=
  match origins w !! id with Some o => terminal_revision o | None => 0 end.

Definition terminal_recorded_after (id : OriginId) (checkpoint : N) (w : World) : option MountError :=
  match origins w !! id with
  | Some o => if terminal_revision o =? checkpoint then None else latest_terminal o
  | None => None
  end.
End errors.

(** ** The update protocol of slots *)

Section protocol.
(* what differs between dynamic and keyed slots: the error of a nested run, and the
   wrapper of the cause that poisons *)
Context (reentered : MountError) (poisoned : MountError -> MountError).

Definition begin_update (s : SlotState) : result MountError bool * SlotState :=
  match status s with
  | Ready => (Ok true, mkSlot Updating (content s))
  | Updating => let cause := poisoned reentered in (Err cause, mkSlot (PoisonedSlot cause) (content s))
  | PoisonedSlot _ => (Ok false, s)
  end.

Definition ensure_updating (s : SlotState) : result MountError unit :=
  match status s with
  | Updating => Ok tt
  | PoisonedSlot cause => Err cause
  | Ready => Err reentered
  end.

Definition finish_update (s : SlotState) : result MountError unit * SlotState :=
  match status s with
  | Updating => (Ok tt, mkSlot Ready (content s))
  | PoisonedSlot cause => (Err cause, s)
  | Ready => (Err reentered, s)
  end.

Definition poison (error : MountError) (s : SlotState) : (MountError * bool) * SlotState :=
  match status s with
  | PoisonedSlot cause => ((cause, false), s)
  | _ => let error := poisoned error in ((error, true), mkSlot (PoisonedSlot error) (content s))
  end.

(** The error to report, whether it is terminal, whether it is newly so. *)
Definition fail_update (error : MountError) (irreversible : bool) (s : SlotState) : (MountError * bool * bool) * SlotState :=
  match status s, irreversible with
  | PoisonedSlot cause, _ => ((cause, true, false), s)
  | Updating, false => ((error, false, false), mkSlot Ready (content s))
  | _, _ => let '((error, newly), s) := poison error s in ((error, true, newly), s)
  end.
End protocol.

Definition slot_reentered (c : SlotContent) : MountError :=
  match c with DynamicContent _ => dynamic_update_reentered | KeyedContent _ => keyed_update_reentered end.
Definition slot_poisoned (c : SlotContent) : MountError -> MountError :=
  match c with DynamicContent _ => dynamic_update_poisoned | KeyedContent _ => keyed_update_poisoned end.

(** ** Code outside the framework *)

Section foreign.
Context `{Foreign}.

Definition is_updating (e : SlotEffect) : bool := match status (slot_state e) with Updating => true | _ => false end.

(** The effect of a slot whose update is running runs again: [begin_update] fails,
    the error is recorded, and the nested run returns. Other slots are the business
    of [foreign]. *)
Definition reenter (id : SlotId) (w : World) : World :=
  match slots w !! id with
  | Some e =>
      if is_updating e then
        match begin_update (slot_reentered (content (slot_state e))) (slot_poisoned (content (slot_state e))) (slot_state e) with
        | (Err error, s) => record_terminal (effect_origin e) error (set_slots (<[id := put_slot_state s e]> (slots w)) w)
        | (Ok _, _) => w
        end
      else w
  | None => w
  end.

(** The state of a slot whose update runs, or was poisoned by a nested run, is
    captured by that update alone: other code can only run the effect again. The
    effects that other code runs have ended when it returns. *)
Definition is_private (w : World) (e : SlotEffect) : bool :=
  bool_decide (effect_scope e ∈ running w) && match status (slot_state e) with Ready => false | _ => true end.

Definition at_site (site : Site) (w : World) : World :=
  let w' := foreign site w in
  let w' := set_slots (filter (fun p => is_private w p.2 = true) (slots w) ∪ slots w') w' in
  let w' := set_running (running w) w' in
  let w' := set_irreversible (irreversible w) (set_stable_corrupted (stable_corrupted w) w') in
  fold_left (fun w id => reenter id w) (reenters site w) w'.

Definition run_site (site : Site) : M unit := modify (at_site site).

(** ** Mutating calls *)

(** [dom_error]. *)
Definition dom_error (operation : MountOperation) (subject : string) (detail : chars) : MountError :=
  BrowserError operation (diagnostic (str subject)) (diagnostic detail).

(** A mutation runs the reactions of the custom elements it affects before it
    returns. *)
Definition browser_call (operation : MountOperation) (subject : string) (call : Document -> result chars Document) : M unit :=
  d ← gets doc;
  match call d with
  | Ok d => _ ← modify (set_doc d); run_site Reaction
  | Err detail => fail (dom_error operation subject detail)
  end.

Definition append_child (parent child : Node) (subject : string) : M unit :=
  browser_call AppendNode subject (fun d => node_append_child d parent child).

Definition insert_before (parent child : Node) (before : option Node) (subject : string) : M unit :=
  browser_call InsertRange subject (fun d => node_insert_before d parent child before).

Definition remove_child (parent child : Node) (subject : string) : M unit :=
  browser_call RemoveNode subject (fun d => node_remove_child d parent child).

(** A layout check on the current document. *)
Definition check {A} (f : Document -> result MountError A) : M A := d ← gets doc; of_result (f d).
End foreign.
