(* ===== verification/MountSample.v ===== *)
(** * MountSample: a small browser that obeys the laws ([pliego-dom])

    A concrete instance of [Browser] for evaluating [MountTree] and what builds on it: the
    document is the list of its (child, parent) pairs in tree order, two levels deep.
    Handles are numbers; their remainder by three says whether they are fragments,
    elements, or leaves. It stands for no code of the repository. *)

From S2P Require Import Prelude Reactive DomName Dom MountTree MountState.

Local Open Scope N_scope.

(** The next fresh index, and the pairs. *)
Record Flat : Type := mkFlat { counter : N; pairs : list (N * N) }.

Definition flat_fragment (n : N) : bool := n mod 3 =? 0.
Definition flat_element (n : N) : bool := n mod 3 =? 1.
Definition flat_leaf (n : N) : bool := n mod 3 =? 2.

(** Every child is a leaf of one parent, and indexes from the counter on are unused. *)
Definition flat_pair (c : N) (x : N * N) : bool := flat_leaf x.1 && negb (flat_leaf x.2) && (x.2 <? 3 * c).

Definition flat_valid (d : Flat) : bool :=
  bool_decide (NoDup (fst <$> pairs d)) && forallb (flat_pair (counter d)) (pairs d).

Definition children_in (p : N) (l : list (N * N)) : list N := fst <$> filter (fun x => x.2 = p) l.

Definition flat_children (d : Flat) (p : N) : list N := if flat_valid d then children_in p (pairs d) else [].

Definition flat_parent (d : Flat) (n : N) : option N :=
  if flat_valid d then snd <$> head (filter (fun x => x.1 = n) (pairs d)) else None.

Definition flat_moved (d : Flat) (child : N) : list N := if flat_fragment child then flat_children d child else [child].

(** The moved nodes leave their places and enter before [before]. *)
Fixpoint place_pairs (moved : list (N * N)) (before : option N) (l : list (N * N)) : list (N * N) :=
  match l with
  | [] => moved
  | x :: rest => if bool_decide (before = Some x.1) then moved ++ x :: rest else x :: place_pairs moved before rest
  end.

Definition without_pairs (moved : list N) (l : list (N * N)) : list (N * N) := filter (fun x => x.1 ∉ moved) l.

Definition flat_insert (d : Flat) (p child : N) (before : option N) : result chars Flat :=
  let moved := flat_moved d child in
  if flat_valid d && negb (flat_leaf p) && (flat_leaf child || flat_fragment child && negb (child =? p))
     && match before with Some b => bool_decide (flat_parent d b = Some p) | None => true end
  then
    if match before with Some b => bool_decide (b ∈ moved) | None => false end then Ok d
    else Ok (mkFlat (N.max (counter d) (p + 1)) (place_pairs (map (fun n => (n, p)) moved) before (without_pairs moved (pairs d))))
  else Err [].

Definition flat_remove (d : Flat) (p n : N) : result chars Flat :=
  if bool_decide (flat_parent d n = Some p) then Ok (mkFlat (counter d) (without_pairs [n] (pairs d))) else Err [].

Definition flat_next (kind : N) (d : Flat) : N * Flat :=
  if flat_valid d then (3 * counter d + kind, mkFlat (counter d + 1) (pairs d)) else (kind, d).

#[export] Instance flat_browser : Browser := {
  Document := Flat;
  parent_node := flat_parent;
  next_sibling d n := p ← flat_parent d n; after n (flat_children d p);
  child_nodes := flat_children;
  is_connected d n := match flat_parent d n with Some p => flat_element p | None => flat_element n end;
  is_fragment := flat_fragment;
  is_element := flat_element;
  is_html_element := flat_element;
  namespace_uri _ := Some (str "http://www.w3.org/1999/xhtml");
  local_name _ := str "div";
  node_insert_before := flat_insert;
  node_remove_child := flat_remove;
  create_fragment := flat_next 0;
  create_comment _ := flat_next 2;
  create_text_node _ := flat_next 2;
  create_element _ _ _ := Err [];
  text_data _ _ := [];
  set_text_data _ _ d := d;
  element_set_attribute _ _ _ _ _ := Err [];
  element_get_attribute _ _ _ _ := None;
  add_event_listener d _ _ := Ok d;
  active_element _ := None;
  node_focus d _ := Ok d;
  dispatch_scope_dispose _ _ := Ok tt;
  node_count d := S (length (pairs d));
}.

(** ** The laws *)

Lemma flat_valid_iff d : flat_valid d = true <-> NoDup (fst <$> pairs d) /\ forall x, x ∈ pairs d -> flat_pair (counter d) x = true.
Proof.
  unfold flat_valid. rewrite andb_true_iff, bool_decide_eq_true, forallb_forall.
  split; intros [? Hx]; (split; [done|]); intros x Hin; apply Hx; by apply list_elem_of_In.
Qed.

Lemma elem_of_children_in n p l : n ∈ children_in p l <-> (n, p) ∈ l.
Proof.
  unfold children_in. rewrite list_elem_of_fmap. split.
  - intros ([m q] & -> & Hin). apply list_elem_of_filter in Hin as [<- Hin]. done.
  - intros Hin. exists (n, p). split; [done|]. by apply list_elem_of_filter.
Qed.

Lemma elem_of_flat_children d n p : n ∈ flat_children d p <-> flat_valid d = true /\ (n, p) ∈ pairs d.
Proof. unfold flat_children. destruct (flat_valid d); rewrite ?elem_of_children_in, ?elem_of_nil; naive_solver. Qed.

Lemma flat_parent_iff d n p : flat_parent d n = Some p <-> flat_valid d = true /\ (n, p) ∈ pairs d.
Proof.
  unfold flat_parent. destruct (flat_valid d) eqn:Hv; [|naive_solver]. apply flat_valid_iff in Hv as [Hnd _].
  induction (pairs d) as [|[m q] l IH]; csimpl in *; [by split; [|intros [_ ?%not_elem_of_nil]]|].
  apply NoDup_cons in Hnd as [Hm Hnd]. specialize (IH Hnd). rewrite filter_cons. rewrite elem_of_cons. cbn [fst]. case_decide as Heq.
  - subst m. cbn. split; [intros [= ->]; auto|]. intros [_ [[= ->]|Hin]]; [done|]. destruct Hm. apply list_elem_of_fmap. by exists (n, p).
  - rewrite IH. split; [naive_solver|]. intros [_ [[= -> _]|Hin]]; [done|auto].
Qed.

Lemma flat_parent_child d n p : flat_parent d n = Some p <-> n ∈ flat_children d p.
Proof. by rewrite flat_parent_iff, elem_of_flat_children. Qed.

Lemma flat_children_nodup d p : NoDup (flat_children d p).
Proof.
  unfold flat_children. destruct (flat_valid d) eqn:Hv; [|constructor]. apply flat_valid_iff in Hv as [Hnd _]. unfold children_in.
  induction (pairs d) as [|x l IH]; csimpl in *; [constructor|]. apply NoDup_cons in Hnd as [Hx Hnd]. rewrite filter_cons.
  case_decide; [|by apply IH]. constructor; [|by apply IH]. intros (y & Hy & Hin)%list_elem_of_fmap. apply list_elem_of_filter in Hin as [_ Hin].
  apply Hx, list_elem_of_fmap. by exists y.
Qed.

Lemma pair_parts d n p : (n, p) ∈ pairs d -> flat_valid d = true -> flat_leaf n = true /\ flat_leaf p = false /\ p < 3 * counter d.
Proof.
  intros Hin [_ Hv]%flat_valid_iff. specialize (Hv _ Hin). unfold flat_pair in Hv. cbn in Hv.
  apply andb_true_iff in Hv as [[? ?%negb_true_iff]%andb_true_iff ?%N.ltb_lt]. done.
Qed.

Lemma leaf_kind n : flat_leaf n = true -> flat_fragment n = false /\ flat_element n = false.
Proof. unfold flat_leaf, flat_fragment, flat_element. intros ->%N.eqb_eq. done. Qed.

Lemma root_parent d p : flat_leaf p = false -> flat_parent d p = None.
Proof.
  intros Hp. destruct (flat_parent d p) as [q|] eqn:Hq; [|done]. apply flat_parent_iff in Hq as [Hv Hin].
  destruct (pair_parts _ _ _ Hin Hv) as [? _]. congruence.
Qed.

Lemma place_perm moved before l : place_pairs moved before l ≡ₚ moved ++ l.
Proof.
  induction l as [|x l IH]; cbn [place_pairs]; [by rewrite app_nil_r|]. case_bool_decide; [done|]. rewrite IH. by rewrite Permutation_middle.
Qed.

Lemma children_in_app p l l' : children_in p (l ++ l') = children_in p l ++ children_in p l'.
Proof. unfold children_in. by rewrite filter_app, fmap_app. Qed.

Lemma children_in_without q ms l : children_in q (without_pairs ms l) = without ms (children_in q l).
Proof.
  unfold children_in, without_pairs, without. induction l as [|[n p] l IH]; [done|].
  destruct (decide (p = q)) as [->|Hq], (decide (n ∈ ms)) as [Hn|Hn].
  - rewrite filter_cons_False, (filter_cons_True _ (n, q) l) by (cbn; tauto). csimpl. rewrite filter_cons_False by tauto. done.
  - rewrite filter_cons_True, filter_cons_True, (filter_cons_True _ (n, q) l) by (cbn; tauto). csimpl. rewrite filter_cons_True by tauto. by rewrite IH.
  - rewrite filter_cons_False, (filter_cons_False _ (n, p) l) by (cbn; tauto). done.
  - rewrite filter_cons_True, filter_cons_False, (filter_cons_False _ (n, p) l) by (cbn; tauto). done.
Qed.

(** The children after a placement, when [before] is a child of [p]. *)
Lemma children_in_moved q p ns : children_in q (map (fun n => (n, p)) ns) = if bool_decide (q = p) then ns else [].
Proof.
  unfold children_in. induction ns as [|n ns IH]; cbn [map]; [by case_bool_decide|].
  destruct (decide (q = p)) as [->|Hq].
  - rewrite filter_cons_True by done. rewrite fmap_cons, IH, bool_decide_eq_true_2 by done. done.
  - rewrite filter_cons_False by (cbn; congruence). rewrite IH, !bool_decide_eq_false_2 by done. done.
Qed.

Lemma children_in_place q p ns before l :
  (forall b, before = Some b -> NoDup (fst <$> l) /\ (b, p) ∈ l) ->
  children_in q (place_pairs (map (fun n => (n, p)) ns) before l)
    = if bool_decide (q = p) then place ns before (children_in q l) else children_in q l.
Proof.
  induction l as [|[n r] l IH]; intros Hb; cbn [place_pairs].
  - rewrite children_in_moved. case_bool_decide; done.
  - assert (Hcons : forall l', children_in q ((n, r) :: l') = (if bool_decide (r = q) then [n] else []) ++ children_in q l').
    { intros l'. unfold children_in. destruct (decide (r = q)) as [->|].
      - by rewrite filter_cons_True, bool_decide_eq_true_2 by done.
      - by rewrite filter_cons_False, bool_decide_eq_false_2 by done. }
    cbn [fst]. destruct (decide (before = Some n)) as [Hbn|Hbn].
    + rewrite bool_decide_eq_true_2 by done. destruct (Hb n Hbn) as [Hnd Hin]. csimpl in Hnd. apply NoDup_cons in Hnd as [Hn Hnd].
      assert (r = p) as ->. { apply elem_of_cons in Hin as [[= ->]|Hin]; [done|]. destruct Hn. apply list_elem_of_fmap. by exists (n, p). }
      rewrite children_in_app, children_in_moved, Hcons. destruct (decide (q = p)) as [->|Hq].
      * rewrite !bool_decide_eq_true_2 by done. cbn. by rewrite bool_decide_eq_true_2.
      * by rewrite !bool_decide_eq_false_2 by congruence.
    + rewrite bool_decide_eq_false_2 by done. rewrite !Hcons, IH.
      * destruct (decide (q = p)) as [->|Hq]; [|by rewrite (bool_decide_eq_false_2 (q = p)) by done].
        rewrite (bool_decide_eq_true_2 (p = p)) by done. destruct (decide (r = p)) as [->|Hr]; [|by rewrite bool_decide_eq_false_2 by done].
        rewrite bool_decide_eq_true_2 by done. cbn. by rewrite bool_decide_eq_false_2 by done.
      * intros b Hbb. destruct (Hb b Hbb) as [Hnd Hin]. csimpl in Hnd. apply NoDup_cons in Hnd as [_ Hnd]. split; [done|].
        apply elem_of_cons in Hin as [[= -> ->]|Hin]; [done|done].
Qed.

(** *** Validity of what the operations answer *)

Lemma without_pairs_nodup ms l : NoDup (fst <$> l) -> NoDup (fst <$> without_pairs ms l).
Proof. intros Hnd. eapply sublist_NoDup; [exact Hnd|]. apply fmap_sublist, sublist_filter. Qed.

Lemma elem_of_without_pairs x ms l : x ∈ without_pairs ms l <-> x ∈ l /\ x.1 ∉ ms.
Proof. unfold without_pairs. rewrite list_elem_of_filter. tauto. Qed.

Lemma flat_pair_mono c c' x : c <= c' -> flat_pair c x = true -> flat_pair c' x = true.
Proof.
  unfold flat_pair. intros Hc [[-> ->]%andb_true_iff ?%N.ltb_lt]%andb_true_iff. cbn. apply N.ltb_lt. lia.
Qed.

Lemma remove_valid d ms : flat_valid d = true -> flat_valid (mkFlat (counter d) (without_pairs ms (pairs d))) = true.
Proof.
  intros [Hnd Hx]%flat_valid_iff. apply flat_valid_iff. cbn. split; [by apply without_pairs_nodup|].
  intros x [Hin _]%elem_of_without_pairs. by apply Hx.
Qed.

Lemma insert_valid d p ms before :
  flat_valid d = true -> flat_leaf p = false -> NoDup ms -> (forall n, n ∈ ms -> flat_leaf n = true) ->
  flat_valid (mkFlat (N.max (counter d) (p + 1)) (place_pairs (map (fun n => (n, p)) ms) before (without_pairs ms (pairs d)))) = true.
Proof.
  intros [Hnd Hx]%flat_valid_iff Hp Hms Hleaf. apply flat_valid_iff. cbn. split.
  - rewrite place_perm, fmap_app, <- list_fmap_compose. apply NoDup_app. split_and!.
    + by rewrite (list_fmap_ext _ id), list_fmap_id.
    + rewrite (list_fmap_ext _ id), list_fmap_id by done. intros n Hn (x & -> & Hin)%list_elem_of_fmap.
      apply elem_of_without_pairs in Hin as [_ Hin]. done.
    + by apply without_pairs_nodup.
  - intros x. rewrite place_perm, elem_of_app. intros [Hin|[Hin _]%elem_of_without_pairs].
    + apply list_elem_of_fmap in Hin as (n & -> & Hn). unfold flat_pair. cbn. rewrite (Hleaf n Hn), Hp. cbn. apply N.ltb_lt. lia.
    + eapply flat_pair_mono, Hx, Hin. lia.
Qed.

(** *** Insertion *)

Definition insert_result (d : Flat) (p : N) (ms : list N) (before : option N) : Flat :=
  mkFlat (N.max (counter d) (p + 1)) (place_pairs (map (fun n => (n, p)) ms) before (without_pairs ms (pairs d))).

Lemma flat_insert_ok d p child before d' :
  flat_insert d p child before = Ok d' ->
  flat_valid d = true /\ flat_leaf p = false /\ (flat_leaf child = true \/ flat_fragment child = true)
  /\ (forall b, before = Some b -> flat_parent d b = Some p)
  /\ (d' = d /\ (exists b, before = Some b /\ b ∈ flat_moved d child) \/ d' = insert_result d p (flat_moved d child) before).
Proof.
  unfold flat_insert. destruct (_ && _) eqn:Hg; [|done]. apply andb_true_iff in Hg as [[[Hv Hp%negb_true_iff]%andb_true_iff Hc]%andb_true_iff Hb].
  assert (Hkind : flat_leaf child = true \/ flat_fragment child = true) by (apply orb_true_iff in Hc as [|[? _]%andb_true_iff]; auto).
  destruct before as [b|].
  - apply bool_decide_eq_true in Hb. case_bool_decide as Hin; intros [= <-]; split_and!; try done; try (by intros ? [= <-]).
    + left. split; [done|]. by exists b.
    + by right.
  - intros [= <-]. split_and!; try done. by right.
Qed.

Lemma moved_leaves d child :
  flat_leaf child = true \/ flat_fragment child = true ->
  NoDup (flat_moved d child) /\ forall n, n ∈ flat_moved d child -> flat_leaf n = true.
Proof.
  unfold flat_moved. intros Hc. destruct (flat_fragment child) eqn:Hf.
  - split; [apply flat_children_nodup|]. intros n [Hv Hin]%elem_of_flat_children. by apply (pair_parts d n child).
  - split; [apply NoDup_singleton|]. intros n ->%list_elem_of_singleton. by destruct Hc.
Qed.

Lemma insert_result_children d p ms before q :
  flat_valid d = true -> flat_leaf p = false -> NoDup ms -> (forall n, n ∈ ms -> flat_leaf n = true) ->
  (forall b, before = Some b -> flat_parent d b = Some p /\ b ∉ ms) ->
  flat_children (insert_result d p ms before) q
    = if bool_decide (q = p) then place ms before (without ms (flat_children d q)) else without ms (flat_children d q).
Proof.
  intros Hv Hp Hms Hleaf Hb. unfold flat_children. rewrite Hv. unfold insert_result. rewrite insert_valid by done. cbn [pairs].
  rewrite children_in_place, children_in_without; [done|]. intros b Hbb. destruct (Hb b Hbb) as [Hpar Hnot]. split.
  - apply without_pairs_nodup. by apply flat_valid_iff in Hv as [? _].
  - apply elem_of_without_pairs. split; [by apply flat_parent_iff in Hpar as [_ ?]|done].
Qed.

Lemma lineage_root d a p : flat_leaf p = false -> in_lineage d a p <-> a = p.
Proof.
  intros Hp. split; [|intros ->; constructor]. intros Hl. inversion Hl as [|n q Hpar]; [done|]. subst.
  change (flat_parent d p = Some q) in Hpar. by rewrite root_parent in Hpar.
Qed.

Lemma insert_accepted d p child before :
  flat_valid d = true -> flat_leaf p = false -> flat_leaf child || flat_fragment child && negb (child =? p) = true ->
  (forall b, before = Some b -> flat_parent d b = Some p) -> is_ok (flat_insert d p child before) = true.
Proof.
  intros Hv Hp Hc Hb. unfold flat_insert. rewrite Hv, Hp, Hc. destruct before as [b|]; [|done].
  rewrite (bool_decide_eq_true_2 (_ = Some p)) by (by apply Hb). by destruct (bool_decide _).
Qed.

Lemma parent_valid d n p : flat_parent d n = Some p -> flat_valid d = true /\ flat_leaf n = true /\ flat_leaf p = false.
Proof. intros [Hv Hin]%flat_parent_iff. destruct (pair_parts _ _ _ Hin Hv) as (? & ? & _). done. Qed.

Lemma remove_children d p n :
  flat_parent d n = Some p ->
  forall q, flat_children (mkFlat (counter d) (without_pairs [n] (pairs d))) q = without [n] (flat_children d q).
Proof.
  intros (Hv & _)%parent_valid q. unfold flat_children. rewrite Hv, remove_valid by done. apply children_in_without.
Qed.

Lemma fresh_fragment d :
  flat_fragment (flat_next 0 d).1 = true /\ flat_children d (flat_next 0 d).1 = []
  /\ forall q, flat_children (flat_next 0 d).2 q = flat_children d q.
Proof.
  unfold flat_next. destruct (flat_valid d) eqn:Hv; cbn [fst snd].
  - rewrite N.add_0_r. split_and!.
    + unfold flat_fragment. apply N.eqb_eq. rewrite N.mul_comm. by apply N.Div0.mod_mul.
    + destruct (flat_children d (3 * counter d)) as [|n l] eqn:Hl; [done|]. assert (Hin : n ∈ flat_children d (3 * counter d)) by (rewrite Hl; left).
      apply elem_of_flat_children in Hin as [_ Hin]. destruct (pair_parts _ _ _ Hin Hv) as (_ & _ & ?). lia.
    + intros q. unfold flat_children. rewrite Hv. assert (flat_valid (mkFlat (counter d + 1) (pairs d)) = true) as ->; [|done].
      apply flat_valid_iff in Hv as [Hnd Hx]. apply flat_valid_iff. split; [done|]. intros x Hin. eapply flat_pair_mono, Hx, Hin. cbn. lia.
  - unfold flat_children. by rewrite Hv.
Qed.

#[export] Instance flat_laws : BrowserLaws.
Proof.
  split; cbn -[flat_next].
  - apply flat_children_nodup.
  - apply flat_parent_child.
  - by intros d n p ->.
  - by intros d n ->.
  - intros d p n before d' (Hv & Hp & Hk & Hb & [[-> (b & Hbb & Hin)]| ->])%flat_insert_ok Hnot q; [by destruct (Hnot b Hbb)|].
    destruct (moved_leaves d n Hk) as [Hnd Hleaf]. apply insert_result_children; auto.
  - intros d p n before d' q (_ & Hp & _)%flat_insert_ok. by rewrite !lineage_root.
  - intros d p n before (b & -> & Hb). destruct (flat_insert d p n (Some b)) as [d'|] eqn:Hi; [|done].
    apply flat_insert_ok in Hi as (_ & _ & _ & Hi & _). by destruct Hb, (Hi b eq_refl).
  - intros d p n b (Hv & Hn & Hp)%parent_valid Hb. apply insert_accepted; [done|done|by rewrite Hn|by intros ? [= <-]].
  - intros d p f b Hf Hb _ Hl. destruct (parent_valid _ _ _ Hb) as (Hv & _ & Hp). apply insert_accepted; [done|done| |by intros ? [= <-]].
    rewrite Hf. assert (f <> p) by (intros ->; by apply (Hl p); constructor). apply orb_true_iff. right. cbn. by apply negb_true_iff, N.eqb_neq.
  - intros d f n p Hf _ (Hv & Hn & _)%parent_valid Hne. apply insert_accepted; [done| |by rewrite Hn|done].
    destruct (flat_leaf f) eqn:Hl; [|done]. apply leaf_kind in Hl as [? _]. congruence.
  - intros d p n Hp. unfold flat_remove. rewrite bool_decide_eq_true_2 by done. eexists. split; [done|]. by apply (remove_children d p).
  - intros d p n Hp. unfold flat_remove. by rewrite bool_decide_eq_false_2.
  - intros d f Hf. apply root_parent. destruct (flat_leaf f) eqn:Hl; [|done]. apply leaf_kind in Hl as [? _]. congruence.
  - apply fresh_fragment.
Qed.

(** ** Nothing else happens *)

(** No code outside the framework does anything. *)
#[export] Instance silent : Foreign := {
  foreign _ w := w;
  reenters _ _ := [];
  commit_context _ := mkContext None None;
}.

(** The element 1 with a keyed slot between its children 2 and 5, which has one row of
    three nodes; the fragment 12 holds a staged row. *)
Definition sample_document : Flat := mkFlat 10 [(2, 1); (8, 1); (11, 1); (14, 1); (5, 1); (17, 12); (20, 12)].

Definition sample_world (d : Flat) (observing : bool) : World :=
  mkWorld d ∅ ∅ ∅ ∅ (mkErrors [] 0 0) observing 1 1 [] [] [] false false.
