(* ===== verification/MountLayout.v ===== *)
(** * MountLayout: the layout checks decide the layout ([pliego-dom])

    Theorems on the walks over siblings of [MountTree], in a tree that follows the
    DOM standard: a layout check succeeds exactly when the children of one parent hold,
    from marker to marker, the expected nodes and nothing else. *)

From S2P Require Import Prelude Reactive DomName Dom MountTree MountState MountSample.

Local Open Scope string_scope.
Local Open Scope N_scope.

(** A row starts and ends with its markers. *)
Definition row_delimited (s : OwnedRangeSnapshot) : Prop := delimited_by (start s) (end_ s) (nodes s) = true.

Lemma delimited_inv s e ns : delimited_by s e ns = true <-> head ns = Some s /\ last ns = Some e.
Proof. unfold delimited_by. by rewrite andb_true_iff, !bool_decide_eq_true. Qed.

Lemma row_delimited_head s : row_delimited s -> head (nodes s) = Some (start s).
Proof. by intros [Hh _]%delimited_inv. Qed.

(** The layout of a slot: its markers and its rows, in the children of the parent. *)
Definition slot_layout `{Browser} (d : Document) (p os oe : Node) (before after : list Node) (rows : list OwnedRangeSnapshot) : Prop :=
  child_nodes d p = (before ++ os :: concat (map nodes rows) ++ oe :: after)%list /\ Forall row_delimited rows.

Section layout.
Context `{Browser, !BrowserLaws}.

(** [rest] follows [n] among its siblings. *)
Fixpoint linked (d : Document) (n : Node) (rest : list Node) : Prop :=
  match rest with [] => True | m :: rest => next_sibling d n = Some m /\ linked d m rest end.

Lemma after_split xs n ys : n ∉ xs -> after n (xs ++ n :: ys) = head ys.
Proof.
  induction xs as [|x xs IH]; intros Hn; cbn; [by rewrite bool_decide_eq_true_2|].
  rewrite bool_decide_eq_false_2 by set_solver. apply IH. set_solver.
Qed.

Lemma next_sibling_split d p xs n ys : child_nodes d p = (xs ++ n :: ys)%list -> next_sibling d n = head ys.
Proof.
  intros Hc. pose proof (children_nodup d p) as Hnd. rewrite Hc in Hnd. apply NoDup_app in Hnd as (_ & Hnd & _).
  rewrite (sibling_after d n p), Hc; [apply after_split|].
  - intros Hx. apply (Hnd n Hx). left.
  - apply parent_child. rewrite Hc. set_solver.
Qed.

Lemma linked_split d p rest : forall xs n ys,
  child_nodes d p = (xs ++ n :: ys)%list -> linked d n rest <-> exists zs, ys = (rest ++ zs)%list.
Proof.
  induction rest as [|m rest IH]; intros xs n ys Hc; cbn; [split; [by exists ys|done]|].
  rewrite (next_sibling_split _ _ _ _ _ Hc). split.
  - intros [Hm Hl]. destruct ys as [|m' ys]; [done|]. injection Hm as ->.
    apply (IH (xs ++ [n])%list m ys) in Hl as [zs ->]; [by exists zs|]. rewrite Hc. by rewrite <- app_assoc.
  - intros [zs ->]. split; [done|]. apply (IH (xs ++ [n])%list m (rest ++ zs)%list); [|by exists zs]. rewrite Hc. by rewrite <- app_assoc.
Qed.

Lemma linked_app d n xs ys : linked d n (xs ++ ys) <-> linked d n xs /\ linked d (default n (last xs)) ys.
Proof.
  revert n. induction xs as [|x xs IH]; intros n; cbn; [tauto|]. rewrite IH.
  assert (default n (last (x :: xs)) = default x (last xs)) as ->; [|tauto].
  rewrite last_cons. by destruct (last xs).
Qed.

Lemma match_sequence_linked d n rest label : match_sequence d (Some n) (n :: rest) label = Ok tt <-> linked d n rest.
Proof.
  revert n. induction rest as [|m rest IH]; intros n; cbn in *; rewrite bool_decide_eq_true_2 by done; cbn; [done|].
  destruct (next_sibling d n) as [m'|]; cbn; [|split; [done|by intros []]].
  destruct (decide (m' = m)) as [->|Hne].
  - specialize (IH m). cbn in IH. rewrite bool_decide_eq_true_2 in IH |- * by done. cbn in *. rewrite IH. tauto.
  - rewrite bool_decide_eq_false_2 by done. cbn. split; [done|]. by intros [[= ] _].
Qed.

Lemma reach_end_ok d p e label mid : forall fuel xs n ys,
  child_nodes d p = (xs ++ n :: ys)%list -> (exists zs, n :: ys = (mid ++ e :: zs)%list) -> (length mid <= fuel)%nat ->
  reach_end fuel d n e label = Ok tt.
Proof.
  induction mid as [|m mid IH]; intros fuel xs n ys Hc [zs Heq] Hf; cbn in Heq, Hf.
  { injection Heq as -> _. destruct fuel; cbn; by rewrite bool_decide_eq_true_2. }
  injection Heq as -> ->. destruct fuel as [|fuel]; [lia|]. cbn. case_bool_decide; [done|].
  rewrite (next_sibling_split _ _ _ _ _ Hc). destruct (mid ++ e :: zs)%list as [|n' ys'] eqn:Hmid; [by destruct mid|]. cbn.
  apply (IH fuel (xs ++ [m])%list n' ys'); [rewrite Hc; by rewrite <- app_assoc|exists zs; by rewrite <- Hmid|lia].
Qed.

(** Two markers in order under one parent. *)
Lemma boundary_ok d p xs s ys e zs label :
  child_nodes d p = (xs ++ s :: ys ++ e :: zs)%list -> validate_boundary_range d s e label = Ok p.
Proof.
  intros Hc. unfold validate_boundary_range.
  assert (parent_node d s = Some p) as -> by (apply parent_child; rewrite Hc; set_solver).
  assert (parent_node d e = Some p) as -> by (apply parent_child; rewrite Hc; set_solver).
  rewrite bool_decide_eq_true_2 by done. cbn.
  rewrite (reach_end_ok d p e label (s :: ys) _ xs s (ys ++ e :: zs)); [done|done|by exists zs|].
  rewrite Hc, !length_app. cbn. rewrite length_app. cbn. lia.
Qed.

Lemma boundary_self d p xs s zs label : child_nodes d p = (xs ++ s :: zs)%list -> validate_boundary_range d s s label = Ok p.
Proof.
  intros Hc. unfold validate_boundary_range.
  assert (parent_node d s = Some p) as -> by (apply parent_child; rewrite Hc; set_solver).
  rewrite bool_decide_eq_true_2 by done. cbn. destruct (length _); cbn; by rewrite bool_decide_eq_true_2.
Qed.

Lemma boundary_parent d s e label p : validate_boundary_range d s e label = Ok p -> s ∈ child_nodes d p.
Proof.
  unfold validate_boundary_range. destruct (parent_node d s) as [q|] eqn:Hq; [|done].
  destruct (bool_decide _); cbn; [|done]. destruct (reach_end _ _ _ _ _); cbn; [|done].
  intros [= ->]. by apply parent_child.
Qed.

(** A node sequence is validated exactly when it is a run of siblings. *)
Lemma node_sequence_ok d p xs ys s e ns label :
  child_nodes d p = (xs ++ ns ++ ys)%list -> delimited_by s e ns = true ->
  validate_node_sequence d s e ns label = Ok tt.
Proof.
  intros Hc Hd. unfold validate_node_sequence. rewrite Hd. apply delimited_inv in Hd as [Hh Hl].
  destruct ns as [|n rest]; [done|]. cbn in Hh. injection Hh as ->.
  assert (Hb : validate_boundary_range d s e label = Ok p).
  { destruct rest as [|r rest _] using rev_ind; cbn in Hl.
    - injection Hl as ->. by eapply boundary_self.
    - rewrite app_comm_cons, last_snoc in Hl. injection Hl as ->. eapply (boundary_ok d p xs s rest e ys). rewrite Hc. cbn.
      by rewrite <- app_assoc. }
  rewrite Hb. cbn -[match_sequence]. apply match_sequence_linked, (linked_split d p rest xs s (rest ++ ys)); [done|by exists ys].
Qed.

Lemma node_sequence_inv d s e ns label :
  validate_node_sequence d s e ns label = Ok tt -> delimited_by s e ns = true /\ exists rest, ns = s :: rest /\ linked d s rest.
Proof.
  unfold validate_node_sequence. destruct (validate_boundary_range d s e label) as [p|]; cbn -[match_sequence]; [|done].
  destruct (delimited_by s e ns) eqn:Hd; cbn -[match_sequence]; [|done]. intros Hm. split; [done|].
  apply delimited_inv in Hd as [Hh _]. destruct ns as [|n rest]; [done|]. injection Hh as ->. exists rest.
  split; [done|]. by apply match_sequence_linked in Hm.
Qed.

Lemma match_segments_inv d oe label segment_label rows : forall n,
  match_segments d (next_sibling d n) rows oe label segment_label = Ok tt ->
  Forall row_delimited rows /\ linked d n (concat (map nodes rows) ++ [oe]).
Proof.
  induction rows as [|row rows IH]; intros n; cbn [match_segments map concat app].
  { destruct (bool_decide (next_sibling d n = Some oe)) eqn:Hb; [|done]. apply bool_decide_eq_true in Hb. by cbn. }
  destruct (validate_node_sequence d (start row) (end_ row) (nodes row) segment_label) as [[]|] eqn:Hs; cbn; [|done].
  apply node_sequence_inv in Hs as (Hd & rest & Hrest & Hl). rewrite Hrest. cbn.
  destruct (bool_decide (next_sibling d n = Some (start row))) eqn:Hc; cbn; [|done]. apply bool_decide_eq_true in Hc.
  intros [Hf Hlinked]%IH. split; [by constructor|]. split; [done|]. rewrite <- app_assoc. apply linked_app. split; [done|].
  apply delimited_inv in Hd as [_ Hlast]. rewrite Hrest, last_cons in Hlast.
  assert (default (start row) (last rest) = end_ row) as ->; [|done]. destruct (last rest); cbn in *; congruence.
Qed.

Lemma match_segments_ok d p oe label segment_label rows : forall xs n ys,
  child_nodes d p = (xs ++ n :: concat (map nodes rows) ++ oe :: ys)%list -> Forall row_delimited rows ->
  match_segments d (next_sibling d n) rows oe label segment_label = Ok tt.
Proof.
  induction rows as [|row rows IH]; intros xs n ys Hc Hrows; cbn [match_segments].
  { rewrite (next_sibling_split _ _ _ _ _ Hc). by rewrite bool_decide_eq_true_2. }
  apply Forall_cons in Hrows as [Hd Hrows]. cbn [map concat] in Hc. rewrite <- app_assoc in Hc.
  rewrite (node_sequence_ok d p (xs ++ [n]) (concat (map nodes rows) ++ oe :: ys)); [|by rewrite Hc, <- app_assoc|done].
  rewrite (next_sibling_split _ _ _ _ _ Hc). apply delimited_inv in Hd as [Hh Hl].
  destruct (nodes row) as [|m rest] eqn:Hn; [done|]. cbn. rewrite bool_decide_eq_true_2 by done. cbn.
  destruct rest as [|r rest _] using rev_ind.
  - cbn in *. simplify_eq. apply (IH (xs ++ [n])%list (end_ row) ys); [|done]. rewrite Hc. cbn. by rewrite <- app_assoc.
  - rewrite app_comm_cons, last_snoc in Hl. simplify_eq. apply (IH (xs ++ n :: m :: rest)%list (end_ row) ys); [|done].
    rewrite Hc. cbn. by rewrite <- !app_assoc.
Qed.

(** Both layout checks are this one, with their labels. *)
Lemma segments_exact d os oe rows outer label segment_label :
  (_ ← validate_boundary_range d os oe outer; match_segments d (next_sibling d os) rows oe label segment_label) = Ok tt
  <-> exists p before after, slot_layout d p os oe before after rows.
Proof.
  split.
  - destruct (validate_boundary_range d os oe outer) as [p|] eqn:Hb; cbn; [|done]. intros [Hf Hl]%match_segments_inv.
    apply boundary_parent in Hb. apply list_elem_of_split in Hb as (xs & ys & Hc).
    apply (linked_split d p _ xs os ys Hc) in Hl as [zs ->]. exists p, xs, zs. split; [|done]. rewrite Hc. by rewrite <- app_assoc.
  - intros (p & xs & ys & Hc & Hf). rewrite (boundary_ok _ _ _ _ _ _ _ _ Hc). cbn. by eapply match_segments_ok.
Qed.

Lemma keyed_layout_ok d p os oe before after rows :
  slot_layout d p os oe before after rows -> validate_keyed_layout d os oe rows = Ok tt.
Proof. intros Hl. apply segments_exact. by exists p, before, after. Qed.
End layout.

(** A slot is found valid exactly when one parent's children hold its opening
    marker, the nodes of its rows in order and its closing marker, with nothing in
    between; the checks of keyed and of dynamic slots agree. *)
Theorem layout_checks_exact `{Browser, !BrowserLaws} d os oe rows :
  (validate_keyed_layout d os oe rows = Ok tt <-> exists p before after, slot_layout d p os oe before after rows)
  /\ (validate_dynamic_layout d os oe rows = Ok tt <-> exists p before after, slot_layout d p os oe before after rows).
Proof. split; apply segments_exact. Qed.

(** The row of the sample document is where its slot says. *)
Lemma layout_checks_exact_witness :
  validate_keyed_layout sample_document 2 5 [mkSnapshot 8 14 [8; 11; 14]] = Ok tt
  /\ exists p before after, slot_layout sample_document p 2 5 before after [mkSnapshot 8 14 [8; 11; 14]].
Proof.
  assert (Hv : validate_keyed_layout sample_document 2 5 [mkSnapshot 8 14 [8; 11; 14]] = Ok tt) by reflexivity.
  split; [exact Hv|]. apply (proj1 (@layout_checks_exact flat_browser _ sample_document 2 5 [mkSnapshot 8 14 [8; 11; 14]])), Hv.
Defined.
