(* ===== verification/MountScope.v ===== *)
(** * MountScope: ownership and disposal of mounted ranges ([pliego-dom])

    Models [MountCleanup], [MountCleanupLease], the topology transaction and
    [MountScope] of [crates/pliego-dom/src/mount.rs]: what a scope owns, how an update
    plans and commits the new sequence of nodes of every enclosing scope, and how the
    nodes of a scope leave the document when its last lease is dropped.

    The owner of a scope ([pliego_reactive::Owner]) is what disposal needs of it: the
    cleanups it runs, the slot effects it retires from the newest to the oldest, the
    sentinel it retires last, and the deferral of its disposal while one of its own
    effects runs. *)

From S2P Require Import Prelude Reactive DomName Dom MountTree MountState.

Local Open Scope string_scope.
Local Open Scope N_scope.

(** [slice::iter().position(..)]. *)
Fixpoint index_of (n : Node) (ns : list Node) : option nat :=
  match ns with
  | [] => None
  | m :: ns => if bool_decide (m = n) then Some O else S <$> index_of n ns
  end.

(** [windows(len).position(..)]. *)
Fixpoint find_window (window ns : list Node) : option nat :=
  if bool_decide (take (length window) ns = window) then Some O
  else match ns with [] => None | _ :: ns => S <$> find_window window ns end.

Definition strong_count (c : MountCleanup) : N := leases c + holds c.

Section cleanup_state.
Context `{Browser}.

(** ** What a cleanup owns *)

Definition range_exact (d : Document) (r : DomRange) : result MountError unit :=
  validate_node_sequence d (range_start r) (range_end r) (owned_top_level r) (range_label r).

Definition range_nodes_present (d : Document) (r : DomRange) : result MountError unit :=
  owned_nodes_present d (range_start r) (range_end r) (owned_top_level r) (range_label r).

Definition range_snapshot (r : DomRange) : OwnedRangeSnapshot :=
  mkSnapshot (range_start r) (range_end r) (owned_top_level r).

Definition attached_range (c : MountCleanup) : result MountError DomRange :=
  ok_or (structure BoundaryDetached "mount range") (range c).

Definition validate_registered_nodes (d : Document) (c : MountCleanup) (ns : list Node) : result MountError unit :=
  fail_if negb (nodes_are_covered_by_topology d (owned_nodes c) ns) with ownership_mismatch "registered mount nodes";;
  Ok tt.

Definition validate_exact (d : Document) (c : MountCleanup) : result MountError unit :=
  r ← attached_range c;
  _ ← range_exact d r;
  validate_registered_nodes d c (owned_top_level r).

Definition validate_if_attached (d : Document) (c : MountCleanup) : result MountError unit :=
  match range c with
  | Some r => _ ← range_exact d r; validate_registered_nodes d c (owned_top_level r)
  | None => Ok tt
  end.

Definition validate_owned_nodes_present (d : Document) (c : MountCleanup) : result MountError unit :=
  r ← attached_range c;
  _ ← range_nodes_present d r;
  validate_registered_nodes d c (owned_top_level r).

(** ** Planning a replacement *)

Record DynamicTopologyPlan : Type := mkTopology { before_retire : list Node; after_retire : list Node }.

(** [DynamicTopologyTransaction]: the enclosing scopes with their plans. *)
Definition Topology : Type := list (ScopeId * option DynamicTopologyPlan).

(** The indexes of the markers in the flat sequence of an enclosing range, if they
    are at its top level. *)
Definition marker_indexes (outer_start outer_end : Node) (owned : list Node) (label : string)
    : result MountError (option (nat * nat)) :=
  match index_of outer_start owned, index_of outer_end owned with
  | Some i, Some j => fail_if (j <=? i)%nat with ownership_mismatch label;; Ok (Some (i, j))
  | None, None => Ok None
  | _, _ => Err (ownership_mismatch label)
  end.

Definition plan_dynamic_replacement (d : Document) (outer_start outer_end : Node) (candidate : OwnedRangeSnapshot)
    (c : MountCleanup) : result MountError (option DynamicTopologyPlan) :=
  match range c with
  | None => Ok None
  | Some r =>
      _ ← range_exact d r;
      indexes ← marker_indexes outer_start outer_end (owned_top_level r) "parent dynamic slot";
      let owned := owned_top_level r in
      Ok (match indexes with
          | None => None
          | Some (i, j) => Some (mkTopology (take j owned ++ nodes candidate ++ drop j owned)
                                            (take (S i) owned ++ nodes candidate ++ drop j owned))
          end)
  end.

Definition plan_keyed_replacement (d : Document) (outer_start outer_end : Node) (target_nodes : list Node)
    (c : MountCleanup) : result MountError (option DynamicTopologyPlan) :=
  match range c with
  | None => Ok None
  | Some r =>
      _ ← range_exact d r;
      indexes ← marker_indexes outer_start outer_end (owned_top_level r) "parent keyed slot";
      let owned := owned_top_level r in
      Ok (match indexes with
          | None => None
          | Some (i, j) => Some (mkTopology owned (take (S i) owned ++ target_nodes ++ drop j owned))
          end)
  end.

Definition validate_expected (d : Document) (expected : list Node) (c : MountCleanup) : result MountError unit :=
  r ← attached_range c;
  _ ← validate_node_sequence d (range_start r) (range_end r) expected (range_label r);
  validate_registered_nodes d c expected.

Definition replace_nodes (expected : list Node) (c : MountCleanup) : MountCleanup :=
  match range c with
  | Some r => put_range (Some (mkRange (range_start r) (range_end r) expected (range_label r))) c
  | None => c
  end.

(** ** Forgetting what is retired *)

Definition forget_descendant_range (descendant : OwnedRangeSnapshot) (c : MountCleanup) : MountCleanup :=
  match nodes descendant, range c with
  | [], _ | _, None => c
  | window, Some r =>
      match find_window window (owned_top_level r) with
      | Some i => replace_nodes (take i (owned_top_level r) ++ drop (i + length window) (owned_top_level r)) c
      | None => c
      end
  end.

Definition forget_dynamic_slot_topology (outer_start outer_end : Node) (c : MountCleanup) : MountCleanup :=
  match range c with
  | Some r =>
      match index_of outer_start (owned_top_level r), index_of outer_end (owned_top_level r) with
      | Some i, Some j =>
          if (i <=? j)%nat then replace_nodes (take i (owned_top_level r) ++ drop (S j) (owned_top_level r)) c else c
      | _, _ => c
      end
  | None => c
  end.

Definition forget_dynamic_boundary_registry (outer_start outer_end : Node) (c : MountCleanup) : MountCleanup :=
  put_owned_nodes (without [outer_start; outer_end] (owned_nodes c)) c.

(** [covers_cleanup]: the range of [c] holds the descendant's, flattened or inside
    one of its nodes, and the descendant's registered nodes. *)
Definition covers_cleanup (d : Document) (descendant : DomRange) (owned : list Node) (c : MountCleanup) : bool :=
  match range c with
  | None => false
  | Some r =>
      is_ok (range_exact d r)
      && (match owned_top_level descendant with
          | first :: _ =>
              match index_of first (owned_top_level r) with
              | Some i => bool_decide (take (length (owned_top_level descendant)) (drop i (owned_top_level r))
                                       = owned_top_level descendant)
              | None => false
              end
          | [] => false
          end
          || existsb (fun n => node_is_within d (range_start descendant) n && node_is_within d (range_end descendant) n)
               (owned_top_level r))
      && nodes_are_covered_by_topology d owned (owned_top_level r)
  end.

Definition registered_nodes_are_covered (d : Document) (c : MountCleanup) : bool :=
  match range c with
  | None => true
  | Some r => is_ok (range_exact d r) && nodes_are_covered_by_topology d (owned_nodes c) (owned_top_level r)
  end.
End cleanup_state.

(** ** Cleanups as shared allocations *)

Section ownership.
Context `{Foreign}.

Definition with_cleanup (id : ScopeId) (f : MountCleanup -> MountCleanup) (w : World) : World :=
  set_cleanups (alter f id (cleanups w)) w.

Definition cleanup_of (id : ScopeId) : M MountCleanup := w ← gets (fun w => cleanups w !! id); of_option w.

Definition ensure_active_of (operation : MountOperation) (c : MountCleanup) : result MountError unit :=
  fail_if retiring c || cleaned c with scope_gone operation;; Ok tt.

Definition ensure_active (operation : MountOperation) (id : ScopeId) : M unit :=
  c ← cleanup_of id; of_result (ensure_active_of operation c).

(** [Weak::upgrade] keeps the allocation until [release]; the last [Rc] frees it, and
    only the [Drop] of a lease cleans. *)
Definition hold (id : ScopeId) (w : World) : World := with_cleanup id (fun c => put_holds (holds c + 1) c) w.

Definition free_if_unused (id : ScopeId) (w : World) : World :=
  match cleanups w !! id with
  | Some c => if strong_count c =? 0 then set_cleanups (delete id (cleanups w)) w else w
  | None => w
  end.

Definition release (id : ScopeId) (w : World) : World :=
  free_if_unused id (with_cleanup id (fun c => put_holds (holds c - 1) c) w).

Definition release_all (ids : list ScopeId) : M unit := modify (fun w => fold_left (fun w id => release id w) ids w).

Definition upgrade (operation : MountOperation) (id : ScopeId) : M unit :=
  c ← gets (fun w => cleanups w !! id);
  match c with Some _ => modify (hold id) | None => fail (scope_gone operation) end.

(** [live_chain]: the [Rc]s gathered so far are dropped when one is gone. *)
Fixpoint upgrade_each (held ids : list ScopeId) : M unit :=
  match ids with
  | [] => mret tt
  | id :: ids =>
      r ← try (upgrade RegisterCleanup id);
      match r with
      | Ok _ => upgrade_each (id :: held) ids
      | Err e => _ ← release_all held; fail e
      end
  end.

Definition live_chain (id : ScopeId) : M (list ScopeId) :=
  c ← cleanup_of id;
  _ ← upgrade_each [] (id :: ancestors c);
  mret (id :: ancestors c).

Definition ensure_all_active (operation : MountOperation) (chain : list ScopeId) : M unit :=
  for_each (ensure_active operation) chain.

(** [active_chain] drops the chain it gathered when one scope is going away. *)
Definition active_chain (operation : MountOperation) (id : ScopeId) : M (list ScopeId) :=
  chain ← live_chain id;
  r ← try (ensure_all_active operation chain);
  match r with
  | Ok _ => mret chain
  | Err e => _ ← release_all chain; fail e
  end.

Definition check_cleanup {A} (f : Document -> MountCleanup -> result MountError A) (id : ScopeId) : M A :=
  c ← cleanup_of id; d ← gets doc; of_result (f d c).

(** ** The topology transaction *)

Definition plan_topology (plan : Document -> MountCleanup -> result MountError (option DynamicTopologyPlan))
    (chain : list ScopeId) : M Topology :=
  collect_each (fun id => p ← check_cleanup plan id; mret (id, p)) chain.

Definition topology_active (operation : MountOperation) (t : Topology) : M unit :=
  for_each (fun e => ensure_active operation e.1) t.

Definition validate_before_retire (t : Topology) : M unit :=
  for_each (fun e => match e.2 with
                     | Some plan => check_cleanup (fun d => validate_expected d (before_retire plan)) e.1
                     | None => check_cleanup validate_if_attached e.1
                     end) t.

Definition commit_expected (id : ScopeId) (expected : list Node) : M unit :=
  _ ← check_cleanup (fun d => validate_expected d expected) id;
  modify (with_cleanup id (replace_nodes expected)).

(** [commit_expected_unchecked] fails only on a scope without a range, as its callers ignore. *)
Definition commit_unchecked (t : Topology) : M unit :=
  for_each (fun e => match e.2 with
                     | Some plan => modify (with_cleanup e.1 (replace_nodes (after_retire plan)))
                     | None => mret tt
                     end) t.

Definition commit_after_retire (t : Topology) : M unit :=
  validation ← try (for_each (fun e => match e.2 with
                                       | Some plan => check_cleanup (fun d => validate_expected d (after_retire plan)) e.1
                                       | None => check_cleanup validate_if_attached e.1
                                       end) t);
  match validation with
  | Err error => _ ← commit_unchecked t; fail error
  | Ok _ =>
      for_each (fun e => match e.2 with
                         | Some plan => commit_expected e.1 (after_retire plan)
                         | None => mret tt
                         end) t
  end.

(** ** Cleaning *)

(** A failure that is recorded, and noted in [had_specific_error]. *)
Definition recording (had : bool) (m : M unit) : M bool :=
  r ← try m;
  match r with
  | Ok _ => mret had
  | Err error => _ ← modify (record_error error); mret true
  end.

(** [for node in nodes: if let Some(parent) = node.parent_node() { remove_child }]. *)
Fixpoint detach_each (ns : list Node) (subject : string) (had : bool) : M bool :=
  match ns with
  | [] => mret had
  | n :: ns =>
      parent ← gets (fun w => parent_node (doc w) n);
      had ← match parent with
            | Some parent => recording had (remove_child parent n subject)
            | None => mret had
            end;
      detach_each ns subject had
  end.

Definition attached (w : World) (n : Node) : bool := bool_decide (is_Some (parent_node (doc w) n)).

(** [DomRange::remove]: whether a node came back, whether an error was recorded. *)
Definition remove_range (r : DomRange) (report : bool) : M (bool * bool) :=
  had ← (if report then recording false (check (fun d => range_exact d r)) else mret false);
  had ← detach_each (rev (owned_top_level r)) (range_label r) had;
  reinserted ← gets (fun w => existsb (attached w) (owned_top_level r));
  mret (reinserted, had).

Definition take_registered (id : ScopeId) : M (list Node) :=
  c ← cleanup_of id;
  _ ← modify (with_cleanup id (put_owned_nodes []));
  mret (owned_nodes c).

(** The bounded drain: nodes registered meanwhile join, until none has a parent. *)
Fixpoint drain_nodes (passes_left passes : nat) (id : ScopeId) (owned : list Node) (had retried : bool)
    : M (nat * list Node * bool * bool) :=
  match passes_left with
  | O => mret (passes, owned, had, retried)
  | S passes_left =>
      let passes := S passes in
      more ← take_registered id;
      let owned := merge_unique_nodes owned more in
      had ← detach_each (rev owned) "owned mount node" had;
      more ← take_registered id;
      let owned := merge_unique_nodes owned more in
      done ← gets (fun w => forallb (fun n => negb (attached w n)) owned);
      if (done : bool) then mret (passes, owned, had, retried)
      else drain_nodes passes_left passes id owned had true
  end.

(** [delegated_dom_cleanup_target]: the nearest retiring ancestor, if it covers what
    this scope owns. *)
Fixpoint retiring_ancestor (ids : list ScopeId) (w : World) : option (ScopeId * MountCleanup) :=
  match ids with
  | [] => None
  | id :: ids =>
      match cleanups w !! id with
      | Some c => if retiring c then Some (id, c) else retiring_ancestor ids w
      | None => retiring_ancestor ids w
      end
  end.

Definition delegated_target (id : ScopeId) : M (option ScopeId) :=
  c ← cleanup_of id;
  d ← gets doc;
  match range c with
  | None => mret None
  | Some r =>
      if negb (is_ok (range_exact d r)) then mret None
      else
        found ← gets (retiring_ancestor (ancestors c));
        match found with
        | None => mret None
        | Some (target, a) =>
            if bool_decide (range a = None) then mret None
            else
              let covered := covers_cleanup d r (owned_nodes c) a in
              _ ← (if negb covered && report_ownership_mismatch c
                   then modify (record_error (ownership_mismatch "retiring ancestor coverage"))
                   else mret tt);
              mret (if covered then Some target else None)
        end
  end.

Definition transfer_registered_nodes (id target : ScopeId) : M unit :=
  ns ← take_registered id;
  modify (with_cleanup target (fun c => put_owned_nodes (merge_unique_nodes (owned_nodes c) ns) c)).

(** [transfer_survivors_to_active_ancestor]. *)
Fixpoint transfer_survivors (id : ScopeId) (ids : list ScopeId) : M unit :=
  match ids with
  | [] => mret tt
  | a :: ids =>
      c ← gets (fun w => cleanups w !! a);
      match c with
      | Some c => if cleanup_complete c then transfer_survivors id ids else transfer_registered_nodes id a
      | None => transfer_survivors id ids
      end
  end.

Definition forget_from_retiring_ancestors (ids : list ScopeId) (descendant : OwnedRangeSnapshot) (w : World) : World :=
  fold_left (fun w a =>
    with_cleanup a (fun c => if retiring c then forget_descendant_range descendant c else c) w) ids w.

(** The branch that removes what the scope owns itself. *)
Definition clean_locally (id : ScopeId) : M unit :=
  c ← cleanup_of id;
  _ ← modify (with_cleanup id (put_range None));
  outcome ← match range c with
            | Some r =>
                _ ← modify (forget_from_retiring_ancestors (ancestors c) (range_snapshot r));
                remove_range r (report_ownership_mismatch c)
            | None => mret (false, false)
            end;
  let '(retried, had) := outcome in
  owned ← take_registered id;
  connected ← gets (fun w => existsb (is_connected (doc w)) owned);
  drained ← drain_nodes MAX_CLEANUP_DRAIN_PASSES 0 id owned had (retried || connected);
  let '(passes, owned, had, retried) := drained in
  survivors ← gets (fun w => List.filter (attached w) owned);
  c ← cleanup_of id;
  match survivors with
  | [] =>
      if retried && negb had && report_ownership_mismatch c
      then modify (record_error (ownership_mismatch "cleanup reinserted owned nodes")) else mret tt
  | _ =>
      _ ← modify (with_cleanup id (put_owned_nodes survivors));
      _ ← transfer_survivors id (ancestors c);
      modify (record_terminal (origin c)
        (CleanupDidNotConverge (diagnostic (str "owned mount nodes")) (blen survivors) (N.of_nat passes)))
  end.

(** [MountCleanup::cleanup]. *)
Definition cleanup (id : ScopeId) : M unit :=
  c ← cleanup_of id;
  if cleaned c then mret tt
  else
    _ ← modify (with_cleanup id (put_cleaned true));
    covered ← gets (fun w => registered_nodes_are_covered (doc w) c);
    _ ← (if negb covered && report_ownership_mismatch c
         then modify (record_error (ownership_mismatch "registered mount nodes")) else mret tt);
    target ← (if (covered : bool) then delegated_target id else mret None);
    _ ← match target with
        | Some target =>
            _ ← modify (with_cleanup id (put_range None));
            transfer_registered_nodes id target
        | None => clean_locally id
        end;
    modify (with_cleanup id (put_cleanup_complete true)).

(** [Drop] of a [MountCleanupLease]: it cleans only when it is the last [Rc]. *)
Definition drop_lease (id : ScopeId) : M unit :=
  c ← cleanup_of id;
  _ ← (if strong_count c =? 1 then cleanup id else mret tt);
  modify (fun w => free_if_unused id (with_cleanup id (fun c => put_leases (leases c - 1) c) w)).

(** ** Disposal *)

Definition slot_scopes (c : SlotContent) : list ScopeId :=
  match c with DynamicContent stable => option_list stable | KeyedContent rows => map row_scope rows end.

(** The slots a scope's owner runs, from the newest. *)
Definition owned_slots (id : ScopeId) (w : World) : list SlotId :=
  rev (merge_sort N.le (map fst (map_to_list (filter (fun p => effect_scope p.2 = id) (slots w))))).

(** [notify_scope_dispose]. *)
Definition notify_scope_dispose (id : ScopeId) : M unit :=
  c ← cleanup_of id;
  for_each (fun root =>
    if is_element root then
      _ ← run_site (DisposeEvent id);
      d ← gets doc;
      match dispatch_scope_dispose d root with
      | Ok _ => mret tt
      | Err detail => modify (record_error (dom_error DispatchLifecycle "pliego:scope-dispose" detail))
      end
    else mret tt) (match range c with Some r => owned_top_level r | None => [] end).

Definition scope_of (id : ScopeId) : M (option MountScope) := gets (fun w => scopes w !! id).

Definition put_scope (id : ScopeId) (s : MountScope) : M unit := modify (fun w => set_scopes (<[id := s]> (scopes w)) w).

(** [owner_operation]: the shared borrow of [owner] panics while [dispose] holds it. *)
Definition owner_operation {A} (operation : MountOperation) (id : ScopeId) (run : M A) : M A :=
  s ← scope_of id;
  match s with
  | Some s => if owner_borrowed s then panic else if has_owner s then run else fail (scope_gone operation)
  | None => fail (scope_gone operation)
  end.

(** [on_cleanup]; the callbacks of an owner run at [OwnerCleanups]. *)
Definition on_cleanup (id : ScopeId) : M unit :=
  owner_operation RegisterCleanup id
    (pending ← gets (fun w => bool_decide (id ∈ deferred w));
     if (pending : bool) then fail (scope_gone RegisterCleanup) else mret tt).

(** [MountScope::dispose], also its [Drop]; retiring an owner runs its cleanups,
    retires its slot effects with the scopes they keep, and last the sentinel. *)
Fixpoint dispose (fuel : nat) (id : ScopeId) : M unit :=
  match fuel with
  | O => out_of_fuel
  | S fuel =>
      s ← scope_of id;
      match s with
      | None => mret tt
      | Some s =>
          if disposed s then mret tt
          else
            _ ← put_scope id (mkScope (has_owner s) false (has_lease s) true);
            _ ← (if has_lease s then
                   _ ← notify_scope_dispose id; modify (with_cleanup id (put_retiring true))
                 else mret tt);
            _ ← put_scope id (mkScope false true (has_lease s) true);
            _ ← (if has_owner s then
                   busy ← gets (fun w => bool_decide (id ∈ running w));
                   if (busy : bool) then modify (fun w => set_deferred (deferred w ++ [id]) w) else retire_owner fuel id
                 else mret tt);
            _ ← put_scope id (mkScope false false false true);
            if has_lease s then drop_lease id else mret tt
      end
  end
with retire_owner (fuel : nat) (id : ScopeId) : M unit :=
  match fuel with
  | O => out_of_fuel
  | S fuel =>
      _ ← run_site (OwnerCleanups id);
      retired ← gets (owned_slots id);
      _ ← for_each (fun slot =>
            e ← gets (fun w => slots w !! slot);
            match e with
            | Some e =>
                if effect_scope e =? id then
                  _ ← modify (fun w => set_slots (delete slot (slots w)) w);
                  for_each (dispose fuel) (slot_scopes (content (slot_state e)))
                else mret tt
            | None => mret tt
            end) retired;
      drop_lease id
  end.

(** The end of a run of an effect of [id]: the deferred disposals that are ready. *)
Definition end_effect (fuel : nat) (id : ScopeId) : M unit :=
  _ ← modify (fun w => set_running (tail (running w)) w);
  waiting ← gets deferred;
  for_each (fun owner =>
    busy ← gets (fun w => bool_decide (owner ∈ running w));
    if (busy : bool) then mret tt
    else
      _ ← modify (fun w => set_deferred (without [owner] (deferred w)) w);
      retire_owner fuel owner) waiting.
End ownership.
