(* ===== verification/MountUpdate.v ===== *)
(** * MountUpdate: the updates of dynamic and keyed slots ([pliego-dom])

    Models the effects that [install_keyed_view_effect] and
    [install_dynamic_view_effect] of [crates/pliego-dom/src/mount.rs] run, with
    [plan.rs] and [keyed_lis]: stage what is new, validate the layout again after
    every call of user code, move as few rows as possible, retire what is gone, and
    on failure either give the slot back as it was or poison it.

    A view comes with the action that stages it, which [MountView] gives. The adoption of server
    markup, which passes the keys or the view it expects to the first run, is not
    modelled. *)

From S2P Require Import Prelude Reactive DomName Dom MountTree MountState MountScope KeyedLis.

Local Open Scope string_scope.
Local Open Scope N_scope.

(** [StagedMount]: a fragment and the scope that owns its nodes. *)
Record StagedMount : Type := mkStaged { fragment : Node; staged_scope : ScopeId }.

Inductive PlannedKeyedRow : Type :=
| Retained (old : nat) (snapshot : OwnedRangeSnapshot)
| Fresh (key : KeyedKey) (staged : StagedMount) (snapshot : OwnedRangeSnapshot).

Definition old_index (row : PlannedKeyedRow) : option nat :=
  match row with Retained old _ => Some old | Fresh _ _ _ => None end.

Definition planned_snapshot (row : PlannedKeyedRow) : OwnedRangeSnapshot :=
  match row with Retained _ s | Fresh _ _ s => s end.

Definition keyed_lis (rows : list PlannedKeyedRow) : list bool := lis_keep (map old_index rows).

(** The map of the old keys to their indexes; a later entry replaces an earlier one. *)
Fixpoint old_index_of (key : KeyedKey) (index : nat) (rows : list KeyedRow) : option nat :=
  match rows with
  | [] => None
  | row :: rows =>
      match old_index_of key (S index) rows with
      | Some i => Some i
      | None => if bool_decide (row_key row = key) then Some index else None
      end
  end.

(** [stage_view] of one view, given the ancestors of the new scope and its origin. *)
Definition Stager `{Browser} : Type := list ScopeId -> OriginId -> M StagedMount.

Section updates.
Context `{Foreign}.
Context (fuel : nat).

(** ** Slots *)

Definition slot_of (slot : SlotId) : M SlotEffect := e ← gets (fun w => slots w !! slot); of_option e.

Definition put_slot (slot : SlotId) (s : SlotState) : M unit :=
  modify (fun w => set_slots (alter (put_slot_state s) slot (slots w)) w).

(** A call of one of the protocol's functions on the state of a slot. *)
Definition on_slot {A} (slot : SlotId) (f : SlotContent -> SlotState -> A * SlotState) : M A :=
  e ← slot_of slot;
  let '(a, s) := f (content (slot_state e)) (slot_state e) in
  _ ← put_slot slot s;
  mret a.

Definition slot_begin (slot : SlotId) : M (result MountError bool) :=
  on_slot slot (fun c => begin_update (slot_reentered c) (slot_poisoned c)).

Definition slot_ensure_updating (slot : SlotId) : M unit :=
  e ← slot_of slot; of_result (ensure_updating (slot_reentered (content (slot_state e))) (slot_state e)).

Definition slot_finish (slot : SlotId) : M unit :=
  r ← on_slot slot (fun c => finish_update (slot_reentered c)); of_result r.

Definition slot_poison (slot : SlotId) (error : MountError) : M (MountError * bool) :=
  on_slot slot (fun c => poison (slot_poisoned c) error).

Definition slot_fail (slot : SlotId) (error : MountError) (terminal : bool) : M (MountError * bool * bool) :=
  on_slot slot (fun c => fail_update (slot_poisoned c) error terminal).

Definition take_content (slot : SlotId) (next : SlotContent) : M SlotContent :=
  on_slot slot (fun c s => (c, mkSlot (status s) next)).

Definition keyed_rows (slot : SlotId) : M (list KeyedRow) :=
  e ← slot_of slot; mret (match content (slot_state e) with KeyedContent rows => rows | DynamicContent _ => [] end).

(** [MountScope::owned_range_snapshot] and the check of the nodes still present. *)
Definition leased {A} (id : ScopeId) (m : M A) : M A :=
  s ← scope_of id;
  match s with
  | Some s => if has_lease s then m else fail (structure BoundaryDetached "mount range")
  | None => fail (structure BoundaryDetached "mount range")
  end.

Definition owned_range_snapshot (id : ScopeId) : M OwnedRangeSnapshot :=
  leased id (check_cleanup (fun d c => _ ← validate_exact d c; r ← attached_range c; Ok (range_snapshot r)) id).

Definition scope_nodes_present (id : ScopeId) : M unit := leased id (check_cleanup validate_owned_nodes_present id).

Definition validate_owned_range (id : ScopeId) : M unit := leased id (check_cleanup validate_exact id).

Definition suppress_ownership_mismatch (id : ScopeId) : M unit :=
  s ← scope_of id;
  match s with
  | Some s => if has_lease s then modify (with_cleanup id (put_report_ownership_mismatch false)) else mret tt
  | None => mret tt
  end.

(** [snapshots] or [stable_snapshot], on failure with the test of whether the stable
    nodes are still there. *)
Definition stable_snapshots (slot : SlotId) : M (list OwnedRangeSnapshot) :=
  e ← slot_of slot;
  let ids := slot_scopes (content (slot_state e)) in
  r ← try (collect_each owned_range_snapshot ids);
  match r with
  | Ok snapshots => mret snapshots
  | Err error =>
      present ← try (for_each scope_nodes_present ids);
      _ ← modify (set_stable_corrupted (negb (is_ok present)));
      fail error
  end.

(** A failure that shows the stable content to be corrupted. *)
Definition corrupting {A} (m : M A) : M A :=
  r ← try m;
  match r with
  | Ok a => mret a
  | Err error => _ ← modify (set_stable_corrupted true); fail error
  end.

(** ** Plans shown to the observer *)

Definition allocate (get : World -> N) (set : N -> World -> World) : M N :=
  n ← gets get;
  if n =? u64_max then panic else _ ← modify (set (n + 1)); mret n.

Definition next_dom_target : M N := allocate next_target set_next_target.

Definition notify (n : Notification) : M unit :=
  _ ← modify (fun w => set_notifications (notifications w ++ [n]) w); run_site Observer.

Definition before_dom_commit (target : N) (operation : DomOp) : M (option DomPlan) :=
  watching ← gets observed;
  if (watching : bool) then
    id ← allocate next_plan set_next_plan;
    context ← gets commit_context;
    let plan := mkPlan id target context operation in
    _ ← notify (BeforeCommit plan);
    mret (Some plan)
  else mret None.

Definition after_dom_commit (plan : option DomPlan) : M unit :=
  watching ← gets observed;
  match plan with
  | Some plan => if (watching : bool) then notify (AfterCommit plan) else mret tt
  | None => mret tt
  end.

(** ** Poisoning *)

(** Both [poison_and_retire_keyed] and [poison_and_retire_corrupted_stable]: give up
    the content, forget the slot in the enclosing scopes, take the markers out. *)
Fixpoint remove_markers (passes_left passes : nat) (markers : list Node) (subject : string) : M nat :=
  match passes_left with
  | O => mret passes
  | S passes_left =>
      let passes := S passes in
      _ ← detach_each markers subject false;
      done ← gets (fun w => forallb (fun n => negb (attached w n)) markers);
      if (done : bool) then mret passes else remove_markers passes_left passes markers subject
  end.

Definition poison_and_retire (slot : SlotId) (subject boundaries : string) (cause : MountError) : M MountError :=
  e ← slot_of slot;
  _ ← for_each suppress_ownership_mismatch (slot_scopes (content (slot_state e)));
  poisoned ← slot_poison slot cause;
  let '(terminal, newly_terminal) := poisoned in
  alive ← gets (fun w => bool_decide (is_Some (cleanups w !! effect_scope e)));
  chain ← (if (alive : bool) then try (live_chain (effect_scope e)) else mret (Err cause));
  let chain := match chain with Ok chain => chain | Err _ => [] end in
  retired ← take_content slot (match content (slot_state e) with KeyedContent _ => KeyedContent [] | DynamicContent _ => DynamicContent None end);
  _ ← for_each (dispose fuel) (slot_scopes retired);
  _ ← for_each (fun id => modify (with_cleanup id (forget_dynamic_slot_topology (outer_start e) (outer_end e)))) chain;
  let markers := [outer_end e; outer_start e] in
  passes ← remove_markers MAX_CLEANUP_DRAIN_PASSES 0 markers subject;
  remaining ← gets (fun w => List.filter (attached w) markers);
  _ ← match remaining with
      | [] => for_each (fun id => modify (with_cleanup id (forget_dynamic_boundary_registry (outer_start e) (outer_end e)))) chain
      | _ => modify (record_terminal (effect_origin e)
               (CleanupDidNotConverge (diagnostic (str boundaries)) (blen remaining) (N.of_nat passes)))
      end;
  _ ← (if (newly_terminal : bool) then modify (record_terminal (effect_origin e) terminal) else mret tt);
  _ ← release_all chain;
  mret terminal.

(** What a failed update reports, and the state it leaves the slot in. *)
Definition settle_failure (slot : SlotId) (error : MountError) (irreversible : bool) : M MountError :=
  e ← slot_of slot;
  _ ← (if irreversible && has_structural_failure error
       then for_each suppress_ownership_mismatch (slot_scopes (content (slot_state e))) else mret tt);
  failed ← slot_fail slot error irreversible;
  let '(error, terminal, newly_terminal) := failed in
  _ ← (if terminal && newly_terminal then modify (record_terminal (effect_origin e) error)
       else if negb terminal then modify (record_error error)
       else mret tt);
  mret error.
End updates.

(** ** The update of a keyed slot *)

Section keyed.
Context `{Foreign}.
Context (fuel : nat).

Definition chain_active (chain : list ScopeId) : M unit := ensure_all_active InsertRange chain.
Definition chain_attached (chain : list ScopeId) : M unit := for_each (check_cleanup validate_if_attached) chain.

Definition staged_scopes (planned : list PlannedKeyedRow) : list ScopeId :=
  omap (fun row => match row with Fresh _ staged _ => Some (staged_scope staged) | Retained _ _ => None end) planned.

(** A failure drops what was staged so far. *)
Definition or_drop {A} (staged : list ScopeId) (m : M A) : M A :=
  r ← try m;
  match r with
  | Ok a => mret a
  | Err error => _ ← for_each (dispose fuel) staged; fail error
  end.

(** The loop that keeps the rows whose key is known and stages the others. *)
Fixpoint plan_rows (slot : SlotId) (e : SlotEffect) (rows : list KeyedRow) (old_snapshots : list OwnedRangeSnapshot)
    (pending : list (KeyedKey * result KeyedError Stager)) (planned : list PlannedKeyedRow) : M (list PlannedKeyedRow) :=
  match pending with
  | [] => mret planned
  | (key, built) :: pending =>
      row ← or_drop (staged_scopes planned)
        (match old_index_of key 0 rows with
         | Some index => snapshot ← of_option (old_snapshots !! index); mret (Retained index snapshot)
         | None =>
             _ ← run_site (BuildRow slot key);
             view ← of_result (map_err keyed_error built);
             parent ← cleanup_of (effect_scope e);
             staged ← view (effect_scope e :: ancestors parent) (effect_origin e);
             snapshot ← or_drop [staged_scope staged] (owned_range_snapshot (staged_scope staged));
             mret (Fresh key staged snapshot)
         end);
      plan_rows slot e rows old_snapshots pending (planned ++ [row])
  end.

(** The mutation loop, from the last row to the first: [settled] pairs each row with
    whether it stays, in reverse. *)
Definition insert_all (parent anchor : Node) (ns : list Node) (subject : string) : M unit :=
  for_each (fun n => insert_before parent n (Some anchor) subject) ns.

Fixpoint place_rows (parent anchor : Node) (settled : list (PlannedKeyedRow * bool)) : M unit :=
  match settled with
  | [] => mret tt
  | (row, keep) :: settled =>
      _ ← (match row, keep with
           | Retained _ _, true => mret tt
           | Retained _ snapshot, false =>
               _ ← modify (set_irreversible true);
               insert_all parent anchor (nodes snapshot) "keyed retained row"
           | Fresh _ staged _, _ =>
               _ ← modify (set_irreversible true);
               insert_before parent (fragment staged) (Some anchor) "keyed fresh row"
           end);
      place_rows parent (start (planned_snapshot row)) settled
  end.

(** The rows that are not retained move to a fragment of their own. *)
Fixpoint retire_nodes (retirement : Node) (index : nat) (retained : list nat) (snapshots : list OwnedRangeSnapshot) : M unit :=
  match snapshots with
  | [] => mret tt
  | snapshot :: snapshots =>
      _ ← (if bool_decide (index ∈ retained) then mret tt
           else
             _ ← modify (set_irreversible true);
             for_each (fun n => append_child retirement n "retired keyed row") (nodes snapshot));
      retire_nodes retirement (S index) retained snapshots
  end.

(** Focus kept on a node of a row that stays mounted. *)
Definition restore_focus (retained_focus : option Node) : M unit :=
  match retained_focus with
  | None => mret tt
  | Some focused =>
      d ← gets doc;
      if bool_decide (active_element d = Some focused) then mret tt
      else if negb (is_html_element focused)
           then fail (BrowserError RestoreFocus (diagnostic (str "keyed focused descendant"))
                        (diagnostic (str "active element is not an HTMLElement")))
      else
        match node_focus d focused with
        | Ok d => _ ← modify (set_doc d); run_site FocusHandlers
        | Err detail => fail (dom_error RestoreFocus "keyed focused descendant" detail)
        end
  end.

(** [old_slots[old_index].take()] for each planned row. *)
Fixpoint next_rows (old_slots : list (option KeyedRow)) (planned : list PlannedKeyedRow) : M (list KeyedRow * list (option KeyedRow)) :=
  match planned with
  | [] => mret ([], old_slots)
  | Retained old _ :: planned =>
      taken ← of_option (old_slots !! old);
      row ← of_result (ok_or (ownership_mismatch "keyed retained row") taken);
      rest ← next_rows (<[old := None]> old_slots) planned;
      mret (row :: rest.1, rest.2)
  | Fresh key staged _ :: planned =>
      rest ← next_rows old_slots planned;
      mret (mkRow key (staged_scope staged) :: rest.1, rest.2)
  end.

Definition reconcile_counts (previous : nat) (planned : list PlannedKeyedRow) (keep : list bool) : DomOp :=
  let retained := length (omap old_index planned) in
  ReconcileKeyed (N.of_nat previous) (blen planned) (N.of_nat retained)
    (N.of_nat (moved_rows (map old_index planned) keep)) (N.of_nat (length planned - retained))
    (N.of_nat (previous - retained)).

Definition changes_rows (operation : DomOp) : bool :=
  match operation with
  | ReconcileKeyed _ _ _ moved inserted removed => negb (moved =? 0) || negb (inserted =? 0) || negb (removed =? 0)
  | _ => true
  end.

Definition target_nodes (planned : list PlannedKeyedRow) : list Node :=
  concat (map (fun row => nodes (planned_snapshot row)) planned).

Definition focused_in (d : Document) (ns : list Node) : option Node :=
  match active_element d with
  | Some active => if is_html_element active && existsb (node_is_within d active) ns then Some active else None
  | None => None
  end.

Definition remove_count_guard (previous : nat) (planned : list PlannedKeyedRow) : M unit :=
  if (previous <? length (omap old_index planned))%nat then panic else mret tt.

(** The checks after all user code of the update has run. *)
Definition validate_again (slot : SlotId) (e : SlotEffect) (chain : list ScopeId) (planned : list PlannedKeyedRow)
    : M (list OwnedRangeSnapshot * Node * option Node) :=
  _ ← for_each (fun id => _ ← ensure_active InsertRange id; check_cleanup validate_if_attached id) chain;
  _ ← slot_ensure_updating slot;
  current_snapshots ← stable_snapshots slot;
  _ ← corrupting (check (fun d => validate_keyed_layout d (outer_start e) (outer_end e) current_snapshots));
  parent ← check (fun d => validate_boundary_range d (outer_start e) (outer_end e) "keyed range");
  retained_focus ← gets (fun w => focused_in (doc w) (target_nodes planned));
  mret (current_snapshots, parent, retained_focus).

(** The mutation of the document, from the plan to the retirement fragment. *)
Definition mutate_rows (e : SlotEffect) (parent : Node) (current_snapshots : list OwnedRangeSnapshot)
    (planned : list PlannedKeyedRow) : M unit :=
  _ ← place_rows parent (outer_end e) (rev (zip planned (keyed_lis planned)));
  created ← gets (fun w => create_fragment (doc w));
  let '(retirement, d) := created in
  _ ← modify (set_doc d);
  retire_nodes retirement 0 (omap old_index planned) current_snapshots.

(** From the validated plan to the committed topology. *)
Definition reconcile (slot : SlotId) (e : SlotEffect) (chain : list ScopeId) (planned : list PlannedKeyedRow)
    (current_snapshots : list OwnedRangeSnapshot) (parent : Node) (retained_focus : option Node) : M (option DomPlan) :=
  topology ← plan_topology (fun d => plan_keyed_replacement d (outer_start e) (outer_end e) (target_nodes planned)) chain;
  _ ← validate_before_retire topology;
  _ ← topology_active InsertRange topology;
  _ ← slot_ensure_updating slot;
  _ ← remove_count_guard (length current_snapshots) planned;
  let operation := reconcile_counts (length current_snapshots) planned (keyed_lis planned) in
  plan ← (if changes_rows operation then before_dom_commit (effect_target e) operation else mret None);
  _ ← topology_active InsertRange topology;
  _ ← slot_ensure_updating slot;
  _ ← mutate_rows e parent current_snapshots planned;
  _ ← restore_focus retained_focus;
  _ ← topology_active InsertRange topology;
  _ ← slot_ensure_updating slot;
  _ ← check (fun d => validate_keyed_layout d (outer_start e) (outer_end e) (map planned_snapshot planned));
  _ ← for_each (fun row => check (fun d => _ ← ok_or (structure BoundaryDetached "keyed target row")
                                                 (parent_node d (start (planned_snapshot row))); Ok tt)) planned;
  _ ← commit_after_retire topology;
  mret plan.

(** The new rows take over; dropping the old ones may run any code. No code runs between
    the commit of the topology and here, so what the failures before the new rows are in
    place would drop is left out. *)
Definition replace_rows (slot : SlotId) (e : SlotEffect) (planned : list PlannedKeyedRow) (plan : option DomPlan) : M unit :=
  _ ← slot_ensure_updating slot;
  old ← take_content slot (KeyedContent []);
  let old_rows := match old with KeyedContent rows => rows | DynamicContent _ => [] end in
  next ← next_rows (map Some old_rows) planned;
  _ ← slot_ensure_updating slot;
  _ ← take_content slot (KeyedContent next.1);
  checkpoint ← gets (terminal_checkpoint (effect_origin e));
  _ ← for_each (dispose fuel) (map row_scope (omap id next.2));
  failed ← gets (terminal_recorded_after (effect_origin e) checkpoint);
  _ ← match failed with Some error => fail error | None => mret tt end;
  _ ← slot_finish slot;
  after_dom_commit plan.

(** The rows of the update, staged and checked; [pending] is what [spec.collect()]
    answers. *)
Definition prepare_rows (slot : SlotId) (e : SlotEffect) (chain : list ScopeId)
    (pending : result KeyedError (list (KeyedKey * result KeyedError Stager)))
    : M (list PlannedKeyedRow * (list OwnedRangeSnapshot * Node * option Node)) :=
  _ ← slot_ensure_updating slot;
  _ ← run_site (CollectRows slot);
  pending ← of_result (map_err keyed_error pending);
  _ ← chain_active chain;
  _ ← slot_ensure_updating slot;
  old_snapshots ← stable_snapshots slot;
  _ ← chain_attached chain;
  _ ← corrupting (check (fun d => validate_keyed_layout d (outer_start e) (outer_end e) old_snapshots));
  rows ← keyed_rows slot;
  planned ← plan_rows slot e rows old_snapshots pending [];
  checked ← or_drop (staged_scopes planned) (validate_again slot e chain planned);
  mret (planned, checked).

(** The [Rc]s of the chain are dropped with the topology. *)
Definition releasing {A} (chain : list ScopeId) (m : M A) : M A :=
  r ← try m; _ ← release_all chain; of_result r.

(** The closure of the update. *)
Definition keyed_transaction (slot : SlotId) (pending : result KeyedError (list (KeyedKey * result KeyedError Stager))) : M unit :=
  e ← slot_of slot;
  _ ← upgrade RegisterCleanup (effect_scope e);
  releasing [effect_scope e]
    (chain ← active_chain InsertRange (effect_scope e);
     prepared ← try (prepare_rows slot e chain pending);
     match prepared with
     | Err error => _ ← release_all chain; fail error
     | Ok (planned, (current_snapshots, parent, retained_focus)) =>
         plan ← or_drop (staged_scopes planned)
           (releasing chain (reconcile slot e chain planned current_snapshots parent retained_focus));
         replace_rows slot e planned plan
     end).

(** [irreversible] and [stable_corrupted] are locals of each run. *)
Definition with_flags {A} (m : M A) : M A :=
  saved ← gets (fun w => (irreversible w, stable_corrupted w));
  _ ← modify (fun w => set_irreversible false (set_stable_corrupted false w));
  r ← try m;
  _ ← modify (fun w => set_irreversible saved.1 (set_stable_corrupted saved.2 w));
  of_result r.

(** One run of the effect: the error of a failed update, kept for the first run. *)
Definition run_keyed_effect (slot : SlotId) (pending : result KeyedError (list (KeyedKey * result KeyedError Stager)))
    : M (option MountError) :=
  begun ← slot_begin slot;
  e ← slot_of slot;
  match begun with
  | Ok false => mret None
  | Err error => _ ← modify (record_terminal (effect_origin e) error); mret (Some error)
  | Ok true =>
      with_flags
        (update ← try (keyed_transaction slot pending);
         match update with
         | Ok _ => mret None
         | Err error =>
             fatal ← gets (fun w => irreversible w || stable_corrupted w);
             error ← (if (fatal : bool)
                      then poison_and_retire fuel slot "poisoned keyed boundary" "poisoned keyed boundaries" error
                      else mret error);
             error ← settle_failure slot error fatal;
             mret (Some error)
         end)
  end.
End keyed.

(** ** The update of a dynamic slot *)

Section dynamic.
Context `{Foreign}.
Context (fuel : nat).

(** The stable snapshot, validated together with the layout of the slot. *)
Definition refresh_stable (slot : SlotId) (e : SlotEffect) (chain : list ScopeId) : M (option OwnedRangeSnapshot) :=
  stable ← stable_snapshots slot;
  _ ← chain_attached chain;
  _ ← check (fun d => validate_dynamic_layout d (outer_start e) (outer_end e) stable);
  mret (head stable).

(** The candidate after the stable content, both checked, before anything is retired. *)
Definition insert_candidate (slot : SlotId) (e : SlotEffect) (topology : Topology) (parent : Node) (candidate : StagedMount)
    (stable : option OwnedRangeSnapshot) (snapshot : OwnedRangeSnapshot) : M unit :=
  insertion ← try (insert_before parent (fragment candidate) (Some (outer_end e)) "dynamic candidate");
  _ ← topology_active InsertRange topology;
  _ ← slot_ensure_updating slot;
  _ ← of_result insertion;
  _ ← check (fun d => validate_dynamic_layout d (outer_start e) (outer_end e) (option_list stable ++ [snapshot]));
  _ ← validate_owned_range (staged_scope candidate);
  _ ← validate_before_retire topology;
  _ ← topology_active InsertRange topology;
  slot_ensure_updating slot.

(** After the stable content is retired. *)
Definition commit_candidate (slot : SlotId) (e : SlotEffect) (topology : Topology) (snapshot : OwnedRangeSnapshot)
    (checkpoint : N) : M unit :=
  retirement_terminal ← gets (terminal_recorded_after (effect_origin e) checkpoint);
  slot_now ← slot_of slot;
  post_retire ← try
    (_ ← for_each validate_owned_range (slot_scopes (content (slot_state slot_now)));
     check (fun d => validate_dynamic_layout d (outer_start e) (outer_end e) [snapshot]));
  match post_retire, retirement_terminal with
  | Err error, _ =>
      _ ← modify (set_stable_corrupted true);
      _ ← commit_unchecked topology;
      fail error
  | Ok _, Some error => _ ← commit_unchecked topology; fail error
  | Ok _, None =>
      _ ← slot_ensure_updating slot;
      _ ← topology_active InsertRange topology;
      corrupting (commit_after_retire topology)
  end.

(** The candidate, staged and checked; [fresh] is what [view()] answers. *)
Definition prepare_candidate (slot : SlotId) (e : SlotEffect) (chain : list ScopeId) (fresh : Stager)
    : M (StagedMount * (OwnedRangeSnapshot * Node * option OwnedRangeSnapshot)) :=
  _ ← slot_ensure_updating slot;
  _ ← refresh_stable slot e chain;
  _ ← run_site (CollectRows slot);
  _ ← chain_active chain;
  _ ← slot_ensure_updating slot;
  _ ← refresh_stable slot e chain;
  parent_cleanup ← cleanup_of (effect_scope e);
  staged ← try (fresh (effect_scope e :: ancestors parent_cleanup) (effect_origin e));
  or_drop fuel (match staged with Ok candidate => [staged_scope candidate] | Err _ => [] end)
    (_ ← chain_active chain;
     _ ← slot_ensure_updating slot;
     candidate ← of_result staged;
     snapshot ← owned_range_snapshot (staged_scope candidate);
     parent ← check (fun d => validate_boundary_range d (outer_start e) (outer_end e) "dynamic range");
     _ ← chain_active chain;
     _ ← slot_ensure_updating slot;
     stable ← refresh_stable slot e chain;
     mret (candidate, (snapshot, parent, stable))).

(** From the planned topology to the inserted candidate, which then takes over. *)
Definition insert_planned (slot : SlotId) (e : SlotEffect) (topology : Topology) (candidate : StagedMount)
    (snapshot : OwnedRangeSnapshot) (parent : Node) (stable : option OwnedRangeSnapshot) : M (option DomPlan * N) :=
  _ ← topology_active InsertRange topology;
  _ ← slot_ensure_updating slot;
  plan ← before_dom_commit (effect_target e) (ReplaceSubtree (bool_decide (is_Some stable)));
  _ ← topology_active InsertRange topology;
  _ ← slot_ensure_updating slot;
  _ ← insert_candidate slot e topology parent candidate stable snapshot;
  checkpoint ← gets (terminal_checkpoint (effect_origin e));
  _ ← slot_ensure_updating slot;
  mret (plan, checkpoint).

(** The closure of the update. *)
Definition dynamic_transaction (slot : SlotId) (fresh : Stager) : M unit :=
  e ← slot_of slot;
  _ ← upgrade RegisterCleanup (effect_scope e);
  releasing [effect_scope e]
    (chain ← active_chain InsertRange (effect_scope e);
     prepared ← try (prepare_candidate slot e chain fresh);
     match prepared with
     | Err error => _ ← release_all chain; fail error
     | Ok (candidate, (snapshot, parent, stable)) =>
         inserted ← try
           (topology ← plan_topology (fun d => plan_dynamic_replacement d (outer_start e) (outer_end e) snapshot) chain;
            p ← insert_planned slot e topology candidate snapshot parent stable;
            mret (topology, p));
         match inserted with
         | Err error =>
             _ ← release_all chain;
             _ ← dispose fuel (staged_scope candidate);
             fail error
         | Ok (topology, (plan, checkpoint)) =>
             _ ← releasing chain
               (retired ← take_content slot (DynamicContent (Some (staged_scope candidate)));
                _ ← modify (set_irreversible true);
                _ ← for_each (dispose fuel) (slot_scopes retired);
                commit_candidate slot e topology snapshot checkpoint);
             _ ← slot_finish slot;
             after_dom_commit plan
         end
     end).

(** One run of the effect; only a corrupted stable content is retired with its slot. *)
Definition run_dynamic_effect (slot : SlotId) (fresh : Stager) : M (option MountError) :=
  begun ← slot_begin slot;
  e ← slot_of slot;
  match begun with
  | Ok false => mret None
  | Err error => _ ← modify (record_terminal (effect_origin e) error); mret (Some error)
  | Ok true =>
      with_flags
        (update ← try (dynamic_transaction slot fresh);
         match update with
         | Ok _ => mret None
         | Err error =>
             corrupted ← gets stable_corrupted;
             error ← (if (corrupted : bool)
                      then poison_and_retire fuel slot "poisoned dynamic boundary" "poisoned dynamic boundaries" error
                      else mret error);
             fatal ← gets irreversible;
             error ← settle_failure slot error fatal;
             mret (Some error)
         end)
  end.
End dynamic.
