(* ===== verification/MountView.v ===== *)
(** * MountView: mounting views ([pliego-dom])

    Models the building of live nodes of [crates/pliego-dom/src/mount.rs]:
    [mount_before] over every kind of view, the effects of dynamic texts and
    attributes, the installation of dynamic and keyed slots, [stage_view] and [mount].

    A view is that of [Dom]: each closure comes with the answer of the call at hand,
    so the effects here are their first runs; [run_text_effect], [run_attribute_effect]
    and the runs of [MountUpdate] take the answer of any later run. *)

From S2P Require Import Prelude Reactive DomName Dom MountTree MountState MountScope KeyedLis MountUpdate.

Local Open Scope string_scope.
Local Open Scope N_scope.

Definition XLINK_URI : chars := str "http://www.w3.org/1999/xlink".
Definition XML_URI : chars := str "http://www.w3.org/XML/1998/namespace".
Definition XMLNS_URI : chars := str "http://www.w3.org/2000/xmlns/".

(** [str::split_once(':')]. *)
Fixpoint split_colon (s : chars) : option (chars * chars) :=
  match s with
  | [] => None
  | c :: s => if c =? 58 then Some ([], s) else '(a, b) ← split_colon s; Some (c :: a, b)
  end.

Definition attribute_namespace (ns : ElementNamespace) (name : chars) : option chars :=
  if bool_decide (ns <> Svg) then None
  else if bool_decide (name = str "xmlns") || bool_decide (take 6 name = str "xmlns:") then Some XMLNS_URI
  else
    '(prefix, _) ← split_colon name;
    if bool_decide (prefix = str "xlink") then Some XLINK_URI
    else if bool_decide (prefix = str "xml") then Some XML_URI
    else None.

Record MountPosition : Type := mkPosition {
  position_parent : Node;
  position_before : option Node;
  inherited_namespace : ElementNamespace;
  parent_context : option ParentContext;
}.

Section mounting.
Context `{Foreign, UnicodeTables}.
Context (fuel : nat).

(** ** Elements and attributes *)

Definition get_attribute (d : Document) (element : Node) (ns : ElementNamespace) (name : chars) : option chars :=
  let local_name := match split_colon name with Some (_, local) => local | None => name end in
  match attribute_namespace ns name with
  | Some uri => element_get_attribute d element (Some uri) local_name
  | None => element_get_attribute d element None name
  end.

(** The subjects of browser errors are names here. *)
Definition browser_call_on (operation : MountOperation) (subject : chars) (call : Document -> result chars Document) : M unit :=
  d ← gets doc;
  match call d with
  | Ok d => _ ← modify (set_doc d); run_site Reaction
  | Err detail => fail (BrowserError operation (diagnostic subject) (diagnostic detail))
  end.

Definition set_attribute (element : Node) (ns : ElementNamespace) (name value : chars) : M unit :=
  browser_call_on SetAttribute name (fun d => element_set_attribute d element (attribute_namespace ns name) name value).

Definition validate_mount_text (value : chars) (parent : option ParentContext) (has_content : bool) : result RenderError unit :=
  match find_normalized 0 value with
  | Some (index, character) => Err (ParserNormalizedText index character)
  | None => validate_direct_text parent value has_content
  end.

Definition validate_mount_element (parent : option ParentContext) (t : chars) (ns : ElementNamespace) : result RenderError unit :=
  _ ← validate_parser_adjusted_svg_tag parent t ns;
  validate_direct_element parent t ns.

Definition validate_mount_attribute (t name value : chars) (ns : ElementNamespace) : result MountError unit :=
  _ ← map_err InvalidView (validate_attribute_value name value);
  map_err InvalidRender (validate_parser_adjusted_svg_attribute t name ns).

(** ** Scopes and nodes *)

(** [MountScope::with_errors_and_ancestors]: a lease of the scope, a lease of its sentinel. *)
Definition new_scope (ancestors : list ScopeId) (o : OriginId) : M ScopeId :=
  id ← gets (fun w => fresh (dom (cleanups w) ∪ dom (scopes w)));
  _ ← modify (fun w => set_cleanups (<[id := mkCleanup None [] ancestors o false false false true 2 0]> (cleanups w)) w);
  _ ← put_scope id (mkScope true false true false);
  mret id.

Definition register_node (id : ScopeId) (n : Node) : M unit :=
  s ← scope_of id;
  match s with
  | Some s =>
      if has_lease s then modify (with_cleanup id (fun c => put_owned_nodes (owned_nodes c ++ [n]) c))
      else fail (scope_gone RegisterCleanup)
  | None => fail (scope_gone RegisterCleanup)
  end.

(** [cleanup_weak]. *)
Definition ensure_leased (id : ScopeId) : M unit :=
  s ← scope_of id;
  match s with
  | Some s => if has_lease s then mret tt else fail (scope_gone RegisterCleanup)
  | None => fail (scope_gone RegisterCleanup)
  end.

Definition created (id : ScopeId) (make : Document -> Node * Document) : M Node :=
  made ← gets (fun w => make (doc w));
  _ ← modify (set_doc made.2);
  _ ← register_node id made.1;
  mret made.1.

Definition fork_origin (o : OriginId) : M OriginId :=
  id ← gets (fun w => fresh (dom (origins w)));
  _ ← modify (fun w => set_origins (<[id := mkOrigin 0 None (Some o)]> (origins w)) w);
  mret id.

Definition scope_origin (id : ScopeId) : M OriginId := c ← cleanup_of id; mret (origin c).

(** [owner.effect(..)]: the first run; disposals it deferred follow it. *)
Definition install_effect {A} (id : ScopeId) (run : M A) : M A :=
  owner_operation InstallEffect id
    (_ ← modify (fun w => set_running (id :: running w) w);
     r ← try run;
     _ ← end_effect fuel id;
     of_result r).

(** ** Effects of texts and attributes *)

(** One run of the effect of a dynamic text that answers [candidate]. *)
Definition run_text_effect (id : ScopeId) (target : N) (text : Node) (context : option ParentContext)
    (has_content : bool) (candidate : chars) : M (option MountError) :=
  r ← try
    (_ ← upgrade InstallEffect id;
     releasing [id]
       (chain ← active_chain InstallEffect id;
        releasing chain
          (_ ← run_site (AnswerValue id);
           _ ← ensure_all_active InstallEffect chain;
           _ ← of_result (map_err InvalidRender (validate_mount_text candidate context has_content));
           _ ← ensure_all_active InstallEffect chain;
           previous ← gets (fun w => text_data (doc w) text);
           plan ← before_dom_commit target (SetText (clen previous) (clen candidate));
           _ ← ensure_all_active InstallEffect chain;
           _ ← modify (fun w => set_doc (set_text_data candidate text (doc w)) w);
           after_dom_commit plan)));
  match r with
  | Ok _ => mret None
  | Err error => _ ← modify (record_error error); mret (Some error)
  end.

(** One run of the effect of a dynamic attribute. *)
Definition run_attribute_effect (id : ScopeId) (target : N) (element : Node) (t : chars) (ns : ElementNamespace)
    (name : chars) (answer : result DomError chars) : M (option MountError) :=
  r ← try
    (_ ← upgrade InstallEffect id;
     releasing [id]
       (chain ← active_chain SetAttribute id;
        releasing chain
          (_ ← run_site (AnswerValue id);
           _ ← ensure_all_active SetAttribute chain;
           candidate ← of_result (map_err InvalidView answer);
           _ ← of_result (validate_mount_attribute t name candidate ns);
           _ ← ensure_all_active SetAttribute chain;
           previous ← gets (fun w => get_attribute (doc w) element ns name);
           plan ← before_dom_commit target
                    (SetAttributeOp name (bool_decide (is_Some previous)) (clen candidate));
           _ ← ensure_all_active SetAttribute chain;
           write ← try (set_attribute element ns name candidate);
           _ ← ensure_all_active SetAttribute chain;
           _ ← of_result write;
           after_dom_commit plan)));
  match r with
  | Ok _ => mret None
  | Err error => _ ← modify (record_error error); mret (Some error)
  end.

(** An effect whose first run failed makes the mount fail. *)
Definition first_run (id : ScopeId) (run : M (option MountError)) : M unit :=
  failed ← install_effect id run;
  match failed with Some error => fail error | None => mret tt end.

(** ** Slots *)

(** The markers of a slot, its state, and the first run of its effect. *)
Definition install_slot (position : MountPosition) (id : ScopeId) (opening closing subject_start subject_end : string)
    (initial : SlotContent) (run : SlotId -> M (option MountError)) : M unit :=
  made ← gets (fun w => create_comment (str opening) (doc w));
  let '(start, d) := made in
  _ ← modify (set_doc d);
  made ← gets (fun w => create_comment (str closing) (doc w));
  let '(end_, d) := made in
  _ ← modify (set_doc d);
  _ ← register_node id start;
  _ ← register_node id end_;
  _ ← insert_before (position_parent position) start (position_before position) subject_start;
  _ ← insert_before (position_parent position) end_ (position_before position) subject_end;
  parent_origin ← scope_origin id;
  o ← fork_origin parent_origin;
  _ ← ensure_leased id;
  target ← next_dom_target;
  slot ← gets (fun w => fresh (dom (slots w)));
  _ ← modify (fun w => set_slots (<[slot := mkEffect id start end_ o target (mkSlot Ready initial)]> (slots w)) w);
  first_run id (run slot).

Definition unsupported_keyed_parent (parent : option ParentContext) : bool :=
  match parent with Some p => one_of ["pre"; "textarea"; "title"] (parent_tag p) | None => false end.

(** ** Staging *)

(** [stage_view] around the walk of the view, which is told where to insert. *)
Definition stage_view (ns : ElementNamespace) (context : option ParentContext) (prefix_content : bool)
    (walk : MountPosition -> bool -> ScopeId -> M bool) : Stager := fun ancestors o =>
  made ← gets (fun w => create_fragment (doc w));
  let '(fragment, d) := made in
  _ ← modify (set_doc d);
  start ← gets (fun w => create_comment (str "pliego:mount") (doc w));
  _ ← modify (set_doc start.2);
  end_ ← gets (fun w => create_comment (str "/pliego:mount") (doc w));
  _ ← modify (set_doc end_.2);
  id ← new_scope ancestors o;
  or_drop fuel [id]
    (_ ← register_node id start.1;
     _ ← register_node id end_.1;
     _ ← append_child fragment start.1 "mount start boundary";
     _ ← append_child fragment end_.1 "mount end boundary";
     _ ← walk (mkPosition fragment (Some end_.1) ns context) prefix_content id;
     owned ← check (fun d => snapshot_boundary_range d start.1 end_.1 "mount range");
     _ ← ensure_leased id;
     _ ← modify (with_cleanup id (put_range (Some (mkRange start.1 end_.1 owned.2 "mount range"))));
     mret (mkStaged fragment id)).

(** ** The walk over a view *)

Definition mount_attribute (id : ScopeId) (element : Node) (t : chars) (ns : ElementNamespace) (a : chars * AttrValue) : M unit :=
  let '(name, value) := a in
  match value with
  | Static value =>
      _ ← of_result (validate_mount_attribute t name value ns);
      set_attribute element ns name value
  | Dyn answer =>
      target ← next_dom_target;
      _ ← ensure_leased id;
      first_run id (run_attribute_effect id target element t ns name answer)
  end.

(** [install_listener]; the removal of the listener is a cleanup of the owner. *)
Definition install_listener (id : ScopeId) (element : Node) (event : chars) : M unit :=
  _ ← on_cleanup id;
  browser_call_on AddEventListener event (fun d => add_event_listener d element event).

(** The answer is whether serialized content precedes what follows. *)
Fixpoint mount_before (v : View) (position : MountPosition) (direct : bool) (id : ScopeId) {struct v} : M bool :=
  match v with
  | Text value =>
      _ ← of_result (map_err InvalidRender (validate_mount_text value (parent_context position) direct));
      text ← created id (create_text_node value);
      _ ← insert_before (position_parent position) text (position_before position) "text node";
      mret (direct || negb (bool_decide (value = [])))
  | DynText answer =>
      text ← created id (create_text_node []);
      _ ← insert_before (position_parent position) text (position_before position) "dynamic text node";
      target ← next_dom_target;
      _ ← ensure_leased id;
      _ ← first_run id (run_text_effect id target text (parent_context position) direct answer);
      mret direct
  | Fragment children =>
      (fix each (children : list View) (direct : bool) : M bool :=
         match children with
         | [] => mret direct
         | child :: children => direct ← mount_before child position direct id; each children direct
         end) children direct
  | Element (mkElement t attributes events children) =>
      let ns := for_element (inherited_namespace position) t in
      _ ← of_result (map_err InvalidRender (validate_mount_element (parent_context position) t ns));
      _ ← (if is_void_in t ns && negb (match children with [] => true | _ => false end)
           then fail (StructureError VoidElementHasChildren (diagnostic t)) else mret tt);
      made ← gets (fun w => create_element ns t (doc w));
      made ← of_result (map_err (fun detail => BrowserError CreateElement (diagnostic t) (diagnostic detail)) made);
      _ ← modify (set_doc made.2);
      _ ← register_node id made.1;
      let element := made.1 in
      _ ← for_each (mount_attribute id element t ns) attributes;
      _ ← for_each (install_listener id element) events;
      _ ← (if is_void_in t ns then mret false
           else (fix each (children : list View) (direct : bool) : M bool :=
                   match children with
                   | [] => mret direct
                   | child :: children =>
                       direct ← mount_before child
                                  (mkPosition element None (for_children ns t) (Some (child_parent (parent_context position) t ns)))
                                  direct id;
                       each children direct
                   end) children false);
      _ ← browser_call_on InsertRange t (fun d => node_insert_before d (position_parent position) element (position_before position));
      mret true
  | DynView answer =>
      _ ← install_slot position id "pliego:dyn" "/pliego:dyn" "dynamic start boundary" "dynamic end boundary"
            (DynamicContent None)
            (fun slot => run_dynamic_effect fuel slot
               (stage_view (inherited_namespace position) (parent_context position) direct (mount_before answer)));
      mret direct
  | Keyed rows =>
      _ ← (if unsupported_keyed_parent (parent_context position)
           then fail (keyed_error (UnsupportedParent (parent_name (parent_context position)))) else mret tt);
      let stager := stage_view (inherited_namespace position) (parent_context position) direct in
      let pending :=
        match rows with
        | Ok rows =>
            Ok ((fix each (rows : list (KeyedKey * result KeyedError View)) :=
                   match rows with
                   | [] => []
                   | (key, built) :: rows =>
                       (key, match built with Ok view => Ok (stager (mount_before view)) | Err e => Err e end) :: each rows
                   end) rows)
        | Err e => Err e
        end in
      _ ← install_slot position id "pliego:keyed" "/pliego:keyed" "keyed start boundary" "keyed end boundary"
            (KeyedContent []) (fun slot => run_keyed_effect fuel slot pending);
      mret direct
  end.

(** ** Hosts *)

Definition HTML_URI : chars := str "http://www.w3.org/1999/xhtml".
Definition SVG_URI : chars := str "http://www.w3.org/2000/svg".

Definition existing_element_namespace (element : Node) : result MountError ElementNamespace :=
  if bool_decide (namespace_uri element = Some HTML_URI) then Ok Html
  else if bool_decide (namespace_uri element = Some SVG_URI) then Ok Svg
  else Err (UnsupportedNamespace (diagnostic (default (str "<null>") (namespace_uri element)))).

Definition namespace_for_existing_element (uri : option chars) (name : chars) : ElementNamespace :=
  if negb (bool_decide (uri = Some SVG_URI)) then Html
  else if one_of ["foreignObject"; "desc"; "title"] name then Html else Svg.

Definition namespace_for_children (parent : Node) : result MountError ElementNamespace :=
  if is_element parent then
    _ ← existing_element_namespace parent;
    Ok (namespace_for_existing_element (namespace_uri parent) (local_name parent))
  else Ok Html.

(** The element and its enclosing elements, from the innermost. *)
Fixpoint element_lineage (passes : nat) (d : Document) (element : Node) : list Node :=
  element ::
    match passes, parent_node d element with
    | S passes, Some parent => if is_element parent then element_lineage passes d parent else []
    | _, _ => []
    end.

(** One step of the loop over the lineage, from the outermost. *)
Definition host_context (enclosing : option ParentContext) (element : Node) : result MountError (option ParentContext) :=
  t ← map_err InvalidView (dom_name Tag (local_name element));
  ns ← existing_element_namespace element;
  let child_ns := namespace_for_existing_element (namespace_uri element) (local_name element) in
  Ok (Some (mkParent t ns (descend (from_option parser default_context enclosing) t ns child_ns))).

Fixpoint host_contexts (enclosing : option ParentContext) (lineage : list Node) : result MountError (option ParentContext) :=
  match lineage with
  | [] => Ok enclosing
  | element :: lineage => context ← host_context enclosing element; host_contexts context lineage
  end.

Definition mount_parent_context (d : Document) (parent : Node) : result MountError (option ParentContext) :=
  if is_element parent then host_contexts None (rev (element_lineage (node_count d) d parent)) else Ok None.

(** [ErrorSlot::new]: the origin of a root. *)
Definition ROOT_ORIGIN : OriginId := 0.
Definition root_origin (w : World) : World := set_origins (<[ROOT_ORIGIN := mkOrigin 0 None None]> (origins w)) w.

(** [mount_with_optional_observer]; the world says whether there is an observer. *)
Definition mount (v : View) (parent : Node) : M ScopeId :=
  ns ← check (fun _ => namespace_for_children parent);
  context ← check (fun d => mount_parent_context d parent);
  _ ← modify root_origin;
  staged ← stage_view ns context false (mount_before v) [] ROOT_ORIGIN;
  or_drop fuel [staged_scope staged]
    (_ ← append_child parent (fragment staged) "mount root";
     _ ← validate_owned_range (staged_scope staged);
     mret (staged_scope staged)).
End mounting.
