(* ===== verification/MountReconcile.v ===== *)
(** * MountReconcile: the mutation of a keyed update is exact ([pliego-dom])

    Theorems on [mutate_rows] of [MountUpdate], in a browser that behaves as the DOM
    standard says and with no foreign code interfering: whatever order, insertions and
    removals an update asks for, the children of the parent become what surrounds the
    slot and, between its markers, exactly the target rows; the loop never fails. *)

From S2P Require Import Prelude Reactive DomName Dom MountTree MountState MountSample MountLayout MountScope KeyedLis MountUpdate.
From Stdlib Require Import Sorted.

Local Open Scope N_scope.

(** No code outside the framework does anything. *)
Class Quiet `{Foreign} : Prop := {
  quiet_foreign site w : foreign site w = w;
  quiet_reenters site w : reenters site w = [];
}.

(** ** Lists of children *)

Lemma without_nil_r ms : without ms [] = [].
Proof. done. Qed.

Lemma without_app ms xs ys : without ms (xs ++ ys) = (without ms xs ++ without ms ys)%list.
Proof. apply filter_app. Qed.

Lemma elem_of_without_nodes ms xs x : x ∈ without ms xs <-> x ∈ xs /\ x ∉ ms.
Proof. unfold without. rewrite list_elem_of_filter. tauto. Qed.

Lemma filter_none {A} (P : A -> Prop) `{!forall x, Decision (P x)} (xs : list A) :
  (forall x, x ∈ xs -> ~ P x) -> filter P xs = [].
Proof. intros Hno. apply elem_of_nil_inv. intros x [Hp Hx]%list_elem_of_filter. by apply (Hno x). Qed.

Lemma without_none ms xs : (forall x, x ∈ xs -> x ∉ ms) -> without ms xs = xs.
Proof. apply filter_all. Qed.

Lemma place_split ms a xs ys : a ∉ xs -> place ms (Some a) (xs ++ a :: ys) = (xs ++ ms ++ a :: ys)%list.
Proof.
  induction xs as [|x xs IH]; intros Ha; cbn.
  - by rewrite bool_decide_eq_true_2.
  - rewrite bool_decide_eq_false_2 by set_solver. rewrite IH by set_solver. done.
Qed.

Lemma place_end ms xs : place ms None xs = (xs ++ ms)%list.
Proof. by induction xs as [|x xs IH]; cbn; [done|rewrite IH]. Qed.

Lemma elem_of_place ms before xs x :
  (forall b, before = Some b -> b ∈ xs) -> x ∈ place ms before xs <-> x ∈ ms \/ x ∈ xs.
Proof.
  destruct before as [b|]; [|rewrite place_end, elem_of_app; tauto].
  intros Hb. specialize (Hb b eq_refl). apply list_elem_of_split_l in Hb as (xs1 & xs2 & -> & Hb).
  rewrite place_split by done. rewrite !elem_of_app. tauto.
Qed.

(** Inserting [ms] before [a], seen through a filter that keeps [a] and lets [ms] in. *)
Lemma filter_place (S ms : list Node) a cs :
  a ∈ cs -> a ∈ S -> a ∉ ms -> (forall m, m ∈ ms -> m ∉ S) ->
  filter (fun c => c ∈ ms ++ S) (place ms (Some a) (without ms cs)) = place ms (Some a) (filter (fun c => c ∈ S) cs).
Proof.
  intros Ha HaS Hms Hdisj. apply list_elem_of_split_l in Ha as (xs & ys & -> & Hxs).
  assert (Hw : forall zs, filter (fun c => c ∈ ms ++ S) (without ms zs) = filter (fun c => c ∈ S) zs).
  { intros zs. induction zs as [|z zs IH]; [done|]. unfold without in *. rewrite !filter_cons.
    destruct (decide (z ∉ ms)) as [Hz|Hz]; [|].
    - rewrite filter_cons, IH. destruct (decide (z ∈ S)).
      + by rewrite !decide_True by set_solver.
      + by rewrite !decide_False by set_solver.
    - rewrite IH, decide_False; [done|]. intros ?. apply Hz. intros ?. by apply (Hdisj z). }
  rewrite without_app. unfold without at 2. rewrite filter_cons_True by done. fold (without ms ys).
  rewrite place_split by (rewrite elem_of_without_nodes; tauto).
  rewrite !filter_app, (filter_cons_True _ a ys) by done. rewrite place_split by (rewrite list_elem_of_filter; tauto).
  rewrite filter_cons_True by set_solver. rewrite !Hw. do 2 f_equal. apply filter_all. set_solver.
Qed.

(** ** Calls in a quiet browser *)

Section quiet.
Context `{Foreign, !Quiet, !BrowserLaws}.

Lemma set_doc_id w : set_doc (doc w) w = w.
Proof. by destruct w. Qed.

Lemma set_doc_twice d d' w : set_doc d (set_doc d' w) = set_doc d w.
Proof. done. Qed.

Lemma at_site_quiet site w : at_site site w = w.
Proof.
  unfold at_site. rewrite quiet_foreign, quiet_reenters. cbn.
  assert (Hs : filter (fun p => is_private w p.2 = true) (slots w) ∪ slots w = slots w).
  { apply map_eq. intros i. rewrite lookup_union. destruct (filter _ (slots w) !! i) as [e|] eqn:He.
    - apply map_lookup_filter_Some in He as [He _]. by rewrite He.
    - by destruct (slots w !! i). }
  rewrite Hs. by destruct w.
Qed.

Lemma browser_call_quiet operation subject call w d :
  call (doc w) = Ok d -> browser_call operation subject call w = Ran (Ok tt, set_doc d w).
Proof.
  intros Hc. unfold browser_call, gets, mbind, m_bind. rewrite Hc. unfold run_site, modify. by rewrite at_site_quiet.
Qed.

Lemma child_not_fragment d n p : parent_node d n = Some p -> is_fragment n = false.
Proof. intros Hp. destruct (is_fragment n) eqn:Hf; [|done]. by rewrite (fragment_is_root d n Hf) in Hp. Qed.

Lemma other_parent d n p q : n ∈ child_nodes d p -> n ∈ child_nodes d q -> p = q.
Proof. rewrite <- !parent_child. congruence. Qed.

Lemma is_ok_inv {E A} (r : result E A) : is_ok r = true -> exists a, r = Ok a.
Proof. destruct r; [by eexists|done]. Qed.

(** Moving a sibling before another child of its parent. *)
Lemma insert_before_sibling w p n a subject :
  n ∈ child_nodes (doc w) p -> a ∈ child_nodes (doc w) p -> n <> a ->
  exists d', insert_before p n (Some a) subject w = Ran (Ok tt, set_doc d' w)
    /\ child_nodes d' p = place [n] (Some a) (without [n] (child_nodes (doc w) p))
    /\ (forall q, q <> p -> child_nodes d' q = child_nodes (doc w) q)
    /\ (forall q, in_lineage d' q p <-> in_lineage (doc w) q p).
Proof.
  intros Hn Ha Hne. apply parent_child in Hn as Hpn. apply parent_child in Ha as Hpa.
  destruct (is_ok_inv _ (insert_sibling _ _ _ _ Hpn Hpa)) as [d' Hd'].
  exists d'. split; [by apply browser_call_quiet|].
  assert (Hm : moved_nodes (doc w) n = [n]) by (unfold moved_nodes; by rewrite (child_not_fragment _ _ _ Hpn)).
  assert (Hins : inserted (doc w) p n (Some a) d').
  { eapply insert_inserted; [done|]. intros b [= <-]. rewrite Hm. set_solver. }
  unfold inserted in Hins. rewrite Hm in Hins. split; [|split].
  - rewrite Hins. by rewrite bool_decide_eq_true_2.
  - intros q Hq. rewrite Hins, bool_decide_eq_false_2 by done. apply without_none.
    intros x Hx ->%list_elem_of_singleton. by apply Hq, (other_parent (doc w) n).
  - intros q. by eapply insert_lineage.
Qed.

(** Inserting a fragment outside the parent's ancestors. *)
Lemma insert_before_fragment w p f a subject :
  is_fragment f = true -> a ∈ child_nodes (doc w) p -> is_element p || is_fragment p = true ->
  (forall q, in_lineage (doc w) q p -> q <> f) ->
  exists d', insert_before p f (Some a) subject w = Ran (Ok tt, set_doc d' w)
    /\ child_nodes d' p = place (child_nodes (doc w) f) (Some a) (child_nodes (doc w) p)
    /\ child_nodes d' f = []
    /\ (forall q, q <> p -> q <> f -> child_nodes d' q = child_nodes (doc w) q)
    /\ (forall q, in_lineage d' q p <-> in_lineage (doc w) q p).
Proof.
  intros Hf Ha Hk Hout. apply parent_child in Ha as Hpa.
  destruct (is_ok_inv _ (insert_fragment _ _ _ _ Hf Hpa Hk Hout)) as [d' Hd'].
  assert (Hpf : p <> f) by (apply Hout; constructor).
  exists d'. split; [by apply browser_call_quiet|].
  assert (Hm : moved_nodes (doc w) f = child_nodes (doc w) f) by (unfold moved_nodes; by rewrite Hf).
  assert (Hins : inserted (doc w) p f (Some a) d').
  { eapply insert_inserted; [done|]. intros b [= <-]. rewrite Hm. intros Hb. by apply Hpf, (other_parent (doc w) a). }
  unfold inserted in Hins. rewrite Hm in Hins.
  assert (Hother : forall q, q <> f -> without (child_nodes (doc w) f) (child_nodes (doc w) q) = child_nodes (doc w) q).
  { intros q Hq. apply without_none. intros x Hx Hxf. by apply Hq, (other_parent (doc w) x). }
  split_and!.
  - rewrite Hins, bool_decide_eq_true_2 by done. by rewrite Hother.
  - rewrite Hins, bool_decide_eq_false_2 by done. apply filter_none. tauto.
  - intros q Hq Hqf. rewrite Hins, bool_decide_eq_false_2 by done. by apply Hother.
  - intros q. by eapply insert_lineage.
Qed.

(** Appending a child to an empty-handed fragment. *)
Lemma append_child_fragment w f n p subject :
  is_fragment f = true -> n ∈ child_nodes (doc w) p -> n <> f -> p <> f ->
  exists d', append_child f n subject w = Ran (Ok tt, set_doc d' w)
    /\ child_nodes d' p = without [n] (child_nodes (doc w) p)
    /\ (forall q, q <> p -> q <> f -> child_nodes d' q = child_nodes (doc w) q).
Proof.
  intros Hf Hn Hne Hpf. apply parent_child in Hn as Hpn.
  destruct (is_ok_inv _ (insert_in_fragment _ _ _ _ Hf (fragment_is_root _ _ Hf) Hpn Hne)) as [d' Hd'].
  exists d'. split; [by apply browser_call_quiet|].
  assert (Hm : moved_nodes (doc w) n = [n]) by (unfold moved_nodes; by rewrite (child_not_fragment _ _ _ Hpn)).
  assert (Hins : inserted (doc w) f n None d') by (eapply insert_inserted; done).
  unfold inserted in Hins. rewrite Hm in Hins. split.
  - by rewrite Hins, bool_decide_eq_false_2.
  - intros q Hq Hqf. rewrite Hins, bool_decide_eq_false_2 by done. apply without_none.
    intros x Hx ->%list_elem_of_singleton. by apply Hq, (other_parent (doc w) n).
Qed.

(** ** Blocks of nodes *)

(** What is seen of the children of [p] through the settled nodes. *)
Definition seen (S : list Node) (d : Document) (p : Node) : list Node := filter (fun c => c ∈ S) (child_nodes d p).

Lemma seen_iff S S' d p : (forall x, x ∈ S <-> x ∈ S') -> seen S d p = seen S' d p.
Proof. intros HS. apply list_filter_iff. apply HS. Qed.

Lemma seen_split S d p xs a ys : seen S d p = (xs ++ a :: ys)%list -> a ∈ child_nodes d p /\ a ∈ S /\ a ∉ xs.
Proof.
  intros Hs. assert (Ha : a ∈ seen S d p) by (rewrite Hs; set_solver).
  apply list_elem_of_filter in Ha as [HaS Ha]. split_and!; [done|done|].
  assert (Hnd : NoDup (seen S d p)) by (apply NoDup_filter, children_nodup).
  rewrite Hs in Hnd. apply NoDup_app in Hnd as (_ & Hnd & _). intros Hx. apply (Hnd a Hx). left.
Qed.

(** The two kinds of insertion: the block appears before the anchor, and nothing else
    that is settled moves. *)
Definition block_inserted (S : list Node) (w : World) (p : Node) (block xs : list Node) (a : Node) (ys : list Node) (d' : Document) : Prop :=
  seen (block ++ S) d' p = (xs ++ block ++ a :: ys)%list
  /\ (forall x, x ∈ child_nodes d' p <-> x ∈ child_nodes (doc w) p \/ x ∈ block)
  /\ (forall q, in_lineage d' q p <-> in_lineage (doc w) q p).

Lemma insert_all_spec S p a ns subject : forall w xs ys,
  seen S (doc w) p = (xs ++ a :: ys)%list -> NoDup ns ->
  (forall n, n ∈ ns -> n ∈ child_nodes (doc w) p /\ n ∉ S) ->
  exists d', insert_all p a ns subject w = Ran (Ok tt, set_doc d' w)
    /\ block_inserted S w p ns xs a ys d'
    /\ (forall q, q <> p -> child_nodes d' q = child_nodes (doc w) q).
Proof.
  revert S. induction ns as [|n ns IH]; intros S w xs ys Hs Hnd Hns.
  { exists (doc w). split; [by rewrite set_doc_id|]. split; [|done]. split_and!; [done| |done]. set_solver. }
  apply NoDup_cons in Hnd as [Hn Hnd]. destruct (Hns n ltac:(left)) as [Hnc HnS].
  destruct (seen_split _ _ _ _ _ _ Hs) as (Hac & HaS & Haxs).
  destruct (insert_before_sibling w p n a subject Hnc Hac ltac:(congruence)) as (d1 & Hrun & Hp & Hother & Hlin).
  assert (Hs1 : seen (n :: S) d1 p = ((xs ++ [n]) ++ a :: ys)%list).
  { unfold seen. rewrite Hp. pose proof (filter_place S [n] a (child_nodes (doc w) p)) as Hf. cbn in Hf.
    rewrite Hf; [|done|done|set_solver|set_solver]. fold (seen S (doc w) p). rewrite Hs.
    rewrite place_split by done. by rewrite <- app_assoc. }
  assert (Hin : forall x, x ∈ child_nodes d1 p <-> x ∈ child_nodes (doc w) p).
  { assert (n <> a) as Hna by congruence. intros x. rewrite Hp, elem_of_place, elem_of_without_nodes, list_elem_of_singleton.
    - clear -Hnc. destruct (decide (x = n)) as [->|]; tauto.
    - intros b [= <-]. rewrite elem_of_without_nodes, list_elem_of_singleton. clear -Hac Hna. split; congruence. }
  destruct (IH (n :: S) (set_doc d1 w) (xs ++ [n])%list ys Hs1 Hnd) as (d' & Hrun' & (Hs' & Hin' & Hlin') & Hother').
  { intros m Hm. cbn. rewrite Hin. destruct (Hns m ltac:(by right)). split; [done|]. apply not_elem_of_cons. split; [congruence|done]. }
  exists d'. split; [|split; [split_and!|]].
  - unfold insert_all in *. cbn. unfold mbind, m_bind. by rewrite Hrun, Hrun'.
  - erewrite seen_iff; [rewrite Hs'; by rewrite <- app_assoc|].
    intros x. clear. rewrite !elem_of_app, !elem_of_cons. tauto.
  - intros x. rewrite Hin'. cbn. rewrite Hin. clear -Hnc. rewrite elem_of_cons. naive_solver.
  - intros q. rewrite Hlin'. apply Hlin.
  - intros q Hq. rewrite Hother' by done. by apply Hother.
Qed.

Lemma insert_fragment_spec S p f a subject w xs ys :
  seen S (doc w) p = (xs ++ a :: ys)%list -> is_fragment f = true -> is_element p || is_fragment p = true ->
  (forall q, in_lineage (doc w) q p -> q <> f) -> (forall n, n ∈ child_nodes (doc w) f -> n ∉ S) ->
  exists d', insert_before p f (Some a) subject w = Ran (Ok tt, set_doc d' w)
    /\ block_inserted S w p (child_nodes (doc w) f) xs a ys d'
    /\ child_nodes d' f = []
    /\ (forall q, q <> p -> q <> f -> child_nodes d' q = child_nodes (doc w) q).
Proof.
  intros Hs Hf Hk Hout HnS. destruct (seen_split _ _ _ _ _ _ Hs) as (Hac & HaS & Haxs).
  assert (Hpf : p <> f) by (apply Hout; constructor).
  destruct (insert_before_fragment w p f a subject Hf Hac Hk Hout) as (d' & Hrun & Hp & Hfe & Hother & Hlin).
  exists d'. split; [done|]. split; [|done].
  assert (Hw : without (child_nodes (doc w) f) (child_nodes (doc w) p) = child_nodes (doc w) p).
  { apply without_none. intros x Hx Hxf. by apply Hpf, (other_parent (doc w) x). }
  split_and!; [| |done].
  - unfold seen. rewrite Hp, <- Hw at 1. rewrite filter_place; [|done|done| |done].
    + fold (seen S (doc w) p). by rewrite Hs, place_split.
    + intros Haf. by apply Hpf, (other_parent (doc w) a).
  - intros x. rewrite Hp, elem_of_place; [tauto|]. by intros b [= <-].
Qed.
End quiet.

(** ** The rows of an update *)

Definition row_nodes (row : PlannedKeyedRow) : list Node := nodes (planned_snapshot row).

(** The rows the loop leaves in place. *)
Definition staying (rk : PlannedKeyedRow * bool) : bool := match rk with (Retained _ _, true) => true | _ => false end.

Definition staying_nodes (rows : list (PlannedKeyedRow * bool)) : list Node :=
  concat (map (fun rk => if staying rk then row_nodes rk.1 else []) rows).
Definition moving_nodes (rows : list (PlannedKeyedRow * bool)) : list Node :=
  concat (map (fun rk => if staying rk then [] else row_nodes rk.1) rows).
Definition all_nodes (rows : list (PlannedKeyedRow * bool)) : list Node := concat (map (fun rk => row_nodes rk.1) rows).

Definition fragments (rows : list PlannedKeyedRow) : list Node :=
  omap (fun row => match row with Fresh _ staged _ => Some (fragment staged) | Retained _ _ => None end) rows.

Section rows.
Context `{Foreign, !Quiet, !BrowserLaws}.

(** A row that starts with its marker; one to move is among the children of the
    parent, one to insert is a fragment outside the parent's ancestors. *)
Definition row_ready (d : Document) (p : Node) (S : list Node) (rk : PlannedKeyedRow * bool) : Prop :=
  head (row_nodes rk.1) = Some (start (planned_snapshot rk.1))
  /\ match rk with
     | (Retained _ _, true) => True
     | (Retained _ s, false) => NoDup (nodes s) /\ forall n, n ∈ nodes s -> n ∈ child_nodes d p /\ n ∉ S
     | (Fresh _ staged s, _) =>
         is_fragment (fragment staged) = true /\ child_nodes d (fragment staged) = nodes s
         /\ (forall q, in_lineage d q p -> q <> fragment staged) /\ forall n, n ∈ nodes s -> n ∉ S
     end.

(** A row stays ready while another block is inserted. *)
Lemma row_ready_step d p S rk block d1 :
  row_ready d p S rk ->
  (forall x, x ∈ child_nodes d p -> x ∈ child_nodes d1 p) ->
  (forall q, in_lineage d1 q p <-> in_lineage d q p) ->
  (forall f, f ∈ fragments [rk.1] -> child_nodes d1 f = child_nodes d f) ->
  (forall n, n ∈ moving_nodes [rk] -> n ∉ block) ->
  row_ready d1 p (block ++ S) rk.
Proof.
  intros [Hh Hr] Hin Hlin Hfrag Hdis. split; [done|].
  destruct rk as [[i s|k st s] []]; [done| | |];
    unfold moving_nodes in Hdis; cbn in Hdis; rewrite app_nil_r in Hdis; unfold row_nodes in Hdis; cbn in Hdis.
  - destruct Hr as [Hnd Hn]. split; [done|]. intros n Hns. destruct (Hn n Hns). split; [by apply Hin|].
    apply not_elem_of_app. split; [by apply Hdis|done].
  - destruct Hr as (Hf & Hc & Hout & Hn). rewrite Hfrag by (cbn; set_solver). split_and!; [done|done| |].
    + intros q Hq%Hlin. by apply Hout.
    + intros n Hns. apply not_elem_of_app. split; [by apply Hdis|by apply Hn].
  - destruct Hr as (Hf & Hc & Hout & Hn). rewrite Hfrag by (cbn; set_solver). split_and!; [done|done| |].
    + intros q Hq%Hlin. by apply Hout.
    + intros n Hns. apply not_elem_of_app. split; [by apply Hdis|by apply Hn].
Qed.

Lemma concat_map_snoc {A B} (f : A -> list B) xs x : concat (map f (xs ++ [x])) = (concat (map f xs) ++ f x)%list.
Proof. rewrite map_app, concat_app. cbn. by rewrite app_nil_r. Qed.

(** One row that does not stay: its block is inserted before the anchor. *)
Lemma place_one S p a rk w xs ys :
  staying rk = false -> row_ready (doc w) p S rk -> is_element p || is_fragment p = true ->
  seen S (doc w) p = (xs ++ a :: ys)%list ->
  exists d1, (forall todo, place_rows p a (rk :: todo) w
                 = place_rows p (start (planned_snapshot rk.1)) todo (set_doc d1 (set_irreversible true w)))
    /\ block_inserted S w p (row_nodes rk.1) xs a ys d1
    /\ (forall q, q <> p -> q ∉ fragments [rk.1] -> child_nodes d1 q = child_nodes (doc w) q).
Proof.
  intros Hst [Hh Hr] Hk Hs. destruct rk as [[i s|k st s] keep].
  - destruct keep; [done|]. destruct Hr as [Hnd Hn].
    destruct (insert_all_spec S p a (nodes s) "keyed retained row" (set_irreversible true w) xs ys Hs Hnd Hn)
      as (d1 & Hrun & Hb & Hother).
    exists d1. split; [|split; [done|by intros; apply Hother]].
    intros todo. cbn [place_rows]. unfold mbind at 1, m_bind at 1, modify at 1, mbind at 1, m_bind at 1. by rewrite Hrun.
  - assert (Hr' : is_fragment (fragment st) = true /\ child_nodes (doc w) (fragment st) = nodes s
         /\ (forall q, in_lineage (doc w) q p -> q <> fragment st) /\ forall n, n ∈ nodes s -> n ∉ S) by (by destruct keep).
    clear Hr. destruct Hr' as (Hf & Hc & Hout & Hn). rewrite <- Hc in Hn.
    destruct (insert_fragment_spec S p (fragment st) a "keyed fresh row" (set_irreversible true w) xs ys Hs Hf Hk Hout Hn)
      as (d1 & Hrun & Hb & _ & Hother).
    exists d1. split; [|split].
    + intros todo. cbn [place_rows]. unfold mbind at 1, m_bind at 1, modify at 1, mbind at 1, m_bind at 1. by rewrite Hrun.
    + unfold row_nodes. cbn. rewrite <- Hc. done.
    + intros q Hq Hqf. apply Hother; [done|]. cbn in Hqf. set_solver.
Qed.

Lemma fragments_cons row rows : fragments (row :: rows) = (fragments [row] ++ fragments rows)%list.
Proof. by destruct row. Qed.

Lemma fragments_elem row rows f : row ∈ rows -> f ∈ fragments [row] -> f ∈ fragments rows.
Proof. intros Hr Hf. apply list_elem_of_omap. apply list_elem_of_omap in Hf as (r & Hr'%list_elem_of_singleton & Hf). subst. eauto. Qed.

Lemma moving_nodes_elem (rk : PlannedKeyedRow * bool) rows n : rk ∈ rows -> n ∈ moving_nodes [rk] -> n ∈ moving_nodes rows.
Proof.
  unfold moving_nodes. cbn. rewrite app_nil_r. intros Hr Hn. apply list_elem_of_In, in_concat.
  eexists. split; [apply in_map, list_elem_of_In, Hr|]. by apply list_elem_of_In.
Qed.

Lemma rows_ready_step w p S (rk : PlannedKeyedRow * bool) (todo : list (PlannedKeyedRow * bool)) d1 xs a ys :
  Forall (row_ready (doc w) p S) todo -> block_inserted S w p (row_nodes rk.1) xs a ys d1 ->
  (forall q, q <> p -> q ∉ fragments [rk.1] -> child_nodes d1 q = child_nodes (doc w) q) ->
  (forall n, n ∈ row_nodes rk.1 -> n ∉ moving_nodes todo) ->
  (forall f, f ∈ fragments [rk.1] -> f ∉ fragments (map fst todo)) ->
  Forall (row_ready d1 p (row_nodes rk.1 ++ S)) todo.
Proof.
  intros Hready (_ & Hin & Hlin) Hoth Hnodes Hfr. rewrite Forall_forall in *. intros rk' Hrk'.
  pose proof (Hready _ Hrk') as Hr. eapply row_ready_step; [exact Hr|intros; apply Hin; by left|exact Hlin| |].
  - intros f Hf. apply Hoth.
    + destruct Hr as [_ Hr]. destruct rk' as [[i s|k st s] keep]; [inversion Hf|].
      cbn in Hf. apply list_elem_of_singleton in Hf as ->. intros <-. destruct keep; by apply (proj1 (proj2 (proj2 Hr)) _ (lineage_self _ _)).
    + intros Hf'. apply (Hfr f Hf'). eapply fragments_elem; [|exact Hf]. by apply list_elem_of_In, in_map, list_elem_of_In.
  - intros n Hn Hb. apply (Hnodes n Hb). by eapply moving_nodes_elem.
Qed.

(** The loop: what stays is where it was, what moves is put in its place, from the
    last row to the first. *)
Lemma place_rows_spec p : forall todo S a w xs ys,
  is_element p || is_fragment p = true ->
  seen S (doc w) p = ((xs ++ staying_nodes (rev todo)) ++ a :: ys)%list ->
  Forall (row_ready (doc w) p S) todo -> NoDup (moving_nodes todo) -> NoDup (fragments (map fst todo)) ->
  exists d' b, place_rows p a todo w = Ran (Ok tt, set_doc d' (set_irreversible b w))
    /\ seen (moving_nodes todo ++ S) d' p = (xs ++ all_nodes (rev todo) ++ a :: ys)%list
    /\ (forall x, x ∈ child_nodes d' p <-> x ∈ child_nodes (doc w) p \/ x ∈ moving_nodes todo)
    /\ (forall q, q <> p -> q ∉ fragments (map fst todo) -> child_nodes d' q = child_nodes (doc w) q)
    /\ b = irreversible w || negb (forallb staying todo).
Proof.
  induction todo as [|rk todo IH]; intros S a w xs ys Hk Hs Hready Hnd Hfr.
  { exists (doc w), (irreversible w). cbn in *. rewrite app_nil_r in Hs. split_and!; [by destruct w|done| |done|by rewrite orb_false_r].
    intros x. split; [tauto|]. intros [?|H']; [done|inversion H']. }
  apply Forall_cons in Hready as [Hrk Hready]. destruct Hrk as [Hh Hrk'] eqn:HrkE. pose proof Hrk as Hrk0. clear HrkE.
  destruct (row_nodes rk.1) as [|h rest] eqn:Hrn; [done|]. cbn in Hh. injection Hh as Hh. subst h.
  cbn [rev] in Hs. unfold staying_nodes in Hs. rewrite concat_map_snoc in Hs. fold (staying_nodes (rev todo)) in Hs.
  destruct (staying rk) eqn:Hst.
  - rewrite Hrn in Hs. destruct (IH S (start (planned_snapshot rk.1)) w xs (rest ++ a :: ys)%list) as (d' & b & Hrun & Hs' & Hin & Hoth & Hb).
    { done. } { rewrite Hs. by rewrite <- !app_assoc. } { done. }
    { unfold moving_nodes in Hnd. cbn in Hnd. by rewrite Hst in Hnd. }
    { destruct rk as [[|] []]; done. }
    assert (Hmv : moving_nodes (rk :: todo) = moving_nodes todo) by (unfold moving_nodes; cbn; by rewrite Hst).
    exists d', b. rewrite Hmv. split_and!; [by destruct rk as [[|] []]| |done| |by cbn; rewrite Hst].
    + rewrite Hs'. cbn [rev]. unfold all_nodes. rewrite concat_map_snoc, Hrn. by rewrite <- !app_assoc.
    + intros q Hq Hqf. apply Hoth; [done|]. by destruct rk as [[|] []].
  - rewrite app_nil_r in Hs. destruct (place_one S p a rk w _ _ Hst Hrk0 Hk Hs) as (d1 & Hrun1 & (Hs1 & Hin1 & Hlin1) & Hoth1).
    assert (Hmv : moving_nodes (rk :: todo) = (row_nodes rk.1 ++ moving_nodes todo)%list) by (unfold moving_nodes; cbn; by rewrite Hst).
    rewrite Hmv in Hnd. apply NoDup_app in Hnd as (Hnd1 & Hnd2 & Hnd3).
    pose proof (fragments_cons rk.1 (map fst todo)) as Hfrs.
    cbn [map] in Hfr |- *. rewrite Hfrs in Hfr. apply NoDup_app in Hfr as (Hfr1 & Hfr2 & Hfr3).
    destruct (IH (row_nodes rk.1 ++ S)%list (start (planned_snapshot rk.1)) (set_doc d1 (set_irreversible true w)) xs (rest ++ a :: ys)%list)
      as (d' & b & Hrun & Hs' & Hin & Hoth & Hb).
    { done. } { cbn. rewrite Hs1, Hrn. by rewrite <- !app_assoc. }
    { eapply rows_ready_step; done. }
    { done. } { done. }
    exists d', b. rewrite Hmv. split_and!.
    + by rewrite Hrun1, Hrun.
    + erewrite seen_iff; [rewrite Hs'|].
      * cbn [rev]. unfold all_nodes. rewrite concat_map_snoc, Hrn. by rewrite <- !app_assoc.
      * intros x. rewrite !elem_of_app. tauto.
    + intros x. rewrite Hin. cbn. rewrite Hin1, elem_of_app. tauto.
    + intros q Hq Hqf. rewrite Hfrs in Hqf. apply not_elem_of_app in Hqf as [Hq1 Hq2].
      rewrite Hoth by done. by apply Hoth1.
    + cbn in *. by rewrite Hst, orb_true_r.
Qed.
End rows.

(** ** Retirement *)

Fixpoint removed_nodes (index : nat) (retained : list nat) (snapshots : list OwnedRangeSnapshot) : list Node :=
  match snapshots with
  | [] => []
  | s :: snapshots => ((if bool_decide (index ∈ retained) then [] else nodes s) ++ (removed_nodes (S index) retained snapshots))%list
  end.

Lemma elem_of_removed retained snapshots x : forall index,
  x ∈ removed_nodes index retained snapshots
  <-> exists i s, snapshots !! i = Some s /\ ((index + i)%nat ∉ retained) /\ x ∈ nodes s.
Proof.
  induction snapshots as [|s snapshots IH]; intros index; cbn.
  { split; [intros H; inversion H|]. by intros (i & s & H & _). }
  rewrite elem_of_app, IH. split.
  - intros [Hx|(i & s' & Hi & Hr & Hx)].
    + case_bool_decide as Hd; [inversion Hx|]. exists O, s. by rewrite Nat.add_0_r.
    + exists (S i), s'. cbn. by rewrite <- Nat.add_succ_comm.
  - intros ([|i] & s' & Hi & Hr & Hx); cbn in Hi.
    + left. injection Hi as ->. rewrite Nat.add_0_r in Hr. by rewrite bool_decide_eq_false_2.
    + right. exists i, s'. by rewrite Nat.add_succ_comm.
Qed.

Lemma removed_sublist retained snapshots : forall index,
  removed_nodes index retained snapshots `sublist_of` concat (map nodes snapshots).
Proof.
  induction snapshots as [|s snapshots IH]; intros index; cbn; [done|].
  apply sublist_app; [|apply IH]. case_bool_decide; [apply sublist_nil_l|done].
Qed.

Section retire.
Context `{Foreign, !Quiet, !BrowserLaws}.

Lemma without_without ms ns cs : without ns (without ms cs) = without (ms ++ ns) cs.
Proof.
  unfold without. rewrite list_filter_filter. apply list_filter_iff. intros x. rewrite not_elem_of_app. tauto.
Qed.

Lemma append_all_spec f p subject ns : forall w,
  is_fragment f = true -> p <> f -> NoDup ns -> (forall n, n ∈ ns -> n ∈ child_nodes (doc w) p) ->
  exists d', for_each (fun n => append_child f n subject) ns w = Ran (Ok tt, set_doc d' w)
    /\ child_nodes d' p = without ns (child_nodes (doc w) p)
    /\ (forall q, q <> p -> q <> f -> child_nodes d' q = child_nodes (doc w) q).
Proof.
  induction ns as [|n ns IH]; intros w Hf Hpf Hnd Hns.
  { exists (doc w). cbn. rewrite set_doc_id. split_and!; [done| |done]. symmetry. apply without_none. intros x _ Hx. inversion Hx. }
  apply NoDup_cons in Hnd as [Hn Hnd]. pose proof (Hns n ltac:(left)) as Hnc.
  assert (Hnf : n <> f). { intros ->. apply parent_child in Hnc. by rewrite (fragment_is_root _ _ Hf) in Hnc. }
  destruct (append_child_fragment w f n p subject Hf Hnc Hnf Hpf) as (d1 & Hrun & Hp & Hoth).
  destruct (IH (set_doc d1 w) Hf Hpf Hnd) as (d' & Hrun' & Hp' & Hoth').
  { intros m Hm. cbn. rewrite Hp, elem_of_without_nodes, list_elem_of_singleton. split; [apply Hns; by right|congruence]. }
  exists d'. split_and!.
  - cbn. unfold mbind, m_bind. by rewrite Hrun, Hrun'.
  - rewrite Hp'. cbn. by rewrite Hp, without_without.
  - intros q Hq Hqf. rewrite Hoth' by done. by apply Hoth.
Qed.

Lemma retire_nodes_spec f p retained : forall snapshots index w,
  is_fragment f = true -> p <> f -> NoDup (removed_nodes index retained snapshots) ->
  (forall n, n ∈ removed_nodes index retained snapshots -> n ∈ child_nodes (doc w) p) ->
  exists d' b, retire_nodes f index retained snapshots w = Ran (Ok tt, set_doc d' (set_irreversible b w))
    /\ child_nodes d' p = without (removed_nodes index retained snapshots) (child_nodes (doc w) p)
    /\ (forall q, q <> p -> q <> f -> child_nodes d' q = child_nodes (doc w) q)
    /\ (irreversible w = true -> b = true).
Proof.
  induction snapshots as [|s snapshots IH]; intros index w Hf Hpf Hnd Hns.
  { exists (doc w), (irreversible w). cbn. split_and!; [by destruct w| |done|done].
    symmetry. apply without_none. intros x _ Hx. inversion Hx. }
  cbn [removed_nodes retire_nodes] in *. case_bool_decide as Hd.
  - destruct (IH (S index) w Hf Hpf Hnd Hns) as (d' & b & Hrun & Hrest). exists d', b. by split.
  - apply NoDup_app in Hnd as (Hnd1 & Hnd2 & Hnd3).
    destruct (append_all_spec f p "retired keyed row"%string (nodes s) (set_irreversible true w) Hf Hpf Hnd1) as (d1 & Hrun1 & Hp1 & Hoth1).
    { intros n Hn. apply Hns, elem_of_app. by left. }
    destruct (IH (S index) (set_doc d1 (set_irreversible true w)) Hf Hpf Hnd3) as (d' & b & Hrun & Hp & Hoth & Hb).
    { intros n Hn. cbn. rewrite Hp1, elem_of_without_nodes. split; [apply Hns, elem_of_app; by right|]. intros ?. by apply (Hnd2 n). }
    exists d', b. split_and!.
    + unfold mbind, m_bind, modify. rewrite Hrun1. done.
    + rewrite Hp. cbn. by rewrite Hp1, without_without.
    + intros q Hq Hqf. rewrite Hoth by done. by apply Hoth1.
    + intros _. by apply Hb.
Qed.
End retire.

(** ** What stays is where it was *)

Lemma filter_sublist (sub cs : list Node) : sub `sublist_of` cs -> NoDup cs -> filter (fun c => c ∈ sub) cs = sub.
Proof.
  induction 1 as [|x sub cs Hs IH|x sub cs Hs IH]; intros Hnd; [done| |]; apply NoDup_cons in Hnd as [Hx Hnd].
  - rewrite filter_cons_True by left. f_equal. transitivity (filter (fun c => c ∈ sub) cs); [|by apply IH]. apply filter_ext_in.
    intros y Hy. rewrite elem_of_cons. split; [intros [->|]; done|by right].
  - rewrite filter_cons_False; [by apply IH|]. intros Hin. apply Hx. by eapply elem_of_sublist.
Qed.

Lemma concat_map_sublist {A B} (f : A -> list B) xs ys :
  xs `sublist_of` ys -> concat (map f xs) `sublist_of` concat (map f ys).
Proof. induction 1; cbn; [done|by apply sublist_app|by apply sublist_inserts_l]. Qed.

Lemma sorted_lookups_sublist {A} (olds : list A) idxs : forall base,
  StronglySorted lt idxs -> Forall (le base) idxs -> omap (fun i => olds !! i) idxs `sublist_of` drop base olds.
Proof.
  induction idxs as [|i idxs IH]; intros base Hs Hb; cbn; [apply sublist_nil_l|].
  apply StronglySorted_inv in Hs as [Hs Hf]. apply Forall_cons in Hb as [Hbi Hb].
  assert (Hrest : omap (fun i => olds !! i) idxs `sublist_of` drop (S i) olds).
  { apply IH; [done|]. eapply Forall_impl; [exact Hf|]. cbn. lia. }
  assert (Hsplit : drop i olds `sublist_of` drop base olds).
  { replace i with (base + (i - base))%nat by lia. rewrite <- drop_drop. apply sublist_drop. }
  destruct (olds !! i) as [x|] eqn:Hx.
  - rewrite (drop_S _ x) in Hsplit by done. etrans; [|exact Hsplit]. by apply sublist_skip.
  - etrans; [exact Hrest|]. etrans; [|exact Hsplit]. rewrite <- (Nat.add_1_r i), <- drop_drop. apply sublist_drop.
Qed.

(** The snapshot of a retained row is that of the old row. *)
Definition retained_old (olds : list OwnedRangeSnapshot) (row : PlannedKeyedRow) : Prop :=
  match row with Retained i s => olds !! i = Some s | Fresh _ _ _ => True end.

Lemma staying_nodes_kept olds planned : forall keep,
  length keep = length planned -> Forall (retained_old olds) planned ->
  staying_nodes (zip planned keep) = concat (map nodes (omap (fun i => olds !! i) (kept_values (map old_index planned) keep))).
Proof.
  induction planned as [|row planned IH]; intros [|b keep] Hl Ho; [done..|].
  injection Hl as Hl. apply Forall_cons in Ho as [Hrow Ho]. specialize (IH keep Hl Ho).
  unfold staying_nodes in *. destruct row as [i s|], b; cbn in *; rewrite ?Hrow; cbn; by rewrite IH.
Qed.

Lemma staying_nodes_sublist olds planned :
  Forall (retained_old olds) planned ->
  staying_nodes (zip planned (keyed_lis planned)) `sublist_of` concat (map nodes olds).
Proof.
  intros Ho. destruct (lis_keep_spec (map old_index planned)) as (Hl & _ & Hs & _). rewrite length_map in Hl.
  unfold keyed_lis. rewrite (staying_nodes_kept olds) by done. apply concat_map_sublist.
  rewrite kept_indices_values in Hs by (by rewrite length_map).
  rewrite <- (drop_0 olds). apply sorted_lookups_sublist; [done|]. apply Forall_true. lia.
Qed.

(** ** The mutation as a whole *)

Section mutate.
Context `{Foreign, !Quiet, !BrowserLaws}.

(** A planned row: an old row, or a staged fragment outside the parent's ancestors. *)
Definition row_planned (d : Document) (p : Node) (olds : list OwnedRangeSnapshot) (row : PlannedKeyedRow) : Prop :=
  match row with
  | Retained i s => olds !! i = Some s
  | Fresh _ staged s =>
      is_fragment (fragment staged) = true /\ child_nodes d (fragment staged) = nodes s
      /\ row_delimited s /\ (forall q, in_lineage d q p -> q <> fragment staged)
  end.

Record update_planned (d : Document) (p : Node) (olds : list OwnedRangeSnapshot) (planned : list PlannedKeyedRow) : Prop := {
  up_rows : Forall (row_planned d p olds) planned;
  up_retained : NoDup (omap old_index planned);
  up_fragments : NoDup (fragments planned);
}.

Context (d : Document) (p os oe : Node) (before after : list Node) (olds : list OwnedRangeSnapshot)
  (planned : list PlannedKeyedRow).
Context (Hlayout : slot_layout d p os oe before after olds) (Hplan : update_planned d p olds planned).

Lemma layout_nodup : NoDup (before ++ os :: concat (map nodes olds) ++ oe :: after).
Proof. rewrite <- (proj1 Hlayout). apply children_nodup. Qed.

Lemma olds_nodup : NoDup (concat (map nodes olds)).
Proof.
  pose proof layout_nodup as Hnd. apply NoDup_app in Hnd as (_ & _ & [_ Hnd]%NoDup_cons).
  by apply NoDup_app in Hnd as (Hnd & _ & _).
Qed.

Lemma old_node_child i s x : olds !! i = Some s -> x ∈ nodes s -> x ∈ child_nodes d p.
Proof.
  intros Hi Hx. rewrite (proj1 Hlayout), elem_of_app, elem_of_cons, elem_of_app. right. right. left.
  apply list_elem_of_In, in_concat. exists (nodes s). split; [|by apply list_elem_of_In].
  apply in_map, list_elem_of_In. by eapply list_elem_of_lookup_2.
Qed.

Lemma concat_nodup_unique (xss : list (list Node)) : forall i j xs ys x,
  NoDup (concat xss) -> xss !! i = Some xs -> xss !! j = Some ys -> x ∈ xs -> x ∈ ys -> i = j.
Proof.
  assert (Hin : forall xss i (xs : list Node) x, xss !! i = Some xs -> x ∈ xs -> x ∈ concat xss).
  { intros yss i xs x Hi Hx. apply list_elem_of_In, in_concat. exists xs.
    split; [by eapply list_elem_of_In, list_elem_of_lookup_2|by apply list_elem_of_In]. }
  induction xss as [|zs xss IH]; intros [|i] [|j] xs ys x Hnd Hi Hj Hx Hy; cbn in *; try done;
    apply NoDup_app in Hnd as (Hnd1 & Hnd2 & Hnd3); simplify_eq.
  - exfalso. apply (Hnd2 x Hx). by eapply Hin.
  - exfalso. apply (Hnd2 x Hy). by eapply Hin.
  - f_equal. by eapply IH.
Qed.

Lemma olds_unique i j s t x : olds !! i = Some s -> olds !! j = Some t -> x ∈ nodes s -> x ∈ nodes t -> i = j.
Proof.
  intros Hi Hj. apply (concat_nodup_unique (map nodes olds)); [apply olds_nodup| |];
    by rewrite list_lookup_fmap, ?Hi, ?Hj.
Qed.

Lemma old_nodup i s : olds !! i = Some s -> NoDup (nodes s).
Proof.
  intros Hi. eapply sublist_NoDup; [apply olds_nodup|].
  apply list_elem_of_split_length in Hi as (l1 & l2 & -> & _). rewrite map_app, concat_app. cbn.
  apply sublist_inserts_l, sublist_inserts_r. done.
Qed.

Lemma fresh_node key staged s x :
  Fresh key staged s ∈ planned -> x ∈ nodes s -> x ∈ child_nodes d (fragment staged) /\ x ∉ child_nodes d p.
Proof.
  intros Hrow Hx. pose proof (proj1 (Forall_forall _ _) (up_rows _ _ _ _ Hplan) _ Hrow) as (Hf & Hc & Hh & Hout).
  rewrite <- Hc in Hx. split; [done|]. intros Hxp. by apply (Hout p (lineage_self _ _)), (other_parent d x).
Qed.

(** The target rows share no node. *)
Lemma targets_nodup rows :
  (forall row, row ∈ rows -> row ∈ planned) -> NoDup (omap old_index rows) -> NoDup (fragments rows) ->
  NoDup (target_nodes rows).
Proof.
  induction rows as [|row rows IH]; intros Hin Hret Hfr; [constructor|].
  assert (Hrow : row_planned d p olds row) by (apply (proj1 (Forall_forall _ _) (up_rows _ _ _ _ Hplan)), Hin; left).
  unfold target_nodes. cbn. apply NoDup_app. split_and!.
  - destruct row as [i s|k st s]; cbn in *; [by eapply old_nodup|]. destruct Hrow as (_ & Hc & _). rewrite <- Hc. apply children_nodup.
  - intros x Hx Hx'. apply list_elem_of_In, in_concat in Hx' as (ns & Hns%list_elem_of_In & Hx'%list_elem_of_In).
    apply list_elem_of_fmap in Hns as (row' & -> & Hr'). pose proof (Hin row ltac:(left)) as Hp1.
    pose proof (Hin row' ltac:(by right)) as Hp2.
    pose proof (proj1 (Forall_forall _ _) (up_rows _ _ _ _ Hplan) _ Hp2) as Hrow'.
    destruct row as [i s|k st s], row' as [j t|k' st' t]; cbn in *.
    + assert (i = j) as <- by (by eapply olds_unique). apply NoDup_cons in Hret as [Hi _]. apply Hi.
      apply list_elem_of_omap. by eexists.
    + destruct (fresh_node _ _ _ _ Hp2 Hx') as [_ Hno]. apply Hno. by eapply old_node_child.
    + destruct (fresh_node _ _ _ _ Hp1 Hx) as [_ Hno]. apply Hno. by eapply old_node_child.
    + destruct (fresh_node _ _ _ _ Hp1 Hx) as [Hc1 _], (fresh_node _ _ _ _ Hp2 Hx') as [Hc2 _].
      pose proof (other_parent _ _ _ _ Hc1 Hc2) as Heq. apply NoDup_cons in Hfr as [Hf _]. apply Hf.
      apply list_elem_of_omap. eexists. split; [exact Hr'|]. by rewrite Heq.
  - apply IH; [intros; apply Hin; by right| |].
    + destruct row; cbn in Hret; [by apply NoDup_cons in Hret as [_ ?]|done].
    + destruct row; cbn in Hfr; [done|by apply NoDup_cons in Hfr as [_ ?]].
Qed.
End mutate.

Lemma all_nodes_split rows : all_nodes rows ≡ₚ staying_nodes rows ++ moving_nodes rows.
Proof.
  unfold all_nodes, staying_nodes, moving_nodes. induction rows as [|rk rows IH]; cbn; [done|].
  rewrite IH. destruct (staying rk); cbn; [by rewrite <- app_assoc|]. by rewrite Permutation_app_swap_app.
Qed.

Lemma all_nodes_zip planned keep : length keep = length planned -> all_nodes (zip planned keep) = target_nodes planned.
Proof.
  revert keep. induction planned as [|row planned IH]; intros [|b keep] Hl; [done..|]. injection Hl as Hl.
  unfold all_nodes, target_nodes in *. cbn. by rewrite IH.
Qed.

Lemma elem_of_all_nodes rows x : x ∈ all_nodes rows <-> exists rk, rk ∈ rows /\ x ∈ row_nodes rk.1.
Proof.
  unfold all_nodes. rewrite list_elem_of_In, in_concat. split.
  - intros (ns & (rk & <- & Hrk)%in_map_iff & Hx). exists rk. by rewrite !list_elem_of_In.
  - intros (rk & Hrk & Hx). exists (row_nodes rk.1). split; [|by apply list_elem_of_In].
    apply in_map_iff. exists rk. by rewrite <- list_elem_of_In.
Qed.

Lemma elem_of_target planned x : x ∈ target_nodes planned <-> exists row, row ∈ planned /\ x ∈ row_nodes row.
Proof.
  unfold target_nodes. rewrite list_elem_of_In, in_concat. split.
  - intros (ns & (row & <- & Hrow)%in_map_iff & Hx). exists row. by rewrite !list_elem_of_In.
  - intros (row & Hrow & Hx). exists (row_nodes row). split; [|by apply list_elem_of_In].
    apply in_map_iff. exists row. by rewrite <- list_elem_of_In.
Qed.

Section settled.
Context `{Foreign, !Quiet, !BrowserLaws}.
Context (d : Document) (p os oe : Node) (before after : list Node) (olds : list OwnedRangeSnapshot)
  (planned : list PlannedKeyedRow).
Context (Hlayout : slot_layout d p os oe before after olds) (Hplan : update_planned d p olds planned).

Let rows := zip planned (keyed_lis planned).
Let settled := (before ++ os :: staying_nodes rows ++ oe :: after)%list.
Let retained := omap old_index planned.

Lemma keyed_lis_length : length (keyed_lis planned) = length planned.
Proof. destruct (lis_keep_spec (map old_index planned)) as (Hl & _). by rewrite length_map in Hl. Qed.

Lemma settled_sublist : settled `sublist_of` child_nodes d p.
Proof.
  rewrite (proj1 Hlayout). apply sublist_app; [done|]. apply sublist_skip, sublist_app; [|done].
  apply staying_nodes_sublist. eapply Forall_impl; [apply (up_rows _ _ _ _ Hplan)|]. by intros [].
Qed.

Lemma rows_nodup : NoDup (staying_nodes rows ++ moving_nodes rows).
Proof.
  rewrite <- all_nodes_split. unfold rows. rewrite all_nodes_zip by apply keyed_lis_length.
  eapply targets_nodup; [exact Hlayout|exact Hplan|done|apply Hplan|apply Hplan].
Qed.

(** A node of an old row is not around the rows. *)
Lemma old_not_around i s x : olds !! i = Some s -> x ∈ nodes s -> (x ∉ before) /\ x <> os /\ x <> oe /\ (x ∉ after).
Proof.
  intros Hi Hx. assert (Hc : x ∈ concat (map nodes olds)).
  { apply list_elem_of_In, in_concat. exists (nodes s). split; [|by apply list_elem_of_In].
    apply in_map, list_elem_of_In. by eapply list_elem_of_lookup_2. }
  pose proof (layout_nodup _ _ _ _ _ _ _ Hlayout) as (_ & Hn1 & [Hn2 Hn3]%NoDup_cons)%NoDup_app.
  apply NoDup_app in Hn3 as (_ & Hn3 & _). split_and!.
  - intros Hb. apply (Hn1 x Hb). right. apply elem_of_app. by left.
  - intros ->. apply Hn2, elem_of_app. by left.
  - intros ->. apply (Hn3 _ Hc). left.
  - intros Ha. apply (Hn3 x Hc). by right.
Qed.

Lemma moving_not_settled x : x ∈ moving_nodes rows -> x ∉ settled.
Proof.
  intros Hx. pose proof rows_nodup as (_ & Hdis & _)%NoDup_app.
  assert (Hrow : exists row, row ∈ planned /\ x ∈ row_nodes row).
  { apply elem_of_target. rewrite <- (all_nodes_zip planned (keyed_lis planned)) by apply keyed_lis_length.
    rewrite all_nodes_split. apply elem_of_app. by right. }
  destruct Hrow as (row & Hrow & Hxr). destruct row as [i s|k st s].
  - pose proof (proj1 (Forall_forall _ _) (up_rows _ _ _ _ Hplan) _ Hrow) as Hi.
    destruct (old_not_around _ _ _ Hi Hxr) as (Ha1 & Ha2 & Ha3 & Ha4). unfold settled.
    rewrite !elem_of_app, elem_of_cons, elem_of_app, elem_of_cons.
    intros [?|[?|[Hst|[?|?]]]]; [done|done| |done|done]. by apply (Hdis x).
  - intros Hs. eapply elem_of_sublist in Hs; [|apply settled_sublist].
    destruct (fresh_node _ _ _ _ Hplan _ _ _ _ Hrow Hxr) as [_ Hno]. done.
Qed.

Lemma all_rows_ready : Forall (row_ready d p settled) rows.
Proof.
  apply Forall_forall. intros [row b] Hrk. assert (Hrow : row ∈ planned) by (by eapply elem_of_zip_l).
  pose proof (proj1 (Forall_forall _ _) (up_rows _ _ _ _ Hplan) _ Hrow) as Hr.
  assert (Hmove : staying (row, b) = false -> forall n, n ∈ row_nodes row -> n ∉ settled).
  { intros Hst n Hn. apply moving_not_settled. eapply moving_nodes_elem; [exact Hrk|].
    unfold moving_nodes. cbn [map concat]. by rewrite Hst, app_nil_r. }
  destruct row as [i s|k st s]; cbn in Hr.
  - split; [|destruct b; [done|]].
    + apply row_delimited_head, (proj1 (Forall_forall _ _) (proj2 Hlayout)). by eapply list_elem_of_lookup_2.
    + split; [by eapply old_nodup|]. intros n Hn. split; [by eapply old_node_child|by apply Hmove].
  - destruct Hr as (Hf & Hc & Hh & Hout). split; [by apply row_delimited_head|].
    split_and!; [done..|]. intros n Hn. destruct b; by apply Hmove.
Qed.

(** After the moves, what is not removed is what is settled or moved. *)
Lemma settled_or_removed x :
  x ∈ child_nodes d p \/ x ∈ moving_nodes rows ->
  x ∉ removed_nodes 0 retained olds <-> x ∈ moving_nodes rows ++ settled.
Proof.
  assert (Hkept : forall row, row ∈ planned -> x ∈ row_nodes row -> x ∉ removed_nodes 0 retained olds).
  { intros row Hrow Hx (j & t & Hj & Hret & Hxt)%elem_of_removed. destruct row as [i s|k st s].
    - pose proof (proj1 (Forall_forall _ _) (up_rows _ _ _ _ Hplan) _ Hrow) as Hi.
      assert (j = i) as -> by (eapply olds_unique; [exact Hlayout|exact Hj|exact Hi|exact Hxt|exact Hx]).
      apply Hret. apply list_elem_of_omap. by exists (Retained i s).
    - destruct (fresh_node _ _ _ _ Hplan _ _ _ _ Hrow Hx) as [_ Hno]. apply Hno. by eapply old_node_child. }
  assert (Hall : x ∈ staying_nodes rows \/ x ∈ moving_nodes rows <-> exists row, row ∈ planned /\ x ∈ row_nodes row).
  { rewrite <- elem_of_app, <- all_nodes_split. unfold rows. rewrite all_nodes_zip by apply keyed_lis_length. apply elem_of_target. }
  intros Hx. rewrite elem_of_app. split.
  - intros Hnr. destruct Hx as [Hx|?]; [|by left]. unfold settled. rewrite (proj1 Hlayout) in Hx.
    rewrite !elem_of_app, elem_of_cons, elem_of_app, elem_of_cons in Hx |- *.
    destruct Hx as [?|[?|[Hc|?]]]; [tauto|tauto| |tauto].
    apply list_elem_of_In, in_concat in Hc as (ns & (s & <- & Hs%list_elem_of_In)%in_map_iff & Hxs%list_elem_of_In).
    apply list_elem_of_lookup_1 in Hs as [i Hi]. destruct (decide (i ∈ retained)) as [Hret|Hret].
    + apply list_elem_of_omap in Hret as ([j t|] & Hrow & Hj); [|done]. injection Hj as ->.
      pose proof (proj1 (Forall_forall _ _) (up_rows _ _ _ _ Hplan) _ Hrow) as Hi'. cbn in Hi'. rewrite Hi in Hi'. simplify_eq.
      assert (x ∈ staying_nodes rows \/ x ∈ moving_nodes rows) by (apply Hall; by exists (Retained i t)). tauto.
    + exfalso. apply Hnr, elem_of_removed. by exists i, s.
  - intros [Hm|Hs].
    + destruct (proj1 Hall (or_intror Hm)) as (row & Hrow & Hxr). by eapply Hkept.
    + unfold settled in Hs. rewrite !elem_of_app, elem_of_cons, elem_of_app, elem_of_cons in Hs.
      assert (Hst : x ∈ staying_nodes rows -> x ∉ removed_nodes 0 retained olds).
      { intros Hst. destruct (proj1 Hall (or_introl Hst)) as (row & Hrow & Hxr). by eapply Hkept. }
      intros Hrem. pose proof Hrem as (j & t & Hj & _ & Hxt)%elem_of_removed.
      destruct (old_not_around _ _ _ Hj Hxt) as (Ha1 & Ha2 & Ha3 & Ha4). tauto.
Qed.
End settled.

Section exact.
Context `{Foreign, !Quiet, !BrowserLaws}.

Lemma map_fst_zip {A B} (xs : list A) (ys : list B) : length ys = length xs -> map fst (zip xs ys) = xs.
Proof. revert ys. induction xs as [|x xs IH]; intros [|y ys] Hl; [done..|]. cbn. f_equal. apply IH. by injection Hl. Qed.

Lemma planned_delimited d p os oe before after olds planned :
  slot_layout d p os oe before after olds -> update_planned d p olds planned ->
  Forall row_delimited (map planned_snapshot planned).
Proof.
  intros [_ Hold] Hplan. apply Forall_forall. intros s (row & -> & Hrow)%list_elem_of_fmap.
  pose proof (proj1 (Forall_forall _ _) (up_rows _ _ _ _ Hplan) _ Hrow) as Hr. destruct row as [i s|k st s]; cbn in *.
  - apply (proj1 (Forall_forall _ _) Hold). by eapply list_elem_of_lookup_2.
  - apply Hr.
Qed.

(** The loop and the retirement of a planned update, from any valid layout. *)
Lemma mutate_rows_layout e w p os before after olds planned :
  is_element p || is_fragment p = true ->
  slot_layout (doc w) p os (outer_end e) before after olds -> update_planned (doc w) p olds planned ->
  exists d' b, mutate_rows e p olds planned w = Ran (Ok tt, set_doc d' (set_irreversible b w))
    /\ slot_layout d' p os (outer_end e) before after (map planned_snapshot planned)
    /\ (forall q, q <> p -> is_fragment q = false -> child_nodes d' q = child_nodes (doc w) q).
Proof.
  intros Hk Hlayout Hplan. set (rows := zip planned (keyed_lis planned)).
  assert (Hfst : map fst rows = planned) by (apply map_fst_zip, keyed_lis_length).
  assert (Hperm : fragments (map fst (rev rows)) ≡ₚ fragments planned).
  { rewrite map_rev, Hfst. apply omap_Permutation. symmetry. apply Permutation_rev. }
  assert (Hmoving : moving_nodes (rev rows) ≡ₚ moving_nodes rows).
  { unfold moving_nodes. rewrite map_rev. symmetry. apply concat_perm, Permutation_rev. }
  set (settled := (before ++ os :: staying_nodes rows ++ outer_end e :: after)%list).
  destruct (place_rows_spec p (rev rows) settled (outer_end e) w (before ++ [os]) after) as (d1 & b1 & Hrun & Hseen & Hin & Hoth & _); [done| | | | |].
  { unfold seen. rewrite rev_involutive, filter_sublist; [unfold settled; by rewrite <- !app_assoc| |apply children_nodup].
    by eapply settled_sublist. }
  { apply Forall_rev_iff. by eapply all_rows_ready. }
  { rewrite Hmoving. pose proof (rows_nodup _ _ _ _ _ _ _ _ Hlayout Hplan) as Hnd. by apply NoDup_app in Hnd as (_ & _ & ?). }
  { rewrite Hperm. apply Hplan. }
  pose proof (fragment_created d1) as (Hff & Hfe & Hfc).
  assert (Hos : os ∈ child_nodes d1 p).
  { apply Hin. left. rewrite (proj1 Hlayout). set_solver. }
  assert (Hpf : p <> (create_fragment d1).1) by (intros Heq; rewrite <- Heq in Hfe; rewrite Hfe in Hos; inversion Hos).
  set (w1 := set_doc (create_fragment d1).2 (set_doc d1 (set_irreversible b1 w))).
  destruct (retire_nodes_spec (create_fragment d1).1 p (omap old_index planned) olds 0 w1 Hff Hpf) as (d2 & b2 & Hrun2 & Hp2 & Hoth2 & _).
  { eapply sublist_NoDup; [by eapply olds_nodup|apply removed_sublist]. }
  { intros n (i & s & Hi & _ & Hn)%elem_of_removed. cbn. rewrite Hfc. apply Hin. left. by eapply old_node_child. }
  exists d2, b2. split; [|split].
  - unfold mutate_rows. fold rows. unfold mbind, m_bind. rewrite Hrun. unfold gets, modify.
    destruct (create_fragment d1) as [f d'] eqn:Hcf. cbn in *. rewrite Hcf. exact Hrun2.
  - split; [|by eapply planned_delimited]. rewrite Hp2. cbn. rewrite Hfc.
    assert (Hall : all_nodes (rev (rev rows)) = concat (map nodes (map planned_snapshot planned))).
    { rewrite rev_involutive. unfold rows. rewrite all_nodes_zip by apply keyed_lis_length. unfold target_nodes. by rewrite map_map. }
    rewrite Hall in Hseen. transitivity (seen (moving_nodes (rev rows) ++ settled) d1 p); [|by rewrite Hseen, <- !app_assoc].
    apply filter_ext_in. intros x Hx%Hin. rewrite Hmoving in Hx. rewrite elem_of_app, Hmoving, <- elem_of_app. by eapply settled_or_removed.
  - intros q Hq Hqf. rewrite Hoth2; [|done|intros ->; by rewrite Hff in Hqf]. cbn. rewrite Hfc. apply Hoth; [done|].
    rewrite Hperm. intros Hfr. apply list_elem_of_omap in Hfr as ([|k st s] & Hrow & [= <-]).
    pose proof (proj1 (Forall_forall _ _) (up_rows _ _ _ _ Hplan) _ Hrow) as (Hf & _). by rewrite Hf in Hqf.
Qed.
End exact.

(** C34. With no code interfering, the mutation of a keyed update turns any valid slot
    into the slot of its target rows: it cannot fail, the surroundings of the slot and
    the rest of the document stay, the update's own check of the result passes, and
    nothing else in the world changes but the flag that the update is irreversible. *)
Theorem keyed_mutation_exact `{Foreign, !Quiet, !BrowserLaws} e w p os before after olds planned :
  is_element p || is_fragment p = true ->
  slot_layout (doc w) p os (outer_end e) before after olds -> update_planned (doc w) p olds planned ->
  exists d' b, mutate_rows e p olds planned w = Ran (Ok tt, set_doc d' (set_irreversible b w))
    /\ slot_layout d' p os (outer_end e) before after (map planned_snapshot planned)
    /\ validate_keyed_layout d' os (outer_end e) (map planned_snapshot planned) = Ok tt
    /\ (forall q, q <> p -> is_fragment q = false -> child_nodes d' q = child_nodes (doc w) q).
Proof.
  intros Hk Hl Hp. destruct (mutate_rows_layout e w p os before after olds planned Hk Hl Hp) as (d' & b & Hrun & Hl' & Hoth).
  exists d', b. split_and!; [done|done|by eapply keyed_layout_ok|done].
Qed.

(** In the sample document, the row that is there is kept behind a staged one. *)
Definition sample_row : OwnedRangeSnapshot := mkSnapshot 8 14 [8; 11; 14].
Definition sample_planned : list PlannedKeyedRow :=
  [Fresh (Unsigned 1) (mkStaged 12 7) (mkSnapshot 17 20 [17; 20]); Retained 0 sample_row].
Definition sample_slot : SlotEffect := mkEffect 0 2 5 0 0 (mkSlot Updating (KeyedContent [])).

#[local] Instance silent_quiet : Quiet.
Proof. by split. Qed.

Lemma keyed_mutation_exact_witness :
  exists d' b, mutate_rows sample_slot 1 [sample_row] sample_planned (sample_world sample_document false)
      = Ran (Ok tt, set_doc d' (set_irreversible b (sample_world sample_document false)))
    /\ slot_layout d' 1 2 5 [] [] (map planned_snapshot sample_planned)
    /\ validate_keyed_layout d' 2 5 (map planned_snapshot sample_planned) = Ok tt
    /\ (forall q, q <> 1 -> is_fragment q = false -> child_nodes d' q = child_nodes sample_document q).
Proof.
  apply (keyed_mutation_exact sample_slot (sample_world sample_document false) 1 2 [] [] [sample_row] sample_planned).
  - reflexivity.
  - split; [reflexivity|]. repeat constructor.
  - split.
    + constructor; [|constructor; [|constructor]].
      * split_and!; try reflexivity. intros q Hq%lineage_root; [|reflexivity]. subst q. discriminate.
      * reflexivity.
    + apply (bool_decide_unpack _). vm_compute. exact I.
    + apply (bool_decide_unpack _). vm_compute. exact I.
Defined.
