(* ===== verification/MountSafety.v ===== *)
(** * MountSafety: an update leaves its slot usable or terminally poisoned ([pliego-dom])

    Theorems on [MountUpdate] and [MountView] under arbitrary interference: the code
    of views, observers and custom elements may mutate the document, dispose scopes,
    update other slots and run the effect of the slot again, at every call and every
    mutation. The state of a slot under update is private to that update; the first
    section shows that every operation of the framework keeps it so. *)

From S2P Require Import Prelude Reactive DomName Dom DomTokens DomHtml MountTree MountState MountScope KeyedLis MountUpdate MountView.

Local Open Scope N_scope.

(** ** What other code can do to a slot under update *)

Section kept.
Context `{Foreign}.

(** It stays as it is, or a nested run poisons it and keeps its content. *)
Definition state_kept (s s' : SlotState) : Prop :=
  s' = s \/ (status s = Updating /\ exists cause, s' = mkSlot (PoisonedSlot cause) (content s)).

(** The private slots other than [x] are kept, and an irreversible update stays so. *)
Record kept (x : option SlotId) (w w' : World) : Prop := {
  kept_running : running w' = running w;
  kept_slots : forall slot e, x <> Some slot -> slots w !! slot = Some e -> is_private w e = true ->
    exists s', slots w' !! slot = Some (put_slot_state s' e) /\ state_kept (slot_state e) s';
}.

Definition guarded (x : option SlotId) (w w' : World) : Prop :=
  kept x w w' /\ (irreversible w = true -> irreversible w' = true).

Definition guards {A} (x : option SlotId) (m : M A) : Prop := forall w r w', m w = Ran (r, w') -> guarded x w w'.

Lemma state_kept_trans s1 s2 s3 : state_kept s1 s2 -> state_kept s2 s3 -> state_kept s1 s3.
Proof.
  intros [->|[Hu [c ->]]]; [done|]. intros [->|[Hu' _]]; [|done]. right. split; [done|by eexists].
Qed.

Lemma put_slot_state_id e : put_slot_state (slot_state e) e = e.
Proof. by destruct e. Qed.

Lemma private_after w w' e s' :
  running w' = running w -> is_private w e = true -> state_kept (slot_state e) s' -> is_private w' (put_slot_state s' e) = true.
Proof.
  unfold is_private. cbn. intros -> [Hr Hs]%andb_true_iff Hk. rewrite Hr. cbn.
  destruct Hk as [->|[_ [c ->]]]; done.
Qed.

Lemma kept_refl x w : kept x w w.
Proof. split; [done|]. intros slot e _ He _. exists (slot_state e). rewrite put_slot_state_id. split; [done|by left]. Qed.

Lemma kept_trans x w1 w2 w3 : kept x w1 w2 -> kept x w2 w3 -> kept x w1 w3.
Proof.
  intros [Hr1 Hs1] [Hr2 Hs2]. split; [congruence|]. intros slot e Hx He Hp.
  destruct (Hs1 _ _ Hx He Hp) as (s2 & He2 & Hk2).
  destruct (Hs2 _ _ Hx He2) as (s3 & He3 & Hk3); [by eapply private_after|].
  exists s3. split; [by rewrite He3; destruct e|]. by eapply state_kept_trans.
Qed.

Lemma kept_same x w w' : running w' = running w -> slots w' = slots w -> kept x w w'.
Proof.
  intros Hr Hs. split; [done|]. intros slot e _ He _. exists (slot_state e). rewrite Hs, put_slot_state_id. split; [done|by left].
Qed.

Lemma kept_weaken x w w' : kept None w w' -> kept x w w'.
Proof. intros [Hr Hs]. split; [done|]. intros slot e _. by apply Hs. Qed.

Lemma guarded_refl x w : guarded x w w.
Proof. split; [apply kept_refl|done]. Qed.

Lemma guarded_trans x w1 w2 w3 : guarded x w1 w2 -> guarded x w2 w3 -> guarded x w1 w3.
Proof. intros [H1 I1] [H2 I2]. split; [by eapply kept_trans|auto]. Qed.

Lemma guarded_weaken x w w' : guarded None w w' -> guarded x w w'.
Proof. intros [Hk Hi]. split; [by apply kept_weaken|done]. Qed.

Lemma guards_weaken {A} x (m : M A) : guards None m -> guards x m.
Proof. intros Hm w r w' Hrun. by eapply guarded_weaken, Hm. Qed.

(** ** The monad *)

Lemma guards_ret {A} x (a : A) : guards x (mret a).
Proof. intros w r w' [= <- <-]. apply guarded_refl. Qed.

Lemma guards_bind {A B} x (m : M A) (f : A -> M B) : guards x m -> (forall a, guards x (f a)) -> guards x (m ≫= f).
Proof.
  intros Hm Hf w r w'. unfold mbind, m_bind. destruct (m w) as [[[a|e] w1]|] eqn:Hw; [| |done].
  - intros Hr. eapply guarded_trans; [by eapply Hm|by eapply Hf].
  - intros [= <- <-]. by eapply Hm.
Qed.

Lemma guards_fail {A} x e : guards x (fail (A := A) e).
Proof. intros w r w' [= <- <-]. apply guarded_refl. Qed.
Lemma guards_panic {A} x : guards x (panic (A := A)).
Proof. done. Qed.
Lemma guards_of_result {A} x (r : result MountError A) : guards x (of_result r).
Proof. intros w r' w' [= <- <-]. apply guarded_refl. Qed.
Lemma guards_known_ok {A B} x (a : A) (f : A -> M B) : guards x (f a) -> guards x (of_result (Ok a) ≫= f).
Proof. done. Qed.
Lemma guards_known_err {A B} x e (f : A -> M B) : guards x (of_result (Err e) ≫= f).
Proof. apply (guards_fail x e). Qed.
Lemma guards_of_option {A} x (o : option A) : guards x (of_option o).
Proof. intros w r' w'. unfold of_option. destruct o; [|done]. intros [= <- <-]. apply guarded_refl. Qed.
Lemma guards_gets {A} x (f : World -> A) : guards x (gets f).
Proof. intros w r w' [= <- <-]. apply guarded_refl. Qed.

Lemma guards_modify x f : (forall w, guarded x w (f w)) -> guards x (modify f).
Proof. intros Hf w r w' [= <- <-]. apply Hf. Qed.

(** A change of the world that does not concern slots. *)
Lemma guards_frame x f :
  (forall w, running (f w) = running w /\ slots (f w) = slots w /\ irreversible (f w) = irreversible w) -> guards x (modify f).
Proof.
  intros Hf. apply guards_modify. intros w. destruct (Hf w) as (Hr & Hs & Hi). split; [by apply kept_same|by rewrite Hi].
Qed.

Lemma guards_try {A} x (m : M A) : guards x m -> guards x (try m).
Proof.
  intros Hm w r w'. unfold try. destruct (m w) as [[r' w1]|] eqn:Hw; [|done]. intros [= <- <-]. by eapply Hm.
Qed.

Lemma guards_for_each {A} x (f : A -> M unit) xs : (forall a, guards x (f a)) -> guards x (for_each f xs).
Proof. intros Hf. induction xs; cbn; [apply guards_ret|]. apply guards_bind; [apply Hf|done]. Qed.

Lemma guards_collect {A B} x (f : A -> M B) xs : (forall a, guards x (f a)) -> guards x (collect_each f xs).
Proof.
  intros Hf. induction xs; cbn; [apply guards_ret|]. apply guards_bind; [apply Hf|]. intros b.
  apply guards_bind; [done|]. intros bs. apply guards_ret.
Qed.

(** ** Foreign code *)

Lemma reenter_guarded x id w : guarded x w (reenter id w).
Proof.
  unfold reenter. destruct (slots w !! id) as [e|] eqn:He; [|apply guarded_refl].
  destruct (is_updating e) eqn:Hu; [|apply guarded_refl].
  assert (Hs : status (slot_state e) = Updating) by (unfold is_updating in Hu; by destruct (status (slot_state e))).
  unfold begin_update. rewrite Hs. split; [|done]. split; [done|]. intros slot e' Hx He' Hp. cbn.
  destruct (decide (slot = id)) as [->|Hne].
  - rewrite He in He'. injection He' as <-. eexists. rewrite lookup_insert_eq. split; [done|]. right. split; [done|by eexists].
  - rewrite lookup_insert_ne by done. exists (slot_state e'). rewrite put_slot_state_id. split; [done|by left].
Qed.

Lemma at_site_guarded x site w : guarded x w (at_site site w).
Proof.
  unfold at_site.
  match goal with |- guarded _ _ (fold_left _ _ ?w1) => assert (Hw : guarded x w w1) end.
  { split; [|done]. split; [done|]. intros slot e _ He Hp. exists (slot_state e). rewrite put_slot_state_id. split; [|by left].
    cbn. apply lookup_union_Some_l, map_lookup_filter_Some. by split. }
  revert Hw. match goal with |- guarded _ _ ?w1 -> _ => generalize w1 end.
  induction (reenters site w) as [|id ids IH]; intros w1 Hw; cbn; [done|]. apply IH.
  eapply guarded_trans; [exact Hw|apply reenter_guarded].
Qed.

Lemma guards_site x site : guards x (run_site site).
Proof. apply guards_modify. intros w. apply at_site_guarded. Qed.
End kept.

Create HintDb guards.
#[export] Hint Resolve guards_ret guards_fail guards_panic guards_of_result guards_of_option guards_gets guards_site : guards.

(** Composition, then the operations that are known to guard. *)
Ltac guards :=
  repeat first
    [ progress intros
    | solve [eauto with guards]
    | apply guards_bind
    | apply guards_try
    | apply guards_for_each
    | apply guards_collect
    | solve [apply guards_frame; intros []; done]
    | match goal with |- guards _ (if ?b then _ else _) => destruct b end
    | match goal with |- guards _ (match ?o with _ => _ end) => destruct o end
    | match goal with |- guards _ (let '(_, _) := ?p in _) => destruct p end ].

(** ** Every operation of scopes guards *)

Section operations.
Context `{Foreign}.

Lemma guards_cleanup x id f : guards x (modify (with_cleanup id f)).
Proof. guards. Qed.
Lemma guards_hold x id : guards x (modify (hold id)).
Proof. guards. Qed.

Lemma frame_free id w :
  running (free_if_unused id w) = running w /\ slots (free_if_unused id w) = slots w
  /\ irreversible (free_if_unused id w) = irreversible w.
Proof. unfold free_if_unused. destruct (cleanups w !! id); [|done]. by destruct (strong_count _ =? 0). Qed.

Lemma frame_release id w :
  running (release id w) = running w /\ slots (release id w) = slots w /\ irreversible (release id w) = irreversible w.
Proof. unfold release. destruct (frame_free id (with_cleanup id (fun c => put_holds (holds c - 1) c) w)) as (Hr & Hs & Hi). done. Qed.

Lemma guards_release x id : guards x (modify (release id)).
Proof. apply guards_frame. intros w. apply frame_release. Qed.

Lemma guards_release_all x ids : guards x (release_all ids).
Proof.
  apply guards_frame. intros w. revert w. induction ids as [|id ids IH]; intros w; cbn; [done|].
  destruct (IH (release id w)) as (Hr & Hs & Hi). rewrite Hr, Hs, Hi. apply frame_release.
Qed.

Lemma guards_record x error : guards x (modify (record_error error)).
Proof. guards. Qed.
Lemma guards_terminal x id error : guards x (modify (record_terminal id error)).
Proof. guards. Qed.
Lemma guards_put_scope x id s : guards x (put_scope id s).
Proof. unfold put_scope. guards. Qed.
Lemma guards_scope_of x id : guards x (scope_of id).
Proof. unfold scope_of. guards. Qed.
Lemma guards_set_doc x d : guards x (modify (set_doc d)).
Proof. guards. Qed.
Lemma guards_irreversible x : guards x (modify (set_irreversible true)).
Proof. apply guards_modify. intros w. split; [by apply kept_same|done]. Qed.
Lemma guards_corrupted x b : guards x (modify (set_stable_corrupted b)).
Proof. guards. Qed.
Hint Resolve guards_cleanup guards_hold guards_release guards_release_all guards_record guards_terminal guards_put_scope
  guards_scope_of guards_set_doc guards_irreversible guards_corrupted : guards.

Lemma guards_cleanup_of x id : guards x (cleanup_of id).
Proof. unfold cleanup_of. guards. Qed.
Hint Resolve guards_cleanup_of : guards.
Lemma guards_check {A} x (f : Document -> result MountError A) : guards x (check f).
Proof. unfold check. guards. Qed.
Lemma guards_check_cleanup {A} x (f : Document -> MountCleanup -> result MountError A) id : guards x (check_cleanup f id).
Proof. unfold check_cleanup. guards. Qed.
Lemma guards_ensure_active x op id : guards x (ensure_active op id).
Proof. unfold ensure_active. guards. Qed.
Lemma guards_upgrade x op id : guards x (upgrade op id).
Proof. unfold upgrade. guards. Qed.
Hint Resolve guards_check guards_check_cleanup guards_ensure_active guards_upgrade : guards.
Lemma guards_upgrade_each x ids : forall held, guards x (upgrade_each held ids).
Proof. induction ids as [|id ids IH]; intros held; cbn [upgrade_each]; guards. Qed.
Hint Resolve guards_upgrade_each : guards.
Lemma guards_live_chain x id : guards x (live_chain id).
Proof. unfold live_chain. guards. Qed.
Lemma guards_all_active x op chain : guards x (ensure_all_active op chain).
Proof. unfold ensure_all_active. guards. Qed.
Hint Resolve guards_live_chain guards_all_active : guards.
Lemma guards_active_chain x op id : guards x (active_chain op id).
Proof. unfold active_chain. guards. Qed.

Lemma guards_browser_call x op subject call : guards x (browser_call op subject call).
Proof. unfold browser_call. guards. Qed.
Hint Resolve guards_active_chain guards_browser_call : guards.
Lemma guards_append x p c s : guards x (append_child p c s).
Proof. unfold append_child. guards. Qed.
Lemma guards_insert x p c b s : guards x (insert_before p c b s).
Proof. unfold insert_before. guards. Qed.
Lemma guards_remove x p c s : guards x (remove_child p c s).
Proof. unfold remove_child. guards. Qed.
Hint Resolve guards_append guards_insert guards_remove : guards.

(** *** Topology *)

Lemma guards_plan_topology x plan chain : guards x (plan_topology plan chain).
Proof. unfold plan_topology. guards. Qed.
Lemma guards_topology_active x op t : guards x (topology_active op t).
Proof. unfold topology_active. guards. Qed.
Lemma guards_before_retire x t : guards x (validate_before_retire t).
Proof. unfold validate_before_retire. guards. Qed.
Lemma guards_commit_expected x id ns : guards x (commit_expected id ns).
Proof. unfold commit_expected. guards. Qed.
Lemma guards_commit_unchecked x t : guards x (commit_unchecked t).
Proof. unfold commit_unchecked. guards. Qed.
Hint Resolve guards_plan_topology guards_topology_active guards_before_retire guards_commit_expected guards_commit_unchecked : guards.
Lemma guards_commit_after x t : guards x (commit_after_retire t).
Proof. unfold commit_after_retire. guards. Qed.
Hint Resolve guards_commit_after : guards.

(** *** Cleaning *)

Lemma guards_recording x had m : guards x m -> guards x (recording had m).
Proof. intros Hm. unfold recording. guards. Qed.
Lemma guards_detach x ns subject : forall had, guards x (detach_each ns subject had).
Proof.
  induction ns as [|n ns IH]; intros had; cbn [detach_each]; guards.
Qed.
Hint Resolve guards_detach : guards.
Lemma guards_remove_range x r report : guards x (remove_range r report).
Proof. unfold remove_range. guards. Qed.
Lemma guards_take_registered x id : guards x (take_registered id).
Proof. unfold take_registered. guards. Qed.
Hint Resolve guards_remove_range guards_take_registered : guards.
Lemma guards_drain x n : forall passes id owned had retried, guards x (drain_nodes n passes id owned had retried).
Proof. induction n as [|n IH]; intros; cbn [drain_nodes]; guards. Qed.
Lemma guards_delegated x id : guards x (delegated_target id).
Proof. unfold delegated_target. guards. Qed.
Lemma guards_transfer x id t : guards x (transfer_registered_nodes id t).
Proof. unfold transfer_registered_nodes. guards. Qed.
Hint Resolve guards_drain guards_delegated guards_transfer : guards.
Lemma guards_survivors x id ids : guards x (transfer_survivors id ids).
Proof. induction ids as [|a ids IH]; cbn [transfer_survivors]; guards. Qed.
Lemma guards_forget x ids s : guards x (modify (forget_from_retiring_ancestors ids s)).
Proof.
  apply guards_frame. unfold forget_from_retiring_ancestors. induction ids as [|id ids IH]; intros w; cbn; [done|].
  destruct (IH (with_cleanup id (fun c => if retiring c then forget_descendant_range s c else c) w)) as (Hr & Hs & Hi). done.
Qed.
Hint Resolve guards_survivors guards_forget : guards.
Lemma guards_clean_locally x id : guards x (clean_locally id).
Proof. unfold clean_locally. guards. Qed.
Hint Resolve guards_clean_locally : guards.
Lemma guards_clean x id : guards x (cleanup id).
Proof. unfold cleanup. guards. Qed.
Hint Resolve guards_clean : guards.
Lemma guards_drop_lease x id : guards x (drop_lease id).
Proof.
  unfold drop_lease. guards.
  apply guards_frame. intros w.
  destruct (frame_free id (with_cleanup id (fun c => put_leases (leases c - 1) c) w)) as (Hr & Hs & Hi). done.
Qed.
Lemma guards_notify_dispose x id : guards x (notify_scope_dispose id).
Proof. unfold notify_scope_dispose. guards. Qed.
Hint Resolve guards_drop_lease guards_notify_dispose : guards.
End operations.

#[export] Hint Resolve guards_cleanup guards_hold guards_release guards_release_all guards_record guards_terminal guards_put_scope
  guards_scope_of guards_set_doc guards_irreversible guards_corrupted guards_cleanup_of guards_check
  guards_check_cleanup guards_ensure_active guards_upgrade guards_upgrade_each guards_live_chain
  guards_all_active guards_active_chain guards_browser_call guards_append guards_insert guards_remove
  guards_plan_topology guards_topology_active guards_before_retire guards_commit_expected
  guards_commit_unchecked guards_commit_after guards_detach guards_remove_range guards_take_registered
  guards_drain guards_delegated guards_transfer guards_survivors guards_forget guards_clean_locally guards_clean
  guards_drop_lease guards_notify_dispose : guards.

(** ** Disposal *)

Section disposal.
Context `{Foreign}.

(** A computation that guards where the owner at hand has no running effect. *)
Definition guards_idle {A} (x : option SlotId) (id : ScopeId) (m : M A) : Prop :=
  forall w r w', id ∉ running w -> m w = Ran (r, w') -> guarded x w w'.

Lemma guards_idle_bind {A B} x id (m : M A) (f : A -> M B) :
  guards x m -> (forall a, guards_idle x id (f a)) -> guards_idle x id (m ≫= f).
Proof.
  intros Hm Hf w r w' Hid. unfold mbind, m_bind. destruct (m w) as [[[a|e] w1]|] eqn:Hw; [| |done].
  - intros Hr. pose proof (Hm _ _ _ Hw) as H1. eapply guarded_trans; [exact H1|].
    eapply Hf; [|done]. destruct H1 as [[Hrun _] _]. by rewrite Hrun.
  - intros [= <- <-]. by eapply Hm.
Qed.

(** Retiring an effect of an idle owner. *)
Lemma retire_slot_guarded x id slot e w :
  id ∉ running w -> slots w !! slot = Some e -> effect_scope e = id -> guarded x w (set_slots (delete slot (slots w)) w).
Proof.
  intros Hid He Hs. split; [|done]. split; [done|]. intros slot' e' _ He' Hp. cbn.
  exists (slot_state e'). rewrite put_slot_state_id. split; [|by left].
  rewrite lookup_delete_ne; [done|]. intros ->. rewrite He in He'. injection He' as <-.
  unfold is_private in Hp. rewrite Hs, bool_decide_eq_false_2 in Hp by done. done.
Qed.

(** The loop over the effects of an idle owner. *)
Lemma retire_loop_guarded x id (f : ScopeId -> M unit) retired :
  (forall scope, guards x (f scope)) ->
  guards_idle x id (for_each (fun slot =>
    e ← gets (fun w => slots w !! slot);
    match e with
    | Some e =>
        if effect_scope e =? id then
          _ ← modify (fun w => set_slots (delete slot (slots w)) w);
          for_each f (slot_scopes (content (slot_state e)))
        else mret tt
    | None => mret tt
    end) retired).
Proof.
  intros Hf. induction retired as [|slot retired IH]; intros w r w' Hid; cbn.
  { intros [= <- <-]. apply guarded_refl. }
  match goal with |- (mbind ?g ?m) w = _ -> _ => assert (Hm : forall r1 w1, m w = Ran (r1, w1) -> guarded x w w1) end.
  { intros r1 w1. unfold mbind, m_bind, gets. destruct (slots w !! slot) as [e|] eqn:He; [|intros [= <- <-]; apply guarded_refl].
    destruct (N.eqb_spec (effect_scope e) id) as [Hs|]; [|intros [= <- <-]; apply guarded_refl].
    unfold modify. intros Hr1. eapply guarded_trans; [by eapply retire_slot_guarded|].
    eapply (guards_for_each x f); [exact Hf|exact Hr1]. }
  unfold mbind at 1, m_bind at 1. match goal with |- context [match ?m w with _ => _ end] => destruct (m w) as [[[[]|e1] w1]|] eqn:Hw end; [| |done].
  - intros Hr. pose proof (Hm _ _ eq_refl) as H1. eapply guarded_trans; [exact H1|]. eapply IH; [|exact Hr].
    destruct H1 as [[Hrun _] _]. by rewrite Hrun.
  - intros [= <- <-]. by eapply Hm.
Qed.

Lemma dispose_retire_guard fuel : forall x id, guards x (dispose fuel id) /\ guards_idle x id (retire_owner fuel id).
Proof.
  induction fuel as [|fuel IH]; intros x id; (split; [|]).
  - done.
  - done.
  - cbn [dispose]. apply guards_bind; [guards|]. intros [s|]; [|guards]. destruct (disposed s); [guards|].
    apply guards_bind; [guards|intros _]. apply guards_bind; [destruct (has_lease s); guards|intros _].
    apply guards_bind; [guards|intros _]. apply guards_bind; [|intros _; guards]. destruct (has_owner s); [|guards].
    intros w r w'. unfold mbind, m_bind, gets. case_bool_decide as Hb.
    + apply guards_frame. by intros [].
    + by apply (proj2 (IH x id)).
  - cbn [retire_owner]. apply guards_idle_bind; [guards|intros _]. apply guards_idle_bind; [guards|intros retired].
    intros w r w' Hid. unfold mbind at 1, m_bind at 1.
    match goal with |- context [match ?m w with _ => _ end] => destruct (m w) as [[[[]|e1] w1]|] eqn:Hw end; [| |done].
    + intros Hr. eapply guarded_trans; [eapply retire_loop_guarded; [|exact Hid|exact Hw]; intros; apply (IH x)|].
      by eapply guards_drop_lease.
    + intros [= <- <-]. eapply retire_loop_guarded; [|exact Hid|exact Hw]. intros; apply (IH x).
Qed.

Lemma guards_dispose x fuel id : guards x (dispose fuel id).
Proof. apply dispose_retire_guard. Qed.

(** The deferred disposals at the end of an effect. *)
Lemma guards_deferred x fuel waiting :
  guards x (for_each (fun owner =>
    busy ← gets (fun w => bool_decide (owner ∈ running w));
    if (busy : bool) then mret tt
    else
      _ ← modify (fun w => set_deferred (without [owner] (deferred w)) w);
      retire_owner fuel owner) waiting).
Proof.
  apply guards_for_each. intros owner w r w'. unfold mbind, m_bind, gets. case_bool_decide as Hb.
  { intros [= <- <-]. apply guarded_refl. }
  unfold modify. intros Hr. eapply guarded_trans; cycle 1.
  - eapply (proj2 (dispose_retire_guard fuel x owner)); [|exact Hr]. exact Hb.
  - split; [by apply kept_same|done].
Qed.
End disposal.

#[export] Hint Resolve guards_dispose : guards.

(** ** Updates and mounting *)

Section updating.
Context `{Foreign}.
Context (fuel : nat).

Lemma guards_slot_of x slot : guards x (slot_of slot).
Proof. unfold slot_of. guards. Qed.
Hint Resolve guards_slot_of : guards.

(** The operations on the state of a slot guard the other slots. *)
Lemma guards_put_slot slot s : guards (Some slot) (put_slot slot s).
Proof.
  apply guards_modify. intros w. split; [|done]. split; [done|]. intros slot' e Hx He Hp. exists (slot_state e).
  cbn. rewrite put_slot_state_id, lookup_alter_ne by congruence. split; [done|by left].
Qed.
Hint Resolve guards_put_slot : guards.
Lemma guards_on_slot {A} slot (f : SlotContent -> SlotState -> A * SlotState) : guards (Some slot) (on_slot slot f).
Proof. unfold on_slot. guards. Qed.
Hint Resolve @guards_on_slot : guards.
Lemma guards_slot_updating x slot : guards x (slot_ensure_updating slot).
Proof. unfold slot_ensure_updating. guards. Qed.
Lemma guards_keyed_rows x slot : guards x (keyed_rows slot).
Proof. unfold keyed_rows. guards. Qed.
Lemma guards_leased {A} x id (m : M A) : guards x m -> guards x (leased id m).
Proof. intros Hm. unfold leased. guards. Qed.
Lemma guards_range_snapshot x id : guards x (owned_range_snapshot id).
Proof. unfold owned_range_snapshot. apply guards_leased. guards. Qed.
Lemma guards_nodes_present x id : guards x (scope_nodes_present id).
Proof. unfold scope_nodes_present. apply guards_leased. guards. Qed.
Lemma guards_owned_range x id : guards x (validate_owned_range id).
Proof. unfold validate_owned_range. apply guards_leased. guards. Qed.
Lemma guards_suppress x id : guards x (suppress_ownership_mismatch id).
Proof. unfold suppress_ownership_mismatch. guards. Qed.
Hint Resolve guards_slot_updating guards_keyed_rows guards_range_snapshot guards_nodes_present guards_owned_range guards_suppress : guards.
Lemma guards_stable_snapshots x slot : guards x (stable_snapshots slot).
Proof. unfold stable_snapshots. guards. Qed.
Lemma guards_corrupting {A} x (m : M A) : guards x m -> guards x (corrupting m).
Proof. intros Hm. unfold corrupting. guards. Qed.
Hint Resolve guards_stable_snapshots : guards.

Lemma guards_next_plan x : guards x (allocate next_plan set_next_plan).
Proof. unfold allocate. guards. Qed.
Lemma guards_next_target x : guards x next_dom_target.
Proof. unfold next_dom_target, allocate. guards. Qed.
Lemma guards_notify x n : guards x (notify n).
Proof. unfold notify. guards. Qed.
Hint Resolve guards_next_plan guards_next_target guards_notify : guards.
Lemma guards_before_commit x target op : guards x (before_dom_commit target op).
Proof. unfold before_dom_commit. guards. Qed.
Lemma guards_after_commit x plan : guards x (after_dom_commit plan).
Proof. unfold after_dom_commit. guards. Qed.
Hint Resolve guards_before_commit guards_after_commit : guards.

Lemma guards_markers x n : forall passes markers subject, guards x (remove_markers n passes markers subject).
Proof. induction n as [|n IH]; intros; cbn [remove_markers]; guards. Qed.
Hint Resolve guards_markers : guards.
Lemma guards_poison_retire slot s1 s2 error : guards (Some slot) (poison_and_retire fuel slot s1 s2 error).
Proof. unfold poison_and_retire, slot_poison, take_content. guards. Qed.
Lemma guards_settle slot error b : guards (Some slot) (settle_failure slot error b).
Proof. unfold settle_failure, slot_fail. guards. Qed.
Hint Resolve guards_poison_retire guards_settle : guards.

Lemma guards_or_drop {A} x staged (m : M A) : guards x m -> guards x (or_drop fuel staged m).
Proof. intros Hm. unfold or_drop. guards. Qed.

(** Staging guards every slot that is there when it starts. *)
Definition stager_guards (s : Stager) : Prop := forall x ids o, guards x (s ids o).

Lemma guards_plan_rows x slot e rows olds pending : forall planned,
  Forall (fun p => match p.2 with Ok s => stager_guards s | Err _ => True end) pending ->
  guards x (plan_rows fuel slot e rows olds pending planned).
Proof.
  induction pending as [|[key built] pending IH]; intros planned Hp; cbn [plan_rows]; [guards|].
  apply Forall_cons in Hp as [Hs Hp]. apply guards_bind; [|intros; by apply IH]. apply guards_or_drop.
  destruct (old_index_of key 0 rows); [guards|]. apply guards_bind; [guards|intros _].
  destruct built as [s|e']; [apply guards_known_ok|apply guards_known_err].
  guards.
Qed.

Lemma guards_place x parent : forall settled anchor, guards x (place_rows parent anchor settled).
Proof.
  induction settled as [|[row keep] settled IH]; intros anchor; cbn [place_rows]; [guards|].
  apply guards_bind; [|intros _; apply IH]. destruct row, keep; unfold insert_all; guards.
Qed.
Lemma guards_retire x f retained : forall snapshots index, guards x (retire_nodes f index retained snapshots).
Proof. induction snapshots as [|s snapshots IH]; intros index; cbn [retire_nodes]; guards. Qed.
Hint Resolve guards_place guards_retire : guards.
Lemma guards_mutate x e parent snaps planned : guards x (mutate_rows e parent snaps planned).
Proof. unfold mutate_rows. guards. Qed.
Lemma guards_focus x f : guards x (restore_focus f).
Proof. unfold restore_focus. guards. Qed.
Lemma guards_next_rows x : forall planned olds, guards x (next_rows olds planned).
Proof. induction planned as [|[i s|k st s] planned IH]; intros olds; cbn [next_rows]; guards. Qed.
Hint Resolve guards_mutate guards_focus guards_next_rows : guards.
Lemma guards_again x slot e chain planned : guards x (validate_again slot e chain planned).
Proof. unfold validate_again. guards. Qed.
Lemma guards_reconcile x slot e chain planned snaps parent focus : guards x (reconcile slot e chain planned snaps parent focus).
Proof. unfold reconcile, remove_count_guard. guards. Qed.
Hint Resolve guards_again guards_reconcile : guards.
Lemma guards_prepare_rows x slot e chain pending :
  (forall rows, pending = Ok rows -> Forall (fun p => match p.2 with Ok s => stager_guards s | Err _ => True end) rows) ->
  guards x (prepare_rows fuel slot e chain pending).
Proof.
  intros Hp. unfold prepare_rows. apply guards_bind; [guards|intros _]. apply guards_bind; [guards|intros _].
  destruct pending as [rows|error]; [apply guards_known_ok|apply guards_known_err]. specialize (Hp rows eq_refl). unfold chain_active, chain_attached.
  guards. by apply guards_plan_rows.
Qed.
Lemma guards_releasing {A} x chain (m : M A) : guards x m -> guards x (releasing chain m).
Proof. intros Hm. unfold releasing. guards. Qed.
Lemma guards_replace_rows slot e planned plan : guards (Some slot) (replace_rows fuel slot e planned plan).
Proof. unfold replace_rows, take_content, slot_finish. guards. Qed.
Hint Resolve guards_replace_rows : guards.

Lemma guards_with_flags {A} x (m : M A) : guards x m -> guards x (with_flags m).
Proof.
  intros Hm w r w'. unfold with_flags, mbind, m_bind, gets, modify, try.
  set (w0 := set_irreversible false (set_stable_corrupted false w)).
  destruct (m w0) as [[r1 w1]|] eqn:Hr; [|done]. intros [= <- <-].
  destruct (Hm _ _ _ Hr) as [Hk _]. split; [|done].
  apply (kept_trans x w w0); [by apply kept_same|]. apply (kept_trans x w0 w1); [exact Hk|by apply kept_same].
Qed.

Definition pending_guards (pending : result KeyedError (list (KeyedKey * result KeyedError Stager))) : Prop :=
  forall rows, pending = Ok rows -> Forall (fun p => match p.2 with Ok s => stager_guards s | Err _ => True end) rows.

Lemma guards_keyed_transaction slot pending :
  pending_guards pending -> guards (Some slot) (keyed_transaction fuel slot pending).
Proof.
  intros Hp. unfold keyed_transaction. apply guards_bind; [guards|intros e]. apply guards_bind; [guards|intros _].
  apply guards_releasing, guards_bind; [guards|intros chain].
  apply guards_bind; [apply guards_try, guards_prepare_rows, Hp|]. intros [(planned & (snaps & parent) & focus)|error]; [|guards].
  apply guards_bind; [|guards]. apply guards_or_drop, guards_releasing. guards.
Qed.

Lemma guards_keyed_effect slot pending : pending_guards pending -> guards (Some slot) (run_keyed_effect fuel slot pending).
Proof.
  intros Hp. unfold run_keyed_effect, slot_begin. apply guards_bind; [guards|intros begun]. apply guards_bind; [guards|intros e].
  destruct begun as [[]|error]; [|guards..]. apply guards_with_flags, guards_bind; [apply guards_try, guards_keyed_transaction, Hp|].
  guards.
Qed.

Lemma guards_refresh x slot e chain : guards x (refresh_stable slot e chain).
Proof. unfold refresh_stable, chain_attached. guards. Qed.
Hint Resolve guards_refresh : guards.
Lemma guards_prepare_candidate x slot e chain fresh : stager_guards fresh -> guards x (prepare_candidate fuel slot e chain fresh).
Proof. intros Hf. unfold prepare_candidate, chain_active. guards. Qed.
Lemma guards_insert_planned x slot e t c s p st : guards x (insert_planned slot e t c s p st).
Proof. unfold insert_planned, insert_candidate. guards. Qed.
Lemma guards_commit_candidate x slot e t s n : guards x (commit_candidate slot e t s n).
Proof. unfold commit_candidate. guards. Qed.
Hint Resolve guards_insert_planned guards_commit_candidate : guards.

Lemma guards_dynamic_transaction slot fresh : stager_guards fresh -> guards (Some slot) (dynamic_transaction fuel slot fresh).
Proof.
  intros Hf. unfold dynamic_transaction. apply guards_bind; [guards|intros e]. apply guards_bind; [guards|intros _].
  apply guards_releasing, guards_bind; [guards|intros chain].
  apply guards_bind; [by apply guards_try, guards_prepare_candidate|]. intros [(c & (s & p) & st)|error]; [|guards].
  apply guards_bind; [guards|]. intros [(t & plan & n)|error]; [|guards].
  unfold take_content, slot_finish. guards.
Qed.

Lemma guards_dynamic_effect slot fresh : stager_guards fresh -> guards (Some slot) (run_dynamic_effect fuel slot fresh).
Proof.
  intros Hf. unfold run_dynamic_effect, slot_begin. apply guards_bind; [guards|intros begun]. apply guards_bind; [guards|intros e].
  destruct begun as [[]|error]; [|guards..]. apply guards_with_flags, guards_bind; [by apply guards_try, guards_dynamic_transaction|].
  guards.
Qed.
End updating.

(** ** Mounting guards *)

Section walking.
Context `{Foreign, UnicodeTables}.
Context (fuel : nat).

Hint Resolve guards_next_target guards_before_commit guards_after_commit guards_all_active : guards.

Lemma guards_new_scope x ids o : guards x (new_scope ids o).
Proof. unfold new_scope. guards. Qed.
Lemma guards_register x id n : guards x (register_node id n).
Proof. unfold register_node. guards. Qed.
Lemma guards_ensure_leased x id : guards x (ensure_leased id).
Proof. unfold ensure_leased. guards. Qed.
Hint Resolve guards_new_scope guards_register guards_ensure_leased : guards.
Lemma guards_created x id make : guards x (created id make).
Proof. unfold created. guards. Qed.
Lemma guards_fork x o : guards x (fork_origin o).
Proof. unfold fork_origin. guards. Qed.
Lemma guards_scope_origin x id : guards x (scope_origin id).
Proof. unfold scope_origin. guards. Qed.
Lemma guards_call_on x op subject call : guards x (browser_call_on op subject call).
Proof. unfold browser_call_on. guards. Qed.
Hint Resolve guards_created guards_fork guards_scope_origin guards_call_on : guards.
Lemma guards_set_attribute x el ns n v : guards x (set_attribute el ns n v).
Proof. unfold set_attribute. guards. Qed.
Lemma guards_owner_operation {A} x op id (m : M A) : guards x m -> guards x (owner_operation op id m).
Proof. intros Hm. unfold owner_operation. guards. Qed.
Lemma guards_on_cleanup x id : guards x (on_cleanup id).
Proof. unfold on_cleanup. apply guards_owner_operation. guards. Qed.
Hint Resolve guards_set_attribute guards_on_cleanup : guards.

Lemma guards_text x id target text context prefix candidate : guards x (run_text_effect id target text context prefix candidate).
Proof. unfold run_text_effect, releasing. guards. Qed.
Lemma guards_attribute x id target el t ns name answer : guards x (run_attribute_effect id target el t ns name answer).
Proof. unfold run_attribute_effect, releasing. guards. Qed.
Hint Resolve guards_text guards_attribute : guards.

(** The run of an effect: while it runs its scope is among the running ones. *)
Lemma guards_install {A} x id (m : M A) : guards x m -> guards x (install_effect fuel id m).
Proof.
  intros Hm. unfold install_effect. apply guards_owner_operation. intros w r w'.
  unfold mbind, m_bind, modify, try. set (w0 := set_running (id :: running w) w).
  destruct (m w0) as [[r1 w1]|] eqn:Hr; [|done]. destruct (Hm _ _ _ Hr) as [[Hrun Hslots] Hi].
  assert (Hg : guarded x w (set_running (tail (running w1)) w1)).
  { split; [|exact Hi]. split; [cbn; by rewrite Hrun|]. intros slot e Hx He Hp. apply (Hslots slot e); [done|done|].
    unfold is_private in *. cbn. apply andb_true_iff in Hp as [Hp1 Hp2]. apply bool_decide_eq_true in Hp1.
    rewrite bool_decide_eq_true_2 by set_solver. done. }
  unfold end_effect, mbind, m_bind, modify, gets.
  match goal with |- context [for_each ?f ?l ?w2] => destruct (for_each f l w2) as [[r2 w3]|] eqn:Hd end; [|done].
  intros Hres. assert (w' = w3) as -> by (by destruct r2; injection Hres). eapply guarded_trans; [exact Hg|].
  eapply (guards_deferred x fuel _ _ _ _ Hd).
Qed.

Lemma guards_first_run x id run : guards x run -> guards x (first_run fuel id run).
Proof. intros Hr. unfold first_run. apply guards_bind; [by apply guards_install|guards]. Qed.

Lemma guards_first_text x id target text context prefix candidate :
  guards x (first_run fuel id (run_text_effect id target text context prefix candidate)).
Proof. apply guards_first_run, guards_text. Qed.
Lemma guards_first_attribute x id target el t ns name answer :
  guards x (first_run fuel id (run_attribute_effect id target el t ns name answer)).
Proof. apply guards_first_run, guards_attribute. Qed.
Hint Resolve guards_first_text guards_first_attribute : guards.

(** A new slot is none of those that are there. *)
Lemma guards_new_slot x id start end_ o target initial run :
  (forall slot, guards (Some slot) (run slot)) ->
  guards x (slot ← gets (fun w => fresh (dom (slots w)));
            _ ← modify (fun w => set_slots (<[slot := mkEffect id start end_ o target (mkSlot Ready initial)]> (slots w)) w);
            first_run fuel id (run slot)).
Proof.
  intros Hrun w r w'. unfold mbind, m_bind, gets, modify. set (slot := fresh (dom (slots w))).
  assert (Hnew : slots w !! slot = None) by (apply not_elem_of_dom, is_fresh).
  intros Hr. apply (guards_first_run (Some slot)) in Hr as [[Hrunning Hs] Hi]; [|apply Hrun]. split; [|exact Hi].
  split; [exact Hrunning|]. intros slot' e _ He Hp. assert (slot <> slot') by congruence. apply Hs; [congruence| |exact Hp].
  cbn. by rewrite lookup_insert_ne.
Qed.

Lemma guards_install_slot x position id s1 s2 s3 s4 initial run :
  (forall slot, guards (Some slot) (run slot)) -> guards x (install_slot fuel position id s1 s2 s3 s4 initial run).
Proof.
  intros Hrun. unfold install_slot. apply guards_bind; [guards|intros [start d]]. apply guards_bind; [guards|intros _].
  apply guards_bind; [guards|intros [end' d']]. do 9 (apply guards_bind; [guards|intros ?]). by apply guards_new_slot.
Qed.

Lemma stage_view_guards ns context prefix walk :
  (forall x position direct id, guards x (walk position direct id)) -> stager_guards (stage_view fuel ns context prefix walk).
Proof.
  intros Hw x ids o. unfold stage_view. guards.
Qed.

Lemma guards_mount_attribute x id el t ns a : guards x (mount_attribute fuel id el t ns a).
Proof. destruct a as [name [value|answer]]; unfold mount_attribute; guards. Qed.

Lemma guards_listener x id el event : guards x (install_listener id el event).
Proof. unfold install_listener. guards. Qed.
Hint Resolve guards_mount_attribute guards_listener : guards.

Lemma guards_mount_before v : forall x position direct id, guards x (mount_before fuel v position direct id).
Proof.
  induction v as [s|s|t a l c Hc|c Hc|v IH|e|rows Hrows] using view_rect'; intros x position direct id; cbn [mount_before].
  - guards.
  - guards.
  - apply guards_bind; [guards|intros _]. apply guards_bind; [guards|intros _]. do 4 (apply guards_bind; [guards|intros ?]).
    do 2 (apply guards_bind; [guards|intros _]). apply guards_bind; [|guards].
    destruct (is_void_in t _); [guards|]. generalize false as content.
    induction Hc as [|child c Hchild Hc IH]; intros content; [guards|]. apply guards_bind; [apply Hchild|intros; apply IH].
  - revert direct. induction Hc as [|child c Hchild Hc IH]; intros content; [guards|]. apply guards_bind; [apply Hchild|intros; apply IH].
  - apply guards_bind; [|guards]. apply guards_install_slot. intros slot. by apply guards_dynamic_effect, stage_view_guards.
  - apply guards_bind; [guards|intros _]. apply guards_bind; [|guards]. apply guards_install_slot. intros slot.
    by apply guards_keyed_effect.
  - apply guards_bind; [guards|intros _]. apply guards_bind; [|guards]. apply guards_install_slot. intros slot.
    apply guards_keyed_effect. intros pending [= <-].
    induction Hrows as [|[key [view|error]] rows Hrow Hrows IH]; constructor; [by apply stage_view_guards|done|done|done].
Qed.

(** What a view is mounted by is a stager that guards. *)
Lemma view_stager_guards ns context prefix v : stager_guards (stage_view fuel ns context prefix (mount_before fuel v)).
Proof. apply stage_view_guards. intros. apply guards_mount_before. Qed.
End walking.
