(* ===== verification/MountOutcome.v ===== *)
(** * MountOutcome: what a run of a keyed effect leaves behind ([pliego-dom])

    The outcome of [run_keyed_effect] under arbitrary interference: a run that
    succeeds installs exactly the pending rows, in order, and keeps the scope of every
    key it already had; a run that fails gives the slot back with the rows it had, or
    poisons it. *)

From S2P Require Import Prelude Reactive DomName Dom DomHtml MountTree MountState MountSample MountScope KeyedLis MountUpdate MountView MountSafety.

Local Open Scope N_scope.

(** ** Runs of the monad *)

Section runs.
Context `{Foreign}.

Lemma bind_run {A B} (m : M A) (f : A -> M B) w r w' :
  (m ≫= f) w = Ran (r, w') ->
  (exists a w1, m w = Ran (Ok a, w1) /\ f a w1 = Ran (r, w')) \/ (exists e, m w = Ran (Err e, w') /\ r = Err e).
Proof.
  unfold mbind, m_bind. destruct (m w) as [[[a|e] w1]|] eqn:Hw; [| |done].
  - intros Hr. left. by exists a, w1.
  - intros [= <- <-]. right. by exists e.
Qed.

Lemma bind_run_ok {A B} (m : M A) (f : A -> M B) w b w' :
  (m ≫= f) w = Ran (Ok b, w') -> exists a w1, m w = Ran (Ok a, w1) /\ f a w1 = Ran (Ok b, w').
Proof. intros [(a & w1 & Ha & Hf)|(e & _ & He)]%bind_run; [by exists a, w1|done]. Qed.

Lemma try_run {A} (m : M A) w r w' : try m w = Ran (r, w') -> exists r', r = Ok r' /\ m w = Ran (r', w').
Proof. unfold try. destruct (m w) as [[r' w1]|]; [|done]. intros [= <- <-]. by exists r'. Qed.

Lemma of_result_run {A} (r' : result MountError A) w r w' : of_result r' w = Ran (r, w') -> r = r' /\ w' = w.
Proof. by intros [= <- <-]. Qed.

Lemma release_all_run ids w r w' :
  release_all ids w = Ran (r, w') ->
  r = Ok tt /\ slots w' = slots w /\ running w' = running w /\ irreversible w' = irreversible w.
Proof.
  intros [= <- <-]. split; [done|]. revert w. induction ids as [|id ids IH]; intros w; cbn; [done|].
  destruct (IH (release id w)) as (Hs & Hr & Hi). destruct (frame_release id w) as (Hr' & Hs' & Hi'). by rewrite Hs, Hr, Hi.
Qed.

Lemma releasing_run {A} chain (m : M A) w r w' :
  releasing chain m w = Ran (r, w') ->
  exists w1, m w = Ran (r, w1) /\ slots w' = slots w1 /\ running w' = running w1 /\ irreversible w' = irreversible w1.
Proof.
  unfold releasing. intros [(r1 & w1 & Ht & Hr)|(e & Ht & _)]%bind_run; [|by apply try_run in Ht as (? & [=] & _)].
  apply try_run in Ht as (r2 & [= ->] & Hm). exists w1.
  apply bind_run in Hr as [([] & w2 & Hrel & Hres)|(e & Hrel & _)]; [|done].
  apply of_result_run in Hres as [-> ->]. split; [done|]. by apply release_all_run in Hrel as (_ & ?).
Qed.

Lemma or_drop_run {A} fuel staged (m : M A) w r w' :
  or_drop fuel staged m w = Ran (r, w') ->
  (exists a, r = Ok a /\ m w = Ran (Ok a, w')) \/ (exists e e1 w1, r = Err e /\ m w = Ran (Err e1, w1) /\ guarded None w1 w').
Proof.
  unfold or_drop. intros [(r1 & w1 & Ht & Hr)|(e & Ht & _)]%bind_run; [|by apply try_run in Ht as (? & [=] & _)].
  apply try_run in Ht as (r2 & [= ->] & Hm). destruct r2 as [a|e].
  - injection Hr as <- <-. left. by exists a.
  - right. apply bind_run in Hr as [([] & w2 & Hd & Hf)|(e' & Hd & ->)].
    + injection Hf as <- <-. exists e, e, w1. split_and!; [done|done|]. eapply (guards_for_each None); [|exact Hd]. intros; apply guards_dispose.
    + exists e', e, w1. split_and!; [done|done|]. eapply (guards_for_each None); [|exact Hd]. intros; apply guards_dispose.
Qed.

(** ** Disposal and poisoning never fail *)

(** No error is returned; panics and an end of the fuel remain possible. *)
Definition nofail {A} (m : M A) : Prop := forall w e w', m w <> Ran (Err e, w').

Lemma nofail_bind {A B} (m : M A) (f : A -> M B) : nofail m -> (forall a, nofail (f a)) -> nofail (m ≫= f).
Proof. intros Hm Hf w e w' [(a & w1 & _ & Hr)|(e' & Hr & _)]%bind_run; [by eapply Hf|by eapply Hm]. Qed.
Lemma nofail_ret {A} (a : A) : nofail (mret a).
Proof. by intros w e w'. Qed.
Lemma nofail_gets {A} (f : World -> A) : nofail (gets f).
Proof. by intros w e w'. Qed.
Lemma nofail_modify f : nofail (modify f).
Proof. by intros w e w'. Qed.
Lemma nofail_panic {A} : nofail (panic (A := A)).
Proof. by intros w e w'. Qed.
Lemma nofail_out_of_fuel {A} : nofail (out_of_fuel (A := A)).
Proof. by intros w e w'. Qed.
Lemma nofail_option {A} (o : option A) : nofail (of_option o).
Proof. intros w e w'. unfold of_option. by destruct o. Qed.
Lemma nofail_try {A} (m : M A) : nofail (try m).
Proof. intros w e w'. unfold try. by destruct (m w) as [[? ?]|]. Qed.
Lemma nofail_for_each {A} (f : A -> M unit) xs : (forall a, nofail (f a)) -> nofail (for_each f xs).
Proof. intros Hf. induction xs; cbn; [apply nofail_ret|by apply nofail_bind]. Qed.
Lemma nofail_site site : nofail (run_site site).
Proof. by intros w e w'. Qed.
End runs.

Create HintDb nofail.
#[export] Hint Resolve nofail_ret nofail_gets nofail_modify nofail_panic nofail_out_of_fuel nofail_option nofail_try nofail_site : nofail.

Ltac nofail :=
  repeat first
    [ progress intros
    | solve [eauto with nofail]
    | apply nofail_bind
    | apply nofail_for_each
    | match goal with |- nofail (if ?b then _ else _) => destruct b end
    | match goal with |- nofail (match ?o with _ => _ end) => destruct o end
    | match goal with |- nofail (let '(_, _) := ?p in _) => destruct p end ].

Section total.
Context `{Foreign}.

Lemma nofail_cleanup_of id : nofail (cleanup_of id).
Proof. unfold cleanup_of. nofail. Qed.
Hint Resolve nofail_cleanup_of : nofail.
Lemma nofail_recording had (m : M unit) : nofail (recording had m).
Proof. unfold recording. nofail. Qed.
Hint Resolve nofail_recording : nofail.
Lemma nofail_detach ns subject : forall had, nofail (detach_each ns subject had).
Proof. induction ns as [|n ns IH]; intros had; cbn [detach_each]; nofail. Qed.
Lemma nofail_take id : nofail (take_registered id).
Proof. unfold take_registered. nofail. Qed.
Hint Resolve nofail_detach nofail_take : nofail.
Lemma nofail_remove_range r report : nofail (remove_range r report).
Proof. unfold remove_range. nofail. Qed.
Lemma nofail_drain n : forall passes id owned had retried, nofail (drain_nodes n passes id owned had retried).
Proof. induction n as [|n IH]; intros; cbn [drain_nodes]; nofail. Qed.
Lemma nofail_survivors id ids : nofail (transfer_survivors id ids).
Proof. induction ids as [|a ids IH]; cbn [transfer_survivors]; unfold transfer_registered_nodes; nofail. Qed.
Hint Resolve nofail_remove_range nofail_drain nofail_survivors : nofail.
Lemma nofail_clean id : nofail (cleanup id).
Proof. unfold cleanup, delegated_target, clean_locally, transfer_registered_nodes. nofail. Qed.
Hint Resolve nofail_clean : nofail.
Lemma nofail_drop_lease id : nofail (drop_lease id).
Proof. unfold drop_lease. nofail. Qed.
Hint Resolve nofail_drop_lease : nofail.

Lemma nofail_dispose_retire fuel : forall id, nofail (dispose fuel id) /\ nofail (retire_owner fuel id).
Proof.
  induction fuel as [|fuel IH]; intros id; (split; [|]); [nofail|nofail| |].
  - cbn [dispose]. unfold scope_of, put_scope, notify_scope_dispose. nofail. apply IH.
  - cbn [retire_owner]. nofail. apply IH.
Qed.

Lemma nofail_dispose fuel id : nofail (dispose fuel id).
Proof. apply nofail_dispose_retire. Qed.
Lemma nofail_release_all ids : nofail (release_all ids).
Proof. unfold release_all. nofail. Qed.
Lemma nofail_slot_of slot : nofail (slot_of slot).
Proof. unfold slot_of. nofail. Qed.
Hint Resolve nofail_dispose nofail_release_all nofail_slot_of : nofail.
Lemma nofail_on_slot {A} slot (f : SlotContent -> SlotState -> A * SlotState) : nofail (on_slot slot f).
Proof. unfold on_slot, put_slot. nofail. Qed.
Lemma nofail_suppress id : nofail (suppress_ownership_mismatch id).
Proof. unfold suppress_ownership_mismatch, scope_of. nofail. Qed.
Lemma nofail_markers n : forall passes markers subject, nofail (remove_markers n passes markers subject).
Proof. induction n as [|n IH]; intros; cbn [remove_markers]; nofail. Qed.
Hint Resolve @nofail_on_slot nofail_suppress nofail_markers : nofail.
Lemma nofail_poison_retire fuel slot s1 s2 error : nofail (poison_and_retire fuel slot s1 s2 error).
Proof. unfold poison_and_retire, slot_poison, take_content. nofail. Qed.
Lemma nofail_settle slot error b : nofail (settle_failure slot error b).
Proof. unfold settle_failure, slot_fail. nofail. Qed.
End total.

(** ** The slot of a run *)

Section own.
Context `{Foreign}.
Context (fuel : nat) (slot : SlotId) (e : SlotEffect).

(** The slot has state [s], and its scope has a running effect. *)
Definition at_state (s : SlotState) (w : World) : Prop :=
  effect_scope e ∈ running w /\ slots w !! slot = Some (put_slot_state s e).

Lemma at_state_private s w : at_state s w -> status s <> Ready -> is_private w (put_slot_state s e) = true.
Proof. intros [Hr _] Hs. unfold is_private. cbn. rewrite bool_decide_eq_true_2 by done. by destruct (status s). Qed.

Lemma at_state_guarded s w w' :
  at_state s w -> status s <> Ready -> guarded None w w' -> exists s', at_state s' w' /\ state_kept s s'.
Proof.
  intros Hst Hs [[Hr Hk] _]. destruct (Hk slot _ ltac:(done) (proj2 Hst) (at_state_private _ _ Hst Hs)) as (s' & He & Hkept).
  exists s'. split; [|done]. split; [rewrite Hr; apply Hst|]. done.
Qed.

Lemma at_state_frame s w w' : at_state s w -> slots w' = slots w -> running w' = running w -> at_state s w'.
Proof. unfold at_state. by intros [? ?] -> ->. Qed.

Lemma slot_of_run s w r w' : at_state s w -> slot_of slot w = Ran (r, w') -> r = Ok (put_slot_state s e) /\ w' = w.
Proof.
  intros [_ Hs]. unfold slot_of, mbind, m_bind, gets. rewrite Hs. by intros [= <- <-].
Qed.

Lemma on_slot_run {A} (f : SlotContent -> SlotState -> A * SlotState) s a s' w r w' :
  at_state s w -> f (content s) s = (a, s') -> on_slot slot f w = Ran (r, w') ->
  r = Ok a /\ at_state s' w' /\ irreversible w' = irreversible w.
Proof.
  intros Hst Hf [(e1 & w1 & Hof & Hr)|(err & Hof & ->)]%bind_run; [|by apply (slot_of_run _ _ _ _ Hst) in Hof as [? _]].
  apply (slot_of_run _ _ _ _ Hst) in Hof as [[= ->] ->].
  cbn in Hr. rewrite Hf in Hr. injection Hr as <- <-. split; [done|]. split; [|done]. split; [apply Hst|].
  cbn. rewrite lookup_alter_eq, (proj2 Hst). by destruct e.
Qed.

Lemma updating_or_poisoned c s : state_kept (mkSlot Updating c) s -> s = mkSlot Updating c \/ exists cause, s = mkSlot (PoisonedSlot cause) c.
Proof. intros [->|[_ [cause ->]]]; [by left|right; by exists cause]. Qed.

Lemma ensure_updating_run s w r w' :
  at_state s w -> slot_ensure_updating slot w = Ran (r, w') ->
  w' = w /\ (r = Ok tt <-> status s = Updating) .
Proof.
  intros Hst [(e1 & w1 & Hof & Hr)|(err & Hof & ->)]%bind_run; [|by apply (slot_of_run _ _ _ _ Hst) in Hof as [? _]].
  apply (slot_of_run _ _ _ _ Hst) in Hof as [[= ->] ->].
  apply of_result_run in Hr as [-> ->]. split; [done|]. cbn. unfold ensure_updating. by destruct (status s).
Qed.

(** The poisoned slot stays poisoned to the end of the retirement. *)
Lemma poison_and_retire_poisons s s1 s2 error w r w' :
  at_state s w -> status s <> Ready -> poison_and_retire fuel slot s1 s2 error w = Ran (r, w') ->
  (exists a, r = Ok a) /\ exists cause c, at_state (mkSlot (PoisonedSlot cause) c) w'.
Proof.
  intros Hst Hs Hrun. destruct r as [a|err]; [|by eapply nofail_poison_retire in Hrun]. split; [by exists a|].
  unfold poison_and_retire in Hrun.
  apply bind_run_ok in Hrun as (e1 & w1 & Hof & Hrun). apply (slot_of_run _ _ _ _ Hst) in Hof as [[= ->] ->].
  apply bind_run_ok in Hrun as ([] & w2 & Hsup & Hrun).
  assert (H2 : guarded None w w2) by (eapply guards_for_each; [|exact Hsup]; intros; apply guards_suppress).
  destruct (at_state_guarded _ _ _ Hst Hs H2) as (s3 & Hst3 & Hk3).
  apply bind_run_ok in Hrun as ([terminal newly] & w3 & Hp & Hrun).
  assert (Hpoison : exists t n cause c, poison (slot_poisoned (content s3)) error s3 = ((t, n), mkSlot (PoisonedSlot cause) c)).
  { unfold poison. destruct s3 as [[]]; cbn; by do 4 eexists. }
  destruct Hpoison as (t & n & cause & c & Hpoison).
  eapply on_slot_run in Hp as (_ & Hst4 & _); [|exact Hst3|exact Hpoison].
  apply bind_run_ok in Hrun as (alive & w4 & Ha & Hrun). injection Ha as _ <-.
  apply bind_run_ok in Hrun as (chain & w5 & Hc & Hrun).
  assert (H5 : guarded None w3 w5) by (destruct alive; [eapply guards_try; [|exact Hc]; apply guards_live_chain|injection Hc as _ <-; apply guarded_refl]).
  destruct (at_state_guarded _ _ _ Hst4 ltac:(done) H5) as (s5 & Hst5 & [->|[? _]]); [|done].
  apply bind_run_ok in Hrun as (retired & w6 & Ht & Hrun).
  eapply on_slot_run in Ht as (_ & Hst6 & _); [|exact Hst5|reflexivity].
  match type of Hrun with ?m w6 = _ => assert (H6 : guarded None w6 w') by (refine ((_ : guards None m) _ _ _ Hrun); guards; apply guards_markers) end.
  destruct (at_state_guarded _ _ _ Hst6 ltac:(done) H6) as (s7 & Hst7 & [->|[? _]]); [|done]. by do 2 eexists.
Qed.

(** What is settled after a failure. *)
Lemma settle_failure_settles s error b w r w' :
  at_state s w -> status s <> Ready -> settle_failure slot error b w = Ran (r, w') ->
  (exists a, r = Ok a)
  /\ ((status s = Updating /\ b = false /\ at_state (mkSlot Ready (content s)) w')
      \/ exists cause, at_state (mkSlot (PoisonedSlot cause) (content s)) w').
Proof.
  intros Hst Hs Hrun. destruct r as [a|err]; [|by eapply nofail_settle in Hrun]. split; [by exists a|].
  unfold settle_failure in Hrun.
  apply bind_run_ok in Hrun as (e1 & w1 & Hof & Hrun). apply (slot_of_run _ _ _ _ Hst) in Hof as [[= ->] ->].
  apply bind_run_ok in Hrun as ([] & w2 & Hsup & Hrun).
  assert (H2 : guarded None w w2).
  { destruct (b && _); [|injection Hsup as <-; apply guarded_refl]. eapply guards_for_each; [|exact Hsup]. intros; apply guards_suppress. }
  destruct (at_state_guarded _ _ _ Hst Hs H2) as (s3 & Hst3 & Hk3).
  apply bind_run_ok in Hrun as ([[error' terminal] newly] & w3 & Hf & Hrun).
  assert (Hrest : slots w' = slots w3 /\ running w' = running w3).
  { destruct (terminal && newly); [|destruct (negb terminal)]; by injection Hrun as _ <-. }
  destruct (fail_update (slot_poisoned (content s3)) error b s3) as [[[e2 t2] n2] s4] eqn:Hfail.
  eapply on_slot_run in Hf as (_ & Hst4 & _); [|exact Hst3|exact Hfail].
  assert (Hst' : at_state s4 w') by (eapply at_state_frame; [exact Hst4|apply Hrest|apply Hrest]).
  assert (Hc : content s3 = content s) by (destruct Hk3 as [->|[_ [c ->]]]; done).
  unfold fail_update, poison in Hfail. destruct (status s3) eqn:Hs3, b; injection Hfail as <- <- <- <-; rewrite ?Hc in Hst'.
  all: try (right; eexists; exact Hst').
  - left. split; [|done]. destruct Hk3 as [->|[_ [c ->]]]; done.
  - right. exists cause. rewrite <- Hc. destruct s3; cbn in *; subst. exact Hst'.
  - right. exists cause. rewrite <- Hc. destruct s3; cbn in *; subst. exact Hst'.
Qed.
End own.

(** ** Planned rows *)

Section rows.
Context `{Foreign}.

(** What a planned row is for a pending key. *)
Definition planned_for (rows : list KeyedRow) (key : KeyedKey) (row : PlannedKeyedRow) : Prop :=
  match row with
  | Retained i _ => old_index_of key 0 rows = Some i
  | Fresh k _ _ => k = key /\ old_index_of key 0 rows = None
  end.

Lemma old_index_of_sound key rows : forall n i,
  old_index_of key n rows = Some i -> (n <= i)%nat /\ exists row, rows !! (i - n)%nat = Some row /\ row_key row = key.
Proof.
  induction rows as [|row rows IH]; intros n i; cbn [old_index_of]; [done|].
  destruct (old_index_of key (S n) rows) as [j|] eqn:Hj.
  - intros [= <-]. destruct (IH _ _ Hj) as (Hle & row' & Hrow & Hk). split; [lia|]. exists row'.
    by replace (j - n)%nat with (S (j - S n)) by lia.
  - case_bool_decide; [|done]. intros [= <-]. split; [lia|]. exists row. by rewrite Nat.sub_diag.
Qed.

Lemma old_index_of_complete key rows n : old_index_of key n rows = None -> forall row, row ∈ rows -> row_key row <> key.
Proof.
  revert n. induction rows as [|row rows IH]; intros n; cbn [old_index_of]; [by intros _ ? ?%not_elem_of_nil|].
  destruct (old_index_of key (S n) rows) eqn:Hj; [done|]. case_bool_decide; [done|]. intros _ row' [->|Hin]%elem_of_cons; [done|].
  by eapply IH.
Qed.

Lemma collect_each_length {A B} (f : A -> M B) xs : forall w ys w', collect_each f xs w = Ran (Ok ys, w') -> length ys = length xs.
Proof.
  induction xs as [|x xs IH]; intros w ys w'; cbn [collect_each]; [by intros [= <- _]|].
  intros (y & w1 & _ & (ys' & w2 & Hys & Hr)%bind_run_ok)%bind_run_ok. injection Hr as <- _. cbn. f_equal. by eapply IH.
Qed.

Lemma plan_rows_run fuel slot e rows olds pending : forall keys planned w planned' w',
  plan_rows fuel slot e rows olds pending planned w = Ran (Ok planned', w') ->
  Forall2 (planned_for rows) keys planned -> Forall2 (planned_for rows) (keys ++ map fst pending) planned'.
Proof.
  induction pending as [|[key built] pending IH]; intros keys planned w planned' w'; cbn [plan_rows map].
  - intros [= <- _]. by rewrite app_nil_r.
  - intros (row & w1 & Hrow & Hrest)%bind_run_ok Hp. cbn. rewrite cons_middle, app_assoc. eapply IH; [exact Hrest|].
    apply Forall2_app; [done|]. constructor; [|done].
    apply or_drop_run in Hrow as [(row' & [= <-] & Hrow)|(? & ? & ? & [=] & _)].
    destruct (old_index_of key 0 rows) as [i|] eqn:Hi.
    + apply bind_run_ok in Hrow as (s & w2 & _ & Hr). by injection Hr as <- _.
    + apply bind_run_ok in Hrow as (? & ? & _ & Hrow). apply bind_run_ok in Hrow as (? & ? & _ & Hrow).
      apply bind_run_ok in Hrow as (? & ? & _ & Hrow). apply bind_run_ok in Hrow as (? & ? & _ & Hrow).
      apply bind_run_ok in Hrow as (? & ? & _ & Hrow). by injection Hrow as <- _.
Qed.

(** Distinct keys retain distinct rows. *)
Lemma planned_distinct rows keys planned :
  NoDup keys -> Forall2 (planned_for rows) keys planned -> NoDup (omap old_index planned).
Proof.
  intros Hnd Hp. induction Hp as [|key row keys planned Hrow Hp IH]; cbn; [constructor|].
  apply NoDup_cons in Hnd as [Hk Hnd]. specialize (IH Hnd). destruct row as [i s|k st s]; cbn; [|done]. constructor; [|done].
  intros ([j s'|] & Hin & [= ->])%list_elem_of_omap. cbn in Hrow. destruct (old_index_of_sound _ _ _ _ Hrow) as (_ & old & Hold & Ho).
  apply list_elem_of_lookup_1 in Hin as [n Hn]. destruct (Forall2_lookup_r _ _ _ _ _ Hp Hn) as (key' & Hkey & Hrow').
  cbn in Hrow'. destruct (old_index_of_sound _ _ _ _ Hrow') as (_ & old' & Hold' & Ho'). simplify_eq.
  apply Hk. apply list_elem_of_lookup. by exists n.
Qed.

(** The row that replaces a planned one. *)
Definition taken_from (olds : list (option KeyedRow)) (row : PlannedKeyedRow) (new : KeyedRow) : Prop :=
  match row with
  | Retained i _ => olds !! i = Some (Some new)
  | Fresh k st _ => new = mkRow k (staged_scope st)
  end.

Lemma Forall2_impl_in {A B} (P Q : A -> B -> Prop) xs ys :
  Forall2 P xs ys -> (forall x y, x ∈ xs -> P x y -> Q x y) -> Forall2 Q xs ys.
Proof.
  induction 1 as [|x y xs ys Hp Hps IH]; intros Hpq; constructor; [apply Hpq; [left|done]|].
  apply IH. intros x' y' Hin. apply Hpq. by right.
Qed.

Lemma next_rows_run planned : forall olds w,
  (forall i, i ∈ omap old_index planned -> exists row, olds !! i = Some (Some row)) -> NoDup (omap old_index planned) ->
  exists next left, next_rows olds planned w = Ran (Ok (next, left), w) /\ Forall2 (taken_from olds) planned next
    /\ forall i row, left !! i = Some (Some row) -> olds !! i = Some (Some row) /\ i ∉ omap old_index planned.
Proof.
  induction planned as [|[old s|k st s] planned IH]; intros olds w Hin Hnd; cbn [next_rows omap list_omap old_index] in *.
  - exists [], olds. split_and!; [done|constructor|]. intros i row Hr. split; [done|apply not_elem_of_nil].
  - apply NoDup_cons in Hnd as [Hnew Hnd]. destruct (Hin old) as [row Hrow]; [left|].
    destruct (IH (<[old := None]> olds) w) as (next & left & Hrun & Hnext & Hleft); [|done|].
    { intros i Hi. destruct (Hin i) as [row' Hrow']; [by right|]. exists row'.
      rewrite list_lookup_insert_ne; [done|]. by intros ->. }
    exists (row :: next), left. split_and!.
    + unfold mbind, m_bind, of_option, of_result. rewrite Hrow. cbn. unfold mbind, m_bind in Hrun. by rewrite Hrun.
    + constructor; [done|]. eapply Forall2_impl_in; [exact Hnext|]. intros [i s'|] new Hi; [|done]. cbn.
      rewrite list_lookup_insert_ne; [done|]. intros ->. apply Hnew, list_elem_of_omap. by eexists.
    + intros i row' Hr. destruct (Hleft _ _ Hr) as [Ho Hi]. assert (i <> old).
      { intros ->. rewrite list_lookup_insert_eq in Ho; [done|]. by eapply lookup_lt_Some. }
      rewrite list_lookup_insert_ne in Ho by done. split; [done|]. by apply not_elem_of_cons.
  - destruct (IH olds w Hin Hnd) as (next & left & Hrun & Hnext & Hleft).
    exists (mkRow k (staged_scope st) :: next), left. split_and!; [|by constructor|done].
    unfold mbind, m_bind in *. by rewrite Hrun.
Qed.

Lemma retire_nodes_irreversible f retained snapshots : forall index w a w',
  retire_nodes f index retained snapshots w = Ran (Ok a, w') ->
  (exists i, (index <= i < index + length snapshots)%nat /\ i ∉ retained) -> irreversible w' = true.
Proof.
  induction snapshots as [|s snapshots IH]; intros index w a w'; cbn [retire_nodes length]; [intros _ (i & ? & _); lia|].
  intros ([] & w1 & Hs & Hr)%bind_run_ok (i & Hi & Hnot). pose proof (guards_retire None f retained snapshots (S index) _ _ _ Hr) as [_ Hmono].
  case_bool_decide as Hin.
  - eapply IH; [exact Hr|]. exists i. split; [|done]. assert (i <> index) by (by intros ->). lia.
  - apply Hmono. apply bind_run_ok in Hs as ([] & w2 & Hset & Hs). injection Hset as <-.
    eapply (guards_for_each None); [|exact Hs|done]. intros; apply guards_append.
Qed.
End rows.

(** ** The slot of an update that has not given up its content *)

Section holding.
Context `{Foreign}.
Context (slot : SlotId) (e : SlotEffect) (c : SlotContent).

Definition holds_content (w : World) : Prop := exists s, at_state slot e s w /\ status s <> Ready /\ content s = c.

Lemma holds_guarded w w' : holds_content w -> guarded None w w' -> holds_content w'.
Proof.
  intros (s & Hst & Hs & Hc) Hg. destruct (at_state_guarded _ _ _ _ _ Hst Hs Hg) as (s' & Hst' & Hk).
  exists s'. split; [done|]. by destruct Hk as [->|[_ [cause ->]]].
Qed.

Lemma guarded_frame w w' : running w' = running w -> slots w' = slots w -> irreversible w' = irreversible w -> guarded None w w'.
Proof. intros Hr Hs Hi. split; [by apply kept_same|by rewrite Hi]. Qed.

Lemma holds_step {A B} (m : M A) (f : A -> M B) w b w' :
  (m ≫= f) w = Ran (Ok b, w') -> guards None m -> holds_content w ->
  exists a w1, m w = Ran (Ok a, w1) /\ holds_content w1 /\ f a w1 = Ran (Ok b, w').
Proof.
  intros (a & w1 & Ha & Hf)%bind_run_ok Hm Hh. exists a, w1. split_and!; [done| |done]. eapply holds_guarded; [exact Hh|by eapply Hm].
Qed.

(** A step, or a failure with the content in place. *)
Definition failed_in_place {A} (r : result MountError A) (w' : World) : Prop := holds_content w' /\ exists error, r = Err error.

Lemma bind_cases {A B} (m : M A) (f : A -> M B) w r w' :
  (m ≫= f) w = Ran (r, w') -> guards None m -> holds_content w ->
  failed_in_place r w' \/ exists a w1, m w = Ran (Ok a, w1) /\ holds_content w1 /\ f a w1 = Ran (r, w').
Proof.
  intros [(a & w1 & Ha & Hf)|(e' & He & ->)]%bind_run Hm Hh.
  - right. exists a, w1. split_and!; [done| |done]. eapply holds_guarded; [exact Hh|by eapply Hm].
  - left. split; [|by eexists]. eapply holds_guarded; [exact Hh|by eapply Hm].
Qed.
End holding.

Abbreviation holds_rows slot e rows := (holds_content slot e (KeyedContent rows)).

Tactic Notation "step" hyp(Hrun) "from" hyp(Hh) "as" simple_intropattern(p) :=
  eapply holds_step in Hrun as p; [|solve [guards]|exact Hh].

(** ** From the start of an update to the point of no return *)

Section transaction.
Context `{Foreign}.
Context (fuel : nat) (slot : SlotId) (e : SlotEffect) (rows : list KeyedRow).

Lemma stable_snapshots_run w snaps w' :
  holds_rows slot e rows w -> stable_snapshots slot w = Ran (Ok snaps, w') -> length snaps = length rows.
Proof.
  intros (s & Hst & _ & Hc) (e1 & w1 & Hof & Hr)%bind_run_ok. apply (slot_of_run _ _ _ _ _ _ Hst) in Hof as [[= ->] ->].
  cbn [slot_state put_slot_state] in Hr. rewrite Hc in Hr. apply bind_run_ok in Hr as (r1 & w2 & Ht & Hr).
  apply try_run in Ht as (r2 & [= ->] & Hcol). destruct r2 as [snaps'|err].
  - injection Hr as <- _. apply collect_each_length in Hcol. rewrite Hcol. apply length_map.
  - apply bind_run_ok in Hr as (? & ? & _ & Hr). by apply bind_run_ok in Hr as (? & ? & _ & Hr).
Qed.

Lemma keyed_rows_run w rows' w' : holds_rows slot e rows w -> keyed_rows slot w = Ran (Ok rows', w') -> rows' = rows.
Proof.
  intros (s & Hst & _ & Hc) (e1 & w1 & Hof & Hr)%bind_run_ok. apply (slot_of_run _ _ _ _ _ _ Hst) in Hof as [[= ->] ->].
  cbn [slot_state put_slot_state] in Hr. rewrite Hc in Hr. by injection Hr as <- _.
Qed.

Hint Resolve guards_all_active guards_slot_updating guards_stable_snapshots guards_keyed_rows guards_check guards_check_cleanup
  guards_ensure_active guards_corrupting guards_release_all : guards.

Lemma validate_again_run chain e1 planned w snaps parent focus w' :
  holds_rows slot e rows w -> validate_again slot e1 chain planned w = Ran (Ok (snaps, parent, focus), w') -> length snaps = length rows.
Proof.
  intros Hh Hrun. unfold validate_again in Hrun.
  step Hrun from Hh as ([] & w1 & _ & Hh1 & Hrun). step Hrun from Hh1 as ([] & w2 & _ & Hh2 & Hrun).
  step Hrun from Hh2 as (snaps' & w3 & H3 & Hh3 & Hrun). apply stable_snapshots_run in H3; [|done].
  apply bind_run_ok in Hrun as (? & ? & _ & Hrun). apply bind_run_ok in Hrun as (? & ? & _ & Hrun).
  apply bind_run_ok in Hrun as (? & ? & _ & Hrun). by injection Hrun as <- _ _ _.
Qed.

Lemma prepare_rows_run chain e1 pending w planned snaps parent focus w' :
  holds_rows slot e rows w -> pending_guards (Ok pending) -> prepare_rows fuel slot e1 chain (Ok pending) w = Ran (Ok (planned, (snaps, parent, focus)), w') ->
  Forall2 (planned_for rows) (map fst pending) planned /\ length snaps = length rows.
Proof.
  intros Hh Hp Hrun. unfold prepare_rows, chain_active, chain_attached in Hrun.
  step Hrun from Hh as ([] & w1 & _ & Hh1 & Hrun). step Hrun from Hh1 as ([] & w2 & _ & Hh2 & Hrun).
  apply bind_run_ok in Hrun as (p & w3 & H3 & Hrun). injection H3 as <- <-.
  step Hrun from Hh2 as ([] & w3 & _ & Hh3 & Hrun). step Hrun from Hh3 as ([] & w4 & _ & Hh4 & Hrun).
  step Hrun from Hh4 as (olds & w5 & _ & Hh5 & Hrun). step Hrun from Hh5 as ([] & w6 & _ & Hh6 & Hrun).
  step Hrun from Hh6 as ([] & w7 & _ & Hh7 & Hrun).
  step Hrun from Hh7 as (rows' & w8 & H8 & Hh8 & Hrun). pose proof (keyed_rows_run _ _ _ Hh7 H8) as ->.
  eapply holds_step in Hrun as (planned' & w9 & H9 & Hh9 & Hrun); [|by apply guards_plan_rows, Hp|exact Hh8].
  pose proof (plan_rows_run _ _ _ _ _ _ [] [] _ _ _ H9 (Forall2_nil_2 _ _ _)) as Hplanned.
  apply bind_run_ok in Hrun as ([[c1 c2] c3] & w10 & H10 & Hrun). injection Hrun as <- <- <- <- <-.
  apply or_drop_run in H10 as [(c & [= <-] & H10)|(? & ? & ? & [=] & _)].
  split; [exact Hplanned|]. by eapply validate_again_run.
Qed.

Hint Resolve guards_plan_topology guards_topology_active guards_before_retire guards_commit_after guards_focus guards_mutate
  guards_before_commit guards_after_commit guards_upgrade guards_active_chain : guards.

(** The runs that retire a row are irreversible. *)
Lemma reconcile_irreversible e1 chain planned snaps parent focus w plan w' i :
  reconcile slot e1 chain planned snaps parent focus w = Ran (Ok plan, w') ->
  (i < length snaps)%nat -> i ∉ omap old_index planned -> irreversible w' = true.
Proof.
  intros Hrun Hi Hnot. unfold reconcile in Hrun. cbv zeta in Hrun. do 8 (apply bind_run_ok in Hrun as (? & ? & _ & Hrun)).
  apply bind_run_ok in Hrun as ([] & w1 & Hm & Hrun).
  assert (Hirr : irreversible w1 = true).
  { unfold mutate_rows in Hm. apply bind_run_ok in Hm as ([] & ? & _ & Hm). apply bind_run_ok in Hm as ([retirement d] & ? & _ & Hm).
    apply bind_run_ok in Hm as (? & ? & _ & Hm). eapply retire_nodes_irreversible; [exact Hm|]. exists i. split; [lia|done]. }
  match type of Hrun with ?m w1 = _ => assert (Hg : guarded None w1 w') by (refine ((_ : guards None m) _ _ _ Hrun); guards) end.
  by apply Hg.
Qed.

(** What is known of an update that reaches the replacement of its rows. *)
Definition replaceable (keys : list KeyedKey) (planned : list PlannedKeyedRow) (w : World) : Prop :=
  Forall2 (planned_for rows) keys planned
  /\ forall i, (i < length rows)%nat -> i ∉ omap old_index planned -> irreversible w = true.

(** What follows the preparation, once its chain is held. *)
Lemma prepared_run e1 chain pending w r w' :
  holds_rows slot e rows w -> pending_guards (Ok pending) ->
  (prepared ← try (prepare_rows fuel slot e1 chain (Ok pending));
   match prepared with
   | Err error => _ ← release_all chain; fail error
   | Ok (planned, (snaps, parent, focus)) =>
       plan ← or_drop fuel (staged_scopes planned) (releasing chain (reconcile slot e1 chain planned snaps parent focus));
       replace_rows fuel slot e1 planned plan
   end) w = Ran (r, w') ->
  failed_in_place slot e (KeyedContent rows) r w'
  \/ exists planned plan w1, holds_rows slot e rows w1 /\ replaceable (map fst pending) planned w1 /\ replace_rows fuel slot e1 planned plan w1 = Ran (r, w').
Proof.
  intros Hh Hp Hrun.
  eapply bind_cases in Hrun as [Hf|(prepared & w1 & Ht & Hh1 & Hrun)]; [by left| |by apply guards_try, guards_prepare_rows|done].
  apply try_run in Ht as (r1 & [= ->] & Hprep). destruct r1 as [[planned [[snaps parent] focus]]|error].
  2: { eapply bind_cases in Hrun as [Hf|(u & w2 & _ & Hh2 & Hrun)]; [by left| |guards|done]. injection Hrun as <- <-. left. split; [done|by eexists]. }
  destruct (prepare_rows_run _ _ _ _ _ _ _ _ _ Hh Hp Hprep) as [Hplanned Hlen].
  eapply bind_cases in Hrun as [Hf|(plan & w2 & Ho & Hh2 & Hrun)]; [by left| |by apply guards_or_drop, guards_releasing, guards_reconcile|done].
  right. exists planned, plan, w2. split_and!; [done| |done]. split; [exact Hplanned|]. intros i Hlt Hnot.
  apply or_drop_run in Ho as [(plan' & [= <-] & Ho)|(? & ? & ? & [=] & _)].
  apply releasing_run in Ho as (w3 & Ho & _ & _ & ->). eapply reconcile_irreversible; [exact Ho|by rewrite Hlen|done].
Qed.

(** A transaction fails with its rows in place, or reaches their replacement. *)
Lemma keyed_transaction_run pending w r w' :
  holds_rows slot e rows w -> pending_guards (Ok pending) -> keyed_transaction fuel slot (Ok pending) w = Ran (r, w') ->
  failed_in_place slot e (KeyedContent rows) r w'
  \/ exists s planned plan w1 w2, holds_rows slot e rows w1 /\ replaceable (map fst pending) planned w1
       /\ replace_rows fuel slot (put_slot_state s e) planned plan w1 = Ran (r, w2)
       /\ slots w' = slots w2 /\ running w' = running w2 /\ irreversible w' = irreversible w2.
Proof.
  intros Hh Hp Hrun. pose proof Hh as (s & Hst & _). unfold keyed_transaction in Hrun.
  apply bind_run in Hrun as [(e1 & w1 & Hof & Hrun)|(? & Hof & _)]; pose proof (slot_of_run _ _ _ _ _ _ Hst Hof) as [He Hw]; [|done].
  injection He as He. subst e1 w1.
  eapply bind_cases in Hrun as [Hf|(c & w1 & _ & Hh1 & Hrun)]; [by left| |guards|done].
  apply releasing_run in Hrun as (w2 & Hrun & Hs & Hr & Hi). pose proof (guarded_frame w2 w' Hr Hs Hi) as Hlast.
  assert (Hfail : failed_in_place slot e (KeyedContent rows) r w2 -> failed_in_place slot e (KeyedContent rows) r w') by (intros [Hw2 ?]; split; [by eapply holds_guarded|done]).
  eapply bind_cases in Hrun as [Hf|(chain & w3 & _ & Hh3 & Hrun)]; [by left; apply Hfail| |guards|done].
  destruct (prepared_run _ _ _ _ _ _ Hh3 Hp Hrun) as [Hf|(planned & plan & w4 & Hh4 & Hready & Hreplace)]; [by left; apply Hfail|].
  right. by exists s, planned, plan, w4, w2.
Qed.
End transaction.

(** ** The replacement of the rows *)

Section replacement.
Context `{Foreign}.
Context (fuel : nat) (slot : SlotId) (e : SlotEffect).

(** The slot of an update that failed past the point where its rows were taken: only
    an irreversible update leaves it unpoisoned. *)
Definition failed_beyond {A} (r : result MountError A) (w : World) : Prop :=
  (exists error, r = Err error)
  /\ exists s, at_state slot e s w /\ status s <> Ready /\ (status s = Updating -> irreversible w = true).

Lemma ensure_cases {A} (m : M A) s w r w' :
  (_ ← slot_ensure_updating slot; m) w = Ran (r, w') -> at_state slot e s w -> status s <> Ready ->
  failed_beyond r w' \/ status s = Updating /\ m w = Ran (r, w').
Proof.
  intros Hrun Hst Hs. apply bind_run in Hrun as [([] & w1 & He & Hm)|(error & He & ->)].
  - destruct (ensure_updating_run _ _ _ _ _ _ Hst He) as [-> Hu]. right. split; [by apply Hu|done].
  - destruct (ensure_updating_run _ _ _ _ _ _ Hst He) as [-> Hu]. left. split; [by eexists|]. exists s. split_and!; [done|done|].
    intros Hup. by apply Hu in Hup.
Qed.

Lemma take_content_run s next w r w' :
  at_state slot e s w -> take_content slot next w = Ran (r, w') ->
  r = Ok (content s) /\ at_state slot e (mkSlot (status s) next) w' /\ irreversible w' = irreversible w.
Proof. intros Hst Hrun. by eapply on_slot_run in Hrun. Qed.

(** Nothing is recorded without a step. *)
Lemma nothing_recorded o w : terminal_recorded_after o (terminal_checkpoint o w) w = None.
Proof.
  unfold terminal_recorded_after, terminal_checkpoint. destruct (origins w !! o); [|done]. by rewrite N.eqb_refl.
Qed.

Lemma nofail_after plan : nofail (after_dom_commit plan).
Proof. unfold after_dom_commit, notify. nofail. Qed.

(** The end of an update whose content is in place. *)
Lemma finish_run s plan w r w' :
  at_state slot e s w -> status s <> Ready ->
  (_ ← slot_finish slot; after_dom_commit plan) w = Ran (r, w') ->
  failed_beyond r w'
  \/ r = Ok tt /\ exists w1, at_state slot e (mkSlot Ready (content s)) w1 /\ after_dom_commit plan w1 = Ran (Ok tt, w').
Proof.
  intros Hst Hs [([] & w3 & Hfin & Hrun)|(error & Hfin & ->)]%bind_run.
  all: apply bind_run in Hfin as [(r1 & w4 & Hon & Hres)|(? & Hon & _)];
    (eapply on_slot_run in Hon as (Hr & Hst4 & _); [|exact Hst|apply surjective_pairing]); [|done].
  all: injection Hr as ->; injection Hres as Hres ->; unfold finish_update in Hres, Hst4; destruct (status s) eqn:Hst'; cbn in Hres, Hst4; try done.
  - right. destruct r as [[]|err]; [|by apply nofail_after in Hrun]. split; [done|by exists w3].
  - left. split; [by eexists|]. exists s. rewrite Hst'. split_and!; done.
Qed.

(** The disposal of the rows left over, and the end of the update. *)
Lemma finish_rows_run next old plan w r w' :
  at_state slot e (mkSlot Updating next) w -> (old <> [] -> irreversible w = true) ->
  (checkpoint ← gets (terminal_checkpoint (effect_origin e));
   _ ← for_each (dispose fuel) old;
   failed ← gets (terminal_recorded_after (effect_origin e) checkpoint);
   _ ← match failed with Some error => fail error | None => mret tt end;
   _ ← slot_finish slot;
   after_dom_commit plan) w = Ran (r, w') ->
  failed_beyond r w'
  \/ r = Ok tt /\ exists w1, at_state slot e (mkSlot Ready next) w1 /\ after_dom_commit plan w1 = Ran (Ok tt, w').
Proof.
  intros Hst Hold Hrun. apply bind_run in Hrun as [(c & w1 & Hc & Hrun)|(? & Hc & _)]; [|done]. injection Hc as <- <-.
  apply bind_run in Hrun as [([] & w2 & Hd & Hrun)|(? & Hd & _)]; [|by eapply nofail_for_each in Hd; [|intros; apply nofail_dispose]].
  assert (Hg : guarded None w w2) by (eapply guards_for_each; [|exact Hd]; intros; apply guards_dispose).
  destruct (at_state_guarded _ _ _ _ _ Hst ltac:(done) Hg) as (s2 & Hst2 & Hk).
  assert (Hs2 : status s2 <> Ready) by (by destruct Hk as [->|[_ [? ->]]]).
  apply bind_run in Hrun as [(f & w3 & Hf & Hrun)|(? & Hf & _)]; [|done]. injection Hf as <- <-.
  destruct (terminal_recorded_after _ _ w2) as [error|] eqn:Hrec; cbn in Hrun.
  - injection Hrun as <- <-. left. split; [by eexists|]. exists s2. split_and!; [done|done|]. intros _. apply Hg, Hold.
    intros ->. injection Hd as <-. by rewrite nothing_recorded in Hrec.
  - apply bind_run in Hrun as [([] & w3 & Hm & Hrun)|(? & Hm & _)]; [injection Hm as <-|done].
    eapply finish_run in Hrun as [Hf|Hok]; [by left| |exact Hst2|done]. right.
    by replace next with (content s2) by (by destruct Hk as [->|[_ [? ->]]]).
Qed.

Lemma replace_rows_run rows keys planned plan s0 w r w' :
  holds_rows slot e rows w -> NoDup keys -> replaceable rows keys planned w ->
  replace_rows fuel slot (put_slot_state s0 e) planned plan w = Ran (r, w') ->
  failed_beyond r w'
  \/ r = Ok tt /\ exists next w1, Forall2 (taken_from (map Some rows)) planned next
      /\ at_state slot e (mkSlot Ready (KeyedContent next)) w1 /\ after_dom_commit plan w1 = Ran (Ok tt, w').
Proof.
  intros (s & Hst & Hs & Hc) Hnd [Hplanned Hirr] Hrun. unfold replace_rows in Hrun.
  eapply ensure_cases in Hrun as [Hf|[Hu Hrun]]; [by left| |exact Hst|done].
  destruct s as [st c]; cbn in Hu, Hc; subst st c.
  apply bind_run in Hrun as [(taken & w1 & Ht & Hrun)|(? & Ht & _)];
    (eapply take_content_run in Ht as (Hr & Hst1 & Hi1); [|exact Hst]); [injection Hr as ->|done].
  cbn [content status] in *.
  destruct (next_rows_run planned (map Some rows) w1) as (next & left & Hnext & Htaken & Hleft).
  { intros i ([j sn|] & Hin & [= ->])%list_elem_of_omap. apply list_elem_of_lookup_1 in Hin as [n Hn].
    destruct (Forall2_lookup_r _ _ _ _ _ Hplanned Hn) as (key & _ & Hkey). destruct (old_index_of_sound _ _ _ _ Hkey) as (_ & row & Hrow & _).
    exists row. rewrite list_lookup_fmap. by rewrite Nat.sub_0_r in Hrow; rewrite Hrow. }
  { by eapply planned_distinct. }
  unfold mbind at 1, m_bind at 1 in Hrun. rewrite Hnext in Hrun. cbn [fst snd] in Hrun.
  eapply ensure_cases in Hrun as [Hf|[_ Hrun]]; [by left| |exact Hst1|done].
  apply bind_run in Hrun as [(taken & w2 & Ht & Hrun)|(? & Ht & _)];
    (eapply take_content_run in Ht as (Hr & Hst2 & Hi2); [|exact Hst1]); [|done].
  eapply finish_rows_run in Hrun as [Hf|[-> (w3 & Hst3 & Hafter)]]; [by left| |exact Hst2|].
  - right. split; [done|]. by exists next, w3.
  - intros Hne. rewrite Hi2, Hi1. destruct (omap id left) as [|row rest] eqn:Hom; [done|].
    assert (Hin : row ∈ omap id left) by (rewrite Hom; left). apply list_elem_of_omap in Hin as (o & Hin & Ho). cbn in Ho. subst o.
    apply list_elem_of_lookup_1 in Hin as [i Hi]. destruct (Hleft _ _ Hi) as [Hl Hnot]. apply (Hirr i); [|done].
    apply lookup_lt_Some in Hl. by rewrite length_map in Hl.
Qed.
End replacement.

(** ** The outcome *)

(** [spec.collect()] as the pending rows of an update: each view with what stages it. *)
Definition pending_rows `{Foreign, UnicodeTables} (fuel : nat) (ns : ElementNamespace) (context : option ParentContext)
    (prefix : bool) (views : list (KeyedKey * result KeyedError View)) : list (KeyedKey * result KeyedError Stager) :=
  map (fun p => (p.1, match p.2 with
                      | Ok view => Ok (stage_view fuel ns context prefix (mount_before fuel view))
                      | Err error => Err error
                      end)) views.

Section outcome.
Context `{Foreign, UnicodeTables}.

Lemma pending_rows_guard fuel ns context prefix views : pending_guards (Ok (pending_rows fuel ns context prefix views)).
Proof.
  intros rows [= <-]. apply Forall_forall. intros p ([key built] & -> & _)%list_elem_of_fmap. cbn.
  destruct built; [apply view_stager_guards|done].
Qed.

Lemma pending_rows_keys fuel ns context prefix views : map fst (pending_rows fuel ns context prefix views) = map fst views.
Proof. unfold pending_rows. rewrite map_map. by apply map_ext. Qed.

Lemma taken_keys rows keys planned next :
  Forall2 (planned_for rows) keys planned -> Forall2 (taken_from (map Some rows)) planned next ->
  Forall2 (fun key row => row_key row = key /\ forall i, old_index_of key 0 rows = Some i -> rows !! i = Some row) keys next.
Proof.
  intros Hp. revert next. induction Hp as [|key row keys planned Hrow Hp IH]; intros next Hn; inversion Hn as [|? new ? next' Ht Hn']; subst; constructor; [|by apply IH].
  destruct row as [i s|k st s]; cbn in Hrow, Ht.
  - rewrite list_lookup_fmap in Ht. destruct (old_index_of_sound _ _ _ _ Hrow) as (_ & old & Hold & Hk). rewrite Nat.sub_0_r in Hold.
    rewrite Hold in Ht. injection Ht as ->. split; [done|]. intros j. rewrite Hrow. by intros [= <-].
  - destruct Hrow as [-> Hnone]. subst new. split; [done|]. intros i. by rewrite Hnone.
Qed.

Lemma taken_rows_kept rows keys planned next :
  NoDup (map row_key rows) -> Forall2 (planned_for rows) keys planned -> Forall2 (taken_from (map Some rows)) planned next ->
  map row_key next = keys /\ forall row old, row ∈ next -> old ∈ rows -> row_key row = row_key old -> row = old.
Proof.
  intros Hnd Hp Hn. pose proof (taken_keys _ _ _ _ Hp Hn) as Hall. split.
  - clear -Hall. induction Hall as [|key row keys next [Hk _] Hall IH]; [done|]. cbn. by rewrite Hk, IH.
  - intros row old Hrow Hold Hk. apply list_elem_of_lookup_1 in Hrow as [n Hrow].
    destruct (Forall2_lookup_r _ _ _ _ _ Hall Hrow) as (key & _ & <- & Hi).
    destruct (old_index_of (row_key row) 0 rows) as [i|] eqn:Hidx.
    + specialize (Hi i eq_refl). apply list_elem_of_lookup_1 in Hold as [j Hj].
      assert (i = j) as ->; [|congruence]. eapply NoDup_lookup; [exact Hnd| |]; rewrite list_lookup_fmap.
      * by rewrite Hi.
      * by rewrite Hj, Hk.
    + by destruct (old_index_of_complete _ _ _ Hidx old Hold).
Qed.

Lemma with_flags_run {A} (m : M A) w r w' :
  with_flags m w = Ran (r, w') ->
  exists w1, m (set_irreversible false (set_stable_corrupted false w)) = Ran (r, w1)
    /\ w' = set_irreversible (irreversible w) (set_stable_corrupted (stable_corrupted w) w1).
Proof.
  unfold with_flags, mbind, m_bind, gets, modify, try.
  destruct (m _) as [[r1 w1]|]; [|done]. intros [= <- <-]. by exists w1.
Qed.

(** The first steps of a run on a ready slot. *)
Lemma begin_run {B} slot e c (k : result MountError bool -> SlotEffect -> M B) w r w' :
  at_state slot e (mkSlot Ready c) w -> (begun ← slot_begin slot; e1 ← slot_of slot; k begun e1) w = Ran (r, w') ->
  exists w1, at_state slot e (mkSlot Updating c) w1 /\ k (Ok true) (put_slot_state (mkSlot Updating c) e) w1 = Ran (r, w').
Proof.
  intros Hst Hrun. apply bind_run in Hrun as [(begun & w1 & Hb & Hrun)|(? & Hb & _)];
    (eapply on_slot_run in Hb as (Hb & Hst1 & _); [|exact Hst|reflexivity]); [injection Hb as ->|done].
  apply bind_run in Hrun as [(e1 & w2 & Hof & Hrun)|(? & Hof & _)];
    pose proof (slot_of_run _ _ _ _ _ _ Hst1 Hof) as [He Hw]; [|done].
  injection He as ->. subst w2. exists w1. split; [exact Hst1|exact Hrun].
Qed.

(** What the end of a failed update does to a slot. *)
Definition settled_at (slot : SlotId) (e : SlotEffect) (c : SlotContent) (w : World) : Prop :=
  at_state slot e (mkSlot Ready c) w \/ exists cause c', at_state slot e (mkSlot (PoisonedSlot cause) c') w.

Lemma settle_run slot e s error b w r w' :
  at_state slot e s w -> status s <> Ready -> (error ← settle_failure slot error b; mret (Some error)) w = Ran (r, w') ->
  (exists error, r = Ok (Some error)) /\ ((status s = Updating /\ b = false /\ at_state slot e (mkSlot Ready (content s)) w')
    \/ exists cause, at_state slot e (mkSlot (PoisonedSlot cause) (content s)) w').
Proof.
  intros Hst Hs [(a & w1 & Hrun & Hr)|(? & Hrun & _)]%bind_run; [|by apply nofail_settle in Hrun].
  injection Hr as <- <-. split; [by eexists|]. by apply (settle_failure_settles _ _ _ _ _ _ _ _ Hst Hs) in Hrun as [_ ?].
Qed.

(** Poisoning, then settling, ends poisoned. *)
Lemma poison_settle_run fuel slot e s s1 s2 error (b : World -> bool) w r w' :
  at_state slot e s w -> status s <> Ready ->
  (error ← poison_and_retire fuel slot s1 s2 error; fatal ← gets b; error ← settle_failure slot error fatal; mret (Some error)) w = Ran (r, w') ->
  (exists error, r = Ok (Some error)) /\ exists cause c, at_state slot e (mkSlot (PoisonedSlot cause) c) w'.
Proof.
  intros Hst Hs [(a & w1 & Hp & Hrun)|(? & Hp & _)]%bind_run; [|by apply nofail_poison_retire in Hp].
  apply (poison_and_retire_poisons _ _ _ _ _ _ _ _ _ _ Hst Hs) in Hp as (_ & cause & c & Hst1).
  apply bind_run in Hrun as [(fatal & w2 & Hf & Hrun)|(? & Hf & _)]; [|done]. injection Hf as <- <-.
  apply (settle_run _ _ _ _ _ _ _ _ Hst1) in Hrun as [Hr [[? _]|[cause' ?]]]; [done|split; [done|by eexists _, _]|done].
Qed.

Lemma failure_settles fuel slot e s c s1 s2 error w r w' :
  at_state slot e s w -> status s <> Ready -> (status s = Updating -> content s = c \/ irreversible w = true) ->
  (fatal ← gets (fun w => irreversible w || stable_corrupted w);
   error ← (if (fatal : bool) then poison_and_retire fuel slot s1 s2 error else mret error);
   error ← settle_failure slot error fatal;
   mret (Some error)) w = Ran (r, w') ->
  (exists error, r = Ok (Some error)) /\ settled_at slot e c w'.
Proof.
  intros Hst Hs Hc Hrun. apply bind_run in Hrun as [(fatal & w1 & Hf & Hrun)|(? & Hf & _)]; [|done]. injection Hf as <- <-.
  destruct (irreversible w || stable_corrupted w) eqn:Hfatal.
  - apply (poison_settle_run _ _ _ _ _ _ _ (fun _ => true) _ _ _ Hst Hs) in Hrun as [Hr ?]. by split; [|right].
  - apply bind_run in Hrun as [(a & w1 & Hp & Hrun)|(? & Hp & _)]; [|done]. injection Hp as <- <-.
    destruct (settle_run _ _ _ _ _ _ _ _ Hst Hs Hrun) as [Hr [(Hu & _ & Hready)|[cause ?]]]; split; [done| |done|right; by eexists _, _].
    left. destruct (Hc Hu) as [<-|Hirr]; [done|]. by rewrite Hirr in Hfatal.
Qed.

(** The end of a failed dynamic update, which settles on what poisoning left. *)
Lemma dynamic_failure_settles fuel slot e s c s1 s2 error w r w' :
  at_state slot e s w -> status s <> Ready -> (status s = Updating -> content s = c \/ irreversible w = true) ->
  (corrupted ← gets stable_corrupted;
   error ← (if (corrupted : bool) then poison_and_retire fuel slot s1 s2 error else mret error);
   fatal ← gets irreversible;
   error ← settle_failure slot error fatal;
   mret (Some error)) w = Ran (r, w') ->
  (exists error, r = Ok (Some error)) /\ settled_at slot e c w'.
Proof.
  intros Hst Hs Hc Hrun. apply bind_run in Hrun as [(corrupted & w1 & Hf & Hrun)|(? & Hf & _)]; [|done]. injection Hf as <- <-.
  destruct (stable_corrupted w).
  - apply (poison_settle_run _ _ _ _ _ _ _ _ _ _ _ Hst Hs) in Hrun as [Hr ?]. by split; [|right].
  - apply bind_run in Hrun as [(a & w1 & Hp & Hrun)|(? & Hp & _)]; [|done]. injection Hp as <- <-.
    apply bind_run in Hrun as [(fatal & w1 & Hf & Hrun)|(? & Hf & _)]; [|done]. injection Hf as <- <-.
    destruct (settle_run _ _ _ _ _ _ _ _ Hst Hs Hrun) as [Hr [(Hu & Hb & Hready)|[cause ?]]]; split; [done| |done|right; by eexists _, _].
    left. destruct (Hc Hu) as [<-|Hirr]; [done|]. by rewrite Hirr in Hb.
Qed.

(** The transaction: the new rows are installed, or the failure leaves a slot that
    [failure_settles] speaks of. *)
Lemma keyed_transaction_settles fuel slot e rows pending w r w' :
  holds_rows slot e rows w -> pending_guards (Ok pending) -> NoDup (map row_key rows) -> NoDup (map fst pending) ->
  keyed_transaction fuel slot (Ok pending) w = Ran (r, w') ->
  (exists next plan w1 w2, r = Ok tt /\ at_state slot e (mkSlot Ready (KeyedContent next)) w1
     /\ map row_key next = map fst pending
     /\ (forall row old, row ∈ next -> old ∈ rows -> row_key row = row_key old -> row = old)
     /\ after_dom_commit plan w1 = Ran (Ok tt, w2) /\ slots w' = slots w2)
  \/ (exists error, r = Err error)
     /\ exists s, at_state slot e s w' /\ status s <> Ready /\ (status s = Updating -> content s = KeyedContent rows \/ irreversible w' = true).
Proof.
  intros Hh Hp Hold Hnew Hrun.
  apply keyed_transaction_run with (rows := rows) (e := e) in Hrun
    as [[(s & Hst & Hs & Hc) He]|(s & planned & plan & w1 & w2 & Hh1 & Hready & Hrun & Hslots & Hrunning & Hirr)]; [| |done..].
  - right. split; [done|]. exists s. split_and!; [done|done|]. intros _. by left.
  - eapply replace_rows_run in Hrun as [[He (s' & Hst & Hs & Hi)]|[-> (next & w3 & Htaken & Hst & Hafter)]]; [..|exact Hh1|exact Hnew|exact Hready].
    + right. split; [done|]. exists s'. split_and!; [by eapply at_state_frame|done|]. intros Hu. right. rewrite Hirr. by apply Hi.
    + left. destruct Hready as [Hplanned _]. destruct (taken_rows_kept _ _ _ _ Hold Hplanned Htaken) as [Hkeys Hkept].
      by exists next, plan, w3, w2.
Qed.

(** A run of the effect of a keyed slot that answers, instead of panicking or using up
    the fuel, has settled the slot, whatever the code of views, of observers and of custom
    elements does at each call and mutation. A run without an error installed one row for
    each key of a collection that was read, in the collected order, and the rows whose key
    was there before kept their scope; then the observer was told, and nothing else
    happened to the slots. A run with an error leaves the slot ready with
    the rows it had, or poisons it for good. That a run answers is not shown: foreign code
    may run effects again without end. *)
Theorem keyed_update_settles fuel slot e rows ns context prefix views w r w' :
  effect_scope e ∈ running w ->
  slots w !! slot = Some (put_slot_state (mkSlot Ready (KeyedContent rows)) e) ->
  NoDup (map row_key rows) -> NoDup (map fst views) ->
  run_keyed_effect fuel slot (Ok (pending_rows fuel ns context prefix views)) w = Ran (r, w') ->
  match r with
  | Ok None =>
      exists next plan w1 w2,
        at_state slot e (mkSlot Ready (KeyedContent next)) w1
        /\ map row_key next = map fst views
        /\ (forall row old, row ∈ next -> old ∈ rows -> row_key row = row_key old -> row = old)
        /\ after_dom_commit plan w1 = Ran (Ok tt, w2) /\ slots w' = slots w2
  | Ok (Some _) => settled_at slot e (KeyedContent rows) w'
  | Err _ => False
  end.
Proof.
  intros Hr Hslot Hold Hnew Hrun. apply (begin_run _ e (KeyedContent rows)) in Hrun as (w1 & Hst1 & Hrun); [|done].
  apply with_flags_run in Hrun as (w2 & Hrun & ->). set (w3 := set_irreversible false _) in Hrun.
  assert (Hst3 : at_state slot e (mkSlot Updating (KeyedContent rows)) w3) by (eapply at_state_frame; [exact Hst1|done..]).
  apply bind_run in Hrun as [(update & w4 & Ht & Hrun)|(? & Ht & _)]; [|by apply try_run in Ht as (? & [=] & _)].
  apply try_run in Ht as (r4 & [= ->] & Htrans).
  apply keyed_transaction_settles with (rows := rows) (e := e) in Htrans
    as [(next & plan & w5 & w6 & -> & Hst5 & Hkeys & Hkept & Hafter & Hslots)|[[error ->] (s & Hst4 & Hs & Hc)]];
    rewrite ?pending_rows_keys in *; [| |by eexists|apply pending_rows_guard|done..].
  - injection Hrun as <- <-. by exists next, plan, w5, w6.
  - by apply (failure_settles _ _ _ _ (KeyedContent rows) _ _ _ _ _ _ Hst4 Hs Hc) in Hrun as [[error' ->] Hsettled].
Qed.
End outcome.

(** ** A run *)

#[local] Existing Instance RenderSample.ascii_only.

(** Two rows are mounted; then the first is dropped, the second kept, a third inserted
    before it, in the effect of the slot that the mount installed. *)
Definition sample_view (key : N) : KeyedKey * result KeyedError View := (Unsigned key, Ok (Dom.Text (str "row"))).

Definition sample_mounted : World :=
  match mount 9 (Dom.Keyed (Ok [sample_view 1; sample_view 2])) 1 (sample_world (mkFlat 4 []) true) with
  | Ran (_, w) => set_running [0] w
  | Stuck _ => sample_world (mkFlat 4 []) true
  end.

Definition sample_effect : SlotEffect := mkEffect 0 41 44 1 1 (mkSlot Ready (KeyedContent [])).
Definition sample_rows : list KeyedRow := [mkRow (Unsigned 1) 1; mkRow (Unsigned 2) 2].

Definition sample_updated : World :=
  match run_keyed_effect 9 0 (Ok (pending_rows 9 Html None false [sample_view 3; sample_view 2])) sample_mounted with
  | Ran (_, w) => w
  | Stuck _ => sample_mounted
  end.

Lemma keyed_update_settles_witness :
  run_keyed_effect 9 0 (Ok (pending_rows 9 Html None false [sample_view 3; sample_view 2])) sample_mounted = Ran (Ok None, sample_updated)
  /\ exists next plan w1 w2,
    at_state 0 sample_effect (mkSlot Ready (KeyedContent next)) w1
    /\ map row_key next = [Unsigned 3; Unsigned 2]
    /\ (forall row old, row ∈ next -> old ∈ sample_rows -> row_key row = row_key old -> row = old)
    /\ after_dom_commit plan w1 = Ran (Ok tt, w2) /\ slots sample_updated = slots w2.
Proof.
  assert (Hrun : run_keyed_effect 9 0 (Ok (pending_rows 9 Html None false [sample_view 3; sample_view 2])) sample_mounted
    = Ran (Ok None, sample_updated)) by (vm_compute; reflexivity).
  split; [exact Hrun|].
  apply (keyed_update_settles 9 0 sample_effect sample_rows Html None false [sample_view 3; sample_view 2] sample_mounted (Ok None) sample_updated).
  - vm_compute. constructor.
  - vm_compute. reflexivity.
  - apply (bool_decide_unpack _). vm_compute. exact I.
  - apply (bool_decide_unpack _). vm_compute. exact I.
  - exact Hrun.
Defined.
