(* ===== verification/MountDynamic.v ===== *)
(** * MountDynamic: what a run of a dynamic effect leaves behind ([pliego-dom])

    The outcome of [run_dynamic_effect], with the lemmas of [MountOutcome]: the staged
    candidate takes over, or the slot keeps the content it had, or it is poisoned. *)

From S2P Require Import Prelude Reactive DomName Dom DomHtml MountTree MountState MountSample MountScope KeyedLis MountUpdate MountView MountSafety MountOutcome.

Local Open Scope N_scope.

Section dynamic.
Context `{Foreign}.
Context (fuel : nat) (slot : SlotId) (e : SlotEffect) (stable : SlotContent).

Hint Resolve guards_all_active guards_slot_updating guards_stable_snapshots guards_check guards_check_cleanup
  guards_ensure_active guards_corrupting guards_release_all guards_plan_topology guards_topology_active guards_before_retire
  guards_commit_after guards_upgrade guards_active_chain guards_dispose guards_insert_planned guards_prepare_candidate
  guards_commit_candidate : guards.

(** The candidate of an update is what the view's stager staged. *)
Definition staged_by (fresh : Stager) (candidate : StagedMount) : Prop :=
  exists ids o w w', fresh ids o w = Ran (Ok candidate, w').

Lemma prepare_candidate_run e1 chain fresh w candidate snapshot parent st w' :
  prepare_candidate fuel slot e1 chain fresh w = Ran (Ok (candidate, (snapshot, parent, st)), w') -> staged_by fresh candidate.
Proof.
  intros Hrun. unfold prepare_candidate in Hrun. do 7 (apply bind_run_ok in Hrun as (? & ? & _ & Hrun)).
  apply bind_run_ok in Hrun as (staged & w1 & Ht & Hrun). apply try_run in Ht as (r & [= ->] & Hstage).
  apply or_drop_run in Hrun as [(a & [= <-] & Hrun)|(? & ? & ? & [=] & _)].
  do 2 (apply bind_run_ok in Hrun as (? & ? & _ & Hrun)).
  apply bind_run_ok in Hrun as (c & w2 & Hc & Hrun). apply of_result_run in Hc as [<- ->].
  do 5 (apply bind_run_ok in Hrun as (? & ? & _ & Hrun)). injection Hrun as <- _ _ _ _. by do 4 eexists.
Qed.

(** What follows the insertion of the candidate. *)
Definition take_over (e1 : SlotEffect) (chain : list ScopeId) (candidate : StagedMount) (topology : Topology)
    (snapshot : OwnedRangeSnapshot) (checkpoint : N) (plan : option DomPlan) : M unit :=
  _ ← releasing chain
    (retired ← take_content slot (DynamicContent (Some (staged_scope candidate)));
     _ ← modify (set_irreversible true);
     _ ← for_each (dispose fuel) (slot_scopes retired);
     commit_candidate slot e1 topology snapshot checkpoint);
  _ ← slot_finish slot;
  after_dom_commit plan.

Lemma take_over_run e1 chain candidate topology snapshot checkpoint plan w r w' :
  holds_content slot e stable w -> take_over e1 chain candidate topology snapshot checkpoint plan w = Ran (r, w') ->
  failed_beyond slot e r w'
  \/ r = Ok tt /\ exists w1, at_state slot e (mkSlot Ready (DynamicContent (Some (staged_scope candidate)))) w1
       /\ after_dom_commit plan w1 = Ran (Ok tt, w').
Proof.
  intros (s & Hst & Hs & _) Hrun. unfold take_over in Hrun.
  assert (Hrel : forall r1 w1, releasing chain
    (retired ← take_content slot (DynamicContent (Some (staged_scope candidate)));
     _ ← modify (set_irreversible true);
     _ ← for_each (dispose fuel) (slot_scopes retired);
     commit_candidate slot e1 topology snapshot checkpoint) w = Ran (r1, w1) ->
    irreversible w1 = true /\ exists s1, at_state slot e s1 w1 /\ status s1 <> Ready /\ content s1 = DynamicContent (Some (staged_scope candidate))).
  { intros r1 w1 (w2 & Hin & Hsl & Hru & ->)%releasing_run.
    apply bind_run in Hin as [(retired & w3 & Ht & Hin)|(? & Ht & _)];
      (eapply take_content_run in Ht as (Hr & Hst3 & _); [|exact Hst]); [|done].
    apply bind_run in Hin as [([] & w4 & Hm & Hin)|(? & Hm & _)]; [|done]. injection Hm as <-.
    match type of Hin with ?m ?w4 = _ => assert (Hg : guarded None w4 w2) by (refine ((_ : guards None m) _ _ _ Hin); guards) end.
    split; [by apply Hg|]. apply (at_state_frame _ _ _ _ (set_irreversible true w3)) in Hst3 as Hst4; [|done..].
    destruct (at_state_guarded _ _ _ _ _ Hst4 Hs Hg) as (s5 & Hst5 & Hk). exists s5. split; [by eapply at_state_frame|].
    by destruct Hk as [->|[_ [cause ->]]]. }
  apply bind_run in Hrun as [([] & w1 & Hr & Hrun)|(error & Hr & ->)]; destruct (Hrel _ _ Hr) as (Hirr & s1 & Hst1 & Hs1 & Hc1).
  - eapply finish_run in Hrun as [Hf|Hok]; [by left| |exact Hst1|done]. right. by rewrite <- Hc1.
  - left. split; [by eexists|]. by exists s1.
Qed.

Lemma dynamic_transaction_settles fresh w r w' :
  holds_content slot e stable w -> stager_guards fresh -> dynamic_transaction fuel slot fresh w = Ran (r, w') ->
  (exists candidate plan w1 w2, r = Ok tt /\ staged_by fresh candidate
     /\ at_state slot e (mkSlot Ready (DynamicContent (Some (staged_scope candidate)))) w1
     /\ after_dom_commit plan w1 = Ran (Ok tt, w2) /\ slots w' = slots w2)
  \/ (exists error, r = Err error)
     /\ exists s, at_state slot e s w' /\ status s <> Ready /\ (status s = Updating -> content s = stable \/ irreversible w' = true).
Proof.
  intros Hh Hfresh Hrun. pose proof Hh as (s & Hst & _). unfold dynamic_transaction in Hrun.
  assert (Hplace : forall w' : World, failed_in_place slot e stable r w' -> (exists error, r = Err error)
     /\ exists s, at_state slot e s w' /\ status s <> Ready /\ (status s = Updating -> content s = stable \/ irreversible w' = true)).
  { intros w0 [(s0 & Hst0 & Hs0 & Hc0) He]. split; [done|]. exists s0. split_and!; [done|done|]. intros _. by left. }
  apply bind_run in Hrun as [(e1 & w1 & Hof & Hrun)|(? & Hof & _)]; pose proof (slot_of_run _ _ _ _ _ _ Hst Hof) as [He Hw]; [|done].
  injection He as He. subst e1 w1.
  eapply bind_cases in Hrun as [Hf|(c & w1 & _ & Hh1 & Hrun)]; [by right; apply Hplace| |guards|done].
  apply releasing_run in Hrun as (w2 & Hrun & Hs & Hr & Hi). pose proof (guarded_frame w2 w' Hr Hs Hi) as Hlast.
  assert (Hfail : failed_in_place slot e stable r w2 -> failed_in_place slot e stable r w') by (intros [Hw2 ?]; split; [by eapply holds_guarded|done]).
  eapply bind_cases in Hrun as [Hf|(chain & w3 & _ & Hh3 & Hrun)]; [by right; apply Hplace, Hfail| |guards|done].
  eapply bind_cases in Hrun as [Hf|(prepared & w4 & Ht & Hh4 & Hrun)]; [by right; apply Hplace, Hfail| |by apply guards_try, guards_prepare_candidate|done].
  apply try_run in Ht as (r4 & [= ->] & Hprep). destruct r4 as [[candidate [[snapshot parent] st]]|error].
  2: { eapply bind_cases in Hrun as [Hf|(u & w5 & _ & Hh5 & Hrun)]; [by right; apply Hplace, Hfail| |guards|done].
       injection Hrun as <- <-. right. apply Hplace, Hfail. split; [done|by eexists]. }
  apply prepare_candidate_run in Hprep.
  eapply bind_cases in Hrun as [Hf|(inserted & w5 & _ & Hh5 & Hrun)]; [by right; apply Hplace, Hfail| |guards|done].
  destruct inserted as [[topology [plan checkpoint]]|error].
  2: { eapply bind_cases in Hrun as [Hf|(u & w6 & _ & Hh6 & Hrun)]; [by right; apply Hplace, Hfail| |guards|done].
       eapply bind_cases in Hrun as [Hf|(u' & w7 & _ & Hh7 & Hrun)]; [by right; apply Hplace, Hfail| |guards|done].
       injection Hrun as <- <-. right. apply Hplace, Hfail. split; [done|by eexists]. }
  apply (take_over_run _ _ _ _ _ _ _ _ _ _ Hh5) in Hrun as [[He (s6 & Hst6 & Hs6 & Hi6)]|[-> (w6 & Hst6 & Hafter)]].
  - right. split; [done|]. exists s6. split_and!; [by eapply at_state_frame|done|]. intros Hu. right. rewrite Hi. by apply Hi6.
  - left. by exists candidate, plan, w6, w2.
Qed.
End dynamic.

(** ** The outcome *)

(** A run of the effect of a dynamic slot that answers, instead of panicking or using up
    the fuel, has settled the slot, whatever the code of the view, of observers and of
    custom elements does at each call and mutation. A run without an error made what the
    view's answer was staged as the content of the slot; then the observer was told, and
    nothing else happened to the slots. A run with an error leaves the
    slot ready with the content it had, or poisons it for good. That a run answers is not
    shown, as for keyed slots. *)
Theorem dynamic_update_settles `{Foreign, UnicodeTables} fuel slot e stable ns context prefix view w r w' :
  effect_scope e ∈ running w ->
  slots w !! slot = Some (put_slot_state (mkSlot Ready (DynamicContent stable)) e) ->
  run_dynamic_effect fuel slot (stage_view fuel ns context prefix (mount_before fuel view)) w = Ran (r, w') ->
  match r with
  | Ok None =>
      exists candidate plan w1 w2,
        staged_by (stage_view fuel ns context prefix (mount_before fuel view)) candidate
        /\ at_state slot e (mkSlot Ready (DynamicContent (Some (staged_scope candidate)))) w1
        /\ after_dom_commit plan w1 = Ran (Ok tt, w2) /\ slots w' = slots w2
  | Ok (Some _) => settled_at slot e (DynamicContent stable) w'
  | Err _ => False
  end.
Proof.
  intros Hr Hslot Hrun. apply (begin_run _ e (DynamicContent stable)) in Hrun as (w1 & Hst1 & Hrun); [|done].
  apply with_flags_run in Hrun as (w2 & Hrun & ->). set (w3 := set_irreversible false _) in Hrun.
  assert (Hst3 : at_state slot e (mkSlot Updating (DynamicContent stable)) w3) by (eapply at_state_frame; [exact Hst1|done..]).
  apply bind_run in Hrun as [(update & w4 & Ht & Hrun)|(? & Ht & _)]; [|by apply try_run in Ht as (? & [=] & _)].
  apply try_run in Ht as (r4 & [= ->] & Htrans).
  apply dynamic_transaction_settles with (stable := DynamicContent stable) (e := e) in Htrans
    as [(candidate & plan & w5 & w6 & -> & Hstaged & Hst5 & Hafter & Hslots)|[[error ->] (s & Hst4 & Hs & Hc)]];
    [| |by eexists|apply view_stager_guards].
  - injection Hrun as <- <-. by exists candidate, plan, w5, w6.
  - by apply (dynamic_failure_settles _ _ _ _ (DynamicContent stable) _ _ _ _ _ _ Hst4 Hs Hc) in Hrun as [[error' ->] Hsettled].
Qed.

(** ** A run *)

#[local] Existing Instance RenderSample.ascii_only.

(** A dynamic text is mounted, then its view answers another text. *)
Definition sample_dynamic : World :=
  match mount 9 (DynView (Dom.Text (str "before"))) 1 (sample_world (mkFlat 4 []) true) with
  | Ran (_, w) => set_running [0] w
  | Stuck _ => sample_world (mkFlat 4 []) true
  end.

Abbreviation sample_after := (stage_view 9 Html None false (mount_before 9 (Dom.Text (str "after")))).

Definition sample_replaced : World :=
  match run_dynamic_effect 9 0 sample_after sample_dynamic with
  | Ran (_, w) => w
  | Stuck _ => sample_dynamic
  end.

Lemma dynamic_update_settles_witness :
  run_dynamic_effect 9 0 sample_after sample_dynamic = Ran (Ok None, sample_replaced)
  /\ exists candidate plan w1 w2,
    staged_by sample_after candidate
    /\ at_state 0 sample_effect (mkSlot Ready (DynamicContent (Some (staged_scope candidate)))) w1
    /\ after_dom_commit plan w1 = Ran (Ok tt, w2) /\ slots sample_replaced = slots w2.
Proof.
  assert (Hrun : run_dynamic_effect 9 0 sample_after sample_dynamic = Ran (Ok None, sample_replaced)) by (vm_compute; reflexivity).
  split; [exact Hrun|].
  apply (dynamic_update_settles 9 0 sample_effect (Some 1) Html None false (Dom.Text (str "after")) sample_dynamic (Ok None) sample_replaced).
  - vm_compute. constructor.
  - vm_compute. reflexivity.
  - exact Hrun.
Defined.
