(* ===== verification/Limits.v ===== *)
(** * Limits: what a request may ask for ([pliego-runtime/src/limits.rs])

    The limit policy of the runtime, its validation, and the admission of a request
    head and of its body format, each refusal with its error.

    The [http] crate's [HeaderMap] is the list of its names, in lower case, with their
    values in order; [HeaderValue::to_str] is a parameter. *)

From S2P Require Import Prelude Decimal Request Pattern.

Local Open Scope string_scope.
Local Open Scope N_scope.

(** ** The policy *)

Record RequestLimits : Type := mkLimits {
  max_request_target_bytes : N;
  max_header_count : N;
  max_header_bytes : N;
  max_body_bytes : N;
  max_response_bytes : N;
  max_diagnostics : N;
  max_cleanups : N;
  max_data_receipts : N;
  max_data_cleanups : N;
  allow_gzip_request_bodies : bool;
  allow_multipart_request_bodies : bool;
  max_concurrent_requests : N;
  deadline_ms : N;
  graceful_shutdown_ms : N }.

Definition default_limits : RequestLimits :=
  mkLimits (8 * 1024) 100 (64 * 1024) (8 * 1024 * 1024) (16 * 1024 * 1024) 64 64 128 64 false false 1024 30000 30000.

Inductive LimitError : Type :=
| InvalidPolicy (name : string) (value maximum : N)
| RequestTarget (actual maximum : N)
| HeaderCount (actual maximum : N)
| HeaderBytes (actual maximum : N)
| InvalidContentLength
| BodyBytes (actual maximum : N)
| UnsupportedContentEncoding
| UnsupportedMultipart
| AmbiguousBodyLength.

#[export] Instance limit_error_eq_dec : EqDecision LimitError.
Proof. solve_decision. Defined.

Definition limit_error_code (e : LimitError) : string :=
  match e with
  | InvalidPolicy _ _ _ => "PLG-RUN-001"
  | RequestTarget _ _ => "PLG-RUN-101"
  | HeaderCount _ _ | HeaderBytes _ _ => "PLG-RUN-102"
  | InvalidContentLength => "PLG-RUN-103"
  | BodyBytes _ _ => "PLG-RUN-104"
  | UnsupportedContentEncoding => "PLG-RUN-108"
  | UnsupportedMultipart => "PLG-RUN-109"
  | AmbiguousBodyLength => "PLG-RUN-110"
  end.

(** The table [validate] loops over, and the two durations after it. *)
Definition policy_table (l : RequestLimits) : list (string * N * N) :=
  [("max_request_target_bytes", max_request_target_bytes l, 64 * 1024); ("max_header_count", max_header_count l, 1024);
   ("max_header_bytes", max_header_bytes l, 1024 * 1024); ("max_body_bytes", max_body_bytes l, 1024 * 1024 * 1024);
   ("max_response_bytes", max_response_bytes l, 1024 * 1024 * 1024); ("max_diagnostics", max_diagnostics l, 1024);
   ("max_cleanups", max_cleanups l, 4096); ("max_data_receipts", max_data_receipts l, 4096);
   ("max_data_cleanups", max_data_cleanups l, 1024); ("max_concurrent_requests", max_concurrent_requests l, 65536)].

Fixpoint check_policy (rows : list (string * N * N)) : result LimitError unit :=
  match rows with
  | [] => Ok tt
  | (name, value, maximum) :: rows =>
      fail_if (value =? 0) || (maximum <? value) with InvalidPolicy name value maximum;; check_policy rows
  end.

Definition validate (l : RequestLimits) : result LimitError unit :=
  _ ← check_policy (policy_table l);
  _ ← check_policy [("deadline_ms", deadline_ms l, 24 * 60 * 60 * 1000)];
  check_policy [("graceful_shutdown_ms", graceful_shutdown_ms l, 60 * 60 * 1000)].

Definition deadline (l : RequestLimits) : Duration := from_millis (deadline_ms l).
Definition graceful_shutdown_deadline (l : RequestLimits) : Duration := from_millis (graceful_shutdown_ms l).

Definition digest `{Sha256, Serde RequestLimits} (l : RequestLimits) : option string := (fun bs => hex (sha256 bs)) <$> to_vec l.

(** ** Request heads *)

Record Parts : Type := mkParts { uri : string; headers : list (string * bytes) }.

(** [HeaderValue::to_str], when the value is visible ASCII. *)
Class HeaderText : Type := to_str : bytes -> option string.

Section admission.
Context `{HeaderText}.

Definition get_all (name : string) (p : Parts) : list bytes :=
  map snd (List.filter (fun h => String.eqb h.1 name) (headers p)).
Definition contains_key (name : string) (p : Parts) : bool := existsb (fun h => String.eqb h.1 name) (headers p).
Definition get (name : string) (p : Parts) : option bytes := head (get_all name p).

(** [str::parse::<u64>] takes one leading plus sign. *)
Definition parse_length (s : string) : option N :=
  match String.list_ascii_of_string s with
  | "+"%char :: ds => parse_u64 ds
  | ds => parse_u64 ds
  end.

Definition header_bytes (p : Parts) : N := foldr (fun h n => slen h.1 + blen h.2 + n) 0 (headers p).

Definition admit_head (l : RequestLimits) (p : Parts) : result LimitError unit :=
  fail_if contains_key "content-length" p && contains_key "transfer-encoding" p with AmbiguousBodyLength;;
  fail_if max_request_target_bytes l <? slen (uri p) with RequestTarget (slen (uri p)) (max_request_target_bytes l);;
  fail_if max_header_count l <? blen (headers p) with HeaderCount (blen (headers p)) (max_header_count l);;
  fail_if max_header_bytes l <? header_bytes p with HeaderBytes (header_bytes p) (max_header_bytes l);;
  match get "content-length" p with
  | None => Ok tt
  | Some value =>
      text ← ok_or InvalidContentLength (to_str value);
      length ← ok_or InvalidContentLength (parse_length text);
      fail_if max_body_bytes l <? length with BodyBytes length (max_body_bytes l);;
      Ok tt
  end.

(** [str::trim] of visible ASCII: the white space in it is the space and the tab. *)
Definition is_blank (c : ascii) : bool := char_in [" "; "009"]%char c.

Fixpoint trim_start (cs : list ascii) : list ascii :=
  match cs with c :: cs' => if is_blank c then trim_start cs' else cs | [] => [] end.

Definition trim (s : string) : string :=
  String.string_of_list_ascii (rev (trim_start (rev (trim_start (String.list_ascii_of_string s))))).

Definition eq_ignore_case (a b : string) : bool := String.eqb (to_ascii_lowercase a) (to_ascii_lowercase b).

(** The codings a list of header values names. *)
Fixpoint content_encodings (values : list bytes) : result LimitError (list string) :=
  match values with
  | [] => Ok []
  | value :: values =>
      text ← ok_or UnsupportedContentEncoding (to_str value);
      let encodings := map trim (split_on "," text) in
      fail_if existsb (String.eqb "") encodings with UnsupportedContentEncoding;;
      rest ← content_encodings values;
      Ok (encodings ++ rest)%list
  end.

(** [media_type.get(..10)], compared with [multipart/]. *)
Definition is_multipart (text : string) : bool :=
  let media_type := trim (default "" (head (split_on ";" text))) in
  (10 <=? slen media_type) && eq_ignore_case (String.substring 0 10 media_type) "multipart/".

Definition admit_body_format (l : RequestLimits) (p : Parts) : result LimitError unit :=
  _ ← (if contains_key "content-encoding" p
       then encodings ← content_encodings (get_all "content-encoding" p);
            match encodings with
            | [encoding] =>
                fail_if negb (eq_ignore_case encoding "identity" || (allow_gzip_request_bodies l && eq_ignore_case encoding "gzip"))
                  with UnsupportedContentEncoding;;
                Ok tt
            | _ => Err UnsupportedContentEncoding
            end
       else Ok tt);
  match get "content-type" p with
  | Some value =>
      match to_str value with
      | Some text => fail_if is_multipart text && negb (allow_multipart_request_bodies l) with UnsupportedMultipart;; Ok tt
      | None => Ok tt
      end
  | None => Ok tt
  end.

End admission.

(** ** Lemmas *)

Lemma check_policy_ok rows : check_policy rows = Ok tt <-> Forall (fun r => 0 < r.1.2 <= r.2) rows.
Proof.
  induction rows as [|[[name value] maximum] rows IH]; [split; [constructor|done]|]. cbn [check_policy].
  rewrite Forall_cons, <- IH. cbn [fst snd].
  destruct (N.eqb_spec value 0); [split; [done|lia]|]. destruct (N.ltb_spec maximum value); [split; [done|lia]|]. cbn [orb].
  split; [intros ?; split; [lia|done]|by intros [_ ?]].
Qed.

(** A validated policy bounds everything, and by less than a machine word. *)
Lemma validate_ok l : validate l = Ok tt ->
  Forall (fun r => 0 < r.1.2 <= r.2) (policy_table l) /\ 0 < deadline_ms l <= 86400000 /\ 0 < graceful_shutdown_ms l <= 3600000.
Proof.
  unfold validate. intros Hv. split_ok. repeat match goal with H : check_policy _ = Ok tt |- _ => apply check_policy_ok in H end.
  split; [done|]. by rewrite !Forall_singleton in *.
Qed.
