(* ===== verification/Scope.v ===== *)
(** * Scope: the life of one request ([pliego-runtime/src/scope.rs])

    A [RequestScope] is shared by the task that serves the request, its deadline task,
    the body it streams and the shutdown of the host. Its fields are behind locks of
    their own and most operations take several, one after the other, so other threads
    run in between. An operation is therefore a program of atomic actions ([Op]), one
    per critical section, and a configuration is a scope with any number of running
    operations, which any schedule interleaves.

    [lock] ignores poisoning, so a panic of user code elsewhere does not matter here.
    Telemetry and logging are output only and left out. *)

From S2P Require Import Prelude Decimal Request Router Limits.

Local Open Scope string_scope.
Local Open Scope N_scope.

(** ** Data *)

Inductive RequestState : Type :=
| Accepted | HeadAdmitted | RouteResolved | ScopeOpen | HandlerRunning | ResponseCommitted | BodyStreaming
| Rejected | Cancelled | Failed | ScopeDraining | Closed.

#[export] Instance request_state_eq_dec : EqDecision RequestState.
Proof. solve_decision. Defined.

Inductive CancelReason : Type :=
| ClientDisconnect | Deadline | Shutdown | ApplicationAbort | RequestBodyLimit | ResponseBodyLimit.

#[export] Instance cancel_reason_eq_dec : EqDecision CancelReason.
Proof. solve_decision. Defined.

Inductive RequestOutcome : Type := Pending | Success | WasRejected | WasCancelled | HasFailed.

#[export] Instance request_outcome_eq_dec : EqDecision RequestOutcome.
Proof. solve_decision. Defined.

Inductive RequestDurationBucket : Type :=
| Under10Milliseconds | Under50Milliseconds | Under250Milliseconds | Under1Second | Under5Seconds | AtLeast5Seconds.

Inductive RenderMode : Type := Complete | Ordered | Boundary | Layout.

Inductive ScopeError : Type :=
| InvalidIdentity (field value : string)
| InvalidDiagnosticCode (code : string)
| InvalidDiagnosticMessage
| InvalidTransition (from to : RequestState)
| ScopeClosed
| CleanupLimit (maximum : N)
| ResponseBodyLimitReached (actual maximum : N).

Definition scope_error_code (e : ScopeError) : string :=
  match e with
  | InvalidIdentity _ _ => "PLG-RUN-002"
  | InvalidDiagnosticCode _ | InvalidDiagnosticMessage => "PLG-RUN-003"
  | InvalidTransition _ _ => "PLG-RUN-301"
  | ScopeClosed => "PLG-RUN-304"
  | CleanupLimit _ => "PLG-RUN-305"
  | ResponseBodyLimitReached _ _ => "PLG-RUN-105"
  end.

Record RuntimeDiagnostic : Type := mkDiagnostic { code : string; message : string }.

Definition diagnostic_new (code message : string) : result ScopeError RuntimeDiagnostic :=
  fail_if (slen code =? 0) || (32 <? slen code)
    || negb (string_all (fun c => is_ascii_uppercase c || is_ascii_digit c || Ascii.eqb c "-"%char) code)
    with InvalidDiagnosticCode code;;
  fail_if (slen message =? 0) || (512 <? slen message)
    || negb (string_all (fun c => negb (char_in ["013"; "010"; "000"]%char c)) message)
    with InvalidDiagnosticMessage;;
  Ok (mkDiagnostic code message).

Record RequestIdentity : Type := mkIdentity { request_id : string; deployment_id : string }.

Definition validate_identity (field value : string) : result ScopeError unit :=
  fail_if (slen value =? 0) || (128 <? slen value)
    || negb (string_all (fun c => is_ascii_alphanumeric c || char_in ["-"; "_"; "."; ":"]%char c) value)
    with InvalidIdentity field value;;
  Ok tt.

Definition identity_new (request_id deployment_id : string) : result ScopeError RequestIdentity :=
  _ ← validate_identity "request_id" request_id;
  _ ← validate_identity "deployment_id" deployment_id;
  Ok (mkIdentity request_id deployment_id).

Definition transition_allowed (from to : RequestState) : bool :=
  match from, to with
  | Accepted, (HeadAdmitted | Rejected | Cancelled | Failed)
  | HeadAdmitted, (RouteResolved | ResponseCommitted | Rejected | Cancelled | Failed)
  | RouteResolved, (ScopeOpen | Rejected | Cancelled | Failed)
  | ScopeOpen, (HandlerRunning | Rejected | Cancelled | Failed)
  | HandlerRunning, (ResponseCommitted | Cancelled | Failed)
  | ResponseCommitted, (BodyStreaming | ScopeDraining | Cancelled | Failed)
  | BodyStreaming, (ScopeDraining | Cancelled | Failed)
  | (Rejected | Cancelled | Failed), (ResponseCommitted | ScopeDraining)
  | ScopeDraining, Closed => true
  | _, _ => false
  end.

Definition duration_bucket (d : Duration) : RequestDurationBucket :=
  if d <? from_millis 10 then Under10Milliseconds
  else if d <? from_millis 50 then Under50Milliseconds
  else if d <? from_millis 250 then Under250Milliseconds
  else if d <? from_secs 1 then Under1Second
  else if d <? from_secs 5 then Under5Seconds
  else AtLeast5Seconds.

(** [bounded]: the longest prefix that ends on a character; a byte from [0x80] to
    [0xBF] does not start one. *)
Definition is_char_boundary (s : string) (i : nat) : bool :=
  match String.get i s with
  | Some c => negb ((128 <=? Ascii.N_of_ascii c) && (Ascii.N_of_ascii c <? 192))
  | None => true
  end.

Fixpoint boundary_before (s : string) (i : nat) : nat :=
  if is_char_boundary s i then i else match i with O => O | S i => boundary_before s i end.

Definition bounded (s : string) (maximum : nat) : string :=
  if (String.length s <=? maximum)%nat then s else String.substring 0 (boundary_before s maximum) s.

(** A user's cleanup answers with an error, or panics; an internal one may only panic. *)
Inductive CleanupResult : Type := Finished | Refused (message : string) | Panicked.

Definition Cleanup : Type := option CancelReason -> CleanupResult.
Definition InternalCleanup : Type := unit -> CleanupResult.

(** A locked list of cleanups. [registered] and [ran] are its history: what was ever
    put in it, and what was called. *)
Record Bag (A : Type) : Type := mkBag { locked : bool; items : list A; registered : list A; ran : list A }.

Arguments mkBag {A}.
Arguments locked {A}.
Arguments items {A}.
Arguments registered {A}.
Arguments ran {A}.

Definition empty_bag {A} : Bag A := mkBag false [] [] [].

Section scope.
(** [pliego-data]'s context, and the three lists of receipts it answers. *)
Context {Data Receipts : Type} (receipts_of : Data -> Receipts).

(** What the receipt reports, each field behind its own lock. *)
Record Facts : Type := mkFacts {
  route : option string;
  route_scopes : list string;
  route_layouts : list string;
  data_context : option Data;
  response_status : option N;
  render_mode : option RenderMode;
  middleware : list string;
  error_boundary : option string }.

Definition set_route (x : option string) (f : Facts) : Facts :=
  mkFacts x (route_scopes f) (route_layouts f) (data_context f) (response_status f) (render_mode f) (middleware f)
    (error_boundary f).
Definition set_route_scopes (x : list string) (f : Facts) : Facts :=
  mkFacts (route f) x (route_layouts f) (data_context f) (response_status f) (render_mode f) (middleware f) (error_boundary f).
Definition set_route_layouts (x : list string) (f : Facts) : Facts :=
  mkFacts (route f) (route_scopes f) x (data_context f) (response_status f) (render_mode f) (middleware f) (error_boundary f).
Definition set_data_context (x : option Data) (f : Facts) : Facts :=
  mkFacts (route f) (route_scopes f) (route_layouts f) x (response_status f) (render_mode f) (middleware f) (error_boundary f).
Definition set_response_status (x : option N) (f : Facts) : Facts :=
  mkFacts (route f) (route_scopes f) (route_layouts f) (data_context f) x (render_mode f) (middleware f) (error_boundary f).
Definition set_render_mode (x : option RenderMode) (f : Facts) : Facts :=
  mkFacts (route f) (route_scopes f) (route_layouts f) (data_context f) (response_status f) x (middleware f) (error_boundary f).
Definition set_middleware (x : list string) (f : Facts) : Facts :=
  mkFacts (route f) (route_scopes f) (route_layouts f) (data_context f) (response_status f) (render_mode f) x
    (error_boundary f).
Definition set_error_boundary (x : option string) (f : Facts) : Facts :=
  mkFacts (route f) (route_scopes f) (route_layouts f) (data_context f) (response_status f) (render_mode f) (middleware f) x.

Definition no_facts : Facts := mkFacts None [] [] None None None [] None.

Record RuntimeReceipt : Type := mkReceipt {
  contract : string; receipt_contract_sha256 : string; receipt_identity : RequestIdentity; receipt_route : option string;
  receipt_scopes : list string; receipt_layouts : list string; receipt_limits_sha256 : string; receipt_outcome : RequestOutcome;
  final_state : RequestState; receipt_reason : option CancelReason; receipt_status : option N; receipt_bytes : N;
  receipt_duration : RequestDurationBucket; receipt_mode : option RenderMode; receipt_middleware : list string;
  receipt_boundary : option string; receipt_diagnostics : list RuntimeDiagnostic; receipt_data : option Receipts }.

(** The fields of [ScopeInner] that never change. *)
Record Fixed : Type := mkFixed {
  identity : RequestIdentity; application_contract_sha256 : string; limit_policy_sha256 : string; limits : RequestLimits;
  started : Duration; deadline_at : Duration }.

(** [ScopeInner]. [sink] holds the receipts the sink was given, [clock_now] is the
    monotonic clock, and [sent] and [admitted] are history: all bytes passed to
    [add_response_bytes], and those of its calls that succeed. *)
Record Scope : Type := mkScope {
  fixed : Fixed;
  facts : Facts;
  state : RequestState;
  outcome : RequestOutcome;
  cancel_reason : option CancelReason;
  cancellation : bool;
  completion : bool;
  cleanups : Bag Cleanup;
  internal_cleanups : Bag InternalCleanup;
  diagnostics : list RuntimeDiagnostic;
  response_bytes : N;
  sent : N;
  admitted : N;
  receipt_recorded : bool;
  sink : list RuntimeReceipt;
  clock_now : Duration }.

Definition set_facts (x : Facts) (s : Scope) : Scope :=
  mkScope (fixed s) x (state s) (outcome s) (cancel_reason s) (cancellation s) (completion s) (cleanups s)
    (internal_cleanups s) (diagnostics s) (response_bytes s) (sent s) (admitted s) (receipt_recorded s) (sink s) (clock_now
    s).
Definition set_state (x : RequestState) (s : Scope) : Scope :=
  mkScope (fixed s) (facts s) x (outcome s) (cancel_reason s) (cancellation s) (completion s) (cleanups s)
    (internal_cleanups s) (diagnostics s) (response_bytes s) (sent s) (admitted s) (receipt_recorded s) (sink s) (clock_now
    s).
Definition set_outcome (x : RequestOutcome) (s : Scope) : Scope :=
  mkScope (fixed s) (facts s) (state s) x (cancel_reason s) (cancellation s) (completion s) (cleanups s) (internal_cleanups
    s) (diagnostics s) (response_bytes s) (sent s) (admitted s) (receipt_recorded s) (sink s) (clock_now s).
Definition set_cancel_reason (x : option CancelReason) (s : Scope) : Scope :=
  mkScope (fixed s) (facts s) (state s) (outcome s) x (cancellation s) (completion s) (cleanups s) (internal_cleanups s)
    (diagnostics s) (response_bytes s) (sent s) (admitted s) (receipt_recorded s) (sink s) (clock_now s).
Definition set_cancellation (x : bool) (s : Scope) : Scope :=
  mkScope (fixed s) (facts s) (state s) (outcome s) (cancel_reason s) x (completion s) (cleanups s) (internal_cleanups s)
    (diagnostics s) (response_bytes s) (sent s) (admitted s) (receipt_recorded s) (sink s) (clock_now s).
Definition set_completion (x : bool) (s : Scope) : Scope :=
  mkScope (fixed s) (facts s) (state s) (outcome s) (cancel_reason s) (cancellation s) x (cleanups s) (internal_cleanups s)
    (diagnostics s) (response_bytes s) (sent s) (admitted s) (receipt_recorded s) (sink s) (clock_now s).
Definition set_cleanups (x : Bag Cleanup) (s : Scope) : Scope :=
  mkScope (fixed s) (facts s) (state s) (outcome s) (cancel_reason s) (cancellation s) (completion s) x (internal_cleanups
    s) (diagnostics s) (response_bytes s) (sent s) (admitted s) (receipt_recorded s) (sink s) (clock_now s).
Definition set_internal_cleanups (x : Bag InternalCleanup) (s : Scope) : Scope :=
  mkScope (fixed s) (facts s) (state s) (outcome s) (cancel_reason s) (cancellation s) (completion s) (cleanups s) x
    (diagnostics s) (response_bytes s) (sent s) (admitted s) (receipt_recorded s) (sink s) (clock_now s).
Definition set_diagnostics (x : list RuntimeDiagnostic) (s : Scope) : Scope :=
  mkScope (fixed s) (facts s) (state s) (outcome s) (cancel_reason s) (cancellation s) (completion s) (cleanups s)
    (internal_cleanups s) x (response_bytes s) (sent s) (admitted s) (receipt_recorded s) (sink s) (clock_now s).
Definition set_receipt_recorded (x : bool) (s : Scope) : Scope :=
  mkScope (fixed s) (facts s) (state s) (outcome s) (cancel_reason s) (cancellation s) (completion s) (cleanups s)
    (internal_cleanups s) (diagnostics s) (response_bytes s) (sent s) (admitted s) x (sink s) (clock_now s).
Definition set_sink (x : list RuntimeReceipt) (s : Scope) : Scope :=
  mkScope (fixed s) (facts s) (state s) (outcome s) (cancel_reason s) (cancellation s) (completion s) (cleanups s)
    (internal_cleanups s) (diagnostics s) (response_bytes s) (sent s) (admitted s) (receipt_recorded s) x (clock_now s).
Definition set_clock_now (x : Duration) (s : Scope) : Scope :=
  mkScope (fixed s) (facts s) (state s) (outcome s) (cancel_reason s) (cancellation s) (completion s) (cleanups s)
    (internal_cleanups s) (diagnostics s) (response_bytes s) (sent s) (admitted s) (receipt_recorded s) (sink s) x.

Definition set_bytes (bytes all ok : N) (s : Scope) : Scope :=
  mkScope (fixed s) (facts s) (state s) (outcome s) (cancel_reason s) (cancellation s) (completion s) (cleanups s)
    (internal_cleanups s) (diagnostics s) bytes all ok (receipt_recorded s) (sink s) (clock_now s).

(** ** Operations as programs of atomic actions *)

Inductive Op (A : Type) : Type :=
| Ret (a : A)
| Atom (run : Scope -> option (Scope * Op A)).

Arguments Ret {A}.
Arguments Atom {A}.

(** An action that is [None] waits: a lock it needs is taken. *)
#[local] Instance op_ret : MRet Op := @Ret.
#[local] Instance op_bind : MBind Op :=
  fun A B (k : A -> Op B) =>
    fix bind (m : Op A) : Op B :=
      match m with
      | Ret a => k a
      | Atom run => Atom (fun s => match run s with Some (s', m') => Some (s', bind m') | None => None end)
      end.

Definition atomic {A} (f : Scope -> Scope * A) : Op A := Atom (fun s => Some ((f s).1, Ret (f s).2)).
Definition read {A} (f : Scope -> A) : Op A := atomic (fun s => (s, f s)).
Definition write (f : Scope -> Scope) : Op unit := atomic (fun s => (f s, tt)).
Definition write_fact (f : Facts -> Facts) : Op unit := write (fun s => set_facts (f (facts s)) s).

(** The two locked lists. *)
Record BagOf (A : Type) : Type := mkBagOf { get_bag : Scope -> Bag A; set_bag : Bag A -> Scope -> Scope }.

Arguments get_bag {A}.
Arguments set_bag {A}.

Definition user_cleanups : BagOf Cleanup := {| get_bag := cleanups; set_bag := set_cleanups |}.
Definition own_cleanups : BagOf InternalCleanup := {| get_bag := internal_cleanups; set_bag := set_internal_cleanups |}.

Section bags.
Context {A : Type} (b : BagOf A).

Definition lock_bag : Op unit :=
  Atom (fun s =>
    let c := get_bag b s in
    if locked c then None else Some (set_bag b (mkBag true (items c) (registered c) (ran c)) s, Ret tt)).

Definition unlock_bag : Op unit :=
  write (fun s => let c := get_bag b s in set_bag b (mkBag false (items c) (registered c) (ran c)) s).

(** [len] and [push] through the guard, which nothing can come between. *)
Definition try_push (maximum : option N) (x : A) : Op bool :=
  atomic (fun s =>
    let c := get_bag b s in
    if match maximum with Some m => m <=? blen (items c) | None => false end then (s, false)
    else (set_bag b (mkBag (locked c) (items c ++ [x])%list (registered c ++ [x])%list (ran c)) s, true)).

(** [std::mem::take] under the lock, released at once. *)
Definition take_bag : Op (list A) :=
  Atom (fun s =>
    let c := get_bag b s in
    if locked c then None else Some (set_bag b (mkBag false [] (registered c) (ran c)) s, Ret (items c))).

Definition ran_one (x : A) : Op unit :=
  write (fun s => let c := get_bag b s in set_bag b (mkBag (locked c) (items c) (registered c) (ran c ++ [x])%list) s).

Definition draining (st : RequestState) : bool := bool_decide (st = ScopeDraining) || bool_decide (st = Closed).

Definition register (maximum : option N) (x : A) : Op (result ScopeError unit) :=
  _ ← lock_bag;
  st ← read state;
  if draining st then _ ← unlock_bag; Ret (Err ScopeClosed)
  else
    pushed ← try_push maximum x;
    _ ← unlock_bag;
    Ret (if pushed : bool then Ok tt else Err (CleanupLimit (default 0 maximum))).

End bags.

Definition register_cleanup (maximum : N) (c : Cleanup) : Op (result ScopeError unit) := register user_cleanups (Some maximum) c.
Definition register_internal_cleanup (c : InternalCleanup) : Op (result ScopeError unit) := register own_cleanups None c.

Definition transition (next : RequestState) : Op (result ScopeError unit) :=
  atomic (fun s =>
    if transition_allowed (state s) next then (set_state next s, Ok tt)
    else (s, Err (InvalidTransition (state s) next))).

Definition push_diagnostic (d : RuntimeDiagnostic) : Op unit :=
  write (fun s =>
    if blen (diagnostics s) <? max_diagnostics (limits (fixed s)) then set_diagnostics (diagnostics s ++ [d])%list s else s).

Definition push_internal_diagnostic (code message : string) : Op unit :=
  match diagnostic_new code message with Ok d => push_diagnostic d | Err _ => Ret tt end.

Definition attach_data_context (d : Data) : Op unit := write_fact (set_data_context (Some d)).

Definition set_route_of (r : RouteMatch) : Op unit :=
  _ ← write_fact (set_route (Some (Router.route_id r)));
  _ ← write_fact (set_route_scopes (match_scopes r));
  write_fact (set_route_layouts (match_layouts r)).

Definition commit_response (status : N) : Op (result ScopeError unit) :=
  r ← transition ResponseCommitted;
  match r with
  | Err e => Ret (Err e)
  | Ok _ => _ ← write_fact (set_response_status (Some status)); Ret (Ok tt)
  end.

Definition record_render_mode (m : RenderMode) : Op unit := write_fact (set_render_mode (Some m)).
Definition record_middleware (id : string) : Op unit := write_fact (fun f => set_middleware (middleware f ++ [id])%list f).
Definition record_error_boundary (id : string) : Op unit := write_fact (set_error_boundary (Some id)).

(** An outcome is decided once, where it is decided under its lock. *)
Definition decide_outcome (o : RequestOutcome) : Op unit :=
  write (fun s => if bool_decide (outcome s = Pending) then set_outcome o s else s).

Definition reject (d : RuntimeDiagnostic) : Op unit :=
  _ ← push_diagnostic d;
  _ ← decide_outcome WasRejected;
  _ ← transition Rejected;
  Ret tt.

Definition fail (d : RuntimeDiagnostic) : Op unit :=
  _ ← push_diagnostic d;
  _ ← decide_outcome HasFailed;
  _ ← transition Failed;
  Ret tt.

Definition cancel (reason : CancelReason) : Op unit :=
  st ← read state;
  if draining st then Ret tt
  else
    _ ← write (fun s => match cancel_reason s with None => set_cancel_reason (Some reason) s | Some _ => s end);
    _ ← decide_outcome WasCancelled;
    _ ← write (set_cancellation true);
    st ← read state;
    if bool_decide (st = Rejected) || bool_decide (st = Failed) then Ret tt
    else _ ← transition Cancelled; Ret tt.

Definition decimal (n : N) : string := String.string_of_list_ascii (u64_to_string n).

(** [fetch_add] wraps. *)
Definition add_response_bytes (maximum bytes : N) : Op (result ScopeError unit) :=
  previous ← atomic (fun s =>
    let previous := response_bytes s in
    (set_bytes ((previous + bytes) mod 2 ^ 64) (sent s + bytes)
       (if maximum <? saturating_add previous bytes then admitted s else admitted s + bytes) s, previous));
  let total := saturating_add previous bytes in
  if maximum <? total then
    _ ← push_internal_diagnostic "PLG-RUN-105"
          ("response body reached " +:+ decimal total +:+ " bytes; maximum is " +:+ decimal maximum);
    _ ← cancel ResponseBodyLimit;
    Ret (Err (ResponseBodyLimitReached total maximum))
  else Ret (Ok tt).

(** The receipt, field after field. *)
Definition receipt : Op RuntimeReceipt :=
  data ← read (fun s => receipts_of <$> data_context (facts s));
  route ← read (fun s => route (facts s));
  scopes ← read (fun s => route_scopes (facts s));
  layouts ← read (fun s => route_layouts (facts s));
  outcome ← read outcome;
  state ← read state;
  reason ← read cancel_reason;
  status ← read (fun s => response_status (facts s));
  bytes ← read response_bytes;
  elapsed ← read (fun s => clock_now s - started (fixed s));
  mode ← read (fun s => render_mode (facts s));
  middleware ← read (fun s => middleware (facts s));
  boundary ← read (fun s => error_boundary (facts s));
  diagnostics ← read diagnostics;
  fixed ← read fixed;
  Ret (mkReceipt "dev.pliegors.runtime-receipt/v1" (application_contract_sha256 fixed) (identity fixed) route scopes layouts
         (limit_policy_sha256 fixed) outcome state reason status bytes (duration_bucket elapsed) mode middleware boundary
         diagnostics data).

(** A panic of the sink is caught: the receipt was handed over. *)
Definition record_receipt_once : Op unit :=
  recorded ← atomic (fun s => (set_receipt_recorded true s, receipt_recorded s));
  if recorded : bool then Ret tt
  else r ← receipt; write (fun s => set_sink (sink s ++ [r])%list s).

(** The loops [while let Some(cleanup) = cleanups.pop()], over the reversed list. *)
Fixpoint run_cleanups (reason : option CancelReason) (cs : list Cleanup) : Op unit :=
  match cs with
  | [] => Ret tt
  | c :: cs =>
      _ ← ran_one user_cleanups c;
      _ ← match c reason with
          | Finished => Ret tt
          | Refused m => push_internal_diagnostic "PLG-RUN-302" ("request cleanup failed: " +:+ bounded m 320)
          | Panicked => push_internal_diagnostic "PLG-RUN-303" "request cleanup panicked"
          end;
      run_cleanups reason cs
  end.

Fixpoint run_internal_cleanups (cs : list InternalCleanup) : Op unit :=
  match cs with
  | [] => Ret tt
  | c :: cs =>
      _ ← ran_one own_cleanups c;
      _ ← match c tt with
          | Panicked => push_internal_diagnostic "PLG-RUN-306" "internal request cleanup panicked"
          | _ => Ret tt
          end;
      run_internal_cleanups cs
  end.

Definition drain_and_close : Op unit :=
  st ← read state;
  if bool_decide (st = Closed) then Ret tt
  else
    _ ← transition ScopeDraining;
    reason ← read cancel_reason;
    cs ← take_bag user_cleanups;
    _ ← run_cleanups reason (rev cs);
    ics ← take_bag own_cleanups;
    _ ← run_internal_cleanups (rev ics);
    _ ← transition Closed;
    _ ← write (set_completion true);
    record_receipt_once.

Definition complete_success : Op unit :=
  o ← read outcome;
  _ ← if bool_decide (o = Pending) then write (set_outcome Success) else Ret tt;
  drain_and_close.

(** ** Configurations *)

(** The calls of the host and of user code. Only [drain_and_close] moves to the last
    two states. *)
Inductive Call : Type :=
| RegisterCleanup (c : Cleanup)
| RegisterInternalCleanup (c : InternalCleanup)
| Advance (next : RequestState)
| AttachDataContext (d : Data)
| SetRoute (r : RouteMatch)
| CommitResponse (status : N)
| SetRenderMode (m : RenderMode)
| RecordMiddleware (id : string)
| SetErrorBoundary (id : string)
| AddResponseBytes (bytes : N)
| Reject (d : RuntimeDiagnostic)
| Fail (d : RuntimeDiagnostic)
| Cancel (reason : CancelReason)
| CompleteSuccess
| DrainAndClose
| ReadReceipt.

Definition ignore {A} (m : Op A) : Op unit := _ ← m; Ret tt.

Definition perform (l : RequestLimits) (c : Call) : Op unit :=
  match c with
  | RegisterCleanup c => ignore (register_cleanup (max_cleanups l) c)
  | RegisterInternalCleanup c => ignore (register_internal_cleanup c)
  | Advance next => ignore (transition next)
  | AttachDataContext d => attach_data_context d
  | SetRoute r => set_route_of r
  | CommitResponse status => ignore (commit_response status)
  | SetRenderMode m => record_render_mode m
  | RecordMiddleware id => record_middleware id
  | SetErrorBoundary id => record_error_boundary id
  | AddResponseBytes n => ignore (add_response_bytes (max_response_bytes l) n)
  | Reject d => reject d
  | Fail d => fail d
  | Cancel reason => cancel reason
  | CompleteSuccess => complete_success
  | DrainAndClose => drain_and_close
  | ReadReceipt => ignore receipt
  end.

Definition callable (c : Call) : bool :=
  match c with Advance next => negb (draining next) | Cancel reason => negb (bool_decide (reason = Deadline)) | _ => true end.

Record Config : Type := mkConfig { shared : Scope; threads : list (Op unit) }.

Definition open_scope (id : RequestIdentity) (contract digest : string) (l : RequestLimits) (instant : Duration) : Scope :=
  mkScope (mkFixed id contract digest l instant (instant + Limits.deadline l)) no_facts Accepted Pending None false false
    empty_bag empty_bag [] 0 0 0 false [] instant.

(** One step: a running operation takes its next action, one is called, time passes,
    or the deadline task wakes up. *)
Inductive step : Config -> Config -> Prop :=
| step_run s ts i f s' m : ts !! i = Some (Atom f) -> f s = Some (s', m) -> step (mkConfig s ts) (mkConfig s' (<[i := m]> ts))
| step_call s ts c : callable c = true ->
    step (mkConfig s ts) (mkConfig s (ts ++ [perform (limits (fixed s)) c]))
| step_time s ts d : step (mkConfig s ts) (mkConfig (set_clock_now (clock_now s + d) s) ts)
| step_deadline s ts : deadline_at (fixed s) <= clock_now s -> completion s = false ->
    step (mkConfig s ts) (mkConfig s (ts ++ [cancel Deadline])).

Definition opened (cfg : Config) : Prop :=
  exists id contract digest l instant, cfg = mkConfig (open_scope id contract digest l instant) [].

Definition reachable (cfg : Config) : Prop := exists cfg0, opened cfg0 /\ rtc step cfg0 cfg.

Definition finished (cfg : Config) : Prop := Forall (fun m => m = Ret tt) (threads cfg).

End scope.

Arguments Ret {Data Receipts A}.
Arguments Atom {Data Receipts A}.
Arguments get_bag {Data Receipts A}.
Arguments set_bag {Data Receipts A}.
Arguments Op : clear implicits.
Arguments Scope : clear implicits.
Arguments Config : clear implicits.
