(* ===== verification/ScopeSafety.v ===== *)
(** * ScopeSafety: what holds of a request scope whatever runs on it

    Operations are verified one at a time against an invariant of the scope and a
    ghost state per running operation: each action keeps the invariant and may change
    its own ghost state only. Every configuration any schedule reaches then satisfies
    the invariant. It is used twice: for the facts that only move forward and the
    limits, and for the ownership of cleanups and receipts. *)

From S2P Require Import Prelude Request Limits Scope.

Local Open Scope string_scope.
Local Open Scope N_scope.

#[local] Existing Instance op_ret.
#[local] Existing Instance op_bind.

(** ** Verification of operations *)

Section method.
Context {Data Receipts : Type} (receipts_of : Data -> Receipts).

Local Abbreviation Shared := (Scope Data Receipts).
Local Abbreviation Operation := (Op Data Receipts).

Section op_induction.
Context {A : Type} (P : Operation A -> Prop).
Context (HRet : forall a, P (Ret a)).
Context (HAtom : forall f, (forall s s' m, f s = Some (s', m) -> P m) -> P (Atom f)).

Fixpoint op_rect' (m : Operation A) : P m :=
  match m with
  | Ret a => HRet a
  | Atom f => HAtom f (fun s s' m' Heq =>
      match f s as r return r = Some (s', m') -> P m' with
      | Some (s1, m1) => fun H => eq_ind m1 P (op_rect' m1) m' (f_equal (fun o => default m1 (snd <$> o)) H)
      | None => fun H => match eq_ind None (fun o => match o with None => True | Some _ => False end) I _ H with end
      end Heq)
  end.

End op_induction.

Context {Loc : Type} (Inv : Shared -> list Loc -> Prop) (Moves : Shared -> Shared -> Prop).

(** From ghost state [l], every action of [m] keeps the invariant, and [m] ends as [Q]. *)
Fixpoint verified {A} (m : Operation A) (l : Loc) (Q : A -> Loc -> Prop) : Prop :=
  match m with
  | Ret a => Q a l
  | Atom f =>
      forall s others, Inv s (l :: others) ->
      match f s with
      | None => True
      | Some (s', m') => exists l', Inv s' (l' :: others) /\ Moves s s' /\ verified m' l' Q
      end
  end.

Lemma verified_mono {A} (m : Operation A) l (Q R : A -> Loc -> Prop) :
  (forall a l, Q a l -> R a l) -> verified m l Q -> verified m l R.
Proof.
  intros HQ. revert l. induction m as [a|f IH] using op_rect'; intros l; cbn [verified]; [apply HQ|].
  intros Hm s others HI. specialize (Hm s others HI). destruct (f s) as [[s' m']|] eqn:Hf; [|done].
  destruct Hm as (l' & H1 & H2 & H3). exists l'. split_and!; [done..|]. by apply (IH s s' m').
Qed.

Lemma verified_bind {A B} (m : Operation A) (k : A -> Operation B) l Q :
  verified m l (fun a l => verified (k a) l Q) -> verified (mbind k m) l Q.
Proof.
  revert l. induction m as [a|f IH] using op_rect'; intros l; [done|].
  intros Hm s others HI. specialize (Hm s others HI). cbn. destruct (f s) as [[s' m']|] eqn:Hf; [|done].
  destruct Hm as (l' & H1 & H2 & H3). exists l'. split_and!; [done..|]. by apply (IH s s' m').
Qed.

Lemma verified_atomic {A} (f : Shared -> Shared * A) l (Q : A -> Loc -> Prop) :
  (forall s others, Inv s (l :: others) -> exists l', Inv (f s).1 (l' :: others) /\ Moves s (f s).1 /\ Q (f s).2 l') ->
  verified (atomic f) l Q.
Proof. intros H s others HI. exact (H s others HI). Qed.

Context (idle : Loc).

Definition keeps {A} (m : Operation A) : Prop := verified m idle (fun _ l => l = idle).

Lemma keeps_bind {A B} (m : Operation A) (k : A -> Operation B) : keeps m -> (forall a, keeps (k a)) -> keeps (mbind k m).
Proof.
  intros Hm Hk. apply verified_bind. eapply verified_mono; [|exact Hm]. intros a l ->. apply Hk.
Qed.

Lemma keeps_ret {A} (a : A) : keeps (Ret a).
Proof. done. Qed.

Lemma keeps_ignore {A} (m : Operation A) : keeps m -> keeps (ignore m).
Proof. intros Hm. apply keeps_bind; [done|]. intros _. apply keeps_ret. Qed.

(** ** From operations to configurations *)

Context (Hperm : forall s ls ls', ls ≡ₚ ls' -> Inv s ls -> Inv s ls').
Context (Hspawn : forall s ls, Inv s ls -> Inv s (idle :: ls)).
Context (Htime : forall s ls d, Inv s ls -> Inv (set_clock_now (clock_now s + d) s) ls /\ Moves s (set_clock_now (clock_now s + d) s)).
Context (Hself : forall s, Moves s s).
Context (Hfixed : forall s s', Moves s s' -> fixed s' = fixed s).
Context (fixed0 : Fixed).
Context (Hcalls : forall c, callable c = true -> keeps (perform receipts_of (limits fixed0) c)).
Context (Hdeadline : keeps (cancel Deadline)).

Definition good (cfg : Config Data Receipts) : Prop :=
  fixed (shared cfg) = fixed0 /\
  exists ls, Inv (shared cfg) ls /\ Forall2 (fun m l => verified m l (fun _ l => l = idle)) (threads cfg) ls.

Lemma good_spawn s ts m : keeps m -> good (mkConfig s ts) -> good (mkConfig s (ts ++ [m])).
Proof.
  intros Hm (Hfix & ls & HI & Hv). split; [done|]. exists (ls ++ [idle])%list. split.
  - apply (Hperm _ (idle :: ls)); [|by apply Hspawn]. apply Permutation_cons_append.
  - apply Forall2_app; [done|]. by constructor.
Qed.

Lemma step_good cfg cfg' : step receipts_of cfg cfg' -> good cfg -> good cfg' /\ Moves (shared cfg) (shared cfg').
Proof.
  intros Hstep Hg. destruct Hstep as [s ts i f s' m Hi Hf|s ts c Hc|s ts d|s ts Hd Hcomp]; cbn [shared].
  - destruct Hg as (Hfix & ls & HI & Hv). cbn [shared threads] in *.
    destruct (Forall2_lookup_l _ _ _ _ _ Hv Hi) as (l & Hl & Hvl).
    destruct (list_elem_of_split_length _ _ _ Hl) as (l1 & l2 & -> & ->).
    specialize (Hvl s (l1 ++ l2)%list (Hperm _ _ _ (symmetry (Permutation_middle l1 l2 l)) HI)). rewrite Hf in Hvl.
    destruct Hvl as (l' & HI' & Hm & Hv'). split; [|done]. split; [cbn [shared]; by rewrite (Hfixed s s' Hm)|].
    exists (l1 ++ l' :: l2)%list. split; [exact (Hperm _ _ _ (Permutation_middle l1 l2 l') HI')|].
    replace (l1 ++ l' :: l2)%list with (<[length l1 := l']> (l1 ++ l :: l2)%list); [by apply Forall2_insert|].
    rewrite insert_app_r_alt by lia. by rewrite Nat.sub_diag.
  - split; [|apply Hself]. apply good_spawn; [|done]. destruct Hg as [Hfix _]. cbn in Hfix. rewrite Hfix. by apply Hcalls.
  - destruct Hg as (Hfix & ls & HI & Hv). destruct (Htime s ls d HI) as [HI' Hm]. split; [|done]. split; [done|]. by exists ls.
  - split; [|apply Hself]. by apply good_spawn.
Qed.

Lemma steps_good cfg cfg' : rtc (step receipts_of) cfg cfg' -> good cfg -> good cfg'.
Proof. induction 1 as [|cfg cfg1 cfg2 Hs _ IH]; [done|]. intros Hg. by apply IH, (step_good _ _ Hs). Qed.

(** What [Moves] keeps is kept on the way from any good configuration. *)
Lemma steps_move (R : Shared -> Shared -> Prop) cfg cfg' :
  (forall s, R s s) -> (forall s1 s2 s3, R s1 s2 -> R s2 s3 -> R s1 s3) -> (forall s s', Moves s s' -> R s s') ->
  rtc (step receipts_of) cfg cfg' -> good cfg -> R (shared cfg) (shared cfg').
Proof.
  intros Hrefl Htrans HR. induction 1 as [|cfg cfg1 cfg2 Hs _ IH]; [intros _; apply Hrefl|].
  intros Hg. destruct (step_good _ _ Hs Hg) as [Hg1 Hm]. eapply Htrans; [by apply HR|by apply IH].
Qed.

Lemma finished_idle cfg : good cfg -> finished cfg -> exists ls, Inv (shared cfg) ls /\ Forall (fun l => l = idle) ls.
Proof.
  intros (_ & ls & HI & Hv) Hf. exists ls. split; [done|]. clear HI. unfold finished in Hf. revert Hf.
  induction Hv as [|m l ms ls Hml _ IH]; intros Hf; [constructor|]. apply Forall_cons in Hf as [-> Hf].
  constructor; [done|]. by apply IH.
Qed.

End method.

(** ** Limits, and facts that only move forward *)

Section forward.
Context {Data Receipts : Type} (receipts_of : Data -> Receipts).

Local Abbreviation Shared := (Scope Data Receipts).

(** One action. Only the write of [complete_success], made after its lock was released,
    changes an outcome that is decided. *)
Record moves (s s' : Shared) : Prop := {
  moves_fixed : fixed s' = fixed s;
  moves_state : state s' = state s \/ transition_allowed (state s) (state s') = true;
  moves_outcome : outcome s' = outcome s \/ outcome s = Pending \/ outcome s' = Success;
  moves_reason : cancel_reason s' = cancel_reason s \/ cancel_reason s = None;
  moves_cancellation : cancellation s = true -> cancellation s' = true;
  moves_completion : completion s = true -> completion s' = true;
  moves_recorded : receipt_recorded s = true -> receipt_recorded s' = true;
  moves_sink : sink s `prefix_of` sink s';
  moves_registered : registered (cleanups s) `prefix_of` registered (cleanups s');
  moves_ran : ran (cleanups s) `prefix_of` ran (cleanups s');
  moves_admitted : admitted s <= admitted s';
  moves_clock : clock_now s <= clock_now s' }.

Lemma moves_refl s : moves s s.
Proof. split; auto; lia. Qed.

Context (fixed0 : Fixed).

Record within (s : Shared) (others : list unit) : Prop := {
  within_fixed : fixed s = fixed0;
  within_diagnostics : blen (diagnostics s) <= max_diagnostics (limits fixed0);
  within_cleanups : blen (items (cleanups s)) <= max_cleanups (limits fixed0);
  within_bytes : sent s <= u64_max -> response_bytes s = sent s /\ admitted s <= sent s /\
                 admitted s <= max_response_bytes (limits fixed0) }.

Local Abbreviation Keeps := (keeps within moves tt).

Lemma keeps_atomic {A} (f : Shared -> Shared * A) : (forall s, within s [] -> within (f s).1 [] /\ moves s (f s).1) -> Keeps (atomic f).
Proof.
  intros Hf. apply verified_atomic. intros s others [W1 W2 W3 W4]. exists tt.
  destruct (Hf s) as [[V1 V2 V3 V4] Hm]; [done|]. by split_and!.
Qed.

Ltac atom :=
  apply keeps_atomic; intros s [W1 W2 W3 W4]; cbn [fst];
  repeat match goal with |- context [if ?b then _ else _] => destruct b eqn:? | |- context [match ?x with None => _ | Some _ => _ end] => destruct x eqn:? end;
  cbn [fst snd]; (split; [split|split]); cbn; auto; try lia; try (apply prefix_app_r; auto).

Lemma keeps_read {A} (f : Shared -> A) : Keeps (read f).
Proof. atom. Qed.

Lemma keeps_fact f : Keeps (write_fact f).
Proof. atom. Qed.

Lemma keeps_transition next : Keeps (transition next).
Proof. atom. Qed.

Lemma keeps_diagnostic d : Keeps (push_diagnostic d).
Proof. atom. rewrite blen_app. reflect_guards. rewrite W1 in *. unfold blen in *. cbn. lia. Qed.

Lemma keeps_internal_diagnostic code message : Keeps (push_internal_diagnostic code message).
Proof. unfold push_internal_diagnostic. destruct (diagnostic_new code message); [apply keeps_diagnostic|done]. Qed.

Lemma keeps_decide o : Keeps (decide_outcome o).
Proof. atom. reflect_guards. auto. Qed.

Ltac locked_atom :=
  intros s others [W1 W2 W3 W4]; cbn; match goal with |- context [locked ?b] => destruct (locked b) end; [done|];
  exists tt; split_and!; [split; cbn; auto; unfold blen; cbn; lia| |done]; split; cbn; auto; lia.

Lemma keeps_lock_user : Keeps (lock_bag user_cleanups).
Proof. locked_atom. Qed.

Lemma keeps_lock_own : Keeps (lock_bag own_cleanups).
Proof. locked_atom. Qed.

Lemma keeps_take_user : Keeps (take_bag user_cleanups).
Proof. locked_atom. Qed.

Lemma keeps_take_own : Keeps (take_bag own_cleanups).
Proof. locked_atom. Qed.

Ltac keep :=
  repeat first
    [ apply keeps_bind; [|intros ?] | apply keeps_ret | apply keeps_ignore | apply keeps_read | apply keeps_fact | apply keeps_transition
    | apply keeps_diagnostic | apply keeps_internal_diagnostic | apply keeps_decide
    | apply keeps_lock_user | apply keeps_lock_own | apply keeps_take_user | apply keeps_take_own
    | match goal with |- keeps _ _ _ (if ?b then _ else _) => destruct b end
    | match goal with |- keeps _ _ _ (match ?x with _ => _ end) => destruct x end
    | progress (unfold unlock_bag, ran_one) | progress cbv zeta ].

Lemma keeps_register_user c : Keeps (register_cleanup (max_cleanups (limits fixed0)) c).
Proof.
  unfold register_cleanup, register. keep. all: try (by atom). atom. reflect_guards. rewrite blen_app. unfold blen in *. cbn in *. lia.
Qed.

Lemma keeps_register_own c : Keeps (register_internal_cleanup c).
Proof. unfold register_internal_cleanup, register. keep; by atom. Qed.

Lemma keeps_cancel reason : Keeps (cancel reason).
Proof. unfold cancel. keep; by atom. Qed.

Lemma keeps_bytes n : Keeps (add_response_bytes (max_response_bytes (limits fixed0)) n).
Proof.
  unfold add_response_bytes. keep. all: try (by atom).
  apply keeps_atomic. intros s [W1 W2 W3 W4]. cbn [fst]. split; [|split; cbn; auto; destruct (_ <? _); lia].
  split; cbn; [done..|]. intros Hs. destruct W4 as (Hr & Ha & Hm); [lia|]. rewrite Hr.
  assert (Hu : u64_max < 2 ^ 64) by done. rewrite N.mod_small by lia. unfold saturating_add.
  destruct (N.ltb_spec (max_response_bytes (limits fixed0)) (N.min u64_max (sent s + n))); lia.
Qed.

Lemma keeps_receipt : Keeps (receipt receipts_of).
Proof. unfold receipt. keep. Qed.

Lemma keeps_record : Keeps (record_receipt_once receipts_of).
Proof. unfold record_receipt_once. apply keeps_bind; [by atom|]. intros []; [done|]. apply keeps_bind; [apply keeps_receipt|]. intros r. by atom. Qed.

Lemma keeps_run reason cs : Keeps (run_cleanups reason cs).
Proof. induction cs as [|c cs IH]; cbn [run_cleanups]; [done|]. keep; [by atom|done]. Qed.

Lemma keeps_run_internal cs : Keeps (run_internal_cleanups cs).
Proof. induction cs as [|c cs IH]; cbn [run_internal_cleanups]; [done|]. keep; [by atom|done]. Qed.

Lemma keeps_drain : Keeps (drain_and_close receipts_of).
Proof.
  unfold drain_and_close. apply keeps_bind; [apply keeps_read|]. intros st. destruct (bool_decide _); [done|].
  apply keeps_bind; [apply keeps_transition|]. intros _. apply keeps_bind; [apply keeps_read|]. intros reason.
  apply keeps_bind; [apply keeps_take_user|]. intros cs. apply keeps_bind; [apply keeps_run|]. intros _.
  apply keeps_bind; [apply keeps_take_own|]. intros ics. apply keeps_bind; [apply keeps_run_internal|]. intros _.
  apply keeps_bind; [apply keeps_transition|]. intros _. apply keeps_bind; [by atom|]. intros _. apply keeps_record.
Qed.

Lemma keeps_complete : Keeps (complete_success receipts_of).
Proof.
  unfold complete_success. apply keeps_bind; [apply keeps_read|]. intros o. apply keeps_bind; [|intros _; apply keeps_drain].
  destruct (bool_decide _); [by atom|done].
Qed.

Lemma keeps_call c : Keeps (perform receipts_of (limits fixed0) c).
Proof.
  destruct c; cbn [perform]; try apply keeps_ignore; try apply keeps_fact.
  - apply keeps_register_user.
  - apply keeps_register_own.
  - apply keeps_transition.
  - unfold set_route_of. keep.
  - unfold commit_response. keep.
  - apply keeps_bytes.
  - unfold reject. keep.
  - unfold fail. keep.
  - apply keeps_cancel.
  - apply keeps_complete.
  - apply keeps_drain.
  - apply keeps_receipt.
Qed.

Definition within_good (cfg : Config Data Receipts) : Prop := good within moves tt fixed0 cfg.

Lemma within_step cfg cfg' : step receipts_of cfg cfg' -> within_good cfg -> within_good cfg' /\ moves (shared cfg) (shared cfg').
Proof.
  apply step_good.
  - by intros s ls ls' _ [W1 W2 W3 W4].
  - by intros s ls [W1 W2 W3 W4].
  - intros s ls d [W1 W2 W3 W4]. split; [done|]. split; cbn; auto; lia.
  - apply moves_refl.
  - by intros s s' [].
  - intros c _. apply keeps_call.
  - apply keeps_cancel.
Qed.

End forward.

(** ** Who owns a locked list *)

Section ownership.
Context {A : Type}.

(** What a running operation holds of a list: its lock (and whether it has seen the
    scope open since), the promise to take the list, the items it took and has not run. *)
Record BagLoc : Type := mkLoc { holds : option bool; takes : bool; mine : list A }.

Definition no_bag : BagLoc := mkLoc None false [].

Definition holding (l : BagLoc) : bool := match holds l with Some _ => true | None => false end.
Definition may_push (l : BagLoc) : bool := match holds l with Some open => open | None => false end.

Record bag_ok (b : Bag A) (drains : bool) (ls : list BagLoc) : Prop := {
  one_holder : length (List.filter id (map holding ls)) = if locked b then 1%nat else 0%nat;
  none_lost : drains = true -> items b <> [] \/ existsb may_push ls = true -> existsb takes ls = true;
  all_owned : registered b ≡ₚ items b ++ concat (map mine ls) ++ ran b }.

Lemma existsb_perm {B} (p : B -> bool) l l' : l ≡ₚ l' -> existsb p l = existsb p l'.
Proof. induction 1; cbn; [done|congruence|destruct (p x), (p y); done|congruence]. Qed.

Lemma filter_length_perm {B} (p : B -> bool) l l' : l ≡ₚ l' -> length (List.filter p l) = length (List.filter p l').
Proof. induction 1; cbn; [done| |destruct (p x), (p y); done|congruence]. destruct (p x); cbn; congruence. Qed.

Lemma bag_ok_perm b d ls ls' : ls ≡ₚ ls' -> bag_ok b d ls -> bag_ok b d ls'.
Proof.
  intros Hp [H1 H2 H3]. split.
  - by rewrite <- (filter_length_perm id _ _ (Permutation_map holding Hp)).
  - rewrite <- !(existsb_perm _ _ _ Hp). done.
  - rewrite H3. do 2 f_equiv. by apply concat_perm, Permutation_map.
Qed.

Lemma bag_spawn b d ls : bag_ok b d ls -> bag_ok b d (no_bag :: ls).
Proof. by intros [H1 H2 H3]. Qed.

(** When no lock is held, no one may push. *)
Lemma unlocked_silent b d ls : bag_ok b d ls -> locked b = false -> forallb (fun l => negb (holding l)) ls = true.
Proof.
  intros [H1 _ _] Hl. rewrite Hl in H1. clear -H1. induction ls as [|l ls IH]; [done|]. cbn in *. by destruct (holding l); [|apply IH].
Qed.

Lemma silent_no_push ls : forallb (fun l => negb (holding l)) ls = true -> existsb may_push ls = false.
Proof.
  induction ls as [|l ls IH]; [done|]. cbn. intros [Hl Hls]%andb_true_iff. rewrite IH by done. unfold holding, may_push in *.
  by destruct (holds l).
Qed.

Lemma bag_lock b d t m ls : locked b = false -> bag_ok b d (mkLoc None t m :: ls) ->
  bag_ok (mkBag true (items b) (registered b) (ran b)) d (mkLoc (Some false) t m :: ls).
Proof. intros Hl [H1 H2 H3]. rewrite Hl in H1. split; [cbn in *; by rewrite H1|done|done]. Qed.

Lemma bag_see_open b h t m ls : bag_ok b false (mkLoc (Some h) t m :: ls) -> bag_ok b false (mkLoc (Some true) t m :: ls).
Proof. by intros [H1 H2 H3]. Qed.

Lemma bag_unlock b d h t m ls : bag_ok b d (mkLoc (Some h) t m :: ls) ->
  bag_ok (mkBag false (items b) (registered b) (ran b)) d (mkLoc None t m :: ls).
Proof.
  intros [H1 H2 H3]. cbn in H1. split; [|cbn in *|done].
  - cbn. destruct (locked b); lia.
  - intros Hd Hi. apply H2; [done|]. destruct Hi as [Hi|Hi]; [by left|]. right. by rewrite Hi, orb_true_r.
Qed.

Lemma bag_push b d t m ls x : bag_ok b d (mkLoc (Some true) t m :: ls) ->
  bag_ok (mkBag (locked b) (items b ++ [x]) (registered b ++ [x]) (ran b)) d (mkLoc (Some true) t m :: ls).
Proof.
  intros [H1 H2 H3]. split; [done| |].
  - intros Hd _. apply H2; [done|]. by right.
  - cbn [registered items ran] in *. rewrite H3. solve_Permutation.
Qed.

Lemma bag_promise b d d' t m h ls : bag_ok b d (mkLoc h t m :: ls) -> bag_ok b d' (mkLoc h true m :: ls).
Proof. intros [H1 H2 H3]. split; [exact H1|intros _ _; reflexivity|exact H3]. Qed.

Lemma bag_take b d t ls : locked b = false -> bag_ok b d (mkLoc None t [] :: ls) ->
  bag_ok (mkBag false [] (registered b) (ran b)) d (mkLoc None false (items b) :: ls).
Proof.
  intros Hl Hb. pose proof (silent_no_push _ (unlocked_silent _ _ _ Hb Hl)) as Hs. destruct Hb as [H1 H2 H3].
  rewrite Hl in H1. split; [done| |].
  - intros _ [?|Hp]; [done|]. cbn in Hs, Hp. congruence.
  - cbn in *. by rewrite <- app_assoc.
Qed.

Lemma bag_run b d h t x m ls : bag_ok b d (mkLoc h t (x :: m) :: ls) ->
  bag_ok (mkBag (locked b) (items b) (registered b) (ran b ++ [x])) d (mkLoc h t m :: ls).
Proof.
  intros [H1 H2 H3]. split; [done|done|]. cbn [registered items ran map mine concat] in *. rewrite H3. solve_Permutation.
Qed.

Lemma bag_reorder b d h t m m' ls : m ≡ₚ m' -> bag_ok b d (mkLoc h t m :: ls) -> bag_ok b d (mkLoc h t m' :: ls).
Proof. intros Hm [H1 H2 H3]. split; [done|done|]. cbn in *. by rewrite <- Hm. Qed.

(** Once everything is over, every item put in was called, each time once. *)
Lemma bag_over b ls : bag_ok b true ls -> Forall (fun l => l = no_bag) ls -> items b = [] /\ ran b ≡ₚ registered b.
Proof.
  intros [H1 H2 H3] Hls. assert (Hn : existsb takes ls = false /\ concat (map mine ls) = []).
  { clear -Hls. induction Hls as [|l ls -> _ [IH1 IH2]]; [done|]. by cbn; rewrite IH1, IH2. }
  destruct Hn as [Ht Hm]. destruct (items b) as [|x xs].
  - split; [done|]. rewrite H3, Hm. done.
  - rewrite Ht in H2. discriminate H2; [done|]. by left.
Qed.

End ownership.

Arguments BagLoc : clear implicits.

(** ** The ghost state of an operation *)

Section lifecycle.
Context {Data Receipts : Type} (receipts_of : Data -> Receipts).

Local Abbreviation Shared := (Scope Data Receipts).
Local Abbreviation Operation := (Op Data Receipts).

(** [closes]: it closed the scope and will record; [records]: it will hand over the receipt. *)
Record Loc : Type := mkGhost { user : BagLoc Cleanup; own : BagLoc InternalCleanup; closes : bool; records : bool }.

Definition idle : Loc := mkGhost no_bag no_bag false false.

Record owned (s : Shared) (ls : list Loc) : Prop := {
  owned_user : bag_ok (cleanups s) (draining (state s)) (map user ls);
  owned_own : bag_ok (internal_cleanups s) (draining (state s)) (map own ls);
  one_receipt : (length (sink s) + length (List.filter id (map records ls)))%nat = if receipt_recorded s then 1%nat else 0%nat;
  closed_recorded : state s = Closed -> receipt_recorded s = true \/ existsb id (map closes ls) = true }.

Definition same (s s' : Shared) : Prop := fixed s' = fixed s.

Local Abbreviation Verified := (verified owned same).

Lemma owned_perm s ls ls' : ls ≡ₚ ls' -> owned s ls -> owned s ls'.
Proof.
  intros Hp [O1 O2 O3 O4]. split.
  - by apply (bag_ok_perm _ _ _ _ (Permutation_map user Hp)).
  - by apply (bag_ok_perm _ _ _ _ (Permutation_map own Hp)).
  - by rewrite <- (filter_length_perm id _ _ (Permutation_map records Hp)).
  - by rewrite <- (existsb_perm id _ _ (Permutation_map closes Hp)).
Qed.

(** An action that touches none of it. *)
Definition transparent (s s' : Shared) : Prop :=
  fixed s' = fixed s /\ cleanups s' = cleanups s /\ internal_cleanups s' = internal_cleanups s /\
  draining (state s') = draining (state s) /\ (state s' = Closed -> state s = Closed) /\
  receipt_recorded s' = receipt_recorded s /\ sink s' = sink s.

Lemma owned_transparent s s' ls : transparent s s' -> owned s ls -> owned s' ls.
Proof.
  intros (H1 & H2 & H3 & H4 & H5 & H6 & H7) [O1 O2 O3 O4]. split; rewrite ?H2, ?H3, ?H4, ?H6, ?H7; auto.
Qed.

Lemma verified_transparent {A} (f : Shared -> Shared * A) l (Q : A -> Loc -> Prop) :
  (forall s, transparent s (f s).1) -> (forall a, Q a l) -> Verified (atomic f) l Q.
Proof.
  intros Hf HQ. apply verified_atomic. intros s others HI. exists l. split_and!; [|by apply Hf|apply HQ].
  by apply (owned_transparent s).
Qed.

Lemma verified_read {A} (f : Shared -> A) l (Q : A -> Loc -> Prop) : (forall a, Q a l) -> Verified (read f) l Q.
Proof. intros HQ. by apply verified_transparent. Qed.

Lemma transition_transparent next s : draining next = false ->
  transparent s (if transition_allowed (state s) next then (set_state next s, @Ok ScopeError unit tt)
                 else (s, Err (InvalidTransition (state s) next))).1.
Proof.
  intros Hn. destruct (transition_allowed (state s) next) eqn:Ht; [|done]. unfold transparent. cbn.
  split_and!; try done; [|by intros ->]. rewrite Hn. by destruct (state s), next.
Qed.

(** Operations that touch none of it, from any ghost state. *)
Definition passes {A} (m : Operation A) : Prop := forall l, Verified m l (fun _ l' => l' = l).

Lemma passes_bind {A B} (m : Operation A) (k : A -> Operation B) : passes m -> (forall a, passes (k a)) -> passes (mbind k m).
Proof. intros Hm Hk l. apply verified_bind. eapply verified_mono; [|exact (Hm l)]. intros a l' ->. apply Hk. Qed.

Lemma passes_ret {A} (a : A) : passes (Ret a).
Proof. done. Qed.

Lemma passes_atomic {A} (f : Shared -> Shared * A) : (forall s, transparent s (f s).1) -> passes (atomic f).
Proof. intros Hf l. by apply verified_transparent. Qed.

Lemma passes_transition next : draining next = false -> passes (transition next).
Proof. intros Hn. apply passes_atomic. intros s. by apply transition_transparent. Qed.

Ltac pass :=
  repeat first
    [ apply passes_bind; [|intros ?] | apply passes_ret | by apply passes_transition
    | match goal with |- passes (if ?b then _ else _) => destruct b end
    | match goal with |- passes (match ?x with _ => _ end) => destruct x end
    | progress cbv zeta ];
  apply passes_atomic; intros s; cbn [fst];
  repeat match goal with |- context [if ?b then _ else _] => destruct b | |- context [match ?x with None => _ | Some _ => _ end] => destruct x end;
  by unfold transparent.

Lemma passes_fact f : passes (write_fact f).
Proof. by apply passes_atomic. Qed.

Lemma passes_diagnostic d : passes (push_diagnostic d).
Proof. apply passes_atomic. intros s. by destruct (_ <? _). Qed.

Lemma passes_internal_diagnostic code message : passes (push_internal_diagnostic code message).
Proof. unfold push_internal_diagnostic. destruct (diagnostic_new code message); [apply passes_diagnostic|done]. Qed.

Lemma passes_cancel reason : passes (cancel reason).
Proof. unfold cancel. pass. Qed.

Lemma passes_bytes maximum n : passes (add_response_bytes maximum n).
Proof.
  unfold add_response_bytes. apply passes_bind; [by apply passes_atomic|]. intros previous. cbv zeta. destruct (_ <? _); [|done].
  apply passes_bind; [apply passes_internal_diagnostic|]. intros _. apply passes_bind; [apply passes_cancel|]. done.
Qed.

Lemma passes_reject d : passes (reject d).
Proof. unfold reject. apply passes_bind; [apply passes_diagnostic|intros _]. pass. Qed.

Lemma passes_fail d : passes (fail d).
Proof. unfold fail. apply passes_bind; [apply passes_diagnostic|intros _]. pass. Qed.

Lemma passes_commit status : passes (commit_response status).
Proof. unfold commit_response. pass. Qed.

Lemma passes_route r : passes (set_route_of r).
Proof. unfold set_route_of. pass. Qed.

Lemma passes_receipt : passes (receipt receipts_of).
Proof. unfold receipt. pass. Qed.

(** *** The locked lists *)

Section one_bag.
Context {A : Type} (b : @BagOf Data Receipts A) (lget : Loc -> BagLoc A) (lset : BagLoc A -> Loc -> Loc).
Context (Hidle : lget idle = no_bag).
Context (Hget : forall x l, lget (lset x l) = x).
Context (Hset : forall x y l, lset x (lset y l) = lset x l).
Context (Hself : forall l, lset (lget l) l = l).
Context (Hstate : forall c s, state (set_bag b c s) = state s).
Context (Hfixed : forall c s, fixed (set_bag b c s) = fixed s).
Context (Hout : forall s l ls, owned s (l :: ls) -> bag_ok (get_bag b s) (draining (state s)) (lget l :: map lget ls)).
Context (Hin : forall s l ls c x, owned s (l :: ls) -> bag_ok c (draining (state s)) (x :: map lget ls) ->
  owned (set_bag b c s) (lset x l :: ls)).
Context (Hghost : forall s l ls x, owned s (l :: ls) -> bag_ok (get_bag b s) (draining (state s)) (x :: map lget ls) ->
  owned s (lset x l :: ls)).

Lemma verified_lock t m l (Q : unit -> Loc -> Prop) : lget l = mkLoc None t m ->
  Q tt (lset (mkLoc (Some false) t m) l) -> Verified (lock_bag b) l Q.
Proof.
  intros Hl HQ s others HI. cbn. destruct (locked (get_bag b s)) eqn:Hlock; [done|].
  exists (lset (mkLoc (Some false) t m) l). split_and!; [|apply Hfixed|done]. apply Hin; [done|]. apply bag_lock; [done|].
  rewrite <- Hl. by apply Hout.
Qed.

Lemma verified_unlock h t m l (Q : unit -> Loc -> Prop) : lget l = mkLoc (Some h) t m ->
  Q tt (lset (mkLoc None t m) l) -> Verified (unlock_bag b) l Q.
Proof.
  intros Hl HQ. apply verified_atomic. intros s others HI. exists (lset (mkLoc None t m) l). cbn [fst snd].
  split_and!; [|apply Hfixed|done]. apply Hin; [done|]. apply bag_unlock with h. rewrite <- Hl. by apply Hout.
Qed.

Lemma verified_see t m l (Q : RequestState -> Loc -> Prop) : lget l = mkLoc (Some false) t m ->
  (forall st, Q st (lset (mkLoc (Some (negb (draining st))) t m) l)) -> Verified (read state) l Q.
Proof.
  intros Hl HQ. apply verified_atomic. intros s others HI. exists (lset (mkLoc (Some (negb (draining (state s)))) t m) l).
  cbn [fst snd]. split_and!; [|done|apply HQ]. apply Hghost; [done|]. pose proof (Hout _ _ _ HI) as Hb. rewrite Hl in Hb.
  destruct (draining (state s)); [done|]. by eapply bag_see_open.
Qed.

Lemma verified_push maximum x t m l (Q : bool -> Loc -> Prop) : lget l = mkLoc (Some true) t m ->
  (forall pushed, Q pushed l) -> Verified (try_push b maximum x) l Q.
Proof.
  intros Hl HQ. apply verified_atomic. intros s others HI. exists l.
  cbv zeta. match goal with |- context [if ?full then _ else _] => destruct full end; cbn [fst snd]; [by split_and!|].
  split_and!; [|apply Hfixed|done]. rewrite <- (Hself l) at 1. apply Hin; [done|]. rewrite Hl. apply bag_push.
  rewrite <- Hl. by apply Hout.
Qed.

Lemma verified_register maximum x : Verified (register b maximum x) idle (fun _ l => l = idle).
Proof.
  assert (Hend : lset (mkLoc None false []) idle = idle) by (rewrite <- (Hself idle) at 2; by rewrite Hidle).
  unfold register. apply verified_bind. apply verified_lock with false []; [done|].
  apply verified_bind. apply verified_see with false []; [apply Hget|]. intros st. rewrite Hset. destruct (draining st); cbn [negb].
  - apply verified_bind. eapply verified_unlock; [apply Hget|]. rewrite Hset. exact Hend.
  - apply verified_bind. eapply verified_push; [apply Hget|]. intros pushed. apply verified_bind.
    eapply verified_unlock; [apply Hget|]. rewrite Hset. exact Hend.
Qed.

Lemma verified_take t l (Q : list A -> Loc -> Prop) : lget l = mkLoc None t [] ->
  (forall xs, Q xs (lset (mkLoc None false xs) l)) -> Verified (take_bag b) l Q.
Proof.
  intros Hl HQ s others HI. cbn. destruct (locked (get_bag b s)) eqn:Hlock; [done|].
  exists (lset (mkLoc None false (items (get_bag b s))) l). split_and!; [|apply Hfixed|apply HQ]. apply Hin; [done|].
  apply bag_take with t; [done|]. rewrite <- Hl. by apply Hout.
Qed.

(** The items are run in the order of the list at hand. *)
Lemma verified_ran x m m' l (Q : unit -> Loc -> Prop) : lget l = mkLoc None false m -> m ≡ₚ x :: m' ->
  Q tt (lset (mkLoc None false m') l) -> Verified (ran_one b x) l Q.
Proof.
  intros Hl Hm HQ. apply verified_atomic. intros s others HI. exists (lset (mkLoc None false m') l). cbn [fst snd].
  split_and!; [|apply Hfixed|done]. apply Hin; [done|]. apply bag_run, (bag_reorder _ _ _ _ m); [done|].
  rewrite <- Hl. by apply Hout.
Qed.

End one_bag.

(** *** The two lists of the scope *)

Definition set_user (x : BagLoc Cleanup) (l : Loc) : Loc := mkGhost x (own l) (closes l) (records l).
Definition set_own (x : BagLoc InternalCleanup) (l : Loc) : Loc := mkGhost (user l) x (closes l) (records l).

Lemma user_in s l ls c x : owned s (l :: ls) -> bag_ok c (draining (state s)) (x :: map user ls) ->
  owned (set_bag user_cleanups c s) (set_user x l :: ls).
Proof. by intros [O1 O2 O3 O4] Hc. Qed.

Lemma user_ghost s l ls x : owned s (l :: ls) -> bag_ok (cleanups s) (draining (state s)) (x :: map user ls) ->
  owned s (set_user x l :: ls).
Proof. by intros [O1 O2 O3 O4] Hc. Qed.

Lemma own_in s l ls c x : owned s (l :: ls) -> bag_ok c (draining (state s)) (x :: map own ls) ->
  owned (set_bag own_cleanups c s) (set_own x l :: ls).
Proof. by intros [O1 O2 O3 O4] Hc. Qed.

Lemma own_ghost s l ls x : owned s (l :: ls) -> bag_ok (internal_cleanups s) (draining (state s)) (x :: map own ls) ->
  owned s (set_own x l :: ls).
Proof. by intros [O1 O2 O3 O4] Hc. Qed.

Lemma user_out s l ls : owned s (l :: ls) -> bag_ok (cleanups s) (draining (state s)) (user l :: map user ls).
Proof. by intros [O1 O2 O3 O4]. Qed.

Lemma own_out s l ls : owned s (l :: ls) -> bag_ok (internal_cleanups s) (draining (state s)) (own l :: map own ls).
Proof. by intros [O1 O2 O3 O4]. Qed.

Lemma set_user_self l : set_user (user l) l = l.
Proof. by destruct l. Qed.

Lemma set_own_self l : set_own (own l) l = l.
Proof. by destruct l. Qed.

Lemma register_user_idle maximum c : Verified (register user_cleanups maximum c) idle (fun _ l => l = idle).
Proof. apply (verified_register user_cleanups user set_user); try done; [apply set_user_self|apply user_out|apply user_in|apply user_ghost]. Qed.

Lemma register_own_idle maximum c : Verified (register own_cleanups maximum c) idle (fun _ l => l = idle).
Proof. apply (verified_register own_cleanups own set_own); try done; [apply set_own_self|apply own_out|apply own_in|apply own_ghost]. Qed.

(** *** Draining *)

Definition promised : Loc := mkGhost (mkLoc None true []) (mkLoc None true []) false false.
Definition closing : Loc := mkGhost no_bag no_bag true false.
Definition recording : Loc := mkGhost no_bag no_bag false true.

Lemma verified_pass {A} (m : Operation A) l (Q : A -> Loc -> Prop) : passes m -> (forall a, Q a l) -> Verified m l Q.
Proof. intros Hm HQ. eapply verified_mono; [|exact (Hm l)]. intros a l' ->. apply HQ. Qed.

Lemma verified_start (Q : result ScopeError unit -> Loc -> Prop) : (forall r, Q r promised) ->
  Verified (transition ScopeDraining) idle Q.
Proof.
  intros HQ. apply verified_atomic. intros s others [O1 O2 O3 O4]. exists promised.
  destruct (transition_allowed (state s) ScopeDraining) eqn:Ht; cbn [fst snd]; (split_and!; [|done|apply HQ]).
  all: split; [exact (bag_promise _ _ _ _ [] _ _ O1)|exact (bag_promise _ _ _ _ [] _ _ O2)|done|done].
Qed.

Lemma verified_run_cleanups reason cs m l (Q : unit -> Loc -> Prop) : user l = mkLoc None false m -> m ≡ₚ cs ->
  Q tt (set_user no_bag l) -> Verified (run_cleanups reason cs) l Q.
Proof.
  revert m l. induction cs as [|c cs IH]; intros m l Hl Hm HQ; cbn [run_cleanups].
  { apply Permutation_nil_r in Hm as ->. rewrite <- (set_user_self l), Hl. exact HQ. }
  apply verified_bind. apply (verified_ran user_cleanups user set_user) with m cs; try done; [apply user_out|apply user_in|].
  apply verified_bind. apply verified_pass; [|intros _].
  { destruct (c reason); [done|apply passes_internal_diagnostic..]. }
  by apply IH with cs.
Qed.

Lemma verified_run_internal cs m l (Q : unit -> Loc -> Prop) : own l = mkLoc None false m -> m ≡ₚ cs ->
  Q tt (set_own no_bag l) -> Verified (run_internal_cleanups cs) l Q.
Proof.
  revert m l. induction cs as [|c cs IH]; intros m l Hl Hm HQ; cbn [run_internal_cleanups].
  { apply Permutation_nil_r in Hm as ->. rewrite <- (set_own_self l), Hl. exact HQ. }
  apply verified_bind. apply (verified_ran own_cleanups own set_own) with m cs; try done; [apply own_out|apply own_in|].
  apply verified_bind. apply verified_pass; [|intros _].
  { destruct (c tt); [done..|apply passes_internal_diagnostic]. }
  by apply IH with cs.
Qed.

Lemma verified_close (Q : result ScopeError unit -> Loc -> Prop) : (forall r, Q r closing) -> Verified (transition Closed) idle Q.
Proof.
  intros HQ. apply verified_atomic. intros s others [O1 O2 O3 O4]. exists closing.
  destruct (transition_allowed (state s) Closed) eqn:Ht; cbn [fst snd]; (split_and!; [|done|apply HQ]).
  - assert (state s = ScopeDraining) as Hs by (by destruct (state s)). rewrite Hs in O1, O2. split; [done..|by right].
  - split; [done..|by right].
Qed.

Lemma verified_record (Q : unit -> Loc -> Prop) : Q tt idle -> Verified (record_receipt_once receipts_of) closing Q.
Proof.
  intros HQ. unfold record_receipt_once. apply verified_bind. apply verified_atomic. intros s others [O1 O2 O3 O4]. cbn [fst snd].
  exists (if receipt_recorded s then idle else recording). cbn in O3. destruct (receipt_recorded s) eqn:Hr.
  { split_and!; [|done|exact HQ]. split; [done..|by left]. }
  split_and!; [|done|].
  - split; [done|done| |by left]. cbn. lia.
  - cbn [mbind]. apply verified_bind. apply verified_pass; [apply passes_receipt|]. intros r. apply verified_atomic.
    intros s' others' [P1 P2 P3 P4]. exists idle. cbn [fst snd]. split_and!; [|done|exact HQ]. split; [done|done| |done].
    cbn in P3 |- *. rewrite length_app. cbn. lia.
Qed.

Lemma drain_idle : Verified (drain_and_close receipts_of) idle (fun _ l => l = idle).
Proof.
  unfold drain_and_close. apply verified_bind, verified_read. intros st. destruct (bool_decide _); [done|].
  apply verified_bind, verified_start. intros _. apply verified_bind, verified_read. intros reason.
  apply verified_bind. apply (verified_take user_cleanups user set_user) with true; try done; [apply user_out|apply user_in|]. intros cs.
  apply verified_bind. apply verified_run_cleanups with cs; [done|apply Permutation_rev|].
  apply verified_bind. apply (verified_take own_cleanups own set_own) with true; try done; [apply own_out|apply own_in|]. intros ics.
  apply verified_bind. apply verified_run_internal with ics; [done|apply Permutation_rev|].
  apply verified_bind. apply verified_close. intros _. apply verified_bind. apply verified_transparent; [done|]. intros _.
  by apply verified_record.
Qed.

Lemma call_idle l c : callable c = true -> Verified (perform receipts_of l c) idle (fun _ l => l = idle).
Proof.
  assert (Hpass : forall (m : Operation unit), passes m -> Verified m idle (fun _ l => l = idle)) by (intros m Hm; apply Hm).
  assert (Hignore : forall A (m : Operation A), Verified m idle (fun _ l => l = idle) -> Verified (ignore m) idle (fun _ l => l = idle)).
  { intros A m. apply keeps_ignore. }
  destruct c; cbn [perform callable]; intros Hc; try (apply Hpass, passes_fact).
  - apply Hignore, register_user_idle.
  - apply Hignore, register_own_idle.
  - apply Hignore, passes_transition. by apply negb_true_iff in Hc.
  - apply Hpass, passes_route.
  - apply Hignore, passes_commit.
  - apply Hignore, passes_bytes.
  - apply Hpass, passes_reject.
  - apply Hpass, passes_fail.
  - apply Hpass, passes_cancel.
  - unfold complete_success. apply verified_bind, verified_read. intros o. apply verified_bind.
    destruct (bool_decide _); [|apply drain_idle]. apply verified_transparent; [done|]. intros _. apply drain_idle.
  - apply drain_idle.
  - apply Hignore, passes_receipt.
Qed.

Lemma owned_good cfg : reachable receipts_of cfg -> good owned same idle (fixed (shared cfg)) cfg.
Proof.
  intros (cfg0 & (rid & contract & digest & l & instant & ->) & Hsteps).
  assert (Hg : good owned same idle (mkFixed rid contract digest l instant (instant + Limits.deadline l)) cfg).
  { apply (steps_good receipts_of owned same idle) with (cfg := mkConfig (open_scope rid contract digest l instant) []).
    - apply owned_perm.
    - intros s ls [O1 O2 O3 O4]. split; [exact (bag_spawn _ _ _ O1)|exact (bag_spawn _ _ _ O2)|done|done].
    - intros s ls d [O1 O2 O3 O4]. split; [by split|done].
    - done.
    - done.
    - intros c Hc. by apply call_idle.
    - apply passes_cancel.
    - done.
    - split; [done|]. exists []. by split. }
  destruct Hg as [_ Hg]. by split.
Qed.

End lifecycle.

(** ** What holds of every scope *)

Section promises.
Context {Data Receipts : Type} (receipts_of : Data -> Receipts).

Local Abbreviation Configuration := (Config Data Receipts).

Lemma within_reachable cfg : reachable receipts_of cfg -> within_good (fixed (shared cfg)) cfg.
Proof.
  intros (cfg0 & (rid & contract & digest & l & instant & ->) & Hsteps).
  assert (Hg : within_good (mkFixed rid contract digest l instant (instant + Limits.deadline l))
    (mkConfig (@open_scope Data Receipts rid contract digest l instant) [])).
  { split; [done|]. exists []. split; [|constructor]. split; cbn; try done; unfold blen; cbn; lia. }
  remember (mkConfig (open_scope rid contract digest l instant) []) as cfg0 eqn:H0. clear H0.
  assert (Hend : within_good (mkFixed rid contract digest l instant (instant + Limits.deadline l)) cfg).
  { induction Hsteps as [|cfg0 cfg1 cfg2 Hs _ IH]; [done|]. by apply IH, (within_step receipts_of _ cfg0). }
  destruct Hend as [Hfix Hend]. split; [done|]. by rewrite Hfix.
Qed.

(** *** What only moves forward *)

(** The facts of a scope that a later one keeps. *)
Record forward (s s' : Scope Data Receipts) : Prop := {
  forward_state : rtc (fun from to => transition_allowed from to = true) (state s) (state s');
  forward_outcome : outcome s <> Pending -> outcome s' = outcome s \/ outcome s' = Success;
  forward_reason : forall r, cancel_reason s = Some r -> cancel_reason s' = Some r;
  forward_tokens : (cancellation s = true -> cancellation s' = true) /\ (completion s = true -> completion s' = true);
  forward_receipts : sink s `prefix_of` sink s';
  forward_ran : ran (cleanups s) `prefix_of` ran (cleanups s');
  forward_clock : clock_now s <= clock_now s' }.

Lemma forward_refl s : forward s s.
Proof. split; auto; reflexivity. Qed.

Lemma moves_forward s s' : moves s s' -> forward s s'.
Proof.
  intros [M1 M2 M3 M4 M5 M6 M7 M8 M9 M10 M11 M12]. split; auto.
  - destruct M2 as [->|M2]; [done|by apply rtc_once].
  - intros Hp. destruct M3 as [?|[?|?]]; auto. done.
  - intros r Hr. destruct M4 as [->|M4]; congruence.
Qed.

Lemma forward_trans s1 s2 s3 : forward s1 s2 -> forward s2 s3 -> forward s1 s3.
Proof.
  intros [F1 F2 F3 [F4 F4'] F5 F6 F7] [G1 G2 G3 [G4 G4'] G5 G6 G7]. split; auto; try (by etrans); try lia.
  intros Hp. destruct (F2 Hp) as [H|H]; rewrite <- H in *; auto.
  right. destruct G2 as [?|?]; [by rewrite H|congruence..].
Qed.

(** C18. Whatever runs on a scope and however it is interleaved, a request only moves
    forward: its state follows the allowed transitions, so a closed one stays closed;
    the first reason of a cancellation, raised tokens, receipts handed over and cleanups
    run are never taken back; a decided outcome can only be overwritten with success. *)
Theorem request_moves_forward cfg cfg' : reachable receipts_of cfg -> rtc (step receipts_of) cfg cfg' ->
  forward (shared cfg) (shared cfg') /\ (state (shared cfg) = Closed -> state (shared cfg') = Closed).
Proof.
  intros Hr Hsteps. assert (Hf : forward (shared cfg) (shared cfg')).
  { pose proof (within_reachable cfg Hr) as Hg. revert Hg. generalize (fixed (shared cfg)). intros fx Hg.
    induction Hsteps as [cfg|cfg cfg1 cfg2 Hs _ IH]; [apply forward_refl|].
    destruct (within_step receipts_of fx _ _ Hs Hg) as [Hg1 Hm]. eapply forward_trans; [by apply moves_forward|]. apply IH; [|done].
    destruct Hr as (cfg0 & H0 & Hs0). exists cfg0. split; [done|]. by eapply rtc_r. }
  split; [done|]. intros Hc. destruct Hf as [Hst _ _ _ _ _ _]. rewrite Hc in Hst. by inversion Hst.
Qed.

(** C32. The limits hold at every moment of every run: diagnostics, cleanups, and, as
    long as the response is less than 2^64 bytes, the bytes of all the calls of
    [add_response_bytes] that succeed are together within the response limit. *)
Theorem scope_within_limits cfg : reachable receipts_of cfg ->
  let s := shared cfg in let l := limits (fixed s) in
  blen (diagnostics s) <= max_diagnostics l /\ blen (items (cleanups s)) <= max_cleanups l /\
  (sent s <= u64_max -> admitted s <= max_response_bytes l).
Proof.
  intros Hr. destruct (within_reachable cfg Hr) as (_ & ls & [W1 W2 W3 W4] & _). split_and!; [done..|]. intros Hs. by apply W4.
Qed.

(** C13. Cleanups and receipts under every interleaving of any number of operations,
    several of which may drain: never more than one receipt is handed over; and once all
    operations have finished on a scope that drains or is closed, every cleanup and
    internal cleanup whose registration succeeded was run exactly once, none is left,
    and a closed scope has handed over its receipt. *)
Theorem cleanups_run_exactly_once cfg : reachable receipts_of cfg ->
  (length (sink (shared cfg)) <= 1)%nat /\
  (finished cfg -> draining (state (shared cfg)) = true ->
   items (cleanups (shared cfg)) = [] /\ ran (cleanups (shared cfg)) ≡ₚ registered (cleanups (shared cfg)) /\
   items (internal_cleanups (shared cfg)) = [] /\
   ran (internal_cleanups (shared cfg)) ≡ₚ registered (internal_cleanups (shared cfg)) /\
   (state (shared cfg) = Closed -> length (sink (shared cfg)) = 1%nat)).
Proof.
  intros Hr. pose proof (owned_good receipts_of cfg Hr) as Hg. split.
  { destruct Hg as (_ & ls & [O1 O2 O3 O4] & _). destruct (receipt_recorded _); lia. }
  intros Hf Hd. destruct (finished_idle _ _ _ _ _ Hg Hf) as (ls & [O1 O2 O3 O4] & Hls). rewrite Hd in O1, O2.
  assert (Hidle : Forall (fun l => l = no_bag) (map user ls) /\ Forall (fun l => l = no_bag) (map own ls) /\
    List.filter id (map records ls) = [] /\ existsb id (map closes ls) = false).
  { clear -Hls. induction Hls as [|l ls -> _ (I1 & I2 & I3 & I4)]; [done|]. cbn. split_and!; try done; by constructor. }
  destruct Hidle as (I1 & I2 & I3 & I4). destruct (bag_over _ _ O1 I1) as [B1 B2]. destruct (bag_over _ _ O2 I2) as [B3 B4].
  split_and!; try done. intros Hc. rewrite I3 in O3. rewrite I4 in O4. destruct (O4 Hc) as [Hrec|?]; [|done]. rewrite Hrec in O3. cbn in O3. lia.
Qed.

End promises.

(** ** Runs *)

Section runs.
Context {Data Receipts : Type} (receipts_of : Data -> Receipts).

(** A schedule: one action of an operation, all it has left, a call, or time. *)
Inductive Action : Type := Run (i : nat) | Finish (i : nat) | Start (c : @Call Data) | Wait (d : N) | Wake.

Definition run_one (cfg : Config Data Receipts) (i : nat) : option (Config Data Receipts) :=
  match threads cfg !! i with
  | Some (Atom f) =>
      match f (shared cfg) with Some (s, m) => Some (mkConfig s (<[i := m]> (threads cfg))) | None => None end
  | _ => None
  end.

Fixpoint run_all (fuel : nat) (cfg : Config Data Receipts) (i : nat) : Config Data Receipts :=
  match fuel with
  | O => cfg
  | S fuel => match run_one cfg i with Some cfg => run_all fuel cfg i | None => cfg end
  end.

Definition act (cfg : Config Data Receipts) (a : Action) : Config Data Receipts :=
  match a with
  | Run i => default cfg (run_one cfg i)
  | Finish i => run_all 100 cfg i
  | Start c =>
      if callable c then mkConfig (shared cfg) (threads cfg ++ [perform receipts_of (limits (fixed (shared cfg))) c]) else cfg
  | Wait d => mkConfig (set_clock_now (clock_now (shared cfg) + d) (shared cfg)) (threads cfg)
  | Wake =>
      if (deadline_at (fixed (shared cfg)) <=? clock_now (shared cfg)) && negb (completion (shared cfg))
      then mkConfig (shared cfg) (threads cfg ++ [cancel Deadline]) else cfg
  end.

Definition run (cfg : Config Data Receipts) (schedule : list Action) : Config Data Receipts := fold_left act schedule cfg.

Lemma run_one_step cfg cfg' i : run_one cfg i = Some cfg' -> step receipts_of cfg cfg'.
Proof.
  destruct cfg as [s ts]. unfold run_one. cbn. destruct (ts !! i) as [[|f]|] eqn:Hi; [done| |done].
  destruct (f s) as [[s' m]|] eqn:Hf; [|done]. intros [= <-]. by apply step_run with f.
Qed.

Lemma run_all_steps fuel cfg i : rtc (step receipts_of) cfg (run_all fuel cfg i).
Proof.
  revert cfg. induction fuel as [|fuel IH]; intros cfg; cbn; [done|]. destruct (run_one cfg i) as [cfg'|] eqn:Hr; [|done].
  eapply rtc_l; [by eapply run_one_step|apply IH].
Qed.

Lemma act_steps cfg a : rtc (step receipts_of) cfg (act cfg a).
Proof.
  destruct cfg as [s ts], a as [i|i|c|d|]; cbn [act shared threads].
  - destruct (run_one _ i) as [cfg'|] eqn:Hr; [|done]. by apply rtc_once, (run_one_step _ _ i).
  - apply run_all_steps.
  - destruct (callable c) eqn:Hc; [|done]. by apply rtc_once, step_call.
  - apply rtc_once, step_time.
  - destruct (_ && _) eqn:Hd; [|done]. reflect_guards. by apply rtc_once, step_deadline.
Qed.

Lemma run_steps schedule cfg : rtc (step receipts_of) cfg (run cfg schedule).
Proof.
  revert cfg. induction schedule as [|a schedule IH]; intros cfg; cbn; [done|]. etrans; [apply act_steps|apply IH].
Qed.

Lemma run_reachable cfg schedule : opened cfg -> reachable receipts_of (run cfg schedule).
Proof. intros Ho. exists cfg. split; [done|]. apply run_steps. Qed.

End runs.

Module ScopeSample.

Definition receipts (u : unit) : unit := u.
Definition start : Config unit unit := mkConfig (open_scope (mkIdentity "request-1" "deployment-1") "app" "limits" default_limits 0) [].

Definition quiet : Cleanup := fun _ => Finished.
Definition failing : Cleanup := fun _ => Refused "late".

(** A request that is answered, with two cleanups, drained by two operations at once. *)
Definition half : list (@Action unit) :=
  [Start (Advance HeadAdmitted); Finish 0; Start (CommitResponse 200); Finish 1;
   Start (RegisterCleanup quiet); Start (RegisterCleanup failing); Run 2; Finish 3; Finish 2; Finish 3].
Definition rest : list (@Action unit) :=
  [Start (AddResponseBytes 1000); Finish 4; Start CompleteSuccess; Start DrainAndClose; Run 5; Run 5; Run 6; Run 5; Run 5; Finish 6; Finish 5].

Definition half_cfg : Config unit unit := run receipts start half.
Definition served_cfg : Config unit unit := run receipts half_cfg rest.

Lemma start_opened : opened start.
Proof. by exists (mkIdentity "request-1" "deployment-1"), "app", "limits", default_limits, 0. Qed.

Lemma half_reachable : reachable receipts half_cfg.
Proof. unfold half_cfg. apply run_reachable, start_opened. Qed.

Lemma half_served : rtc (step receipts) half_cfg served_cfg.
Proof. unfold served_cfg. apply run_steps. Qed.

Lemma served_reachable : reachable receipts served_cfg.
Proof.
  exists start. split; [apply start_opened|]. transitivity half_cfg; [|apply half_served].
  unfold half_cfg. apply run_steps.
Qed.

(** [complete_success] reads the outcome, releases the lock, and writes it later: a
    cancellation in between is reported as a success with a reason for its failure. *)
Example cancelled_request_succeeds :
  let cfg := run receipts start
    [Start (Advance HeadAdmitted); Finish 0; Start (CommitResponse 200); Finish 1; Start CompleteSuccess; Run 2;
     Start (Cancel Shutdown); Finish 3; Finish 2] in
  map (fun r => (receipt_outcome r, receipt_reason r, final_state r)) (sink (shared cfg)) = [(Success, Some Shutdown, Closed)].
Proof. by vm_compute. Qed.

(** A second drain closes the scope, and its receipt is handed over, while the first
    has yet to run the cleanups. *)
Example closed_before_cleanups :
  let s := shared (run receipts start
    [Start (Advance HeadAdmitted); Finish 0; Start (CommitResponse 200); Finish 1; Start (RegisterCleanup quiet); Finish 2;
     Start DrainAndClose; Start DrainAndClose; Run 3; Run 3; Run 3; Run 3; Finish 4]) in
  (state s, length (sink s), ran (cleanups s)) = (Closed, 1%nat, []).
Proof. by vm_compute. Qed.

(** Cleanups run last in, first out. *)
Example cleanups_are_lifo :
  ran (cleanups (shared (run receipts start
    [Start (Reject (mkDiagnostic "PLG" "refused")); Finish 0; Start (RegisterCleanup quiet); Finish 1;
     Start (RegisterCleanup failing); Finish 2; Start DrainAndClose; Finish 3]))) = [failing; quiet].
Proof. by vm_compute. Qed.

End ScopeSample.

Import ScopeSample.

Lemma request_moves_forward_witness :
  forward (shared half_cfg) (shared served_cfg) /\ state (shared half_cfg) = ResponseCommitted /\ state (shared served_cfg) = Closed.
Proof.
  split; [exact (proj1 (request_moves_forward receipts half_cfg served_cfg half_reachable half_served))|by vm_compute].
Defined.

Lemma scope_within_limits_witness :
  admitted (shared served_cfg) = 1000 /\ admitted (shared served_cfg) <= max_response_bytes (limits (fixed (shared served_cfg))).
Proof.
  split; [by vm_compute|].
  refine (proj2 (proj2 (scope_within_limits receipts served_cfg served_reachable)) _).
  by vm_compute.
Defined.

Lemma cleanups_run_exactly_once_witness :
  ran (cleanups (shared served_cfg)) ≡ₚ registered (cleanups (shared served_cfg)) /\
  registered (cleanups (shared served_cfg)) = [quiet; failing] /\ length (sink (shared served_cfg)) = 1%nat.
Proof.
  assert (Hf : finished served_cfg) by (unfold finished; vm_compute; repeat constructor).
  assert (Hd : draining (state (shared served_cfg)) = true) by by vm_compute.
  pose proof (proj2 (cleanups_run_exactly_once receipts served_cfg served_reachable) Hf Hd) as H.
  split; [exact (proj1 (proj2 H))|]. split; [by vm_compute|].
  refine (proj2 (proj2 (proj2 (proj2 H))) _). by vm_compute.
Defined.
