(* ===== verification/Hyphae.v ===== *)
(** * Hyphae: the wire contract of durable synchronisation.

    Models [crates/pliego-hyphae/src/lib.rs] up to replay: the validators of
    identifiers, timestamps and signatures; [StreamCursor], [EventEnvelope],
    [AppendBatch], [Receipt] and their digests; the bytes the authority signs; and
    the checks of an append response or a pull page against the request it answers.

    A hasher is the bytes it has been fed; [Vec<u8>] targets of [append_field] are
    the bytes so far. [serde_json] decides the syntax of payloads ([SerdeJson]). *)

From S2P Require Import Prelude Decimal Json Log Catalog Pattern.

(** ** Constants *)

Definition PROTOCOL_V2 : string := "pliego-hyphae/2".
Definition RECEIPT_DOMAIN : string := "pliego-hyphae/2/receipt".
Definition PAGE_DOMAIN : string := "pliego-hyphae/2/page".
Definition APPEND_DOMAIN : string := "pliego-hyphae/2/append".
Definition APP_KIND_PREFIX : string := "app_".
Definition MAX_BATCH_EVENTS : N := 128.
Definition MAX_EVENT_PAYLOAD_BYTES : N := 64 * 1024.
Definition MAX_BATCH_PAYLOAD_BYTES : N := 512 * 1024.
Definition MAX_CAUSAL_PARENTS : N := 16.
Definition MAX_PULL_EVENTS : N := 256.
Definition EMPTY_STREAM_HASH : string := "0000000000000000000000000000000000000000000000000000000000000000".

Record ValidationError : Type := Invalid { field : string; reason : string }.

(** A check that refuses [c] with an error. *)
Definition refuse_if {E} (c : bool) (e : E) : result E unit := if c then Err e else Ok tt.

(** [u64::try_from] and [u32::try_from] of a [usize]. *)
Definition try_u64 {E} (e : E) (n : N) : result E N := if n <=? u64_max then Ok n else Err e.
Definition try_u32 {E} (e : E) (n : N) : result E N := if n <=? u32_max then Ok n else Err e.

(** ** Validators *)

Definition ensure_protocol (protocol : string) : result ValidationError unit :=
  refuse_if (negb (String.eqb protocol PROTOCOL_V2)) (Invalid "protocol" "unsupported version").

Definition is_lower_hex (c : ascii) : bool := is_ascii_digit c || in_range "a" "f" c.

Definition is_hex_hash (value : string) : bool := (slen value =? 64) && string_all is_lower_hex value.

Definition validate_hash (value : string) : result ValidationError unit :=
  refuse_if (negb (is_hex_hash value)) (Invalid "hash" "expected 64 lowercase hexadecimal characters").

Definition uuid_char (index : nat) (c : ascii) : bool :=
  if bool_decide (index ∈ [8; 13; 18; 23]%nat) then Ascii.eqb c "-" else is_lower_hex c.

Definition validate_uuid_v7 (fld value : string) : result ValidationError unit :=
  let bs := String.list_ascii_of_string value in
  let shape := (blen bs =? 36) && forallb id (list.imap uuid_char bs) in
  refuse_if
    (negb shape || negb (bool_decide (bs !! 14%nat = Some "7"%char))
     || negb (bool_decide (bs !! 19%nat ∈ [Some "8"; Some "9"; Some "a"; Some "b"]%char)))
    (Invalid fld "expected canonical lowercase UUIDv7").

Definition validate_client_event_id : string -> result ValidationError unit := validate_uuid_v7 "client_event_id".
Definition validate_batch_id : string -> result ValidationError unit := validate_uuid_v7 "batch_id".

(** [str::ends_with] of a character. *)
Definition ends_with_char (c : ascii) (s : string) : bool :=
  bool_decide (list.last (String.list_ascii_of_string s) = Some c).

Definition is_stream_char (c : ascii) : bool :=
  is_ascii_alphanumeric c || char_in ["-"; "_"; "."; ":"; "/"]%char c.

Definition validate_stream_id (value : string) : result ValidationError unit :=
  refuse_if
    (negb (negb (slen value =? 0) && (slen value <=? 128) && string_all is_stream_char value
           && negb (starts_with "/" value) && negb (ends_with_char "/" value)
           && forallb (fun segment => negb (String.eqb segment "") && negb (String.eqb segment ".")
                                      && negb (String.eqb segment "..")) (split_on "/" value)))
    (Invalid "stream_id" "expected 1..128 safe ASCII characters without traversal segments").

Definition is_token_char (c : ascii) : bool :=
  is_ascii_alphanumeric c || char_in ["-"; "_"; "."; ":"]%char c.

Definition validate_authority_id (value : string) : result ValidationError unit :=
  refuse_if (negb ((1 <=? slen value) && (slen value <=? 96) && string_all is_token_char value))
    (Invalid "authority_id" "expected a safe ASCII authority token").

Definition validate_kind (value : string) : result ValidationError unit :=
  let suffix := default EmptyString (strip_prefix APP_KIND_PREFIX value) in
  refuse_if
    (negb (negb (String.eqb suffix "") && (slen value <=? 96)
           && negb (starts_with "_" suffix) && negb (ends_with_char "_" suffix)
           && string_all (fun c => is_ascii_lowercase c || is_ascii_digit c || Ascii.eqb c "_") suffix))
    (Invalid "kind" "expected app_ followed by lowercase ASCII letters, digits, or underscores").

(** *** Timestamps *)

Fixpoint digits_value (bs : list ascii) (value : N) : option N :=
  match bs with
  | [] => Some value
  | b :: bs =>
      if negb (is_ascii_digit b) then None
      else if u32_max <? value * 10 then None
      else value ← checked_add_u32 (value * 10) (Ascii.N_of_ascii b - Ascii.N_of_ascii "0");
           digits_value bs value
  end.

(** [parse_digits]: [bytes.get(start..start + length)] and its value. *)
Definition parse_digits (bs : list ascii) (start length : nat) : option N :=
  if (start + length <=? List.length bs)%nat then digits_value (take length (drop start bs)) 0 else None.

Definition leap_year (year : N) : bool :=
  (year mod 4 =? 0) && (negb (year mod 100 =? 0) || (year mod 400 =? 0)).

Definition max_day (year month : N) : N :=
  if bool_decide (month ∈ [1; 3; 5; 7; 8; 10; 12]) then 31
  else if bool_decide (month ∈ [4; 6; 9; 11]) then 30
  else if month =? 2 then (if leap_year year then 29 else 28)
  else 0.

Definition plausible_leap_second (month day hour minute second : N) : bool :=
  (second =? 60) && (hour =? 23) && (minute =? 59)
  && (((month =? 6) && (day =? 30)) || ((month =? 12) && (day =? 31))).

(** The number of leading digits. *)
Fixpoint digit_run (bs : list ascii) : nat :=
  match bs with
  | b :: bs => if is_ascii_digit b then S (digit_run bs) else 0
  | [] => 0
  end.

Definition valid_zone (bs : list ascii) (zone : nat) : bool :=
  match bs !! zone with
  | Some c =>
      if char_in ["Z"; "z"]%char c then (zone + 1 =? length bs)%nat
      else if char_in ["+"; "-"]%char c then
        (zone + 6 =? length bs)%nat && bool_decide (bs !! (zone + 3)%nat = Some ":"%char)
        && match parse_digits bs (zone + 1) 2 with Some v => v <=? 23 | None => false end
        && match parse_digits bs (zone + 4) 2 with Some v => v <=? 59 | None => false end
      else false
  | None => false
  end.

Definition invalid_timestamp (reason : string) : ValidationError := Invalid "timestamp" reason.

Definition timestamp_shape (value : string) : bool :=
  let bs := String.list_ascii_of_string value in
  (20 <=? blen bs) && (blen bs <=? 64) && forallb (fun c => Ascii.N_of_ascii c <? 128) bs
  && bool_decide (bs !! 4%nat = Some "-"%char) && bool_decide (bs !! 7%nat = Some "-"%char)
  && bool_decide (bs !! 10%nat ∈ [Some "T"; Some "t"]%char)
  && bool_decide (bs !! 13%nat = Some ":"%char) && bool_decide (bs !! 16%nat = Some ":"%char).

Definition fraction_end (bs : list ascii) : result ValidationError nat :=
  if bool_decide (bs !! 19%nat = Some "."%char) then
    let run := digit_run (drop 20 bs) in
    if (run =? 0)%nat then Err (invalid_timestamp "RFC3339 fractional seconds cannot be empty") else Ok (20 + run)%nat
  else Ok 19%nat.

Definition validate_timestamp (value : string) : result ValidationError unit :=
  let bs := String.list_ascii_of_string value in
  fail_if negb (timestamp_shape value) with invalid_timestamp "expected a valid bounded RFC3339 timestamp" ;;
  year ← ok_or (invalid_timestamp "invalid RFC3339 year") (parse_digits bs 0 4);
  month ← ok_or (invalid_timestamp "invalid RFC3339 month") (parse_digits bs 5 2);
  day ← ok_or (invalid_timestamp "invalid RFC3339 day") (parse_digits bs 8 2);
  hour ← ok_or (invalid_timestamp "invalid RFC3339 hour") (parse_digits bs 11 2);
  minute ← ok_or (invalid_timestamp "invalid RFC3339 minute") (parse_digits bs 14 2);
  second ← ok_or (invalid_timestamp "invalid RFC3339 second") (parse_digits bs 17 2);
  fail_if (day =? 0) || (max_day year month <? day) || (23 <? hour) || (59 <? minute)
          || ((59 <? second) && negb (plausible_leap_second month day hour minute second))
    with invalid_timestamp "RFC3339 date or time component is out of range" ;;
  zone ← fraction_end bs;
  refuse_if (negb (valid_zone bs zone)) (invalid_timestamp "expected a valid bounded RFC3339 timestamp").

(** *** Signatures and keys *)

Fixpoint drop_leading (c : ascii) (l : list ascii) : list ascii :=
  match l with
  | d :: l' => if Ascii.eqb c d then drop_leading c l' else l
  | [] => []
  end.

(** [trim_end_matches] of a character. *)
Definition trim_end_char (c : ascii) (l : list ascii) : list ascii := rev (drop_leading c (rev l)).

Definition padding_is_canonical (core value : N) : bool :=
  match value - core with
  | 0 => negb (core mod 4 =? 1)
  | 1 => (core mod 4 =? 3) && (value mod 4 =? 0)
  | 2 => (core mod 4 =? 2) && (value mod 4 =? 0)
  | _ => false
  end.

Definition validate_signature (value : string) : result ValidationError unit :=
  let core := trim_end_char "=" (String.list_ascii_of_string value) in
  refuse_if
    (negb ((16 <=? slen value) && (slen value <=? 512) && padding_is_canonical (blen core) (slen value)
           && forallb (fun c => is_ascii_alphanumeric c || char_in ["-"; "_"]%char c) core))
    (Invalid "signature" "expected bounded base64url data").

Definition validate_key_id (value : string) : result ValidationError unit :=
  refuse_if (negb ((1 <=? slen value) && (slen value <=? 96) && string_all is_token_char value))
    (Invalid "key_id" "expected a safe ASCII token").

Definition durable_kind (local_kind : string) : string :=
  if starts_with APP_KIND_PREFIX local_kind then local_kind else (APP_KIND_PREFIX ++ local_kind)%string.

(** ** Data *)

Record StreamCursor : Type := mkCursor { position : N; head_hash : string }.

Record EventEnvelope : Type := mkEnvelope {
  env_protocol : string; env_client_event_id : string; env_stream_id : string; env_schema_version : N;
  env_kind : string; env_payload : string; env_local_seq : N; env_local_prev_hash : string;
  env_local_hash : string; env_causal_parents : list string; env_created_at : string }.

(** [AuthorityId]: a private string that passed [validate_authority_id]. *)
Record AuthorityId : Type := mkAuthority { authority_str : string }.

Record AppendBatch : Type := mkBatch {
  batch_protocol : string; batch_id : string; batch_stream_id : string;
  batch_expected_cursor : StreamCursor; batch_events : list EventEnvelope }.

Record Receipt : Type := mkReceipt {
  rc_client_event_id : string; rc_stream_id : string; rc_envelope_hash : string; rc_server_seq : N;
  rc_server_hash : string; rc_server_prev_hash : string; rc_journal_head : string;
  rc_committed_at : string; rc_key_id : string; rc_signature : string }.

Record AcceptedEvent : Type := mkAccepted { envelope : EventEnvelope; receipt : Receipt }.

Record AppendAttestation : Type := mkAppendAttestation {
  aa_authority_id : AuthorityId; aa_committed_at : string; aa_key_id : string; aa_signature : string }.

Record AppendResponse : Type := mkResponse {
  resp_protocol : string; resp_batch_id : string; resp_stream_id : string; resp_receipts : list Receipt;
  resp_next_cursor : StreamCursor; resp_attestation : AppendAttestation }.

Inductive PullSelection : Type := WholeStream.

Inductive SnapshotSelection : Type :=
| Latest
| Exact (cursor : StreamCursor).

Record PullRequest : Type := mkRequest {
  req_protocol : string; req_request_id : string; req_stream_id : string; req_after : StreamCursor;
  req_snapshot : SnapshotSelection; req_selection : PullSelection; req_limit : N }.

Record PageAttestation : Type := mkPageAttestation {
  pa_authority_id : AuthorityId; pa_issued_at : string; pa_key_id : string; pa_signature : string }.

Record PullPage : Type := mkPage {
  page_protocol : string; page_stream_id : string; page_events : list AcceptedEvent;
  page_next_cursor : StreamCursor; page_snapshot_cursor : StreamCursor; page_complete : bool;
  page_attestation : PageAttestation }.

#[export] Instance ValidationError_eq_dec : EqDecision ValidationError.
Proof. solve_decision. Defined.
#[export] Instance StreamCursor_eq_dec : EqDecision StreamCursor.
Proof. solve_decision. Defined.
#[export] Instance EventEnvelope_eq_dec : EqDecision EventEnvelope.
Proof. solve_decision. Defined.
#[export] Instance AuthorityId_eq_dec : EqDecision AuthorityId.
Proof. solve_decision. Defined.
#[export] Instance Receipt_eq_dec : EqDecision Receipt.
Proof. solve_decision. Defined.

Definition authority_try_new (value : string) : result ValidationError AuthorityId :=
  _ ← validate_authority_id value;
  Ok (mkAuthority value).

(** ** Cursors *)

Definition genesis : StreamCursor := mkCursor 0 EMPTY_STREAM_HASH.

Definition validate_cursor (c : StreamCursor) : result ValidationError unit :=
  _ ← validate_hash (head_hash c);
  refuse_if (negb (Bool.eqb (position c =? 0) (String.eqb (head_hash c) EMPTY_STREAM_HASH)))
    (Invalid "cursor" "position zero and the empty-stream hash must occur together").

(** ** Length-prefixed fields *)

Definition hash_field (hasher : bytes) (value : string) : result ValidationError bytes :=
  length ← try_u32 (Invalid "envelope" "field length overflow") (slen value);
  Ok (hasher ++ be_bytes 4 length ++ as_bytes value).

Definition hash_bytes (hasher value : bytes) : result ValidationError bytes :=
  length ← try_u32 (Invalid "signature_payload" "field length overflow") (blen value);
  Ok (hasher ++ be_bytes 4 length ++ value).

Definition append_field (target : bytes) (value : string) : result ValidationError bytes :=
  length ← try_u32 (Invalid "signature_payload" "field length overflow") (slen value);
  Ok (target ++ be_bytes 4 length ++ as_bytes value).

(** [for field in [...] { f(&mut target, field)?; }] *)
Fixpoint each_field (f : bytes -> string -> result ValidationError bytes) (target : bytes) (fields : list string)
    : result ValidationError bytes :=
  match fields with
  | [] => Ok target
  | value :: fields => target ← f target value; each_field f target fields
  end.

Definition append_cursor (target : bytes) (c : StreamCursor) : result ValidationError bytes :=
  _ ← validate_cursor c;
  append_field (target ++ be_bytes 8 (position c)) (head_hash c).

(** ** Envelopes *)

Section wire.
Context `{SerdeJson, Sha256}.

Fixpoint parents_loop (client_event_id : string) (parents : gset string) (causal_parents : list string)
    : result ValidationError unit :=
  match causal_parents with
  | [] => Ok tt
  | parent :: rest =>
      _ ← validate_client_event_id parent;
      fail_if String.eqb parent client_event_id || bool_decide (parent ∈ parents)
        with Invalid "causal_parents" "self-reference or duplicate parent" ;;
      parents_loop client_event_id ({[parent]} ∪ parents) rest
  end.

Definition validate_envelope (e : EventEnvelope) : result ValidationError unit :=
  _ ← ensure_protocol (env_protocol e);
  _ ← validate_client_event_id (env_client_event_id e);
  _ ← validate_stream_id (env_stream_id e);
  fail_if env_schema_version e =? 0 with Invalid "schema_version" "must be greater than zero" ;;
  _ ← validate_kind (env_kind e);
  fail_if MAX_EVENT_PAYLOAD_BYTES <? slen (env_payload e) with Invalid "payload" "event limit exceeded" ;;
  _ ← map_err (fun _ => Invalid "payload" "expected valid JSON") (value_from_slice (as_bytes (env_payload e)));
  _ ← validate_hash (env_local_prev_hash e);
  _ ← validate_hash (env_local_hash e);
  fail_if MAX_CAUSAL_PARENTS <? blen (env_causal_parents e) with Invalid "causal_parents" "parent limit exceeded" ;;
  _ ← parents_loop (env_client_event_id e) ∅ (env_causal_parents e);
  validate_timestamp (env_created_at e).

Definition from_local_event (event : Event) (client_event_id stream_id created_at : string)
    : result ValidationError EventEnvelope :=
  let e := mkEnvelope PROTOCOL_V2 client_event_id stream_id (schema_version event) (kind event)
             (String.string_of_list_byte (canonical_bytes (payload event))) (seq event)
             (hex (prev_hash event)) (hex (hash event)) [] created_at in
  _ ← validate_envelope e;
  Ok e.

(** What [wire_hash] feeds to the hasher. *)
Definition wire_preimage (e : EventEnvelope) : result ValidationError bytes :=
  h ← each_field hash_field [] [env_protocol e; env_client_event_id e; env_stream_id e];
  h ← each_field hash_field (h ++ be_bytes 4 (env_schema_version e)) [env_kind e; env_payload e];
  h ← each_field hash_field (h ++ be_bytes 8 (env_local_seq e)) [env_local_prev_hash e; env_local_hash e];
  parent_count ← try_u32 (Invalid "causal_parents" "count overflow") (blen (env_causal_parents e));
  h ← each_field hash_field (h ++ be_bytes 4 parent_count) (env_causal_parents e);
  hash_field h (env_created_at e).

Definition wire_hash (e : EventEnvelope) : result ValidationError string :=
  _ ← validate_envelope e;
  preimage ← wire_preimage e;
  Ok (hex (sha256 preimage)).

(** ** Batches *)

Definition links (prior event : EventEnvelope) : result ValidationError unit :=
  expected_seq ← ok_or (Invalid "local_seq" "sequence number overflow") (checked_add_u64 (env_local_seq prior) 1);
  refuse_if (negb (env_local_seq event =? expected_seq)
             || negb (String.eqb (env_local_prev_hash event) (env_local_hash prior)))
    (Invalid "events" "local sequence or hash link is not contiguous").

Fixpoint batch_loop (stream : string) (total_payload : N) (ids : gset string) (previous : option EventEnvelope)
    (events : list EventEnvelope) : result ValidationError unit :=
  match events with
  | [] => Ok tt
  | event :: rest =>
      _ ← validate_envelope event;
      fail_if negb (String.eqb (env_stream_id event) stream) with Invalid "stream_id" "event and batch streams differ" ;;
      fail_if bool_decide (env_client_event_id event ∈ ids) with Invalid "client_event_id" "duplicate inside batch" ;;
      total ← ok_or (Invalid "payload" "batch size overflow") (checked_add_u64 total_payload (slen (env_payload event)));
      fail_if MAX_BATCH_PAYLOAD_BYTES <? total with Invalid "payload" "aggregate batch limit exceeded" ;;
      _ ← match previous with Some prior => links prior event | None => Ok tt end;
      batch_loop stream total ({[env_client_event_id event]} ∪ ids) (Some event) rest
  end.

Definition validate_batch (b : AppendBatch) : result ValidationError unit :=
  _ ← ensure_protocol (batch_protocol b);
  _ ← validate_batch_id (batch_id b);
  _ ← validate_stream_id (batch_stream_id b);
  _ ← validate_cursor (batch_expected_cursor b);
  fail_if (blen (batch_events b) =? 0) || (MAX_BATCH_EVENTS <? blen (batch_events b))
    with Invalid "events" "batch must contain 1..128 events" ;;
  batch_loop (batch_stream_id b) 0 ∅ None (batch_events b).

(** ** Receipts *)

Definition validate_receipt (r : Receipt) : result ValidationError unit :=
  _ ← validate_client_event_id (rc_client_event_id r);
  _ ← validate_stream_id (rc_stream_id r);
  _ ← validate_hash (rc_envelope_hash r);
  fail_if rc_server_seq r =? 0 with Invalid "server_seq" "must be one-based" ;;
  _ ← validate_hash (rc_server_hash r);
  _ ← validate_hash (rc_server_prev_hash r);
  _ ← validate_hash (rc_journal_head r);
  fail_if String.eqb (rc_server_hash r) EMPTY_STREAM_HASH || String.eqb (rc_server_hash r) (rc_server_prev_hash r)
    with Invalid "server_hash" "durable entry hash must advance from a non-entry sentinel" ;;
  fail_if String.eqb (rc_journal_head r) EMPTY_STREAM_HASH || String.eqb (rc_journal_head r) (rc_server_prev_hash r)
    with Invalid "journal_head" "durable journal head must include the accepted entry" ;;
  _ ← validate_timestamp (rc_committed_at r);
  _ ← validate_key_id (rc_key_id r);
  validate_signature (rc_signature r).

Definition receipt_payload (r : Receipt) : result ValidationError bytes :=
  _ ← validate_receipt r;
  p ← each_field append_field []
        [RECEIPT_DOMAIN; PROTOCOL_V2; rc_client_event_id r; rc_stream_id r; rc_envelope_hash r];
  each_field append_field (p ++ be_bytes 8 (rc_server_seq r))
    [rc_server_hash r; rc_server_prev_hash r; rc_journal_head r; rc_committed_at r; rc_key_id r].

Fixpoint accepted_loop (hasher : bytes) (events : list AcceptedEvent) : result ValidationError bytes :=
  match events with
  | [] => Ok hasher
  | accepted :: rest =>
      wire ← wire_hash (envelope accepted);
      hasher ← hash_field hasher wire;
      signed ← receipt_payload (receipt accepted);
      hasher ← hash_bytes hasher signed;
      hasher ← hash_field hasher (rc_signature (receipt accepted));
      accepted_loop hasher rest
  end.

(** What [accepted_events_hash] feeds to the hasher. *)
Definition accepted_preimage (events : list AcceptedEvent) : result ValidationError bytes :=
  hasher ← hash_field [] "pliego-hyphae/2/accepted-events";
  count ← try_u64 (Invalid "events" "count overflow") (blen events);
  accepted_loop (hasher ++ be_bytes 8 count) events.

Definition accepted_events_hash (events : list AcceptedEvent) : result ValidationError string :=
  preimage ← accepted_preimage events;
  Ok (hex (sha256 preimage)).

(** ** Append responses *)

Definition append_events_hash (events : list EventEnvelope) (receipts : list Receipt) : result ValidationError string :=
  fail_if negb (length events =? length receipts)%nat with Invalid "receipts" "cardinality mismatch" ;;
  accepted_events_hash (zip_with mkAccepted events receipts).

Definition validate_append_attestation (a : AppendAttestation) : result ValidationError unit :=
  _ ← validate_authority_id (authority_str (aa_authority_id a));
  _ ← validate_timestamp (aa_committed_at a);
  _ ← validate_key_id (aa_key_id a);
  validate_signature (aa_signature a).

Definition append_payload (a : AppendAttestation) (batch : AppendBatch) (response : AppendResponse)
    : result ValidationError bytes :=
  _ ← validate_append_attestation a;
  _ ← validate_batch batch;
  p ← each_field append_field []
        [APPEND_DOMAIN; PROTOCOL_V2; authority_str (aa_authority_id a); batch_id batch; batch_stream_id batch];
  p ← append_cursor p (batch_expected_cursor batch);
  p ← append_cursor p (resp_next_cursor response);
  count ← try_u64 (Invalid "events" "count overflow") (blen (batch_events batch));
  set_hash ← append_events_hash (batch_events batch) (resp_receipts response);
  p ← append_field (p ++ be_bytes 8 count) set_hash;
  p ← append_field p (aa_committed_at a);
  append_field p (aa_key_id a).

(** [cursor.position.checked_add(offset).and_then(|p| p.checked_add(1))] *)
Definition position_after (c : StreamCursor) (offset : N) : option N :=
  p ← checked_add_u64 (position c) offset;
  checked_add_u64 p 1.

(** The hash entry [index] of a durable chain after [c] must name as its parent. *)
Definition expected_prev (c : StreamCursor) (hashes : list string) (index : N) : string :=
  if index =? 0 then head_hash c else default EmptyString (hashes !! N.to_nat (index - 1)).

Fixpoint response_loop (batch : AppendBatch) (receipts : list Receipt) (index : N)
    (pairs : list (EventEnvelope * Receipt)) : result ValidationError unit :=
  match pairs with
  | [] => Ok tt
  | (event, r) :: rest =>
      _ ← validate_receipt r;
      let mismatch := Invalid "receipts" "event identity or stream mismatch" in
      fail_if negb (String.eqb (rc_client_event_id r) (env_client_event_id event))
              || negb (String.eqb (rc_stream_id r) (batch_stream_id batch)) with mismatch ;;
      wire ← wire_hash event;
      fail_if negb (String.eqb (rc_envelope_hash r) wire) with mismatch ;;
      offset ← try_u64 (Invalid "receipts" "index overflow") index;
      expected_seq ← ok_or (Invalid "server_seq" "sequence overflow") (position_after (batch_expected_cursor batch) offset);
      fail_if negb (rc_server_seq r =? expected_seq) with Invalid "server_seq" "receipt sequence is not contiguous" ;;
      fail_if negb (String.eqb (rc_server_prev_hash r)
                      (expected_prev (batch_expected_cursor batch) (rc_server_hash <$> receipts) index))
        with Invalid "receipts" "durable hash link mismatch" ;;
      response_loop batch receipts (index + 1) rest
  end.

Definition validate_response (response : AppendResponse) (batch : AppendBatch) : result ValidationError unit :=
  _ ← validate_batch batch;
  _ ← ensure_protocol (resp_protocol response);
  fail_if negb (String.eqb (resp_batch_id response) (batch_id batch)) with Invalid "batch_id" "response mismatch" ;;
  fail_if negb (String.eqb (resp_stream_id response) (batch_stream_id batch)) with Invalid "stream_id" "response mismatch" ;;
  fail_if negb (length (resp_receipts response) =? length (batch_events batch))%nat
    with Invalid "receipts" "response cardinality mismatch" ;;
  _ ← validate_cursor (resp_next_cursor response);
  _ ← validate_append_attestation (resp_attestation response);
  _ ← response_loop batch (resp_receipts response) 0 (zip (batch_events batch) (resp_receipts response));
  last ← ok_or (Invalid "receipts" "empty response") (list.last (resp_receipts response));
  appended ← try_u64 (Invalid "events" "count overflow") (blen (batch_events batch));
  next_position ← ok_or (Invalid "next_cursor" "position overflow")
                    (checked_add_u64 (position (batch_expected_cursor batch)) appended);
  let head := head_hash (resp_next_cursor response) in
  refuse_if
    (negb (position (resp_next_cursor response) =? next_position)
     || negb (String.eqb head (rc_server_hash last))
     || negb (String.eqb (rc_journal_head last) head)
     || existsb (fun r => negb (String.eqb (rc_journal_head r) head)) (resp_receipts response))
    (Invalid "next_cursor" "atomic append cursor or journal head mismatch").

(** ** Pull requests and pages *)

Definition validate_request (r : PullRequest) : result ValidationError unit :=
  _ ← ensure_protocol (req_protocol r);
  _ ← validate_uuid_v7 "request_id" (req_request_id r);
  _ ← validate_stream_id (req_stream_id r);
  _ ← validate_cursor (req_after r);
  _ ← match req_snapshot r with
      | Exact snapshot =>
          _ ← validate_cursor snapshot;
          refuse_if
            ((position snapshot <? position (req_after r))
             || ((position snapshot =? position (req_after r))
                 && negb (String.eqb (head_hash snapshot) (head_hash (req_after r)))))
            (Invalid "snapshot" "exact snapshot precedes or forks from request cursor")
      | Latest => Ok tt
      end;
  refuse_if ((req_limit r =? 0) || (MAX_PULL_EVENTS <? req_limit r)) (Invalid "limit" "must be in 1..=256").

Definition validate_page_attestation (a : PageAttestation) : result ValidationError unit :=
  _ ← validate_authority_id (authority_str (pa_authority_id a));
  _ ← validate_timestamp (pa_issued_at a);
  _ ← validate_key_id (pa_key_id a);
  validate_signature (pa_signature a).

Definition append_snapshot (p : bytes) (s : SnapshotSelection) : result ValidationError bytes :=
  match s with
  | Latest => append_field p "latest"
  | Exact c => p ← append_field p "exact"; append_cursor p c
  end.

Definition append_selection (p : bytes) (s : PullSelection) : result ValidationError bytes :=
  match s with WholeStream => append_field p "whole_stream" end.

Definition page_payload (a : PageAttestation) (request : PullRequest) (page : PullPage)
    : result ValidationError bytes :=
  _ ← validate_page_attestation a;
  _ ← validate_request request;
  p ← each_field append_field []
        [PAGE_DOMAIN; PROTOCOL_V2; authority_str (pa_authority_id a); req_request_id request; req_stream_id request];
  p ← append_cursor p (req_after request);
  p ← append_snapshot p (req_snapshot request);
  p ← append_selection p (req_selection request);
  p ← append_cursor (p ++ be_bytes 2 (req_limit request)) (page_next_cursor page);
  p ← append_cursor p (page_snapshot_cursor page);
  let p := p ++ [byte_of (if page_complete page then 1 else 0)] in
  count ← try_u64 (Invalid "events" "count overflow") (blen (page_events page));
  set_hash ← accepted_events_hash (page_events page);
  p ← append_field (p ++ be_bytes 8 count) set_hash;
  p ← append_field p (pa_issued_at a);
  append_field p (pa_key_id a).

Fixpoint page_loop (page : PullPage) (after : StreamCursor) (ids : gset string) (index : N)
    (events : list AcceptedEvent) : result ValidationError unit :=
  match events with
  | [] => Ok tt
  | mkAccepted e r :: rest =>
      _ ← validate_envelope e;
      _ ← validate_receipt r;
      let mismatch := Invalid "events" "pull identity or stream mismatch" in
      fail_if negb (String.eqb (env_stream_id e) (page_stream_id page))
              || negb (String.eqb (rc_stream_id r) (page_stream_id page))
              || negb (String.eqb (env_client_event_id e) (rc_client_event_id r)) with mismatch ;;
      wire ← wire_hash e;
      fail_if negb (String.eqb (rc_envelope_hash r) wire) with mismatch ;;
      fail_if bool_decide (env_client_event_id e ∈ ids) with Invalid "client_event_id" "duplicate inside pull page" ;;
      offset ← try_u64 (Invalid "events" "index overflow") index;
      expected_seq ← ok_or (Invalid "server_seq" "sequence overflow") (position_after after offset);
      fail_if negb (rc_server_seq r =? expected_seq) with Invalid "server_seq" "pull sequence is not contiguous" ;;
      fail_if negb (String.eqb (rc_server_prev_hash r)
                      (expected_prev after ((fun a => rc_server_hash (receipt a)) <$> page_events page) index))
        with Invalid "receipts" "pull hash chain is discontinuous" ;;
      page_loop page after ({[env_client_event_id e]} ∪ ids) (index + 1) rest
  end.

Definition validate_page (page : PullPage) (request : PullRequest) : result ValidationError unit :=
  _ ← validate_request request;
  _ ← ensure_protocol (page_protocol page);
  let next := page_next_cursor page in
  let snapshot := page_snapshot_cursor page in
  fail_if negb (String.eqb (page_stream_id page) (req_stream_id request))
    with Invalid "stream_id" "pull response mismatch" ;;
  fail_if req_limit request <? blen (page_events page) with Invalid "events" "pull limit exceeded" ;;
  _ ← validate_cursor next;
  _ ← validate_cursor snapshot;
  _ ← validate_page_attestation (page_attestation page);
  fail_if position snapshot <? position (req_after request) with Invalid "snapshot_cursor" "snapshot regressed" ;;
  _ ← match req_snapshot request with
      | Exact expected =>
          refuse_if (negb (bool_decide (snapshot = expected)))
            (Invalid "snapshot_cursor" "response changed fixed snapshot")
      | Latest => Ok tt
      end;
  fail_if position snapshot <? position next with Invalid "next_cursor" "page advanced beyond fixed snapshot" ;;
  fail_if (position next =? position snapshot) && negb (String.eqb (head_hash next) (head_hash snapshot))
    with Invalid "snapshot_cursor" "same snapshot position has a different durable head" ;;
  _ ← page_loop page (req_after request) ∅ 0 (page_events page);
  count ← try_u64 (Invalid "events" "count overflow") (blen (page_events page));
  expected_position ← ok_or (Invalid "next_cursor" "position overflow")
                        (checked_add_u64 (position (req_after request)) count);
  fail_if negb (position next =? expected_position)
    with Invalid "next_cursor" "position does not match returned page" ;;
  _ ← match list.last (page_events page) with
      | Some last =>
          refuse_if (negb (String.eqb (head_hash next) (rc_server_hash (receipt last))))
            (Invalid "next_cursor" "head does not match final durable entry")
      | None =>
          refuse_if (negb (bool_decide (next = req_after request)))
            (Invalid "next_cursor" "empty page changed request cursor")
      end;
  fail_if negb (Bool.eqb (page_complete page) (bool_decide (next = snapshot)))
    with Invalid "complete" "must exactly reflect next cursor reaching fixed snapshot" ;;
  refuse_if (negb (page_complete page) && bool_decide (page_events page = []))
    (Invalid "complete" "an incomplete page must advance").
End wire.
