(* ===== verification/HyphaeReplay.v ===== *)
(** * HyphaeReplay: verification, retry and replay of synchronised events.

    Models the rest of [crates/pliego-hyphae/src/lib.rs]: [ReceiptVerifier] and
    the verification of responses and pages, [append_with_retry], [ReplayState]
    with [VerifiedPullPage::apply], and the legacy acknowledgements.

    The traits an application implements are arguments: the verifier and the event
    policy are functions ([&self]); a transport and a sink are functions of a state
    of their own ([&mut self]) that return its successor. *)

From S2P Require Import Prelude Decimal Json Log Catalog Pattern Hyphae.

Definition MAX_REPLAY_ANCHORS : N := MAX_PULL_EVENTS * 4 + 1.
Definition MAX_LEGACY_ACKS : N := 1000000.

(** ** Verification *)

Inductive SignaturePurpose : Type := ReceiptPurpose | AppendPurpose | PagePurpose.

Record VerificationContext : Type := mkContext {
  ctx_purpose : SignaturePurpose; ctx_claimed_authority : option AuthorityId;
  ctx_stream_id : string; ctx_signed_at : string; ctx_key_id : string }.

Inductive VerificationError : Type :=
| UnknownKey
| RevokedKey
| UnauthorizedStream
| InvalidSignature
| Unavailable (message : string)
| AuthorityMismatch.

(** [ReceiptVerifier::verify]. *)
Definition Verifier : Type := VerificationContext -> bytes -> string -> result VerificationError AuthorityId.

Definition verify_as (verifier : Verifier) (context : VerificationContext) (signed : bytes) (signature : string)
    : result VerificationError AuthorityId :=
  authority ← verifier context signed signature;
  fail_if match ctx_claimed_authority context with
          | Some expected => negb (bool_decide (expected = authority))
          | None => false
          end with AuthorityMismatch ;;
  Ok authority.

Inductive TransportError : Type :=
| Retryable (message : string)
| CursorConflict (expected actual : StreamCursor)
| Rejected (message : string).

Record EventVersionError : Type := mkVersionError { ve_kind : string; ve_schema_version : N; ve_reason : string }.

Inductive SyncError : Type :=
| Validation (error : ValidationError)
| Transport (error : TransportError)
| Verification (error : VerificationError)
| EventVersion (error : EventVersionError)
| AttemptsExhausted
| Reducer (message : string).

(** [EventVersionPolicy::validate]. *)
Definition Policy : Type := string -> N -> result EventVersionError unit.

Record ValidatedAppendResponse : Type := mkValidatedResponse { va_batch : AppendBatch; va_response : AppendResponse }.
Record VerifiedAppendResponse : Type := mkVerifiedResponse { vr_response : AppendResponse; vr_authority : AuthorityId }.

Section verification.
Context `{SerdeJson, Sha256}.

(** One receipt under the authority of its enclosing attestation. *)
Definition verify_receipt (verifier : Verifier) (authority : AuthorityId) (r : Receipt) : result SyncError unit :=
  signed ← map_err Validation (receipt_payload r);
  receipt_authority ← map_err Verification
    (verify_as verifier
       (mkContext ReceiptPurpose (Some authority) (rc_stream_id r) (rc_committed_at r) (rc_key_id r))
       signed (rc_signature r));
  refuse_if (negb (bool_decide (receipt_authority = authority))) (Verification AuthorityMismatch).

Fixpoint verify_receipts (verifier : Verifier) (authority : AuthorityId) (receipts : list Receipt)
    : result SyncError unit :=
  match receipts with
  | [] => Ok tt
  | r :: rest => _ ← verify_receipt verifier authority r; verify_receipts verifier authority rest
  end.

Definition verify_response (v : ValidatedAppendResponse) (verifier : Verifier) : result SyncError VerifiedAppendResponse :=
  let a := resp_attestation (va_response v) in
  signed ← map_err Validation (append_payload a (va_batch v) (va_response v));
  authority ← map_err Verification
    (verify_as verifier
       (mkContext AppendPurpose (Some (aa_authority_id a)) (batch_stream_id (va_batch v)) (aa_committed_at a) (aa_key_id a))
       signed (aa_signature a));
  _ ← verify_receipts verifier authority (resp_receipts (va_response v));
  Ok (mkVerifiedResponse (va_response v) authority).

(** ** Append with retry *)

Section append.
Context {T : Type} (append_batch : T -> AppendBatch -> T * result TransportError AppendResponse).

Fixpoint retry_loop (attempts : nat) (transport : T) (batch : AppendBatch)
    : T * result SyncError ValidatedAppendResponse :=
  match attempts with
  | O => (transport, Err AttemptsExhausted)
  | S attempts =>
      let '(transport, outcome) := append_batch transport batch in
      match outcome with
      | Ok response =>
          (transport,
           _ ← map_err Validation (validate_response response batch);
           Ok (mkValidatedResponse batch response))
      | Err (Retryable _) => retry_loop attempts transport batch
      | Err error => (transport, Err (Transport error))
      end
  end.

(** [max_attempts] is a [u8]. *)
Definition append_with_retry (transport : T) (batch : AppendBatch) (max_attempts : nat)
    : T * result SyncError ValidatedAppendResponse :=
  match validate_batch batch with
  | Err e => (transport, Err (Validation e))
  | Ok _ =>
      if (max_attempts =? 0)%nat then (transport, Err AttemptsExhausted)
      else retry_loop max_attempts transport batch
  end.
End append.

(** ** Event policy *)

Definition catalog_policy {E} (c : @SealedEventCatalog E) : Policy := fun k version =>
  refuse_if (negb (supports c k version))
    (mkVersionError k version "not admitted by the sealed application event catalog").

(** ** Replay state *)

Record ReplayAnchor : Type := mkAnchor { anchor_head_hash : string; event_identity : option (string * string) }.

Record ReplayState : Type := mkReplay {
  rs_stream_id : string; rs_authority : option AuthorityId; rs_cursor : StreamCursor;
  rs_snapshot : option StreamCursor; rs_anchors : gmap N ReplayAnchor }.

#[export] Instance ReplayAnchor_eq_dec : EqDecision ReplayAnchor.
Proof. solve_decision. Defined.

Definition replay_new (stream_id : string) : result ValidationError ReplayState :=
  _ ← validate_stream_id stream_id;
  Ok (mkReplay stream_id None genesis None {[0 := mkAnchor (head_hash genesis) None]}).

Definition dedupe_window_len (s : ReplayState) : N :=
  blen (base.filter (fun p : N * ReplayAnchor => is_Some (event_identity p.2)) (map_to_list (rs_anchors s))).

Definition preflight (s : ReplayState) (request : PullRequest) (page : PullPage) : result ValidationError unit :=
  let snapshot := page_snapshot_cursor page in
  fail_if negb (String.eqb (req_stream_id request) (rs_stream_id s))
          || negb (String.eqb (page_stream_id page) (rs_stream_id s))
    with Invalid "stream_id" "replay state mismatch" ;;
  fail_if position (rs_cursor s) <? position (req_after request)
    with Invalid "after" "request skips local replay state" ;;
  anchor ← ok_or (Invalid "after" "cursor falls outside bounded replay window")
             (rs_anchors s !! position (req_after request));
  fail_if negb (String.eqb (anchor_head_hash anchor) (head_hash (req_after request)))
    with Invalid "after" "cursor forks from replay state" ;;
  fail_if position snapshot <? position (rs_cursor s)
    with Invalid "snapshot_cursor" "snapshot regressed behind replay state" ;;
  fail_if (position snapshot =? position (rs_cursor s))
          && negb (String.eqb (head_hash snapshot) (head_hash (rs_cursor s)))
    with Invalid "snapshot_cursor" "snapshot forks at the current replay position" ;;
  match rs_snapshot s with
  | Some bound =>
      let cycle_active := negb (bool_decide (rs_cursor s = bound)) in
      let moved := negb (bool_decide (snapshot = bound)) in
      match req_snapshot request with
      | Exact _ => refuse_if moved (Invalid "snapshot_cursor" "exact snapshot differs from replay state")
      | Latest => refuse_if (cycle_active && moved) (Invalid "snapshot_cursor" "active pull cycle changed snapshot")
      end
  | None => Ok tt
  end.

(** [prune_anchors]; every round removes one anchor, so their number bounds the rounds. *)
Fixpoint prune_loop (rounds : nat) (current : N) (anchors : gmap N ReplayAnchor) : gmap N ReplayAnchor :=
  match rounds with
  | O => anchors
  | S rounds =>
      if N.of_nat (size anchors) <=? MAX_REPLAY_ANCHORS then anchors
      else match hd_error (btree_keys N.le anchors) with
           | None => anchors
           | Some oldest => if oldest =? current then anchors else prune_loop rounds current (delete oldest anchors)
           end
  end.

Definition prune_anchors (s : ReplayState) : ReplayState :=
  mkReplay (rs_stream_id s) (rs_authority s) (rs_cursor s) (rs_snapshot s)
    (prune_loop (size (rs_anchors s)) (position (rs_cursor s)) (rs_anchors s)).

(** ** Pages *)

Record ValidatedPullPage : Type := mkValidatedPage { vp_request : PullRequest; vp_page : PullPage }.

Record VerifiedAcceptedEvent : Type := mkVerified {
  ve_envelope : EventEnvelope; ve_receipt : Receipt; ve_authority : AuthorityId }.

Record VerifiedPullPage : Type := mkVerifiedPage {
  vpp_request : PullRequest; vpp_page : PullPage; vpp_authority : AuthorityId;
  vpp_events : list VerifiedAcceptedEvent }.

Record AppliedPullPage : Type := mkApplied {
  applied_count : N; applied_cursor : StreamCursor; applied_snapshot_cursor : StreamCursor;
  applied_complete : bool; applied_authority : AuthorityId }.

(** [UntrustedPullPage::new(request, page).validate(state)]. *)
Definition validate_pull (request : PullRequest) (page : PullPage) (s : ReplayState)
    : result SyncError ValidatedPullPage :=
  _ ← map_err Validation (validate_page page request);
  _ ← map_err Validation (preflight s request page);
  Ok (mkValidatedPage request page).

Fixpoint verify_events (verifier : Verifier) (policy : Policy) (authority : AuthorityId)
    (verified : list VerifiedAcceptedEvent) (events : list AcceptedEvent)
    : result SyncError (list VerifiedAcceptedEvent) :=
  match events with
  | [] => Ok verified
  | mkAccepted e r :: rest =>
      _ ← verify_receipt verifier authority r;
      _ ← map_err EventVersion (policy (env_kind e) (env_schema_version e));
      verify_events verifier policy authority (verified ++ [mkVerified e r authority]) rest
  end.

Definition verify_pull (v : ValidatedPullPage) (verifier : Verifier) (policy : Policy)
    : result SyncError VerifiedPullPage :=
  let a := page_attestation (vp_page v) in
  signed ← map_err Validation (page_payload a (vp_request v) (vp_page v));
  authority ← map_err Verification
    (verify_as verifier
       (mkContext PagePurpose (Some (pa_authority_id a)) (req_stream_id (vp_request v)) (pa_issued_at a) (pa_key_id a))
       signed (pa_signature a));
  verified_events ← verify_events verifier policy authority [] (page_events (vp_page v));
  Ok (mkVerifiedPage (vp_request v) (vp_page v) authority verified_events).

(** ** Applying a page *)

Definition invalid (fld reason : string) : SyncError := Validation (Invalid fld reason).

Definition identity_of (event : VerifiedAcceptedEvent) : string * string :=
  (env_client_event_id (ve_envelope event), rc_server_hash (ve_receipt event)).

Definition identity_known (id : string) (anchors : gmap N ReplayAnchor) : bool :=
  existsb (fun p : N * ReplayAnchor =>
             match event_identity p.2 with Some (known, _) => String.eqb known id | None => false end)
    (map_to_list anchors).

Fixpoint apply_loop (s : ReplayState) (after : StreamCursor) (anchors : gmap N ReplayAnchor)
    (fresh : list VerifiedAcceptedEvent) (index : N) (events : list VerifiedAcceptedEvent)
    : result SyncError (gmap N ReplayAnchor * list VerifiedAcceptedEvent) :=
  match events with
  | [] => Ok (anchors, fresh)
  | event :: rest =>
      let current := rs_cursor s in
      offset ← try_u64 (invalid "events" "index overflow") index;
      pos ← ok_or (invalid "events" "position overflow") (position_after after offset);
      if pos <=? position current then
        anchor ← ok_or (invalid "events" "overlap falls outside bounded replay window") (rs_anchors s !! pos);
        fail_if negb (String.eqb (anchor_head_hash anchor) (rc_server_hash (ve_receipt event)))
                || negb (bool_decide (event_identity anchor = Some (identity_of event)))
          with invalid "events" "overlap changed event identity or durable hash" ;;
        apply_loop s after anchors fresh (index + 1) rest
      else
        fresh_offset ← try_u64 (invalid "events" "count overflow") (blen fresh);
        expected ← ok_or (invalid "events" "position overflow") (position_after current fresh_offset);
        fail_if negb (pos =? expected) with invalid "events" "fresh replay contains a position gap" ;;
        fail_if identity_known (env_client_event_id (ve_envelope event)) anchors
          with invalid "client_event_id" "event identity moved to another stream position" ;;
        apply_loop s after
          (<[pos := mkAnchor (rc_server_hash (ve_receipt event)) (Some (identity_of event))]> anchors)
          (fresh ++ [event]) (index + 1) rest
  end.

(** The part of [apply] before the sink: the candidate state and the fresh events. *)
Definition plan (v : VerifiedPullPage) (s : ReplayState)
    : result SyncError (ReplayState * list VerifiedAcceptedEvent) :=
  let current := rs_cursor s in
  let next := page_next_cursor (vpp_page v) in
  _ ← map_err Validation (preflight s (vpp_request v) (vpp_page v));
  fail_if match rs_authority s with Some bound => negb (bool_decide (bound = vpp_authority v)) | None => false end
    with Verification AuthorityMismatch ;;
  '(anchors, fresh) ← apply_loop s (req_after (vpp_request v)) (rs_anchors s) [] 0 (vpp_events v);
  candidate_cursor ←
    (if position current <? position next then Ok next
     else if (position next =? position current) && negb (String.eqb (head_hash next) (head_hash current))
     then Err (invalid "next_cursor" "same position changed durable head")
     else Ok current);
  Ok (prune_anchors (mkReplay (rs_stream_id s) (Some (vpp_authority v)) candidate_cursor
                       (Some (page_snapshot_cursor (vpp_page v))) anchors), fresh).

Section apply.
Context {S : Type} (apply_batch : S -> list VerifiedAcceptedEvent -> S * result string unit).

Definition apply (v : VerifiedPullPage) (s : ReplayState) (sink : S) : ReplayState * S * result SyncError AppliedPullPage :=
  match
    '(candidate, fresh) ← plan v s;
    count ← try_u64 (invalid "events" "count overflow") (blen fresh);
    Ok (candidate, fresh, count)
  with
  | Err e => (s, sink, Err e)
  | Ok (candidate, fresh, count) =>
      let '(sink', reduced) := match fresh with [] => (sink, Ok tt) | _ => apply_batch sink fresh end in
      match reduced with
      | Err message => (s, sink', Err (Reducer message))
      | Ok _ =>
          let snapshot := page_snapshot_cursor (vpp_page v) in
          (candidate, sink',
           Ok (mkApplied count (rs_cursor candidate) snapshot
                 (bool_decide (rs_cursor candidate = snapshot)) (vpp_authority v)))
      end
  end.
End apply.

(** ** Legacy acknowledgements *)

Record Ack : Type := mkAck { ack_seq : N; ack_hash : string }.

#[export] Instance Ack_eq_dec : EqDecision Ack.
Proof. solve_decision. Defined.

Definition legacy_ack (r : Receipt) : Ack := mkAck (rc_server_seq r) (rc_server_hash r).

Definition validate_ack (a : Ack) : result ValidationError unit := validate_hash (ack_hash a).

Record SyncState : Type := mkSync { acks : list (option Ack); next_to_push : N }.

Definition sync_new : SyncState := mkSync [] 0.

Definition ack_of (s : SyncState) (local_seq : N) : option Ack :=
  match acks s !! N.to_nat local_seq with Some a => a | None => None end.

Definition confirmed (s : SyncState) : N := next_to_push s.

Definition try_confirm (s : SyncState) (local_seq : N) (a : Ack) : result ValidationError SyncState :=
  _ ← validate_ack a;
  if local_seq <? next_to_push s then
    match ack_of s local_seq with
    | Some existing =>
        fail_if negb (bool_decide (existing = a)) with Invalid "ack" "conflicting duplicate acknowledgement" ;; Ok s
    | None => Err (Invalid "ack" "conflicting duplicate acknowledgement")
    end
  else
    fail_if negb (local_seq =? next_to_push s) with Invalid "local_seq" "acknowledgement gap" ;;
    index ← try_u64 (Invalid "local_seq" "platform index overflow") local_seq;
    fail_if MAX_LEGACY_ACKS <=? index with Invalid "local_seq" "legacy acknowledgement limit exceeded" ;;
    let grown := acks s ++ replicate (N.to_nat (index + 1) - length (acks s)) None in
    Ok (mkSync (<[N.to_nat index := Some a]> grown) (next_to_push s + 1)).

Definition confirm (s : SyncState) (local_seq : N) (a : Ack) : SyncState :=
  match try_confirm s local_seq a with Ok s' => s' | Err _ => s end.

(** The errors of [push_pending], which the code renders as text. *)
Inductive PushError : Type :=
| LocalLogRejected (error : LogError)
| CursorRejected (error : CursorError)
| TailRejected (error : CursorError)
| PushInvalid (error : ValidationError)
| PayloadLimit
| JournalFailed (message : string).

Section push.
Context {T : Type} (journal_append : T -> string -> string -> T * result string Ack).

Fixpoint push_loop (sync : SyncState) (transport : T) (pushed : N) (events : list (N * string * string))
    : SyncState * T * result PushError N :=
  match events with
  | [] => (sync, transport, Ok pushed)
  | (local_seq, k, text) :: rest =>
      match validate_kind k with
      | Err e => (sync, transport, Err (PushInvalid e))
      | Ok _ =>
          if MAX_EVENT_PAYLOAD_BYTES <? slen text then (sync, transport, Err PayloadLimit)
          else
            let '(transport, acked) := journal_append transport k text in
            match acked with
            | Err m => (sync, transport, Err (JournalFailed m))
            | Ok a =>
                match try_confirm sync local_seq a with
                | Err e => (sync, transport, Err (PushInvalid e))
                | Ok sync => push_loop sync transport (pushed + 1) rest
                end
            end
      end
  end.

Definition pending_event (e : Event) : N * string * string :=
  (seq e, kind e, String.string_of_list_byte (canonical_bytes (payload e))).

Definition push_pending (log : Log) (sync : SyncState) (transport : T) : SyncState * T * result PushError N :=
  match
    _ ← map_err LocalLogRejected (Log.verify log);
    cursor ← map_err CursorRejected (Log.cursor_at log (next_to_push sync));
    map_err TailRejected (Log.tail log cursor)
  with
  | Err e => (sync, transport, Err e)
  | Ok events => push_loop sync transport 0 (map pending_event events)
  end.
End push.
End verification.
