(* ===== verification/HyphaeChain.v ===== *)
(** * HyphaeChain: accepted responses and pages are segments of a durable chain.

    [chained] is the specification: accepted events whose receipts count up from a
    cursor and name each other's hashes. The loops that check a response or a page
    accept exactly such segments, and retrying an append adds nothing to what one
    call would have done. *)

From S2P Require Import Prelude Decimal Json Log Catalog Pattern Hyphae HyphaeReplay.

(** ** Refusals *)

Lemma refuse_if_ok {E} (c : bool) (e : E) : refuse_if c e = Ok tt <-> c = false.
Proof. unfold refuse_if. by destruct c. Qed.

Lemma try_u64_ok {E} (e : E) n m : try_u64 e n = Ok m <-> n <= u64_max /\ m = n.
Proof.
  unfold try_u64. destruct (N.leb_spec n u64_max); split; [by intros [= ->]|by intros [_ ->]|done|lia].
Qed.

Lemma try_u32_ok {E} (e : E) n m : try_u32 e n = Ok m <-> n <= u32_max /\ m = n.
Proof.
  unfold try_u32. destruct (N.leb_spec n u32_max); split; [by intros [= ->]|by intros [_ ->]|done|lia].
Qed.

Lemma bind_unit_ok {E A} (f : unit -> result E A) r b : mbind f r = Ok b <-> r = Ok tt /\ f tt = Ok b.
Proof. rewrite bind_ok. split; [intros ([] & ? & ?)|intros [? ?]]; eauto. Qed.

Lemma fail_if_ok {E A} (c : bool) (e : E) (k : result E A) b : (fail_if c with e ;; k) = Ok b <-> c = false /\ k = Ok b.
Proof. destruct c; naive_solver. Qed.

Lemma position_after_ok c offset p :
  position_after c offset = Some p <-> p = position c + offset + 1 /\ p <= u64_max.
Proof.
  unfold position_after, checked_add_u64.
  destruct (N.leb_spec (position c + offset) u64_max); cbn;
    [|split; [done|lia]].
  destruct (N.leb_spec (position c + offset + 1) u64_max); split; try (intros [= <-]); try done; try lia.
  all: intros [-> ?]; done || lia.
Qed.

(** Turn a chain of checks into their conjunction. *)
Ltac checks := rewrite ?bind_unit_ok, ?fail_if_ok, ?bind_ok, ?refuse_if_ok, ?map_err_ok, ?ok_or_ok.

(** ** Chains *)

(** The cursor of a stream whose last entry has this receipt. *)
Definition entry_cursor (r : Receipt) : StreamCursor := mkCursor (rc_server_seq r) (rc_server_hash r).

Definition chain_end (c : StreamCursor) (rs : list Receipt) : StreamCursor :=
  match list.last rs with Some r => entry_cursor r | None => c end.

Fixpoint chained (c : StreamCursor) (rs : list Receipt) : Prop :=
  match rs with
  | [] => True
  | r :: rs =>
      rc_server_seq r = position c + 1 /\ rc_server_prev_hash r = head_hash c /\ chained (entry_cursor r) rs
  end.

Lemma chain_end_cons c r rs : chain_end c (r :: rs) = chain_end (entry_cursor r) rs.
Proof. unfold chain_end. rewrite list.last_cons. by destruct (list.last rs). Qed.

Lemma chain_end_app c xs ys : chain_end c (xs ++ ys) = chain_end (chain_end c xs) ys.
Proof. revert c. induction xs as [|x xs IH]; intros c; [done|]. cbn. by rewrite !chain_end_cons, IH. Qed.

Lemma chain_end_snoc c xs r : chain_end c (xs ++ [r]) = entry_cursor r.
Proof. by rewrite chain_end_app. Qed.

Lemma chained_app c xs ys : chained c (xs ++ ys) <-> chained c xs /\ chained (chain_end c xs) ys.
Proof.
  revert c. induction xs as [|x xs IH]; intros c; cbn [chained app]; [tauto|].
  rewrite IH, chain_end_cons. tauto.
Qed.

Lemma chained_position c rs : chained c rs -> position (chain_end c rs) = position c + blen rs.
Proof.
  revert c. induction rs as [|r rs IH]; intros c; [cbn; unfold blen; cbn; lia|].
  cbn [chained]. intros (Hs & _ & Hc). rewrite chain_end_cons, IH by done. unfold blen. cbn. lia.
Qed.

Lemma expected_prev_chain c pre r rs :
  expected_prev c (rc_server_hash <$> (pre ++ r :: rs)) (blen pre) = head_hash (chain_end c pre).
Proof.
  unfold expected_prev. destruct pre as [|x pre] using rev_ind; [done|].
  rewrite chain_end_snoc, blen_app. change (blen [x]) with 1.
  destruct (N.eqb_spec (blen pre + 1) 0); [lia|].
  rewrite <-app_assoc, fmap_app. cbn [app]. rewrite fmap_cons. unfold blen. replace (N.to_nat (N.of_nat (length pre) + 1 - 1)) with (length pre) by lia.
  rewrite list_lookup_middle; [done|]. by rewrite length_fmap.
Qed.

Section chain.
Context `{SerdeJson, Sha256}.

(** ** Pages *)

(** A receipt that accepts exactly this envelope on this stream. *)
Record accepts_on (stream : string) (a : AcceptedEvent) : Prop := {
  ao_envelope : validate_envelope (envelope a) = Ok tt;
  ao_receipt : validate_receipt (receipt a) = Ok tt;
  ao_env_stream : env_stream_id (envelope a) = stream;
  ao_rc_stream : rc_stream_id (receipt a) = stream;
  ao_id : env_client_event_id (envelope a) = rc_client_event_id (receipt a);
  ao_hash : wire_hash (envelope a) = Ok (rc_envelope_hash (receipt a)) }.

Definition event_id (a : AcceptedEvent) : string := env_client_event_id (envelope a).

Lemma page_loop_cons page after ids pre a rest :
  page_events page = pre ++ a :: rest -> position (chain_end after (map receipt pre)) = position after + blen pre ->
  position after + blen pre < u64_max ->
  page_loop page after ids (blen pre) (a :: rest) = Ok tt <->
  accepts_on (page_stream_id page) a /\ (event_id a ∉ ids)
  /\ chained (chain_end after (map receipt pre)) [receipt a]
  /\ page_loop page after ({[event_id a]} ∪ ids) (blen (pre ++ [a])) rest = Ok tt.
Proof.
  intros Epage Epos Hmax. destruct a as [e r]. cbn [page_loop].
  assert (expected_prev after ((fun a => rc_server_hash (receipt a)) <$> page_events page) (blen pre)
          = head_hash (chain_end after (map receipt pre))) as ->.
  { rewrite <-(expected_prev_chain after (map receipt pre) r (map receipt rest)), Epage.
    f_equal; [|unfold blen; by rewrite length_map]. rewrite !fmap_app, !fmap_cons. cbn [receipt].
    f_equal; [|f_equal]; by rewrite <-list_fmap_compose. }
  rewrite blen_app. change (blen [_]) with 1. unfold event_id. cbn [envelope].
  assert (forall E (err : E), try_u64 err (blen pre) = Ok (blen pre)) as -> by (intros; apply try_u64_ok; lia).
  cbn [mbind result_bind].
  assert (position_after after (blen pre) = Some (position after + blen pre + 1)) as ->
    by (apply position_after_ok; lia).
  cbn [ok_or].
  destruct (wire_hash e) as [wire|we] eqn:Ew.
  2:{ cbn [mbind result_bind]. split; [checks; intros; naive_solver|]. intros ([_ _ _ _ _ Hh] & _). cbn in Hh. congruence. }
  cbn [mbind result_bind]. checks. cbn [mbind result_bind chained receipt envelope].
  rewrite !orb_false_iff, !negb_false_iff, !String.eqb_eq, N.eqb_eq,
    bool_decide_eq_false, Epos. split.
  - intros (He & Hr & [[<- Hs] Hid] & <- & Hids & Hseq & Hprev & Hrest). split_and!; done.
  - intros ([He Hr Hes Hrs Hid Hw] & Hids & (Hseq & Hprev & _) & Hrest). cbn in *.
    rewrite Ew in Hw. injection Hw as <-. by split_and!.
Qed.

(** The loop of [validate_against] accepts exactly the segments of the stream. *)
Lemma page_loop_spec page after ids pre rest :
  page_events page = pre ++ rest -> position (chain_end after (map receipt pre)) = position after + blen pre ->
  position after + blen (page_events page) <= u64_max ->
  page_loop page after ids (blen pre) rest = Ok tt <->
  Forall (accepts_on (page_stream_id page)) rest /\ NoDup (map event_id rest)
  /\ Forall (fun a => event_id a ∉ ids) rest /\ chained (chain_end after (map receipt pre)) (map receipt rest).
Proof.
  revert ids pre. induction rest as [|a rest IH]; intros ids pre Epage Epos Hmax.
  { cbn. split; [|done]. intros _. split_and!; constructor. }
  assert (position after + blen pre < u64_max) as Hlt.
  { rewrite Epage, blen_app in Hmax. unfold blen in *. cbn in Hmax. lia. }
  rewrite page_loop_cons by done. cbn [map chained].
  rewrite Forall_cons, Forall_cons, NoDup_cons.
  assert (chained (chain_end after (map receipt pre)) [receipt a] ->
    (page_loop page after ({[event_id a]} ∪ ids) (blen (pre ++ [a])) rest = Ok tt <->
     Forall (accepts_on (page_stream_id page)) rest /\ NoDup (map event_id rest)
     /\ Forall (fun b => event_id b ∉ {[event_id a]} ∪ ids) rest
     /\ chained (entry_cursor (receipt a)) (map receipt rest))) as Hrest.
  { intros (Hseq & _). rewrite IH; [|by rewrite <-app_assoc| |done].
    - by rewrite (map_app _ pre); cbn [map]; rewrite (chain_end_snoc _ (map receipt pre)).
    - rewrite (map_app _ pre); cbn [map]; rewrite (chain_end_snoc _ (map receipt pre)), blen_app. cbn. rewrite Hseq, Epos.
      unfold blen. cbn. lia. }
  assert (Forall (fun b => event_id b ∉ {[event_id a]} ∪ ids) rest <->
          (event_id a ∉ map event_id rest) /\ Forall (fun b => event_id b ∉ ids) rest) as Hids.
  { rewrite !Forall_forall. split.
    - intros Hf. split; [|set_solver]. intros (b & Eb & Hb)%list_elem_of_fmap. specialize (Hf b Hb). set_solver.
    - intros [Hn Hf] b Hb. rewrite elem_of_union, elem_of_singleton. intros [Eb|Hi]; [|by apply (Hf b)].
      apply Hn. rewrite <-Eb. by apply list_elem_of_fmap_2. }
  cbn [chained] in *. naive_solver.
Qed.

(** What an accepted page says. *)
Record page_segment (page : PullPage) (request : PullRequest) : Prop := {
  ps_request : validate_request request = Ok tt;
  ps_stream : page_stream_id page = req_stream_id request;
  ps_limit : blen (page_events page) <= req_limit request;
  ps_events : Forall (accepts_on (req_stream_id request)) (page_events page);
  ps_ids : NoDup (map event_id (page_events page));
  ps_chain : chained (req_after request) (map receipt (page_events page));
  ps_next : page_next_cursor page = chain_end (req_after request) (map receipt (page_events page));
  ps_snapshot : position (page_next_cursor page) <= position (page_snapshot_cursor page);
  ps_head : position (page_next_cursor page) = position (page_snapshot_cursor page) ->
            page_next_cursor page = page_snapshot_cursor page;
  ps_exact : forall c, req_snapshot request = Exact c -> page_snapshot_cursor page = c;
  ps_complete : page_complete page = bool_decide (page_next_cursor page = page_snapshot_cursor page);
  ps_advances : page_complete page = false -> page_events page <> [];
  ps_fits : position (page_next_cursor page) <= u64_max }.

Lemma cursor_ext c c' : position c = position c' -> head_hash c = head_hash c' -> c = c'.
Proof. destruct c, c'. cbn. by intros -> ->. Qed.

Lemma validate_page_segment page request : validate_page page request = Ok tt -> page_segment page request.
Proof.
  unfold validate_page. cbv zeta.
  repeat rewrite ?bind_unit_ok, ?fail_if_ok.
  intros (Hreq & Hproto & Hstream & Hlimit & Hnext & Hsnap & Hatt & Hreg & Hexact & Hadv & Hfork & Hloop & Hk).
  rewrite bind_ok in Hk. destruct Hk as (count & Hcount & Hk). apply try_u64_ok in Hcount as [Hc ->].
  rewrite bind_ok in Hk. destruct Hk as (pos & Hpos & Hk). rewrite ok_or_ok in Hpos.
  unfold checked_add_u64 in Hpos. destruct (N.leb_spec (position (req_after request) + blen (page_events page)) u64_max) as [Hfit|]; [|done].
  injection Hpos as <-. rewrite fail_if_ok, bind_unit_ok, fail_if_ok, refuse_if_ok in Hk.
  destruct Hk as (Hp & Hlast & Hcomp & Hinc). reflect_guards.
  change 0 with (blen (@nil AcceptedEvent)) in Hloop. apply page_loop_spec in Hloop; [|done|cbn; unfold blen; cbn; lia|done].
  destruct Hloop as (Hacc & Hnd & _ & Hch). cbn [map] in Hch. change (chain_end (req_after request) []) with (req_after request) in Hch.
  assert (page_next_cursor page = chain_end (req_after request) (map receipt (page_events page))) as Enext.
  { unfold chain_end. destruct (page_events page) as [|a evs _] eqn:Ee using rev_ind.
    - cbn in Hlast |- *. rewrite refuse_if_ok in Hlast. by reflect_guards.
    - rewrite list.last_snoc, refuse_if_ok in Hlast. reflect_guards. rewrite map_app. cbn [map]. rewrite list.last_snoc.
      apply cursor_ext; [|done]. rewrite map_app, chained_app in Hch. destruct Hch as [Hc1 (Hseq & _)].
      cbn [entry_cursor position]. rewrite Hseq, chained_position by done. rewrite Hp. unfold blen. rewrite length_app, length_map. cbn. lia. }
  constructor; try done.
  - by rewrite <-Hstream.
  - intros Heq. apply cursor_ext; [done|]. apply andb_false_iff in Hfork as [Hf|Hf]; reflect_guards; done.
  - intros c Ec. rewrite Ec in Hexact. rewrite refuse_if_ok in Hexact. by reflect_guards.
  - by apply Bool.eqb_prop.
  - intros Ec En. rewrite Ec, En in Hinc. by rewrite bool_decide_eq_true_2 in Hinc.
  - by rewrite Hp.
Qed.

(** ** Append responses *)

(** What an accepted response says. *)
Record append_segment (batch : AppendBatch) (response : AppendResponse) : Prop := {
  as_batch : validate_batch batch = Ok tt;
  as_ids : resp_batch_id response = batch_id batch /\ resp_stream_id response = batch_stream_id batch;
  as_length : length (resp_receipts response) = length (batch_events batch);
  as_events : Forall (accepts_on (batch_stream_id batch)) (zip_with mkAccepted (batch_events batch) (resp_receipts response));
  as_chain : chained (batch_expected_cursor batch) (resp_receipts response);
  as_next : resp_next_cursor response = chain_end (batch_expected_cursor batch) (resp_receipts response);
  as_heads : Forall (fun r => rc_journal_head r = head_hash (resp_next_cursor response)) (resp_receipts response);
  as_fits : position (resp_next_cursor response) <= u64_max }.

Lemma batch_loop_events stream total ids previous events :
  batch_loop stream total ids previous events = Ok tt ->
  Forall (fun e => validate_envelope e = Ok tt /\ env_stream_id e = stream) events.
Proof.
  revert total ids previous. induction events as [|e events IH]; intros total ids previous; [constructor|].
  cbn [batch_loop]. intros E. split_ok. reflect_guards. constructor; [|by eapply IH].
  split; [|done]. by destruct (validate_envelope e) as [[]|].
Qed.

Lemma response_loop_spec batch receipts (pre rest : list (EventEnvelope * Receipt)) :
  receipts = map snd pre ++ map snd rest ->
  position (chain_end (batch_expected_cursor batch) (map snd pre)) = position (batch_expected_cursor batch) + blen pre ->
  response_loop batch receipts (blen pre) rest = Ok tt ->
  Forall (fun p => validate_receipt p.2 = Ok tt /\ rc_client_event_id p.2 = env_client_event_id p.1
                   /\ rc_stream_id p.2 = batch_stream_id batch /\ wire_hash p.1 = Ok (rc_envelope_hash p.2)) rest
  /\ chained (chain_end (batch_expected_cursor batch) (map snd pre)) (map snd rest).
Proof.
  revert pre. induction rest as [|[e r] rest IH]; intros pre Er Epos; cbn [response_loop]; [by repeat constructor|].
  cbn [map snd] in Er.
  assert (expected_prev (batch_expected_cursor batch) (rc_server_hash <$> receipts) (blen pre)
          = head_hash (chain_end (batch_expected_cursor batch) (map snd pre))) as ->.
  { rewrite <-(expected_prev_chain _ (map snd pre) r (map snd rest)), <-Er. f_equal. unfold blen. by rewrite length_map. }
  intros E. cbv zeta in E. repeat rewrite ?bind_unit_ok, ?fail_if_ok in E. destruct E as (Hr & Hid & E).
  rewrite bind_ok in E. destruct E as (wire & Hw & E). rewrite fail_if_ok in E. destruct E as [Hh E].
  rewrite bind_ok in E. destruct E as (offset & Ho & E). apply try_u64_ok in Ho as [_ ->].
  rewrite bind_ok in E. destruct E as (pos & Hp & E). rewrite ok_or_ok in Hp. apply position_after_ok in Hp as [-> _].
  rewrite !fail_if_ok in E. destruct E as (Hseq & Hprev & E). reflect_guards. subst wire.
  replace (blen pre + 1) with (blen (pre ++ [(e, r)])) in E by (by rewrite blen_app).
  apply IH in E.
  - destruct E as [Hf Hc]. rewrite map_app in Hc. cbn [map snd] in Hc. rewrite chain_end_snoc in Hc.
    split; [by constructor|]. cbn. by rewrite Epos.
  - rewrite map_app, <-app_assoc. done.
  - rewrite map_app. cbn [map snd]. rewrite chain_end_snoc, blen_app. cbn [entry_cursor position]. rewrite Hseq.
    unfold blen. cbn. lia.
Qed.

Lemma map_snd_zip {A B} (xs : list A) (ys : list B) : length xs = length ys -> map snd (zip xs ys) = ys.
Proof. intros E. apply snd_zip. lia. Qed.

Lemma zip_accepts stream events receipts :
  Forall (fun e => validate_envelope e = Ok tt /\ env_stream_id e = stream) events ->
  Forall (fun p => validate_receipt p.2 = Ok tt /\ rc_client_event_id p.2 = env_client_event_id p.1
                   /\ rc_stream_id p.2 = stream /\ wire_hash p.1 = Ok (rc_envelope_hash p.2)) (zip events receipts) ->
  Forall (accepts_on stream) (zip_with mkAccepted events receipts).
Proof.
  intros He. revert receipts. induction He as [|e events [Hv Hs] _ IH]; intros [|r receipts]; cbn; try constructor.
  - inversion_clear H1 as [|? ? (Hr & Hid & Hst & Hw) _]. by constructor.
  - inversion_clear H1. by apply IH.
Qed.

Lemma validate_response_segment response batch : validate_response response batch = Ok tt -> append_segment batch response.
Proof.
  unfold validate_response. cbv zeta. repeat rewrite ?bind_unit_ok, ?fail_if_ok.
  intros (Hb & _ & Hbid & Hsid & Hlen & _ & _ & Hloop & E).
  rewrite bind_ok in E. destruct E as (lst & Hl & E). rewrite ok_or_ok in Hl.
  rewrite bind_ok in E. destruct E as (count & Hc & E). apply try_u64_ok in Hc as [_ ->].
  rewrite bind_ok in E. destruct E as (next & Hn & E). rewrite ok_or_ok in Hn. unfold checked_add_u64 in Hn.
  destruct (N.leb_spec (position (batch_expected_cursor batch) + blen (batch_events batch)) u64_max) as [Hfit|]; [|done].
  injection Hn as <-. rewrite refuse_if_ok, !orb_false_iff in E. destruct E as [[[Hp Hh] _] Hj].
  reflect_guards. apply Nat.eqb_eq in Hlen.
  change 0 with (blen (@nil (EventEnvelope * Receipt))) in Hloop.
  apply response_loop_spec in Hloop; [|by rewrite map_snd_zip by done|cbn; unfold blen; cbn; lia].
  destruct Hloop as [Hacc Hch]. rewrite map_snd_zip in Hch by done. cbn [map] in Hch.
  change (chain_end ?c []) with c in Hch.
  assert (resp_next_cursor response = chain_end (batch_expected_cursor batch) (resp_receipts response)) as Enext.
  { apply cursor_ext; [|by unfold chain_end; rewrite Hl; cbn].
    rewrite chained_position by done. rewrite Hp. unfold blen. by rewrite Hlen. }
  assert (Hb' := Hb). unfold validate_batch in Hb'. repeat rewrite ?bind_unit_ok, ?fail_if_ok in Hb'.
  destruct Hb' as (_ & _ & _ & _ & _ & Hevents). apply batch_loop_events in Hevents.
  constructor; try done.
  - by apply zip_accepts.
  - apply Forall_forall. intros r Hr. destruct (String.eqb_spec (rc_journal_head r) (head_hash (resp_next_cursor response))) as [|Hne]; [done|].
    assert (existsb (fun r => negb (String.eqb (rc_journal_head r) (head_hash (resp_next_cursor response)))) (resp_receipts response) = true); [|congruence].
    apply existsb_exists. exists r. split; [by apply list_elem_of_In|]. by apply negb_true_iff, String.eqb_neq.
  - by rewrite Hp.
Qed.

(** ** Verification *)

(** [verifier] accepted this receipt's signed bytes as [authority]'s. *)
Definition signed_receipt (verifier : Verifier) (authority : AuthorityId) (r : Receipt) : Prop :=
  exists signed, receipt_payload r = Ok signed
    /\ verifier (mkContext ReceiptPurpose (Some authority) (rc_stream_id r) (rc_committed_at r) (rc_key_id r))
         signed (rc_signature r) = Ok authority.

Lemma verify_as_ok verifier context signed signature authority :
  verify_as verifier context signed signature = Ok authority <->
  verifier context signed signature = Ok authority
  /\ (forall claimed, ctx_claimed_authority context = Some claimed -> claimed = authority).
Proof.
  unfold verify_as. rewrite bind_ok. split.
  - intros (a & Ha & E). rewrite fail_if_ok in E. destruct E as [Hc [= ->]]. split; [done|].
    intros claimed Ec. rewrite Ec in Hc. by reflect_guards.
  - intros [Ha Hc]. exists authority. split; [done|]. rewrite fail_if_ok. split; [|done].
    destruct (ctx_claimed_authority context) as [c|]; [|done]. by rewrite (Hc c), bool_decide_eq_true_2.
Qed.

Lemma verify_receipt_ok verifier authority r :
  verify_receipt verifier authority r = Ok tt <-> signed_receipt verifier authority r.
Proof.
  unfold verify_receipt, signed_receipt. rewrite bind_ok. apply exist_proper. intros signed.
  rewrite map_err_ok, bind_ok. split; intros [Hp Hv]; (split; [done|]).
  - destruct Hv as (a & Ha & E). rewrite map_err_ok, verify_as_ok in Ha. destruct Ha as [Ha Hc].
    by rewrite <-(Hc authority) in Ha.
  - exists authority. rewrite map_err_ok, verify_as_ok, refuse_if_ok, negb_false_iff, bool_decide_eq_true.
    split_and!; [done| |done]. by intros ? [= ->].
Qed.

Lemma verify_receipts_ok verifier authority receipts :
  verify_receipts verifier authority receipts = Ok tt <-> Forall (signed_receipt verifier authority) receipts.
Proof.
  induction receipts as [|r receipts IH]; cbn [verify_receipts]; [split; [constructor|done]|].
  by rewrite bind_unit_ok, verify_receipt_ok, IH, Forall_cons.
Qed.

Lemma verify_events_ok verifier policy authority verified events out :
  verify_events verifier policy authority verified events = Ok out <->
  out = verified ++ map (fun a => mkVerified (envelope a) (receipt a) authority) events
  /\ Forall (fun a => signed_receipt verifier authority (receipt a)) events
  /\ Forall (fun a => policy (env_kind (envelope a)) (env_schema_version (envelope a)) = Ok tt) events.
Proof.
  revert verified. induction events as [|[e r] events IH]; intros verified; cbn [verify_events map].
  - rewrite app_nil_r. split; [by intros [= ->]; repeat constructor|by intros [-> _]].
  - rewrite !bind_unit_ok, verify_receipt_ok, map_err_ok, IH, !Forall_cons, <-app_assoc. cbn. tauto.
Qed.

(** ** Retrying an append *)

Section retry.
Context {T : Type} (append_batch : T -> AppendBatch -> T * result TransportError AppendResponse).

(** The transport after [n] calls with the same batch, and what call [n] answers. *)
Fixpoint after_calls (transport : T) (batch : AppendBatch) (n : nat) : T :=
  match n with
  | O => transport
  | S n => after_calls (append_batch transport batch).1 batch n
  end.

Definition answer (transport : T) (batch : AppendBatch) (n : nat) : result TransportError AppendResponse :=
  (append_batch (after_calls transport batch n) batch).2.

Definition transient (r : result TransportError AppendResponse) : Prop :=
  match r with Err (Retryable _) => True | _ => False end.

(** What the caller gets from the first answer that is not transient. *)
Definition settle_answer (batch : AppendBatch) (r : result TransportError AppendResponse)
    : result SyncError ValidatedAppendResponse :=
  match r with
  | Ok response => _ ← map_err Validation (validate_response response batch); Ok (mkValidatedResponse batch response)
  | Err error => Err (Transport error)
  end.

Lemma retry_loop_spec attempts transport batch :
  exists k, (k <= attempts)%nat /\ (forall j, (j < k)%nat -> transient (answer transport batch j))
    /\ ((k = attempts /\ retry_loop append_batch attempts transport batch
                           = (after_calls transport batch k, Err AttemptsExhausted))
        \/ ((k < attempts)%nat /\ ~ transient (answer transport batch k)
            /\ retry_loop append_batch attempts transport batch
               = (after_calls transport batch (S k), settle_answer batch (answer transport batch k)))).
Proof.
  revert transport. induction attempts as [|n IH]; intros transport; cbn [retry_loop].
  { exists 0%nat. split_and!; [lia|lia|by left]. }
  destruct (append_batch transport batch) as [t r] eqn:Ea.
  assert (answer transport batch 0 = r) as E0 by (unfold answer; cbn; by rewrite Ea).
  assert (forall j, answer transport batch (S j) = answer t batch j) as ES by (intros; unfold answer; cbn; by rewrite Ea).
  assert (forall j, after_calls transport batch (S j) = after_calls t batch j) as EC by (intros; cbn; by rewrite Ea).
  destruct r as [response|[m|c1 c2|m]] eqn:Er.
  2:{ destruct (IH t) as (k & Hk & Hbefore & Hcase). exists (S k). rewrite EC, ES. split_and!; [lia| |].
      - intros [|j] Hj; [by rewrite E0|]. rewrite ES. apply Hbefore. lia.
      - destruct Hcase as [[-> ->]|(Hlt & Hn & ->)]; [by left|right; split_and!; [lia|done|]; by rewrite EC]. }
  all: exists 0%nat; rewrite EC, E0; split_and!; [lia|lia|right; split_and!; [lia|by intros []|done]].
Qed.
End retry.
End chain.

(** ** The contract of an append *)

(** A batch is sent only when it is valid, always the same, at most [max_attempts]
    times and never after an answer that is not transient; that answer is what the
    caller gets, checked against the batch when it is a response. *)
Theorem append_with_retry_exact `{SerdeJson, Sha256} {T}
    (append_batch : T -> AppendBatch -> T * result TransportError AppendResponse) transport batch max_attempts :
  match validate_batch batch with
  | Err e => append_with_retry append_batch transport batch max_attempts = (transport, Err (Validation e))
  | Ok _ =>
      exists k, (k <= max_attempts)%nat
        /\ (forall j, (j < k)%nat -> transient (answer append_batch transport batch j))
        /\ ((k = max_attempts
             /\ append_with_retry append_batch transport batch max_attempts
                = (after_calls append_batch transport batch k, Err AttemptsExhausted))
            \/ ((k < max_attempts)%nat /\ ~ transient (answer append_batch transport batch k)
               /\ append_with_retry append_batch transport batch max_attempts
                  = (after_calls append_batch transport batch (S k),
                     settle_answer batch (answer append_batch transport batch k))))
  end.
Proof.
  unfold append_with_retry. destruct (validate_batch batch); [|done].
  destruct (Nat.eqb_spec max_attempts 0) as [->|]; [|apply retry_loop_spec].
  exists 0%nat. split_and!; [lia|lia|by left].
Qed.

(** C27. An append that was accepted and verified extends the expected cursor to the next
    one by exactly the events of the batch, each acknowledged by a receipt of its own
    envelope at the next position, all receipts and the whole result signed by one
    authority, and the head of every receipt the new head of the stream. *)
Theorem verified_append_extends_stream `{SerdeJson, Sha256} {T}
    (append_batch : T -> AppendBatch -> T * result TransportError AppendResponse) transport batch max_attempts
    transport' v verifier w :
  append_with_retry append_batch transport batch max_attempts = (transport', Ok v) ->
  verify_response v verifier = Ok w ->
  let receipts := resp_receipts (vr_response w) in
  length receipts = length (batch_events batch)
  /\ Forall (accepts_on (batch_stream_id batch)) (zip_with mkAccepted (batch_events batch) receipts)
  /\ chained (batch_expected_cursor batch) receipts
  /\ resp_next_cursor (vr_response w) = chain_end (batch_expected_cursor batch) receipts
  /\ Forall (fun r => rc_journal_head r = head_hash (resp_next_cursor (vr_response w))) receipts
  /\ Forall (signed_receipt verifier (vr_authority w)) receipts
  /\ (exists signed, append_payload (resp_attestation (vr_response w)) batch (vr_response w) = Ok signed
        /\ verifier (mkContext AppendPurpose (Some (vr_authority w)) (batch_stream_id batch)
                       (aa_committed_at (resp_attestation (vr_response w)))
                       (aa_key_id (resp_attestation (vr_response w))))
             signed (aa_signature (resp_attestation (vr_response w))) = Ok (vr_authority w)).
Proof.
  intros Happ Hver. unfold append_with_retry in Happ.
  destruct (validate_batch batch) as [[]|e] eqn:Eb; [|done]. destruct (max_attempts =? 0)%nat; [done|].
  destruct (retry_loop_spec append_batch max_attempts transport batch) as (k & _ & _ & [(_ & E)|(_ & _ & E)]);
    rewrite E in Happ; [done|]. injection Happ as _ Hset. unfold settle_answer in Hset.
  destruct (answer append_batch transport batch k) as [response|]; [|done].
  rewrite bind_unit_ok, map_err_ok in Hset. destruct Hset as [Hseg%validate_response_segment [= <-]].
  unfold verify_response in Hver. cbn in Hver. rewrite bind_ok in Hver. destruct Hver as (signed & Hs & Hver).
  rewrite map_err_ok in Hs. rewrite bind_ok in Hver. destruct Hver as (authority & Ha & Hver).
  rewrite map_err_ok, verify_as_ok in Ha. destruct Ha as [Ha Hclaim]. specialize (Hclaim _ eq_refl).
  rewrite bind_unit_ok, verify_receipts_ok in Hver. destruct Hver as [Hr [= <-]]. cbn.
  split_and!; [apply Hseg..|done|]. exists signed. split; [done|]. by rewrite Hclaim in Ha.
Qed.

(** ** A sample exchange *)

Module HyphaeSample.
#[local] Existing Instance toy_sha256.
#[local] Existing Instance Sample.sample_json.

Definition uuid (c : ascii) : string := ("01890000-0000-7000-8000-00000000000" ++ String c "")%string.
Definition hash_of (c : ascii) : string := String.string_of_list_ascii (replicate 64 c).
Definition signature : string := "AAAAAAAAAAAAAAAA".
Definition timestamp : string := "2024-02-29T23:59:59.250+01:30".
Definition stream : string := "notes/main".

Definition event (c : ascii) (local_seq : N) (prev : string) : EventEnvelope :=
  mkEnvelope PROTOCOL_V2 (uuid c) stream 1 "app_note" "{}" local_seq prev (hash_of c) [] timestamp.

Definition receipt_of (e : EventEnvelope) (server_seq : N) (hash prev head : string) : Receipt :=
  mkReceipt (env_client_event_id e) stream (match wire_hash e with Ok h => h | Err _ => "" end)
    server_seq hash prev head timestamp "key-1" signature.

Definition e1 : EventEnvelope := event "1" 0 EMPTY_STREAM_HASH.
Definition e2 : EventEnvelope := event "2" 1 (hash_of "1").
Definition r1 : Receipt := receipt_of e1 1 (hash_of "a") EMPTY_STREAM_HASH (hash_of "b").
Definition r2 : Receipt := receipt_of e2 2 (hash_of "b") (hash_of "a") (hash_of "b").

Definition authority : AuthorityId := mkAuthority "hyphae.main".
Definition batch : AppendBatch := mkBatch PROTOCOL_V2 (uuid "c") stream genesis [e1; e2].
Definition response : AppendResponse :=
  mkResponse PROTOCOL_V2 (uuid "c") stream [r1; r2] (mkCursor 2 (hash_of "b"))
    (mkAppendAttestation authority timestamp "key-1" signature).

Definition verifier : Verifier := fun _ _ s => if String.eqb s signature then Ok authority else Err InvalidSignature.

(** A transport that loses the first answer. *)
Definition flaky (calls : nat) (_ : AppendBatch) : nat * result TransportError AppendResponse :=
  (S calls, match calls with O => Err (Retryable "timeout") | _ => Ok response end).

Example validates : validate_response response batch = Ok tt.
Proof. vm_compute. reflexivity. Qed.

Example retried :
  append_with_retry flaky 0%nat batch 3 = (2%nat, Ok (mkValidatedResponse batch response))
  /\ append_with_retry flaky 0%nat batch 1 = (1%nat, Err AttemptsExhausted).
Proof. vm_compute. done. Qed.

Lemma verified_append_extends_stream_witness :
  chained genesis [r1; r2] /\ Forall (signed_receipt verifier authority) [r1; r2].
Proof.
  pose proof (verified_append_extends_stream flaky 0%nat batch 3 2%nat (mkValidatedResponse batch response)
                verifier (mkVerifiedResponse response authority)) as Hx.
  assert (append_with_retry flaky 0%nat batch 3 = (2%nat, Ok (mkValidatedResponse batch response))) as H1
    by (vm_compute; reflexivity).
  assert (verify_response (mkValidatedResponse batch response) verifier = Ok (mkVerifiedResponse response authority)) as H2
    by (vm_compute; reflexivity).
  destruct (Hx H1 H2) as (_ & _ & Hc & _ & _ & Hs & _). split; assumption.
Defined.
End HyphaeSample.
