(* ===== verification/HyphaeSync.v ===== *)
(** * HyphaeSync: replay delivers the durable stream exactly once.

    [synced] relates a [ReplayState] to the events the application's sink has
    accepted: they are the chain from genesis to the cursor, and the anchors are the
    last [MAX_REPLAY_ANCHORS] of its positions. Every page that passed validation and
    verification preserves it, whatever state the page was validated against. *)

From S2P Require Import Prelude Decimal Json Log Catalog Pattern Hyphae HyphaeReplay HyphaeChain.

(** ** Anchors *)

Abbreviation Anchors := (gmap N ReplayAnchor).

Definition anchor_of (event : VerifiedAcceptedEvent) : ReplayAnchor :=
  mkAnchor (rc_server_hash (ve_receipt event)) (Some (identity_of event)).

(** The anchor of position [q] of a stream whose events are [d]. *)
Definition anchor_at (d : list VerifiedAcceptedEvent) (q : N) : option ReplayAnchor :=
  if q =? 0 then Some (mkAnchor EMPTY_STREAM_HASH None) else anchor_of <$> d !! N.to_nat (q - 1).

Fixpoint add_anchors (n : N) (anchors : Anchors) (fresh : list VerifiedAcceptedEvent) : Anchors :=
  match fresh with
  | [] => anchors
  | e :: fresh => add_anchors (n + 1) (<[n + 1 := anchor_of e]> anchors) fresh
  end.

(** No event carries an identity an anchor, or an earlier event, already has. *)
Fixpoint unseen (n : N) (anchors : Anchors) (fresh : list VerifiedAcceptedEvent) : Prop :=
  match fresh with
  | [] => True
  | e :: fresh =>
      identity_known (env_client_event_id (ve_envelope e)) anchors = false
      /\ unseen (n + 1) (<[n + 1 := anchor_of e]> anchors) fresh
  end.

Lemma ok_or_some {E A} (e : E) (a : A) : ok_or e (Some a) = Ok a.
Proof. done. Qed.

Lemma lookup_add_anchors n anchors fresh q :
  add_anchors n anchors fresh !! q =
  match (if n <? q then fresh !! N.to_nat (q - n - 1) else None) with
  | Some e => Some (anchor_of e)
  | None => anchors !! q
  end.
Proof.
  revert n anchors. induction fresh as [|e fresh IH]; intros n anchors; cbn [add_anchors].
  { by destruct (n <? q). }
  rewrite IH. destruct (N.ltb_spec n q) as [Hn|Hn].
  - destruct (N.ltb_spec (n + 1) q) as [Hq|Hq].
    + replace (N.to_nat (q - n - 1)) with (S (N.to_nat (q - (n + 1) - 1))) by lia. cbn.
      destruct (fresh !! _); [done|]. by rewrite lookup_insert_ne by lia.
    + assert (q = n + 1) as -> by lia. rewrite lookup_insert_eq. by replace (N.to_nat (n + 1 - n - 1)) with 0%nat by lia.
  - destruct (N.ltb_spec (n + 1) q); [lia|]. by rewrite lookup_insert_ne by lia.
Qed.

Lemma identity_known_spec id anchors :
  identity_known id anchors = true <->
  exists q a h, anchors !! q = Some a /\ event_identity a = Some (id, h).
Proof.
  unfold identity_known. rewrite existsb_exists. split.
  - intros ((q & a) & Hin%list_elem_of_In%elem_of_map_to_list & Hk). cbn in Hk.
    destruct (event_identity a) as [[i h]|] eqn:Ea; [|done]. reflect_guards. subst i. by exists q, a, h.
  - intros (q & a & h & Hq & Ha). exists (q, a). split; [by apply list_elem_of_In, elem_of_map_to_list|].
    cbn. rewrite Ha. apply String.eqb_refl.
Qed.

Lemma unseen_spec n anchors fresh :
  (forall q, is_Some (anchors !! q) -> q <= n) ->
  unseen n anchors fresh <->
  (forall j e, fresh !! j = Some e ->
     identity_known (env_client_event_id (ve_envelope e)) anchors = false
     /\ forall i e', (i < j)%nat -> fresh !! i = Some e' ->
          env_client_event_id (ve_envelope e') <> env_client_event_id (ve_envelope e)).
Proof.
  revert n anchors. induction fresh as [|x fresh IH]; intros n anchors Hn; cbn [unseen].
  { split; [intros _ j e; by rewrite lookup_nil|done]. }
  rewrite IH.
  2:{ intros q. destruct (decide (q = n + 1)) as [->|]; [lia|]. rewrite lookup_insert_ne by done. intros ?%Hn. lia. }
  assert (forall id, identity_known id (<[n + 1 := anchor_of x]> anchors) = false <->
            identity_known id anchors = false /\ env_client_event_id (ve_envelope x) <> id) as Hins.
  { intros id. rewrite <-!not_true_iff_false, !identity_known_spec. split.
    - intros Hno. split.
      + intros (q & a & h & Hq & Ha). apply Hno. exists q, a, h. split; [|done].
        rewrite lookup_insert_ne; [done|]. assert (q <= n) by (apply Hn; by eexists). lia.
      + intros <-. apply Hno. exists (n + 1), (anchor_of x). eexists. by rewrite lookup_insert_eq.
    - intros [Hno Hne] (q & a & h & Hq & Ha). destruct (decide (q = n + 1)) as [->|].
      + rewrite lookup_insert_eq in Hq. injection Hq as <-. cbn in Ha. by injection Ha.
      + rewrite lookup_insert_ne in Hq by done. apply Hno. by exists q, a, h. }
  setoid_rewrite Hins. split.
  - intros [Hx Hall] [|j] e; cbn [lookup list_lookup]; [intros [= <-]; split; [done|lia]|].
    intros He. destruct (Hall j e He) as [[Hk Hne] Hd]. split; [done|].
    intros [|i] e' Hi; cbn [lookup list_lookup]; [by intros [= <-]|]. apply Hd. lia.
  - intros Hall. split; [by apply (Hall 0%nat x)|]. intros j e He.
    destruct (Hall (S j) e He) as [Hk Hd]. split_and!; [done|by apply (Hd 0%nat x); [lia|]|].
    intros i e' Hi He'. by apply (Hd (S i) e'); [lia|].
Qed.

(** ** The window kept by [prune_anchors] *)

(** The positions of [anchors] are exactly [lo..=n]. *)
Definition spans (lo n : N) (anchors : Anchors) : Prop := forall q, is_Some (anchors !! q) <-> lo <= q <= n.

Lemma spans_size lo n anchors : spans lo n anchors -> lo <= n -> N.of_nat (size anchors) = n + 1 - lo.
Proof.
  intros Hs Hle. rewrite <-(size_dom anchors).
  set (ks := (fun i => lo + N.of_nat i) <$> List.seq 0 (N.to_nat (n + 1 - lo))).
  assert (dom anchors ≡ (list_to_set ks : gset N)) as ->.
  { intros q. rewrite elem_of_dom, elem_of_list_to_set, (Hs q). unfold ks. rewrite list_elem_of_fmap. split.
    - intros Hq. exists (N.to_nat (q - lo)). split; [lia|]. apply elem_of_seq. lia.
    - intros (i & -> & Hi%elem_of_seq). lia. }
  rewrite size_list_to_set; [unfold ks; rewrite length_fmap, length_seq; lia|].
  apply NoDup_fmap_2; [intros i j; lia|apply NoDup_seq].
Qed.

Lemma spans_oldest lo n anchors : spans lo n anchors -> lo <= n -> hd_error (btree_keys N.le anchors) = Some lo.
Proof.
  intros Hs Hle. assert (lo ∈ btree_keys N.le anchors) as Hlo.
  { destruct (proj2 (Hs lo)) as [a Ha]; [lia|]. apply list_elem_of_fmap. exists (lo, a). split; [done|].
    by apply elem_of_btree_iter. }
  pose proof (btree_iter_sorted N.le anchors) as Hsort.
  destruct (btree_keys N.le anchors) as [|k ks] eqn:Ek; [by apply not_elem_of_nil in Hlo|]. cbn. f_equal.
  apply N.le_antisymm.
  - apply elem_of_cons in Hlo as [->|Hin]; [done|]. inversion_clear Hsort as [|? ? _ Hk].
    by apply (proj1 (Forall_forall _ _) Hk).
  - assert (k ∈ btree_keys N.le anchors) as Hk by (rewrite Ek; apply list_elem_of_here).
    apply list_elem_of_fmap in Hk as ([q a] & -> & Hq%elem_of_btree_iter). cbn. apply Hs. by exists a.
Qed.

(** The rounds are enough, and what is left is the newest window. *)
Lemma prune_loop_spec rounds lo n anchors q :
  spans lo n anchors -> lo <= n -> n + 1 - lo <= N.of_nat rounds ->
  prune_loop rounds n anchors !! q = if n <? q + MAX_REPLAY_ANCHORS then anchors !! q else None.
Proof.
  revert lo anchors. induction rounds as [|rounds IH]; intros lo anchors Hs Hle Hr; [lia|]. cbn [prune_loop].
  rewrite (spans_size lo n) by done. destruct (N.leb_spec (n + 1 - lo) MAX_REPLAY_ANCHORS) as [Hsm|Hbig].
  - destruct (N.ltb_spec n (q + MAX_REPLAY_ANCHORS)); [done|].
    destruct (anchors !! q) eqn:E; [|done]. assert (lo <= q <= n) by (apply Hs; by eexists). lia.
  - rewrite (spans_oldest lo n) by done. change MAX_REPLAY_ANCHORS with 1025 in *.
    destruct (N.eqb_spec lo n); [lia|]. rewrite (IH (lo + 1)); [|  |lia|lia].
    + destruct (N.ltb_spec n (q + 1025)); [|done]. by rewrite lookup_delete_ne by lia.
    + intros k. destruct (decide (k = lo)) as [->|Hne].
      * rewrite lookup_delete_eq. split; [by intros []|lia].
      * rewrite lookup_delete_ne by done. rewrite (Hs k). lia.
Qed.

(** ** The loop of [apply] *)

Section loop.
Context (s : ReplayState) (after : StreamCursor).

Let n := position (rs_cursor s).

Lemma apply_loop_fresh anchors fresh i events out :
  position after + i = n + blen fresh -> n + blen fresh + blen events <= u64_max ->
  apply_loop s after anchors fresh i events = Ok out <->
  out = (add_anchors (n + blen fresh) anchors events, fresh ++ events) /\ unseen (n + blen fresh) anchors events.
Proof.
  revert anchors fresh i. induction events as [|e events IH]; intros anchors fresh i Hi Hmax; cbn [apply_loop].
  { rewrite app_nil_r. cbn. split; [by intros [= <-]|by intros [-> _]]. }
  assert (blen (e :: events) = 1 + blen events) as Hlen by (unfold blen; cbn; lia). rewrite Hlen in Hmax.
  assert (forall E (err : E), try_u64 err i = Ok i) as -> by (intros; apply try_u64_ok; lia).
  assert (forall E (err : E), try_u64 err (blen fresh) = Ok (blen fresh)) as -> by (intros; apply try_u64_ok; lia).
  cbn [mbind result_bind].
  assert (position_after after i = Some (n + blen fresh + 1)) as -> by (apply position_after_ok; lia).
  assert (position_after (rs_cursor s) (blen fresh) = Some (n + blen fresh + 1)) as ->
    by (apply position_after_ok; unfold n in *; lia).
  cbn [ok_or mbind result_bind]. destruct (N.leb_spec (n + blen fresh + 1) (position (rs_cursor s))); [unfold n in *; lia|].
  rewrite N.eqb_refl. cbn [negb]. rewrite fail_if_ok, IH.
  - rewrite blen_app, <-app_assoc. change (blen [e]) with 1. cbn [add_anchors unseen app].
    rewrite !N.add_assoc. fold (anchor_of e). tauto.
  - rewrite blen_app. change (blen [e]) with 1. lia.
  - rewrite blen_app. change (blen [e]) with 1. lia.
Qed.

(** The events at positions the state already has must be the ones it has. *)
Lemma apply_loop_overlap anchors i events out :
  position after + i <= n -> position after + i + blen events <= u64_max ->
  let k := N.to_nat (n - (position after + i)) in
  apply_loop s after anchors [] i events = Ok out <->
  (forall j e, (j < k)%nat -> events !! j = Some e ->
     rs_anchors s !! (position after + i + N.of_nat j + 1) = Some (anchor_of e))
  /\ apply_loop s after anchors [] (i + N.of_nat (min k (length events))) (drop k events) = Ok out.
Proof.
  revert i. induction events as [|e events IH]; intros i Hi Hmax; cbn zeta.
  { rewrite drop_nil. cbn [apply_loop]. split; [intros E; split; [intros; by rewrite lookup_nil in *|done]|by intros [_ E]]. }
  destruct (decide (position after + i = n)) as [Heq|Hne].
  { rewrite Heq, N.sub_diag. cbn [N.to_nat Nat.min drop length]. rewrite N.add_0_r. split; [split; [lia|done]|by intros [_ ?]]. }
  assert (blen (e :: events) = 1 + blen events) as Hlen by (unfold blen; cbn; lia). rewrite Hlen in Hmax.
  replace (N.to_nat (n - (position after + i))) with (S (N.to_nat (n - (position after + (i + 1))))) by lia.
  cbn [drop length Nat.min]. cbn [apply_loop].
  assert (forall E (err : E), try_u64 err i = Ok i) as -> by (intros; apply try_u64_ok; lia).
  cbn [mbind result_bind].  assert (position_after after i = Some (position after + i + 1)) as -> by (apply position_after_ok; lia).
  rewrite ok_or_some. cbn [mbind result_bind].
  destruct (N.leb_spec (position after + i + 1) (position (rs_cursor s))); [|unfold n in *; lia].
  specialize (IH (i + 1)). cbn zeta in IH. rewrite bind_ok.
  assert (forall a, (fail_if negb (String.eqb (anchor_head_hash a) (rc_server_hash (ve_receipt e)))
                   || negb (bool_decide (event_identity a = Some (identity_of e)))
             with invalid "events" "overlap changed event identity or durable hash" ;;
             apply_loop s after anchors [] (i + 1) events) = Ok out
           <-> a = anchor_of e /\ apply_loop s after anchors [] (i + 1) events = Ok out) as Hstep.
  { intros [hd ident]. rewrite fail_if_ok, orb_false_iff, !negb_false_iff, String.eqb_eq, bool_decide_eq_true.
    cbn. unfold anchor_of. split; [intros [[-> ->] ?]; done|intros [[= -> ->] ?]; done]. }
  setoid_rewrite Hstep. specialize (IH ltac:(lia) ltac:(lia)).
  replace (i + N.of_nat (S (N.to_nat (n - (position after + (i + 1))) `min` length events)))
    with (i + 1 + N.of_nat (N.to_nat (n - (position after + (i + 1))) `min` length events)) by lia.
  split.
  - intros (a & Ha%ok_or_ok & -> & [Hall Hout]%IH). split; [|done]. intros [|j] e' Hj He'; cbn in He'.
    + injection He' as <-. by rewrite N.add_0_r.
    + rewrite <-(Hall j e') by (lia || done). f_equal. lia.
  - intros [Hall Hout]. exists (anchor_of e). split_and!; [|done|apply IH; split; [|done]].
    + apply ok_or_ok. rewrite <-(Hall 0%nat e) by (lia || done). f_equal. cbn. lia.
    + intros j e' Hj He'. rewrite <-(Hall (S j) e') by (lia || done). f_equal. lia.
Qed.

(** The loop in one equation. *)
Lemma apply_loop_exact anchors events out :
  position after <= n -> position after + blen events <= u64_max -> n <= u64_max ->
  let k := N.to_nat (n - position after) in
  apply_loop s after anchors [] 0 events = Ok out <->
  (forall j e, (j < k)%nat -> events !! j = Some e ->
     rs_anchors s !! (position after + N.of_nat j + 1) = Some (anchor_of e))
  /\ out = (add_anchors n anchors (drop k events), drop k events) /\ unseen n anchors (drop k events).
Proof.
  intros Hle Hmax Hn. cbn zeta. rewrite apply_loop_overlap by lia. cbn zeta. rewrite !N.add_0_r, N.add_0_l.
  set (k := N.to_nat (n - position after)).
  destruct (decide (k <= length events)%nat) as [Hk|Hk].
  - rewrite apply_loop_fresh.
    + change (blen []) with 0. by rewrite N.add_0_r.
    + change (blen []) with 0. lia.
    + change (blen []) with 0. unfold blen in *. rewrite length_drop. lia.
  - rewrite drop_ge by lia. cbn. split; [intros [? [= <-]]; done|intros (? & -> & _); done].
Qed.
End loop.

(** ** Verified pages *)

Definition receipts_of (d : list VerifiedAcceptedEvent) : list Receipt := map ve_receipt d.

Definition raw_event (e : VerifiedAcceptedEvent) : AcceptedEvent := mkAccepted (ve_envelope e) (ve_receipt e).

Section sync.
Context `{SerdeJson, Sha256}.
Context (verifier : Verifier) (policy : Policy).

(** What is known of an event that reaches the sink. *)
Record trusted (stream : string) (authority : AuthorityId) (e : VerifiedAcceptedEvent) : Prop := {
  tr_accepts : accepts_on stream (raw_event e);
  tr_authority : ve_authority e = authority;
  tr_signed : signed_receipt verifier authority (ve_receipt e);
  tr_policy : policy (env_kind (ve_envelope e)) (env_schema_version (ve_envelope e)) = Ok tt }.

(** A page that passed [validate], against some state, and then [verify]. *)
Definition authentic (v : VerifiedPullPage) : Prop :=
  exists request page against w,
    validate_pull request page against = Ok w /\ verify_pull w verifier policy = Ok v.

Record verified_segment (v : VerifiedPullPage) : Prop := {
  vs_segment : page_segment (vpp_page v) (vpp_request v);
  vs_raw : map raw_event (vpp_events v) = page_events (vpp_page v);
  vs_trusted : Forall (trusted (req_stream_id (vpp_request v)) (vpp_authority v)) (vpp_events v) }.

Lemma authentic_segment v : authentic v -> verified_segment v.
Proof.
  intros (request & page & against & w & Hval & Hver). unfold validate_pull in Hval.
  rewrite !bind_unit_ok, !map_err_ok in Hval. destruct Hval as (Hpage%validate_page_segment & _ & [= <-]).
  unfold verify_pull in Hver. cbn in Hver. rewrite bind_ok in Hver. destruct Hver as (signed & _ & Hver).
  rewrite bind_ok in Hver. destruct Hver as (authority & _ & Hver).
  rewrite bind_ok in Hver. destruct Hver as (events & (-> & Hsig & Hpol)%verify_events_ok & [= <-]).
  pose proof (ps_events _ _ Hpage) as Hacc. constructor; cbn; [done| |].
  - rewrite map_map. cbn. rewrite <-(map_id (page_events page)) at 2. apply map_ext. by intros [].
  - apply Forall_forall. intros e (a & -> & Ha)%list_elem_of_fmap.
    rewrite Forall_forall in Hacc, Hsig, Hpol. constructor; cbn; [|done|by apply Hsig|by apply Hpol].
    specialize (Hacc a Ha). by destruct a.
Qed.

Lemma receipts_of_page v : verified_segment v -> receipts_of (vpp_events v) = map receipt (page_events (vpp_page v)).
Proof. intros [_ <- _]. unfold receipts_of. by rewrite map_map. Qed.

(** ** The invariant *)

Record synced (stream : string) (s : ReplayState) (d : list VerifiedAcceptedEvent) : Prop := {
  sy_stream : rs_stream_id s = stream;
  sy_chain : chained genesis (receipts_of d);
  sy_cursor : rs_cursor s = chain_end genesis (receipts_of d);
  sy_fits : position (rs_cursor s) <= u64_max;
  sy_anchors : forall q, rs_anchors s !! q =
                 if position (rs_cursor s) <? q + MAX_REPLAY_ANCHORS then anchor_at d q else None;
  sy_trusted : forall e, e ∈ d -> exists authority, rs_authority s = Some authority /\ trusted stream authority e;
  sy_window : forall i j e e', d !! i = Some e -> d !! j = Some e' -> (i < j <= i + N.to_nat MAX_REPLAY_ANCHORS)%nat ->
                event_id (raw_event e) <> event_id (raw_event e');
  sy_snapshot : forall c, rs_snapshot s = Some c ->
                  position (rs_cursor s) <= position c
                  /\ (position (rs_cursor s) = position c -> rs_cursor s = c) }.

Lemma synced_new stream s : replay_new stream = Ok s -> synced stream s [].
Proof.
  unfold replay_new. intros E. split_ok. subst s. constructor; cbn; try done.
  2:{ by intros e He%not_elem_of_nil. }
  intros q. unfold anchor_at. change MAX_REPLAY_ANCHORS with 1025.
  destruct (N.ltb_spec 0 (q + 1025)); [|lia]. destruct (N.eqb_spec q 0) as [->|Hq].
  - by rewrite lookup_singleton_eq.
  - by rewrite lookup_singleton_ne by done.
Qed.

Lemma synced_position stream s d : synced stream s d -> position (rs_cursor s) = blen d.
Proof.
  intros Hs. rewrite (sy_cursor _ _ _ Hs), chained_position by apply Hs. cbn. unfold receipts_of, blen.
  by rewrite length_map.
Qed.

(** The anchor at the cursor holds the cursor's hash. *)
Lemma anchor_at_head d a :
  anchor_at d (blen d) = Some a -> anchor_head_hash a = head_hash (chain_end genesis (receipts_of d)).
Proof.
  unfold anchor_at, receipts_of. destruct d as [|e d _] using rev_ind; [by intros [= <-]|].
  rewrite map_app, blen_app. cbn [map]. rewrite chain_end_snoc. change (blen [e]) with 1.
  destruct (N.eqb_spec (blen d + 1) 0); [lia|]. unfold blen.
  replace (N.to_nat (N.of_nat (length d) + 1 - 1)) with (length d) by lia.
  rewrite list_lookup_middle by done. by intros [= <-].
Qed.

Lemma anchor_at_app d d' q : q <= blen d -> anchor_at (d ++ d') q = anchor_at d q.
Proof.
  intros Hq. unfold anchor_at. destruct (N.eqb_spec q 0); [done|].
  rewrite lookup_app_l; [done|]. unfold blen in Hq. lia.
Qed.

Lemma anchor_at_some d q : is_Some (anchor_at d q) <-> q <= blen d.
Proof.
  unfold anchor_at. destruct (N.eqb_spec q 0) as [->|Hq]; [split; [lia|by eexists]|].
  rewrite fmap_is_Some, lookup_lt_is_Some. unfold blen. lia.
Qed.

(** ** One page *)

Record preflight_ok (s : ReplayState) (request : PullRequest) (page : PullPage) : Prop := {
  pf_streams : req_stream_id request = rs_stream_id s /\ page_stream_id page = rs_stream_id s;
  pf_after : position (req_after request) <= position (rs_cursor s);
  pf_anchor : exists a, rs_anchors s !! position (req_after request) = Some a
                        /\ anchor_head_hash a = head_hash (req_after request);
  pf_snapshot : position (rs_cursor s) <= position (page_snapshot_cursor page);
  pf_fork : position (rs_cursor s) = position (page_snapshot_cursor page) -> rs_cursor s = page_snapshot_cursor page;
  pf_bound : forall bound, rs_snapshot s = Some bound ->
               page_snapshot_cursor page = bound \/ (req_snapshot request = Latest /\ rs_cursor s = bound) }.

Lemma preflight_exact s request page : preflight s request page = Ok tt <-> preflight_ok s request page.
Proof.
  unfold preflight. cbv zeta. rewrite !fail_if_ok, bind_ok, orb_false_iff, !negb_false_iff, !String.eqb_eq, N.ltb_ge.
  split.
  - intros (Hst & Haf & a & Ha%ok_or_ok & E). rewrite !fail_if_ok in E. destruct E as (Hh & Hsn & Hfk & Hb).
    reflect_guards. constructor; [done|done|by exists a|done| |].
    + intros Ep. apply cursor_ext; [done|]. apply andb_false_iff in Hfk as [Hf|Hf]; reflect_guards; done.
    + intros bound Eb. rewrite Eb in Hb. destruct (req_snapshot request) eqn:Er; rewrite refuse_if_ok in Hb.
      * apply andb_false_iff in Hb as [Hb|Hb]; reflect_guards; auto.
      * reflect_guards. by left.
  - intros [Hst Haf (a & Ha & Hh) Hsn Hfk Hb]. split_and!; [apply Hst..|done|]. exists a. rewrite ok_or_ok, !fail_if_ok.
    split_and!; [done|by rewrite Hh, String.eqb_refl|by apply N.ltb_ge| |].
    + destruct (N.eqb_spec (position (page_snapshot_cursor page)) (position (rs_cursor s))) as [Ep|]; [|done].
      rewrite <-Hfk by done. by rewrite String.eqb_refl.
    + destruct (rs_snapshot s) as [bound|]; [|done].
      destruct (Hb bound eq_refl) as [->|[-> ->]].
      * rewrite (bool_decide_eq_true_2 (bound = bound)) by done. cbn. rewrite andb_false_r. by destruct (req_snapshot request).
      * by rewrite (bool_decide_eq_true_2 (bound = bound)).
Qed.

(** The overlap of a page with the state. *)
Definition overlap (v : VerifiedPullPage) (s : ReplayState) : nat :=
  N.to_nat (position (rs_cursor s) - position (req_after (vpp_request v))).

(** What [plan] computes when it succeeds. *)
Definition planned (v : VerifiedPullPage) (s : ReplayState) : ReplayState :=
  let fresh := drop (overlap v s) (vpp_events v) in
  prune_anchors
    (mkReplay (rs_stream_id s) (Some (vpp_authority v)) (chain_end (rs_cursor s) (receipts_of fresh))
       (Some (page_snapshot_cursor (vpp_page v))) (add_anchors (position (rs_cursor s)) (rs_anchors s) fresh)).

(** When it succeeds. *)
Record plannable (v : VerifiedPullPage) (s : ReplayState) : Prop := {
  pl_preflight : preflight_ok s (vpp_request v) (vpp_page v);
  pl_authority : forall bound, rs_authority s = Some bound -> bound = vpp_authority v;
  pl_overlap : forall j e, (j < overlap v s)%nat -> vpp_events v !! j = Some e ->
      rs_anchors s !! (position (req_after (vpp_request v)) + N.of_nat j + 1) = Some (anchor_of e);
  pl_unseen : unseen (position (rs_cursor s)) (rs_anchors s) (drop (overlap v s) (vpp_events v)) }.

Section page.
Context (stream : string) (s : ReplayState) (d : list VerifiedAcceptedEvent) (v : VerifiedPullPage).
Context (Hsync : synced stream s d) (Hseg : verified_segment v).

Lemma page_positions :
  position (page_next_cursor (vpp_page v)) = position (req_after (vpp_request v)) + blen (vpp_events v).
Proof.
  rewrite (ps_next _ _ (vs_segment _ Hseg)), chained_position by apply Hseg.
  rewrite <-receipts_of_page by done. unfold receipts_of, blen. by rewrite length_map.
Qed.

(** Where the overlap ends, the page is at the cursor. *)
Lemma overlap_cursor :
  plannable v s -> (overlap v s <= length (vpp_events v))%nat ->
  chain_end (req_after (vpp_request v)) (receipts_of (take (overlap v s) (vpp_events v))) = rs_cursor s.
Proof.
  intros [[_ Haf (a & Ha & Hh) _ _ _] _ Hov _] Hk. pose proof (ps_chain _ _ (vs_segment _ Hseg)) as Hch.
  assert (forall b, rs_anchors s !! position (rs_cursor s) = Some b -> anchor_head_hash b = head_hash (rs_cursor s)) as Hhead.
  { intros b. rewrite (sy_anchors _ _ _ Hsync), (synced_position _ _ _ Hsync), (sy_cursor _ _ _ Hsync).
    destruct (_ <? _); [apply anchor_at_head|done]. }
  rewrite <-receipts_of_page in Hch by done.
  rewrite <-(take_drop (overlap v s) (vpp_events v)) in Hch. unfold receipts_of in Hch at 1. rewrite map_app, chained_app in Hch.
  destruct Hch as [Hch _]. apply cursor_ext.
  - rewrite chained_position by done. unfold receipts_of, blen. rewrite length_map, length_take. unfold overlap in *. lia.
  - destruct (overlap v s) as [|k] eqn:Ek.
    + change (head_hash (req_after (vpp_request v)) = head_hash (rs_cursor s)). rewrite <-Hh. apply Hhead. rewrite <-Ha. f_equal. unfold overlap in Ek. lia.
    + destruct (lookup_lt_is_Some_2 (vpp_events v) k) as [e He]; [lia|].
      rewrite (take_S_r _ _ e) by done. unfold receipts_of. rewrite map_app. cbn [map]. rewrite chain_end_snoc. cbn.
      rewrite <-(Hhead (anchor_of e)); [done|]. rewrite <-(Hov k e) by (lia || done). f_equal. unfold overlap in Ek. lia.
Qed.

(** The cursor [apply] chooses. *)
Lemma planned_cursor :
  plannable v s ->
  (if position (rs_cursor s) <? position (page_next_cursor (vpp_page v)) then Ok (page_next_cursor (vpp_page v))
   else if (position (page_next_cursor (vpp_page v)) =? position (rs_cursor s))
           && negb (String.eqb (head_hash (page_next_cursor (vpp_page v))) (head_hash (rs_cursor s)))
   then Err (invalid "next_cursor" "same position changed durable head")
   else Ok (rs_cursor s))
  = Ok (chain_end (rs_cursor s) (receipts_of (drop (overlap v s) (vpp_events v)))).
Proof.
  intros Hpl. pose proof (pf_after _ _ _ (pl_preflight _ _ Hpl)) as Haf. pose proof page_positions as Hpos.
  assert ((overlap v s <= length (vpp_events v))%nat ->
          page_next_cursor (vpp_page v) = chain_end (rs_cursor s) (receipts_of (drop (overlap v s) (vpp_events v)))) as Hnext.
  { intros Hk. rewrite <-overlap_cursor by done. rewrite <-chain_end_app. unfold receipts_of.
    rewrite <-map_app, take_drop. rewrite (ps_next _ _ (vs_segment _ Hseg)). by rewrite <-receipts_of_page. }
  unfold blen in Hpos. destruct (N.ltb_spec (position (rs_cursor s)) (position (page_next_cursor (vpp_page v)))) as [Hlt|Hge].
  - f_equal. apply Hnext. unfold overlap. lia.
  - rewrite drop_ge by (unfold overlap; lia). cbn. change (chain_end (rs_cursor s) []) with (rs_cursor s).
    destruct (N.eqb_spec (position (page_next_cursor (vpp_page v))) (position (rs_cursor s))) as [Heq|]; [|done].
    rewrite Hnext by (unfold overlap; lia). rewrite drop_ge by (unfold overlap; lia). cbn.
    change (chain_end (rs_cursor s) []) with (rs_cursor s). by rewrite String.eqb_refl.
Qed.

(** [plan] succeeds exactly on plannable pages, and its result. *)
Lemma plan_exact out :
  plan v s = Ok out <-> plannable v s /\ out = (planned v s, drop (overlap v s) (vpp_events v)).
Proof.
  pose proof (ps_fits _ _ (vs_segment _ Hseg)) as Hfits. rewrite page_positions in Hfits.
  pose proof (sy_fits _ _ _ Hsync) as Hn. unfold plan. cbv zeta.
  rewrite bind_unit_ok, map_err_ok, preflight_exact, fail_if_ok, bind_ok.
  assert (match rs_authority s with Some bound => negb (bool_decide (bound = vpp_authority v)) | None => false end = false
          <-> (forall bound, rs_authority s = Some bound -> bound = vpp_authority v)) as ->.
  { destruct (rs_authority s) as [b|]; [|done]. rewrite negb_false_iff, bool_decide_eq_true. naive_solver. }
  split.
  - intros (Hpf & Hau & [anchors fresh] & Hloop & E).
    apply apply_loop_exact in Hloop; [|apply Hpf|done|done]. destruct Hloop as (Hov & Eout & Hun).
    injection Eout as -> ->. assert (plannable v s) as Hpl by (constructor; done). split; [done|].
    rewrite planned_cursor in E by done. cbn [mbind result_bind] in E. by injection E as <-.
  - intros [Hpl ->]. split_and!; [apply Hpl..|].
    exists (add_anchors (position (rs_cursor s)) (rs_anchors s) (drop (overlap v s) (vpp_events v)),
            drop (overlap v s) (vpp_events v)). split.
    + apply apply_loop_exact; [apply Hpl|done|done|]. split_and!; [apply Hpl|done|apply Hpl].
    + rewrite planned_cursor by done. done.
Qed.
End page.

(** ** The invariant is preserved *)

Section step.
Context (stream : string) (s : ReplayState) (d : list VerifiedAcceptedEvent) (v : VerifiedPullPage).
Context (Hsync : synced stream s d) (Hseg : verified_segment v) (Hpl : plannable v s).

Let fresh := drop (overlap v s) (vpp_events v).
Let n := position (rs_cursor s).

Lemma fresh_chain : chained (rs_cursor s) (receipts_of fresh).
Proof.
  pose proof (ps_chain _ _ (vs_segment _ Hseg)) as Hch. rewrite <-receipts_of_page in Hch by done.
  destruct (decide (overlap v s <= length (vpp_events v))%nat) as [Hk|Hk].
  - rewrite <-(take_drop (overlap v s) (vpp_events v)) in Hch. unfold receipts_of in Hch. rewrite map_app, chained_app in Hch.
    destruct Hch as [_ Hch]. fold (receipts_of (take (overlap v s) (vpp_events v))) in Hch.
    by rewrite (overlap_cursor stream s d v) in Hch.
  - unfold fresh. rewrite drop_ge by lia. done.
Qed.

Lemma fresh_position : position (chain_end (rs_cursor s) (receipts_of fresh)) = n + blen fresh.
Proof. rewrite chained_position by apply fresh_chain. unfold receipts_of, blen. by rewrite length_map. Qed.

(** Either the page brings events, and ends where they end, or it ends within the state. *)
Lemma fresh_or_old :
  (fresh <> [] /\ chain_end (rs_cursor s) (receipts_of fresh) = page_next_cursor (vpp_page v)
   /\ n + blen fresh = position (req_after (vpp_request v)) + blen (vpp_events v))
  \/ (fresh = [] /\ (length (vpp_events v) <= overlap v s)%nat).
Proof.
  destruct (decide (length (vpp_events v) <= overlap v s)%nat) as [Hk|Hk].
  { right. split; [by apply drop_ge|done]. }
  left. pose proof (planned_cursor stream s d v Hsync Hseg Hpl) as Hc.
  pose proof (pf_after _ _ _ (pl_preflight _ _ Hpl)) as Haf.
  pose proof (page_positions v Hseg) as Hpos. fold fresh in Hc. unfold blen in *.
  assert (length fresh = (length (vpp_events v) - overlap v s)%nat) as Hlen by (unfold fresh; by rewrite length_drop).
  destruct (N.ltb_spec (position (rs_cursor s)) (position (page_next_cursor (vpp_page v)))) as [Hlt|Hge]; [|unfold overlap in *; lia].
  injection Hc as Hc. split_and!; [by intros E; rewrite E in Hlen; cbn in Hlen; lia|done|].
  unfold n, overlap in *. lia.
Qed.

Lemma anchors_bound q : is_Some (rs_anchors s !! q) -> q <= n.
Proof.
  rewrite (sy_anchors _ _ _ Hsync). destruct (_ <? _); [|by intros []].
  intros Hq%anchor_at_some. unfold n. by rewrite (synced_position _ _ _ Hsync).
Qed.

(** Before pruning, the anchors are those of the longer stream. *)
Lemma added_anchors q :
  add_anchors n (rs_anchors s) fresh !! q
  = if n <? q + MAX_REPLAY_ANCHORS then anchor_at (d ++ fresh) q else None.
Proof.
  pose proof (synced_position _ _ _ Hsync) as Hn. fold n in Hn. rewrite lookup_add_anchors, (sy_anchors _ _ _ Hsync). fold n.
  destruct (N.ltb_spec n q) as [Hq|Hq].
  - destruct (N.ltb_spec n (q + MAX_REPLAY_ANCHORS)); [|lia]. unfold anchor_at at 2.
    destruct (N.eqb_spec q 0); [lia|]. rewrite lookup_app_r by (unfold blen in Hn; lia).
    replace (N.to_nat (q - 1) - length d)%nat with (N.to_nat (q - n - 1)) by (unfold blen in Hn; lia).
    destruct (fresh !! N.to_nat (q - n - 1)); [done|]. cbn. destruct (anchor_at d q) eqn:E; [|done].
    assert (q <= blen d) by (apply anchor_at_some; by eexists). lia.
  - destruct (n <? q + MAX_REPLAY_ANCHORS); [|done]. by rewrite anchor_at_app by lia.
Qed.

Lemma planned_anchors q :
  rs_anchors (planned v s) !! q
  = if n + blen fresh <? q + MAX_REPLAY_ANCHORS then anchor_at (d ++ fresh) q else None.
Proof.
  pose proof (synced_position _ _ _ Hsync) as Hn. fold n in Hn. assert (MAX_REPLAY_ANCHORS = 1025) as Hmax by done.
  unfold planned. fold fresh n. cbv zeta. unfold prune_anchors. cbn [rs_anchors rs_cursor]. rewrite fresh_position.
  assert (spans (n + 1 - MAX_REPLAY_ANCHORS) (n + blen fresh) (add_anchors n (rs_anchors s) fresh)) as Hspan.
  { intros k. rewrite added_anchors. destruct (N.ltb_spec n (k + MAX_REPLAY_ANCHORS)).
    - rewrite anchor_at_some, blen_app. lia.
    - split; [by intros []|lia]. }
  rewrite (prune_loop_spec _ _ _ _ _ Hspan).
  - rewrite added_anchors. destruct (N.ltb_spec (n + blen fresh) (q + MAX_REPLAY_ANCHORS)); [|done].
    by destruct (N.ltb_spec n (q + MAX_REPLAY_ANCHORS)); [|lia].
  - lia.
  - rewrite (spans_size _ _ _ Hspan); lia.
Qed.

Lemma planned_window i j e e' :
  (d ++ fresh) !! i = Some e -> (d ++ fresh) !! j = Some e' ->
  (i < j <= i + N.to_nat MAX_REPLAY_ANCHORS)%nat -> event_id (raw_event e) <> event_id (raw_event e').
Proof.
  intros Hi Hj Hij. pose proof (synced_position _ _ _ Hsync) as Hn.
  destruct (decide (j < length d)%nat) as [Hjd|Hjd].
  { rewrite lookup_app_l in Hi, Hj by lia. by apply (sy_window _ _ _ Hsync i j). }
  rewrite lookup_app_r in Hj by lia.
  pose proof (proj1 (unseen_spec _ _ _ anchors_bound) (pl_unseen _ _ Hpl) _ _ Hj) as [Hk Hd].
  destruct (decide (i < length d)%nat) as [Hid|Hid].
  - rewrite lookup_app_l in Hi by done. intros E. apply not_true_iff_false in Hk. apply Hk.
    apply identity_known_spec. exists (N.of_nat i + 1), (anchor_of e), (rc_server_hash (ve_receipt e)). split.
    + rewrite (sy_anchors _ _ _ Hsync). unfold blen in Hn. destruct (N.ltb_spec (position (rs_cursor s)) (N.of_nat i + 1 + MAX_REPLAY_ANCHORS)); [|lia].
      unfold anchor_at. destruct (N.eqb_spec (N.of_nat i + 1) 0); [lia|].
      replace (N.to_nat (N.of_nat i + 1 - 1)) with i by lia. by rewrite Hi.
    + cbn. unfold identity_of. unfold event_id in E. cbn in E. by rewrite E.
  - rewrite lookup_app_r in Hi by lia. apply (Hd (i - length d)%nat); [lia|done].
Qed.

Lemma planned_synced : synced stream (planned v s) (d ++ fresh).
Proof.
  pose proof (vs_segment _ Hseg) as Hpage. pose proof (synced_position _ _ _ Hsync) as Hn.
  destruct (pl_preflight _ _ Hpl) as [[Hst1 Hst2] Haf _ Hsn Hfk _].
  constructor.
  - apply (sy_stream _ _ _ Hsync).
  - unfold receipts_of. rewrite map_app, chained_app. split; [apply Hsync|].
    fold (receipts_of d). rewrite <-(sy_cursor _ _ _ Hsync). apply fresh_chain.
  - cbn. fold fresh. unfold receipts_of at 2. rewrite map_app, chain_end_app. fold (receipts_of d).
    by rewrite <-(sy_cursor _ _ _ Hsync).
  - cbn. fold fresh. destruct fresh_or_old as [(_ & -> & _)|[-> _]]; [apply Hpage|apply Hsync].
  - intros q. rewrite planned_anchors. cbn [planned prune_anchors rs_cursor]. fold fresh. by rewrite fresh_position.
  - intros e [He|He]%elem_of_app; cbn.
    + destruct (sy_trusted _ _ _ Hsync e He) as (a & Ha & Ht). exists (vpp_authority v). split; [done|].
      by rewrite <-(pl_authority _ _ Hpl a).
    + exists (vpp_authority v). split; [done|]. pose proof (vs_trusted _ Hseg) as Ht. rewrite Forall_forall in Ht.
      rewrite <-(sy_stream _ _ _ Hsync), <-Hst1. apply Ht. unfold fresh in He.
      rewrite <-(take_drop (overlap v s) (vpp_events v)), elem_of_app. by right.
  - intros i j e e'. apply planned_window.
  - cbn. fold fresh. intros c [= <-]. destruct fresh_or_old as [(_ & -> & _)|[-> _]].
    + split; [apply Hpage|by apply (ps_head _ _ Hpage)].
    + by split.
Qed.
End step.

(** ** Re-applying a page *)

Section again.
Context (stream : string) (s : ReplayState) (d : list VerifiedAcceptedEvent) (v : VerifiedPullPage).
Context (Hsync : synced stream s d) (Hseg : verified_segment v) (Hpl : plannable v s).

Let fresh := drop (overlap v s) (vpp_events v).

Lemma planned_position : position (rs_cursor (planned v s)) = position (rs_cursor s) + blen fresh.
Proof. cbn. by apply (fresh_position stream s d v). Qed.

(** The whole page lies within the state it led to. *)
Lemma planned_covers :
  position (req_after (vpp_request v)) + blen (vpp_events v) <= position (rs_cursor (planned v s))
  /\ position (rs_cursor (planned v s)) < position (req_after (vpp_request v)) + MAX_REPLAY_ANCHORS.
Proof.
  rewrite planned_position. destruct (pl_preflight _ _ Hpl) as [_ Haf (a & Ha & _) _ _ _].
  rewrite (sy_anchors _ _ _ Hsync) in Ha. pose proof (ps_limit _ _ (vs_segment _ Hseg)) as Hlim.
  pose proof (ps_request _ _ (vs_segment _ Hseg)) as Hreq. unfold validate_request in Hreq.
  repeat rewrite ?bind_unit_ok in Hreq. destruct Hreq as (_ & _ & _ & _ & _ & Hreq). rewrite refuse_if_ok in Hreq. reflect_guards.
  assert (blen (vpp_events v) = blen (page_events (vpp_page v))) as Hlen
    by (unfold blen; by rewrite <-(vs_raw _ Hseg), length_map).
  change MAX_REPLAY_ANCHORS with 1025 in *. change MAX_PULL_EVENTS with 256 in *.
  destruct (N.ltb_spec (position (rs_cursor s)) (position (req_after (vpp_request v)) + 1025)); [|done].
  destruct (fresh_or_old stream s d v Hsync Hseg Hpl) as [(_ & _ & Hp)|[Hnil Hk]].
  - fold fresh in Hp. lia.
  - fold fresh in Hnil. rewrite Hnil. change (blen []) with 0. unfold overlap, blen in *. lia.
Qed.

Lemma planned_old_anchor q a :
  position (req_after (vpp_request v)) <= q -> rs_anchors s !! q = Some a -> rs_anchors (planned v s) !! q = Some a.
Proof.
  intros Hq Ha. assert (q <= position (rs_cursor s)) as Hqn by (apply (anchors_bound stream s d Hsync); by eexists).
  rewrite (planned_anchors stream s d v) by done. rewrite (sy_anchors _ _ _ Hsync) in Ha. fold fresh.
  pose proof planned_covers as [_ Hc]. rewrite planned_position in Hc.
  destruct (N.ltb_spec (position (rs_cursor s) + blen fresh) (q + MAX_REPLAY_ANCHORS)); [|lia].
  destruct (_ <? _) in Ha; [|done]. rewrite anchor_at_app; [done|]. by rewrite <-(synced_position _ _ _ Hsync).
Qed.

Lemma planned_again : plannable v (planned v s).
Proof.
  pose proof (planned_synced stream s d v Hsync Hseg Hpl) as Hsync'. fold fresh in Hsync'.
  pose proof planned_covers as [Hc1 Hc2]. pose proof planned_position as Hp.
  destruct (pl_preflight _ _ Hpl) as [Hst Haf (a & Ha & Hh) _ _ _].
  destruct (sy_snapshot _ _ _ Hsync' (page_snapshot_cursor (vpp_page v)) eq_refl) as [Hs1 Hs2].
  constructor.
  - constructor; [done|lia| |done|done|].
    + exists a. split; [|done]. by apply planned_old_anchor.
    + cbn. intros bound [= <-]. by left.
  - by intros bound [= <-].
  - intros j e Hj He. destruct (decide (j < overlap v s)%nat) as [Hlt|Hge].
    + apply planned_old_anchor; [lia|]. by apply (pl_overlap _ _ Hpl).
    + rewrite (planned_anchors stream s d v) by done. fold fresh. rewrite <-Hp.
      destruct (N.ltb_spec (position (rs_cursor (planned v s))) (position (req_after (vpp_request v)) + N.of_nat j + 1 + MAX_REPLAY_ANCHORS)); [|lia].
      pose proof (synced_position _ _ _ Hsync) as Hn. unfold anchor_at.
      destruct (N.eqb_spec (position (req_after (vpp_request v)) + N.of_nat j + 1) 0); [lia|].
      unfold blen, overlap in *. rewrite lookup_app_r by lia. unfold fresh, overlap. rewrite lookup_drop.
      replace (_ + _)%nat with j by lia. by rewrite He.
  - rewrite drop_ge; [done|]. unfold overlap, blen in *. lia.
Qed.

Lemma planned_idempotent : planned v (planned v s) = planned v s.
Proof.
  pose proof (planned_synced stream s d v Hsync Hseg Hpl) as Hsync'. fold fresh in Hsync'.
  pose proof planned_covers as [Hc _].
  unfold planned at 1. rewrite drop_ge by (unfold overlap, blen in *; lia). cbv zeta. cbn [receipts_of map add_anchors].
  change (chain_end (rs_cursor (planned v s)) []) with (rs_cursor (planned v s)).
  unfold prune_anchors. cbn [rs_stream_id rs_authority rs_snapshot rs_cursor rs_anchors].
  assert (prune_loop (size (rs_anchors (planned v s))) (position (rs_cursor (planned v s))) (rs_anchors (planned v s))
          = rs_anchors (planned v s)) as ->; [|done].
  apply map_eq. intros q. pose proof (synced_position _ _ _ Hsync') as Hn.
  assert (MAX_REPLAY_ANCHORS = 1025) as Hmax by done.
  assert (spans (position (rs_cursor (planned v s)) + 1 - MAX_REPLAY_ANCHORS) (position (rs_cursor (planned v s)))
            (rs_anchors (planned v s))) as Hspan.
  { intros k. rewrite (sy_anchors _ _ _ Hsync'). destruct (N.ltb_spec (position (rs_cursor (planned v s))) (k + MAX_REPLAY_ANCHORS)).
    - rewrite anchor_at_some, <-Hn. lia.
    - split; [by intros []|lia]. }
  rewrite (prune_loop_spec _ _ _ _ _ Hspan); [|lia|rewrite (spans_size _ _ _ Hspan); lia].
  rewrite (sy_anchors _ _ _ Hsync'). by destruct (_ <? _).
Qed.

Lemma overlap_again : drop (overlap v (planned v s)) (vpp_events v) = [].
Proof. pose proof planned_covers as [Hc _]. apply drop_ge. unfold overlap, blen in *. lia. Qed.
End again.

(** ** [apply] *)

Section applying.
Context {S : Type} (apply_batch : S -> list VerifiedAcceptedEvent -> S * result string unit).

Definition summary (v : VerifiedPullPage) (s' : ReplayState) (count : N) : AppliedPullPage :=
  mkApplied count (rs_cursor s') (page_snapshot_cursor (vpp_page v))
    (bool_decide (rs_cursor s' = page_snapshot_cursor (vpp_page v))) (vpp_authority v).

Lemma apply_planned stream s d v sink :
  synced stream s d -> verified_segment v -> plannable v s ->
  let fresh := drop (overlap v s) (vpp_events v) in
  apply apply_batch v s sink =
  match fresh with
  | [] => (planned v s, sink, Ok (summary v (planned v s) 0))
  | _ => let '(sink', r) := apply_batch sink fresh in
         match r with
         | Ok _ => (planned v s, sink', Ok (summary v (planned v s) (blen fresh)))
         | Err m => (s, sink', Err (Reducer m))
         end
  end.
Proof.
  intros Hsync Hseg Hpl fresh. unfold apply.
  assert (plan v s = Ok (planned v s, fresh)) as -> by (by apply (plan_exact stream s d)).
  cbn [mbind result_bind].
  assert (try_u64 (invalid "events" "count overflow") (blen fresh) = Ok (blen fresh)) as ->.
  { apply try_u64_ok. split; [|done]. pose proof (planned_synced stream s d v Hsync Hseg Hpl) as Hs'.
    pose proof (sy_fits _ _ _ Hs') as Hf. rewrite (planned_position stream s d v) in Hf by done. fold fresh in Hf. lia. }
  cbn [mbind result_bind]. destruct fresh as [|e fresh']; [done|]. by destruct (apply_batch sink _) as [sink' [[]|m]].
Qed.

Lemma apply_refused stream s d v sink :
  synced stream s d -> verified_segment v -> ~ plannable v s -> exists e, apply apply_batch v s sink = (s, sink, Err e).
Proof.
  intros Hsync Hseg Hno. unfold apply. destruct (plan v s) as [out|e] eqn:E; cbn [mbind result_bind]; [|by exists e].
  apply (plan_exact stream s d) in E as [Hpl _]; done.
Qed.

Lemma plannable_or s v stream d : synced stream s d -> verified_segment v -> plannable v s \/ ~ plannable v s.
Proof.
  intros Hsync Hseg. destruct (plan v s) as [out|e] eqn:E.
  - left. by apply (plan_exact stream s d) in E as [Hpl _].
  - right. intros Hpl. assert (plan v s = Ok (planned v s, drop (overlap v s) (vpp_events v))); [|congruence].
    by apply (plan_exact stream s d).
Qed.

(** A sink beside the list of events it has accepted. *)
Definition recording (w : S * list VerifiedAcceptedEvent) (events : list VerifiedAcceptedEvent)
    : (S * list VerifiedAcceptedEvent) * result string unit :=
  let '(sink', r) := apply_batch w.1 events in
  ((sink', match r with Ok _ => w.2 ++ events | Err _ => w.2 end), r).
End applying.

(** The states of a replica of [stream]: pages may be applied in any order, any
    number of times, and the sink may fail. *)
Inductive replica {S} (apply_batch : S -> list VerifiedAcceptedEvent -> S * result string unit) (stream : string)
    : ReplayState -> S * list VerifiedAcceptedEvent -> Prop :=
| replica_new s sink : replay_new stream = Ok s -> replica apply_batch stream s (sink, [])
| replica_apply s w v s' w' out :
    replica apply_batch stream s w -> authentic v -> apply (recording apply_batch) v s w = (s', w', out) ->
    replica apply_batch stream s' w'.

Lemma replica_synced {S} (apply_batch : S -> list VerifiedAcceptedEvent -> S * result string unit) stream s w :
  replica apply_batch stream s w -> synced stream s w.2.
Proof.
  induction 1 as [s sink Hnew|s w v s' w' out _ IH Hau Happ]; [by apply synced_new|].
  apply authentic_segment in Hau as Hseg. destruct (plannable_or s v stream w.2 IH Hseg) as [Hpl|Hno].
  - pose proof (planned_synced stream s w.2 v IH Hseg Hpl) as Hp.
    rewrite (apply_planned _ stream s w.2) in Happ by done. cbv zeta in Happ.
    destruct (drop (overlap v s) (vpp_events v)) as [|e fresh] eqn:Ef.
    + injection Happ as <- <- _. by rewrite app_nil_r in Hp.
    + unfold recording in Happ. destruct (apply_batch w.1 (e :: fresh)) as [sink' [[]|m]]; by injection Happ as <- <- _.
  - destruct (apply_refused (recording apply_batch) stream s w.2 v w IH Hseg Hno) as [e E].
    rewrite E in Happ. by injection Happ as <- <- _.
Qed.
End sync.

(** ** The contract of replay *)

(** C4. Whatever authentic pages are applied, in whatever order and however often, and
    whichever calls of the sink fail: the events the sink has accepted are the entries
    1, 2, ..., [n] of one hash chain from genesis that ends at the cursor, each with a
    receipt of its own envelope, signed by the one bound authority and admitted by the
    policy, and no identity occurs twice within [MAX_REPLAY_ANCHORS] positions. *)
Theorem replay_delivers_exactly_once `{SerdeJson, Sha256} verifier policy {S}
    (apply_batch : S -> list VerifiedAcceptedEvent -> S * result string unit) stream s sink delivered :
  replica verifier policy apply_batch stream s (sink, delivered) ->
  rs_cursor s = chain_end genesis (receipts_of delivered)
  /\ chained genesis (receipts_of delivered)
  /\ (forall j e, delivered !! j = Some e -> rc_server_seq (ve_receipt e) = N.of_nat j + 1)
  /\ (forall e, e ∈ delivered -> exists authority, rs_authority s = Some authority
                                               /\ trusted verifier policy stream authority e)
  /\ (forall i j e e', delivered !! i = Some e -> delivered !! j = Some e' ->
        (i < j <= i + N.to_nat MAX_REPLAY_ANCHORS)%nat -> event_id (raw_event e) <> event_id (raw_event e')).
Proof.
  intros Hs%replica_synced. cbn in Hs. split_and!; [apply Hs|apply Hs| |apply Hs|apply Hs].
  intros j e He. pose proof (sy_chain _ _ _ _ _ Hs) as Hch. unfold receipts_of in Hch.
  rewrite <-(take_drop_middle delivered j e He), map_app, chained_app in Hch. cbn [map chained] in Hch.
  destruct Hch as [Hc (Hseq & _)]. rewrite Hseq, chained_position by done. unfold blen.
  apply lookup_lt_Some in He. rewrite length_map, length_take. cbn. lia.
Qed.

(** A failed application leaves the state as it was. After a successful one, applying
    the same page again succeeds, changes nothing and does not call the sink. *)
Theorem replay_idempotent `{SerdeJson, Sha256} verifier policy {S}
    (apply_batch : S -> list VerifiedAcceptedEvent -> S * result string unit) stream s w v s' w' out :
  replica verifier policy apply_batch stream s w -> authentic verifier policy v ->
  apply (recording apply_batch) v s w = (s', w', out) ->
  match out with
  | Err _ => s' = s /\ w'.2 = w.2
  | Ok applied =>
      applied_cursor applied = rs_cursor s' /\ blen w'.2 = blen w.2 + applied_count applied
      /\ forall w'', apply (recording apply_batch) v s' w'' =
           (s', w'', Ok (mkApplied 0 (applied_cursor applied) (applied_snapshot_cursor applied)
                           (applied_complete applied) (applied_authority applied)))
  end.
Proof.
  intros Hrep Hau Happ. pose proof (replica_synced _ _ _ _ _ _ Hrep) as Hsync.
  apply authentic_segment in Hau as Hseg.
  destruct (plannable_or _ _ s v stream w.2 Hsync Hseg) as [Hpl|Hno].
  2:{ destruct (apply_refused _ _ (recording apply_batch) stream s w.2 v w Hsync Hseg Hno) as [e E].
      rewrite E in Happ. by injection Happ as <- <- <-. }
  pose proof (planned_synced _ _ stream s w.2 v Hsync Hseg Hpl) as Hsync'.
  pose proof (planned_again _ _ stream s w.2 v Hsync Hseg Hpl) as Hagain.
  assert (forall w'', apply (recording apply_batch) v (planned v s) w'' = (planned v s, w'', Ok (summary v (planned v s) 0))) as Hnoop.
  { intros w''. rewrite (apply_planned _ _ _ stream _ _ v w'' Hsync' Hseg Hagain). cbv zeta.
    rewrite (overlap_again verifier policy stream s w.2 v) by done. by rewrite (planned_idempotent verifier policy stream s w.2 v). }
  rewrite (apply_planned _ _ _ stream s w.2 v w Hsync Hseg Hpl) in Happ. cbv zeta in Happ.
  destruct (drop (overlap v s) (vpp_events v)) as [|e fresh] eqn:Ef.
  - injection Happ as <- <- <-. cbn. split_and!; [done|lia|done].
  - unfold recording at 1 in Happ. destruct (apply_batch w.1 (e :: fresh)) as [sink' [[]|m]].
    + injection Happ as <- <- <-. cbn [summary applied_cursor applied_count snd]. split_and!; [done|by rewrite blen_app|done].
    + by injection Happ as <- <- <-.
Qed.

(** ** A sample replay *)

Module ReplaySample.
Import HyphaeSample.
#[local] Existing Instance toy_sha256.
#[local] Existing Instance Sample.sample_json.

Definition request : PullRequest := mkRequest PROTOCOL_V2 (uuid "9") stream genesis Latest WholeStream 10.

Definition page : PullPage :=
  mkPage PROTOCOL_V2 stream [mkAccepted e1 r1; mkAccepted e2 r2] (mkCursor 2 (hash_of "b")) (mkCursor 2 (hash_of "b"))
    true (mkPageAttestation authority timestamp "key-1" signature).

Definition policy : Policy := fun k version =>
  refuse_if (negb (String.eqb k "app_note" && (version =? 1))) (mkVersionError k version "unknown").

Definition verified (e : EventEnvelope) (r : Receipt) : VerifiedAcceptedEvent := mkVerified e r authority.

Definition pulled : VerifiedPullPage := mkVerifiedPage request page authority [verified e1 r1; verified e2 r2].

Definition start : ReplayState := mkReplay stream None genesis None {[0 := mkAnchor (head_hash genesis) None]}.

(** A sink that counts batches. *)
Definition count_batches (n : nat) (_ : list VerifiedAcceptedEvent) : nat * result string unit := (S n, Ok tt).

Definition replayed : ReplayState := (apply (recording count_batches) pulled start (0%nat, [])).1.1.

Lemma pulled_authentic : authentic verifier policy pulled.
Proof.
  exists request, page, start, (mkValidatedPage request page). split; vm_compute; reflexivity.
Defined.

Lemma replica_start : replica verifier policy count_batches stream start (0%nat, []).
Proof. apply replica_new. vm_compute. reflexivity. Defined.

Example applied_once :
  let '(s, w, out) := apply (recording count_batches) pulled start (0%nat, []) in
  rs_cursor s = mkCursor 2 (hash_of "b") /\ w.1 = 1%nat /\ map ve_envelope w.2 = [e1; e2]
  /\ size (rs_anchors s) = 3%nat /\ is_ok out = true.
Proof. vm_compute. done. Qed.

Lemma apply_start :
  apply (recording count_batches) pulled start (0%nat, [])
  = (replayed, (1%nat, [verified e1 r1; verified e2 r2]),
     Ok (mkApplied 2 (mkCursor 2 (hash_of "b")) (mkCursor 2 (hash_of "b")) true authority)).
Proof. vm_compute. reflexivity. Qed.

Lemma replica_replayed : replica verifier policy count_batches stream replayed (1%nat, [verified e1 r1; verified e2 r2]).
Proof. eapply replica_apply; [apply replica_start|apply pulled_authentic|apply apply_start]. Qed.

Lemma replay_delivers_exactly_once_witness :
  rs_cursor replayed = chain_end genesis [r1; r2] /\ chained genesis [r1; r2].
Proof.
  destruct (replay_delivers_exactly_once verifier policy count_batches stream replayed 1%nat
              [verified e1 r1; verified e2 r2] replica_replayed) as (Hc & Hch & _).
  split; [exact Hc|exact Hch].
Defined.

Lemma replay_idempotent_witness :
  apply (recording count_batches) pulled replayed (1%nat, [])
  = (replayed, (1%nat, []), Ok (mkApplied 0 (mkCursor 2 (hash_of "b")) (mkCursor 2 (hash_of "b")) true authority)).
Proof.
  destruct (replay_idempotent verifier policy count_batches stream start (0%nat, []) pulled _ _ _
              replica_start pulled_authentic apply_start) as (_ & _ & Hagain).
  exact (Hagain (1%nat, [])).
Defined.
End ReplaySample.
