(* ===== verification/HyphaeWire.v ===== *)
(** * HyphaeWire: a signature stands for one object.

    Fields are four-byte length prefixes and their bytes, so an encoding is read back
    in one way. Digests are compared up to an exhibited SHA-256 collision. Together:
    the signed bytes of a receipt, an append or a page determine everything they
    claim, and no bytes are those of two kinds of object. *)

From S2P Require Import Prelude Decimal Json Log Catalog Pattern Hyphae HyphaeReplay HyphaeChain.

(** ** Fields *)

Definition lp4 (bs : bytes) : bytes := be_bytes 4 (blen bs) ++ bs.

Definition field_bytes (s : string) : bytes := lp4 (as_bytes s).

Definition fields_bytes (fields : list string) : bytes := concat (map field_bytes fields).

Lemma lp4_delimiting : self_delimiting (fun bs => blen bs <= u32_max) lp4.
Proof.
  intros x y r s Hx Hy E. unfold lp4 in E. rewrite <-!app_assoc in E.
  apply be_bytes_4_delimiting in E as [El E]; [|done..]. apply app_inj_1 in E; [done|].
  unfold blen in El. lia.
Qed.

Lemma field_delimiting : self_delimiting (fun s => slen s <= u32_max) field_bytes.
Proof.
  intros x y r s Hx Hy E. unfold field_bytes in E. apply lp4_delimiting in E as [E ->]; [|by rewrite blen_as_bytes..].
  split; [by apply as_bytes_inj|done].
Qed.

(** As many elements on both sides are read back one by one. *)
Lemma concat_delimiting {A} (fits : A -> Prop) enc xs ys r s :
  self_delimiting fits enc -> length xs = length ys -> Forall fits xs -> Forall fits ys ->
  concat (map enc xs) ++ r = concat (map enc ys) ++ s -> xs = ys /\ r = s.
Proof.
  intros Henc El Fx. revert ys El. induction Fx as [|x xs Hx _ IH]; intros [|y ys] El Fy E; try done.
  cbn in E. rewrite <-!app_assoc in E. inversion_clear Fy. apply Henc in E as [-> E]; [|done..].
  injection El as El. by destruct (IH ys El) as [-> ->].
Qed.

Lemma fields_delimiting xs ys r s :
  length xs = length ys -> Forall (fun s => slen s <= u32_max) xs -> Forall (fun s => slen s <= u32_max) ys ->
  fields_bytes xs ++ r = fields_bytes ys ++ s -> xs = ys /\ r = s.
Proof. apply concat_delimiting, field_delimiting. Qed.

Lemma prefixed_ok {E} (e : E) n (k : N -> bytes) p :
  (length ← try_u32 e n; Ok (k length)) = Ok p <-> n <= u32_max /\ p = k n.
Proof.
  rewrite bind_ok. split.
  - intros (l & [Hl ->]%try_u32_ok & [= <-]). done.
  - intros [Hl ->]. exists n. split; [by apply try_u32_ok|done].
Qed.

Lemma append_field_ok target value p :
  append_field target value = Ok p <-> slen value <= u32_max /\ p = target ++ field_bytes value.
Proof.
  unfold append_field, field_bytes, lp4. rewrite blen_as_bytes. apply prefixed_ok.
Qed.

Lemma hash_field_ok target value p :
  hash_field target value = Ok p <-> slen value <= u32_max /\ p = target ++ field_bytes value.
Proof.
  unfold hash_field, field_bytes, lp4. rewrite blen_as_bytes. apply prefixed_ok.
Qed.

Lemma hash_bytes_ok target value p :
  hash_bytes target value = Ok p <-> blen value <= u32_max /\ p = target ++ lp4 value.
Proof.
  unfold hash_bytes, lp4. apply prefixed_ok.
Qed.

Lemma each_field_ok f target fields p :
  (forall t v q, f t v = Ok q <-> slen v <= u32_max /\ q = t ++ field_bytes v) ->
  each_field f target fields = Ok p <->
  Forall (fun s => slen s <= u32_max) fields /\ p = target ++ fields_bytes fields.
Proof.
  intros Hf. revert target. induction fields as [|v fields IH]; intros target; cbn [each_field].
  { unfold fields_bytes. cbn. rewrite app_nil_r. split; [by intros [= ->]|by intros [_ ->]]. }
  rewrite bind_ok, Forall_cons. split.
  - intros (t & [Hv ->]%Hf & [Hfs ->]%IH). split; [done|]. unfold fields_bytes. cbn. by rewrite <-app_assoc.
  - intros [[Hv Hfs] ->]. exists (target ++ field_bytes v). split; [by apply Hf|]. apply IH. split; [done|].
    unfold fields_bytes. cbn. by rewrite <-app_assoc.
Qed.

Definition append_fields_ok target fields p := each_field_ok append_field target fields p append_field_ok.
Definition hash_fields_ok target fields p := each_field_ok hash_field target fields p hash_field_ok.

Ltac split_fields :=
  repeat match goal with
  | F : Forall _ (_ :: _) |- _ => apply Forall_cons in F as [? F]
  | F : Forall _ [] |- _ => clear F
  end.

(** ** The encodings *)

(** [u64], [u32] and [u16] fields are within their width. *)
Definition cursor_typed (c : StreamCursor) : Prop := position c <= u64_max.

Definition envelope_typed (e : EventEnvelope) : Prop := env_schema_version e <= u32_max /\ env_local_seq e <= u64_max.

Definition receipt_typed (r : Receipt) : Prop := rc_server_seq r <= u64_max.

Definition accepted_typed (a : AcceptedEvent) : Prop := envelope_typed (envelope a) /\ receipt_typed (receipt a).

Definition cursor_bytes (c : StreamCursor) : bytes := be_bytes 8 (position c) ++ field_bytes (head_hash c).

Lemma append_cursor_ok target c p :
  append_cursor target c = Ok p -> slen (head_hash c) <= u32_max /\ p = target ++ cursor_bytes c.
Proof.
  unfold append_cursor, cursor_bytes. rewrite bind_unit_ok, append_field_ok. intros (_ & Hl & ->). by rewrite <-app_assoc.
Qed.

Lemma cursor_delimiting : self_delimiting (fun c => cursor_typed c /\ slen (head_hash c) <= u32_max) cursor_bytes.
Proof.
  intros [p h] [p' h'] r s [Hp Hh] [Hp' Hh'] E. unfold cursor_bytes in E. cbn [position head_hash] in *. rewrite <-!app_assoc in E.
  apply be_bytes_8_delimiting in E as [-> E]; [|done..]. by apply field_delimiting in E as [-> ->].
Qed.

Section wire.
Context `{SerdeJson, Sha256}.

Definition envelope_bytes (e : EventEnvelope) : bytes :=
  fields_bytes [env_protocol e; env_client_event_id e; env_stream_id e] ++ be_bytes 4 (env_schema_version e)
  ++ fields_bytes [env_kind e; env_payload e] ++ be_bytes 8 (env_local_seq e)
  ++ fields_bytes [env_local_prev_hash e; env_local_hash e] ++ be_bytes 4 (blen (env_causal_parents e))
  ++ fields_bytes (env_causal_parents e) ++ field_bytes (env_created_at e).

Lemma wire_preimage_ok e p :
  wire_preimage e = Ok p ->
  p = envelope_bytes e /\ blen (env_causal_parents e) <= u32_max
  /\ Forall (fun s => slen s <= u32_max)
       ([env_protocol e; env_client_event_id e; env_stream_id e; env_kind e; env_payload e; env_local_prev_hash e;
         env_local_hash e; env_created_at e] ++ env_causal_parents e).
Proof.
  unfold wire_preimage. intros (? & [F1 ->]%hash_fields_ok & E)%bind_ok.
  apply bind_ok in E as (? & [F2 ->]%hash_fields_ok & E). apply bind_ok in E as (? & [F3 ->]%hash_fields_ok & E).
  apply bind_ok in E as (? & [Hn ->]%try_u32_ok & E). apply bind_ok in E as (? & [F4 ->]%hash_fields_ok & E).
  apply hash_field_ok in E as [Hl ->].
  unfold envelope_bytes. rewrite <-!app_assoc. split_and!; [done|done|].
  split_fields. apply Forall_app. split; [|done]. by repeat constructor.
Qed.

(** The preimage of an envelope's hash is the envelope. *)
Lemma wire_preimage_inj e e' p :
  envelope_typed e -> envelope_typed e' -> wire_preimage e = Ok p -> wire_preimage e' = Ok p -> e = e'.
Proof.
  intros [Tv Ts] [Tv' Ts'] (-> & Hn & F)%wire_preimage_ok (E & Hn' & F')%wire_preimage_ok.
  apply Forall_app in F as [F Fp], F' as [F' Fp']. split_fields. unfold envelope_bytes in E.
  apply fields_delimiting in E as [E1 E]; [|done|by repeat constructor..].
  apply be_bytes_4_delimiting in E as [E2 E]; [|done..].
  apply fields_delimiting in E as [E3 E]; [|done|by repeat constructor..].
  apply be_bytes_8_delimiting in E as [E4 E]; [|done..].
  apply fields_delimiting in E as [E5 E]; [|done|by repeat constructor..].
  apply be_bytes_4_delimiting in E as [E6 E]; [|done..].
  apply fields_delimiting in E as [E7 E]; [|unfold blen in E6; lia|done..].
  rewrite <-(app_nil_r (field_bytes _)), <-(app_nil_r (field_bytes (env_created_at e'))) in E.
  apply field_delimiting in E as [E8 _]; [|done..].
  destruct e, e'. cbn in *. congruence.
Qed.

Definition receipt_fields1 (r : Receipt) : list string :=
  [RECEIPT_DOMAIN; PROTOCOL_V2; rc_client_event_id r; rc_stream_id r; rc_envelope_hash r].
Definition receipt_fields2 (r : Receipt) : list string :=
  [rc_server_hash r; rc_server_prev_hash r; rc_journal_head r; rc_committed_at r; rc_key_id r].

Lemma receipt_payload_ok r p :
  receipt_payload r = Ok p ->
  p = fields_bytes (receipt_fields1 r) ++ be_bytes 8 (rc_server_seq r) ++ fields_bytes (receipt_fields2 r)
  /\ Forall (fun s => slen s <= u32_max) (receipt_fields1 r ++ receipt_fields2 r).
Proof.
  unfold receipt_payload. rewrite bind_unit_ok, bind_ok.
  intros (_ & ? & [F1 ->]%append_fields_ok & [F2 ->]%append_fields_ok). rewrite <-app_assoc, Forall_app. done.
Qed.

(** A receipt without its detached signature. *)
Definition unsigned (r : Receipt) : Receipt :=
  mkReceipt (rc_client_event_id r) (rc_stream_id r) (rc_envelope_hash r) (rc_server_seq r) (rc_server_hash r)
    (rc_server_prev_hash r) (rc_journal_head r) (rc_committed_at r) (rc_key_id r) "".

Lemma receipt_payload_inj r r' p :
  receipt_typed r -> receipt_typed r' -> receipt_payload r = Ok p -> receipt_payload r' = Ok p -> unsigned r = unsigned r'.
Proof.
  intros T T' (-> & F)%receipt_payload_ok (E & F')%receipt_payload_ok. rewrite Forall_app in F, F'.
  apply fields_delimiting in E as [E1 E]; [|done|tauto..].
  apply be_bytes_8_delimiting in E as [E2 E]; [|done..].
  rewrite <-(app_nil_r (fields_bytes _)), <-(app_nil_r (fields_bytes (receipt_fields2 r'))) in E.
  apply fields_delimiting in E as [E3 _]; [|done|tauto..].
  unfold receipt_fields1, receipt_fields2 in *. unfold unsigned. congruence.
Qed.

(** ** Digests of accepted events *)

(** Equal digests come from equal preimages or exhibit a collision. *)
Definition or_collision (P : Prop) : Prop := P \/ exists x y, collides x y.

Lemma hex_digest_inj x y : hex (sha256 x) = hex (sha256 y) -> or_collision (x = y).
Proof.
  intros E%hex_inj. destruct (decide (x = y)) as [->|Hne]; [by left|right]. by exists x, y.
Qed.

Lemma wire_hash_ok e h : wire_hash e = Ok h <-> validate_envelope e = Ok tt /\ exists p, wire_preimage e = Ok p /\ h = hex (sha256 p).
Proof.
  unfold wire_hash. rewrite bind_unit_ok, bind_ok. split; intros (Hv & p & Hp & E); (split; [done|]); exists p; split; try done; congruence.
Qed.

Lemma wire_hash_inj e e' h :
  envelope_typed e -> envelope_typed e' -> wire_hash e = Ok h -> wire_hash e' = Ok h -> or_collision (e = e').
Proof.
  intros T T' (_ & p & Hp & ->)%wire_hash_ok (_ & p' & Hp' & E)%wire_hash_ok.
  destruct (hex_digest_inj p p' E) as [->|C]; [left|by right]. by apply (wire_preimage_inj e e' p').
Qed.

(** What [accepted_events_hash] takes of one event. *)
Definition digest_entry : Type := string * bytes * string.

Definition entry_fits (t : digest_entry) : Prop :=
  slen t.1.1 <= u32_max /\ blen t.1.2 <= u32_max /\ slen t.2 <= u32_max.

Definition entry_bytes (t : digest_entry) : bytes := field_bytes t.1.1 ++ lp4 t.1.2 ++ field_bytes t.2.

Definition entry_of (a : AcceptedEvent) (t : digest_entry) : Prop :=
  wire_hash (envelope a) = Ok t.1.1 /\ receipt_payload (receipt a) = Ok t.1.2 /\ rc_signature (receipt a) = t.2.

Lemma entry_delimiting : self_delimiting entry_fits entry_bytes.
Proof.
  intros [[w p] g] [[w' p'] g'] r s (Hw & Hp & Hg) (Hw' & Hp' & Hg') E. unfold entry_bytes in E. cbn [fst snd] in *.
  rewrite <-!app_assoc in E. apply field_delimiting in E as [-> E]; [|done..].
  apply lp4_delimiting in E as [-> E]; [|done..]. by apply field_delimiting in E as [-> ->].
Qed.

Lemma accepted_loop_ok hasher events p :
  accepted_loop hasher events = Ok p ->
  exists ts, Forall2 entry_of events ts /\ Forall entry_fits ts /\ p = hasher ++ concat (map entry_bytes ts).
Proof.
  revert hasher. induction events as [|a events IH]; intros hasher; cbn [accepted_loop].
  { intros [= <-]. exists []. cbn. rewrite app_nil_r. split_and!; constructor. }
  intros (w & Hw & E)%bind_ok. apply bind_ok in E as (? & [Fw ->]%hash_field_ok & E).
  apply bind_ok in E as (g & Hg & E). apply bind_ok in E as (? & [Fg ->]%hash_bytes_ok & E).
  apply bind_ok in E as (? & [Fs ->]%hash_field_ok & (ts & F2 & Ff & ->)%IH).
  exists ((w, g, rc_signature (receipt a)) :: ts). split_and!; [constructor; [split_and!; done|done]|constructor; [split_and!; done|done]|].
  cbn [map concat]. unfold entry_bytes at 2. cbn [fst snd]. by rewrite <-!app_assoc.
Qed.

Lemma entry_inj a a' t : accepted_typed a -> accepted_typed a' -> entry_of a t -> entry_of a' t -> or_collision (a = a').
Proof.
  intros [Te Tr] [Te' Tr'] (W & P & S) (W' & P' & S').
  destruct (wire_hash_inj _ _ _ Te Te' W W') as [Ee|C]; [left|by right].
  pose proof (receipt_payload_inj _ _ _ Tr Tr' P P') as Er. unfold unsigned in Er.
  destruct a as [e r], a' as [e' r']. cbn in *. subst e'. f_equal. destruct r, r'. cbn in *. congruence.
Qed.

Lemma entries_inj ts events events' :
  Forall2 entry_of events ts -> Forall2 entry_of events' ts -> Forall accepted_typed events -> Forall accepted_typed events' ->
  or_collision (events = events').
Proof.
  intros F. revert events'. induction F as [|a t events ts Ha _ IH]; intros [|a' events'] F' T T'; inversion_clear F'; [by left|].
  inversion_clear T. inversion_clear T'.
  destruct (entry_inj a a' t) as [->|C]; [done..| |by right]. destruct (IH events') as [->|C]; [done..|by left|by right].
Qed.

Lemma accepted_events_hash_inj events events' h :
  blen events = blen events' -> Forall accepted_typed events -> Forall accepted_typed events' ->
  accepted_events_hash events = Ok h -> accepted_events_hash events' = Ok h -> or_collision (events = events').
Proof.
  intros El T T' E E'. unfold accepted_events_hash in E, E'. rewrite bind_ok in E, E'.
  destruct E as (p & Hp & [= <-]), E' as (p' & Hp' & E'). injection E' as E'. symmetry in E'.
  destruct (hex_digest_inj p p' E') as [->|C]; [|by right].
  unfold accepted_preimage in Hp, Hp'. rewrite bind_ok in Hp, Hp'.
  destruct Hp as (h1 & [_ ->]%hash_field_ok & Hp), Hp' as (h2 & [_ ->]%hash_field_ok & Hp'). rewrite bind_ok in Hp, Hp'.
  destruct Hp as (n & [Hn ->]%try_u64_ok & (ts & F & Ff & ->)%accepted_loop_ok).
  destruct Hp' as (n' & [Hn' ->]%try_u64_ok & (ts' & F' & Ff' & E)%accepted_loop_ok).
  rewrite <-El in E. apply app_inv_head in E.
  pose proof (Forall2_length _ _ _ F). pose proof (Forall2_length _ _ _ F'). unfold blen in El.
  rewrite <-(app_nil_r (concat _)), <-(app_nil_r (concat (map entry_bytes ts'))) in E.
  destruct (concat_delimiting entry_fits entry_bytes ts ts' [] []) as [-> _];
    [apply entry_delimiting|lia|done|done|done|]. by apply (entries_inj ts').
Qed.

(** ** The three kinds of signed object *)

Definition append_fields1 (a : AppendAttestation) (b : AppendBatch) : list string :=
  [APPEND_DOMAIN; PROTOCOL_V2; authority_str (aa_authority_id a); batch_id b; batch_stream_id b].

Definition page_fields1 (a : PageAttestation) (r : PullRequest) : list string :=
  [PAGE_DOMAIN; PROTOCOL_V2; authority_str (pa_authority_id a); req_request_id r; req_stream_id r].

Definition snapshot_bytes (s : SnapshotSelection) : bytes :=
  match s with
  | Latest => field_bytes "latest"
  | Exact c => field_bytes "exact" ++ cursor_bytes c
  end.

Definition cursor_fits (c : StreamCursor) : Prop := slen (head_hash c) <= u32_max.

Definition snapshot_fits (s : SnapshotSelection) : Prop := match s with Latest => True | Exact c => cursor_fits c end.

Definition snapshot_typed (s : SnapshotSelection) : Prop := match s with Latest => True | Exact c => cursor_typed c end.

Lemma snapshot_delimiting : self_delimiting (fun s => snapshot_typed s /\ snapshot_fits s) snapshot_bytes.
Proof.
  intros [|c] [|c'] r s [Hx Hf] [Hy Hg] E; cbn [snapshot_bytes] in E; rewrite <-?app_assoc in E;
    apply field_delimiting in E as [Ef E]; try done.
  apply cursor_delimiting in E as [-> ->]; done.
Qed.

Lemma append_payload_ok a b response p :
  append_payload a b response = Ok p ->
  exists events_hash,
    length (batch_events b) = length (resp_receipts response)
    /\ accepted_events_hash (zip_with mkAccepted (batch_events b) (resp_receipts response)) = Ok events_hash
    /\ batch_protocol b = PROTOCOL_V2 /\ cursor_fits (batch_expected_cursor b) /\ cursor_fits (resp_next_cursor response)
    /\ blen (batch_events b) <= u64_max
    /\ Forall (fun s => slen s <= u32_max) (append_fields1 a b ++ [events_hash; aa_committed_at a; aa_key_id a])
    /\ p = fields_bytes (append_fields1 a b) ++ cursor_bytes (batch_expected_cursor b)
           ++ cursor_bytes (resp_next_cursor response) ++ be_bytes 8 (blen (batch_events b))
           ++ fields_bytes [events_hash; aa_committed_at a; aa_key_id a].
Proof.
  unfold append_payload. repeat rewrite ?bind_unit_ok. intros (_ & Hb & E).
  apply bind_ok in E as (? & [F1 ->]%append_fields_ok & E).
  apply bind_ok in E as (? & [Hc1 ->]%append_cursor_ok & E). apply bind_ok in E as (? & [Hc2 ->]%append_cursor_ok & E).
  apply bind_ok in E as (? & [Hn ->]%try_u64_ok & E). apply bind_ok in E as (h & Hh & E).
  apply bind_ok in E as (? & [Fh ->]%append_field_ok & E). apply bind_ok in E as (? & [Ft ->]%append_field_ok & E).
  apply append_field_ok in E as [Fk ->].
  unfold append_events_hash in Hh. rewrite fail_if_ok in Hh. destruct Hh as [Hl%negb_false_iff%Nat.eqb_eq Hh].
  unfold validate_batch in Hb. apply bind_unit_ok in Hb as [Hproto _]. unfold ensure_protocol in Hproto.
  rewrite refuse_if_ok in Hproto. reflect_guards.
  exists h. split_and!; [done..| |].
  - apply Forall_app. split; [done|]. by repeat constructor.
  - unfold append_fields1, page_fields1, fields_bytes. cbn [map concat app]. by rewrite <-?app_assoc, ?app_nil_l, ?app_nil_r, <-?app_assoc.
Qed.

Lemma page_payload_ok a request page p :
  page_payload a request page = Ok p ->
  exists events_hash,
    accepted_events_hash (page_events page) = Ok events_hash
    /\ req_protocol request = PROTOCOL_V2 /\ req_limit request <= MAX_PULL_EVENTS
    /\ cursor_fits (req_after request) /\ snapshot_fits (req_snapshot request)
    /\ cursor_fits (page_next_cursor page) /\ cursor_fits (page_snapshot_cursor page)
    /\ blen (page_events page) <= u64_max
    /\ Forall (fun s => slen s <= u32_max)
         (page_fields1 a request ++ [events_hash; pa_issued_at a; pa_key_id a])
    /\ p = fields_bytes (page_fields1 a request) ++ cursor_bytes (req_after request)
           ++ snapshot_bytes (req_snapshot request) ++ field_bytes "whole_stream" ++ be_bytes 2 (req_limit request)
           ++ cursor_bytes (page_next_cursor page) ++ cursor_bytes (page_snapshot_cursor page)
           ++ [byte_of (if page_complete page then 1 else 0)] ++ be_bytes 8 (blen (page_events page))
           ++ fields_bytes [events_hash; pa_issued_at a; pa_key_id a].
Proof.
  unfold page_payload. cbv zeta. repeat rewrite ?bind_unit_ok. intros (_ & Hreq & E).
  apply bind_ok in E as (? & [F1 ->]%append_fields_ok & E). apply bind_ok in E as (? & [Hc1 ->]%append_cursor_ok & E).
  apply bind_ok in E as (q & Hs & E). apply bind_ok in E as (q' & Hw & E).
  assert (snapshot_fits (req_snapshot request) /\ q = (fields_bytes (page_fields1 a request) ++ cursor_bytes (req_after request))
            ++ snapshot_bytes (req_snapshot request)) as [Hsf ->].
  { unfold append_snapshot in Hs. destruct (req_snapshot request); [by apply append_field_ok in Hs as [_ ->]|].
    apply bind_ok in Hs as (? & [_ ->]%append_field_ok & [Hc ->]%append_cursor_ok). cbn. by rewrite <-!app_assoc. }
  assert (q' = ((fields_bytes (page_fields1 a request) ++ cursor_bytes (req_after request))
            ++ snapshot_bytes (req_snapshot request)) ++ field_bytes "whole_stream") as ->.
  { unfold append_selection in Hw. destruct (req_selection request). by apply append_field_ok in Hw as [_ ->]. }
  apply bind_ok in E as (? & [Hc2 ->]%append_cursor_ok & E). apply bind_ok in E as (? & [Hc3 ->]%append_cursor_ok & E).
  apply bind_ok in E as (? & [Hn ->]%try_u64_ok & E). apply bind_ok in E as (h & Hh & E).
  apply bind_ok in E as (? & [Fh ->]%append_field_ok & E). apply bind_ok in E as (? & [Ft ->]%append_field_ok & E).
  apply append_field_ok in E as [Fk ->].
  unfold validate_request in Hreq. repeat rewrite ?bind_unit_ok in Hreq. destruct Hreq as (Hproto & _ & _ & _ & _ & Hlim).
  unfold ensure_protocol in Hproto. rewrite refuse_if_ok in Hproto, Hlim. reflect_guards.
  exists h. split_and!; [done..| |].
  - apply Forall_app. split; [done|]. by repeat constructor.
  - unfold append_fields1, page_fields1, fields_bytes. cbn [map concat app]. by rewrite <-?app_assoc, ?app_nil_l, ?app_nil_r, <-?app_assoc.
Qed.

(** ** Reading signed bytes back *)

Lemma append_payload_inj a b response a' b' response' p :
  cursor_typed (batch_expected_cursor b) -> cursor_typed (resp_next_cursor response) ->
  cursor_typed (batch_expected_cursor b') -> cursor_typed (resp_next_cursor response') ->
  Forall accepted_typed (zip_with mkAccepted (batch_events b) (resp_receipts response)) ->
  Forall accepted_typed (zip_with mkAccepted (batch_events b') (resp_receipts response')) ->
  append_payload a b response = Ok p -> append_payload a' b' response' = Ok p ->
  or_collision (aa_authority_id a = aa_authority_id a' /\ aa_committed_at a = aa_committed_at a'
                /\ aa_key_id a = aa_key_id a' /\ b = b'
                /\ resp_receipts response = resp_receipts response' /\ resp_next_cursor response = resp_next_cursor response').
Proof.
  intros T1 T2 T1' T2' Te Te' (h & Hl & Hh & Hb & C1 & C2 & Hn & F & ->)%append_payload_ok.
  intros (h' & Hl' & Hh' & Hb' & C1' & C2' & Hn' & F' & E)%append_payload_ok.
  apply Forall_app in F as [F1 F2], F' as [F1' F2'].
  apply fields_delimiting in E as [E1 E]; [|done..]. apply cursor_delimiting in E as [E2 E]; [|done..].
  apply cursor_delimiting in E as [E3 E]; [|done..]. apply be_bytes_8_delimiting in E as [E4 E]; [|done..].
  rewrite <-(app_nil_r (fields_bytes _)), <-(app_nil_r (fields_bytes [h'; _; _])) in E.
  apply fields_delimiting in E as [E5 _]; [|done..].
  unfold append_fields1 in E1. injection E1 as Ea Eb Es. injection E5 as -> Et Ek.
  unfold blen in E4. assert (length (batch_events b) = length (batch_events b')) as El by lia.
  destruct (accepted_events_hash_inj (zip_with mkAccepted (batch_events b) (resp_receipts response))
              (zip_with mkAccepted (batch_events b') (resp_receipts response')) h') as [Ez|C]; [|done..| |by right].
  { unfold blen. rewrite !length_zip_with. lia. }
  left. assert (batch_events b = batch_events b' /\ resp_receipts response = resp_receipts response') as [Eev Erc].
  { assert (forall x y, length x = length y -> map envelope (zip_with mkAccepted x y) = x /\ map receipt (zip_with mkAccepted x y) = y) as Hz.
    { induction x as [|e x IH]; intros [|r y] Hxy; try done. injection Hxy as Hxy. cbn. by destruct (IH y Hxy) as [-> ->]. }
    destruct (Hz _ _ Hl) as [A1 A2], (Hz _ _ Hl') as [A1' A2']. rewrite Ez in A1, A2. split; congruence. }
  destruct a as [[]], a' as [[]], b, b'. cbn in *. split_and!; congruence.
Qed.

Lemma page_payload_inj a request page a' request' page' p :
  cursor_typed (req_after request) -> snapshot_typed (req_snapshot request) ->
  cursor_typed (page_next_cursor page) -> cursor_typed (page_snapshot_cursor page) ->
  cursor_typed (req_after request') -> snapshot_typed (req_snapshot request') ->
  cursor_typed (page_next_cursor page') -> cursor_typed (page_snapshot_cursor page') ->
  Forall accepted_typed (page_events page) -> Forall accepted_typed (page_events page') ->
  page_payload a request page = Ok p -> page_payload a' request' page' = Ok p ->
  or_collision (pa_authority_id a = pa_authority_id a' /\ pa_issued_at a = pa_issued_at a'
                /\ pa_key_id a = pa_key_id a' /\ request = request' /\ page_events page = page_events page'
                /\ page_next_cursor page = page_next_cursor page'
                /\ page_snapshot_cursor page = page_snapshot_cursor page' /\ page_complete page = page_complete page').
Proof.
  intros T1 T2 T3 T4 T1' T2' T3' T4' Te Te' (h & Hh & Hp & Hlim & C1 & C2 & C3 & C4 & Hn & F & ->)%page_payload_ok.
  intros (h' & Hh' & Hp' & Hlim' & C1' & C2' & C3' & C4' & Hn' & F' & E)%page_payload_ok.
  apply Forall_app in F as [F1 F2], F' as [F1' F2']. change MAX_PULL_EVENTS with 256 in *.
  apply fields_delimiting in E as [E1 E]; [|done..]. apply cursor_delimiting in E as [E2 E]; [|done..].
  apply snapshot_delimiting in E as [E3 E]; [|done..]. apply app_inv_head in E.
  apply (be_bytes_delimiting 2) in E as [E4 E]; [|change (256 ^ N.of_nat 2) with 65536; lia..].
  apply cursor_delimiting in E as [E5 E]; [|done..]. apply cursor_delimiting in E as [E6 E]; [|done..].
  apply (app_inj_1 [_] [_]) in E as [E7 E]; [|done]. apply be_bytes_8_delimiting in E as [E8 E]; [|done..].
  rewrite <-(app_nil_r (fields_bytes _)), <-(app_nil_r (fields_bytes [h'; _; _])) in E.
  apply fields_delimiting in E as [E9 _]; [|done..].
  unfold page_fields1 in E1. injection E1 as Ea Er Es. injection E9 as -> Et Ek.
  destruct (accepted_events_hash_inj (page_events page) (page_events page') h') as [Ez|C]; [done..| |by right].
  left. assert (page_complete page = page_complete page') as Ec
    by (by destruct (page_complete page), (page_complete page')).
  destruct a as [[]], a' as [[]], request as [? ? ? ? ? [] ?], request' as [? ? ? ? ? [] ?]. cbn in *. split_and!; congruence.
Qed.

(** What an authority can be asked to sign. *)
Inductive signable : Type :=
| SignedReceipt (r : Receipt)
| SignedAppend (a : AppendAttestation) (b : AppendBatch) (response : AppendResponse)
| SignedPage (a : PageAttestation) (request : PullRequest) (page : PullPage).

Definition signing_payload (x : signable) : result ValidationError bytes :=
  match x with
  | SignedReceipt r => receipt_payload r
  | SignedAppend a b response => append_payload a b response
  | SignedPage a request page => page_payload a request page
  end.

(** Machine integers are within their width. *)
Definition typed (x : signable) : Prop :=
  match x with
  | SignedReceipt r => receipt_typed r
  | SignedAppend _ b response =>
      cursor_typed (batch_expected_cursor b) /\ cursor_typed (resp_next_cursor response)
      /\ Forall accepted_typed (zip_with mkAccepted (batch_events b) (resp_receipts response))
  | SignedPage _ request page =>
      cursor_typed (req_after request) /\ snapshot_typed (req_snapshot request)
      /\ cursor_typed (page_next_cursor page) /\ cursor_typed (page_snapshot_cursor page)
      /\ Forall accepted_typed (page_events page)
  end.

(** The domain is the first field of every payload. *)
Definition domain (x : signable) : string :=
  match x with SignedReceipt _ => RECEIPT_DOMAIN | SignedAppend _ _ _ => APPEND_DOMAIN | SignedPage _ _ _ => PAGE_DOMAIN end.

Lemma signing_payload_domain x p :
  signing_payload x = Ok p -> exists rest, p = field_bytes (domain x) ++ rest /\ slen (domain x) <= u32_max.
Proof.
  destruct x as [r|a b response|a request page]; cbn [signing_payload domain].
  - intros [-> _]%receipt_payload_ok. eexists. unfold receipt_fields1, fields_bytes at 1. cbn [map concat].
    rewrite <-app_assoc. by split.
  - intros (h & _ & _ & _ & _ & _ & _ & _ & ->)%append_payload_ok. eexists. unfold append_fields1, fields_bytes at 1.
    cbn [map concat]. rewrite <-app_assoc. by split.
  - intros (h & _ & _ & _ & _ & _ & _ & _ & _ & _ & ->)%page_payload_ok. eexists. unfold page_fields1, fields_bytes at 1.
    cbn [map concat]. rewrite <-app_assoc. by split.
Qed.

(** Two objects with the same claims; detached signatures are not signed. *)
Definition same_claims (x y : signable) : Prop :=
  match x, y with
  | SignedReceipt r, SignedReceipt r' => unsigned r = unsigned r'
  | SignedAppend a b response, SignedAppend a' b' response' =>
      aa_authority_id a = aa_authority_id a' /\ aa_committed_at a = aa_committed_at a'
      /\ aa_key_id a = aa_key_id a' /\ b = b'
      /\ resp_receipts response = resp_receipts response' /\ resp_next_cursor response = resp_next_cursor response'
  | SignedPage a request page, SignedPage a' request' page' =>
      pa_authority_id a = pa_authority_id a' /\ pa_issued_at a = pa_issued_at a'
      /\ pa_key_id a = pa_key_id a' /\ request = request' /\ page_events page = page_events page'
      /\ page_next_cursor page = page_next_cursor page'
      /\ page_snapshot_cursor page = page_snapshot_cursor page' /\ page_complete page = page_complete page'
  | _, _ => False
  end.

(** C14. Two objects whose signed bytes coincide are of one kind and make the same claims,
    down to every envelope and receipt they cover, or the two exhibit a collision of
    SHA-256. A signature can therefore not be moved to another object. *)
Theorem signature_binds_claims x y p :
  typed x -> typed y -> signing_payload x = Ok p -> signing_payload y = Ok p ->
  same_claims x y \/ exists b b', collides b b'.
Proof.
  intros Tx Ty Hx Hy. assert (domain x = domain y) as Ed.
  { destruct (signing_payload_domain x p Hx) as (rx & -> & Fx), (signing_payload_domain y _ Hy) as (ry & E & Fy).
    by apply field_delimiting in E as [-> _]. }
  destruct x as [r|a b response|a request page], y as [r'|a' b' response'|a' request' page']; try discriminate Ed;
    cbn [typed signing_payload same_claims] in *.
  - left. by apply (receipt_payload_inj r r' p).
  - destruct Tx as (? & ? & ?), Ty as (? & ? & ?). by apply (append_payload_inj a b response a' b' response' p).
  - destruct Tx as (? & ? & ? & ? & ?), Ty as (? & ? & ? & ? & ?).
    by apply (page_payload_inj a request page a' request' page' p).
Qed.
End wire.

Module WireSample.
Import HyphaeSample.
#[local] Existing Instance toy_sha256.
#[local] Existing Instance Sample.sample_json.

Definition resigned : Receipt :=
  mkReceipt (rc_client_event_id r1) (rc_stream_id r1) (rc_envelope_hash r1) (rc_server_seq r1) (rc_server_hash r1)
    (rc_server_prev_hash r1) (rc_journal_head r1) (rc_committed_at r1) (rc_key_id r1) "BBBBBBBBBBBBBBBB".

Definition payload_of (x : signable) : bytes := match signing_payload x with Ok p => p | Err _ => [] end.

Lemma signature_binds_claims_witness :
  same_claims (SignedReceipt r1) (SignedReceipt resigned) \/ exists b b', collides b b'.
Proof.
  apply (signature_binds_claims (SignedReceipt r1) (SignedReceipt resigned) (payload_of (SignedReceipt r1))).
  - vm_compute. discriminate.
  - vm_compute. discriminate.
  - vm_compute. reflexivity.
  - vm_compute. reflexivity.
Defined.
End WireSample.
