(* ===== verification/HyphaeLive.v ===== *)
(** * HyphaeLive: honest pages are accepted.

    The checks of [crates/pliego-hyphae/src/lib.rs] refuse no page an authority cuts
    from its journal: whatever part of the stream the replica already has, such a page
    validates, verifies and delivers exactly the events the replica lacks. *)

From S2P Require Import Prelude Decimal Json Log Catalog Pattern Hyphae HyphaeReplay HyphaeChain HyphaeSync HyphaeWire.

(** ** Validated fields are short *)

Lemma length_list_ascii s : blen (String.list_ascii_of_string s) = slen s.
Proof. unfold blen, slen. f_equal. induction s as [|c s IH]; cbn; congruence. Qed.

Lemma validate_hash_len v : validate_hash v = Ok tt -> slen v = 64.
Proof. unfold validate_hash, is_hex_hash. rewrite refuse_if_ok. intros. by reflect_guards. Qed.

Lemma validate_uuid_len f v : validate_uuid_v7 f v = Ok tt -> slen v = 36.
Proof.
  unfold validate_uuid_v7. rewrite refuse_if_ok, !orb_false_iff. intros [[Hs _] _]. reflect_guards.
  by rewrite <-length_list_ascii.
Qed.

Lemma validate_stream_len v : validate_stream_id v = Ok tt -> slen v <= 128.
Proof. unfold validate_stream_id. rewrite refuse_if_ok. intros. by reflect_guards. Qed.

Lemma validate_authority_len v : validate_authority_id v = Ok tt -> slen v <= 96.
Proof. unfold validate_authority_id. rewrite refuse_if_ok. intros. by reflect_guards. Qed.

Lemma validate_key_len v : validate_key_id v = Ok tt -> slen v <= 96.
Proof. unfold validate_key_id. rewrite refuse_if_ok. intros. by reflect_guards. Qed.

Lemma validate_signature_len v : validate_signature v = Ok tt -> slen v <= 512.
Proof. unfold validate_signature. rewrite refuse_if_ok. intros. by reflect_guards. Qed.

Lemma validate_timestamp_len v : validate_timestamp v = Ok tt -> slen v <= 64.
Proof.
  unfold validate_timestamp. rewrite fail_if_ok. intros [Hs _]. unfold timestamp_shape in Hs.
  rewrite negb_false_iff, !andb_true_iff in Hs. destruct Hs as [[[[[[[_ Hl] _] _] _] _] _] _]. reflect_guards.
  by rewrite <-length_list_ascii.
Qed.

Lemma length_fields_bytes fields :
  blen (fields_bytes fields) = foldr (fun s acc => 4 + slen s + acc) 0 fields.
Proof.
  induction fields as [|s fields IH]; [done|]. unfold fields_bytes in *. cbn [map concat foldr].
  rewrite blen_app, IH. unfold field_bytes, lp4. rewrite blen_app, blen_as_bytes. unfold blen at 1.
  rewrite length_be_bytes. lia.
Qed.

Section live.
Context `{SerdeJson, Sha256, !Sha256Laws}.

(** ** Encodings succeed *)

Lemma receipt_payload_some r :
  validate_receipt r = Ok tt -> exists p, receipt_payload r = Ok p /\ blen p <= u32_max.
Proof.
  intros Hv. assert (Hv' := Hv). unfold validate_receipt in Hv'. repeat rewrite ?bind_unit_ok, ?fail_if_ok in Hv'.
  destruct Hv' as (Hid%validate_uuid_len & Hst%validate_stream_len & He%validate_hash_len & _ & Hs%validate_hash_len
    & Hp%validate_hash_len & Hj%validate_hash_len & _ & _ & Ht%validate_timestamp_len & Hk%validate_key_len & Hg).
  assert (slen RECEIPT_DOMAIN = 23) as L1 by done. assert (slen PROTOCOL_V2 = 15) as L2 by done.
  exists (fields_bytes (receipt_fields1 r) ++ be_bytes 8 (rc_server_seq r) ++ fields_bytes (receipt_fields2 r)). split.
  - unfold receipt_payload. rewrite Hv. cbn [mbind result_bind]. apply bind_ok.
    exists ([] ++ fields_bytes (receipt_fields1 r)). split; apply append_fields_ok.
    + split; [|done]. unfold u32_max. repeat constructor; lia.
    + split; [unfold u32_max; repeat constructor; lia|]. by rewrite <-app_assoc.
  - rewrite !blen_app, !length_fields_bytes. unfold blen. rewrite length_be_bytes. cbn [receipt_fields1 receipt_fields2 foldr].
    unfold u32_max. lia.
Qed.

Lemma slen_hex bs : slen (hex bs) = 2 * blen bs.
Proof. induction bs as [|b bs IH]; [done|]. unfold slen, blen in *. cbn. lia. Qed.

Lemma accepted_loop_some hasher stream events :
  Forall (accepts_on stream) events -> exists p, accepted_loop hasher events = Ok p.
Proof.
  intros F. revert hasher. induction F as [|a events Ha _ IH]; intros hasher; [by eexists|]. cbn [accepted_loop].
  rewrite (ao_hash _ _ Ha). cbn [mbind result_bind].
  destruct (receipt_payload_some _ (ao_receipt _ _ Ha)) as (p & Hp & Hl). rewrite Hp.
  assert (Hv := ao_receipt _ _ Ha). unfold validate_receipt in Hv. repeat rewrite ?bind_unit_ok, ?fail_if_ok in Hv.
  destruct Hv as (_ & _ & He%validate_hash_len & _ & _ & _ & _ & _ & _ & _ & _ & Hg%validate_signature_len).
  assert (slen (rc_envelope_hash (receipt a)) <= u32_max /\ slen (rc_signature (receipt a)) <= u32_max) as [F1 F2]
    by (unfold u32_max; lia).
  rewrite (proj2 (hash_field_ok _ _ _) (conj F1 eq_refl)). cbn [mbind result_bind].
  rewrite (proj2 (hash_bytes_ok _ _ _) (conj Hl eq_refl)). cbn [mbind result_bind].
  rewrite (proj2 (hash_field_ok _ _ _) (conj F2 eq_refl)). cbn [mbind result_bind]. apply IH.
Qed.

Lemma accepted_events_hash_some stream events :
  Forall (accepts_on stream) events -> blen events <= u64_max ->
  exists h, accepted_events_hash events = Ok h /\ slen h = 64.
Proof.
  intros F Hn. unfold accepted_events_hash, accepted_preimage.
  assert (slen "pliego-hyphae/2/accepted-events" <= u32_max) as L by (vm_compute; discriminate).
  rewrite (proj2 (hash_field_ok _ _ _) (conj L eq_refl)). cbn [mbind result_bind].
  rewrite (proj2 (try_u64_ok _ _ _) (conj Hn eq_refl)). cbn [mbind result_bind].
  match goal with |- context [accepted_loop ?h events] => destruct (accepted_loop_some h stream events F) as [p ->] end.
  eexists. split; [done|]. rewrite slen_hex. unfold blen. by rewrite sha256_length.
Qed.

Lemma validate_cursor_len c : validate_cursor c = Ok tt -> slen (head_hash c) = 64.
Proof. unfold validate_cursor. rewrite bind_unit_ok. intros [Hh _]. by apply validate_hash_len. Qed.

Lemma append_cursor_some p c : validate_cursor c = Ok tt -> append_cursor p c = Ok (p ++ cursor_bytes c).
Proof.
  intros Hc. pose proof (validate_cursor_len c Hc) as Hl. unfold append_cursor. rewrite Hc. cbn [mbind result_bind].
  apply append_field_ok. split; [unfold u32_max; lia|]. unfold cursor_bytes. by rewrite app_assoc.
Qed.

Lemma append_field_some p s : slen s <= u32_max -> append_field p s = Ok (p ++ field_bytes s).
Proof. intros. by apply append_field_ok. Qed.

Lemma page_payload_some a request page stream :
  validate_page_attestation a = Ok tt -> validate_request request = Ok tt ->
  validate_cursor (page_next_cursor page) = Ok tt -> validate_cursor (page_snapshot_cursor page) = Ok tt ->
  Forall (accepts_on stream) (page_events page) -> blen (page_events page) <= u64_max ->
  exists p, page_payload a request page = Ok p.
Proof.
  intros Ha Hr Hn Hs F Hl. destruct (accepted_events_hash_some stream _ F Hl) as (h & Hh & Lh).
  assert (Ha' := Ha). unfold validate_page_attestation in Ha'. repeat rewrite ?bind_unit_ok in Ha'.
  destruct Ha' as (La%validate_authority_len & Lt%validate_timestamp_len & Lk%validate_key_len & _).
  assert (Hr' := Hr). unfold validate_request in Hr'. repeat rewrite ?bind_unit_ok in Hr'.
  destruct Hr' as (_ & Lid%validate_uuid_len & Ls%validate_stream_len & Hafter & Hsnap & _).
  assert (slen PAGE_DOMAIN = 20) as L1 by done. assert (slen PROTOCOL_V2 = 15) as L2 by done.
  unfold page_payload. cbv zeta. rewrite Ha, Hr. cbn [mbind result_bind].
  assert (Forall (fun s => slen s <= u32_max) (page_fields1 a request)) as F1
    by (unfold page_fields1, u32_max; repeat constructor; lia).
  fold (page_fields1 a request). rewrite (proj2 (append_fields_ok [] (page_fields1 a request) _) (conj F1 eq_refl)). cbn [mbind result_bind].
  rewrite append_cursor_some by done. cbn [mbind result_bind].
  assert (forall p, append_snapshot p (req_snapshot request) = Ok (p ++ snapshot_bytes (req_snapshot request))) as ->.
  { intros p. unfold append_snapshot. destruct (req_snapshot request) as [|c].
    - apply append_field_some. vm_compute. discriminate.
    - apply bind_unit_ok in Hsnap as [Hc _]. rewrite append_field_some by (vm_compute; discriminate).
      cbn [mbind result_bind]. rewrite append_cursor_some by done. cbn [snapshot_bytes]. by rewrite app_assoc. }
  cbn [mbind result_bind].
  assert (forall p, append_selection p (req_selection request) = Ok (p ++ field_bytes "whole_stream")) as ->.
  { intros p. unfold append_selection. destruct (req_selection request). apply append_field_some. vm_compute. discriminate. }
  cbn [mbind result_bind]. rewrite !append_cursor_some by done. cbn [mbind result_bind].
  rewrite append_cursor_some by done. cbn [mbind result_bind].
  rewrite (proj2 (try_u64_ok _ _ _) (conj Hl eq_refl)). cbn [mbind result_bind]. rewrite Hh. cbn [mbind result_bind].
  rewrite append_field_some by (unfold u32_max; lia). cbn [mbind result_bind].
  rewrite append_field_some by (unfold u32_max; lia). cbn [mbind result_bind].
  eexists. apply append_field_some. unfold u32_max. lia.
Qed.

(** ** The journal of an authority *)

Record journal (stream : string) (J : list AcceptedEvent) : Prop := {
  jr_accepts : Forall (accepts_on stream) J;
  jr_chain : chained genesis (map receipt J);
  jr_ids : NoDup (map event_id J);
  jr_fits : blen J <= u64_max }.

(** The cursor of the journal at position [p]. *)
Definition journal_cursor (J : list AcceptedEvent) (p : nat) : StreamCursor :=
  chain_end genesis (map receipt (take p J)).

(** The page an authority cuts: [m] events after position [p], towards the snapshot [t]. *)
Definition cut_page (stream : string) (J : list AcceptedEvent) (p m t : nat) (a : PageAttestation) : PullPage :=
  mkPage PROTOCOL_V2 stream (take m (drop p J)) (journal_cursor J (p + m)) (journal_cursor J t)
    (bool_decide (journal_cursor J (p + m) = journal_cursor J t)) a.

Section journal.
Context (stream : string) (J : list AcceptedEvent) (HJ : journal stream J).

Lemma chained_take c rs n : chained c rs -> chained c (take n rs).
Proof. intros Hc. rewrite <-(take_drop n rs), chained_app in Hc. apply Hc. Qed.

Lemma journal_position p : (p <= length J)%nat -> position (journal_cursor J p) = N.of_nat p.
Proof.
  intros Hp. unfold journal_cursor. rewrite chained_position.
  - cbn. unfold blen. rewrite length_map, length_take. lia.
  - rewrite <-firstn_map. apply chained_take, HJ.
Qed.

Lemma journal_cursor_inj p q :
  (p <= length J)%nat -> (q <= length J)%nat -> journal_cursor J p = journal_cursor J q <-> p = q.
Proof.
  intros Hp Hq. split; [|by intros ->]. intros E%(f_equal position). rewrite !journal_position in E by done. lia.
Qed.

Lemma journal_cursor_valid p : (p <= length J)%nat -> validate_cursor (journal_cursor J p) = Ok tt.
Proof.
  intros Hp. destruct p as [|p]; [vm_compute; reflexivity|].
  destruct (lookup_lt_is_Some_2 J p) as [a Ha]; [lia|]. unfold journal_cursor. rewrite (take_S_r _ _ a) by done.
  rewrite map_app. cbn [map]. rewrite chain_end_snoc. pose proof (jr_accepts _ _ HJ) as F.
  apply (Forall_lookup_1 _ _ _ _ F) in Ha as Hacc. pose proof (ao_receipt _ _ Hacc) as Hr.
  unfold validate_receipt in Hr. repeat rewrite ?bind_unit_ok, ?fail_if_ok in Hr.
  destruct Hr as (_ & _ & _ & Hseq & Hh & _ & _ & Hne & _). unfold validate_cursor. cbn [entry_cursor head_hash position].
  rewrite Hh, Hseq. cbn [mbind result_bind]. apply orb_false_iff in Hne as [-> _]. done.
Qed.

(** The segment of a page starts at its cursor. *)
Lemma cut_chain p m :
  chained (journal_cursor J p) (map receipt (take m (drop p J)))
  /\ journal_cursor J (p + m) = chain_end (journal_cursor J p) (map receipt (take m (drop p J))).
Proof.
  unfold journal_cursor. rewrite <-chain_end_app, <-map_app. rewrite take_take_drop. split; [|done].
  pose proof (chained_take genesis (map receipt J) (p + m) (jr_chain _ _ HJ)) as Hc.
  rewrite firstn_map, <-take_take_drop, map_app, chained_app in Hc. apply Hc.
Qed.

Lemma cut_length p m : (p + m <= length J)%nat -> length (take m (drop p J)) = m.
Proof. intros. rewrite length_take, length_drop. lia. Qed.

(** An honest page validates. *)
Lemma cut_page_valid request p m t a :
  validate_request request = Ok tt -> req_stream_id request = stream -> req_after request = journal_cursor J p ->
  (forall c, req_snapshot request = Exact c -> c = journal_cursor J t) ->
  (p + m <= t <= length J)%nat -> (m = 0 -> p = t)%nat -> N.of_nat m <= req_limit request ->
  validate_page_attestation a = Ok tt ->
  validate_page (cut_page stream J p m t a) request = Ok tt.
Proof.
  intros Hreq Hst Haf Hex Ht Hm Hlim Ha. unfold validate_page. rewrite Hreq. cbn [mbind result_bind cut_page page_protocol
    page_stream_id page_events page_next_cursor page_snapshot_cursor page_complete page_attestation]. cbv zeta.
  pose proof (cut_length p m) as Hl. pose proof (jr_fits _ _ HJ) as Hfit.
  assert (blen (take m (drop p J)) = N.of_nat m) as Hb by (unfold blen; rewrite Hl; lia).
  unfold blen in Hfit.
  repeat rewrite ?bind_unit_ok, ?fail_if_ok. rewrite !journal_cursor_valid, Ha, Hb, Haf, !journal_position by lia.
  split_and!; try done.
  - by rewrite Hst, String.eqb_refl.
  - by apply N.ltb_ge.
  - apply N.ltb_ge. lia.
  - destruct (req_snapshot request) as [|c] eqn:Es; [done|]. rewrite (Hex c eq_refl).
    by rewrite bool_decide_eq_true_2.
  - apply N.ltb_ge. lia.
  - destruct (N.eqb_spec (N.of_nat (p + m)) (N.of_nat t)) as [E|]; [|done]. apply Nat2N.inj in E. rewrite E.
    by rewrite String.eqb_refl.
  - change 0 with (blen (@nil AcceptedEvent)). apply page_loop_spec; [done|cbn; unfold blen; cbn; lia| |].
    + cbn [page_events cut_page]. rewrite Hb, journal_position; lia.
    + cbn [page_stream_id cut_page map]. change (chain_end ?c []) with c. split_and!.
      * apply Forall_take, Forall_drop, HJ.
      * pose proof (jr_ids _ _ HJ) as Hnd. rewrite <-(take_drop p J), map_app, NoDup_app in Hnd.
        destruct Hnd as (_ & _ & Hnd). rewrite <-(take_drop m (drop p J)), map_app, NoDup_app in Hnd. apply Hnd.
      * apply Forall_forall. set_solver.
      * apply cut_chain.
  - apply bind_ok. exists (N.of_nat m). split; [by apply try_u64_ok; split; [lia|]|].
    apply bind_ok. exists (N.of_nat p + N.of_nat m). split.
    { apply ok_or_ok. unfold checked_add_u64. destruct (N.leb_spec (N.of_nat p + N.of_nat m) u64_max); [done|lia]. }
    rewrite fail_if_ok, bind_unit_ok, fail_if_ok, refuse_if_ok. split_and!.
    + apply negb_false_iff, N.eqb_eq. lia.
    + destruct (list.last (take m (drop p J))) as [b|] eqn:El; apply refuse_if_ok, negb_false_iff.
      * apply String.eqb_eq. rewrite (proj2 (cut_chain p m)). unfold chain_end.
        change (map receipt ?l) with (receipt <$> l). by rewrite fmap_last, El.
      * apply last_None in El. apply bool_decide_eq_true. assert (m = 0)%nat as -> by (rewrite El in Hl; cbn in Hl; lia).
        by rewrite Nat.add_0_r.
    + apply negb_false_iff. apply Bool.eqb_true_iff. done.
    + apply andb_false_iff. destruct (decide (m = 0)%nat) as [E|Hne].
      * left. apply negb_false_iff, bool_decide_eq_true. f_equal. rewrite E, Nat.add_0_r. by apply Hm.
      * right. apply bool_decide_eq_false. intros E. rewrite E in Hl. cbn in Hl. lia.
Qed.

(** ** Honest pages verify and apply *)

Context (verifier : Verifier) (policy : Policy) (authority : AuthorityId).

(** The authority's own signatures, on its journal and on this page, verify. *)
Record signs (request : PullRequest) (page : PullPage) : Prop := {
  sg_authority : pa_authority_id (page_attestation page) = authority;
  sg_shape : validate_page_attestation (page_attestation page) = Ok tt;
  sg_page : forall signed, page_payload (page_attestation page) request page = Ok signed ->
    verifier (mkContext PagePurpose (Some authority) (req_stream_id request) (pa_issued_at (page_attestation page))
                (pa_key_id (page_attestation page))) signed (pa_signature (page_attestation page)) = Ok authority;
  sg_receipts : Forall (signed_receipt verifier authority) (map receipt J);
  sg_policy : Forall (fun a => policy (env_kind (envelope a)) (env_schema_version (envelope a)) = Ok tt) J }.

Definition verified_events (events : list AcceptedEvent) : list VerifiedAcceptedEvent :=
  map (fun a => mkVerified (envelope a) (receipt a) authority) events.

Lemma Forall_map_1 {A B} (f : A -> B) (P : B -> Prop) l : Forall P (map f l) -> Forall (fun x => P (f x)) l.
Proof. apply Forall_fmap. Qed.

Lemma cut_page_verifies request p m t a :
  validate_request request = Ok tt -> (p + m <= t <= length J)%nat ->
  signs request (cut_page stream J p m t a) ->
  verify_pull (mkValidatedPage request (cut_page stream J p m t a)) verifier policy
  = Ok (mkVerifiedPage request (cut_page stream J p m t a) authority (verified_events (take m (drop p J)))).
Proof.
  intros Hreq Ht [Hau Hsh Hpage Hrc Hpol].
  assert (Forall (accepts_on stream) (take m (drop p J))) as F by apply Forall_take, Forall_drop, HJ.
  assert (blen (take m (drop p J)) <= u64_max) as Hl.
  { pose proof (jr_fits _ _ HJ) as Hf. unfold blen in *. rewrite cut_length; lia. }
  destruct (page_payload_some a request (cut_page stream J p m t a) stream) as [signed Hs]; [done|done| | |done|done|].
  { apply journal_cursor_valid. lia. }
  { apply journal_cursor_valid. lia. }
  unfold verify_pull. cbn [vp_request vp_page]. cbn [cut_page page_attestation page_events] in Hau, Hpage |- *.
  rewrite Hs. cbn [map_err mbind result_bind].
  rewrite (proj2 (map_err_ok _ _ authority)).
  2:{ apply verify_as_ok. rewrite Hau. split; [by apply Hpage|]. by intros ? [= <-]. }
  cbn [mbind result_bind]. rewrite (proj2 (verify_events_ok verifier policy authority [] (take m (drop p J)) (verified_events (take m (drop p J))))); [done|].
  split_and!; [done|by apply Forall_take, Forall_drop, Forall_map_1|by apply Forall_take, Forall_drop].
Qed.

Context (s : ReplayState) (d : list VerifiedAcceptedEvent) (n : nat).
Context (Hsync : synced verifier policy stream s d) (Hd : map raw_event d = take n J) (Hn : (n <= length J)%nat).

Lemma replica_length : length d = n.
Proof. rewrite <-(length_map raw_event), Hd, length_take. lia. Qed.

Lemma receipts_of_raw (l : list VerifiedAcceptedEvent) : receipts_of l = map receipt (map raw_event l).
Proof. unfold receipts_of. by rewrite map_map. Qed.

Lemma replica_cursor : rs_cursor s = journal_cursor J n.
Proof. rewrite (sy_cursor _ _ _ _ _ Hsync), receipts_of_raw, Hd. done. Qed.

Lemma replica_lookup i e : d !! i = Some e -> J !! i = Some (raw_event e) /\ (i < n)%nat.
Proof.
  intros He. assert (map raw_event d !! i = Some (raw_event e)) as Hr.
  { change (map raw_event d) with (raw_event <$> d). by rewrite list_lookup_fmap, He. }
  rewrite Hd in Hr. apply lookup_take_Some in Hr. tauto.
Qed.

Lemma replica_anchor p : (p <= n)%nat ->
  exists a, anchor_at d (N.of_nat p) = Some a /\ anchor_head_hash a = head_hash (journal_cursor J p).
Proof.
  intros Hp. pose proof replica_length as Hl.
  assert (blen (take p d) = N.of_nat p) as Hb by (unfold blen; rewrite length_take; lia).
  destruct (anchor_at d (N.of_nat p)) as [a|] eqn:Ea.
  2:{ apply eq_None_not_Some in Ea as []. apply anchor_at_some. unfold blen. lia. }
  exists a. split; [done|]. rewrite <-(take_drop p d), anchor_at_app, <-Hb in Ea by lia.
  rewrite (anchor_at_head _ _ Ea), receipts_of_raw. unfold journal_cursor. do 3 f_equal.
  rewrite <-firstn_map, Hd, take_take. f_equal. lia.
Qed.

Lemma event_id_inj i j a b : J !! i = Some a -> J !! j = Some b -> event_id a = event_id b -> i = j.
Proof.
  intros Hi Hj E. apply (NoDup_lookup _ _ _ (event_id a) (jr_ids _ _ HJ)).
  - change (map event_id J) with (event_id <$> J). by rewrite list_lookup_fmap, Hi.
  - change (map event_id J) with (event_id <$> J). by rewrite list_lookup_fmap, Hj, E.
Qed.

Lemma verified_lookup p m j e :
  verified_events (take m (drop p J)) !! j = Some e -> J !! (p + j)%nat = Some (raw_event e).
Proof.
  unfold verified_events. change (map ?f ?l) with (f <$> l). rewrite list_lookup_fmap, fmap_Some.
  intros (a & Ha & ->). apply lookup_take_Some in Ha as [Ha _]. rewrite lookup_drop in Ha. rewrite Ha. by destruct a.
Qed.

Lemma cut_page_plannable request p m t a :
  req_stream_id request = stream -> req_after request = journal_cursor J p ->
  (p <= n)%nat -> (n < p + N.to_nat MAX_REPLAY_ANCHORS)%nat -> (p + m <= t <= length J)%nat -> (n <= t)%nat ->
  (forall bound, rs_authority s = Some bound -> bound = authority) ->
  (forall bound, rs_snapshot s = Some bound ->
     journal_cursor J t = bound \/ (req_snapshot request = Latest /\ rs_cursor s = bound)) ->
  plannable (mkVerifiedPage request (cut_page stream J p m t a) authority (verified_events (take m (drop p J)))) s.
Proof.
  intros Hst Haf Hp Hwin Ht Hnt Hau Hbound. pose proof replica_length as Hl.
  constructor; cbn [vpp_request vpp_page vpp_authority vpp_events]; unfold overlap; cbn [vpp_request];
    rewrite ?Haf, ?replica_cursor, ?journal_position by lia.
  - constructor; cbn [cut_page page_stream_id page_snapshot_cursor]; rewrite ?Haf, ?replica_cursor, ?journal_position by lia.
    + by rewrite (sy_stream _ _ _ _ _ Hsync).
    + lia.
    + destruct (replica_anchor p Hp) as (b & Hb & Hh). exists b. split; [|done].
      rewrite (sy_anchors _ _ _ _ _ Hsync), replica_cursor, journal_position by lia.
      destruct (N.ltb_spec (N.of_nat n) (N.of_nat p + MAX_REPLAY_ANCHORS)); [done|lia].
    + lia.
    + intros E. by apply Nat2N.inj in E as ->.
    + by rewrite <-replica_cursor.
  - done.
  - intros j e Hj He. apply verified_lookup in He as HJe.
    rewrite (sy_anchors _ _ _ _ _ Hsync), replica_cursor, journal_position by lia.
    destruct (N.ltb_spec (N.of_nat n) (N.of_nat p + N.of_nat j + 1 + MAX_REPLAY_ANCHORS)); [|lia].
    unfold anchor_at. destruct (N.eqb_spec (N.of_nat p + N.of_nat j + 1) 0); [lia|].
    replace (N.to_nat (N.of_nat p + N.of_nat j + 1 - 1)) with (p + j)%nat by lia.
    destruct (lookup_lt_is_Some_2 d (p + j)%nat) as [e' He']; [lia|]. rewrite He'. cbn.
    apply replica_lookup in He' as [He' _]. rewrite HJe in He'. unfold anchor_of, identity_of.
    injection He' as -> ->. done.
  - apply unseen_spec.
    { intros q. rewrite (sy_anchors _ _ _ _ _ Hsync). destruct (_ <? _); [|by intros []].
      intros Hq%anchor_at_some. unfold blen in Hq. lia. }
    intros j e He. rewrite lookup_drop in He. apply verified_lookup in He. split.
    + apply not_true_iff_false. intros (q & b & h & Hq & Hb)%identity_known_spec.
      rewrite (sy_anchors _ _ _ _ _ Hsync) in Hq. destruct (_ <? _); [|done]. unfold anchor_at in Hq.
      destruct (N.eqb_spec q 0); [by injection Hq as <-|]. apply fmap_Some in Hq as (e' & He' & ->).
      apply replica_lookup in He' as [He' Hlt]. cbn in Hb. injection Hb as Hid _.
      pose proof (event_id_inj _ _ _ _ He' He Hid). lia.
    + intros i e' Hi He' Hid. rewrite lookup_drop in He'. apply verified_lookup in He'.
      pose proof (event_id_inj _ _ _ _ He' He Hid). lia.
Qed.

(** The events beyond what the replica has. *)
Lemma delivered_extends p m :
  (p <= n)%nat -> (p + m <= length J)%nat ->
  map raw_event (d ++ drop (n - p) (verified_events (take m (drop p J)))) = take (Nat.max n (p + m)) J.
Proof.
  intros Hp Hm. rewrite map_app, Hd, <-skipn_map. unfold verified_events. rewrite map_map.
  replace (map (fun a => raw_event (mkVerified (envelope a) (receipt a) authority)) (take m (drop p J)))
    with (take m (drop p J)) by (rewrite <-(map_id (take m (drop p J))) at 1; apply map_ext; by intros []).
  destruct (decide (p + m <= n)%nat) as [Hle|Hgt].
  - rewrite (drop_ge (take m _)) by (rewrite length_take, length_drop; lia). rewrite app_nil_r. f_equal. lia.
  - rewrite skipn_firstn_comm, drop_drop. replace (p + (n - p))%nat with n by lia.
    rewrite take_take_drop. f_equal. lia.
Qed.
End journal.
End live.

(** ** The liveness of replay *)

(** C9. A replica that has the first [n] events of an authority's journal asks for events
    after any position [p] within its window. The page the authority cuts, of [m]
    events towards a snapshot [t] that continues the replica's cycle, validates,
    verifies and applies: the replica then has exactly the first [max n (p + m)]
    events, it has called the sink with the missing ones only, and the result is
    complete exactly at the snapshot. *)
Theorem honest_page_is_delivered `{SerdeJson, Sha256, !Sha256Laws} verifier policy {S}
    (apply_batch : S -> list VerifiedAcceptedEvent -> S * result string unit)
    stream J authority s sink d n request p m t a :
  journal stream J -> replica verifier policy apply_batch stream s (sink, d) ->
  map raw_event d = take n J -> (n <= t)%nat -> (p <= n < p + N.to_nat MAX_REPLAY_ANCHORS)%nat ->
  (p + m <= t <= length J)%nat -> (m = 0 -> p = t)%nat -> N.of_nat m <= req_limit request ->
  validate_request request = Ok tt -> req_stream_id request = stream -> req_after request = journal_cursor J p ->
  (forall c, req_snapshot request = Exact c -> c = journal_cursor J t) ->
  (forall bound, rs_authority s = Some bound -> bound = authority) ->
  (forall bound, rs_snapshot s = Some bound ->
     journal_cursor J t = bound \/ (req_snapshot request = Latest /\ rs_cursor s = bound)) ->
  signs J verifier policy authority request (cut_page stream J p m t a) ->
  (forall x events, (apply_batch x events).2 = Ok tt) ->
  exists w v s' sink' d' applied,
    validate_pull request (cut_page stream J p m t a) s = Ok w /\ verify_pull w verifier policy = Ok v
    /\ apply (recording apply_batch) v s (sink, d) = (s', (sink', d'), Ok applied)
    /\ map raw_event d' = take (Nat.max n (p + m)) J
    /\ rs_cursor s' = journal_cursor J (Nat.max n (p + m))
    /\ sink' = (if (p + m <=? n)%nat then sink else (apply_batch sink (drop n d')).1)
    /\ (applied_complete applied = true <-> Nat.max n (p + m) = t).
Proof.
  intros HJ Hrep Hd Hnt [Hpn Hwin] Ht Hm Hlim Hreq Hst Haf Hex Hau Hbound Hsig Hsink.
  pose proof (replica_synced _ _ _ _ _ _ Hrep) as Hsync. cbn in Hsync.
  pose proof (cut_page_valid stream J HJ request p m t a Hreq Hst Haf Hex Ht Hm Hlim (sg_shape _ _ _ _ _ _ Hsig)) as Hval.
  pose proof (cut_page_verifies stream J HJ verifier policy authority request p m t a Hreq Ht Hsig) as Hver.
  assert (n <= length J)%nat as HnJ by lia.
  pose proof (cut_page_plannable stream J HJ verifier policy authority s d n Hsync Hd HnJ request p m t a
                Hst Haf Hpn Hwin Ht Hnt Hau Hbound) as Hpl.
  set (v := mkVerifiedPage request (cut_page stream J p m t a) authority (verified_events authority (take m (drop p J)))) in *.
  assert (validate_pull request (cut_page stream J p m t a) s = Ok (mkValidatedPage request (cut_page stream J p m t a))) as Hpull.
  { unfold validate_pull. rewrite Hval. cbn [map_err mbind result_bind].
    by rewrite (proj2 (preflight_exact s request (cut_page stream J p m t a)) (pl_preflight _ _ Hpl)). }
  assert (verified_segment verifier policy v) as Hseg by (apply authentic_segment; by exists request, (cut_page stream J p m t a), s, (mkValidatedPage request (cut_page stream J p m t a))).
  pose proof (planned_synced _ _ stream s d v Hsync Hseg Hpl) as Hsync'.
  assert (overlap v s = n - p)%nat as Hov.
  { unfold overlap, v. cbn [vpp_request]. rewrite Haf, (replica_cursor stream J verifier policy s d n Hsync Hd).
    rewrite !(journal_position stream J HJ) by lia. lia. }
  rewrite Hov in Hsync'. cbn [v vpp_events] in Hsync'.
  pose proof (delivered_extends J authority d n Hd HnJ p m Hpn ltac:(lia)) as Hd'.
  set (fresh := drop (n - p) (verified_events authority (take m (drop p J)))) in *.
  assert (rs_cursor (planned v s) = journal_cursor J (Nat.max n (p + m))) as Hcur
    by (by apply (replica_cursor stream J verifier policy _ (d ++ fresh))).
  exists (mkValidatedPage request (cut_page stream J p m t a)), v, (planned v s),
    (if (p + m <=? n)%nat then sink else (apply_batch sink fresh).1), (d ++ fresh), (summary v (planned v s) (blen fresh)).
  assert (length fresh = (p + m) - n)%nat as Hlf.
  { unfold fresh, verified_events. rewrite length_drop, length_map, length_take, length_drop. lia. }
  split_and!; [done|done| |done|done| |].
  - rewrite (apply_planned _ _ _ stream s d v (sink, d) Hsync Hseg Hpl). cbv zeta. rewrite Hov. cbn [v vpp_events]. fold fresh.
    destruct (Nat.leb_spec (p + m) n) as [Hle|Hgt]; destruct fresh as [|e fresh'] eqn:Ef; cbn in Hlf; try lia.
    + by rewrite app_nil_r.
    + unfold recording at 1. specialize (Hsink sink (e :: fresh')). destruct (apply_batch sink (e :: fresh')) as [sink' r] eqn:Eb.
      cbn in Hsink. cbn [fst snd]. by rewrite Eb, Hsink.
  - assert (drop n (d ++ fresh) = fresh) as ->; [|done].
    apply drop_app_length'. symmetry. exact (replica_length J d n Hd HnJ).
  - cbn [summary applied_complete]. rewrite bool_decide_eq_true, Hcur. cbn [v vpp_page cut_page page_snapshot_cursor].
    apply (journal_cursor_inj stream J HJ); lia.
Qed.

Module LiveSample.
Import HyphaeSample ReplaySample.
#[local] Existing Instance toy_sha256.
#[local] Existing Instance Sample.sample_json.

#[local] Instance toy_laws : Sha256Laws := toy_sha256_laws.

Definition J : list AcceptedEvent := [mkAccepted e1 r1; mkAccepted e2 r2].

Definition attestation : PageAttestation := mkPageAttestation authority timestamp "key-1" signature.

Lemma J_journal : journal stream J.
Proof.
  split.
  - repeat constructor; vm_compute; reflexivity.
  - vm_compute. tauto.
  - apply (bool_decide_unpack _). vm_compute. exact I.
  - vm_compute. discriminate.
Qed.

Lemma J_signs : signs J verifier policy authority request (cut_page stream J 0 2 2 attestation).
Proof.
  split; [reflexivity|vm_compute; reflexivity|reflexivity| |].
  - repeat constructor; eexists; split; vm_compute; reflexivity.
  - repeat constructor; vm_compute; reflexivity.
Qed.

Lemma honest_page_is_delivered_witness :
  exists s' d' applied,
    apply (recording count_batches) (mkVerifiedPage request (cut_page stream J 0 2 2 attestation) authority
      (verified_events authority J)) start (0%nat, []) = (s', (1%nat, d'), Ok applied)
    /\ map raw_event d' = J /\ applied_complete applied = true.
Proof.
  assert (validate_request request = Ok tt) as H1 by (vm_compute; reflexivity).
  assert (N.of_nat 2 <= req_limit request) as H2 by (vm_compute; discriminate).
  destruct (honest_page_is_delivered verifier policy count_batches stream J authority start 0%nat [] 0%nat request 0%nat 2%nat
              2%nat attestation J_journal replica_start eq_refl ltac:(lia) ltac:(vm_compute; lia) ltac:(cbn; lia)
              ltac:(lia) H2 H1 eq_refl eq_refl)
    as (w & v & s' & sink' & d' & applied & Hp & Hv & Happ & Hd & _ & Hs & Hc).
  - intros c E. discriminate E.
  - intros bound E. discriminate E.
  - intros bound E. discriminate E.
  - exact J_signs.
  - reflexivity.
  - exists s', d', applied. assert (verify_pull (mkValidatedPage request (cut_page stream J 0 2 2 attestation)) verifier policy
      = Ok (mkVerifiedPage request (cut_page stream J 0 2 2 attestation) authority (verified_events authority J))) as Hv2
      by (vm_compute; reflexivity).
    assert (validate_pull request (cut_page stream J 0 2 2 attestation) start
            = Ok (mkValidatedPage request (cut_page stream J 0 2 2 attestation))) as Hp2 by (vm_compute; reflexivity).
    rewrite Hp2 in Hp. injection Hp as Ew.
    subst w. rewrite Hv2 in Hv. injection Hv as Hv. subst v. cbn in Hs. subst sink'.
    split; [exact Happ|]. split; [exact Hd|]. apply Hc. reflexivity.
Defined.
End LiveSample.
