(* ===== verification/Csrf.v ===== *)
(** * Csrf: secrets and anti-forgery tokens.

    Models [crates/pliego-data/src/secret.rs] and [csrf.rs]: versioned secrets, the
    ring of keys of a [CsrfManager], and the tokens it issues and verifies. The [hmac]
    crate is the class [Hmac]; comparing a tag in constant time is equality. *)

From S2P Require Import Prelude Decimal Request Session.

(** ** Secrets *)

Record SecretHandle : Type := mkSecret { secret_id : string; secret_version : N; material : bytes }.

Inductive SecretError : Type :=
| InvalidIdentity
| InvalidLength (actual minimum maximum : N).

Definition secret_new (id : string) (version : N) (material : bytes) : result SecretError SecretHandle :=
  fail_if negb (validate_stable_id id) || (version =? 0) with InvalidIdentity ;;
  fail_if (blen material <? 32) || (4 * 1024 <? blen material) with InvalidLength (blen material) 32 (4 * 1024) ;;
  Ok (mkSecret id version material).

Definition length_class (s : SecretHandle) : string :=
  if blen (material s) <=? 63 then "short" else if blen (material s) <=? 255 then "medium" else "long".

Definition secret_error_code (e : SecretError) : string :=
  match e with InvalidIdentity => "PLG-SEC-001" | InvalidLength _ _ _ => "PLG-SEC-002" end.

(** ** Tokens *)

(** [HmacSha256] of a key and a message. *)
Class Hmac : Type := hmac_sha256 : bytes -> bytes -> bytes.

Class HmacLaws `{Hmac} : Prop := hmac_length : forall key message, length (hmac_sha256 key message) = 32%nat.

(** What the round trip of a token needs of the [base64] crate. *)
Class Base64Laws `{Base64} : Prop := b64_decode_encode : forall bs, b64_decode (b64_encode bs) = Some bs.

Record CsrfToken : Type := mkCsrf { key_version : N; mac : bytes }.

Inductive CsrfError : Type :=
| InvalidCsrfToken
| InvalidAction
| DuplicateKeyVersion
| TooManyKeys
| UnknownKeyVersion.

Definition csrf_error_code (e : CsrfError) : string :=
  match e with
  | InvalidCsrfToken | InvalidAction => "PLG-CSRF-101"
  | DuplicateKeyVersion | TooManyKeys => "PLG-CSRF-001"
  | UnknownKeyVersion => "PLG-CSRF-102"
  end.

Definition csrf_error_text (e : CsrfError) : string :=
  match e with
  | InvalidCsrfToken => "invalid CSRF token"
  | InvalidAction => "invalid CSRF action identity"
  | DuplicateKeyVersion => "duplicate CSRF key version"
  | TooManyKeys => "CSRF key ring exceeds four versions"
  | UnknownKeyVersion => "unknown CSRF key version"
  end.

(** [str::split_once] of a character. *)
Fixpoint split_once (c : ascii) (s : string) : option (string * string) :=
  match s with
  | EmptyString => None
  | String d rest =>
      if Ascii.eqb c d then Some (EmptyString, rest)
      else '(before, after) ← split_once c rest; Some (String d before, after)
  end.

(** [str::parse::<u32>]: a sign [+] is allowed. *)
Definition parse_u32 (s : string) : option N :=
  let cs := String.list_ascii_of_string s in
  let digits := match cs with "+"%char :: (_ :: _) as rest => List.tl cs | _ => cs end in
  if negb (match digits with [] => true | _ => false end) && forallb is_ascii_digit digits && (dec_value digits <=? u32_max)
  then Some (dec_value digits) else None.

(** [u32::to_string]. *)
Definition u32_text (n : N) : string := String.string_of_list_ascii (u64_to_string n).

Section csrf.
Context `{Base64, Hmac, Sha256}.

Definition csrf_parse (value : string) : result CsrfError CsrfToken :=
  '(version, encoded) ← ok_or InvalidCsrfToken (split_once "." value);
  version ← ok_or InvalidCsrfToken (strip_prefix "v" version);
  key_version ← ok_or InvalidCsrfToken (parse_u32 version);
  fail_if key_version =? 0 with InvalidCsrfToken ;;
  mac ← ok_or InvalidCsrfToken (b64_decode encoded);
  fail_if negb (blen mac =? 32) with InvalidCsrfToken ;;
  Ok (mkCsrf key_version mac).

Definition as_form_value (t : CsrfToken) : string :=
  ("v" ++ u32_text (key_version t) ++ "." ++ b64_encode (mac t))%string.

(** ** The manager *)

Record CsrfManager : Type := mkManager { active_version : N; keys : gmap N SecretHandle }.

Fixpoint add_keys (ring : gmap N SecretHandle) (predecessors : list SecretHandle)
    : result CsrfError (gmap N SecretHandle) :=
  match predecessors with
  | [] => Ok ring
  | key :: rest =>
      fail_if bool_decide (is_Some (ring !! secret_version key)) with DuplicateKeyVersion ;;
      add_keys (<[secret_version key := key]> ring) rest
  end.

Definition manager_new (active : SecretHandle) (predecessors : list SecretHandle) : result CsrfError CsrfManager :=
  ring ← add_keys {[secret_version active := active]} predecessors;
  fail_if 4 <? N.of_nat (size ring) with TooManyKeys ;;
  Ok (mkManager (secret_version active) ring).

Definition validate_action (action_id : string) (action_revision : N) : result CsrfError unit :=
  fail_if negb (validate_stable_id action_id) || (action_revision =? 0) with InvalidAction ;;
  Ok tt.

Definition csrf_message (session : SessionToken) (action_id : string) (action_revision : N) : bytes :=
  lp_all [as_bytes "pliego-csrf-v1"; as_bytes (digest session); as_bytes action_id; be_bytes 4 action_revision].

Definition issue (m : CsrfManager) (session : SessionToken) (action_id : string) (action_revision : N)
    : result CsrfError CsrfToken :=
  _ ← validate_action action_id action_revision;
  key ← ok_or UnknownKeyVersion (keys m !! active_version m);
  Ok (mkCsrf (active_version m) (hmac_sha256 (material key) (csrf_message session action_id action_revision))).

Definition csrf_verify (m : CsrfManager) (t : CsrfToken) (session : SessionToken) (action_id : string)
    (action_revision : N) : result CsrfError bool :=
  _ ← validate_action action_id action_revision;
  match keys m !! key_version t with
  | None => Ok false
  | Some key =>
      Ok (bool_decide (hmac_sha256 (material key) (csrf_message session action_id action_revision) = mac t))
  end.
End csrf.

(** ** Forms are read back *)

Lemma split_once_app c s t :
  ~ In c (String.list_ascii_of_string s) -> split_once c (s ++ String c t)%string = Some (s, t).
Proof.
  induction s as [|d s IH]; cbn [String.list_ascii_of_string In].
  - intros _. change ("" ++ String c t)%string with (String c t). cbn [split_once]. by rewrite Ascii.eqb_refl.
  - change (String d s ++ String c t)%string with (String d (s ++ String c t)). cbn [split_once].
    intros Hn. destruct (Ascii.eqb_spec c d) as [->|_]; [by destruct Hn; left|]. rewrite IH by tauto. done.
Qed.

Lemma digit_class c : is_ascii_digit c = true -> c <> "."%char /\ c <> "+"%char.
Proof. intros H. split; intros ->; discriminate. Qed.

Lemma parse_u32_text n : n <= u32_max -> parse_u32 (u32_text n) = Some n.
Proof.
  intros Hn. unfold parse_u32, u32_text. rewrite String.list_ascii_of_string_of_list_ascii.
  destruct (u64_to_string_spec n) as [(Hd & Hne & _) Hv].
  assert (match u64_to_string n with "+"%char :: (_ :: _) as rest => List.tl (u64_to_string n) | _ => u64_to_string n end
          = u64_to_string n) as ->.
  { destruct (u64_to_string n) as [|c l]; [done|]. inversion_clear Hd as [|? ? Hc _].
    apply digit_class in Hc as [_ Hc]. destruct c as [[] [] [] [] [] [] [] []]; done. }
  rewrite (proj2 (forallb_is_digits _) Hd), Hv, (proj2 (N.leb_le _ _) Hn). by destruct (u64_to_string n).
Qed.

Lemma text_no_dot n : ~ In "."%char (String.list_ascii_of_string (u32_text n)).
Proof.
  unfold u32_text. rewrite String.list_ascii_of_string_of_list_ascii.
  destruct (u64_to_string_spec n) as [(Hd & _) _]. intros Hin. unfold is_digits in Hd. rewrite List.Forall_forall in Hd.
  by apply Hd, digit_class in Hin as [? _].
Qed.

Section laws.
Context `{Base64, Hmac, Sha256, !Base64Laws, !HmacLaws}.

Lemma csrf_parse_form t :
  key_version t <> 0 -> key_version t <= u32_max -> length (mac t) = 32%nat -> csrf_parse (as_form_value t) = Ok t.
Proof.
  intros Hz Hv Hl. unfold csrf_parse, as_form_value.
  change ("v" ++ u32_text (key_version t) ++ "." ++ b64_encode (mac t))%string
    with (String "v" (u32_text (key_version t)) ++ String "." (b64_encode (mac t)))%string.
  rewrite split_once_app.
  2:{ cbn [String.list_ascii_of_string In]. intros [E|Hin]; [discriminate|by apply text_no_dot in Hin]. }
  cbn [ok_or mbind result_bind strip_prefix]. rewrite Ascii.eqb_refl. cbn [ok_or mbind result_bind].
  rewrite parse_u32_text by done. cbn [ok_or mbind result_bind]. destruct (N.eqb_spec (key_version t) 0); [done|].
  rewrite b64_decode_encode. cbn [ok_or mbind result_bind]. unfold blen. rewrite Hl. by destruct t.
Qed.

(** ** Tokens belong to one session and one action *)

Lemma stable_id_short id : validate_stable_id id = true -> slen id <= MAX_STABLE_ID_BYTES.
Proof. unfold validate_stable_id. destruct (_ || _) eqn:E; [done|]. by reflect_guards. Qed.

Lemma validate_action_ok a r : validate_action a r = Ok tt <-> validate_stable_id a = true /\ r <> 0.
Proof.
  unfold validate_action. destruct (validate_stable_id a), (N.eqb_spec r 0); cbn; naive_solver.
Qed.

Lemma slen_hex_csrf bs : slen (hex bs) = 2 * blen bs.
Proof. induction bs as [|b bs IH]; [done|]. unfold slen, blen in *. cbn. lia. Qed.

Lemma csrf_message_inj `{!Sha256Laws} s a r s' a' r' :
  validate_stable_id a = true -> validate_stable_id a' = true -> r <= u32_max -> r' <= u32_max ->
  csrf_message s a r = csrf_message s' a' r' ->
  a = a' /\ r = r' /\ (s = s' \/ exists x y, collides x y).
Proof.
  intros Ha%stable_id_short Ha'%stable_id_short Hr Hr' E. unfold MAX_STABLE_ID_BYTES in *.
  assert (forall s a r, slen a <= 96 ->
    Forall (fun f => blen f <= u64_max) [as_bytes "pliego-csrf-v1"; as_bytes (digest s); as_bytes a; be_bytes 4 r]) as F.
  { intros s0 a0 r0 Hz. unfold u64_max. repeat constructor.
    - vm_compute. discriminate.
    - rewrite blen_as_bytes. unfold digest. rewrite slen_hex_csrf. unfold blen. rewrite sha256_length. lia.
    - rewrite blen_as_bytes. lia.
    - unfold blen. rewrite length_be_bytes. lia. }
  apply lp_all_inj in E; [|by apply F..].
  pose proof (f_equal (fun l : list bytes => list_lookup 1%nat l) E) as Es. pose proof (f_equal (fun l : list bytes => list_lookup 2%nat l) E) as Ea.
  pose proof (f_equal (fun l : list bytes => list_lookup 3%nat l) E) as Er. cbn [list_lookup] in Es, Ea, Er. clear E.
  apply Some_inj, as_bytes_inj in Es. apply Some_inj, as_bytes_inj in Ea. apply Some_inj in Er.
  split_and!; [done| |].
  - apply (be_bytes_inj 4); [change (256 ^ N.of_nat 4) with (u32_max + 1); lia..|done].
  - unfold digest in Es. apply hex_inj in Es. destruct (decide (as_bytes (as_cookie_value s) = as_bytes (as_cookie_value s'))) as [Ec|Hne].
    + left. apply as_bytes_inj in Ec. destruct s, s'. cbn in Ec. by subst.
    + right. by exists (as_bytes (as_cookie_value s)), (as_bytes (as_cookie_value s')).
Qed.
End laws.

(** Two messages a key maps to one tag. *)
Definition hmac_collides `{Hmac} (key x y : bytes) : Prop := x <> y /\ hmac_sha256 key x = hmac_sha256 key y.

(** An issued token survives its form field, and a manager that still holds its key
    accepts it for the session and action it was issued for. That manager accepts it for
    no other session, action or revision, unless SHA-256 or the key's HMAC collides. *)
Theorem csrf_token_binds `{Base64, Hmac, Sha256, !Base64Laws, !HmacLaws, !Sha256Laws}
    issuer verifier session action revision session' action' revision' t :
  active_version issuer <> 0 -> active_version issuer <= u32_max -> revision <= u32_max -> revision' <= u32_max ->
  issue issuer session action revision = Ok t ->
  keys verifier !! active_version issuer = keys issuer !! active_version issuer ->
  csrf_parse (as_form_value t) = Ok t
  /\ csrf_verify verifier t session action revision = Ok true
  /\ (csrf_verify verifier t session' action' revision' = Ok true ->
      (session' = session /\ action' = action /\ revision' = revision)
      \/ (exists x y, collides x y) \/ exists key x y, hmac_collides key x y).
Proof.
  intros Hv0 Hv Hr Hr' Hissue Hkey. unfold issue in Hissue. apply bind_ok in Hissue as ([] & Hact & Hissue).
  apply bind_ok in Hissue as (key & Hk%ok_or_ok & [= <-]). split_and!.
  - by apply csrf_parse_form; cbn; [|done|apply hmac_length].
  - unfold csrf_verify. rewrite Hact. cbn [mbind result_bind key_version]. rewrite Hkey, Hk. cbn [mac].
    by rewrite bool_decide_eq_true_2.
  - unfold csrf_verify. intros (u & Hact' & E)%bind_ok. destruct u. cbn [key_version mac] in E. rewrite Hkey, Hk in E.
    injection E as E. apply bool_decide_eq_true in E.
    apply validate_action_ok in Hact as [Ha _], Hact' as [Ha' _].
    destruct (decide (csrf_message session' action' revision' = csrf_message session action revision)) as [Em|Hne].
    + apply csrf_message_inj in Em as (-> & -> & [->|C]); [| |done..].
      * by left.
      * by right; left.
    + right. right. by exists (material key), (csrf_message session' action' revision'), (csrf_message session action revision).
Qed.

Module CsrfSample.
#[local] Existing Instance toy_sha256.

#[local] Instance plain_base64 : Base64 := {|
  b64_encode bs := String.string_of_list_byte bs;
  b64_decode s := Some (as_bytes s) |}.

#[local] Instance toy_hmac : Hmac := fun key message => toy_sha256 (key ++ message).

#[local] Instance plain_base64_laws : Base64Laws.
Proof. intros bs. cbn. f_equal. apply String.list_byte_of_string_of_list_byte. Qed.

#[local] Instance toy_hmac_laws : HmacLaws.
Proof. intros key message. apply length_be_bytes. Qed.

#[local] Instance toy_sha_laws : Sha256Laws := toy_sha256_laws.

Definition secret (version : N) (b : byte) : SecretHandle := mkSecret "csrf" version (replicate 32 b).

Definition manager_of (r : result CsrfError CsrfManager) : CsrfManager :=
  match r with Ok m => m | Err _ => mkManager 0 ∅ end.

(** The key of version 1 is rotated out to a predecessor. *)
Definition before : CsrfManager := manager_of (manager_new (secret 1 x01) []).
Definition after : CsrfManager := manager_of (manager_new (secret 2 x02) [secret 1 x01]).

Definition session : SessionToken := mkToken "session-a".

Definition token : CsrfToken :=
  match issue before session "note-create" 3 with Ok t => t | Err _ => mkCsrf 0 [] end.

Example ring_refusals :
  secret_new "csrf" 1 (replicate 31 x00) = Err (InvalidLength 31 32 4096)
  /\ manager_new (secret 1 x01) [secret 1 x02] = Err DuplicateKeyVersion
  /\ manager_new (secret 1 x01) (map (fun n => secret n x01) [2; 3; 4; 5]) = Err TooManyKeys.
Proof. vm_compute. done. Qed.

(** A sign and leading zeros are accepted in the version of a form value. *)
Example version_is_not_canonical :
  csrf_parse ("v+01." ++ b64_encode (mac token))%string = Ok token.
Proof. vm_compute. reflexivity. Qed.

Lemma csrf_token_binds_witness :
  csrf_parse (as_form_value token) = Ok token /\ csrf_verify after token session "note-create" 3 = Ok true.
Proof.
  destruct (csrf_token_binds before after session "note-create" 3 session "note-create" 3 token) as (H1 & H2 & _).
  - vm_compute. discriminate.
  - vm_compute. discriminate.
  - vm_compute. discriminate.
  - vm_compute. discriminate.
  - vm_compute. reflexivity.
  - vm_compute. reflexivity.
  - split; assumption.
Defined.
End CsrfSample.
