(* ===== verification/Outbound.v ===== *)
(** * Outbound: authorization of outgoing HTTP requests.

    Models [crates/pliego-data/src/outbound.rs]: the policy and its builder, the
    classification of addresses, [OutboundHttpGuard::authorize] and
    [authorize_redirect]. The [url] crate parses and joins URLs ([UrlCrate]); the
    resolver's answer is an argument, with the two ways the wait for it can end
    otherwise. An [Instant] is its number of nanoseconds. *)

From S2P Require Import Prelude Request.

(** ** Addresses *)

Record Ipv4Addr : Type := mkV4 { oct_a : N; oct_b : N; oct_c : N; oct_d : N }.

Record Ipv6Addr : Type := mkV6 {
  seg0 : N; seg1 : N; seg2 : N; seg3 : N; seg4 : N; seg5 : N; seg6 : N; seg7 : N }.

Inductive IpAddr : Type :=
| V4 (address : Ipv4Addr)
| V6 (address : Ipv6Addr).

(** [flowinfo] and [scope_id] are those of a [SocketAddrV6]. *)
Record SocketAddr : Type := mkSocket { ip : IpAddr; port : N; flowinfo : N; scope_id : N }.

#[export] Instance Ipv4Addr_eq_dec : EqDecision Ipv4Addr.
Proof. solve_decision. Defined.
#[export] Instance Ipv6Addr_eq_dec : EqDecision Ipv6Addr.
Proof. solve_decision. Defined.
#[export] Instance IpAddr_eq_dec : EqDecision IpAddr.
Proof. solve_decision. Defined.
#[export] Instance SocketAddr_eq_dec : EqDecision SocketAddr.
Proof. solve_decision. Defined.

(** The methods of [std::net::Ipv4Addr] the code calls. *)
Definition v4_is_unspecified (x : Ipv4Addr) : bool :=
  (oct_a x =? 0) && (oct_b x =? 0) && (oct_c x =? 0) && (oct_d x =? 0).
Definition v4_is_loopback (x : Ipv4Addr) : bool := oct_a x =? 127.
Definition v4_is_private (x : Ipv4Addr) : bool :=
  (oct_a x =? 10) || ((oct_a x =? 172) && (16 <=? oct_b x) && (oct_b x <=? 31)) || ((oct_a x =? 192) && (oct_b x =? 168)).
Definition v4_is_link_local (x : Ipv4Addr) : bool := (oct_a x =? 169) && (oct_b x =? 254).
Definition v4_is_multicast (x : Ipv4Addr) : bool := (224 <=? oct_a x) && (oct_a x <=? 239).
Definition v4_is_broadcast (x : Ipv4Addr) : bool :=
  (oct_a x =? 255) && (oct_b x =? 255) && (oct_c x =? 255) && (oct_d x =? 255).

Definition is_public_ipv4 (x : Ipv4Addr) : bool :=
  let a := oct_a x in let b := oct_b x in let c := oct_c x in
  negb (v4_is_unspecified x || v4_is_loopback x || v4_is_private x || v4_is_link_local x || v4_is_multicast x
        || v4_is_broadcast x || (a =? 0)
        || ((a =? 100) && ((64 <=? b) && (b <=? 127)))
        || ((a =? 192) && (b =? 0) && (c =? 0)) || ((a =? 192) && (b =? 0) && (c =? 2))
        || ((a =? 198) && ((b =? 18) || (b =? 19)))
        || ((a =? 198) && (b =? 51) && (c =? 100)) || ((a =? 203) && (b =? 0) && (c =? 113)) || (240 <=? a)).

Definition segments (x : Ipv6Addr) : list N := [seg0 x; seg1 x; seg2 x; seg3 x; seg4 x; seg5 x; seg6 x; seg7 x].

Definition to_ipv4_mapped (x : Ipv6Addr) : option Ipv4Addr :=
  if bool_decide (take 5 (segments x) = [0; 0; 0; 0; 0]) && (seg5 x =? 0xffff)
  then Some (mkV4 (seg6 x / 256) (seg6 x mod 256) (seg7 x / 256) (seg7 x mod 256)) else None.

Definition v6_is_unspecified (x : Ipv6Addr) : bool := bool_decide (segments x = [0; 0; 0; 0; 0; 0; 0; 0]).
Definition v6_is_loopback (x : Ipv6Addr) : bool := bool_decide (segments x = [0; 0; 0; 0; 0; 0; 0; 1]).
Definition v6_is_multicast (x : Ipv6Addr) : bool := N.land (seg0 x) 0xff00 =? 0xff00.

Definition is_public_ip (address : IpAddr) : bool :=
  match address with
  | V4 x => is_public_ipv4 x
  | V6 x =>
      match to_ipv4_mapped x with
      | Some mapped => is_public_ipv4 mapped
      | None =>
          negb (v6_is_unspecified x) && negb (v6_is_loopback x) && negb (v6_is_multicast x)
          && negb (N.land (seg0 x) 0xfe00 =? 0xfc00) && negb (N.land (seg0 x) 0xffc0 =? 0xfe80)
          && negb (N.land (seg0 x) 0xffc0 =? 0xfec0) && negb ((seg0 x =? 0x2001) && (seg1 x =? 0x0db8))
      end
  end.

(** ** Errors *)

Inductive OutboundHttpError : Type :=
| InvalidPolicy
| InvalidUrl
| ForbiddenUrlComponent
| SchemeRejected
| MissingHost
| HostRejected
| PortRejected
| PathRejected
| DnsFailure
| DnsAddressCount
| PrivateAddressRejected
| RedirectLimit
| PolicyMismatch
| ContextClosed
| Cancelled
| Deadline.

Definition outbound_error_code (e : OutboundHttpError) : string :=
  match e with
  | InvalidPolicy => "PLG-HTTP-001"
  | InvalidUrl | ForbiddenUrlComponent | MissingHost => "PLG-HTTP-101"
  | SchemeRejected | HostRejected | PortRejected => "PLG-HTTP-102"
  | PathRejected => "PLG-HTTP-106"
  | DnsFailure | DnsAddressCount => "PLG-HTTP-103"
  | PrivateAddressRejected => "PLG-HTTP-104"
  | RedirectLimit => "PLG-HTTP-105"
  | PolicyMismatch => "PLG-HTTP-409"
  | ContextClosed => "PLG-HTTP-410"
  | Cancelled | Deadline => "PLG-HTTP-408"
  end.

Definition outbound_error_text (e : OutboundHttpError) : string :=
  match e with
  | InvalidPolicy => "outbound HTTP policy is invalid"
  | InvalidUrl => "outbound URL is invalid"
  | ForbiddenUrlComponent => "outbound URL contains credentials or a fragment"
  | SchemeRejected => "outbound URL scheme is not allowed"
  | MissingHost => "outbound URL has no host"
  | HostRejected => "outbound host is not allowlisted"
  | PortRejected => "outbound port is not allowlisted"
  | PathRejected => "outbound path is not allowlisted"
  | DnsFailure => "outbound DNS resolution failed"
  | DnsAddressCount => "outbound DNS result exceeded its address policy"
  | PrivateAddressRejected => "outbound address is private or reserved"
  | RedirectLimit => "outbound redirect limit was reached"
  | PolicyMismatch => "outbound permit belongs to a different policy"
  | ContextClosed => "request context is closed"
  | Cancelled => "outbound authorization was cancelled"
  | Deadline => "outbound authorization exceeded its deadline"
  end.

(** ** URLs *)

Inductive Host : Type :=
| Domain (name : string)
| HostV4 (address : Ipv4Addr)
| HostV6 (address : Ipv6Addr).

(** What the code reads of a [url::Url]. *)
Record Url : Type := mkUrl {
  url_username : string; url_password : option string; url_fragment : option string; url_scheme : string;
  url_host : option Host; url_port_or_known_default : option N; url_path : string; url_text : string }.

(** [Url::parse], [Url::join] and [Host::parse]; [ip_text] is the [Display] of addresses. *)
Class UrlCrate : Type := {
  url_parse : string -> option Url;
  url_join : Url -> string -> option Url;
  host_parse : string -> option Host;
  ip_text : IpAddr -> string }.

Section outbound.
Context `{UrlCrate}.

Definition normalize_parsed_host (host : Host) : string :=
  match host with
  | Domain value => to_ascii_lowercase value
  | HostV4 x => ip_text (V4 x)
  | HostV6 x => ip_text (V6 x)
  end.

Definition normalize_host (value : string) : result OutboundHttpError string :=
  host ← ok_or InvalidPolicy (host_parse value);
  Ok (normalize_parsed_host host).

(** ** Policies *)

Record OutboundHttpPolicy : Type := mkPolicy {
  policy_id : string; semantic_revision : N; allowed_hosts : gset string; allowed_ports : gset N;
  allowed_path_prefixes : gset string; allow_http : bool; allow_private : bool; timeout : Duration;
  max_redirects : N; max_response_bytes : N; max_resolved_addresses : N }.

Definition policy_new (id : string) (revision : N) : result OutboundHttpError OutboundHttpPolicy :=
  fail_if negb (validate_stable_id id) || (revision =? 0) with InvalidPolicy ;;
  Ok (mkPolicy id revision ∅ {[443]} {["/"]} false false (from_secs 5) 3 (8 * 1024 * 1024) 16).

Definition with_hosts (p : OutboundHttpPolicy) (hosts : gset string) : OutboundHttpPolicy :=
  mkPolicy (policy_id p) (semantic_revision p) hosts (allowed_ports p) (allowed_path_prefixes p) (allow_http p)
    (allow_private p) (timeout p) (max_redirects p) (max_response_bytes p) (max_resolved_addresses p).


Definition with_prefixes (p : OutboundHttpPolicy) (prefixes : gset string) : OutboundHttpPolicy :=
  mkPolicy (policy_id p) (semantic_revision p) (allowed_hosts p) (allowed_ports p) prefixes (allow_http p)
    (allow_private p) (timeout p) (max_redirects p) (max_response_bytes p) (max_resolved_addresses p).

Definition allow_host (p : OutboundHttpPolicy) (host : string) : result OutboundHttpError OutboundHttpPolicy :=
  fail_if 64 <=? N.of_nat (size (allowed_hosts p)) with InvalidPolicy ;;
  host ← normalize_host host;
  Ok (with_hosts p ({[host]} ∪ allowed_hosts p)).


(** [str::split] of a character. *)
Fixpoint split_char (c : ascii) (s : string) : list string :=
  match s with
  | EmptyString => [EmptyString]
  | String d rest =>
      if Ascii.eqb c d then EmptyString :: split_char c rest
      else match split_char c rest with
           | part :: parts => String d part :: parts
           | [] => [String d EmptyString]
           end
  end.

Definition prefix_refused (prefix : string) : bool :=
  String.eqb prefix "" || negb (starts_with "/" prefix)
  || (negb (String.eqb prefix "/") && negb (ends_with "/" prefix))
  || str_contains "%" prefix || str_contains "?" prefix || str_contains "#" prefix || str_contains "//" prefix
  || existsb (fun segment => String.eqb segment "." || String.eqb segment "..") (split_char "/" prefix)
  || any_control prefix.

Definition restrict_path_prefix (p : OutboundHttpPolicy) (prefix : string) : result OutboundHttpError OutboundHttpPolicy :=
  fail_if prefix_refused prefix with InvalidPolicy ;;
  let prefixes :=
    if (N.of_nat (size (allowed_path_prefixes p)) =? 1) && bool_decide ("/" ∈ allowed_path_prefixes p)
       && negb (String.eqb prefix "/")
    then ∅ else allowed_path_prefixes p in
  fail_if 32 <=? N.of_nat (size prefixes) with InvalidPolicy ;;
  Ok (with_prefixes p ({[prefix]} ∪ prefixes)).




Definition guard_new (p : OutboundHttpPolicy) : result OutboundHttpError OutboundHttpPolicy :=
  fail_if bool_decide (allowed_hosts p = ∅) with InvalidPolicy ;;
  Ok p.

(** ** Paths *)

Fixpoint trim_leading (c : ascii) (l : list ascii) : list ascii :=
  match l with
  | d :: l' => if Ascii.eqb c d then trim_leading c l' else l
  | [] => []
  end.

(** [str::trim_end_matches] of a character. *)
Definition trim_end_matches (c : ascii) (s : string) : string :=
  String.string_of_list_ascii (rev (trim_leading c (rev (String.list_ascii_of_string s)))).

Definition path_is_allowed (path : string) (prefixes : gset string) : bool :=
  if bool_decide ("/" ∈ prefixes) then true
  else if str_contains "%" path || str_contains "\" path || str_contains "//" path then false
  else existsb (fun prefix => String.eqb path (trim_end_matches "/" prefix) || starts_with prefix path) (elements prefixes).

(** ** Authorization *)

(** What the guard observes of the request's [DataContext]. *)
Record ContextView : Type := mkView {
  view_closed : bool; view_cancelled : bool; view_now : N; view_deadline : N }.

(** How the wait for the resolver ends. *)
Inductive Resolution : Type :=
| WaitCancelled
| WaitTimedOut
| Resolved (answer : result OutboundHttpError (list SocketAddr)).

Record OutboundHttpPermit : Type := mkPermit {
  permit_policy_id : string; permit_revision : N; permit_url : string; permit_host : string;
  permit_addresses : list SocketAddr; permit_expires_at : N; permit_redirects_remaining : N;
  permit_max_response_bytes : N }.

(** The order of [BTreeSet<SocketAddr>]: [V4] before [V6], then field by field. *)
Definition socket_key (s : SocketAddr) : list N :=
  match ip s with
  | V4 x => [0; oct_a x; oct_b x; oct_c x; oct_d x; port s]
  | V6 x => 1 :: segments x ++ [port s; flowinfo s; scope_id s]
  end.

Fixpoint lex_le (xs ys : list N) : bool :=
  match xs, ys with
  | [], _ => true
  | _ :: _, [] => false
  | x :: xs, y :: ys => (x <? y) || ((x =? y) && lex_le xs ys)
  end.

Definition socket_le (s t : SocketAddr) : Prop := lex_le (socket_key s) (socket_key t) = true.

#[export] Instance socket_le_dec : RelDecision socket_le.
Proof. intros s t. unfold socket_le. apply _. Defined.

(** The addresses collected into a [BTreeSet] and back. *)
Definition unique_addresses (addresses : list SocketAddr) : list SocketAddr :=
  merge_sort socket_le (remove_dups addresses).

Definition literal_addresses (host : Host) (port : N) : option (list SocketAddr) :=
  match host with
  | HostV4 x => Some [mkSocket (V4 x) port 0 0]
  | HostV6 x => Some [mkSocket (V6 x) port 0 0]
  | Domain _ => None
  end.

Definition authorize_inner (p : OutboundHttpPolicy) (view : ContextView)
    (resolve : string -> N -> Duration -> Resolution) (authored : string) (redirects_remaining : N)
    : result OutboundHttpError OutboundHttpPermit :=
  fail_if view_closed view with ContextClosed ;;
  fail_if view_cancelled view with Cancelled ;;
  let now := view_now view in
  fail_if view_deadline view <=? now with Deadline ;;
  parsed ← ok_or InvalidUrl (url_parse authored);
  fail_if negb (String.eqb (url_username parsed) "") || bool_decide (is_Some (url_password parsed))
          || bool_decide (is_Some (url_fragment parsed)) with ForbiddenUrlComponent ;;
  fail_if negb (String.eqb (url_scheme parsed) "https" || (String.eqb (url_scheme parsed) "http" && allow_http p))
    with SchemeRejected ;;
  host ← ok_or MissingHost (url_host parsed);
  let normalized_host := normalize_parsed_host host in
  fail_if negb (bool_decide (normalized_host ∈ allowed_hosts p)) with HostRejected ;;
  pt ← ok_or PortRejected (url_port_or_known_default parsed);
  fail_if negb (bool_decide (pt ∈ allowed_ports p)) with PortRejected ;;
  fail_if negb (path_is_allowed (url_path parsed) (allowed_path_prefixes p)) with PathRejected ;;
  let wait := N.min (timeout p) (view_deadline view - now) in
  addresses ←
    match literal_addresses host pt with
    | Some addresses => Ok addresses
    | None =>
        match resolve normalized_host pt wait with
        | WaitCancelled => Err Cancelled
        | WaitTimedOut => Err Deadline
        | Resolved answer => answer
        end
    end;
  fail_if (blen addresses =? 0) || (max_resolved_addresses p <? blen addresses) with DnsAddressCount ;;
  let unique := unique_addresses addresses in
  fail_if existsb (fun a => negb (port a =? pt)) unique with DnsAddressCount ;;
  fail_if negb (allow_private p) && existsb (fun a => negb (is_public_ip (ip a))) unique with PrivateAddressRejected ;;
  Ok (mkPermit (policy_id p) (semantic_revision p) (url_text parsed) normalized_host unique (now + wait)
        redirects_remaining (max_response_bytes p)).

Definition authorize (p : OutboundHttpPolicy) (view : ContextView) (resolve : string -> N -> Duration -> Resolution)
    (url : string) : result OutboundHttpError OutboundHttpPermit :=
  authorize_inner p view resolve url (max_redirects p).



(** The outcome and code the receipt of an authorization records. *)
Inductive OutboundOutcome : Type := OutcomeSuccess | OutcomeRejected | OutcomeCancelled.

Definition receipt_outcome {A} (r : result OutboundHttpError A) : OutboundOutcome * option string :=
  match r with
  | Ok _ => (OutcomeSuccess, None)
  | Err (Cancelled as e) | Err (Deadline as e) => (OutcomeCancelled, Some (outbound_error_code e))
  | Err e => (OutcomeRejected, Some (outbound_error_code e))
  end.
End outbound.

(** ** Address blocks *)

Definition v6_low (x : Ipv6Addr) : N :=
  ((((seg2 x * 65536 + seg3 x) * 65536 + seg4 x) * 65536 + seg5 x) * 65536 + seg6 x) * 65536 + seg7 x.
Definition v6_value (x : Ipv6Addr) : N := (seg0 x * 65536 + seg1 x) * 2 ^ 96 + v6_low x.























(** *** The special-purpose blocks *)


(** The IANA IPv6 registry likewise, with multicast, the deprecated site-local and
    IPv4-compatible blocks, and the translation blocks NAT64 and 6to4, which embed IPv4
    addresses: unspecified, loopback, IPv4-mapped, IPv4-compatible, NAT64 and its local
    use, discard-only, dummy prefix, IETF protocol assignments and their benchmarking
    block, documentation, 6to4, documentation, segment routing, unique-local, link-local,
    site-local, multicast. *)
Definition block6 (s0 s1 s2 s3 s5 s7 len : N) : N * N := (v6_value (mkV6 s0 s1 s2 s3 0 s5 0 s7), len).



(** Those the code takes for public. *)
Definition overlooked_v6 : list (N * N) :=
  [block6 0 0 0 0 0 0 96; block6 0x64 0xff9b 0 0 0 0 96; block6 0x64 0xff9b 1 0 0 0 48; block6 0x100 0 0 0 0 0 64;
   block6 0x100 0 0 1 0 0 64; block6 0x2001 0 0 0 0 0 23; block6 0x2001 2 0 0 0 0 48; block6 0x2002 0 0 0 0 0 16;
   block6 0x3fff 0 0 0 0 0 20; block6 0x5f00 0 0 0 0 0 16].







(** ** Paths under a prefix *)

Local Open Scope string_scope.


Lemma string_app_nil_r (a : string) : (a ++ "" = a)%string.
Proof. induction a as [|x a IH]; [done|]. apply (f_equal (String x)), IH. Qed.












(** ** Policies and permits *)

Section permits.
Context `{UrlCrate}.













End permits.

Module OutboundSample.

Definition url_of (scheme host path text : string) (h : Host) (port : N) : Url := mkUrl "" None None scheme (Some h) (Some port) path text.

Definition api : Host := Domain "api.example.com".
Definition items : Url := url_of "https" "api.example.com" "/v1/items" "https://api.example.com/v1/items" api 443.
Definition users : Url := url_of "https" "api.example.com" "/v1/users" "https://api.example.com/v1/users" api 443.
Definition sibling : Url := url_of "https" "api.example.com" "/v10/users" "https://api.example.com/v10/users" api 443.

(** A parser of three URLs and one relative reference. *)
#[local] Instance toy_url : UrlCrate := {|
  url_parse s := if String.eqb s (url_text items) then Some items else if String.eqb s (url_text users) then Some users
                 else if String.eqb s (url_text sibling) then Some sibling else None;
  url_join _ s := if String.eqb s "users" then Some users else None;
  host_parse s := if String.eqb s "API.example.com" then Some (Domain s) else None;
  ip_text _ := "" |}.

Definition from_ok (r : result OutboundHttpError OutboundHttpPolicy) : OutboundHttpPolicy :=
  match r with Ok p => p | Err _ => mkPolicy "" 0 ∅ ∅ ∅ false false 0 0 0 0 end.

Definition base_policy : OutboundHttpPolicy := from_ok (policy_new "catalog-http" 1).
Definition host_policy : OutboundHttpPolicy := from_ok (allow_host base_policy "API.example.com").
Definition policy : OutboundHttpPolicy := from_ok (restrict_path_prefix host_policy "/v1/").

Definition view : ContextView := mkView false false 1000 (1000 + from_secs 2).
Definition public_v4 : SocketAddr := mkSocket (V4 (mkV4 93 184 216 34)) 443 0 0.
Definition loopback : SocketAddr := mkSocket (V4 (mkV4 127 0 0 1)) 443 0 0.
Definition answer (l : list SocketAddr) (host : string) (port : N) (wait : Duration) : Resolution := Resolved (Ok l).



Example refusals :
  authorize policy view (answer [public_v4; loopback]) (url_text items) = Err PrivateAddressRejected
  /\ authorize policy view (answer [public_v4]) (url_text sibling) = Err PathRejected
  /\ authorize policy view (fun _ _ _ => WaitTimedOut) (url_text items) = Err Deadline
  /\ authorize policy view (answer []) (url_text items) = Err DnsAddressCount.
Proof. vm_compute. done. Qed.

(** The overlooked blocks are accepted, from their first address on. *)
Definition at_value (v : N) : Ipv6Addr :=
  let segment k := v / 2 ^ (16 * k) mod 65536 in
  mkV6 (segment 7) (segment 6) (segment 5) (segment 4) (segment 3) (segment 2) (segment 1) (segment 0).

Example overlooked_is_public :
  forallb (fun block : N * N => is_public_ip (V6 (at_value (block.1 + 2)%N)) && (v6_value (at_value (block.1 + 2)%N) =? block.1 + 2)%N) overlooked_v6 = true.
Proof. vm_compute. reflexivity. Qed.

(** Addresses that embed a private IPv4 address by NAT64 or 6to4 are public. *)
Example embedded_private_is_public :
  is_public_ip (V6 (mkV6 0x64 0xff9b 0 0 0 0 0x0a00 0x0001)) = true
  /\ is_public_ip (V6 (mkV6 0x2002 0x7f00 0x0001 0 0 0 0 0)) = true
  /\ is_public_ip (V6 (mkV6 0 0 0 0 0 0xffff 0x0a00 0x0001)) = false.
Proof. vm_compute. done. Qed.

End OutboundSample.
