(* ===== verification/DataContext.v ===== *)
(** * DataContext: the data side of a request

    Models of [crates/pliego-data/src/]: [error.rs] (the error and its codes),
    [values.rs], [receipt.rs], [resource.rs], [cancellation.rs], [authority.rs] and
    [context.rs]. A context is shared by the tasks of one request; its operations are
    functions of its state, split where the code leaves a lock between two of its
    accesses. An [Instant] is its number of nanoseconds, and [dyn Any] is a value
    tagged with its type. *)

From S2P Require Import Prelude Request Cache.

Local Open Scope string_scope.
Local Open Scope N_scope.

(** ** Errors *)

Inductive DataError : Type :=
| InvalidStableId (id : string)
| DuplicateResource (id : string)
| ResourceUnavailable (id : string)
| ResourceTypeMismatch (id : string)
| MissingCapability (resource capability : string)
| ContextClosed
| RequestValues (message : string)
| PolicyNotGranted (message : string)
| Cancelled
| Deadline
| InvalidLoaderPolicy (message : string)
| LoaderInput (message : string)
| LoaderOutput (actual maximum : N)
| LoaderFailure (message : string)
| ActionAdmission (message : string)
| ActionInput (message : string)
| ActionOutput (actual maximum : N)
| InvalidActionState (message : string)
| ActionOutcomeUnknown
| ActionIdempotencyConflict
| ActionInProgress
| ActionFailed (message : string)
| Serialization
| CleanupLimit (maximum : N).

#[export] Instance data_error_eq_dec : EqDecision DataError.
Proof. solve_decision. Defined.

Definition data_error_code (e : DataError) : string :=
  match e with
  | InvalidStableId _ => "PLG-DAT-001"
  | DuplicateResource _ => "PLG-DAT-002"
  | ResourceUnavailable _ => "PLG-DAT-101"
  | ResourceTypeMismatch _ => "PLG-DAT-102"
  | MissingCapability _ _ => "PLG-DAT-103"
  | ContextClosed => "PLG-DAT-104"
  | RequestValues _ => "PLG-DAT-105"
  | PolicyNotGranted _ => "PLG-DAT-106"
  | InvalidLoaderPolicy _ => "PLG-DAT-200"
  | LoaderInput _ => "PLG-DAT-201"
  | LoaderOutput _ _ => "PLG-DAT-202"
  | Cancelled | Deadline => "PLG-DAT-408"
  | LoaderFailure _ | Serialization => "PLG-DAT-500"
  | ActionAdmission _ => "PLG-ACT-101"
  | ActionInput _ => "PLG-ACT-201"
  | ActionOutput _ _ => "PLG-ACT-202"
  | InvalidActionState _ => "PLG-ACT-301"
  | ActionOutcomeUnknown | ActionIdempotencyConflict => "PLG-ACT-409"
  | ActionInProgress => "PLG-ACT-425"
  | ActionFailed _ => "PLG-ACT-500"
  | CleanupLimit _ => "PLG-DAT-501"
  end.

(** ** Request values *)

Definition MAX_ROUTE_PARAMETERS : N := 32.
Definition MAX_QUERY_VALUES : N := 128.
Definition MAX_METADATA_VALUES : N := 16.
Definition MAX_NAME_BYTES : N := 256.
Definition MAX_VALUE_BYTES : N := 4 * 1024.

Record DataRequestValues : Type := mkValues {
  route_parameters : gmap string string; query : gmap string (list string); metadata : gmap string string }.

Definition validate_name (value : string) : result DataError unit :=
  fail_if (slen value =? 0) || (MAX_NAME_BYTES <? slen value) || any_control value
    with RequestValues "request value name is invalid" ;;
  Ok tt.

Definition validate_value (value : string) : result DataError unit :=
  fail_if (MAX_VALUE_BYTES <? slen value) || negb (string_all (fun c => negb (char_in ["000"; "013"; "010"]%char c)) value)
    with RequestValues "request value is invalid or exceeds its bound" ;;
  Ok tt.

(** [for x in xs { check(x)?; }] *)
Fixpoint try_for {E A} (check : A -> result E unit) (xs : list A) : result E unit :=
  match xs with
  | [] => Ok tt
  | x :: xs => _ ← check x; try_for check xs
  end.

Definition validate_pair (entry : string * string) : result DataError unit :=
  _ ← validate_name entry.1; validate_value entry.2.

Definition validate_query (entry : string * list string) : result DataError unit :=
  _ ← validate_name entry.1;
  fail_if bool_decide (entry.2 = []) with RequestValues "query keys must contain at least one value" ;;
  try_for validate_value entry.2.

Definition values_new (route : gmap string string) (query : gmap string (list string)) (metadata : gmap string string)
    : result DataError DataRequestValues :=
  fail_if MAX_ROUTE_PARAMETERS <? N.of_nat (size route) with RequestValues "too many route parameters" ;;
  fail_if MAX_QUERY_VALUES <? foldr (fun entry total => blen entry.2 + total) 0 (string_iter query)
    with RequestValues "too many query values" ;;
  fail_if MAX_METADATA_VALUES <? N.of_nat (size metadata) with RequestValues "too many request metadata values" ;;
  _ ← try_for validate_pair (string_iter route);
  _ ← try_for validate_query (string_iter query);
  _ ← try_for validate_pair (string_iter metadata);
  Ok (mkValues route query metadata).

(** ** Receipts *)

Inductive DataCancelReason : Type :=
| ClientDisconnect | ReasonDeadline | Shutdown | ApplicationAbort | RequestBodyLimit | ResponseBodyLimit | ScopeClosed.

#[export] Instance cancel_reason_eq_dec : EqDecision DataCancelReason.
Proof. solve_decision. Defined.

Inductive DataOperation : Type := ResourceLeased | LoaderRun | ActionRun | SessionUse | OutboundHttp.

Inductive DataOutcome : Type := Success | Rejected | WasCancelled | Failed.

Inductive DataDurationBucket : Type :=
| Under1Millisecond | Under10Milliseconds | Under50Milliseconds | Under250Milliseconds | AtLeast250Milliseconds.

Definition from_duration (d : Duration) : DataDurationBucket :=
  if d <? from_millis 1 then Under1Millisecond
  else if d <? from_millis 10 then Under10Milliseconds
  else if d <? from_millis 50 then Under50Milliseconds
  else if d <? from_millis 250 then Under250Milliseconds
  else AtLeast250Milliseconds.

Inductive DataSizeBucket : Type :=
| NoBytes | Under1Kibibyte | Under16Kibibytes | Under256Kibibytes | AtLeast256Kibibytes.

Definition from_bytes (n : N) : DataSizeBucket :=
  if n =? 0 then NoBytes
  else if n <=? 1023 then Under1Kibibyte
  else if n <=? 16383 then Under16Kibibytes
  else if n <=? 262143 then Under256Kibibytes
  else AtLeast256Kibibytes.

Record DataReceipt : Type := mkReceipt {
  contract : string; operation : DataOperation; operation_id : string; receipt_revision : N; outcome : DataOutcome;
  duration_bucket : DataDurationBucket; output_size_bucket : DataSizeBucket; deduplicated : bool;
  receipt_reason : option DataCancelReason; diagnostic_code : option string }.

Definition data_receipt_contract : string := "dev.pliegors.data-receipt/v1".

(** ** Resources *)

Definition CapabilitySet : Type := gset string.

Definition allowing (capability : string) (set : CapabilitySet) : result DataError CapabilitySet :=
  fail_if negb (validate_stable_id capability) with InvalidStableId capability ;;
  Ok ({[capability]} ∪ set).

Definition allows (set : CapabilitySet) (capability : string) : bool := bool_decide (capability ∈ set).

Record ResourceSpec : Type := mkSpec {
  spec_id : string; provider_id : string; spec_capabilities : CapabilitySet; max_lease_ms : option N; description : string }.

Definition spec_new (id provider : string) : result DataError ResourceSpec :=
  _ ← try_for (fun value => if validate_stable_id value then Ok tt else Err (InvalidStableId value)) [id; provider];
  Ok (mkSpec id provider ∅ None "").

Definition with_capabilities (s : ResourceSpec) (set : CapabilitySet) : ResourceSpec :=
  mkSpec (spec_id s) (provider_id s) set (max_lease_ms s) (description s).

Definition max_lease (s : ResourceSpec) (d : Duration) : result DataError ResourceSpec :=
  fail_if u64_max <? as_millis d with InvalidStableId "resource-lease-duration" ;;
  fail_if as_millis d =? 0 with InvalidStableId "resource-lease-duration" ;;
  Ok (mkSpec (spec_id s) (provider_id s) (spec_capabilities s) (Some (as_millis d)) (description s)).

Definition describe (s : ResourceSpec) (text : string) : result DataError ResourceSpec :=
  fail_if (160 <? slen text) || negb (string_all (fun c => negb (char_in ["013"; "010"; "000"]%char c)) text)
    with InvalidStableId "resource-description" ;;
  Ok (mkSpec (spec_id s) (provider_id s) (spec_capabilities s) (max_lease_ms s) text).

(** [ResourceRequirement] and [ResourceGrant]: an identifier and capabilities. *)
Record ResourceRequirement : Type := mkRequirement { requirement_id : string; required : CapabilitySet }.
Record ResourceGrant : Type := mkGrant { grant_id : string; granted : CapabilitySet }.

Definition requirement_new (id : string) : result DataError ResourceRequirement :=
  fail_if negb (validate_stable_id id) with InvalidStableId id ;; Ok (mkRequirement id ∅).

Definition requiring (r : ResourceRequirement) (capability : string) : result DataError ResourceRequirement :=
  set ← allowing capability (required r); Ok (mkRequirement (requirement_id r) set).

Definition grant_new (id : string) : result DataError ResourceGrant :=
  fail_if negb (validate_stable_id id) with InvalidStableId id ;; Ok (mkGrant id ∅).

Definition grant_allowing (g : ResourceGrant) (capability : string) : result DataError ResourceGrant :=
  set ← allowing capability (granted g); Ok (mkGrant (grant_id g) set).

(** ** Policy grants *)

Record DataPolicyGrants : Type := mkPolicies {
  loaders : gmap string string; actions : gmap string string; caches : gmap string string }.

Definition no_policies : DataPolicyGrants := mkPolicies ∅ ∅ ∅.

Definition insert_policy (grants : gmap string string) (id digest kind : string) : result DataError (gmap string string) :=
  match grants !! id with
  | Some existing =>
      if String.eqb existing digest then Ok grants
      else Err (PolicyNotGranted ("conflicting " ++ kind ++ " policy " ++ id))
  | None => Ok (<[id := digest]> grants)
  end.

Definition permits (grants : gmap string string) (id digest : string) : bool :=
  match grants !! id with Some current => String.eqb current digest | None => false end.

Definition grant_cache `{Sha256} (g : DataPolicyGrants) (p : CachePolicy) : result DataError DataPolicyGrants :=
  caches ← insert_policy (caches g) (Cache.id p) (contract_digest p) "cache";
  Ok (mkPolicies (loaders g) (actions g) caches).

(** ** The context *)

Record DataIdentity : Type := mkIdentity { request_id : string; route_id : string; deployment_id : string }.

(** [DataIdentityError]: the field and its value. *)
Definition validate_identity (field value : string) : result (string * string) unit :=
  fail_if (slen value =? 0) || (128 <? slen value)
          || negb (string_all (fun c => is_ascii_alphanumeric c || char_in ["-"; "_"; "."; ":"]%char c) value)
    with (field, value) ;;
  Ok tt.

Definition identity_new (request route deployment : string) : result (string * string) DataIdentity :=
  _ ← validate_identity "request_id" request;
  _ ← validate_identity "route_id" route;
  _ ← validate_identity "deployment_id" deployment;
  Ok (mkIdentity request route deployment).

Record DataContextOptions : Type := mkOptions { max_receipts : N; max_cleanups : N }.

Definition default_options : DataContextOptions := mkOptions 128 64.

Definition validate_options (o : DataContextOptions) : result DataError unit :=
  fail_if (max_receipts o =? 0) || (4096 <? max_receipts o)
    with InvalidLoaderPolicy "max_receipts must be between 1 and 4096" ;;
  fail_if (max_cleanups o =? 0) || (1024 <? max_cleanups o)
    with InvalidLoaderPolicy "max_cleanups must be between 1 and 1024" ;;
  Ok tt.

(** A cleanup answers, or panics; [close] ignores which. *)
Inductive CleanupResult : Type := Finished | Refused (message : string) | Panicked.
Definition Cleanup : Type := DataCancelReason -> CleanupResult.

Section context.
(** The types of resources, and their values. *)
Context {Ty : Type} `{!EqDecision Ty} {Val : Ty -> Type}.

Record StoredResource : Type := mkStored { spec : ResourceSpec; stored : {t : Ty & Val t} }.

(** [Arc<dyn Any>::downcast]. *)
Definition downcast (t : Ty) (value : {t : Ty & Val t}) : option (Val t) :=
  match decide (projT1 value = t) with
  | left e => Some (eq_rect _ Val (projT2 value) _ e)
  | right _ => None
  end.

Definition ResourceRegistry : Type := gmap string StoredResource.

(** [register] and [register_arc] differ in who allocates. *)
Definition register (r : ResourceRegistry) (s : ResourceSpec) (value : {t : Ty & Val t}) : result DataError ResourceRegistry :=
  fail_if bool_decide (is_Some (r !! spec_id s)) with DuplicateResource (spec_id s) ;;
  Ok (<[spec_id s := mkStored s value]> r).

(** [DataContextInner]. A loader cell is the address of its [OnceCell]; [ran] is the
    history of the cleanups called. *)
Record DataContext : Type := mkContext {
  identity : DataIdentity; deadline : N; resources : ResourceRegistry; values : DataRequestValues;
  grants : gmap string CapabilitySet; options : DataContextOptions; policy_grants : option DataPolicyGrants;
  closed : bool; cancelled : bool; cancel_reason : option DataCancelReason;
  loader_cells : gmap string nat; receipts : list DataReceipt; cache_receipts : list CacheReceipt;
  invalidation_events : list InvalidationEvent; cleanups : list Cleanup; ran : list (Cleanup * DataCancelReason) }.

Definition set_life (closed cancelled : bool) (reason : option DataCancelReason) (c : DataContext) : DataContext :=
  mkContext (identity c) (deadline c) (resources c) (values c) (grants c) (options c) (policy_grants c) closed cancelled reason
    (loader_cells c) (receipts c) (cache_receipts c) (invalidation_events c) (cleanups c) (ran c).
Definition set_loader_cells (x : gmap string nat) (c : DataContext) : DataContext :=
  mkContext (identity c) (deadline c) (resources c) (values c) (grants c) (options c) (policy_grants c) (closed c) (cancelled c)
    (cancel_reason c) x (receipts c) (cache_receipts c) (invalidation_events c) (cleanups c) (ran c).
Definition set_receipts (x : list DataReceipt) (c : DataContext) : DataContext :=
  mkContext (identity c) (deadline c) (resources c) (values c) (grants c) (options c) (policy_grants c) (closed c) (cancelled c)
    (cancel_reason c) (loader_cells c) x (cache_receipts c) (invalidation_events c) (cleanups c) (ran c).
Definition set_cache_receipts (x : list CacheReceipt) (c : DataContext) : DataContext :=
  mkContext (identity c) (deadline c) (resources c) (values c) (grants c) (options c) (policy_grants c) (closed c) (cancelled c)
    (cancel_reason c) (loader_cells c) (receipts c) x (invalidation_events c) (cleanups c) (ran c).
Definition set_invalidation_events (x : list InvalidationEvent) (c : DataContext) : DataContext :=
  mkContext (identity c) (deadline c) (resources c) (values c) (grants c) (options c) (policy_grants c) (closed c) (cancelled c)
    (cancel_reason c) (loader_cells c) (receipts c) (cache_receipts c) x (cleanups c) (ran c).
Definition set_cleanups (x : list Cleanup) (r : list (Cleanup * DataCancelReason)) (c : DataContext) : DataContext :=
  mkContext (identity c) (deadline c) (resources c) (values c) (grants c) (options c) (policy_grants c) (closed c) (cancelled c)
    (cancel_reason c) (loader_cells c) (receipts c) (cache_receipts c) (invalidation_events c) x r.

Fixpoint collect_grants (acc : gmap string CapabilitySet) (gs : list ResourceGrant)
    : result DataError (gmap string CapabilitySet) :=
  match gs with
  | [] => Ok acc
  | g :: gs =>
      fail_if bool_decide (is_Some (acc !! grant_id g)) with DuplicateResource (grant_id g) ;;
      collect_grants (<[grant_id g := granted g]> acc) gs
  end.

(** [open] passes no policies, [open_sealed] some. *)
Definition open_with_policy_grants (identity : DataIdentity) (resources : ResourceRegistry) (gs : list ResourceGrant)
    (values : DataRequestValues) (deadline : N) (options : DataContextOptions) (policies : option DataPolicyGrants) (now : N)
    : result DataError DataContext :=
  _ ← validate_options options;
  fail_if deadline <=? now with Deadline ;;
  grants ← collect_grants ∅ gs;
  Ok (mkContext identity deadline resources values grants options policies false false None ∅ [] [] [] [] []).

Definition require_policy (granted : DataPolicyGrants -> gmap string string) (id digest : string) (c : DataContext) : bool :=
  match policy_grants c with Some g => permits (granted g) id digest | None => true end.

Definition record_receipt (r : DataReceipt) (c : DataContext) : DataContext :=
  if blen (receipts c) <? max_receipts (options c) then set_receipts (receipts c ++ [r])%list c else c.

Definition record_cache_receipt (r : CacheReceipt) (c : DataContext) : DataContext :=
  if blen (cache_receipts c) <? max_receipts (options c) then set_cache_receipts (cache_receipts c ++ [r])%list c else c.

Definition record_invalidation (e : InvalidationEvent) (c : DataContext) : DataContext :=
  if blen (invalidation_events c) <? max_receipts (options c)
  then set_invalidation_events (invalidation_events c ++ [e])%list c else c.

(** *** Leases *)

Record ResourceLease (t : Ty) : Type := mkLease {
  lease_id : string; lease_provider : string; lease_capabilities : CapabilitySet; lease_value : Val t; lease_deadline : N }.

Arguments mkLease {t}.
Arguments lease_id {t}.
Arguments lease_provider {t}.
Arguments lease_capabilities {t}.
Arguments lease_value {t}.
Arguments lease_deadline {t}.

Definition acquire (t : Ty) (req : ResourceRequirement) (now : N) (c : DataContext) : result DataError (ResourceLease t) :=
  fail_if closed c with ContextClosed ;;
  entry ← ok_or (ResourceUnavailable (requirement_id req)) (resources c !! requirement_id req);
  have ← ok_or (ResourceUnavailable (requirement_id req)) (grants c !! requirement_id req);
  _ ← try_for (fun capability =>
        if negb (allows have capability) || negb (allows (spec_capabilities (spec entry)) capability)
        then Err (MissingCapability (requirement_id req) capability) else Ok tt) (btree_elements (required req));
  value ← ok_or (ResourceTypeMismatch (requirement_id req)) (downcast t (stored entry));
  let limit :=
    match max_lease_ms (spec entry) with
    | Some millis => N.min (now + from_millis millis) (deadline c)
    | None => deadline c
    end in
  Ok (mkLease (spec_id (spec entry)) (provider_id (spec entry)) (required req) value limit).

Definition resource (t : Ty) (req : ResourceRequirement) (now : N) (elapsed : Duration) (c : DataContext)
    : DataContext * result DataError (ResourceLease t) :=
  let answer := acquire t req now c in
  let '(out, code) :=
    match answer with Ok _ => (Success, None) | Err e => (Rejected, Some (data_error_code e)) end in
  (record_receipt (mkReceipt data_receipt_contract ResourceLeased (requirement_id req) 1 out (from_duration elapsed) NoBytes
     false (cancel_reason c) code) c, answer).

(** [ensure_active]: the lease shares the state of its context. *)
Definition ensure_active {t} (l : ResourceLease t) (now : N) (c : DataContext) : result DataError unit :=
  fail_if closed c with ContextClosed ;;
  fail_if cancelled c with Cancelled ;;
  fail_if lease_deadline l <=? now with Deadline ;;
  Ok tt.

Definition lease_get {t} (l : ResourceLease t) (now : N) (c : DataContext) : result DataError (Val t) :=
  _ ← ensure_active l now c; Ok (lease_value l).

(** *** Cleanups, cancellation and closing *)

(** [register_cleanup]: the check, then the push under the lock. *)
Definition register_check (c : DataContext) : result DataError unit :=
  fail_if closed c with ContextClosed ;; Ok tt.

Definition register_push (f : Cleanup) (c : DataContext) : DataContext * result DataError unit :=
  if max_cleanups (options c) <=? blen (cleanups c) then (c, Err (CleanupLimit (max_cleanups (options c))))
  else (set_cleanups (cleanups c ++ [f])%list (ran c) c, Ok tt).

Definition register_cleanup (f : Cleanup) (c : DataContext) : DataContext * result DataError unit :=
  match register_check c with Ok _ => register_push f c | Err e => (c, Err e) end.

Definition cancel (reason : DataCancelReason) (c : DataContext) : DataContext :=
  set_life (closed c) true (Some (default reason (cancel_reason c))) c.

(** [close]: the swap, the reason and the cancellation; the cleanups taken; the
    cleanups run, last first; the cells cleared. *)
Definition close_begin (c : DataContext) : DataContext * DataCancelReason :=
  let reason := default ScopeClosed (cancel_reason c) in
  (set_life true true (Some reason) c, reason).

Definition take_cleanups (c : DataContext) : DataContext * list Cleanup := (set_cleanups [] (ran c) c, cleanups c).

Definition run_cleanups (taken : list Cleanup) (reason : DataCancelReason) (c : DataContext) : DataContext :=
  set_cleanups (cleanups c) (ran c ++ ((fun f => (f, reason)) <$> rev taken))%list c.

Definition close (c : DataContext) : DataContext :=
  if closed c then c
  else
    let '(c, reason) := close_begin c in
    let '(c, taken) := take_cleanups c in
    set_loader_cells ∅ (run_cleanups taken reason c).

(** *** The cache through the context *)

Definition cache_lookup `{Sha256} {V} `{Serde V} (p : CachePolicy) (k : CacheKey) (now : clock) (s : InMemoryCacheStore)
    (c : DataContext) : (DataContext * InMemoryCacheStore) * result CacheError (CacheLookup V) :=
  if closed c then ((c, s), Err StoreFailure)
  else if negb (require_policy caches (Cache.id p) (contract_digest p) c) then ((c, s), Err Cache.PolicyNotGranted)
  else
    let '(s, answer) := lookup (V := V) p k now s in
    match answer with
    | Ok found => ((record_cache_receipt (receipt found) c, s), Ok found)
    | Err e => ((c, s), Err e)
    end.

Definition cache_insert `{Sha256} {V} `{Serde V} (p : CachePolicy) (k : CacheKey) (v : V) (tags : list string) (now : clock)
    (s : InMemoryCacheStore) (c : DataContext) : (DataContext * InMemoryCacheStore) * result CacheError CacheReceipt :=
  if closed c then ((c, s), Err StoreFailure)
  else if negb (require_policy caches (Cache.id p) (contract_digest p) c) then ((c, s), Err Cache.PolicyNotGranted)
  else
    let '(s, answer) := insert p k v tags now s in
    match answer with
    | Ok r => ((record_cache_receipt r c, s), Ok r)
    | Err e => ((c, s), Err e)
    end.

(** ** The life of a context *)

(** Calls of the tasks of a request, one at a time, and of its control. *)
Inductive ContextCall : Type :=
| CallRegister (f : Cleanup)
| CallResource (t : Ty) (req : ResourceRequirement) (now : N) (elapsed : Duration)
| CallCancel (reason : DataCancelReason)
| CallClose.

(** A call, with the cleanups registered so far. *)
Definition call (x : ContextCall) (s : DataContext * list Cleanup) : DataContext * list Cleanup :=
  let '(c, registered) := s in
  match x with
  | CallRegister f =>
      match register_cleanup f c with (c, Ok _) => (c, registered ++ [f])%list | (c, Err _) => (c, registered) end
  | CallResource t req now elapsed => ((resource t req now elapsed c).1, registered)
  | CallCancel reason => (cancel reason c, registered)
  | CallClose => (close c, registered)
  end.

Definition calls (xs : list ContextCall) (c : DataContext) : DataContext * list Cleanup := fold_left (fun s x => call x s) xs (c, []).

(** The reason that counts: the first one given, or that of the close. *)
Fixpoint first_reason (xs : list ContextCall) : option DataCancelReason :=
  match xs with
  | [] => None
  | CallCancel reason :: _ => Some reason
  | CallClose :: _ => Some ScopeClosed
  | _ :: xs => first_reason xs
  end.

Definition is_close (x : ContextCall) : bool := match x with CallClose => true | _ => false end.

Lemma first_reason_app xs ys :
  first_reason (xs ++ ys)%list = match first_reason xs with Some r => Some r | None => first_reason ys end.
Proof. induction xs as [|[] xs IH]; cbn; try done; by destruct (first_reason _). Qed.

Lemma close_first_reason xs : existsb is_close xs = true -> exists reason, first_reason xs = Some reason.
Proof. induction xs as [|[] xs IH]; cbn; try done; eauto. Qed.

Record lifecycle (c0 c : DataContext) (registered : list Cleanup) (xs : list ContextCall) : Prop := {
  lc_closed : closed c = existsb is_close xs;
  lc_reason : cancel_reason c = first_reason xs;
  lc_cancelled : cancelled c = bool_decide (is_Some (first_reason xs));
  lc_open : closed c = false -> cleanups c = registered /\ ran c = [];
  lc_done : closed c = true ->
    cleanups c = [] /\ exists reason, cancel_reason c = Some reason /\ ran c = (fun f => (f, reason)) <$> rev registered;
  lc_options : options c = options c0;
  lc_registered : blen registered <= max_cleanups (options c0);
  lc_receipts : blen (receipts c) <= max_receipts (options c0) }.

Lemma record_receipt_life r c :
  closed (record_receipt r c) = closed c /\ cancelled (record_receipt r c) = cancelled c
  /\ cancel_reason (record_receipt r c) = cancel_reason c /\ cleanups (record_receipt r c) = cleanups c
  /\ ran (record_receipt r c) = ran c /\ options (record_receipt r c) = options c
  /\ (blen (receipts c) <= max_receipts (options c) -> blen (receipts (record_receipt r c)) <= max_receipts (options c)).
Proof.
  unfold record_receipt. destruct (_ <? _) eqn:E; [|done]. apply N.ltb_lt in E. split_and!; try done.
  intros _. cbn. rewrite blen_app. unfold blen in *. cbn [length]. lia.
Qed.

Lemma lifecycle_call c0 c registered xs x :
  lifecycle c0 c registered xs -> lifecycle c0 (call x (c, registered)).1 (call x (c, registered)).2 (xs ++ [x]).
Proof.
  intros [Hc Hr Hk Ho Hd Hopt Hreg Hrec].
  assert (existsb is_close (xs ++ [x]) = existsb is_close xs || is_close x) as Ec by (rewrite existsb_app; cbn; by rewrite orb_false_r).
  assert (forall r, first_reason xs = Some r -> first_reason (xs ++ [x]) = Some r) as Ef by (intros r E; by rewrite first_reason_app, E).
  destruct x as [f|t req now elapsed|reason|]; cbn [call fst snd is_close] in *; rewrite ?orb_false_r, ?orb_true_r in Ec.
  - assert (first_reason (xs ++ [CallRegister f]) = first_reason xs) as E1
      by (rewrite first_reason_app; cbn; by destruct (first_reason xs)).
    unfold register_cleanup, register_check. destruct (closed c) eqn:Ecl; cbn [fst snd]; [by split; rewrite ?Ec, ?E1, ?Ecl|].
    unfold register_push. destruct (_ <=? _) eqn:El; cbn [fst snd]; [by split; rewrite ?Ec, ?E1, ?Ecl|].
    destruct (Ho eq_refl) as [Hcl Hran]. apply N.leb_gt in El. split; cbn; rewrite ?Ecl, ?Ec, ?E1, ?Hopt; try done.
    + intros _. by rewrite Hcl.
    + rewrite Hcl, Hopt in El. rewrite blen_app. unfold blen in *. cbn [length]. lia.
  - assert (first_reason (xs ++ [CallResource t req now elapsed]) = first_reason xs) as E1
      by (rewrite first_reason_app; cbn; by destruct (first_reason xs)).
    unfold resource. destruct (match acquire t req now c with Ok _ => _ | Err _ => _ end) as [out code]. cbn [fst snd].
    match goal with |- context [record_receipt ?r c] => destruct (record_receipt_life r c) as (E2 & E3 & E4 & E5 & E6 & E7 & E8) end.
    split; rewrite ?E2, ?E3, ?E4, ?E5, ?E6, ?E7, ?Ec, ?E1; try done. rewrite <-Hopt. apply E8. by rewrite Hopt.
  - assert (first_reason (xs ++ [CallCancel reason]) = Some (default reason (first_reason xs))) as E1
      by (rewrite first_reason_app; cbn; by destruct (first_reason xs)).
    split; cbn; rewrite ?Ec, ?E1, ?Hr; try done. intros Hcl. destruct (Hd Hcl) as [H1 (r & H2 & H3)].
    rewrite Hr in H2. split; [done|]. exists r. by rewrite H2.
  - unfold close. destruct (closed c) eqn:Ecl.
    + destruct (Hd eq_refl) as [H1 (r & H2 & H3)]. assert (first_reason xs = Some r) as E1 by (by rewrite <-Hr).
      split; rewrite ?Ec, ?(Ef r E1), <-?E1; try done; by rewrite ?Ecl.
    + assert (first_reason (xs ++ [CallClose]) = Some (default ScopeClosed (first_reason xs))) as E1
        by (rewrite first_reason_app; cbn; by destruct (first_reason xs)).
      destruct (Ho eq_refl) as [H1 H2]. split; cbn; rewrite ?Ec, ?E1, ?Hr; try done.
      intros _. split; [done|]. eexists. split; [done|]. by rewrite H1, H2.
Qed.

Lemma lifecycle_calls c0 xs c registered ys :
  lifecycle c0 c registered ys ->
  lifecycle c0 (fold_left (fun s x => call x s) xs (c, registered)).1 (fold_left (fun s x => call x s) xs (c, registered)).2 (ys ++ xs).
Proof.
  revert c registered ys. induction xs as [|x xs IH]; intros c registered ys Hl; cbn [fold_left]; [by rewrite app_nil_r|].
  pose proof (lifecycle_call _ _ _ _ x Hl) as Hx. destruct (call x (c, registered)) as [c1 r1]. cbn [fst snd] in Hx.
  specialize (IH c1 r1 (ys ++ [x])%list Hx). by rewrite <-app_assoc in IH.
Qed.

(** The life of a context, over any sequence of calls after it is opened: it is closed
    exactly if it was told to; the first reason given, or that of the close, is the one
    it keeps; while it is open no cleanup has run; once it is closed every registered
    cleanup has run exactly once, the last registered first, with that reason; and it
    holds at most the cleanups and receipts its options allow. *)
Theorem cleanups_run_on_close identity resources gs values deadline options policies now c xs :
  open_with_policy_grants identity resources gs values deadline options policies now = Ok c ->
  let '(c', registered) := calls xs c in
  closed c' = existsb is_close xs /\ cancel_reason c' = first_reason xs
  /\ cancelled c' = bool_decide (is_Some (first_reason xs))
  /\ (closed c' = false -> ran c' = [])
  /\ (closed c' = true -> cleanups c' = []
       /\ exists reason, first_reason xs = Some reason /\ ran c' = (fun f => (f, reason)) <$> rev registered)
  /\ blen registered <= max_cleanups options <= 1024 /\ blen (receipts c') <= max_receipts options <= 4096.
Proof.
  intros E. unfold open_with_policy_grants, validate_options in E. split_ok. subst c.
  assert (max_receipts options <= 4096 /\ max_cleanups options <= 1024) as [Hmr Hmc].
  { match goal with H : (if _ then _ else _) = Ok _ |- _ => clear -H; split_ok; reflect_guards; done end || (reflect_guards; done). }
  unfold calls. match goal with |- context [fold_left _ xs (?c0, [])] =>
    assert (lifecycle c0 c0 [] []) as H0 by (split; unfold blen; cbn; (done || lia)); pose proof (lifecycle_calls c0 xs c0 [] [] H0) as Hl;
    destruct (fold_left (fun s x => call x s) xs (c0, [])) as [c' registered] end.
  cbn [fst snd app] in Hl. destruct Hl as [H1 H2 H3 H4 H5 H6 H7 H8]. cbn in H7, H8.
  split_and!; try done.
  - intros Hc. by apply H4.
  - intros Hc. destruct (H5 Hc) as [Hcl (reason & Hreason & Hran)]. split; [done|]. exists reason. by rewrite <-H2.
Qed.
Lemma try_for_ok {E A} (check : A -> result E unit) xs : try_for check xs = Ok tt <-> forall x, x ∈ xs -> check x = Ok tt.
Proof.
  induction xs as [|x xs IH]; cbn; [split; [by intros _ y Hy%elem_of_nil|done]|].
  destruct (check x) as [[]|e] eqn:Ex; cbn; [rewrite IH|]; split.
  - intros Hall y [->|Hy]%elem_of_cons; auto.
  - intros Hall y Hy. apply Hall. by right.
  - discriminate.
  - intros Hall. rewrite (Hall x) in Ex by left. discriminate.
Qed.

(** C28. A lease is what the request was given and nothing more: a context that answers
    with a lease was open, was granted the resource, and the grant and the resource
    itself allow every capability required; the lease has those capabilities and the
    value of the resource at its own type, and ends with the request or its limit,
    whichever is first. It gives the value exactly while its context is open and not
    cancelled and its time has not come; a close ends it for good. *)
Theorem leases_are_authorized t req now elapsed c c' (l : ResourceLease t) :
  resource t req now elapsed c = (c', Ok l) ->
  (exists entry have,
     closed c = false
     /\ resources c !! requirement_id req = Some entry /\ grants c !! requirement_id req = Some have
     /\ required req ⊆ have ∩ spec_capabilities (spec entry) /\ lease_capabilities l = required req
     /\ stored entry = existT t (lease_value l)
     /\ lease_deadline l <= deadline c
     /\ (forall millis, max_lease_ms (spec entry) = Some millis -> lease_deadline l <= now + from_millis millis))
  /\ (forall d time v, lease_get l time d = Ok v <->
        closed d = false /\ cancelled d = false /\ time < lease_deadline l /\ v = lease_value l)
  /\ (forall d xs time, lease_get l time (calls (xs ++ [CallClose]) d).1 = Err ContextClosed).
Proof.
  unfold resource. destruct (match acquire t req now c with Ok _ => _ | Err _ => _ end) as [out code]. intros [= _ E].
  split_and!.
  - unfold acquire in E. split_ok. subst l.
    match goal with H : ok_or _ (resources c !! _) = Ok ?e |- _ => apply ok_or_ok in H; rename e into entry; rename H into He end.
    match goal with H : ok_or _ (grants c !! requirement_id req) = Ok ?h |- _ => apply ok_or_ok in H; rename h into have; rename H into Hgrant end.
    match goal with H : ok_or _ (downcast t _) = Ok ?v |- _ => apply ok_or_ok in H; rename v into value; rename H into Hv end.
    match goal with H : try_for _ _ = Ok tt |- _ => rename H into Hcap end.
    rewrite try_for_ok in Hcap. exists entry, have. cbn. split_and!; try done.
    + intros capability Hin. specialize (Hcap capability). rewrite elem_of_btree_elements in Hcap. specialize (Hcap Hin).
      split_ok. apply orb_false_iff in Hg0 as [Ha Hb]. unfold allows in *. reflect_guards. set_solver.
    + unfold downcast in Hv. destruct (stored entry) as [u w]. cbn in Hv. destruct (decide (u = t)) as [<-|]; [|done].
      by injection Hv as <-.
    + destruct (max_lease_ms _); lia.
    + intros millis Em. rewrite Em. lia.
  - intros d time v. unfold lease_get, ensure_active.
    destruct (closed d); [cbn; naive_solver|]. destruct (cancelled d); [cbn; naive_solver|].
    destruct (N.leb_spec (lease_deadline l) time); cbn; [naive_solver lia|]. split; [by intros [= <-]|].
    by intros (_ & _ & _ & ->).
  - intros d xs time. unfold calls. rewrite fold_left_app. cbn [fold_left].
    destruct (fold_left _ xs (d, [])) as [d1 registered]. cbn [call fst].
    unfold lease_get, ensure_active, close. destruct (closed d1) eqn:Ec; cbn; by rewrite ?Ec.
Qed.
End context.

Arguments mkLease {Ty Val t}.
Arguments lease_id {Ty Val t}.
Arguments lease_provider {Ty Val t}.
Arguments lease_capabilities {Ty Val t}.
Arguments lease_value {Ty Val t}.
Arguments lease_deadline {Ty Val t}.
Arguments DataContext {Ty} Val.
Arguments ResourceLease {Ty} Val t.
Arguments ResourceRegistry {Ty} Val.

Module ContextSample.
#[local] Existing Instance toy_sha256.

Definition Val (_ : unit) : Type := N.
Definition pool : ResourceSpec := mkSpec "db" "postgres" {["db-read"; "db-write"]} (Some 5) "".
Definition registry : ResourceRegistry Val := {["db" := mkStored pool (existT tt 42)]}.

Definition who : DataIdentity := mkIdentity "request-1" "catalog" "deploy-1".
Definition no_values : DataRequestValues := mkValues ∅ ∅ ∅.
Definition read_grant : ResourceGrant := mkGrant "db" {["db-read"]}.

Definition opened : result DataError (DataContext Val) :=
  open_with_policy_grants who registry [read_grant] no_values (from_secs 1) default_options None 0.

Definition context : DataContext Val :=
  match opened with
  | Ok c => c
  | Err _ => mkContext (mkIdentity "" "" "") 0 ∅ (mkValues ∅ ∅ ∅) ∅ default_options None true true None ∅ [] [] [] [] []
  end.

Definition read_only : ResourceRequirement := mkRequirement "db" {["db-read"]}.
Definition the_lease : ResourceLease Val tt :=
  match (resource tt read_only 0 7 context).2 with Ok l => l | Err _ => mkLease "" "" ∅ 0 0 end.

Definition one : Cleanup := fun _ => Finished.
Definition two : Cleanup := fun _ => Panicked.

Example refused_capability :
  (resource tt (mkRequirement "db" {["db-write"]}) 0 7 context).2 = Err (MissingCapability "db" "db-write").
Proof. vm_compute. reflexivity. Qed.

Lemma leases_are_authorized_witness : lease_get the_lease 4999999 context = Ok 42 /\ lease_deadline the_lease <= deadline context.
Proof.
  destruct (leases_are_authorized tt read_only 0 7 context (resource tt read_only 0 7 context).1 the_lease) as (H1 & H2 & _).
  - vm_compute. reflexivity.
  - split.
    + apply H2. vm_compute. done.
    + destruct H1 as (entry & have & _ & _ & _ & _ & _ & _ & Hd & _). exact Hd.
Defined.

Lemma cleanups_run_on_close_witness :
  let '(c, registered) := calls [CallRegister one; CallRegister two; CallCancel Shutdown; CallClose; CallRegister one] context in
  ran c = (fun f => (f, Shutdown)) <$> rev registered /\ registered = [one; two].
Proof.
  assert (opened = Ok context) as Hopen by (vm_compute; reflexivity).
  pose proof (cleanups_run_on_close who registry [read_grant] no_values (from_secs 1) default_options None 0 context
    [CallRegister one; CallRegister two; CallCancel Shutdown; CallClose; CallRegister one] Hopen) as H.
  change (calls _ context) with
    (calls [CallRegister one; CallRegister two; CallCancel Shutdown; CallClose; CallRegister one] context) in *.
  destruct (calls _ context) as [c registered] eqn:E. split.
  - destruct H as (Hc & _ & _ & _ & Hd & _). destruct (Hd Hc) as (_ & reason & [= <-] & Hran). exact Hran.
  - vm_compute in E. injection E as _ <-. reflexivity.
Defined.

(** A cleanup that is registered while the context closes is lost: it passes the check,
    the close runs, and the push comes after. *)
Example cleanup_lost_in_a_race :
  register_check context = Ok tt
  /\ (register_push one (close context)).2 = Ok tt
  /\ cleanups (register_push one (close context)).1 = [one] /\ ran (close (register_push one (close context)).1) = [].
Proof. vm_compute. done. Qed.
End ContextSample.
