(* ===== verification/Loader.v ===== *)
(** * Loader: loaders of a request, and their deduplication ([loader.rs])

    Models [crates/pliego-data/src/loader.rs] and the grants of loaders in
    [authority.rs]: the policy and its digest, the canonical bytes of the input, the
    invocation key, and [DataContext::load]. The concurrent loads of a request share
    cells ([OnceCell]): a load checks the context, takes a cell under the lock,
    initializes it or waits for who does, and answers with what the cell holds, at the
    output type it asks for. Any
    schedule interleaves them, and drops any of them anywhere. *)

From S2P Require Import Prelude Request Cache DataContext.

Local Open Scope string_scope.
Local Open Scope N_scope.

(** ** Policies *)

Record LoaderPolicy : Type := mkLoader {
  id : string; semantic_revision : N; input_schema_id : string; output_schema_id : string;
  requirements : list ResourceRequirement; cache_policy_id : option string; max_output_bytes : N;
  deduplicate_in_request : bool }.

Definition check_stable_id (value : string) : result DataError unit :=
  if validate_stable_id value then Ok tt else Err (InvalidStableId value).

Definition loader_new (id : string) (revision : N) (input_schema output_schema : string) : result DataError LoaderPolicy :=
  _ ← try_for check_stable_id [id; input_schema; output_schema];
  fail_if revision =? 0 with InvalidLoaderPolicy "semantic revision must be greater than zero" ;;
  Ok (mkLoader id revision input_schema output_schema [] None (256 * 1024) true).

Definition loader_resource (p : LoaderPolicy) (r : ResourceRequirement) : result DataError LoaderPolicy :=
  fail_if existsb (fun current => String.eqb (requirement_id current) (requirement_id r)) (requirements p)
    with DuplicateResource (requirement_id r) ;;
  fail_if 32 <=? blen (requirements p) with InvalidLoaderPolicy "a loader may require at most 32 resources" ;;
  Ok (mkLoader (id p) (semantic_revision p) (input_schema_id p) (output_schema_id p) (requirements p ++ [r])%list
        (cache_policy_id p) (max_output_bytes p) (deduplicate_in_request p)).

Definition cache_policy (p : LoaderPolicy) (cache : string) : result DataError LoaderPolicy :=
  _ ← check_stable_id cache;
  Ok (mkLoader (id p) (semantic_revision p) (input_schema_id p) (output_schema_id p) (requirements p) (Some cache)
        (max_output_bytes p) (deduplicate_in_request p)).

Definition loader_max_output_bytes (p : LoaderPolicy) (maximum : N) : result DataError LoaderPolicy :=
  fail_if (maximum =? 0) || (16 * 1024 * 1024 <? maximum)
    with InvalidLoaderPolicy "max output bytes must be between 1 and 16777216" ;;
  Ok (mkLoader (id p) (semantic_revision p) (input_schema_id p) (output_schema_id p) (requirements p) (cache_policy_id p)
        maximum (deduplicate_in_request p)).

Definition deduplicate (p : LoaderPolicy) (enabled : bool) : LoaderPolicy :=
  mkLoader (id p) (semantic_revision p) (input_schema_id p) (output_schema_id p) (requirements p) (cache_policy_id p)
    (max_output_bytes p) enabled.

(** A text and a zero byte. *)
Definition terminated (s : string) : bytes := (as_bytes s ++ [x00])%list.

Definition requirement_le (r s : ResourceRequirement) : Prop := String.le (requirement_id r) (requirement_id s).

#[export] Instance requirement_le_dec : RelDecision requirement_le.
Proof. intros r s. unfold requirement_le. apply _. Defined.

(** The requirements in the order of their ids, as both policy digests write them. *)
Definition requirement_bytes (rs : list ResourceRequirement) : bytes :=
  concat (map (fun r => (terminated (requirement_id r) ++ concat (map terminated (btree_elements (required r))))%list)
            (merge_sort requirement_le rs)).

Definition loader_preimage (p : LoaderPolicy) : bytes :=
  (terminated "pliego-loader-policy-v1" ++
   lp_all [as_bytes (id p); be_bytes 4 (semantic_revision p); as_bytes (input_schema_id p); as_bytes (output_schema_id p);
           as_bytes (default "" (cache_policy_id p)); be_bytes 8 (max_output_bytes p);
           [if deduplicate_in_request p then x01 else x00]] ++
   requirement_bytes (requirements p))%list.

Definition loader_digest `{Sha256} (p : LoaderPolicy) : string := hex (sha256 (loader_preimage p)).

Definition grant_loader `{Sha256} (g : DataPolicyGrants) (p : LoaderPolicy) : result DataError DataPolicyGrants :=
  loaders ← insert_policy (loaders g) (id p) (loader_digest p) "loader";
  Ok (mkPolicies loaders (actions g) (caches g)).

(** ** Canonical JSON of the input *)

Section json.
(** [serde_json::Number], and [serde_json::to_vec] of a scalar and of a key. *)
Context {Number : Type}.

Inductive Scalar : Type := Null | Bool (b : bool) | Num (n : Number) | Str (s : string).

Inductive Value : Type :=
| Leaf (s : Scalar)
| Array (values : list Value)
| Object (entries : list (string * Value)).

Context (scalar_vec : Scalar -> option bytes).

(** Values or keyed values with commas between. *)
Fixpoint commas (parts : list bytes) : bytes :=
  match parts with
  | [] => []
  | [part] => part
  | part :: parts => (part ++ as_bytes "," ++ commas parts)%list
  end.

Fixpoint all_ok {E A} (rs : list (result E A)) : result E (list A) :=
  match rs with
  | [] => Ok []
  | r :: rs => a ← r; l ← all_ok rs; Ok (a :: l)
  end.

(** Each error is [Serialization], so that the order of the writes does not show. *)
Definition keyed (entry : string * result DataError bytes) : result DataError bytes :=
  key ← ok_or Serialization (scalar_vec (Str entry.1));
  value ← entry.2;
  Ok (key ++ as_bytes ":" ++ value)%list.

Fixpoint write_canonical_json (v : Value) : result DataError bytes :=
  match v with
  | Leaf s => ok_or Serialization (scalar_vec s)
  | Array values =>
      parts ← all_ok (map write_canonical_json values);
      Ok (as_bytes "[" ++ commas parts ++ as_bytes "]")%list
  | Object entries =>
      parts ← all_ok (map keyed (merge_sort (key_le String.le)
                                   (map (fun '(k, v) => (k, write_canonical_json v)) entries)));
      Ok (as_bytes "{" ++ commas parts ++ as_bytes "}")%list
  end.

(** [serde_json::to_value] of the input may fail. *)
Definition canonical_json_bytes (input : option Value) : result DataError bytes :=
  v ← ok_or Serialization input; write_canonical_json v.
End json.

Definition invocation_preimage (p : LoaderPolicy) (input : bytes) (route : string) : bytes :=
  (terminated "pliego-loader-invocation-v1" ++
   lp_all [as_bytes (id p); be_bytes 4 (semantic_revision p); as_bytes (input_schema_id p); as_bytes (output_schema_id p);
           as_bytes (default "" (cache_policy_id p)); as_bytes route; input])%list.

Definition invocation_key `{Sha256} (p : LoaderPolicy) (input : bytes) (route : string) : string :=
  hex (sha256 (invocation_preimage p input route)).

(** ** Loads *)

Section loads.
Context `{Sha256} {Ty : Type} `{!EqDecision Ty} {Val : Ty -> Type}.
Abbreviation Context := (DataContext Val).
Abbreviation Any := {t : Ty & Val t}.
(** [serde_json::to_vec] of an output. *)
Context (output_vec : Any -> option bytes).

(** A call of [load] at an output type, its input in canonical bytes. *)
Record Call : Type := mkCall { call_policy : LoaderPolicy; call_type : Ty; call_input : result DataError bytes }.

Inductive Cell : Type := Empty | Running | Ready (r : result DataError Any).

(** What [load] asks of the context before it takes a cell. *)
Definition load_check (call : Call) (c : Context) : result DataError bytes :=
  fail_if negb (require_policy loaders (id (call_policy call)) (loader_digest (call_policy call)) c)
    with PolicyNotGranted (id (call_policy call)) ;;
  fail_if closed c with ContextClosed ;;
  fail_if cancelled c with Cancelled ;;
  call_input call.

(** The cell of a key, under the lock: its address, the cells and whether the load
    was deduplicated. *)
Definition take_cell (p : LoaderPolicy) (key : string) (c : Context) (cells : list Cell)
    : Context * list Cell * nat * bool :=
  if deduplicate_in_request p then
    match loader_cells c !! key with
    | Some existing => (c, cells, existing, true)
    | None => (set_loader_cells (<[key := length cells]> (loader_cells c)) c, (cells ++ [Empty])%list, length cells, false)
    end
  else (c, (cells ++ [Empty])%list, length cells, false).

(** How the initialization of a cell ends: by the context, or by the loader. *)
Inductive LoaderEnd : Type :=
| EndCancelled
| EndDeadline
| EndLoader (r : result DataError Any).

Definition loader_outcome (p : LoaderPolicy) (e : LoaderEnd) : result DataError Any :=
  output ← match e with EndCancelled => Err Cancelled | EndDeadline => Err Deadline | EndLoader r => r end;
  bs ← ok_or Serialization (output_vec output);
  fail_if max_output_bytes p <? blen bs with LoaderOutput (blen bs) (max_output_bytes p) ;;
  Ok output.

(** The answer of a load from what its cell holds, and the observation of the receipt. *)
Definition load_answer (t : Ty) (r : result DataError Any) : result DataError (Val t) :=
  output ← r; ok_or (LoaderFailure "deduplicated output type mismatch") (downcast t output).

(** The answer of a call, of whatever type it asks for. *)
Definition given (call : Call) (r : result DataError Any) : result DataError Any :=
  existT (call_type call) <$> load_answer (call_type call) r.

(** The loader of a call answers at the type of the call. *)
Definition returns (t : Ty) (e : LoaderEnd) : Prop :=
  match e with EndLoader (Ok output) => projT1 output = t | _ => True end.

Definition load_observed (t : Ty) (r : result DataError Any) : DataOutcome * N * option string :=
  match r with
  | Ok output =>
      (Success,
       match downcast t output with
       | Some _ => match output_vec output with Some bs => blen bs | None => 0 end
       | None => 0
       end, None)
  | Err Cancelled | Err Deadline => (WasCancelled, 0, Some (data_error_code Cancelled))
  | Err e => (Failed, 0, Some (data_error_code e))
  end.

Definition load_receipt (p : LoaderPolicy) (t : Ty) (dedup : bool) (elapsed : Duration) (r : result DataError Any) (c : Context)
    : DataReceipt :=
  let '(out, size, code) := load_observed t r in
  mkReceipt data_receipt_contract LoaderRun (id p) (semantic_revision p) out (from_duration elapsed)
    (from_bytes size) dedup (cancel_reason c) code.

(** *** The concurrent loads of a request *)

Inductive Phase : Type :=
| Checked (key : string)
| Waiting (cell : nat) (dedup : bool)
| Initializing (cell : nat) (dedup : bool)
| Gone.

(** [made] is the history of the cells: the key of a deduplicated one, and whether the
    context was closed then; [runs] the initializations that ended, [taken] the cell each
    call took, and [answers] what the calls answered. *)
Record Loads : Type := mkLoads {
  context : Context; cells : list Cell; tasks : list (Call * Phase);
  made : list (option string * bool); runs : list (nat * LoaderPolicy * LoaderEnd);
  taken : list (nat * (nat * bool)); answers : list (nat * result DataError Any) }.

Definition set_phase (i : nat) (call : Call) (ph : Phase) (s : Loads) : list (Call * Phase) := <[i := (call, ph)]> (tasks s).

Inductive load_step : Loads -> Loads -> Prop :=
| step_check s call input :
    load_check call (context s) = Ok input ->
    load_step s
      (mkLoads (context s) (cells s)
         (tasks s ++ [(call, Checked (invocation_key (call_policy call) input (route_id (identity (context s)))))])%list
         (made s) (runs s) (taken s) (answers s))
| step_take s i call key c' cells' cell dedup :
    tasks s !! i = Some (call, Checked key) ->
    take_cell (call_policy call) key (context s) (cells s) = (c', cells', cell, dedup) ->
    load_step s
      (mkLoads c' cells' (set_phase i call (Waiting cell dedup) s)
         (if decide (length cells' = length (cells s)) then made s
          else made s ++ [(if deduplicate_in_request (call_policy call) then Some key else None, closed (context s))])%list
         (runs s) (taken s ++ [(i, (cell, closed (context s)))])%list (answers s))
| step_init s i call cell dedup :
    tasks s !! i = Some (call, Waiting cell dedup) -> cells s !! cell = Some Empty ->
    load_step s
      (mkLoads (context s) (<[cell := Running]> (cells s)) (set_phase i call (Initializing cell dedup) s)
         (made s) (runs s) (taken s) (answers s))
| step_end s i call cell dedup e :
    tasks s !! i = Some (call, Initializing cell dedup) -> returns (call_type call) e ->
    load_step s
      (mkLoads (context s) (<[cell := Ready (loader_outcome (call_policy call) e)]> (cells s))
         (set_phase i call (Waiting cell dedup) s) (made s) (runs s ++ [(cell, call_policy call, e)])%list
         (taken s) (answers s))
| step_answer s i call cell dedup r elapsed :
    tasks s !! i = Some (call, Waiting cell dedup) -> cells s !! cell = Some (Ready r) ->
    load_step s
      (mkLoads (record_receipt (load_receipt (call_policy call) (call_type call) dedup elapsed r (context s)) (context s))
         (cells s) (set_phase i call Gone s) (made s) (runs s) (taken s) (answers s ++ [(i, given call r)])%list)
| step_drop_waiting s i call cell dedup :
    tasks s !! i = Some (call, Waiting cell dedup) ->
    load_step s (mkLoads (context s) (cells s) (set_phase i call Gone s) (made s) (runs s) (taken s) (answers s))
| step_drop_initializing s i call cell dedup :
    tasks s !! i = Some (call, Initializing cell dedup) ->
    load_step s
      (mkLoads (context s) (<[cell := Empty]> (cells s)) (set_phase i call Gone s) (made s) (runs s) (taken s) (answers s))
| step_cancel s reason :
    load_step s (mkLoads (cancel reason (context s)) (cells s) (tasks s) (made s) (runs s) (taken s) (answers s))
| step_close s :
    load_step s (mkLoads (close (context s)) (cells s) (tasks s) (made s) (runs s) (taken s) (answers s))
| step_other s c' :
    loader_cells c' = loader_cells (context s) -> closed c' = closed (context s) -> identity c' = identity (context s) ->
    load_step s (mkLoads c' (cells s) (tasks s) (made s) (runs s) (taken s) (answers s)).

Definition opened (c : Context) : Loads := mkLoads c [] [] [] [] [] [].

(** *** The cells *)

(** The call of a task, and the key it checked in with. *)
Definition call_at (s : Loads) (i : nat) : option Call := fst <$> tasks s !! i.

Definition key_of (route : string) (call : Call) (key : string) : Prop :=
  exists input, call_input call = Ok input /\ key = invocation_key (call_policy call) input route.

(** What [made] says of a cell for a key. *)
Definition made_for (call : Call) (key : string) : option string :=
  if deduplicate_in_request (call_policy call) then Some key else None.

Record alloc (route : string) (s : Loads) : Prop := {
  al_len : length (made s) = length (cells s);
  al_map : forall key cell, loader_cells (context s) !! key = Some cell <-> made s !! cell = Some (Some key, closed (context s));
  al_late : forall cell k, made s !! cell = Some (k, true) -> closed (context s) = true;
  al_uniq : forall c1 c2 key b, made s !! c1 = Some (Some key, b) -> made s !! c2 = Some (Some key, b) -> c1 = c2;
  al_route : route_id (identity (context s)) = route;
  al_checked : forall i call key, tasks s !! i = Some (call, Checked key) -> key_of route call key /\ i ∉ (taken s).*1;
  al_taken : forall i cell late, (i, (cell, late)) ∈ taken s ->
    exists call key, call_at s i = Some call /\ key_of route call key /\ made s !! cell = Some (made_for call key, late);
  al_func : NoDup (taken s).*1;
  al_private : forall i j cell l l' b, (i, (cell, l)) ∈ taken s -> (j, (cell, l')) ∈ taken s ->
    made s !! cell = Some (None, b) -> i = j }.

Lemma call_at_set_phase s i call ph ph' j c m r t a k :
  tasks s !! i = Some (call, ph) ->
  call_at (mkLoads c k (set_phase i call ph' s) m r t a) j = call_at s j.
Proof.
  intros Hi. unfold call_at, set_phase. cbn [tasks]. destruct (decide (i = j)) as [<-|Hne].
  - rewrite list_lookup_insert_eq by (by eapply lookup_lt_Some). by rewrite Hi.
  - by rewrite list_lookup_insert_ne.
Qed.

Lemma set_phase_lookup s i call ph j x :
  set_phase i call ph s !! j = Some x -> (j = i /\ x = (call, ph)) \/ (j <> i /\ tasks s !! j = Some x).
Proof.
  unfold set_phase. intros Hx. destruct (decide (i = j)) as [<-|Hne].
  - pose proof (lookup_lt_Some _ _ _ Hx) as Hl. rewrite length_insert in Hl.
    rewrite list_lookup_insert_eq in Hx by done. left. by injection Hx as <-.
  - rewrite list_lookup_insert_ne in Hx by done. by right.
Qed.

(** Steps that neither take a cell nor admit a call. *)
Lemma alloc_quiet route s s' :
  alloc route s -> made s' = made s -> taken s' = taken s -> length (cells s') = length (cells s) ->
  loader_cells (context s') = loader_cells (context s) -> closed (context s') = closed (context s) ->
  identity (context s') = identity (context s) ->
  (forall i, call_at s' i = call_at s i) ->
  (forall i call key, tasks s' !! i = Some (call, Checked key) -> tasks s !! i = Some (call, Checked key)) ->
  alloc route s'.
Proof.
  intros [] Hm Ht Hc Hl Hcl Hid Hcall Hchk. split; rewrite ?Hm, ?Ht, ?Hc, ?Hl, ?Hcl, ?Hid; try done.
  - intros i call key Hi. eauto.
  - intros i cell late Hin. rewrite Hcall. eauto.
Qed.

Lemma close_loader_cells (c : Context) :
  closed (close c) = true /\ identity (close c) = identity c
  /\ loader_cells (close c) = (if closed c then loader_cells c else ∅).
Proof. unfold close. destruct (closed c) eqn:E; cbn; done. Qed.

Lemma alloc_close route s :
  alloc route s -> alloc route (mkLoads (close (context s)) (cells s) (tasks s) (made s) (runs s) (taken s) (answers s)).
Proof.
  intros []. destruct (close_loader_cells (context s)) as (E1 & E2 & E3).
  split; cbn [context cells tasks made runs taken answers]; rewrite ?E1, ?E2; try done.
  intros key cell. rewrite E3. destruct (closed (context s)) eqn:E; [by rewrite al_map0|].
  split; [done|]. intros Hm. by apply al_late0 in Hm.
Qed.

Lemma record_receipt_same (r : DataReceipt) (c : Context) :
  loader_cells (record_receipt r c) = loader_cells c /\ closed (record_receipt r c) = closed c
  /\ identity (record_receipt r c) = identity c.
Proof. unfold record_receipt. by destruct (_ <? _). Qed.

(** A call that passed the checks joins the tasks. *)
Lemma alloc_check route s call input :
  alloc route s -> load_check call (context s) = Ok input ->
  alloc route
    (mkLoads (context s) (cells s)
       (tasks s ++ [(call, Checked (invocation_key (call_policy call) input (route_id (identity (context s)))))])%list
       (made s) (runs s) (taken s) (answers s)).
Proof.
  intros Hs Hc. assert (call_input call = Ok input) as Hinput by (unfold load_check in Hc; by split_ok). destruct Hs.
  split; cbn [context cells tasks made runs taken answers]; try done.
  - intros i call' key [Hi|[Hi E]]%lookup_app_Some; [by apply (al_checked0 i)|].
    destruct (i - length (tasks s))%nat eqn:En; [|done]. cbn in E. injection E as <- <-.
    split; [exists input; by rewrite al_route0|]. intros Hin.
    apply list_elem_of_fmap in Hin as ((i' & cell & late) & -> & Hin). cbn in Hi.
    destruct (al_taken0 _ _ _ Hin) as (call' & key & Hcall & _). unfold call_at in Hcall.
    rewrite (lookup_ge_None_2 _ _ Hi) in Hcall. done.
  - intros i cell late Hin. destruct (al_taken0 i cell late Hin) as (call' & key & Hcall & Hk & Hm).
    exists call', key. split; [|done]. unfold call_at in *. cbn [tasks].
    destruct (tasks s !! i) as [x|] eqn:Ei; [|done]. by rewrite (lookup_app_l_Some _ _ _ _ Ei).
Qed.

(** What taking a cell does: it finds the cell of the key, or makes one. *)
Lemma take_cell_cases p key c cs c' cs' cell dedup :
  take_cell p key c cs = (c', cs', cell, dedup) ->
  closed c' = closed c /\ identity c' = identity c
  /\ ((deduplicate_in_request p = true /\ loader_cells c !! key = Some cell /\ c' = c /\ cs' = cs)
      \/ (cell = length cs /\ cs' = (cs ++ [Empty])%list
          /\ if deduplicate_in_request p then loader_cells c !! key = None /\ loader_cells c' = <[key := cell]> (loader_cells c)
             else loader_cells c' = loader_cells c)).
Proof.
  unfold take_cell. destruct (deduplicate_in_request p).
  - destruct (loader_cells c !! key) as [n|] eqn:E; intros [= <- <- <- <-]; [by split_and!; [..|left]|].
    split_and!; [done..|right; done].
  - intros [= <- <- <- <-]. split_and!; [done..|right; done].
Qed.

(** A task takes a cell that exists already. *)
Lemma alloc_share route s i call key cell dedup :
  alloc route s -> tasks s !! i = Some (call, Checked key) ->
  deduplicate_in_request (call_policy call) = true -> loader_cells (context s) !! key = Some cell ->
  alloc route
    (mkLoads (context s) (cells s) (set_phase i call (Waiting cell dedup) s) (made s) (runs s)
       (taken s ++ [(i, (cell, closed (context s)))])%list (answers s)).
Proof.
  intros [] Hi Hd Hk. destruct (al_checked0 i call key Hi) as [Hkey Hnew].
  pose proof (proj1 (al_map0 key cell) Hk) as Hm.
  split; cbn [context cells tasks made runs taken answers]; try done.
  - intros j call' key' [[-> E]|[Hne Hj]]%set_phase_lookup; [done|].
    destruct (al_checked0 j call' key' Hj) as [Hk' Hj']. split; [done|]. rewrite fmap_app, elem_of_app. set_solver.
  - intros j cell' late [Hin|[= -> -> ->]%list_elem_of_singleton]%elem_of_app.
    + destruct (al_taken0 j cell' late Hin) as (call' & key' & Hc & H'). exists call', key'.
      split; [|done]. by erewrite call_at_set_phase.
    + exists call, key. split_and!; [|done|by unfold made_for; rewrite Hd].
      erewrite call_at_set_phase by done. unfold call_at. by rewrite Hi.
  - rewrite fmap_app. apply NoDup_app. split_and!; [done| |apply NoDup_singleton]. set_solver.
  - intros j1 j2 cell' l l' b. rewrite !elem_of_app, !list_elem_of_singleton.
    intros [H1|E1] [H2|E2] Hb; simplify_eq; eauto; congruence.
Qed.

(** A task makes a cell of its own, under its key if loads are deduplicated. *)
Lemma alloc_make route s i call key cell dedup c' :
  alloc route s -> tasks s !! i = Some (call, Checked key) ->
  closed c' = closed (context s) -> identity c' = identity (context s) -> cell = length (cells s) ->
  (if deduplicate_in_request (call_policy call)
   then loader_cells (context s) !! key = None /\ loader_cells c' = <[key := cell]> (loader_cells (context s))
   else loader_cells c' = loader_cells (context s)) ->
  alloc route
    (mkLoads c' (cells s ++ [Empty])%list (set_phase i call (Waiting cell dedup) s)
       (made s ++ [(made_for call key, closed (context s))])%list (runs s)
       (taken s ++ [(i, (cell, closed (context s)))])%list (answers s)).
Proof.
  intros [] Hi Hcl Hid -> Hd. destruct (al_checked0 i call key Hi) as [Hkey Hnew].
  assert (forall n x, made s !! n = Some x -> n <> length (cells s)) as Hlt.
  { intros n x Hn%lookup_lt_Some. lia. }
  assert (forall n x, (made s ++ [(made_for call key, closed (context s))])%list !! n = Some x <->
            made s !! n = Some x \/ (n = length (cells s) /\ x = (made_for call key, closed (context s)))) as Hlook.
  { intros n x. rewrite lookup_app_Some, <-al_len0. split.
    - intros [?|[Hn E]]; [by left|right]. destruct (n - length (made s))%nat eqn:En; [|done].
      injection E as <-. split; [lia|done].
    - intros [?|[-> ->]]; [by left|right]. split; [lia|]. by rewrite Nat.sub_diag. }
  split; cbn [context cells tasks made runs taken answers].
  - rewrite !length_app, al_len0. done.
  - intros k n. rewrite Hlook, Hcl. unfold made_for. destruct (deduplicate_in_request (call_policy call)).
    + destruct Hd as [Hnone ->]. destruct (decide (key = k)) as [<-|Hne].
      * rewrite lookup_insert_eq. split; [intros [= <-]; by right|]. intros [Hm|[-> _]]; [|done].
        apply al_map0 in Hm. congruence.
      * rewrite lookup_insert_ne, al_map0 by done. split; [by left|]. intros [?|[_ E]]; [done|congruence].
    + rewrite Hd, al_map0. split; [by left|]. intros [?|[_ E]]; [done|congruence].
  - intros n k. rewrite Hlook, Hcl. intros [Hm|[_ [= _ E]]]; [by eapply al_late0|done].
  - intros n1 n2 k b. rewrite !Hlook. unfold made_for.
    destruct (deduplicate_in_request (call_policy call)); [destruct Hd as [Hnone _]|].
    + intros [H1|[-> E1]] [H2|[-> E2]]; simplify_eq; eauto;
        (match goal with H : made s !! _ = Some _ |- _ => apply al_map0 in H end; congruence).
    + intros [H1|[-> E1]] [H2|[-> E2]]; simplify_eq; eauto.
  - by rewrite Hid.
  - intros j call' key' [[-> E]|[Hne Hj]]%set_phase_lookup; [done|].
    destruct (al_checked0 j call' key' Hj) as [Hk' Hj']. split; [done|]. rewrite fmap_app, elem_of_app. set_solver.
  - intros j n late. rewrite elem_of_app, list_elem_of_singleton. intros [Hin|E]; [|simplify_eq].
    + destruct (al_taken0 j n late Hin) as (call' & key' & Hc & Hk' & Hm). exists call', key'.
      split_and!; [by erewrite call_at_set_phase|done|]. apply Hlook. by left.
    + exists call, key. split_and!; [|done|apply Hlook; by right].
      erewrite call_at_set_phase by done. unfold call_at. by rewrite Hi.
  - rewrite fmap_app. apply NoDup_app. split_and!; [done| |apply NoDup_singleton]. set_solver.
  - assert (forall j n l, (j, (n, l)) ∈ taken s -> n <> length (cells s)) as Hold.
    { intros j n l Hin. destruct (al_taken0 j n l Hin) as (? & ? & _ & _ & Hm). by eapply Hlt. }
    intros j1 j2 n l l' b. rewrite Hlook, !elem_of_app, !list_elem_of_singleton.
    intros [H1|E1] [H2|E2] [Hm|[Hn Hm]]; simplify_eq; eauto; exfalso;
      repeat match goal with H : (_, (length (cells s), _)) ∈ taken s |- _ => by apply (Hold _ _ _ H)
        | H : made s !! length (cells s) = Some _ |- _ => by apply (Hlt _ _ H) end.
Qed.

Lemma alloc_step route s s' : alloc route s -> load_step s s' -> alloc route s'.
Proof.
  intros Hs Hst. destruct Hst as [s call input Hc|s i call key c' cs' cell dedup Hi Ht|s i call cell dedup Hi He
    |s i call cell dedup e Hi He|s i call cell dedup r elapsed Hi Hr|s i call cell dedup Hi|s i call cell dedup Hi
    |s reason|s|s c' Hl Hcl Hid]; try by (eapply alloc_quiet; [exact Hs|cbn; rewrite ?length_insert; try done..];
      first [by intros; erewrite call_at_set_phase by done
            |intros j call' key' [[-> E]|[_ Hj]]%set_phase_lookup; [discriminate|done]]).
  - by eapply alloc_check.
  - destruct (take_cell_cases _ _ _ _ _ _ _ _ Ht) as (Hcl & Hid & [(Hd & Hk & -> & ->)|(Hcell & -> & Hd)]).
    + rewrite decide_True by done. by eapply alloc_share.
    + rewrite decide_False by (rewrite length_app; cbn; lia). by eapply alloc_make.
  - destruct (record_receipt_same (load_receipt (call_policy call) (call_type call) dedup elapsed r (context s)) (context s))
      as (E1 & E2 & E3).
    eapply alloc_quiet; [exact Hs|cbn; try done..].
    + by intros; erewrite call_at_set_phase by done.
    + intros j call' key' [[-> E]|[_ Hj]]%set_phase_lookup; [discriminate|done].
  - by apply alloc_close.
Qed.

(** *** What the cells hold *)

Definition in_cell (ph : Phase) : option nat :=
  match ph with Waiting cell _ | Initializing cell _ => Some cell | _ => None end.

Record runs_ok (s : Loads) : Prop := {
  ro_taken : forall i call ph cell, tasks s !! i = Some (call, ph) -> in_cell ph = Some cell ->
    exists late, (i, (cell, late)) ∈ taken s;
  ro_running : forall i call cell dedup, tasks s !! i = Some (call, Initializing cell dedup) -> cells s !! cell = Some Running;
  ro_alone : forall i j call call' cell dedup dedup', tasks s !! i = Some (call, Initializing cell dedup) ->
    tasks s !! j = Some (call', Initializing cell dedup') -> i = j;
  ro_runs : forall cell p e, (cell, p, e) ∈ runs s ->
    cells s !! cell = Some (Ready (loader_outcome p e))
    /\ exists i late call, (i, (cell, late)) ∈ taken s /\ call_at s i = Some call /\ call_policy call = p;
  ro_once : NoDup (runs s).*1.*1;
  ro_ready : forall cell r, cells s !! cell = Some (Ready r) -> exists p e, (cell, p, e) ∈ runs s /\ r = loader_outcome p e;
  ro_answers : forall i r, (i, r) ∈ answers s -> exists cell late call held, (i, (cell, late)) ∈ taken s
    /\ call_at s i = Some call /\ cells s !! cell = Some (Ready held) /\ r = given call held }.

(** The cell of an initializing task is not among the runs. *)
Lemma running_not_run s i call cell dedup :
  runs_ok s -> tasks s !! i = Some (call, Initializing cell dedup) -> cell ∉ (runs s).*1.*1.
Proof.
  intros [] Hi Hin. apply list_elem_of_fmap in Hin as ([cell0 p] & -> & Hin). cbn [fst] in *|-.
  apply list_elem_of_fmap in Hin as ([[cell'' p'] e] & E & Hin). injection E as -> ->.
  destruct (ro_runs0 _ _ _ Hin) as [Hr _]. cbn in Hr. rewrite (ro_running0 _ _ _ _ Hi) in Hr. done.
Qed.

(** Steps that leave the cells, the runs and the answers. *)
Lemma runs_quiet s s' :
  runs_ok s -> cells s' = cells s -> runs s' = runs s -> answers s' = answers s ->
  (forall x, x ∈ taken s -> x ∈ taken s') -> (forall i call, call_at s i = Some call -> call_at s' i = Some call) ->
  (forall i call ph cell, tasks s' !! i = Some (call, ph) -> in_cell ph = Some cell ->
     tasks s !! i = Some (call, ph)
     \/ ((exists dedup, ph = Waiting cell dedup) /\ exists late, (i, (cell, late)) ∈ taken s')) ->
  runs_ok s'.
Proof.
  intros [] Hc Hr Ha Ht Hcall Htask.
  assert (forall i call cell dedup, tasks s' !! i = Some (call, Initializing cell dedup) ->
            tasks s !! i = Some (call, Initializing cell dedup)) as Hinit.
  { intros i call cell dedup Hi. destruct (Htask _ _ _ cell Hi eq_refl) as [?|[[? [=]] _]]; done. }
  split; rewrite ?Hc, ?Hr, ?Ha; try done.
  - intros i call ph cell Hi Hph. destruct (Htask _ _ _ _ Hi Hph) as [Hi'|[_ ?]]; [|done].
    destruct (ro_taken0 _ _ _ _ Hi' Hph) as [late Hl]. eauto.
  - eauto.
  - eauto.
  - intros cell p e Hin. destruct (ro_runs0 _ _ _ Hin) as (Hcell & i & late & call & Hi & Hci & Hp). split; [done|].
    exists i, late, call. eauto.
  - intros i r Hin. destruct (ro_answers0 _ _ Hin) as (cell & late & call & held & Hi & Hci & Hh & ->).
    exists cell, late, call, held. split_and!; auto.
Qed.

(** A task that stays in its cell, or leaves. *)
Lemma set_phase_quiet s i call ph ph' (t : list (nat * (nat * bool))) :
  tasks s !! i = Some (call, ph) ->
  (forall cell, in_cell ph' = Some cell -> (exists dedup, ph' = Waiting cell dedup) /\ exists late, (i, (cell, late)) ∈ t) ->
  forall j call' ph1 cell, set_phase i call ph' s !! j = Some (call', ph1) -> in_cell ph1 = Some cell ->
     tasks s !! j = Some (call', ph1)
     \/ ((exists dedup, ph1 = Waiting cell dedup) /\ exists late, (j, (cell, late)) ∈ t).
Proof. intros Hi Hph j call' ph1 cell [[-> E]|[_ Hj]]%set_phase_lookup Hin; [|by left]. injection E as -> ->. right. auto. Qed.

(** A task that starts, ends or gives up an initialization: its cell changes. *)
Lemma runs_init s i call cell dedup :
  runs_ok s -> tasks s !! i = Some (call, Waiting cell dedup) -> cells s !! cell = Some Empty ->
  runs_ok (mkLoads (context s) (<[cell := Running]> (cells s)) (set_phase i call (Initializing cell dedup) s)
             (made s) (runs s) (taken s) (answers s)).
Proof.
  intros [] Hi He. pose proof (lookup_lt_Some _ _ _ He) as Hlt.
  assert (forall c r, <[cell := Running]> (cells s) !! c = Some (Ready r) <-> cells s !! c = Some (Ready r)) as Hready.
  { intros c r. destruct (decide (cell = c)) as [<-|]; [rewrite list_lookup_insert_eq by done|by rewrite list_lookup_insert_ne].
    rewrite He. split; discriminate. }
  split; cbn [cells tasks runs taken answers]; try done.
  - intros j call' ph c [[-> E]|[_ Hj]]%set_phase_lookup Hin; [|by eapply ro_taken0].
    injection E as -> ->. by eapply ro_taken0.
  - intros j call' c d [[-> E]|[_ Hj]]%set_phase_lookup.
    + injection E as _ -> ->. by rewrite list_lookup_insert_eq.
    + pose proof (ro_running0 _ _ _ _ Hj). rewrite list_lookup_insert_ne by congruence. done.
  - intros j j' c1 c2 c d d' [[-> E]|[_ Hj]]%set_phase_lookup [[-> E']|[_ Hj']]%set_phase_lookup; try done.
    + injection E as _ -> _. pose proof (ro_running0 _ _ _ _ Hj'). congruence.
    + injection E' as _ -> _. pose proof (ro_running0 _ _ _ _ Hj). congruence.
    + by eapply ro_alone0.
  - intros c p e Hin. rewrite Hready. destruct (ro_runs0 _ _ _ Hin) as (Hc & j & late & call' & Hj & Hcall & Hp).
    split; [done|]. exists j, late, call'. split_and!; [done|by erewrite call_at_set_phase|done].
  - intros c r. rewrite Hready. apply ro_ready0.
  - intros j r Hin. destruct (ro_answers0 _ _ Hin) as (c & late & call' & held & Hj & Hcall & Hr & ->).
    exists c, late, call', held. rewrite Hready. split_and!; [done|by erewrite call_at_set_phase|done..].
Qed.

Lemma runs_drop s i call cell dedup :
  runs_ok s -> tasks s !! i = Some (call, Initializing cell dedup) ->
  runs_ok (mkLoads (context s) (<[cell := Empty]> (cells s)) (set_phase i call Gone s) (made s) (runs s) (taken s) (answers s)).
Proof.
  intros [] Hi. pose proof (ro_running0 _ _ _ _ Hi) as He. pose proof (lookup_lt_Some _ _ _ He) as Hlt.
  assert (forall c r, <[cell := Empty]> (cells s) !! c = Some (Ready r) <-> cells s !! c = Some (Ready r)) as Hready.
  { intros c r. destruct (decide (cell = c)) as [<-|]; [rewrite list_lookup_insert_eq by done|by rewrite list_lookup_insert_ne].
    rewrite He. split; discriminate. }
  split; cbn [cells tasks runs taken answers]; try done.
  - intros j call' ph c [[-> E]|[_ Hj]]%set_phase_lookup Hin; [by injection E as -> ->|by eapply ro_taken0].
  - intros j call' c d [[-> E]|[Hne Hj]]%set_phase_lookup; [done|].
    rewrite list_lookup_insert_ne; [by eapply ro_running0|]. intros <-. by apply Hne, (ro_alone0 _ _ _ _ _ _ _ Hj Hi).
  - intros j j' c1 c2 c d d' [[-> E]|[_ Hj]]%set_phase_lookup [[-> E']|[_ Hj']]%set_phase_lookup; try done.
    by eapply ro_alone0.
  - intros c p e Hin. rewrite Hready. destruct (ro_runs0 _ _ _ Hin) as (Hc & j & late & call' & Hj & Hcall & Hp).
    split; [done|]. exists j, late, call'. split_and!; [done|by erewrite call_at_set_phase|done].
  - intros c r. rewrite Hready. apply ro_ready0.
  - intros j r Hin. destruct (ro_answers0 _ _ Hin) as (c & late & call' & held & Hj & Hcall & Hr & ->).
    exists c, late, call', held. rewrite Hready. split_and!; [done|by erewrite call_at_set_phase|done..].
Qed.

Lemma runs_end s i call cell dedup e :
  runs_ok s -> tasks s !! i = Some (call, Initializing cell dedup) ->
  runs_ok (mkLoads (context s) (<[cell := Ready (loader_outcome (call_policy call) e)]> (cells s))
             (set_phase i call (Waiting cell dedup) s) (made s) (runs s ++ [(cell, call_policy call, e)])%list
             (taken s) (answers s)).
Proof.
  intros Hs Hi. pose proof (running_not_run s i call cell dedup Hs Hi) as Hnew. destruct Hs.
  pose proof (ro_running0 _ _ _ _ Hi) as He. pose proof (lookup_lt_Some _ _ _ He) as Hlt.
  assert (forall c r, cells s !! c = Some (Ready r) ->
            <[cell := Ready (loader_outcome (call_policy call) e)]> (cells s) !! c = Some (Ready r)) as Hready.
  { intros c r Hc. rewrite list_lookup_insert_ne by congruence. done. }
  destruct (ro_taken0 _ _ _ cell Hi eq_refl) as [late Htaken].
  split; cbn [cells tasks runs taken answers].
  - intros j call' ph c [[-> E]|[_ Hj]]%set_phase_lookup Hin; [|by eapply ro_taken0].
    injection E as -> ->. injection Hin as <-. eauto.
  - intros j call' c d [[-> E]|[Hne Hj]]%set_phase_lookup; [done|].
    rewrite list_lookup_insert_ne; [by eapply ro_running0|]. intros <-. by apply Hne, (ro_alone0 _ _ _ _ _ _ _ Hj Hi).
  - intros j j' c1 c2 c d d' [[-> E]|[_ Hj]]%set_phase_lookup [[-> E']|[_ Hj']]%set_phase_lookup; try done.
    by eapply ro_alone0.
  - intros c p e'. rewrite elem_of_app, list_elem_of_singleton. intros [Hin|E].
    + destruct (ro_runs0 _ _ _ Hin) as (Hc & j & l & call' & Hj & Hcall & Hp). split; [auto|].
      exists j, l, call'. split_and!; [done|by erewrite call_at_set_phase|done].
    + injection E as -> -> ->. split; [by rewrite list_lookup_insert_eq|]. exists i, late, call.
      split_and!; [done| |done]. erewrite call_at_set_phase by done. unfold call_at. by rewrite Hi.
  - rewrite !fmap_app. apply NoDup_app. split_and!; [done| |apply NoDup_singleton]. cbn. set_solver.
  - intros c r. destruct (decide (cell = c)) as [<-|Hne].
    + rewrite list_lookup_insert_eq by done. intros [= <-]. exists (call_policy call), e. split; [set_solver|done].
    + rewrite list_lookup_insert_ne by done. intros (p & e' & Hin & ->)%ro_ready0. exists p, e'. split; [set_solver|done].
  - intros j r Hin. destruct (ro_answers0 _ _ Hin) as (c & l & call' & held & Hj & Hcall & Hr & ->).
    exists c, l, call', held. split_and!; [done|by erewrite call_at_set_phase|auto|done].
Qed.

(** A new cell is empty. *)
Lemma runs_grow s i call key cell dedup c' m late :
  runs_ok s -> tasks s !! i = Some (call, Checked key) ->
  runs_ok (mkLoads c' (cells s ++ [Empty])%list (set_phase i call (Waiting cell dedup) s) m (runs s)
             (taken s ++ [(i, (cell, late))])%list (answers s)).
Proof.
  intros [] Hi.
  assert (forall c x, cells s !! c = Some x -> (cells s ++ [Empty])%list !! c = Some x) as Hold by (intros; by apply lookup_app_l_Some).
  assert (forall j call' c d, set_phase i call (Waiting cell dedup) s !! j = Some (call', Initializing c d) ->
            tasks s !! j = Some (call', Initializing c d)) as Hinit by (intros j call' c d [[-> E]|[_ Hj]]%set_phase_lookup; done).
  split; cbn [cells tasks runs taken answers]; try done.
  - intros j call' ph c [[-> E]|[_ Hj]]%set_phase_lookup Hin.
    + injection E as -> ->. injection Hin as <-. exists late. set_solver.
    + destruct (ro_taken0 _ _ _ _ Hj Hin) as [l Hl]. exists l. set_solver.
  - intros j call' c d Hj%Hinit. eauto.
  - intros j j' c1 c2 c d d' Hj%Hinit Hj'%Hinit. eauto.
  - intros c p e Hin. destruct (ro_runs0 _ _ _ Hin) as (Hc & j & l & call' & Hj & Hcall & Hp). split; [auto|].
    exists j, l, call'. split_and!; [set_solver|by erewrite call_at_set_phase|done].
  - intros c r [Hc|[_ E]]%lookup_app_Some; [by apply ro_ready0|]. destruct (c - _)%nat; done.
  - intros j r Hin. destruct (ro_answers0 _ _ Hin) as (c & l & call' & held & Hj & Hcall & Hr & ->).
    exists c, l, call', held. split_and!; [set_solver|by erewrite call_at_set_phase|auto|done].
Qed.

Lemma runs_answer s i call cell dedup r c' :
  runs_ok s -> tasks s !! i = Some (call, Waiting cell dedup) -> cells s !! cell = Some (Ready r) ->
  runs_ok (mkLoads c' (cells s) (set_phase i call Gone s) (made s) (runs s) (taken s) (answers s ++ [(i, given call r)])%list).
Proof.
  intros Hs Hi Hr. assert (runs_ok (mkLoads c' (cells s) (set_phase i call Gone s) (made s) (runs s) (taken s) (answers s))) as Hq.
  { eapply runs_quiet; [exact Hs|done..| |].
    - intros j call' Hj. by erewrite call_at_set_phase.
    - by eapply set_phase_quiet. }
  destruct Hs, Hq. split; try done. cbn [answers taken cells] in *.
  intros j r' [Hin|E%list_elem_of_singleton]%elem_of_app; [by apply ro_answers1|]. injection E as -> ->.
  destruct (ro_taken0 _ _ _ cell Hi eq_refl) as [late Hl]. exists cell, late, call, r. split_and!; [done| |done..].
  erewrite call_at_set_phase by done. unfold call_at. by rewrite Hi.
Qed.

Lemma runs_step s s' : runs_ok s -> load_step s s' -> runs_ok s'.
Proof.
  intros Hs Hst. destruct Hst as [s call input Hc|s i call key c' cs' cell dedup Hi Ht|s i call cell dedup Hi He
    |s i call cell dedup e Hi He|s i call cell dedup r elapsed Hi Hr|s i call cell dedup Hi|s i call cell dedup Hi
    |s reason|s|s c' Hl Hcl Hid];
    try (eapply runs_quiet; [exact Hs|done..| |]; [done|intros j call' ph c Hj _; by left]).
  - eapply runs_quiet; [exact Hs|done..| |].
    + intros j call' Hj. unfold call_at in *. cbn [tasks]. destruct (tasks s !! j) as [x|] eqn:Ej; [|done].
      by rewrite (lookup_app_l_Some _ _ _ _ Ej).
    + intros j call' ph c [Hj|[_ E]]%lookup_app_Some Hin; [by left|]. destruct (j - _)%nat; [|done].
      injection E as <- <-. done.
  - destruct (take_cell_cases _ _ _ _ _ _ _ _ Ht) as (_ & _ & [(_ & _ & -> & ->)|(_ & -> & _)]).
    + eapply runs_quiet; [exact Hs|done..|set_solver| |].
      * intros j call' Hj. by erewrite call_at_set_phase.
      * eapply set_phase_quiet; [done|]. intros c [= <-]. split; [eauto|]. cbn [taken]. set_solver.
    + by eapply runs_grow.
  - by apply runs_init.
  - by apply runs_end.
  - by eapply runs_answer.
  - eapply runs_quiet; [exact Hs|done..| |].
    + intros j call' Hj. by erewrite call_at_set_phase.
    + by eapply set_phase_quiet.
  - by eapply runs_drop.
Qed.

Lemma opened_ok c : closed c = false -> loader_cells c = ∅ ->
  alloc (route_id (identity c)) (opened c) /\ runs_ok (opened c).
Proof.
  intros Hc Hl. split; split; cbn; try done; try constructor; try (intros; set_solver).
  - intros E. rewrite Hl in E. done.
Qed.

Lemma reachable_loads c s :
  closed c = false -> loader_cells c = ∅ -> rtc load_step (opened c) s -> alloc (route_id (identity c)) s /\ runs_ok s.
Proof.
  intros Hc Hl Hr. pose proof (opened_ok c Hc Hl) as H0. induction Hr as [|s1 s2 s3 Hst _ IH]; [done|].
  apply IH. destruct H0. split; [by eapply alloc_step|by eapply runs_step].
Qed.

(** *** Invocations *)

(** The same loader on the same canonical input. *)
Definition same_invocation (c1 c2 : Call) : Prop :=
  id (call_policy c1) = id (call_policy c2) /\ semantic_revision (call_policy c1) = semantic_revision (call_policy c2)
  /\ input_schema_id (call_policy c1) = input_schema_id (call_policy c2)
  /\ output_schema_id (call_policy c1) = output_schema_id (call_policy c2)
  /\ default "" (cache_policy_id (call_policy c1)) = default "" (cache_policy_id (call_policy c2))
  /\ call_input c1 = call_input c2.

Lemma key_same route c1 c2 k1 k2 :
  same_invocation c1 c2 -> key_of route c1 k1 -> key_of route c2 k2 -> k1 = k2.
Proof.
  intros (E1 & E2 & E3 & E4 & E5 & E6) (i1 & Hi1 & ->) (i2 & Hi2 & ->). assert (i1 = i2) as -> by congruence.
  unfold invocation_key, invocation_preimage. by rewrite E1, E2, E3, E4, E5.
Qed.

(** What two calls with one key may be: the same invocation, or a collision of what
    their keys hash. *)
Definition keys_collide (route : string) (c1 c2 : Call) : Prop :=
  exists i1 i2, call_input c1 = Ok i1 /\ call_input c2 = Ok i2
    /\ collides (invocation_preimage (call_policy c1) i1 route) (invocation_preimage (call_policy c2) i2 route).

Lemma loader_key_binds route c1 c2 key :
  semantic_revision (call_policy c1) <= u32_max -> semantic_revision (call_policy c2) <= u32_max ->
  (forall input, call_input c1 = Ok input -> blen (invocation_preimage (call_policy c1) input route) <= u64_max) ->
  (forall input, call_input c2 = Ok input -> blen (invocation_preimage (call_policy c2) input route) <= u64_max) ->
  key_of route c1 key -> key_of route c2 key -> same_invocation c1 c2 \/ keys_collide route c1 c2.
Proof.
  intros R1 R2 F1 F2 (i1 & Hi1 & ->) (i2 & Hi2 & E%hex_inj).
  destruct (decide (invocation_preimage (call_policy c1) i1 route = invocation_preimage (call_policy c2) i2 route)) as [Ep|Hne];
    [left|right; by exists i1, i2].
  specialize (F1 i1 Hi1). specialize (F2 i2 Hi2). unfold invocation_preimage in *. apply app_inv_head in Ep.
  rewrite blen_app in F1, F2.
  apply lp_all_inj in Ep; [|apply lp_all_fits; lia..].
  remember (be_bytes 4 (semantic_revision (call_policy c1))) as x1 eqn:X1.
  remember (be_bytes 4 (semantic_revision (call_policy c2))) as x2 eqn:X2.
  injection Ep as E1 E2 E3 E4 E5 E6. unfold same_invocation. rewrite Hi1, Hi2.
  rewrite X1, X2 in E2. apply be_bytes_inj in E2; [|change (256 ^ N.of_nat 4) with (u32_max + 1); lia..].
  split_and!; [by apply as_bytes_inj|done|by apply as_bytes_inj|by apply as_bytes_inj|by apply as_bytes_inj|by rewrite E6].
Qed.

(** What an answer comes from: the cell its task took. *)
Definition answered (s : Loads) (i : nat) (call : Call) (cell : nat) (late : bool) (r : result DataError Any) : Prop :=
  (i, r) ∈ answers s /\ call_at s i = Some call /\ (i, (cell, late)) ∈ taken s.

(** The sizes every call on a machine has. *)
Definition call_fits (route : string) (call : Call) : Prop :=
  semantic_revision (call_policy call) <= u32_max
  /\ forall input, call_input call = Ok input -> blen (invocation_preimage (call_policy call) input route) <= u64_max.

(** An answer is what its cell holds, whose key is that of its call. *)
Lemma answered_from (c : Context) s : alloc (route_id (identity c)) s -> runs_ok s -> forall i call cell late r, answered s i call cell late r ->
  (exists held, cells s !! cell = Some (Ready held) /\ r = given call held)
  /\ exists key, key_of (route_id (identity c)) call key /\ made s !! cell = Some (made_for call key, late).
Proof.
  intros Ha Hs i call cell late r (Hin & Hcall & Ht).
  destruct (ro_answers _ Hs _ _ Hin) as (cell0 & late0 & call0 & held & Ht0 & Hcall0 & Hcell & ->).
  assert (call0 = call) as -> by congruence.
  assert ((cell0, late0) = (cell, late)) as E by (by eapply (NoDup_fst_inj (taken s)); [apply Ha|..]). injection E as -> ->.
  split; [by exists held|]. destruct (al_taken _ _ Ha _ _ _ Ht) as (call0 & key & Hcall1 & Hk & Hm).
  assert (call0 = call) as -> by congruence. by exists key.
Qed.

(** C20. The loads of one request agree, under every schedule and with any of them
    dropped anywhere: no cell is initialized to its end twice; an answer is the outcome
    of the one run of its cell, at the output type of the call, and a type mismatch where
    that outcome is of another type; deduplicated loads of the same loader on the same
    canonical input that took their cells before the context was closed took the same
    cell, so that they answer from one outcome, and at equal output types answer the same;
    and two calls share a cell only if they are deduplicated and the same invocation, or
    what their keys hash is a collision of SHA-256. *)
Theorem loads_agree c s :
  closed c = false -> loader_cells c = ∅ -> rtc load_step (opened c) s ->
  NoDup (runs s).*1.*1
  /\ (forall i call cell late r, answered s i call cell late r ->
        exists p e, (cell, p, e) ∈ runs s /\ r = given call (loader_outcome p e))
  /\ forall i j call call' cell cell' late late' r r',
        i <> j -> answered s i call cell late r -> answered s j call' cell' late' r' ->
        (same_invocation call call' -> deduplicate_in_request (call_policy call) = true ->
           deduplicate_in_request (call_policy call') = true -> late = false -> late' = false -> cell = cell')
        /\ (cell = cell' -> (exists held, r = given call held /\ r' = given call' held)
              /\ (call_type call = call_type call' -> r = r'))
        /\ (cell = cell' -> call_fits (route_id (identity c)) call -> call_fits (route_id (identity c)) call' ->
           deduplicate_in_request (call_policy call) = true /\ deduplicate_in_request (call_policy call') = true
           /\ (same_invocation call call' \/ keys_collide (route_id (identity c)) call call')).
Proof.
  intros Hc Hl Hr. destruct (reachable_loads c s Hc Hl Hr) as [Ha Hs]. pose proof (answered_from c s Ha Hs) as Hans.
  split; [apply Hs|]. split.
  { intros i call cell late r Hi. destruct (Hans _ _ _ _ _ Hi) as [(held & Hcell & ->) _].
    destruct (ro_ready _ Hs _ _ Hcell) as (p & e & Hin & ->). by exists p, e. }
  intros i j call call' cell cell' late late' r r' Hne Hi Hj.
  destruct (Hans _ _ _ _ _ Hi) as [(held & Hr1 & ->) (key & Hk & Hm)], (Hans _ _ _ _ _ Hj) as [(held' & Hr2 & ->) (key' & Hk' & Hm')].
  unfold made_for in Hm, Hm'. split_and!.
  - intros Hsame Hd Hd' -> ->. rewrite Hd in Hm. rewrite Hd' in Hm'.
    assert (key = key') as <- by by eapply key_same. by eapply (al_uniq _ _ Ha).
  - intros <-. assert (held' = held) as -> by congruence. split; [by exists held|]. intros Ht. unfold given. by rewrite Ht.
  - intros <- [R1 F1] [R2 F2]. destruct (deduplicate_in_request (call_policy call)) eqn:Hd.
    + destruct (deduplicate_in_request (call_policy call')); [|congruence].
      assert (key = key') as <- by congruence. split_and!; [done..|]. by eapply loader_key_binds.
    + exfalso. apply Hne. eapply (al_private _ _ Ha); [apply Hi|apply Hj|exact Hm].
Qed.
End loads.

Module LoaderSample.
#[local] Existing Instance toy_sha256.

(** Resources and outputs are numbers. *)
Definition Val (_ : unit) : Type := N.
Definition output_vec (_ : {t : unit & Val t}) : option bytes := Some (as_bytes "7").

Definition request : DataContext Val :=
  mkContext (mkIdentity "request-1" "catalog" "deploy-1") 1000 ∅ (mkValues ∅ ∅ ∅) ∅ default_options None false false None ∅
    [] [] [] [] [].

Definition product : LoaderPolicy :=
  match loader_new "product" 1 "product-input" "product-output" with Ok p => p | Err _ => mkLoader "" 0 "" "" [] None 0 false end.

Definition call : Call := mkCall product tt (Ok (as_bytes "{}")).
Definition key : string := invocation_key product (as_bytes "{}") "catalog".
Definition seven : {t : unit & Val t} := existT tt 7.

(** Two loads check in, share a cell, and answer what the run of the first made. *)
Definition shared : DataContext Val := set_loader_cells {[key := 0%nat]} request.
Definition after_one : DataContext Val := record_receipt (load_receipt output_vec product tt false 5 (Ok seven) shared) shared.
Definition after_both : DataContext Val := record_receipt (load_receipt output_vec product tt true 6 (Ok seven) after_one) after_one.

Definition at_phases (c : DataContext Val) (cs : list Cell) (p1 p2 : Phase) (m : list (option string * bool))
    (rs : list (nat * LoaderPolicy * LoaderEnd)) (t : list (nat * (nat * bool))) (an : list (nat * result DataError {t & Val t}))
    : Loads (Val := Val) :=
  mkLoads c cs [(call, p1); (call, p2)] m rs t an.

Definition one_made := [(Some key, false)].
Definition both_taken := [(0%nat, (0%nat, false)); (1%nat, (0%nat, false))].
Definition one_run := [(0%nat, product, EndLoader (Val := Val) (Ok seven))].

Definition checked_one : Loads (Val := Val) := mkLoads request [] [(call, Checked key)] [] [] [] [].
Definition checked_both := at_phases request [] (Checked key) (Checked key) [] [] [] [].
Definition taken_one := at_phases shared [Empty] (Waiting 0 false) (Checked key) one_made [] [(0%nat, (0%nat, false))] [].
Definition taken_both := at_phases shared [Empty] (Waiting 0 false) (Waiting 0 true) one_made [] both_taken [].
Definition running := at_phases shared [Running] (Initializing 0 false) (Waiting 0 true) one_made [] both_taken [].
Definition ended := at_phases shared [Ready (Ok seven)] (Waiting 0 false) (Waiting 0 true) one_made one_run both_taken [].
Definition one_answered := at_phases after_one [Ready (Ok seven)] Gone (Waiting 0 true) one_made one_run both_taken [(0%nat, Ok seven)].
Definition both_answered :=
  at_phases after_both [Ready (Ok seven)] Gone Gone one_made one_run both_taken [(0%nat, Ok seven); (1%nat, Ok seven)].

Lemma step_to s s1 s2 : load_step output_vec s s1 -> s1 = s2 -> load_step output_vec s s2.
Proof. by intros H <-. Qed.

Lemma both_reachable : rtc (load_step output_vec) (opened request) both_answered.
Proof.
  apply (rtc_l _ _ checked_one); [eapply step_to; [apply (step_check _ _ call (as_bytes "{}")); reflexivity|vm_compute; reflexivity]|].
  apply (rtc_l _ _ checked_both); [eapply step_to; [apply (step_check _ _ call (as_bytes "{}")); reflexivity|vm_compute; reflexivity]|].
  apply (rtc_l _ _ taken_one).
  { eapply step_to; [apply (step_take _ _ 0 call key shared [Empty] 0 false); vm_compute; reflexivity|vm_compute; reflexivity]. }
  apply (rtc_l _ _ taken_both).
  { eapply step_to; [apply (step_take _ _ 1 call key shared [Empty] 0 true); vm_compute; reflexivity|vm_compute; reflexivity]. }
  apply (rtc_l _ _ running).
  { eapply step_to; [apply (step_init _ _ 0 call 0 false); vm_compute; reflexivity|vm_compute; reflexivity]. }
  apply (rtc_l _ _ ended).
  { eapply step_to; [apply (step_end _ _ 0 call 0 false (EndLoader (Ok seven))); vm_compute; reflexivity|vm_compute; reflexivity]. }
  apply (rtc_l _ _ one_answered).
  { eapply step_to; [apply (step_answer _ _ 0 call 0 false (Ok seven) 5); vm_compute; reflexivity|vm_compute; reflexivity]. }
  apply rtc_once.
  eapply step_to; [apply (step_answer _ _ 1 call 0 true (Ok seven) 6); vm_compute; reflexivity|vm_compute; reflexivity].
Qed.

Lemma loads_agree_witness :
  NoDup (runs both_answered).*1.*1 /\ exists p e, (0%nat, p, e) ∈ runs both_answered /\ Ok seven = given call (loader_outcome output_vec p e).
Proof.
  destruct (loads_agree output_vec request both_answered eq_refl eq_refl both_reachable) as (H1 & H2 & _).
  split; [exact H1|]. apply (H2 1%nat call 0%nat false). split_and!; [right; left|reflexivity|right; left].
Defined.

(** A resource that needs a capability, and two resources without: the digests of the
    policies agree, since ids and capabilities are written alike. *)
Example requirements_are_ambiguous :
  requirement_bytes [mkRequirement "db" {["db-write"]}] = requirement_bytes [mkRequirement "db" ∅; mkRequirement "db-write" ∅].
Proof. vm_compute. reflexivity. Qed.
End LoaderSample.
