(* ===== verification/Action.v ===== *)
(** * Action: mutations and their commits ([pliego-data/src/action.rs])

    The policy of an action and its digest, admission, the commit handle,
    [DataContext::act] and [act_idempotent]. An action is a user's future; here it is a
    program over what its context offers, which may suspend and panic, and [Mutate] is
    its effect on the world. The events of the task that drives it (the future is
    polled, the request is cancelled, its deadline passes, the grace period ends, the
    task is dropped) are a list of [Turn]s, chosen by the environment. *)

From S2P Require Import Prelude Decimal Request Cache Idempotency DataContext Loader.

Local Open Scope string_scope.
Local Open Scope N_scope.

(** ** Data *)

Inductive ActionMediaType : Type := FormUrlencoded | Json | MultipartFormData.
Inductive ActionContentEncoding : Type := Identity | Gzip.
Inductive OriginPolicy : Type := SameOrigin | ExplicitlyNonBrowser.
Inductive CsrfPolicy : Type := CsrfSameOrigin | SessionBoundToken.
Inductive InvalidationConsistency : Type := Eventual | ReadYourWrites.

#[export] Instance media_type_eq_dec : EqDecision ActionMediaType.
Proof. solve_decision. Defined.
#[export] Instance encoding_eq_dec : EqDecision ActionContentEncoding.
Proof. solve_decision. Defined.
#[export] Instance origin_eq_dec : EqDecision OriginPolicy.
Proof. solve_decision. Defined.
#[export] Instance csrf_eq_dec : EqDecision CsrfPolicy.
Proof. solve_decision. Defined.
#[export] Instance consistency_eq_dec : EqDecision InvalidationConsistency.
Proof. solve_decision. Defined.

Definition media_type_str (m : ActionMediaType) : string :=
  match m with
  | FormUrlencoded => "application/x-www-form-urlencoded"
  | Json => "application/json"
  | MultipartFormData => "multipart/form-data"
  end.

Definition encoding_str (e : ActionContentEncoding) : string :=
  match e with Identity => "identity" | Gzip => "gzip" end.

(** The order of the declarations. *)
Definition media_rank (m : ActionMediaType) : N := match m with FormUrlencoded => 0 | Json => 1 | MultipartFormData => 2 end.
Definition encoding_rank (e : ActionContentEncoding) : N := match e with Identity => 0 | Gzip => 1 end.
Definition media_le (x y : ActionMediaType) : Prop := media_rank x <= media_rank y.
Definition encoding_le (x y : ActionContentEncoding) : Prop := encoding_rank x <= encoding_rank y.

#[export] Instance media_le_dec : RelDecision media_le.
Proof. intros x y. unfold media_le. apply _. Defined.
#[export] Instance encoding_le_dec : RelDecision encoding_le.
Proof. intros x y. unfold encoding_le. apply _. Defined.

(** [self.origin_policy as u8] and the like. *)
Definition origin_byte (o : OriginPolicy) : byte := match o with SameOrigin => x00 | ExplicitlyNonBrowser => x01 end.
Definition csrf_byte (c : CsrfPolicy) : byte := match c with CsrfSameOrigin => x00 | SessionBoundToken => x01 end.
Definition consistency_byte (c : InvalidationConsistency) : byte := match c with Eventual => x00 | ReadYourWrites => x01 end.

Record ActionInvalidationIntent : Type := mkIntent {
  intent_policy : string; intent_tags : list string; consistency : InvalidationConsistency }.

Definition intent_new (cache_policy : string) (tags : list string) : result DataError ActionInvalidationIntent :=
  fail_if negb (validate_stable_id cache_policy) with InvalidStableId cache_policy ;;
  let tags := btree_elements (list_to_set tags) in
  fail_if (blen tags =? 0) || (32 <? blen tags)
    with InvalidActionState "an invalidation intent requires between 1 and 32 tags" ;;
  Ok (mkIntent cache_policy tags Eventual).

Definition read_your_writes (i : ActionInvalidationIntent) : ActionInvalidationIntent :=
  mkIntent (intent_policy i) (intent_tags i) ReadYourWrites.

Definition intent_le (x y : ActionInvalidationIntent) : Prop := String.le (intent_policy x) (intent_policy y).

#[export] Instance intent_le_dec : RelDecision intent_le.
Proof. intros x y. unfold intent_le. apply _. Defined.

(** ** Policies *)

Record ActionPolicy : Type := mkAction {
  action_id : string; semantic_revision : N; input_schema_id : string; field_error_schema_id : string;
  output_schema_id : string; accepted_media_types : list ActionMediaType;
  accepted_content_encodings : list ActionContentEncoding; max_encoded_bytes : N; max_decoded_bytes : N;
  max_form_fields : N; max_output_bytes : N; origin_policy : OriginPolicy; csrf_policy : CsrfPolicy;
  require_authentication : bool; require_authorization : bool; resources : list ResourceRequirement;
  post_commit_grace_ms : N; idempotency_policy_id : option string; invalidation_intents : list ActionInvalidationIntent }.

Definition action_new (id : string) (revision : N) (input field_error output : string) : result DataError ActionPolicy :=
  _ ← try_for check_stable_id [id; input; field_error; output];
  fail_if revision =? 0 with InvalidActionState "semantic revision must be greater than zero" ;;
  Ok (mkAction id revision input field_error output [FormUrlencoded] [Identity] (256 * 1024) (256 * 1024) 256 (256 * 1024)
        SameOrigin SessionBoundToken true true [] 2000 None []).

Definition accepts (p : ActionPolicy) (m : ActionMediaType) : bool := bool_decide (m ∈ accepted_media_types p).
Definition accepts_content_encoding (p : ActionPolicy) (e : ActionContentEncoding) : bool :=
  bool_decide (e ∈ accepted_content_encodings p).

Definition accept_media_type (p : ActionPolicy) (m : ActionMediaType) : ActionPolicy :=
  if accepts p m then p
  else
    mkAction (action_id p) (semantic_revision p) (input_schema_id p) (field_error_schema_id p) (output_schema_id p)
      (merge_sort media_le (accepted_media_types p ++ [m])%list) (accepted_content_encodings p) (max_encoded_bytes p)
      (max_decoded_bytes p) (max_form_fields p) (max_output_bytes p) (origin_policy p) (csrf_policy p)
      (require_authentication p) (require_authorization p) (resources p) (post_commit_grace_ms p) (idempotency_policy_id
      p) (invalidation_intents p).

Definition accept_content_encoding (p : ActionPolicy) (e : ActionContentEncoding) : ActionPolicy :=
  if accepts_content_encoding p e then p
  else
    mkAction (action_id p) (semantic_revision p) (input_schema_id p) (field_error_schema_id p) (output_schema_id p)
      (accepted_media_types p) (merge_sort encoding_le (accepted_content_encodings p ++ [e])%list) (max_encoded_bytes p)
      (max_decoded_bytes p) (max_form_fields p) (max_output_bytes p) (origin_policy p) (csrf_policy p)
      (require_authentication p) (require_authorization p) (resources p) (post_commit_grace_ms p) (idempotency_policy_id
      p) (invalidation_intents p).

Definition with_max_encoded_bytes (p : ActionPolicy) (maximum : N) : result DataError ActionPolicy :=
  fail_if (maximum =? 0) || (64 * 1024 * 1024 <? maximum)
    with InvalidActionState "max encoded bytes must be between 1 and 67108864" ;;
  Ok (mkAction (action_id p) (semantic_revision p) (input_schema_id p) (field_error_schema_id p) (output_schema_id p)
        (accepted_media_types p) (accepted_content_encodings p) maximum (max_decoded_bytes p) (max_form_fields p)
        (max_output_bytes p) (origin_policy p) (csrf_policy p) (require_authentication p) (require_authorization p)
        (resources p) (post_commit_grace_ms p) (idempotency_policy_id p) (invalidation_intents p)).

Definition with_max_decoded_bytes (p : ActionPolicy) (maximum : N) : result DataError ActionPolicy :=
  fail_if (maximum =? 0) || (64 * 1024 * 1024 <? maximum)
    with InvalidActionState "max decoded bytes must be between 1 and 67108864" ;;
  Ok (mkAction (action_id p) (semantic_revision p) (input_schema_id p) (field_error_schema_id p) (output_schema_id p)
        (accepted_media_types p) (accepted_content_encodings p) (max_encoded_bytes p) maximum (max_form_fields p)
        (max_output_bytes p) (origin_policy p) (csrf_policy p) (require_authentication p) (require_authorization p)
        (resources p) (post_commit_grace_ms p) (idempotency_policy_id p) (invalidation_intents p)).

Definition with_max_output_bytes (p : ActionPolicy) (maximum : N) : result DataError ActionPolicy :=
  fail_if (maximum =? 0) || (16 * 1024 * 1024 <? maximum)
    with InvalidActionState "max output bytes must be between 1 and 16777216" ;;
  Ok (mkAction (action_id p) (semantic_revision p) (input_schema_id p) (field_error_schema_id p) (output_schema_id p)
        (accepted_media_types p) (accepted_content_encodings p) (max_encoded_bytes p) (max_decoded_bytes p)
        (max_form_fields p) maximum (origin_policy p) (csrf_policy p) (require_authentication p) (require_authorization
        p) (resources p) (post_commit_grace_ms p) (idempotency_policy_id p) (invalidation_intents p)).

Definition with_max_form_fields (p : ActionPolicy) (maximum : N) : result DataError ActionPolicy :=
  fail_if (maximum =? 0) || (4096 <? maximum)
    with InvalidActionState "max form fields must be between 1 and 4096" ;;
  Ok (mkAction (action_id p) (semantic_revision p) (input_schema_id p) (field_error_schema_id p) (output_schema_id p)
        (accepted_media_types p) (accepted_content_encodings p) (max_encoded_bytes p) (max_decoded_bytes p) maximum
        (max_output_bytes p) (origin_policy p) (csrf_policy p) (require_authentication p) (require_authorization p)
        (resources p) (post_commit_grace_ms p) (idempotency_policy_id p) (invalidation_intents p)).

Definition with_origin_policy (p : ActionPolicy) (o : OriginPolicy) : ActionPolicy :=
  mkAction (action_id p) (semantic_revision p) (input_schema_id p) (field_error_schema_id p) (output_schema_id p)
    (accepted_media_types p) (accepted_content_encodings p) (max_encoded_bytes p) (max_decoded_bytes p) (max_form_fields
    p) (max_output_bytes p) o (csrf_policy p) (require_authentication p) (require_authorization p) (resources p)
    (post_commit_grace_ms p) (idempotency_policy_id p) (invalidation_intents p).

Definition with_csrf_policy (p : ActionPolicy) (c : CsrfPolicy) : ActionPolicy :=
  mkAction (action_id p) (semantic_revision p) (input_schema_id p) (field_error_schema_id p) (output_schema_id p)
    (accepted_media_types p) (accepted_content_encodings p) (max_encoded_bytes p) (max_decoded_bytes p) (max_form_fields
    p) (max_output_bytes p) (origin_policy p) c (require_authentication p) (require_authorization p) (resources p)
    (post_commit_grace_ms p) (idempotency_policy_id p) (invalidation_intents p).

Definition with_authentication (p : ActionPolicy) (required : bool) : ActionPolicy :=
  mkAction (action_id p) (semantic_revision p) (input_schema_id p) (field_error_schema_id p) (output_schema_id p)
    (accepted_media_types p) (accepted_content_encodings p) (max_encoded_bytes p) (max_decoded_bytes p) (max_form_fields
    p) (max_output_bytes p) (origin_policy p) (csrf_policy p) required (require_authorization p) (resources p)
    (post_commit_grace_ms p) (idempotency_policy_id p) (invalidation_intents p).

Definition with_authorization (p : ActionPolicy) (required : bool) : ActionPolicy :=
  mkAction (action_id p) (semantic_revision p) (input_schema_id p) (field_error_schema_id p) (output_schema_id p)
    (accepted_media_types p) (accepted_content_encodings p) (max_encoded_bytes p) (max_decoded_bytes p) (max_form_fields
    p) (max_output_bytes p) (origin_policy p) (csrf_policy p) (require_authentication p) required (resources p)
    (post_commit_grace_ms p) (idempotency_policy_id p) (invalidation_intents p).

Definition action_resource (p : ActionPolicy) (r : ResourceRequirement) : result DataError ActionPolicy :=
  fail_if existsb (fun current => String.eqb (requirement_id current) (requirement_id r)) (resources p)
    with DuplicateResource (requirement_id r) ;;
  fail_if 32 <=? blen (resources p) with InvalidActionState "an action may require at most 32 resources" ;;
  Ok (mkAction (action_id p) (semantic_revision p) (input_schema_id p) (field_error_schema_id p) (output_schema_id p)
        (accepted_media_types p) (accepted_content_encodings p) (max_encoded_bytes p) (max_decoded_bytes p)
        (max_form_fields p) (max_output_bytes p) (origin_policy p) (csrf_policy p) (require_authentication p)
        (require_authorization p) (resources p ++ [r])%list (post_commit_grace_ms p) (idempotency_policy_id p)
        (invalidation_intents p)).

Definition post_commit_grace (p : ActionPolicy) (d : Duration) : result DataError ActionPolicy :=
  fail_if u64_max <? as_millis d with InvalidActionState "post-commit grace is too large" ;;
  fail_if (as_millis d =? 0) || (30000 <? as_millis d)
    with InvalidActionState "post-commit grace must be between 1 and 30000 ms" ;;
  Ok (mkAction (action_id p) (semantic_revision p) (input_schema_id p) (field_error_schema_id p) (output_schema_id p)
        (accepted_media_types p) (accepted_content_encodings p) (max_encoded_bytes p) (max_decoded_bytes p)
        (max_form_fields p) (max_output_bytes p) (origin_policy p) (csrf_policy p) (require_authentication p)
        (require_authorization p) (resources p) (as_millis d) (idempotency_policy_id p) (invalidation_intents p)).

Definition with_idempotency (p : ActionPolicy) (i : IdempotencyPolicy) : ActionPolicy :=
  mkAction (action_id p) (semantic_revision p) (input_schema_id p) (field_error_schema_id p) (output_schema_id p)
    (accepted_media_types p) (accepted_content_encodings p) (max_encoded_bytes p) (max_decoded_bytes p) (max_form_fields
    p) (max_output_bytes p) (origin_policy p) (csrf_policy p) (require_authentication p) (require_authorization p)
    (resources p) (post_commit_grace_ms p) (Some (Idempotency.id i)) (invalidation_intents p).

Definition with_invalidation (p : ActionPolicy) (i : ActionInvalidationIntent) : result DataError ActionPolicy :=
  fail_if existsb (fun current => String.eqb (intent_policy current) (intent_policy i)) (invalidation_intents p)
    with InvalidActionState ("duplicate invalidation policy " ++ intent_policy i) ;;
  fail_if 16 <=? blen (invalidation_intents p)
    with InvalidActionState "an action may declare at most 16 invalidation intents" ;;
  Ok (mkAction (action_id p) (semantic_revision p) (input_schema_id p) (field_error_schema_id p) (output_schema_id p)
        (accepted_media_types p) (accepted_content_encodings p) (max_encoded_bytes p) (max_decoded_bytes p)
        (max_form_fields p) (max_output_bytes p) (origin_policy p) (csrf_policy p) (require_authentication p)
        (require_authorization p) (resources p) (post_commit_grace_ms p) (idempotency_policy_id p) (merge_sort intent_le
        (invalidation_intents p ++ [i]))%list).

Definition flag (b : bool) : byte := if b then x01 else x00.

Definition action_preimage (p : ActionPolicy) : bytes :=
  (terminated "pliego-action-policy-v1" ++
   lp_all [as_bytes (action_id p); be_bytes 4 (semantic_revision p); as_bytes (input_schema_id p);
           as_bytes (field_error_schema_id p); as_bytes (output_schema_id p); be_bytes 8 (max_encoded_bytes p);
           be_bytes 8 (max_decoded_bytes p); be_bytes 8 (max_form_fields p); be_bytes 8 (max_output_bytes p);
           be_bytes 8 (post_commit_grace_ms p)] ++
   concat (map (fun m => terminated (media_type_str m)) (accepted_media_types p)) ++
   concat (map (fun e => terminated (encoding_str e)) (accepted_content_encodings p)) ++
   [origin_byte (origin_policy p); csrf_byte (csrf_policy p); flag (require_authentication p); flag (require_authorization p)] ++
   requirement_bytes (resources p) ++
   match idempotency_policy_id p with Some id => as_bytes id | None => [] end ++
   concat (map (fun i => as_bytes (intent_policy i) ++ [consistency_byte (consistency i)]
                         ++ concat (map terminated (intent_tags i)))%list (invalidation_intents p)))%list.

Definition action_digest `{Sha256} (p : ActionPolicy) : string := hex (sha256 (action_preimage p)).

Definition grant_action `{Sha256} (g : DataPolicyGrants) (p : ActionPolicy) : result DataError DataPolicyGrants :=
  actions ← insert_policy (actions g) (action_id p) (action_digest p) "action";
  Ok (mkPolicies (loaders g) actions (caches g)).

(** ** Admission ([ActionAdmission]) *)

Record Admission : Type := mkAdmission {
  media_type : ActionMediaType; decoded_bytes : N; same_origin : bool; csrf_verified : bool; authenticated : bool;
  authorized : bool }.

Definition n_text (n : N) : string := String.string_of_list_ascii (u64_to_string n).

Definition admit_action (p : ActionPolicy) (a : Admission) : result DataError unit :=
  fail_if negb (accepts p (media_type a)) with ActionAdmission "media type is not declared by the action" ;;
  fail_if max_decoded_bytes p <? decoded_bytes a
    with ActionAdmission ("decoded input reached " ++ n_text (decoded_bytes a) ++ " bytes; maximum is "
                            ++ n_text (max_decoded_bytes p)) ;;
  fail_if bool_decide (origin_policy p = SameOrigin) && negb (same_origin a)
    with ActionAdmission "same-origin proof is required" ;;
  fail_if bool_decide (csrf_policy p = SessionBoundToken) && negb (csrf_verified a)
    with ActionAdmission "session-bound CSRF proof is required" ;;
  fail_if require_authentication p && negb (authenticated a) with ActionAdmission "authentication is required" ;;
  fail_if require_authorization p && negb (authorized a) with ActionAdmission "authorization is required" ;;
  Ok tt.

(** ** The commit handle *)

Inductive ActionCommitState : Type :=
| NotStarted | PreCommit | Committing | Committed | CommitFailed | CommitUnknown | CompensationRequired.

#[export] Instance commit_state_eq_dec : EqDecision ActionCommitState.
Proof. solve_decision. Defined.

Definition commit_state_name (s : ActionCommitState) : string :=
  match s with
  | NotStarted => "NotStarted" | PreCommit => "PreCommit" | Committing => "Committing" | Committed => "Committed"
  | CommitFailed => "Failed" | CommitUnknown => "OutcomeUnknown" | CompensationRequired => "CompensationRequired"
  end.

Definition invalid_transition (from to : ActionCommitState) : DataError :=
  InvalidActionState (commit_state_name from ++ " -> " ++ commit_state_name to).

Inductive CommitOp : Type := EnterPreCommit | BeginCommit | MarkCommitted | MarkFailed | MarkUnknown | RequireCompensation.

Definition transition (expected next state : ActionCommitState) : ActionCommitState * result DataError unit :=
  if bool_decide (state <> expected) then (state, Err (invalid_transition state next)) else (next, Ok tt).

(** The methods of [ActionCommitHandle], each one critical section. *)
Definition commit_op (op : CommitOp) (s : ActionCommitState) : ActionCommitState * result DataError unit :=
  match op with
  | EnterPreCommit => transition NotStarted PreCommit s
  | BeginCommit =>
      match s with
      | NotStarted | PreCommit => (Committing, Ok tt)
      | current => (current, Err (invalid_transition current Committing))
      end
  | MarkCommitted => transition Committing Committed s
  | MarkFailed =>
      match s with
      | NotStarted | PreCommit | Committing => (CommitFailed, Ok tt)
      | current => (current, Err (invalid_transition current CommitFailed))
      end
  | MarkUnknown => transition Committing CommitUnknown s
  | RequireCompensation => transition Committed CompensationRequired s
  end.

Inductive ActionNavigation : Type := Stay | SeeOther (location : string).

Inductive ActionResponse (Output FieldErrors : Type) : Type :=
| ActionSuccess (output : Output) (navigation : ActionNavigation)
| ActionInvalid (field_errors : FieldErrors).

Arguments ActionSuccess {Output FieldErrors}.
Arguments ActionInvalid {Output FieldErrors}.

Record ActionFailure : Type := mkFailure { failure_error : DataError; failure_state : ActionCommitState }.

Section actions.
Context `{Sha256} {Ty : Type} `{!EqDecision Ty} {Val : Ty -> Type} {Output FieldErrors : Type}.
Abbreviation Context := (DataContext Val).
Abbreviation Response := (ActionResponse Output FieldErrors).
Context `{!Serde Response}.

(** ** Programs *)

Inductive Program : Type :=
| Answer (r : result DataError Response)
| Commit (op : CommitOp) (k : result DataError unit -> Program)
| CommitState (k : ActionCommitState -> Program)
| Invalidate (event : InvalidationEvent) (k : result DataError unit -> Program)
| Lease (t : Ty) (id : string) (k : result DataError (ResourceLease Val t) -> Program)
| Mutate (k : Program)
| Await (k : Program)
| Panic.

(** The context of the request, the handle, and the history of [Mutate]. *)
Record Run : Type := mkRun { context : Context; commit : ActionCommitState; mutations : nat }.

(** [ActionContext::record_invalidation]. *)
Definition action_invalidation (p : ActionPolicy) (e : InvalidationEvent) (s : Run) : Run * result DataError unit :=
  let r :=
    fail_if negb (bool_decide (commit s = Committed))
      with InvalidActionState "cache invalidation requires a committed action" ;;
    intent ← ok_or (InvalidActionState ("cache policy " ++ event_policy_id e ++ " is not declared by action " ++ action_id p))
               (find (fun i => String.eqb (intent_policy i) (event_policy_id e)) (invalidation_intents p));
    fail_if negb (matches_tags e (intent_tags intent))
      with InvalidActionState ("cache invalidation target does not match action " ++ action_id p ++ " intent for "
                                 ++ event_policy_id e) ;;
    fail_if bool_decide (consistency intent = ReadYourWrites) && negb (is_ok (require_acknowledgements e))
      with ActionFailed ("cache acknowledgement barrier failed: "
                           ++ "cache invalidation acknowledgement barrier was not met") ;;
    Ok tt in
  match r with
  | Ok _ => (mkRun (record_invalidation e (context s)) (commit s) (mutations s), Ok tt)
  | Err e => (s, Err e)
  end.

(** [ActionContext::resource]; the readings of the clock are fixed. *)
Definition action_lease (p : ActionPolicy) (now : N) (t : Ty) (id : string) (s : Run)
    : Run * result DataError (ResourceLease Val t) :=
  match find (fun r => String.eqb (requirement_id r) id) (resources p) with
  | None => (s, Err (ResourceUnavailable id))
  | Some req =>
      let '(c, answer) := resource t req now 0 (context s) in (mkRun c (commit s) (mutations s), answer)
  end.

(** What one poll of the future ends with. *)
Inductive Polled : Type :=
| Pending (k : Program)
| Complete (r : result DataError Response)
| Panicked.

Fixpoint poll (p : ActionPolicy) (now : N) (program : Program) (s : Run) : Run * Polled :=
  match program with
  | Answer r => (s, Complete r)
  | Commit op k => let '(state, r) := commit_op op (commit s) in poll p now (k r) (mkRun (context s) state (mutations s))
  | CommitState k => poll p now (k (commit s)) s
  | Invalidate e k => let '(s, r) := action_invalidation p e s in poll p now (k r) s
  | Lease t id k => let '(s, r) := action_lease p now t id s in poll p now (k r) s
  | Mutate k => poll p now k (mkRun (context s) (commit s) (S (mutations s)))
  | Await k => (s, Pending k)
  | Panic => (s, Panicked)
  end.

(** ** Driving an action *)

(** What wakes the task: the branches of its [select!], in the order it prefers them,
    and the timer of the grace period. At a turn other tasks have changed the context. *)
Inductive Turn : Type :=
| Wake (others : Context -> Context)
| OnCancelled
| OnDeadline
| OnGraceOver
| OnDropped.

(** A task that panics or is dropped answers nothing. *)
Inductive Outcome : Type :=
| Answered (r : result ActionFailure Response)
| Lost.

Definition fails (e : DataError) (s : Run) : Run * Outcome := (s, Answered (Err (mkFailure e (commit s)))).

Definition completes (r : result DataError Response) (s : Run) : Run * Outcome :=
  match r with Ok a => (s, Answered (Ok a)) | Err e => fails e s end.

(** [tokio::time::timeout] polls the future before its timer. *)
Fixpoint grace (p : ActionPolicy) (now : N) (program : Program) (turns : list Turn) (s : Run) : Run * Outcome :=
  let '(s, polled) := poll p now program s in
  match polled with
  | Complete r => completes r s
  | Panicked => (s, Lost)
  | Pending k =>
      match turns with
      | Wake others :: turns => grace p now k turns (mkRun (others (context s)) (commit s) (mutations s))
      | OnGraceOver :: _ => fails ActionOutcomeUnknown s
      | _ => (s, Lost)
      end
  end.

Definition finish_interrupted_action (p : ActionPolicy) (now : N) (program : Program) (turns : list Turn)
    (interruption : DataError) (s : Run) : Run * Outcome :=
  match commit s with
  | NotStarted | PreCommit | CommitFailed => fails interruption s
  | Committing =>
      fails ActionOutcomeUnknown (mkRun (context s) (commit_op MarkUnknown (commit s)).1 (mutations s))
  | Committed | CompensationRequired => grace p now program turns s
  | CommitUnknown => fails ActionOutcomeUnknown s
  end.

Fixpoint drive (p : ActionPolicy) (now : N) (program : Program) (turns : list Turn) (s : Run) : Run * Outcome :=
  match turns with
  | OnCancelled :: turns => finish_interrupted_action p now program turns Cancelled s
  | OnDeadline :: turns => finish_interrupted_action p now program turns Deadline s
  | Wake others :: turns =>
      let '(s, polled) := poll p now program (mkRun (others (context s)) (commit s) (mutations s)) in
      match polled with
      | Complete r => completes r s
      | Panicked => (s, Lost)
      | Pending k => drive p now k turns s
      end
  | _ => (s, Lost)
  end.

Record Observation : Type := mkObservation {
  observed_outcome : DataOutcome; observed_bytes : N; observed_error : option DataError; observed_dedup : bool }.

Definition action_receipt (p : ActionPolicy) (elapsed : Duration) (o : Observation) (state : ActionCommitState) (c : Context)
    : DataReceipt :=
  mkReceipt data_receipt_contract ActionRun (action_id p) (semantic_revision p) (observed_outcome o) (from_duration elapsed)
    (from_bytes (observed_bytes o)) (observed_dedup o) (cancel_reason c)
    ((fun e => data_error_code e ++ ":" ++ commit_state_name state) <$> observed_error o).

Definition record_action_receipt (p : ActionPolicy) (elapsed : Duration) (o : Observation) (s : Run) : Run :=
  mkRun (record_receipt (action_receipt p elapsed o (commit s) (context s)) (context s)) (commit s) (mutations s).

(** [DataContext::act] after the future has ended. *)
Definition conclude (p : ActionPolicy) (elapsed : Duration) (s : Run) (r : result ActionFailure Response) : Run * Outcome :=
  match r with
  | Ok response =>
      match to_vec response with
      | None => fails Serialization s
      | Some bs =>
          if max_output_bytes p <? blen bs then
            let e := ActionOutput (blen bs) (max_output_bytes p) in
            fails e (record_action_receipt p elapsed (mkObservation Failed (blen bs) (Some e) false) s)
          else (record_action_receipt p elapsed (mkObservation Success (blen bs) None false) s, Answered (Ok response))
      end
  | Err failure =>
      let out := match failure_error failure with Cancelled | Deadline => WasCancelled | _ => Failed end in
      (record_action_receipt p elapsed (mkObservation out 0 (Some (failure_error failure)) false) s, Answered (Err failure))
  end.

(** [DataContext::act]; [program] is what the implementation answers to the input. *)
Definition act (p : ActionPolicy) (admission : Admission) (program : Program) (turns : list Turn) (now : N)
    (elapsed : Duration) (c : Context) : Run * Outcome :=
  let s := mkRun c NotStarted 0 in
  if negb (require_policy actions (action_id p) (action_digest p) c) then fails (PolicyNotGranted (action_id p)) s
  else
    match admit_action p admission with
    | Err e => fails e (record_action_receipt p elapsed (mkObservation Rejected 0 (Some e) false) s)
    | Ok _ =>
        if closed c then fails ContextClosed s
        else
          let '(s, out) := drive p now program turns s in
          match out with
          | Lost => (s, Lost)
          | Answered r => conclude p elapsed s r
          end
    end.

(** ** Idempotent actions *)

Definition idempotency_error_text (e : IdempotencyError) : string :=
  match e with
  | InvalidPolicy message => "invalid idempotency policy: " ++ message
  | InvalidKey => "invalid idempotency key"
  | InvalidPartition => "invalid idempotency partition"
  | InvalidIdentity => "invalid idempotency identity"
  | InputConflict => "idempotency key was reused with different admitted input"
  | InProgressError => "idempotent action is already in progress"
  | OutcomeUnknownError => "idempotent action outcome is unknown"
  | ResultTooLarge actual maximum =>
      "idempotency result reached " ++ n_text actual ++ " bytes; maximum is " ++ n_text maximum
  | StoreConflict => "idempotency store conflict"
  | Idempotency.StoreFailure => "idempotency store failed"
  | Idempotency.Clock => "idempotency clock is unavailable"
  end.

Definition idempotency_data_error (e : IdempotencyError) : DataError :=
  match e with
  | InputConflict => ActionIdempotencyConflict
  | InProgressError => ActionInProgress
  | OutcomeUnknownError => ActionOutcomeUnknown
  | ResultTooLarge actual maximum => ActionOutput actual maximum
  | other => ActionFailed (idempotency_error_text other)
  end.

(** [ActionIdempotency]. *)
Record ActionIdempotency : Type := mkIdempotent {
  manager_policy : IdempotencyPolicy; idempotency_key : IdempotencyKey; partition : IdempotencyPartition;
  deployment_epoch : N }.

Definition action_idempotency_new (m : IdempotencyPolicy) (k : IdempotencyKey) (pt : IdempotencyPartition) (epoch : N)
    : result DataError ActionIdempotency :=
  fail_if epoch =? 0 with InvalidActionState "idempotency deployment epoch must be non-zero" ;;
  Ok (mkIdempotent m k pt epoch).

(** The checks before the store is asked, and the digest of the input it is asked with. *)
Definition idempotent_check (p : ActionPolicy) (i : ActionIdempotency) (input : result DataError bytes) (c : Context)
    : result DataError string :=
  fail_if negb (require_policy actions (action_id p) (action_digest p) c) with PolicyNotGranted (action_id p) ;;
  fail_if negb (bool_decide (idempotency_policy_id p = Some (Idempotency.id (manager_policy i))))
    with InvalidActionState "action and idempotency policies do not match" ;;
  bs ← input;
  Ok (hex (sha256 bs)).

(** The answer of the replay of a stored result. *)
Definition replay_answer (p : ActionPolicy) (elapsed : Duration) (stored : bytes) (c : Context)
    : Context * result ActionFailure Response :=
  match from_slice stored with
  | None => (c, Err (mkFailure Serialization Committed))
  | Some response =>
      (record_receipt (action_receipt p elapsed (mkObservation Success (blen stored) None true) Committed c) c, Ok response)
  end.

(** What the end of the run does with its permit. *)
Inductive Settlement : Type :=
| SettleComplete (result : bytes)
| SettleAbandon
| SettleUnknown
| SettleNothing.

Definition settlement (out : Outcome) : Settlement :=
  match out with
  | Lost => SettleNothing
  | Answered (Ok response) => match to_vec response with Some bs => SettleComplete bs | None => SettleNothing end
  | Answered (Err failure) =>
      match failure_state failure with
      | NotStarted | PreCommit | CommitFailed => SettleAbandon
      | Committing | Committed | CommitUnknown | CompensationRequired => SettleUnknown
      end
  end.

Definition settle (permit : IdempotencyPermit) (x : Settlement) (entries : InMemoryIdempotencyStore)
    : InMemoryIdempotencyStore * result IdempotencyError unit :=
  match x with
  | SettleComplete r => permit_complete permit r entries
  | SettleAbandon => permit_abandon permit entries
  | SettleUnknown => permit_mark_unknown permit entries
  | SettleNothing => (entries, Ok tt)
  end.

(** The answer: an end that fails matters only after a success. *)
Definition settled_answer (out : Outcome) (end_result : result IdempotencyError unit) : Outcome :=
  match out with
  | Answered (Ok response) =>
      match to_vec response with
      | None => Answered (Err (mkFailure Serialization Committed))
      | Some _ =>
          match end_result with
          | Ok _ => out
          | Err e => Answered (Err (mkFailure (idempotency_data_error e) Committed))
          end
      end
  | _ => out
  end.

(** [DataContext::act_idempotent], with no other request in between; the steps of
    [ActionSafety] interleave its parts. *)
Definition act_idempotent (p : ActionPolicy) (admission : Admission) (program : Program) (turns : list Turn) (now : N)
    (elapsed : Duration) (i : ActionIdempotency) (input : result DataError bytes) (clock store_clock : clock)
    (entries : InMemoryIdempotencyStore) (c : Context) : (Run * InMemoryIdempotencyStore) * Outcome :=
  let s := mkRun c NotStarted 0 in
  match idempotent_check p i input c with
  | Err e => ((s, entries), Answered (Err (mkFailure e NotStarted)))
  | Ok digest =>
      let '(entries, decision) :=
        begin (manager_policy i) (action_id p) (semantic_revision p) (deployment_epoch i) (idempotency_key i) (partition i)
          digest clock store_clock entries in
      match decision with
      | Err e => ((s, entries), Answered (Err (mkFailure (idempotency_data_error e) NotStarted)))
      | Ok (Replay stored) =>
          let '(c, answer) := replay_answer p elapsed stored c in ((mkRun c NotStarted 0, entries), Answered answer)
      | Ok (Execute permit) =>
          let '(s, out) := act p admission program turns now elapsed c in
          let '(entries, ended) := settle permit (settlement out) entries in
          ((s, entries), settled_answer out ended)
      end
  end.
End actions.
