(* ===== verification/ActionSafety.v ===== *)
(** * ActionSafety: committed actions are not repeated

    [act] tells the truth about the commit of an honest action, whatever interrupts
    it. A server is any number of idempotent actions over one store, whose requests
    begin, run, are lost and settle in any order and at any time; the mutations of one
    scope are at least the retention of its permit apart, unless a result is too large to
    be kept or a permit is used after its scope was granted anew. *)

From S2P Require Import Prelude Decimal Request Cache Idempotency DataContext Loader Action.

Local Open Scope string_scope.
Local Open Scope N_scope.

Abbreviation permits := Idempotency.permits.
Abbreviation granted := Idempotency.granted.

Section safety.
Context `{Sha256} {Ty : Type} `{!EqDecision Ty} {Val : Ty -> Type} {Output FieldErrors : Type}.
Context `{!Serde (ActionResponse Output FieldErrors)}.
Abbreviation Program := (Program (Ty := Ty) (Val := Val) (Output := Output) (FieldErrors := FieldErrors)).
Abbreviation Run := (Run (Ty := Ty) (Val := Val)).

(** ** Honest actions *)

(** The action mutates the world at most once, while its commit is under way, and does
    not call it failed after that. *)
Fixpoint honest (st : ActionCommitState) (did : bool) (program : Program) : Prop :=
  match program with
  | Answer _ | Panic => True
  | Commit op k => (did = true -> op <> MarkFailed) /\ honest (commit_op op st).1 did (k (commit_op op st).2)
  | CommitState k => honest st did (k st)
  | Invalidate _ k => forall r, honest st did (k r)
  | Lease _ _ k => forall r, honest st did (k r)
  | Mutate k => st = Committing /\ did = false /\ honest st true k
  | Await k => honest st did k
  end.

(** The states in which a mutation may have happened. *)
Definition may_have_committed (st : ActionCommitState) : bool :=
  match st with NotStarted | PreCommit | CommitFailed => false | _ => true end.

Definition did (s : Run) : bool := (0 <? N.of_nat (mutations s)).

Definition truthful (s : Run) : Prop := (mutations s <= 1)%nat /\ (did s = true -> may_have_committed (commit s) = true).

Lemma commit_op_may_have op st :
  op <> MarkFailed -> may_have_committed st = true -> may_have_committed (commit_op op st).1 = true.
Proof. destruct op, st; done. Qed.

Lemma poll_honest p now program s s' polled :
  poll p now program s = (s', polled) -> truthful s -> honest (commit s) (did s) program ->
  truthful s' /\ (mutations s <= mutations s')%nat
  /\ forall k, polled = Pending k -> honest (commit s') (did s') k.
Proof.
  revert s. induction program as [r|op k IH|k IH|e k IH|t id k IH|k IH|k IH|]; intros s; cbn [poll honest].
  - intros [= <- <-] Hs _. done.
  - destruct (commit_op op (commit s)) as [st r] eqn:E. cbn. intros Hp [Hn Hm] [Hop Hk].
    apply (IH r (mkRun (context s) st (mutations s))) in Hp; [exact Hp| |exact Hk].
    split; [exact Hn|]. intros Hd. cbn. pose proof (commit_op_may_have op (commit s) (Hop Hd) (Hm Hd)) as Ho.
    by rewrite E in Ho.
  - intros Hp Hs Hk. by apply (IH (commit s)) in Hp.
  - destruct (action_invalidation p e s) as [s1 r] eqn:E. intros Hp Hs Hk.
    assert (commit s1 = commit s /\ mutations s1 = mutations s) as [E1 E2].
    { unfold action_invalidation in E. destruct (if negb _ then _ else _) as [a|e']; by injection E as <- <-. }
    apply (IH r s1) in Hp; [by rewrite E2 in Hp|by unfold truthful, did in *; rewrite E1, E2|].
    unfold did. rewrite E1, E2. apply Hk.
  - destruct (action_lease p now t id s) as [s1 r] eqn:E. intros Hp Hs Hk.
    assert (commit s1 = commit s /\ mutations s1 = mutations s) as [E1 E2].
    { unfold action_lease in E. destruct (find _ _); [|by injection E as <- <-].
      destruct (resource _ _ _ _ _). by injection E as <- <-. }
    apply (IH r s1) in Hp; [by rewrite E2 in Hp|by unfold truthful, did in *; rewrite E1, E2|].
    unfold did. rewrite E1, E2. apply Hk.
  - intros Hp [Hn Hm] (Hst & Hd & Hk). apply IH in Hp; [|split; cbn|exact Hk].
    + destruct Hp as (H1 & H2 & H3). split_and!; [done|cbn in H2; lia|done].
    + unfold did in Hd. apply N.ltb_ge in Hd. lia.
    + by rewrite Hst.
  - intros [= <- <-] Hs Hk. split_and!; [done..|]. by intros ? [= <-].
  - intros [= <- <-] Hs _. done.
Qed.

(** What an outcome may claim. *)
Definition claims_truth (s : Run) (out : Outcome (Output := Output) (FieldErrors := FieldErrors)) : Prop :=
  truthful s /\ forall f, out = Answered (Err f) -> failure_state f = commit s.

Lemma completes_claims r s s' out : completes r s = (s', out) -> truthful s -> claims_truth s' out.
Proof. destruct r; intros [= <- <-] Hs; (split; [done|]); by intros f [= <-]. Qed.

Lemma grace_claims p now turns : forall program s s' out,
  grace p now program turns s = (s', out) -> truthful s -> honest (commit s) (did s) program -> claims_truth s' out.
Proof.
  induction turns as [|turn turns IH]; intros program s s' out; cbn [grace];
    destruct (poll p now program s) as [s1 polled] eqn:Hp; intros E Hs Hh;
    destruct (poll_honest _ _ _ _ _ _ Hp Hs Hh) as (Hs1 & _ & Hk);
    (destruct polled as [k|r|]; [|by eapply completes_claims|by injection E as <- <-]).
  - by injection E as <- <-.
  - destruct turn; try by injection E as <- <-.
    + eapply IH; [exact E|exact Hs1|by apply Hk].
    + injection E as <- <-. split; [done|]. by intros f [= <-].
Qed.

Lemma finish_claims p now program turns e s s' out :
  finish_interrupted_action p now program turns e s = (s', out) -> truthful s -> honest (commit s) (did s) program ->
  claims_truth s' out.
Proof.
  unfold finish_interrupted_action. intros E Hs Hh.
  destruct (commit s) eqn:Ec; try (injection E as <- <-; split; [done|by intros f [= <-]]).
  - injection E as <- <-. split; [|by intros f [= <-]]. destruct Hs as [Hn Hm]. split; [done|]. intros _. done.
  - rewrite <-Ec in Hh. by eapply grace_claims.
  - rewrite <-Ec in Hh. by eapply grace_claims.
Qed.

Lemma drive_claims p now turns : forall program s s' out,
  drive p now program turns s = (s', out) -> truthful s -> honest (commit s) (did s) program -> claims_truth s' out.
Proof.
  induction turns as [|turn turns IH]; intros program s s' out; cbn [drive]; [by intros [= <- <-]|].
  destruct turn; intros E Hs Hh; try by (injection E as <- <-).
  - destruct (poll p now program _) as [s1 polled] eqn:Hp.
    apply poll_honest in Hp as (Hs1 & _ & Hk); [|exact Hs|exact Hh].
    destruct polled as [k|r|]; [|by eapply completes_claims|by injection E as <- <-].
    eapply IH; [exact E|exact Hs1|by apply Hk].
  - by eapply finish_claims.
  - by eapply finish_claims.
Qed.

Lemma conclude_claims p elapsed s r s' out :
  conclude p elapsed s r = (s', out) -> claims_truth s (Answered r) ->
  claims_truth s' out /\ mutations s' = mutations s /\ commit s' = commit s
  /\ forall response, out = Answered (Ok response) ->
       exists bs, to_vec response = Some bs /\ blen bs <= max_output_bytes p.
Proof.
  unfold conclude. intros E [Hs Hf]. destruct r as [response|f].
  - destruct (to_vec response) as [bs|] eqn:Hv; [|by injection E as <- <-; split_and!; [split; [done|by intros f [= <-]]|..]].
    destruct (max_output_bytes p <? blen bs) eqn:Hb.
    + injection E as <- <-. split_and!; [split; [done|by intros f [= <-]]|done..].
    + injection E as <- <-. split_and!; [split; [done|done]|done|done|]. intros r [= <-]. exists bs. by apply N.ltb_ge in Hb.
  - injection E as <- <-. split_and!; [|done..]. split; [done|]. intros f' [= <-]. by apply Hf.
Qed.

(** The outcomes of [act]. *)
Lemma act_claims p admission program turns now elapsed c s out :
  act p admission program turns now elapsed c = (s, out) -> honest NotStarted false program ->
  claims_truth s out
  /\ forall response, out = Answered (Ok response) -> exists bs, to_vec response = Some bs /\ blen bs <= max_output_bytes p.
Proof.
  unfold act. intros E Hh.
  assert (truthful (mkRun c NotStarted 0)) as H0 by (split; [cbn; lia|done]).
  assert (forall e c', (mkRun c' NotStarted 0, Answered (Err (mkFailure e NotStarted))) = (s, out) -> claims_truth s out
    /\ forall response, out = Answered (Ok response) -> exists bs, to_vec response = Some bs /\ blen bs <= max_output_bytes p) as Hrefuse.
  { intros e c' [= <- <-]. split; [|done]. split; [split; [cbn; lia|done]|by intros f [= <-]]. }
  destruct (negb _); [by eapply Hrefuse|]. destruct (admit_action p admission) as [[]|e]; [|by eapply Hrefuse].
  destruct (closed c); [by eapply Hrefuse|].
  destruct (drive p now program turns _) as [s1 out1] eqn:Hd. apply drive_claims in Hd; [|exact H0|exact Hh].
  destruct out1 as [r|]; [|by injection E as <- <-]. apply conclude_claims in E as (H1 & _ & _ & H2); done.
Qed.

(** C16. An action that mutates at most once, within its commit, and does not call that
    commit failed, is reported truthfully under every interruption, panic included:
    it mutates at most once; a failure carries the final state of the commit, and a
    state that rules a commit out ([NotStarted], [PreCommit], [Failed]) means that
    nothing was mutated, so that a cancellation or a deadline never passes for a
    rollback; an action that is not granted, not admitted, or late, does not run; and a
    successful response is within the limit of the policy. *)
Theorem failures_are_truthful p admission program turns now elapsed c s out :
  act p admission program turns now elapsed c = (s, out) -> honest NotStarted false program ->
  (mutations s <= 1)%nat
  /\ (forall f, out = Answered (Err f) ->
        failure_state f = commit s /\ (may_have_committed (failure_state f) = false -> mutations s = 0%nat))
  /\ (require_policy actions (action_id p) (action_digest p) c && is_ok (admit_action p admission) && negb (closed c) = false ->
        mutations s = 0%nat /\ exists f, out = Answered (Err f) /\ failure_state f = NotStarted)
  /\ (forall response, out = Answered (Ok response) -> exists bs, to_vec response = Some bs /\ blen bs <= max_output_bytes p).
Proof.
  intros E Hh. destruct (act_claims _ _ _ _ _ _ _ _ _ E Hh) as [[[Hn Hd] Hf] Hok].
  split_and!; [done| |..|done].
  - intros f Ef. split; [by apply Hf|]. rewrite (Hf f Ef). intros Hnot. unfold did in Hd.
    destruct (mutations s); [done|]. rewrite Hd in Hnot; [done|]. apply N.ltb_lt. lia.
  - intros Hno. unfold act in E. destruct (require_policy _ _ _ c); cbn [negb] in E.
    + destruct (admit_action p admission) as [[]|e].
      * destruct (closed c); [injection E as <- <-; split; eauto|done].
      * injection E as <- <-. split; eauto.
    + injection E as <- <-. split; eauto.
Qed.

(** ** A server of idempotent actions *)

(** A permit whose action has not run, or has, with what it does with the permit. *)
Inductive Flight : Type :=
| Begun
| Ran (x : Settlement).

(** The idempotency server, the requests that hold its permits, and the mutations: the
    permit of each, and the length of the history when it happened. *)
Record System : Type := mkSystem {
  server : Server; flights : list (IdempotencyPermit * Flight); mutated : list (IdempotencyPermit * nat) }.

Definition settle_event (permit : IdempotencyPermit) (x : Settlement) : list Event :=
  match x with
  | SettleComplete r => [finish_event permit r]
  | SettleAbandon => [Abandoned permit]
  | SettleUnknown => [MarkedUnknown permit]
  | SettleNothing => []
  end.

(** The three parts of [act_idempotent]: up to the permit, [act], and its settlement. A
    request that is answered at once holds nothing; one that is lost keeps its permit. *)
Inductive system_step : System -> System -> Prop :=
| system_begin s p i input c digest clock now permit m answer :
    idempotent_check (Val := Val) p i input c = Ok digest ->
    admit_request (manager_policy i) (action_id p) (semantic_revision p) (deployment_epoch i) (idempotency_key i)
      (partition i) digest clock = Ok permit ->
    now <= u64_max ->
    begin (manager_policy i) (action_id p) (semantic_revision p) (deployment_epoch i) (idempotency_key i) (partition i)
      digest clock (Some now) (entries (server s)) = (m, answer) ->
    system_step s
      (mkSystem (mkServer m (permits (server s) ++ granted answer) (history (server s) ++ begin_event permit now answer))
         (flights s ++ map (fun q => (q, Begun)) (granted answer)) (mutated s))
| system_run s j permit p admission program turns now elapsed c r out :
    flights s !! j = Some (permit, Begun) ->
    honest NotStarted false program ->
    act p admission program turns now elapsed c = (r, out) ->
    system_step s
      (mkSystem (server s) (<[j := (permit, Ran (settlement out))]> (flights s))
         (mutated s ++ if did r then [(permit, length (history (server s)))] else []))
| system_settle s j permit x m r :
    flights s !! j = Some (permit, Ran x) -> x <> SettleNothing ->
    settle permit x (entries (server s)) = (m, r) ->
    system_step s
      (mkSystem (mkServer m (delete j (permits (server s))) (history (server s) ++ settle_event permit x))
         (delete j (flights s)) (mutated s)).

Definition idle : System := mkSystem empty_server [] [].

(** In this part of the history the scope of [p] was granted anew, past the expiry of [p];
    or the result of [p] was too large for its policy, which frees the scope. *)
Definition granted_after (p : IdempotencyPermit) (events : list Event) : Prop :=
  exists q now, Granted q now ∈ events /\ scope_digest_of q = scope_digest_of p /\ permit_expires p <= now.

Definition oversized_in (p : IdempotencyPermit) (events : list Event) : Prop :=
  exists result, Oversized p result ∈ events /\ permit_max_result_bytes p < blen result.

Definition released_in (p : IdempotencyPermit) (events : list Event) : Prop := granted_after p events \/ oversized_in p events.

(** A permit of the scope was used after the scope was granted anew past its expiry: it was
    consumed, or its action mutated. *)
Definition used_late (s : System) (d : string) (m : nat) : Prop :=
  late_use d (take m (history (server s)))
  \/ exists p n, (p, n) ∈ mutated s /\ (n <= m)%nat /\ scope_digest_of p = d /\ superseded p (take n (history (server s))).

(** What a run that mutated may do with its permit. *)
Definition keeps (f : Flight) : Prop := match f with Begun | Ran SettleAbandon => False | _ => True end.

(** The scope still remembers the permit, and no request in flight gives it up. *)
Definition kept (s : System) (p : IdempotencyPermit) : Prop :=
  (exists st, spec_run (scope_digest_of p) (history (server s)) = Some st /\ owner st = Some p)
  /\ forall f, (p, f) ∈ flights s -> keeps f.

Section scope.
Context (d : string).

Record system_ok (s : System) : Prop := {
  so_server : server_ok (server s);
  so_flights : (flights s).*1 = permits (server s);
  so_bound : forall p n, (p, n) ∈ mutated s -> (n <= length (history (server s)))%nat;
  so_kept : used_late s d (length (history (server s)))
    \/ forall p n, (p, n) ∈ mutated s -> scope_digest_of p = d -> released_in p (drop n (history (server s))) \/ kept s p;
  so_apart : forall i j p q n m, (i < j)%nat -> mutated s !! i = Some (p, n) -> mutated s !! j = Some (q, m) ->
    scope_digest_of p = d -> scope_digest_of q = d ->
    released_in p (drop n (take m (history (server s)))) \/ used_late s d m }.

Lemma released_mono p events events' : (forall e, e ∈ events -> e ∈ events') -> released_in p events -> released_in p events'.
Proof.
  intros Hsub [(q & now & Hin & H1 & H2)|(result & Hin & H1)]; [left; exists q, now|right; exists result]; auto.
Qed.

(** Late uses stay late, in a longer history with more mutations. *)
Lemma used_late_grows s s' m m' hs :
  history (server s') = (history (server s) ++ hs)%list -> (forall x, x ∈ mutated s -> x ∈ mutated s') ->
  (forall p n, (p, n) ∈ mutated s -> (n <= length (history (server s)))%nat) -> (m <= m')%nat ->
  (m <= length (history (server s)))%nat -> used_late s d m -> used_late s' d m'.
Proof.
  intros Hh Hmut Hb Hle Hlen [Hl|(p & n & Hin & Hn & Hd & Hs)]; unfold used_late; rewrite Hh.
  - left. rewrite <-(take_drop m (take m' _)), take_take, Nat.min_l, take_app_le by done. by apply late_use_app.
  - right. exists p, n. rewrite take_app_le by (by apply (Hb p)). split_and!; [by apply Hmut|lia|done..].
Qed.

(** The specification of a scope does not see the events of others. *)
Lemma spec_run_other scope events e : event_scope e <> scope -> spec_run scope (events ++ [e]) = spec_run scope events.
Proof. intros Hne. by rewrite spec_run_snoc, decide_False. Qed.

(** After a legal event of its scope a remembered permit is remembered, or the scope was
    granted past its expiry, or its result was too large; the permit that holds it may end
    it in any other way but one. *)
Lemma owner_after st e st' p :
  owner st = Some p -> spec_step st e = Some st' -> e <> Abandoned p ->
  (exists q now, e = Granted q now /\ permit_expires p <= now)
  \/ (exists result, e = Oversized p result /\ permit_max_result_bytes p < blen result)
  \/ (owner st' = Some p /\ forall q now, e <> Granted q now).
Proof.
  intros Ho Hst Hab. destruct st as [|q|q r|q]; [done|injection Ho as ->..];
    destruct e as [p' now'|p' r'|p' r'|p'|p'|? ? ? ?|? ? ? ?]; cbn in Hst;
    repeat match type of Hst with
    | (if ?b then _ else _) = _ => let E := fresh "E" in destruct b eqn:E
    | (match ?d with left _ => _ | right _ => _ end) = _ => destruct d
    end; try discriminate; try (injection Hst as <-; right; by right).
  all: try (left; exists p', now'; split; [done|]; by apply N.leb_le).
  - right. left. destruct a as [-> Hlt]. by exists r'.
  - subst p'. by destruct Hab.
Qed.

(** A mutation stays accounted for over one legal event. *)
Lemma remembered s srv' fl' mut' e st' p n :
  spec_run d (history srv') = Some st' -> history srv' = (history (server s) ++ [e])%list ->
  (n <= length (history (server s)))%nat -> scope_digest_of p = d ->
  (forall q f, (q, f) ∈ fl' -> (q, f) ∈ flights s \/ exists now, e = Granted q now) ->
  (kept s p -> e <> Abandoned p) ->
  released_in p (drop n (history (server s))) \/ kept s p ->
  released_in p (drop n (history srv')) \/ kept (mkSystem srv' fl' mut') p.
Proof.
  intros Hrun' Hh Hn Hd Hfl Hab Hcase. rewrite Hh in *. rewrite drop_app_le by done.
  destruct Hcase as [Hg|Hk]; [left; eapply released_mono; [|exact Hg]; set_solver|].
  pose proof (Hab Hk) as Hne. destruct Hk as [(st & Hrun & Ho) Hkeep]. rewrite Hd in Hrun.
  destruct (decide (event_scope e = d)) as [He|He].
  - pose proof Hrun' as Hrun2. rewrite spec_run_snoc, decide_True, Hrun in Hrun2 by done. cbn in Hrun2.
    destruct (owner_after _ _ _ _ Ho Hrun2 Hne) as [(q & now & -> & Hx)|[(result & -> & Hx)|[Ho' Hnew]]].
    + left. left. exists q, now. split_and!; [set_solver|by rewrite Hd|done].
    + left. right. exists result. split; [set_solver|done].
    + right. split; cbn [server flights]; [exists st'; by rewrite Hh, Hd|].
      intros f Hq. destruct (Hfl p f Hq) as [Hold|[now ->]]; [by apply Hkeep|by destruct (Hnew p now)].
  - right. rewrite spec_run_other in Hrun' by done. split; cbn [server flights].
    + exists st. rewrite Hh, Hd, spec_run_other by done. done.
    + intros f Hq. destruct (Hfl p f Hq) as [Hold|[now ->]]; [by apply Hkeep|]. by destruct He.
Qed.

(** A step of the server that mutates nothing. *)
Lemma server_step_ok s srv' fl' e :
  system_ok s -> server_ok srv' -> history srv' = (history (server s) ++ [e])%list -> fl'.*1 = permits srv' ->
  (forall q f, (q, f) ∈ fl' -> (q, f) ∈ flights s \/ exists now, e = Granted q now) ->
  (forall p, kept s p -> e <> Abandoned p) ->
  system_ok (mkSystem srv' fl' (mutated s)).
Proof.
  intros Hs Hsrv Hh Hf Hfl Hab. pose proof (so_bound _ Hs) as Hb.
  assert (Hgrow : forall m m', (m <= m')%nat -> (m <= length (history (server s)))%nat -> used_late s d m ->
            used_late (mkSystem srv' fl' (mutated s)) d m').
  { intros m m' Hle Hlen. by apply used_late_grows with (hs := [e]). }
  split; cbn [server flights mutated]; [done|done| | |].
  - intros p n Hin. rewrite Hh, length_app. specialize (Hb p n Hin). lia.
  - destruct (so_kept _ Hs) as [Hl|Hk]; [left; eapply Hgrow; [|done|exact Hl]; rewrite Hh, length_app; lia|].
    destruct (Hsrv d) as [Hlate|[st' Hok]].
    { left. left. cbn [server]. by rewrite take_ge. }
    right. intros p n Hin Hd. eapply remembered; [apply Hok|exact Hh|by apply (Hb p)|done|done|apply Hab|by apply Hk].
  - intros i j p q n m Hij Hi Hj Hp Hq. pose proof (Hb q m ltac:(by eapply list_elem_of_lookup_2)) as Hm.
    destruct (so_apart _ Hs i j p q n m Hij Hi Hj Hp Hq) as [?|?]; [left|right; by eapply Hgrow].
    rewrite Hh, take_app_le by done. done.
Qed.

Lemma settle_step s j permit x m r :
  (flights s).*1 = permits (server s) -> flights s !! j = Some (permit, Ran x) -> x <> SettleNothing ->
  settle permit x (entries (server s)) = (m, r) ->
  step (server s) (mkServer m (delete j (permits (server s))) (history (server s) ++ settle_event permit x)).
Proof.
  intros Hf Hj Hx Hm. assert (permits (server s) !! j = Some permit) as Hp by (by rewrite <-Hf, list_lookup_fmap, Hj).
  destruct x; cbn [settle settle_event] in *; [by eapply step_complete|by eapply step_abandon|by eapply step_mark_unknown|done].
Qed.

Lemma settle_single permit x : x <> SettleNothing -> exists e, settle_event permit x = [e]
  /\ (forall q, e = Abandoned q -> q = permit /\ x = SettleAbandon) /\ forall q now, e <> Granted q now.
Proof.
  intros Hx. destruct x as [r| | |]; [..|done]; cbn [settle_event]; eexists; (split; [done|]); split; try done.
  - intros q. unfold finish_event. by destruct (_ <? _).
  - intros q now. unfold finish_event. by destruct (_ <? _).
  - by intros q [= ->].
Qed.

Lemma fmap_delete {A B} (f : A -> B) (l : list A) j : f <$> delete j l = delete j (f <$> l).
Proof. by rewrite !delete_take_drop, fmap_app, fmap_take, fmap_drop. Qed.

Lemma begin_single permit now answer :
  exists e, begin_event permit now answer = [e] /\ (forall q, e <> Abandoned q)
    /\ forall q, q ∈ granted answer -> e = Granted q now.
Proof.
  destruct answer as [[p|r]|e]; cbn; eexists; (split; [done|]); (split; [done|]); intros q Hq.
  - by apply list_elem_of_singleton in Hq as ->.
  - by apply elem_of_nil in Hq.
  - by apply elem_of_nil in Hq.
Qed.

Lemma system_begin_ok s srv' answer permit now :
  system_ok s -> step (server s) srv' ->
  permits srv' = (permits (server s) ++ granted answer)%list ->
  history srv' = (history (server s) ++ begin_event permit now answer)%list ->
  system_ok (mkSystem srv' (flights s ++ map (fun q => (q, Begun)) (granted answer)) (mutated s)).
Proof.
  intros Hs Hst Hp Hh. pose proof (step_ok _ _ (so_server _ Hs) Hst) as Hsrv.
  destruct (begin_single permit now answer) as (e & He & Hab & Hg). rewrite He in Hh.
  apply (server_step_ok s srv' _ e); [done|done|done| | |by intros p _].
  - rewrite fmap_app, (so_flights _ Hs), Hp. f_equal. clear. induction (granted answer) as [|q l IH]; [done|]. cbn. by f_equal.
  - intros q f [Hq|Hq]%elem_of_app; [by left|right]. exists now. apply Hg.
    apply list_elem_of_In, in_map_iff in Hq as (q' & [= -> _] & Hq). by apply list_elem_of_In.
Qed.

Lemma system_settle_ok s j permit x m r :
  system_ok s -> flights s !! j = Some (permit, Ran x) -> x <> SettleNothing ->
  settle permit x (entries (server s)) = (m, r) ->
  system_ok (mkSystem (mkServer m (delete j (permits (server s))) (history (server s) ++ settle_event permit x))
               (delete j (flights s)) (mutated s)).
Proof.
  intros Hs Hj Hx Hm. pose proof (settle_step _ _ _ _ _ _ (so_flights _ Hs) Hj Hx Hm) as Hst.
  pose proof (step_ok _ _ (so_server _ Hs) Hst) as Hsrv. destruct (settle_single permit x Hx) as (e & He & Hab & _).
  rewrite He in *. apply (server_step_ok s _ _ e); [done|done|done| | |].
  - rewrite fmap_delete. by rewrite (so_flights _ Hs).
  - intros q f Hin. left. eapply elem_of_sublist; [exact Hin|apply sublist_delete].
  - intros p [_ Hkeep] Heq. destruct (Hab p Heq) as [-> ->]. by apply (Hkeep (Ran SettleAbandon)), (list_elem_of_lookup_2 _ j).
Qed.

(** A run that mutated settles in a way that keeps its permit. *)
Lemma run_keeps p admission program turns now elapsed c r out :
  act p admission program turns now elapsed c = (r, out) -> honest NotStarted false program ->
  did r = true -> keeps (Ran (settlement out)).
Proof.
  intros E Hh Hd. destruct (act_claims _ _ _ _ _ _ _ _ _ E Hh) as [[[_ Hmay] Hf] Hok].
  destruct out as [[response|f]|]; cbn [settlement]; [| |done].
  - by destruct (Hok response eq_refl) as (bs & -> & _).
  - rewrite (Hf f eq_refl). specialize (Hmay Hd). by destruct (commit r).
Qed.

Lemma insert_elem_of {A} (l : list A) j x y : x ∈ <[j := y]> l -> x = y \/ x ∈ l.
Proof.
  intros [i Hi]%list_elem_of_lookup. destruct (decide (i = j)) as [->|Hne].
  - apply list_lookup_insert_Some in Hi as [(_ & -> & _)|[? _]]; [by left|done].
  - rewrite list_lookup_insert_ne in Hi by done. right. by eapply list_elem_of_lookup_2.
Qed.

(** The permit of a request that has not run holds its scope, or was superseded. *)
Lemma begun_holds s j permit st :
  system_ok s -> flights s !! j = Some (permit, Begun) -> scope_digest_of permit = d -> scope_ok (server s) d st ->
  superseded permit (history (server s))
  \/ st = Held permit /\ forall f k, flights s !! k = Some (permit, f) -> k = j.
Proof.
  intros Hs Hj Hd Hok. pose proof (so_flights _ Hs) as Hf.
  assert (Hat : forall k f, flights s !! k = Some (permit, f) -> permits (server s) !! k = Some permit).
  { intros k f Hk. by rewrite <-Hf, list_lookup_fmap, Hk. }
  assert (Hin : permit ∈ out d (server s)) by (apply list_elem_of_filter; split; [done|by eapply list_elem_of_lookup_2, Hat]).
  destruct (sc_out _ _ _ Hok permit Hin) as [Hst|?]; [|by left].
  destruct (decide (Exists (fun k => k <> j /\ permits (server s) !! k = Some permit) (List.seq 0 (length (permits (server s)))))) as [Htwo|Hone].
  - left. apply List.Exists_exists in Htwo as (k & _ & Hne & Hk). pose proof (sc_order _ _ _ Hok) as Hord. pose proof (Hat _ _ Hj) as Hpj.
    pose proof (out_lookup (fun p _ => superseded p (history (server s))) d) as Hlook.
    destruct (decide (k < j)%nat); [eapply (Hlook _ k j)|eapply (Hlook _ j k)]; try done. lia.
  - right. split; [done|]. intros f k Hk. destruct (decide (k = j)) as [|Hne]; [done|]. exfalso. apply Hone, List.Exists_exists.
    pose proof (Hat _ _ Hk) as Hp. exists k. split; [|done]. apply in_seq. split; [lia|]. by eapply lookup_lt_Some.
Qed.

(** What a request that has not run finds: a late use, or no earlier mutation that the
    scope remembers. *)
Lemma begun_released s j permit :
  system_ok s -> flights s !! j = Some (permit, Begun) -> scope_digest_of permit = d ->
  (used_late s d (length (history (server s))) \/ superseded permit (history (server s)))
  \/ (exists st, scope_ok (server s) d st /\ st = Held permit /\ forall f k, flights s !! k = Some (permit, f) -> k = j)
     /\ forall p n, (p, n) ∈ mutated s -> scope_digest_of p = d -> released_in p (drop n (history (server s))).
Proof.
  intros Hs Hj Hd. destruct (so_kept _ Hs) as [?|Hk]; [by left; left|].
  destruct (so_server _ Hs d) as [Hlate|[st Hok]]; [left; left; left; by rewrite take_ge|].
  destruct (begun_holds s j permit st Hs Hj Hd Hok) as [?|[Hst Hone]]; [by left; right|]. right.
  split; [by exists st|]. intros p n Hin Hp. destruct (Hk p n Hin Hp) as [?|[(st' & Hrun & Ho) Hkeep]]; [done|].
  rewrite Hp, (sc_run _ _ _ Hok), Hst in Hrun. injection Hrun as <-. injection Ho as <-.
  by destruct (Hkeep Begun (list_elem_of_lookup_2 _ _ _ Hj)).
Qed.

Definition after_run (s : System) (j : nat) (permit : IdempotencyPermit) (x : Settlement) (fresh : bool) : System :=
  mkSystem (server s) (<[j := (permit, Ran x)]> (flights s))
    (mutated s ++ if fresh then [(permit, length (history (server s)))] else []).

Lemma after_run_mutated s j permit x fresh p n :
  (p, n) ∈ mutated (after_run s j permit x fresh) ->
  (p, n) ∈ mutated s \/ fresh = true /\ p = permit /\ n = length (history (server s)).
Proof.
  intros [?|Hin]%elem_of_app; [by left|right]. destruct fresh; [|by apply elem_of_nil in Hin].
  apply list_elem_of_singleton in Hin. by injection Hin as -> ->.
Qed.

Lemma used_late_run s j permit x fresh m m' :
  system_ok s -> (m <= m')%nat -> (m <= length (history (server s)))%nat -> used_late s d m -> used_late (after_run s j permit x fresh) d m'.
Proof.
  intros Hs Hle Hlen. apply used_late_grows with (hs := []); [by rewrite app_nil_r| |apply Hs|done|done].
  intros y Hy. apply elem_of_app. by left.
Qed.

(** A mutation of a permit that was superseded is a late use. *)
Lemma mutated_late s j permit x :
  scope_digest_of permit = d -> superseded permit (history (server s)) ->
  used_late (after_run s j permit x true) d (length (history (server s))).
Proof.
  intros Hd Hs. right. exists permit, (length (history (server s))). cbn [after_run server mutated].
  rewrite take_ge by done. split_and!; [apply elem_of_app; right; by left|done..].
Qed.

Lemma run_kept s j permit x (fresh : bool) :
  system_ok s -> flights s !! j = Some (permit, Begun) -> (fresh = true -> keeps (Ran x)) ->
  used_late (after_run s j permit x fresh) d (length (history (server s)))
  \/ forall p n, (p, n) ∈ mutated (after_run s j permit x fresh) -> scope_digest_of p = d ->
       released_in p (drop n (history (server s))) \/ kept (after_run s j permit x fresh) p.
Proof.
  intros Hs Hj Hkeep. destruct (so_kept _ Hs) as [Hl|Hk]; [left; by eapply used_late_run|].
  assert (Hold : forall p n, (p, n) ∈ mutated s -> scope_digest_of p = d ->
    released_in p (drop n (history (server s))) \/ kept (after_run s j permit x fresh) p).
  { intros p n Hin Hp. destruct (Hk p n Hin Hp) as [?|[Hst Hf]]; [by left|right]. split; [exact Hst|].
    intros f Hf'. apply insert_elem_of in Hf' as [[= -> ->]|Hf']; [|by apply Hf].
    by destruct (Hf Begun (list_elem_of_lookup_2 _ _ _ Hj)). }
  destruct fresh.
  2:{ right. intros p n [Hin|(? & _)]%after_run_mutated Hp; [by apply Hold|done]. }
  destruct (decide (scope_digest_of permit = d)) as [Hd|Hd].
  2:{ right. intros p n [Hin|(_ & -> & _)]%after_run_mutated Hp; [by apply Hold|done]. }
  destruct (begun_released s j permit Hs Hj Hd) as [[?|?]|[(st & Hok & -> & Hone) _]];
    [left; by eapply used_late_run|left; by apply mutated_late|].
  right. intros p n [Hin|(_ & -> & ->)]%after_run_mutated Hp; [by apply Hold|]. right. split.
  - exists (Held permit). cbn [after_run server]. by rewrite Hd, (sc_run _ _ _ Hok).
  - intros f [k Hf]%list_elem_of_lookup. cbn [after_run flights] in Hf. destruct (decide (j = k)) as [<-|Hne].
    + rewrite list_lookup_insert_eq in Hf by (by eapply lookup_lt_Some). injection Hf as <-. by apply Hkeep.
    + rewrite list_lookup_insert_ne in Hf by done. by destruct Hne; rewrite (Hone f k Hf).
Qed.

Lemma system_run_ok s j permit x (fresh : bool) :
  system_ok s -> flights s !! j = Some (permit, Begun) -> (fresh = true -> keeps (Ran x)) ->
  system_ok (after_run s j permit x fresh).
Proof.
  intros Hs Hj Hkeep. split; cbn [after_run server].
  - apply Hs.
  - change ((<[j := (permit, Ran x)]> (flights s)).*1 = permits (server s)). rewrite list_fmap_insert, list_insert_id; [apply Hs|]. by rewrite list_lookup_fmap, Hj.
  - intros p n [Hin|(_ & _ & ->)]%after_run_mutated; [by apply (so_bound _ Hs p)|done].
  - by apply run_kept.
  - intros a b p q n m Hab Ha Hb Hp Hq. unfold after_run in Ha, Hb. cbn [mutated] in Ha, Hb.
    destruct (decide (b < length (mutated s))%nat) as [Hlt|Hge].
    + rewrite lookup_app_l in Ha, Hb by lia.
      pose proof (so_bound _ Hs q m ltac:(by eapply list_elem_of_lookup_2)).
      destruct (so_apart _ Hs a b p q n m Hab Ha Hb Hp Hq) as [?|?]; [by left|right]. by eapply used_late_run.
    + destruct fresh; [|by rewrite lookup_app_r, lookup_nil in Hb by lia].
      assert (b = length (mutated s) /\ q = permit /\ m = length (history (server s))) as (-> & -> & ->).
      { rewrite lookup_app_r in Hb by lia. destruct (b - length (mutated s))%nat eqn:Eb; [|done].
        injection Hb as <- <-. split_and!; [lia|done..]. }
      rewrite lookup_app_l in Ha by lia. rewrite take_ge by done.
      destruct (begun_released s j permit Hs Hj Hq) as [[?|?]|[_ Hrel]];
        [right; by eapply used_late_run|right; by apply mutated_late|left]. by apply Hrel; [eapply list_elem_of_lookup_2|].
Qed.

Lemma system_step_ok s s' : system_ok s -> system_step s s' -> system_ok s'.
Proof.
  intros Hs Hst. destruct Hst as [s p i input c digest clock now permit m answer Hc Ha Hnow Hb
    |s j permit p admission program turns now elapsed c r out Hj Hh Ha|s j permit x m r Hj Hx Hm].
  - apply (system_begin_ok s _ answer permit now); [done| |done..]. by eapply step_begin.
  - apply system_run_ok; [done..|]. by eapply run_keeps.
  - by eapply system_settle_ok.
Qed.

Lemma idle_ok : system_ok idle.
Proof.
  split; cbn; [apply empty_server_ok|done| | |done].
  - intros p n Hin. by apply elem_of_nil in Hin.
  - right. intros p n Hin. by apply elem_of_nil in Hin.
Qed.

Lemma reachable_system s : rtc system_step idle s -> system_ok s.
Proof. intros Hr. pose proof idle_ok as H0. induction Hr as [|? ? ? Hst _ IH]; [done|]. apply IH. by eapply system_step_ok. Qed.
End scope.

(** C5. Idempotent actions commit at most once per retention: however requests begin,
    run, are interrupted, are lost and settle, at whatever times, if honest actions mutate
    twice under the same idempotency scope (policy, action, revision, epoch, key and
    partition), then in between the store granted the scope anew at a time past the expiry
    of the first permit, or the first action's own result was larger than its idempotency
    policy keeps, which frees the scope; or the scope had been used late before the second
    mutation: a permit was consumed, or its action mutated, after the scope was granted
    anew past its expiry. Otherwise retries within the retention never mutate again. *)
Theorem commits_at_most_once s i j p q n m :
  rtc system_step idle s -> (i < j)%nat -> mutated s !! i = Some (p, n) -> mutated s !! j = Some (q, m) ->
  scope_digest_of p = scope_digest_of q ->
  (exists k r now, (n <= k < m)%nat /\ history (server s) !! k = Some (Granted r now)
     /\ scope_digest_of r = scope_digest_of p /\ permit_expires p <= now)
  \/ (exists k result, (n <= k < m)%nat /\ history (server s) !! k = Some (Oversized p result)
       /\ permit_max_result_bytes p < blen result)
  \/ used_late s (scope_digest_of q) m.
Proof.
  intros Hr Hij Hi Hj Hsc. pose proof (reachable_system (scope_digest_of q) s Hr) as Hok.
  destruct (so_apart _ _ Hok i j p q n m Hij Hi Hj Hsc eq_refl) as [[(r & now & Hin & H1 & H2)|(result & Hin & Hx)]|Hl]; [..|by right; right];
    apply list_elem_of_lookup in Hin as [k Hk]; rewrite lookup_drop in Hk; apply lookup_take_Some in Hk as [Hk Hlt].
  - left. exists (n + k)%nat, r, now. split_and!; [lia|lia|done..].
  - right. left. exists (n + k)%nat, result. split_and!; [lia|lia|done..].
Qed.
End safety.

Module ActionSample.
(** A hash that is quick to compute. *)
#[local] Instance length_hash : Sha256 := fun bs => replicate 32 (byte_of (blen bs mod 256)).

Definition Val (_ : unit) : Type := unit.
Definition Response : Type := ActionResponse unit unit.

#[local] Instance response_serde : Serde Response := {|
  to_vec _ := Some (as_bytes "{}");
  from_slice _ := Some (ActionSuccess tt Stay) |}.

(** Begins its commit, waits, mutates, says so, waits and answers. *)
Definition rename : Action.Program (Ty := unit) (Val := Val) (Output := unit) (FieldErrors := unit) :=
  Commit BeginCommit (fun _ =>
    Await (Mutate (Commit MarkCommitted (fun _ => Await (Answer (Ok (ActionSuccess tt Stay))))))).

Definition standard : IdempotencyPolicy := Idempotency.mkPolicy "standard-retry" (from_secs 1) (256 * 1024).
Definition tiny : IdempotencyPolicy := Idempotency.mkPolicy "standard-retry" (from_secs 1) 1.

Definition from_ok (r : result DataError ActionPolicy) : ActionPolicy :=
  match r with Ok p => p | Err _ => mkAction "" 0 "" "" "" [] [] 0 0 0 0 SameOrigin CsrfSameOrigin false false [] 0 None [] end.

Definition policy : ActionPolicy := with_idempotency (from_ok (action_new "rename-account" 1 "input" "errors" "output")) standard.

Definition admission : Admission := mkAdmission FormUrlencoded 10 true true true true.
Definition request : DataContext Val :=
  mkContext (mkIdentity "request-1" "account" "deploy-1") 1000 ∅ (mkValues ∅ ∅ ∅) ∅ default_options None false false None ∅
    [] [] [] [] [].

Definition retry (m : IdempotencyPolicy) : ActionIdempotency :=
  mkIdempotent m (Idempotency.mkKey "request-key-00000001") (Idempotency.mkPartition "user-1") 1.

Definition others (c : DataContext Val) : DataContext Val := c.
Definition undisturbed : list (Turn (Val := Val)) := [Wake others; Wake others; Wake others].

(** One request at a time, with what it mutated and answered. *)
Definition serve (m : IdempotencyPolicy) (turns : list (Turn (Val := Val))) (now : N) (entries : InMemoryIdempotencyStore)
    : InMemoryIdempotencyStore * (nat * Outcome) :=
  let '((s, entries), out) :=
    act_idempotent policy admission rename turns 0 0 (retry m) (Ok (as_bytes "{}")) (Some now) (Some now) entries request in
  (entries, (mutations s, out)).

Definition ok_answer : Outcome (Output := unit) (FieldErrors := unit) := Answered (Ok (ActionSuccess tt Stay)).
Definition failed (e : DataError) (st : ActionCommitState) : Outcome (Output := unit) (FieldErrors := unit) :=
  Answered (Err (mkFailure e st)).

(** A retry replays; a cancelled commit is unknown, and stays so. *)
Example retries :
  (let '(m, first) := serve standard undisturbed 0 ∅ in let '(_, second) := serve standard undisturbed 5 m in (first, second))
    = ((1%nat, ok_answer), (0%nat, ok_answer))
  /\ (let '(m, first) := serve standard [Wake others; OnCancelled] 0 ∅ in
      let '(_, second) := serve standard undisturbed 5 m in (first, second))
    = ((0%nat, failed ActionOutcomeUnknown CommitUnknown), (0%nat, failed ActionOutcomeUnknown NotStarted)).
Proof. vm_compute. done. Qed.

(** A committed action whose result the idempotency policy finds too large is abandoned:
    the retry commits again. *)
Example oversized_result_commits_twice :
  (let '(m, first) := serve tiny undisturbed 0 ∅ in let '(_, second) := serve tiny undisturbed 5 m in (first, second))
    = ((1%nat, failed (ActionOutput 2 1) Committed), (1%nat, failed (ActionOutput 2 1) Committed)).
Proof. vm_compute. done. Qed.

Lemma rename_honest : honest NotStarted false rename.
Proof. cbn. repeat (split; [done|]). done. Qed.

(** The first run of the action, cancelled after its commit, within the grace period. *)
Definition late_turns : list (Turn (Val := Val)) := [Wake others; Wake others; OnCancelled; Wake others].

Definition late_run := act policy admission rename late_turns 0 0 request.

Lemma failures_are_truthful_witness : (mutations late_run.1 <= 1)%nat /\ late_run.2 = ok_answer.
Proof.
  split; [|vm_compute; reflexivity].
  destruct (failures_are_truthful policy admission rename late_turns 0 0 request late_run.1 late_run.2) as (H & _).
  - vm_compute. reflexivity.
  - repeat (split; [reflexivity || discriminate|]). exact I.
  - exact H.
Defined.

(** A server where the action commits, and again once the retention has passed. *)
Definition digest : string := hex (sha256 (as_bytes "{}")).
Definition permit_at (now : N) : IdempotencyPermit :=
  match admit_request standard "rename-account" 1 1 (idempotency_key (retry standard)) (partition (retry standard)) digest (Some now) with
  | Ok p => p
  | Err _ => Idempotency.mkPermit "" "" 0 0
  end.

Definition p0 : IdempotencyPermit := permit_at 0.
Definition p1 : IdempotencyPermit := permit_at 1000.
Definition scope : string := scope_digest_of p0.
Definition stored (p : IdempotencyPermit) (st : StoredState) (r : option bytes) : InMemoryIdempotencyStore :=
  {[scope := Idempotency.mkRecord (permit_input p) st r (permit_expires p)]}.

Definition done_events : list Event := [Granted p0 0; Idempotency.Finished p0 (as_bytes "{}")].
Definition begun : System := mkSystem (mkServer (stored p0 InProgress None) [p0] [Granted p0 0]) [(p0, Begun)] [].
Definition ran : System :=
  mkSystem (mkServer (stored p0 InProgress None) [p0] [Granted p0 0]) [(p0, Ran (SettleComplete (as_bytes "{}")))] [(p0, 1%nat)].
Definition settled : System := mkSystem (mkServer (stored p0 Completed (Some (as_bytes "{}"))) [] done_events) [] [(p0, 1%nat)].
Definition again : System :=
  mkSystem (mkServer (stored p1 InProgress None) [p1] (done_events ++ [Granted p1 1000])) [(p1, Begun)] [(p0, 1%nat)].
Definition ran_again : System :=
  mkSystem (mkServer (stored p1 InProgress None) [p1] (done_events ++ [Granted p1 1000]))
    [(p1, Ran (SettleComplete (as_bytes "{}")))] [(p0, 1%nat); (p1, 3%nat)].

Abbreviation sample_step := (system_step (Ty := unit) (Val := Val) (Output := unit) (FieldErrors := unit)).

Ltac by_vm := match goal with |- ?x = ?y => vm_cast_no_check (eq_refl y) end.

Lemma begun_step : sample_step idle begun.
Proof.
  apply (system_begin idle policy (retry standard) (Ok (as_bytes "{}")) request digest (Some 0) 0 p0
           (stored p0 InProgress None) (Ok (Execute p0))); [by_vm|by_vm|discriminate|by_vm].
Qed.

Lemma run_outcome : act policy admission rename undisturbed 0 0 request
  = (mkRun (record_receipt (action_receipt policy 0 (mkObservation Success 2 None false) Committed request) request) Committed 1,
     ok_answer).
Proof. by_vm. Qed.

Lemma ran_step : sample_step begun ran.
Proof.
  eapply (system_run begun 0 p0 policy admission rename undisturbed 0 0 request _ _ eq_refl rename_honest run_outcome).
Qed.

Lemma settled_step : sample_step ran settled.
Proof.
  apply (system_settle ran 0 p0 (SettleComplete (as_bytes "{}")) (stored p0 Completed (Some (as_bytes "{}"))) (Ok tt));
    [reflexivity|discriminate|by_vm].
Qed.

Lemma again_step : sample_step settled again.
Proof.
  apply (system_begin settled policy (retry standard) (Ok (as_bytes "{}")) request digest (Some 1000) 1000 p1
           (stored p1 InProgress None) (Ok (Execute p1))); [by_vm|by_vm|discriminate|by_vm].
Qed.

Lemma ran_again_step : sample_step again ran_again.
Proof.
  eapply (system_run again 0 p1 policy admission rename undisturbed 0 0 request _ _ eq_refl rename_honest run_outcome).
Qed.

Lemma ran_reachable : rtc sample_step idle ran_again.
Proof.
  eapply rtc_l; [exact begun_step|]. eapply rtc_l; [exact ran_step|]. eapply rtc_l; [exact settled_step|].
  eapply rtc_l; [exact again_step|]. apply rtc_once, ran_again_step.
Qed.

Lemma nothing_late d : ~ used_late ran_again d 3.
Proof.
  assert (Hneq : p0 <> p1) by (intros E%(f_equal permit_expires); vm_compute in E; discriminate).
  intros [(k & e & p & Hk & He & _ & i & j & q & now & later & Hij & Hi & Hj & _)|(p & n & Hin & _ & _ & i & j & q & now & later & Hij & Hi & Hj & _)].
  - pose proof (lookup_lt_Some _ _ _ Hj) as Hlt. rewrite length_take in Hlt.
    destruct k as [|[|[|k]]]; [by injection Hk as <-|lia|by injection Hk as <-|done].
  - change (mutated ran_again) with [(p0, 1%nat); (p1, 3%nat)] in Hin.
    apply elem_of_cons in Hin as [[= -> ->]|Hin]; [|apply list_elem_of_singleton in Hin; injection Hin as -> ->];
      pose proof (lookup_lt_Some _ _ _ Hj) as Hlt; cbn in Hlt; [lia|].
    destruct i as [|[|i]]; [|done|lia].
    exact (Hneq (f_equal (fun o => match o with Some (Granted p _) => p | _ => p0 end) Hi)).
Qed.

Lemma commits_at_most_once_witness :
  exists k r now, (1 <= k < 3)%nat /\ history (server ran_again) !! k = Some (Granted r now) /\ permit_expires p0 <= now.
Proof.
  destruct (commits_at_most_once ran_again 0 1 p0 p1 1 3 ran_reachable ltac:(lia) eq_refl eq_refl ltac:(vm_compute; reflexivity))
    as [(k & r & now & Hk & Hh & _ & Hx)|[(k & result & [Hk Hlt] & Hh & _)|Hlate]].
  - exists k, r, now. split; [exact Hk|]. split; [exact Hh|exact Hx].
  - destruct k as [|[|[|k]]]; [lia|discriminate Hh|discriminate Hh|lia].
  - destruct (nothing_late _ Hlate).
Defined.

(** Contracts that differ in what they let an action do, and not in their digest. *)
Example action_digest_is_ambiguous :
  let one := mkRequirement "db" {["db-write"]} in
  let two := [mkRequirement "db" ∅; mkRequirement "db-write" ∅] in
  match action_resource policy one, (p ← action_resource policy (mkRequirement "db" ∅); action_resource p (mkRequirement "db-write" ∅)) with
  | Ok p, Ok q => resources p = [one] /\ resources q = two /\ action_preimage p = action_preimage q
  | _, _ => False
  end.
Proof. vm_compute. done. Qed.
End ActionSample.
